(* ===== verification/_CoqProject ===== *)
-Q . S2P
Prelude.v
BitCount.v
Graph.v
DFABytecode.v
DFA.v
DFABytecodeInterpreter.v
DFABytecodeCompiler.v
CompilerTransitions.v
CompilerLayout.v
CompilerProof.v
InterpreterProof.v
BytecodeCorrect.v
MutableRangeList.v
NFA.v
NFABuilder.v
Term.v
TermProof.v
TermGraph.v
Yarr.v
YarrReading.v
YarrProof.v
CombinedURLFilters.v
URLFilterParser.v
URLFilterProof.v
URLFilterMeaning.v
ContentExtensionRule.v
UTF8Conversion.v
ActionSerialization.v
SerializationProof.v
URL.v
ContentExtension.v
ContentExtensionsBackend.v
ExceptionProof.v
GlobalStyleSheet.v
ContentExtensionError.v
ContentExtensionParser.v
ContentExtensionCompiler.v
RulePartition.v
BackendProof.v
NFAToDFA.v
Worklist.v
ConvertProof.v
RangeParametricity.v
Buckets.v
Partition.v
DFAMinimizer.v
SingularRanges.v
MinimizerSplit.v
MinimizerGraph.v
MinimizerProof.v
DFACombiner.v
CombinerProof.v
ProcessNFAs.v
TermAutomaton.v
SuffixSharing.v
SubtreeStack.v
SubtreeNodes.v
SubtreeProof.v
ProcessProof.v
Pipeline.v
RuleListProof.v
FileNames.v
FileSystem.v
FileSystemProof.v
SimulatedOS.v
RuleListFile.v
RuleListFileProof.v
RuleListStore.v
RuleListStoreProof.v
RuleListIdentifiers.v
RuleListStoreCorrect.v
StoreFailures.v
