(* ===== verification/Prelude.v ===== *)
(** * Verification of WebKit's content extensions

    The program is WebKit.  This library models its content blocker: the
    subsystem of [src/Source/WebCore/contentextensions/] that compiles a list of
    rules ("block this load when its URL matches this regular expression") to
    bytecode and runs that bytecode for every resource load, with the regular
    expression parser it uses ([src/Source/JavaScriptCore/yarr/YarrParser.h]), the
    store that keeps compiled rule lists in files
    ([src/Source/WebKit/UIProcess/API/APIContentRuleListStore.cpp]), and the pieces
    of [src/Source/WTF/wtf/] and [src/Source/WebCore/platform/] they rely on.  It is
    a compiler with its virtual machine, so most theorems say that a stage keeps the
    meaning of its input, and the theorems of the stages compose.

    ** The parts and how they interact

    A rule list arrives as JSON.  [ContentExtensionParser.cpp] turns it into
    rules, each with a trigger and an action.  [ContentExtensionCompiler.cpp]
    serializes the actions into bytes, so that a rule is denoted by the location
    of its action, and partitions the rules: the filters of rules without
    conditions, those of rules with conditions, and the conditions on the main
    document.  Each filter is parsed by Yarr, whose calls drive the delegate of
    [URLFilterParser.cpp]; the terms it builds are simplified and added to the
    prefix tree of [CombinedURLFilters.cpp].  The tree becomes NFAs ([Term.h],
    [ImmutableNFANodeBuilder.h]), the NFAs become DFAs ([NFAToDFA.cpp]), small
    DFAs are minimized and merged ([DFAMinimizer.cpp], [DFACombiner.cpp]), and
    DFAs become bytecode ([DFABytecodeCompiler.cpp]).  The parts are given to a
    client, which writes them to a temporary file; the file is mapped into memory and
    moved to a name made of the identifier of the list, where it is looked up later
    ([APIContentRuleListStore.cpp], [FileSystem.cpp], [FileSystemPOSIX.cpp],
    [NetworkCacheData.cpp], [UTF8Conversion.cpp]).  At load time
    [ContentExtensionsBackend.cpp] runs the bytecode of every extension
    ([DFABytecodeInterpreter.cpp]) on the URL, sorts the locations of the
    triggered actions, reads the actions back up to the last exception and
    applies them to the request; [ContentExtension.cpp] caches what the main
    document triggers.

    ** Files

    Shared: this prelude (machine integers, vectors, byte buffers, tactics,
    hints), [BitCount], [Graph] (languages and graphs with labelled edges).

    - [ContentExtensionError], [ContentExtensionParser]: JSON values to rules,
      [ContentExtensionParser.cpp], with every error code.
    - [ContentExtensionRule], [ActionSerialization], [SerializationProof]: the
      rules, their equality, and [serializeActions] with its maps of shared
      actions and pending selectors; [Action::deserialize].
    - [ContentExtensionCompiler], [RulePartition]: the loop of [compileRuleList]
      over the rules, [addUniversalActionsToDFA], lowering to bytecode; its
      [compileToBytecode] is in [Pipeline], the whole of it in [RuleListProof].
    - [Yarr], [YarrReading], [YarrProof]: [Yarr::Parser] as a state monad over
      the position in the pattern, emitting the calls to the delegate.
    - [Term], [TermProof], [TermGraph]: [Term.h], its language, and the NFA
      fragment of a term.
    - [URLFilterParser], [URLFilterProof], [URLFilterMeaning]: the delegate
      [PatternParser], [simplifySunkTerms], [URLFilterParser::addPattern].
    - [CombinedURLFilters]: the alphabet, the prefix tree, [addPattern],
      [addDomain].
    - [ProcessNFAs]: [processNFAs] with the traversal of a subtree and the
      reverse suffix tree.  [TermAutomaton]: an NFA under construction as a graph
      whose edges are terms.  [SuffixSharing]: when such a graph accepts nothing
      but patterns of the tree.  [SubtreeStack], [SubtreeNodes], [SubtreeProof]:
      the tree, the nodes and the steps of a traversal.  [ProcessProof]: all
      rounds.
    - [MutableRangeList], [NFA], [NFABuilder]: [MutableRange(List).h],
      [ImmutableNFA.h], [ImmutableNFANodeBuilder.h].
    - [NFAToDFA], [ConvertProof]: the subset construction; [Worklist] is the
      part of its proof that holds of every construction that numbers the nodes
      of an automaton while it discovers them.
    - [Partition], [Buckets], [DFAMinimizer]: the refinable partitions of
      [DFAMinimizer.cpp] and the minimizer.  [RangeParametricity],
      [SingularRanges], [MinimizerSplit], [MinimizerGraph], [MinimizerProof]: its
      ranges, its refinement, the graph it works on, and its correctness.
    - [DFACombiner], [CombinerProof]: the product of two DFAs and the loop that
      merges small ones.
    - [DFA], [DFABytecode], [DFABytecodeCompiler], [CompilerTransitions],
      [CompilerLayout], [CompilerProof]: [DFA.h], [DFANode.cpp], the instruction
      set, the compiler and its layout.
    - [DFABytecodeInterpreter], [InterpreterProof], [BytecodeCorrect]: the
      interpreter and the correctness of compilation.
    - [Pipeline], [RuleListProof]: from the combined filters, and from a rule
      list, to the answers of the interpreter.
    - [URL]: the accessors of [URL.h] that the backend uses.
    - [ContentExtension], [ContentExtensionsBackend], [ExceptionProof],
      [GlobalStyleSheet], [BackendProof]: the run-time side.
    - [UTF8Conversion]: the conversions of [UTF8Conversion.cpp] and the functions
      of [StringImpl.cpp] and [WTFString.cpp] that call them.
    - [FileNames]: [encodeForFileName] and [decodeFromFilename].
    - [FileSystem], [FileSystemProof]: the functions on files, over the classes [OS]
      (the system calls, parameters) and [POSIX] (what is documented of them); a
      logic of total correctness for computations on the system.  [SimulatedOS]: a
      system in memory that is an instance of both, on which the examples run, and
      any system with a log of what it closes.  The functions are those of
      [FileSystemPOSIX.cpp] outside of its Darwin branches, and the mapped data those
      of [NetworkCacheDataSoup.cpp], which its ports build with [FileSystemGlib.cpp].
    - [RuleListFile], [RuleListFileProof]: the file format and the client of the
      compiler.
    - [RuleListStore], [RuleListStoreProof], [RuleListIdentifiers],
      [RuleListStoreCorrect]: the operations of [ContentRuleListStore] and the
      accessors of [WebCompiledContentRuleList].  [StoreFailures]: short writes and
      writes that fail.

    ** How code is modelled

    Unsigned and signed integers are [Z], with the wrap-around written out ([u8],
    [u32], [s16], ...) where a value can leave its width: in bytes and bytecode, jump
    distances, offsets and sizes of files, locations and flags.  Indices into vectors
    and counters of their elements, as those of the partitions of [DFAMinimizer.cpp],
    are [Z] without a bound: the vectors they count would not fit the memory.  A
    [Vector] is a list read with [vec_at] and
    written with [vec_set]; [None] is an access outside it, a release assertion
    that fires, or the end of the fuel of a loop, so a theorem that a definition
    returns [Some] says that none of them happens.  A [HashMap] or [HashSet] is a
    [gmap] or [gset]; the order in which one is visited is the parameter of the
    class [HashOrder], over which the theorems quantify: a function of the contents,
    of which the proofs use only that it gives a permutation (that of a real table
    depends on its history too).  Strings are lists of code units with their width;
    URLs are converted with [utf8] before they are interpreted, as in the code.  State is passed
    explicitly; Yarr, the interpreter and the functions on files have small monads
    of their own ([ParserM], [Run], [SysM]).  A file that is mapped is a reference to
    the inode and not a copy, so that what happens to the file shows in the mapping.
    When data that are mapped are dropped, their descriptor is closed ([releaseData]).
    What is dispatched to a queue is run in order.

    ** What the theorems show

    - Compilation keeps meaning: [BytecodeCorrect] (bytecode computes the actions
      of the DFAs), [ConvertProof] (DFA and NFA agree), [MinimizerProof]
      (a minimized DFA agrees, and no two nodes are alike that have the same ordered
      lists of actions), [CombinerProof] (merged DFAs have
      the actions of both), [TermGraph] and [ProcessProof] (NFAs and prefix tree
      agree, and every round of [processNFAs] makes progress),
      [URLFilterMeaning] (terms and regular expression agree), [RulePartition]
      (the filters of a rule list have the actions of its rules), composed in
      [Pipeline] and [RuleListProof].
    - The layout of the bytecode is safe: no jump is truncated ([CompilerProof]).
    - The parser keeps its contract with the delegate and terminates
      ([YarrProof]); no filter that names ASCII characters other than NUL makes the
      delegate assert.
    - Actions survive serialization, in an order that lets exceptions work
      ([SerializationProof], [ExceptionProof], [GlobalStyleSheet]), and a load
      gets the status its actions ask for ([BackendProof]).
    - Rule lists are well formed after parsing ([ContentExtensionParser]);
      fields do not overlap, numbers do not overflow ([RulePartition], [URL]).
    - The store keeps its promises ([RuleListStoreCorrect]): what was compiled is
      found again, with its source, and read from the mapped file as it was
      compiled; errors leave what was stored; identifiers do not share files, and
      are listed as they are; removed and invalidated lists are not found.  Names of
      files and UTF-8 convert back ([FileNames], [UTF8Conversion]).  The code does not
      notice short writes, so the theorems speak of files that are [complete], that
      is have their header and their length; they are if no write is short.
    - The composed theorems have hypotheses.  The limits of the formats: actions of
      a node are counted in 16 bits, nodes in 32, jumps are signed 32 bits ([limits],
      with the check [limits_check] that runs).  The end of the URL must not lead to
      the fallback target of a node or to a node with a fallback jump
      ([end_of_url_kept], with [end_of_url_check]).  The filters name ASCII characters
      other than NUL, and none that is anchored is taken for one that matches
      everything ([rule_ready]).
    - Some theorems show where the code does not do what it is meant to: [nul_transition_lost], [negated_nul_is_end_of_line],
      [nonASCII_class_fails], [anchored_filter_rejected],
      [null_top_URL_depends_on_history], [case_sensitive_without_condition],
      [unknown_w_scheme_has_port_zero], [malformed_UTF8_accepted],
      [short_write_unnoticed], [handle_closed_twice].

    ** Fuel

    Loops whose recursion is not structural take fuel, and a theorem says how
    much is enough: the subset construction 2^n iterations for n NFA nodes, the
    minimizer the number of its transitions, the merger (m + 1) (n + 1) for m and
    n DFA nodes, the combiner the number of DFAs, [processNFAs] and the traversal
    of a subtree the number of vertices and edges, the interpreter the size of
    the program for each character, Yarr a multiple of the length of the pattern,
    the conversion from UTF-8 the number of bytes.  A write that is interrupted is
    repeated; [writes_end] says that the fuel is enough for the system at hand.

    ** Not modelled

    The rest of WebKit: JavaScriptCore's compilers and run time, the DOM, style,
    layout and rendering, loading and networking, the processes of WebKit2,
    ports and tools; third-party code; the parsers of JSON, URLs and CSS
    selectors, whose results are inputs here; the transfer of rule lists between
    processes, the concurrency of the queues of the store, the creation of its
    directory, and the end of the life of rule lists that were handed out; memory
    accounting and debug printers.  Of
    the content extensions themselves these are all that is left out, with the style
    sheet that the pages of the DOM share ([ContentExtensionStyleSheet.cpp]) and the
    freeing of data structures. *)

From stdpp Require Import base numbers option list list_numbers gmap.
From Stdlib Require Import ZArith Lia.

#[global] Open Scope Z_scope.

(** ** Tactics *)

(** Turn the boolean comparisons on [Z] in the context into propositions. *)
Ltac zbool :=
  repeat match goal with
  | H : (_ =? _) = true |- _ => apply Z.eqb_eq in H
  | H : (_ =? _) = false |- _ => apply Z.eqb_neq in H
  | H : (_ <? _) = true |- _ => apply Z.ltb_lt in H
  | H : (_ <? _) = false |- _ => apply Z.ltb_ge in H
  | H : (_ <=? _) = true |- _ => apply Z.leb_le in H
  | H : (_ <=? _) = false |- _ => apply Z.leb_gt in H
  | H : (_ && _)%bool = true |- _ => apply andb_prop in H; destruct H
  | H : (_ || _)%bool = false |- _ => apply orb_false_elim in H; destruct H
  | H : negb _ = true |- _ => apply negb_true_iff in H
  | H : negb _ = false |- _ => apply negb_false_iff in H
  end.

(** Case analysis on the scrutinee of an [if] in the goal, with the boolean
    comparison reflected. *)
Ltac zcase :=
  match goal with
  | |- context [if ?b then _ else _] => destruct b eqn:?; zbool
  end.

(** [lia] with division and modulo by constants. *)
Ltac divlia := Z.to_euclidean_division_equations; lia.

(** Split a monadic equation [x ← e; k = Some y] into its steps. *)
Ltac obind H :=
  repeat match type of H with
  | (_ ≫= _) = Some _ =>
      let x := fresh "x" in let Hx := fresh "Hx" in
      apply bind_Some in H; destruct H as [x [Hx H]]
  end.

(** ** Machine integers

    A [w]-bit unsigned integer is a [Z] in [0, 2^w), a signed one a [Z] in
    [-2^(w-1), 2^(w-1)); conversions reduce modulo [2^w]. *)

Definition uwrap (w z : Z) : Z := z mod 2 ^ w.
Definition swrap (w z : Z) : Z := (z + 2 ^ (w - 1)) mod 2 ^ w - 2 ^ (w - 1).

Abbreviation u8 := (uwrap 8).
Abbreviation u16 := (uwrap 16).
Abbreviation u32 := (uwrap 32).
Abbreviation u64 := (uwrap 64).
Abbreviation s8 := (swrap 8).
Abbreviation s16 := (swrap 16).
Abbreviation s32 := (swrap 32).

Definition UINT32_MAX : Z := 4294967295.
Definition INT32_MAX : Z := 2147483647.

Lemma uwrap_small w z : 0 <= z < 2 ^ w -> uwrap w z = z.
Proof. intros; unfold uwrap; apply Z.mod_small; lia. Qed.

Lemma uwrap_bound w z : 0 <= w -> 0 <= uwrap w z < 2 ^ w.
Proof. intros; unfold uwrap; apply Z.mod_pos_bound; lia. Qed.

Lemma swrap_small w z : 1 <= w -> - 2 ^ (w - 1) <= z < 2 ^ (w - 1) -> swrap w z = z.
Proof.
  intros Hw Hz. unfold swrap.
  assert (2 ^ w = 2 * 2 ^ (w - 1)) by (rewrite <- Z.pow_succ_r by lia; f_equal; lia).
  rewrite Z.mod_small; lia.
Qed.

(** Reading back as a signed integer what was stored modulo [2^w]. *)
Lemma swrap_uwrap w z : 0 <= w -> swrap w (uwrap w z) = swrap w z.
Proof.
  intros. unfold swrap, uwrap. f_equal. rewrite Z.add_mod_idemp_l; [done|lia].
Qed.

Lemma uwrap_uwrap w z : 0 <= w -> uwrap w (uwrap w z) = uwrap w z.
Proof. intros; unfold uwrap; rewrite Z.mod_mod; [done|lia]. Qed.

Lemma uwrap_sub w a b : uwrap w (uwrap w a - uwrap w b) = uwrap w (a - b).
Proof. unfold uwrap. symmetry. apply Zminus_mod. Qed.

Lemma uwrap_add_swrap w a d : 0 <= w -> uwrap w (a + swrap w d) = uwrap w (a + d).
Proof.
  intros. unfold uwrap, swrap.
  rewrite <- (Z.add_mod_idemp_r a), <- (Z.add_mod_idemp_r a d) by lia.
  f_equal. f_equal.
  rewrite Zminus_mod_idemp_l. f_equal. lia.
Qed.

(** ** Little-endian byte strings *)

(** [le_bytes n z]: the [n] bytes of [z], least significant first, as a store
    through a pointer to an [8*n]-bit integer writes them. *)
Fixpoint le_bytes (n : nat) (z : Z) : list Z :=
  match n with
  | O => []
  | S n => z mod 256 :: le_bytes n (z / 256)
  end.

(** [le_value bs]: the unsigned integer a load of these bytes yields. *)
Fixpoint le_value (bs : list Z) : Z :=
  match bs with
  | [] => 0
  | b :: bs => b + 256 * le_value bs
  end.

Definition is_byte (b : Z) : Prop := 0 <= b < 256.

Lemma length_le_bytes n z : length (le_bytes n z) = n.
Proof. revert z; induction n; intros; simpl; auto. Qed.

Lemma le_value_le_bytes n z : le_value (le_bytes n z) = uwrap (8 * Z.of_nat n) z.
Proof.
  unfold uwrap. revert z; induction n as [|n IH]; intros z; cbn [le_bytes le_value].
  - change (8 * Z.of_nat 0) with 0. rewrite Z.pow_0_r, Z.mod_1_r. done.
  - rewrite IH. replace (8 * Z.of_nat (S n)) with (8 + 8 * Z.of_nat n) by lia.
    rewrite Z.pow_add_r by lia. change (2 ^ 8) with 256.
    rewrite Z.rem_mul_r by lia. done.
Qed.

Lemma le_bytes_are_bytes n z : Forall is_byte (le_bytes n z).
Proof.
  revert z; induction n; intros; constructor; auto.
  unfold is_byte. apply Z.mod_pos_bound; lia.
Qed.

Lemma le_value_bound bs : Forall is_byte bs -> 0 <= le_value bs < 2 ^ (8 * Z.of_nat (length bs)).
Proof.
  induction 1 as [|b bs Hb _ IH]; [simpl; lia|].
  cbn [le_value length]. unfold is_byte in Hb.
  replace (8 * Z.of_nat (S (length bs))) with (8 + 8 * Z.of_nat (length bs)) by lia.
  rewrite Z.pow_add_r by lia. change (2 ^ 8) with 256. nia.
Qed.

#[global] Arguments le_bytes : simpl never.
#[global] Arguments le_value : simpl never.
#[global] Arguments uwrap : simpl never.
#[global] Arguments swrap : simpl never.

(** ** Vectors

    [WTF::Vector::operator[]] crashes outside [0, size()); [vec_at] is [None]
    there. *)

Definition vec_at {A} (l : list A) (i : Z) : option A :=
  if 0 <=? i then l !! Z.to_nat i else None.

Definition vec_size {A} (l : list A) : Z := Z.of_nat (length l).

(** [v[i] = x]; the crash outside the bounds is [None]. *)
Definition vec_set {A} (l : list A) (i : Z) (x : A) : option (list A) :=
  if (0 <=? i) && (i <? vec_size l) then Some (<[Z.to_nat i := x]> l) else None.

Lemma vec_at_Some {A} (l : list A) i x :
  vec_at l i = Some x <-> 0 <= i /\ l !! Z.to_nat i = Some x.
Proof. unfold vec_at. destruct (0 <=? i) eqn:E; zbool; naive_solver lia. Qed.

Lemma vec_at_nat {A} (l : list A) (i : nat) : vec_at l (Z.of_nat i) = l !! i.
Proof. unfold vec_at. rewrite Nat2Z.id. destruct (0 <=? Z.of_nat i) eqn:E; zbool; [done|lia]. Qed.

Lemma vec_at_bound {A} (l : list A) i x : vec_at l i = Some x -> 0 <= i < vec_size l.
Proof.
  rewrite vec_at_Some. intros [? H]. apply lookup_lt_Some in H. unfold vec_size. lia.
Qed.

Lemma vec_at_is_Some {A} (l : list A) i : 0 <= i < vec_size l -> is_Some (vec_at l i).
Proof.
  unfold vec_size. intros.
  unfold vec_at. destruct (0 <=? i) eqn:E; zbool; [|lia].
  apply lookup_lt_is_Some. lia.
Qed.

Lemma vec_set_Some {A} (l l' : list A) i x :
  vec_set l i x = Some l' <-> 0 <= i < vec_size l /\ l' = <[Z.to_nat i := x]> l.
Proof.
  unfold vec_set. destruct (0 <=? i) eqn:E1, (i <? vec_size l) eqn:E2; simpl; zbool; naive_solver lia.
Qed.

Lemma vec_set_spec {A} (l l' : list A) i x j :
  vec_set l i x = Some l' -> vec_at l' j = if i =? j then Some x else vec_at l j.
Proof.
  rewrite vec_set_Some. intros [Hi ->]. unfold vec_size in Hi. unfold vec_at.
  destruct (0 <=? j) eqn:Ej; zbool.
  - destruct (i =? j) eqn:E; zbool.
    + subst. rewrite list_lookup_insert_eq by lia. done.
    + rewrite list_lookup_insert_ne by lia. done.
  - destruct (i =? j) eqn:E; zbool; [lia|done].
Qed.

Lemma vec_set_size {A} (l l' : list A) i x : vec_set l i x = Some l' -> vec_size l' = vec_size l.
Proof. rewrite vec_set_Some. intros [_ ->]. unfold vec_size. by rewrite length_insert. Qed.

Lemma vec_size_app {A} (l k : list A) : vec_size (l ++ k) = vec_size l + vec_size k.
Proof. unfold vec_size. rewrite length_app. lia. Qed.

Lemma vec_size_nonneg {A} (l : list A) : 0 <= vec_size l.
Proof. unfold vec_size; lia. Qed.

Lemma vec_at_app_l {A} (v w : list A) i : i < vec_size v -> vec_at (v ++ w) i = vec_at v i.
Proof.
  intros Hi. unfold vec_at, vec_size in *. destruct (0 <=? i) eqn:E; zbool; [|done].
  apply lookup_app_l. lia.
Qed.

Lemma vec_at_middle {A} (v w : list A) x : vec_at (v ++ x :: w) (vec_size v) = Some x.
Proof. unfold vec_size. rewrite vec_at_nat. by apply list_lookup_middle. Qed.

Lemma vec_at_snoc {A} (v : list A) x : vec_at (v ++ [x]) (vec_size v) = Some x.
Proof. apply vec_at_middle. Qed.

Lemma vec_at_snoc_case {A} (v : list A) x j :
  vec_at (v ++ [x]) j = if j =? vec_size v then Some x else vec_at v j.
Proof.
  destruct (j =? vec_size v) eqn:E; zbool; [subst j; apply vec_at_snoc|].
  destruct (decide (j < vec_size v)); [by apply vec_at_app_l|].
  destruct (vec_at v j) eqn:E'; [apply vec_at_bound in E'; lia|].
  destruct (vec_at (v ++ [x]) j) eqn:E''; [|done]. apply vec_at_bound in E''. rewrite vec_size_app in E''.
  change (vec_size [x]) with 1 in E''. lia.
Qed.

Lemma vec_set_is_Some {A} (v : list A) i x : 0 <= i < vec_size v -> exists v', vec_set v i x = Some v'.
Proof. intros H. eexists. by apply vec_set_Some. Qed.

Lemma vec_size_le_bytes n z : vec_size (le_bytes n z) = Z.of_nat n.
Proof. unfold vec_size. by rewrite length_le_bytes. Qed.

Lemma vec_size_prefix {A} (v w : list A) : v `prefix_of` w -> vec_size v <= vec_size w.
Proof. intros [k ->]. rewrite vec_size_app. pose proof (vec_size_nonneg k). lia. Qed.

(** What automation knows about sizes. *)
Create HintDb vectors.
#[export] Hint Resolve vec_size_nonneg vec_size_prefix prefix_app_r : vectors.
#[export] Hint Rewrite @vec_size_app @vec_size_le_bytes @length_le_bytes @length_app : vectors.

(** ** Byte buffers *)

(** The [n] bytes at offset [i], or [None] when they are not all inside. *)
Definition read_bytes (bs : list Z) (i : Z) (n : nat) : option (list Z) :=
  if (0 <=? i) && (i + Z.of_nat n <=? vec_size bs)
  then Some (take n (drop (Z.to_nat i) bs)) else None.

(** Overwrite the bytes at offset [i]. *)
Definition write_bytes (bs : list Z) (i : Z) (new : list Z) : option (list Z) :=
  if (0 <=? i) && (i + vec_size new <=? vec_size bs)
  then Some (take (Z.to_nat i) bs ++ new ++ drop (Z.to_nat i + length new) bs) else None.

Lemma read_bytes_mid pre mid post n :
  n = length mid -> read_bytes (pre ++ mid ++ post) (vec_size pre) n = Some mid.
Proof.
  intros ->. unfold read_bytes, vec_size. rewrite !length_app.
  destruct ((0 <=? _) && _) eqn:E; zbool.
  - rewrite Nat2Z.id, drop_app_length, take_app_length. done.
  - apply andb_false_iff in E as [?|?]; zbool; lia.
Qed.

Lemma write_bytes_mid pre old new post :
  length old = length new ->
  write_bytes (pre ++ old ++ post) (vec_size pre) new = Some (pre ++ new ++ post).
Proof.
  intros Hl. unfold write_bytes, vec_size. rewrite !length_app.
  destruct ((0 <=? _) && _) eqn:E; zbool.
  - rewrite Nat2Z.id, take_app_length. rewrite <- Hl.
    rewrite <- drop_drop. rewrite drop_app_length, drop_app_length. done.
  - apply andb_false_iff in E as [?|?]; zbool; lia.
Qed.

(** ** Bits *)

(** Or-ing a shifted value over a smaller one adds them. *)
Lemma lor_shiftl_add a b n : 0 <= n -> 0 <= a < 2 ^ n -> Z.lor a (Z.shiftl b n) = a + b * 2 ^ n.
Proof.
  intros Hn Ha. rewrite <- Z.shiftl_mul_pow2 by lia.
  assert (Z.land a (Z.shiftl b n) = 0) as Hdisj.
  { apply Z.bits_inj'. intros i Hi. rewrite Z.land_spec, Z.bits_0, Z.shiftl_spec by lia.
    destruct (decide (i < n)).
    - rewrite (Z.testbit_neg_r b) by lia. apply andb_false_r.
    - rewrite <- (Z.mod_small a (2 ^ n)) by lia.
      rewrite Z.mod_pow2_bits_high by lia. done. }
  rewrite <- Z.lxor_lor by done. symmetry. apply Z.add_nocarry_lxor. done.
Qed.

(** A bounded quantification over [Z] that can be evaluated. *)
Definition forallZ (lo : Z) (n : nat) (P : Z -> bool) : bool :=
  forallb P (seqZ lo (Z.of_nat n)).

Lemma forallZ_spec lo n P :
  forallZ lo n P = true -> forall z, lo <= z < lo + Z.of_nat n -> P z = true.
Proof.
  unfold forallZ. rewrite forallb_forall. intros H z Hz. apply H.
  apply list_elem_of_In, elem_of_seqZ. lia.
Qed.

Lemma lor_bound a b n : 0 <= n -> 0 <= a < 2 ^ n -> 0 <= b < 2 ^ n -> 0 <= Z.lor a b < 2 ^ n.
Proof.
  intros Hn Ha Hb. assert (0 <= Z.lor a b) as H0 by (apply Z.lor_nonneg; lia). split; [done|].
  assert (Z.lor a b / 2 ^ n = 0) as Hz.
  { rewrite <- Z.shiftr_div_pow2, Z.shiftr_lor, !Z.shiftr_div_pow2, !Z.div_small by lia. done. }
  apply Z.div_small_iff in Hz; lia.
Qed.

(** ** Lists *)

Lemma filter_ext_elem {A} (P Q : A -> Prop) `{!∀ x, Decision (P x), !∀ x, Decision (Q x)} (l : list A) :
  (forall x, x ∈ l -> P x <-> Q x) -> filter P l = filter Q l.
Proof.
  induction l as [|x l IH]; intros HPQ; [done|].
  rewrite !filter_cons, IH by (intros; apply HPQ; by right).
  pose proof (HPQ x ltac:(left)).
  repeat case_decide; naive_solver.
Qed.

Lemma filter_true {A} (P : A -> Prop) `{!∀ x, Decision (P x)} (l : list A) :
  (forall x, x ∈ l -> P x) -> filter P l = l.
Proof.
  induction l as [|x l IH]; intros HP; [done|].
  rewrite filter_cons, decide_True by (apply HP; left). f_equal. apply IH. intros; apply HP; by right.
Qed.

Lemma filter_false {A} (P : A -> Prop) `{!∀ x, Decision (P x)} (l : list A) :
  (forall x, x ∈ l -> ~ P x) -> filter P l = [].
Proof.
  induction l as [|x l IH]; intros HP; [done|].
  rewrite filter_cons, decide_False by (apply HP; left). apply IH. intros; apply HP; by right.
Qed.

(** Storing one value at several indices of a vector. *)
Lemma vec_fill_spec {A} (f : Z -> Z) (x : A) (l : list A) (idx : list Z) :
  (forall i, i ∈ idx -> 0 <= f i < vec_size l) ->
  exists l', foldl (λ d i, d ← d; vec_set d (f i) x) (Some l) idx = Some l'
    /\ vec_size l' = vec_size l
    /\ (forall j, j ∈ (f <$> idx) -> vec_at l' j = Some x)
    /\ (forall j, j ∉ (f <$> idx) -> vec_at l' j = vec_at l j).
Proof.
  revert l. induction idx as [|i idx IH]; intros l Hb; simpl.
  - exists l. split_and!; [done|done| |done]. intros j Hj. by apply elem_of_nil in Hj.
  - destruct (vec_set l (f i) x) as [l1|] eqn:E1.
    2:{ unfold vec_set in E1. specialize (Hb i ltac:(left)).
        destruct ((0 <=? f i) && (f i <? vec_size l)) eqn:E; [done|].
        apply andb_false_iff in E as [?|?]; zbool; lia. }
    pose proof (vec_set_size _ _ _ _ E1) as Hsz.
    destruct (IH l1) as (l' & Hl' & Hsz' & Hin & Hout).
    { intros j Hj. rewrite Hsz. apply Hb. by right. }
    exists l'. split; [done|]. split; [lia|]. split.
    + intros j Hj. destruct (decide (j ∈ f <$> idx)) as [|Hn]; [by apply Hin|].
      rewrite Hout by done. rewrite (vec_set_spec _ _ _ _ _ E1).
      apply elem_of_cons in Hj as [->|]; [by rewrite Z.eqb_refl|done].
    + intros j Hj. rewrite not_elem_of_cons in Hj. destruct Hj as [Hne Hj].
      rewrite Hout by done. rewrite (vec_set_spec _ _ _ _ _ E1).
      destruct (f i =? j) eqn:E; zbool; [congruence|done].
Qed.

(** A left fold in the option monad that preserves an invariant succeeds. *)
Lemma foldl_option_inv {S I} (step : S -> I -> option S) (Inv : list I -> S -> Prop) idx s :
  Inv [] s ->
  (forall pre i todo s, idx = pre ++ i :: todo -> Inv pre s ->
     exists s', step s i = Some s' /\ Inv (pre ++ [i]) s') ->
  exists s', foldl (λ s i, s ← s; step s i) (Some s) idx = Some s' /\ Inv idx s'.
Proof.
  intros H0 Hstep.
  enough (forall todo pre s, idx = pre ++ todo -> Inv pre s ->
    exists s', foldl (λ s i, s ← s; step s i) (Some s) todo = Some s' /\ Inv idx s') as Hgen
    by (apply (Hgen idx []); done).
  induction todo as [|i todo IH]; intros d s1 Heq HI.
  - rewrite app_nil_r in Heq. subst. eauto.
  - destruct (Hstep d i todo s1 Heq HI) as (s' & Hs & HI'). simpl. rewrite Hs.
    apply (IH (d ++ [i])); [by rewrite <- app_assoc|done].
Qed.

(** The same for a loop over the indices [0..n-1]. *)
Lemma foldl_indices_inv {S} (step : S -> Z -> option S) (Inv : Z -> S -> Prop) n s :
  0 <= n -> Inv 0 s ->
  (forall i s, 0 <= i < n -> Inv i s -> exists s', step s i = Some s' /\ Inv (i + 1) s') ->
  exists s', foldl (λ s i, s ← s; step s i) (Some s) (seqZ 0 n) = Some s' /\ Inv n s'.
Proof.
  intros Hn H0 Hstep.
  destruct (foldl_option_inv step (λ pre s, Inv (vec_size pre) s) (seqZ 0 n) s) as (s' & Hs & HI).
  - done.
  - intros pre i todo s1 Heq HI.
    assert (i = vec_size pre /\ vec_size pre < n) as [-> Hlt].
    { apply (f_equal (λ l, l !! length pre)) in Heq. rewrite list_lookup_middle in Heq by done.
      apply lookup_seqZ in Heq. unfold vec_size. lia. }
    destruct (Hstep _ _ (conj (vec_size_nonneg pre) Hlt) HI) as (s' & ? & ?).
    exists s'. rewrite vec_size_app. done.
  - exists s'. split; [done|]. unfold vec_size in HI. rewrite length_seqZ in HI.
    by replace (Z.of_nat (Z.to_nat n)) with n in HI by lia.
Qed.

(** ** Sums *)

Definition sum {X} (w : X -> Z) (xs : list X) : Z := foldr (λ x n, w x + n) 0 xs.

Lemma sum_nonneg {X} (w : X -> Z) xs : (forall x, x ∈ xs -> 0 <= w x) -> 0 <= sum w xs.
Proof.
  induction xs as [|x xs IH]; intros Hw; simpl; [lia|].
  pose proof (Hw x ltac:(left)). apply Z.add_nonneg_nonneg; [done|]. apply IH. intros; apply Hw; by right.
Qed.

Lemma sum_app {X} (w : X -> Z) xs ys : sum w (xs ++ ys) = sum w xs + sum w ys.
Proof. unfold sum. induction xs as [|x xs IH]; simpl; lia. Qed.

Lemma sum_ext {X} (f g : X -> Z) xs : (forall x, x ∈ xs -> f x = g x) -> sum f xs = sum g xs.
Proof.
  unfold sum. induction xs as [|x xs IH]; intros Heq; simpl; [done|].
  rewrite Heq by left. by rewrite IH by (intros; apply Heq; by right).
Qed.

Lemma sum_fmap {X Y} (h : X -> Y) (f : Y -> Z) xs : sum f (h <$> xs) = sum (λ x, f (h x)) xs.
Proof. unfold sum. induction xs as [|x xs IH]; [done|]. rewrite fmap_cons. simpl. by f_equal. Qed.

(** A sum of bits that is extremal fixes every bit. *)
Lemma sum_bits_bound {X} (f : X -> bool) xs : 0 <= sum (λ x, Z.b2z (f x)) xs <= vec_size xs.
Proof. induction xs as [|x xs IH]; [done|]. unfold vec_size in *. simpl in *. destruct (f x); simpl; lia. Qed.

Lemma sum_bits_none {X} (f : X -> bool) xs : sum (λ x, Z.b2z (f x)) xs = 0 -> forall x, x ∈ xs -> f x = false.
Proof.
  induction xs as [|y xs IH]; intros Hs x Hx; [by apply elem_of_nil in Hx|]. simpl in Hs.
  pose proof (sum_bits_bound f xs). apply elem_of_cons in Hx as [->|Hx]; destruct (f y) eqn:?; simpl in Hs; try lia; try done.
  apply IH; [lia|done].
Qed.

Lemma sum_bits_all {X} (f : X -> bool) xs : sum (λ x, Z.b2z (f x)) xs = vec_size xs -> forall x, x ∈ xs -> f x = true.
Proof.
  induction xs as [|y xs IH]; intros Hs x Hx; [by apply elem_of_nil in Hx|]. unfold vec_size in Hs, IH. simpl in Hs.
  pose proof (sum_bits_bound f xs) as Hb. unfold vec_size in Hb.
  apply elem_of_cons in Hx as [->|Hx]; destruct (f y) eqn:?; simpl in Hs; try lia; try done.
  apply IH; [lia|done].
Qed.

(** ** Characters *)

Definition isASCIIDigit (c : Z) : bool := (48 <=? c) && (c <=? 57).
