(* ===== verification/BitCount.v ===== *)
(** * Counting the bits of a word

    Models [bitCount] of [src/Source/WTF/wtf/StdLibExtras.h], which adds the bits
    of a word in parallel, and shows that it counts them. *)

From stdpp Require Import base numbers option list list_numbers.
From Stdlib Require Import ZArith Lia Btauto.
From S2P Require Import Prelude.

(** [bitCount(unsigned)] *)
Definition bitCount32 (bits : Z) : Z :=
  let bits := u32 (bits - Z.land (Z.shiftr bits 1) 0x55555555) in
  let bits := u32 (Z.land bits 0x33333333 + Z.land (Z.shiftr bits 2) 0x33333333) in
  Z.shiftr (u32 (Z.land (u32 (bits + Z.shiftr bits 4)) 0xF0F0F0F * 0x1010101)) 24.

(** [bitCount(uint64_t)] *)
Definition bitCount64 (bits : Z) : Z := bitCount32 (u32 bits) + bitCount32 (u32 (Z.shiftr bits 32)).

(** The number of bits below [n] that are set. *)
Definition popcount (n z : Z) : Z := sum (λ i, Z.b2z (Z.testbit z i)) (seqZ 0 n).

(** ** Bytewise arithmetic *)

Lemma land_join x y a b : 0 <= x < 256 -> 0 <= a < 256 ->
  Z.land (x + 256 * y) (a + 256 * b) = Z.land x a + 256 * Z.land y b.
Proof.
  intros Hx Ha. set (z := Z.land (x + 256 * y) (a + 256 * b)).
  assert (z mod 256 = Z.land x a) as Hlow.
  { change 256 with (2 ^ 8). rewrite <- Z.land_ones by lia. unfold z.
    assert (forall X A m, Z.land (Z.land X A) m = Z.land (Z.land X m) (Z.land A m)) as ->
      by (intros; apply Z.bits_inj'; intros; rewrite !Z.land_spec; btauto).
    rewrite !Z.land_ones by lia. change (2 ^ 8) with 256. f_equal; divlia. }
  assert (z / 256 = Z.land y b) as Hhigh.
  { change 256 with (2 ^ 8). rewrite <- Z.shiftr_div_pow2 by lia. unfold z. rewrite Z.shiftr_land.
    rewrite !Z.shiftr_div_pow2 by lia. change (2 ^ 8) with 256. f_equal; divlia. }
  rewrite <- Hlow, <- Hhigh. divlia.
Qed.

(** Bits above a mask do not matter. *)
Lemma land_low k x y a : 0 <= k -> 0 <= a < 2 ^ k -> Z.land (x + 2 ^ k * y) a = Z.land x a.
Proof.
  intros Hk Ha. assert (a = Z.land a (Z.ones k)) as -> by (rewrite Z.land_ones, Z.mod_small; lia).
  rewrite (Z.land_comm a), !Z.land_assoc, !Z.land_ones by lia. f_equal.
  rewrite (Z.mul_comm (2 ^ k)), Z.mod_add by lia. done.
Qed.

Lemma land_shift_join k x y a b : 0 <= k <= 8 -> 0 <= x < 256 -> 0 <= a < 2 ^ (8 - k) ->
  Z.land (Z.shiftr (x + 256 * y) k) (a + 256 * b) = Z.land (Z.shiftr x k) a + 256 * Z.land (Z.shiftr y k) b.
Proof.
  intros Hk Hx Ha. rewrite !Z.shiftr_div_pow2 by lia.
  assert (2 ^ k * 2 ^ (8 - k) = 256) as Hpq by (rewrite <- Z.pow_add_r by lia; by replace (k + (8 - k)) with 8 by lia).
  assert (0 < 2 ^ k /\ 0 < 2 ^ (8 - k)) as [Hp Hq] by lia. set (p := 2 ^ k) in *. 
  assert ((x + 256 * y) / p = (x / p + 2 ^ (8 - k) * (y mod p)) + 256 * (y / p)) as ->.
  { replace (x + 256 * y) with (x + (2 ^ (8 - k) * y) * p) by (rewrite <- Hpq; ring). rewrite Z.div_add by lia.
    assert (2 ^ (8 - k) * y = 2 ^ (8 - k) * (p * (y / p) + y mod p)) as -> by (f_equal; apply Z.div_mod; lia).
    rewrite <- Hpq. ring. }
  assert (0 <= x / p < 2 ^ (8 - k)) by (split; [apply Z.div_pos; lia|apply Z.div_lt_upper_bound; lia]).
  pose proof (Z.mod_pos_bound y p Hp).
  rewrite land_join by nia. by rewrite land_low by lia.
Qed.

(** ** Four bytes *)

Section Bytes.

Definition stage1 (v m : Z) : Z := v - Z.land (Z.shiftr v 1) m.
Definition stage2 (v m : Z) : Z := Z.land v m + Z.land (Z.shiftr v 2) m.
Definition stage3 (v m : Z) : Z := Z.land (v + Z.shiftr v 4) m.

Lemma stage1_join x y b : 0 <= x < 256 -> stage1 (x + 256 * y) (0x55 + 256 * b) = stage1 x 0x55 + 256 * stage1 y b.
Proof. intros. unfold stage1. rewrite land_shift_join by lia. lia. Qed.

Lemma stage2_join x y b : 0 <= x < 256 -> stage2 (x + 256 * y) (0x33 + 256 * b) = stage2 x 0x33 + 256 * stage2 y b.
Proof. intros. unfold stage2. rewrite land_shift_join, land_join by lia. lia. Qed.

Lemma stage3_join x y b : 0 <= x <= 68 -> 0 <= y mod 16 <= 4 ->
  stage3 (x + 256 * y) (0x0f + 256 * b) = stage3 x 0x0f + 256 * stage3 y b.
Proof.
  intros Hx Hy. unfold stage3. rewrite !Z.shiftr_div_pow2 by lia. change (2 ^ 4) with 16.
  replace (x + 256 * y + (x + 256 * y) / 16) with ((x + x / 16 + 16 * (y mod 16)) + 256 * (y + y / 16)) by divlia.
  assert (0 <= x / 16 <= 4) by divlia. rewrite land_join by lia. change 16 with (2 ^ 4) at 2. by rewrite land_low by lia.
Qed.

(** What the stages make of one byte. *)
Definition byte_ok (x : Z) : bool :=
  let s1 := stage1 x 0x55 in
  let s2 := stage2 s1 0x33 in
  (0 <=? s1) && (s1 <? 256) && (0 <=? s2) && (s2 <=? 68) && (s2 mod 16 <=? 4)
  && (stage3 s2 0x0f =? popcount 8 x) && (0 <=? popcount 8 x) && (popcount 8 x <=? 8).

Lemma byte_stages x : 0 <= x < 256 -> byte_ok x = true.
Proof.
  intros Hx. assert (forallb byte_ok (seqZ 0 256) = true) as H by (by vm_compute).
  rewrite forallb_forall in H. apply H, list_elem_of_In, elem_of_seqZ. lia.
Qed.
End Bytes.

Lemma popcount_join n x y : 0 <= n -> 0 <= x < 256 -> popcount (8 + n) (x + 256 * y) = popcount 8 x + popcount n y.
Proof.
  intros Hn Hx. unfold popcount. rewrite seqZ_app, sum_app by lia. change 256 with (2 ^ 8). f_equal.
  - apply sum_ext. intros i Hi%elem_of_seqZ. f_equal. rewrite <- (Z.mod_pow2_bits_low _ 8 i) by lia.
    rewrite (Z.mul_comm (2 ^ 8)), Z.mod_add by lia. by rewrite Z.mod_pow2_bits_low by lia.
  - replace (0 + 8) with (8 + 0) by lia. rewrite <- fmap_add_seqZ, sum_fmap. apply sum_ext.
    intros i Hi%elem_of_seqZ. f_equal. replace (8 + i) with (i + 8) by lia. rewrite <- Z.div_pow2_bits by lia.
    f_equal. change (2 ^ 8) with 256. divlia.
Qed.

(** ** The theorems *)

Lemma bitCount32_bytes b0 b1 b2 b3 : 0 <= b0 < 256 -> 0 <= b1 < 256 -> 0 <= b2 < 256 -> 0 <= b3 < 256 ->
  let bits := b0 + 256 * (b1 + 256 * (b2 + 256 * b3)) in bitCount32 bits = popcount 32 bits.
Proof.
  intros H0 H1 H2 H3. cbv zeta. unfold bitCount32.
  rewrite (popcount_join 24), (popcount_join 16), (popcount_join 8) by lia.
  pose proof (byte_stages b0 H0) as K0. pose proof (byte_stages b1 H1) as K1.
  pose proof (byte_stages b2 H2) as K2. pose proof (byte_stages b3 H3) as K3. unfold byte_ok in *. zbool.
  change (_ - Z.land (Z.shiftr _ 1) 0x55555555) with
    (stage1 (b0 + 256 * (b1 + 256 * (b2 + 256 * b3))) (0x55 + 256 * (0x55 + 256 * (0x55 + 256 * 0x55)))).
  rewrite !stage1_join by lia. rewrite (uwrap_small 32 (stage1 _ _ + _)) by lia.
  change (Z.land ?v 0x33333333 + Z.land (Z.shiftr ?v 2) 0x33333333) with
    (stage2 v (0x33 + 256 * (0x33 + 256 * (0x33 + 256 * 0x33)))).
  rewrite !stage2_join by lia. rewrite (uwrap_small 32 (stage2 _ _ + _)) by lia.
  rewrite (uwrap_small 32 (_ + Z.shiftr _ 4)) by (rewrite Z.shiftr_div_pow2 by lia; divlia).
  change (Z.land (?v + Z.shiftr ?v 4) 0xF0F0F0F) with
    (stage3 v (0x0f + 256 * (0x0f + 256 * (0x0f + 256 * 0x0f)))).
  rewrite !stage3_join by divlia.
  repeat match goal with H : stage3 _ _ = _ |- _ => rewrite H; clear H end.
  rewrite Z.shiftr_div_pow2 by lia. unfold uwrap. change (2 ^ 32) with 4294967296. change (2 ^ 24) with 16777216. divlia.
Qed.

Lemma bitCount32_popcount bits : 0 <= bits < 2 ^ 32 -> bitCount32 bits = popcount 32 bits.
Proof.
  intros Hb. change (2 ^ 32) with 4294967296 in Hb.
  pose proof (bitCount32_bytes (bits mod 256) (bits / 256 mod 256) (bits / 65536 mod 256) (bits / 16777216)) as H.
  replace bits with (bits mod 256 + 256 * (bits / 256 mod 256 + 256 * (bits / 65536 mod 256 + 256 * (bits / 16777216))))
    by divlia.
  apply H; divlia.
Qed.

Lemma popcount_split n m z : 0 <= n -> 0 <= m -> popcount (n + m) z = popcount n z + popcount m (Z.shiftr z n).
Proof.
  intros Hn Hm. unfold popcount. rewrite seqZ_app, sum_app by lia. f_equal.
  replace (0 + n) with (n + 0) by lia. rewrite <- fmap_add_seqZ, sum_fmap. apply sum_ext.
  intros i Hi%elem_of_seqZ. rewrite Z.shiftr_spec by lia. do 2 f_equal. lia.
Qed.

Lemma popcount_mod n k z : 0 <= n <= k -> popcount n (z mod 2 ^ k) = popcount n z.
Proof. intros Hn. apply sum_ext. intros i Hi%elem_of_seqZ. by rewrite Z.mod_pow2_bits_low by lia. Qed.

Lemma bitCount64_popcount bits : bitCount64 bits = popcount 64 bits.
Proof.
  unfold bitCount64. rewrite !bitCount32_popcount by (apply uwrap_bound; lia).
  change 64 with (32 + 32). rewrite popcount_split by lia. unfold uwrap. by rewrite !popcount_mod by lia.
Qed.

(** The parallel addition of [bitCount] counts the bits of a 64-bit word. *)
Theorem bitCount64_correct bits :
  bitCount64 bits = popcount 64 bits /\ 0 <= bitCount64 bits <= 64.
Proof.
  rewrite bitCount64_popcount. split; [done|].
  apply (sum_bits_bound (Z.testbit bits) (seqZ 0 64)).
Qed.
