(* ===== verification/Graph.v ===== *)
(** * Graph fragments and the languages between their ends

    The algebra behind the construction of an automaton from a term: a fragment
    has one entry and one exit, and fragments can be put in sequence, made
    optional and repeated. *)

From stdpp Require Import base numbers option list.
From Stdlib Require Import ZArith Lia.
From S2P Require Import Prelude.

(** ** Languages *)

Definition language := list Z -> Prop.

Definition lang_nil : language := λ w, w = [].
Definition lang_cat (L M : language) : language := λ w, exists u v, w = u ++ v /\ L u /\ M v.
Definition lang_option (L : language) : language := λ w, w = [] \/ L w.

Inductive plus (L : language) : language :=
  | plus_one w : L w -> plus L w
  | plus_more u v : L u -> plus L v -> plus L (u ++ v).

Definition star (L : language) : language := lang_option (plus L).

Definition lang_eq (L M : language) : Prop := forall w, L w <-> M w.

Lemma plus_mono (L M : language) w : (forall w, L w -> M w) -> plus L w -> plus M w.
Proof. intros HLM. induction 1; [apply plus_one|apply plus_more]; auto. Qed.

#[export] Instance lang_eq_equivalence : Equivalence lang_eq.
Proof. split; unfold lang_eq; [done|intros ? ? H w; by rewrite H|intros ? ? ? H1 H2 w; by rewrite H1]. Qed.

#[export] Instance plus_proper : Proper (lang_eq ==> lang_eq) plus.
Proof. intros L M H w. split; apply plus_mono; intros v; apply H. Qed.

#[export] Instance lang_option_proper : Proper (lang_eq ==> lang_eq) lang_option.
Proof. intros L M H w. unfold lang_option. by rewrite (H w). Qed.

#[export] Instance lang_cat_proper : Proper (lang_eq ==> lang_eq ==> lang_eq) lang_cat.
Proof. intros L L' HL M M' HM w. unfold lang_cat. setoid_rewrite (HL _). setoid_rewrite (HM _). done. Qed.

Lemma lang_cat_nil_r L : lang_eq (lang_cat L lang_nil) L.
Proof.
  intros w. split; [intros (u & v & -> & Hu & ->); by rewrite app_nil_r|]. intros Hw. exists w, [].
  by rewrite app_nil_r.
Qed.

Lemma lang_cat_nil_l L : lang_eq (lang_cat lang_nil L) L.
Proof. intros w. split; [by intros (u & v & -> & -> & Hv)|]. intros Hw. by exists [], w. Qed.

(** ** Graphs *)

(** Edges from a node, on a character or on nothing, to a node. *)
Definition graph := Z -> option Z -> Z -> Prop.

Definition labelled (l : option Z) (w : list Z) : list Z := match l with Some c => c :: w | None => w end.

Inductive gpath (g : graph) : Z -> list Z -> Z -> Prop :=
  | gpath_nil n : gpath g n [] n
  | gpath_step n l m w k : g n l m -> gpath g m w k -> gpath g n (labelled l w) k.

Definition graph_union (g h : graph) : graph := λ n l m, g n l m \/ h n l m.
Definition single_edge (s : Z) (l : option Z) (d : Z) : graph := λ n l' m, n = s /\ l' = l /\ m = d.

Lemma labelled_app l u v : labelled l (u ++ v) = labelled l u ++ v.
Proof. by destruct l. Qed.

Lemma gpath_trans g n u m v k : gpath g n u m -> gpath g m v k -> gpath g n (u ++ v) k.
Proof.
  induction 1 as [|n l m' u k' He _ IH]; intros Hk; [done|]. rewrite <- labelled_app.
  eapply gpath_step; [exact He|]. auto.
Qed.

Lemma gpath_mono (g h : graph) n w m : (forall n l m, g n l m -> h n l m) -> gpath g n w m -> gpath h n w m.
Proof. intros Hgh. induction 1 as [|n l m' u k' He _ IH]; [constructor|]. eapply gpath_step; eauto. Qed.

Lemma gpath_edge (g : graph) n l m : g n l m -> gpath g n (labelled l []) m.
Proof. intros He. eapply gpath_step; [exact He|constructor]. Qed.

(** No path leaves a node without edges. *)
Lemma gpath_stuck (g : graph) n w m : (forall l k, ~ g n l k) -> gpath g n w m -> w = [] /\ m = n.
Proof. intros Hno Hp. destruct Hp as [|n l k w m He _]; [done|]. by apply Hno in He. Qed.

(** ** Fragments *)

Record frag (g : graph) (s d : Z) (I : Z -> Prop) (L : language) : Prop := mkFrag {
  fr_source n l m : g n l m -> n = s \/ I n;
  fr_target n l m : g n l m -> m = d \/ I m;
  fr_s : ~ I s;
  fr_d : ~ I d;
  fr_ne : s <> d;
  fr_lang w : gpath g s w d <-> L w
}.

Lemma frag_ext g g' s d (I I' : Z -> Prop) L L' :
  frag g s d I L -> (forall n l m, g n l m <-> g' n l m) -> (forall n, I n <-> I' n) -> lang_eq L L' ->
  frag g' s d I' L'.
Proof.
  intros [H1 H2 H3 H4 H5 H6] Hg HI HL. split; [| | | |done|].
  - intros n l m Hn. rewrite <- HI. by eapply H1, Hg.
  - intros n l m Hn. rewrite <- HI. by eapply H2, Hg.
  - by rewrite <- HI.
  - by rewrite <- HI.
  - intros w. rewrite <- (HL w), <- H6. split; apply gpath_mono; intros; by apply Hg.
Qed.

Lemma frag_no_exit g s d I L l k : frag g s d I L -> ~ g d l k.
Proof. intros Hf Hg. destruct (fr_source _ _ _ _ _ Hf _ _ _ Hg) as [?|?]; [by apply (fr_ne _ _ _ _ _ Hf)|by apply (fr_d _ _ _ _ _ Hf)]. Qed.

(** One edge on a set of characters. *)
Lemma frag_set s d (P : Z -> Prop) : s <> d ->
  frag (λ n l m, n = s /\ m = d /\ exists c, l = Some c /\ P c) s d (λ _, False) (λ w, exists c, w = [c] /\ P c).
Proof.
  intros Hne. split; try tauto. intros w. split.
  - inversion 1 as [|? l m w' ? He Hp]; subst; [done|]. destruct He as (_ & -> & c & -> & Hc).
    apply gpath_stuck in Hp as [-> _]; [by exists c|]. intros l k (-> & _). done.
  - intros (c & -> & Hc). apply (gpath_edge _ s (Some c) d). eauto.
Qed.

Lemma frag_eps s d : s <> d -> frag (single_edge s None d) s d (λ _, False) lang_nil.
Proof.
  intros Hne. split; unfold single_edge; try tauto. intros w. split.
  - inversion 1 as [|? l m w' ? He Hp]; subst; [done|]. destruct He as (_ & -> & ->).
    by apply gpath_stuck in Hp as [-> _]; [|intros l k (-> & _)].
  - intros ->. by apply (gpath_edge _ s None d).
Qed.

(** From inside a fragment that is part of a larger graph, whose other edges do
    not leave the fragment's inner nodes, the only way out is the exit. *)
Lemma frag_leave g h s d I L n w k :
  frag g s d I L -> (forall n l m, I n -> ~ h n l m) -> I n -> ~ I k ->
  gpath (graph_union g h) n w k ->
  exists u v, w = u ++ v /\ gpath g n u d /\ gpath (graph_union g h) d v k.
Proof.
  intros Hf Hh Hn Hk Hp. induction Hp as [|n l m w k He Hp IH]; [done|].
  destruct He as [He|He]; [|by apply Hh in He].
  destruct (fr_target _ _ _ _ _ Hf _ _ _ He) as [->|Hm].
  - exists (labelled l []), w. rewrite <- labelled_app. split_and!; [done|by apply gpath_edge|done].
  - destruct (IH Hm Hk) as (u & v & -> & Hu & Hv). exists (labelled l u), v. rewrite <- labelled_app.
    split_and!; [done|by eapply gpath_step|done].
Qed.

(** The same from the entry, when the first edge is the fragment's. *)
Lemma frag_leave_edge g h s d I L n l m w k :
  frag g s d I L -> (forall n l m, I n -> ~ h n l m) -> ~ I k -> g n l m ->
  gpath (graph_union g h) m w k ->
  exists u v, labelled l w = u ++ v /\ gpath g n u d /\ gpath (graph_union g h) d v k.
Proof.
  intros Hf Hh Hk He Hp. destruct (fr_target _ _ _ _ _ Hf _ _ _ He) as [->|Hm].
  - exists (labelled l []), w. rewrite <- labelled_app. split_and!; [done|by apply gpath_edge|done].
  - destruct (frag_leave g h s d I L m w k Hf Hh Hm Hk Hp) as (u & v & -> & Hu & Hv).
    exists (labelled l u), v. rewrite <- labelled_app. split_and!; [done|by eapply gpath_step|done].
Qed.

Lemma gpath_union_l g h n w m : gpath g n w m -> gpath (graph_union g h) n w m.
Proof. apply gpath_mono. by left. Qed.

Lemma gpath_union_r g h n w m : gpath h n w m -> gpath (graph_union g h) n w m.
Proof. apply gpath_mono. by right. Qed.

Lemma gpath_union_comm g h n w m : gpath (graph_union g h) n w m -> gpath (graph_union h g) n w m.
Proof. apply gpath_mono. unfold graph_union. tauto. Qed.

(** A fragment that may be skipped. *)
Lemma frag_option g s d I L :
  frag g s d I L -> frag (graph_union g (single_edge s None d)) s d I (lang_option L).
Proof.
  intros Hf. pose proof Hf as [H1 H2 H3 H4 H5 H6]. split; try done.
  - intros n l m [?|(-> & _)]; [by eapply H1|by left].
  - intros n l m [?|(_ & _ & ->)]; [by eapply H2|by left].
  - assert (forall l k, ~ graph_union g (single_edge s None d) d l k) as Hstuck.
    { intros l k [He|(? & _)]; [by apply (frag_no_exit _ _ _ _ _ _ _ Hf) in He|congruence]. }
    intros w. split.
    + inversion 1 as [|? l m w' ? He Hp]; subst; [done|]. destruct He as [He|(_ & -> & ->)].
      * destruct (frag_leave_edge g (single_edge s None d) s d I L s l m w' d Hf) as (u & v & -> & Hu & Hv); try done.
        { by intros n ? ? Hn (-> & _). }
        apply gpath_stuck in Hv as [-> _]; [|done]. right. rewrite app_nil_r. by apply H6.
      * left. by apply gpath_stuck in Hp as [-> _].
    + intros [->|Hw]; [|by apply gpath_union_l, H6]. apply gpath_union_r. by apply (gpath_edge _ s None d).
Qed.

(** Two fragments in sequence. *)
Lemma frag_seq g1 g2 s m d I1 I2 L1 L2 :
  frag g1 s m I1 L1 -> frag g2 m d I2 L2 ->
  (forall n, I1 n -> ~ I2 n) -> ~ I1 d -> ~ I2 s -> s <> d ->
  frag (graph_union g1 g2) s d (λ n, n = m \/ I1 n \/ I2 n) (lang_cat L1 L2).
Proof.
  intros Hf1 Hf2 Hdis Hd Hs Hne. pose proof Hf1 as [A1 A2 A3 A4 A5 A6]. pose proof Hf2 as [B1 B2 B3 B4 B5 B6].
  split; try done.
  - intros n l k [He|He]; [apply A1 in He|apply B1 in He]; tauto.
  - intros n l k [He|He]; [apply A2 in He|apply B2 in He]; tauto.
  - intros [?|[?|?]]; [congruence|done|done].
  - intros [?|[?|?]]; [congruence|done|done].
  - intros w. split.
    + inversion 1 as [|? l n w' ? He Hp]; subst; [done|].
      destruct He as [He|He]; [|apply B1 in He as [?|?]; [congruence|done]].
      destruct (frag_leave_edge g1 g2 s m I1 L1 s l n w' d Hf1) as (u & v & -> & Hu & Hv); try done.
      { intros x ? ? Hx Hg. apply B1 in Hg as [->|?]; [done|by eapply Hdis]. }
      exists u, v. split_and!; [done|by apply A6|].
      inversion Hv as [|? l' n' v' ? He' Hp' Hnl]; subst; [done|].
      destruct He' as [He'|He']; [apply A1 in He' as [?|?]; [congruence|done]|].
      destruct (frag_leave_edge g2 g1 m d I2 L2 m l' n' v' d Hf2) as (u' & v'' & -> & Hu' & Hv''); try done.
      { intros x ? ? Hx Hg. apply A1 in Hg as [->|?]; [done|by eapply Hdis]. }
      { by apply gpath_union_comm. }
      apply gpath_stuck in Hv'' as [-> _]; [rewrite app_nil_r; by apply B6|].
      intros ? ? [Hg|Hg]; [by apply (frag_no_exit _ _ _ _ _ _ _ Hf2) in Hg|apply A1 in Hg as [?|?]; [congruence|done]].
    + intros (u & v & -> & Hu & Hv). eapply gpath_trans; [by apply gpath_union_l, A6|by apply gpath_union_r, B6].
Qed.

(** The edges around a repeated fragment. *)
Definition loop_edges (s rs re d : Z) : graph :=
  graph_union (single_edge s None rs) (graph_union (single_edge re None rs) (single_edge re None d)).

Lemma frag_loop_path g s rs re d I L n w k :
  frag g rs re I L -> s <> rs -> s <> re -> s <> d -> rs <> d -> re <> d -> ~ I s -> ~ I d ->
  gpath (graph_union g (loop_edges s rs re d)) n w k -> k = d ->
  ((n = rs \/ I n) -> exists u v, w = u ++ v /\ gpath g n u re /\ (v = [] \/ plus L v))
  /\ (n = re -> w = [] \/ plus L w) /\ (n = s -> plus L w) /\ (n = d -> w = []).
Proof.
  intros Hf Hsrs Hsre Hsd Hrsd Hred HIs HId. pose proof Hf as [H1 H2 H3 H4 H5 H6].
  intros Hp Hk. induction Hp as [n|n l m w k He Hp IH].
  { subst n. split_and!; intros; try congruence. by exfalso; destruct H as [?|?]; [congruence|]. }
  specialize (IH Hk). subst k. destruct IH as (IHin & IHre & IHs & IHd).
  assert (m = rs -> plus L w) as Hrs.
  { intros Hm. destruct IHin as (u & v & -> & Hu & Hv); [by left|]. subst m.
    destruct Hv as [->|Hv]; [rewrite app_nil_r; by apply plus_one, H6|by apply plus_more; [apply H6|]]. }
  destruct He as [He|[(-> & -> & ->)|[(-> & -> & ->)|(-> & -> & ->)]]].
  - pose proof (H1 _ _ _ He) as Hn. pose proof (H2 _ _ _ He) as Hm. split_and!.
    + intros _. destruct Hm as [->|Hm].
      * exists (labelled l []), w. rewrite <- labelled_app. split_and!; [done|by apply gpath_edge|auto].
      * destruct IHin as (u & v & -> & Hu & Hv); [by right|]. exists (labelled l u), v. rewrite <- labelled_app.
        split_and!; [done|by eapply gpath_step|done].
    + intros ->. by apply (frag_no_exit _ _ _ _ _ _ _ Hf) in He.
    + intros ->. destruct Hn; [congruence|done].
    + intros ->. destruct Hn; [congruence|done].
  - split_and!; intros; simpl; [by exfalso; destruct H as [?|?]; [congruence|]|congruence|auto|congruence].
  - split_and!; intros; simpl; [by exfalso; destruct H as [?|?]; [congruence|]|auto|congruence|congruence].
  - split_and!; intros; simpl; [by exfalso; destruct H as [?|?]; [congruence|]|left; auto|congruence|congruence].
Qed.

(** A fragment that is repeated. *)
Lemma frag_loop g s rs re d I L :
  frag g rs re I L -> s <> rs -> s <> re -> s <> d -> rs <> d -> re <> d -> ~ I s -> ~ I d ->
  frag (graph_union g (loop_edges s rs re d)) s d (λ n, n = rs \/ n = re \/ I n) (plus L).
Proof.
  intros Hf Hsrs Hsre Hsd Hrsd Hred HIs HId. pose proof Hf as [H1 H2 H3 H4 H5 H6]. split.
  - intros n l m [He|[(-> & _)|[(-> & _)|(-> & _)]]]; [apply H1 in He|..]; tauto.
  - intros n l m [He|[(_ & _ & ->)|[(_ & _ & ->)|(_ & _ & ->)]]]; [apply H2 in He|..]; tauto.
  - intros [?|[?|?]]; [congruence|congruence|done].
  - intros [?|[?|?]]; [congruence|congruence|done].
  - done.
  - set (g' := graph_union g (loop_edges s rs re d)).
    assert (gpath g' s [] rs) as Hin by (apply (gpath_edge g' s None rs); right; by left).
    assert (gpath g' re [] rs) as Hback by (apply (gpath_edge g' re None rs); right; right; by left).
    assert (gpath g' re [] d) as Hout by (apply (gpath_edge g' re None d); right; right; by right).
    intros w. split; [intros Hp; by apply (frag_loop_path g s rs re d I L s w d Hf) in Hp as (_ & _ & ? & _); auto|].
    intros Hw. apply (gpath_trans g' s [] rs w d Hin). induction Hw as [w Hw|u v Hu _ IH].
    + rewrite <- (app_nil_r w). eapply gpath_trans; [by apply gpath_union_l, H6|done].
    + eapply gpath_trans; [by apply gpath_union_l, H6|]. by apply (gpath_trans g' re [] rs v d Hback).
Qed.
