(* ===== verification/DFABytecode.v ===== *)
(** * The bytecode format of compiled content blockers

    Models [src/Source/WebCore/contentextensions/DFABytecode.h], the reading
    and writing primitives that [DFABytecodeCompiler.cpp] and
    [DFABytecodeInterpreter.cpp] share, and the layout of an action word
    ([src/Source/WebCore/loader/ResourceLoadInfo.h]).  Bytes are [Z] in
    [0, 256); a buffer is a list of bytes. *)

From stdpp Require Import base numbers option list gmap.
From Stdlib Require Import ZArith Lia.
From S2P Require Import Prelude.

(** ** Instructions *)

Inductive DFABytecodeInstruction :=
  | CheckValueCaseInsensitive
  | CheckValueCaseSensitive
  | JumpTableCaseInsensitive
  | JumpTableCaseSensitive
  | CheckValueRangeCaseInsensitive
  | CheckValueRangeCaseSensitive
  | AppendAction
  | AppendActionWithIfCondition
  | TestFlagsAndAppendAction
  | TestFlagsAndAppendActionWithIfCondition
  | Terminate
  | Jump.

#[export] Instance DFABytecodeInstruction_eq_dec : EqDecision DFABytecodeInstruction.
Proof. solve_decision. Defined.

(** The [uint8_t] value of each enumerator. *)
Definition instruction_code (i : DFABytecodeInstruction) : Z :=
  match i with
  | CheckValueCaseInsensitive => 0x0
  | CheckValueCaseSensitive => 0x1
  | JumpTableCaseInsensitive => 0x2
  | JumpTableCaseSensitive => 0x3
  | CheckValueRangeCaseInsensitive => 0x4
  | CheckValueRangeCaseSensitive => 0x5
  | AppendAction => 0x6
  | AppendActionWithIfCondition => 0x7
  | TestFlagsAndAppendAction => 0x8
  | TestFlagsAndAppendActionWithIfCondition => 0x9
  | Terminate => 0xA
  | Jump => 0xB
  end.

(** The enumerator with a given value; [None] for a value that is not one. *)
Definition instruction_of_code (z : Z) : option DFABytecodeInstruction :=
  if z =? 0x0 then Some CheckValueCaseInsensitive
  else if z =? 0x1 then Some CheckValueCaseSensitive
  else if z =? 0x2 then Some JumpTableCaseInsensitive
  else if z =? 0x3 then Some JumpTableCaseSensitive
  else if z =? 0x4 then Some CheckValueRangeCaseInsensitive
  else if z =? 0x5 then Some CheckValueRangeCaseSensitive
  else if z =? 0x6 then Some AppendAction
  else if z =? 0x7 then Some AppendActionWithIfCondition
  else if z =? 0x8 then Some TestFlagsAndAppendAction
  else if z =? 0x9 then Some TestFlagsAndAppendActionWithIfCondition
  else if z =? 0xA then Some Terminate
  else if z =? 0xB then Some Jump
  else None.

Definition DFABytecodeInstructionMask : Z := 0x0F.
Definition DFABytecodeJumpSizeMask : Z := 0xF0.

(** [sizeof(DFAHeader)] *)
Definition sizeof_DFAHeader : Z := 4.
(** [sizeof(DFABytecodeInstruction)] *)
Definition sizeof_instruction : Z := 1.

(** ** Jump sizes *)

Inductive DFABytecodeJumpSize := Int8 | Int16 | Int24 | Int32.

#[export] Instance DFABytecodeJumpSize_eq_dec : EqDecision DFABytecodeJumpSize.
Proof. solve_decision. Defined.

Definition jumpSize_code (s : DFABytecodeJumpSize) : Z :=
  match s with Int8 => 0x10 | Int16 => 0x20 | Int24 => 0x30 | Int32 => 0x40 end.

Definition jumpSize_of_code (z : Z) : option DFABytecodeJumpSize :=
  if z =? 0x10 then Some Int8
  else if z =? 0x20 then Some Int16
  else if z =? 0x30 then Some Int24
  else if z =? 0x40 then Some Int32
  else None.

Definition Int24Max : Z := 2 ^ 23 - 1.
Definition Int24Min : Z := - 2 ^ 23.

Definition smallestPossibleJumpSize (longestPossibleJump : Z) : DFABytecodeJumpSize :=
  if (longestPossibleJump <=? 127) && (-128 <=? longestPossibleJump) then Int8
  else if (longestPossibleJump <=? 32767) && (-32768 <=? longestPossibleJump) then Int16
  else if (longestPossibleJump <=? Int24Max) && (Int24Min <=? longestPossibleJump) then Int24
  else Int32.

(** [std::max] on jump sizes compares the enumerators' values. *)
Definition jumpSize_max (a b : DFABytecodeJumpSize) : DFABytecodeJumpSize :=
  if jumpSize_code a <? jumpSize_code b then b else a.

Definition jumpSizeInBytes (s : DFABytecodeJumpSize) : Z :=
  match s with Int8 => 1 | Int16 => 2 | Int24 => 2 + 1 | Int32 => 4 end.

(** The size of an instruction with its arguments; [None] is the release
    assertion on the instructions of variable size. *)
Definition instructionSizeWithArguments (i : DFABytecodeInstruction) : option Z :=
  match i with
  | CheckValueCaseSensitive | CheckValueCaseInsensitive
  | JumpTableCaseInsensitive | JumpTableCaseSensitive
  | CheckValueRangeCaseSensitive | CheckValueRangeCaseInsensitive
  | Jump => None
  | AppendAction | AppendActionWithIfCondition => Some (1 + 4)
  | TestFlagsAndAppendAction | TestFlagsAndAppendActionWithIfCondition => Some (1 + 2 + 4)
  | Terminate => Some 1
  end.

(** ** Action words *)

Definition ResourceTypeMask : Z := 0x03FF.
Definition LoadTypeMask : Z := 0x0C00.
Definition ActionFlagMask : Z := 0x0000FFFF00000000.
Definition IfConditionFlag : Z := 0x0001000000000000.

(** ** Writing: [DFABytecodeCompiler.cpp] *)

(** [append<IntType>] with [n = sizeof(IntType)]. *)
Definition append (n : nat) (bytecode : list Z) (value : Z) : list Z :=
  bytecode ++ le_bytes n value.

Definition appendZeroes (bytecode : list Z) (jumpSize : DFABytecodeJumpSize) : list Z :=
  match jumpSize with
  | Int8 => append 1 bytecode 0
  | Int16 => append 2 bytecode 0
  | Int24 => append 1 (append 2 bytecode 0) 0
  | Int32 => append 4 bytecode 0
  end.

(** [setBits<IntType>]; [None] is the release assertion on the bounds. *)
Definition setBits (n : nat) (bytecode : list Z) (index value : Z) : option (list Z) :=
  write_bytes bytecode index (le_bytes n value).

(** ** Reading: [DFABytecodeInterpreter.cpp]

    [None] stands for a read outside the buffer. *)

Definition getBits_unsigned (n : nat) (bytecode : list Z) (index : Z) : option Z :=
  le_value <$> read_bytes bytecode index n.

Definition getBits_signed (n : nat) (bytecode : list Z) (index : Z) : option Z :=
  swrap (8 * Z.of_nat n) <$> getBits_unsigned n bytecode index.

(** The low four bits of the opcode byte, before the cast to the enum. *)
Definition getInstruction (bytecode : list Z) (index : Z) : option Z :=
  b ← getBits_unsigned 1 bytecode index;
  Some (Z.land b DFABytecodeInstructionMask).

(** [None] also for a value that is not a jump size: every caller passes the
    result to [jumpSizeInBytes] or [getJumpDistance], which release-assert. *)
Definition getJumpSize (bytecode : list Z) (index : Z) : option DFABytecodeJumpSize :=
  b ← getBits_unsigned 1 bytecode index;
  jumpSize_of_code (Z.land b DFABytecodeJumpSizeMask).

Definition getJumpDistance (bytecode : list Z) (index : Z) (jumpSize : DFABytecodeJumpSize) : option Z :=
  match jumpSize with
  | Int8 => getBits_signed 1 bytecode index
  | Int16 => getBits_signed 2 bytecode index
  | Int24 =>
      low ← getBits_unsigned 2 bytecode index;
      high ← getBits_signed 1 bytecode (index + 2);
      Some (Z.lor low (Z.shiftl high 16))
  | Int32 => getBits_signed 4 bytecode index
  end.

(** ** The jump field *)

(** The distances a field of a given size can hold. *)
Definition fits (s : DFABytecodeJumpSize) (d : Z) : Prop :=
  match s with
  | Int8 => -128 <= d <= 127
  | Int16 => -32768 <= d <= 32767
  | Int24 => Int24Min <= d <= Int24Max
  | Int32 => -2147483648 <= d <= 2147483647
  end.

#[export] Instance fits_dec s d : Decision (fits s d).
Proof. destruct s; unfold fits; apply _. Defined.

(** The bytes of a linked jump field. *)
Definition jump_field (s : DFABytecodeJumpSize) (d : Z) : list Z :=
  match s with
  | Int8 => le_bytes 1 (s8 d)
  | Int16 => le_bytes 2 (s16 d)
  | Int24 => le_bytes 2 (u16 d) ++ le_bytes 1 (s8 (Z.shiftr d 16))
  | Int32 => le_bytes 4 d
  end.

Lemma length_jump_field s d : length (jump_field s d) = Z.to_nat (jumpSizeInBytes s).
Proof. by destruct s. Qed.

Lemma vec_size_jump_field s d : vec_size (jump_field s d) = jumpSizeInBytes s.
Proof. by destruct s. Qed.

Lemma appendZeroes_field bc s : appendZeroes bc s = bc ++ jump_field s 0.
Proof. destruct s; unfold appendZeroes, append; try done. by rewrite <- app_assoc. Qed.

Lemma getBits_unsigned_mid n pre post v :
  getBits_unsigned n (pre ++ le_bytes n v ++ post) (vec_size pre) = Some (uwrap (8 * Z.of_nat n) v).
Proof.
  unfold getBits_unsigned. rewrite read_bytes_mid by (by rewrite length_le_bytes).
  simpl. by rewrite le_value_le_bytes.
Qed.

Lemma getBits_signed_mid n pre post v :
  getBits_signed n (pre ++ le_bytes n v ++ post) (vec_size pre) = Some (swrap (8 * Z.of_nat n) v).
Proof.
  unfold getBits_signed. rewrite getBits_unsigned_mid. simpl. by rewrite swrap_uwrap by lia.
Qed.

(** Reading a jump field back gives the distance that was linked into it. *)
Lemma getJumpDistance_jump_field s d pre post :
  fits s d ->
  getJumpDistance (pre ++ jump_field s d ++ post) (vec_size pre) s = Some d.
Proof.
  intros Hf. destruct s; unfold getJumpDistance, jump_field; unfold fits in Hf.
  - rewrite getBits_signed_mid, (swrap_small 8 d), swrap_small; [done|lia..].
  - rewrite getBits_signed_mid, (swrap_small 16 d), swrap_small; [done|lia..].
  - unfold Int24Min, Int24Max in Hf. change (2 ^ 23) with 8388608 in Hf.
    assert (-128 <= Z.shiftr d 16 <= 127) as Hs.
    { rewrite Z.shiftr_div_pow2 by lia. change (2 ^ 16) with 65536. divlia. }
    rewrite <- app_assoc. rewrite getBits_unsigned_mid. cbn [mbind option_bind].
    replace (vec_size pre + 2) with (vec_size (pre ++ le_bytes 2 (u16 d)))
      by (rewrite vec_size_app; done).
    rewrite (app_assoc pre), getBits_signed_mid. cbn [mbind option_bind].
    change (8 * Z.of_nat 2) with 16. change (8 * Z.of_nat 1) with 8.
    rewrite uwrap_uwrap, (swrap_small 8 (Z.shiftr d 16)), (swrap_small 8) by lia.
    rewrite lor_shiftl_add by (try apply uwrap_bound; lia).
    unfold uwrap. rewrite Z.shiftr_div_pow2 by lia. f_equal. divlia.
  - rewrite getBits_signed_mid. rewrite swrap_small; [done|lia..].
Qed.

(** The size chosen for a distance holds it, and every distance of the same
    sign that is no longer. *)
Lemma smallestPossibleJumpSize_fits l d :
  -2147483648 <= l <= 2147483647 -> Z.min 0 l <= d <= Z.max 0 l ->
  fits (smallestPossibleJumpSize l) d.
Proof.
  intros. unfold smallestPossibleJumpSize, Int24Min, Int24Max in *.
  repeat (zcase; [unfold fits, Int24Min, Int24Max; lia|]). unfold fits. lia.
Qed.

Lemma smallestPossibleJumpSize_minimal l s :
  fits s l -> jumpSizeInBytes (smallestPossibleJumpSize l) <= jumpSizeInBytes s.
Proof.
  intros Hf. unfold smallestPossibleJumpSize.
  destruct s; unfold fits in Hf; unfold Int24Min, Int24Max in *;
  repeat (zcase; [simpl; lia|]); simpl; try lia;
  repeat match goal with H : _ && _ = false |- _ => apply andb_false_iff in H as [?|?]; zbool end; lia.
Qed.

Lemma fits_max_l s t d : fits s d -> fits (jumpSize_max s t) d.
Proof. destruct s, t; unfold fits, jumpSize_max, Int24Min, Int24Max; simpl; lia. Qed.

Lemma fits_max_r s t d : fits t d -> fits (jumpSize_max s t) d.
Proof. destruct s, t; unfold fits, jumpSize_max, Int24Min, Int24Max; simpl; lia. Qed.

Lemma jumpSizeInBytes_bound s : 1 <= jumpSizeInBytes s <= 4.
Proof. destruct s; simpl; lia. Qed.

(** ** The opcode byte *)

Lemma instruction_of_code_code i : instruction_of_code (instruction_code i) = Some i.
Proof. by destruct i. Qed.

Definition opcode (i : DFABytecodeInstruction) (s : DFABytecodeJumpSize) : Z :=
  Z.lor (instruction_code i) (jumpSize_code s).

Lemma opcode_fields i s :
  instruction_of_code (Z.land (opcode i s) DFABytecodeInstructionMask) = Some i
  /\ jumpSize_of_code (Z.land (opcode i s) DFABytecodeJumpSizeMask) = Some s
  /\ is_byte (opcode i s).
Proof. destruct i, s; repeat split; vm_compute; congruence. Qed.
