(* ===== verification/DFA.v ===== *)
(** * Deterministic automata of content blockers

    Models [DFA.h], [DFA.cpp], [DFANode.h] and [DFANode.cpp] of
    [src/Source/WebCore/contentextensions/]: a DFA keeps its nodes, the action
    words and the transitions of all nodes in four flat vectors, a node
    being two slices of them.  A [char] is a [Z] in [-128, 127]. *)

From stdpp Require Import base numbers option list list_numbers gmap.
From Stdlib Require Import ZArith Lia.
From S2P Require Import Prelude.

(** ** Data *)

Record CharRange := mkCharRange { cr_first : Z; cr_last : Z }.

#[export] Instance CharRange_eq_dec : EqDecision CharRange.
Proof. solve_decision. Defined.

(** [unsigned size() const { return last - first + 1; }] *)
Definition CharRange_size (r : CharRange) : Z := u32 (cr_last r - cr_first r + 1).

Record DFANode := mkDFANode {
  m_actionsStart : Z;
  m_transitionsStart : Z;
  m_actionsLength : Z;
  m_transitionsLength : Z;
  m_flags : Z
}.

Record DFA := mkDFA {
  dfa_nodes : list DFANode;
  dfa_actions : list Z;
  transitionRanges : list CharRange;
  transitionDestinations : list Z;
  dfa_root : Z
}.

Definition emptyDFANode : DFANode := mkDFANode 0 0 0 0 0.

(** [DFA::empty()] *)
Definition DFA_empty : DFA := mkDFA [emptyDFANode] [] [] [] 0.

Definition IsKilled : Z := 0x01.

Definition isKilled (node : DFANode) : bool := negb (Z.land (m_flags node) IsKilled =? 0).

Definition hasActions (node : DFANode) : bool := negb (m_actionsLength node =? 0).

Definition setActions (node : DFANode) (start length : Z) : DFANode :=
  mkDFANode start (m_transitionsStart node) (u16 length) (m_transitionsLength node) (m_flags node).

(** The [uint16_t] parameter is stored in a [uint8_t] field. *)
Definition setTransitions (node : DFANode) (start length : Z) : DFANode :=
  mkDFANode (m_actionsStart node) start (m_actionsLength node) (u8 (u16 length)) (m_flags node).

(** [DFA::graphSize]: the number of nodes that are not killed. *)
Definition graphSize (dfa : DFA) : Z :=
  foldl (λ count node, if negb (isKilled node) then u32 (count + 1) else count) 0 (dfa_nodes dfa).

(** ** Node accessors; [None] is an index outside a vector *)

(** [DFANode::actions] *)
Definition node_actions (dfa : DFA) (node : DFANode) : option (list Z) :=
  mapM (vec_at (dfa_actions dfa)) (seqZ (m_actionsStart node) (m_actionsLength node)).

(** [range()] and [target()] of the iterator at a position. *)
Definition transition_at (dfa : DFA) (position : Z) : option (CharRange * Z) :=
  range ← vec_at (transitionRanges dfa) position;
  target ← vec_at (transitionDestinations dfa) position;
  Some (range, target).

(** The sequence [DFANode::transitions] iterates over. *)
Definition node_transitions (dfa : DFA) (node : DFANode) : option (list (CharRange * Z)) :=
  mapM (transition_at dfa) (seqZ (m_transitionsStart node) (m_transitionsLength node)).

Fixpoint containsTransition_loop (dfa : DFA) (transition : Z) (positions : list Z) : option bool :=
  match positions with
  | [] => Some false
  | i :: positions =>
      r ← vec_at (transitionRanges dfa) i;
      if (cr_first r <=? transition) && (transition <=? cr_last r) then Some true
      else containsTransition_loop dfa transition positions
  end.

Definition containsTransition (dfa : DFA) (node : DFANode) (transition : Z) : option bool :=
  containsTransition_loop dfa transition (seqZ (m_transitionsStart node) (m_transitionsLength node)).

(** [DFANode::kill]: the node of index [i] drops its slices, whose entries are
    overwritten with invalid values. *)
Definition kill (dfa : DFA) (i : Z) : option DFA :=
  node ← vec_at (dfa_nodes dfa) i;
  let positions := seqZ (m_transitionsStart node) (m_transitionsLength node) in
  ranges ← foldl (λ v p, v ← v; vec_set v p (mkCharRange (-1) (-1)))
                 (Some (transitionRanges dfa)) positions;
  dests ← foldl (λ v p, v ← v; vec_set v p UINT32_MAX)
                (Some (transitionDestinations dfa)) positions;
  acts ← foldl (λ v p, v ← v; vec_set v p (2 ^ 64 - 1))
               (Some (dfa_actions dfa)) (seqZ (m_actionsStart node) (m_actionsLength node));
  nodes ← vec_set (dfa_nodes dfa) i (mkDFANode 0 0 0 0 IsKilled);
  Some (mkDFA nodes acts ranges dests (dfa_root dfa)).

(** ** Fallback transitions *)

Fixpoint canUseFallbackTransition_loop (lastSeenCharacter : Z) (ts : list (CharRange * Z)) : bool :=
  match ts with
  | [] => false
  | (range, _) :: ts =>
      if negb (cr_first range =? lastSeenCharacter + 1) then false
      else if cr_last range =? 127 then true
      else canUseFallbackTransition_loop (cr_last range) ts
  end.

(** [DFANode::canUseFallbackTransition] on the node's transitions. *)
Definition canUseFallbackTransition (ts : list (CharRange * Z)) : bool :=
  match ts with
  | [] => false
  | (range, _) :: rest =>
      if cr_first range =? 0 then
        if cr_last range =? 127 then true
        else canUseFallbackTransition_loop (cr_last range) rest
      else canUseFallbackTransition_loop 0 ts
  end.

(** The loop of [bestFallbackTarget]; the histogram is a hash map. *)
Fixpoint bestFallbackTarget_loop (histogram : gmap Z Z) (bestTarget bestTargetScore : Z)
    (ts : list (CharRange * Z)) : Z :=
  match ts with
  | [] => bestTarget
  | (range, target) :: ts =>
      let rangeSize := CharRange_size range in
      let value := match histogram !! target with
                   | None => rangeSize
                   | Some v => u32 (v + rangeSize)
                   end in
      let histogram := <[target := value]> histogram in
      if bestTargetScore <? value
      then bestFallbackTarget_loop histogram target value ts
      else bestFallbackTarget_loop histogram bestTarget bestTargetScore ts
  end.

(** [DFANode::bestFallbackTarget]; [None] when the iterator would be used at
    its end. *)
Definition bestFallbackTarget (ts : list (CharRange * Z)) : option Z :=
  let ts := match ts with
            | (range, _) :: rest =>
                if (cr_first range =? 0) && (cr_last range =? 0) then rest else ts
            | [] => []
            end in
  match ts with
  | [] => None
  | (range, bestTarget) :: rest =>
      let bestTargetScore :=
        if cr_first range =? 0 then u32 (CharRange_size range - 1) else CharRange_size range in
      Some (bestFallbackTarget_loop {[ bestTarget := bestTargetScore ]} bestTarget bestTargetScore rest)
  end.

(** ** What the automaton means *)

(** Whether a range contains a character. *)
Definition in_range (r : CharRange) (c : Z) : bool := (cr_first r <=? c) && (c <=? cr_last r).

(** The target of the transition that reads [c]. *)
Fixpoint find_transition (ts : list (CharRange * Z)) (c : Z) : option Z :=
  match ts with
  | [] => None
  | (r, t) :: ts => if in_range r c then Some t else find_transition ts c
  end.

(** The transitions of a node are sorted, disjoint, non-empty ASCII ranges. *)
Fixpoint ranges_ok (lo : Z) (ts : list (CharRange * Z)) : bool :=
  match ts with
  | [] => true
  | (r, _) :: ts =>
      (lo <=? cr_first r) && (cr_first r <=? cr_last r) && (cr_last r <=? 127)
      && ranges_ok (cr_last r + 1) ts
  end.

(** One step of the automaton. *)
Definition dfa_next (dfa : DFA) (n c : Z) : option Z :=
  node ← vec_at (dfa_nodes dfa) n;
  ts ← node_transitions dfa node;
  find_transition ts c.

(** A node whose two slices are inside their vectors, whose transitions are
    well formed and lead to live nodes. *)
Definition is_live (dfa : DFA) (n : Z) : bool :=
  match vec_at (dfa_nodes dfa) n with
  | Some node => negb (isKilled node)
  | None => false
  end.

Definition action_ok (a : Z) : bool := (0 <=? a) && (a <? 2 ^ 49).

Definition node_ok (dfa : DFA) (node : DFANode) : bool :=
  isKilled node ||
  match node_actions dfa node, node_transitions dfa node with
  | Some acts, Some ts =>
      forallb action_ok acts && ranges_ok 0 ts && forallb (λ t, is_live dfa t.2) ts
  | _, _ => false
  end.

(** The well-formedness the compiler relies on, as a check that runs. *)
Definition wf_dfa (dfa : DFA) : bool :=
  is_live dfa (dfa_root dfa) && forallb (node_ok dfa) (dfa_nodes dfa)
  && (vec_size (dfa_nodes dfa) <? UINT32_MAX).

(** ** Lemmas on transitions *)

Lemma in_range_spec r c : in_range r c = true <-> cr_first r <= c <= cr_last r.
Proof. unfold in_range. rewrite andb_true_iff, !Z.leb_le. done. Qed.

Lemma in_range_false r c : in_range r c = false <-> ~ (cr_first r <= c <= cr_last r).
Proof. rewrite <- in_range_spec. destruct (in_range r c); naive_solver. Qed.

Lemma ranges_ok_cons lo r t ts :
  ranges_ok lo ((r, t) :: ts) = true <->
  lo <= cr_first r <= cr_last r /\ cr_last r <= 127 /\ ranges_ok (cr_last r + 1) ts = true.
Proof. simpl. rewrite !andb_true_iff, !Z.leb_le. naive_solver. Qed.

Lemma ranges_ok_weaken lo lo' ts : lo' <= lo -> ranges_ok lo ts = true -> ranges_ok lo' ts = true.
Proof. intros. destruct ts as [|[r t] ts]; [done|]. rewrite ranges_ok_cons in *. naive_solver lia. Qed.

Lemma find_transition_below lo ts c : ranges_ok lo ts = true -> c < lo -> find_transition ts c = None.
Proof.
  revert lo. induction ts as [|[r t] ts IH]; intros lo Hok Hc; [done|].
  apply ranges_ok_cons in Hok as (? & ? & Hok). simpl.
  destruct (in_range r c) eqn:E; [apply in_range_spec in E; lia|].
  apply (IH _ Hok). lia.
Qed.

Lemma find_transition_above lo ts c : ranges_ok lo ts = true -> 127 < c -> find_transition ts c = None.
Proof.
  revert lo. induction ts as [|[r t] ts IH]; intros lo Hok Hc; [done|].
  apply ranges_ok_cons in Hok as (? & ? & Hok). simpl.
  destruct (in_range r c) eqn:E; [apply in_range_spec in E; lia|].
  apply (IH _ Hok). lia.
Qed.

Lemma find_transition_elem ts c t :
  find_transition ts c = Some t -> exists r, (r, t) ∈ ts /\ in_range r c = true.
Proof.
  induction ts as [|[r t'] ts IH]; simpl; [done|].
  destruct (in_range r c) eqn:E; intros H.
  - simplify_eq. exists r. split; [left|done].
  - destruct (IH H) as (r' & ? & ?). exists r'. split; [by right|done].
Qed.

Lemma find_transition_app ts1 ts2 c :
  find_transition (ts1 ++ ts2) c =
  match find_transition ts1 c with Some t => Some t | None => find_transition ts2 c end.
Proof. induction ts1 as [|[r t] ts1 IH]; simpl; [done|]. by destruct (in_range r c). Qed.

Lemma find_transition_of_elem lo ts r t c :
  ranges_ok lo ts = true -> (r, t) ∈ ts -> in_range r c = true -> find_transition ts c = Some t.
Proof.
  revert lo. induction ts as [|[r' t'] ts IH]; intros lo Hok Hin Hc; [by apply elem_of_nil in Hin|].
  apply ranges_ok_cons in Hok as (? & ? & Hok). simpl.
  apply elem_of_cons in Hin as [Heq|Hin].
  - simplify_eq. by rewrite Hc.
  - specialize (IH _ Hok Hin Hc). destruct (in_range r' c) eqn:E; [|done].
    apply in_range_spec in E. rewrite (find_transition_below _ _ _ Hok) in IH by lia. done.
Qed.

Lemma canUseFallbackTransition_loop_spec lastSeen ts :
  lastSeen < 127 -> ranges_ok (lastSeen + 1) ts = true ->
  canUseFallbackTransition_loop lastSeen ts = true <->
  (forall c, lastSeen < c <= 127 -> is_Some (find_transition ts c)).
Proof.
  revert lastSeen. induction ts as [|[r t] ts IH]; intros lastSeen Hlt Hok; simpl.
  - split; [done|]. intros H. destruct (H 127) as [? ?]; [lia|done].
  - apply ranges_ok_cons in Hok as (? & ? & Hok).
    destruct (cr_first r =? lastSeen + 1) eqn:Ef; zbool; simpl.
    + destruct (cr_last r =? 127) eqn:El; zbool.
      * split; [|done]. intros _ c Hc.
        replace (in_range r c) with true by (symmetry; apply in_range_spec; lia). eauto.
      * rewrite IH by (done || lia). split; intros H' c Hc.
        -- destruct (in_range r c) eqn:E; [eauto|]. apply in_range_false in E. apply H'. lia.
        -- specialize (H' c ltac:(lia)). destruct (in_range r c) eqn:E; [|done].
           apply in_range_spec in E. lia.
    + split; [done|]. intros H'. specialize (H' (lastSeen + 1) ltac:(lia)).
      destruct (in_range r (lastSeen + 1)) eqn:E; [apply in_range_spec in E; lia|].
      rewrite (find_transition_below _ _ _ Hok) in H' by lia. by destruct H'.
Qed.

(** ** The fallback target *)

(** How many of the characters [lo..127] lead to [t]. *)
Definition covered_from (lo : Z) (ts : list (CharRange * Z)) (t : Z) : Z :=
  vec_size (filter (λ c, find_transition ts c = Some t) (seqZ lo (128 - lo))).

(** The characters a fallback jump can stand for: all but the end of the URL. *)
Definition covered (ts : list (CharRange * Z)) (t : Z) : Z := covered_from 1 ts t.

(** The same number as a sum of range sizes. *)
Definition score (ts : list (CharRange * Z)) (t : Z) : Z :=
  foldr (λ e acc, (if e.2 =? t then cr_last e.1 - cr_first e.1 + 1 else 0) + acc) 0 ts.

Lemma filter_seqZ_all (P : Z -> Prop) `{!∀ x, Decision (P x)} lo n (b : bool) :
  0 <= n -> (forall c, lo <= c < lo + n -> P c <-> b = true) ->
  vec_size (filter P (seqZ lo n)) = if b then n else 0.
Proof.
  intros Hn HP. destruct b.
  - rewrite filter_true; [unfold vec_size; rewrite length_seqZ; lia|].
    intros c Hc%elem_of_seqZ. by apply HP.
  - rewrite filter_false; [done|]. intros c Hc%elem_of_seqZ Hx. by apply HP in Hx.
Qed.

Lemma covered_from_split lo mid ts t :
  lo <= mid <= 128 ->
  covered_from lo ts t =
  vec_size (filter (λ c, find_transition ts c = Some t) (seqZ lo (mid - lo))) + covered_from mid ts t.
Proof.
  intros. unfold covered_from. rewrite <- vec_size_app, <- filter_app.
  f_equal. f_equal. replace (128 - lo) with ((mid - lo) + (128 - mid)) by lia.
  rewrite seqZ_app by lia. f_equal. f_equal; lia.
Qed.

Lemma covered_from_score lo ts t :
  lo <= 128 -> ranges_ok lo ts = true -> covered_from lo ts t = score ts t.
Proof.
  revert lo. induction ts as [|[r t'] ts IH]; intros lo Hlo Hok.
  - unfold covered_from. simpl. rewrite (filter_seqZ_all _ _ _ false); [done|lia|done].
  - apply ranges_ok_cons in Hok as (? & ? & Hok).
    rewrite (covered_from_split lo (cr_first r)) by lia.
    rewrite (filter_seqZ_all _ _ _ false), Z.add_0_l; [|lia|].
    2:{ intros c Hc. simpl. replace (in_range r c) with false by (symmetry; apply in_range_false; lia).
        rewrite (find_transition_below _ _ _ Hok) by lia. done. }
    rewrite (covered_from_split (cr_first r) (cr_last r + 1)) by lia.
    rewrite (filter_seqZ_all _ _ _ (t' =? t)); [|lia|].
    2:{ intros c Hc. simpl. replace (in_range r c) with true by (symmetry; apply in_range_spec; lia).
        rewrite Z.eqb_eq. naive_solver. }
    simpl. rewrite <- (IH (cr_last r + 1)) by (done || lia).
    f_equal; [destruct (t' =? t); lia|]. unfold covered_from. f_equal.
    apply filter_ext_elem. intros c Hc%elem_of_seqZ. simpl.
    replace (in_range r c) with false by (symmetry; apply in_range_false; lia). done.
Qed.

Lemma score_nonneg lo ts t : ranges_ok lo ts = true -> 0 <= score ts t.
Proof.
  revert lo. induction ts as [|[r t'] ts IH]; intros lo Hok; simpl; [lia|].
  apply ranges_ok_cons in Hok as (? & ? & Hok). specialize (IH _ Hok).
  destruct (t' =? t); lia.
Qed.

Lemma score_bound lo ts t : ranges_ok lo ts = true -> lo <= 128 -> score ts t <= 128 - lo.
Proof.
  revert lo. induction ts as [|[r t'] ts IH]; intros lo Hok Hlo; simpl; [lia|].
  apply ranges_ok_cons in Hok as (? & ? & Hok). specialize (IH _ Hok ltac:(lia)).
  destruct (t' =? t); lia.
Qed.

(** Loop invariant: the histogram holds the scores [acc] of the ranges seen so
    far, and [best] has the highest one. *)
Lemma bestFallbackTarget_loop_spec ts lo hist best acc :
  0 <= lo <= 128 -> ranges_ok lo ts = true ->
  (forall x, default 0 (hist !! x) = acc x) -> (forall x, 0 <= acc x <= acc best) ->
  (forall x, acc x <= lo) ->
  let b := bestFallbackTarget_loop hist best (acc best) ts in
  forall x, acc x + score ts x <= acc b + score ts b.
Proof.
  revert lo hist best acc. induction ts as [|[r t] ts IH]; intros lo hist best acc Hlo Hok Hh Hb Hl; simpl.
  { intros x. specialize (Hb x). lia. }
  apply ranges_ok_cons in Hok as (? & ? & Hok).
  set (acc' x := acc x + if t =? x then cr_last r - cr_first r + 1 else 0).
  assert (CharRange_size r = cr_last r - cr_first r + 1) as Hsize
    by (unfold CharRange_size; apply uwrap_small; lia).
  rewrite Hsize.
  assert ((match hist !! t with None => cr_last r - cr_first r + 1
           | Some v => u32 (v + (cr_last r - cr_first r + 1)) end) = acc' t) as Hv.
  { unfold acc'. rewrite Z.eqb_refl. pose proof (Hh t) as Ht. pose proof (Hb t). pose proof (Hl t).
    destruct (hist !! t); simpl in Ht; [|lia].
    rewrite uwrap_small; lia. }
  rewrite Hv. clear Hv.
  assert (forall x, default 0 (<[t := acc' t]> hist !! x) = acc' x) as Hh'.
  { intros x. rewrite lookup_insert. case_decide; [by subst|].
    unfold acc'. rewrite Hh. destruct (t =? x) eqn:E; zbool; [done|lia]. }
  assert (forall x, acc x <= acc' x <= acc x + (cr_last r - cr_first r + 1)) as Hgrow
    by (intros x; unfold acc'; destruct (t =? x); lia).
  assert (forall x, x <> t -> acc' x = acc x) as Hsame
    by (intros x ?; unfold acc'; destruct (t =? x) eqn:E; zbool; [done|lia]).
  assert (forall x, acc x + ((if t =? x then cr_last r - cr_first r + 1 else 0) + score ts x)
            = acc' x + score ts x) as Hfold by (intros; unfold acc'; lia).
  assert (forall x, acc' x <= cr_last r + 1) as Hl'.
  { intros x. specialize (Hl x). specialize (Hgrow x). lia. }
  destruct (acc best <? acc' t) eqn:E; zbool; intros x; rewrite !Hfold.
  - apply (IH (cr_last r + 1) _ t acc' ltac:(lia) Hok Hh'); [|done].
    intros y. destruct (decide (y = t)) as [->|Hy]; [specialize (Hb t); specialize (Hgrow t); lia|].
    rewrite (Hsame y Hy). specialize (Hb y). lia.
  - assert (acc' best = acc best) as Hbest.
    { destruct (decide (best = t)) as [->|]; [|auto]. specialize (Hgrow t). lia. }
    rewrite <- Hbest. apply (IH (cr_last r + 1) _ best acc' ltac:(lia) Hok Hh'); [|done].
    intros y. specialize (Hb y). specialize (Hgrow y).
    destruct (decide (y = t)) as [->|Hy]; [lia|]. rewrite (Hsame y Hy). lia.
Qed.

Lemma canUseFallbackTransition_iff ts :
  ranges_ok 0 ts = true ->
  canUseFallbackTransition ts = true <->
  (forall c, 1 <= c <= 127 -> is_Some (find_transition ts c)).
Proof.
  intros Hok. destruct ts as [|[r t] ts].
  { simpl. split; [done|]. intros H. destruct (H 1) as [? ?]; [lia|done]. }
  pose proof Hok as Hok'. apply ranges_ok_cons in Hok' as (? & ? & Hok').
  unfold canUseFallbackTransition. destruct (cr_first r =? 0) eqn:E0; zbool.
  - destruct (cr_last r =? 127) eqn:E1; zbool.
    + split; [|done]. intros _ c Hc. simpl.
      replace (in_range r c) with true by (symmetry; apply in_range_spec; lia). eauto.
    + rewrite canUseFallbackTransition_loop_spec by (done || lia). simpl.
      split; intros Hc' c Hc.
      * destruct (in_range r c) eqn:E; [eauto|]. apply in_range_false in E. apply Hc'. lia.
      * specialize (Hc' c ltac:(lia)). destruct (in_range r c) eqn:E; [|done].
        apply in_range_spec in E. lia.
  - rewrite canUseFallbackTransition_loop_spec; [|lia|].
    + split; intros Hc' c Hc; apply Hc'; lia.
    + apply ranges_ok_cons. repeat split; [lia..|done].
Qed.

Lemma covered_pos lo ts c t :
  ranges_ok 0 ts = true -> lo <= c <= 127 -> find_transition ts c = Some t -> 0 < covered_from lo ts t.
Proof.
  intros Hok Hc Hf. unfold covered_from, vec_size.
  assert (c ∈ filter (λ c, find_transition ts c = Some t) (seqZ lo (128 - lo))) as Hin
    by (apply list_elem_of_filter; split; [done|apply elem_of_seqZ; lia]).
  destruct (filter _ _); [by apply elem_of_nil in Hin|]. simpl. lia.
Qed.

(** Clipping the first range to start after the end of the URL does not change
    the coverage. *)
Lemma covered_clip r t0 ts x :
  ranges_ok 0 ((r, t0) :: ts) = true -> 0 < cr_last r ->
  covered ((r, t0) :: ts) x = score ((mkCharRange (Z.max 1 (cr_first r)) (cr_last r), t0) :: ts) x.
Proof.
  intros Hok Hl. apply ranges_ok_cons in Hok as (? & ? & Hok).
  rewrite <- (covered_from_score 1) by (try apply ranges_ok_cons; simpl; auto with lia).
  unfold covered, covered_from. f_equal. apply filter_ext_elem. intros c Hc%elem_of_seqZ.
  simpl. unfold in_range; simpl. replace (Z.max 1 (cr_first r) <=? c) with (cr_first r <=? c); [done|].
  destruct (cr_first r <=? c) eqn:E1, (Z.max 1 (cr_first r) <=? c) eqn:E2; zbool; done || lia.
Qed.

Lemma covered_skip_nul r t0 ts x :
  ranges_ok 0 ((r, t0) :: ts) = true -> cr_last r = 0 ->
  covered ((r, t0) :: ts) x = covered ts x.
Proof.
  intros Hok Hl. apply ranges_ok_cons in Hok as (? & ? & Hok).
  unfold covered, covered_from. f_equal. apply filter_ext_elem. intros c Hc%elem_of_seqZ.
  simpl. replace (in_range r c) with false by (symmetry; apply in_range_false; lia). done.
Qed.

Lemma bestFallbackTarget_head r t0 ts lo :
  ranges_ok lo ((r, t0) :: ts) = true -> 0 <= lo -> 0 < cr_last r ->
  let w := if cr_first r =? 0 then u32 (CharRange_size r - 1) else CharRange_size r in
  let b := bestFallbackTarget_loop {[ t0 := w ]} t0 w ts in
  forall x, covered ((r, t0) :: ts) x <= covered ((r, t0) :: ts) b.
Proof.
  intros Hok Hlo Hl w b x.
  rewrite !covered_clip by (done || by eapply ranges_ok_weaken; [|exact Hok]; lia).
  apply ranges_ok_cons in Hok as (? & ? & Hok).
  assert (w = cr_last r - Z.max 1 (cr_first r) + 1) as Hw.
  { unfold w, CharRange_size. destruct (cr_first r =? 0) eqn:E; zbool;
      rewrite !uwrap_small; try lia; rewrite uwrap_small; lia. }
  pose proof (bestFallbackTarget_loop_spec ts (cr_last r + 1) {[ t0 := w ]} t0
    (λ y, if t0 =? y then w else 0)) as Hspec.
  simpl in Hspec. rewrite Z.eqb_refl in Hspec. fold b in Hspec. simpl. rewrite <- Hw.
  apply Hspec; [lia|done| | |].
  - intros y. destruct (t0 =? y) eqn:E; zbool; [subst; by rewrite lookup_singleton_eq|].
    by rewrite lookup_singleton_ne.
  - intros y. destruct (t0 =? y); lia.
  - intros y. destruct (t0 =? y); lia.
Qed.

Lemma bestFallbackTarget_exists ts :
  ranges_ok 0 ts = true -> canUseFallbackTransition ts = true ->
  exists b, bestFallbackTarget ts = Some b /\ 0 < covered ts b
            /\ forall t, covered ts t <= covered ts b.
Proof.
  intros Hok Hcan. pose proof (proj1 (canUseFallbackTransition_iff _ Hok) Hcan) as Hall.
  destruct (Hall 127 ltac:(lia)) as [t127 H127].
  pose proof (covered_pos 1 ts 127 t127 Hok ltac:(lia) H127) as Hpos.
  enough (exists b, bestFallbackTarget ts = Some b /\ forall t, covered ts t <= covered ts b)
    as (b & Hb & Hmax).
  { exists b. repeat split; [done| |done]. specialize (Hmax t127). unfold covered in *. lia. }
  destruct ts as [|[r t0] ts]; [done|]. unfold bestFallbackTarget.
  pose proof Hok as Hok'. apply ranges_ok_cons in Hok' as (? & ? & Hok').
  destruct ((cr_first r =? 0) && (cr_last r =? 0)) eqn:E; zbool.
  - destruct ts as [|[r1 t1] ts].
    { simpl in H127. destruct (in_range r 127) eqn:E'; [apply in_range_spec in E'; lia|done]. }
    eexists; split; [done|]. intros t. rewrite !(covered_skip_nul r) by done.
    apply (bestFallbackTarget_head _ _ _ (cr_last r + 1)); [done|lia|].
    apply ranges_ok_cons in Hok'. lia.
  - eexists; split; [done|]. apply (bestFallbackTarget_head _ _ _ 0); [done|lia|].
    apply andb_false_iff in E as [E|E]; zbool; lia.
Qed.

(** [canUseFallbackTransition] answers whether every character other than
    the end of the URL has a transition. *)
Theorem canUseFallbackTransition_spec ts :
  ranges_ok 0 ts = true ->
  canUseFallbackTransition ts = true <->
  (forall c, 1 <= c <= 127 -> is_Some (find_transition ts c)).
Proof. exact (canUseFallbackTransition_iff ts). Qed.

(** The fallback target is one that at least one character leads to, and no
    other target has more characters leading to it: replacing its ranges by
    the fallback jump saves the most. *)
Theorem bestFallbackTarget_maximal ts :
  ranges_ok 0 ts = true -> canUseFallbackTransition ts = true ->
  exists b, bestFallbackTarget ts = Some b /\ 0 < covered ts b
            /\ forall t, covered ts t <= covered ts b.
Proof. exact (bestFallbackTarget_exists ts). Qed.

(** A node with a transition on the end of the URL and two others, and a
    small automaton: "a" or "A", then the end of the URL, triggers action 7. *)
Definition sample_transitions : list (CharRange * Z) :=
  [(mkCharRange 0 0, 1); (mkCharRange 1 96, 2); (mkCharRange 97 127, 3)].

Definition sample_dfa : DFA :=
  mkDFA [mkDFANode 0 0 0 2 0; mkDFANode 0 2 0 1 0; mkDFANode 0 0 1 0 0] [7]
    [mkCharRange 65 65; mkCharRange 97 97; mkCharRange 0 0] [1; 1; 2] 0.

Lemma canUseFallbackTransition_spec_witness : is_Some (find_transition sample_transitions 65).
Proof. apply (canUseFallbackTransition_spec sample_transitions); [reflexivity|reflexivity|lia]. Defined.

Lemma bestFallbackTarget_maximal_witness :
  exists b, bestFallbackTarget sample_transitions = Some b /\ 0 < covered sample_transitions b
            /\ forall t, covered sample_transitions t <= covered sample_transitions b.
Proof. apply (bestFallbackTarget_maximal sample_transitions); reflexivity. Defined.
