(* ===== verification/DFABytecodeInterpreter.v ===== *)
(** * The bytecode interpreter

    Models [DFABytecodeInterpreter.cpp]/[.h] of
    [src/Source/WebCore/contentextensions/]: given the bytecode of a list of
    DFAs, a URL and the resource flags, compute the set of actions that are
    triggered.  A read outside the bytecode or outside the NUL-terminated URL
    and a failed release assertion are [Fault]; the loops take fuel. *)

From stdpp Require Import base numbers option list gmap.
From Stdlib Require Import ZArith Lia.
From S2P Require Import Prelude.
From S2P Require Import DFABytecode.

(** The result of a computation with loops. *)
Inductive Run (A : Type) := Finished (a : A) | Fault | OutOfFuel.
Arguments Finished {A} a.
Arguments Fault {A}.
Arguments OutOfFuel {A}.

(** [HashSet<uint64_t>] *)
Abbreviation Actions := (gset Z).

(** [toASCIILower] of [wtf/ASCIICType.h] on a [char]. *)
Definition isASCIIUpper (c : Z) : bool := (65 <=? c) && (c <=? 90).
Definition toASCIILower (c : Z) : Z := Z.lor c (Z.shiftl (Z.b2z (isASCIIUpper c)) 5).

(** [url[i]] of a C string: the terminating NUL is readable, what follows is not. *)
Definition url_char (url : list Z) (i : Z) : option Z := vec_at (url ++ [0]) i.

Definition matchesCondition (actionAndFlags : Z) (conditionActions : Actions) : bool :=
  let ifCondition := negb (Z.land actionAndFlags IfConditionFlag =? 0) in
  let condition := bool_decide (actionAndFlags ∈ conditionActions) in
  Bool.eqb ifCondition condition.

Section Interpreter.

(** The interpreter's members: the bytecode and [m_topURLActions] (null
    outside [interpretWithConditions]). *)
Context (m_bytecode : list Z) (m_topURLActions : option Actions).

Definition addIfMatches (action : Z) (actions : Actions) : Actions :=
  match m_topURLActions with
  | None => {[ action ]} ∪ actions
  | Some conditions => if matchesCondition action conditions then {[ action ]} ∪ actions else actions
  end.

Definition interpretAppendAction (programCounter : Z) (actions : Actions) (ifCondition : bool)
    : option (Z * Actions) :=
  low ← getBits_unsigned 4 m_bytecode (programCounter + sizeof_instruction);
  let action := Z.lor (if ifCondition then IfConditionFlag else 0) low in
  size ← instructionSizeWithArguments AppendAction;
  Some (u32 (programCounter + size), addIfMatches action actions).

Definition interpretTestFlagsAndAppendAction (programCounter flags : Z) (actions : Actions)
    (ifCondition : bool) : option (Z * Actions) :=
  flagsToCheck ← getBits_unsigned 2 m_bytecode (programCounter + sizeof_instruction);
  let loadTypeFlags := Z.land flagsToCheck LoadTypeMask in
  let resourceTypeFlags := Z.land flagsToCheck ResourceTypeMask in
  let loadTypeMatches :=
    if negb (loadTypeFlags =? 0) then negb (Z.land loadTypeFlags flags =? 0) else true in
  let resourceTypeMatches :=
    if negb (resourceTypeFlags =? 0) then negb (Z.land resourceTypeFlags flags =? 0) else true in
  size ← instructionSizeWithArguments TestFlagsAndAppendAction;
  if loadTypeMatches && resourceTypeMatches then
    low ← getBits_unsigned 4 m_bytecode (programCounter + sizeof_instruction + 2);
    let actionAndFlags :=
      Z.lor (Z.lor (if ifCondition then IfConditionFlag else 0) (Z.shiftl flagsToCheck 32)) low in
    Some (u32 (programCounter + size), addIfMatches actionAndFlags actions)
  else Some (u32 (programCounter + size), actions).

(** ** [actionsMatchingEverything] *)

Fixpoint actionsMatchingEverything_loop (fuel : nat) (dfaBytecodeLength programCounter : Z)
    (actions : Actions) : Run Actions :=
  match fuel with
  | O => OutOfFuel
  | S fuel =>
    if programCounter <? dfaBytecodeLength then
      match getInstruction m_bytecode programCounter with
      | None => Fault
      | Some code =>
        match instruction_of_code code with
        | Some AppendAction =>
            match interpretAppendAction programCounter actions false with
            | Some (pc, actions) => actionsMatchingEverything_loop fuel dfaBytecodeLength pc actions
            | None => Fault
            end
        | Some AppendActionWithIfCondition =>
            match interpretAppendAction programCounter actions true with
            | Some (pc, actions) => actionsMatchingEverything_loop fuel dfaBytecodeLength pc actions
            | None => Fault
            end
        | Some ((TestFlagsAndAppendAction | TestFlagsAndAppendActionWithIfCondition) as i) =>
            match instructionSizeWithArguments i with
            | Some size =>
                actionsMatchingEverything_loop fuel dfaBytecodeLength (u32 (programCounter + size)) actions
            | None => Fault
            end
        | _ => Finished actions
        end
      end
    else Finished actions
  end.

Definition actionsMatchingEverything (fuel : nat) : Run Actions :=
  match getBits_unsigned 4 m_bytecode 0 with
  | None => Fault
  | Some dfaBytecodeLength => actionsMatchingEverything_loop fuel dfaBytecodeLength 4 ∅
  end.

(** ** One instruction of the main loop *)

Context (url : list Z) (flags : Z).

Record InterpreterState := mkInterpreterState {
  programCounter : Z;
  urlIndex : Z;
  urlIndexIsAfterEndOfString : bool;
  st_actions : Actions
}.

Inductive StepResult :=
  | Continue (st : InterpreterState)
  | NextDFA (actions : Actions).

(** Taking an edge of the DFA that reads [character]. *)
Definition takeEdge (st : InterpreterState) (distance character : Z) : InterpreterState :=
  mkInterpreterState (u32 (programCounter st + distance)) (u32 (urlIndex st + 1))
    (if character =? 0 then true else urlIndexIsAfterEndOfString st) (st_actions st).

Definition advance (st : InterpreterState) (n : Z) : InterpreterState :=
  mkInterpreterState (u32 (programCounter st + n)) (urlIndex st)
    (urlIndexIsAfterEndOfString st) (st_actions st).

(** The character an instruction looks at. *)
Definition readCharacter (caseSensitive : bool) (st : InterpreterState) : option Z :=
  c ← url_char url (urlIndex st);
  Some (if caseSensitive then c else toASCIILower c).

(** [CheckValueCaseSensitive] and [CheckValueCaseInsensitive] *)
Definition interpretCheckValue (caseSensitive : bool) (st : InterpreterState) : option InterpreterState :=
  character ← readCharacter caseSensitive st;
  jumpSize ← getJumpSize m_bytecode (programCounter st);
  value ← getBits_unsigned 1 m_bytecode (programCounter st + sizeof_instruction);
  if character =? value then
    distance ← getJumpDistance m_bytecode (programCounter st + sizeof_instruction + 1) jumpSize;
    Some (takeEdge st distance character)
  else Some (advance st (sizeof_instruction + 1 + jumpSizeInBytes jumpSize)).

(** [CheckValueRangeCaseSensitive] and [CheckValueRangeCaseInsensitive] *)
Definition interpretCheckValueRange (caseSensitive : bool) (st : InterpreterState) : option InterpreterState :=
  character ← readCharacter caseSensitive st;
  jumpSize ← getJumpSize m_bytecode (programCounter st);
  low ← getBits_unsigned 1 m_bytecode (programCounter st + sizeof_instruction);
  high ← getBits_unsigned 1 m_bytecode (programCounter st + sizeof_instruction + 1);
  if (low <=? character) && (character <=? high) then
    distance ← getJumpDistance m_bytecode (programCounter st + sizeof_instruction + 2) jumpSize;
    Some (takeEdge st distance character)
  else Some (advance st (sizeof_instruction + 2 + jumpSizeInBytes jumpSize)).

(** [interpetJumpTable<caseSensitive>] *)
Definition interpetJumpTable (caseSensitive : bool) (st : InterpreterState) : option InterpreterState :=
  jumpSize ← getJumpSize m_bytecode (programCounter st);
  character ← readCharacter caseSensitive st;
  firstCharacter ← getBits_unsigned 1 m_bytecode (programCounter st + sizeof_instruction);
  lastCharacter ← getBits_unsigned 1 m_bytecode (programCounter st + sizeof_instruction + 1);
  if (firstCharacter <=? character) && (character <=? lastCharacter) then
    let startOffset := programCounter st + sizeof_instruction + 2 in
    let jumpLocation := startOffset + (character - firstCharacter) * jumpSizeInBytes jumpSize in
    distance ← getJumpDistance m_bytecode jumpLocation jumpSize;
    Some (takeEdge st distance character)
  else
    Some (advance st (sizeof_instruction + 2
                      + jumpSizeInBytes jumpSize * (lastCharacter - firstCharacter + 1))).

(** [Jump]: the test reads [url[urlIndex]] before it looks at
    [urlIndexIsAfterEndOfString]. *)
Definition interpretJump (st : InterpreterState) : option StepResult :=
  c ← url_char url (urlIndex st);
  if (c =? 0) || urlIndexIsAfterEndOfString st then Some (NextDFA (st_actions st))
  else
    jumpSize ← getJumpSize m_bytecode (programCounter st);
    distance ← getJumpDistance m_bytecode (programCounter st + sizeof_instruction) jumpSize;
    Some (Continue (mkInterpreterState (u32 (programCounter st + distance)) (u32 (urlIndex st + 1))
                      (urlIndexIsAfterEndOfString st) (st_actions st))).

Definition withActions (st : InterpreterState) (r : Z * Actions) : InterpreterState :=
  mkInterpreterState r.1 (urlIndex st) (urlIndexIsAfterEndOfString st) r.2.

(** The test every checking instruction starts with. *)
Definition unlessAfterEnd (st : InterpreterState) (r : option InterpreterState) : option StepResult :=
  if urlIndexIsAfterEndOfString st then Some (NextDFA (st_actions st)) else Continue <$> r.

(** The [switch] of [interpret]. *)
Definition interpretStep (st : InterpreterState) : option StepResult :=
  code ← getInstruction m_bytecode (programCounter st);
  instruction ← instruction_of_code code;
  match instruction with
  | Terminate => Some (NextDFA (st_actions st))
  | CheckValueCaseSensitive => unlessAfterEnd st (interpretCheckValue true st)
  | CheckValueCaseInsensitive => unlessAfterEnd st (interpretCheckValue false st)
  | JumpTableCaseInsensitive => unlessAfterEnd st (interpetJumpTable false st)
  | JumpTableCaseSensitive => unlessAfterEnd st (interpetJumpTable true st)
  | CheckValueRangeCaseSensitive => unlessAfterEnd st (interpretCheckValueRange true st)
  | CheckValueRangeCaseInsensitive => unlessAfterEnd st (interpretCheckValueRange false st)
  | Jump => interpretJump st
  | AppendAction =>
      r ← interpretAppendAction (programCounter st) (st_actions st) false;
      Some (Continue (withActions st r))
  | AppendActionWithIfCondition =>
      r ← interpretAppendAction (programCounter st) (st_actions st) true;
      Some (Continue (withActions st r))
  | TestFlagsAndAppendAction =>
      r ← interpretTestFlagsAndAppendAction (programCounter st) flags (st_actions st) false;
      Some (Continue (withActions st r))
  | TestFlagsAndAppendActionWithIfCondition =>
      r ← interpretTestFlagsAndAppendAction (programCounter st) flags (st_actions st) true;
      Some (Continue (withActions st r))
  end.

(** The [while (true)] loop over the instructions of one DFA. *)
Fixpoint interpretDFA (fuel : nat) (st : InterpreterState) : Run Actions :=
  match fuel with
  | O => OutOfFuel
  | S fuel =>
    match interpretStep st with
    | None => Fault
    | Some (NextDFA actions) => Finished actions
    | Some (Continue st) => interpretDFA fuel st
    end
  end.

(** The loop that skips the unconditional actions of the first DFA's root. *)
Fixpoint skipRootActions (fuel : nat) (dfaBytecodeLength pc : Z) (actions : Actions)
    : Run (Z * Actions) :=
  match fuel with
  | O => OutOfFuel
  | S fuel =>
    if pc <? dfaBytecodeLength then
      match getInstruction m_bytecode pc with
      | None => Fault
      | Some code =>
        match instruction_of_code code with
        | Some ((AppendAction | AppendActionWithIfCondition) as i) =>
            match instructionSizeWithArguments i with
            | Some size => skipRootActions fuel dfaBytecodeLength (u32 (pc + size)) actions
            | None => Fault
            end
        | Some TestFlagsAndAppendAction =>
            match interpretTestFlagsAndAppendAction pc flags actions false with
            | Some (pc, actions) => skipRootActions fuel dfaBytecodeLength pc actions
            | None => Fault
            end
        | Some TestFlagsAndAppendActionWithIfCondition =>
            match interpretTestFlagsAndAppendAction pc flags actions true with
            | Some (pc, actions) => skipRootActions fuel dfaBytecodeLength pc actions
            | None => Fault
            end
        | _ => Finished (pc, actions)
        end
      end
    else Finished (pc, actions)
  end.

(** The outer loop of [interpret], over the DFAs of the bytecode. *)
Fixpoint interpretDFAs (fuel : nat) (pc : Z) (actions : Actions) : Run Actions :=
  match fuel with
  | O => OutOfFuel
  | S fuel' =>
    if pc <? vec_size m_bytecode then
      let dfaStart := pc in
      match getBits_unsigned 4 m_bytecode pc with
      | None => Fault
      | Some dfaBytecodeLength =>
        let runFrom pc actions :=
          match interpretDFA fuel (mkInterpreterState pc 0 false actions) with
          | Finished actions => interpretDFAs fuel' (u32 (dfaStart + dfaBytecodeLength)) actions
          | Fault => Fault
          | OutOfFuel => OutOfFuel
          end in
        let pc := u32 (pc + 4) in
        if dfaStart =? 0 then
          match skipRootActions fuel dfaBytecodeLength pc actions with
          | Finished (pc, actions) =>
              if vec_size m_bytecode <=? pc then Finished actions else runFrom pc actions
          | Fault => Fault
          | OutOfFuel => OutOfFuel
          end
        else runFrom pc actions
      end
    else Finished actions
  end.

(** [interpret] *)
Definition interpret (fuel : nat) : Run Actions := interpretDFAs fuel 0 ∅.

End Interpreter.

(** [interpretWithConditions]: [interpret] with [m_topURLActions] set. *)
Definition interpretWithConditions (m_bytecode url : list Z) (flags : Z) (topURLActions : Actions)
    (fuel : nat) : Run Actions :=
  interpret m_bytecode (Some topURLActions) url flags fuel.
