(* ===== verification/DFABytecodeCompiler.v ===== *)
(** * The bytecode compiler

    Models [DFABytecodeCompiler.cpp]/[.h] of
    [src/Source/WebCore/contentextensions/]: the translation of the nodes of a
    DFA into bytecode with jumps of one to four bytes, chosen from a worst-case
    layout, and linked when all nodes are placed.  A crash (release assertion
    or vector index out of range) is [None]. *)

From stdpp Require Import base numbers option list list_numbers gmap.
From Stdlib Require Import ZArith Lia.
From S2P Require Import Prelude.
From S2P Require Import DFABytecode.
From S2P Require Import DFA.
From S2P Require Import DFABytecodeInterpreter.

(** ** Data *)

Record Range := mkRange { r_min : Z; r_max : Z; r_destination : Z; r_caseSensitive : bool }.

Record JumpTable := mkJumpTable {
  jt_min : Z; jt_max : Z; jt_caseSensitive : bool; jt_destinations : list Z
}.

Record Transitions := mkTransitions {
  jumpTables : list JumpTable;
  ranges : list Range;
  useFallbackTransition : bool;
  fallbackTransitionTarget : Z
}.

Record LinkRecord := mkLinkRecord {
  lr_jumpSize : DFABytecodeJumpSize;
  lr_longestPossibleJump : Z;
  lr_instructionLocation : Z;
  lr_jumpLocation : Z;
  lr_destinationNodeIndex : Z
}.

(** The members of the compiler. *)
Record CompilerState := mkCompilerState {
  m_bytecode : list Z;
  m_maxNodeStartOffsets : list Z;
  m_nodeStartOffsets : list Z;
  m_linkRecords : list LinkRecord
}.

Definition noDestination : Z := UINT32_MAX.

(** ** Ranges and jump tables of a node *)

(** [destinations[i] = targetNodeIndex] for a range of characters. *)
Definition fillRange (destinations : list Z) (range : CharRange) (target : Z) : option (list Z) :=
  foldl (λ d i, d ← d; vec_set d i target) (Some destinations)
    (seqZ (cr_first range) (cr_last range - cr_first range + 1)).

(** The loop that fills the table of destinations, leaving out those the
    fallback jump covers. *)
Definition fillDestinations (useFallback : bool) (fallbackTarget : Z)
    (ts : list (CharRange * Z)) : option (list Z) :=
  foldl (λ d t, d ← d;
          if useFallback && (fallbackTarget =? t.2) then Some d else fillRange d t.1 t.2)
    (Some (replicate 128 noDestination)) ts.

(** Whether the lower-case counterparts of the range have the same destination. *)
Fixpoint lowerCaseDiffers (destinations : list Z) (destination : Z) (indices : list Z) : option bool :=
  match indices with
  | [] => Some false
  | rangeIndex :: indices =>
      d ← vec_at destinations (toASCIILower rangeIndex);
      if negb (destination =? d) then Some true
      else lowerCaseDiffers destinations destination indices
  end.

Definition clearLowerCase (destinations : list Z) (indices : list Z) : option (list Z) :=
  foldl (λ d rangeIndex, d ← d; vec_set d (toASCIILower rangeIndex) noDestination)
    (Some destinations) indices.

(** The state of the scan: the destinations, the ranges found and [rangeMin]
    when [hasRangeMin]. *)
Record ScanState := mkScanState {
  sc_destinations : list Z;
  sc_ranges : list Range;
  sc_rangeMin : option Z
}.

(** One iteration of the scan over the 128 characters. *)
Definition scanStep (st : ScanState) (i : Z) : option ScanState :=
  let d := sc_destinations st in
  match sc_rangeMin st with
  | Some rangeMin =>
      di ← vec_at d i;
      dMin ← vec_at d rangeMin;
      if negb (di =? dMin) then
        let rangeMax := i - 1 in
        let indices := seqZ rangeMin (rangeMax - rangeMin + 1) in
        caseSensitive ← (if (65 <=? rangeMin) && (rangeMax <=? 90)
                         then lowerCaseDiffers d dMin indices else Some true);
        st' ← (if negb caseSensitive then
                 d' ← clearLowerCase d indices;
                 dMin' ← vec_at d' rangeMin;
                 Some (d', sc_ranges st ++
                           [mkRange (toASCIILower rangeMin) (toASCIILower rangeMax) dMin' caseSensitive])
               else Some (d, sc_ranges st ++ [mkRange rangeMin rangeMax dMin caseSensitive]));
        di' ← vec_at st'.1 i;
        Some (mkScanState st'.1 st'.2 (if di' =? noDestination then None else Some i))
      else Some st
  | None =>
      di ← vec_at d i;
      Some (if negb (di =? noDestination) then mkScanState d (sc_ranges st) (Some i) else st)
  end.

Definition scanRanges (destinations : list Z) : option (list Range) :=
  st ← foldl (λ st i, st ← st; scanStep st i) (Some (mkScanState destinations [] None)) (seqZ 0 128);
  match sc_rangeMin st with
  | Some rangeMin =>
      dMin ← vec_at (sc_destinations st) rangeMin;
      Some (sc_ranges st ++ [mkRange rangeMin 127 dMin true])
  | None => Some (sc_ranges st)
  end.

(** [extractJumpTable]: the table and the remaining ranges. *)
Definition extractJumpTable (ranges : list Range) (firstRange lastRange : nat)
    : option (JumpTable * list Range) :=
  rFirst ← ranges !! firstRange;
  rLast ← ranges !! lastRange;
  let size := (lastRange - firstRange + 1)%nat in
  Some (mkJumpTable (r_min rFirst) (r_max rLast) (r_caseSensitive rLast)
          (r_destination <$> take size (drop firstRange ranges)),
        take firstRange ranges ++ drop (firstRange + size) ranges).

(** The loop that groups consecutive single-character ranges; [base] is
    [baseRangePosition] when [baseRange] is not null. *)
Fixpoint jumpTableLoop (fuel : nat) (tables : list JumpTable) (ranges : list Range)
    (rangePosition : nat) (base : option nat) : option (list JumpTable * list Range * option nat) :=
  if (rangePosition <? length ranges)%nat then
    match fuel with
    | O => None
    | S fuel =>
      range ← ranges !! rangePosition;
      match base with
      | Some basePosition =>
          baseRange ← ranges !! basePosition;
          previous ← ranges !! (rangePosition - 1)%nat;
          if negb (r_min range =? r_max range)
             || negb (Bool.eqb (r_caseSensitive baseRange) (r_caseSensitive range))
             || negb (r_max previous + 1 =? r_min range) then
            if (1 <? rangePosition - basePosition)%nat then
              e ← extractJumpTable ranges basePosition (rangePosition - 1);
              jumpTableLoop fuel (tables ++ [e.1]) e.2 (basePosition + 1) None
            else jumpTableLoop fuel tables ranges (rangePosition + 1) None
          else jumpTableLoop fuel tables ranges (rangePosition + 1) base
      | None =>
          jumpTableLoop fuel tables ranges (rangePosition + 1)
            (if r_min range =? r_max range then Some rangePosition else None)
      end
    end
  else Some (tables, ranges, base).

Definition groupRanges (ranges : list Range) : option (list JumpTable * list Range) :=
  '(tables, ranges, base) ← jumpTableLoop (length ranges) [] ranges 0 None;
  match base with
  | Some basePosition =>
      if (1 <? length ranges - basePosition)%nat then
        e ← extractJumpTable ranges basePosition (length ranges - 1);
        Some (tables ++ [e.1], e.2)
      else Some (tables, ranges)
  | None => Some (tables, ranges)
  end.

(** [DFABytecodeCompiler::transitions] on the transitions of a node. *)
Definition transitions (ts : list (CharRange * Z)) : option Transitions :=
  let useFallback := canUseFallbackTransition ts in
  fallbackTarget ← (if useFallback then bestFallbackTarget ts else Some UINT32_MAX);
  destinations ← fillDestinations useFallback fallbackTarget ts;
  ranges ← scanRanges destinations;
  '(tables, ranges) ← groupRanges ranges;
  Some (mkTransitions tables ranges useFallback fallbackTarget).

(** ** Worst-case sizes *)

Definition appendActionBytecodeSize (action : Z) : Z :=
  if negb (Z.land action ActionFlagMask =? 0) then sizeof_instruction + 2 + 4
  else sizeof_instruction + 4.

Definition checkForJumpTableMaxBytecodeSize (jumpTable : JumpTable) : Z :=
  let baselineSize := sizeof_instruction + 2 * 1 in
  let targetsSize := u32 ((jt_max jumpTable - jt_min jumpTable + 1) * 4) in
  u32 (baselineSize + targetsSize).

Definition checkForRangeMaxBytecodeSize (range : Range) : Z :=
  if r_min range =? r_max range then sizeof_instruction + 1 + 4
  else sizeof_instruction + 2 * 1 + 4.

Definition nodeTransitionsMaxBytecodeSize (ts : list (CharRange * Z)) : option Z :=
  nodeTransitions ← transitions ts;
  let size := foldl (λ size t, u32 (size + checkForJumpTableMaxBytecodeSize t)) 0
                (jumpTables nodeTransitions) in
  let size := foldl (λ size r, u32 (size + checkForRangeMaxBytecodeSize r)) size
                (ranges nodeTransitions) in
  if useFallbackTransition nodeTransitions then Some (u32 (size + (sizeof_instruction + 4)))
  else s ← instructionSizeWithArguments Terminate; Some (u32 (size + s)).

Definition actionsBytecodeSize (actions : list Z) : Z :=
  foldl (λ size action, u32 (size + appendActionBytecodeSize action)) 0 actions.

Definition compiledNodeMaxBytecodeSize (dfa : DFA) (index : Z) : option Z :=
  node ← vec_at (dfa_nodes dfa) index;
  if isKilled node then Some 0
  else
    actions ← node_actions dfa node;
    ts ← node_transitions dfa node;
    transitionsSize ← nodeTransitionsMaxBytecodeSize ts;
    Some (u32 (actionsBytecodeSize actions + transitionsSize)).

(** ** Emission *)

Definition withBytecode (st : CompilerState) (bytecode : list Z) : CompilerState :=
  mkCompilerState bytecode (m_maxNodeStartOffsets st) (m_nodeStartOffsets st) (m_linkRecords st).

Definition addLinkRecord (st : CompilerState) (r : LinkRecord) : CompilerState :=
  mkCompilerState (m_bytecode st) (m_maxNodeStartOffsets st) (m_nodeStartOffsets st)
    (m_linkRecords st ++ [r]).

Definition emitAppendAction (st : CompilerState) (action : Z) : CompilerState :=
  let bc := m_bytecode st in
  if negb (Z.land action ActionFlagMask =? 0) then
    let bc := if negb (Z.land action IfConditionFlag =? 0)
              then append 1 bc (instruction_code TestFlagsAndAppendActionWithIfCondition)
              else append 1 bc (instruction_code TestFlagsAndAppendAction) in
    let bc := append 2 bc (u16 (Z.shiftr action 32)) in
    withBytecode st (append 4 bc (u32 action))
  else
    let bc := if negb (Z.land action IfConditionFlag =? 0)
              then append 1 bc (instruction_code AppendActionWithIfCondition)
              else append 1 bc (instruction_code AppendAction) in
    withBytecode st (append 4 bc (u32 action)).

Definition longestPossibleJump (st : CompilerState)
    (instructionLocation sourceNodeIndex destinationNodeIndex : Z) : option Z :=
  destination ← vec_at (m_nodeStartOffsets st) destinationNodeIndex;
  if destination =? UINT32_MAX then
    maxDestination ← vec_at (m_maxNodeStartOffsets st) destinationNodeIndex;
    maxSource ← vec_at (m_maxNodeStartOffsets st) sourceNodeIndex;
    source ← vec_at (m_nodeStartOffsets st) sourceNodeIndex;
    Some (s32 (u32 (u32 (maxDestination - maxSource) - u32 (source - instructionLocation))))
  else Some (s32 (u32 (destination - instructionLocation))).

(** An opcode with its one-byte arguments, followed by a jump field to link. *)
Definition emitJumpInstruction (st : CompilerState) (instruction : DFABytecodeInstruction)
    (arguments : list Z) (sourceNodeIndex destinationNodeIndex : Z) : option CompilerState :=
  let instructionLocation := u32 (vec_size (m_bytecode st)) in
  let jumpLocation := u32 (instructionLocation + (1 + vec_size arguments)) in
  longest ← longestPossibleJump st instructionLocation sourceNodeIndex destinationNodeIndex;
  let jumpSize := smallestPossibleJumpSize longest in
  let bc := append 1 (m_bytecode st) (opcode instruction jumpSize) in
  let bc := foldl (append 1) bc arguments in
  let st := addLinkRecord (withBytecode st bc)
    (mkLinkRecord jumpSize longest instructionLocation jumpLocation destinationNodeIndex) in
  Some (withBytecode st (appendZeroes (m_bytecode st) jumpSize)).

Definition emitJump (st : CompilerState) (sourceNodeIndex destinationNodeIndex : Z)
    : option CompilerState :=
  emitJumpInstruction st Jump [] sourceNodeIndex destinationNodeIndex.

Definition emitCheckValue (st : CompilerState) (value sourceNodeIndex destinationNodeIndex : Z)
    (caseSensitive : bool) : option CompilerState :=
  emitJumpInstruction st
    (if caseSensitive then CheckValueCaseSensitive else CheckValueCaseInsensitive)
    [value] sourceNodeIndex destinationNodeIndex.

Definition emitCheckValueRange (st : CompilerState)
    (lowValue highValue sourceNodeIndex destinationNodeIndex : Z)
    (caseSensitive : bool) : option CompilerState :=
  emitJumpInstruction st
    (if caseSensitive then CheckValueRangeCaseSensitive else CheckValueRangeCaseInsensitive)
    [lowValue; highValue] sourceNodeIndex destinationNodeIndex.

Definition emitTerminate (st : CompilerState) : CompilerState :=
  withBytecode st (append 1 (m_bytecode st) (instruction_code Terminate)).

Definition compileJumpTable (st : CompilerState) (nodeIndex : Z) (jumpTable : JumpTable)
    : option CompilerState :=
  let instructionLocation := u32 (vec_size (m_bytecode st)) in
  jumpSize ← foldl (λ s d, s ← s;
                     longest ← longestPossibleJump st instructionLocation nodeIndex d;
                     Some (jumpSize_max s (smallestPossibleJumpSize longest)))
               (Some Int8) (jt_destinations jumpTable);
  let instruction := if jt_caseSensitive jumpTable then JumpTableCaseSensitive
                     else JumpTableCaseInsensitive in
  let bc := append 1 (m_bytecode st) (opcode instruction jumpSize) in
  let bc := append 1 (append 1 bc (jt_min jumpTable)) (jt_max jumpTable) in
  foldl (λ st d, st ← st;
          longest ← longestPossibleJump st instructionLocation nodeIndex d;
          let jumpLocation := u32 (vec_size (m_bytecode st)) in
          let st := addLinkRecord st
            (mkLinkRecord jumpSize longest instructionLocation jumpLocation d) in
          Some (withBytecode st (appendZeroes (m_bytecode st) jumpSize)))
    (Some (withBytecode st bc)) (jt_destinations jumpTable).

Definition compileCheckForRange (st : CompilerState) (nodeIndex : Z) (range : Range)
    : option CompilerState :=
  if r_min range =? r_max range
  then emitCheckValue st (r_min range) nodeIndex (r_destination range) (r_caseSensitive range)
  else emitCheckValueRange st (r_min range) (r_max range) nodeIndex (r_destination range)
         (r_caseSensitive range).

Definition compileNodeTransitions (dfa : DFA) (st : CompilerState) (nodeIndex : Z)
    : option CompilerState :=
  node ← vec_at (dfa_nodes dfa) nodeIndex;
  ts ← node_transitions dfa node;
  nodeTransitions ← transitions ts;
  st ← foldl (λ st t, st ← st; compileJumpTable st nodeIndex t) (Some st) (jumpTables nodeTransitions);
  st ← foldl (λ st r, st ← st; compileCheckForRange st nodeIndex r) (Some st) (ranges nodeTransitions);
  if useFallbackTransition nodeTransitions
  then emitJump st nodeIndex (fallbackTransitionTarget nodeTransitions)
  else Some (emitTerminate st).

(** [m_nodeStartOffsets[index] = m_bytecode.size()] *)
Definition setNodeStart (st : CompilerState) (index : Z) : option CompilerState :=
  offsets ← vec_set (m_nodeStartOffsets st) index (u32 (vec_size (m_bytecode st)));
  Some (mkCompilerState (m_bytecode st) (m_maxNodeStartOffsets st) offsets (m_linkRecords st)).

Definition compileNode (dfa : DFA) (st : CompilerState) (index : Z) (root : bool)
    : option CompilerState :=
  node ← vec_at (dfa_nodes dfa) index;
  if isKilled node then Some st
  else
    st ← (if negb root then setNodeStart st index else Some st);
    actions ← node_actions dfa node;
    let st := foldl emitAppendAction st actions in
    st ← (if root then setNodeStart st index else Some st);
    compileNodeTransitions dfa st index.

(** ** Linking *)

Definition linkRecord (nodeStartOffsets : list Z) (bytecode : list Z) (r : LinkRecord)
    : option (list Z) :=
  destination ← vec_at nodeStartOffsets (lr_destinationNodeIndex r);
  if negb (destination <? INT32_MAX) then None
  else
    let distance := s32 (u32 (destination - lr_instructionLocation r)) in
    match lr_jumpSize r with
    | Int8 =>
        if negb (distance =? s8 distance) then None
        else setBits 1 bytecode (lr_jumpLocation r) (s8 distance)
    | Int16 =>
        if negb (distance =? s16 distance) then None
        else setBits 2 bytecode (lr_jumpLocation r) (s16 distance)
    | Int24 =>
        if negb ((Int24Min <=? distance) && (distance <=? Int24Max)) then None
        else
          bytecode ← setBits 2 bytecode (lr_jumpLocation r) (u16 distance);
          setBits 1 bytecode (u32 (lr_jumpLocation r + 2)) (s8 (Z.shiftr distance 16))
    | Int32 => setBits 4 bytecode (lr_jumpLocation r) distance
    end.

(** ** The whole compiler *)

(** The worst-case start of every node other than the root, in order. *)
Definition maxOffsetsLoop (dfa : DFA) (offsets : list Z) (nextIndex : Z) (indices : list Z)
    : option (list Z * Z) :=
  foldl (λ acc i, acc ← acc;
          if negb (i =? dfa_root dfa) then
            offsets ← vec_set acc.1 i acc.2;
            size ← compiledNodeMaxBytecodeSize dfa i;
            Some (offsets, u32 (acc.2 + size))
          else Some acc)
    (Some (offsets, nextIndex)) indices.

Definition nodeIndices (dfa : DFA) : list Z := seqZ 0 (vec_size (dfa_nodes dfa)).

(** [m_maxNodeStartOffsets] as [compile] computes it. *)
Definition computeMaxNodeStartOffsets (dfa : DFA) : option (list Z) :=
  rootNode ← vec_at (dfa_nodes dfa) (dfa_root dfa);
  rootActions ← node_actions dfa rootNode;
  let rootActionsSize := actionsBytecodeSize rootActions in
  offsets ← vec_set (replicate (length (dfa_nodes dfa)) 0) (dfa_root dfa)
              (u32 (sizeof_DFAHeader + rootActionsSize));
  rootSize ← compiledNodeMaxBytecodeSize dfa (dfa_root dfa);
  r ← maxOffsetsLoop dfa offsets (u32 (sizeof_DFAHeader + rootSize)) (nodeIndices dfa);
  Some r.1.

(** The nodes other than the root, in order. *)
Definition compileOtherNodes (dfa : DFA) (st : CompilerState) : option CompilerState :=
  foldl (λ st i, st ← st; if negb (i =? dfa_root dfa) then compileNode dfa st i false else Some st)
    (Some st) (nodeIndices dfa).

(** [DFABytecodeCompiler::compile], on the bytecode of the DFAs compiled so far. *)
Definition compile (dfa : DFA) (bytecode : list Z) : option (list Z) :=
  let startLocation := u32 (vec_size bytecode) in
  let bytecode := append 4 bytecode 0 in
  let nodeStartOffsets := replicate (length (dfa_nodes dfa)) UINT32_MAX in
  maxNodeStartOffsets ← computeMaxNodeStartOffsets dfa;
  let st := mkCompilerState bytecode maxNodeStartOffsets nodeStartOffsets [] in
  st ← compileNode dfa st (dfa_root dfa) true;
  st ← compileOtherNodes dfa st;
  bytecode ← foldl (λ bc r, bc ← bc; linkRecord (m_nodeStartOffsets st) bc r)
               (Some (m_bytecode st)) (m_linkRecords st);
  setBits 4 bytecode startLocation (u32 (vec_size bytecode - startLocation)).

(** [compileToBytecode]: every DFA of a rule list is compiled into a buffer of
    its own, and the buffers are written one after the other. *)
Definition compileAll (dfas : list DFA) : option (list Z) :=
  bytecodes ← mapM (λ dfa, compile dfa []) dfas;
  Some (concat bytecodes).
