(* ===== verification/CompilerTransitions.v ===== *)
(** * The ranges and jump tables of a node represent its transitions

    Correctness of [DFABytecodeCompiler::transitions] (model in
    [DFABytecodeCompiler]): looking a character up in the jump tables, then in
    the ranges, then in the fallback gives the node's transition. *)

From stdpp Require Import base numbers option list list_numbers gmap.
From Stdlib Require Import ZArith Lia.
From S2P Require Import Prelude.
From S2P Require Import DFABytecode.
From S2P Require Import DFA.
From S2P Require Import DFABytecodeInterpreter.
From S2P Require Import DFABytecodeCompiler.

(** ** Looking characters up *)

Definition fold_case (caseSensitive : bool) (c : Z) : Z :=
  if caseSensitive then c else toASCIILower c.

Definition range_matches (r : Range) (c : Z) : bool :=
  let c := fold_case (r_caseSensitive r) c in (r_min r <=? c) && (c <=? r_max r).

Fixpoint find_range (rs : list Range) (c : Z) : option Z :=
  match rs with
  | [] => None
  | r :: rs => if range_matches r c then Some (r_destination r) else find_range rs c
  end.

Definition table_matches (t : JumpTable) (c : Z) : bool :=
  let c := fold_case (jt_caseSensitive t) c in (jt_min t <=? c) && (c <=? jt_max t).

Definition table_target (t : JumpTable) (c : Z) : option Z :=
  jt_destinations t !! Z.to_nat (fold_case (jt_caseSensitive t) c - jt_min t).

Fixpoint find_table (tables : list JumpTable) (c : Z) : option Z :=
  match tables with
  | [] => None
  | t :: tables => if table_matches t c then table_target t c else find_table tables c
  end.

(** What the emitted instructions of a node do on a character: the tables, then
    the ranges, then the fallback jump, which the end of the URL does not take. *)
Definition lookup_transitions (tr : Transitions) (c : Z) : option Z :=
  match find_table (jumpTables tr) c with
  | Some t => Some t
  | None =>
    match find_range (ranges tr) c with
    | Some t => Some t
    | None => if useFallbackTransition tr && negb (c =? 0)
              then Some (fallbackTransitionTarget tr) else None
    end
  end.

Definition dest_option (d : Z) : option Z := if d =? noDestination then None else Some d.

Lemma toASCIILower_spec c :
  toASCIILower c = if isASCIIUpper c then c + 32 else c.
Proof.
  unfold toASCIILower. destruct (isASCIIUpper c) eqn:E; simpl; [|apply Z.lor_0_r].
  unfold isASCIIUpper in E. zbool.
  assert (forallZ 65 26 (λ c, Z.lor c 32 =? c + 32) = true) as Hall by reflexivity.
  pose proof (forallZ_spec _ _ _ Hall c ltac:(lia)) as Hc. by apply Z.eqb_eq in Hc.
Qed.

Lemma isASCIIUpper_spec c : isASCIIUpper c = true <-> 65 <= c <= 90.
Proof. unfold isASCIIUpper. rewrite andb_true_iff, !Z.leb_le. done. Qed.

Lemma toASCIILower_upper c : 65 <= c <= 90 -> toASCIILower c = c + 32.
Proof. intros H. rewrite toASCIILower_spec. by apply isASCIIUpper_spec in H as ->. Qed.

Lemma toASCIILower_other c : ~ 65 <= c <= 90 -> toASCIILower c = c.
Proof.
  intros H. rewrite toASCIILower_spec. rewrite <- isASCIIUpper_spec in H.
  by destruct (isASCIIUpper c).
Qed.

Lemma range_matches_sensitive lo hi d c :
  range_matches (mkRange lo hi d true) c = true <-> lo <= c <= hi.
Proof. unfold range_matches; simpl. rewrite andb_true_iff, !Z.leb_le. done. Qed.

(** A case-insensitive range of lower-case letters matches both cases. *)
Lemma range_matches_insensitive lo hi d c :
  65 <= lo -> hi <= 90 ->
  range_matches (mkRange (lo + 32) (hi + 32) d false) c = true
  <-> lo <= c <= hi \/ lo + 32 <= c <= hi + 32.
Proof.
  intros Hlo Hhi. unfold range_matches; simpl. rewrite andb_true_iff, !Z.leb_le, toASCIILower_spec.
  destruct (isASCIIUpper c) eqn:E.
  - apply isASCIIUpper_spec in E. lia.
  - assert (~ 65 <= c <= 90) by (rewrite <- isASCIIUpper_spec; congruence). lia.
Qed.

Lemma find_range_app rs1 rs2 c :
  find_range (rs1 ++ rs2) c = match find_range rs1 c with Some d => Some d | None => find_range rs2 c end.
Proof. induction rs1 as [|r rs1 IH]; simpl; [done|]. by destruct (range_matches r c). Qed.

Lemma find_table_app t1 t2 c :
  find_table (t1 ++ t2) c =
  if existsb (λ t, table_matches t c) t1 then find_table t1 c else find_table t2 c.
Proof. induction t1 as [|t t1 IH]; simpl; [done|]. destruct (table_matches t c); simpl; done. Qed.

(** ** The table of destinations *)

(** What [fillDestinations] should store for a character. *)
Definition table_entry (useFallback : bool) (fallback : Z) (ts : list (CharRange * Z)) (c : Z) : Z :=
  match find_transition ts c with
  | Some t => if useFallback && (fallback =? t) then noDestination else t
  | None => noDestination
  end.

Lemma fillRange_spec d r t :
  0 <= cr_first r -> cr_last r < vec_size d ->
  exists d', fillRange d r t = Some d' /\ vec_size d' = vec_size d
    /\ forall c, vec_at d' c = if in_range r c then Some t else vec_at d c.
Proof.
  intros Hf Hl. unfold fillRange.
  destruct (vec_fill_spec (λ i, i) t d (seqZ (cr_first r) (cr_last r - cr_first r + 1)))
    as (d' & Hd' & Hs & Hin & Hout).
  { intros i Hi%elem_of_seqZ. lia. }
  exists d'. split_and!; [done|done|]. intros c. rewrite list_fmap_id in Hin, Hout.
  destruct (in_range r c) eqn:E.
  - apply in_range_spec in E. apply Hin, elem_of_seqZ. lia.
  - apply in_range_false in E. apply Hout. rewrite elem_of_seqZ. lia.
Qed.

Lemma fillDestinations_spec useFallback fallback ts :
  ranges_ok 0 ts = true ->
  exists d, fillDestinations useFallback fallback ts = Some d /\ vec_size d = 128
    /\ forall c, 0 <= c <= 127 -> vec_at d c = Some (table_entry useFallback fallback ts c).
Proof.
  intros Hok. unfold fillDestinations.
  enough (forall d lo done, ranges_ok lo ts = true -> 0 <= lo -> vec_size d = 128 ->
    (forall c, 0 <= c <= 127 -> vec_at d c = Some (table_entry useFallback fallback done c)) ->
    (forall c, lo <= c -> find_transition done c = None) ->
    exists d', foldl (λ d t, d ← d;
        if useFallback && (fallback =? t.2) then Some d else fillRange d t.1 t.2) (Some d) ts = Some d'
      /\ vec_size d' = 128
      /\ forall c, 0 <= c <= 127 -> vec_at d' c = Some (table_entry useFallback fallback (done ++ ts) c))
    as Hgen.
  { apply (Hgen _ 0 []); [done|lia|done| |done]. intros c Hc. unfold vec_at.
    destruct (0 <=? c) eqn:E; zbool; [|lia]. apply lookup_replicate. split; [done|lia]. }
  clear Hok. induction ts as [|[r t] ts IH]; intros d lo done Hok Hlo Hsz Hd Hdone.
  { exists d. rewrite app_nil_r. done. }
  apply ranges_ok_cons in Hok as (? & ? & Hok).
  assert (exists d1, (if useFallback && (fallback =? t) then Some d else fillRange d r t) = Some d1
    /\ vec_size d1 = 128
    /\ forall c, 0 <= c <= 127 ->
         vec_at d1 c = Some (table_entry useFallback fallback (done ++ [(r, t)]) c)) as (d1 & Hd1 & Hsz1 & Hd1').
  { pose proof (λ c, find_transition_app done [(r, t)] c) as Hfind. simpl in Hfind.
    destruct (useFallback && (fallback =? t)) eqn:Efb.
    - exists d. split_and!; [done|done|]. intros c Hc. rewrite Hd by done. unfold table_entry.
      rewrite Hfind. destruct (find_transition done c); [done|].
      destruct (in_range r c); [by rewrite Efb|done].
    - destruct (fillRange_spec d r t) as (d1 & -> & Hs1 & Hd1); [lia|lia|].
      exists d1. split_and!; [done|lia|]. intros c Hc. rewrite Hd1. unfold table_entry. rewrite Hfind.
      destruct (in_range r c) eqn:E.
      + apply in_range_spec in E. rewrite Hdone by lia. by rewrite Efb.
      + rewrite Hd by done. unfold table_entry. by destruct (find_transition done c). }
  cbn [foldl mbind option_bind]. simpl fst; simpl snd. rewrite Hd1.
  destruct (IH d1 (cr_last r + 1) (done ++ [(r, t)]) Hok ltac:(lia) Hsz1 Hd1') as (d' & ? & ? & Hd').
  - intros c Hc. rewrite find_transition_app, Hdone by lia. simpl.
    replace (in_range r c) with false by (symmetry; apply in_range_false; lia). done.
  - exists d'. rewrite <- app_assoc in Hd'. done.
Qed.

(** ** The scan for ranges *)

Section Scan.

(** The table the scan starts from. *)
Context (D : Z -> Z).

(** The first character whose range is not yet committed. *)
Definition pending (st : ScanState) (i : Z) : Z := default i (sc_rangeMin st).

Definition range_ok (r : Range) : Prop :=
  0 <= r_min r /\ r_min r <= r_max r /\ r_max r <= 127
  /\ r_destination r <> noDestination /\ (exists c, 0 <= c <= 127 /\ r_destination r = D c).

(** A new range matches no character an earlier one does. *)
Inductive disjoint_ranges : list Range -> Prop :=
  | disjoint_nil : disjoint_ranges []
  | disjoint_snoc rs r :
      disjoint_ranges rs ->
      (forall c, 0 <= c <= 127 -> range_matches r c = true -> find_range rs c = None) ->
      disjoint_ranges (rs ++ [r]).

Record scan_inv (i : Z) (st : ScanState) : Prop := {
  si_index : 0 <= i <= 128;
  si_size : vec_size (sc_destinations st) = 128;
  (** the table keeps its entries, but for lower-case ones already covered *)
  si_table : forall c, 0 <= c <= 127 ->
    vec_at (sc_destinations st) c = Some (D c)
    \/ (vec_at (sc_destinations st) c = Some noDestination /\ D c <> noDestination);
  (** the open range *)
  si_open : forall p, sc_rangeMin st = Some p ->
    0 <= p < i /\ D p <> noDestination
    /\ forall c, p <= c < i -> vec_at (sc_destinations st) c = Some (D p);
  (** what the committed ranges cover *)
  si_covered : forall c, 0 <= c <= 127 ->
    c < pending st i \/ vec_at (sc_destinations st) c <> Some (D c) ->
    find_range (sc_ranges st) c = dest_option (D c);
  si_uncovered : forall c, 0 <= c <= 127 ->
    pending st i <= c -> vec_at (sc_destinations st) c = Some (D c) ->
    find_range (sc_ranges st) c = None;
  si_ranges : Forall range_ok (sc_ranges st);
  si_disjoint : disjoint_ranges (sc_ranges st)
}.

Lemma si_open_entry i st p c :
  scan_inv i st -> sc_rangeMin st = Some p -> p <= c < i -> D c = D p /\ 0 <= c <= 127.
Proof.
  intros HI Hp Hc. pose proof (si_index _ _ HI). destruct (si_open _ _ HI p Hp) as (? & Hn & Hall).
  specialize (Hall c Hc). split; [|lia].
  destruct (si_table _ _ HI c ltac:(lia)) as [E|[E _]]; rewrite E in Hall; congruence.
Qed.

(** Whatever the scan does at [i] with an entry that was cleared or is empty,
    the character is covered. *)
Lemma scan_skip i st c :
  scan_inv i st -> 0 <= c <= 127 -> pending st i <= c ->
  vec_at (sc_destinations st) c = Some noDestination ->
  find_range (sc_ranges st) c = dest_option (D c).
Proof.
  intros HI Hc Hp Hd. destruct (decide (D c = noDestination)) as [E|E].
  - rewrite (si_uncovered _ _ HI) by (congruence || done). by rewrite E.
  - apply (si_covered _ _ HI); [done|]. right. congruence.
Qed.

(** Committing the open range: [K] tells which lower-case entries it clears. *)
Lemma scan_commit i st p d' r (K : Z -> Prop) :
  scan_inv i st -> sc_rangeMin st = Some p -> vec_size d' = 128 ->
  (forall c, 0 <= c <= 127 -> range_matches r c = true <-> p <= c < i \/ K c) ->
  (forall c, K c -> i <= c <= 127 /\ vec_at (sc_destinations st) c = Some (D p)
                    /\ vec_at d' c = Some noDestination) ->
  (forall c, 0 <= c <= 127 -> ~ K c -> vec_at d' c = vec_at (sc_destinations st) c) ->
  r_destination r = D p -> range_ok r ->
  scan_inv i (mkScanState d' (sc_ranges st ++ [r]) None).
Proof.
  intros HI Hp Hsz Hr HK HnK Hdest Hrok.
  destruct (si_open _ _ HI p Hp) as (Hpi & HDp & Hall).
  assert (pending st i = p) as Hpend by (unfold pending; by rewrite Hp).
  assert (forall c, K c -> D c = D p) as HKD.
  { intros c Hc. destruct (HK c Hc) as (? & Hd & _).
    destruct (si_table _ _ HI c ltac:(lia)) as [E|[E _]]; rewrite E in Hd; congruence. }
  assert (forall c, 0 <= c <= 127 -> range_matches r c = true ->
    find_range (sc_ranges st) c = None /\ D c = D p) as Hnew.
  { intros c Hc Hm. apply Hr in Hm; [|done].
    assert (D c = D p) as HDc by (destruct Hm as [Hm|Hm]; [by eapply si_open_entry|auto]).
    split; [|done]. apply (si_uncovered _ _ HI); [done| |].
    - rewrite Hpend. destruct Hm as [Hm|Hm]; [lia|]. specialize (HK c Hm). lia.
    - rewrite HDc. destruct Hm as [Hm|Hm]; [by apply Hall|]. apply (HK c Hm). }
  assert (forall c, 0 <= c <= 127 -> range_matches r c = false -> ~ K c /\ ~ p <= c < i) as Hold.
  { intros c Hc Hm. split; intros H; (assert (range_matches r c = true) by (apply Hr; auto)); congruence. }
  constructor; simpl.
  - apply (si_index _ _ HI).
  - done.
  - intros c Hc. destruct (range_matches r c) eqn:Hm.
    + apply Hr in Hm as [Hm|Hm]; [| |done].
      * rewrite HnK; [by apply (si_table _ _ HI)|done|]. intros Hk. specialize (HK c Hk). lia.
      * right. split; [apply (HK c Hm)|]. rewrite HKD; done.
    + rewrite HnK; [by apply (si_table _ _ HI)|done|]. by apply Hold.
  - done.
  - intros c Hc Hcov. rewrite find_range_app. simpl. destruct (range_matches r c) eqn:Hm.
    + destruct (Hnew c Hc Hm) as [-> HDc]. rewrite Hdest, HDc. unfold dest_option.
      destruct (D p =? noDestination) eqn:E; zbool; [done|done].
    + destruct (Hold c Hc Hm) as [Hk Hpi']. rewrite (si_covered _ _ HI c Hc).
      * by destruct (dest_option (D c)).
      * rewrite Hpend. unfold pending in Hcov. simpl in Hcov. rewrite HnK in Hcov by done.
        destruct Hcov; [left; lia|by right].
  - intros c Hc Hle Hd. unfold pending in Hle; simpl in Hle. rewrite find_range_app. simpl.
    destruct (range_matches r c) eqn:Hm.
    + apply Hr in Hm as [Hm|Hm]; [lia| |done]. destruct (HK c Hm) as (_ & _ & E).
      rewrite (HKD c Hm) in Hd. congruence.
    + destruct (Hold c Hc Hm). rewrite HnK in Hd by done.
      rewrite (si_uncovered _ _ HI); [done|done|lia|done].
  - apply Forall_app. split; [apply (si_ranges _ _ HI)|by constructor].
  - constructor; [apply (si_disjoint _ _ HI)|]. intros c Hc Hm. by apply Hnew.
Qed.

(** Moving on from [i] when no range is open. *)
Lemma scan_open i st :
  scan_inv i st -> sc_rangeMin st = None -> i < 128 ->
  exists di, vec_at (sc_destinations st) i = Some di
    /\ scan_inv (i + 1) (mkScanState (sc_destinations st) (sc_ranges st)
                           (if di =? noDestination then None else Some i)).
Proof.
  intros HI Hnone Hlt. pose proof (si_index _ _ HI).
  assert (pending st i = i) as Hpend by (unfold pending; by rewrite Hnone).
  destruct (vec_at_is_Some (sc_destinations st) i) as [di Hdi]; [rewrite (si_size _ _ HI); lia|].
  exists di. split; [done|]. destruct (di =? noDestination) eqn:E; zbool.
  - constructor; try apply HI; simpl; try done; [lia| |].
    + intros c Hc Hcov. unfold pending in Hcov; simpl in Hcov.
      destruct (decide (c = i)) as [->|]; [apply (scan_skip i); [done|done|lia|by rewrite <- E]|].
      apply (si_covered _ _ HI); [done|]. rewrite Hpend. destruct Hcov; [left; lia|by right].
    + intros c Hc Hle Hd. unfold pending in Hle; simpl in Hle.
      apply (si_uncovered _ _ HI); [done|lia|done].
  - assert (di = D i) as ->.
    { destruct (si_table _ _ HI i ltac:(lia)) as [E'|[E' _]]; congruence. }
    constructor; try apply HI; simpl; try done; [lia| | |].
    + intros p [= <-]. split_and!; [lia|lia|done|]. intros c Hc. by replace c with i by lia.
    + intros c Hc Hcov. apply (si_covered _ _ HI); [done|]. by rewrite Hpend.
    + intros c Hc Hle Hd. apply (si_uncovered _ _ HI); [done|by rewrite Hpend|done].
Qed.

(** The entries [lower(rangeMin)..lower(rangeMax)]. *)
Lemma lowerCaseDiffers_spec d dest indices :
  (forall i, i ∈ indices -> is_Some (vec_at d (toASCIILower i))) ->
  exists b, lowerCaseDiffers d dest indices = Some b
    /\ (b = false -> forall i, i ∈ indices -> vec_at d (toASCIILower i) = Some dest).
Proof.
  induction indices as [|i indices IH]; intros Hb; simpl.
  - exists false. split; [done|]. intros _ i Hi. by apply elem_of_nil in Hi.
  - destruct (Hb i ltac:(left)) as [di Hdi]. rewrite Hdi. simpl.
    destruct (dest =? di) eqn:E; simpl; zbool; [|by exists true].
    destruct IH as (b & -> & HIH); [intros; apply Hb; by right|].
    exists b. split; [done|]. intros Hf j [->|Hj]%elem_of_cons; [congruence|auto].
Qed.

(** Committing a range that is tested case-sensitively. *)
Lemma scan_commit_sensitive i st p :
  scan_inv i st -> sc_rangeMin st = Some p ->
  scan_inv i (mkScanState (sc_destinations st) (sc_ranges st ++ [mkRange p (i - 1) (D p) true]) None).
Proof.
  intros HI Hp. destruct (si_open _ _ HI p Hp) as (? & ? & ?). pose proof (si_index _ _ HI).
  apply (scan_commit i st p _ _ (λ _, False) HI Hp); simpl; try done.
  - apply (si_size _ _ HI).
  - intros c Hc. rewrite range_matches_sensitive. lia.
  - repeat split; simpl; [lia..|done|]. exists p. split; [lia|done].
Qed.

(** Committing a range of upper-case letters together with its lower-case
    counterpart. *)
Lemma scan_commit_insensitive i st p :
  scan_inv i st -> sc_rangeMin st = Some p -> 65 <= p -> i - 1 <= 90 ->
  (forall c, p <= c < i -> vec_at (sc_destinations st) (c + 32) = Some (D p)) ->
  exists d', clearLowerCase (sc_destinations st) (seqZ p (i - 1 - p + 1)) = Some d'
    /\ (forall c, c <= 90 + 1 -> vec_at d' c = vec_at (sc_destinations st) c)
    /\ scan_inv i (mkScanState d' (sc_ranges st ++
         [mkRange (toASCIILower p) (toASCIILower (i - 1)) (D p) false]) None).
Proof.
  intros HI Hp Hlo Hhi Hlow. destruct (si_open _ _ HI p Hp) as (? & ? & Hall).
  pose proof (si_index _ _ HI).
  destruct (vec_fill_spec toASCIILower noDestination (sc_destinations st) (seqZ p (i - 1 - p + 1)))
    as (d' & Hd' & Hsz & Hin & Hout).
  { intros j Hj%elem_of_seqZ. rewrite toASCIILower_upper, (si_size _ _ HI) by lia. lia. }
  assert (forall c, c ∈ toASCIILower <$> seqZ p (i - 1 - p + 1) <-> p + 32 <= c < i + 32) as Helem.
  { intros c. rewrite list_elem_of_fmap. split.
    - intros (y & -> & Hy%elem_of_seqZ). rewrite toASCIILower_upper by lia. lia.
    - intros Hc. exists (c - 32). rewrite elem_of_seqZ, toASCIILower_upper by lia. lia. }
  exists d'. split_and!; [done|intros c Hc; apply Hout; rewrite Helem; lia|].
  rewrite !toASCIILower_upper by lia.
  apply (scan_commit i st p _ _ (λ c, p + 32 <= c < i + 32) HI Hp); simpl; try done.
  - rewrite Hsz. apply (si_size _ _ HI).
  - intros c Hc. rewrite range_matches_insensitive by lia. lia.
  - intros c Hc. split_and!; [lia|lia| |].
    + specialize (Hlow (c - 32) ltac:(lia)). by replace (c - 32 + 32) with c in Hlow by lia.
    + apply Hin. by apply Helem.
  - intros c Hc Hn. apply Hout. by rewrite Helem.
  - repeat split; simpl; [lia..|done|]. exists p. split; [lia|done].
Qed.

Lemma scanStep_inv i st :
  scan_inv i st -> i < 128 -> exists st', scanStep st i = Some st' /\ scan_inv (i + 1) st'.
Proof.
  intros HI Hlt. pose proof (si_index _ _ HI) as Hi. unfold scanStep.
  destruct (vec_at_is_Some (sc_destinations st) i) as [di Hdi]; [rewrite (si_size _ _ HI); lia|].
  destruct (sc_rangeMin st) as [p|] eqn:Hp.
  2:{ destruct (scan_open i st HI Hp Hlt) as (di' & Hdi' & HI'). rewrite Hdi'. simpl.
      eexists; split; [done|]. destruct (di' =? noDestination); simpl; [|done].
      destruct st; simpl in *; by subst. }
  destruct (si_open _ _ HI p Hp) as (Hpi & HDp & Hall).
  rewrite Hdi, (Hall p ltac:(lia)). simpl. destruct (di =? D p) eqn:E; simpl; zbool.
  - subst. exists st. split; [done|]. constructor; try apply HI; [lia| | |].
    + intros q Hq. rewrite Hp in Hq. simplify_eq. split_and!; [lia|lia|done|].
      intros c Hc. destruct (decide (c = i)) as [->|]; [done|]. apply Hall. lia.
    + intros c. unfold pending. rewrite Hp. intros Hc Hcov. apply (si_covered _ _ HI); [done|].
      unfold pending. by rewrite Hp.
    + intros c. unfold pending. rewrite Hp. intros Hc Hle. apply (si_uncovered _ _ HI); [done|].
      unfold pending. by rewrite Hp.
  - assert (exists b, (if (65 <=? p) && (i - 1 <=? 90)
        then lowerCaseDiffers (sc_destinations st) (D p) (seqZ p (i - 1 - p + 1)) else Some true) = Some b
        /\ (b = false -> 65 <= p /\ i - 1 <= 90
            /\ forall c, p <= c < i -> vec_at (sc_destinations st) (c + 32) = Some (D p)))
      as (b & Hb & Hb').
    { destruct ((65 <=? p) && (i - 1 <=? 90)) eqn:Ecase; zbool; [|by exists true].
      destruct (lowerCaseDiffers_spec (sc_destinations st) (D p) (seqZ p (i - 1 - p + 1))) as (b & ? & Hb').
      { intros j Hj%elem_of_seqZ. rewrite toASCIILower_upper by lia.
        apply vec_at_is_Some. rewrite (si_size _ _ HI). lia. }
      exists b. split; [done|]. intros Hf. split_and!; [lia|lia|]. intros c Hc.
      rewrite <- toASCIILower_upper by lia. apply (Hb' Hf). apply elem_of_seqZ. lia. }
    rewrite Hb. simpl. destruct b; simpl.
    + pose proof (scan_commit_sensitive i st p HI Hp) as HI'.
      destruct (scan_open _ _ HI' eq_refl Hlt) as (di' & Hdi' & HI''). simpl in *.
      rewrite Hdi'. simpl. eauto.
    + destruct (Hb' eq_refl) as (H65 & H90 & Hlow).
      destruct (scan_commit_insensitive i st p HI Hp H65 H90 Hlow) as (d' & Hd' & Hkeep & HI').
      destruct (scan_open _ _ HI' eq_refl Hlt) as (di' & Hdi' & HI''). simpl in *.
      rewrite Hd'. simpl. rewrite (Hkeep p), (Hall p) by lia. simpl. rewrite Hdi'. simpl. eauto.
Qed.

(** The ranges found cover exactly the table. *)
Lemma scanRanges_spec d :
  vec_size d = 128 -> (forall c, 0 <= c <= 127 -> vec_at d c = Some (D c)) ->
  exists rs, scanRanges d = Some rs /\ Forall range_ok rs /\ disjoint_ranges rs
    /\ forall c, 0 <= c <= 127 -> find_range rs c = dest_option (D c).
Proof.
  intros Hsz Hd. unfold scanRanges.
  destruct (foldl_indices_inv scanStep scan_inv 128 (mkScanState d [] None)) as (st & Hst & HI).
  - lia.
  - split; simpl; try done; try constructor; auto.
    intros c Hc [Hlt|Hne]; [unfold pending in Hlt; simpl in Hlt; lia|]. by rewrite Hd in Hne.
  - intros i st [_ Hlt] HI. by apply scanStep_inv.
  - rewrite Hst. cbn [mbind option_bind].
    destruct (sc_rangeMin st) as [p|] eqn:Hp.
    + destruct (si_open _ _ HI p Hp) as (? & ? & Hall). rewrite (Hall p ltac:(lia)). simpl.
      pose proof (scan_commit_sensitive _ _ _ HI Hp) as HI'. change (128 - 1) with 127 in HI'.
      eexists; split_and!; [done|apply HI'|apply HI'|].
      intros c Hc. apply (si_covered _ _ HI' c Hc). unfold pending; simpl. left; lia.
    + eexists; split_and!; [done|apply HI|apply HI|].
      intros c Hc. apply (si_covered _ _ HI c Hc). unfold pending; rewrite Hp; simpl. left; lia.
Qed.

End Scan.

(** ** Grouping single characters into jump tables *)

(** At most one range matches a character. *)
Definition unique_at (rs : list Range) (c : Z) : Prop :=
  (length (filter (λ r, range_matches r c = true) rs) <= 1)%nat.

Lemma find_range_None rs c :
  find_range rs c = None <-> filter (λ r, range_matches r c = true) rs = [].
Proof.
  induction rs as [|r rs IH]; simpl; [done|]. rewrite filter_cons.
  destruct (range_matches r c); simpl; [done|]. by rewrite IH.
Qed.

Lemma disjoint_unique rs c : 0 <= c <= 127 -> disjoint_ranges rs -> unique_at rs c.
Proof.
  intros Hc. induction 1 as [|rs r _ IH Hr]; unfold unique_at in *; [simpl; lia|].
  rewrite filter_app, length_app. rewrite (filter_cons _ r []).
  case_decide as Hm; [|simpl; lia]. apply Hr in Hm; [|done].
  apply find_range_None in Hm. rewrite Hm. simpl. lia.
Qed.

Lemma find_range_extract A B C c :
  unique_at (A ++ B ++ C) c ->
  find_range (A ++ B ++ C) c =
  match find_range B c with Some d => Some d | None => find_range (A ++ C) c end.
Proof.
  intros Hu. unfold unique_at in Hu. rewrite !find_range_app.
  destruct (find_range B c) as [d|] eqn:HB; [|done].
  destruct (find_range A c) as [d'|] eqn:HA; [|done].
  rewrite !filter_app, !length_app in Hu.
  assert (filter (λ r, range_matches r c = true) A <> []) as HA'
    by (rewrite <- find_range_None; congruence).
  assert (filter (λ r, range_matches r c = true) B <> []) as HB'
    by (rewrite <- find_range_None; congruence).
  destruct (filter _ A), (filter _ B); simpl in Hu; try done. lia.
Qed.

Lemma unique_extract A B C c : unique_at (A ++ B ++ C) c -> unique_at (A ++ C) c.
Proof. unfold unique_at. rewrite !filter_app, !length_app. lia. Qed.

(** Single-character ranges [m], [m+1], ... tested the same way. *)
Fixpoint consecutive (m : Z) (cs : bool) (rs : list Range) : Prop :=
  match rs with
  | [] => True
  | r :: rs => r_min r = m /\ r_max r = m /\ r_caseSensitive r = cs /\ consecutive (m + 1) cs rs
  end.

Lemma consecutive_snoc m cs rs r :
  consecutive m cs rs -> r_min r = m + vec_size rs -> r_max r = r_min r -> r_caseSensitive r = cs ->
  consecutive m cs (rs ++ [r]).
Proof.
  revert m. induction rs as [|r' rs IH]; intros m H Hmin Hmax Hcs; simpl in *.
  - unfold vec_size in Hmin; simpl in Hmin. repeat split; [lia|lia|done].
  - destruct H as (? & ? & ? & H). repeat split; [done..|]. apply IH; [done| |done|done].
    unfold vec_size in *. simpl in Hmin. lia.
Qed.

Lemma consecutive_last m cs rs r :
  consecutive m cs (rs ++ [r]) -> r_min r = m + vec_size rs /\ r_max r = r_min r /\ r_caseSensitive r = cs.
Proof.
  revert m. induction rs as [|r' rs IH]; intros m; simpl.
  - intros (? & ? & ? & _). unfold vec_size; simpl. split_and!; [lia|lia|done].
  - intros (_ & _ & _ & H). apply IH in H. unfold vec_size in *. simpl. split_and!; [lia|tauto..].
Qed.

(** The table made of consecutive ranges answers as they do. *)
Lemma find_range_consecutive m cs B c :
  consecutive m cs B ->
  find_range B c =
  if (m <=? fold_case cs c) && (fold_case cs c <=? m + vec_size B - 1)
  then (r_destination <$> B) !! Z.to_nat (fold_case cs c - m) else None.
Proof.
  revert m. induction B as [|r B IH]; intros m; unfold vec_size; cbn [find_range length].
  { intros _. destruct (_ && _) eqn:E; [|done]. zbool. lia. }
  intros (Hmin & Hmax & Hcs & HB). rewrite (IH _ HB). unfold range_matches, vec_size.
  rewrite Hmin, Hmax, Hcs.
  destruct ((m <=? fold_case cs c) && (fold_case cs c <=? m)) eqn:E1; zbool.
  - replace (fold_case cs c) with m by lia. rewrite Z.sub_diag. simpl.
    rewrite Z.leb_refl. simpl. destruct (m <=? _) eqn:E; zbool; [done|lia].
  - apply andb_false_iff in E1.
    destruct ((m + 1 <=? _) && _) eqn:E2, ((m <=? _) && (_ <=? m + _ - 1)) eqn:E3; zbool;
      repeat match goal with H : _ && _ = false |- _ => apply andb_false_iff in H end; zbool.
    + replace (Z.to_nat (fold_case cs c - m)) with (S (Z.to_nat (fold_case cs c - (m + 1)))) by lia. done.
    + exfalso. destruct E3; zbool; lia.
    + exfalso. destruct E1, E2; zbool; lia.
    + done.
Qed.

Lemma extractJumpTable_spec A B C m cs :
  B <> [] -> consecutive m cs B ->
  extractJumpTable (A ++ B ++ C) (length A) (length A + length B - 1) =
  Some (mkJumpTable m (m + vec_size B - 1) cs (r_destination <$> B), A ++ C).
Proof.
  intros HB Hc. unfold extractJumpTable.
  replace (length A + length B - 1 - length A + 1)%nat with (length B) by (destruct B; simpl; [done|lia]).
  rewrite drop_app_length, take_app_length, take_app_length.
  rewrite <- drop_drop, drop_app_length, drop_app_length.
  destruct (exists_last HB) as (B' & rl & ->).
  assert ((A ++ (B' ++ [rl]) ++ C) !! length A = (B' ++ [rl]) !! 0%nat) as ->.
  { rewrite lookup_app_r, Nat.sub_diag by lia. by destruct B'. }
  assert ((A ++ (B' ++ [rl]) ++ C) !! (length A + length (B' ++ [rl]) - 1)%nat = Some rl) as ->.
  { rewrite length_app; simpl. rewrite lookup_app_r by lia.
    rewrite <- app_assoc. rewrite lookup_app_r by lia.
    replace (length A + (length B' + 1) - 1 - length A - length B')%nat with O by lia. done. }
  apply consecutive_last in Hc as Hl. destruct Hl as (Hl1 & Hl2 & Hl3).
  destruct ((B' ++ [rl]) !! 0%nat) as [r0|] eqn:E0; [|by destruct B'].
  simpl. assert (r_min r0 = m) as ->.
  { destruct B'; simpl in *; simplify_eq; tauto. }
  rewrite vec_size_app. unfold vec_size at 2; simpl.
  repeat f_equal; lia || done.
Qed.

Section Grouping.

(** What the destinations of ranges and tables satisfy. *)
Context (P : Z -> Prop).

Definition range_wf (r : Range) : Prop :=
  0 <= r_min r /\ r_min r <= r_max r /\ r_max r <= 127 /\ P (r_destination r).

Definition table_wf (t : JumpTable) : Prop :=
  0 <= jt_min t /\ jt_min t <= jt_max t /\ jt_max t <= 127
  /\ vec_size (jt_destinations t) = jt_max t - jt_min t + 1
  /\ Forall P (jt_destinations t).

Definition lookup_both (tables : list JumpTable) (rs : list Range) (c : Z) : option Z :=
  match find_table tables c with Some t => Some t | None => find_range rs c end.

(** A table that matches a character has an entry for it. *)
Lemma table_target_is_Some t c :
  table_wf t -> table_matches t c = true -> is_Some (table_target t c).
Proof.
  intros (? & ? & ? & Hsz & _) Hm. unfold table_matches in Hm. zbool.
  apply lookup_lt_is_Some. unfold vec_size in Hsz. lia.
Qed.

Lemma find_table_snoc tables t c :
  Forall table_wf tables ->
  find_table (tables ++ [t]) c =
  match find_table tables c with
  | Some d => Some d
  | None => if table_matches t c then table_target t c else None
  end.
Proof.
  induction 1 as [|t' tables Ht' _ IH]; simpl; [done|].
  destruct (table_matches t' c) eqn:E; [|done].
  destruct (table_target_is_Some t' c Ht' E) as [? ->]. done.
Qed.

Record group_inv (rs0 : list Range) (tables : list JumpTable) (rs : list Range) : Prop := {
  gi_unique : forall c, 0 <= c <= 127 -> unique_at rs c;
  gi_ranges : Forall range_wf rs;
  gi_tables : Forall table_wf tables;
  gi_lookup : forall c, 0 <= c <= 127 -> lookup_both tables rs c = find_range rs0 c
}.

(** The block of ranges from the base position on. *)
Definition base_ok (rs : list Range) (pos : nat) (base : option nat) : Prop :=
  match base with
  | None => True
  | Some b => exists A B C m cs, rs = A ++ B ++ C /\ length A = b /\ pos = (length A + length B)%nat
                /\ B <> [] /\ consecutive m cs B
  end.

(** Moving a block into a table keeps every lookup. *)
Lemma group_extract rs0 tables A B C m cs :
  group_inv rs0 tables (A ++ B ++ C) -> B <> [] -> consecutive m cs B ->
  group_inv rs0 (tables ++ [mkJumpTable m (m + vec_size B - 1) cs (r_destination <$> B)]) (A ++ C).
Proof.
  intros HI HB Hc. pose proof (gi_ranges _ _ _ HI) as Hr.
  apply Forall_app in Hr as [HA HBC]. apply Forall_app in HBC as [HB' HC].
  constructor.
  - intros c Hc'. eapply unique_extract. by apply (gi_unique _ _ _ HI).
  - by apply Forall_app.
  - apply Forall_app. split; [apply (gi_tables _ _ _ HI)|]. constructor; [|done].
    destruct (exists_last HB) as (B' & rl & ->).
    apply consecutive_last in Hc as Hl. destruct Hl as (Hl1 & Hl2 & _).
    assert (exists r0, r0 ∈ B' ++ [rl] /\ r_min r0 = m) as (r0 & Hr0 & Hm0).
    { destruct B' as [|r0 B']; simpl in *; [exists rl|exists r0]; (split; [left|tauto]). }
    rewrite Forall_forall in HB'. pose proof (HB' _ Hr0) as (? & ? & ? & _).
    pose proof (HB' rl ltac:(apply elem_of_app; right; left)) as (? & ? & ? & _).
    unfold vec_size in *. repeat split; simpl; unfold vec_size;
      rewrite ?length_fmap, ?length_app; simpl; try lia.
    apply Forall_fmap, Forall_forall. intros r Hrin. by apply HB'.
  - intros c Hc'. rewrite <- (gi_lookup _ _ _ HI c Hc'). unfold lookup_both.
    rewrite find_table_snoc by apply HI. destruct (find_table tables c); [done|].
    rewrite (find_range_extract A B C) by (by apply (gi_unique _ _ _ HI)).
    rewrite (find_range_consecutive m cs B c Hc).
    unfold table_matches, table_target; simpl. by destruct (_ && _).
Qed.

Lemma jumpTableLoop_spec fuel rs0 tables rs pos base :
  group_inv rs0 tables rs -> base_ok rs pos base -> (pos <= length rs)%nat ->
  (length rs - pos <= fuel)%nat ->
  exists tables' rs' base', jumpTableLoop fuel tables rs pos base = Some (tables', rs', base')
    /\ group_inv rs0 tables' rs' /\ base_ok rs' (length rs') base'.
Proof.
  revert tables rs pos base. induction fuel as [|fuel IH]; intros tables rs pos base HI Hbase Hpos Hfuel;
    cbn [jumpTableLoop]; (destruct (decide (pos = length rs)) as [->|Hne];
      [rewrite Nat.ltb_irrefl; by exists tables, rs, base|]); [lia|].
  assert (pos < length rs)%nat as Elt by lia. rewrite (proj2 (Nat.ltb_lt _ _) Elt).
  destruct (lookup_lt_is_Some_2 rs pos Elt) as [range Hrange]. rewrite Hrange. cbn [mbind option_bind].
  assert (base_ok rs (pos + 1) (if r_min range =? r_max range then Some pos else None)) as Hstart.
  { destruct (r_min range =? r_max range) eqn:E; [|done]. zbool.
    exists (take pos rs), [range], (drop (S pos) rs), (r_min range), (r_caseSensitive range).
    rewrite length_take. simpl. split_and!; try done; [|lia|lia].
    rewrite <- (take_drop_middle rs pos range Hrange) at 1. done. }
  destruct base as [b|].
  2:{ apply IH; [done|done|lia|lia]. }
  destruct Hbase as (A & B & C & m & cs & -> & <- & -> & HB & Hcons).
  destruct (exists_last HB) as (B' & rl & HBl).
  assert ((A ++ B ++ C) !! (length A + length B - 1)%nat = Some rl) as Hprev.
  { subst B. rewrite length_app; simpl. rewrite lookup_app_r by lia.
    rewrite <- app_assoc, lookup_app_r by lia.
    by replace (length A + (length B' + 1) - 1 - length A - length B')%nat with O by lia. }
  assert (exists r0, (A ++ B ++ C) !! length A = Some r0 /\ r_caseSensitive r0 = cs) as (r0 & Hr0 & Hr0cs).
  { rewrite lookup_app_r, Nat.sub_diag by lia. destruct B as [|r0 B]; [done|].
    exists r0. simpl in *. tauto. }
  rewrite Hr0, Hprev. cbn [mbind option_bind].
  destruct (_ || _ || _) eqn:Econd.
  - destruct (1 <? length A + length B - length A)%nat eqn:En.
    + rewrite (extractJumpTable_spec A B C m cs HB Hcons). cbn [mbind option_bind]. simpl.
      rewrite !length_app in *.
      apply IH; [by apply group_extract|done| |]; rewrite ?length_app; lia.
    + apply IH; [done|done|lia|lia].
  - zbool. apply Bool.eqb_prop in H1.
    apply IH; [done| |lia|lia].
    assert (exists C', C = range :: C') as (C' & ->).
    { rewrite lookup_app_r in Hrange by lia. rewrite lookup_app_r in Hrange by lia.
      replace (length A + length B - length A - length B)%nat with O in Hrange by lia.
      destruct C; simplify_eq/=. eauto. }
    exists A, (B ++ [range]), C', m, cs. rewrite <- app_assoc. split_and!; try done.
    + rewrite length_app. simpl. lia.
    + by destruct B.
    + subst B. apply consecutive_last in Hcons as Hl. destruct Hl as (? & ? & ?).
      apply consecutive_snoc; [done|rewrite vec_size_app; unfold vec_size at 2; simpl; lia|done|congruence].
Qed.

Lemma groupRanges_spec rs :
  (forall c, 0 <= c <= 127 -> unique_at rs c) -> Forall range_wf rs ->
  exists tables rs', groupRanges rs = Some (tables, rs')
    /\ Forall table_wf tables /\ Forall range_wf rs'
    /\ forall c, 0 <= c <= 127 -> lookup_both tables rs' c = find_range rs c.
Proof.
  intros Hu Hr. unfold groupRanges.
  destruct (jumpTableLoop_spec (length rs) rs [] rs 0 None) as (tables & rs' & base & -> & HI & Hbase);
    [by split|done|lia|lia|].
  cbn [mbind option_bind]. destruct base as [b|].
  2:{ exists tables, rs'. split_and!; [done|apply HI..]. }
  destruct (1 <? length rs' - b)%nat.
  2:{ exists tables, rs'. split_and!; [done|apply HI..]. }
  destruct Hbase as (A & B & C & m & cs & -> & <- & Hlen & HB & Hcons).
  assert (C = []) as -> by (rewrite !length_app in Hlen; destruct C; [done|simpl in Hlen; lia]).
  rewrite Hlen, (extractJumpTable_spec A B [] m cs HB Hcons). cbn [mbind option_bind].
  pose proof (group_extract _ _ _ _ _ _ _ HI HB Hcons) as HI'.
  eexists _, _. split_and!; [done|apply HI'..].
Qed.

End Grouping.

(** ** The theorem *)

(** The target found on a character, with the transition on the end of the URL
    left out when it goes to the fallback target. *)
Definition compiled_transition (ts : list (CharRange * Z)) (c : Z) : option Z :=
  match find_transition ts c with
  | Some t =>
      if (c =? 0) && canUseFallbackTransition ts && bool_decide (bestFallbackTarget ts = Some t)
      then None else Some t
  | None => None
  end.

(** The targets of a node are node indices. *)
Definition targets_ok (ts : list (CharRange * Z)) : Prop :=
  Forall (λ t, 0 <= t.2 < UINT32_MAX) ts.

Record transitions_spec (ts : list (CharRange * Z)) (tr : Transitions) : Prop := {
  ts_fallback : useFallbackTransition tr = canUseFallbackTransition ts;
  ts_fallbackTarget : useFallbackTransition tr = true -> fallbackTransitionTarget tr ∈ ts.*2;
  ts_tables : Forall (table_wf (.∈ ts.*2)) (jumpTables tr);
  ts_ranges : Forall (range_wf (.∈ ts.*2)) (ranges tr);
  ts_lookup : forall c, 0 <= c <= 127 -> lookup_transitions tr c = compiled_transition ts c
}.

Lemma table_entry_target uf fb ts c :
  table_entry uf fb ts c <> noDestination -> table_entry uf fb ts c ∈ ts.*2.
Proof.
  unfold table_entry. destruct (find_transition ts c) as [t|] eqn:E; [|done].
  destruct (uf && (fb =? t)); [done|]. intros _.
  apply find_transition_elem in E as (r & Hin & _). apply list_elem_of_fmap. by exists (r, t).
Qed.

(** The fallback target of a node is one of its targets. *)
Lemma bestFallbackTarget_elem ts b :
  ranges_ok 0 ts = true -> 0 < covered ts b -> b ∈ ts.*2.
Proof.
  intros Hok Hpos. unfold covered, covered_from, vec_size in Hpos.
  destruct (filter _ (seqZ 1 _)) as [|c l] eqn:E; [simpl in Hpos; lia|].
  assert (c ∈ filter (λ c, find_transition ts c = Some b) (seqZ 1 (128 - 1))) as Hc by (rewrite E; left).
  apply list_elem_of_filter in Hc as [Hc _]. apply find_transition_elem in Hc as (r & Hin & _).
  apply list_elem_of_fmap. by exists (r, b).
Qed.

Lemma transitions_sound ts :
  ranges_ok 0 ts = true -> targets_ok ts ->
  exists tr, transitions ts = Some tr /\ transitions_spec ts tr.
Proof.
  intros Hok Htg. unfold transitions.
  assert (exists fb, (if canUseFallbackTransition ts then bestFallbackTarget ts else Some UINT32_MAX) = Some fb
    /\ (canUseFallbackTransition ts = true -> bestFallbackTarget ts = Some fb /\ fb ∈ ts.*2))
    as (fb & Hfb & Hfb').
  { destruct (canUseFallbackTransition ts) eqn:E; [|by eexists].
    destruct (bestFallbackTarget_exists ts Hok E) as (b & Hb & Hpos & _).
    exists b. split_and!; [done|]. intros _. split; [done|]. by apply bestFallbackTarget_elem. }
  rewrite Hfb. cbn [mbind option_bind].
  destruct (fillDestinations_spec (canUseFallbackTransition ts) fb ts Hok) as (d & -> & Hsz & Hd).
  cbn [mbind option_bind].
  destruct (scanRanges_spec _ d Hsz Hd) as (rs & -> & Hrok & Hdis & Hrs).
  cbn [mbind option_bind].
  destruct (groupRanges_spec (.∈ ts.*2) rs) as (tables & rs' & -> & Htab & Hrng & Hlook).
  { intros c Hc. by apply disjoint_unique. }
  { eapply Forall_impl; [exact Hrok|]. intros r (? & ? & ? & Hne & c & Hc & Hdc).
    split_and!; [lia..|]. simpl. rewrite Hdc in *. by apply table_entry_target. }
  eexists; split; [done|]. constructor; simpl; [done|naive_solver|done|done|].
  intros c Hc. unfold lookup_transitions; simpl.
  specialize (Hlook c Hc). rewrite (Hrs c Hc) in Hlook. unfold lookup_both in Hlook.
  transitivity (match dest_option (table_entry (canUseFallbackTransition ts) fb ts c) with
    | Some t => Some t
    | None => if canUseFallbackTransition ts && negb (c =? 0) then Some fb else None end).
  { rewrite <- Hlook. by destruct (find_table tables c). }
  unfold table_entry, compiled_transition, dest_option.
  destruct (find_transition ts c) as [t|] eqn:Ef.
  - assert (t <> noDestination) as Ht.
    { apply find_transition_elem in Ef as (r & Hin & _). unfold targets_ok in Htg.
      rewrite Forall_forall in Htg. specialize (Htg _ Hin). simpl in Htg. unfold noDestination. lia. }
    destruct (canUseFallbackTransition ts) eqn:Eu; simpl.
    + destruct (Hfb' eq_refl) as [-> _]. destruct (fb =? t) eqn:E; zbool.
      * subst. rewrite Z.eqb_refl. rewrite bool_decide_true by done.
        destruct (c =? 0); done.
      * rewrite bool_decide_false by congruence. rewrite andb_false_r.
        destruct (t =? noDestination) eqn:E'; zbool; [done|done].
    + rewrite andb_false_r. simpl. destruct (t =? noDestination) eqn:E'; zbool; [done|done].
  - rewrite Z.eqb_refl. destruct (canUseFallbackTransition ts) eqn:Eu; simpl; [|done].
    destruct (c =? 0) eqn:E0; zbool; [done|].
    pose proof (proj1 (canUseFallbackTransition_iff ts Hok) Eu c ltac:(lia)) as [? ?]. congruence.
Qed.

(** on every ASCII character the jump tables, the ranges and the fallback
    jump that the compiler makes of a node's transitions select the node's
    transition, the only exception being a transition on the end of the URL
    that goes to the fallback target. *)
Theorem transitions_correct ts :
  ranges_ok 0 ts = true -> targets_ok ts ->
  exists tr, transitions ts = Some tr /\
    forall c, 0 <= c <= 127 -> lookup_transitions tr c = compiled_transition ts c.
Proof.
  intros Hok Htg. destruct (transitions_sound ts Hok Htg) as (tr & Htr & Hs).
  exists tr. split; [done|]. apply Hs.
Qed.

Lemma transitions_correct_witness :
  exists tr, transitions sample_transitions = Some tr /\ lookup_transitions tr 65 = Some 2.
Proof.
  destruct (transitions_correct sample_transitions) as (tr & Htr & Hl); [reflexivity| |].
  - repeat constructor; unfold UINT32_MAX; simpl; lia.
  - exists tr. split; [exact Htr|]. rewrite Hl by lia. reflexivity.
Defined.
