(* ===== verification/CompilerLayout.v ===== *)
(** * Layout and linking of the bytecode

    The compiler emits every jump with an empty field whose size it chose from
    a worst-case layout, and fills the fields in when all nodes are placed
    ([DFABytecodeCompiler::compile]).  This file describes the output as a
    listing of instructions and shows that every distance fits its field and
    that linking turns the listing with empty fields into the one with the
    right distances. *)

From stdpp Require Import base numbers option list list_numbers gmap.
From Stdlib Require Import ZArith Lia.
From S2P Require Import Prelude.
From S2P Require Import DFABytecode.
From S2P Require Import DFA.
From S2P Require Import DFABytecodeInterpreter.
From S2P Require Import DFABytecodeCompiler.
From S2P Require Import CompilerTransitions.

(** ** Listings *)

(** An instruction as the compiler emits it.  The four kinds of branches have
    one-byte arguments and a list of jump fields of one size. *)
Inductive Instr :=
  | IAppend (action : Z)
  | IBranch (instruction : DFABytecodeInstruction) (arguments dests : list Z) (js : DFABytecodeJumpSize)
  | ITerminate.

Definition action_bytes (action : Z) : list Z :=
  m_bytecode (emitAppendAction (mkCompilerState [] [] [] []) action).

Definition argument_bytes (arguments : list Z) : list Z := concat (le_bytes 1 <$> arguments).

(** The bytes of an instruction whose jump to node [d] has distance [f d]. *)
Definition encode (f : Z -> Z) (i : Instr) : list Z :=
  match i with
  | IAppend action => action_bytes action
  | IBranch i arguments dests js =>
      le_bytes 1 (opcode i js) ++ argument_bytes arguments ++ concat ((λ d, jump_field js (f d)) <$> dests)
  | ITerminate => le_bytes 1 (instruction_code Terminate)
  end.

Definition instr_size (i : Instr) : Z :=
  match i with
  | IAppend action => appendActionBytecodeSize action
  | IBranch _ arguments dests js => 1 + vec_size arguments + jumpSizeInBytes js * vec_size dests
  | ITerminate => 1
  end.

Definition listing_size (code : list Instr) : Z := foldr (λ i n, instr_size i + n) 0 code.

(** The listing with empty jump fields. *)
Definition encode_unlinked (code : list Instr) : list Z := concat (encode (λ _, 0) <$> code).

(** The listing at location [loc] when node [d] starts at [start d]. *)
Fixpoint encode_linked (start : Z -> Z) (loc : Z) (code : list Instr) : list Z :=
  match code with
  | [] => []
  | i :: code => encode (λ d, start d - loc) i ++ encode_linked start (loc + instr_size i) code
  end.

(** The link records of a listing, without the worst-case distance that only
    an assertion looks at. *)
Fixpoint branch_records (js : DFABytecodeJumpSize) (loc jumpLocation : Z) (dests : list Z) : list LinkRecord :=
  match dests with
  | [] => []
  | d :: dests => mkLinkRecord js 0 loc jumpLocation d
                  :: branch_records js loc (jumpLocation + jumpSizeInBytes js) dests
  end.

Definition instr_records (loc : Z) (i : Instr) : list LinkRecord :=
  match i with
  | IBranch _ arguments dests js => branch_records js loc (loc + 1 + vec_size arguments) dests
  | _ => []
  end.

Fixpoint listing_records (loc : Z) (code : list Instr) : list LinkRecord :=
  match code with
  | [] => []
  | i :: code => instr_records loc i ++ listing_records (loc + instr_size i) code
  end.

Definition strip (r : LinkRecord) : LinkRecord :=
  mkLinkRecord (lr_jumpSize r) 0 (lr_instructionLocation r) (lr_jumpLocation r) (lr_destinationNodeIndex r).

(** The instructions with their locations. *)
Fixpoint located (loc : Z) (code : list Instr) : list (Z * Instr) :=
  match code with
  | [] => []
  | i :: code => (loc, i) :: located (loc + instr_size i) code
  end.

(** ** Sizes *)

Lemma vec_size_argument_bytes arguments : vec_size (argument_bytes arguments) = vec_size arguments.
Proof.
  unfold argument_bytes. induction arguments as [|a l IH]; [done|].
  rewrite fmap_cons. cbn [concat]. rewrite vec_size_app, IH. unfold vec_size. simpl length. lia.
Qed.

Lemma vec_size_fields js (f : Z -> Z) (dests : list Z) :
  vec_size (concat ((λ d, jump_field js (f d)) <$> dests)) = jumpSizeInBytes js * vec_size dests.
Proof.
  induction dests as [|d l IH]; [unfold vec_size; simpl; lia|].
  rewrite fmap_cons. cbn [concat]. rewrite vec_size_app, IH, vec_size_jump_field.
  unfold vec_size. simpl length. lia.
Qed.

Lemma vec_size_encode f i : vec_size (encode f i) = instr_size i.
Proof.
  destruct i; cbn [encode instr_size].
  - unfold action_bytes, emitAppendAction, appendActionBytecodeSize, append.
    destruct (negb (Z.land action ActionFlagMask =? 0)), (negb (Z.land action IfConditionFlag =? 0)); done.
  - rewrite !vec_size_app, vec_size_argument_bytes, vec_size_fields. unfold vec_size at 1. rewrite length_le_bytes. lia.
  - done.
Qed.

Lemma instr_size_pos i : 1 <= instr_size i.
Proof.
  destruct i; simpl; [|pose proof (vec_size_nonneg arguments); pose proof (vec_size_nonneg dests);
    pose proof (jumpSizeInBytes_bound js); nia|lia].
  unfold appendActionBytecodeSize, sizeof_instruction. destruct (negb _); lia.
Qed.

Lemma listing_size_nonneg code : 0 <= listing_size code.
Proof. induction code as [|i code IH]; simpl; [lia|]. pose proof (instr_size_pos i). lia. Qed.

Lemma listing_size_app c1 c2 : listing_size (c1 ++ c2) = listing_size c1 + listing_size c2.
Proof. induction c1 as [|i c1 IH]; simpl; [done|lia]. Qed.

Lemma vec_size_unlinked code : vec_size (encode_unlinked code) = listing_size code.
Proof.
  induction code as [|i code IH]; [done|]. unfold encode_unlinked in *. rewrite fmap_cons.
  cbn [concat]. rewrite vec_size_app, vec_size_encode, IH. done.
Qed.

Lemma vec_size_linked start loc code : vec_size (encode_linked start loc code) = listing_size code.
Proof.
  revert loc. induction code as [|i code IH]; intros loc; [done|].
  cbn [encode_linked]. rewrite vec_size_app, vec_size_encode, IH. done.
Qed.

Lemma encode_unlinked_app c1 c2 : encode_unlinked (c1 ++ c2) = encode_unlinked c1 ++ encode_unlinked c2.
Proof. unfold encode_unlinked. by rewrite fmap_app, concat_app. Qed.

Lemma encode_linked_app start loc c1 c2 :
  encode_linked start loc (c1 ++ c2) =
  encode_linked start loc c1 ++ encode_linked start (loc + listing_size c1) c2.
Proof.
  revert loc. induction c1 as [|i c1 IH]; intros loc; simpl; [by rewrite Z.add_0_r|].
  rewrite IH, <- app_assoc. by rewrite <- Z.add_assoc.
Qed.

Lemma listing_records_app loc c1 c2 :
  listing_records loc (c1 ++ c2) = listing_records loc c1 ++ listing_records (loc + listing_size c1) c2.
Proof.
  revert loc. induction c1 as [|i c1 IH]; intros loc; simpl; [by rewrite Z.add_0_r|].
  rewrite IH, <- app_assoc. by rewrite <- Z.add_assoc.
Qed.

Lemma located_app loc c1 c2 :
  located loc (c1 ++ c2) = located loc c1 ++ located (loc + listing_size c1) c2.
Proof.
  revert loc. induction c1 as [|i c1 IH]; intros loc; simpl; [by rewrite Z.add_0_r|].
  rewrite IH. by rewrite <- Z.add_assoc.
Qed.

Lemma located_ge loc code l i : (l, i) ∈ located loc code -> loc <= l.
Proof.
  revert loc. induction code as [|j code IH]; intros loc; simpl; [by intros ?%elem_of_nil|].
  intros [H|H]%elem_of_cons; [simplify_eq; lia|]. apply IH in H. pose proof (instr_size_pos j). lia.
Qed.

(** ** Linking *)

(** The distance to the start of node [d] fits the field. *)
Definition branch_fits (start : Z -> Z) (e : Z * Instr) : Prop :=
  match e.2 with
  | IBranch _ _ dests js => Forall (λ d, fits js (start d - e.1)) dests
  | _ => True
  end.

Lemma linkRecord_strip offsets bc r : linkRecord offsets bc (strip r) = linkRecord offsets bc r.
Proof. by destruct r. Qed.

Lemma linkRecord_field offsets start js loc d pre post l :
  vec_at offsets d = Some (start d) -> 0 <= start d < INT32_MAX -> 0 <= loc < INT32_MAX ->
  vec_size pre + 4 < 2 ^ 32 ->
  fits js (start d - loc) ->
  linkRecord offsets (pre ++ jump_field js 0 ++ post) (mkLinkRecord js l loc (vec_size pre) d) =
  Some (pre ++ jump_field js (start d - loc) ++ post).
Proof.
  intros Hd Hs Hloc Hpre Hfit. unfold linkRecord.
  cbn [lr_jumpSize lr_instructionLocation lr_jumpLocation lr_destinationNodeIndex]. rewrite Hd. cbn [mbind option_bind].
  unfold INT32_MAX in *. destruct (start d <? 2147483647) eqn:E; zbool; [|lia]. cbn [negb].
  assert (s32 (u32 (start d - loc)) = start d - loc) as ->.
  { rewrite swrap_uwrap by lia. apply swrap_small; lia. }
  destruct js; unfold fits in Hfit; cbn [lr_jumpSize].
  - rewrite (swrap_small 8) by lia. rewrite Z.eqb_refl. cbn [negb]. unfold setBits.
    rewrite write_bytes_mid; [|done]. unfold jump_field. by rewrite (swrap_small 8) by lia.
  - rewrite (swrap_small 16) by lia. rewrite Z.eqb_refl. cbn [negb]. unfold setBits.
    rewrite write_bytes_mid; [|done]. unfold jump_field. by rewrite (swrap_small 16) by lia.
  - destruct ((Int24Min <=? _) && _) eqn:E'; [|apply andb_false_iff in E' as [?|?]; zbool; lia].
    cbn [negb]. unfold setBits, jump_field. rewrite <- !app_assoc.
    rewrite write_bytes_mid by done. cbn [mbind option_bind].
    pose proof (vec_size_nonneg pre).
    replace (u32 (vec_size pre + 2)) with (vec_size (pre ++ le_bytes 2 (u16 (start d - loc)))).
    2:{ rewrite vec_size_app, (uwrap_small 32); [done|lia]. }
    rewrite (app_assoc pre), write_bytes_mid by done. by rewrite <- app_assoc.
  - unfold setBits, jump_field. by rewrite write_bytes_mid.
Qed.

(** The records of one branch fill its fields. *)
Lemma link_branch offsets start js loc dests pre mid post :
  Forall (λ d, vec_at offsets d = Some (start d) /\ 0 <= start d < INT32_MAX) dests ->
  0 <= loc < INT32_MAX -> vec_size (pre ++ mid) + jumpSizeInBytes js * vec_size dests + 4 < 2 ^ 32 ->
  Forall (λ d, fits js (start d - loc)) dests ->
  foldl (λ bc r, bc ← bc; linkRecord offsets bc r)
    (Some (pre ++ mid ++ concat ((λ _, jump_field js 0) <$> dests) ++ post))
    (branch_records js loc (vec_size (pre ++ mid)) dests) =
  Some (pre ++ mid ++ concat ((λ d, jump_field js (start d - loc)) <$> dests) ++ post).
Proof.
  intros Hd Hloc. revert mid. induction dests as [|d dests IH]; intros mid Hsz Hfit; [done|].
  apply Forall_cons in Hd as [[Hd1 Hd2] Hd]. apply Forall_cons in Hfit as [Hf Hfit].
  pose proof (jumpSizeInBytes_bound js). unfold vec_size in Hsz at 2. cbn [length] in Hsz.
  cbn [branch_records foldl]. cbn [mbind option_bind]. rewrite !fmap_cons. cbn [concat].
  rewrite <- !(app_assoc (jump_field _ _)), (app_assoc pre mid).
  rewrite (linkRecord_field _ start) by (done || nia).
  specialize (IH Hd (mid ++ jump_field js (start d - loc))).
  rewrite <- !app_assoc in IH. rewrite <- !app_assoc.
  rewrite (app_assoc pre mid), vec_size_app, vec_size_jump_field in IH.
  apply IH; [|done]. unfold vec_size at 2. nia.
Qed.

(** Linking a listing whose distances fit gives the linked listing. *)
Lemma link_listing offsets start loc code pre post :
  loc = vec_size pre ->
  Forall (λ e, match e.2 with
               | IBranch _ _ dests _ =>
                   Forall (λ d, vec_at offsets d = Some (start d) /\ 0 <= start d < INT32_MAX) dests
               | _ => True
               end) (located loc code) ->
  loc + listing_size code + 4 < INT32_MAX ->
  Forall (branch_fits start) (located loc code) ->
  foldl (λ bc r, bc ← bc; linkRecord offsets bc r)
    (Some (pre ++ encode_unlinked code ++ post)) (listing_records loc code) =
  Some (pre ++ encode_linked start loc code ++ post).
Proof.
  revert loc pre. induction code as [|i code IH]; intros loc pre Hloc Hd Hsz Hfit; [done|].
  cbn [located] in Hd, Hfit. apply Forall_cons in Hd as [Hd1 Hd]. apply Forall_cons in Hfit as [Hf1 Hfit].
  cbn [listing_records encode_linked].
  change (listing_size (i :: code)) with (instr_size i + listing_size code) in Hsz.
  unfold INT32_MAX in *.
  unfold encode_unlinked. rewrite fmap_cons. cbn [concat]. fold (encode_unlinked code).
  pose proof (instr_size_pos i). pose proof (listing_size_nonneg code). pose proof (vec_size_nonneg pre).
  rewrite foldl_app.
  assert (foldl (λ bc r, bc ← bc; linkRecord offsets bc r)
    (Some (pre ++ (encode (λ _, 0) i ++ encode_unlinked code) ++ post)) (instr_records loc i) =
    Some (pre ++ encode (λ d, start d - loc) i ++ encode_unlinked code ++ post)) as ->.
  { destruct i as [|instruction arguments dests js|]; cbn [instr_records encode].
    - cbn [foldl]. by rewrite <- app_assoc.
    - rewrite <- !app_assoc.
      set (mid := le_bytes 1 (opcode instruction js) ++ argument_bytes arguments).
      replace (loc + 1 + vec_size arguments) with (vec_size (pre ++ mid)).
      2:{ unfold mid. rewrite !vec_size_app, vec_size_argument_bytes.
          unfold vec_size at 2. rewrite length_le_bytes. lia. }
      pose proof (link_branch offsets start js loc dests pre mid (encode_unlinked code ++ post) Hd1) as Hlb.
      unfold mid in *. rewrite <- !app_assoc in Hlb. apply Hlb; [unfold INT32_MAX; lia| |done].
      rewrite !vec_size_app, vec_size_argument_bytes. unfold vec_size at 2. rewrite length_le_bytes.
      cbn [instr_size] in Hsz. lia.
    - cbn [foldl]. by rewrite <- app_assoc. }
  rewrite (app_assoc pre). rewrite (IH (loc + instr_size i)); [by rewrite <- !app_assoc| |done| |done].
  - rewrite vec_size_app, vec_size_encode. lia.
  - lia.
Qed.

(** ** Emission *)

(** [st'] is [st] with a listing appended. *)
Record emits (st st' : CompilerState) (code : list Instr) : Prop := {
  em_bytecode : m_bytecode st' = m_bytecode st ++ encode_unlinked code;
  em_records : strip <$> m_linkRecords st' =
    (strip <$> m_linkRecords st) ++ listing_records (vec_size (m_bytecode st)) code;
  em_starts : m_nodeStartOffsets st' = m_nodeStartOffsets st;
  em_maxs : m_maxNodeStartOffsets st' = m_maxNodeStartOffsets st
}.

Lemma emits_nil st : emits st st [].
Proof. split; simpl; by rewrite ?app_nil_r. Qed.

Lemma emits_trans st1 st2 st3 c1 c2 : emits st1 st2 c1 -> emits st2 st3 c2 -> emits st1 st3 (c1 ++ c2).
Proof.
  intros [B1 R1 S1 M1] [B2 R2 S2 M2]. split; try congruence.
  - by rewrite encode_unlinked_app, app_assoc, <- B1.
  - rewrite R2, R1, listing_records_app, app_assoc. rewrite B1, vec_size_app, vec_size_unlinked. done.
Qed.

Lemma em_size st st' code :
  emits st st' code -> vec_size (m_bytecode st') = vec_size (m_bytecode st) + listing_size code.
Proof. intros H. by rewrite (em_bytecode _ _ _ H), vec_size_app, vec_size_unlinked. Qed.

(** A node index in range of the two offset tables. *)
Definition valid_node (st : CompilerState) (n : Z) : Prop :=
  0 <= n < vec_size (m_nodeStartOffsets st) /\ n < vec_size (m_maxNodeStartOffsets st).

(** The field holds every distance that the one chosen for the worst case of
    this jump can. *)
Definition dest_covered (st : CompilerState) (loc src : Z) (js : DFABytecodeJumpSize) (d : Z) : Prop :=
  exists l, longestPossibleJump st loc src d = Some l
    /\ forall x, fits (smallestPossibleJumpSize l) x -> fits js x.

Definition branch_covered (st : CompilerState) (src : Z) (e : Z * Instr) : Prop :=
  match e.2 with
  | IBranch _ _ dests js => Forall (dest_covered st e.1 src js) dests
  | _ => True
  end.

Lemma longestPossibleJump_ext st st' loc src d :
  m_nodeStartOffsets st' = m_nodeStartOffsets st -> m_maxNodeStartOffsets st' = m_maxNodeStartOffsets st ->
  longestPossibleJump st' loc src d = longestPossibleJump st loc src d.
Proof. intros E1 E2. unfold longestPossibleJump. by rewrite E1, E2. Qed.

Lemma branch_covered_ext st st' src e :
  m_nodeStartOffsets st' = m_nodeStartOffsets st -> m_maxNodeStartOffsets st' = m_maxNodeStartOffsets st ->
  branch_covered st' src e -> branch_covered st src e.
Proof.
  intros E1 E2. unfold branch_covered. destruct e.2; try done. intros H.
  eapply Forall_impl; [exact H|]. intros d (l & Hl & Hf). exists l.
  by rewrite <- (longestPossibleJump_ext st st').
Qed.

Lemma longestPossibleJump_is_Some st loc src d :
  valid_node st src -> valid_node st d -> is_Some (longestPossibleJump st loc src d).
Proof.
  intros [Hs1 Hs2] [Hd1 Hd2]. unfold longestPossibleJump.
  destruct (vec_at_is_Some (m_nodeStartOffsets st) d) as [x ->]; [lia|]. simpl.
  destruct (x =? UINT32_MAX); [|eauto].
  destruct (vec_at_is_Some (m_maxNodeStartOffsets st) d) as [? ->]; [lia|]. simpl.
  destruct (vec_at_is_Some (m_maxNodeStartOffsets st) src) as [? ->]; [lia|]. simpl.
  destruct (vec_at_is_Some (m_nodeStartOffsets st) src) as [? ->]; [lia|]. simpl. eauto.
Qed.

Lemma foldl_append_arguments arguments bc : foldl (append 1) bc arguments = bc ++ argument_bytes arguments.
Proof.
  revert bc. induction arguments as [|a l IH]; intros bc; simpl; [by rewrite app_nil_r|].
  rewrite IH. unfold append, argument_bytes. rewrite fmap_cons. cbn [concat]. by rewrite app_assoc.
Qed.

Lemma emitJumpInstruction_spec st i arguments src d :
  valid_node st src -> valid_node st d -> vec_size (m_bytecode st) + 1 + vec_size arguments < 2 ^ 32 ->
  exists st' js, emitJumpInstruction st i arguments src d = Some st'
    /\ emits st st' [IBranch i arguments [d] js]
    /\ dest_covered st (vec_size (m_bytecode st)) src js d.
Proof.
  intros Hsrc Hd Hsz. unfold emitJumpInstruction.
  pose proof (vec_size_nonneg (m_bytecode st)). pose proof (vec_size_nonneg arguments).
  rewrite (uwrap_small 32 (vec_size _)) by lia.
  destruct (longestPossibleJump_is_Some st (vec_size (m_bytecode st)) src d Hsrc Hd) as [l Hl].
  rewrite Hl. cbn [mbind option_bind].
  eexists _, (smallestPossibleJumpSize l). split_and!; [done| |by exists l].
  split; simpl; try done.
  - rewrite appendZeroes_field, foldl_append_arguments. unfold encode_unlinked, append.
    simpl. by rewrite !app_nil_r, <- !app_assoc.
  - rewrite fmap_app. simpl. unfold strip at 2. simpl. rewrite uwrap_small by lia.
    by rewrite Z.add_assoc.
Qed.

(** A sequence of emissions of one instruction each, with a budget. *)
Lemma emit_fold {X} (step : CompilerState -> X -> option CompilerState) (prog : X -> Instr -> Prop)
    (w : X -> Z) src xs st bound :
  (forall st' x, x ∈ xs -> m_nodeStartOffsets st' = m_nodeStartOffsets st ->
     m_maxNodeStartOffsets st' = m_maxNodeStartOffsets st ->
     vec_size (m_bytecode st') + w x <= bound ->
     exists st'' i, step st' x = Some st'' /\ emits st' st'' [i] /\ prog x i /\ instr_size i <= w x
       /\ branch_covered st' src (vec_size (m_bytecode st'), i)) ->
  (forall x, x ∈ xs -> 0 <= w x) ->
  vec_size (m_bytecode st) + foldr (λ x n, w x + n) 0 xs <= bound ->
  exists st' code, foldl (λ st x, st ← st; step st x) (Some st) xs = Some st'
    /\ emits st st' code /\ Forall2 prog xs code
    /\ listing_size code <= foldr (λ x n, w x + n) 0 xs
    /\ Forall (branch_covered st src) (located (vec_size (m_bytecode st)) code).
Proof.
  intros Hstep Hw. revert st Hstep. induction xs as [|x xs IH]; intros st Hstep Hb; simpl in *.
  { exists st, []. split_and!; [done|apply emits_nil|done|simpl; lia|constructor]. }
  assert (0 <= foldr (λ x n, w x + n) 0 xs) as Hpos.
  { clear -Hw. induction xs as [|y xs IH]; simpl; [lia|].
    pose proof (Hw y ltac:(right; left)). apply Z.add_nonneg_nonneg; [done|].
    apply IH. intros z [->|Hz]%elem_of_cons; apply Hw; [left|by right; right]. }
  destruct (Hstep st x ltac:(left) eq_refl eq_refl ltac:(lia)) as (st1 & i & Hs1 & He1 & Hp1 & Hw1 & Hc1).
  rewrite Hs1. pose proof (em_size _ _ _ He1) as Hsz1. simpl in Hsz1.
  destruct (IH ltac:(intros; apply Hw; by right) st1) as (st' & code & Hst' & He' & Hp' & Hsz' & Hc').
  - intros st2 y Hy E1 E2 Hb2. apply Hstep; [by right| | |done].
    + rewrite E1. apply (em_starts _ _ _ He1).
    + rewrite E2. apply (em_maxs _ _ _ He1).
  - lia.
  - exists st', (i :: code). split_and!; [done|by apply (emits_trans _ _ _ [i] _ He1)|by constructor| |].
    + simpl. lia.
    + simpl. constructor; [done|].
      replace (vec_size (m_bytecode st) + instr_size i) with (vec_size (m_bytecode st1)) by lia.
      eapply Forall_impl; [exact Hc'|]. intros e. apply branch_covered_ext.
      * apply (em_starts _ _ _ He1).
      * apply (em_maxs _ _ _ He1).
Qed.

(** ** The code of a node *)

(** A listing without the choice of jump sizes. *)
Definition erase (i : Instr) : Instr :=
  match i with IBranch i arguments dests _ => IBranch i arguments dests Int8 | _ => i end.

Definition table_instr (t : JumpTable) : Instr :=
  IBranch (if jt_caseSensitive t then JumpTableCaseSensitive else JumpTableCaseInsensitive)
    [jt_min t; jt_max t] (jt_destinations t) Int8.

Definition range_instr (r : Range) : Instr :=
  if r_min r =? r_max r then
    IBranch (if r_caseSensitive r then CheckValueCaseSensitive else CheckValueCaseInsensitive)
      [r_min r] [r_destination r] Int8
  else
    IBranch (if r_caseSensitive r then CheckValueRangeCaseSensitive else CheckValueRangeCaseInsensitive)
      [r_min r; r_max r] [r_destination r] Int8.

Definition last_instr (tr : Transitions) : Instr :=
  if useFallbackTransition tr then IBranch Jump [] [fallbackTransitionTarget tr] Int8 else ITerminate.

Definition transitions_program (tr : Transitions) : list Instr :=
  (table_instr <$> jumpTables tr) ++ (range_instr <$> ranges tr) ++ [last_instr tr].

Definition actions_program (actions : list Z) : list Instr := IAppend <$> actions.

(** Worst-case sizes, without wrap-around. *)
Definition table_max (t : JumpTable) : Z := 3 + 4 * (jt_max t - jt_min t + 1).
Definition range_max (r : Range) : Z := if r_min r =? r_max r then 6 else 7.
Definition last_max (tr : Transitions) : Z := if useFallbackTransition tr then 5 else 1.
Definition transitions_max (tr : Transitions) : Z :=
  sum table_max (jumpTables tr) + sum range_max (ranges tr) + last_max tr.

Lemma dest_covered_ext st st' loc src js d :
  m_nodeStartOffsets st' = m_nodeStartOffsets st -> m_maxNodeStartOffsets st' = m_maxNodeStartOffsets st ->
  dest_covered st' loc src js d -> dest_covered st loc src js d.
Proof. intros E1 E2 (l & Hl & Hf). exists l. by rewrite <- (longestPossibleJump_ext st st'). Qed.

(** The size of a jump table's fields is the largest any of them needs. *)
Lemma jumpTable_size_fold st loc src dests s :
  valid_node st src -> Forall (valid_node st) dests ->
  exists js, foldl (λ s d, s ← s; longest ← longestPossibleJump st loc src d;
                     Some (jumpSize_max s (smallestPossibleJumpSize longest))) (Some s) dests = Some js
    /\ (forall x, fits s x -> fits js x) /\ Forall (dest_covered st loc src js) dests.
Proof.
  intros Hsrc Hd. revert s. induction Hd as [|d dests Hd _ IH]; intros s; simpl; [by exists s|].
  destruct (longestPossibleJump_is_Some st loc src d Hsrc Hd) as [l Hl]. rewrite Hl. simpl.
  destruct (IH (jumpSize_max s (smallestPossibleJumpSize l))) as (js & -> & Hjs & Hall).
  exists js. split_and!; [done| |].
  - intros x Hx. apply Hjs. by apply fits_max_l.
  - constructor; [|done]. exists l. split; [done|]. intros x Hx. apply Hjs. by apply fits_max_r.
Qed.

(** The fields of a jump table. *)
Lemma jumpTable_fields_fold st loc src dests js st1 :
  valid_node st src -> Forall (valid_node st) dests ->
  m_nodeStartOffsets st1 = m_nodeStartOffsets st -> m_maxNodeStartOffsets st1 = m_maxNodeStartOffsets st ->
  vec_size (m_bytecode st1) + jumpSizeInBytes js * vec_size dests < 2 ^ 32 ->
  exists st', foldl (λ st d, st ← st; longest ← longestPossibleJump st loc src d;
          let jumpLocation := u32 (vec_size (m_bytecode st)) in
          let st := addLinkRecord st (mkLinkRecord js longest loc jumpLocation d) in
          Some (withBytecode st (appendZeroes (m_bytecode st) js))) (Some st1) dests = Some st'
    /\ m_bytecode st' = m_bytecode st1 ++ concat ((λ _, jump_field js 0) <$> dests)
    /\ strip <$> m_linkRecords st' =
         (strip <$> m_linkRecords st1) ++ branch_records js loc (vec_size (m_bytecode st1)) dests
    /\ m_nodeStartOffsets st' = m_nodeStartOffsets st /\ m_maxNodeStartOffsets st' = m_maxNodeStartOffsets st.
Proof.
  intros Hsrc Hd. revert st1. induction Hd as [|d dests Hd _ IH]; intros st1 E1 E2 Hsz.
  { exists st1. split_and!; try done; simpl; by rewrite app_nil_r. }
  pose proof (jumpSizeInBytes_bound js). pose proof (vec_size_nonneg (m_bytecode st1)).
  unfold vec_size in Hsz at 2. cbn [length] in Hsz.
  cbn [foldl mbind option_bind]. rewrite (longestPossibleJump_ext st st1) by done.
  destruct (longestPossibleJump_is_Some st loc src d Hsrc Hd) as [l ->]. cbn [mbind option_bind].
  rewrite (uwrap_small 32) by lia.
  match goal with |- exists st', foldl _ (Some ?s) _ = _ /\ _ =>
    destruct (IH s) as (st' & Hst' & HB & HR & HS & HM); [done|done| |] end.
  { simpl. rewrite appendZeroes_field, vec_size_app, vec_size_jump_field. unfold vec_size at 2. lia. }
  exists st'. split_and!; [done| | |done|done].
  - rewrite HB. cbn [m_bytecode withBytecode addLinkRecord]. rewrite appendZeroes_field, fmap_cons.
    cbn [concat]. by rewrite <- app_assoc.
  - rewrite HR. cbn [m_bytecode m_linkRecords withBytecode addLinkRecord].
    rewrite fmap_app, <- app_assoc.
    rewrite appendZeroes_field, vec_size_app, vec_size_jump_field. done.
Qed.

Lemma compileJumpTable_spec st src t P bound :
  valid_node st src -> (forall d, P d -> valid_node st d) -> table_wf P t ->
  vec_size (m_bytecode st) + table_max t <= bound -> bound < 2 ^ 31 ->
  exists st' i, compileJumpTable st src t = Some st' /\ emits st st' [i] /\ erase i = table_instr t
    /\ instr_size i <= table_max t /\ branch_covered st src (vec_size (m_bytecode st), i).
Proof.
  intros Hsrc HP (Hmin & Hle & Hmax & Hlen & Hdests) Hb Hbound. unfold compileJumpTable.
  unfold table_max in *. pose proof (vec_size_nonneg (m_bytecode st)).
  assert (Forall (valid_node st) (jt_destinations t)) as Hv by (eapply Forall_impl; [exact Hdests|done]).
  rewrite (uwrap_small 32 (vec_size _)) by lia.
  destruct (jumpTable_size_fold st (vec_size (m_bytecode st)) src _ Int8 Hsrc Hv) as (js & -> & _ & Hc).
  cbn [mbind option_bind]. pose proof (jumpSizeInBytes_bound js).
  match goal with |- exists st' i, foldl _ (Some ?s) _ = _ /\ _ =>
    destruct (jumpTable_fields_fold st (vec_size (m_bytecode st)) src (jt_destinations t) js s)
      as (st' & Hst' & HB & HR & HS & HM); try done end.
  { simpl. unfold append. rewrite !vec_size_app. unfold vec_size in *. rewrite !length_le_bytes. nia. }
  exists st', (IBranch (if jt_caseSensitive t then JumpTableCaseSensitive else JumpTableCaseInsensitive)
    [jt_min t; jt_max t] (jt_destinations t) js).
  split_and!; [exact Hst'| |done| |done].
  - split; [| |done|done].
    + rewrite HB. simpl. unfold append, encode_unlinked. simpl. rewrite app_nil_r, <- !app_assoc. done.
    + rewrite HR. simpl. unfold append. rewrite !vec_size_app, app_nil_r. unfold vec_size at 2 3 4.
      rewrite !length_le_bytes. f_equal. f_equal. unfold vec_size. simpl. lia.
  - cbn [instr_size]. rewrite Hlen. unfold vec_size. simpl. nia.
Qed.

Lemma compileCheckForRange_spec st src r P bound :
  valid_node st src -> (forall d, P d -> valid_node st d) -> range_wf P r ->
  vec_size (m_bytecode st) + range_max r <= bound -> bound < 2 ^ 31 ->
  exists st' i, compileCheckForRange st src r = Some st' /\ emits st st' [i] /\ erase i = range_instr r
    /\ instr_size i <= range_max r /\ branch_covered st src (vec_size (m_bytecode st), i).
Proof.
  intros Hsrc HP (Hmin & Hle & Hmax & Hdest) Hb Hbound.
  unfold compileCheckForRange, range_instr, range_max, emitCheckValue, emitCheckValueRange in *.
  pose proof (HP _ Hdest) as Hv.
  destruct (r_min r =? r_max r).
  - destruct (emitJumpInstruction_spec st (if r_caseSensitive r then CheckValueCaseSensitive
      else CheckValueCaseInsensitive) [r_min r] src _ Hsrc Hv) as (st' & js & ? & ? & Hc).
    { unfold vec_size in *. simpl. lia. }
    pose proof (jumpSizeInBytes_bound js).
    eexists _, _. split_and!; [done|done|done|cbn [instr_size]; unfold vec_size; cbn [length]; lia|by constructor].
  - destruct (emitJumpInstruction_spec st (if r_caseSensitive r then CheckValueRangeCaseSensitive
      else CheckValueRangeCaseInsensitive) [r_min r; r_max r] src _ Hsrc Hv) as (st' & js & ? & ? & Hc).
    { unfold vec_size in *. simpl. lia. }
    pose proof (jumpSizeInBytes_bound js).
    eexists _, _. split_and!; [done|done|done|cbn [instr_size]; unfold vec_size; cbn [length]; lia|by constructor].
Qed.

Lemma emitAppendAction_emits st action : emits st (emitAppendAction st action) [IAppend action].
Proof.
  unfold emitAppendAction. split.
  - unfold encode_unlinked. rewrite fmap_cons. cbn [fmap list_fmap concat encode]. rewrite app_nil_r.
    unfold action_bytes, emitAppendAction, append.
    destruct (negb (Z.land action ActionFlagMask =? 0)), (negb (Z.land action IfConditionFlag =? 0));
      cbn [m_bytecode withBytecode]; by rewrite ?app_nil_l, <- ?app_assoc.
  - simpl. rewrite app_nil_r.
    by destruct (negb (Z.land action ActionFlagMask =? 0)), (negb (Z.land action IfConditionFlag =? 0)).
  - by destruct (negb (Z.land action ActionFlagMask =? 0)), (negb (Z.land action IfConditionFlag =? 0)).
  - by destruct (negb (Z.land action ActionFlagMask =? 0)), (negb (Z.land action IfConditionFlag =? 0)).
Qed.

Lemma emitActions_emits st actions : emits st (foldl emitAppendAction st actions) (actions_program actions).
Proof.
  revert st. induction actions as [|a actions IH]; intros st; [apply emits_nil|].
  cbn [foldl]. unfold actions_program. rewrite fmap_cons.
  apply (emits_trans st (emitAppendAction st a) _ [IAppend a]); [apply emitAppendAction_emits|apply IH].
Qed.

Lemma emitTerminate_emits st : emits st (emitTerminate st) [ITerminate].
Proof. split; simpl; by rewrite ?app_nil_r. Qed.




Lemma range_max_bound r : 0 <= range_max r.
Proof. unfold range_max. destruct (_ =? _); lia. Qed.

Lemma table_max_bound P t : table_wf P t -> 0 <= table_max t.
Proof. intros (? & ? & ? & _). unfold table_max. lia. Qed.

Lemma Forall2_erase {X} (f : X -> Instr) xs code :
  Forall2 (λ x i, erase i = f x) xs code -> erase <$> code = f <$> xs.
Proof. induction 1; simpl; [done|]. by f_equal. Qed.

(** The code of a node's transitions, and the room it takes. *)
Lemma compileNodeTransitions_spec dfa st n node ts tr bound :
  vec_at (dfa_nodes dfa) n = Some node -> node_transitions dfa node = Some ts ->
  transitions ts = Some tr -> transitions_spec ts tr ->
  valid_node st n -> (forall d, d ∈ ts.*2 -> valid_node st d) ->
  vec_size (m_bytecode st) + transitions_max tr <= bound -> bound < 2 ^ 31 ->
  exists st' code, compileNodeTransitions dfa st n = Some st' /\ emits st st' code
    /\ erase <$> code = transitions_program tr /\ listing_size code <= transitions_max tr
    /\ Forall (branch_covered st n) (located (vec_size (m_bytecode st)) code).
Proof.
  intros Hnode Hts Htr Hspec Hn Hv Hb Hbound. unfold compileNodeTransitions.
  rewrite Hnode. cbn [mbind option_bind]. rewrite Hts. cbn [mbind option_bind]. rewrite Htr.
  cbn [mbind option_bind]. unfold transitions_max in Hb.
  pose proof (ts_tables _ _ Hspec) as Htab. pose proof (ts_ranges _ _ Hspec) as Hrng.
  rewrite Forall_forall in Htab. rewrite Forall_forall in Hrng.
  assert (0 <= sum range_max (ranges tr)) as Hr0 by (apply sum_nonneg; intros; apply range_max_bound).
  assert (0 <= last_max tr) as Hl0 by (unfold last_max; destruct (useFallbackTransition tr); lia).
  destruct (emit_fold (λ st t, compileJumpTable st n t) (λ t i, erase i = table_instr t) table_max
    n (jumpTables tr) st (vec_size (m_bytecode st) + sum table_max (jumpTables tr)))
    as (st1 & c1 & H1 & E1 & P1 & S1 & C1); [| |unfold sum; lia|].
  { intros st' t Ht Es Em Hw. eapply compileJumpTable_spec; [| |by apply Htab|exact Hw|lia];
      unfold valid_node in *; rewrite Es, Em; [done|intros; by apply Hv]. }
  { intros t Ht. by eapply table_max_bound, Htab. }
  rewrite H1. cbn [mbind option_bind]. pose proof (em_size _ _ _ E1) as Z1.
  destruct (emit_fold (λ st r, compileCheckForRange st n r) (λ r i, erase i = range_instr r) range_max
    n (ranges tr) st1 (vec_size (m_bytecode st1) + sum range_max (ranges tr)))
    as (st2 & c2 & H2 & E2 & P2 & S2 & C2); [| |unfold sum; lia|].
  { intros st' r Hr Es Em Hw. eapply compileCheckForRange_spec; [| |by apply Hrng|exact Hw|unfold sum in *; lia];
      unfold valid_node in *; rewrite Es, Em, (em_starts _ _ _ E1), (em_maxs _ _ _ E1);
      [done|intros; by apply Hv]. }
  { intros. apply range_max_bound. }
  rewrite H2. cbn [mbind option_bind]. pose proof (em_size _ _ _ E2) as Z2.
  pose proof (emits_trans _ _ _ _ _ E1 E2) as E12.
  assert (exists st3 i, (if useFallbackTransition tr then emitJump st2 n (fallbackTransitionTarget tr)
      else Some (emitTerminate st2)) = Some st3 /\ emits st2 st3 [i] /\ erase i = last_instr tr
      /\ instr_size i <= last_max tr /\ branch_covered st2 n (vec_size (m_bytecode st2), i))
    as (st3 & i & H3 & E3 & P3 & S3 & C3).
  { unfold last_instr, last_max in *. destruct (useFallbackTransition tr) eqn:Ef.
    - destruct (emitJumpInstruction_spec st2 Jump [] n (fallbackTransitionTarget tr)) as (st3 & js & ? & ? & Hc).
      + unfold valid_node in *. by rewrite (em_starts _ _ _ E12), (em_maxs _ _ _ E12).
      + unfold valid_node in *. rewrite (em_starts _ _ _ E12), (em_maxs _ _ _ E12).
        apply Hv, (ts_fallbackTarget _ _ Hspec Ef).
      + unfold vec_size in *. simpl. unfold sum in *. lia.
      + pose proof (jumpSizeInBytes_bound js).
        eexists _, _. split_and!; [done|done|done|cbn [instr_size]; unfold vec_size; cbn [length]; lia|by constructor].
    - eexists _, ITerminate. split_and!; [done|apply emitTerminate_emits|done|simpl; lia|done]. }
  exists st3, ((c1 ++ c2) ++ [i]). split_and!; [done|by eapply emits_trans| | |].
  - rewrite !fmap_app. unfold transitions_program. rewrite (Forall2_erase _ _ _ P1), (Forall2_erase _ _ _ P2).
    rewrite <- app_assoc. simpl. by rewrite P3.
  - rewrite !listing_size_app. unfold transitions_max, sum. simpl. lia.
  - rewrite !located_app. apply Forall_app; split; [apply Forall_app; split; [done|]|].
    + rewrite <- Z1. eapply Forall_impl; [exact C2|]. intros e.
      apply branch_covered_ext; [apply (em_starts _ _ _ E1)|apply (em_maxs _ _ _ E1)].
    + rewrite listing_size_app, Z.add_assoc, <- Z1, <- Z2. constructor; [|constructor].
      eapply branch_covered_ext; [..|exact C3]; [apply (em_starts _ _ _ E12)|apply (em_maxs _ _ _ E12)].
Qed.
