(* ===== verification/CompilerProof.v ===== *)
(** * The compiled bytecode is the linked listing of the nodes

    Correctness of [DFABytecodeCompiler::compile]: for a well-formed DFA whose
    worst-case code stays below 2 GiB no release assertion fires, and the
    output is the header followed by the code of every live node, in which each
    jump has the distance to the start of its destination. *)

From stdpp Require Import base numbers option list list_numbers gmap.
From Stdlib Require Import ZArith Lia.
From S2P Require Import Prelude.
From S2P Require Import DFABytecode.
From S2P Require Import DFA.
From S2P Require Import DFABytecodeInterpreter.
From S2P Require Import DFABytecodeCompiler.
From S2P Require Import CompilerTransitions.
From S2P Require Import CompilerLayout.

(** ** The code a node should have *)

(** The actions and the compiled transitions of a live node. *)
Definition node_info (dfa : DFA) (n : Z) : option (list Z * Transitions) :=
  node ← vec_at (dfa_nodes dfa) n;
  if isKilled node then None
  else
    actions ← node_actions dfa node;
    ts ← node_transitions dfa node;
    tr ← transitions ts;
    Some (actions, tr).

Definition actions_size (actions : list Z) : Z := sum appendActionBytecodeSize actions.

(** The worst-case size of a node, without wrap-around. *)
Definition node_max (dfa : DFA) (n : Z) : Z :=
  match node_info dfa n with
  | Some (actions, tr) => actions_size actions + transitions_max tr
  | None => 0
  end.

(** The worst-case size of the DFA's bytecode. *)
Definition worst_case_size (dfa : DFA) : Z :=
  sizeof_DFAHeader + sum (node_max dfa) (nodeIndices dfa).

(** The worst case of the root and of the first [k] other nodes. *)
Definition other_max (dfa : DFA) (n : Z) : Z := if n =? dfa_root dfa then 0 else node_max dfa n.
Definition max_before (dfa : DFA) (k : Z) : Z :=
  sizeof_DFAHeader + node_max dfa (dfa_root dfa) + sum (other_max dfa) (seqZ 0 k).

Definition root_actions (dfa : DFA) : list Z :=
  match node_info dfa (dfa_root dfa) with Some (actions, _) => actions | None => [] end.

(** The worst-case start of a node. *)
Definition max_start (dfa : DFA) (n : Z) : Z :=
  if n =? dfa_root dfa then sizeof_DFAHeader + actions_size (root_actions dfa) else max_before dfa n.

Section Layout.

Context (dfa : DFA).
Hypothesis Hwf : wf_dfa dfa = true.

Lemma wf_parts :
  is_live dfa (dfa_root dfa) = true
  /\ (forall n node, vec_at (dfa_nodes dfa) n = Some node -> node_ok dfa node = true)
  /\ vec_size (dfa_nodes dfa) < UINT32_MAX.
Proof.
  unfold wf_dfa in Hwf. zbool. split_and!; [done| |done].
  rewrite forallb_forall in *. intros n node Hn. apply vec_at_Some in Hn as [_ Hn].
  match goal with H : forall x, In x _ -> _ |- _ => apply H end.
  apply list_elem_of_In. by eapply list_elem_of_lookup_2.
Qed.

Lemma live_lookup n : is_live dfa n = true ->
  exists node, vec_at (dfa_nodes dfa) n = Some node /\ isKilled node = false.
Proof.
  unfold is_live. destruct (vec_at _ n) as [node|]; [|done]. intros H. exists node. split; [done|].
  by apply negb_true_iff.
Qed.

Lemma live_range n : is_live dfa n = true -> 0 <= n < vec_size (dfa_nodes dfa).
Proof. intros (node & H & _)%live_lookup. by eapply vec_at_bound. Qed.

(** Everything the compiler reads of a live node is there. *)
Lemma live_info n : is_live dfa n = true ->
  exists node actions ts tr, vec_at (dfa_nodes dfa) n = Some node /\ isKilled node = false
    /\ node_actions dfa node = Some actions /\ node_transitions dfa node = Some ts
    /\ transitions ts = Some tr /\ transitions_spec ts tr /\ ranges_ok 0 ts = true
    /\ Forall (λ a, action_ok a = true) actions
    /\ (forall d, d ∈ ts.*2 -> is_live dfa d = true)
    /\ node_info dfa n = Some (actions, tr).
Proof.
  intros Hl. destruct (live_lookup n Hl) as (node & Hn & Hk).
  destruct wf_parts as (_ & Hok & Hsz). specialize (Hok n node Hn). unfold node_ok in Hok.
  rewrite Hk in Hok. simpl in Hok.
  destruct (node_actions dfa node) as [actions|] eqn:Ea; [|done].
  destruct (node_transitions dfa node) as [ts|] eqn:Et; [|done]. zbool.
  assert (forall d, d ∈ ts.*2 -> is_live dfa d = true) as Hlive.
  { intros d ([r d'] & -> & Hin)%list_elem_of_fmap. rewrite forallb_forall in H0.
    apply (H0 (r, d')). by apply list_elem_of_In. }
  destruct (transitions_sound ts) as (tr & Htr & Hspec); [done| |].
  { apply Forall_forall. intros [r d] Hin. assert (d ∈ ts.*2) as Hd by (apply list_elem_of_fmap; by exists (r, d)).
    apply Hlive, live_range in Hd. simpl. lia. }
  exists node, actions, ts, tr. split_and!; try done.
  - apply Forall_forall. intros a Ha%list_elem_of_In. rewrite forallb_forall in H. auto.
  - unfold node_info. rewrite Hn. cbn [mbind option_bind]. rewrite Hk, Ea. cbn [mbind option_bind].
    rewrite Et. cbn [mbind option_bind]. rewrite Htr. done.
Qed.

Lemma dead_info n : is_live dfa n = false -> node_info dfa n = None.
Proof.
  unfold is_live, node_info. destruct (vec_at _ n) as [node|]; [|done]. simpl.
  intros H%negb_false_iff. by rewrite H.
Qed.

Lemma actions_size_nonneg actions : 0 <= actions_size actions.
Proof.
  apply sum_nonneg. intros a _. unfold appendActionBytecodeSize, sizeof_instruction. destruct (negb _); lia.
Qed.

Lemma transitions_max_nonneg ts tr : transitions_spec ts tr -> 0 <= transitions_max tr.
Proof.
  intros H. unfold transitions_max. pose proof (ts_tables _ _ H) as Ht. rewrite Forall_forall in Ht.
  assert (0 <= sum table_max (jumpTables tr)) by (apply sum_nonneg; intros; by eapply table_max_bound, Ht).
  assert (0 <= sum range_max (ranges tr)) by (apply sum_nonneg; intros; apply range_max_bound).
  unfold last_max. destruct (useFallbackTransition tr); lia.
Qed.

Lemma node_max_nonneg n : 0 <= node_max dfa n.
Proof.
  unfold node_max. destruct (is_live dfa n) eqn:Hl.
  - destruct (live_info n Hl) as (? & actions & ? & tr & _ & _ & _ & _ & _ & Hs & _ & _ & _ & ->).
    pose proof (actions_size_nonneg actions). pose proof (transitions_max_nonneg _ _ Hs). lia.
  - by rewrite dead_info.
Qed.

Lemma other_max_nonneg n : 0 <= other_max dfa n.
Proof. unfold other_max. destruct (n =? _); [lia|apply node_max_nonneg]. Qed.

Lemma max_before_succ k : 0 <= k -> max_before dfa (k + 1) = max_before dfa k + other_max dfa k.
Proof.
  intros. unfold max_before. rewrite seqZ_app by lia. rewrite sum_app. simpl.
  rewrite Z.add_0_r, Z.add_assoc. done.
Qed.

Lemma max_before_mono j k : 0 <= j <= k -> max_before dfa j <= max_before dfa k.
Proof.
  intros [Hj Hk]. replace k with (j + (k - j)) by lia. unfold max_before.
  rewrite seqZ_app, sum_app by lia.
  assert (0 <= sum (other_max dfa) (seqZ (0 + j) (k - j))) by (apply sum_nonneg; intros; apply other_max_nonneg).
  lia.
Qed.

(** The root is counted once, in either order. *)
Lemma sum_split_root l : NoDup l -> dfa_root dfa ∈ l ->
  sum (node_max dfa) l = node_max dfa (dfa_root dfa) + sum (other_max dfa) l.
Proof.
  induction 1 as [|n l Hn _ IH]; [by intros ?%elem_of_nil|]. simpl. unfold other_max at 1.
  destruct (n =? dfa_root dfa) eqn:E; zbool.
  - intros _. subst. enough (sum (node_max dfa) l = sum (other_max dfa) l) by lia.
    clear -Hn. induction l as [|m l IH]; [done|]. simpl. rewrite not_elem_of_cons in Hn.
    unfold other_max at 1. destruct (m =? dfa_root dfa) eqn:E; zbool; [naive_solver|].
    rewrite IH by tauto. done.
  - intros [Heq|Hin]%elem_of_cons; [congruence|]. specialize (IH Hin). lia.
Qed.

Lemma worst_case_total : worst_case_size dfa = max_before dfa (vec_size (dfa_nodes dfa)).
Proof.
  unfold worst_case_size, max_before, nodeIndices. rewrite sum_split_root; [lia|apply NoDup_seqZ|].
  destruct wf_parts as (Hr & _). apply live_range in Hr. apply elem_of_seqZ. lia.
Qed.

(** ** Worst-case offsets *)

Context (base : Z).
Hypothesis Hbase : 0 <= base.
(** Twice the worst case, because the estimate of a forward jump adds the
    offset of the jump inside its node instead of subtracting it. *)
Hypothesis Hsmall : base + 2 * worst_case_size dfa + 16 < INT32_MAX.

Lemma u32_fold {X} (w : X -> Z) xs s :
  0 <= s -> (forall x, x ∈ xs -> 0 <= w x) -> s + sum w xs < 2 ^ 32 ->
  foldl (λ s x, u32 (s + w x)) s xs = s + sum w xs.
Proof.
  revert s. induction xs as [|x xs IH]; intros s Hs Hw Hb; simpl in *; [lia|].
  pose proof (Hw x ltac:(left)).
  assert (0 <= sum w xs) by (apply sum_nonneg; intros; apply Hw; by right).
  rewrite uwrap_small by lia. rewrite IH; [lia|lia|intros; apply Hw; by right|lia].
Qed.

Lemma node_max_total n : 0 <= n < vec_size (dfa_nodes dfa) ->
  sizeof_DFAHeader + node_max dfa n <= worst_case_size dfa.
Proof.
  intros Hn. unfold worst_case_size, nodeIndices.
  replace (vec_size (dfa_nodes dfa)) with (n + (1 + (vec_size (dfa_nodes dfa) - n - 1))) by lia.
  rewrite !seqZ_app, !sum_app by lia. simpl. change (Z.of_nat 0) with 0. rewrite !Z.add_0_l.
  assert (0 <= sum (node_max dfa) (seqZ 0 n)) by (apply sum_nonneg; intros; apply node_max_nonneg).
  assert (0 <= sum (node_max dfa) (seqZ (n + 1) (vec_size (dfa_nodes dfa) - n - 1)))
    by (apply sum_nonneg; intros; apply node_max_nonneg). lia.
Qed.

Lemma compiledNodeMaxBytecodeSize_eq n : 0 <= n < vec_size (dfa_nodes dfa) ->
  compiledNodeMaxBytecodeSize dfa n = Some (node_max dfa n).
Proof.
  intros Hn. pose proof (node_max_total n Hn) as Htot. unfold sizeof_DFAHeader, INT32_MAX in *.
  unfold compiledNodeMaxBytecodeSize.
  destruct (is_live dfa n) eqn:Hl.
  - destruct (live_info n Hl) as (node & actions & ts & tr & -> & Hk & Ha & Hts & Htr & Hs & _ & _ & _ & Hinfo).
    cbn [mbind option_bind]. rewrite Hk, Ha. cbn [mbind option_bind]. rewrite Hts. cbn [mbind option_bind].
    unfold nodeTransitionsMaxBytecodeSize. rewrite Htr. cbn [mbind option_bind].
    unfold node_max in *. rewrite Hinfo in *. pose proof (actions_size_nonneg actions).
    pose proof (transitions_max_nonneg _ _ Hs). unfold transitions_max in *.
    pose proof (ts_tables _ _ Hs) as Ht. rewrite Forall_forall in Ht.
    assert (0 <= sum table_max (jumpTables tr)) by (apply sum_nonneg; intros; by eapply table_max_bound, Ht).
    assert (0 <= sum range_max (ranges tr)) by (apply sum_nonneg; intros; apply range_max_bound).
    assert (0 <= last_max tr) by (unfold last_max; destruct (useFallbackTransition tr); lia).
    assert (foldl (λ size t, u32 (size + checkForJumpTableMaxBytecodeSize t)) 0 (jumpTables tr)
      = sum table_max (jumpTables tr)) as ->.
    { rewrite <- (Z.add_0_l (sum _ _)), <- (u32_fold table_max); [|lia|intros; by eapply table_max_bound, Ht|lia].
      assert (forall s, foldl (λ size t, u32 (size + checkForJumpTableMaxBytecodeSize t)) s (jumpTables tr)
        = foldl (λ s x, u32 (s + table_max x)) s (jumpTables tr)) as Heq; [|apply Heq].
      revert Ht. clear. intros Ht. induction (jumpTables tr) as [|t l IH]; intros s; [done|]. simpl.
      rewrite IH by (intros; apply Ht; by right). do 3 f_equal.
      destruct (Ht t ltac:(left)) as (? & ? & ? & _).
      unfold checkForJumpTableMaxBytecodeSize, table_max, sizeof_instruction.
      rewrite !uwrap_small; rewrite ?uwrap_small; lia. }
    change (λ size r, u32 (size + checkForRangeMaxBytecodeSize r)) with (λ s x, u32 (s + range_max x)).
    rewrite (u32_fold range_max) by (intros; try apply range_max_bound; lia).
    unfold actionsBytecodeSize. rewrite (u32_fold appendActionBytecodeSize); fold (actions_size actions);
      [|lia|intros; unfold appendActionBytecodeSize, sizeof_instruction; destruct (negb _); lia|lia].
    unfold last_max in *. destruct (useFallbackTransition tr); simpl;
      rewrite !uwrap_small; rewrite ?uwrap_small; unfold sizeof_instruction; try lia; f_equal; lia.
  - unfold is_live in Hl. destruct (vec_at_is_Some (dfa_nodes dfa) n Hn) as [node Hnode].
    rewrite Hnode in *. apply negb_false_iff in Hl. simpl. rewrite Hl.
    unfold node_max, node_info. rewrite Hnode. simpl. by rewrite Hl.
Qed.

Lemma max_start_bound n : 0 <= n < vec_size (dfa_nodes dfa) -> 0 <= max_start dfa n <= worst_case_size dfa.
Proof.
  intros Hn. unfold max_start. destruct wf_parts as (Hr & _).
  pose proof (live_range _ Hr) as Hrr. pose proof (node_max_total _ Hrr) as Hrt.
  destruct (live_info _ Hr) as (? & actions & ? & tr & _ & _ & _ & _ & _ & Hs & _ & _ & _ & Hinfo).
  pose proof (transitions_max_nonneg _ _ Hs). pose proof (actions_size_nonneg actions).
  unfold root_actions, node_max, sizeof_DFAHeader in *. rewrite Hinfo in *.
  destruct (n =? dfa_root dfa); [lia|]. rewrite worst_case_total.
  pose proof (max_before_mono n (vec_size (dfa_nodes dfa)) ltac:(lia)).
  assert (0 <= max_before dfa n); [|lia]. unfold max_before, sizeof_DFAHeader.
  pose proof (node_max_nonneg (dfa_root dfa)).
  assert (0 <= sum (other_max dfa) (seqZ 0 n)) by (apply sum_nonneg; intros; apply other_max_nonneg). lia.
Qed.

Lemma computeMaxNodeStartOffsets_spec :
  exists maxs, computeMaxNodeStartOffsets dfa = Some maxs
    /\ vec_size maxs = vec_size (dfa_nodes dfa)
    /\ forall n, 0 <= n < vec_size (dfa_nodes dfa) -> vec_at maxs n = Some (max_start dfa n).
Proof.
  unfold computeMaxNodeStartOffsets. destruct wf_parts as (Hr & _ & _). pose proof (live_range _ Hr) as Hrr.
  destruct (live_info _ Hr) as (node & actions & ts & tr & Hn & Hk & Ha & Hts & Htr & Hs & _ & _ & _ & Hinfo).
  rewrite Hn. cbn [mbind option_bind]. rewrite Ha. cbn [mbind option_bind].
  pose proof (max_start_bound _ Hrr) as Hmr. pose proof (node_max_total _ Hrr) as Hrt.
  pose proof (node_max_nonneg (dfa_root dfa)) as Hr0. pose proof (actions_size_nonneg actions) as Ha0.
  unfold sizeof_DFAHeader, INT32_MAX in *.
  assert (max_start dfa (dfa_root dfa) = 4 + actions_size actions) as Hmax.
  { unfold max_start, root_actions. by rewrite Z.eqb_refl, Hinfo. }
  assert (actionsBytecodeSize actions = actions_size actions) as ->.
  { unfold actionsBytecodeSize. rewrite (u32_fold appendActionBytecodeSize); fold (actions_size actions);
      [lia|lia|intros; unfold appendActionBytecodeSize, sizeof_instruction; destruct (negb _); lia|lia]. }
  set (l0 := replicate (length (dfa_nodes dfa)) 0).
  assert (vec_size l0 = vec_size (dfa_nodes dfa)) as Hl0 by (unfold l0, vec_size; by rewrite length_replicate).
  destruct (vec_set l0 (dfa_root dfa) (u32 (4 + actions_size actions))) as [l1|] eqn:E1.
  2:{ unfold vec_set in E1. destruct (_ && _) eqn:E; [done|]. apply andb_false_iff in E as [?|?]; zbool; lia. }
  cbn [mbind option_bind]. rewrite compiledNodeMaxBytecodeSize_eq by done. cbn [mbind option_bind].
  destruct (foldl_indices_inv (λ acc i,
      if negb (i =? dfa_root dfa) then
        offsets ← vec_set acc.1 i acc.2; size ← compiledNodeMaxBytecodeSize dfa i;
        Some (offsets, u32 (acc.2 + size))
      else Some acc)
    (λ k acc, vec_size acc.1 = vec_size (dfa_nodes dfa) /\ acc.2 = max_before dfa k
       /\ forall n, n = dfa_root dfa \/ 0 <= n < k -> vec_at acc.1 n = Some (max_start dfa n))
    (vec_size (dfa_nodes dfa)) (l1, u32 (4 + node_max dfa (dfa_root dfa))))
    as ([l2 nxt] & H2 & Hsz2 & _ & Hl2).
  - apply vec_size_nonneg.
  - simpl. split_and!.
    + apply vec_set_size in E1. lia.
    + rewrite uwrap_small by lia. unfold max_before. simpl. unfold sizeof_DFAHeader. lia.
    + intros n [->|]; [|lia]. rewrite (vec_set_spec _ _ _ _ _ E1), Z.eqb_refl. rewrite uwrap_small by lia.
      by rewrite Hmax.
  - intros i [l nxt] Hi (Hsz & Hnxt & Hl). simpl in *. subst nxt.
    rewrite max_before_succ by lia. unfold other_max.
    destruct (i =? dfa_root dfa) eqn:E; zbool; simpl.
    + eexists; split; [done|]. split_and!; [done|simpl; lia|]. intros n Hn'. apply Hl. lia.
    + destruct (vec_set l i (max_before dfa i)) as [l'|] eqn:E'.
      2:{ unfold vec_set in E'. destruct (_ && _) eqn:E''; [done|]. apply andb_false_iff in E'' as [?|?]; zbool; lia. }
      simpl. rewrite compiledNodeMaxBytecodeSize_eq by done. simpl.
      eexists; split; [done|]. simpl. split_and!.
      * apply vec_set_size in E'. lia.
      * apply uwrap_small. pose proof (max_start_bound i Hi) as Hmi. unfold max_start in Hmi.
        destruct (i =? dfa_root dfa) eqn:E2; zbool; [done|]. pose proof (node_max_total i Hi).
        pose proof (node_max_nonneg i). unfold sizeof_DFAHeader in *. lia.
      * intros n Hn'. rewrite (vec_set_spec _ _ _ _ _ E'). destruct (i =? n) eqn:E2; zbool.
        -- subst. unfold max_start. destruct (n =? dfa_root dfa) eqn:E3; zbool; [done|done].
        -- apply Hl. lia.
  - unfold maxOffsetsLoop. simpl in Hsz2, Hl2. exists l2. unfold nodeIndices. rewrite H2. simpl.
    split_and!; [done|done|]. intros n Hn'. apply Hl2. by right.
Qed.

(** ** The jumps of a node that was just emitted *)

Lemma located_bound loc code l i :
  (l, i) ∈ located loc code -> loc <= l /\ l + instr_size i <= loc + listing_size code.
Proof.
  revert loc. induction code as [|j code IH]; intros loc; simpl; [by intros ?%elem_of_nil|].
  pose proof (instr_size_pos j). pose proof (listing_size_nonneg code).
  intros [H1|H1]%elem_of_cons; [simplify_eq; lia|]. apply IH in H1. lia.
Qed.

Lemma covered_fits st src s d sd js loc :
  (forall n, 0 <= n < vec_size (dfa_nodes dfa) -> vec_at (m_maxNodeStartOffsets st) n = Some (max_start dfa n)) ->
  0 <= src < vec_size (dfa_nodes dfa) -> 0 <= d < vec_size (dfa_nodes dfa) ->
  vec_at (m_nodeStartOffsets st) src = Some s -> 0 <= s <= loc -> loc <= s + worst_case_size dfa ->
  loc < INT32_MAX -> vec_at (m_nodeStartOffsets st) d = Some sd ->
  dest_covered st loc src js d ->
  if sd =? UINT32_MAX
  then max_start dfa src <= max_start dfa d ->
       forall x, 0 <= x <= max_start dfa d - max_start dfa src + (loc - s) -> fits js x
  else 0 <= sd < INT32_MAX -> fits js (sd - loc).
Proof.
  intros Hmax Hsrc Hd Hs Hle Hw Hloc Hsd (l & Hl & Hfits). unfold INT32_MAX in *.
  unfold longestPossibleJump in Hl. rewrite Hsd in Hl. cbn [mbind option_bind] in Hl.
  destruct (sd =? UINT32_MAX) eqn:E; zbool.
  - rewrite (Hmax d Hd), (Hmax src Hsrc), Hs in Hl. cbn [mbind option_bind] in Hl. intros Hmm x Hx.
    pose proof (max_start_bound d Hd). pose proof (max_start_bound src Hsrc).
    assert (l = max_start dfa d - max_start dfa src + (loc - s)) as ->.
    { assert (Hl' : s32 (u32 (u32 (max_start dfa d - max_start dfa src) - u32 (s - loc))) = l) by congruence.
      rewrite <- Hl', uwrap_sub, swrap_uwrap, swrap_small; lia. }
    apply Hfits, smallestPossibleJumpSize_fits; lia.
  - intros Hsd'. assert (l = sd - loc) as ->.
    { assert (Hl' : s32 (u32 (sd - loc)) = l) by congruence.
      rewrite <- Hl', swrap_uwrap, swrap_small; lia. }
    apply Hfits, smallestPossibleJumpSize_fits; lia.
Qed.

(** ** The state of the compiler between two nodes *)

Context (bc0 : list Z) (maxs : list Z).
Hypothesis Hbc0 : vec_size bc0 = base.
Hypothesis Hmaxs_size : vec_size maxs = vec_size (dfa_nodes dfa).
Hypothesis Hmaxs : forall n, 0 <= n < vec_size (dfa_nodes dfa) -> vec_at maxs n = Some (max_start dfa n).

(** What a node is compiled to; a jump to the root skips its actions. *)
Definition node_program (n : Z) (actions : list Z) (tr : Transitions) : list Instr :=
  (if n =? dfa_root dfa then [] else actions_program actions) ++ transitions_program tr.

(** A jump to [d] whose node may or may not be placed yet. *)
Definition jump_ok (limit : Z) (starts : list Z) (loc : Z) (js : DFABytecodeJumpSize) (d : Z) : Prop :=
  is_live dfa d = true /\ exists sd, vec_at starts d = Some sd /\
    if sd =? UINT32_MAX then forall x, 0 <= x <= max_start dfa d + limit - loc -> fits js x
    else fits js (sd - loc).

Record layout_inv (k : Z) (st : CompilerState) (code : list Instr) : Prop := {
  li_bytecode : m_bytecode st = bc0 ++ le_bytes 4 0 ++ encode_unlinked code;
  li_records : strip <$> m_linkRecords st = listing_records (base + 4) code;
  li_maxs : m_maxNodeStartOffsets st = maxs;
  li_starts_size : vec_size (m_nodeStartOffsets st) = vec_size (dfa_nodes dfa);
  li_starts : forall n s, vec_at (m_nodeStartOffsets st) n = Some s -> s = UINT32_MAX \/ 0 <= s <= base + 4 + listing_size code;
  li_pending : forall n, k <= n < vec_size (dfa_nodes dfa) -> n <> dfa_root dfa ->
    vec_at (m_nodeStartOffsets st) n = Some UINT32_MAX;
  li_placed : forall n actions tr, node_info dfa n = Some (actions, tr) -> n = dfa_root dfa \/ n < k ->
    exists pre own post, code = pre ++ own ++ post
      /\ vec_at (m_nodeStartOffsets st) n = Some (base + 4 + listing_size pre)
      /\ erase <$> own = node_program n actions tr;
  li_slack : 4 + listing_size code <= max_before dfa k;
  li_jumps : forall loc i arguments dests js d,
    (loc, IBranch i arguments dests js) ∈ located (base + 4) code -> d ∈ dests ->
    jump_ok (base + 4 + listing_size code - max_before dfa k) (m_nodeStartOffsets st) loc js d;
  li_root : (exists post, code = actions_program (root_actions dfa) ++ post)
    /\ vec_at (m_nodeStartOffsets st) (dfa_root dfa) = Some (base + 4 + actions_size (root_actions dfa))
}.

Lemma located_erase loc code l i arguments dests js :
  (l, IBranch i arguments dests js) ∈ located loc code ->
  IBranch i arguments dests Int8 ∈ erase <$> code.
Proof.
  revert loc. induction code as [|j code IH]; intros loc; simpl; [by intros ?%elem_of_nil|].
  intros [H1|H1]%elem_of_cons; [simplify_eq; left|right; by eapply IH].
Qed.

Lemma program_dests ts tr i arguments dests js d :
  transitions_spec ts tr -> IBranch i arguments dests js ∈ transitions_program tr -> d ∈ dests -> d ∈ ts.*2.
Proof.
  intros Hs Hin Hd. unfold transitions_program in Hin. rewrite !elem_of_app in Hin.
  destruct Hin as [Hin|[Hin|Hin]].
  - apply list_elem_of_fmap in Hin as (t & Heq & Ht). pose proof (ts_tables _ _ Hs) as Htab.
    rewrite Forall_forall in Htab. destruct (Htab t Ht) as (_ & _ & _ & _ & HP).
    rewrite Forall_forall in HP. unfold table_instr in Heq. simplify_eq. auto.
  - apply list_elem_of_fmap in Hin as (r & Heq & Hr). pose proof (ts_ranges _ _ Hs) as Hrng.
    rewrite Forall_forall in Hrng. destruct (Hrng r Hr) as (_ & _ & _ & HP).
    unfold range_instr in Heq. destruct (r_min r =? r_max r); simplify_eq; set_solver.
  - apply list_elem_of_singleton in Hin. unfold last_instr in Hin.
    destruct (useFallbackTransition tr) eqn:E; simplify_eq.
    apply list_elem_of_singleton in Hd as ->. by apply (ts_fallbackTarget _ _ Hs).
Qed.

(** The jumps of the node [src], emitted in state [st] after the node's start
    was set to [s]; [limit] is where the next node may start at the latest. *)
Lemma new_jumps st st' code src node ts tr s next :
  vec_at (dfa_nodes dfa) src = Some node -> transitions_spec ts tr ->
  (forall d, d ∈ ts.*2 -> is_live dfa d = true) ->
  m_maxNodeStartOffsets st = maxs ->
  vec_at (m_nodeStartOffsets st) src = Some s -> 0 <= s <= vec_size (m_bytecode st) ->
  vec_size (m_nodeStartOffsets st) = vec_size (dfa_nodes dfa) ->
  (forall n sd, vec_at (m_nodeStartOffsets st) n = Some sd -> sd = UINT32_MAX \/ 0 <= sd < INT32_MAX) ->
  emits st st' code -> erase <$> code = transitions_program tr ->
  Forall (branch_covered st src) (located (vec_size (m_bytecode st)) code) ->
  vec_size (m_bytecode st') - s <= next - max_start dfa src -> next <= worst_case_size dfa ->
  vec_size (m_bytecode st') < INT32_MAX ->
  (forall d, is_live dfa d = true -> vec_at (m_nodeStartOffsets st) d = Some UINT32_MAX ->
     next <= max_start dfa d) ->
  forall loc i arguments dests js d,
    (loc, IBranch i arguments dests js) ∈ located (vec_size (m_bytecode st)) code -> d ∈ dests ->
    jump_ok (vec_size (m_bytecode st') - next) (m_nodeStartOffsets st) loc js d.
Proof.
  intros Hnode Hs Hlive Hm Hsrc Hle Hsz Hst He Her Hcov Hroom Hnext Hbig Hfwd loc i arguments dests js d Hin Hd.
  apply located_erase in Hin as Hin'. rewrite Her in Hin'.
  pose proof (Hlive d (program_dests _ _ _ _ _ _ _ Hs Hin' Hd)) as Hld. split; [done|].
  pose proof (live_range d Hld) as Hdr. pose proof (vec_at_bound _ _ _ Hnode) as Hsr.
  destruct (vec_at_is_Some (m_nodeStartOffsets st) d) as [sd Hsd]; [lia|]. exists sd. split; [done|].
  apply located_bound in Hin as Hb. pose proof (em_size _ _ _ He) as Hes.
  pose proof (instr_size_pos (IBranch i arguments dests js)). pose proof (max_start_bound src Hsr).
  rewrite Forall_forall in Hcov. specialize (Hcov _ Hin). unfold branch_covered in Hcov. simpl in Hcov.
  rewrite Forall_forall in Hcov. specialize (Hcov d Hd).
  pose proof (covered_fits st src s d sd js loc) as Hfit. rewrite Hm in Hfit.
  specialize (Hfit Hmaxs Hsr Hdr Hsrc ltac:(lia) ltac:(lia) ltac:(lia) Hsd Hcov).
  destruct (sd =? UINT32_MAX) eqn:E; zbool.
  - intros x Hx. subst sd. specialize (Hfwd d Hld Hsd). apply Hfit; lia.
  - apply Hfit. destruct (Hst _ _ Hsd); [done|lia].
Qed.

Lemma layout_size k st code : layout_inv k st code -> vec_size (m_bytecode st) = base + 4 + listing_size code.
Proof.
  intros H. rewrite (li_bytecode _ _ _ H), !vec_size_app, vec_size_unlinked, Hbc0.
  unfold vec_size at 1. rewrite length_le_bytes. lia.
Qed.

Lemma max_before_le k : 0 <= k <= vec_size (dfa_nodes dfa) -> max_before dfa k <= worst_case_size dfa.
Proof. intros. rewrite worst_case_total. by apply max_before_mono. Qed.

(** Nothing is emitted for the root, which is placed already, or a killed node. *)
Lemma layout_skip k st code :
  layout_inv k st code -> 0 <= k -> k = dfa_root dfa \/ is_live dfa k = false -> layout_inv (k + 1) st code.
Proof.
  intros HI Hk Hskip.
  assert (max_before dfa (k + 1) = max_before dfa k) as Hmb.
  { rewrite max_before_succ by lia. unfold other_max. destruct (k =? dfa_root dfa) eqn:E; zbool; [lia|].
    destruct Hskip as [|Hd]; [done|]. unfold node_max. rewrite dead_info by done. lia. }
  split; try apply HI.
  - intros n Hn. apply (li_pending _ _ _ HI). lia.
  - intros n actions tr Hinfo Hn. apply (li_placed _ _ _ HI _ _ _ Hinfo).
    destruct (decide (n = k)) as [->|]; [|lia]. destruct Hskip as [|Hd]; [by left|].
    rewrite (dead_info _ Hd) in Hinfo. done.
  - rewrite Hmb. apply HI.
  - rewrite Hmb. apply HI.
Qed.

(** Entering the start of a node. *)
Lemma setNodeStart_spec st n :
  0 <= n < vec_size (m_nodeStartOffsets st) -> vec_size (m_bytecode st) < INT32_MAX ->
  exists st', setNodeStart st n = Some st' /\ m_bytecode st' = m_bytecode st
    /\ m_linkRecords st' = m_linkRecords st /\ m_maxNodeStartOffsets st' = m_maxNodeStartOffsets st
    /\ vec_size (m_nodeStartOffsets st') = vec_size (m_nodeStartOffsets st)
    /\ forall j, vec_at (m_nodeStartOffsets st') j =
         if n =? j then Some (vec_size (m_bytecode st)) else vec_at (m_nodeStartOffsets st) j.
Proof.
  intros Hn Hsz. unfold setNodeStart. pose proof (vec_size_nonneg (m_bytecode st)). unfold INT32_MAX in *.
  rewrite uwrap_small by lia.
  destruct (vec_set (m_nodeStartOffsets st) n (vec_size (m_bytecode st))) as [l|] eqn:E.
  2:{ unfold vec_set in E. destruct (_ && _) eqn:E'; [done|]. apply andb_false_iff in E' as [?|?]; zbool; lia. }
  eexists. split; [done|]. simpl. split_and!; try done.
  - by eapply vec_set_size.
  - intros j. by apply vec_set_spec.
Qed.

Lemma actions_program_size actions : listing_size (actions_program actions) = actions_size actions.
Proof.
  unfold actions_program, actions_size. induction actions as [|a l IH]; simpl; [done|].
  unfold sum in *. rewrite <- IH. done.
Qed.

Lemma located_actions loc actions l i arguments dests js :
  (l, IBranch i arguments dests js) ∉ located loc (actions_program actions).
Proof.
  revert loc. induction actions as [|a actions IH]; intros loc; simpl; [apply not_elem_of_nil|].
  apply not_elem_of_cons. split; [done|apply IH].
Qed.

Lemma erase_actions actions : erase <$> actions_program actions = actions_program actions.
Proof. unfold actions_program. induction actions; simpl; [done|]. by f_equal. Qed.

(** A node other than the root that is live. *)
Lemma layout_node k st code :
  layout_inv k st code -> 0 <= k < vec_size (dfa_nodes dfa) -> k <> dfa_root dfa -> is_live dfa k = true ->
  exists st' code', compileNode dfa st k false = Some st' /\ layout_inv (k + 1) st' code'.
Proof.
  intros HI Hk Hroot Hlive. pose proof (layout_size _ _ _ HI) as Hsize.
  destruct (live_info k Hlive) as (node & actions & ts & tr & Hn & Hkill & Ha & Hts & Htr & Hs & _ & _ & Htl & Hinfo).
  assert (max_before dfa (k + 1) = max_before dfa k + (actions_size actions + transitions_max tr)) as Hmb.
  { rewrite max_before_succ by lia. unfold other_max, node_max. rewrite Hinfo.
    destruct (k =? dfa_root dfa) eqn:E; zbool; [done|lia]. }
  pose proof (max_before_le (k + 1) ltac:(lia)) as Hworst. pose proof (li_slack _ _ _ HI) as Hslack.
  pose proof (actions_size_nonneg actions). pose proof (transitions_max_nonneg _ _ Hs).
  pose proof (listing_size_nonneg code). unfold INT32_MAX in *.
  assert (max_start dfa k = max_before dfa k) as Hms.
  { unfold max_start. destruct (k =? dfa_root dfa) eqn:E; zbool; done. }
  unfold compileNode. rewrite Hn. cbn [mbind option_bind]. rewrite Hkill. cbn [negb].
  destruct (setNodeStart_spec st k) as (st1 & -> & Hb1 & Hr1 & Hm1 & Hsz1 & Hst1);
    [by rewrite (li_starts_size _ _ _ HI)|unfold INT32_MAX; lia|].
  cbn [mbind option_bind]. rewrite Ha. cbn [mbind option_bind].
  pose proof (emitActions_emits st1 actions) as He2. set (st2 := foldl emitAppendAction st1 actions) in *.
  pose proof (em_size _ _ _ He2) as Hsize2. rewrite Hb1, actions_program_size in Hsize2.
  assert (vec_size (m_nodeStartOffsets st2) = vec_size (dfa_nodes dfa)) as Hss2.
  { rewrite (em_starts _ _ _ He2), Hsz1. apply HI. }
  assert (m_maxNodeStartOffsets st2 = maxs) as Hm2.
  { rewrite (em_maxs _ _ _ He2), Hm1. apply HI. }
  assert (forall j, vec_at (m_nodeStartOffsets st2) j =
    if k =? j then Some (vec_size (m_bytecode st)) else vec_at (m_nodeStartOffsets st) j) as Hst2.
  { intros j. by rewrite (em_starts _ _ _ He2). }
  destruct (compileNodeTransitions_spec dfa st2 k node ts tr (base + worst_case_size dfa))
    as (st3 & code3 & -> & He3 & Her3 & Hsz3 & Hc3); try done.
  { unfold valid_node. rewrite Hss2, Hm2, Hmaxs_size. lia. }
  { intros d Hd. unfold valid_node. rewrite Hss2, Hm2, Hmaxs_size.
    pose proof (live_range d (Htl d Hd)). lia. }
  { lia. }
  { lia. }
  exists st3, (code ++ actions_program actions ++ code3). split; [done|].
  pose proof (em_size _ _ _ He3) as Hsize3.
  pose proof (emits_trans _ _ _ _ _ He2 He3) as He. pose proof (listing_size_nonneg code3).
  assert (m_nodeStartOffsets st3 = m_nodeStartOffsets st2) as Hst3 by apply He3.
  split.
  - rewrite (em_bytecode _ _ _ He), Hb1, (li_bytecode _ _ _ HI), (encode_unlinked_app code).
    by rewrite <- !app_assoc.
  - rewrite (em_records _ _ _ He), Hr1, Hb1, (li_records _ _ _ HI), Hsize.
    by rewrite (listing_records_app _ code).
  - by rewrite (em_maxs _ _ _ He3).
  - by rewrite Hst3.
  - intros n sd. rewrite Hst3, Hst2, !listing_size_app, actions_program_size.
    destruct (k =? n); [intros [= <-]; right; lia|]. intros Hsd.
    apply (li_starts _ _ _ HI) in Hsd as [->|?]; [by left|right; lia].
  - intros n Hn' Hnr. rewrite Hst3, Hst2. destruct (k =? n) eqn:E; zbool; [lia|].
    apply (li_pending _ _ _ HI); [lia|done].
  - intros n acts' tr' Hinfo' Hn'. rewrite Hst3, Hst2. destruct (k =? n) eqn:E; zbool.
    + subst n. rewrite Hinfo in Hinfo'. simplify_eq.
      exists code, (actions_program acts' ++ code3), []. rewrite app_nil_r. split_and!; [done|by rewrite Hsize|].
      rewrite fmap_app, erase_actions, Her3. unfold node_program.
      destruct (k =? dfa_root dfa) eqn:E; zbool; done.
    + destruct (li_placed _ _ _ HI n acts' tr' Hinfo') as (pre & own & post & -> & ? & ?); [lia|].
      exists pre, own, (post ++ actions_program actions ++ code3). by rewrite <- !app_assoc.
  - rewrite !listing_size_app, actions_program_size, Hmb. lia.
  - intros loc i arguments dests js d Hin Hd. rewrite Hst3.
    rewrite !listing_size_app, actions_program_size.
    rewrite located_app, located_app in Hin. rewrite !elem_of_app in Hin. destruct Hin as [Hin|[Hin|Hin]].
    + destruct (li_jumps _ _ _ HI _ _ _ _ _ _ Hin Hd) as (Hld & sd & Hsd & Hjmp). split; [done|].
      apply located_bound in Hin as Hlb. pose proof (instr_size_pos (IBranch i arguments dests js)).
      rewrite Hst2. destruct (k =? d) eqn:E; zbool.
      * subst d. rewrite (li_pending _ _ _ HI k) in Hsd by (lia || done). simplify_eq.
        rewrite Z.eqb_refl in Hjmp. eexists; split; [done|].
        destruct (vec_size (m_bytecode st) =? UINT32_MAX) eqn:E; zbool; [unfold UINT32_MAX in E; lia|].
        apply Hjmp. lia.
      * exists sd. split; [done|]. destruct (sd =? UINT32_MAX); [|done].
        intros x Hx. apply Hjmp. lia.
    + by apply located_actions in Hin.
    + replace (base + 4 + listing_size code + listing_size (actions_program actions))
        with (vec_size (m_bytecode st2)) in Hin by (rewrite actions_program_size; lia).
      replace (base + 4 + (listing_size code + (actions_size actions + listing_size code3)) - max_before dfa (k + 1))
        with (vec_size (m_bytecode st3) - max_before dfa (k + 1)) by lia.
      refine (new_jumps st2 st3 code3 k node ts tr (vec_size (m_bytecode st)) (max_before dfa (k + 1))
        Hn Hs Htl Hm2 _ _ Hss2 _ He3 Her3 Hc3 _ _ _ _ loc i arguments dests js d Hin Hd).
      * by rewrite Hst2, Z.eqb_refl.
      * lia.
      * intros n sd. rewrite Hst2. unfold INT32_MAX. destruct (k =? n); [intros [= <-]; right; lia|].
        intros Hsd. apply (li_starts _ _ _ HI) in Hsd as [->|?]; [by left|right; lia].
      * lia.
      * done.
      * unfold INT32_MAX. lia.
      * intros d' Hld' Hsd'. rewrite Hst2 in Hsd'. destruct (k =? d') eqn:E; zbool.
        { exfalso. injection Hsd' as Hsd'. unfold UINT32_MAX in Hsd'. lia. }
        destruct (decide (d' = dfa_root dfa \/ d' < k)) as [Hpl|Hnp].
        { destruct (live_info d' Hld') as (? & acts' & ? & tr' & _ & _ & _ & _ & _ & _ & _ & _ & _ & Hinfo').
          destruct (li_placed _ _ _ HI d' acts' tr' Hinfo' Hpl) as (pre & own & post & -> & Hpos & _).
          rewrite Hsd' in Hpos. exfalso. injection Hpos as Hpos. unfold UINT32_MAX in Hpos.
          rewrite !listing_size_app in *. pose proof (listing_size_nonneg pre).
          pose proof (listing_size_nonneg own). pose proof (listing_size_nonneg post). lia. }
        unfold max_start. destruct (d' =? dfa_root dfa) eqn:E'; zbool; [tauto|].
        apply max_before_mono. lia.
  - destruct (li_root _ _ _ HI) as [[post ->] Hstart]. split; [eexists; by rewrite <- app_assoc|].
    rewrite Hst3, Hst2. destruct (k =? dfa_root dfa) eqn:E; zbool; done.
Qed.

(** The root, compiled first. *)
Lemma layout_root :
  exists st code,
    compileNode dfa (mkCompilerState (append 4 bc0 0) maxs (replicate (length (dfa_nodes dfa)) UINT32_MAX) [])
      (dfa_root dfa) true = Some st /\ layout_inv 0 st code.
Proof.
  destruct wf_parts as (Hr & _ & _). pose proof (live_range _ Hr) as Hrr.
  destruct (live_info _ Hr) as (node & actions & ts & tr & Hn & Hkill & Ha & Hts & Htr & Hs & _ & _ & Htl & Hinfo).
  set (st0 := mkCompilerState _ _ _ _).
  assert (vec_size (m_bytecode st0) = base + 4) as Hsize0.
  { simpl. unfold append. rewrite vec_size_app, Hbc0. done. }
  assert (max_before dfa 0 = 4 + (actions_size actions + transitions_max tr)) as Hmb.
  { unfold max_before, node_max, sizeof_DFAHeader. rewrite Hinfo. simpl. lia. }
  assert (max_start dfa (dfa_root dfa) = 4 + actions_size actions) as Hms.
  { unfold max_start, root_actions. by rewrite Z.eqb_refl, Hinfo. }
  pose proof (max_before_le 0 ltac:(lia)) as Hworst.
  pose proof (actions_size_nonneg actions). pose proof (transitions_max_nonneg _ _ Hs). unfold INT32_MAX in *.
  assert (forall n, 0 <= n < vec_size (dfa_nodes dfa) -> vec_at (m_nodeStartOffsets st0) n = Some UINT32_MAX) as Hst0.
  { intros n Hn'. simpl. apply vec_at_Some. split; [lia|]. apply lookup_replicate_2. unfold vec_size in Hn'. lia. }
  assert (vec_size (m_nodeStartOffsets st0) = vec_size (dfa_nodes dfa)) as Hss0.
  { simpl. unfold vec_size. by rewrite length_replicate. }
  unfold compileNode. rewrite Hn. cbn [mbind option_bind]. rewrite Hkill. cbn [negb mbind option_bind].
  rewrite Ha. cbn [mbind option_bind].
  pose proof (emitActions_emits st0 actions) as He1. set (st1 := foldl emitAppendAction st0 actions) in *.
  pose proof (em_size _ _ _ He1) as Hsize1. rewrite actions_program_size, Hsize0 in Hsize1.
  destruct (setNodeStart_spec st1 (dfa_root dfa)) as (st2 & -> & Hb2 & Hr2 & Hm2 & Hss2 & Hst2);
    [by rewrite (em_starts _ _ _ He1), Hss0|unfold INT32_MAX; lia|].
  rewrite (em_starts _ _ _ He1) in Hst2. rewrite (em_starts _ _ _ He1), Hss0 in Hss2.
  rewrite (em_maxs _ _ _ He1) in Hm2. cbn [mbind option_bind].
  destruct (compileNodeTransitions_spec dfa st2 (dfa_root dfa) node ts tr (base + worst_case_size dfa))
    as (st3 & code3 & -> & He3 & Her3 & Hsz3 & Hc3); try done.
  { unfold valid_node. rewrite Hss2, Hm2. simpl. rewrite Hmaxs_size. lia. }
  { intros d Hd. unfold valid_node. rewrite Hss2, Hm2. simpl. rewrite Hmaxs_size.
    pose proof (live_range d (Htl d Hd)). lia. }
  { rewrite Hb2. lia. }
  { lia. }
  pose proof (em_size _ _ _ He3) as Hsize3. rewrite Hb2 in Hsize3. pose proof (listing_size_nonneg code3).
  assert (m_nodeStartOffsets st3 = m_nodeStartOffsets st2) as Hst3 by apply He3.
  exists st3, (actions_program actions ++ code3). split; [done|]. split.
  - rewrite (em_bytecode _ _ _ He3), Hb2, (em_bytecode _ _ _ He1), encode_unlinked_app. simpl. unfold append.
    by rewrite <- !app_assoc.
  - rewrite (em_records _ _ _ He3), Hr2, (em_records _ _ _ He1), Hb2, Hsize1, Hsize0, listing_records_app,
      actions_program_size. done.
  - by rewrite (em_maxs _ _ _ He3), Hm2.
  - by rewrite Hst3.
  - intros n sd. rewrite Hst3, Hst2, listing_size_app, actions_program_size.
    destruct (dfa_root dfa =? n); [intros [= <-]; right; lia|]. intros Hsd. left.
    apply vec_at_bound in Hsd as Hb. rewrite Hst0 in Hsd by lia. congruence.
  - intros n Hn' Hnr. rewrite Hst3, Hst2. destruct (dfa_root dfa =? n) eqn:E; zbool; [congruence|].
    apply Hst0. lia.
  - intros n acts' tr' Hinfo' Hn'. assert (n = dfa_root dfa) as ->.
    { destruct Hn' as [|Hn']; [done|]. unfold node_info, vec_at in Hinfo'.
      destruct (0 <=? n) eqn:E; zbool; [lia|done]. }
    rewrite Hst3, Hst2, Z.eqb_refl, Hsize1. rewrite Hinfo in Hinfo'. simplify_eq.
    exists (actions_program acts'), code3, []. rewrite app_nil_r, actions_program_size. split_and!; [done|done|].
    unfold node_program. by rewrite Z.eqb_refl, Her3.
  - rewrite listing_size_app, actions_program_size, Hmb. lia.
  - intros loc i arguments dests js d Hin Hd. rewrite Hst3, listing_size_app, actions_program_size.
    rewrite located_app in Hin. rewrite elem_of_app in Hin. destruct Hin as [Hin|Hin];
      [by apply located_actions in Hin|].
    replace (base + 4 + listing_size (actions_program actions)) with (vec_size (m_bytecode st2)) in Hin
      by (rewrite actions_program_size, Hb2; lia).
    replace (base + 4 + (actions_size actions + listing_size code3) - max_before dfa 0)
      with (vec_size (m_bytecode st3) - max_before dfa 0) by lia.
    refine (new_jumps st2 st3 code3 (dfa_root dfa) node ts tr (vec_size (m_bytecode st1)) (max_before dfa 0)
      Hn Hs Htl Hm2 _ _ Hss2 _ He3 Her3 Hc3 _ _ _ _ loc i arguments dests js d Hin Hd).
    + by rewrite Hst2, Z.eqb_refl.
    + rewrite Hb2. lia.
    + intros n sd. rewrite Hst2. unfold INT32_MAX. destruct (dfa_root dfa =? n); [intros [= <-]; right; lia|].
      intros Hsd. apply vec_at_bound in Hsd as Hb. rewrite Hst0 in Hsd by lia. left. congruence.
    + lia.
    + done.
    + unfold INT32_MAX. lia.
    + intros d' Hld' Hsd'. pose proof (live_range _ Hld'). rewrite Hst2 in Hsd'.
      destruct (dfa_root dfa =? d') eqn:E; zbool.
      { exfalso. injection Hsd' as Hsd'. unfold UINT32_MAX in Hsd'. lia. }
      unfold max_start. destruct (d' =? dfa_root dfa) eqn:E'; zbool; [congruence|].
      apply max_before_mono. lia.
  - unfold root_actions. rewrite Hinfo. split; [by eexists|]. by rewrite Hst3, Hst2, Z.eqb_refl, Hsize1.
Qed.

Lemma layout_others st code :
  layout_inv 0 st code ->
  exists st' code', compileOtherNodes dfa st = Some st' /\ layout_inv (vec_size (dfa_nodes dfa)) st' code'.
Proof.
  intros HI. unfold compileOtherNodes, nodeIndices.
  destruct (foldl_indices_inv
    (λ st i, if negb (i =? dfa_root dfa) then compileNode dfa st i false else Some st)
    (λ k st, exists code, layout_inv k st code) (vec_size (dfa_nodes dfa)) st) as (st' & Hst' & code' & HI').
  - apply vec_size_nonneg.
  - by exists code.
  - intros k s Hk [c HIc]. destruct (k =? dfa_root dfa) eqn:E; cbn [negb]; zbool.
    { exists s. split; [done|]. exists c. apply layout_skip; [done|lia|by left]. }
    destruct (is_live dfa k) eqn:El.
    + destruct (layout_node k s c HIc Hk E El) as (s' & c' & ? & ?). eauto.
    + exists s. split; [|exists c; apply layout_skip; [done|lia|by right]].
      unfold compileNode. unfold is_live in El.
      destruct (vec_at_is_Some (dfa_nodes dfa) k Hk) as [node Hnode]. rewrite Hnode in *.
      apply negb_false_iff in El. cbn [mbind option_bind]. by rewrite El.
  - eauto.
Qed.

(** ** Linking *)

(** Every live node is placed when all nodes are compiled, below 2 GiB. *)
Lemma layout_final_start st code d :
  layout_inv (vec_size (dfa_nodes dfa)) st code -> is_live dfa d = true ->
  exists sd, vec_at (m_nodeStartOffsets st) d = Some sd /\ 0 <= sd < INT32_MAX.
Proof.
  intros HI Hd. destruct (live_info d Hd) as (? & actions & ? & tr & _ & _ & _ & _ & _ & _ & _ & _ & _ & Hinfo).
  pose proof (live_range _ Hd).
  destruct (li_placed _ _ _ HI d actions tr Hinfo) as (pre & own & post & -> & Hs & _); [lia|].
  eexists. split; [done|]. pose proof (li_slack _ _ _ HI) as Hsl. rewrite <- worst_case_total in Hsl.
  rewrite !listing_size_app in Hsl. pose proof (listing_size_nonneg pre).
  pose proof (listing_size_nonneg own). pose proof (listing_size_nonneg post). unfold INT32_MAX in *. lia.
Qed.

Lemma layout_final_branch st code loc i arguments dests js :
  layout_inv (vec_size (dfa_nodes dfa)) st code ->
  (loc, IBranch i arguments dests js) ∈ located (base + 4) code ->
  let start := λ d, default 0 (vec_at (m_nodeStartOffsets st) d) in
  Forall (λ d, (vec_at (m_nodeStartOffsets st) d = Some (start d) /\ 0 <= start d < INT32_MAX)
               /\ fits js (start d - loc) /\ is_live dfa d = true) dests.
Proof.
  intros HI Hin start. apply Forall_forall. intros d Hd.
  destruct (li_jumps _ _ _ HI _ _ _ _ _ _ Hin Hd) as (Hld & sd & Hsd & Hfit).
  destruct (layout_final_start _ _ _ HI Hld) as (sd' & Hsd' & Hb). rewrite Hsd in Hsd'. simplify_eq.
  unfold start. rewrite Hsd. simpl. split_and!; try done; try lia.
  destruct (sd' =? UINT32_MAX) eqn:E; [|done]. zbool. unfold UINT32_MAX, INT32_MAX in *. lia.
Qed.

Lemma link_records st code :
  layout_inv (vec_size (dfa_nodes dfa)) st code ->
  let start := λ d, default 0 (vec_at (m_nodeStartOffsets st) d) in
  foldl (λ bc r, bc ← bc; linkRecord (m_nodeStartOffsets st) bc r) (Some (m_bytecode st)) (m_linkRecords st) =
  Some (bc0 ++ le_bytes 4 0 ++ encode_linked start (base + 4) code).
Proof.
  intros HI start. pose proof (li_slack _ _ _ HI) as Hsl. rewrite <- worst_case_total in Hsl.
  pose proof (listing_size_nonneg code). unfold INT32_MAX in *.
  assert (forall rs acc, foldl (λ bc r, bc ← bc; linkRecord (m_nodeStartOffsets st) bc r) acc rs
    = foldl (λ bc r, bc ← bc; linkRecord (m_nodeStartOffsets st) bc r) acc (strip <$> rs)) as Hstrip.
  { induction rs as [|r rs IH]; intros acc; [done|]. simpl. rewrite IH. f_equal. }
  rewrite Hstrip, (li_records _ _ _ HI), (li_bytecode _ _ _ HI).
  pose proof (link_listing (m_nodeStartOffsets st) start (base + 4) code (bc0 ++ le_bytes 4 0) []) as Hlink.
  rewrite !app_nil_r, <- !app_assoc in Hlink. apply Hlink.
  - rewrite vec_size_app, Hbc0. done.
  - apply Forall_forall. intros [loc [a|i arguments dests js|]] Hin; simpl; try done.
    eapply Forall_impl; [exact (layout_final_branch _ _ _ _ _ _ _ HI Hin)|]. intros d Hd. apply Hd.
  - unfold INT32_MAX. lia.
  - apply Forall_forall. intros [loc [a|i arguments dests js|]] Hin; unfold branch_fits; simpl; try done.
    eapply Forall_impl; [exact (layout_final_branch _ _ _ _ _ _ _ HI Hin)|]. intros d Hd. apply Hd.
Qed.

End Layout.

(** ** The image of a DFA *)

(** The bytecode of a DFA placed at offset [base]: a header with its length,
    then a listing in which the actions of the root come first, the code of
    every live node [n] is at [start n], and every jump field has the distance
    to the start of its destination. *)
Record image_of (dfa : DFA) (base : Z) (start : Z -> Z) (code : list Instr) : Prop := {
  im_root : exists post, code = actions_program (root_actions dfa) ++ post;
  im_root_start : start (dfa_root dfa) = base + 4 + actions_size (root_actions dfa);
  im_node : forall n actions tr, node_info dfa n = Some (actions, tr) ->
    exists pre own post, code = pre ++ own ++ post /\ start n = base + 4 + listing_size pre
      /\ erase <$> own = node_program dfa n actions tr;
  im_fits : forall loc i arguments dests js d,
    (loc, IBranch i arguments dests js) ∈ located (base + 4) code -> d ∈ dests ->
    fits js (start d - loc) /\ is_live dfa d = true;
  im_size : 4 + listing_size code <= worst_case_size dfa
}.

Definition image_bytes (base : Z) (start : Z -> Z) (code : list Instr) : list Z :=
  le_bytes 4 (4 + listing_size code) ++ encode_linked start (base + 4) code.

Lemma compile_image dfa bc :
  wf_dfa dfa = true -> vec_size bc + 2 * worst_case_size dfa + 16 < INT32_MAX ->
  exists start code, compile dfa bc = Some (bc ++ image_bytes (vec_size bc) start code)
    /\ image_of dfa (vec_size bc) start code.
Proof.
  intros Hwf Hsmall. pose proof (vec_size_nonneg bc) as Hbase.
  destruct (computeMaxNodeStartOffsets_spec dfa Hwf _ Hbase Hsmall) as (maxs & Hmaxs & Hmsz & Hmax).
  destruct (layout_root dfa Hwf _ Hbase Hsmall bc maxs eq_refl Hmsz Hmax) as (st0 & code0 & Hroot & HI0).
  destruct (layout_others dfa Hwf _ Hbase Hsmall bc maxs eq_refl Hmsz Hmax st0 code0 HI0)
    as (st & code & Hothers & HI).
  set (start := λ d, default 0 (vec_at (m_nodeStartOffsets st) d)).
  exists start, code. pose proof (li_slack _ _ _ _ _ _ _ HI) as Hsl. rewrite <- worst_case_total in Hsl by done.
  pose proof (listing_size_nonneg code). unfold INT32_MAX in *. split.
  - unfold compile. rewrite Hmaxs. cbn [mbind option_bind]. rewrite Hroot. cbn [mbind option_bind].
    rewrite Hothers. cbn [mbind option_bind].
    rewrite (link_records dfa Hwf _ Hbase Hsmall bc maxs eq_refl st code HI). cbn [mbind option_bind].
    unfold setBits. rewrite (uwrap_small 32 (vec_size bc)) by lia.
    rewrite !vec_size_app, vec_size_linked. change (vec_size (le_bytes 4 0)) with 4.
    rewrite write_bytes_mid by done. unfold image_bytes. rewrite uwrap_small by lia.
    do 4 f_equal. lia.
  - split.
    + apply (li_root _ _ _ _ _ _ _ HI).
    + unfold start. by rewrite (proj2 (li_root _ _ _ _ _ _ _ HI)).
    + intros n actions tr Hinfo. destruct (li_placed _ _ _ _ _ _ _ HI n actions tr Hinfo) as
        (pre & own & post & ? & Hs & ?).
      { right. unfold node_info in Hinfo. destruct (vec_at (dfa_nodes dfa) n) eqn:E; [|done].
        apply vec_at_bound in E. lia. }
      exists pre, own, post. unfold start. rewrite Hs. done.
    + intros loc i arguments dests js d Hin Hd.
      pose proof (layout_final_branch dfa Hwf _ Hbase Hsmall bc maxs st code loc i arguments dests js HI Hin) as HF.
      simpl in HF. rewrite Forall_forall in HF. specialize (HF d Hd). by destruct HF as (_ & ? & ?).
    + lia.
Qed.

(** C16: a well-formed DFA whose worst-case code stays below 1 GiB compiles
    without a failed release assertion; the output is the bytecode so far,
    followed by a header with the exact length and the linked code of all live
    nodes, in which every jump distance fits the field the compiler chose for
    it before it knew the distance, and no byte emitted before is changed. *)
Theorem compile_correct dfa bc :
  wf_dfa dfa = true -> vec_size bc + 2 * worst_case_size dfa + 16 < INT32_MAX ->
  exists start code, compile dfa bc = Some (bc ++ image_bytes (vec_size bc) start code)
    /\ image_of dfa (vec_size bc) start code.
Proof. exact (compile_image dfa bc). Qed.

Lemma compile_correct_witness :
  exists start code, compile sample_dfa [] = Some ([] ++ image_bytes 0 start code)
    /\ image_of sample_dfa 0 start code.
Proof. apply (compile_correct sample_dfa []); vm_compute; reflexivity. Defined.
