(* ===== verification/InterpreterProof.v ===== *)
(** * The interpreter runs the automaton

    The bytecode of a DFA, run by [DFABytecodeInterpreter::interpret], visits
    the nodes that the DFA visits on the URL and collects their actions.  The
    proof goes from single instructions over the code of one node to the run on
    a whole URL, with an explicit bound on the number of instructions. *)

From stdpp Require Import base numbers option list list_numbers gmap sets.
From Stdlib Require Import ZArith Lia.
From S2P Require Import Prelude.
From S2P Require Import DFABytecode.
From S2P Require Import DFA.
From S2P Require Import DFABytecodeInterpreter.
From S2P Require Import DFABytecodeCompiler.
From S2P Require Import CompilerTransitions.
From S2P Require Import CompilerLayout.
From S2P Require Import CompilerProof.

(** ** What a run should compute *)

(** The flags of an action word: an action applies to a load when, for each of
    the two groups of flags, it names none or one that the load has. *)
Definition action_applies (flags action : Z) : bool :=
  let wanted := Z.land (Z.shiftr action 32) 0xFFFF in
  ((Z.land wanted LoadTypeMask =? 0) || negb (Z.land (Z.land wanted LoadTypeMask) flags =? 0))
  && ((Z.land wanted ResourceTypeMask =? 0) || negb (Z.land (Z.land wanted ResourceTypeMask) flags =? 0)).

(** The condition on the top URL, outside and inside [interpretWithConditions]. *)
Definition condition_holds (top : option Actions) (action : Z) : bool :=
  match top with None => true | Some conditions => matchesCondition action conditions end.

Definition triggers (top : option Actions) (flags action : Z) : bool :=
  action_applies flags action && condition_holds top action.

(** The nodes visited from [n] on a string, with the end of the URL's
    transition to the fallback target left out as the compiler does. *)
Definition compiled_next (dfa : DFA) (n c : Z) : option Z :=
  node ← vec_at (dfa_nodes dfa) n;
  ts ← node_transitions dfa node;
  compiled_transition ts c.

Fixpoint visited (next : Z -> Z -> option Z) (n : Z) (input : list Z) : list Z :=
  n :: match input with
       | [] => []
       | c :: input => match next n c with Some m => visited next m input | None => [] end
       end.

Definition actions_of (dfa : DFA) (n : Z) : list Z :=
  match node_info dfa n with Some (actions, _) => actions | None => [] end.

(** Adding those of a list of actions that are triggered. *)
Definition collect (top : option Actions) (flags : Z) (actions : list Z) (acc : Actions) : Actions :=
  foldl (λ acc a, if triggers top flags a then {[ a ]} ∪ acc else acc) acc actions.

(** The nodes the end of the URL leads to have no fallback jump, which would
    look at the byte after the terminating NUL. *)
Definition nul_safe (dfa : DFA) : Prop :=
  forall n t node ts, compiled_next dfa n 0 = Some t ->
    vec_at (dfa_nodes dfa) t = Some node -> node_transitions dfa node = Some ts ->
    canUseFallbackTransition ts = false.

(** The same as a check that runs. *)
Definition nul_safe_check (dfa : DFA) : bool :=
  forallb (λ n, match compiled_next dfa n 0 with
                | Some t =>
                    match node ← vec_at (dfa_nodes dfa) t; node_transitions dfa node with
                    | Some ts => negb (canUseFallbackTransition ts)
                    | None => true
                    end
                | None => true
                end) (nodeIndices dfa).

Lemma nul_safe_check_sound dfa : nul_safe_check dfa = true -> nul_safe dfa.
Proof.
  unfold nul_safe_check. rewrite forallb_forall. intros H n t node ts Hn Ht Hts.
  assert (In n (nodeIndices dfa)) as Hin.
  { apply list_elem_of_In, elem_of_seqZ. unfold compiled_next in Hn.
    destruct (vec_at (dfa_nodes dfa) n) eqn:E; [|done]. apply vec_at_bound in E. lia. }
  specialize (H n Hin). rewrite Hn, Ht in H. cbn [mbind option_bind] in H. rewrite Hts in H.
  by apply negb_true_iff.
Qed.

(** ** Reading instructions back *)

Lemma get_at n B i v p q :
  B = p ++ le_bytes n v ++ q -> i = vec_size p -> getBits_unsigned n B i = Some (uwrap (8 * Z.of_nat n) v).
Proof. intros -> ->. apply getBits_unsigned_mid. Qed.

Lemma argument_at arguments k a :
  arguments !! k = Some a ->
  exists p q, argument_bytes arguments = p ++ le_bytes 1 a ++ q /\ vec_size p = Z.of_nat k.
Proof.
  revert k. induction arguments as [|b l IH]; intros k Hk; [done|].
  unfold argument_bytes. rewrite fmap_cons. cbn [concat]. fold (argument_bytes l).
  destruct k as [|k]; simpl in Hk.
  - simplify_eq. by exists [], (argument_bytes l).
  - destruct (IH k Hk) as (p & q & -> & Hp). exists (le_bytes 1 b ++ p), q.
    rewrite vec_size_app, Hp, <- app_assoc. split; [done|]. change (vec_size (le_bytes 1 b)) with 1. lia.
Qed.

Lemma field_at js (f : Z -> Z) dests k d :
  dests !! k = Some d ->
  exists p q, concat ((λ d, jump_field js (f d)) <$> dests) = p ++ jump_field js (f d) ++ q
    /\ vec_size p = jumpSizeInBytes js * Z.of_nat k.
Proof.
  revert k. induction dests as [|b l IH]; intros k Hk; [done|]. rewrite fmap_cons. cbn [concat].
  destruct k as [|k]; simpl in Hk.
  - simplify_eq. eexists [], _. split; [done|]. unfold vec_size. simpl. lia.
  - destruct (IH k Hk) as (p & q & -> & Hp). exists (jump_field js (f b) ++ p), q.
    rewrite vec_size_app, Hp, <- app_assoc, vec_size_jump_field. split; [done|]. lia.
Qed.

(** What the interpreter reads of a branch at [loc]. *)
Record branch_read (B : list Z) (start : Z -> Z) (loc : Z) (i : DFABytecodeInstruction)
    (arguments dests : list Z) (js : DFABytecodeJumpSize) : Prop := {
  br_instruction : exists code, getInstruction B loc = Some code /\ instruction_of_code code = Some i;
  br_jumpSize : getJumpSize B loc = Some js;
  br_argument : forall k a, arguments !! k = Some a ->
    getBits_unsigned 1 B (loc + 1 + Z.of_nat k) = Some (u8 a);
  br_distance : forall k d, dests !! k = Some d -> fits js (start d - loc) ->
    getJumpDistance B (loc + 1 + vec_size arguments + jumpSizeInBytes js * Z.of_nat k) js
      = Some (start d - loc)
}.

Lemma read_branch B start loc i arguments dests js p q :
  B = p ++ encode (λ d, start d - loc) (IBranch i arguments dests js) ++ q -> vec_size p = loc ->
  branch_read B start loc i arguments dests js.
Proof.
  intros HB Hp. cbn [encode] in HB. rewrite <- !app_assoc in HB.
  destruct (opcode_fields i js) as (Hi & Hjs & Hbyte). unfold is_byte in Hbyte.
  assert (getBits_unsigned 1 B loc = Some (opcode i js)) as Hop.
  { erewrite get_at; [|exact HB|done]. by rewrite uwrap_small by lia. }
  split.
  - unfold getInstruction. rewrite Hop. eexists. split; [done|exact Hi].
  - unfold getJumpSize. rewrite Hop. exact Hjs.
  - intros k a Hk. destruct (argument_at _ _ _ Hk) as (pa & qa & Ha & Hpa). rewrite Ha in HB.
    rewrite <- !app_assoc in HB. rewrite (app_assoc p), (app_assoc (p ++ _)) in HB.
    erewrite get_at; [|exact HB|]; [done|]. rewrite !vec_size_app, Hpa. change (vec_size (le_bytes 1 (opcode i js))) with 1. lia.
  - intros k d Hk Hfit. destruct (field_at js (λ d, start d - loc) _ _ _ Hk) as (pf & qf & Hf & Hpf).
    rewrite Hf in HB. rewrite <- !app_assoc in HB.
    rewrite (app_assoc p), (app_assoc (p ++ _)), (app_assoc ((p ++ _) ++ _)) in HB.
    rewrite HB. erewrite <- (getJumpDistance_jump_field js (start d - loc)) by done. f_equal.
    rewrite !vec_size_app, Hpf, vec_size_argument_bytes. change (vec_size (le_bytes 1 (opcode i js))) with 1. lia.
Qed.

(** ** Action words *)

Lemma action_flags a : Z.land a ActionFlagMask = Z.shiftl (u16 (Z.shiftr a 32)) 32.
Proof.
  apply Z.bits_inj'. intros i Hi. rewrite Z.land_spec, Z.shiftl_spec by lia. unfold uwrap.
  change ActionFlagMask with (Z.shiftl (Z.ones 16) 32). rewrite Z.shiftl_spec by lia.
  destruct (decide (i < 32)).
  { rewrite !(Z.testbit_neg_r _ (i - 32)) by lia. apply andb_false_r. }
  destruct (decide (i < 48)).
  - rewrite Z.mod_pow2_bits_low, Z.shiftr_spec, Z.ones_spec_low by lia.
    replace (i - 32 + 32) with i by lia. apply andb_true_r.
  - rewrite Z.mod_pow2_bits_high, Z.ones_spec_high by lia. apply andb_false_r.
Qed.

Lemma action_condition a : action_ok a = true ->
  Z.land a IfConditionFlag = if a <? 2 ^ 48 then 0 else IfConditionFlag.
Proof.
  unfold action_ok. intros H. zbool. change IfConditionFlag with (Z.shiftl 1 48).
  apply Z.bits_inj'. intros i Hi. rewrite Z.land_spec, Z.shiftl_spec by lia.
  assert (forall k, Z.testbit 1 k = (k =? 0)) as H1.
  { intros k. destruct (Z.eqb_spec k 0) as [->|Hk]; [done|]. destruct (decide (k < 0)); [by apply Z.testbit_neg_r|].
    apply Z.bits_above_log2; [lia|]. change (Z.log2 1) with 0. lia. }
  destruct (a <? 2 ^ 48) eqn:E; zbool; rewrite ?Z.shiftl_spec, ?Z.bits_0, H1 by lia.
  - destruct (i - 48 =? 0) eqn:Ei; [|apply andb_false_r]. zbool. replace i with 48 by lia.
    rewrite <- (Z.mod_small a (2 ^ 48)) by lia. by rewrite Z.mod_pow2_bits_high by lia.
  - destruct (i - 48 =? 0) eqn:Ei; [|apply andb_false_r]. zbool. replace i with 48 by lia.
    rewrite andb_true_r. rewrite Z.testbit_true by lia.
    replace (a / 2 ^ 48) with 1; [done|]. change (2 ^ 48) with 281474976710656 in *.
    change (2 ^ 49) with 562949953421312 in *. divlia.
Qed.

(** Condition, flags and identifier make up the word. *)
Lemma action_parts a : action_ok a = true ->
  Z.lor (Z.lor (if a <? 2 ^ 48 then 0 else IfConditionFlag) (Z.shiftl (u16 (Z.shiftr a 32)) 32)) (u32 a) = a.
Proof.
  intros Hok. rewrite <- action_flags, <- action_condition by done. unfold action_ok in Hok. zbool.
  rewrite <- Z.land_lor_distr_r. apply Z.bits_inj'. intros i Hi. rewrite Z.lor_spec, Z.land_spec.
  unfold uwrap. change (Z.lor IfConditionFlag ActionFlagMask) with (Z.shiftl (Z.ones 17) 32).
  rewrite Z.shiftl_spec by lia. destruct (decide (i < 32)).
  { rewrite (Z.testbit_neg_r (Z.ones 17)) by lia. rewrite Z.mod_pow2_bits_low by lia. by rewrite andb_false_r. }
  rewrite Z.mod_pow2_bits_high by lia. rewrite orb_false_r. destruct (decide (i < 49)).
  - rewrite Z.ones_spec_low by lia. apply andb_true_r.
  - rewrite Z.ones_spec_high, andb_false_r by lia. symmetry.
    rewrite <- (Z.mod_small a (2 ^ 49)) by lia. by apply Z.mod_pow2_bits_high; lia.
Qed.

Lemma wanted_flags a : Z.land (Z.shiftr a 32) 0xFFFF = u16 (Z.shiftr a 32).
Proof. change 0xFFFF with (Z.ones 16). apply Z.land_ones. lia. Qed.

Lemma shiftl_zero_iff x n : 0 <= n -> Z.shiftl x n = 0 <-> x = 0.
Proof. intros. rewrite Z.shiftl_eq_0_iff by lia. done. Qed.

(** One trigger, as the two instructions compute it. *)
Lemma addIfMatches_collect top flags a acc :
  action_applies flags a = true -> addIfMatches top a acc = collect top flags [a] acc.
Proof.
  intros Ha. unfold addIfMatches, collect, triggers, condition_holds. cbn [foldl]. rewrite Ha. by destruct top.
Qed.

Lemma collect_not_applies top flags a acc :
  action_applies flags a = false -> collect top flags [a] acc = acc.
Proof. intros Ha. unfold collect, triggers. cbn [foldl]. by rewrite Ha. Qed.

Lemma collect_app top flags l1 l2 acc :
  collect top flags (l1 ++ l2) acc = collect top flags l2 (collect top flags l1 acc).
Proof. unfold collect. by rewrite foldl_app. Qed.

Lemma elem_of_collect top flags l acc a :
  a ∈ collect top flags l acc <-> a ∈ acc \/ (a ∈ l /\ triggers top flags a = true).
Proof.
  unfold collect. generalize (triggers top flags). intros T. revert acc.
  induction l as [|b l IH]; intros acc; cbn [foldl]; [rewrite elem_of_nil; tauto|].
  rewrite IH, elem_of_cons. destruct (T b) eqn:E; rewrite ?elem_of_union, ?elem_of_singleton;
    intuition (subst; congruence || auto).
Qed.

(** Actions that are already there are not needed again. *)
Lemma collect_subset top flags l acc :
  (forall a, a ∈ l -> triggers top flags a = true -> a ∈ acc) -> collect top flags l acc = acc.
Proof. intros H. apply set_eq. intros a. rewrite elem_of_collect. split; [|by left]. intros [?|[??]]; auto. Qed.

(** ** One instruction *)

Section Image.

Context (dfa : DFA) (P Q : list Z) (start : Z -> Z) (code : list Instr).
Abbreviation base := (vec_size P).
Abbreviation B := (P ++ image_bytes (vec_size P) start code ++ Q).
Hypothesis Hwf : wf_dfa dfa = true.
Hypothesis Himage : image_of dfa base start code.
Hypothesis HB : vec_size B < INT32_MAX.

Context (top : option Actions) (url : list Z) (flags : Z).
Hypothesis Hurl : Forall (λ c, 1 <= c <= 127) url.
Hypothesis Hlen : vec_size url + 2 < 2 ^ 32.

(** The instructions [l] are at [loc]. *)
Definition code_at (loc : Z) (l : list Instr) : Prop :=
  exists pre post, code = pre ++ l ++ post /\ loc = base + 4 + listing_size pre.

Lemma image_size : vec_size B = base + 4 + listing_size code + vec_size Q.
Proof.
  unfold image_bytes. rewrite !vec_size_app, vec_size_linked. unfold vec_size at 2. rewrite length_le_bytes. lia.
Qed.

Lemma code_at_fetch loc i l : code_at loc (i :: l) ->
  exists p q, B = p ++ encode (λ d, start d - loc) i ++ q /\ vec_size p = loc.
Proof.
  intros (pre & post & Hc & Hl). unfold image_bytes.
  pose proof (f_equal (encode_linked start (base + 4)) Hc) as He. rewrite encode_linked_app in He.
  cbn [app encode_linked] in He. rewrite He.
  exists (P ++ le_bytes 4 (4 + listing_size code) ++ encode_linked start (base + 4) pre).
  eexists. rewrite !vec_size_app, vec_size_linked. split; [|unfold vec_size at 2; rewrite length_le_bytes; lia].
  rewrite <- Hl, <- !app_assoc. done.
Qed.

Lemma code_at_next loc i l : code_at loc (i :: l) -> code_at (loc + instr_size i) l.
Proof.
  intros (pre & post & -> & ->). exists (pre ++ [i]), post. rewrite <- app_assoc. split; [done|].
  rewrite listing_size_app. simpl. lia.
Qed.

Lemma code_at_app loc l1 l2 : code_at loc (l1 ++ l2) -> code_at (loc + listing_size l1) l2.
Proof.
  revert loc. induction l1 as [|i l1 IH]; intros loc H; simpl; [by rewrite Z.add_0_r|].
  rewrite Z.add_assoc. apply IH, code_at_next, H.
Qed.

Lemma code_at_bound loc l : code_at loc l -> 0 <= loc /\ loc + listing_size l < INT32_MAX.
Proof.
  intros (pre & post & Hc & ->). pose proof image_size as Hsz.
  apply (f_equal listing_size) in Hc. rewrite !listing_size_app in Hc. pose proof (listing_size_nonneg pre). pose proof (listing_size_nonneg post).
  pose proof (vec_size_nonneg P). pose proof (vec_size_nonneg Q). lia.
Qed.

Lemma code_at_located loc i l : code_at loc (i :: l) -> (loc, i) ∈ located (base + 4) code.
Proof.
  intros (pre & post & -> & ->). rewrite located_app. apply elem_of_app. right. left.
Qed.

Lemma code_at_branch loc i arguments dests js l : code_at loc (IBranch i arguments dests js :: l) ->
  branch_read B start loc i arguments dests js
  /\ forall d, d ∈ dests -> fits js (start d - loc) /\ is_live dfa d = true.
Proof.
  intros H. split.
  - destruct (code_at_fetch _ _ _ H) as (p & q & Hb & Hp). by eapply read_branch.
  - intros d Hd. eapply im_fits; [exact Himage| |exact Hd]. by eapply code_at_located.
Qed.

Lemma start_bound d : is_live dfa d = true -> 0 <= start d < INT32_MAX.
Proof.
  intros Hd. destruct (live_info dfa Hwf d Hd) as (? & actions & ? & tr & _ & _ & _ & _ & _ & _ & _ & _ & _ & Hinfo).
  destruct (im_node _ _ _ _ Himage _ _ _ Hinfo) as (pre & own & post & Hc & Hs & _).
  assert (code_at (start d) own) as Hat by (exists pre, post; done).
  apply code_at_bound in Hat. pose proof (listing_size_nonneg own). lia.
Qed.

Abbreviation step := (interpretStep B top url flags).

(** The state after taking an edge to [d], and after the instruction [i]. *)
Definition edge (st : InterpreterState) (d c : Z) : InterpreterState :=
  mkInterpreterState (start d) (urlIndex st + 1) (c =? 0) (st_actions st).
Definition skip (st : InterpreterState) (n : Z) : InterpreterState :=
  mkInterpreterState (programCounter st + n) (urlIndex st) (urlIndexIsAfterEndOfString st) (st_actions st).

(** A state that looks at the character [c] of the URL or its terminator. *)
Definition looks_at (st : InterpreterState) (c : Z) : Prop :=
  url_char url (urlIndex st) = Some c /\ 0 <= c <= 127 /\ urlIndexIsAfterEndOfString st = false
  /\ 0 <= urlIndex st <= vec_size url.

Lemma takeEdge_edge st loc d c c' :
  programCounter st = loc -> looks_at st c -> is_live dfa d = true -> (c' =? 0) = (c =? 0) ->
  takeEdge st (start d - loc) c' = edge st d c.
Proof.
  intros Hpc (_ & _ & Haf & Hi) Hd Hc. unfold takeEdge, edge. pose proof (start_bound d Hd). unfold INT32_MAX in *.
  rewrite Hpc, Hc, Haf. replace (loc + (start d - loc)) with (start d) by lia. rewrite !uwrap_small by lia.
  by destruct (c =? 0).
Qed.

Lemma advance_skip st n : 0 <= programCounter st -> 0 <= n -> programCounter st + n < INT32_MAX ->
  advance st n = skip st n.
Proof. intros. unfold advance, skip, INT32_MAX in *. by rewrite uwrap_small by lia. Qed.

Lemma fold_case_bound cs c : 0 <= c <= 127 -> 0 <= fold_case cs c <= 127 /\ (fold_case cs c =? 0) = (c =? 0).
Proof.
  intros Hc. unfold fold_case. destruct cs; [lia|]. rewrite toASCIILower_spec.
  destruct (isASCIIUpper c) eqn:E; [|lia]. apply isASCIIUpper_spec in E.
  destruct (Z.eqb_spec (c + 32) 0), (Z.eqb_spec c 0); lia.
Qed.

Lemma readCharacter_eq cs st c : looks_at st c -> readCharacter url cs st = Some (fold_case cs c).
Proof. intros (Hc & _). unfold readCharacter. rewrite Hc. by destruct cs. Qed.

Lemma step_table st c t js l W :
  table_wf W t -> looks_at st c ->
  code_at (programCounter st)
    (IBranch (if jt_caseSensitive t then JumpTableCaseSensitive else JumpTableCaseInsensitive)
       [jt_min t; jt_max t] (jt_destinations t) js :: l) ->
  step st = Some (Continue
    (if table_matches t c then match table_target t c with Some d => edge st d c | None => st end
     else skip st (3 + jumpSizeInBytes js * vec_size (jt_destinations t)))).
Proof.
  intros (Hmin & Hle & Hmax & Hn & _) Hst Hat. destruct (code_at_branch _ _ _ _ _ _ Hat) as [Hr Hf].
  apply code_at_bound in Hat as Hbd. cbn [listing_size foldr] in Hbd. fold (listing_size l) in Hbd.
  pose proof (listing_size_nonneg l). cbn [instr_size] in Hbd. change (vec_size [jt_min t; jt_max t]) with 2 in Hbd.
  pose proof (readCharacter_eq (jt_caseSensitive t) st c Hst) as Hrc.
  destruct Hst as (Hc & Hcb & Haf & Hidx) eqn:HE; clear HE.
  destruct (fold_case_bound (jt_caseSensitive t) c Hcb) as [Hfb Hf0].
  destruct (br_instruction _ _ _ _ _ _ _ Hr) as (cd & Hcd & Hci).
  pose proof (jumpSizeInBytes_bound js) as Hjs. pose proof (vec_size_nonneg (jt_destinations t)).
  assert (interpetJumpTable B url (jt_caseSensitive t) st = Some
    (if table_matches t c then match table_target t c with Some d => edge st d c | None => st end
     else skip st (3 + jumpSizeInBytes js * vec_size (jt_destinations t)))) as Htab.
  { unfold interpetJumpTable. rewrite (br_jumpSize _ _ _ _ _ _ _ Hr). cbn [mbind option_bind].
    rewrite Hrc. cbn [mbind option_bind].
    pose proof (br_argument _ _ _ _ _ _ _ Hr 0%nat (jt_min t) eq_refl) as Ha0.
    pose proof (br_argument _ _ _ _ _ _ _ Hr 1%nat (jt_max t) eq_refl) as Ha1.
    rewrite uwrap_small in Ha0 by lia. rewrite uwrap_small in Ha1 by lia. rewrite Z.add_0_r in Ha0.
    unfold sizeof_instruction. rewrite Ha0. cbn [mbind option_bind]. change (Z.of_nat 1) with 1 in Ha1. rewrite Ha1.
    cbn [mbind option_bind]. unfold table_matches.
    destruct ((jt_min t <=? fold_case (jt_caseSensitive t) c) && _) eqn:Em.
    - zbool. unfold table_target.
      destruct (jt_destinations t !! Z.to_nat (fold_case (jt_caseSensitive t) c - jt_min t)) as [d|] eqn:Ed.
      2:{ apply lookup_ge_None in Ed. unfold vec_size in Hn. lia. }
      destruct (Hf d) as [Hfit Hlive]; [by eapply list_elem_of_lookup_2|].
      pose proof (br_distance _ _ _ _ _ _ _ Hr _ d Ed Hfit) as Hd.
      change (vec_size [jt_min t; jt_max t]) with 2 in Hd. rewrite Z2Nat.id in Hd by lia.
      match goal with |- context [getJumpDistance _ ?a _] => match type of Hd with getJumpDistance _ ?b _ = _ =>
        replace a with b by lia end end.
      rewrite Hd. cbn [mbind option_bind]. f_equal. by eapply takeEdge_edge.
    - f_equal. rewrite advance_skip; [f_equal; lia|lia|nia|]. rewrite Hn in *. lia. }
  unfold interpretStep. rewrite Hcd. cbn [mbind option_bind]. rewrite Hci. cbn [mbind option_bind].
  unfold unlessAfterEnd. rewrite Haf. destruct (jt_caseSensitive t); by rewrite Htab.
Qed.

Lemma step_range st c r i l W :
  range_wf W r -> looks_at st c -> erase i = range_instr r -> code_at (programCounter st) (i :: l) ->
  step st = Some (Continue
    (if range_matches r c then edge st (r_destination r) c else skip st (instr_size i))).
Proof.
  intros (Hmin & Hle & Hmax & _) Hst Hi Hat. apply code_at_bound in Hat as Hbd.
  change (listing_size (i :: l)) with (instr_size i + listing_size l) in Hbd.
  pose proof (listing_size_nonneg l). pose proof (instr_size_pos i).
  pose proof (readCharacter_eq (r_caseSensitive r) st c Hst) as Hrc.
  pose proof (fold_case_bound (r_caseSensitive r) c (proj1 (proj2 Hst))) as [Hfb Hf0].
  pose proof (proj1 (proj2 (proj2 Hst))) as Haf.
  unfold range_instr in Hi. destruct (r_min r =? r_max r) eqn:Esingle; zbool;
    destruct i as [|i arguments dests js|]; try done; simpl in Hi; simplify_eq;
    destruct (code_at_branch _ _ _ _ _ _ Hat) as [Hr Hf];
    destruct (Hf (r_destination r) ltac:(left)) as [Hfit Hlive];
    destruct (br_instruction _ _ _ _ _ _ _ Hr) as (cd & Hcd & Hci);
    pose proof (br_jumpSize _ _ _ _ _ _ _ Hr) as Hjs;
    pose proof (br_distance _ _ _ _ _ _ _ Hr 0%nat _ eq_refl Hfit) as Hd;
    pose proof (br_argument _ _ _ _ _ _ _ Hr 0%nat _ eq_refl) as Ha0;
    rewrite uwrap_small in Ha0 by lia; rewrite Z.add_0_r in Ha0;
    change (Z.of_nat 0) with 0 in Hd; rewrite Z.mul_0_r, Z.add_0_r in Hd.
  - assert (interpretCheckValue B url (r_caseSensitive r) st = Some
      (if range_matches r c then edge st (r_destination r) c else skip st (2 + jumpSizeInBytes js))) as Hck.
    { unfold interpretCheckValue, sizeof_instruction. rewrite Hrc, Hjs, Ha0. cbn [mbind option_bind].
      unfold range_matches. rewrite <- Esingle.
      replace ((r_min r <=? _) && _) with (fold_case (r_caseSensitive r) c =? r_min r)
        by (destruct (Z.eqb_spec (fold_case (r_caseSensitive r) c) (r_min r)),
            (Z.leb_spec (r_min r) (fold_case (r_caseSensitive r) c)),
            (Z.leb_spec (fold_case (r_caseSensitive r) c) (r_min r)); try done; lia).
      destruct (_ =? r_min r).
      - change (vec_size [r_min r]) with 1 in Hd. rewrite Hd. cbn [mbind option_bind]. f_equal. by eapply takeEdge_edge.
      - f_equal. cbn [instr_size] in *. change (vec_size [r_min r]) with 1 in *.
        change (vec_size [r_destination r]) with 1 in *. rewrite advance_skip; [f_equal; lia|lia..]. }
    cbn [instr_size]. change (vec_size [r_min r]) with 1. change (vec_size [r_destination r]) with 1.
    replace (1 + 1 + jumpSizeInBytes js * 1) with (2 + jumpSizeInBytes js) by lia.
    unfold interpretStep. rewrite Hcd. cbn [mbind option_bind]. rewrite Hci. cbn [mbind option_bind].
    unfold unlessAfterEnd. rewrite Haf. destruct (r_caseSensitive r); by rewrite Hck.
  - pose proof (br_argument _ _ _ _ _ _ _ Hr 1%nat _ eq_refl) as Ha1. rewrite uwrap_small in Ha1 by lia.
    change (Z.of_nat 1) with 1 in Ha1.
    assert (interpretCheckValueRange B url (r_caseSensitive r) st = Some
      (if range_matches r c then edge st (r_destination r) c else skip st (3 + jumpSizeInBytes js))) as Hck.
    { unfold interpretCheckValueRange, sizeof_instruction. rewrite Hrc, Hjs, Ha0. cbn [mbind option_bind].
      rewrite Ha1. cbn [mbind option_bind]. unfold range_matches.
      destruct ((r_min r <=? _) && _).
      - change (vec_size [r_min r; r_max r]) with 2 in Hd. rewrite Hd. cbn [mbind option_bind]. f_equal.
        by eapply takeEdge_edge.
      - f_equal. cbn [instr_size] in *. change (vec_size [r_min r; r_max r]) with 2 in *.
        change (vec_size [r_destination r]) with 1 in *. rewrite advance_skip; [f_equal; lia|lia..]. }
    cbn [instr_size]. change (vec_size [r_min r; r_max r]) with 2. change (vec_size [r_destination r]) with 1.
    replace (1 + 2 + jumpSizeInBytes js * 1) with (3 + jumpSizeInBytes js) by lia.
    unfold interpretStep. rewrite Hcd. cbn [mbind option_bind]. rewrite Hci. cbn [mbind option_bind].
    unfold unlessAfterEnd. rewrite Haf. destruct (r_caseSensitive r); by rewrite Hck.
Qed.

Lemma step_jump st c d js l :
  looks_at st c -> code_at (programCounter st) (IBranch Jump [] [d] js :: l) ->
  step st = Some (if c =? 0 then NextDFA (st_actions st) else Continue (edge st d c)).
Proof.
  intros Hst Hat. destruct (code_at_branch _ _ _ _ _ _ Hat) as [Hr Hf].
  destruct (Hf d ltac:(left)) as [Hfit Hlive].
  destruct (br_instruction _ _ _ _ _ _ _ Hr) as (cd & Hcd & Hci).
  pose proof (br_distance _ _ _ _ _ _ _ Hr 0%nat _ eq_refl Hfit) as Hd.
  change (Z.of_nat 0) with 0 in Hd. change (vec_size (@nil Z)) with 0 in Hd. rewrite Z.mul_0_r, !Z.add_0_r in Hd.
  unfold interpretStep. rewrite Hcd. cbn [mbind option_bind]. rewrite Hci. cbn [mbind option_bind].
  unfold interpretJump. destruct Hst as (-> & Hcb & Haf & Hidx). cbn [mbind option_bind].
  rewrite Haf, orb_false_r. destruct (c =? 0) eqn:E; [done|].
  rewrite (br_jumpSize _ _ _ _ _ _ _ Hr). cbn [mbind option_bind]. unfold sizeof_instruction.
  rewrite Hd. cbn [mbind option_bind]. unfold edge. rewrite E. do 2 f_equal.
  pose proof (start_bound d Hlive). unfold INT32_MAX in *.
  replace (programCounter st + (start d - programCounter st)) with (start d) by lia.
  by rewrite !uwrap_small by lia.
Qed.

Lemma step_terminate st l :
  code_at (programCounter st) (ITerminate :: l) -> step st = Some (NextDFA (st_actions st)).
Proof.
  intros Hat. destruct (code_at_fetch _ _ _ Hat) as (p & q & Hb & Hp). cbn [encode] in Hb.
  unfold interpretStep, getInstruction. erewrite get_at; [|exact Hb|done]. done.
Qed.

(** A check or terminator reached after the end of the URL ends the DFA. *)
Lemma step_after_end st i arguments dests js l :
  urlIndexIsAfterEndOfString st = true ->
  code_at (programCounter st) (IBranch i arguments dests js :: l) ->
  (exists t, erase (IBranch i arguments dests js) = table_instr t) \/
  (exists r, erase (IBranch i arguments dests js) = range_instr r) ->
  step st = Some (NextDFA (st_actions st)).
Proof.
  intros Haf Hat Hi. destruct (code_at_branch _ _ _ _ _ _ Hat) as [Hr Hf].
  destruct (br_instruction _ _ _ _ _ _ _ Hr) as (cd & Hcd & Hci).
  unfold interpretStep. rewrite Hcd. cbn [mbind option_bind]. rewrite Hci. cbn [mbind option_bind].
  unfold unlessAfterEnd. rewrite Haf. destruct Hi as [[t Ht]|[r Ht]].
  - unfold table_instr in Ht. simpl in Ht. simplify_eq. by destruct (jt_caseSensitive t).
  - unfold range_instr in Ht. simpl in Ht. destruct (r_min r =? r_max r); simplify_eq;
      by destruct (r_caseSensitive r).
Qed.

Definition is_flagged (a : Z) : bool := negb (Z.land a ActionFlagMask =? 0).
Definition is_conditional (a : Z) : bool := negb (Z.land a IfConditionFlag =? 0).

(** The instruction that stands for an action. *)
Definition action_instruction (a : Z) : DFABytecodeInstruction :=
  match is_flagged a, is_conditional a with
  | true, true => TestFlagsAndAppendActionWithIfCondition
  | true, false => TestFlagsAndAppendAction
  | false, true => AppendActionWithIfCondition
  | false, false => AppendAction
  end.

Lemma action_bytes_eq a : action_bytes a =
  le_bytes 1 (instruction_code (action_instruction a)) ++
  (if is_flagged a then le_bytes 2 (u16 (Z.shiftr a 32)) else []) ++ le_bytes 4 (u32 a).
Proof.
  unfold action_bytes, emitAppendAction, action_instruction, append. fold (is_flagged a). fold (is_conditional a).
  destruct (is_flagged a), (is_conditional a); done.
Qed.

Lemma action_cond_bits a : action_ok a = true ->
  (if is_conditional a then IfConditionFlag else 0) = if a <? 2 ^ 48 then 0 else IfConditionFlag.
Proof. intros Ha. unfold is_conditional. rewrite action_condition by done. by destruct (a <? 2 ^ 48). Qed.

Lemma unflagged a : is_flagged a = false -> u16 (Z.shiftr a 32) = 0.
Proof.
  unfold is_flagged. rewrite action_flags. intros H. zbool. by apply shiftl_zero_iff in H.
Qed.

Lemma action_at_instruction loc a l : code_at loc (IAppend a :: l) ->
  exists cd, getInstruction B loc = Some cd /\ instruction_of_code cd = Some (action_instruction a).
Proof.
  intros Hat. destruct (code_at_fetch _ _ _ Hat) as (p & q & Hb & Hp). cbn [encode] in Hb.
  rewrite action_bytes_eq, <- !app_assoc in Hb. unfold getInstruction.
  erewrite get_at; [|exact Hb|done]. eexists. split; [done|]. by destruct (action_instruction a).
Qed.

Lemma unflagged_applies a : is_flagged a = false -> action_applies flags a = true.
Proof.
  intros H. unfold action_applies. rewrite wanted_flags, (unflagged a H). done.
Qed.

Lemma append_action loc a l acc :
  action_ok a = true -> is_flagged a = false -> code_at loc (IAppend a :: l) ->
  interpretAppendAction B top loc acc (is_conditional a) =
  Some (loc + instr_size (IAppend a), collect top flags [a] acc).
Proof.
  intros Hok Hfl Hat. apply code_at_bound in Hat as Hbd.
  change (listing_size (IAppend a :: l)) with (instr_size (IAppend a) + listing_size l) in Hbd.
  pose proof (listing_size_nonneg l). unfold INT32_MAX in Hbd.
  cbn [instr_size] in *. unfold appendActionBytecodeSize in *. fold (is_flagged a) in *. rewrite Hfl in *.
  destruct (code_at_fetch _ _ _ Hat) as (p & q & Hb & Hp). cbn [encode] in Hb.
  rewrite action_bytes_eq, Hfl, <- !app_assoc in Hb. unfold interpretAppendAction, sizeof_instruction in *.
  rewrite (app_assoc p) in Hb. erewrite get_at; [|exact Hb|].
  2:{ rewrite vec_size_app, Hp. done. }
  cbn [mbind option_bind instructionSizeWithArguments].
  change (8 * Z.of_nat 4) with 32. rewrite uwrap_uwrap by lia.
  replace (Z.lor (if is_conditional a then IfConditionFlag else 0) (u32 a)) with a.
  2:{ pose proof (action_parts a Hok) as Hp'. rewrite unflagged in Hp' by done.
      rewrite action_cond_bits by done. rewrite Z.shiftl_0_l, Z.lor_0_r in Hp'. done. }
  rewrite uwrap_small by lia. by rewrite (addIfMatches_collect _ flags) by by apply unflagged_applies.
Qed.

Lemma test_flags_action loc a l acc :
  action_ok a = true -> is_flagged a = true -> code_at loc (IAppend a :: l) ->
  interpretTestFlagsAndAppendAction B top loc flags acc (is_conditional a) =
  Some (loc + instr_size (IAppend a), collect top flags [a] acc).
Proof.
  intros Hok Hfl Hat. apply code_at_bound in Hat as Hbd.
  change (listing_size (IAppend a :: l)) with (instr_size (IAppend a) + listing_size l) in Hbd.
  pose proof (listing_size_nonneg l). unfold INT32_MAX in Hbd.
  cbn [instr_size] in *. unfold appendActionBytecodeSize in *. fold (is_flagged a) in *. rewrite Hfl in *.
  destruct (code_at_fetch _ _ _ Hat) as (p & q & Hb & Hp). cbn [encode] in Hb.
  rewrite action_bytes_eq, Hfl, <- !app_assoc in Hb.
  unfold interpretTestFlagsAndAppendAction, sizeof_instruction in *.
  rewrite (app_assoc p) in Hb. erewrite (get_at 2); [|exact Hb|].
  2:{ rewrite vec_size_app, Hp. done. }
  cbn [mbind option_bind instructionSizeWithArguments]. change (8 * Z.of_nat 2) with 16. rewrite uwrap_uwrap by lia.
  rewrite (app_assoc (p ++ _)) in Hb. erewrite (get_at 4); [|exact Hb|].
  2:{ rewrite !vec_size_app, Hp, !vec_size_le_bytes. lia. }
  cbn [mbind option_bind]. change (8 * Z.of_nat 4) with 32. rewrite uwrap_uwrap by lia.
  rewrite action_cond_bits, action_parts, (uwrap_small 32 (loc + _)) by (done || lia).
  set (f := u16 (Z.shiftr a 32)).
  assert (action_applies flags a =
    (if negb (Z.land f LoadTypeMask =? 0) then negb (Z.land (Z.land f LoadTypeMask) flags =? 0) else true)
    && (if negb (Z.land f ResourceTypeMask =? 0) then negb (Z.land (Z.land f ResourceTypeMask) flags =? 0) else true))
    as Happ.
  { unfold action_applies. rewrite wanted_flags. fold f.
    by destruct (Z.land f LoadTypeMask =? 0), (Z.land f ResourceTypeMask =? 0). }
  rewrite <- Happ. destruct (action_applies flags a) eqn:E.
  - by rewrite (addIfMatches_collect _ flags) by done.
  - by rewrite collect_not_applies by done.
Qed.

Lemma step_action st a l :
  action_ok a = true -> code_at (programCounter st) (IAppend a :: l) ->
  step st = Some (Continue (mkInterpreterState (programCounter st + instr_size (IAppend a)) (urlIndex st)
    (urlIndexIsAfterEndOfString st) (collect top flags [a] (st_actions st)))).
Proof.
  intros Hok Hat. destruct (action_at_instruction _ _ _ Hat) as (cd & Hcd & Hci).
  unfold interpretStep. rewrite Hcd. cbn [mbind option_bind]. rewrite Hci. cbn [mbind option_bind].
  unfold action_instruction. destruct (is_flagged a) eqn:Ef.
  - pose proof (test_flags_action _ a l (st_actions st) Hok Ef Hat) as Hs.
    destruct (is_conditional a); by rewrite Hs.
  - pose proof (append_action _ a l (st_actions st) Hok Ef Hat) as Hs.
    destruct (is_conditional a); by rewrite Hs.
Qed.

(** ** The code of a node *)

Abbreviation run := (interpretDFA B top url flags).

(** [k] instructions lead from one state to another, or to the end of the DFA. *)
Definition runs (k : nat) (st st' : InterpreterState) : Prop := forall fuel, run (k + fuel)%nat st = run fuel st'.
Definition stops (k : nat) (st : InterpreterState) (actions : Actions) : Prop :=
  forall fuel, run (k + fuel)%nat st = Finished actions.

Lemma runs_refl st : runs 0 st st.
Proof. by intros fuel. Qed.

Lemma runs_step st st' : step st = Some (Continue st') -> runs 1 st st'.
Proof. intros H fuel. cbn [Nat.add interpretDFA]. by rewrite H. Qed.

Lemma runs_trans j k st st' st'' : runs j st st' -> runs k st' st'' -> runs (j + k) st st''.
Proof. intros H1 H2 fuel. rewrite <- Nat.add_assoc. by rewrite H1. Qed.

Lemma stops_step st actions : step st = Some (NextDFA actions) -> stops 1 st actions.
Proof. intros H fuel. cbn [Nat.add interpretDFA]. by rewrite H. Qed.

Lemma runs_stops j k st st' actions : runs j st st' -> stops k st' actions -> stops (j + k) st actions.
Proof. intros H1 H2 fuel. rewrite <- Nat.add_assoc. by rewrite H1. Qed.

Lemma looks_at_skip st c n : looks_at st c -> looks_at (skip st n) c.
Proof. done. Qed.

Lemma skip_skip st m n : skip (skip st m) n = skip st (m + n).
Proof. unfold skip. simpl. f_equal. lia. Qed.

Lemma walk_actions actions own rest st :
  Forall (λ a, action_ok a = true) actions -> own = actions_program actions ->
  code_at (programCounter st) (own ++ rest) ->
  runs (length own) st (mkInterpreterState (programCounter st + listing_size own) (urlIndex st)
    (urlIndexIsAfterEndOfString st) (collect top flags actions (st_actions st))).
Proof.
  intros Hok ->. revert st. induction Hok as [|a actions Ha _ IH]; intros st Hat.
  - simpl. unfold collect. simpl. rewrite Z.add_0_r. destruct st. apply runs_refl.
  - cbn [actions_program fmap list_fmap length] in *.
    eapply (runs_trans 1); [by apply runs_step, (step_action st a _ Ha Hat)|].
    eapply eq_rect; [apply IH|]; cbn [programCounter urlIndex urlIndexIsAfterEndOfString st_actions].
    + apply code_at_next in Hat. exact Hat.
    + f_equal.
      change (listing_size (IAppend a :: (IAppend <$> actions)))
        with (instr_size (IAppend a) + listing_size (IAppend <$> actions)).
      unfold actions_program. lia.
Qed.

Lemma walk_tables W tables own rest st c :
  Forall (table_wf W) tables -> erase <$> own = table_instr <$> tables -> looks_at st c ->
  code_at (programCounter st) (own ++ rest) ->
  exists k, (k <= length own)%nat /\ runs k st
    (match find_table tables c with Some d => edge st d c | None => skip st (listing_size own) end).
Proof.
  intros Hok. revert own st. induction Hok as [|t tables Ht _ IH]; intros own st Her Hst Hat.
  { destruct own; [|done]. exists 0%nat. split; [done|]. simpl. unfold skip. rewrite Z.add_0_r.
    destruct st. apply runs_refl. }
  destruct own as [|i own]; [done|]. rewrite !fmap_cons in Her. injection Her as Hi Her.
  destruct i as [|i arguments dests js|]; try done. cbn [erase] in Hi. unfold table_instr in Hi. simplify_eq.
  pose proof (step_table st c t js _ W Ht Hst Hat) as Hs. cbn [find_table].
  destruct (table_matches t c) eqn:Em.
  - destruct (table_target_is_Some W t c Ht Em) as [d Hd]. rewrite Hd in *.
    exists 1%nat. split; [simpl; lia|]. by apply runs_step.
  - destruct (IH own (skip st (3 + jumpSizeInBytes js * vec_size (jt_destinations t))) Her) as (k & Hk & Hr).
    { done. }
    { apply code_at_next in Hat. exact Hat. }
    exists (S k). split; [simpl; lia|]. eapply (runs_trans 1); [by apply runs_step|].
    destruct (find_table tables c); [exact Hr|]. rewrite skip_skip in Hr. exact Hr.
Qed.

Lemma walk_ranges W rs own rest st c :
  Forall (range_wf W) rs -> erase <$> own = range_instr <$> rs -> looks_at st c ->
  code_at (programCounter st) (own ++ rest) ->
  exists k, (k <= length own)%nat /\ runs k st
    (match find_range rs c with Some d => edge st d c | None => skip st (listing_size own) end).
Proof.
  intros Hok. revert own st. induction Hok as [|r rs Hr _ IH]; intros own st Her Hst Hat.
  { destruct own; [|done]. exists 0%nat. split; [done|]. simpl. unfold skip. rewrite Z.add_0_r.
    destruct st. apply runs_refl. }
  destruct own as [|i own]; [done|]. rewrite !fmap_cons in Her. injection Her as Hi Her.
  pose proof (step_range st c r i _ W Hr Hst Hi Hat) as Hs. cbn [find_range].
  destruct (range_matches r c) eqn:Em.
  - exists 1%nat. split; [simpl; lia|]. by apply runs_step.
  - destruct (IH own (skip st (instr_size i)) Her) as (k & Hk & Hrun).
    { done. }
    { apply code_at_next in Hat. exact Hat. }
    exists (S k). split; [simpl; lia|]. eapply (runs_trans 1); [by apply runs_step|].
    destruct (find_range rs c); [exact Hrun|]. rewrite skip_skip in Hrun. exact Hrun.
Qed.

Lemma length_listing l : (length l <= Z.to_nat (listing_size l))%nat.
Proof.
  induction l as [|i l IH]; [simpl; lia|]. change (listing_size (i :: l)) with (instr_size i + listing_size l).
  pose proof (instr_size_pos i). pose proof (listing_size_nonneg l). simpl length. lia.
Qed.

Lemma walk_transitions ts tr own rest st c :
  transitions_spec ts tr -> erase <$> own = transitions_program tr -> looks_at st c ->
  code_at (programCounter st) (own ++ rest) ->
  exists k, (k <= length own)%nat /\
    match lookup_transitions tr c with
    | Some d => runs k st (edge st d c)
    | None => stops k st (st_actions st)
    end.
Proof.
  intros Hs Her Hst Hat. unfold transitions_program in Her.
  apply fmap_app_inv in Her as (own1 & own' & H1 & Her & ->).
  symmetry in Her. apply fmap_app_inv in Her as (own2 & own3 & H2 & H3 & ->).
  rewrite <- !app_assoc in Hat. symmetry in H1, H2, H3.
  destruct (walk_tables _ _ own1 _ st c (ts_tables _ _ Hs) H1 Hst Hat) as (k1 & Hk1 & Hr1).
  unfold lookup_transitions. destruct (find_table (jumpTables tr) c) as [d|].
  { exists k1. rewrite !length_app. split; [lia|done]. }
  apply code_at_app in Hat.
  destruct (walk_ranges _ _ own2 _ (skip st (listing_size own1)) c (ts_ranges _ _ Hs) H2 Hst Hat) as (k2 & Hk2 & Hr2).
  pose proof (runs_trans _ _ _ _ _ Hr1 Hr2) as Hr. destruct (find_range (ranges tr) c) as [d|].
  { exists (k1 + k2)%nat. rewrite !length_app. split; [lia|exact Hr]. }
  apply code_at_app in Hat. rewrite skip_skip in Hr.
  destruct own3 as [|i [|]]; try done. rewrite fmap_cons in H3. injection H3 as Hi.
  exists (k1 + k2 + 1)%nat. rewrite !length_app. split; [simpl; lia|].
  set (st' := skip st (listing_size own1 + listing_size own2)) in *.
  assert (programCounter st + listing_size own1 + listing_size own2 = programCounter st') as Hpc
    by (unfold st'; simpl; lia).
  cbn [skip programCounter] in Hat. rewrite Hpc in Hat. unfold last_instr in Hi.
  destruct (useFallbackTransition tr); simpl.
  - destruct i as [|i arguments dests js|]; try done. cbn [erase] in Hi. simplify_eq.
    pose proof (step_jump st' c _ _ _ Hst Hat) as Hj. destruct (c =? 0) eqn:Ec; simpl.
    + eapply runs_stops; [exact Hr|]. by apply stops_step.
    + eapply runs_trans; [exact Hr|]. by apply runs_step.
  - destruct i; try done. eapply runs_stops; [exact Hr|]. by eapply stops_step, (step_terminate st').
Qed.

Lemma stop_after_end ts tr own rest st :
  transitions_spec ts tr -> canUseFallbackTransition ts = false -> erase <$> own = transitions_program tr ->
  urlIndexIsAfterEndOfString st = true -> code_at (programCounter st) (own ++ rest) ->
  stops 1 st (st_actions st).
Proof.
  intros Hs Hf Her Haf Hat. apply stops_step. unfold transitions_program in Her.
  rewrite <- (ts_fallback _ _ Hs) in Hf. unfold last_instr in Her. rewrite Hf in Her.
  destruct own as [|i own]; [by destruct (jumpTables tr), (ranges tr)|].
  assert ((exists t, erase i = table_instr t) \/ (exists r, erase i = range_instr r) \/ i = ITerminate) as Hi.
  { rewrite fmap_cons in Her. destruct (jumpTables tr) as [|t tables]; [|injection Her as ? _; eauto].
    destruct (ranges tr) as [|r rs]; injection Her as ? _; [|eauto]. destruct i; try done. eauto. }
  assert (forall r, exists i' args d, range_instr r = IBranch i' args d Int8) as Hri.
  { intros r. unfold range_instr. destruct (r_min r =? r_max r); eauto. }
  destruct Hi as [[t Hi]|[[r Hi]| ->]]; [| |by eapply step_terminate].
  - destruct i; try done. eapply step_after_end; eauto.
  - destruct (Hri r) as (? & ? & ? & E). destruct i; try (rewrite E in Hi; done).
    eapply step_after_end; eauto.
Qed.

(** ** The run on a URL *)

(** Entering a node other than the root collects its actions. *)
Definition enter (n : Z) (acc : Actions) : Actions :=
  if n =? dfa_root dfa then acc else collect top flags (actions_of dfa n) acc.

Lemma compiled_next_eq n c ts tr node :
  vec_at (dfa_nodes dfa) n = Some node -> node_transitions dfa node = Some ts -> transitions_spec ts tr ->
  0 <= c <= 127 -> lookup_transitions tr c = compiled_next dfa n c.
Proof.
  intros Hn Hts Hs Hc. unfold compiled_next. rewrite Hn. cbn [mbind option_bind]. rewrite Hts.
  cbn [mbind option_bind]. by apply (ts_lookup _ _ Hs).
Qed.

Lemma compiled_next_live n c d : is_live dfa n = true -> compiled_next dfa n c = Some d -> is_live dfa d = true.
Proof.
  intros Hn. destruct (live_info dfa Hwf n Hn) as (node & actions & ts & tr & Hnode & _ & _ & Hts & _ & _ & _ & _ & Hl & _).
  unfold compiled_next. rewrite Hnode. cbn [mbind option_bind]. rewrite Hts. cbn [mbind option_bind].
  unfold compiled_transition. destruct (find_transition ts c) as [t|] eqn:E; [|done].
  destruct (_ && _ && _); [done|]. intros [= <-]. apply Hl.
  apply find_transition_elem in E as (r & Hin & _). apply list_elem_of_fmap. by exists (r, t).
Qed.

Lemma erase_actions_inv own actions : erase <$> own = actions_program actions -> own = actions_program actions.
Proof.
  unfold actions_program. revert own. induction actions as [|a l IH]; intros [|i own]; try done.
  rewrite !fmap_cons. intros [= Hi H1]. rewrite (IH own H1). destruct i; simpl in Hi; congruence.
Qed.

(** Running the actions of the node a state is at. *)
Lemma enter_node n st :
  is_live dfa n = true -> programCounter st = start n ->
  exists node ts tr own1 own2 post,
    vec_at (dfa_nodes dfa) n = Some node /\ node_transitions dfa node = Some ts /\ transitions_spec ts tr
    /\ erase <$> own2 = transitions_program tr
    /\ code_at (start n + listing_size own1) (own2 ++ post)
    /\ (length own1 + length own2 <= length code)%nat
    /\ runs (length own1) st (mkInterpreterState (start n + listing_size own1) (urlIndex st)
         (urlIndexIsAfterEndOfString st) (enter n (st_actions st))).
Proof.
  intros Hn Hpc. destruct (live_info dfa Hwf n Hn)
    as (node & actions & ts & tr & Hnode & _ & _ & Hts & _ & Hs & _ & Hact & Hl & Hinfo).
  destruct (im_node _ _ _ _ Himage _ _ _ Hinfo) as (pre & own & post & Hc & Hstart & Her).
  unfold node_program in Her. apply fmap_app_inv in Her as (own1 & own2 & H1 & H2 & ->).
  assert (code_at (start n) ((own1 ++ own2) ++ post)) as Hat.
  { exists pre, []. rewrite app_nil_r. by rewrite Hc. }
  rewrite <- app_assoc in Hat.
  assert (own1 = (if n =? dfa_root dfa then [] else actions_program actions)) as Ho.
  { symmetry in H1. destruct (n =? dfa_root dfa); [by destruct own1|by apply erase_actions_inv]. }
  exists node, ts, tr, own1, own2, post. split_and!; try done.
  - by apply code_at_app in Hat.
  - rewrite Hc, !length_app. lia.
  - rewrite <- Hpc in *. unfold enter, actions_of. rewrite Hinfo. destruct (n =? dfa_root dfa).
    + subst own1. simpl. rewrite Z.add_0_r. destruct st. apply runs_refl.
    + by eapply walk_actions.
Qed.

Lemma run_url (Hnul : nul_safe dfa) input n st pre :
  is_live dfa n = true -> programCounter st = start n ->
  url ++ [0] = pre ++ input -> urlIndex st = vec_size pre ->
  urlIndexIsAfterEndOfString st = bool_decide (input = []) ->
  (input = [] -> exists m, compiled_next dfa m 0 = Some n) ->
  exists k, (k <= length code * S (length input) + S (length input))%nat /\
    stops k st (foldl (λ acc n, enter n acc) (st_actions st) (visited (compiled_next dfa) n input)).
Proof.
  revert n st pre. induction input as [|c input IH]; intros n st pre Hn Hpc Hsplit Hidx Haf Hend;
    destruct (enter_node n st Hn Hpc) as (node & ts & tr & own1 & own2 & post & Hnode & Hts & Hs & Her & Hat & Hle & Hr).
  - destruct (Hend eq_refl) as [m Hm].
    exists (length own1 + 1)%nat. split; [simpl; lia|]. cbn [visited foldl].
    eapply runs_stops; [exact Hr|]. eapply (stop_after_end ts tr own2 post); try done.
    by eapply Hnul.
  - assert (0 <= c <= 127) as Hc.
    { assert (c ∈ url ++ [0]) as Hin by (rewrite Hsplit, elem_of_app; right; left).
      rewrite elem_of_app, list_elem_of_singleton in Hin. destruct Hin as [Hin| ->]; [|lia].
      rewrite Forall_forall in Hurl. specialize (Hurl c Hin). lia. }
    assert (looks_at (mkInterpreterState (start n + listing_size own1) (urlIndex st)
      (urlIndexIsAfterEndOfString st) (enter n (st_actions st))) c) as Hst.
    { split_and!; cbn [urlIndex urlIndexIsAfterEndOfString]; try lia.
      - unfold url_char. rewrite Hsplit, Hidx. unfold vec_size. rewrite vec_at_nat. by rewrite list_lookup_middle.
      - by rewrite Haf, bool_decide_false.
      - apply (f_equal vec_size) in Hsplit. rewrite !vec_size_app in Hsplit. unfold vec_size in *. simpl in *. lia.
      - apply (f_equal vec_size) in Hsplit. rewrite !vec_size_app in Hsplit. unfold vec_size in *. simpl in *. lia. }
    destruct (walk_transitions ts tr own2 post _ c Hs Her Hst Hat) as (k & Hk & Hw).
    rewrite (compiled_next_eq n c ts tr node Hnode Hts Hs Hc) in Hw. cbn [visited foldl].
    destruct (compiled_next dfa n c) as [d|] eqn:Ed.
    + destruct (IH d (edge (mkInterpreterState (start n + listing_size own1) (urlIndex st)
        (urlIndexIsAfterEndOfString st) (enter n (st_actions st))) d c) (pre ++ [c])) as (k' & Hk' & Hstop).
      * by eapply compiled_next_live.
      * done.
      * by rewrite <- app_assoc.
      * simpl. rewrite vec_size_app. change (vec_size [c]) with 1. lia.
      * simpl. assert (input = [] <-> c = 0) as Hiff.
        2:{ destruct (Z.eqb_spec c 0); [by rewrite bool_decide_true by tauto|by rewrite bool_decide_false by tauto]. }
        split.
        -- intros ->. by apply app_inj_tail in Hsplit as [_ ?].
        -- intros ->. destruct input as [|c' input]; [done|]. exfalso.
           destruct (exists_last (l := c' :: input)) as (init & last & Hl); [done|]. rewrite Hl in Hsplit.
           change (0 :: init ++ [last]) with ((0 :: init) ++ [last]) in Hsplit. rewrite app_assoc in Hsplit.
           apply app_inj_tail in Hsplit as [Hu _]. rewrite Forall_forall in Hurl.
           specialize (Hurl 0). rewrite Hu, elem_of_app in Hurl. specialize (Hurl ltac:(right; left)). lia.
      * intros ->. exists n. apply app_inj_tail in Hsplit as [_ <-]. done.
      * exists (length own1 + (k + k'))%nat. split; [cbn [length] in *; nia|].
        eapply runs_stops; [exact Hr|]. eapply runs_stops; [exact Hw|]. exact Hstop.
    + exists (length own1 + k)%nat. split; [cbn [length]; nia|]. by eapply runs_stops.
Qed.

(** The actions a DFA adds on the URL. *)
Definition dfa_result (rootActions : list Z) (acc : Actions) : Actions :=
  foldl (λ acc n, enter n acc) (collect top flags rootActions acc)
    (visited (compiled_next dfa) (dfa_root dfa) (url ++ [0])).

Lemma root_live : is_live dfa (dfa_root dfa) = true.
Proof. apply wf_parts, Hwf. Qed.

Lemma root_actions_ok : Forall (λ a, action_ok a = true) (root_actions dfa).
Proof.
  destruct (live_info dfa Hwf _ root_live) as (? & actions & ? & ? & _ & _ & _ & _ & _ & _ & _ & Ha & _ & Hinfo).
  unfold root_actions. by rewrite Hinfo.
Qed.

Lemma run_from_root (Hnul : nul_safe dfa) acc fuel :
  (length code * (length url + 2) + (length url + 2) <= fuel)%nat ->
  run fuel (mkInterpreterState (start (dfa_root dfa)) 0 false acc) =
  Finished (foldl (λ acc n, enter n acc) acc (visited (compiled_next dfa) (dfa_root dfa) (url ++ [0]))).
Proof.
  intros Hf.
  destruct (run_url Hnul (url ++ [0]) (dfa_root dfa)
    (mkInterpreterState (start (dfa_root dfa)) 0 false acc) []) as (k & Hk & Hstop).
  - apply root_live.
  - done.
  - done.
  - done.
  - rewrite bool_decide_false; [done|]. by destruct url.
  - by destruct url.
  - rewrite length_app in Hk. simpl length in Hk.
    replace fuel with (k + (fuel - k))%nat by (replace (S (length url + 1)) with (length url + 2)%nat in Hk by lia; lia).
    apply Hstop.
Qed.

Lemma header_at i : i = base -> getBits_unsigned 4 B i = Some (4 + listing_size code).
Proof.
  intros ->.
  pose proof image_size as Hsz. pose proof (listing_size_nonneg code). pose proof (vec_size_nonneg P).
  pose proof (vec_size_nonneg Q). unfold INT32_MAX in *.
  unfold image_bytes at 1. rewrite <- app_assoc. erewrite get_at; [|done|done].
  change (8 * Z.of_nat 4) with 32. by rewrite uwrap_small by lia.
Qed.

Lemma root_code_at : exists post, code_at (base + 4) (actions_program (root_actions dfa) ++ post).
Proof.
  destruct (im_root _ _ _ _ Himage) as [post Hpost]. exists post, [], []. rewrite app_nil_r.
  split; [done|simpl; lia].
Qed.

Lemma root_actions_length : (length (root_actions dfa) <= length code)%nat.
Proof.
  destruct (im_root _ _ _ _ Himage) as [post Hpost]. rewrite Hpost, length_app.
  unfold actions_program. rewrite length_fmap. lia.
Qed.

(** A DFA other than the first is run from its first instruction. *)
Lemma run_dfa (Hnul : nul_safe dfa) acc fuel :
  (length code * (length url + 3) + (length url + 3) <= fuel)%nat ->
  run fuel (mkInterpreterState (base + 4) 0 false acc) = Finished (dfa_result (root_actions dfa) acc).
Proof.
  intros Hf. destruct root_code_at as [post Hat]. pose proof root_actions_length.
  pose proof (walk_actions (root_actions dfa) _ post (mkInterpreterState (base + 4) 0 false acc)
    root_actions_ok eq_refl Hat) as Hw. cbn [programCounter urlIndex urlIndexIsAfterEndOfString st_actions] in Hw.
  rewrite actions_program_size, <- (im_root_start _ _ _ _ Himage) in Hw.
  unfold actions_program in Hw. rewrite length_fmap in Hw.
  replace fuel with (length (root_actions dfa) + (fuel - length (root_actions dfa)))%nat by lia.
  rewrite Hw, run_from_root; [done|done|lia].
Qed.

(** *** The first DFA *)

Definition is_append (i : DFABytecodeInstruction) : bool :=
  match i with
  | AppendAction | AppendActionWithIfCondition
  | TestFlagsAndAppendAction | TestFlagsAndAppendActionWithIfCondition => true
  | _ => false
  end.

(** What follows the actions of the root is not an action. *)
Lemma root_head :
  exists cd i, getInstruction B (start (dfa_root dfa)) = Some cd /\ instruction_of_code cd = Some i
    /\ is_append i = false /\ start (dfa_root dfa) < base + 4 + listing_size code.
Proof.
  destruct (live_info dfa Hwf _ root_live) as (? & actions & ts & tr & _ & _ & _ & _ & _ & Hs & _ & _ & _ & Hinfo).
  destruct (im_node _ _ _ _ Himage _ _ _ Hinfo) as (pre & own & post & Hc & Hstart & Her).
  unfold node_program in Her. rewrite Z.eqb_refl in Her. simpl in Her.
  destruct own as [|i own]; [unfold transitions_program in Her; by destruct (jumpTables tr), (ranges tr)|].
  assert (code_at (start (dfa_root dfa)) (i :: own)) as Hat by (exists pre, post; done).
  assert (start (dfa_root dfa) < base + 4 + listing_size code) as Hlt.
  { rewrite Hc, Hstart, !listing_size_app.
    change (listing_size (i :: own)) with (instr_size i + listing_size own).
    pose proof (instr_size_pos i). pose proof (listing_size_nonneg own). pose proof (listing_size_nonneg post). lia. }
  assert (erase i ∈ transitions_program tr) as Hin by (rewrite <- Her; left).
  destruct i as [a|instr arguments dests js|].
  - exfalso. cbn [erase] in Hin. unfold transitions_program, last_instr in Hin.
    rewrite !elem_of_app, !list_elem_of_fmap, list_elem_of_singleton in Hin.
    destruct Hin as [(t & Ht & _)|[(r & Hr & _)|Hl]]; [done| |by destruct (useFallbackTransition tr)].
    unfold range_instr in Hr. by destruct (r_min r =? r_max r).
  - destruct (code_at_branch _ _ _ _ _ _ Hat) as [Hr _].
    destruct (br_instruction _ _ _ _ _ _ _ Hr) as (cd & Hcd & Hci). exists cd, instr. split_and!; try done.
    cbn [erase] in Hin. unfold transitions_program, last_instr in Hin.
    rewrite !elem_of_app, !list_elem_of_fmap, list_elem_of_singleton in Hin.
    destruct Hin as [(t & Ht & _)|[(r & Hrr & _)|Hl]].
    + unfold table_instr in Ht. simplify_eq. by destruct (jt_caseSensitive t).
    + unfold range_instr in Hrr. destruct (r_min r =? r_max r); simplify_eq; by destruct (r_caseSensitive r).
    + by destruct (useFallbackTransition tr); simplify_eq.
  - destruct (code_at_fetch _ _ _ Hat) as (p & q & Hb & Hp). cbn [encode] in Hb. unfold getInstruction.
    erewrite get_at; [|exact Hb|done]. eexists _, Terminate. split_and!; done.
Qed.

(** The code of the first DFA starts at offset 0. *)
Hypothesis Hfirst : base = 0.
Abbreviation dfaLength := (4 + listing_size code).

Lemma action_before_end loc a l : code_at loc (IAppend a :: l) -> (loc <? dfaLength) = true.
Proof.
  intros (pre & post & Hc & Hl). apply Z.ltb_lt. rewrite Hc, Hl, Hfirst, !listing_size_app.
  change (listing_size (IAppend a :: l)) with (instr_size (IAppend a) + listing_size l).
  pose proof (instr_size_pos (IAppend a)). pose proof (listing_size_nonneg l). pose proof (listing_size_nonneg post). lia.
Qed.

Lemma action_size a : instructionSizeWithArguments (action_instruction a) = Some (instr_size (IAppend a)).
Proof.
  unfold action_instruction. cbn [instr_size]. unfold appendActionBytecodeSize. fold (is_flagged a).
  by destruct (is_flagged a), (is_conditional a).
Qed.

Lemma collect_filter (flagged : bool) a actions acc :
  collect top flags (filter (λ a, is_flagged a = flagged) (a :: actions)) acc =
  collect top flags (filter (λ a, is_flagged a = flagged) actions)
    (if Bool.eqb (is_flagged a) flagged then collect top flags [a] acc else acc).
Proof.
  rewrite filter_cons. destruct (is_flagged a), flagged; cbn [Bool.eqb]; case_decide; try done;
    by rewrite <- (collect_app top flags [a]).
Qed.

Lemma skip_actions actions rest loc acc fuel :
  Forall (λ a, action_ok a = true) actions -> code_at loc (actions_program actions ++ rest) ->
  skipRootActions B top flags (length actions + fuel) dfaLength loc acc =
  skipRootActions B top flags fuel dfaLength (loc + listing_size (actions_program actions))
    (collect top flags (filter (λ a, is_flagged a = true) actions) acc).
Proof.
  intros Hok. revert loc acc. induction Hok as [|a actions Ha _ IH]; intros loc acc Hat.
  { simpl. by rewrite Z.add_0_r. }
  cbn [actions_program fmap list_fmap app] in Hat. pose proof (action_before_end _ _ _ Hat) as Hlt.
  destruct (action_at_instruction _ _ _ Hat) as (cd & Hcd & Hci).
  apply code_at_bound in Hat as Hbd. change (listing_size (IAppend a :: ?l)) with (instr_size (IAppend a) + listing_size l) in Hbd.
  cbn [length Nat.add skipRootActions]. rewrite Hlt, Hcd, Hci, collect_filter.
  assert (u32 (loc + instr_size (IAppend a)) = loc + instr_size (IAppend a)) as Hu.
  { cbn [listing_size foldr] in Hbd. fold listing_size in Hbd.
    pose proof (listing_size_nonneg ((IAppend <$> actions) ++ rest)). pose proof (instr_size_pos (IAppend a)).
    unfold INT32_MAX in *. apply uwrap_small. unfold listing_size in *. lia. }
  assert (loc + listing_size (actions_program (a :: actions)) =
    loc + instr_size (IAppend a) + listing_size (actions_program actions)) as -> by (simpl; unfold actions_program; lia).
  apply code_at_next in Hat as Hnext. specialize (IH _ (if Bool.eqb (is_flagged a) true
    then collect top flags [a] acc else acc) Hnext). rewrite <- IH.
  pose proof (action_size a) as Hsz. unfold action_instruction in *. destruct (is_flagged a) eqn:Ef.
  - pose proof (test_flags_action loc a _ acc Ha Ef Hat) as Hs. destruct (is_conditional a); by rewrite Hs.
  - destruct (is_conditional a); by rewrite Hsz, Hu.
Qed.

Lemma skip_root acc fuel :
  (length (root_actions dfa) < fuel)%nat ->
  skipRootActions B top flags fuel dfaLength 4 acc =
  Finished (start (dfa_root dfa), collect top flags (filter (λ a, is_flagged a = true) (root_actions dfa)) acc).
Proof.
  intros Hf. destruct root_code_at as [post Hat]. rewrite Hfirst in Hat.
  replace fuel with (length (root_actions dfa) + S (fuel - S (length (root_actions dfa))))%nat by lia.
  rewrite (skip_actions _ post _ _ _ root_actions_ok Hat), actions_program_size.
  replace (0 + 4 + actions_size (root_actions dfa)) with (start (dfa_root dfa))
    by (rewrite (im_root_start _ _ _ _ Himage), Hfirst; lia).
  destruct root_head as (cd & i & Hcd & Hci & Hi & Hlt). rewrite Hfirst in Hlt.
  cbn [skipRootActions]. rewrite (proj2 (Z.ltb_lt _ _)) by lia. rewrite Hcd, Hci. by destruct i.
Qed.

Lemma match_actions actions rest loc acc fuel :
  Forall (λ a, action_ok a = true) actions -> code_at loc (actions_program actions ++ rest) ->
  actionsMatchingEverything_loop B top (length actions + fuel) dfaLength loc acc =
  actionsMatchingEverything_loop B top fuel dfaLength (loc + listing_size (actions_program actions))
    (collect top flags (filter (λ a, is_flagged a = false) actions) acc).
Proof.
  intros Hok. revert loc acc. induction Hok as [|a actions Ha _ IH]; intros loc acc Hat.
  { simpl. by rewrite Z.add_0_r. }
  cbn [actions_program fmap list_fmap app] in Hat. pose proof (action_before_end _ _ _ Hat) as Hlt.
  destruct (action_at_instruction _ _ _ Hat) as (cd & Hcd & Hci).
  apply code_at_bound in Hat as Hbd.
  cbn [length Nat.add actionsMatchingEverything_loop]. rewrite Hlt, Hcd, Hci, collect_filter.
  assert (u32 (loc + instr_size (IAppend a)) = loc + instr_size (IAppend a)) as Hu.
  { cbn [listing_size foldr] in Hbd. fold listing_size in Hbd.
    pose proof (listing_size_nonneg ((IAppend <$> actions) ++ rest)). pose proof (instr_size_pos (IAppend a)).
    unfold INT32_MAX in *. apply uwrap_small. unfold listing_size in *. lia. }
  assert (loc + listing_size (actions_program (a :: actions)) =
    loc + instr_size (IAppend a) + listing_size (actions_program actions)) as -> by (simpl; unfold actions_program; lia).
  apply code_at_next in Hat as Hnext. specialize (IH _ (if Bool.eqb (is_flagged a) false
    then collect top flags [a] acc else acc) Hnext). rewrite <- IH.
  pose proof (action_size a) as Hsz. unfold action_instruction in *. destruct (is_flagged a) eqn:Ef.
  - destruct (is_conditional a); by rewrite Hsz, Hu.
  - pose proof (append_action loc a _ acc Ha Ef Hat) as Hs. destruct (is_conditional a); by rewrite Hs.
Qed.

Lemma matching_everything fuel :
  (length (root_actions dfa) < fuel)%nat ->
  actionsMatchingEverything B top fuel =
  Finished (collect top flags (filter (λ a, is_flagged a = false) (root_actions dfa)) ∅).
Proof.
  intros Hf. unfold actionsMatchingEverything. rewrite (header_at 0) by (by rewrite Hfirst).
  destruct root_code_at as [post Hat]. rewrite Hfirst in Hat.
  replace fuel with (length (root_actions dfa) + S (fuel - S (length (root_actions dfa))))%nat by lia.
  rewrite (match_actions _ post _ _ _ root_actions_ok Hat), actions_program_size.
  replace (0 + 4 + actions_size (root_actions dfa)) with (start (dfa_root dfa))
    by (rewrite (im_root_start _ _ _ _ Himage), Hfirst; lia).
  destruct root_head as (cd & i & Hcd & Hci & Hi & Hlt). rewrite Hfirst in Hlt.
  cbn [actionsMatchingEverything_loop]. rewrite (proj2 (Z.ltb_lt _ _)) by lia. rewrite Hcd, Hci. by destruct i.
Qed.
End Image.
