(* ===== verification/BytecodeCorrect.v ===== *)
(** * A rule list's bytecode triggers the actions of its automata

    The compiler and the interpreter together: the DFAs of a rule list are
    compiled one after the other, and [interpret] on the result computes the
    actions of the nodes that the DFAs visit on the URL. *)

From stdpp Require Import base numbers option list list_numbers gmap sets.
From Stdlib Require Import ZArith Lia.
From S2P Require Import Prelude.
From S2P Require Import DFABytecode.
From S2P Require Import DFA.
From S2P Require Import DFABytecodeInterpreter.
From S2P Require Import DFABytecodeCompiler.
From S2P Require Import CompilerTransitions.
From S2P Require Import CompilerLayout.
From S2P Require Import CompilerProof.
From S2P Require Import InterpreterProof.

(** ** Several DFAs in one buffer *)

(** The bytes are the images of the DFAs, placed from [base] on. *)
Inductive images : Z -> list DFA -> list Z -> Prop :=
  | images_nil base : images base [] []
  | images_cons base dfa dfas start code rest :
      image_of dfa base start code ->
      images (base + (4 + listing_size code)) dfas rest ->
      images base (dfa :: dfas) (image_bytes base start code ++ rest).

Lemma vec_size_image base start code : vec_size (image_bytes base start code) = 4 + listing_size code.
Proof. unfold image_bytes. by rewrite vec_size_app, vec_size_linked, vec_size_le_bytes. Qed.

(** The room a rule list may need; twice the worst case, as for one DFA. *)
Definition total_worst_case (dfas : list DFA) : Z := sum (λ dfa, 2 * worst_case_size dfa) dfas.

Lemma worst_case_nonneg dfa : wf_dfa dfa = true -> 0 <= worst_case_size dfa.
Proof.
  intros Hwf. unfold worst_case_size, sizeof_DFAHeader.
  assert (0 <= sum (node_max dfa) (nodeIndices dfa)); [|lia].
  apply sum_nonneg. intros n _. by apply node_max_nonneg.
Qed.

Lemma total_worst_case_nonneg dfas : Forall (λ dfa, wf_dfa dfa = true) dfas -> 0 <= total_worst_case dfas.
Proof.
  intros H. apply sum_nonneg. intros dfa Hd. rewrite Forall_forall in H.
  pose proof (worst_case_nonneg dfa (H dfa Hd)). lia.
Qed.

(** Code is relative: an image can be moved. *)
Lemma located_move loc base code l i :
  (l, i) ∈ located (loc + base) code -> (l - base, i) ∈ located loc code.
Proof.
  revert loc. induction code as [|j code IH]; intros loc; simpl; [by intros ?%elem_of_nil|].
  intros [H|H]%elem_of_cons; apply elem_of_cons.
  - left. simplify_eq. f_equal. lia.
  - right. apply IH. by replace (loc + instr_size j + base) with (loc + base + instr_size j) by lia.
Qed.

Lemma encode_ext f g i : (forall d, f d = g d) -> encode f i = encode g i.
Proof.
  intros H. destruct i; cbn [encode]; try done. do 3 f_equal. apply list_fmap_ext. intros ? d _. by rewrite H.
Qed.

Lemma encode_linked_move start base loc code :
  encode_linked (λ d, start d + base) (loc + base) code = encode_linked start loc code.
Proof.
  revert loc. induction code as [|i code IH]; intros loc; [done|]. cbn [encode_linked].
  replace (loc + base + instr_size i) with (loc + instr_size i + base) by lia. rewrite IH.
  f_equal. apply encode_ext. intros d. lia.
Qed.

Lemma image_move dfa base start code :
  image_of dfa 0 start code ->
  image_of dfa base (λ d, start d + base) code
  /\ image_bytes base (λ d, start d + base) code = image_bytes 0 start code.
Proof.
  intros Him. split.
  - split.
    + apply Him.
    + rewrite (im_root_start _ _ _ _ Him). lia.
    + intros n actions tr Hinfo. destruct (im_node _ _ _ _ Him n actions tr Hinfo) as (pre & own & post & ? & Hs & ?).
      exists pre, own, post. split_and!; [done|lia|done].
    + intros loc i arguments dests js d Hin Hd. replace (base + 4) with (0 + 4 + base) in Hin by lia.
      apply located_move in Hin. destruct (im_fits _ _ _ _ Him _ _ _ _ _ _ Hin Hd) as [Hf Hl].
      split; [|done]. by replace (start d + base - loc) with (start d - (loc - base)) by lia.
    + apply Him.
  - unfold image_bytes. f_equal. replace (base + 4) with (0 + 4 + base) by lia. apply encode_linked_move.
Qed.

Lemma compileAll_images dfas base :
  Forall (λ dfa, wf_dfa dfa = true) dfas -> total_worst_case dfas + 16 < INT32_MAX ->
  exists bc, compileAll dfas = Some bc /\ images base dfas bc /\ vec_size bc <= total_worst_case dfas.
Proof.
  intros Hwf. unfold compileAll. revert base. induction Hwf as [|dfa dfas Hd Hds IH]; intros base Hsz.
  { exists []. split_and!; [done|constructor|done]. }
  change (total_worst_case (dfa :: dfas)) with (2 * worst_case_size dfa + total_worst_case dfas) in *.
  pose proof (total_worst_case_nonneg dfas Hds). pose proof (worst_case_nonneg dfa Hd).
  destruct (compile_image dfa [] Hd) as (start & code & Hc & Him).
  { change (vec_size (@nil Z)) with 0. lia. }
  change (vec_size (@nil Z)) with 0 in *. destruct (image_move dfa base start code Him) as [Him' Hmove].
  pose proof (im_size _ _ _ _ Him) as Hs.
  destruct (IH (base + (4 + listing_size code)) ltac:(lia)) as (rest & Hr & Hrest & Hle).
  exists (image_bytes 0 start code ++ rest). cbn [mapM]. rewrite Hc. cbn [mbind option_bind].
  destruct (mapM (λ dfa, compile dfa []) dfas) as [bcs|]; [|done]. simpl in Hr. injection Hr as <-.
  rewrite vec_size_app, vec_size_image. split_and!; [done| |lia].
  rewrite <- Hmove. by constructor.
Qed.

(** ** The interpreter on several DFAs *)

Section Run.

Context (top : option Actions) (url : list Z) (flags : Z).
Hypothesis Hurl : Forall (λ c, 1 <= c <= 127) url.
Hypothesis Hlen : vec_size url + 2 < 2 ^ 32.

Definition dfa_fuel (size : nat) : nat := (S size * (length url + 3))%nat.

Lemma code_fuel base start code size fuel :
  vec_size (image_bytes base start code) <= Z.of_nat size -> (dfa_fuel size <= fuel)%nat ->
  (length code * (length url + 3) + (length url + 3) <= fuel)%nat.
Proof.
  rewrite vec_size_image. unfold dfa_fuel. intros H1 H2. pose proof (length_listing code).
  pose proof (listing_size_nonneg code). nia.
Qed.

Lemma interpretDFAs_images P dfas rest acc fuel :
  images (vec_size P) dfas rest -> Forall (λ dfa, wf_dfa dfa = true /\ nul_safe dfa) dfas ->
  0 < vec_size P -> vec_size (P ++ rest) < INT32_MAX ->
  (length dfas + dfa_fuel (length (P ++ rest)) < fuel)%nat ->
  interpretDFAs (P ++ rest) top url flags fuel (vec_size P) acc =
  Finished (foldl (λ acc dfa, dfa_result dfa top url flags (root_actions dfa) acc) acc dfas).
Proof.
  intros Him Hok. revert P rest acc fuel Him.
  induction Hok as [|dfa dfas [Hwf Hnul] _ IH]; intros P rest acc fuel Him HP Hsz Hf;
    inversion Him as [|? ? ? start code rest' Hhead Htail]; subst; (destruct fuel as [|fuel]; [lia|]);
    cbn [interpretDFAs].
  { rewrite app_nil_r. by rewrite (proj2 (Z.ltb_ge _ _)) by lia. }
  rewrite vec_size_app in Hsz. rewrite vec_size_app, vec_size_image in Hsz. pose proof (vec_size_nonneg rest').
  pose proof (listing_size_nonneg code).
  rewrite (proj2 (Z.ltb_lt _ _)) by (rewrite !vec_size_app, vec_size_image; lia).
  rewrite (header_at P rest' start code) by (rewrite ?vec_size_app, ?vec_size_image; done || lia).
  rewrite (proj2 (Z.eqb_neq _ _)) by lia.
  unfold INT32_MAX in *. rewrite (uwrap_small 32 (vec_size P + 4)) by lia.
  rewrite (run_dfa dfa P rest' start code); try done.
  - rewrite uwrap_small by lia. cbn [foldl].
    specialize (IH (P ++ image_bytes (vec_size P) start code) rest'
      (dfa_result dfa top url flags (root_actions dfa) acc) fuel).
    rewrite <- app_assoc, vec_size_app, vec_size_image in IH. rewrite IH; try done; try lia.
    + rewrite vec_size_app, vec_size_app, vec_size_image. lia.
    + cbn [length] in Hf. lia.
  - rewrite !vec_size_app, vec_size_image. unfold INT32_MAX. lia.
  - eapply (code_fuel (vec_size P) start code); [|exact (Nat.le_trans _ _ _ (Nat.le_add_l _ _) (Nat.lt_le_incl _ _ Hf))].
    unfold vec_size at 1. rewrite !length_app. lia.
Qed.

(** What [interpret] returns: the first DFA without the actions of its root that
    do not depend on the load, which [actionsMatchingEverything] returns. *)
Definition rule_list_actions (dfas : list DFA) : Actions :=
  match dfas with
  | [] => ∅
  | dfa :: dfas =>
      foldl (λ acc dfa, dfa_result dfa top url flags (root_actions dfa) acc)
        (dfa_result dfa top url flags (filter (λ a, is_flagged a = true) (root_actions dfa)) ∅) dfas
  end.

Lemma interpret_images dfas bc fuel :
  images 0 dfas bc -> Forall (λ dfa, wf_dfa dfa = true /\ nul_safe dfa) dfas -> vec_size bc < INT32_MAX ->
  (length dfas + dfa_fuel (length bc) < fuel)%nat ->
  interpret bc top url flags fuel = Finished (rule_list_actions dfas).
Proof.
  intros Him Hok Hsz Hf. unfold interpret. destruct dfas as [|dfa dfas].
  { inversion Him; subst. destruct fuel; [lia|done]. }
  inversion Him as [|? ? ? start code rest Hhead Htail]; subst. apply Forall_cons in Hok as [[Hwf Hnul] Hok].
  change (image_bytes 0 start code ++ rest) with ([] ++ image_bytes (vec_size (@nil Z)) start code ++ rest) in *.
  set (B := [] ++ image_bytes (vec_size (@nil Z)) start code ++ rest) in *.
  assert (vec_size B = 4 + listing_size code + vec_size rest) as HsB.
  { unfold B. rewrite app_nil_l, vec_size_app, vec_size_image. done. }
  destruct fuel as [|fuel]; [lia|]. cbn [interpretDFAs].
  pose proof (listing_size_nonneg code). pose proof (vec_size_nonneg rest).
  pose proof (root_actions_length dfa [] start code Hhead) as Hral.
  assert (length code * (length url + 3) + (length url + 3) <= fuel)%nat as Hfuel.
  { eapply (code_fuel 0 start code (length B)); [|lia]. rewrite vec_size_image. unfold vec_size in HsB at 1. lia. }
  rewrite (proj2 (Z.ltb_lt _ _)) by lia.
  rewrite (header_at [] rest start code) by done. rewrite Z.eqb_refl.
  change (u32 (0 + 4)) with 4.
  rewrite (skip_root dfa [] rest start code) by (done || nia).
  pose proof (root_head dfa [] rest start code Hwf Hhead Hsz) as (cd & i & _ & _ & _ & Hlt).
  change (vec_size (@nil Z)) with 0 in Hlt.
  rewrite (proj2 (Z.leb_gt _ _)) by lia.
  rewrite (run_from_root dfa [] rest start code); try done; [|nia].
  unfold INT32_MAX in *. rewrite uwrap_small by lia.
  pose proof (interpretDFAs_images (image_bytes 0 start code) dfas rest
    (dfa_result dfa top url flags (filter (λ a, is_flagged a = true) (root_actions dfa)) ∅) fuel) as Hrest.
  rewrite vec_size_image in Hrest. cbn [rule_list_actions].
  apply Hrest; try done; try lia. cbn [length] in Hf. unfold B in Hf. rewrite app_nil_l in Hf.
  change (vec_size (@nil Z)) with 0 in Hf. lia.
Qed.

End Run.

(** ** The theorems *)

(** The action [a] is triggered by the visit of a node; the interpreter leaves
    out the actions of the first root that do not depend on the load. *)
Definition triggered_by (next : DFA -> Z -> Z -> option Z) (dfas : list DFA) (top : option Actions)
    (url : list Z) (flags a : Z) : Prop :=
  triggers top flags a = true /\ exists i dfa n, dfas !! i = Some dfa
    /\ n ∈ visited (next dfa) (dfa_root dfa) (url ++ [0]) /\ a ∈ actions_of dfa n
    /\ (i = 0%nat -> n = dfa_root dfa -> is_flagged a = true).

Lemma elem_of_enter dfa top flags n acc a :
  a ∈ enter dfa top flags n acc <->
  a ∈ acc \/ (n <> dfa_root dfa /\ a ∈ actions_of dfa n /\ triggers top flags a = true).
Proof.
  unfold enter. destruct (n =? dfa_root dfa) eqn:E; zbool; [tauto|]. rewrite elem_of_collect. tauto.
Qed.

Lemma elem_of_enter_all dfa top flags nodes acc a :
  a ∈ foldl (λ acc n, enter dfa top flags n acc) acc nodes <->
  a ∈ acc \/ exists n, n ∈ nodes /\ n <> dfa_root dfa /\ a ∈ actions_of dfa n /\ triggers top flags a = true.
Proof.
  revert acc. induction nodes as [|n nodes IH]; intros acc; cbn [foldl].
  - split; [by left|]. intros [?|(n & Hn & _)]; [done|by apply elem_of_nil in Hn].
  - rewrite IH, elem_of_enter. setoid_rewrite elem_of_cons. split.
    + intros [[?|?]|(m & ? & ?)]; [by left|right; exists n; tauto|right; exists m; tauto].
    + intros [?|(m & [->|?] & ?)]; [tauto|tauto|right; exists m; tauto].
Qed.

Lemma elem_of_dfa_result dfa top url flags rootActions acc a :
  a ∈ dfa_result dfa top url flags rootActions acc <->
  a ∈ acc \/ (triggers top flags a = true /\
    (a ∈ rootActions \/ exists n, n ∈ visited (compiled_next dfa) (dfa_root dfa) (url ++ [0])
       /\ n <> dfa_root dfa /\ a ∈ actions_of dfa n)).
Proof.
  unfold dfa_result. rewrite elem_of_enter_all, elem_of_collect. split.
  - intros [[?|?]|(n & ? & ? & ? & ?)]; [tauto|tauto|]. right. split; [done|]. right. eauto.
  - intros [?|[? [?|(n & ? & ? & ?)]]]; [tauto|tauto|]. right. exists n. tauto.
Qed.

(** Entering the root counts as visiting it. *)
Lemma root_or_other dfa (Q : Z -> Prop) input next a :
  (a ∈ root_actions dfa /\ Q (dfa_root dfa) \/
   exists n, n ∈ visited next (dfa_root dfa) input /\ n <> dfa_root dfa /\ a ∈ actions_of dfa n) <->
  exists n, n ∈ visited next (dfa_root dfa) input /\ a ∈ actions_of dfa n /\ (n = dfa_root dfa -> Q n).
Proof.
  assert (actions_of dfa (dfa_root dfa) = root_actions dfa) as Hr by done. split.
  - intros [[Ha HQ]|(n & Hn & Hne & Ha)].
    + exists (dfa_root dfa). rewrite Hr. split_and!; [|done|done]. destruct input; left.
    + exists n. done.
  - intros (n & Hn & Ha & HQ). destruct (decide (n = dfa_root dfa)) as [->|Hne]; [|right; by exists n].
    left. rewrite <- Hr. auto.
Qed.

Lemma elem_of_results top url flags dfas acc a :
  a ∈ foldl (λ acc dfa, dfa_result dfa top url flags (root_actions dfa) acc) acc dfas <->
  a ∈ acc \/ (triggers top flags a = true /\ exists i dfa n, dfas !! i = Some dfa
    /\ n ∈ visited (compiled_next dfa) (dfa_root dfa) (url ++ [0]) /\ a ∈ actions_of dfa n).
Proof.
  revert acc. induction dfas as [|dfa dfas IH]; intros acc; cbn [foldl].
  { split; [by left|]. intros [?|(_ & i & ? & ? & Hi & _)]; [done|by destruct i]. }
  pose proof (root_or_other dfa (λ _, True) (url ++ [0]) (compiled_next dfa) a) as Hroot.
  rewrite IH, elem_of_dfa_result. split.
  - intros [[?|[Ht Hn]]|(Ht & i & d & n & Hi & ?)]; [by left|right|right].
    + split; [done|]. destruct (proj1 Hroot ltac:(tauto)) as (n & ? & ? & _). by exists 0%nat, dfa, n.
    + split; [done|]. by exists (S i), d, n.
  - intros [?|(Ht & [|i] & d & n & Hi & Hn & Ha)]; [tauto| |].
    + simpl in Hi. simplify_eq. left. right. split; [done|].
      destruct (proj2 Hroot ltac:(by exists n)) as [[? _]|?]; tauto.
    + right. split; [done|]. by exists i, d, n.
Qed.

Lemma elem_of_rule_list top url flags dfas a :
  a ∈ rule_list_actions top url flags dfas <-> triggered_by compiled_next dfas top url flags a.
Proof.
  unfold triggered_by, rule_list_actions. destruct dfas as [|dfa dfas].
  { split; [set_solver|]. intros (_ & i & ? & ? & Hi & _). by destruct i. }
  pose proof (root_or_other dfa (λ _, is_flagged a = true) (url ++ [0]) (compiled_next dfa) a) as Hroot.
  rewrite elem_of_results, elem_of_dfa_result, list_elem_of_filter. split.
  - intros [[?%elem_of_empty|[Ht Hn]]|(Ht & i & d & n & Hi & Hn & Ha)]; [done| |].
    + split; [done|]. destruct (proj1 Hroot ltac:(tauto)) as (n & ? & ? & ?). by exists 0%nat, dfa, n.
    + split; [done|]. exists (S i), d, n. by split_and!.
  - intros (Ht & [|i] & d & n & Hi & Hn & Ha & Hfl).
    + simpl in Hi. simplify_eq. left. right. split; [done|].
      destruct (proj2 Hroot ltac:(exists n; auto)) as [[? ?]|?]; tauto.
    + right. split; [done|]. by exists i, d, n.
Qed.

(** The bytecode of a rule list and the fuel that is enough for a URL. *)
Definition rule_list_ok (dfas : list DFA) : Prop :=
  Forall (λ dfa, wf_dfa dfa = true /\ nul_safe dfa) dfas /\ total_worst_case dfas + 16 < INT32_MAX.

Definition enough_fuel (dfas : list DFA) (bc url : list Z) : nat :=
  S (length dfas + S (length bc) * (length url + 3)).

Definition url_ok (url : list Z) : Prop := Forall (λ c, 1 <= c <= 127) url /\ vec_size url + 2 < 2 ^ 32.

Lemma compileAll_ok dfas : rule_list_ok dfas ->
  exists bc, compileAll dfas = Some bc /\ images 0 dfas bc /\ vec_size bc < INT32_MAX.
Proof.
  intros [Hok Hsz]. destruct (compileAll_images dfas 0) as (bc & Hc & Him & Hle).
  - eapply Forall_impl; [exact Hok|]. by intros dfa [? _].
  - done.
  - exists bc. split_and!; [done|done|lia].
Qed.

(** the whole back end.  The DFAs of a rule list compile, and on every ASCII
    URL the interpreter terminates within a bound on the number of
    instructions, without reading outside the bytecode or the URL and without a
    failed release assertion, and returns the actions whose flags and condition
    match of exactly the nodes the compiled automata visit on the URL. *)
Theorem interpret_compileAll dfas :
  rule_list_ok dfas ->
  exists bc, compileAll dfas = Some bc /\
    forall top url flags fuel, url_ok url -> (enough_fuel dfas bc url <= fuel)%nat ->
    exists acts, interpret bc top url flags fuel = Finished acts
      /\ forall a, a ∈ acts <-> triggered_by compiled_next dfas top url flags a.
Proof.
  intros Hok. destruct (compileAll_ok dfas Hok) as (bc & Hc & Him & Hsz). destruct Hok as [Hok _].
  exists bc. split; [done|]. intros top url flags fuel [Hurl Hlen] Hf.
  exists (rule_list_actions top url flags dfas). split; [|by intros a; apply elem_of_rule_list].
  by apply interpret_images.
Qed.

Lemma actionsMatchingEverything_sound dfa dfas :
  rule_list_ok (dfa :: dfas) ->
  exists bc, compileAll (dfa :: dfas) = Some bc /\
    forall top fuel, (length bc < fuel)%nat ->
    exists acts, actionsMatchingEverything bc top fuel = Finished acts
      /\ forall a, a ∈ acts <-> a ∈ actions_of dfa (dfa_root dfa) /\ is_flagged a = false
                                /\ condition_holds top a = true.
Proof.
  intros Hok. destruct (compileAll_ok _ Hok) as (bc & Hc & Him & Hsz). destruct Hok as [Hok _].
  exists bc. split; [done|]. intros top fuel Hf.
  apply Forall_cons in Hok as [[Hwf _] _].
  inversion Him as [|? ? ? start code rest Hhead Htail]; subst.
  pose proof (root_actions_length dfa [] start code Hhead) as Hral. pose proof (length_listing code).
  pose proof (listing_size_nonneg code).
  exists (collect top 0 (filter (λ a, is_flagged a = false) (root_actions dfa)) ∅). split.
  - apply (matching_everything dfa [] rest start code); try done.
    pose proof (vec_size_image 0 start code) as Hvi. rewrite length_app in Hf. unfold vec_size in Hvi. lia.
  - intros a. rewrite elem_of_collect, list_elem_of_filter, elem_of_empty. unfold triggers, actions_of, root_actions.
    rewrite andb_true_iff. split; [|intros (? & Hfl & ?)].
    + intros [[]|((? & ?) & ? & ?)]. tauto.
    + right. rewrite (unflagged_applies 0 a Hfl). tauto.
Qed.

(** [actionsMatchingEverything] returns exactly the actions of the first
    DFA's root that apply to every load, those [interpret] leaves out. *)
Theorem actionsMatchingEverything_correct dfa dfas :
  rule_list_ok (dfa :: dfas) ->
  exists bc, compileAll (dfa :: dfas) = Some bc /\
    forall top fuel, (length bc < fuel)%nat ->
    exists acts, actionsMatchingEverything bc top fuel = Finished acts
      /\ forall a, a ∈ acts <-> a ∈ actions_of dfa (dfa_root dfa) /\ is_flagged a = false
                                /\ condition_holds top a = true.
Proof. exact (actionsMatchingEverything_sound dfa dfas). Qed.

(** ** The end of the URL and the fallback jump *)

(** No transition on the end of the URL goes to the fallback target of its node. *)
Definition nul_faithful (dfa : DFA) : bool :=
  forallb (λ node, match node_transitions dfa node with
                   | Some ts => bool_decide (find_transition ts 0 = compiled_transition ts 0)
                   | None => true
                   end) (dfa_nodes dfa).

Lemma compiled_next_faithful dfa n c : nul_faithful dfa = true -> compiled_next dfa n c = dfa_next dfa n c.
Proof.
  unfold nul_faithful, compiled_next, dfa_next. rewrite forallb_forall. intros H.
  destruct (vec_at (dfa_nodes dfa) n) as [node|] eqn:En; [|done]. cbn [mbind option_bind].
  destruct (node_transitions dfa node) as [ts|] eqn:Ets; [|done]. cbn [mbind option_bind].
  apply vec_at_Some in En as [_ En]. specialize (H node). rewrite Ets, bool_decide_eq_true in H.
  destruct (decide (c = 0)) as [->|Hc].
  - symmetry. apply H. apply list_elem_of_In. by eapply list_elem_of_lookup_2.
  - unfold compiled_transition. destruct (find_transition ts c); [|done].
    destruct (Z.eqb_spec c 0); [done|]. done.
Qed.

Lemma visited_ext f g n input : (forall m c, f m c = g m c) -> visited f n input = visited g n input.
Proof.
  intros H. revert n. induction input as [|c input IH]; intros n; [done|]. cbn [visited].
  rewrite H. destruct (g n c); [by rewrite IH|done].
Qed.

Lemma interpret_dfa_sound dfas :
  rule_list_ok dfas -> Forall (λ dfa, nul_faithful dfa = true) dfas ->
  exists bc, compileAll dfas = Some bc /\
    forall top url flags fuel, url_ok url -> (enough_fuel dfas bc url <= fuel)%nat ->
    exists acts, interpret bc top url flags fuel = Finished acts
      /\ forall a, a ∈ acts <-> triggered_by dfa_next dfas top url flags a.
Proof.
  intros Hok Hfaith. destruct (compileAll_ok dfas Hok) as (bc & Hc & Him & Hsz). destruct Hok as [Hok _].
  exists bc. split; [done|]. intros top url flags fuel [Hurl Hlen] Hf.
  exists (rule_list_actions top url flags dfas). split; [by apply interpret_images|].
  intros a. rewrite elem_of_rule_list. unfold triggered_by.
  rewrite Forall_forall in Hfaith.
  assert (forall i dfa, dfas !! i = Some dfa -> visited (compiled_next dfa) (dfa_root dfa) (url ++ [0])
    = visited (dfa_next dfa) (dfa_root dfa) (url ++ [0])) as Hv.
  { intros i dfa Hi. apply visited_ext. intros m c. apply compiled_next_faithful, Hfaith.
    by eapply list_elem_of_lookup_2. }
  split; intros (Ht & i & dfa & n & Hi & Hn & ?); split; try done; exists i, dfa, n;
    [rewrite <- (Hv i dfa Hi)|rewrite (Hv i dfa Hi)]; done.
Qed.

(** C7: the interpreter on the compiled bytecode of DFAs terminates without a fault
    and computes, on URLs of ASCII characters, exactly the actions of the nodes that
    the DFAs themselves visit, when no transition on the end of the URL goes to its
    node's fallback target ([nul_faithful]; otherwise see [nul_transition_lost]) or
    to a node with a fallback jump ([nul_safe], in [rule_list_ok]), and the code fits
    the signed 32 bits of a jump. *)
Theorem interpret_compileAll_dfa dfas :
  rule_list_ok dfas -> Forall (λ dfa, nul_faithful dfa = true) dfas ->
  exists bc, compileAll dfas = Some bc /\
    forall top url flags fuel, url_ok url -> (enough_fuel dfas bc url <= fuel)%nat ->
    exists acts, interpret bc top url flags fuel = Finished acts
      /\ forall a, a ∈ acts <-> triggered_by dfa_next dfas top url flags a.
Proof. exact (interpret_dfa_sound dfas). Qed.

(** A node whose end-of-URL transition has the target of its other transitions:
    action 7 on "a" followed by the end of the URL or any character. *)
Definition lost_nul_dfa : DFA :=
  mkDFA [mkDFANode 0 0 0 2 0; mkDFANode 0 2 0 2 0; mkDFANode 0 0 1 0 0] [7]
    [mkCharRange 65 65; mkCharRange 97 97; mkCharRange 0 0; mkCharRange 1 127] [1; 1; 2; 2] 0.

Lemma lost_nul_dfa_ok : rule_list_ok [lost_nul_dfa].
Proof.
  split; [|vm_compute; done]. constructor; [|constructor].
  split; [by vm_compute|apply nul_safe_check_sound; by vm_compute].
Qed.

(** C35: the compiler drops an end-of-URL transition that goes to the fallback
    target: the automaton visits a node with action 7 on the URL "a", the
    interpreter on its bytecode returns no action. *)
Theorem nul_transition_lost :
  rule_list_ok [lost_nul_dfa] /\ triggered_by dfa_next [lost_nul_dfa] None [97] 0 7 /\
  exists bc, compileAll [lost_nul_dfa] = Some bc /\
    forall fuel, (enough_fuel [lost_nul_dfa] bc [97%Z] <= fuel)%nat ->
    interpret bc None [97] 0 fuel = Finished ∅.
Proof.
  split; [apply lost_nul_dfa_ok|]. split.
  { split; [done|]. exists 0%nat, lost_nul_dfa, 2. split_and!; [done| | |done].
    - replace (visited _ _ _) with [0; 1; 2] by (by vm_compute). right. right. left.
    - replace (actions_of _ _) with [7] by (by vm_compute). left. }
  destruct (compileAll_ok _ lost_nul_dfa_ok) as (bc & Hc & Him & Hsz).
  exists bc. split; [done|]. intros fuel Hf.
  rewrite (interpret_images None [97] 0 ltac:(repeat constructor; done) ltac:(done) [lost_nul_dfa] bc fuel
    Him (proj1 lost_nul_dfa_ok) Hsz Hf).
  reflexivity.
Qed.

(** ** A rule list *)

Lemma sample_ok : rule_list_ok [sample_dfa].
Proof.
  split; [|vm_compute; done]. constructor; [|constructor].
  split; [by vm_compute|apply nul_safe_check_sound; by vm_compute].
Qed.

Lemma sample_url_ok : url_ok [65].
Proof. split; [repeat constructor; done|done]. Qed.

Lemma sample_trigger next : visited (next sample_dfa) (dfa_root sample_dfa) ([65] ++ [0]) = [0; 1; 2] ->
  triggered_by next [sample_dfa] None [65] 0 7.
Proof.
  intros Hv. split; [done|]. exists 0%nat, sample_dfa, 2. rewrite Hv.
  replace (actions_of sample_dfa 2) with [7] by (by vm_compute).
  split_and!; [done|right; right; left|left|done].
Qed.

Lemma interpret_compileAll_witness :
  exists bc acts, compileAll [sample_dfa] = Some bc
    /\ interpret bc None [65] 0 (enough_fuel [sample_dfa] bc [65]) = Finished acts /\ 7 ∈ acts.
Proof.
  destruct (interpret_compileAll [sample_dfa] sample_ok) as (bc & Hc & Hrun).
  destruct (Hrun None [65] 0 _ sample_url_ok (Nat.le_refl _)) as (acts & Hacts & Hin).
  exists bc, acts. split; [exact Hc|]. split; [exact Hacts|]. apply Hin, sample_trigger. by vm_compute.
Defined.

Lemma interpret_compileAll_dfa_witness :
  exists bc acts, compileAll [sample_dfa] = Some bc
    /\ interpret bc None [65] 0 (enough_fuel [sample_dfa] bc [65]) = Finished acts /\ 7 ∈ acts.
Proof.
  destruct (interpret_compileAll_dfa [sample_dfa] sample_ok) as (bc & Hc & Hrun).
  { constructor; [reflexivity|constructor]. }
  destruct (Hrun None [65] 0 _ sample_url_ok (Nat.le_refl _)) as (acts & Hacts & Hin).
  exists bc, acts. split; [exact Hc|]. split; [exact Hacts|]. apply Hin, sample_trigger. by vm_compute.
Defined.

Lemma actionsMatchingEverything_correct_witness :
  exists bc acts, compileAll [sample_dfa] = Some bc
    /\ actionsMatchingEverything bc None (S (length bc)) = Finished acts /\ 7 ∉ acts.
Proof.
  destruct (actionsMatchingEverything_correct sample_dfa [] sample_ok) as (bc & Hc & Hrun).
  destruct (Hrun None (S (length bc)) (Nat.lt_succ_diag_r _)) as (acts & Hacts & Hin).
  exists bc, acts. split; [exact Hc|]. split; [exact Hacts|]. rewrite Hin.
  replace (actions_of sample_dfa (dfa_root sample_dfa)) with (@nil Z) by (by vm_compute).
  intros [Ha _]. by apply elem_of_nil in Ha.
Defined.
