(* ===== verification/MutableRangeList.v ===== *)
(** * Sorted lists of character ranges

    Models [MutableRange.h] and [MutableRangeList.h] of
    [src/Source/WebCore/contentextensions/]: a list of disjoint character
    ranges, sorted through links between the elements of a vector, and its
    [extend], which merges another sorted list into it.  The template
    parameters are type parameters: [D] is [DataType], [E] what [data()] of the
    other iterator yields, and the two functions of the [DataConverter] are
    arguments.  Characters are [Z] in [0, 127]; what is stored in a [char] is
    reduced with [s8].  [None] is an index outside the vector. *)

From stdpp Require Import base numbers option list list_numbers sets.
From Stdlib Require Import ZArith Lia.
From S2P Require Import Prelude.

Record MutableRange (D : Type) := mkMutableRange {
  mr_data : D;
  nextRangeIndex : Z;
  mr_first : Z;
  mr_last : Z
}.
Arguments mkMutableRange {D}.
Arguments mr_data {D}.
Arguments nextRangeIndex {D}.
Arguments mr_first {D}.
Arguments mr_last {D}.

(** A range of the list that is merged in: [first()], [last()] and [data()]. *)
Record OtherRange (E : Type) := mkOtherRange { o_first : Z; o_last : Z; o_data : E }.
Arguments mkOtherRange {E}.
Arguments o_first {E}.
Arguments o_last {E}.
Arguments o_data {E}.

Section Operations.

Context {D E : Type}.
Implicit Types ranges : list (MutableRange D).

(** Assignments to the fields of [m_ranges[index]]. *)
Definition setNext ranges (index next : Z) : option (list (MutableRange D)) :=
  r ← vec_at ranges index;
  vec_set ranges index (mkMutableRange (mr_data r) next (mr_first r) (mr_last r)).
Definition setFirst ranges (index first : Z) : option (list (MutableRange D)) :=
  r ← vec_at ranges index;
  vec_set ranges index (mkMutableRange (mr_data r) (nextRangeIndex r) first (mr_last r)).
Definition setData ranges (index : Z) (data : D) : option (list (MutableRange D)) :=
  r ← vec_at ranges index;
  vec_set ranges index (mkMutableRange data (nextRangeIndex r) (mr_first r) (mr_last r)).

(** Iteration from [begin()] to [end()]; the fuel is the number of ranges. *)
Fixpoint iterate (fuel : nat) ranges (index : Z) : option (list (MutableRange D)) :=
  match fuel with
  | O => None
  | S fuel =>
      r ← vec_at ranges index;
      if nextRangeIndex r =? 0 then Some [r]
      else rest ← iterate fuel ranges (nextRangeIndex r); Some (r :: rest)
  end.

Definition ranges_in_order ranges : option (list (MutableRange D)) :=
  match ranges with [] => Some [] | _ => iterate (length ranges) ranges 0 end.

Definition appendRange ranges (lastRangeIndex first last : Z) (data : D)
    : option (Z * list (MutableRange D)) :=
  let newRangeIndex := vec_size ranges in
  let ranges := ranges ++ [mkMutableRange data 0 first last] in
  if newRangeIndex =? 0 then Some (0, ranges)
  else ranges ← setNext ranges lastRangeIndex newRangeIndex; Some (newRangeIndex, ranges).

(** The ranges and the two indices that [insertBetween] updates. *)
Definition insertBetween ranges (leftRangeIndex rightRangeIndex first last : Z) (data : D)
    : option (list (MutableRange D) * Z * Z) :=
  if rightRangeIndex =? 0 then
    let movedRangeIndex := vec_size ranges in
    r0 ← vec_at ranges 0;
    let ranges := ranges ++ [r0] in
    ranges ← vec_set ranges 0 (mkMutableRange data movedRangeIndex first last);
    Some (ranges, 0, movedRangeIndex)
  else
    let newRangeIndex := vec_size ranges in
    let ranges := ranges ++ [mkMutableRange data rightRangeIndex first last] in
    ranges ← setNext ranges leftRangeIndex newRangeIndex;
    Some (ranges, newRangeIndex, rightRangeIndex).

Context (convert : E -> D) (extend_data : D -> E -> D).

(** The do-while loop fills an empty list; every range links to the next index,
    the last one to zero. *)
Fixpoint initializeFrom_loop (loopCounter : Z) (others : list (OtherRange E)) : list (MutableRange D) :=
  match others with
  | [] => []
  | o :: others =>
      mkMutableRange (convert (o_data o)) (loopCounter + 1) (o_first o) (o_last o)
      :: initializeFrom_loop (loopCounter + 1) others
  end.

Definition initializeFrom (others : list (OtherRange E)) : option (list (MutableRange D)) :=
  let ranges := initializeFrom_loop 0 others in
  setNext ranges (vec_size ranges - 1) 0.

(** The variables of the merging loop of [extend]. *)
Record ExtendState := mkExtendState {
  es_ranges : list (MutableRange D);
  reachedSelfEnd : bool;
  lastSelfRangeIndex : Z;
  selfRangeIndex : Z;
  otherIterator : list (OtherRange E);
  otherRangeOffset : Z
}.

(** The part of the iteration after the two ranges start at the same point. *)
Definition extendOverlap ranges (last self : Z) (o : OtherRange E) (others : list (OtherRange E))
    (offset : Z) : option ExtendState :=
  active ← vec_at ranges self;
  if mr_last active =? o_last o then
    ranges ← setData ranges self (extend_data (mr_data active) (o_data o));
    Some (mkExtendState ranges (nextRangeIndex active =? 0) self (nextRangeIndex active) others 0)
  else if o_last o <? mr_last active then
    let combinedPartStart := mr_first active in
    ranges ← setFirst ranges self (s8 (o_last o + 1));
    let combinedData := extend_data (mr_data active) (o_data o) in
    '(ranges, last, self) ← insertBetween ranges last self combinedPartStart (o_last o) combinedData;
    Some (mkExtendState ranges false last self others 0)
  else
    ranges ← setData ranges self (extend_data (mr_data active) (o_data o));
    Some (mkExtendState ranges (nextRangeIndex active =? 0) self (nextRangeIndex active) (o :: others)
            (s8 (mr_last active - o_first o + 1))).

(** One iteration of the merging loop. *)
Definition extendStep (st : ExtendState) : option ExtendState :=
  let ranges := es_ranges st in
  let last := lastSelfRangeIndex st in
  let self := selfRangeIndex st in
  let offset := otherRangeOffset st in
  match otherIterator st with
  | [] => None
  | o :: others =>
    active ← vec_at ranges self;
    if mr_last active <? o_first o + offset then
      Some (mkExtendState ranges (nextRangeIndex active =? 0) self (nextRangeIndex active) (o :: others) offset)
    else if o_last o <? mr_first active then
      '(ranges, last, self) ←
        insertBetween ranges last self (s8 (o_first o + offset)) (o_last o) (convert (o_data o));
      Some (mkExtendState ranges false last self others 0)
    else if mr_first active <? o_first o + offset then
      let newRangeFirstCharacter := mr_first active in
      ranges ← setFirst ranges self (s8 (o_first o + offset));
      '(ranges, last, self) ←
        insertBetween ranges last self newRangeFirstCharacter (s8 (o_first o + offset - 1)) (mr_data active);
      extendOverlap ranges last self o others offset
    else if o_first o + offset <? mr_first active then
      '(ranges, last, self) ←
        insertBetween ranges last self (s8 (o_first o + offset)) (s8 (mr_first active - 1)) (convert (o_data o));
      active ← vec_at ranges self;
      extendOverlap ranges last self o others (s8 (mr_first active - o_first o))
    else extendOverlap ranges last self o others offset
  end.

(** [do ... while (!reachedSelfEnd && otherIterator != otherEnd)] *)
Fixpoint extendLoop (fuel : nat) (st : ExtendState) : option ExtendState :=
  match fuel with
  | O => None
  | S fuel =>
      st ← extendStep st;
      match reachedSelfEnd st, otherIterator st with
      | false, _ :: _ => extendLoop fuel st
      | _, _ => Some st
      end
  end.

(** The loop that appends the ranges after the end of the list. *)
Fixpoint extendAppend ranges (last : Z) (others : list (OtherRange E)) (offset : Z)
    : option (list (MutableRange D)) :=
  match others with
  | [] => Some ranges
  | o :: others =>
      '(last, ranges) ← appendRange ranges last (s8 (o_first o + offset)) (o_last o) (convert (o_data o));
      extendAppend ranges last others 0
  end.

(** [extend]; every iteration leaves a range of one of the two lists behind, so
    the fuel is enough. *)
Definition extend ranges (others : list (OtherRange E)) : option (list (MutableRange D)) :=
  match others, ranges with
  | [], _ => Some ranges
  | _, [] => initializeFrom others
  | _, _ =>
      st ← extendLoop (length ranges + length others) (mkExtendState ranges false 0 0 others 0);
      extendAppend (es_ranges st) (lastSelfRangeIndex st) (otherIterator st) (otherRangeOffset st)
  end.

End Operations.

(** ** What a list of ranges means *)

Section Meaning.
Context {X : Type}.
Implicit Types l : list (OtherRange X).

(** The data of the range that contains a character. *)
Fixpoint range_lookup l (c : Z) : option X :=
  match l with
  | [] => None
  | r :: l => if (o_first r <=? c) && (c <=? o_last r) then Some (o_data r) else range_lookup l c
  end.

(** Non-empty disjoint ranges of ASCII characters, in order, from [lo] on. *)
Fixpoint sorted_from (lo : Z) l : Prop :=
  match l with
  | [] => True
  | r :: l => lo <= o_first r /\ o_first r <= o_last r /\ o_last r <= 127 /\ sorted_from (o_last r + 1) l
  end.

(** Sorted ranges that end before [hi]. *)
Definition sorted_until (hi : Z) l : Prop := sorted_from 0 l /\ Forall (λ r, o_last r < hi) l.

Lemma sorted_from_cons lo r l : sorted_from lo (r :: l) <->
  lo <= o_first r /\ o_first r <= o_last r /\ o_last r <= 127 /\ sorted_from (o_last r + 1) l.
Proof. done. Qed.

Lemma sorted_from_weaken lo lo' l : lo' <= lo -> sorted_from lo l -> sorted_from lo' l.
Proof. destruct l; simpl; [done|]. intros ? (? & ? & ? & ?). split_and!; [lia|done|done|done]. Qed.

Lemma sorted_from_Forall lo l : sorted_from lo l -> Forall (λ r, lo <= o_first r /\ o_first r <= o_last r <= 127) l.
Proof.
  revert lo. induction l as [|r l IH]; intros lo; simpl; [constructor|]. intros (? & ? & ? & Hl).
  constructor; [lia|]. eapply Forall_impl; [by apply IH|]. simpl. lia.
Qed.

Lemma sorted_from_app lo l1 l2 :
  sorted_from lo (l1 ++ l2) <->
  sorted_from lo l1 /\ sorted_from lo l2 /\ Forall (λ r, sorted_from (o_last r + 1) l2) l1.
Proof.
  revert lo. induction l1 as [|r l1 IH]; intros lo; simpl.
  { split; [intros; split_and!; [done|done|constructor]|tauto]. }
  rewrite IH, Forall_cons. split.
  - intros (? & ? & ? & ? & Hl2 & ?). split_and!; try done. eapply sorted_from_weaken; [|exact Hl2]. lia.
  - tauto.
Qed.

Lemma range_lookup_low lo l c : sorted_from lo l -> c < lo -> range_lookup l c = None.
Proof.
  revert lo. induction l as [|r l IH]; intros lo; simpl; [done|]. intros (? & ? & ? & Hl) Hc.
  destruct ((o_first r <=? c) && _) eqn:E; zbool; [lia|]. apply (IH _ Hl). lia.
Qed.

Lemma range_lookup_app l1 l2 c :
  range_lookup (l1 ++ l2) c = match range_lookup l1 c with Some x => Some x | None => range_lookup l2 c end.
Proof. induction l1 as [|r l1 IH]; simpl; [done|]. by destruct ((o_first r <=? c) && _). Qed.

Lemma range_lookup_high hi l c : Forall (λ r, o_last r < hi) l -> hi <= c -> range_lookup l c = None.
Proof.
  induction 1 as [|r l Hr _ IH]; simpl; [done|]. intros Hc.
  destruct ((o_first r <=? c) && _) eqn:E; zbool; [lia|]. auto.
Qed.

Lemma range_lookup_elem l c x : range_lookup l c = Some x ->
  exists r, r ∈ l /\ o_first r <= c <= o_last r /\ o_data r = x.
Proof.
  induction l as [|r l IH]; simpl; [done|]. destruct ((o_first r <=? c) && _) eqn:E; zbool.
  - intros [= <-]. exists r. split; [left|]. split; [lia|done].
  - intros H. destruct (IH H) as (r' & ? & ?). exists r'. split; [by right|done].
Qed.

Lemma sorted_until_snoc hi hi' l r :
  sorted_until hi l -> 0 <= o_first r -> hi <= o_first r -> o_first r <= o_last r -> o_last r < hi' -> o_last r <= 127 ->
  sorted_until hi' (l ++ [r]).
Proof.
  intros [Hs Hf] ????. split.
  - rewrite sorted_from_app. split_and!; [done|simpl; lia|].
    eapply Forall_impl; [exact Hf|]. simpl. lia.
  - apply Forall_app. split; [|by constructor]. eapply Forall_impl; [exact Hf|]. simpl. lia.
Qed.
End Meaning.

(** ** The linked vector *)

Section Linked.
Context {D : Type}.
Implicit Types (v : list (MutableRange D)) (l : list (OtherRange D)).

Definition linked_range (e : OtherRange D) (next : Z) : MutableRange D :=
  mkMutableRange (o_data e) next (o_first e) (o_last e).

(** The elements at the indices [idx] hold the ranges [l], each linked to the
    following index and the last one to [next]. *)
Fixpoint segment v (idx : list Z) l (next : Z) : Prop :=
  match idx, l with
  | [], [] => True
  | i :: idx', e :: l' => vec_at v i = Some (linked_range e (default next (head idx'))) /\ segment v idx' l' next
  | _, _ => False
  end.

(** The vector represents the list [l], through the indices [idx]. *)
Record represents v (idx : list Z) l : Prop := {
  rep_segment : segment v idx l 0;
  rep_nodup : NoDup idx;
  rep_head : idx <> [] -> head idx = Some 0;
  rep_length : length idx = length v
}.

Lemma segment_length v idx l next : segment v idx l next -> length idx = length l.
Proof. revert l. induction idx as [|i idx IH]; intros [|e l]; simpl; try done. intros [_ H]. by rewrite (IH l). Qed.

Lemma segment_ext v v' idx l next :
  (forall i, i ∈ idx -> vec_at v' i = vec_at v i) -> segment v idx l next -> segment v' idx l next.
Proof.
  revert l. induction idx as [|i idx IH]; intros [|e l]; simpl; try done. intros Hext [H1 H2].
  split; [rewrite Hext by left; done|]. apply IH; [|done]. intros; apply Hext; by right.
Qed.

Lemma segment_app v idx1 idx2 l1 l2 next : length idx1 = length l1 ->
  segment v (idx1 ++ idx2) (l1 ++ l2) next <->
  segment v idx1 l1 (default next (head idx2)) /\ segment v idx2 l2 next.
Proof.
  revert l1. induction idx1 as [|i idx1 IH]; intros [|e l1]; simpl; try done; [tauto|].
  intros [= Hl]. rewrite IH by done. destruct idx1; simpl; tauto.
Qed.

Lemma segment_bound v idx l next i : segment v idx l next -> i ∈ idx -> 0 <= i < vec_size v.
Proof.
  revert l. induction idx as [|j idx IH]; intros [|e l]; simpl; try done; [by intros _ ?%elem_of_nil|].
  intros [H1 H2] [->|Hi]%elem_of_cons; [by eapply vec_at_bound|by eapply IH].
Qed.

Lemma segment_last v idx l next :
  segment v idx l next -> idx <> [] ->
  exists i e, last idx = Some i /\ last l = Some e /\ vec_at v i = Some (linked_range e next).
Proof.
  revert l. induction idx as [|i idx IH]; intros [|e l]; simpl; try done. intros [H1 H2] _.
  destruct idx as [|j idx], l as [|e' l]; try done.
  - exists i, e. done.
  - destruct (IH (e' :: l) H2 ltac:(done)) as (k & x & ? & ? & ?). exists k, x. split_and!; [done|done|done].
Qed.

(** Changing the link of the last element. *)
Lemma segment_relink v v' idx l next next' i e :
  segment v idx l next -> NoDup idx -> last idx = Some i -> last l = Some e ->
  (forall j, vec_at v' j = if i =? j then Some (linked_range e next') else vec_at v j) ->
  segment v' idx l next'.
Proof.
  revert l. induction idx as [|k idx IH]; intros [|x l]; simpl; try done.
  intros [H1 H2] [Hk Hnd]%NoDup_cons Hi He Hv'. destruct idx as [|j idx], l as [|y l]; try done.
  - simplify_eq/=. by rewrite Hv', Z.eqb_refl.
  - assert (k <> i). { intros ->. apply Hk. by apply last_Some_elem_of. }
    rewrite Hv'. destruct (i =? k) eqn:E; zbool; [congruence|]. split; [done|].
    by eapply (IH (y :: l)).
Qed.

Lemma represents_head_zero v di s ci ld e lc :
  represents v (di ++ s :: ci) (ld ++ e :: lc) -> s = 0 <-> di = [].
Proof.
  intros [_ Hnd Hh _]. destruct di as [|d di]; simpl in *.
  - specialize (Hh ltac:(done)). naive_solver.
  - specialize (Hh ltac:(done)). simplify_eq. split; [|done]. intros ->.
    apply NoDup_cons in Hnd as [Hn _]. exfalso. apply Hn. set_solver.
Qed.

(** Overwriting the element at the cursor without changing its link. *)
Lemma represents_update v di s ci ld e lc e' :
  represents v (di ++ s :: ci) (ld ++ e :: lc) -> length di = length ld ->
  vec_at v s = Some (linked_range e (default 0 (head ci)))
  /\ exists v', vec_set v s (linked_range e' (default 0 (head ci))) = Some v'
       /\ represents v' (di ++ s :: ci) (ld ++ e' :: lc).
Proof.
  intros [Hs Hnd Hh Hl] Hlen. apply segment_app in Hs as [H1 [H2 H3]]; [|done]. split; [done|].
  destruct (vec_set_is_Some v s (linked_range e' (default 0 (head ci)))) as [v' Hv'].
  { by eapply vec_at_bound. }
  exists v'. split; [done|]. rewrite NoDup_app in Hnd. destruct Hnd as (Hnd1 & Hdisj & Hnd2).
  apply NoDup_cons in Hnd2 as Hnd3. destruct Hnd3 as [Hs Hnd3]. split.
  - apply segment_app; [done|]. split; [|split].
    + eapply segment_ext; [|exact H1]. intros i Hi. rewrite (vec_set_spec _ _ _ _ _ Hv').
      destruct (s =? i) eqn:E; zbool; [|done]. subst. exfalso. apply (Hdisj i Hi). left.
    + by rewrite (vec_set_spec _ _ _ _ _ Hv'), Z.eqb_refl.
    + eapply segment_ext; [|exact H3]. intros i Hi. rewrite (vec_set_spec _ _ _ _ _ Hv').
      destruct (s =? i) eqn:E; zbool; [|done]. by subst.
  - rewrite NoDup_app. done.
  - done.
  - apply vec_set_size in Hv'. unfold vec_size in Hv'. lia.
Qed.

(** [insertBetween] puts a range in front of the cursor. *)
Lemma insertBetween_spec v di s ci ld e lc first last data :
  represents v (di ++ s :: ci) (ld ++ e :: lc) -> length di = length ld ->
  exists v' di' s', insertBetween v (default 0 (list.last di)) s first last data = Some (v', default 0 (list.last di'), s')
    /\ represents v' (di' ++ s' :: ci) ((ld ++ [mkOtherRange first last data]) ++ e :: lc)
    /\ length di' = length (ld ++ [mkOtherRange first last data]).
Proof.
  intros HR Hlen. pose proof (represents_head_zero _ _ _ _ _ _ _ HR) as Hz. destruct HR as [Hs Hnd Hh Hl].
  pose proof (λ i, segment_bound _ _ _ _ i Hs) as Hbd.
  apply segment_app in Hs as [H1 [H2 H3]]; [|done]. unfold insertBetween.
  assert (vec_size v ∉ di ++ s :: ci) as Hfresh.
  { intros Hin. apply Hbd in Hin. lia. }
  destruct (s =? 0) eqn:E; zbool.
  - subst s. rewrite (proj1 Hz eq_refl) in *. destruct ld; [|done]. clear H1 Hz. simpl in *. rewrite H2. simpl.
    destruct (vec_set_is_Some (v ++ [linked_range e (default 0 (head ci))]) 0
      (mkMutableRange data (vec_size v) first last)) as [v' Hv'].
    { rewrite vec_size_app. pose proof (vec_at_bound _ _ _ H2). change (vec_size [linked_range e (default 0 (head ci))]) with 1. lia. }
    rewrite Hv'. simpl. exists v', [0], (vec_size v). pose proof (vec_at_bound _ _ _ H2) as Hb0.
    apply NoDup_cons in Hnd as [Hn0 Hndc].
    split_and!; [done| |done]. split; simpl.
    + rewrite !(vec_set_spec _ _ _ _ _ Hv'), Z.eqb_refl. destruct (0 =? vec_size v) eqn:E; zbool; [lia|].
      rewrite vec_at_snoc. split_and!; [done|done|].
      eapply segment_ext; [|exact H3]. intros i Hi. rewrite (vec_set_spec _ _ _ _ _ Hv').
      pose proof (Hbd i ltac:(by right)). destruct (0 =? i) eqn:E'; zbool; [by subst|].
      apply vec_at_app_l. lia.
    + rewrite !NoDup_cons, not_elem_of_cons. split_and!; [lia|done|set_solver|done].
    + done.
    + apply vec_set_size in Hv'. unfold vec_size in Hv'. rewrite length_app in Hv'. simpl in *. lia.
  - assert (di <> []) as Hdi by naive_solver.
    destruct (segment_last _ _ _ _ H1 Hdi) as (i & x & Hi & Hx & Hvi). rewrite Hi. simpl.
    pose proof (vec_at_bound _ _ _ Hvi) as Hib. unfold setNext.
    rewrite vec_at_app_l by lia. rewrite Hvi. cbn [mbind option_bind].
    destruct (vec_set_is_Some (v ++ [mkMutableRange data s first last]) i (linked_range x (vec_size v))) as [v' Hv'].
    { rewrite vec_size_app. pose proof (vec_size_nonneg [mkMutableRange data s first last]). lia. }
    unfold linked_range in Hv' at 1. simpl. rewrite Hv'. simpl. exists v', (di ++ [vec_size v]), s.
    rewrite last_snoc. rewrite NoDup_app in Hnd. destruct Hnd as (Hnd1 & Hdisj & Hnd2).
    assert (i ∈ di) as Hidi by (by apply last_Some_elem_of).
    split_and!; [done| |rewrite !length_app; simpl; lia]. split.
    + rewrite <- !app_assoc. apply segment_app; [done|]. simpl. split; [|split; [|split]].
      * apply (segment_relink (v ++ [mkMutableRange data s first last]) v' di ld s (vec_size v) i x); try done.
        -- eapply segment_ext; [|exact H1]. intros j Hj. apply vec_at_app_l. apply Hbd. set_solver.
        -- intros j. by apply vec_set_spec.
      * rewrite (vec_set_spec _ _ _ _ _ Hv'). destruct (i =? vec_size v) eqn:E'; zbool; [lia|]. by rewrite vec_at_snoc.
      * rewrite (vec_set_spec _ _ _ _ _ Hv'). destruct (i =? s) eqn:E'; zbool.
        { subst. exfalso. apply (Hdisj s Hidi). left. }
        rewrite vec_at_app_l by (apply Hbd; set_solver). done.
      * eapply segment_ext; [|exact H3]. intros j Hj. rewrite (vec_set_spec _ _ _ _ _ Hv').
        destruct (i =? j) eqn:E'; zbool; [subst; exfalso; apply (Hdisj j Hidi); by right|].
        apply vec_at_app_l. apply Hbd. set_solver.
    + rewrite <- app_assoc. simpl. rewrite NoDup_app, NoDup_cons. split_and!; [done| | |done].
      * intros j Hj [->|Hj']%elem_of_cons; [apply Hfresh; set_solver|by apply (Hdisj j Hj)].
      * set_solver.
    + intros _. destruct di; [done|]. simpl in *. by apply Hh.
    + apply vec_set_size in Hv'. unfold vec_size in Hv'. rewrite !length_app in *. simpl in *. lia.
Qed.

(** [appendRange] puts a range at the end. *)
Lemma appendRange_spec v idx l first last data :
  represents v idx l ->
  exists v' idx', appendRange v (default 0 (list.last idx)) first last data = Some (default 0 (list.last idx'), v')
    /\ represents v' idx' (l ++ [mkOtherRange first last data]).
Proof.
  intros [Hs Hnd Hh Hl]. unfold appendRange. pose proof (λ i, segment_bound _ _ _ _ i Hs) as Hbd.
  destruct (vec_size v =? 0) eqn:E; zbool.
  - destruct v; [|unfold vec_size in E; simpl in E; lia]. destruct idx; [|done]. destruct l; [|done].
    exists [mkMutableRange data 0 first last], [0]. split; [done|].
    split; simpl; try done. apply NoDup_singleton.
  - assert (idx <> []) as Hne by (intros ->; unfold vec_size in E; simpl in Hl; lia).
    destruct (segment_last _ _ _ _ Hs Hne) as (i & x & Hi & Hx & Hvi). rewrite Hi. simpl. unfold setNext.
    pose proof (vec_at_bound _ _ _ Hvi) as Hib. rewrite vec_at_app_l by lia. rewrite Hvi. cbn [mbind option_bind].
    destruct (vec_set_is_Some (v ++ [mkMutableRange data 0 first last]) i (linked_range x (vec_size v))) as [v' Hv'].
    { rewrite vec_size_app. pose proof (vec_size_nonneg [mkMutableRange data 0 first last]). lia. }
    unfold linked_range in Hv' at 1. simpl. rewrite Hv'. simpl. exists v', (idx ++ [vec_size v]).
    rewrite last_snoc. split; [done|]. pose proof (segment_length _ _ _ _ Hs) as Hlen. split.
    + apply segment_app; [done|]. simpl. split; [|split; [|done]].
      * apply (segment_relink (v ++ [mkMutableRange data 0 first last]) v' idx l 0 (vec_size v) i x); try done.
        -- eapply segment_ext; [|exact Hs]. intros j Hj. apply vec_at_app_l. by apply Hbd.
        -- intros j. by apply vec_set_spec.
      * rewrite (vec_set_spec _ _ _ _ _ Hv'). destruct (i =? vec_size v) eqn:E'; zbool; [lia|]. by rewrite vec_at_snoc.
    + rewrite NoDup_app. split_and!; [done| |apply NoDup_singleton].
      intros j Hj ->%list_elem_of_singleton. apply Hbd in Hj. lia.
    + intros _. destruct idx; [done|]. simpl in *. by apply Hh.
    + apply vec_set_size in Hv'. unfold vec_size in Hv'. rewrite !length_app in *. simpl in *. lia.
Qed.
End Linked.

(** ** Merging *)

Section Merge.
Context {D E : Type} (convert : E -> D) (extend_data : D -> E -> D).

(** What the merged list should give for a character. *)
Definition merged (a : option D) (b : option E) : option D :=
  match a, b with
  | Some d, Some e => Some (extend_data d e)
  | Some d, None => Some d
  | None, Some e => Some (convert e)
  | None, None => None
  end.

(** The other list as the loop sees it: the current range starts at its offset. *)
Definition effective (others : list (OtherRange E)) (offset : Z) : list (OtherRange E) :=
  match others with
  | [] => []
  | o :: others => mkOtherRange (o_first o + offset) (o_last o) (o_data o) :: others
  end.

Context (goal : Z -> option D).

(** Below [b] the work is done: [ld] is final; from [b] on, what remains of both
    lists has to be merged. *)
Record progress (b : Z) (ld lc : list (OtherRange D)) (lo : list (OtherRange E)) : Prop := {
  pr_bound : 0 <= b;
  pr_done : sorted_until b ld;
  pr_self : sorted_from b lc;
  pr_other : sorted_from b lo;
  pr_goal : forall c, 0 <= c <= 127 ->
    goal c = if c <? b then range_lookup ld c else merged (range_lookup lc c) (range_lookup lo c)
}.

(** Emitting the range [x] that ends just before [b']. *)
Lemma progress_emit b b' ld lc lo x lc' lo' :
  progress b ld lc lo -> b <= o_first x -> o_first x <= o_last x -> b' = o_last x + 1 -> o_last x <= 127 ->
  sorted_from b' lc' -> sorted_from b' lo' ->
  (forall c, b <= c < b' -> merged (range_lookup lc c) (range_lookup lo c) = range_lookup [x] c) ->
  (forall c, b' <= c -> merged (range_lookup lc' c) (range_lookup lo' c) = merged (range_lookup lc c) (range_lookup lo c)) ->
  progress b' (ld ++ [x]) lc' lo'.
Proof.
  intros [Hb Hd Hs Ho Hg] H1 H2 -> H3 Hs' Ho' Hin Hout. split; [lia| |done|done|].
  - eapply sorted_until_snoc; [exact Hd|lia..].
  - intros c Hc. rewrite (Hg c Hc), range_lookup_app. destruct Hd as [_ Hd].
    destruct (c <? b) eqn:E1, (c <? o_last x + 1) eqn:E2; zbool; try lia.
    + destruct (range_lookup ld c); [done|]. symmetry. cbn [range_lookup].
      destruct ((o_first x <=? c) && _) eqn:Ex; zbool; [lia|done].
    + rewrite (range_lookup_high b ld) by done. apply Hin. lia.
    + symmetry. apply Hout. lia.
Qed.

Ltac lookup_cases :=
  cbn [range_lookup o_first o_last o_data];
  repeat match goal with
  | |- context [(?a <=? ?c) && (?c <=? ?d)] =>
      destruct ((a <=? c) && (c <=? d)) eqn:?; zbool;
      try match goal with H : (_ && _) = false |- _ => apply andb_false_iff in H as [?|?]; zbool end; try lia
  end.

(** The remaining ranges are not reached below their first character. *)
Ltac beyond :=
  repeat match goal with
  | H : sorted_from ?lo ?l |- context [range_lookup ?l ?c] =>
      rewrite (range_lookup_low lo l c H) by lia
  end.

Ltac emit_side :=
  cbn [o_first o_last o_data]; rewrite ?sorted_from_cons; cbn [o_first o_last o_data];
  split_and?; try done; try lia; try (intros c Hc; lookup_cases; beyond; done).

Section Steps.
Context (b : Z) (ld : list (OtherRange D)) (e : OtherRange D) (lc : list (OtherRange D))
  (o : OtherRange E) (lo : list (OtherRange E)).
Hypothesis Hp : progress b ld (e :: lc) (o :: lo).

Lemma progress_skip_self : o_last e < o_first o -> progress (o_last e + 1) (ld ++ [e]) lc (o :: lo).
Proof.
  intros Hlt. destruct (proj1 (sorted_from_cons _ _ _) (pr_self _ _ _ _ Hp)) as (? & ? & ? & Hs). destruct (proj1 (sorted_from_cons _ _ _) (pr_other _ _ _ _ Hp)) as (? & ? & ? & Ho).
  apply (progress_emit b _ _ _ _ _ _ _ Hp); emit_side.
Qed.

Lemma progress_insert_other : o_last o < o_first e ->
  progress (o_last o + 1) (ld ++ [mkOtherRange (o_first o) (o_last o) (convert (o_data o))]) (e :: lc) lo.
Proof.
  intros Hlt. destruct (proj1 (sorted_from_cons _ _ _) (pr_self _ _ _ _ Hp)) as (? & ? & ? & Hs). destruct (proj1 (sorted_from_cons _ _ _) (pr_other _ _ _ _ Hp)) as (? & ? & ? & Ho).
  apply (progress_emit b _ _ _ _ _ _ _ Hp); emit_side.
Qed.

Lemma progress_split_self : o_first e < o_first o -> o_first o <= o_last e ->
  progress (o_first o) (ld ++ [mkOtherRange (o_first e) (o_first o - 1) (o_data e)])
    (mkOtherRange (o_first o) (o_last e) (o_data e) :: lc) (o :: lo).
Proof.
  intros Hlt Hle. destruct (proj1 (sorted_from_cons _ _ _) (pr_self _ _ _ _ Hp)) as (? & ? & ? & Hs). destruct (proj1 (sorted_from_cons _ _ _) (pr_other _ _ _ _ Hp)) as (? & ? & ? & Ho).
  apply (progress_emit b _ _ _ _ _ _ _ Hp); emit_side.
Qed.

Lemma progress_split_other : o_first o < o_first e -> o_first e <= o_last o ->
  progress (o_first e) (ld ++ [mkOtherRange (o_first o) (o_first e - 1) (convert (o_data o))])
    (e :: lc) (mkOtherRange (o_first e) (o_last o) (o_data o) :: lo).
Proof.
  intros Hlt Hle. destruct (proj1 (sorted_from_cons _ _ _) (pr_self _ _ _ _ Hp)) as (? & ? & ? & Hs). destruct (proj1 (sorted_from_cons _ _ _) (pr_other _ _ _ _ Hp)) as (? & ? & ? & Ho).
  apply (progress_emit b _ _ _ _ _ _ _ Hp); emit_side.
Qed.

(** Both ranges start at the same point. *)
Hypothesis Hstart : o_first e = o_first o.

Lemma progress_same_end : o_last e = o_last o ->
  progress (o_last e + 1) (ld ++ [mkOtherRange (o_first e) (o_last e) (extend_data (o_data e) (o_data o))]) lc lo.
Proof.
  intros Heq. destruct (proj1 (sorted_from_cons _ _ _) (pr_self _ _ _ _ Hp)) as (? & ? & ? & Hs). destruct (proj1 (sorted_from_cons _ _ _) (pr_other _ _ _ _ Hp)) as (? & ? & ? & Ho).
  apply (progress_emit b _ _ _ _ _ _ _ Hp); rewrite ?Heq in *; emit_side.
Qed.

Lemma progress_self_longer : o_last o < o_last e ->
  progress (o_last o + 1) (ld ++ [mkOtherRange (o_first e) (o_last o) (extend_data (o_data e) (o_data o))])
    (mkOtherRange (o_last o + 1) (o_last e) (o_data e) :: lc) lo.
Proof.
  intros Hlt. destruct (proj1 (sorted_from_cons _ _ _) (pr_self _ _ _ _ Hp)) as (? & ? & ? & Hs). destruct (proj1 (sorted_from_cons _ _ _) (pr_other _ _ _ _ Hp)) as (? & ? & ? & Ho).
  apply (progress_emit b _ _ _ _ _ _ _ Hp); emit_side.
Qed.

Lemma progress_other_longer : o_last e < o_last o ->
  progress (o_last e + 1) (ld ++ [mkOtherRange (o_first e) (o_last e) (extend_data (o_data e) (o_data o))])
    lc (mkOtherRange (o_last e + 1) (o_last o) (o_data o) :: lo).
Proof.
  intros Hlt. destruct (proj1 (sorted_from_cons _ _ _) (pr_self _ _ _ _ Hp)) as (? & ? & ? & Hs). destruct (proj1 (sorted_from_cons _ _ _) (pr_other _ _ _ _ Hp)) as (? & ? & ? & Ho).
  apply (progress_emit b _ _ _ _ _ _ _ Hp); emit_side.
Qed.
End Steps.

Lemma effective_0 others : effective others 0 = others.
Proof. destruct others as [|[f l d] others]; simpl; [done|]. by rewrite Z.add_0_r. Qed.

(** The invariant of the merging loop, with the number of ranges left. *)
Definition loop_inv (n : nat) (st : ExtendState (D := D) (E := E)) : Prop :=
  exists b di ci ld lc,
    represents (es_ranges st) (di ++ ci) (ld ++ lc) /\ length di = length ld
    /\ lastSelfRangeIndex st = default 0 (last di) /\ selfRangeIndex st = default 0 (head ci)
    /\ reachedSelfEnd st = bool_decide (ci = [])
    /\ progress b ld lc (effective (otherIterator st) (otherRangeOffset st))
    /\ Forall (λ o, 0 <= o_first o <= 127) (otherIterator st)
    /\ (length lc + length (otherIterator st) <= n)%nat.

Lemma progress_bounds b ld e lc o lo : progress b ld (e :: lc) (o :: lo) ->
  0 <= b /\ b <= o_first e <= o_last e /\ o_last e <= 127 /\ b <= o_first o <= o_last o /\ o_last o <= 127.
Proof.
  intros Hp. destruct (proj1 (sorted_from_cons _ _ _) (pr_self _ _ _ _ Hp)) as (? & ? & ? & _).
  destruct (proj1 (sorted_from_cons _ _ _) (pr_other _ _ _ _ Hp)) as (? & ? & ? & _).
  pose proof (pr_bound _ _ _ _ Hp). lia.
Qed.

(** Moving the cursor behind the element it is at. *)
Lemma next_is_end (v : list (MutableRange D)) di s ci ld e lc :
  represents v (di ++ s :: ci) (ld ++ e :: lc) -> (default 0 (head ci) =? 0) = bool_decide (ci = []).
Proof.
  intros [_ Hnd Hh _]. destruct ci as [|j ci]; [done|]. rewrite bool_decide_false by done. apply Z.eqb_neq.
  simpl. intros ->. destruct di as [|d di]; simpl in *; specialize (Hh ltac:(done)); simplify_eq.
  - apply NoDup_cons in Hnd as [Hn _]. apply Hn. left.
  - apply NoDup_cons in Hnd as [Hn _]. apply Hn. apply elem_of_app. right. right. left.
Qed.

Lemma cursor_step (v : list (MutableRange D)) di s ci ld e lc :
  represents v (di ++ s :: ci) (ld ++ e :: lc) ->
  represents v ((di ++ [s]) ++ ci) ((ld ++ [e]) ++ lc) /\ default 0 (last (di ++ [s])) = s.
Proof. rewrite <- !app_assoc, last_snoc. done. Qed.

Lemma overlap_inv n b v di s ci ld e lc o others offset :
  represents v (di ++ s :: ci) (ld ++ e :: lc) -> length di = length ld ->
  progress b ld (e :: lc) (effective (o :: others) offset) -> o_first e = o_first o + offset ->
  Forall (λ o, 0 <= o_first o <= 127) (o :: others) -> (length lc + length others < n)%nat ->
  exists st', extendOverlap extend_data v (default 0 (last di)) s o others offset = Some st' /\ loop_inv n st'.
Proof.
  intros HR Hlen Hp Hst Hpos Hn. cbn [effective] in Hp. pose proof (progress_bounds _ _ _ _ _ _ Hp) as Hb.
  cbn [o_first o_last] in Hb. apply Forall_cons in Hpos as Hpos'. destruct Hpos' as [Hpos0 Hpos1].
  pose proof (next_is_end _ _ _ _ _ _ _ HR) as Hend. unfold extendOverlap.
  destruct (represents_update v di s ci ld e lc (mkOtherRange (o_first e) (o_last e)
    (extend_data (o_data e) (o_data o))) HR Hlen) as [Hat (v1 & Hset1 & HR1)].
  rewrite Hat. cbn [mbind option_bind linked_range mr_first mr_last mr_data nextRangeIndex].
  unfold linked_range in Hset1. cbn [o_first o_last o_data] in Hset1.
  assert (setData v s (extend_data (o_data e) (o_data o)) = Some v1) as Hsd.
  { unfold setData. rewrite Hat. done. }
  destruct (cursor_step _ _ _ _ _ _ _ HR1) as [HRn Hlast].
  destruct (o_last e =? o_last o) eqn:E1; zbool.
  - rewrite Hsd. cbn [mbind option_bind]. eexists. split; [done|].
    exists (o_last e + 1), (di ++ [s]), ci, (ld ++ [mkOtherRange (o_first e) (o_last e)
      (extend_data (o_data e) (o_data o))]), lc.
    cbn [es_ranges lastSelfRangeIndex selfRangeIndex reachedSelfEnd otherIterator otherRangeOffset].
    rewrite effective_0, !length_app. split_and!; try done; try (simpl; lia).
    by apply (progress_same_end _ _ _ _ _ _ Hp).
  - destruct (o_last o <? o_last e) eqn:E2; zbool.
    + rewrite (swrap_small 8) by lia.
      destruct (represents_update v di s ci ld e lc (mkOtherRange (o_last o + 1) (o_last e) (o_data e)) HR Hlen)
        as [_ (v2 & Hset2 & HR2)].
      assert (setFirst v s (o_last o + 1) = Some v2) as -> by (unfold setFirst; rewrite Hat; done).
      cbn [mbind option_bind].
      destruct (insertBetween_spec v2 di s ci ld _ lc (o_first e) (o_last o) (extend_data (o_data e) (o_data o)) HR2 Hlen)
        as (v3 & di' & s' & -> & HR3 & Hlen3). cbn [mbind option_bind]. eexists. split; [done|].
      exists (o_last o + 1), di', (s' :: ci), (ld ++ [mkOtherRange (o_first e) (o_last o)
        (extend_data (o_data e) (o_data o))]), (mkOtherRange (o_last o + 1) (o_last e) (o_data e) :: lc).
      cbn [es_ranges lastSelfRangeIndex selfRangeIndex reachedSelfEnd otherIterator otherRangeOffset].
      rewrite effective_0. split_and!; try done; try (simpl; lia).
      by apply (progress_self_longer _ _ _ _ _ _ Hp).
    + rewrite Hsd. cbn [mbind option_bind]. rewrite (swrap_small 8) by lia. eexists. split; [done|].
      exists (o_last e + 1), (di ++ [s]), ci, (ld ++ [mkOtherRange (o_first e) (o_last e)
        (extend_data (o_data e) (o_data o))]), lc.
      cbn [es_ranges lastSelfRangeIndex selfRangeIndex reachedSelfEnd otherIterator otherRangeOffset].
      rewrite !length_app. split_and!; try done; try (simpl; lia). cbn [effective].
      replace (o_first o + (o_last e - o_first o + 1)) with (o_last e + 1) by lia.
      apply (progress_other_longer _ _ _ _ _ _ Hp); [done|simpl; lia].
Qed.

Lemma extendStep_inv n st : loop_inv (S n) st -> reachedSelfEnd st = false -> otherIterator st <> [] ->
  exists st', extendStep convert extend_data st = Some st' /\ loop_inv n st'.
Proof.
  intros (b & di & ci & ld & lc & HR & Hlen & Hl & Hs & Hre & Hp & Hpos & Hn) Hne Hoth.
  rewrite Hre in Hne. apply bool_decide_eq_false in Hne. destruct ci as [|s ci]; [done|].
  destruct lc as [|e lc].
  { pose proof (segment_length _ _ _ _ (rep_segment _ _ _ HR)) as H1. rewrite !length_app in H1. simpl in H1. lia. }
  unfold extendStep. destruct (otherIterator st) as [|o others] eqn:Eo; [done|]. rewrite Hl, Hs. change (default 0 (head (s :: ci))) with s.
  cbn [effective] in Hp. pose proof (progress_bounds _ _ _ _ _ _ Hp) as Hb. cbn [o_first o_last] in Hb.
  set (off := otherRangeOffset st) in *. apply Forall_cons in Hpos as Hpos'. destruct Hpos' as [Hpos0 Hpos1].
  destruct (represents_update (es_ranges st) di s ci ld e lc (mkOtherRange (o_first o + off) (o_last e) (o_data e)) HR Hlen)
    as [Hat (v1 & Hset1 & HR1)]. simpl length in Hn.
  rewrite Hat. cbn [mbind option_bind linked_range mr_first mr_last mr_data nextRangeIndex].
  destruct (o_last e <? o_first o + off) eqn:E1; zbool.
  { eexists. split; [done|]. destruct (cursor_step _ _ _ _ _ _ _ HR) as [HRn Hlast].
    exists (o_last e + 1), (di ++ [s]), ci, (ld ++ [e]), lc.
    cbn [es_ranges lastSelfRangeIndex selfRangeIndex reachedSelfEnd otherIterator otherRangeOffset].
    rewrite !length_app. split_and!; try done; try (simpl; lia).
    - by eapply next_is_end.
    - by apply (progress_skip_self _ _ _ _ _ _ Hp). }
  destruct (o_last o <? o_first e) eqn:E2; zbool.
  { rewrite (swrap_small 8) by lia.
    destruct (insertBetween_spec (es_ranges st) di s ci ld e lc (o_first o + off) (o_last o) (convert (o_data o)) HR Hlen)
      as (v3 & di' & s' & -> & HR3 & Hlen3). cbn [mbind option_bind]. eexists. split; [done|].
    exists (o_last o + 1), di', (s' :: ci), (ld ++ [mkOtherRange (o_first o + off) (o_last o) (convert (o_data o))]), (e :: lc).
    cbn [es_ranges lastSelfRangeIndex selfRangeIndex reachedSelfEnd otherIterator otherRangeOffset].
    rewrite effective_0. split_and!; try done; try (simpl; lia).
    by apply (progress_insert_other _ _ _ _ _ _ Hp). }
  destruct (o_first e <? o_first o + off) eqn:E3; zbool.
  { rewrite (swrap_small 8 (o_first o + off)), (swrap_small 8 (o_first o + off - 1)) by lia.
    assert (setFirst (es_ranges st) s (o_first o + off) = Some v1) as -> by (unfold setFirst; rewrite Hat; done).
    cbn [mbind option_bind].
    destruct (insertBetween_spec v1 di s ci ld _ lc (o_first e) (o_first o + off - 1) (o_data e) HR1 Hlen)
      as (v3 & di' & s' & -> & HR3 & Hlen3). cbn [mbind option_bind].
    eapply overlap_inv; [exact HR3|exact Hlen3| |done|done|lia].
    exact (progress_split_self _ _ _ _ _ _ Hp E3 E1). }
  destruct (o_first o + off <? o_first e) eqn:E4; zbool.
  { rewrite (swrap_small 8 (o_first o + off)), (swrap_small 8 (o_first e - 1)) by lia.
    destruct (insertBetween_spec (es_ranges st) di s ci ld e lc (o_first o + off) (o_first e - 1) (convert (o_data o)) HR Hlen)
      as (v3 & di' & s' & -> & HR3 & Hlen3). cbn [mbind option_bind].
    destruct (represents_update _ _ _ _ _ _ _ e HR3 Hlen3) as [Hat3 _]. rewrite Hat3.
    cbn [mbind option_bind linked_range mr_first]. rewrite (swrap_small 8) by lia.
    eapply overlap_inv; [exact HR3|exact Hlen3| |lia|done|lia]. cbn [effective].
    replace (o_first o + (o_first e - o_first o)) with (o_first e) by lia.
    exact (progress_split_other _ _ _ _ _ _ Hp E4 E2). }
  eapply overlap_inv; [exact HR|exact Hlen|exact Hp|lia|done|lia].
Qed.

Lemma extendLoop_inv n fuel st :
  loop_inv n st -> reachedSelfEnd st = false -> otherIterator st <> [] -> (n <= fuel)%nat ->
  exists st', extendLoop convert extend_data fuel st = Some st' /\ loop_inv n st'
    /\ (reachedSelfEnd st' = true \/ otherIterator st' = []).
Proof.
  revert fuel st. induction n as [|n IH]; intros fuel st HI Hre Hoth Hf.
  { destruct HI as (b & di & ci & ld & lc & _ & _ & _ & _ & _ & _ & _ & Hn). destruct (otherIterator st); [done|].
    simpl in Hn. lia. }
  destruct fuel as [|fuel]; [lia|]. cbn [extendLoop].
  destruct (extendStep_inv n st HI Hre Hoth) as (st1 & -> & HI1). cbn [mbind option_bind].
  assert (loop_inv (S n) st1) as HI1'.
  { destruct HI1 as (b & di & ci & ld & lc & H). exists b, di, ci, ld, lc. intuition lia. }
  destruct (reachedSelfEnd st1) eqn:E1; [exists st1; eauto|].
  destruct (otherIterator st1) as [|o1 others1] eqn:E2; [exists st1; eauto|].
  destruct (IH fuel st1 HI1 E1) as (st' & -> & HI' & Hend); [by rewrite E2|lia|].
  exists st'. split_and!; [done| |done].
  destruct HI' as (b & di & ci & ld & lc & H). exists b, di, ci, ld, lc. intuition lia.
Qed.

Lemma progress_append b ld o lo : progress b ld [] (o :: lo) ->
  progress (o_last o + 1) (ld ++ [mkOtherRange (o_first o) (o_last o) (convert (o_data o))]) [] lo.
Proof.
  intros Hp. destruct (proj1 (sorted_from_cons _ _ _) (pr_other _ _ _ _ Hp)) as (? & ? & ? & Ho).
  apply (progress_emit b _ _ _ _ _ _ _ Hp); emit_side.
Qed.

Lemma extendAppend_spec others offset b v idx ld :
  represents v idx ld -> progress b ld [] (effective others offset) ->
  exists v' idx' l', extendAppend convert v (default 0 (last idx)) others offset = Some v'
    /\ represents v' idx' l' /\ exists b', progress b' l' [] [].
Proof.
  revert offset b v idx ld. induction others as [|o others IH]; intros offset b v idx ld HR Hp; cbn [extendAppend].
  { exists v, idx, ld. eauto. }
  cbn [effective] in Hp. destruct (proj1 (sorted_from_cons _ _ _) (pr_other _ _ _ _ Hp)) as (H1 & H2 & H3 & Ho).
  pose proof (pr_bound _ _ _ _ Hp). cbn [o_first o_last] in *. rewrite (swrap_small 8) by lia.
  destruct (appendRange_spec v idx ld (o_first o + offset) (o_last o) (convert (o_data o)) HR) as (v1 & idx1 & -> & HR1).
  cbn [mbind option_bind]. apply progress_append in Hp. eapply (IH 0); [exact HR1|]. rewrite effective_0. exact Hp.
Qed.

(** The finished list. *)
Lemma progress_done b ld lc : progress b ld lc [] ->
  sorted_from 0 (ld ++ lc) /\ forall c, 0 <= c <= 127 -> range_lookup (ld ++ lc) c = goal c.
Proof.
  intros [Hb [Hs Hd] Hc _ Hg]. split.
  - rewrite sorted_from_app. split_and!; [done|by eapply sorted_from_weaken|].
    eapply Forall_impl; [exact Hd|]. intros r Hr. eapply sorted_from_weaken; [|exact Hc]. simpl in Hr. lia.
  - intros c Hcb. rewrite (Hg c Hcb), range_lookup_app. destruct (c <? b) eqn:E1; zbool.
    + rewrite (range_lookup_low b lc) by done. by destruct (range_lookup ld c).
    + rewrite (range_lookup_high b ld) by done. simpl. by destruct (range_lookup lc c).
Qed.
End Merge.

(** ** The theorem *)

Section Extend.
Context {D E : Type} (convert : E -> D) (extend_data : D -> E -> D).

Lemma initializeFrom_segment k others (w : list (MutableRange D)) :
  vec_size w = k ->
  segment (w ++ initializeFrom_loop convert k others) (seqZ k (vec_size others))
    ((λ o, mkOtherRange (o_first o) (o_last o) (convert (o_data o))) <$> others) (k + vec_size others).
Proof.
  revert k w. induction others as [|o others IH]; intros k w Hk.
  { done. }
  replace (vec_size (o :: others)) with (Z.succ (vec_size others)) by (unfold vec_size; simpl; lia).
  pose proof (vec_size_nonneg others). rewrite seqZ_cons by lia. rewrite Z.pred_succ.
  cbn [initializeFrom_loop]. rewrite fmap_cons. cbn [segment]. split.
  - rewrite <- Hk, vec_at_middle. unfold linked_range.
    cbn [o_data o_first o_last]. do 2 f_equal. destruct others as [|o' others].
    + change (vec_size (@nil (OtherRange E))) with 0. simpl. lia.
    + replace (vec_size (o' :: others)) with (Z.succ (vec_size others)) by (unfold vec_size; simpl; lia).
      pose proof (vec_size_nonneg others). rewrite seqZ_cons by lia. simpl. lia.
  - specialize (IH (k + 1) (w ++ [mkMutableRange (convert (o_data o)) (k + 1) (o_first o) (o_last o)])).
    rewrite <- app_assoc in IH. simpl in IH. replace (k + Z.succ (vec_size others)) with (k + 1 + vec_size others) by lia.
    replace (Z.succ k) with (k + 1) by lia. apply IH. rewrite vec_size_app, Hk. done.
Qed.

Lemma length_initializeFrom k (others : list (OtherRange E)) :
  length (initializeFrom_loop convert k others) = length others.
Proof. revert k. induction others; intros; simpl; auto. Qed.

Lemma initializeFrom_spec others : others <> [] ->
  exists v idx, initializeFrom convert others = Some v
    /\ represents v idx ((λ o, mkOtherRange (o_first o) (o_last o) (convert (o_data o))) <$> others).
Proof.
  intros Hne. unfold initializeFrom.
  pose proof (initializeFrom_segment 0 others [] eq_refl) as Hseg. simpl in Hseg.
  set (w := initializeFrom_loop convert 0 others) in *.
  assert (vec_size w = vec_size others) as Hsz by (unfold vec_size, w; by rewrite length_initializeFrom).
  assert (0 < vec_size others) as Hpos by (destruct others; [done|unfold vec_size; simpl; lia]).
  assert (NoDup (seqZ 0 (vec_size others))) as Hnd by apply NoDup_seqZ.
  assert (seqZ 0 (vec_size others) <> []) as Hsne.
  { intros Heq. apply (f_equal length) in Heq. rewrite length_seqZ in Heq. simpl in Heq. lia. }
  destruct (segment_last _ _ _ _ Hseg Hsne) as (i & e & Hi & He & Hat).
  assert (i = vec_size others - 1) as ->.
  { rewrite last_lookup, length_seqZ in Hi. apply lookup_seqZ in Hi. lia. }
  unfold setNext. rewrite Hsz, Hat. cbn [mbind option_bind linked_range mr_data mr_first mr_last].
  destruct (vec_set_is_Some w (vec_size others - 1) (linked_range e 0)) as [v Hv]; [lia|].
  exists v, (seqZ 0 (vec_size others)). split; [exact Hv|]. split.
  - apply (segment_relink w v _ _ _ 0 _ e Hseg Hnd Hi He). intros j. by apply vec_set_spec.
  - done.
  - intros _. by rewrite seqZ_cons by lia.
  - rewrite length_seqZ. apply vec_set_size in Hv. unfold vec_size in *. lia.
Qed.

Lemma convert_lookup others c :
  range_lookup ((λ o : OtherRange E, mkOtherRange (o_first o) (o_last o) (convert (o_data o))) <$> others) c
  = convert <$> range_lookup others c.
Proof. induction others as [|o others IH]; simpl; [done|]. by destruct ((o_first o <=? c) && _). Qed.

Lemma convert_sorted lo others : sorted_from lo others ->
  sorted_from lo ((λ o : OtherRange E, mkOtherRange (o_first o) (o_last o) (convert (o_data o))) <$> others).
Proof. revert lo. induction others as [|o others IH]; intros lo; simpl; [done|]. intros (? & ? & ? & ?). auto. Qed.

Lemma extend_sound v idx l others :
  represents v idx l -> sorted_from 0 l -> sorted_from 0 others ->
  exists v' idx' l', extend convert extend_data v others = Some v' /\ represents v' idx' l' /\ sorted_from 0 l'
    /\ forall c, 0 <= c <= 127 ->
         range_lookup l' c = merged convert extend_data (range_lookup l c) (range_lookup others c).
Proof.
  intros HR Hs Ho. pose proof (segment_length _ _ _ _ (rep_segment _ _ _ HR)) as Hlen.
  pose proof (rep_length _ _ _ HR) as Hlen'. unfold extend.
  destruct others as [|o others].
  { exists v, idx, l. split_and!; try done. intros c _. simpl. by destruct (range_lookup l c). }
  destruct v as [|r0 v].
  { destruct idx; [|done]. destruct l; [|done]. destruct (initializeFrom_spec (o :: others)) as (v & idx & Hv & Hr); [done|].
    eexists v, idx, _. split_and!; [exact Hv|exact Hr|by apply convert_sorted|].
    intros c _. rewrite convert_lookup. by destruct (range_lookup (o :: others) c). }
  set (goal := λ c, merged convert extend_data (range_lookup l c) (range_lookup (o :: others) c)).
  destruct (extendLoop_inv convert extend_data goal (length (r0 :: v) + length (o :: others))
    (length (r0 :: v) + length (o :: others)) (mkExtendState (r0 :: v) false 0 0 (o :: others) 0))
    as (st & -> & HI & Hend); [|done|done|lia|].
  { exists 0, [], idx, [], l. cbn [es_ranges lastSelfRangeIndex selfRangeIndex reachedSelfEnd otherIterator otherRangeOffset].
    rewrite effective_0. assert (idx <> []) as Hne by (intros ->; done). split_and!; try done.
    - by rewrite (rep_head _ _ _ HR Hne).
    - by rewrite bool_decide_false.
    - split; try done. intros c Hc. destruct (c <? 0) eqn:Ec; zbool; [lia|done].
    - eapply Forall_impl; [exact (sorted_from_Forall _ _ Ho)|]. simpl. lia.
    - lia. }
  cbn [mbind option_bind]. destruct HI as (b & di & ci & ld & lc & HR' & Hl' & Hlast & _ & Hre & Hp & Hpos & _).
  pose proof (segment_length _ _ _ _ (rep_segment _ _ _ HR')) as Hln. rewrite !length_app in Hln.
  destruct Hend as [Hend|Hend].
  - rewrite Hre in Hend. apply bool_decide_eq_true in Hend as ->. destruct lc; [|simpl in Hln; lia].
    rewrite !app_nil_r in *. rewrite Hlast.
    destruct (extendAppend_spec convert extend_data goal _ _ _ _ _ _ HR' Hp) as (v' & idx' & l' & -> & HR'' & b' & Hp').
    exists v', idx', l'. apply progress_done in Hp'. rewrite app_nil_r in Hp'. split_and!; [done|done|apply Hp'|apply Hp'].
  - rewrite Hend in *. cbn [extendAppend effective] in *. exists (es_ranges st), (di ++ ci), (ld ++ lc).
    apply progress_done in Hp as [? ?]. done.
Qed.

(** Iterating over the list visits its ranges in order. *)
Lemma ranges_in_order_spec (v : list (MutableRange D)) idx l : represents v idx l ->
  exists rs, ranges_in_order v = Some rs
    /\ (λ r, mkOtherRange (mr_first r) (mr_last r) (mr_data r)) <$> rs = l.
Proof.
  intros [Hseg Hnd Hh Hlen]. unfold ranges_in_order. destruct v as [|r0 v].
  { destruct idx; [|done]. destruct l; [|done]. by exists []. }
  destruct idx as [|i idx]; [done|]. injection (Hh ltac:(done)) as ->. rewrite <- Hlen. clear Hh Hlen.
  assert (0 ∉ idx) as Hn0 by (by apply NoDup_cons in Hnd as [? _]).
  enough (forall idx i l, segment (r0 :: v) (i :: idx) l 0 -> 0 ∉ idx ->
    exists rs, iterate (length (i :: idx)) (r0 :: v) i = Some rs
      /\ (λ r, mkOtherRange (mr_first r) (mr_last r) (mr_data r)) <$> rs = l) as Hgen by (by apply Hgen).
  clear. induction idx as [|j idx IH]; intros i [|e l] Hs Hn; try done; destruct Hs as [H1 H2].
  - destruct l; [|done]. cbn [length iterate]. rewrite H1. simpl. eexists. split; [done|]. simpl. by destruct e.
  - rewrite not_elem_of_cons in Hn. destruct Hn as [Hj Hn]. destruct (IH j l H2 Hn) as (rs & Hrs & Hl).
    change (length (i :: j :: idx)) with (S (length (j :: idx))). cbn [iterate]. rewrite H1.
    change (default 0 (head (j :: idx))) with j. cbn [mbind option_bind linked_range nextRangeIndex].
    destruct (j =? 0) eqn:E0; zbool; [congruence|]. rewrite Hrs. cbn [mbind option_bind]. eexists. split; [done|].
    rewrite fmap_cons, Hl. by destruct e.
Qed.
End Extend.

(** The ranges of a list, in order. *)
Definition contents {D} (v : list (MutableRange D)) : option (list (OtherRange D)) :=
  match ranges_in_order v with
  | Some rs => Some ((λ r, mkOtherRange (mr_first r) (mr_last r) (mr_data r)) <$> rs)
  | None => None
  end.

Lemma represents_contents {D} (v : list (MutableRange D)) idx l : represents v idx l -> contents v = Some l.
Proof.
  intros HR. unfold contents. destruct (ranges_in_order_spec v idx l HR) as (rs & -> & Hl). by rewrite Hl.
Qed.

Lemma represents_nil {D} : represents (D := D) [] [] [].
Proof. split; try done. constructor. Qed.

(** [extend] terminates within one iteration per range of the two lists,
    never indexes outside the vector, leaves a list whose links visit sorted
    disjoint ranges, and that list has for every character the data that both
    lists have for it, merged. *)
Theorem extend_correct {D E} (convert : E -> D) (extend_data : D -> E -> D) v idx l others :
  represents v idx l -> sorted_from 0 l -> sorted_from 0 others ->
  exists v' idx' l', extend convert extend_data v others = Some v' /\ represents v' idx' l'
    /\ contents v' = Some l' /\ sorted_from 0 l'
    /\ forall c, 0 <= c <= 127 ->
         range_lookup l' c = merged convert extend_data (range_lookup l c) (range_lookup others c).
Proof.
  intros HR Hs Ho. destruct (extend_sound convert extend_data v idx l others HR Hs Ho)
    as (v' & idx' & l' & ? & HR' & ? & ?).
  exists v', idx', l'. split_and!; try done. by eapply represents_contents.
Qed.

Lemma extend_correct_witness :
  exists v', extend (λ e, [e]) (λ d e, e :: d) [mkMutableRange [1] 0 10 20] [mkOtherRange 15 30 2] = Some v'
    /\ contents v' = Some [mkOtherRange 10 14 [1]; mkOtherRange 15 20 [2; 1]; mkOtherRange 21 30 [2]].
Proof.
  destruct (extend_correct (λ e, [e]) (λ d e, e :: d) [mkMutableRange [1] 0 10 20] [0] [mkOtherRange 10 20 [1]]
    [mkOtherRange 15 30 2]) as (v' & idx' & l' & He & _ & Hc & _).
  - split; [split; [reflexivity|exact I]|apply NoDup_singleton|reflexivity|reflexivity].
  - simpl. lia.
  - simpl. lia.
  - exists v'. split; [exact He|]. vm_compute in He. injection He as <-. vm_compute. reflexivity.
Defined.
