(* ===== verification/NFA.v ===== *)
(** * Nondeterministic automata and their builder

    Models [ImmutableNFA.h], [ImmutableNFANodeBuilder.h] and [NFA.h] of
    [src/Source/WebCore/contentextensions/].  An NFA keeps the character
    transitions, their targets, the epsilon transitions and the actions of all
    nodes in flat vectors; a builder collects one node and appends its parts
    to the vectors when it is finalized. *)

From stdpp Require Import base numbers option list list_numbers gmap sets.
From Stdlib Require Import ZArith Lia.
From S2P Require Import Prelude.
From S2P Require Import MutableRangeList.

(** ** Hash sets

    A [HashSet] of integers is a [gset Z]; the order in which an iterator visits
    it is not specified, and every theorem holds for any order. *)

Class HashOrder := {
  iteration : gset Z -> list Z;
  iteration_perm X : iteration X ≡ₚ elements X
}.

#[export] Instance elements_order : HashOrder := {| iteration := elements; iteration_perm X := reflexivity _ |}.

Lemma elem_of_iteration `{HashOrder} X x : x ∈ iteration X <-> x ∈ X.
Proof. by rewrite iteration_perm, elem_of_elements. Qed.

(** ** Data *)

Record ImmutableRange := mkImmutableRange {
  targetStart : Z; targetEnd : Z; ir_first : Z; ir_last : Z
}.

Record ImmutableNFANode := mkImmutableNFANode {
  rangesStart : Z;
  rangesEnd : Z;
  epsilonTransitionTargetsStart : Z;
  epsilonTransitionTargetsEnd : Z;
  actionStart : Z;
  actionEnd : Z
}.

Definition emptyNFANode : ImmutableNFANode := mkImmutableNFANode 0 0 0 0 0 0.

Record NFA := mkNFA {
  nfa_nodes : list ImmutableNFANode;
  nfa_transitions : list ImmutableRange;
  nfa_targets : list Z;
  epsilonTransitionsTargets : list Z;
  nfa_actions : list Z
}.

(** The elements from [first] to [last - 1] of a vector. *)
Definition slice {A} (v : list A) (first last : Z) : option (list A) :=
  mapM (vec_at v) (seqZ first (last - first)).

(** What the iterator over [transitionsForNode] yields: [first()], [last()] and
    the targets that [data()] iterates over. *)
Definition transitionsForNode (nfa : NFA) (nodeId : Z) : option (list (OtherRange (list Z))) :=
  node ← vec_at (nfa_nodes nfa) nodeId;
  ranges ← slice (nfa_transitions nfa) (rangesStart node) (rangesEnd node);
  mapM (λ r, targets ← slice (nfa_targets nfa) (targetStart r) (targetEnd r);
             Some (mkOtherRange (ir_first r) (ir_last r) targets)) ranges.

Definition epsilonTargets (nfa : NFA) (nodeId : Z) : option (list Z) :=
  node ← vec_at (nfa_nodes nfa) nodeId;
  slice (epsilonTransitionsTargets nfa) (epsilonTransitionTargetsStart node) (epsilonTransitionTargetsEnd node).

Definition actionsOfNode (nfa : NFA) (nodeId : Z) : option (list Z) :=
  node ← vec_at (nfa_nodes nfa) nodeId;
  slice (nfa_actions nfa) (actionStart node) (actionEnd node).

(** [root()]; the release assertion fails on an empty NFA. *)
Definition nfa_root (nfa : NFA) : option Z :=
  match nfa_nodes nfa with [] => None | _ => Some 0 end.

(** ** The builder *)

Record NodeBuilder := mkNodeBuilder {
  m_ranges : list (MutableRange (gset Z));
  m_epsilonTransitionTargets : gset Z;
  m_actions : gset Z;
  m_nodeId : Z
}.

(** The constructor appends an empty node. *)
Definition newBuilder (nfa : NFA) : NFA * NodeBuilder :=
  (mkNFA (nfa_nodes nfa ++ [emptyNFANode]) (nfa_transitions nfa) (nfa_targets nfa)
     (epsilonTransitionsTargets nfa) (nfa_actions nfa),
   mkNodeBuilder [] ∅ ∅ (vec_size (nfa_nodes nfa))).

(** The [Converter] of [addTransition]. *)
Definition builder_convert (target : Z) : gset Z := {[ target ]}.
Definition builder_extend (existingTargets : gset Z) (target : Z) : gset Z := {[ target ]} ∪ existingTargets.

Definition addTransition (b : NodeBuilder) (first last targetNodeId : Z) : option NodeBuilder :=
  ranges ← extend builder_convert builder_extend (m_ranges b) [mkOtherRange first last targetNodeId];
  Some (mkNodeBuilder ranges (m_epsilonTransitionTargets b) (m_actions b) (m_nodeId b)).

Definition addEpsilonTransition (b : NodeBuilder) (targetNodeId : Z) : NodeBuilder :=
  mkNodeBuilder (m_ranges b) ({[ targetNodeId ]} ∪ m_epsilonTransitionTargets b) (m_actions b) (m_nodeId b).

Definition builder_setActions (b : NodeBuilder) (actions : list Z) : NodeBuilder :=
  mkNodeBuilder (m_ranges b) (m_epsilonTransitionTargets b) (list_to_set actions ∪ m_actions b) (m_nodeId b).

Section Builder.
Context `{HashOrder}.

(** The three parts of [finalize], each returning the NFA and the node. *)
Definition sinkActions (b : NodeBuilder) (nfa : NFA) (node : ImmutableNFANode) : NFA * ImmutableNFANode :=
  let start := vec_size (nfa_actions nfa) in
  let actions := nfa_actions nfa ++ iteration (m_actions b) in
  (mkNFA (nfa_nodes nfa) (nfa_transitions nfa) (nfa_targets nfa) (epsilonTransitionsTargets nfa) actions,
   mkImmutableNFANode (rangesStart node) (rangesEnd node) (epsilonTransitionTargetsStart node)
     (epsilonTransitionTargetsEnd node) start (vec_size actions)).

Definition sinkEpsilonTransitions (b : NodeBuilder) (nfa : NFA) (node : ImmutableNFANode) : NFA * ImmutableNFANode :=
  let start := vec_size (epsilonTransitionsTargets nfa) in
  let targets := epsilonTransitionsTargets nfa ++ iteration (m_epsilonTransitionTargets b) in
  (mkNFA (nfa_nodes nfa) (nfa_transitions nfa) (nfa_targets nfa) targets (nfa_actions nfa),
   mkImmutableNFANode (rangesStart node) (rangesEnd node) start (vec_size targets) (actionStart node) (actionEnd node)).

(** The loop over the ranges, on the vectors of transitions and targets. *)
Fixpoint sinkRanges (transitions : list ImmutableRange) (targets : list Z) (ranges : list (MutableRange (gset Z)))
    : list ImmutableRange * list Z :=
  match ranges with
  | [] => (transitions, targets)
  | range :: ranges =>
      let targetsStart := vec_size targets in
      let targets := targets ++ iteration (mr_data range) in
      sinkRanges (transitions ++ [mkImmutableRange targetsStart (vec_size targets) (mr_first range) (mr_last range)])
        targets ranges
  end.

Definition sinkTransitions (b : NodeBuilder) (nfa : NFA) (node : ImmutableNFANode) : option (NFA * ImmutableNFANode) :=
  let start := vec_size (nfa_transitions nfa) in
  ranges ← ranges_in_order (m_ranges b);
  let '(transitions, targets) := sinkRanges (nfa_transitions nfa) (nfa_targets nfa) ranges in
  Some (mkNFA (nfa_nodes nfa) transitions targets (epsilonTransitionsTargets nfa) (nfa_actions nfa),
        mkImmutableNFANode start (vec_size transitions) (epsilonTransitionTargetsStart node)
          (epsilonTransitionTargetsEnd node) (actionStart node) (actionEnd node)).

(** [finalize], run by the destructor of the builder. *)
Definition finalize (b : NodeBuilder) (nfa : NFA) : option NFA :=
  node ← vec_at (nfa_nodes nfa) (m_nodeId b);
  let '(nfa, node) := sinkActions b nfa node in
  let '(nfa, node) := sinkEpsilonTransitions b nfa node in
  '(nfa, node) ← sinkTransitions b nfa node;
  nodes ← vec_set (nfa_nodes nfa) (m_nodeId b) node;
  Some (mkNFA nodes (nfa_transitions nfa) (nfa_targets nfa) (epsilonTransitionsTargets nfa) (nfa_actions nfa)).

End Builder.

(** ** Slices *)

Lemma slice_app_l {A} (v w x : list A) a b : slice v a b = Some x -> slice (v ++ w) a b = Some x.
Proof.
  unfold slice. rewrite !mapM_Some. intros H. eapply Forall2_impl; [exact H|].
  intros i y Hy. rewrite vec_at_app_l; [done|]. apply vec_at_bound in Hy; lia.
Qed.

Lemma slice_new {A} (v w u : list A) : slice (v ++ w ++ u) (vec_size v) (vec_size (v ++ w)) = Some w.
Proof.
  unfold slice. rewrite vec_size_app. replace (vec_size v + vec_size w - vec_size v) with (vec_size w) by lia.
  apply mapM_Some. revert v. induction w as [|x w IH]; intros v; [constructor|].
  replace (vec_size (x :: w)) with (Z.succ (vec_size w)) by (unfold vec_size; simpl; lia).
  pose proof (vec_size_nonneg w). rewrite seqZ_cons by lia. constructor.
  - apply vec_at_middle.
  - rewrite Z.pred_succ. specialize (IH (v ++ [x])). rewrite vec_size_app, <- app_assoc in IH. exact IH.
Qed.

Lemma slice_new' {A} (v w : list A) : slice (v ++ w) (vec_size v) (vec_size (v ++ w)) = Some w.
Proof. pose proof (slice_new v w []) as H. by rewrite app_nil_r in H. Qed.

(** ** What [finalize] does *)

Section BuilderProofs.
Context `{HashOrder}.

(** A range of the builder as the finished NFA has it. *)
Definition sunk (e : OtherRange (gset Z)) : OtherRange (list Z) :=
  mkOtherRange (o_first e) (o_last e) (iteration (o_data e)).

Definition read_range (targets : list Z) (r : ImmutableRange) : option (OtherRange (list Z)) :=
  ts ← slice targets (targetStart r) (targetEnd r); Some (mkOtherRange (ir_first r) (ir_last r) ts).

Lemma read_range_app targets more r x : read_range targets r = Some x -> read_range (targets ++ more) r = Some x.
Proof.
  unfold read_range. destruct (slice targets (targetStart r) (targetEnd r)) as [ts|] eqn:E; [|done].
  by rewrite (slice_app_l _ _ _ _ _ E).
Qed.

Lemma sinkRanges_spec transitions targets ranges :
  exists newTransitions newTargets, sinkRanges transitions targets ranges = (transitions ++ newTransitions, targets ++ newTargets)
    /\ mapM (read_range (targets ++ newTargets)) newTransitions =
       Some ((λ r, sunk (mkOtherRange (mr_first r) (mr_last r) (mr_data r))) <$> ranges).
Proof.
  revert transitions targets. induction ranges as [|r ranges IH]; intros transitions targets; cbn [sinkRanges].
  { exists [], []. by rewrite !app_nil_r. }
  set (r' := mkImmutableRange (vec_size targets) (vec_size (targets ++ iteration (mr_data r))) (mr_first r) (mr_last r)).
  destruct (IH (transitions ++ [r']) (targets ++ iteration (mr_data r))) as (nt & ng & -> & Hmap).
  exists (r' :: nt), (iteration (mr_data r) ++ ng). rewrite <- !app_assoc in *. split; [done|].
  cbn [mapM]. assert (read_range (targets ++ iteration (mr_data r) ++ ng) r' =
    Some (sunk (mkOtherRange (mr_first r) (mr_last r) (mr_data r)))) as ->.
  { unfold read_range, r'. cbn [targetStart targetEnd ir_first ir_last]. by rewrite slice_new. }
  cbn [mbind option_bind]. rewrite Hmap. done.
Qed.

(** The parts of a node that the vectors of an NFA hold. *)
Definition node_view (nfa : NFA) (n : Z) : option (list (OtherRange (list Z)) * list Z * list Z) :=
  ts ← transitionsForNode nfa n; eps ← epsilonTargets nfa n; acts ← actionsOfNode nfa n; Some (ts, eps, acts).

Definition node_parts (nfa : NFA) (node : ImmutableNFANode) : option (list (OtherRange (list Z)) * list Z * list Z) :=
  ranges ← slice (nfa_transitions nfa) (rangesStart node) (rangesEnd node);
  ts ← mapM (read_range (nfa_targets nfa)) ranges;
  eps ← slice (epsilonTransitionsTargets nfa) (epsilonTransitionTargetsStart node) (epsilonTransitionTargetsEnd node);
  acts ← slice (nfa_actions nfa) (actionStart node) (actionEnd node);
  Some (ts, eps, acts).

Lemma node_view_parts nfa n : node_view nfa n = (node ← vec_at (nfa_nodes nfa) n; node_parts nfa node).
Proof.
  unfold node_view, node_parts, transitionsForNode, epsilonTargets, actionsOfNode.
  destruct (vec_at (nfa_nodes nfa) n) as [node|]; [|done]. cbn [mbind option_bind].
  destruct (slice (nfa_transitions nfa) _ _) as [ranges|]; done.
Qed.

Lemma node_parts_grow nfa nodes tr tg ep ac node x :
  node_parts nfa node = Some x ->
  node_parts (mkNFA nodes (nfa_transitions nfa ++ tr) (nfa_targets nfa ++ tg)
    (epsilonTransitionsTargets nfa ++ ep) (nfa_actions nfa ++ ac)) node = Some x.
Proof.
  unfold node_parts. cbn [nfa_transitions nfa_targets epsilonTransitionsTargets nfa_actions].
  destruct (slice (nfa_transitions nfa) _ _) as [ranges|] eqn:E1; [|done]. rewrite (slice_app_l _ _ _ _ _ E1).
  cbn [mbind option_bind]. destruct (mapM (read_range (nfa_targets nfa)) ranges) as [ts|] eqn:E2; [|done].
  assert (mapM (read_range (nfa_targets nfa ++ tg)) ranges = Some ts) as ->.
  { apply mapM_Some. apply mapM_Some in E2. eapply Forall2_impl; [exact E2|]. intros; by apply read_range_app. }
  cbn [mbind option_bind].
  destruct (slice (epsilonTransitionsTargets nfa) _ _) as [eps|] eqn:E3; [|done]. rewrite (slice_app_l _ _ _ _ _ E3).
  cbn [mbind option_bind]. destruct (slice (nfa_actions nfa) _ _) as [acts|] eqn:E4; [|done].
  by rewrite (slice_app_l _ _ _ _ _ E4).
Qed.

Lemma finalize_spec b nfa idx l :
  represents (m_ranges b) idx l -> 0 <= m_nodeId b < vec_size (nfa_nodes nfa) ->
  exists nfa', finalize b nfa = Some nfa' /\ vec_size (nfa_nodes nfa') = vec_size (nfa_nodes nfa)
    /\ node_view nfa' (m_nodeId b) =
         Some (sunk <$> l, iteration (m_epsilonTransitionTargets b), iteration (m_actions b))
    /\ forall n x, n <> m_nodeId b -> node_view nfa n = Some x -> node_view nfa' n = Some x.
Proof.
  intros HR Hid. unfold finalize. destruct (vec_at_is_Some _ _ Hid) as [node Hnode]. rewrite Hnode.
  cbn [mbind option_bind sinkActions sinkEpsilonTransitions]. unfold sinkTransitions.
  destruct (ranges_in_order_spec _ _ _ HR) as (rs & -> & Hl). cbn [mbind option_bind nfa_transitions nfa_targets].
  destruct (sinkRanges_spec (nfa_transitions nfa) (nfa_targets nfa) rs) as (nt & ng & -> & Hmap).
  cbn [mbind option_bind nfa_nodes].
  match goal with |- context [vec_set _ _ ?x] => set (node' := x) end.
  destruct (vec_set_is_Some (nfa_nodes nfa) (m_nodeId b) node' Hid) as [nodes' Hset]. rewrite Hset.
  cbn [mbind option_bind nfa_transitions nfa_targets epsilonTransitionsTargets nfa_actions].
  eexists. split; [done|]. cbn [nfa_nodes]. split; [by eapply vec_set_size|]. split.
  - rewrite node_view_parts. cbn [nfa_nodes]. rewrite (vec_set_spec _ _ _ _ _ Hset), Z.eqb_refl.
    cbn [mbind option_bind]. unfold node_parts, node'.
    cbn [nfa_transitions nfa_targets epsilonTransitionsTargets nfa_actions rangesStart rangesEnd
      epsilonTransitionTargetsStart epsilonTransitionTargetsEnd actionStart actionEnd].
    rewrite !slice_new'. cbn [mbind option_bind]. rewrite Hmap. cbn [mbind option_bind]. do 3 f_equal.
    rewrite <- Hl, <- list_fmap_compose. done.
  - intros n x Hn Hx. rewrite node_view_parts in *. cbn [nfa_nodes]. rewrite (vec_set_spec _ _ _ _ _ Hset).
    destruct (m_nodeId b =? n) eqn:E; zbool; [congruence|].
    destruct (vec_at (nfa_nodes nfa) n) as [node_n|]; [|done]. cbn [mbind option_bind] in *.
    by apply node_parts_grow.
Qed.
End BuilderProofs.

(** ** Runs of the automaton *)

Definition eps_edge (nfa : NFA) (n m : Z) : Prop := exists ts, epsilonTargets nfa n = Some ts /\ m ∈ ts.

Definition char_edge (nfa : NFA) (n c m : Z) : Prop :=
  exists ts targets, transitionsForNode nfa n = Some ts /\ range_lookup ts c = Some targets /\ m ∈ targets.

(** [path nfa n w m]: from [n] the NFA can read [w] and be in [m]. *)
Inductive path (nfa : NFA) : Z -> list Z -> Z -> Prop :=
  | path_nil n : path nfa n [] n
  | path_eps n m w k : eps_edge nfa n m -> path nfa m w k -> path nfa n w k
  | path_char n c m w k : char_edge nfa n c m -> path nfa m w k -> path nfa n (c :: w) k.

Lemma path_trans nfa n u m w k : path nfa n u m -> path nfa m w k -> path nfa n (u ++ w) k.
Proof.
  induction 1 as [|n m' u k' He _ IH|n c m' u k' He _ IH]; intros Hk; [done| |].
  - eapply path_eps; [exact He|]. auto.
  - simpl. eapply path_char; [exact He|]. auto.
Qed.

(** The nodes of a well-formed NFA have sorted transitions, targets that are
    nodes and action words the compiler can encode. *)
Definition wf_view (size : Z) (x : list (OtherRange (list Z)) * list Z * list Z) : Prop :=
  let '(ts, eps, acts) := x in
  sorted_from 0 ts /\ Forall (λ r, Forall (λ t, 0 <= t < size) (o_data r) /\ o_data r <> []) ts
  /\ Forall (λ t, 0 <= t < size) eps /\ Forall (λ a, 0 <= a < 2 ^ 49) acts.

Definition wf_nfa (nfa : NFA) : Prop :=
  0 < vec_size (nfa_nodes nfa)
  /\ forall n, 0 <= n < vec_size (nfa_nodes nfa) ->
       exists x, node_view nfa n = Some x /\ wf_view (vec_size (nfa_nodes nfa)) x.
