(* ===== verification/NFABuilder.v ===== *)
(** * What a node builder puts into an automaton

    The builder of [ImmutableNFANodeBuilder.h] seen from outside: the edges it
    holds while it is live, and the theorem that a node built by any sequence
    of its operations has in the finished automaton exactly the edges and
    actions that were added. *)

From stdpp Require Import base numbers option list list_numbers gmap sets relations.
From Stdlib Require Import ZArith Lia.
From S2P Require Import Prelude.
From S2P Require Import MutableRangeList.
From S2P Require Import NFA.

(** ** The edges of a live builder *)

Definition builder_edge (b : NodeBuilder) (c m : Z) : Prop :=
  exists l X, contents (m_ranges b) = Some l /\ range_lookup l c = Some X /\ m ∈ X.

Definition builder_wf (b : NodeBuilder) : Prop :=
  exists idx l, represents (m_ranges b) idx l /\ sorted_from 0 l /\ Forall (λ r, o_data r <> ∅) l.

Lemma builder_edge_lookup b idx l c m : represents (m_ranges b) idx l ->
  builder_edge b c m <-> exists X, range_lookup l c = Some X /\ m ∈ X.
Proof.
  intros HR. unfold builder_edge. rewrite (represents_contents _ _ _ HR). split.
  - intros (l' & X & [= <-] & ? & ?). by exists X.
  - intros (X & ? & ?). by exists l, X.
Qed.

Lemma sorted_lookup_first {X} lo (l : list (OtherRange X)) r :
  sorted_from lo l -> r ∈ l -> range_lookup l (o_first r) = Some (o_data r).
Proof.
  revert lo. induction l as [|r' l IH]; intros lo; [by intros _ ?%elem_of_nil|].
  rewrite sorted_from_cons. intros (? & ? & ? & Hs) [->|Hr]%elem_of_cons; cbn [range_lookup].
  - by rewrite (proj2 (andb_true_iff _ _)) by (split; apply Z.leb_le; lia).
  - pose proof (sorted_from_Forall _ _ Hs) as Hall. rewrite Forall_forall in Hall. specialize (Hall r Hr).
    rewrite (proj2 (andb_false_iff _ _)) by (right; apply Z.leb_gt; simpl in Hall; lia). by eapply IH.
Qed.

Lemma range_lookup_ascii {X} (l : list (OtherRange X)) c x :
  sorted_from 0 l -> range_lookup l c = Some x -> 0 <= c <= 127.
Proof.
  intros Hs Hl. pose proof (sorted_from_Forall _ _ Hs) as Hall. rewrite Forall_forall in Hall.
  apply range_lookup_elem in Hl as (r & Hr & ? & ?). specialize (Hall r Hr). simpl in Hall. lia.
Qed.

(** ** The operations *)

Lemma addTransition_spec b first last target :
  builder_wf b -> 0 <= first <= last -> last <= 127 ->
  exists b', addTransition b first last target = Some b' /\ builder_wf b'
    /\ m_epsilonTransitionTargets b' = m_epsilonTransitionTargets b
    /\ m_actions b' = m_actions b /\ m_nodeId b' = m_nodeId b
    /\ forall c m, builder_edge b' c m <-> builder_edge b c m \/ (first <= c <= last /\ m = target).
Proof.
  intros (idx & l & HR & Hs & Hne) Hf Hl. unfold addTransition.
  destruct (extend_sound builder_convert builder_extend (m_ranges b) idx l [mkOtherRange first last target])
    as (v & idx' & l' & -> & HR' & Hs' & Hlk); [done|done|simpl; lia|].
  cbn [mbind option_bind]. eexists. split; [done|]. cbn [m_epsilonTransitionTargets m_actions m_nodeId m_ranges].
  assert (forall c m, (exists X, range_lookup l' c = Some X /\ m ∈ X) <->
    (exists X, range_lookup l c = Some X /\ m ∈ X) \/ (first <= c <= last /\ m = target)) as Hedge.
  { intros c m. destruct (decide (0 <= c <= 127)) as [Hc|Hc].
    - rewrite (Hlk c Hc). cbn [range_lookup o_first o_last o_data].
      destruct ((first <=? c) && (c <=? last)) eqn:E;
        [zbool|assert (~ (first <= c <= last)) by (apply andb_false_iff in E as [?|?]; zbool; lia)];
        destruct (range_lookup l c) as [X|] eqn:EX; cbn [merged]; unfold builder_convert, builder_extend;
        (split; [intros (X' & HX' & Hm)|intros [(X' & HX' & Hm)|[? Hm]]]);
        simplify_eq; rewrite ?elem_of_union, ?elem_of_singleton in *; try lia; try naive_solver;
        eexists; (split; [done|]); rewrite ?elem_of_union, ?elem_of_singleton; auto.
    - split; [intros (X & HX & _); by apply (range_lookup_ascii _ _ _ Hs') in HX|].
      intros [(X & HX & _)|?]; [by apply (range_lookup_ascii _ _ _ Hs) in HX|lia]. }
  split_and!; try done.
  - exists idx', l'. split_and!; [done|done|]. apply Forall_forall. intros r Hr Hempty.
    pose proof (sorted_lookup_first _ _ _ Hs' Hr) as Hlook.
    pose proof (range_lookup_ascii _ _ _ Hs' Hlook) as Hc. rewrite (Hlk _ Hc) in Hlook. revert Hlook.
    destruct (range_lookup l (o_first r)) as [X|] eqn:EX, (range_lookup [_] (o_first r)) as [t|];
      cbn [merged]; unfold builder_convert, builder_extend; intros [= Heq];
      try (apply (not_elem_of_empty (C := gset Z) t); rewrite <- Hempty, <- Heq;
           rewrite ?elem_of_union, elem_of_singleton; auto; fail).
    apply range_lookup_elem in EX as (r' & Hr' & _ & Hd). rewrite Forall_forall in Hne. apply (Hne r' Hr'). congruence.
  - intros c m. rewrite (builder_edge_lookup _ idx' l'), (builder_edge_lookup b idx l) by done. apply Hedge.
Qed.

Lemma newBuilder_wf nfa : builder_wf (newBuilder nfa).2.
Proof. exists [], []. split_and!; [apply represents_nil|done|constructor]. Qed.

Lemma newBuilder_edge nfa c m : ~ builder_edge (newBuilder nfa).2 c m.
Proof. intros (l & X & [= <-] & HX & _). done. Qed.

Section Finalize.
Context `{HashOrder}.

Lemma range_lookup_sunk l c : range_lookup (sunk <$> l) c = iteration <$> range_lookup l c.
Proof.
  induction l as [|r l IH]; [done|]. rewrite fmap_cons. cbn [range_lookup].
  unfold sunk at 1 2 3. cbn [o_first o_last o_data]. destruct ((o_first r <=? c) && _); [done|exact IH].
Qed.

Lemma sorted_from_sunk lo l : sorted_from lo l -> sorted_from lo (sunk <$> l).
Proof.
  revert lo. induction l as [|r l IH]; intros lo; [done|]. rewrite fmap_cons, !sorted_from_cons.
  unfold sunk at 1 2 3 4. cbn [o_first o_last]. intros (? & ? & ? & ?). auto.
Qed.

(** The parts of a node: its edges and its actions. *)
Definition node_has (nfa : NFA) (n : Z) (edge : Z -> Z -> Prop) (eps : Z -> Prop) (acts : Z -> Prop) : Prop :=
  exists ts es l, node_view nfa n = Some (ts, es, l)
    /\ sorted_from 0 ts /\ Forall (λ r, o_data r <> []) ts
    /\ (forall c m, (exists X, range_lookup ts c = Some X /\ m ∈ X) <-> edge c m)
    /\ (forall m, m ∈ es <-> eps m) /\ (forall a, a ∈ l <-> acts a).

Lemma finalize_node b nfa :
  builder_wf b -> 0 <= m_nodeId b < vec_size (nfa_nodes nfa) ->
  exists nfa', finalize b nfa = Some nfa' /\ vec_size (nfa_nodes nfa') = vec_size (nfa_nodes nfa)
    /\ node_has nfa' (m_nodeId b) (builder_edge b) (λ m, m ∈ m_epsilonTransitionTargets b) (λ a, a ∈ m_actions b)
    /\ forall n x, n <> m_nodeId b -> node_view nfa n = Some x -> node_view nfa' n = Some x.
Proof.
  intros (idx & l & HR & Hs & Hne) Hid. destruct (finalize_spec b nfa idx l HR Hid) as (nfa' & Hf & Hsz & Hv & Hold).
  exists nfa'. split_and!; [done|done| |done].
  exists (sunk <$> l), (iteration (m_epsilonTransitionTargets b)), (iteration (m_actions b)). split_and!; [done| | | | |].
  - by apply sorted_from_sunk.
  - apply Forall_fmap. eapply Forall_impl; [exact Hne|]. intros r Hr. simpl. intros Hit. apply Hr.
    apply set_eq. intros x. rewrite <- elem_of_iteration, Hit, elem_of_nil. set_solver.
  - intros c m. rewrite range_lookup_sunk, (builder_edge_lookup b idx l) by done. split.
    + intros (X & HX & Hm). apply fmap_Some in HX as (Y & HY & ->). apply elem_of_iteration in Hm. by exists Y.
    + intros (X & -> & Hm). exists (iteration X). by rewrite elem_of_iteration.
  - intros m. apply elem_of_iteration.
  - intros a. apply elem_of_iteration.
Qed.

Lemma node_has_edges nfa n edge eps acts : node_has nfa n edge eps acts ->
  (forall c m, char_edge nfa n c m <-> edge c m) /\ (forall m, eps_edge nfa n m <-> eps m)
  /\ exists l, actionsOfNode nfa n = Some l /\ forall a, a ∈ l <-> acts a.
Proof.
  intros (ts & es & l & Hv & _ & _ & Hc & He & Ha). unfold node_view in Hv.
  destruct (transitionsForNode nfa n) as [ts'|] eqn:E1; [|done]. destruct (epsilonTargets nfa n) as [es'|] eqn:E2; [|done].
  destruct (actionsOfNode nfa n) as [l'|]; [|done]. cbn [mbind option_bind] in Hv. simplify_eq. split_and!.
  - intros c m. rewrite <- Hc. unfold char_edge. rewrite E1. split; [intros (? & X & [= <-] & ? & ?); by exists X|].
    intros (X & ? & ?). by exists ts, X.
  - intros m. rewrite <- He. unfold eps_edge. rewrite E2. split; [by intros (? & [= <-] & ?)|]. intros ?. by exists es.
  - by exists l.
Qed.
End Finalize.

(** ** A whole node *)

Inductive BuilderOp :=
  | OpTransition (first last target : Z)
  | OpEpsilon (target : Z)
  | OpActions (actions : list Z).

Definition op_ok (o : BuilderOp) : Prop :=
  match o with OpTransition first last _ => 0 <= first <= last /\ last <= 127 | _ => True end.

Definition run_op (b : NodeBuilder) (o : BuilderOp) : option NodeBuilder :=
  match o with
  | OpTransition first last target => addTransition b first last target
  | OpEpsilon target => Some (addEpsilonTransition b target)
  | OpActions actions => Some (builder_setActions b actions)
  end.

Fixpoint run_ops (b : NodeBuilder) (ops : list BuilderOp) : option NodeBuilder :=
  match ops with [] => Some b | o :: ops => b ← run_op b o; run_ops b ops end.

(** The life of a builder: constructed, used, destroyed. *)
Definition buildNode `{HashOrder} (nfa : NFA) (ops : list BuilderOp) : option NFA :=
  let '(nfa, b) := newBuilder nfa in b ← run_ops b ops; finalize b nfa.

Definition op_edge (o : BuilderOp) (c m : Z) : Prop :=
  match o with OpTransition first last target => first <= c <= last /\ m = target | _ => False end.
Definition op_eps (o : BuilderOp) (m : Z) : Prop := match o with OpEpsilon target => m = target | _ => False end.
Definition op_action (o : BuilderOp) (a : Z) : Prop := match o with OpActions actions => a ∈ actions | _ => False end.

Lemma run_op_spec b o : builder_wf b -> op_ok o ->
  exists b', run_op b o = Some b' /\ builder_wf b' /\ m_nodeId b' = m_nodeId b
    /\ (forall c m, builder_edge b' c m <-> builder_edge b c m \/ op_edge o c m)
    /\ (forall m, m ∈ m_epsilonTransitionTargets b' <-> m ∈ m_epsilonTransitionTargets b \/ op_eps o m)
    /\ (forall a, a ∈ m_actions b' <-> a ∈ m_actions b \/ op_action o a).
Proof.
  intros Hb Ho. destruct o as [first last target|target|actions]; cbn [run_op op_edge op_eps op_action].
  - destruct Ho as [? ?]. destruct (addTransition_spec b first last target) as (b' & -> & Hw & Heps & Hact & Hid & He); try done.
    exists b'. rewrite Heps, Hact. split_and!; try done; tauto.
  - eexists. split_and!; try done; intros; unfold builder_edge; cbn; rewrite ?elem_of_union, ?elem_of_singleton; tauto.
  - eexists. split_and!; try done; intros; unfold builder_edge; cbn; rewrite ?elem_of_union, ?elem_of_list_to_set; tauto.
Qed.

Lemma run_ops_spec b ops : builder_wf b -> Forall op_ok ops ->
  exists b', run_ops b ops = Some b' /\ builder_wf b' /\ m_nodeId b' = m_nodeId b
    /\ (forall c m, builder_edge b' c m <-> builder_edge b c m \/ exists o, o ∈ ops /\ op_edge o c m)
    /\ (forall m, m ∈ m_epsilonTransitionTargets b' <-> m ∈ m_epsilonTransitionTargets b \/ exists o, o ∈ ops /\ op_eps o m)
    /\ (forall a, a ∈ m_actions b' <-> a ∈ m_actions b \/ exists o, o ∈ ops /\ op_action o a).
Proof.
  intros Hb Hops. revert b Hb. induction Hops as [|o ops Ho _ IH]; intros b Hb; cbn [run_ops].
  { exists b. split_and!; try done; (split; [by left|]); intros [?|(o & ?%elem_of_nil & _)]; done. }
  destruct (run_op_spec b o Hb Ho) as (b1 & -> & Hb1 & Hid1 & Hc1 & He1 & Ha1). cbn [mbind option_bind].
  destruct (IH b1 Hb1) as (b2 & Hr & Hb2 & Hid2 & Hc2 & He2 & Ha2).
  exists b2. split_and!; [done|done|congruence| | |]; intros;
    [rewrite Hc2, Hc1|rewrite He2, He1|rewrite Ha2, Ha1]; setoid_rewrite elem_of_cons; naive_solver.
Qed.

(** a node made with a builder has in the NFA exactly the transitions,
    epsilon transitions and actions that the operations on its builder added,
    and the finished nodes of the NFA keep theirs. *)
Theorem buildNode_correct `{HashOrder} nfa ops :
  Forall op_ok ops ->
  exists nfa', buildNode nfa ops = Some nfa'
    /\ vec_size (nfa_nodes nfa') = vec_size (nfa_nodes nfa) + 1
    /\ (forall c m, char_edge nfa' (vec_size (nfa_nodes nfa)) c m <->
          exists first last, OpTransition first last m ∈ ops /\ first <= c <= last)
    /\ (forall m, eps_edge nfa' (vec_size (nfa_nodes nfa)) m <-> OpEpsilon m ∈ ops)
    /\ (exists acts, actionsOfNode nfa' (vec_size (nfa_nodes nfa)) = Some acts
          /\ forall a, a ∈ acts <-> exists actions, OpActions actions ∈ ops /\ a ∈ actions)
    /\ forall n x, node_view nfa n = Some x -> node_view nfa' n = Some x.
Proof.
  intros Hops. unfold buildNode. pose proof (newBuilder_wf nfa) as Hw. pose proof (newBuilder_edge nfa) as Hno.
  destruct (newBuilder nfa) as [nfa1 b] eqn:Enew. cbn [snd] in Hw, Hno.
  destruct (run_ops_spec b ops Hw Hops) as (b' & -> & Hw' & Hid & Hc & He & Ha). cbn [mbind option_bind].
  unfold newBuilder in Enew. injection Enew as <- <-. cbn [m_nodeId m_epsilonTransitionTargets m_actions] in *.
  pose proof (vec_size_nonneg (nfa_nodes nfa)).
  destruct (finalize_node b' (mkNFA (nfa_nodes nfa ++ [emptyNFANode]) (nfa_transitions nfa) (nfa_targets nfa)
    (epsilonTransitionsTargets nfa) (nfa_actions nfa))) as (nfa' & Hf & Hsz & Hnode & Hold); [done| |].
  { rewrite Hid. cbn [nfa_nodes]. rewrite vec_size_app. change (vec_size [emptyNFANode]) with 1. lia. }
  exists nfa'. cbn [nfa_nodes] in Hsz. rewrite vec_size_app in Hsz. rewrite Hid in *.
  apply node_has_edges in Hnode as (Hc' & He' & acts & Hacts & Hain). split_and!; [done|done| | | |].
  - intros c m. rewrite Hc', Hc. split.
    + intros [?|(o & Ho & Hop)]; [by apply Hno in H1|]. destruct o; try done. destruct Hop as [? ->]. eauto.
    + intros (f & l & Ho & Hcc). right. eexists. split; [exact Ho|]. done.
  - intros m. rewrite He', He. split.
    + intros [?|(o & Ho & Hop)]; [set_solver|]. destruct o; try done. by simpl in Hop; subst.
    + intros Ho. right. by eexists.
  - exists acts. split; [done|]. intros a. rewrite Hain, Ha. split.
    + intros [?|(o & Ho & Hop)]; [set_solver|]. destruct o; try done. eauto.
    + intros (actions & Ho & Hin). right. by eexists.
  - intros n x Hx. rewrite node_view_parts in Hx. apply Hold.
    + intros ->. destruct (vec_at (nfa_nodes nfa) (vec_size (nfa_nodes nfa))) eqn:Ev; [|done]. apply vec_at_bound in Ev. lia.
    + rewrite node_view_parts. cbn [nfa_nodes]. destruct (vec_at (nfa_nodes nfa) n) as [node|] eqn:Ev; [|done].
      rewrite vec_at_app_l by (apply vec_at_bound in Ev; lia). rewrite Ev. cbn [mbind option_bind] in *.
      pose proof (node_parts_grow nfa (nfa_nodes nfa ++ [emptyNFANode]) [] [] [] [] node x Hx) as Hgrow.
      by rewrite !app_nil_r in Hgrow.
Qed.

(** A node with overlapping transitions added to the empty NFA. *)
Lemma buildNode_correct_witness :
  exists nfa', buildNode (mkNFA [] [] [] [] []) [OpTransition 97 99 3; OpEpsilon 5; OpTransition 98 110 4; OpActions [7]] = Some nfa'
    /\ char_edge nfa' 0 98 3 /\ char_edge nfa' 0 98 4 /\ eps_edge nfa' 0 5 /\ ~ eps_edge nfa' 0 3.
Proof.
  destruct (buildNode_correct (mkNFA [] [] [] [] [])
    [OpTransition 97 99 3; OpEpsilon 5; OpTransition 98 110 4; OpActions [7]]) as (nfa' & Hb & _ & Hc & He & _).
  { repeat constructor; simpl; lia. }
  change (vec_size (nfa_nodes (mkNFA [] [] [] [] []))) with 0 in *.
  exists nfa'. split; [exact Hb|]. rewrite !Hc, !He. split_and!.
  - exists 97, 99. split; [left|lia].
  - exists 98, 110. split; [right; right; left|lia].
  - right; left.
  - intros Hin. repeat (apply elem_of_cons in Hin as [Hin|Hin]; [discriminate|]). by apply elem_of_nil in Hin.
Defined.
