(* ===== verification/Term.v ===== *)
(** * Terms of URL filters

    Models [Term.h] of [src/Source/WebCore/contentextensions/]: the atoms of a
    filter with their quantifiers, the questions the parser asks about them,
    and the automaton that is generated for them.  Where the code asserts in
    release builds the model returns [None]. *)

From stdpp Require Import base numbers option list list_numbers gmap sets.
From Stdlib Require Import ZArith Lia.
From S2P Require Import Prelude.
From S2P Require Import BitCount.
From S2P Require Import DFABytecodeInterpreter.
From S2P Require Import MutableRangeList.
From S2P Require Import NFA.

(** ** Characters *)

Definition isASCIILower (character : Z) : bool := (97 <=? character) && (character <=? 122).
Definition toASCIILowerUnchecked (character : Z) : Z := Z.lor character 0x20.
Definition isASCIIAlpha (character : Z) : bool := isASCIILower (toASCIILowerUnchecked character).
Definition toASCIIUpper (character : Z) : Z :=
  Z.land character (Z.lnot (Z.shiftl (Z.b2z (isASCIILower character)) 5)).

(** ** Character sets *)

(** [m_inverted] and the two words of [m_characters]. *)
Record CharacterSet := mkCharacterSet { m_inverted : bool; m_characters0 : Z; m_characters1 : Z }.

Definition emptyCharacterSet : CharacterSet := mkCharacterSet false 0 0.

Definition setCharacter (cs : CharacterSet) (character : Z) : CharacterSet :=
  let bit := Z.shiftl 1 (character mod 64) in
  if character / 64 =? 0 then mkCharacterSet (m_inverted cs) (Z.lor (m_characters0 cs) bit) (m_characters1 cs)
  else mkCharacterSet (m_inverted cs) (m_characters0 cs) (Z.lor (m_characters1 cs) bit).

(** [CharacterSet::set], with its release assertion. *)
Definition CharacterSet_set (cs : CharacterSet) (character : Z) : option CharacterSet :=
  if character <? 128 then Some (setCharacter cs character) else None.

(** [CharacterSet::get]; it is only called on characters below 128. *)
Definition CharacterSet_get (cs : CharacterSet) (character : Z) : bool :=
  let word := if character / 64 =? 0 then m_characters0 cs else m_characters1 cs in
  negb (Z.land word (Z.shiftl 1 (character mod 64)) =? 0).

Definition CharacterSet_invert (cs : CharacterSet) : CharacterSet :=
  mkCharacterSet true (m_characters0 cs) (m_characters1 cs).

Definition CharacterSet_bitCount (cs : CharacterSet) : Z :=
  u32 (bitCount64 (m_characters0 cs) + bitCount64 (m_characters1 cs)).

Definition CharacterSet_eqb (a b : CharacterSet) : bool :=
  eqb (m_inverted b) (m_inverted a) && (m_characters0 b =? m_characters0 a) && (m_characters1 b =? m_characters1 a).

(** ** Terms *)

Inductive AtomQuantifier := One | ZeroOrOne | ZeroOrMore | OneOrMore.

#[export] Instance AtomQuantifier_eq_dec : EqDecision AtomQuantifier.
Proof. solve_decision. Defined.

Definition quantifier_eqb (a b : AtomQuantifier) : bool := bool_decide (a = b).

(** The type of the term, its quantifier and the data of its atom. *)
Inductive Term :=
  | EmptyTerm (quantifier : AtomQuantifier)
  | CharacterSetTerm (quantifier : AtomQuantifier) (characterSet : CharacterSet)
  | GroupTerm (quantifier : AtomQuantifier) (terms : list Term).

Definition m_quantifier (t : Term) : AtomQuantifier :=
  match t with EmptyTerm q | CharacterSetTerm q _ | GroupTerm q _ => q end.

(** [Term()] *)
Definition newTerm : Term := EmptyTerm One.

Definition isValid (t : Term) : bool := match t with EmptyTerm _ => false | _ => true end.

Definition addCharacter (t : Term) (character : Z) (isCaseSensitive : bool) : option Term :=
  match t with
  | CharacterSetTerm q cs =>
      if isCaseSensitive || negb (isASCIIAlpha character) then
        cs ← CharacterSet_set cs character; Some (CharacterSetTerm q cs)
      else
        cs ← CharacterSet_set cs (toASCIIUpper character);
        cs ← CharacterSet_set cs (toASCIILower character);
        Some (CharacterSetTerm q cs)
  | _ => Some t
  end.

(** [Term(char, bool)] *)
Definition characterTerm (character : Z) (isCaseSensitive : bool) : option Term :=
  addCharacter (CharacterSetTerm One emptyCharacterSet) character isCaseSensitive.

(** [Term(UniversalTransitionTag)] *)
Definition universalTerm : Term :=
  CharacterSetTerm One (foldl setCharacter emptyCharacterSet (seqZ 1 127)).

(** [Term(CharacterSetTermTag, bool)] *)
Definition characterSetTerm (isInverted : bool) : Term :=
  CharacterSetTerm One (if isInverted then CharacterSet_invert emptyCharacterSet else emptyCharacterSet).

(** [Term(GroupTermTag)] *)
Definition groupTerm : Term := GroupTerm One [].

(** [Term(EndOfLineAssertionTermTag)] *)
Definition endOfLineAssertionTerm : Term := CharacterSetTerm One (setCharacter emptyCharacterSet 0).

Definition extendGroupSubpattern (t term : Term) : Term :=
  match t with GroupTerm q terms => GroupTerm q (terms ++ [term]) | _ => t end.

Definition quantify (t : Term) (quantifier : AtomQuantifier) : Term :=
  match t with
  | EmptyTerm _ => EmptyTerm quantifier
  | CharacterSetTerm _ cs => CharacterSetTerm quantifier cs
  | GroupTerm _ terms => GroupTerm quantifier terms
  end.

(** ** Questions about terms *)

Definition isEndOfLineAssertion (t : Term) : bool :=
  match t with
  | CharacterSetTerm _ cs => (CharacterSet_bitCount cs =? 1) && CharacterSet_get cs 0
  | _ => false
  end.

Fixpoint matchesAtLeastOneCharacter (t : Term) : bool :=
  if quantifier_eqb (m_quantifier t) ZeroOrOne || quantifier_eqb (m_quantifier t) ZeroOrMore then false
  else if isEndOfLineAssertion t then false
  else match t with
       | GroupTerm _ terms => existsb matchesAtLeastOneCharacter terms
       | _ => true
       end.

Fixpoint isUniversalTransition (t : Term) : bool :=
  match t with
  | EmptyTerm _ => false
  | CharacterSetTerm _ cs =>
      (m_inverted cs && (CharacterSet_bitCount cs =? 0))
      || (negb (m_inverted cs) && (CharacterSet_bitCount cs =? 127) && negb (CharacterSet_get cs 0))
  | GroupTerm _ terms => match terms with [first] => isUniversalTransition first | _ => false end
  end.

Fixpoint isKnownToMatchAnyString (t : Term) : bool :=
  match t with
  | EmptyTerm _ => false
  | CharacterSetTerm q _ => isUniversalTransition t && quantifier_eqb q ZeroOrMore
  | GroupTerm q terms =>
      match terms with
      | [first] =>
          isKnownToMatchAnyString first
          || isUniversalTransition first
             && (quantifier_eqb q ZeroOrMore
                 || quantifier_eqb q ZeroOrOne && quantifier_eqb (m_quantifier first) OneOrMore
                 || quantifier_eqb q OneOrMore && quantifier_eqb (m_quantifier first) ZeroOrOne)
      | _ => false
      end
  end.

Fixpoint hasFixedLength (t : Term) : bool :=
  match t with
  | EmptyTerm _ => false
  | CharacterSetTerm q _ => quantifier_eqb q One
  | GroupTerm q terms => quantifier_eqb q One && forallb hasFixedLength terms
  end.

Fixpoint list_eqb {A} (eqb : A -> A -> bool) (l m : list A) : bool :=
  match l, m with
  | [], [] => true
  | x :: l, y :: m => eqb x y && list_eqb eqb l m
  | _, _ => false
  end.

Fixpoint Term_eqb (a b : Term) : bool :=
  quantifier_eqb (m_quantifier b) (m_quantifier a) &&
  match a, b with
  | EmptyTerm _, EmptyTerm _ => true
  | CharacterSetTerm _ c, CharacterSetTerm _ d => CharacterSet_eqb c d
  | GroupTerm _ l, GroupTerm _ m => list_eqb Term_eqb l m
  | _, _ => false
  end.

(** ** Hashes *)

(** [WTF::intHash(uint64_t)] *)
Definition intHash64 (key : Z) : Z :=
  let key := u64 (key + Z.lnot (Z.shiftl key 32)) in
  let key := Z.lxor key (Z.shiftr key 22) in
  let key := u64 (key + Z.lnot (Z.shiftl key 13)) in
  let key := Z.lxor key (Z.shiftr key 8) in
  let key := u64 (key + Z.shiftl key 3) in
  let key := Z.lxor key (Z.shiftr key 15) in
  let key := u64 (key + Z.lnot (Z.shiftl key 27)) in
  let key := Z.lxor key (Z.shiftr key 31) in
  u32 key.

(** [WTF::pairIntHash] *)
Definition pairIntHash (key1 key2 : Z) : Z :=
  let product := u64 (19248658165952622 * u32 (277951225 * key1 + 95187966 * key2)) in
  u32 (Z.shiftr product 4).

Definition CharacterSet_hash (cs : CharacterSet) : Z :=
  pairIntHash (pairIntHash (intHash64 (m_characters0 cs)) (intHash64 (m_characters1 cs))) (Z.b2z (m_inverted cs)).

Definition quantifier_code (q : AtomQuantifier) : Z :=
  match q with One => 0 | ZeroOrOne => 1 | ZeroOrMore => 2 | OneOrMore => 3 end.

Definition termType_code (t : Term) : Z :=
  match t with EmptyTerm _ => 0 | CharacterSetTerm _ _ => 1 | GroupTerm _ _ => 2 end.

(** [Group::hash], on the hashes of the terms. *)
Definition Group_hash (termHashes : list Z) : Z :=
  foldl (λ hash termHash,
           let hash := Z.lxor (u32 (Z.shiftl hash 16)) (Z.lxor (u32 (Z.shiftl termHash 11)) hash) in
           u32 (hash + Z.shiftr hash 11))
    6421749 termHashes.

Fixpoint Term_hash (t : Term) : Z :=
  let primary := Z.lor (Z.shiftl (termType_code t) 16) (quantifier_code (m_quantifier t)) in
  let secondary :=
    match t with
    | EmptyTerm _ => 52184393
    | CharacterSetTerm _ cs => CharacterSet_hash cs
    | GroupTerm _ terms => Group_hash (Term_hash <$> terms)
    end in
  pairIntHash primary secondary.

(** ** The automaton of a term *)

(** [while (i < 128 && p(i)) ++i] *)
Fixpoint advanceWhile (fuel : nat) (p : Z -> bool) (i : Z) : Z :=
  match fuel with
  | O => i
  | S fuel => if (i <? 128) && p i then advanceWhile fuel p (i + 1) else i
  end.

(** A transition for every run of characters that satisfy [p], from [i] on. *)
Fixpoint addRuns (fuel : nat) (p : Z -> bool) (i : Z) (source : NodeBuilder) (destination : Z) : option NodeBuilder :=
  match fuel with
  | O => None
  | S fuel =>
      let i := advanceWhile 128 (λ c, negb (p c)) i in
      if i =? 128 then Some source
      else
        let start := i in
        let i := advanceWhile 128 p (i + 1) in
        source ← addTransition source start (i - 1) destination;
        addRuns fuel p i source destination
  end.

Definition addCharacterSet (cs : CharacterSet) (source : NodeBuilder) (destination : Z) : option NodeBuilder :=
  if negb (m_inverted cs) then addRuns 129 (CharacterSet_get cs) 0 source destination
  else addRuns 129 (λ c, negb (CharacterSet_get cs c)) 1 source destination.

Section Generate.
Context `{HashOrder}.

Section Group.
(** [generateGraph(nfa, source, destination)] of the terms of the group; it
    returns the NFA and the builder of the source. *)
Variable graph : Term -> NFA -> NodeBuilder -> Z -> option (NFA * NodeBuilder).

(** [generateGraph(nfa, source, finalActions)] returns the builder of the end too. *)
Definition graphToNewEnd (t : Term) (nfa : NFA) (source : NodeBuilder) (finalActions : list Z)
    : option (NFA * NodeBuilder * NodeBuilder) :=
  let '(nfa, newEnd) := newBuilder nfa in
  '(nfa, source) ← graph t nfa source (m_nodeId newEnd);
  Some (nfa, source, builder_setActions newEnd finalActions).

(** The terms after the first one; [lastTarget] is finalized when it is assigned
    to and when it goes out of scope. *)
Fixpoint graphOfRest (terms : list Term) (nfa : NFA) (lastTarget : NodeBuilder) (destination : Z) : option NFA :=
  match terms with
  | [] => finalize lastTarget nfa
  | currentTerm :: terms =>
      match terms with
      | [] =>
          '(nfa, lastTarget) ← graph currentTerm nfa lastTarget destination;
          finalize lastTarget nfa
      | _ =>
          '(nfa, lastTarget, newNode) ← graphToNewEnd currentTerm nfa lastTarget [];
          nfa ← finalize lastTarget nfa;
          graphOfRest terms nfa newNode destination
      end
  end.

Definition graphOfGroup (terms : list Term) (nfa : NFA) (source : NodeBuilder) (destination : Z)
    : option (NFA * NodeBuilder) :=
  match terms with
  | [] => Some (nfa, addEpsilonTransition source destination)
  | first :: rest =>
      match rest with
      | [] => graph first nfa source destination
      | _ =>
          '(nfa, source, lastTarget) ← graphToNewEnd first nfa source [];
          nfa ← graphOfRest rest nfa lastTarget destination;
          Some (nfa, source)
      end
  end.
End Group.

(** The cases of [generateGraph] that repeat the atom; [skippable] for
    [ZeroOrMore].  The builders of the repetition are finalized in the reverse
    order of their construction. *)
Definition graphOfLoop (atom : NFA -> NodeBuilder -> Z -> option (NFA * NodeBuilder)) (skippable : bool)
    (nfa : NFA) (source : NodeBuilder) (destination : Z) : option (NFA * NodeBuilder) :=
  let '(nfa, repeatStart) := newBuilder nfa in
  let source := addEpsilonTransition source (m_nodeId repeatStart) in
  let '(nfa, repeatEnd) := newBuilder nfa in
  '(nfa, repeatStart) ← atom nfa repeatStart (m_nodeId repeatEnd);
  let repeatEnd := addEpsilonTransition repeatEnd (m_nodeId repeatStart) in
  let repeatEnd := addEpsilonTransition repeatEnd destination in
  let source := if skippable then addEpsilonTransition source destination else source in
  nfa ← finalize repeatEnd nfa;
  nfa ← finalize repeatStart nfa;
  Some (nfa, source).

(** [generateGraph] on the graph of the atom. *)
Definition quantifiedGraph (quantifier : AtomQuantifier)
    (atom : NFA -> NodeBuilder -> Z -> option (NFA * NodeBuilder))
    (nfa : NFA) (source : NodeBuilder) (destination : Z) : option (NFA * NodeBuilder) :=
  match quantifier with
  | One => atom nfa source destination
  | ZeroOrOne =>
      '(nfa, source) ← atom nfa source destination;
      Some (nfa, addEpsilonTransition source destination)
  | ZeroOrMore => graphOfLoop atom true nfa source destination
  | OneOrMore => graphOfLoop atom false nfa source destination
  end.

Fixpoint generateGraph (t : Term) (nfa : NFA) (source : NodeBuilder) (destination : Z) : option (NFA * NodeBuilder) :=
  quantifiedGraph (m_quantifier t)
    (* generateSubgraphForAtom *)
    (λ nfa source destination,
       match t with
       | EmptyTerm _ => Some (nfa, addEpsilonTransition source destination)
       | CharacterSetTerm _ cs => source ← addCharacterSet cs source destination; Some (nfa, source)
       | GroupTerm _ terms => graphOfGroup generateGraph terms nfa source destination
       end)
    nfa source destination.

End Generate.
