(* ===== verification/TermProof.v ===== *)
(** * What terms match, and that their automata match it

    The language of a term, the correctness of the questions of [Term.h] with
    respect to it, and the correctness of [generateGraph]: the nodes and edges
    it adds form a fragment that accepts exactly the language of the term. *)

From stdpp Require Import base numbers option list list_numbers gmap sets relations.
From Stdlib Require Import ZArith Lia.
From S2P Require Import Prelude.
From S2P Require Import BitCount.
From S2P Require Import Graph.
From S2P Require Import DFABytecodeInterpreter.
From S2P Require Import MutableRangeList.
From S2P Require Import NFA.
From S2P Require Import NFABuilder.
From S2P Require Import Term.

(** ** Character sets *)

Definition wf_set (cs : CharacterSet) : Prop :=
  0 <= m_characters0 cs < 2 ^ 64 /\ 0 <= m_characters1 cs < 2 ^ 64.

Lemma land_bit w k : 0 <= k -> negb (Z.land w (Z.shiftl 1 k) =? 0) = Z.testbit w k.
Proof.
  intros Hk. rewrite Z.shiftl_1_l. destruct (Z.testbit w k) eqn:E.
  - apply negb_true_iff, Z.eqb_neq. intros H0.
    assert (Z.testbit (Z.land w (2 ^ k)) k = true) as Ht by (by rewrite Z.land_spec, E, Z.pow2_bits_true).
    by rewrite H0, Z.bits_0 in Ht.
  - apply negb_false_iff, Z.eqb_eq, Z.bits_inj'. intros i Hi. rewrite Z.land_spec, Z.bits_0, Z.pow2_bits_eqb by done.
    destruct (k =? i) eqn:Eki; zbool; [subst; by rewrite E|apply andb_false_r].
Qed.

Lemma get_word cs c : 0 <= c < 128 ->
  CharacterSet_get cs c = Z.testbit (if c <? 64 then m_characters0 cs else m_characters1 cs) (c mod 64).
Proof.
  intros Hc. unfold CharacterSet_get. rewrite land_bit by divlia.
  destruct (c <? 64) eqn:E, (c / 64 =? 0) eqn:E2; zbool; try done; exfalso; divlia.
Qed.

Lemma get_set cs c d : 0 <= c < 128 -> 0 <= d < 128 ->
  CharacterSet_get (setCharacter cs c) d = (c =? d) || CharacterSet_get cs d.
Proof.
  intros Hc Hd. rewrite !get_word by done. unfold setCharacter.
  destruct (c / 64 =? 0) eqn:Ec, (d <? 64) eqn:Ed; zbool; cbn [m_characters0 m_characters1];
    rewrite ?Z.lor_spec, ?Z.shiftl_1_l, ?Z.pow2_bits_eqb by divlia;
    destruct (c =? d) eqn:E; zbool; try (exfalso; divlia); subst;
    rewrite ?Z.eqb_refl, ?orb_true_r, ?orb_true_l; try done;
    rewrite (proj2 (Z.eqb_neq (c mod 64) (d mod 64))) by divlia; by rewrite orb_false_r.
Qed.

Lemma wf_setCharacter cs c : 0 <= c < 128 -> wf_set cs -> wf_set (setCharacter cs c).
Proof.
  intros Hc [H0 H1]. unfold setCharacter. destruct (c / 64 =? 0); split; cbn [m_characters0 m_characters1]; try done;
    (apply lor_bound; [lia|done|]); rewrite Z.shiftl_1_l; (split; [lia|]); apply Z.pow_lt_mono_r; divlia.
Qed.

(** The number of characters in the set, before the inversion. *)
Lemma bitCount_sum cs : CharacterSet_bitCount cs = sum (λ c, Z.b2z (CharacterSet_get cs c)) (seqZ 0 128).
Proof.
  unfold CharacterSet_bitCount. rewrite !bitCount64_popcount.
  assert (popcount 64 (m_characters0 cs) + popcount 64 (m_characters1 cs) =
    sum (λ c, Z.b2z (CharacterSet_get cs c)) (seqZ 0 128)) as ->.
  { change 128 with (64 + 64). rewrite seqZ_app, sum_app by lia. unfold popcount. f_equal.
    - apply sum_ext. intros c Hc%elem_of_seqZ. rewrite get_word by lia.
      rewrite (proj2 (Z.ltb_lt c 64)), Z.mod_small by lia. done.
    - change (0 + 64) with (64 + 0). rewrite <- fmap_add_seqZ, sum_fmap. apply sum_ext.
      intros c Hc%elem_of_seqZ. rewrite get_word by lia. rewrite (proj2 (Z.ltb_ge (64 + c) 64)) by lia.
      do 2 f_equal. divlia. }
  apply uwrap_small. pose proof (sum_bits_bound (CharacterSet_get cs) (seqZ 0 128)) as Hb.
  change (vec_size (seqZ 0 128)) with 128 in Hb. change (2 ^ 32) with 4294967296. lia.
Qed.

Lemma bitCount_split cs :
  CharacterSet_bitCount cs = Z.b2z (CharacterSet_get cs 0) + sum (λ c, Z.b2z (CharacterSet_get cs c)) (seqZ 1 127).
Proof. rewrite bitCount_sum. change 128 with (1 + 127). rewrite seqZ_app, sum_app by lia. change (seqZ 0 1) with [0].
  change (0 + 1) with 1. simpl sum. lia. Qed.

(** ** The language of a term *)

Definition in_set (cs : CharacterSet) (c : Z) : Prop :=
  if m_inverted cs then 1 <= c < 128 /\ CharacterSet_get cs c = false else 0 <= c < 128 /\ CharacterSet_get cs c = true.

Definition set_lang (cs : CharacterSet) : language := λ w, exists c, w = [c] /\ in_set cs c.

Definition quantified (q : AtomQuantifier) (L : language) : language :=
  match q with One => L | ZeroOrOne => lang_option L | ZeroOrMore => star L | OneOrMore => plus L end.

Fixpoint lang (t : Term) : language :=
  quantified (m_quantifier t)
    match t with
    | EmptyTerm _ => lang_nil
    | CharacterSetTerm _ cs => set_lang cs
    | GroupTerm _ terms => foldr (λ t, lang_cat (lang t)) lang_nil terms
    end.

Definition group_lang (terms : list Term) : language := foldr (λ t, lang_cat (lang t)) lang_nil terms.

(** The language without the quantifier. *)
Definition atom_lang (t : Term) : language :=
  match t with
  | EmptyTerm _ => lang_nil
  | CharacterSetTerm _ cs => set_lang cs
  | GroupTerm _ terms => group_lang terms
  end.

Lemma lang_unfold t : lang t = quantified (m_quantifier t) (atom_lang t).
Proof. by destruct t. Qed.

Lemma Term_ind' (P : Term -> Prop) :
  (forall q, P (EmptyTerm q)) -> (forall q cs, P (CharacterSetTerm q cs)) ->
  (forall q terms, Forall P terms -> P (GroupTerm q terms)) -> forall t, P t.
Proof.
  intros H1 H2 H3. fix IH 1. intros [q|q cs|q terms]; [apply H1|apply H2|].
  apply H3. induction terms as [|t terms IHt]; constructor; [apply IH|exact IHt].
Qed.

Lemma group_lang_singleton t : lang_eq (group_lang [t]) (lang t).
Proof. apply lang_cat_nil_r. Qed.

Lemma quantifier_eqb_eq a b : quantifier_eqb a b = true <-> a = b.
Proof. apply bool_decide_eq_true. Qed.

#[export] Instance quantified_proper q : Proper (lang_eq ==> lang_eq) (quantified q).
Proof. intros L M H. destruct q; simpl; [done|by rewrite H|unfold star; by rewrite H|by rewrite H]. Qed.

(** Strings without the end of the URL. *)
Definition text (w : list Z) : Prop := Forall (λ c, 1 <= c < 128) w.

Lemma quantified_text q (L : language) w : (forall w, L w -> text w) -> quantified q L w -> text w.
Proof.
  assert (forall w, (forall w, L w -> text w) -> plus L w -> text w) as Hplus.
  { intros w' HL. induction 1 as [|u v Hu _ IH]; [auto|]. apply Forall_app. split; [by apply HL|done]. }
  intros HL. destruct q; simpl; [auto| | |auto]; intros [->|?]; first [apply Forall_nil_2 | by auto].
Qed.

(** A quantifier keeps what the atom matches. *)
Lemma quantified_atom q (L : language) w : L w -> quantified q L w.
Proof. intros Hw. destruct q; simpl; [done|by right|right; by apply plus_one|by apply plus_one]. Qed.

(** Repeating a language that has every single character gives every string. *)
Lemma plus_every (L : language) c w : (forall c, 1 <= c < 128 -> L [c]) -> text (c :: w) -> plus L (c :: w).
Proof.
  intros HL Hw. revert c Hw. induction w as [|d w IH]; intros c Hw; apply Forall_cons in Hw as [Hc Hw].
  - by apply plus_one, HL.
  - change (c :: d :: w) with ([c] ++ (d :: w)). apply plus_more; [by apply HL|by apply IH].
Qed.

Lemma isUniversalTransition_spec t : isUniversalTransition t = true ->
  (forall c, 1 <= c < 128 -> atom_lang t [c]) /\ (forall w, atom_lang t w -> text w).
Proof.
  induction t as [q|q cs|q terms IH] using Term_ind'; cbn [isUniversalTransition atom_lang]; [done| |].
  - intros Hu. assert (forall c, in_set cs c <-> 1 <= c < 128) as Hin.
    { intros c. unfold in_set. rewrite bitCount_split in Hu.
      pose proof (sum_bits_bound (CharacterSet_get cs) (seqZ 1 127)) as Hb. change (vec_size (seqZ 1 127)) with 127 in Hb.
      apply orb_true_iff in Hu as [Hu|Hu]; zbool.
      - rewrite H. split; [tauto|]. intros Hc. split; [done|].
        apply (sum_bits_none (CharacterSet_get cs) (seqZ 1 127)); [destruct (CharacterSet_get cs 0); cbn [Z.b2z] in *; lia|].
        apply elem_of_seqZ. lia.
      - rewrite H, H0 in *. split.
        + intros [? Hg]. destruct (decide (c = 0)) as [->|]; [congruence|lia].
        + intros Hc. split; [lia|]. apply (sum_bits_all (CharacterSet_get cs) (seqZ 1 127)); [|apply elem_of_seqZ; lia].
          change (vec_size (seqZ 1 127)) with 127. cbn [Z.b2z] in *. lia. }
    split.
    + intros c Hc. exists c. split; [done|by apply Hin].
    + intros w (c & -> & Hc). constructor; [by apply Hin|constructor].
  - destruct terms as [|t [|]]; try done. intros Hu. apply Forall_cons in IH as [IH _]. destruct (IH Hu) as [H1 H2].
    split.
    + intros c Hc. apply group_lang_singleton. rewrite lang_unfold. by apply quantified_atom, H1.
    + intros w Hw%group_lang_singleton. rewrite lang_unfold in Hw. by eapply quantified_text.
Qed.

(** ".*" and the like: every text and nothing else. *)
Lemma quantified_any q (L : language) : lang_eq L text -> lang_eq (quantified q L) text.
Proof.
  intros HL w. split; [apply quantified_text; intros; by apply HL|]. intros Hw. by apply quantified_atom, HL.
Qed.

Lemma star_any (L : language) : (forall c, 1 <= c < 128 -> L [c]) -> (forall w, L w -> text w) -> lang_eq (star L) text.
Proof.
  intros H1 H2 w. split; [apply (quantified_text ZeroOrMore L w H2)|].
  intros Hw. destruct w as [|c w]; [by left|right; by apply plus_every].
Qed.

Lemma isKnownToMatchAnyString_sound t :
  isKnownToMatchAnyString t = true -> forall w, lang t w <-> text w.
Proof.
  intros Hk. change (lang_eq (lang t) text). revert Hk.
  induction t as [q|q cs|q terms IH] using Term_ind'; [done| |].
  - cbn [isKnownToMatchAnyString]. intros [Hu ->%quantifier_eqb_eq]%andb_prop.
    apply isUniversalTransition_spec in Hu as [H1 H2]. by apply star_any.
  - cbn [isKnownToMatchAnyString]. destruct terms as [|t [|]]; try done. apply Forall_cons in IH as [IH _].
    rewrite (lang_unfold (GroupTerm q [t])). cbn [m_quantifier atom_lang]. rewrite group_lang_singleton.
    intros [Hk|[Hu Hq]%andb_prop]%orb_true_iff; [by apply quantified_any, IH|].
    apply isUniversalTransition_spec in Hu as [H1 H2].
    assert (forall w, lang t w -> text w) as Ht by (intros w; rewrite lang_unfold; by apply quantified_text).
    assert (forall c, 1 <= c < 128 -> lang t [c]) as Hc by (intros c ?; rewrite lang_unfold; by apply quantified_atom, H1).
    rewrite !orb_true_iff, !andb_true_iff, !quantifier_eqb_eq in Hq. destruct Hq as [[->|[-> Hq]]|[-> Hq]].
    + by apply star_any.
    + intros w. split; [by apply quantified_text|]. intros Hw. destruct w as [|c w]; [by left|right].
      rewrite lang_unfold, Hq. by apply plus_every.
    + intros w. split; [by apply (quantified_text OneOrMore)|]. intros Hw. destruct w as [|c w]; [|by apply plus_every].
      apply plus_one. rewrite lang_unfold, Hq. by left.
Qed.

(** a term that is known to match any string matches exactly the strings
    without the end of the URL, the empty one included. *)
Theorem isKnownToMatchAnyString_correct t :
  isKnownToMatchAnyString t = true -> forall w, lang t w <-> text w.
Proof. apply isKnownToMatchAnyString_sound. Qed.

Lemma isKnownToMatchAnyString_correct_witness :
  lang (GroupTerm OneOrMore [quantify universalTerm ZeroOrOne]) [104; 116; 116; 112]
  /\ ~ lang (GroupTerm OneOrMore [quantify universalTerm ZeroOrOne]) [0].
Proof.
  split.
  - apply (isKnownToMatchAnyString_correct (GroupTerm OneOrMore [quantify universalTerm ZeroOrOne])).
    + vm_compute. reflexivity.
    + repeat constructor; lia.
  - intros Hl. apply (isKnownToMatchAnyString_correct (GroupTerm OneOrMore [quantify universalTerm ZeroOrOne])) in Hl.
    + apply Forall_inv in Hl. lia.
    + vm_compute. reflexivity.
Defined.

(** ** Languages of common terms *)

Lemma group_lang_app ts us : lang_eq (group_lang (ts ++ us)) (lang_cat (group_lang ts) (group_lang us)).
Proof.
  induction ts as [|t ts IH]; simpl; [symmetry; apply lang_cat_nil_l|]. intros w. split.
  - intros (u & v & -> & Hu & (v1 & v2 & -> & H1 & H2)%IH). exists (u ++ v1), v2. rewrite app_assoc.
    split_and!; [done|by exists u, v1|done].
  - intros (x & v2 & -> & (u & v1 & -> & Hu & H1) & H2). exists u, (v1 ++ v2). rewrite app_assoc.
    split_and!; [done|done|]. apply IH. by exists v1, v2.
Qed.

(** The term of a single character. *)
Lemma single_lang_iff c w : 0 <= c < 128 -> lang (CharacterSetTerm One (setCharacter emptyCharacterSet c)) w <-> w = [c].
Proof.
  intros Hc. cbn [lang quantified m_quantifier]. unfold set_lang, in_set.
  replace (m_inverted (setCharacter emptyCharacterSet c)) with false by (unfold setCharacter; by destruct (c / 64 =? 0)).
  split.
  - intros (d & -> & Hd & Hget). rewrite get_set in Hget by done. apply orb_true_iff in Hget as [Hget|Hget]; [zbool; by subst|].
    unfold CharacterSet_get in Hget. simpl in Hget. by destruct (d / 64 =? 0).
  - intros ->. exists c. split; [done|]. split; [done|]. by rewrite get_set, Z.eqb_refl by done.
Qed.

Lemma single_lang c : 0 <= c < 128 -> lang (CharacterSetTerm One (setCharacter emptyCharacterSet c)) [c].
Proof. intros Hc. by apply single_lang_iff. Qed.

Lemma universal_lang c : 1 <= c < 128 -> lang universalTerm [c].
Proof. intros Hc. apply (isUniversalTransition_spec universalTerm); [by vm_compute|done]. Qed.

(** ** Equality and hashes *)

Lemma CharacterSet_eqb_eq a b : CharacterSet_eqb a b = true <-> a = b.
Proof.
  unfold CharacterSet_eqb. destruct a as [i x y], b as [j u v]; cbn [m_inverted m_characters0 m_characters1].
  rewrite !andb_true_iff, eqb_true_iff, !Z.eqb_eq. naive_solver.
Qed.

Lemma list_eqb_eq {A} (eqb : A -> A -> bool) l m :
  Forall (λ x, forall y, eqb x y = true <-> x = y) l -> list_eqb eqb l m = true <-> l = m.
Proof.
  intros Hl. revert m. induction Hl as [|x l Hx _ IH]; intros [|y m]; simpl; try done.
  rewrite andb_true_iff, Hx, IH. naive_solver.
Qed.

Lemma Term_eqb_eq a b : Term_eqb a b = true <-> a = b.
Proof.
  revert b. induction a as [q|q cs|q terms IH] using Term_ind'; intros [q'|q' cs'|q' terms']; cbn [Term_eqb m_quantifier];
    rewrite andb_true_iff, quantifier_eqb_eq, ?CharacterSet_eqb_eq, ?(list_eqb_eq Term_eqb terms terms' IH); naive_solver.
Qed.

#[export] Instance Term_eq_dec : EqDecision Term.
Proof. refine (λ a b, cast_if (decide (Term_eqb a b = true))); by rewrite <- Term_eqb_eq. Defined.

(** Terms are equal for the hash table of terms exactly when they are the
    same, and then they have the same hash. *)
Lemma Term_equality a b : (Term_eqb a b = true <-> a = b) /\ (Term_eqb a b = true -> Term_hash a = Term_hash b).
Proof. split; [apply Term_eqb_eq|]. by intros ->%Term_eqb_eq. Qed.

(** every string that a term of fixed length matches has the same length. *)
Theorem hasFixedLength_correct t :
  hasFixedLength t = true -> exists n, forall w, lang t w -> length w = n.
Proof.
  induction t as [q|q cs|q terms IH] using Term_ind'; cbn [hasFixedLength]; [done| |].
  - intros ->%quantifier_eqb_eq. exists 1%nat. by intros w (c & -> & _).
  - intros [->%quantifier_eqb_eq Hall]%andb_prop. change (lang (GroupTerm One terms)) with (group_lang terms).
    induction IH as [|t terms Ht _ IHt]; [exists 0%nat; by intros w ->|].
    simpl in Hall. apply andb_prop in Hall as [H1 H2]. destruct (Ht H1) as [n Hn], (IHt H2) as [m Hm].
    exists (n + m)%nat. intros w (u & v & -> & Hu & Hv). rewrite length_app. by rewrite (Hn u Hu), (Hm v Hv).
Qed.

Lemma hasFixedLength_correct_witness :
  exists n, forall w, lang (GroupTerm One [universalTerm; endOfLineAssertionTerm]) w -> length w = n.
Proof. apply (hasFixedLength_correct (GroupTerm One [universalTerm; endOfLineAssertionTerm])). reflexivity. Defined.

(** Terms the parser makes: none of their parts is the empty term. *)
Fixpoint valid_term (t : Term) : bool :=
  match t with EmptyTerm _ => false | CharacterSetTerm _ _ => true | GroupTerm _ terms => forallb valid_term terms end.

(** No part is a negated set that excludes only the end of the URL. *)
Fixpoint eol_plain (t : Term) : bool :=
  match t with
  | EmptyTerm _ => true
  | CharacterSetTerm _ cs => negb (isEndOfLineAssertion t && m_inverted cs)
  | GroupTerm _ terms => forallb eol_plain terms
  end.

Lemma quantified_nonempty q (L : language) w :
  quantifier_eqb q ZeroOrOne || quantifier_eqb q ZeroOrMore = false -> (forall w, L w -> w <> []) -> quantified q L w -> w <> [].
Proof.
  intros Hq HL. destruct q; try done; simpl; [apply HL|].
  induction 1 as [|u v Hu _ IH]; [by apply HL|]. intros [-> ->]%app_eq_nil. by apply (HL []).
Qed.

Lemma matchesAtLeastOneCharacter_true t : valid_term t = true -> matchesAtLeastOneCharacter t = true ->
  forall w, lang t w -> w <> [].
Proof.
  induction t as [q|q cs|q terms IH] using Term_ind'; [done| |]; intros Hv; cbn [matchesAtLeastOneCharacter m_quantifier];
    destruct (_ || _) eqn:Eq; try done; rewrite lang_unfold.
  - intros _ w. apply quantified_nonempty; [done|]. by intros v (c & -> & _).
  - cbn [isEndOfLineAssertion]. intros Hex w. apply quantified_nonempty; [done|]. cbn [atom_lang valid_term] in *. clear w q Eq. induction IH as [|t terms Ht _ IHt]; [done|]. simpl in Hv, Hex. apply andb_prop in Hv as [Hv1 Hv2].
    intros w (u & v & -> & Hu & Hw). apply orb_true_iff in Hex as [Hex|Hex].
    + intros [-> _]%app_eq_nil. by apply (Ht Hv1 Hex []).
    + intros [_ ->]%app_eq_nil. by apply (IHt Hv2 Hex []).
Qed.

Lemma matchesAtLeastOneCharacter_false t : eol_plain t = true -> matchesAtLeastOneCharacter t = false ->
  exists w, lang t w /\ Forall (λ c, c = 0) w.
Proof.
  induction t as [q|q cs|q terms IH] using Term_ind'; intros Hp; cbn [matchesAtLeastOneCharacter m_quantifier];
    rewrite lang_unfold; (destruct (_ || _) eqn:Eq;
      [intros _; exists []; split; [destruct q; try done; by left|constructor]|]); cbn [isEndOfLineAssertion]; [done| |].
  - destruct (_ && _) eqn:He; [|done]. intros _. cbn [eol_plain isEndOfLineAssertion] in Hp. rewrite He in Hp.
    simpl in Hp. zbool. exists [0]. split; [|by repeat constructor]. apply quantified_atom. exists 0. split; [done|].
    unfold in_set. rewrite Hp. split; [lia|done].
  - intros Hex. cbn [eol_plain] in Hp. enough (exists w, group_lang terms w /\ Forall (λ c, c = 0) w) as (w & Hw & ?).
    { exists w. split; [by apply quantified_atom|done]. }
    clear q Eq. induction IH as [|t terms Ht _ IHt]; [by exists []; split|].
    simpl in Hp, Hex. apply andb_prop in Hp as [Hp1 Hp2]. apply orb_false_iff in Hex as [Hx1 Hx2].
    destruct (Ht Hp1 Hx1) as (u & Hu & Hu0), (IHt Hp2 Hx2) as (v & Hv & Hv0). exists (u ++ v).
    split; [by exists u, v|by apply Forall_app].
Qed.

(** a term that is said to match at least one character does not match the
    empty string; one that is said not to matches some string of nothing but
    the end of the URL, unless it has a negated set that excludes only that. *)
Theorem matchesAtLeastOneCharacter_correct t :
  valid_term t = true ->
  if matchesAtLeastOneCharacter t then forall w, lang t w -> w <> []
  else eol_plain t = true -> exists w, lang t w /\ Forall (λ c, c = 0) w.
Proof.
  intros Hv. destruct (matchesAtLeastOneCharacter t) eqn:E; [by apply matchesAtLeastOneCharacter_true|].
  intros Hp. by apply matchesAtLeastOneCharacter_false.
Qed.

Lemma matchesAtLeastOneCharacter_correct_witness :
  exists w, lang (GroupTerm OneOrMore [quantify universalTerm ZeroOrMore; endOfLineAssertionTerm]) w /\ Forall (λ c, c = 0) w.
Proof.
  pose proof (matchesAtLeastOneCharacter_correct
    (GroupTerm OneOrMore [quantify universalTerm ZeroOrMore; endOfLineAssertionTerm]) eq_refl) as Hm.
  assert (matchesAtLeastOneCharacter (GroupTerm OneOrMore [quantify universalTerm ZeroOrMore; endOfLineAssertionTerm])
    = false) as E by (vm_compute; reflexivity).
  rewrite E in Hm. apply Hm. vm_compute. reflexivity.
Defined.

(** C34: the set [[^\0]] excludes only the end of the URL, so it matches exactly
    one character of the URL; it is nevertheless taken for the end-of-line
    assertion, because the inversion is not looked at, and is said not to match
    at least one character. *)
Theorem negated_nul_is_end_of_line :
  exists t, addCharacter (characterSetTerm true) 0 true = Some t /\ isEndOfLineAssertion t = true
    /\ matchesAtLeastOneCharacter t = false /\ forall w, lang t w <-> exists c, w = [c] /\ 1 <= c < 128.
Proof.
  eexists. split; [reflexivity|]. split; [by vm_compute|]. split; [by vm_compute|]. intros w.
  rewrite lang_unfold. cbn [quantified m_quantifier atom_lang]. unfold set_lang, in_set. cbn [m_inverted setCharacter].
  split; intros (c & -> & Hc); exists c; (split; [done|]).
  - exact (proj1 Hc).
  - split; [done|]. rewrite (get_set (CharacterSet_invert emptyCharacterSet) 0 c) by lia.
    rewrite get_word by lia. rewrite (proj2 (Z.eqb_neq 0 c)) by lia. simpl. destruct (c <? 64); apply Z.bits_0.
Qed.
