(* ===== verification/TermGraph.v ===== *)
(** * The automaton of a term accepts the language of the term

    [generateGraph] of [Term.h] adds to the NFA and to the builder of its source
    a fragment between the source and the destination whose language is that of
    the term; everything else in the NFA stays as it was. *)

From stdpp Require Import base numbers option list list_numbers gmap sets relations.
From Stdlib Require Import ZArith Lia.
From S2P Require Import Prelude.
From S2P Require Import Graph.
From S2P Require Import MutableRangeList.
From S2P Require Import NFA.
From S2P Require Import NFABuilder.
From S2P Require Import Term.
From S2P Require Import TermProof.

(** ** Runs of characters *)

Lemma advanceWhile_spec fuel p i : 0 <= i <= 128 -> 128 - i <= Z.of_nat fuel ->
  i <= advanceWhile fuel p i <= 128
  /\ (forall c, i <= c < advanceWhile fuel p i -> p c = true)
  /\ (advanceWhile fuel p i < 128 -> p (advanceWhile fuel p i) = false).
Proof.
  revert i. induction fuel as [|fuel IH]; intros i Hi Hf; cbn [advanceWhile].
  { split_and!; [lia|lia|intros; lia|intros; lia]. }
  destruct ((i <? 128) && p i) eqn:E.
  - zbool. destruct (IH (i + 1)) as (H1 & H2 & H3); [lia|lia|]. split_and!; [lia|lia| |done].
    intros c Hc. destruct (decide (c = i)) as [->|]; [done|]. apply H2. lia.
  - split_and!; [lia|lia|intros; lia|]. intros Hlt. rewrite (proj2 (Z.ltb_lt _ _) Hlt) in E. done.
Qed.

Lemma addRuns_spec fuel p i b dest :
  builder_wf b -> 0 <= i <= 128 -> 128 - i < Z.of_nat fuel ->
  exists b', addRuns fuel p i b dest = Some b' /\ builder_wf b'
    /\ m_epsilonTransitionTargets b' = m_epsilonTransitionTargets b /\ m_actions b' = m_actions b /\ m_nodeId b' = m_nodeId b
    /\ forall c m, builder_edge b' c m <-> builder_edge b c m \/ (m = dest /\ i <= c < 128 /\ p c = true).
Proof.
  revert i b. induction fuel as [|fuel IH]; intros i b Hb Hi Hf; [lia|]. cbn [addRuns].
  destruct (advanceWhile_spec 128 (λ c, negb (p c)) i) as (H1 & H2 & H3); [lia|lia|].
  set (j := advanceWhile 128 (λ c, negb (p c)) i) in *. destruct (j =? 128) eqn:Ej; zbool.
  { exists b. split_and!; try done. intros c m. split; [by left|]. intros [?|(_ & Hc & Hp)]; [done|].
    specialize (H2 c ltac:(lia)). simpl in H2. rewrite Hp in H2. done. }
  assert (p j = true) as Hpj by (apply negb_false_iff, H3; lia).
  destruct (advanceWhile_spec 128 p (j + 1)) as (K1 & K2 & K3); [lia|lia|].
  set (k := advanceWhile 128 p (j + 1)) in *.
  destruct (addTransition_spec b j (k - 1) dest) as (b1 & -> & Hb1 & Heps & Hact & Hid & Hedge); [done|lia|lia|].
  cbn [mbind option_bind]. destruct (IH k b1) as (b' & -> & Hb' & Heps' & Hact' & Hid' & Hedge'); [done|lia|lia|].
  exists b'. split_and!; [done|done|congruence|congruence|congruence|]. intros c m. rewrite Hedge', Hedge. split.
  - intros [[?|[? ->]]|(-> & ? & ?)]; [by left| |right; split_and!; [done|lia|lia|done]].
    right. split_and!; [done|lia|lia|]. destruct (decide (c = j)) as [->|]; [done|]. apply K2. lia.
  - intros [?|(-> & Hc & Hp)]; [tauto|]. destruct (decide (c < k)); [|right; split_and!; [done|lia|lia|done]].
    left. right. split; [|done]. split; [|lia]. apply Z.le_ngt. intros Hlt. specialize (H2 c ltac:(lia)).
    simpl in H2. rewrite Hp in H2. done.
Qed.

Lemma addCharacterSet_spec cs b dest :
  builder_wf b ->
  exists b', addCharacterSet cs b dest = Some b' /\ builder_wf b'
    /\ m_epsilonTransitionTargets b' = m_epsilonTransitionTargets b /\ m_actions b' = m_actions b /\ m_nodeId b' = m_nodeId b
    /\ forall c m, builder_edge b' c m <-> builder_edge b c m \/ (m = dest /\ in_set cs c).
Proof.
  intros Hb. unfold addCharacterSet, in_set. destruct (m_inverted cs); cbn [negb].
  - destruct (addRuns_spec 129 (λ c, negb (CharacterSet_get cs c)) 1 b dest)
      as (b1 & -> & ? & ? & ? & ? & Hedge); [done|lia|lia|].
    exists b1. split_and!; try done. intros c m. rewrite Hedge, negb_true_iff. done.
  - destruct (addRuns_spec 129 (CharacterSet_get cs) 0 b dest)
      as (b1 & -> & ? & ? & ? & ? & Hedge); [done|lia|lia|].
    exists b1. split_and!; done.
Qed.

(** ** What a call adds *)

Section Generate.
Context `{HashOrder}.

Definition size (nfa : NFA) : Z := vec_size (nfa_nodes nfa).

(** The parts of the nodes of [nfa] are still there in [nfa']. *)
Definition keeps (nfa nfa' : NFA) : Prop := forall n x, node_view nfa n = Some x -> node_view nfa' n = Some x.

Definition no_actions : Z -> Prop := λ _, False.

(** The edges of [n] in the finished nodes are those of the graph. *)
Definition from_graph (nfa : NFA) (g : graph) (n : Z) : Prop :=
  node_has nfa n (λ c m, g n (Some c) m) (λ m, g n None m) no_actions.

(** The builder has the edges of the graph at [n] besides those it had. *)
Definition adds_edges (b b' : NodeBuilder) (g : graph) : Prop :=
  (forall c m, builder_edge b' c m <-> builder_edge b c m \/ g (m_nodeId b) (Some c) m)
  /\ (forall m, m ∈ m_epsilonTransitionTargets b' <-> m ∈ m_epsilonTransitionTargets b \/ g (m_nodeId b) None m).

Record generates (nfa : NFA) (b : NodeBuilder) (dest : Z) (L : language) (nfa' : NFA) (b' : NodeBuilder) : Prop := {
  gen_size : size nfa <= size nfa';
  gen_keeps : keeps nfa nfa';
  gen_wf : builder_wf b';
  gen_id : m_nodeId b' = m_nodeId b;
  gen_actions : m_actions b' = m_actions b;
  gen_graph : exists g, frag g (m_nodeId b) dest (λ n, size nfa <= n < size nfa') L
    /\ adds_edges b b' g /\ forall n, size nfa <= n < size nfa' -> from_graph nfa' g n
}.

(** Source and destination are nodes of the NFA. *)
Definition ends_ok (nfa : NFA) (b : NodeBuilder) (dest : Z) : Prop :=
  builder_wf b /\ 0 <= m_nodeId b < size nfa /\ 0 <= dest < size nfa /\ m_nodeId b <> dest.

Definition generator := NFA -> NodeBuilder -> Z -> option (NFA * NodeBuilder).

Definition correct (gen : generator) (L : language) : Prop :=
  forall nfa b dest, ends_ok nfa b dest ->
  exists nfa' b', gen nfa b dest = Some (nfa', b') /\ generates nfa b dest L nfa' b'.

Lemma size_nonneg nfa : 0 <= size nfa.
Proof. apply vec_size_nonneg. Qed.

Lemma keeps_refl nfa : keeps nfa nfa.
Proof. by intros n x. Qed.

Lemma keeps_trans a b c : keeps a b -> keeps b c -> keeps a c.
Proof. intros H1 H2 n x Hx. auto. Qed.

Lemma node_has_keeps nfa nfa' n E P A : keeps nfa nfa' -> node_has nfa n E P A -> node_has nfa' n E P A.
Proof. intros Hk (ts & es & l & Hv & ?). exists ts, es, l. split; [by apply Hk|done]. Qed.

Lemma node_has_ext nfa n (E E' : Z -> Z -> Prop) (P P' A A' : Z -> Prop) :
  (forall c m, E c m <-> E' c m) -> (forall m, P m <-> P' m) -> (forall a, A a <-> A' a) ->
  node_has nfa n E P A -> node_has nfa n E' P' A'.
Proof.
  intros HE HP HA (ts & es & l & Hv & H1 & H2 & H3 & H4 & H5). exists ts, es, l.
  split_and!; try done; intros; [by rewrite <- HE|by rewrite <- HP|by rewrite <- HA].
Qed.

Lemma node_view_bound nfa n x : node_view nfa n = Some x -> 0 <= n < size nfa.
Proof.
  rewrite node_view_parts. intros Hv. destruct (vec_at (nfa_nodes nfa) n) eqn:E; [|done]. by apply vec_at_bound in E.
Qed.

Lemma newBuilder_spec nfa :
  exists nfa' b, newBuilder nfa = (nfa', b) /\ size nfa' = size nfa + 1 /\ keeps nfa nfa'
    /\ builder_wf b /\ m_nodeId b = size nfa
    /\ (forall c m, ~ builder_edge b c m) /\ m_epsilonTransitionTargets b = ∅ /\ m_actions b = ∅.
Proof.
  eexists _, _. split; [done|]. split_and!; try done.
  - unfold size. cbn [nfa_nodes]. by rewrite vec_size_app.
  - intros n x. rewrite !node_view_parts. cbn [nfa_nodes].
    destruct (vec_at (nfa_nodes nfa) n) as [node|] eqn:Ev; [|done]. cbn [mbind option_bind]. intros Hx.
    rewrite vec_at_app_l by (apply vec_at_bound in Ev; lia). rewrite Ev. cbn [mbind option_bind].
    pose proof (node_parts_grow nfa (nfa_nodes nfa ++ [emptyNFANode]) [] [] [] [] node x Hx) as Hgrow.
    by rewrite !app_nil_r in Hgrow.
  - apply (newBuilder_wf nfa).
  - apply (newBuilder_edge nfa).
Qed.

(** Finalizing a builder that is not one of the old nodes. *)
Lemma finalize_keeps b nfa0 nfa :
  builder_wf b -> size nfa0 <= m_nodeId b < size nfa -> keeps nfa0 nfa ->
  exists nfa', finalize b nfa = Some nfa' /\ size nfa' = size nfa /\ keeps nfa0 nfa'
    /\ node_has nfa' (m_nodeId b) (builder_edge b) (λ m, m ∈ m_epsilonTransitionTargets b) (λ a, a ∈ m_actions b)
    /\ forall n E P A, n <> m_nodeId b -> node_has nfa n E P A -> node_has nfa' n E P A.
Proof.
  intros Hb Hid Hk. pose proof (size_nonneg nfa0).
  destruct (finalize_node b nfa Hb) as (nfa' & Hf & Hsz & Hn & Hold); [unfold size in *; lia|].
  exists nfa'. split_and!; [done|done| |done|].
  - intros n x Hx. apply Hold; [|by apply Hk]. apply node_view_bound in Hx. lia.
  - intros n E P A Hne (ts & es & l & Hv & ?). exists ts, es, l. split; [by apply Hold|done].
Qed.

Lemma addEpsilon_edge b t c m : builder_edge (addEpsilonTransition b t) c m <-> builder_edge b c m.
Proof. done. Qed.

Lemma addEpsilon_eps b t m :
  m ∈ m_epsilonTransitionTargets (addEpsilonTransition b t) <-> m ∈ m_epsilonTransitionTargets b \/ m = t.
Proof. cbn. rewrite elem_of_union, elem_of_singleton. tauto. Qed.

(** ** Atoms *)

Lemma generates_here nfa b b' dest g L :
  builder_wf b' -> m_nodeId b' = m_nodeId b -> m_actions b' = m_actions b ->
  frag g (m_nodeId b) dest (λ _, False) L -> adds_edges b b' g -> generates nfa b dest L nfa b'.
Proof.
  intros Hw Hid Ha Hf He. split; [done|apply keeps_refl|done|done|done|]. exists g. split_and!; [|done|lia].
  eapply frag_ext; [exact Hf|done|intros; split; [done|lia]|done].
Qed.

Lemma epsilon_correct : correct (λ nfa b dest, Some (nfa, addEpsilonTransition b dest)) lang_nil.
Proof.
  intros nfa b dest (Hb & ? & ? & Hne). eexists _, _. split; [done|].
  apply generates_here with (g := single_edge (m_nodeId b) None dest); [done|done|done|by apply frag_eps|].
  split; [|intros m; rewrite addEpsilon_eps]; unfold single_edge; intros; [|naive_solver].
  rewrite addEpsilon_edge. naive_solver.
Qed.

Lemma set_correct cs :
  correct (λ nfa b dest, b ← addCharacterSet cs b dest; Some (nfa, b)) (set_lang cs).
Proof.
  intros nfa b dest (Hb & ? & ? & Hne). destruct (addCharacterSet_spec cs b dest Hb) as (b' & -> & Hw & He & Ha & Hid & Hedge).
  cbn [mbind option_bind]. eexists _, _. split; [done|].
  eapply generates_here; [done|done|done|by apply frag_set|]. split; [intros c m; rewrite Hedge; naive_solver|].
  intros m. rewrite He. naive_solver.
Qed.

(** ** Quantifiers *)

Lemma option_correct gen L : correct gen L ->
  correct (λ nfa b dest, '(nfa, b) ← gen nfa b dest; Some (nfa, addEpsilonTransition b dest)) (lang_option L).
Proof.
  intros Hgen nfa b dest Hok. destruct (Hgen nfa b dest Hok) as (nfa' & b' & -> & [Hsz Hk Hw Hid Ha (g & Hf & He & Hn)]).
  cbn [mbind option_bind]. eexists _, _. split; [done|]. split; [done|done|done|done|done|].
  exists (graph_union g (single_edge (m_nodeId b) None dest)). split_and!; [by apply frag_option| |].
  - split; intros; [rewrite addEpsilon_edge, (proj1 He)|rewrite addEpsilon_eps, (proj2 He)];
      unfold graph_union, single_edge; naive_solver.
  - intros n Hin. eapply node_has_ext; [..|by apply Hn]; intros; try done; unfold graph_union, single_edge;
      (split; [by left|]); intros [?|(-> & _)]; try done; by apply (fr_s _ _ _ _ _ Hf) in Hin.
Qed.

(** The graph of a repetition. *)
Definition loop_graph (g : graph) (skippable : bool) (s rs re d : Z) : graph :=
  let g' := graph_union g (loop_edges s rs re d) in
  if skippable then graph_union g' (single_edge s None d) else g'.

Definition loop_lang (skippable : bool) (L : language) : language := if skippable then star L else plus L.

Lemma loop_graph_frag g skippable s rs re d I L :
  frag g rs re I L -> s <> rs -> s <> re -> s <> d -> rs <> d -> re <> d -> ~ I s -> ~ I d ->
  frag (loop_graph g skippable s rs re d) s d (λ n, n = rs \/ n = re \/ I n) (loop_lang skippable L).
Proof.
  intros. unfold loop_graph, loop_lang. destruct skippable; [apply frag_option|]; by apply frag_loop.
Qed.

(** Its edges, by their source. *)
Section LoopEdges.
Context (g : graph) (skippable : bool) (s rs re d : Z) (I : Z -> Prop) (L : language).
Hypothesis Hf : frag g rs re I L.
Hypothesis Hse : s <> re.
Hypothesis Hsr : s <> rs.
Hypothesis HIs : ~ I s.

Lemma loop_graph_inside n l m : g n l m -> n <> s /\ n <> re.
Proof.
  intros Hg. pose proof (fr_source _ _ _ _ _ Hf _ _ _ Hg) as [->|Hi].
  - split; [congruence|apply (fr_ne _ _ _ _ _ Hf)].
  - split; intros ->; [done|by apply (fr_d _ _ _ _ _ Hf)].
Qed.

Lemma loop_graph_at_source l m :
  loop_graph g skippable s rs re d s l m <-> l = None /\ (m = rs \/ (skippable = true /\ m = d)).
Proof.
  pose proof (loop_graph_inside s l m). unfold loop_graph, loop_edges, graph_union, single_edge.
  destruct skippable; intuition congruence.
Qed.

Lemma loop_graph_at_end l m : loop_graph g skippable s rs re d re l m <-> l = None /\ (m = rs \/ m = d).
Proof.
  pose proof (loop_graph_inside re l m). unfold loop_graph, loop_edges, graph_union, single_edge.
  destruct skippable; intuition congruence.
Qed.

Lemma loop_graph_elsewhere n l m : n <> s -> n <> re -> loop_graph g skippable s rs re d n l m <-> g n l m.
Proof.
  intros. unfold loop_graph, loop_edges, graph_union, single_edge. destruct skippable; intuition congruence.
Qed.
End LoopEdges.

Lemma loop_correct atom L skippable :
  correct atom L -> correct (graphOfLoop atom skippable) (loop_lang skippable L).
Proof.
  intros Hatom nfa b dest (Hb & Hid & Hdest & Hne). unfold graphOfLoop.
  destruct (newBuilder_spec nfa) as (nfa1 & rs & -> & S1 & K1 & W1 & I1 & E1 & P1 & A1).
  destruct (newBuilder_spec nfa1) as (nfa2 & re & -> & S2 & K2 & W2 & I2 & E2 & P2 & A2).
  destruct (Hatom nfa2 rs (m_nodeId re)) as (nfa3 & rs' & -> & [S3 K3 W3 I3 A3 (g & Hf & [He Hp] & Hn)]);
    [split_and!; [done|lia..]|]. cbn [mbind option_bind]. set (N := size nfa) in *.
  assert (keeps nfa nfa3) as K by (eapply keeps_trans; [exact K1|]; by eapply keeps_trans).
  set (re' := addEpsilonTransition (addEpsilonTransition re (m_nodeId rs')) dest).
  assert (m_nodeId re' = m_nodeId re) as Ire by done.
  destruct (finalize_keeps re' nfa nfa3) as (nfa4 & -> & S4 & K4 & Hre & Hold4); [done|lia|done|]. cbn [mbind option_bind].
  destruct (finalize_keeps rs' nfa nfa4) as (nfa5 & -> & S5 & K5 & Hrs & Hold5); [done|lia|done|]. cbn [mbind option_bind].
  eexists _, _. split; [done|]. set (s := m_nodeId b) in *. rewrite Ire in Hre, Hold4. rewrite I3 in Hrs, Hold5.
  assert (~ (size nfa2 <= s < size nfa3)) as Hsi by lia.
  assert (s <> m_nodeId rs /\ s <> m_nodeId re /\ m_nodeId rs <> m_nodeId re) as (Hsrs & Hsre & Hrsre) by lia.
  split; [lia|done|by destruct skippable|by destruct skippable|by destruct skippable|].
  exists (loop_graph g skippable s (m_nodeId rs) (m_nodeId re) dest). split_and!.
  - eapply frag_ext; [apply (loop_graph_frag _ skippable s _ _ dest _ _ Hf); lia|done| |done].
    intros n. simpl. lia.
  - split; fold s; intros; rewrite (loop_graph_at_source _ _ _ _ _ _ _ _ Hf Hsre Hsrs Hsi); destruct skippable;
      rewrite ?addEpsilon_edge, ?addEpsilon_eps; intuition congruence.
  - intros n Hin. unfold from_graph. destruct (decide (n = m_nodeId re)) as [->|Hnre].
    + apply Hold5; [done|]. eapply node_has_ext; [..|exact Hre]; intros;
        rewrite ?(loop_graph_at_end _ _ _ _ _ _ _ _ Hf Hsre Hsrs Hsi); unfold re'.
      * rewrite !addEpsilon_edge. split; [by intros ?%E2|by intros [? _]].
      * rewrite !addEpsilon_eps, P2, I3, elem_of_empty. tauto.
      * cbn. by rewrite A2, elem_of_empty.
    + assert (n <> s) as Hns by lia.
      eapply node_has_ext with (E := λ c m, g n (Some c) m) (P := λ m, g n None m) (A := no_actions); [..|done|];
        [intros; symmetry; by apply loop_graph_elsewhere..|].
      destruct (decide (n = m_nodeId rs)) as [->|Hnrs]; [|apply Hold5, Hold4, Hn; lia].
      eapply node_has_ext; [..|exact Hrs]; intros; rewrite ?He, ?Hp, ?A3, ?P1, ?A1, ?elem_of_empty; [|tauto|done].
      specialize (E1 c m). tauto.
Qed.

Lemma quantified_correct q atom L : correct atom L -> correct (quantifiedGraph q atom) (quantified q L).
Proof.
  intros Hatom. destruct q; simpl; [done|by apply option_correct|by apply (loop_correct atom L true)|
    by apply (loop_correct atom L false)].
Qed.

(** ** Groups *)

(** A fragment to a new node [m] and one from it, with the nodes they added. *)
Lemma seq_graph g1 g2 s m d S1 S2 L1 L2 :
  frag g1 s m (λ n, m + 1 <= n < S1) L1 -> frag g2 m d (λ n, S1 <= n < S2) L2 ->
  s < m -> d < m -> s <> d -> m + 1 <= S1 <= S2 ->
  let g := graph_union g1 g2 in
  frag g s d (λ n, m <= n < S2) (lang_cat L1 L2)
  /\ (forall l k, g s l k <-> g1 s l k) /\ (forall l k, g m l k <-> g2 m l k)
  /\ (forall n l k, m + 1 <= n < S1 -> g n l k <-> g1 n l k)
  /\ (forall n l k, S1 <= n < S2 -> g n l k <-> g2 n l k).
Proof.
  intros H1 H2 Hs Hd Hsd Hsz g. split.
  { eapply frag_ext; [apply (frag_seq _ _ _ _ _ _ _ _ _ H1 H2)|done| |done]; try lia. intros n. cbv beta. lia. }
  assert (forall n l k, g1 n l k -> n = s \/ m + 1 <= n < S1) as Hg1 by apply H1.
  assert (forall n l k, g2 n l k -> n = m \/ S1 <= n < S2) as Hg2 by apply H2.
  unfold g, graph_union. split_and!; intros; (split; [intros [Hg|Hg]; [|]|intros; tauto]); try done;
    [apply Hg2 in Hg|apply Hg1 in Hg|apply Hg2 in Hg|apply Hg1 in Hg]; lia.
Qed.

Section Terms.
Context (graph_of : Term -> generator).

Lemma newEnd_step t finalActions nfa b :
  correct (graph_of t) (lang t) -> builder_wf b -> 0 <= m_nodeId b < size nfa ->
  exists nfa' b' e g, graphToNewEnd graph_of t nfa b finalActions = Some (nfa', b', e)
    /\ size nfa + 1 <= size nfa' /\ keeps nfa nfa'
    /\ builder_wf b' /\ m_nodeId b' = m_nodeId b /\ m_actions b' = m_actions b /\ adds_edges b b' g
    /\ frag g (m_nodeId b) (size nfa) (λ n, size nfa + 1 <= n < size nfa') (lang t)
    /\ (forall n, size nfa + 1 <= n < size nfa' -> from_graph nfa' g n)
    /\ builder_wf e /\ m_nodeId e = size nfa /\ (forall c m, ~ builder_edge e c m)
    /\ m_epsilonTransitionTargets e = ∅ /\ (forall a, a ∈ m_actions e <-> a ∈ finalActions).
Proof.
  intros Hc Hb Hid. unfold graphToNewEnd.
  destruct (newBuilder_spec nfa) as (nfa1 & e & -> & S1 & K1 & W1 & I1 & E1 & P1 & A1).
  destruct (Hc nfa1 b (m_nodeId e)) as (nfa2 & b' & -> & [S2 K2 W2 I2 A2 (g & Hf & He & Hn)]); [split_and!; [done|lia..]|].
  cbn [mbind option_bind]. eexists _, _, _, g. split; [done|]. rewrite S1, I1 in *.
  split_and!; try done; [by eapply keeps_trans|]. intros a. cbn. rewrite A1, elem_of_union, elem_of_list_to_set, elem_of_empty. tauto.
Qed.

Lemma rest_spec terms nfa b dest :
  Forall (λ t, correct (graph_of t) (lang t)) terms -> terms <> [] -> ends_ok nfa b dest ->
  exists nfa' g, graphOfRest graph_of terms nfa b dest = Some nfa' /\ size nfa <= size nfa'
    /\ (forall n x, n <> m_nodeId b -> node_view nfa n = Some x -> node_view nfa' n = Some x)
    /\ frag g (m_nodeId b) dest (λ n, size nfa <= n < size nfa') (group_lang terms)
    /\ node_has nfa' (m_nodeId b) (λ c m, builder_edge b c m \/ g (m_nodeId b) (Some c) m)
         (λ m, m ∈ m_epsilonTransitionTargets b \/ g (m_nodeId b) None m) (λ a, a ∈ m_actions b)
    /\ forall n, size nfa <= n < size nfa' -> from_graph nfa' g n.
Proof.
  intros Hc Hne. revert nfa b Hne. induction Hc as [|t terms Ht Hts IH]; intros nfa b Hne (Hb & Hid & Hdest & Hnd); [done|].
  cbn [graphOfRest]. destruct terms as [|t' terms].
  - destruct (Ht nfa b dest) as (nfa1 & b1 & -> & [S1 K1 W1 I1 A1 (g & Hf & [He Hp] & Hn)]); [done|]. cbn [mbind option_bind].
    destruct (finalize_node b1 nfa1 W1) as (nfa2 & Hfin & S2 & Hnode & Hold); [unfold size in *; lia|].
    change (vec_size (nfa_nodes ?x)) with (size x) in S2. exists nfa2, g. rewrite S2, I1 in *. split_and!; [done|done| | | |].
    + intros n x Hnx Hx. apply Hold; [done|]. by apply K1.
    + eapply frag_ext; [exact Hf|done|done|]. symmetry. apply group_lang_singleton.
    + eapply node_has_ext; [exact He|exact Hp| |exact Hnode]. intros a. by rewrite A1.
    + intros n Hn'. destruct (Hn n Hn') as (ts & es & l & Hv & ?). exists ts, es, l. split; [|done]. apply Hold; [lia|done].
  - destruct (newEnd_step t [] nfa b Ht Hb Hid)
      as (nfa1 & b1 & e & g1 & -> & S1 & K1 & W1 & I1 & A1 & [He Hp] & Hf1 & Hn1 & We & Ie & Ee & Pe & Ae). cbn [mbind option_bind].
    destruct (finalize_node b1 nfa1 W1) as (nfa2 & -> & S2 & Hnode & Hold); [unfold size in *; lia|]. cbn [mbind option_bind].
    change (vec_size (nfa_nodes ?x)) with (size x) in S2. rewrite I1 in *.
    destruct (IH nfa2 e) as (nfa' & g2 & Hr & S' & Hold' & Hf2 & He2 & Hn2); [done|split_and!; [done|lia..]|].
    rewrite Ie, S2 in *.
    destruct (seq_graph g1 g2 (m_nodeId b) (size nfa) dest (size nfa1) (size nfa') _ _ Hf1 Hf2)
      as (Hf & Gs & Gm & G1 & G2); [lia..|].
    exists nfa', (graph_union g1 g2). split_and!; [done|lia| |exact Hf| |].
    + intros n x Hnx Hx. apply Hold'; [apply node_view_bound in Hx; lia|]. apply Hold; [done|]. by apply K1.
    + destruct Hnode as (ts & es & l & Hv & Hrest). apply Hold' in Hv; [|lia].
      eapply node_has_ext with (E := builder_edge b1) (P := λ m, m ∈ m_epsilonTransitionTargets b1)
        (A := λ a, a ∈ m_actions b1); [..|exists ts, es, l; by split]; intros; rewrite ?Gs, ?A1, ?He, ?Hp; done.
    + intros n Hn'. destruct (decide (n = size nfa)) as [->|Hnm].
      * eapply node_has_ext; [..|exact He2]; intros; rewrite ?Gm, ?Pe, ?elem_of_empty, ?Ae; [|tauto|].
        { specialize (Ee c m). tauto. }
        { unfold no_actions. by rewrite elem_of_nil. }
      * destruct (decide (n < size nfa1)) as [Hlt|Hge].
        { eapply node_has_ext with (E := λ c m, g1 n (Some c) m) (P := λ m, g1 n None m) (A := no_actions);
            [intros; rewrite G1 by lia; done..|done|].
          destruct (Hn1 n ltac:(lia)) as (ts & es & l & Hv & Hrest). exists ts, es, l. split; [|done].
          apply Hold'; [lia|]. apply Hold; [lia|done]. }
        { eapply node_has_ext with (E := λ c m, g2 n (Some c) m) (P := λ m, g2 n None m) (A := no_actions);
            [intros; rewrite G2 by lia; done..|done|]. apply Hn2. lia. }
Qed.

Lemma group_correct terms :
  Forall (λ t, correct (graph_of t) (lang t)) terms -> correct (graphOfGroup graph_of terms) (group_lang terms).
Proof.
  intros Hc nfa b dest Hok. destruct Hc as [|t terms Ht Hts]; [by apply epsilon_correct|]. cbn [graphOfGroup].
  destruct terms as [|t' terms].
  { destruct (Ht nfa b dest Hok) as (nfa' & b' & -> & [S1 K1 W1 I1 A1 (g & Hf & He & Hn)]).
    eexists _, _. split; [done|]. split; try done. exists g. split_and!; [|done|done].
    eapply frag_ext; [exact Hf|done|done|]. symmetry. apply group_lang_singleton. }
  destruct Hok as (Hb & Hid & Hdest & Hnd).
  destruct (newEnd_step t [] nfa b Ht Hb Hid)
    as (nfa1 & b1 & e & g1 & -> & S1 & K1 & W1 & I1 & A1 & [He Hp] & Hf1 & Hn1 & We & Ie & Ee & Pe & Ae). cbn [mbind option_bind].
  destruct (rest_spec (t' :: terms) nfa1 e dest) as (nfa' & g2 & -> & S' & Hold' & Hf2 & He2 & Hn2);
    [done|done|split_and!; [done|lia..]|]. cbn [mbind option_bind]. rewrite Ie in *.
  destruct (seq_graph g1 g2 (m_nodeId b) (size nfa) dest (size nfa1) (size nfa') _ _ Hf1 Hf2)
    as (Hf & Gs & Gm & G1 & G2); [lia..|].
  eexists _, _. split; [done|]. split; [lia| |done|done|done|].
  - intros n x Hx. apply Hold'; [apply node_view_bound in Hx; lia|]. by apply K1.
  - exists (graph_union g1 g2). split_and!; [exact Hf|split; intros; rewrite Gs; [apply He|apply Hp]|].
    intros n Hn'. destruct (decide (n = size nfa)) as [->|Hnm].
    + eapply node_has_ext; [..|exact He2]; intros; rewrite ?Gm, ?Pe, ?elem_of_empty, ?Ae; [|tauto|].
      * specialize (Ee c m). tauto.
      * unfold no_actions. by rewrite elem_of_nil.
    + destruct (decide (n < size nfa1)) as [Hlt|Hge].
      * eapply node_has_ext with (E := λ c m, g1 n (Some c) m) (P := λ m, g1 n None m) (A := no_actions);
          [intros; rewrite G1 by lia; done..|done|].
        destruct (Hn1 n ltac:(lia)) as (ts & es & l & Hv & Hrest). exists ts, es, l. split; [|done].
        apply Hold'; [lia|done].
      * eapply node_has_ext with (E := λ c m, g2 n (Some c) m) (P := λ m, g2 n None m) (A := no_actions);
          [intros; rewrite G2 by lia; done..|done|]. apply Hn2. lia.
Qed.
End Terms.

(** [generateGraph] adds a fragment for the language of the term. *)
Lemma generateGraph_spec t : correct (generateGraph t) (lang t).
Proof.
  induction t as [q|q cs|q terms IH] using Term_ind'; cbn [generateGraph]; rewrite lang_unfold;
    cbn [m_quantifier atom_lang]; apply quantified_correct.
  - apply epsilon_correct.
  - apply set_correct.
  - by apply group_correct.
Qed.
End Generate.
