(* ===== verification/Yarr.v ===== *)
(** * The regular expression parser

    Models [YarrParser.h] of [src/Source/JavaScriptCore/yarr/].  The parser reads
    the pattern and calls its delegate; the calls are modelled as the list of
    events the parser appends.  Reading outside the pattern and a release
    assertion are [None], and so is the end of the fuel of a loop; [YarrProof]
    shows that none of them happens.

    Parameters: the Unicode category masks of ICU, the tables of Unicode
    properties that the build generates, and the only answer a delegate gives,
    [isValidNamedForwardReference]. *)

From stdpp Require Import base numbers option list list_numbers gmap sets.
From Stdlib Require Import ZArith Lia.
From S2P Require Import Prelude.
From S2P Require Import DFABytecodeInterpreter.
From S2P Require Import Term.

(** ** Characters *)

Definition isASCII (c : Z) : bool := Z.land c (Z.lnot 0x7F) =? 0.
Definition isASCIIAlphanumeric (c : Z) : bool := isASCIIDigit c || isASCIIAlpha c.
Definition isASCIIHexDigit (c : Z) : bool :=
  isASCIIDigit c || ((97 <=? toASCIILowerUnchecked c) && (toASCIILowerUnchecked c <=? 102)).
Definition isASCIIOctalDigit (c : Z) : bool := (48 <=? c) && (c <=? 55).
Definition toASCIIHexValue (c : Z) : Z := if c <? 65 then c - 48 else Z.land (c - 65 + 10) 0xF.

Definition U16_IS_LEAD (c : Z) : bool := Z.land (u32 c) 0xfffffc00 =? 0xd800.
Definition U16_IS_TRAIL (c : Z) : bool := Z.land (u32 c) 0xfffffc00 =? 0xdc00.
Definition U16_GET_SUPPLEMENTARY (lead trail : Z) : Z :=
  Z.shiftl lead 10 + trail - (Z.shiftl 0xd800 10 + 0xdc00 - 0x10000).

Definition U16_LEAD (supplementary : Z) : Z := u16 (Z.shiftr supplementary 10 + 0xd7c0).
Definition U16_TRAIL (supplementary : Z) : Z := u16 (Z.lor (Z.land supplementary 0x3ff) 0xdc00).

(** [StringBuilder::append(UChar32)]: the string has UTF-16 code units. *)
Definition appendCodePoint (s : list Z) (c : Z) : list Z :=
  if u32 c <=? 0xffff then s ++ [u16 c] else s ++ [U16_LEAD c; U16_TRAIL c].

(** ** Errors and events *)

Inductive ErrorCode :=
  | NoError | PatternTooLarge | QuantifierOutOfOrder | QuantifierWithoutAtom | QuantifierTooLarge
  | MissingParentheses | ParenthesesUnmatched | ParenthesesTypeInvalid | InvalidGroupName | DuplicateGroupName
  | CharacterClassUnmatched | CharacterClassOutOfOrder | EscapeUnterminated | InvalidUnicodeEscape
  | InvalidBackreference | InvalidIdentityEscape | InvalidUnicodePropertyExpression | TooManyDisjunctions | OffsetTooLarge
  | InvalidRegularExpressionFlags.

#[export] Instance ErrorCode_eq_dec : EqDecision ErrorCode.
Proof. solve_decision. Defined.

Definition hasError (e : ErrorCode) : bool := bool_decide (e <> NoError).

(** Built-in classes; a class of the generated tables has an index. *)
Inductive BuiltInCharacterClassID := DigitClassID | SpaceClassID | WordClassID | DotClassID | UnicodePropertyID (n : Z).

#[export] Instance BuiltInCharacterClassID_eq_dec : EqDecision BuiltInCharacterClassID.
Proof. solve_decision. Defined.

Definition quantifyInfinite : Z := UINT32_MAX.

(** The calls of the delegate. *)
Inductive YarrEvent :=
  | assertionBOL
  | assertionEOL
  | assertionWordBoundary (invert : bool)
  | atomPatternCharacter (ch : Z)
  | atomBuiltInCharacterClass (classID : BuiltInCharacterClassID) (invert : bool)
  | atomCharacterClassBegin (invert : bool)
  | atomCharacterClassAtom (ch : Z)
  | atomCharacterClassRange (first last : Z)
  | atomCharacterClassBuiltIn (classID : BuiltInCharacterClassID) (invert : bool)
  | atomCharacterClassEnd
  | atomParenthesesSubpatternBegin (capture : bool) (groupName : option (list Z))
  | atomParentheticalAssertionBegin (invert : bool)
  | atomParenthesesEnd
  | atomBackReference (subpatternId : Z)
  | atomNamedBackReference (subpatternName : list Z)
  | atomNamedForwardReference (subpatternName : list Z)
  | quantifyAtom (min max : Z) (greedy : bool)
  | disjunction.

(** ** The parser's state *)

Inductive CharacterClassConstructionState :=
  | CC_Empty | CachedCharacter | CachedCharacterHyphen | AfterCharacterClass | AfterCharacterClassHyphen.

(** The state of the parser, that of the [CharacterClassParserDelegate] while a
    class is parsed, and the calls made so far. *)
Record Parser := mkParser {
  m_index : Z;
  m_errorCode : ErrorCode;
  m_parenthesesNestingDepth : Z;
  m_captureGroupNames : gset (list Z);
  m_state : CharacterClassConstructionState;
  m_character : Z;
  calls : list YarrEvent
}.

Definition set_index (p : Parser) (i : Z) : Parser :=
  mkParser i (m_errorCode p) (m_parenthesesNestingDepth p) (m_captureGroupNames p) (m_state p) (m_character p) (calls p).
Definition set_error (p : Parser) (e : ErrorCode) : Parser :=
  mkParser (m_index p) e (m_parenthesesNestingDepth p) (m_captureGroupNames p) (m_state p) (m_character p) (calls p).
Definition set_depth (p : Parser) (d : Z) : Parser :=
  mkParser (m_index p) (m_errorCode p) d (m_captureGroupNames p) (m_state p) (m_character p) (calls p).
Definition set_names (p : Parser) (names : gset (list Z)) : Parser :=
  mkParser (m_index p) (m_errorCode p) (m_parenthesesNestingDepth p) names (m_state p) (m_character p) (calls p).
Definition set_class (p : Parser) (s : CharacterClassConstructionState) (ch : Z) : Parser :=
  mkParser (m_index p) (m_errorCode p) (m_parenthesesNestingDepth p) (m_captureGroupNames p) s ch (calls p).
Definition add_call (p : Parser) (e : YarrEvent) : Parser :=
  mkParser (m_index p) (m_errorCode p) (m_parenthesesNestingDepth p) (m_captureGroupNames p) (m_state p) (m_character p)
    (calls p ++ [e]).

(** A computation on the state that can fault. *)
Definition ParserM (A : Type) : Type := Parser -> option (A * Parser).

Definition ret {A} (x : A) : ParserM A := λ p, Some (x, p).
Definition bind {A B} (e : ParserM A) (k : A -> ParserM B) : ParserM B := λ p, match e p with Some (x, p) => k x p | None => None end.
Definition fault {A} : ParserM A := λ _, None.
Definition gets {A} (f : Parser -> A) : ParserM A := λ p, Some (f p, p).
Definition modify (f : Parser -> Parser) : ParserM unit := λ p, Some (tt, f p).
Definition call (e : YarrEvent) : ParserM unit := modify (λ p, add_call p e).
Definition raise (e : ErrorCode) : ParserM unit := modify (λ p, set_error p e).
Definition saveState : ParserM Z := gets m_index.
Definition restoreState (i : Z) : ParserM unit := modify (λ p, set_index p i).

Declare Scope yarr_scope.
Delimit Scope yarr_scope with yarr.
Notation "'let*' x := e 'in' k" := (bind e (λ x, k)) (at level 99, x pattern, e at level 200, k at level 200) : yarr_scope.
Notation "e ;* k" := (bind e (λ _, k)) (at level 100, right associativity) : yarr_scope.
#[local] Open Scope yarr_scope.

Section Parse.

Variable m_data : list Z.
Variable m_isUnicode : bool.
Variable m_backReferenceLimit : Z.

(** [U_GET_GC_MASK] of ICU and the generated tables of Unicode properties. *)
Variable U_GET_GC_MASK : Z -> Z.
Variable unicodeMatchProperty : list Z -> option BuiltInCharacterClassID.
Variable unicodeMatchPropertyValue : list Z -> list Z -> option BuiltInCharacterClassID.

(** The answer of the delegate. *)
Variable isValidNamedForwardReference : list Z -> bool.

Definition m_size : Z := vec_size m_data.

(** ** Reading the pattern *)

Definition atEndOfPattern : ParserM bool := gets (λ p, m_index p =? m_size).
Definition patternRemaining : ParserM Z := gets (λ p, m_size - m_index p).
Definition peek : ParserM Z := λ p, match vec_at m_data (m_index p) with Some c => Some (c, p) | None => None end.
Definition consume : ParserM Z :=
  λ p, match vec_at m_data (m_index p) with Some c => Some (c, set_index p (m_index p + 1)) | None => None end.
Definition peekIsDigit : ParserM bool :=
  let* e := atEndOfPattern in if e then ret false else let* c := peek in ret (isASCIIDigit c).
Definition consumeDigit : ParserM Z := let* c := consume in ret (c - 48).

Definition tryConsume (ch : Z) : ParserM bool :=
  let* e := atEndOfPattern in
  if e then ret false
  else let* c := peek in if negb (c =? ch) then ret false else consume ;* ret true.

(** [consumeNumber]; the checked integer is [None] once it has overflowed. *)
Fixpoint consumeDigits (fuel : nat) (n : option Z) : ParserM (option Z) :=
  let* d := peekIsDigit in
  if d then
    match fuel with
    | O => fault
    | S fuel =>
        let* digit := consumeDigit in
        consumeDigits fuel
          (match n with
           | Some n => if UINT32_MAX <? n * 10 + digit then None else Some (n * 10 + digit)
           | None => None
           end)
    end
  else ret n.

Definition consumeNumber : ParserM Z :=
  let* first := consumeDigit in
  let* n := consumeDigits (length m_data) (Some first) in
  ret (default quantifyInfinite n).

Fixpoint consumeOctalDigits (fuel : nat) (n : Z) : ParserM Z :=
  let* e := atEndOfPattern in
  if negb (n <? 32) || e then ret n
  else
    let* c := peek in
    if isASCIIOctalDigit c then
      match fuel with
      | O => fault
      | S fuel => let* digit := consumeDigit in consumeOctalDigits fuel (n * 8 + digit)
      end
    else ret n.

Definition consumeOctal : ParserM Z := let* n := consumeDigit in consumeOctalDigits (length m_data) n.

(** [tryConsumeHex]; [None] is the result [-1]. *)
Fixpoint tryConsumeHexFrom (state : Z) (count : nat) (n : Z) : ParserM (option Z) :=
  match count with
  | O => ret (Some n)
  | S count =>
      let* e := atEndOfPattern in
      if e then restoreState state ;* ret None
      else
        let* c := peek in
        if negb (isASCIIHexDigit c) then restoreState state ;* ret None
        else
          let* c := consume in
          tryConsumeHexFrom state count (Z.lor (Z.shiftl n 4) (toASCIIHexValue c))
  end.

Definition tryConsumeHex (count : nat) : ParserM (option Z) :=
  let* state := saveState in tryConsumeHexFrom state count 0.

(** The surrogate after a lead surrogate [u], or [u]. *)
Definition tryConsumeTrailEscape (u : Z) : ParserM Z :=
  let* remaining := patternRemaining in
  if U16_IS_LEAD u && m_isUnicode && (6 <=? remaining) then
    let* c := peek in
    if c =? 92 then
      let* state := saveState in
      consume ;*
      let* isU := tryConsume 117 in
      if isU then
        let* surrogate2 := tryConsumeHex 4 in
        if U16_IS_TRAIL (default (-1) surrogate2) then ret (U16_GET_SUPPLEMENTARY u (default (-1) surrogate2))
        else restoreState state ;* ret u
      else restoreState state ;* ret u
    else ret u
  else ret u.

Definition UCHAR_MAX_VALUE : Z := 0x10ffff.

(** The digits of [\u{...}] in [tryConsumeUnicodeEscape]; [None] after an error. *)
Fixpoint identifierCodePoint (fuel : nat) (codePoint : Z) : ParserM (option Z) :=
  match fuel with
  | O => fault
  | S fuel =>
      let* e := atEndOfPattern in
      let* hex := (if e then ret false else let* c := peek in ret (isASCIIHexDigit c)) in
      if negb hex then raise InvalidUnicodeEscape ;* ret None
      else
        let* c := consume in
        let codePoint := s32 (Z.lor (Z.shiftl codePoint 4) (toASCIIHexValue c)) in
        if UCHAR_MAX_VALUE <? codePoint then raise InvalidUnicodeEscape ;* ret None
        else
          let* e := atEndOfPattern in
          let* brace := (if e then ret false else let* c := peek in ret (c =? 125)) in
          if e || brace then
            (if brace then consume ;* ret tt
             else let* error := gets (λ p, hasError (m_errorCode p)) in if error then ret tt else raise InvalidUnicodeEscape) ;*
            let* error := gets (λ p, hasError (m_errorCode p)) in
            ret (if error then None else Some codePoint)
          else identifierCodePoint fuel codePoint
  end.

Definition tryConsumeUnicodeEscape : ParserM (option Z) :=
  let* isU := tryConsume 117 in
  if negb isU then ret None
  else
    let* braces := (if m_isUnicode then tryConsume 123 else ret false) in
    if braces then identifierCodePoint (S (length m_data)) 0
    else
      let* u := tryConsumeHex 4 in
      match u with
      | None => ret None
      | Some u => let* u := tryConsumeTrailEscape u in ret (Some u)
      end.

Definition tryConsumeIdentifierCharacter : ParserM Z :=
  let* ch := peek in
  if ch =? 92 then
    consume ;* let* ch := tryConsumeUnicodeEscape in ret (default (-1) ch)
  else consume.

Definition U_GC_L_MASK : Z := 0x3e.
Definition isIdentifierStart (ch : Z) : bool :=
  (isASCII ch && (isASCIIAlpha ch || (ch =? 95) || (ch =? 36))) || negb (Z.land (U_GET_GC_MASK ch) U_GC_L_MASK =? 0).

Definition identifierPartMask : Z := Z.lor U_GC_L_MASK (Z.lor (Z.shiftl 1 6) (Z.lor (Z.shiftl 1 8) (Z.lor (Z.shiftl 1 9) (Z.shiftl 1 22)))).
Definition isIdentifierPart (ch : Z) : bool :=
  (isASCII ch && (isASCIIAlpha ch || (ch =? 95) || (ch =? 36)))
  || negb (Z.land (U_GET_GC_MASK ch) identifierPartMask =? 0) || (ch =? 0x200C) || (ch =? 0x200D).

Definition isUnicodePropertyValueExpressionChar (ch : Z) : bool := isASCIIAlphanumeric ch || (ch =? 95) || (ch =? 61).

(** The characters of a group name up to ['>']; [None] when it is malformed. *)
Fixpoint groupNameRest (fuel : nat) (name : list Z) : ParserM (option (list Z)) :=
  let* e := atEndOfPattern in
  if e then ret None
  else
    match fuel with
    | O => fault
    | S fuel =>
        let* ch := tryConsumeIdentifierCharacter in
        if ch =? 62 then ret (Some name)
        else if negb (isIdentifierPart ch) then ret None
        else groupNameRest fuel (appendCodePoint name ch)
    end.

Definition tryConsumeGroupName : ParserM (option (list Z)) :=
  let* e := atEndOfPattern in
  if e then ret None
  else
    let* state := saveState in
    let* ch := tryConsumeIdentifierCharacter in
    let* name := (if isIdentifierStart ch then groupNameRest (length m_data) (appendCodePoint [] ch) else ret None) in
    match name with
    | Some name => ret (Some name)
    | None => restoreState state ;* ret None
    end.

(** The loop of [tryConsumeUnicodePropertyExpression] after its first character. *)
Fixpoint propertyExpressionRest (fuel : nat) (expression propertyName : list Z) (foundEquals : bool) (errors : Z)
    : ParserM (option BuiltInCharacterClassID) :=
  let* e := atEndOfPattern in
  if e then raise InvalidUnicodePropertyExpression ;* ret None
  else
    match fuel with
    | O => fault
    | S fuel =>
        let* ch := peek in
        if ch =? 125 then
          consume ;*
          if negb (errors =? 0) then raise InvalidUnicodePropertyExpression ;* ret None
          else
            let result :=
              if foundEquals then unicodeMatchPropertyValue propertyName expression
              else unicodeMatchProperty expression in
            match result with
            | None => raise InvalidUnicodePropertyExpression ;* ret None
            | Some classID => ret (Some classID)
            end
        else
          consume ;*
          if ch =? 61 then
            if negb foundEquals then propertyExpressionRest fuel [] expression true errors
            else propertyExpressionRest fuel expression propertyName foundEquals (u32 (errors + 1))
          else if negb (isUnicodePropertyValueExpressionChar ch) then
            propertyExpressionRest fuel expression propertyName foundEquals (u32 (errors + 1))
          else propertyExpressionRest fuel (expression ++ [ch]) propertyName foundEquals errors
    end.

Definition tryConsumeUnicodePropertyExpression : ParserM (option BuiltInCharacterClassID) :=
  let* e := atEndOfPattern in
  let* ok := (if e then ret false else let* c := peek in ret (isUnicodePropertyValueExpressionChar c)) in
  if negb ok then raise InvalidUnicodePropertyExpression ;* ret None
  else let* c := consume in propertyExpressionRest (length m_data) [c] [] false 0.

(** ** Escapes *)

(** What [parseEscape] calls: the delegate itself or the one of a class. *)
Record EscapeDelegate := mkEscapeDelegate {
  ed_atomPatternCharacter : Z -> ParserM unit;
  ed_atomBuiltInCharacterClass : BuiltInCharacterClassID -> bool -> ParserM unit;
  ed_assertionWordBoundary : bool -> ParserM unit;
  ed_atomBackReference : Z -> ParserM unit;
  ed_atomNamedBackReference : list Z -> ParserM unit;
  ed_isValidNamedForwardReference : list Z -> ParserM bool;
  ed_atomNamedForwardReference : list Z -> ParserM unit
}.

Definition m_delegate : EscapeDelegate :=
  mkEscapeDelegate (λ ch, call (atomPatternCharacter ch)) (λ classID invert, call (atomBuiltInCharacterClass classID invert))
    (λ invert, call (assertionWordBoundary invert)) (λ n, call (atomBackReference n))
    (λ name, call (atomNamedBackReference name)) (λ name, ret (isValidNamedForwardReference name))
    (λ name, call (atomNamedForwardReference name)).

(** [strchr] over the syntax characters; it also finds the terminating NUL. *)
Definition syntaxCharacters : list Z := [94; 36; 92; 46; 42; 43; 63; 40; 41; 91; 93; 123; 125; 124; 47; 0].

Definition isIdentityEscapeAnError (ch : Z) : ParserM bool :=
  if m_isUnicode && negb (bool_decide (u8 ch ∈ syntaxCharacters)) then raise InvalidIdentityEscape ;* ret true
  else ret false.

(** The digits of [\u{...}] in [parseEscape]: an error does not end the loop when
    the code point is too large. *)
Fixpoint escapeCodePoint (fuel : nat) (codePoint : Z) : ParserM Z :=
  match fuel with
  | O => fault
  | S fuel =>
      let* e := atEndOfPattern in
      let* hex := (if e then ret false else let* c := peek in ret (isASCIIHexDigit c)) in
      if negb hex then raise InvalidUnicodeEscape ;* ret codePoint
      else
        let* c := consume in
        let codePoint := s32 (Z.lor (Z.shiftl codePoint 4) (toASCIIHexValue c)) in
        (if UCHAR_MAX_VALUE <? codePoint then raise InvalidUnicodeEscape else ret tt) ;*
        let* e := atEndOfPattern in
        if e then ret codePoint
        else let* c := peek in if c =? 125 then ret codePoint else escapeCodePoint fuel codePoint
  end.

Section Escape.
Variable inCharacterClass : bool.
Variable delegate : EscapeDelegate.

(** [delegate.atomPatternCharacter(ch)], unless the identity escape is an error. *)
Definition identityEscape (ch : Z) : ParserM bool :=
  let* error := isIdentityEscapeAnError ch in
  (if error then ret tt else ed_atomPatternCharacter delegate ch) ;* ret true.

(** [\b] and [\B] *)
Definition parseWordBoundary (letter character : Z) (invert : bool) : ParserM bool :=
  consume ;*
  if inCharacterClass then
    let* error := isIdentityEscapeAnError letter in
    (if error then ret tt else ed_atomPatternCharacter delegate character) ;* ret true
  else ed_assertionWordBoundary delegate invert ;* ret false.

Definition parseBuiltInClass (classID : BuiltInCharacterClassID) (invert : bool) : ParserM bool :=
  consume ;* ed_atomBuiltInCharacterClass delegate classID invert ;* ret true.

Definition parseControlEscape (ch : Z) : ParserM bool := consume ;* ed_atomPatternCharacter delegate ch ;* ret true.

Definition parseOctalEscape : ParserM bool := let* n := consumeOctal in ed_atomPatternCharacter delegate n ;* ret true.

(** A number that is no back reference. *)
Definition parseNonReference : ParserM bool :=
  let* c := peek in
  if 56 <=? c then let* c := consume in ed_atomPatternCharacter delegate c ;* ret true else parseOctalEscape.

Definition parseDecimalEscape : ParserM bool :=
  if negb inCharacterClass then
    let* state := saveState in
    let* backReference := consumeNumber in
    if backReference <=? m_backReferenceLimit then ed_atomBackReference delegate backReference ;* ret true
    else
      restoreState state ;*
      if m_isUnicode then raise InvalidBackreference ;* ret false else parseNonReference
  else parseNonReference.

Definition parseControlLetter : ParserM bool :=
  let* state := saveState in
  consume ;*
  let* e := atEndOfPattern in
  let* control := (if e then ret None else let* c := consume in ret (Some c)) in
  match control with
  | Some control =>
      if (if inCharacterClass then isASCIIAlphanumeric control || (control =? 95) else isASCIIAlpha control)
      then ed_atomPatternCharacter delegate (Z.land control 0x1f) ;* ret true
      else restoreState state ;* ed_atomPatternCharacter delegate 92 ;* ret true
  | None => restoreState state ;* ed_atomPatternCharacter delegate 92 ;* ret true
  end.

Definition parseHexEscape : ParserM bool :=
  consume ;*
  let* x := tryConsumeHex 2 in
  match x with
  | None => identityEscape 120
  | Some x => ed_atomPatternCharacter delegate x ;* ret true
  end.

(** [\k]: the state that is restored is the one after the [k]. *)
Definition parseNamedReference : ParserM bool :=
  consume ;*
  let* state := saveState in
  let notAReference := (restoreState state ;* ed_atomPatternCharacter delegate 107 ;* ret true) in
  let* e := atEndOfPattern in
  if negb e && negb inCharacterClass then
    let* c := consume in
    if c =? 60 then
      let invalid := (if m_isUnicode then raise InvalidBackreference ;* ret true else notAReference) in
      let* groupName := tryConsumeGroupName in
      match groupName with
      | Some groupName =>
          let* known := gets (λ p, bool_decide (groupName ∈ m_captureGroupNames p)) in
          if known then ed_atomNamedBackReference delegate groupName ;* ret true
          else
            let* forward := ed_isValidNamedForwardReference delegate groupName in
            if forward then ed_atomNamedForwardReference delegate groupName ;* ret true
            else invalid
      | None => invalid
      end
    else notAReference
  else notAReference.

Definition parsePropertyEscape : ParserM bool :=
  let* escapeChar := consume in
  if negb m_isUnicode then identityEscape escapeChar
  else
    let* braces := tryConsume 123 in
    if braces then
      let* optClassID := tryConsumeUnicodePropertyExpression in
      match optClassID with
      | None => ret true
      | Some classID => ed_atomBuiltInCharacterClass delegate classID (escapeChar =? 80) ;* ret true
      end
    else raise InvalidUnicodePropertyExpression ;* ret true.

Definition parseUnicodeEscape : ParserM bool :=
  consume ;*
  let* e := atEndOfPattern in
  if e then identityEscape 117
  else
    let* braces := (if m_isUnicode then tryConsume 123 else ret false) in
    if braces then
      let* codePoint := escapeCodePoint (S (length m_data)) 0 in
      let* closed := tryConsume 125 in
      let* error := gets (λ p, hasError (m_errorCode p)) in
      (if negb closed && negb error then raise InvalidUnicodeEscape else ret tt) ;*
      let* error := gets (λ p, hasError (m_errorCode p)) in
      if error then ret false else ed_atomPatternCharacter delegate codePoint ;* ret true
    else
      let* u := tryConsumeHex 4 in
      match u with
      | None => identityEscape 117
      | Some u => let* u := tryConsumeTrailEscape u in ed_atomPatternCharacter delegate u ;* ret true
      end.

Definition parseIdentityEscape : ParserM bool :=
  let* ch := peek in
  if (ch =? 45) && m_isUnicode && inCharacterClass then
    let* c := consume in ed_atomPatternCharacter delegate c ;* ret true
  else
    let* error := isIdentityEscapeAnError ch in
    if error then ret true else let* c := consume in ed_atomPatternCharacter delegate c ;* ret true.

Definition parseEscape : ParserM bool :=
  consume ;*
  let* e := atEndOfPattern in
  if e then raise EscapeUnterminated ;* ret false
  else
    let* c := peek in
    if c =? 98 then parseWordBoundary 98 8 false
    else if c =? 66 then parseWordBoundary 66 66 true
    else if c =? 100 then parseBuiltInClass DigitClassID false
    else if c =? 115 then parseBuiltInClass SpaceClassID false
    else if c =? 119 then parseBuiltInClass WordClassID false
    else if c =? 68 then parseBuiltInClass DigitClassID true
    else if c =? 83 then parseBuiltInClass SpaceClassID true
    else if c =? 87 then parseBuiltInClass WordClassID true
    else if (49 <=? c) && (c <=? 57) then parseDecimalEscape
    else if c =? 48 then parseOctalEscape
    else if c =? 102 then parseControlEscape 12
    else if c =? 110 then parseControlEscape 10
    else if c =? 114 then parseControlEscape 13
    else if c =? 116 then parseControlEscape 9
    else if c =? 118 then parseControlEscape 11
    else if c =? 99 then parseControlLetter
    else if c =? 120 then parseHexEscape
    else if c =? 107 then parseNamedReference
    else if (c =? 112) || (c =? 80) then parsePropertyEscape
    else if c =? 117 then parseUnicodeEscape
    else parseIdentityEscape.

End Escape.

(** ** Character classes *)

Definition setClass (s : CharacterClassConstructionState) (ch : Z) : ParserM unit := modify (λ p, set_class p s ch).
Definition setState (s : CharacterClassConstructionState) : ParserM unit := modify (λ p, set_class p s (m_character p)).

(** [CharacterClassParserDelegate::atomPatternCharacter] *)
Definition cc_atomPatternCharacter (ch : Z) (hyphenIsRange : bool) : ParserM unit :=
  let* state := gets m_state in
  let* character := gets m_character in
  match state with
  | AfterCharacterClass =>
      if hyphenIsRange && (ch =? 45) then call (atomCharacterClassAtom 45) ;* setState AfterCharacterClassHyphen
      else setClass CachedCharacter ch
  | CC_Empty => setClass CachedCharacter ch
  | CachedCharacter =>
      if hyphenIsRange && (ch =? 45) then setState CachedCharacterHyphen
      else call (atomCharacterClassAtom character) ;* setClass CachedCharacter ch
  | CachedCharacterHyphen =>
      if ch <? character then raise CharacterClassOutOfOrder
      else call (atomCharacterClassRange character ch) ;* setState CC_Empty
  | AfterCharacterClassHyphen => call (atomCharacterClassAtom ch) ;* setState CC_Empty
  end.

Definition cc_atomBuiltInCharacterClass (classID : BuiltInCharacterClassID) (invert : bool) : ParserM unit :=
  let* state := gets m_state in
  let* character := gets m_character in
  match state with
  | CachedCharacter =>
      call (atomCharacterClassAtom character) ;* setState AfterCharacterClass ;*
      call (atomCharacterClassBuiltIn classID invert)
  | CC_Empty | AfterCharacterClass => setState AfterCharacterClass ;* call (atomCharacterClassBuiltIn classID invert)
  | CachedCharacterHyphen =>
      call (atomCharacterClassAtom character) ;* call (atomCharacterClassAtom 45) ;*
      call (atomCharacterClassBuiltIn classID invert) ;* setState CC_Empty
  | AfterCharacterClassHyphen => call (atomCharacterClassBuiltIn classID invert) ;* setState CC_Empty
  end.

Definition cc_end : ParserM unit :=
  let* state := gets m_state in
  let* character := gets m_character in
  match state with
  | CachedCharacter => call (atomCharacterClassAtom character)
  | CachedCharacterHyphen => call (atomCharacterClassAtom character) ;* call (atomCharacterClassAtom 45)
  | _ => ret tt
  end ;*
  call atomCharacterClassEnd.

(** The other methods are release assertions that are not reached. *)
Definition characterClassConstructor : EscapeDelegate :=
  mkEscapeDelegate (λ ch, cc_atomPatternCharacter ch false) cc_atomBuiltInCharacterClass
    (λ _, fault) (λ _, fault) (λ _, fault) (λ _, fault) (λ _, fault).

Definition consumePossibleSurrogatePair : ParserM Z :=
  let* ch := consume in
  let* remaining := patternRemaining in
  if U16_IS_LEAD ch && m_isUnicode && (0 <? remaining) then
    let* state := saveState in
    let* surrogate2 := consume in
    if U16_IS_TRAIL surrogate2 then ret (U16_GET_SUPPLEMENTARY ch surrogate2)
    else restoreState state ;* ret ch
  else ret ch.

Fixpoint parseCharacterClassLoop (fuel : nat) : ParserM unit :=
  let* e := atEndOfPattern in
  if e then raise CharacterClassUnmatched
  else
    match fuel with
    | O => fault
    | S fuel =>
        let* c := peek in
        if c =? 93 then consume ;* cc_end
        else
          (if c =? 92 then parseEscape true characterClassConstructor ;* ret tt
           else let* ch := consumePossibleSurrogatePair in cc_atomPatternCharacter ch true) ;*
          let* error := gets (λ p, hasError (m_errorCode p)) in
          if error then ret tt else parseCharacterClassLoop fuel
    end.

Definition parseCharacterClass : ParserM unit :=
  consume ;*
  setClass CC_Empty 0 ;*
  let* invert := tryConsume 94 in
  call (atomCharacterClassBegin invert) ;*
  parseCharacterClassLoop (length m_data).

(** ** Parentheses and quantifiers *)

Definition incrementDepth : ParserM unit :=
  modify (λ p, set_depth p (u32 (m_parenthesesNestingDepth p + 1))).

(** A malformed type returns before the depth is changed only at the end of the
    pattern. *)
Definition parseParenthesesBegin : ParserM unit :=
  consume ;*
  let* special := tryConsume 63 in
  if special then
    let* e := atEndOfPattern in
    if e then raise ParenthesesTypeInvalid
    else
      let* c := consume in
      (if c =? 58 then call (atomParenthesesSubpatternBegin false None)
       else if c =? 61 then call (atomParentheticalAssertionBegin false)
       else if c =? 33 then call (atomParentheticalAssertionBegin true)
       else if c =? 60 then
         let* groupName := tryConsumeGroupName in
         match groupName with
         | Some groupName =>
             let* known := gets (λ p, bool_decide (groupName ∈ m_captureGroupNames p)) in
             if known then raise DuplicateGroupName
             else
               modify (λ p, set_names p ({[ groupName ]} ∪ m_captureGroupNames p)) ;*
               call (atomParenthesesSubpatternBegin true (Some groupName))
         | None => raise InvalidGroupName
         end
       else raise ParenthesesTypeInvalid) ;*
      incrementDepth
  else call (atomParenthesesSubpatternBegin true None) ;* incrementDepth.

Definition parseParenthesesEnd : ParserM unit :=
  consume ;*
  let* depth := gets m_parenthesesNestingDepth in
  (if 0 <? depth then call atomParenthesesEnd else raise ParenthesesUnmatched) ;*
  modify (λ p, set_depth p (u32 (m_parenthesesNestingDepth p - 1))).

Definition parseQuantifier (lastTokenWasAnAtom : bool) (min max : Z) : ParserM unit :=
  if min =? UINT32_MAX then raise QuantifierTooLarge
  else if lastTokenWasAnAtom then let* lazy := tryConsume 63 in call (quantifyAtom min max (negb lazy))
  else raise QuantifierWithoutAtom.

(** [{n}], [{n,}] and [{n,m}]; the result is whether it was a complete quantifier. *)
Definition parseBraces (lastTokenWasAnAtom : bool) : ParserM bool :=
  let* state := saveState in
  let incomplete := (restoreState state ;* ret false) in
  consume ;*
  let* digit := peekIsDigit in
  if digit then
    let* min := consumeNumber in
    let* comma := tryConsume 44 in
    let* max :=
      (if comma then let* digit := peekIsDigit in if digit then consumeNumber else ret quantifyInfinite
       else ret min) in
    let* closed := tryConsume 125 in
    if closed then
      (if min <=? max then parseQuantifier lastTokenWasAnAtom min max else raise QuantifierOutOfOrder) ;* ret true
    else incomplete
  else incomplete.

(** ** Tokens *)

Definition parseCharacter : ParserM bool :=
  let* ch := consumePossibleSurrogatePair in call (atomPatternCharacter ch) ;* ret true.

(** One token; the result is the new [lastTokenWasAnAtom]. *)
Definition parseToken (lastTokenWasAnAtom : bool) : ParserM bool :=
  let* c := peek in
  if c =? 124 then consume ;* call disjunction ;* ret false
  else if c =? 40 then parseParenthesesBegin ;* ret false
  else if c =? 41 then parseParenthesesEnd ;* ret true
  else if c =? 94 then consume ;* call assertionBOL ;* ret false
  else if c =? 36 then consume ;* call assertionEOL ;* ret false
  else if c =? 46 then consume ;* call (atomBuiltInCharacterClass DotClassID false) ;* ret true
  else if c =? 91 then parseCharacterClass ;* ret true
  else if c =? 92 then parseEscape false m_delegate
  else if c =? 42 then consume ;* parseQuantifier lastTokenWasAnAtom 0 quantifyInfinite ;* ret false
  else if c =? 43 then consume ;* parseQuantifier lastTokenWasAnAtom 1 quantifyInfinite ;* ret false
  else if c =? 63 then consume ;* parseQuantifier lastTokenWasAnAtom 0 1 ;* ret false
  else if c =? 123 then
    let* complete := parseBraces lastTokenWasAnAtom in
    if complete then ret false else parseCharacter
  else parseCharacter.

Fixpoint parseTokens (fuel : nat) (lastTokenWasAnAtom : bool) : ParserM unit :=
  let* e := atEndOfPattern in
  if e then
    let* depth := gets m_parenthesesNestingDepth in
    if 0 <? depth then raise MissingParentheses else ret tt
  else
    match fuel with
    | O => fault
    | S fuel =>
        let* atom := parseToken lastTokenWasAnAtom in
        let* error := gets (λ p, hasError (m_errorCode p)) in
        if error then ret tt else parseTokens fuel atom
    end.

Definition MAX_PATTERN_SIZE : Z := 1024 * 1024.

Definition initialParser : Parser := mkParser 0 NoError 0 ∅ CC_Empty 0 [].

(** [Yarr::parse]: the error code and the calls of the delegate. *)
Definition parse : option (ErrorCode * list YarrEvent) :=
  match (if MAX_PATTERN_SIZE <? m_size then raise PatternTooLarge else parseTokens (length m_data) false) initialParser with
  | Some (_, p) => Some (m_errorCode p, calls p)
  | None => None
  end.

End Parse.
