(* ===== verification/YarrReading.v ===== *)
(** * What the reading functions of the regular expression parser do

    A small program logic for the parser's computations and, for every function
    that reads the pattern: it does not fault, it changes the position and the
    error only, and the characters it returns are code points. *)

From stdpp Require Import base numbers option list list_numbers gmap sets.
From Stdlib Require Import ZArith Lia.
From S2P Require Import Prelude.
From S2P Require Import DFABytecodeInterpreter.
From S2P Require Import Term.
From S2P Require Import Yarr.
#[local] Open Scope yarr_scope.

(** ** Postconditions *)

(** The computation does not fault and its result satisfies [Q]. *)
Definition wp {A} (e : ParserM A) (p : Parser) (Q : A -> Parser -> Prop) : Prop :=
  exists x p', e p = Some (x, p') /\ Q x p'.

Lemma wp_ret {A} (x : A) p Q : Q x p -> wp (ret x) p Q.
Proof. intros HQ. by exists x, p. Qed.

Lemma wp_bind {A B} (e : ParserM A) (k : A -> ParserM B) p Q :
  wp e p (λ x p', wp (k x) p' Q) -> wp (bind e k) p Q.
Proof. intros (x & p' & He & y & p'' & Hk & HQ). exists y, p''. unfold bind. by rewrite He. Qed.

Lemma wp_gets {A} (f : Parser -> A) p Q : Q (f p) p -> wp (gets f) p Q.
Proof. intros HQ. by exists (f p), p. Qed.

Lemma wp_modify f p Q : Q tt (f p) -> wp (modify f) p Q.
Proof. intros HQ. by exists tt, (f p). Qed.

Lemma wp_mono {A} (e : ParserM A) p (Q Q' : A -> Parser -> Prop) :
  wp e p Q -> (forall x p', Q x p' -> Q' x p') -> wp e p Q'.
Proof. intros (x & p' & He & HQ) Himp. exists x, p'. auto. Qed.

Create HintDb yarr.

(** Run the primitive steps at the head of the computation. *)
Ltac wstep :=
  match goal with
  | |- wp (bind _ _) _ _ => apply wp_bind
  | |- wp (ret _) _ _ => apply wp_ret
  | |- wp (gets _) _ _ => apply wp_gets
  | |- wp (modify _) _ _ => apply wp_modify
  | |- wp (call _) _ _ => apply wp_modify
  | |- wp (raise _) _ _ => apply wp_modify
  | |- wp saveState _ _ => apply wp_gets
  | |- wp (restoreState _) _ _ => apply wp_modify
  end; cbv beta.
Ltac wsteps := repeat wstep.

(** Use the specification of the computation at the head. *)
Ltac wuse lem := eapply wp_mono; [eapply lem|cbv beta].

Section Proofs.

Context (m_data : list Z) (m_isUnicode : bool) (m_backReferenceLimit : Z).
Context (U_GET_GC_MASK : Z -> Z) (unicodeMatchProperty : list Z -> option BuiltInCharacterClassID).
Context (unicodeMatchPropertyValue : list Z -> list Z -> option BuiltInCharacterClassID).
Context (isValidNamedForwardReference : list Z -> bool).

(** The pattern is a string of UTF-16 code units. *)
Context (code_units : Forall (λ c, 0 <= c < 65536) m_data).

Notation m_size := (m_size m_data).

(** ** Reading *)

Definition inside (p : Parser) : Prop := 0 <= m_index p <= m_size.

(** Only the position, which moved at least [n] forward, and the error changed. *)
Record reads (n : Z) (p p' : Parser) : Prop := {
  rd_inside : inside p';
  rd_index : m_index p + n <= m_index p';
  rd_depth : m_parenthesesNestingDepth p' = m_parenthesesNestingDepth p;
  rd_names : m_captureGroupNames p' = m_captureGroupNames p;
  rd_state : m_state p' = m_state p;
  rd_character : m_character p' = m_character p;
  rd_calls : calls p' = calls p
}.

(** The position is not at the end. *)
Definition more (p : Parser) : Prop := 0 <= m_index p < m_size.

(** A code unit and a code point. *)
Definition unit_ok (c : Z) : Prop := 0 <= c < 65536.
Definition point_ok (c : Z) : Prop := 0 <= c <= UCHAR_MAX_VALUE.

Lemma more_inside p : more p -> inside p.
Proof. unfold more, inside. lia. Qed.

Lemma unit_point c : unit_ok c -> point_ok c.
Proof. unfold unit_ok, point_ok, UCHAR_MAX_VALUE. lia. Qed.

Lemma wp_atEnd p Q : inside p ->
  (m_index p = m_size -> Q true p) -> (more p -> Q false p) -> wp (atEndOfPattern m_data) p Q.
Proof.
  intros Hin Ht Hf. apply wp_gets. destruct (m_index p =? m_size) eqn:E; zbool; [by apply Ht|]. apply Hf.
  unfold more, inside in *. lia.
Qed.

(** The character at the position. *)
Definition current (p : Parser) (c : Z) : Prop := vec_at m_data (m_index p) = Some c /\ unit_ok c.

Lemma current_ex p : more p -> exists c, current p c.
Proof.
  intros Hm. destruct (vec_at_is_Some m_data (m_index p)) as [c Hc]; [exact Hm|]. exists c. split; [done|].
  apply vec_at_Some in Hc as [_ Hc]. by apply (Forall_lookup_1 _ _ _ _ code_units Hc).
Qed.

Lemma current_det p c d : current p c -> current p d -> d = c.
Proof. intros [Hc _] [Hd _]. congruence. Qed.

Lemma wp_peek p Q : more p -> (forall c, current p c -> Q c p) -> wp (peek m_data) p Q.
Proof.
  intros Hm HQ. destruct (current_ex p Hm) as [c Hc]. exists c, p. unfold peek. rewrite (proj1 Hc).
  split; [done|]. by apply HQ.
Qed.

Lemma reads_step p : more p -> reads 1 p (set_index p (m_index p + 1)).
Proof. intros Hm. unfold more in *. split; try done. unfold inside. simpl. lia. Qed.

Lemma wp_consume p Q : more p ->
  (forall c p', current p c -> reads 1 p p' -> m_errorCode p' = m_errorCode p -> m_index p' = m_index p + 1 -> Q c p') ->
  wp (consume m_data) p Q.
Proof.
  intros Hm HQ. destruct (current_ex p Hm) as [c Hc]. exists c, (set_index p (m_index p + 1)).
  unfold consume. rewrite (proj1 Hc). split; [done|]. apply HQ; [done|by apply reads_step|done..].
Qed.

(** Close a goal that says what was read, from what the parts read. *)
Ltac rd :=
  repeat match goal with H : reads _ _ _ |- _ => destruct H end;
  unfold more, inside in *; split; unfold inside; simpl in *; solve [assumption|lia|congruence].

(** Continue after what was read: the position is inside. *)
Ltac ins := first [assumption | by apply more_inside | by eapply rd_inside].

Ltac atEnd := wstep; apply wp_atEnd; [ins| |]; intros ?He.
Ltac peekc c := wstep; apply wp_peek; [done|]; intros c ?Hc.
Ltac consumec c q := try wstep; apply wp_consume; [done|]; intros c q ?Hc ?Hr ?Herr ?Hix.

Lemma peekIsDigit_reads p : inside p ->
  wp (peekIsDigit m_data) p (λ d p', p' = p /\ (d = true -> more p /\ exists c, current p c /\ 48 <= c <= 57)).
Proof.
  intros Hin. unfold peekIsDigit. atEnd; wsteps; [done|]. apply wp_peek; [done|]. intros c Hc. wsteps.
  split; [done|]. intros Hd. split; [done|]. exists c. unfold isASCIIDigit in Hd. zbool. split; [done|lia].
Qed.

(** [consumeDigit] at a digit. *)
Lemma consumeDigit_reads p c : more p -> current p c -> 48 <= c ->
  wp (consumeDigit m_data) p (λ d q, reads 1 p q /\ d = c - 48 /\ m_errorCode q = m_errorCode p).
Proof.
  intros Hm Hcur Hge. unfold consumeDigit. consumec d q. wsteps. by rewrite (current_det _ _ _ Hcur Hc).
Qed.

Lemma tryConsume_reads ch p : inside p ->
  wp (tryConsume m_data ch) p (λ b p', reads (if b then 1 else 0) p p' /\ m_errorCode p' = m_errorCode p).
Proof.
  intros Hin. unfold tryConsume. atEnd; wsteps; [split; [rd|done]|].
  apply wp_peek; [done|]. intros c Hc. destruct (negb (c =? ch)); wsteps; [split; [rd|done]|].
  consumec c' q. by wsteps.
Qed.

Lemma consumeDigits_reads fuel n p : inside p -> m_size - m_index p <= Z.of_nat fuel -> (forall x, n = Some x -> 0 <= x <= UINT32_MAX) ->
  wp (consumeDigits m_data fuel n) p (λ r q, reads 0 p q /\ m_errorCode q = m_errorCode p /\ forall x, r = Some x -> 0 <= x <= UINT32_MAX).
Proof.
  revert n p. induction fuel as [|fuel IH]; intros n p Hin Hf Hn; cbn [consumeDigits]; wstep; wuse peekIsDigit_reads; try done;
    intros d p' [-> Hd]; (destruct d; [destruct (Hd eq_refl) as (Hm & c & Hc & Hdig)|wsteps; split; [rd|done]]).
  - unfold more in Hm. lia.
  - wstep. wuse consumeDigit_reads; [done..|lia|]. intros digit q (Hr & -> & Herr).
    wuse IH; [ins|pose proof (rd_index _ _ _ Hr); lia| |].
    + intros x. destruct n as [n|]; [|done]. specialize (Hn n eq_refl). destruct (UINT32_MAX <? _) eqn:E; zbool; [done|].
      intros [= <-]. lia.
    + intros x r (Hr' & Herr' & Hx). split_and!; [rd|congruence|done].
Qed.

Lemma size_length : m_size = Z.of_nat (length m_data).
Proof. done. Qed.

Lemma consumeNumber_reads p c : more p -> current p c -> 48 <= c <= 57 ->
  wp (consumeNumber m_data) p (λ n q, reads 1 p q /\ m_errorCode q = m_errorCode p /\ 0 <= n <= UINT32_MAX).
Proof.
  intros Hm Hc Hdig. unfold consumeNumber. wstep. wuse consumeDigit_reads; [done..|lia|]. intros d q (Hr & -> & Herr). wstep.
  wuse consumeDigits_reads; [ins| | |].
  - pose proof (rd_index _ _ _ Hr). unfold more in Hm. rewrite size_length. lia.
  - intros x [= <-]. unfold UINT32_MAX. lia.
  - intros n r (Hr' & Herr' & Hx). wsteps. split_and!; [rd|congruence|..]; destruct n as [n|]; cbn [default]; unfold quantifyInfinite, id;
      try (specialize (Hx n eq_refl); lia); unfold UINT32_MAX; lia.
Qed.

Lemma consumeOctalDigits_reads fuel n p : inside p -> m_size - m_index p <= Z.of_nat fuel -> 0 <= n < 256 ->
  wp (consumeOctalDigits m_data fuel n) p (λ x q, reads 0 p q /\ m_errorCode q = m_errorCode p /\ 0 <= x < 256).
Proof.
  revert n p. induction fuel as [|fuel IH]; intros n p Hin Hf Hn; cbn [consumeOctalDigits];
    (atEnd; [rewrite orb_true_r; wsteps; split; [rd|done]|rewrite orb_false_r]);
    (destruct (negb (n <? 32)) eqn:E; [wsteps; split; [rd|done]|]); peekc c;
    (destruct (isASCIIOctalDigit c) eqn:Ed; [|wsteps; split; [rd|done]]); unfold isASCIIOctalDigit in Ed; zbool.
  - unfold more in He. lia.
  - wstep. wuse consumeDigit_reads; [done..|lia|]. intros digit q (Hr & -> & Herr).
    wuse IH; [ins|pose proof (rd_index _ _ _ Hr); lia|lia|]. intros x r (Hr' & Herr' & Hx). split_and!; [rd|congruence|lia..].
Qed.

Lemma consumeOctal_reads p c : more p -> current p c -> 48 <= c <= 55 ->
  wp (consumeOctal m_data) p (λ x q, reads 1 p q /\ m_errorCode q = m_errorCode p /\ 0 <= x < 256).
Proof.
  intros Hm Hc Hdig. unfold consumeOctal. wstep. wuse consumeDigit_reads; [done..|lia|]. intros d q (Hr & -> & Herr).
  wuse consumeOctalDigits_reads; [ins| |lia|].
  - pose proof (rd_index _ _ _ Hr). unfold more in Hm. rewrite size_length. lia.
  - intros x r (Hr' & Herr' & Hx). split_and!; [rd|congruence|lia..].
Qed.

(** ** Hexadecimal digits *)

Lemma hexDigit_cases c : unit_ok c -> isASCIIHexDigit c = true -> 48 <= c <= 57 \/ 65 <= c <= 70 \/ 97 <= c <= 102.
Proof.
  unfold unit_ok, isASCIIHexDigit, isASCIIDigit, toASCIILowerUnchecked. intros Hc H.
  assert (c < 128) as Hlt.
  { apply orb_prop in H as [H|H]; zbool; [lia|]. destruct (decide (c = 0)) as [->|]; [lia|].
    apply (Z.log2_lt_cancel c 128). pose proof (Z.log2_lor c 32 ltac:(lia) ltac:(lia)) as Hl.
    pose proof (Z.log2_le_mono (Z.lor c 32) 102 ltac:(lia)) as Hm. change (Z.log2 102) with 6 in Hm. change (Z.log2 128) with 7.
    rewrite Hl in Hm. lia. }
  assert (forallb (λ c, negb (((48 <=? c) && (c <=? 57)) || ((97 <=? Z.lor c 0x20) && (Z.lor c 0x20 <=? 102)))
    || ((48 <=? c) && (c <=? 57)) || ((65 <=? c) && (c <=? 70)) || ((97 <=? c) && (c <=? 102))) (seqZ 0 128) = true) as Hall by (vm_compute; reflexivity).
  rewrite forallb_forall in Hall. specialize (Hall c ltac:(apply list_elem_of_In, elem_of_seqZ; lia)). rewrite H in Hall.
  cbn [negb orb] in Hall. zbool. rewrite !orb_true_iff, !andb_true_iff, !Z.leb_le in Hall. lia.
Qed.

Lemma hexValue_bound c : unit_ok c -> isASCIIHexDigit c = true -> 0 <= toASCIIHexValue c < 16.
Proof.
  intros Hc H. unfold toASCIIHexValue. destruct (c <? 65) eqn:E; zbool.
  - destruct (hexDigit_cases c Hc H) as [|[]]; lia.
  - change 0xF with (Z.ones 4). rewrite Z.land_ones by lia. apply Z.mod_pos_bound. lia.
Qed.

Lemma hexShift n d : 0 <= n -> 0 <= d < 16 -> Z.lor (Z.shiftl n 4) d = n * 16 + d.
Proof.
  intros Hn Hd. rewrite <- Z.add_lor_land, Z.shiftl_mul_pow2 by lia. change (2 ^ 4) with 16.
  enough (Z.land (n * 16) d = 0) by lia. apply Z.bits_inj'. intros k Hk. rewrite Z.land_spec, Z.bits_0.
  destruct (decide (k < 4)).
  - change 16 with (2 ^ 4). rewrite <- Z.shiftl_mul_pow2, Z.shiftl_spec_low by lia. done.
  - replace (Z.testbit d k) with false; [by rewrite andb_false_r|]. symmetry. apply (Z.bits_above_log2 d k); [lia|].
    destruct (decide (d = 0)) as [->|]; [simpl; lia|]. apply Z.log2_lt_pow2; [lia|]. 
    assert (2 ^ 4 <= 2 ^ k) by (apply Z.pow_le_mono_r; lia). lia.
Qed.

(** A result of [tryConsumeHex]. *)
Definition hex_ok (bound : Z) (x : option Z) : Prop := forall v, x = Some v -> 0 <= v < bound.

Lemma tryConsumeHexFrom_reads p count n q k : inside p -> reads 0 p q -> m_errorCode q = m_errorCode p -> 0 <= n < 16 ^ k -> 0 <= k ->
  wp (tryConsumeHexFrom m_data (m_index p) count n) q
    (λ x r, reads 0 p r /\ m_errorCode r = m_errorCode p /\ hex_ok (16 ^ (k + Z.of_nat count)) x).
Proof.
  intros Hin. revert n q k. induction count as [|count IH]; intros n q k Hq Herr Hn Hk; cbn [tryConsumeHexFrom].
  { wsteps. split_and!; [rd|done|]. intros v [= <-]. by rewrite Z.add_0_r. }
  assert (wp (bind (restoreState (m_index p)) (λ _, ret None)) q
    (λ x r, reads 0 p r /\ m_errorCode r = m_errorCode p /\ hex_ok (16 ^ (k + Z.of_nat (S count))) x)) as Hback.
  { wsteps. split_and!; [rd|done|done]. }
  atEnd; [done|]. peekc c. destruct (isASCIIHexDigit c) eqn:Ed; [|done]. cbn [negb]. consumec c' r.
  rewrite (current_det _ _ _ Hc Hc0) in *. pose proof (hexValue_bound c (proj2 Hc) Ed). rewrite hexShift by lia.
  wuse (IH (n * 16 + toASCIIHexValue c) r (k + 1)); [rd|congruence|rewrite Z.pow_add_r; lia|lia|]. intros x r' Hx.
  by replace (k + Z.of_nat (S count)) with (k + 1 + Z.of_nat count) by lia.
Qed.

Lemma tryConsumeHex_reads count p : inside p ->
  wp (tryConsumeHex m_data count) p (λ x r, reads 0 p r /\ m_errorCode r = m_errorCode p /\ hex_ok (16 ^ Z.of_nat count) x).
Proof.
  intros Hin. unfold tryConsumeHex. wsteps. wuse (tryConsumeHexFrom_reads p count 0 p 0); [done|rd|done|simpl; lia|done|done].
Qed.

(** ** Surrogates and escapes in names *)

Lemma land_surrogate_mask c : Z.land (u32 c) 0xfffffc00 = u32 c / 1024 * 1024.
Proof.
  pose proof (Z.mod_pos_bound c (2 ^ 32) ltac:(lia)) as Hb. change (c mod 2 ^ 32) with (u32 c) in Hb. revert Hb.
  generalize (u32 c). intros d Hd. change 1024 with (2 ^ 10). rewrite <- Z.shiftr_div_pow2, <- Z.shiftl_mul_pow2 by lia.
  apply Z.bits_inj'. intros k Hk. rewrite Z.land_spec. destruct (decide (k < 10)) as [Hlt|Hge].
  - rewrite Z.shiftl_spec_low by lia. replace (Z.testbit 0xfffffc00 k) with false; [by rewrite andb_false_r|].
    change 0xfffffc00 with (Z.shiftl 0x3fffff 10). by rewrite Z.shiftl_spec_low by lia.
  - rewrite Z.shiftl_spec, Z.shiftr_spec by lia. replace (k - 10 + 10) with k by lia.
    change 0xfffffc00 with (Z.shiftl (Z.ones 22) 10). rewrite Z.shiftl_spec by lia.
    destruct (decide (k < 32)).
    + rewrite Z.ones_spec_low by lia. by rewrite andb_true_r.
    + rewrite (Z.bits_above_log2 d k); [done|lia|]. destruct (decide (d = 0)) as [->|]; [simpl; lia|].
      apply Z.log2_lt_pow2; [lia|]. assert (2 ^ 32 <= 2 ^ k) by (apply Z.pow_le_mono_r; lia). lia.
Qed.

(** A lead and a trail surrogate give a code point. *)
Lemma U16_GET_SUPPLEMENTARY_point u v : unit_ok u -> (0 <= v < 65536 \/ v = -1) -> U16_IS_LEAD u = true -> U16_IS_TRAIL v = true ->
  point_ok (U16_GET_SUPPLEMENTARY u v).
Proof.
  unfold unit_ok, U16_IS_LEAD, U16_IS_TRAIL. rewrite !land_surrogate_mask. intros Hu Hv Hl Ht. zbool.
  assert (u32 u = u) as Eu by (apply uwrap_small; simpl; lia). rewrite Eu in Hl.
  assert (u32 v = v) as Ev.
  { destruct Hv as [Hv| ->]; [apply uwrap_small; simpl; lia|]. vm_compute in Ht. discriminate. }
  rewrite Ev in Ht. unfold point_ok, U16_GET_SUPPLEMENTARY, UCHAR_MAX_VALUE. rewrite !Z.shiftl_mul_pow2 by lia.
  change (2 ^ 10) with 1024. pose proof (Z.div_mod u 1024 ltac:(lia)). pose proof (Z.mod_pos_bound u 1024 ltac:(lia)).
  pose proof (Z.div_mod v 1024 ltac:(lia)). pose proof (Z.mod_pos_bound v 1024 ltac:(lia)). lia.
Qed.

Lemma patternRemaining_reads p Q : Q (m_size - m_index p) p -> wp (patternRemaining m_data) p Q.
Proof. intros HQ. by apply wp_gets. Qed.

Lemma tryConsumeTrailEscape_reads u p : inside p -> unit_ok u ->
  wp (tryConsumeTrailEscape m_data m_isUnicode u) p (λ x q, reads 0 p q /\ m_errorCode q = m_errorCode p /\ point_ok x).
Proof.
  intros Hin Hu. unfold tryConsumeTrailEscape. pose proof (unit_point u Hu).
  wstep. apply patternRemaining_reads. destruct (U16_IS_LEAD u && m_isUnicode && (6 <=? _)) eqn:E; [|wsteps; split; [rd|done]].
  zbool. destruct_and?. zbool. assert (more p) by (unfold more, inside in *; lia).
  peekc c. destruct (c =? 92); [|wsteps; split; [rd|done]]. wstep. wstep. wstep. consumec c' q.
  wstep. wuse tryConsume_reads; [ins|]. intros b q' [Hq' Eq']. destruct b; [|wsteps; split; [rd|split; [simpl; congruence|done]]].
  wstep. wuse tryConsumeHex_reads; [ins|]. intros x q'' (Hq'' & Eq'' & Hx).
  destruct (U16_IS_TRAIL _) eqn:Et; wsteps; (split; [rd|split; [simpl; congruence|]]); [|done].
  apply U16_GET_SUPPLEMENTARY_point; try done. destruct x as [x|]; [|by right]. left. apply (Hx x eq_refl).
Qed.

(** [codePoint] after one more digit. *)
Lemma codePoint_shift codePoint c : 0 <= codePoint <= UCHAR_MAX_VALUE -> unit_ok c -> isASCIIHexDigit c = true ->
  0 <= s32 (Z.lor (Z.shiftl codePoint 4) (toASCIIHexValue c)).
Proof.
  unfold UCHAR_MAX_VALUE. intros Hp Hc Hh. pose proof (hexValue_bound c Hc Hh). rewrite hexShift by lia.
  rewrite swrap_small; simpl; lia.
Qed.

Lemma identifierCodePoint_reads fuel cp p : inside p -> m_size - m_index p < Z.of_nat fuel -> point_ok cp ->
  wp (identifierCodePoint m_data fuel cp) p (λ x q, reads 0 p q /\ forall v, x = Some v -> point_ok v).
Proof.
  revert cp p. induction fuel as [|fuel IH]; intros cp p Hin Hf Hcp; [unfold inside in Hin; lia|]. cbn [identifierCodePoint].
  atEnd; wstep; [wsteps; cbn [negb]; wsteps; split; [rd|done]|]. peekc c. wsteps.
  destruct (isASCIIHexDigit c) eqn:Eh; cbn [negb]; [|wsteps; split; [rd|done]]. consumec c' q.
  rewrite (current_det _ _ _ Hc Hc0) in *. pose proof (codePoint_shift cp c Hcp (proj2 Hc) Eh).
  destruct (UCHAR_MAX_VALUE <? _) eqn:El; zbool; [wsteps; split; [rd|done]|]. atEnd.
  { do 2 wstep. cbn [orb]. do 3 wstep. destruct (hasError _); wsteps; (split; [rd|]); intros v; by destruct (hasError _); intros [= <-]. }
  wstep. peekc d. wstep. cbn [orb]. destruct (d =? 125).
  - wstep. consumec d' q'. wsteps. split; [rd|]. intros v. by destruct (hasError _); intros [= <-].
  - wuse IH; [ins|pose proof (rd_index _ _ _ Hr); lia|split; done|]. intros x r (Hr' & Hx). split; [rd|done].
Qed.

Lemma tryConsumeUnicodeEscape_reads p : inside p ->
  wp (tryConsumeUnicodeEscape m_data m_isUnicode) p (λ x q, reads 0 p q /\ forall v, x = Some v -> point_ok v).
Proof.
  intros Hin. unfold tryConsumeUnicodeEscape. wstep. wuse tryConsume_reads; [done|]. intros b q [Hq _].
  destruct b; cbn [negb]; [|wsteps; split; [rd|done]]. wstep.
  eapply (wp_mono _ _ (λ b r, reads 0 q r)). { destruct m_isUnicode; [wuse tryConsume_reads; [ins|]|wsteps; rd]. intros b r [Hr _]. destruct b; [rd|done]. }
  intros b r Hr. destruct b.
  - wuse identifierCodePoint_reads; [ins|destruct Hr as [[] ]; rewrite size_length; lia|by unfold point_ok, UCHAR_MAX_VALUE|].
    intros x s (Hs & Hx). split; [rd|done].
  - wstep. wuse tryConsumeHex_reads; [ins|]. intros u s (Hs & _ & Hu). destruct u as [u|]; [|wsteps; split; [rd|done]].
    wstep. wuse tryConsumeTrailEscape_reads; [ins|apply (Hu u eq_refl)|]. intros x t (Ht & _ & Hx). wsteps. split; [rd|].
    by intros v [= <-].
Qed.

Lemma tryConsumeIdentifierCharacter_reads p : more p ->
  wp (tryConsumeIdentifierCharacter m_data m_isUnicode) p (λ _ q, reads 1 p q).
Proof.
  intros Hm. unfold tryConsumeIdentifierCharacter. peekc c. destruct (c =? 92); [|consumec d q; done].
  consumec d q. wstep. wuse tryConsumeUnicodeEscape_reads; [ins|]. intros x r (Hx & _). wsteps. rd.
Qed.

Lemma groupNameRest_reads fuel name p : inside p -> m_size - m_index p <= Z.of_nat fuel ->
  wp (groupNameRest m_data m_isUnicode U_GET_GC_MASK fuel name) p (λ _ q, reads 0 p q).
Proof.
  revert name p. induction fuel as [|fuel IH]; intros name p Hin Hf; cbn [groupNameRest]; (atEnd; [wsteps; rd|]).
  { unfold more in He. lia. }
  wstep. wuse tryConsumeIdentifierCharacter_reads; [done|]. intros ch q Hq. destruct (ch =? 62); [wsteps; rd|].
  destruct (negb _); [wsteps; rd|]. wuse IH; [ins|pose proof (rd_index _ _ _ Hq); lia|]. intros x r Hr. rd.
Qed.

Lemma tryConsumeGroupName_reads p : inside p -> wp (tryConsumeGroupName m_data m_isUnicode U_GET_GC_MASK) p (λ _ q, reads 0 p q).
Proof.
  intros Hin. unfold tryConsumeGroupName. atEnd; [wsteps; rd|]. wstep. wstep. wstep.
  wuse tryConsumeIdentifierCharacter_reads; [done|]. intros ch q Hq. wstep.
  eapply (wp_mono _ _ (λ _ r, reads 0 p r)).
  - destruct (isIdentifierStart _ _); [|wsteps; rd]. wuse groupNameRest_reads; [ins|destruct Hq as [[] ]; rewrite size_length; lia|].
    intros x r Hr. rd.
  - intros [name|] r Hr; wsteps; rd.
Qed.

Lemma propertyExpressionRest_reads fuel a b c d p : inside p -> m_size - m_index p <= Z.of_nat fuel ->
  wp (propertyExpressionRest m_data unicodeMatchProperty unicodeMatchPropertyValue fuel a b c d) p
    (λ x q, reads 0 p q /\ (x = None -> m_errorCode q <> NoError)).
Proof.
  revert a b c d p. induction fuel as [|fuel IH]; intros a b c d p Hin Hf; cbn [propertyExpressionRest]; (atEnd; [wsteps; split; [rd|done]|]).
  { unfold more in He. lia. }
  peekc ch. destruct (ch =? 125).
  - consumec ch' q. destruct (negb (d =? 0)); [wsteps; split; [rd|done]|].
    destruct (if c then _ else _); wsteps; (split; [rd|done]).
  - consumec ch' q. pose proof (rd_index _ _ _ Hr) as Hi.
    assert (forall a b c d, wp (propertyExpressionRest m_data unicodeMatchProperty unicodeMatchPropertyValue fuel a b c d) q
      (λ x q, reads 0 p q /\ (x = None -> m_errorCode q <> NoError))) as Hrec.
    { intros. wuse IH; [ins|lia|]. intros x r (Hx & Hn). split; [rd|done]. }
    destruct (ch =? 61), (negb c), (negb (isUnicodePropertyValueExpressionChar ch)); apply Hrec.
Qed.

Lemma tryConsumeUnicodePropertyExpression_reads p : inside p ->
  wp (tryConsumeUnicodePropertyExpression m_data unicodeMatchProperty unicodeMatchPropertyValue) p
    (λ x q, reads 0 p q /\ (x = None -> m_errorCode q <> NoError)).
Proof.
  intros Hin. unfold tryConsumeUnicodePropertyExpression. atEnd; wstep; [wsteps; cbn [negb]; wsteps; split; [rd|done]|].
  peekc c. wsteps. destruct (negb _); [wsteps; split; [rd|done]|]. consumec c' q.
  wuse propertyExpressionRest_reads; [ins|destruct Hr as [[] ]; rewrite size_length; lia|]. intros x r (Hx & Hn). split; [rd|done].
Qed.

(** The digits of [\u{...}]: a code point unless there was an error. *)
Lemma escapeCodePoint_reads fuel cp p : inside p -> m_size - m_index p < Z.of_nat fuel -> (m_errorCode p = NoError -> point_ok cp) ->
  wp (escapeCodePoint m_data fuel cp) p (λ x q, reads 0 p q /\ (m_errorCode q = NoError -> point_ok x)).
Proof.
  revert cp p. induction fuel as [|fuel IH]; intros cp p Hin Hf Hcp; [unfold inside in Hin; lia|]. cbn [escapeCodePoint].
  atEnd; wstep; [wsteps; cbn [negb]; wsteps; split; [rd|done]|]. peekc c. wsteps.
  destruct (isASCIIHexDigit c) eqn:Eh; cbn [negb]; [|wsteps; split; [rd|done]]. consumec c' q.
  rewrite (current_det _ _ _ Hc Hc0) in *. set (cp' := s32 _). wstep.
  eapply (wp_mono _ _ (λ _ r, reads 1 p r /\ (m_errorCode r = NoError -> point_ok cp'))).
  { destruct (UCHAR_MAX_VALUE <? cp') eqn:El; zbool; wsteps; (split; [rd|]); [done|]. rewrite Herr. intros E.
    split; [|done]. apply codePoint_shift; [by apply Hcp|apply Hc|done]. }
  intros _ r (Hr' & Hcp'). atEnd; [wsteps; split; [rd|done]|]. peekc d. destruct (d =? 125); [wsteps; split; [rd|done]|].
  wuse IH; [ins|pose proof (rd_index _ _ _ Hr'); lia|done|]. intros x t (Ht & Hx). split; [rd|done].
Qed.

Lemma consumePossibleSurrogatePair_reads p : more p ->
  wp (consumePossibleSurrogatePair m_data m_isUnicode) p (λ x q, reads 1 p q /\ m_errorCode q = m_errorCode p /\ point_ok x).
Proof.
  intros Hm. unfold consumePossibleSurrogatePair. consumec c q. wstep. apply patternRemaining_reads. pose proof (unit_point c (proj2 Hc)).
  destruct (U16_IS_LEAD c && m_isUnicode && (0 <? _)) eqn:E; [|wsteps; split; [rd|done]]. zbool. destruct_and?. zbool.
  assert (more q) by (destruct Hr as [[] ]; unfold more in *; lia). wstep. wstep. consumec d r.
  destruct (U16_IS_TRAIL d) eqn:Et; wsteps; (split; [rd|split; [simpl; congruence|]]); [|done].
  apply U16_GET_SUPPLEMENTARY_point; try done; [apply Hc|left; apply Hc0].
Qed.

End Proofs.
