(* ===== verification/YarrProof.v ===== *)
(** * The regular expression parser terminates, stays inside the pattern and
      keeps its contract with the delegate

    The calls of the delegate are checked by an automaton, [follow]: classes
    and parentheses are properly nested, a quantifier follows an atom, its
    bounds are in order, and every character is a code point.  The parser
    returns on every pattern, and its calls are accepted. *)

From stdpp Require Import base numbers option list list_numbers gmap sets.
From Stdlib Require Import ZArith Lia.
From S2P Require Import Prelude.
From S2P Require Import Yarr.
From S2P Require Import YarrReading.
#[local] Open Scope yarr_scope.

(** ** The contract *)

(** Open parentheses, whether a class is open, whether an atom can be quantified. *)
Record Position := mkPosition { depth : Z; inClass : bool; afterAtom : bool }.

Definition isPoint (c : Z) : bool := (0 <=? c) && (c <=? UCHAR_MAX_VALUE).

Definition outside (s : Position) (guard : bool) (depth : Z) (afterAtom : bool) : option Position :=
  if negb (inClass s) && guard then Some (mkPosition depth false afterAtom) else None.

Definition member (s : Position) (guard : bool) : option Position := if inClass s && guard then Some s else None.

Definition follow (s : Position) (e : YarrEvent) : option Position :=
  match e with
  | assertionBOL | assertionEOL | assertionWordBoundary _ | disjunction => outside s true (depth s) false
  | atomPatternCharacter ch => outside s (isPoint ch) (depth s) true
  | atomBuiltInCharacterClass _ _ | atomNamedBackReference _ | atomNamedForwardReference _ => outside s true (depth s) true
  | atomBackReference n => outside s (0 <=? n) (depth s) true
  | atomCharacterClassBegin _ => if inClass s then None else Some (mkPosition (depth s) true false)
  | atomCharacterClassAtom ch => member s (isPoint ch)
  | atomCharacterClassRange first last => member s (isPoint first && isPoint last && (first <=? last))
  | atomCharacterClassBuiltIn _ _ => member s true
  | atomCharacterClassEnd => if inClass s then Some (mkPosition (depth s) false true) else None
  | atomParenthesesSubpatternBegin _ _ | atomParentheticalAssertionBegin _ => outside s true (depth s + 1) false
  | atomParenthesesEnd => outside s (0 <? depth s) (depth s - 1) true
  | quantifyAtom min max _ =>
      outside s (afterAtom s && (0 <=? min) && (min <=? max) && (max <=? quantifyInfinite) && (min <? quantifyInfinite)) (depth s) false
  end.

Fixpoint followAll (s : Position) (es : list YarrEvent) : option Position :=
  match es with
  | [] => Some s
  | e :: es => match follow s e with Some s => followAll s es | None => None end
  end.

Definition start : Position := mkPosition 0 false false.

Lemma followAll_snoc s es e : followAll s (es ++ [e]) = match followAll s es with Some s => follow s e | None => None end.
Proof. revert s. induction es as [|e' es IH]; intros s; simpl; [by destruct (follow s e)|]. destruct (follow s e'); [apply IH|done]. Qed.

Lemma isPoint_ok c : point_ok c -> isPoint c = true.
Proof. unfold point_ok, isPoint. intros. apply andb_true_intro. split; apply Z.leb_le; lia. Qed.

Section Proofs.

Context (m_data : list Z) (m_isUnicode : bool) (m_backReferenceLimit : Z).
Context (U_GET_GC_MASK : Z -> Z) (unicodeMatchProperty : list Z -> option BuiltInCharacterClassID).
Context (unicodeMatchPropertyValue : list Z -> list Z -> option BuiltInCharacterClassID).
Context (isValidNamedForwardReference : list Z -> bool).
Context (code_units : Forall (λ c, 0 <= c < 65536) m_data).

Notation m_size := (m_size m_data).
Notation inside := (inside m_data).
Notation more := (more m_data).
Notation reads := (reads m_data).
Notation current := (current m_data).

(** The calls so far led to [s], whose depth is the one the parser counts. *)
Record at_position (p : Parser) (s : Position) : Prop := {
  at_calls : followAll start (calls p) = Some s;
  at_depth : depth s = m_parenthesesNestingDepth p;
  at_index : 0 <= depth s <= m_index p
}.

(** Nothing was emitted, or the parser moved. *)
Definition advances (n : Z) (p q : Parser) : Prop := inside q /\ m_index p + n <= m_index q.

Lemma at_reads n p q s : 0 <= n -> reads n p q -> at_position p s -> at_position q s.
Proof. intros Hn [] []. split; [congruence|congruence|lia]. Qed.

Lemma at_class p s st ch : at_position p s -> at_position (set_class p st ch) s.
Proof. intros []. by split. Qed.

Lemma at_error p s e : at_position p s -> at_position (set_error p e) s.
Proof. intros []. by split. Qed.

(** A call that keeps the depth. *)
Lemma at_call p s s' e : at_position p s -> follow s e = Some s' -> depth s' = depth s -> at_position (add_call p e) s'.
Proof. intros [] Hf Hd. split; simpl; [by rewrite followAll_snoc, at_calls0|congruence|lia]. Qed.

(** ** The delegates of [parseEscape] *)

(** What [parseEscape] may assume of its delegate: [before] holds before a call
    and is kept by reading; an atom leads to [after], unless there is an error. *)
Class EscapeDelegateLaws (inCharacterClass : bool) (d : EscapeDelegate) (before after : Parser -> Prop) := {
  before_reads n p q : 0 <= n -> reads n p q -> before p -> before q;
  before_error p e : before p -> before (set_error p e);
  law_character p ch : before p -> inside p -> point_ok ch ->
    wp (ed_atomPatternCharacter d ch) p (λ _ q, advances 0 p q /\ before q /\ (m_errorCode q = NoError -> after q));
  law_class p id invert : before p -> inside p ->
    wp (ed_atomBuiltInCharacterClass d id invert) p (λ _ q, advances 0 p q /\ before q /\ after q);
  law_boundary p invert : inCharacterClass = false -> before p -> inside p ->
    wp (ed_assertionWordBoundary d invert) p (λ _ q, advances 0 p q /\ before q);
  law_backReference p n : inCharacterClass = false -> before p -> inside p -> 0 <= n ->
    wp (ed_atomBackReference d n) p (λ _ q, advances 0 p q /\ before q /\ after q);
  law_namedBackReference p name : inCharacterClass = false -> before p -> inside p ->
    wp (ed_atomNamedBackReference d name) p (λ _ q, advances 0 p q /\ before q /\ after q);
  law_valid p name : inCharacterClass = false -> wp (ed_isValidNamedForwardReference d name) p (λ _ q, q = p);
  law_namedForwardReference p name : inCharacterClass = false -> before p -> inside p ->
    wp (ed_atomNamedForwardReference d name) p (λ _ q, advances 0 p q /\ before q /\ after q)
}.

(** Outside a class. *)
Definition outer (p : Parser) : Prop := exists s, at_position p s /\ inClass s = false.
Definition outerAtom (p : Parser) : Prop := exists s, at_position p s /\ inClass s = false /\ afterAtom s = true.

Lemma advances_call p e : inside p -> advances 0 p (add_call p e).
Proof. intros Hin. split; [done|]. simpl. lia. Qed.

(** A call outside a class that makes an atom. *)
Lemma outer_atom p e guard : outer p -> guard = true ->
  (forall s, follow s e = outside s guard (depth s) true) -> outerAtom (add_call p e).
Proof.
  intros (s & Hs & Hc) Hg Hf. exists (mkPosition (depth s) false true). split; [|done].
  eapply at_call; [done| |done]. rewrite Hf. unfold outside. by rewrite Hc, Hg.
Qed.

(** A call outside a class after which nothing can be quantified. *)
Lemma outer_other p e : outer p -> (forall s, follow s e = outside s true (depth s) false) -> outer (add_call p e).
Proof.
  intros (s & Hs & Hc) Hf. exists (mkPosition (depth s) false false). split; [|done].
  eapply at_call; [done| |done]. rewrite Hf. unfold outside. by rewrite Hc.
Qed.

Lemma outerAtom_outer p : outerAtom p -> outer p.
Proof. intros (s & ? & ? & ?). by exists s. Qed.

Lemma outer_reads n p q : 0 <= n -> reads n p q -> outer p -> outer q.
Proof. intros Hn Hr (s & Hs & Hc). exists s. split; [by eapply at_reads|done]. Qed.

Lemma outer_error p e : outer p -> outer (set_error p e).
Proof. intros (s & Hs & Hc). exists s. split; [by apply at_error|done]. Qed.

#[local] Instance m_delegate_laws : EscapeDelegateLaws false (m_delegate isValidNamedForwardReference) outer outerAtom.
Proof.
  assert (forall p e guard, outer p -> inside p -> guard = true -> (forall s, follow s e = outside s guard (depth s) true) ->
    wp (call e) p (λ _ q, advances 0 p q /\ outer q /\ outerAtom q)) as Hatom.
  { intros p e guard Hp Hin Hg Hf. wsteps. pose proof (outer_atom p e guard Hp Hg Hf).
    split_and!; [by apply advances_call|by apply outerAtom_outer|done]. }
  split; simpl; intros; try done.
  - by eapply outer_reads.
  - by apply outer_error.
  - wuse (Hatom p (atomPatternCharacter ch) (isPoint ch)); [done..|by apply isPoint_ok|done|]. naive_solver.
  - by apply (Hatom _ _ true).
  - wsteps. split; [by apply advances_call|by apply outer_other].
  - apply (Hatom _ _ (0 <=? n)); [done..|by apply Z.leb_le|done].
  - by apply (Hatom _ _ true).
  - by wsteps.
  - by apply (Hatom _ _ true).
Qed.

Ltac rd :=
  repeat match goal with H : YarrReading.reads _ _ _ _ |- _ => destruct H end;
  unfold YarrReading.more, YarrReading.inside in *; split; unfold YarrReading.inside; simpl in *; solve [assumption|lia|congruence].
Ltac ins := first [assumption | by apply more_inside | by eapply rd_inside].
Ltac atEnd := wstep; apply wp_atEnd; [ins| |]; intros ?He.
Ltac peekc c := wstep; apply wp_peek; [done|done|]; intros c ?Hc.
Ltac consumec c q := try wstep; apply wp_consume; [done|done|]; intros c q ?Hc ?Hr ?Herr ?Hix.

(** ** [parseEscape] *)

Section Escape.
Context (inCharacterClass : bool) (d : EscapeDelegate) (before after : Parser -> Prop).
Context `{L : !EscapeDelegateLaws inCharacterClass d before after}.

(** The result of an escape that started at [p]. *)
Definition escaped (n : Z) (p : Parser) : bool -> Parser -> Prop :=
  λ b q, advances n p q /\ before q /\ (b = true -> m_errorCode q = NoError -> after q).

Lemma advances_reads n k p q r : reads n p q -> advances k q r -> advances (n + k) p r.
Proof. intros [] [? ?]. split; [done|lia]. Qed.

(** An atom after what was read. *)
Lemma escaped_atom n p q (e : ParserM unit) : reads n p q -> 0 <= n -> before p ->
  (before q -> inside q -> wp e q (λ _ r, advances 0 q r /\ before r /\ (m_errorCode r = NoError -> after r))) ->
  wp (bind e (λ _, ret true)) q (escaped n p).
Proof.
  intros Hr Hn Hb He. wstep. wuse He; [by eapply before_reads|by eapply rd_inside|]. intros _ r (Ha & Hbr & Haf). wstep.
  split_and!; [|done|by intros _]. pose proof (advances_reads _ _ _ _ _ Hr Ha). by rewrite Z.add_0_r in *.
Qed.

Lemma escaped_character n p q ch : reads n p q -> 0 <= n -> before p -> point_ok ch ->
  wp (bind (ed_atomPatternCharacter d ch) (λ _, ret true)) q (escaped n p).
Proof. intros Hr Hn Hb Hch. apply escaped_atom; [done..|]. intros. by apply (law_character q ch). Qed.

(** A call that always makes an atom. *)
Lemma escaped_call n p q (e : ParserM unit) : reads n p q -> 0 <= n -> before p ->
  (before q -> inside q -> wp e q (λ _ r, advances 0 q r /\ before r /\ after r)) -> wp (bind e (λ _, ret true)) q (escaped n p).
Proof. intros Hr Hn Hb He. apply escaped_atom; [done..|]. intros. wuse He; [done..|]. naive_solver. Qed.

(** An error. *)
Lemma escaped_error n p q b : reads n p q -> 0 <= n -> before p -> m_errorCode q <> NoError -> escaped n p b q.
Proof. intros Hr Hn Hb He. split_and!; [by destruct Hr|by eapply before_reads|done]. Qed.

Lemma escaped_raise n p q b e : reads n p q -> 0 <= n -> before p -> e <> NoError -> wp (bind (raise e) (λ _, ret b)) q (escaped n p).
Proof. intros Hr Hn Hb He. wsteps. apply escaped_error; try done. rd. Qed.

Lemma isIdentityEscapeAnError_reads ch p :
  wp (isIdentityEscapeAnError m_isUnicode ch) p (λ b q, if b then exists e, q = set_error p e /\ e <> NoError else q = p).
Proof. unfold isIdentityEscapeAnError. destruct (_ && _); wsteps; [by eexists|done]. Qed.

(** An identity escape of [letter] that stands for [ch]. *)
Lemma escaped_identity n p q letter ch : reads n p q -> 0 <= n -> before p -> point_ok ch ->
  wp (let* error := isIdentityEscapeAnError m_isUnicode letter in
      (if error then ret tt else ed_atomPatternCharacter d ch) ;* ret true) q (escaped n p).
Proof.
  intros Hr Hn Hb Hch. wstep. wuse isIdentityEscapeAnError_reads. intros [] r Hx.
  - destruct Hx as (e & -> & He). wsteps. apply escaped_error; try done. rd.
  - subst r. by apply escaped_character.
Qed.

Ltac point := first [done | by apply unit_point | by unfold point_ok, UCHAR_MAX_VALUE; lia].

Lemma parseWordBoundary_escaped p q letter ch invert : reads 1 p q -> before p -> more q -> point_ok ch ->
  wp (parseWordBoundary m_data m_isUnicode inCharacterClass d letter ch invert) q (escaped 1 p).
Proof.
  intros Hq Hb Hm Hch. unfold parseWordBoundary. consumec c r. assert (reads 1 p r) as Hr' by rd.
  case_eq inCharacterClass; intros E; [by apply escaped_identity|].
  wstep. wuse law_boundary; [done|apply (before_reads 1 p r); [lia|done|done]|ins|]. intros _ s (Ha & Hbs). wstep.
  split_and!; [|done|done]. pose proof (advances_reads _ _ _ _ _ Hr' Ha). done.
Qed.

Lemma parseBuiltInClass_escaped p q id invert : reads 1 p q -> before p -> more q ->
  wp (parseBuiltInClass m_data d id invert) q (escaped 1 p).
Proof.
  intros Hq Hb Hm. unfold parseBuiltInClass. consumec c r. apply escaped_call; [rd|done..|]. intros. by apply law_class.
Qed.

Lemma parseControlEscape_escaped p q ch : reads 1 p q -> before p -> more q -> point_ok ch ->
  wp (parseControlEscape m_data d ch) q (escaped 1 p).
Proof. intros Hq Hb Hm Hch. unfold parseControlEscape. consumec c r. apply escaped_character; [rd|done..]. Qed.

Lemma parseOctalEscape_escaped p q c : reads 1 p q -> before p -> more q -> current q c -> 48 <= c <= 55 ->
  wp (parseOctalEscape m_data d) q (escaped 1 p).
Proof.
  intros Hq Hb Hm Hc Hd. unfold parseOctalEscape. wstep. wuse consumeOctal_reads; [done..|]. intros x r (Hr & _ & Hx).
  apply escaped_character; [rd|done..|]. unfold point_ok, UCHAR_MAX_VALUE. lia.
Qed.

Lemma parseNonReference_escaped p q c : reads 1 p q -> before p -> more q -> current q c -> 48 <= c ->
  wp (parseNonReference m_data d) q (escaped 1 p).
Proof.
  intros Hq Hb Hm Hc Hd. unfold parseNonReference. peekc c'. rewrite (current_det _ _ _ _ Hc Hc0) in *.
  destruct (56 <=? c) eqn:E; zbool.
  - consumec c'' r. apply escaped_character; [rd|done..|]. apply unit_point, Hc1.
  - apply (parseOctalEscape_escaped p q c); try done. lia.
Qed.

Lemma parseDecimalEscape_escaped p q c : reads 1 p q -> before p -> more q -> current q c -> 49 <= c <= 57 ->
  wp (parseDecimalEscape m_data m_isUnicode m_backReferenceLimit inCharacterClass d) q (escaped 1 p).
Proof.
  intros Hq Hb Hm Hc Hd. unfold parseDecimalEscape. destruct (negb inCharacterClass) eqn:Ei.
  - wstep. wstep. wstep. wuse consumeNumber_reads; [done..|lia|]. intros n r (Hr & _ & Hn). apply negb_true_iff in Ei.
    destruct (n <=? m_backReferenceLimit).
    + apply escaped_call; [rd|done..|]. intros. apply law_backReference; try done. lia.
    + wstep. wstep. assert (reads 1 p (set_index r (m_index q))) by rd. destruct m_isUnicode; [by apply escaped_raise|].
      apply (parseNonReference_escaped p _ c); [done..|unfold YarrReading.more in *; simpl; lia|done|lia].
  - apply (parseNonReference_escaped p q c); try done. lia.
Qed.

Lemma parseControlLetter_escaped p q : reads 1 p q -> before p -> more q ->
  wp (parseControlLetter m_data inCharacterClass d) q (escaped 1 p).
Proof.
  intros Hq Hb Hm. unfold parseControlLetter. wstep. wstep. wstep. consumec c r.
  assert (forall s, reads 0 q s -> wp (restoreState (m_index q) ;* ed_atomPatternCharacter d 92 ;* ret true) s (escaped 1 p)) as Hback.
  { intros s Hs. wstep. wstep. apply escaped_character; [rd|point..]. }
  atEnd; wstep; [wstep; apply Hback; rd|]. consumec k s. wstep. destruct (if inCharacterClass then _ else _); [|apply Hback; rd].
  apply escaped_character; [rd|done..|]. destruct Hc0 as [_ Hk]. unfold unit_ok in Hk. change 0x1f with (Z.ones 5).
  rewrite Z.land_ones by lia. pose proof (Z.mod_pos_bound k (2 ^ 5)). unfold point_ok, UCHAR_MAX_VALUE. lia.
Qed.

Lemma parseHexEscape_escaped p q : reads 1 p q -> before p -> more q -> wp (parseHexEscape m_data m_isUnicode d) q (escaped 1 p).
Proof.
  intros Hq Hb Hm. unfold parseHexEscape. consumec c r. wstep. wuse tryConsumeHex_reads; [done|ins|]. intros x s (Hs & _ & Hx).
  destruct x as [x|]; [|apply escaped_identity; [rd|point..]]. apply escaped_character; [rd|done..|].
  specialize (Hx x eq_refl). simpl in Hx. point.
Qed.

Lemma parseNamedReference_escaped p q : reads 1 p q -> before p -> more q ->
  wp (parseNamedReference m_data m_isUnicode U_GET_GC_MASK inCharacterClass d) q (escaped 1 p).
Proof.
  intros Hq Hb Hm. unfold parseNamedReference. consumec c r. wstep. wstep.
  assert (forall s, reads 0 r s -> wp (restoreState (m_index r) ;* ed_atomPatternCharacter d 107 ;* ret true) s (escaped 1 p)) as Hnot.
  { intros s Hs. wstep. wstep. apply escaped_character; [rd|point..]. }
  atEnd; cbn [negb andb]; [apply Hnot; rd|]. case_eq inCharacterClass; intros Ei; cbn [negb]; [apply Hnot; rd|].
  consumec c' s. destruct (c' =? 60); [|apply Hnot; rd]. wstep. wuse tryConsumeGroupName_reads; [done|ins|]. intros name t Ht.
  assert (wp (if m_isUnicode then raise InvalidBackreference ;* ret true
    else restoreState (m_index r) ;* ed_atomPatternCharacter d 107 ;* ret true) t (escaped 1 p)) as Hinv.
  { destruct m_isUnicode; [apply escaped_raise; [rd|done..]|apply Hnot; rd]. }
  destruct name as [name|]; [|done]. wstep. wstep. destruct (bool_decide _).
  - apply escaped_call; [rd|done..|]. intros. by apply law_namedBackReference.
  - wstep. wuse law_valid; [done|]. intros b _ ->. destruct b; [|done].
    apply escaped_call; [rd|done..|]. intros. by apply law_namedForwardReference.
Qed.

Lemma parsePropertyEscape_escaped p q : reads 1 p q -> before p -> more q ->
  wp (parsePropertyEscape m_data m_isUnicode unicodeMatchProperty unicodeMatchPropertyValue d) q (escaped 1 p).
Proof.
  intros Hq Hb Hm. unfold parsePropertyEscape. consumec c r. destruct (negb m_isUnicode).
  { apply escaped_identity; [rd|done..|]. apply unit_point, Hc. }
  wstep. wuse tryConsume_reads; [done|ins|]. intros b s (Hs & _). destruct b; [|apply escaped_raise; [rd|done..]].
  wstep. wuse tryConsumeUnicodePropertyExpression_reads; [done|ins|]. intros x t (Ht & Hx). destruct x as [id|].
  - apply escaped_call; [rd|done..|]. intros. by apply law_class.
  - wsteps. apply escaped_error; [rd|done..|by apply Hx].
Qed.

Lemma parseUnicodeEscape_escaped p q : reads 1 p q -> before p -> more q ->
  wp (parseUnicodeEscape m_data m_isUnicode d) q (escaped 1 p).
Proof.
  intros Hq Hb Hm. unfold parseUnicodeEscape. consumec c r. atEnd; [apply escaped_identity; [rd|point..]|]. wstep.
  eapply (wp_mono _ _ (λ b s, reads 0 r s /\ m_errorCode s = m_errorCode r)).
  { destruct m_isUnicode; [wuse tryConsume_reads; [done|ins|]|wsteps; split; [rd|done]]. intros b s [Hs ?]. split; [|done]. destruct b; [rd|done]. }
  intros b s (Hs & Es). destruct b.
  - wstep. wuse escapeCodePoint_reads; [done|ins|destruct Hs as [[] ]; rewrite size_length; lia|by intros _; unfold point_ok, UCHAR_MAX_VALUE|].
    intros x t (Ht & Hx). wstep. wuse tryConsume_reads; [done|ins|]. intros b t' (Ht' & Et). rewrite <- Et in Hx.
    assert (reads 1 p t') as Hpt by (destruct b; rd). wstep. wstep. wstep.
    eapply (wp_mono _ _ (λ _ u, reads 1 p u /\ (m_errorCode u = NoError -> point_ok x))).
    { destruct (_ && _); wsteps; (split; [|done]); [rd|done]. }
    intros _ u (Hu & Hp). wstep. wstep. unfold hasError. destruct (bool_decide (m_errorCode u <> NoError)) eqn:Ee.
    + wsteps. apply bool_decide_eq_true in Ee. by apply escaped_error.
    + apply bool_decide_eq_false, dec_stable in Ee. apply escaped_character; [done..|by apply Hp].
  - wstep. wuse tryConsumeHex_reads; [done|ins|]. intros u t (Ht & _ & Hu). destruct u as [u|]; [|apply escaped_identity; [rd|point..]].
    wstep. wuse tryConsumeTrailEscape_reads; [done|ins|apply (Hu u eq_refl)|]. intros x v (Hv & _ & Hx).
    apply escaped_character; [rd|done..].
Qed.

Lemma parseIdentityEscape_escaped p q : reads 1 p q -> before p -> more q ->
  wp (parseIdentityEscape m_data m_isUnicode inCharacterClass d) q (escaped 1 p).
Proof.
  intros Hq Hb Hm. unfold parseIdentityEscape. peekc c.
  assert (wp (let* c := consume m_data in ed_atomPatternCharacter d c ;* ret true) q (escaped 1 p)) as Hgo.
  { consumec c' r. apply escaped_character; [rd|done..|]. apply unit_point, Hc0. }
  destruct (_ && _); [done|]. wstep. wuse isIdentityEscapeAnError_reads. intros [] r Hx; [|by subst r].
  destruct Hx as (e & -> & He). wsteps. apply escaped_error; try done. rd.
Qed.

Ltac case_eqb := match goal with |- wp (if ?b then _ else _) _ _ => destruct b eqn:? end; zbool; subst.

Lemma parseEscape_escaped p : before p -> more p ->
  wp (parseEscape m_data m_isUnicode m_backReferenceLimit U_GET_GC_MASK unicodeMatchProperty unicodeMatchPropertyValue
        inCharacterClass d) p (escaped 1 p).
Proof.
  intros Hb Hm. unfold parseEscape. consumec c0 q. atEnd; [apply escaped_raise; done|]. peekc c.
  repeat (case_eqb; [first
    [ apply parseWordBoundary_escaped; try done; by unfold point_ok, UCHAR_MAX_VALUE
    | by apply parseBuiltInClass_escaped
    | apply (parseDecimalEscape_escaped p q c); try done; lia
    | apply (parseOctalEscape_escaped p q 48); done
    | apply parseControlEscape_escaped; try done; by unfold point_ok, UCHAR_MAX_VALUE
    | by apply parseControlLetter_escaped
    | by apply parseHexEscape_escaped
    | by apply parseNamedReference_escaped
    | by apply parsePropertyEscape_escaped
    | by apply parseUnicodeEscape_escaped ]|]).
  by apply parseIdentityEscape_escaped.
Qed.

End Escape.

(** ** Character classes *)

(** Inside a class. *)
Definition within (p : Parser) : Prop := (exists s, at_position p s /\ inClass s = true) /\ point_ok (m_character p).

Lemma within_call p e : within p -> (forall s, inClass s = true -> follow s e = Some s) -> within (add_call p e).
Proof. intros [(s & Hs & Hc) Hp] Hf. split; [|done]. exists s. split; [|done]. eapply at_call; eauto. Qed.

Lemma within_class p st ch : within p -> point_ok ch -> within (set_class p st ch).
Proof. intros [(s & Hs & Hc) Hp] Hch. split; [|done]. exists s. split; [by apply at_class|done]. Qed.

Lemma within_reads n p q : 0 <= n -> reads n p q -> within p -> within q.
Proof.
  intros Hn Hr [(s & Hs & Hc) Hp]. split; [exists s; split; [by eapply at_reads|done]|]. by rewrite (rd_character _ _ _ _ Hr).
Qed.

Lemma within_error p e : within p -> within (set_error p e).
Proof. intros [(s & Hs & Hc) Hp]. split; [|done]. exists s. split; [by apply at_error|done]. Qed.

Lemma within_atom p ch : within p -> point_ok ch -> within (add_call p (atomCharacterClassAtom ch)).
Proof. intros Hw Hch. apply within_call; [done|]. intros s Hs. simpl. unfold member. by rewrite Hs, isPoint_ok. Qed.

Lemma within_builtIn p id invert : within p -> within (add_call p (atomCharacterClassBuiltIn id invert)).
Proof. intros Hw. apply within_call; [done|]. intros s Hs. simpl. unfold member. by rewrite Hs. Qed.

Lemma within_range p first last : within p -> point_ok first -> point_ok last -> first <= last ->
  within (add_call p (atomCharacterClassRange first last)).
Proof.
  intros Hw Hf Hl Hle. apply within_call; [done|]. intros s Hs. simpl. unfold member. rewrite Hs, !isPoint_ok by done.
  apply Z.leb_le in Hle. by rewrite Hle.
Qed.

Lemma hyphen_point : point_ok 45.
Proof. by unfold point_ok, UCHAR_MAX_VALUE. Qed.

Lemma within_point p : within p -> point_ok (m_character p).
Proof. by intros []. Qed.

(** Close a goal on the state after the calls of the class delegate. *)
Ltac wclass := repeat first [assumption | apply within_class | apply within_error | apply within_builtIn | apply within_atom
  | apply within_range | apply hyphen_point | apply within_point].

Lemma cc_atomPatternCharacter_within p ch hyphenIsRange : within p -> inside p -> point_ok ch ->
  wp (cc_atomPatternCharacter ch hyphenIsRange) p (λ _ q, advances 0 p q /\ within q).
Proof.
  intros Hw Hin Hch. unfold cc_atomPatternCharacter. do 4 wstep.
  destruct (m_state p); try destruct (_ && _); try destruct (ch <? m_character p) eqn:E; unfold setClass, setState; wsteps; zbool;
    (split; [split; [done|simpl; lia]|]); wclass.
Qed.

Lemma cc_atomBuiltInCharacterClass_within p id invert : within p -> inside p ->
  wp (cc_atomBuiltInCharacterClass id invert) p (λ _ q, advances 0 p q /\ within q).
Proof.
  intros Hw Hin. unfold cc_atomBuiltInCharacterClass. do 4 wstep.
  destruct (m_state p); unfold setState; wsteps; (split; [split; [done|simpl; lia]|]); wclass.
Qed.

#[local] Instance characterClassConstructor_laws : EscapeDelegateLaws true characterClassConstructor within within.
Proof.
  split; simpl; intros; try done.
  - by eapply within_reads.
  - by apply within_error.
  - wuse cc_atomPatternCharacter_within; [done..|]. naive_solver.
  - wuse cc_atomBuiltInCharacterClass_within; [done..|]. naive_solver.
Qed.

(** The calls are accepted, whatever the error. *)
Definition accepted (p : Parser) : Prop := is_Some (followAll start (calls p)).

Lemma within_accepted p : within p -> accepted p.
Proof. intros [(s & Hs & _) _]. exists s. apply Hs. Qed.

Lemma outer_accepted p : outer p -> accepted p.
Proof. intros (s & Hs & _). exists s. apply Hs. Qed.

Lemma cc_end_outer p : within p -> inside p -> wp cc_end p (λ _ q, advances 0 p q /\ outerAtom q).
Proof.
  intros Hw Hin. unfold cc_end. do 5 wstep.
  eapply (wp_mono _ _ (λ _ q, within q /\ inside q /\ m_index q = m_index p)).
  { destruct (m_state p); wsteps; (split_and!; [|done..]); wclass. }
  intros _ q ([(s & Hs & Hc) _] & Hq & Ei). wsteps. split; [split; [done|simpl; lia]|].
  exists (mkPosition (depth s) false true). split; [|done]. eapply at_call; [done|simpl; by rewrite Hc|done].
Qed.

(** What one token that started at [p] did. *)
Definition token (n : Z) (p : Parser) : bool -> Parser -> Prop :=
  λ b q, advances n p q /\ accepted q /\ (m_errorCode q = NoError -> outer q /\ (b = true -> outerAtom q)).

Lemma hasError_spec e : hasError e = false -> e = NoError.
Proof. unfold hasError. intros H. by apply bool_decide_eq_false, dec_stable in H. Qed.

Lemma parseCharacterClassLoop_token fuel p : inside p -> m_size - m_index p <= Z.of_nat fuel -> within p ->
  wp (parseCharacterClassLoop m_data m_isUnicode m_backReferenceLimit U_GET_GC_MASK unicodeMatchProperty unicodeMatchPropertyValue fuel)
    p (λ _ q, token 0 p true q).
Proof.
  revert p. induction fuel as [|fuel IH]; intros p Hin Hf Hw; cbn [parseCharacterClassLoop];
    (atEnd; [wsteps; split_and!; [split; [done|simpl; lia]|by apply within_accepted, within_error|done]|]).
  { unfold YarrReading.more in He. lia. }
  peekc c. destruct (c =? 93).
  - consumec c' q. wuse cc_end_outer; [eapply within_reads; [|done..]; lia|ins|]. intros _ r (Ha & Ho).
    pose proof (advances_reads _ _ _ _ _ Hr Ha). pose proof (outerAtom_outer _ Ho).
    split_and!; [split; [apply Ha|destruct H; lia]|by apply outer_accepted|done].
  - wstep. eapply (wp_mono _ _ (λ _ q, advances 1 p q /\ within q)).
    { destruct (c =? 92).
      - wstep. wuse parseEscape_escaped; [apply characterClassConstructor_laws|done..|]. intros b q (Ha & Hb & _). by wsteps.
      - wstep. wuse consumePossibleSurrogatePair_reads; [done..|]. intros x q (Hr & _ & Hx).
        wuse cc_atomPatternCharacter_within; [eapply within_reads; [|done..]; lia|ins|done|]. intros _ r (Ha & Hb). split; [|done].
        apply (advances_reads _ _ _ _ _ Hr Ha). }
    intros _ q ([Hq Hi] & Hwq). do 2 wstep. destruct (hasError _) eqn:Ee.
    + wsteps. split_and!; [split; [done|lia]|by apply within_accepted|]. intros E. by rewrite E in Ee.
    + wuse IH; [done|lia|done|]. intros _ r ([Hr Hi'] & Hacc & Ho). split_and!; [split; [done|lia]|done..].
Qed.

Lemma token_error n p q b : advances n p q -> accepted q -> m_errorCode q <> NoError -> token n p b q.
Proof. intros Ha Hacc He. by split_and!. Qed.

Lemma token_raise n p q b e : reads n p q -> 0 <= n -> outer p -> e <> NoError -> token n p b (set_error q e).
Proof.
  intros Hr Hn Ho He. apply token_error; [|by eapply outer_accepted, outer_error, outer_reads|done]. destruct Hr. by split.
Qed.

(** A call that makes an atom, and one that does not. *)
Lemma token_atom p q e guard b : reads 1 p q -> outer p -> guard = true -> (forall s, follow s e = outside s guard (depth s) true) ->
  token 1 p b (add_call q e).
Proof.
  intros Hr Ho Hg Hf. assert (outerAtom (add_call q e)) as Ha. { eapply outer_atom; [eapply outer_reads; [|done..]; lia|done..]. }
  pose proof (outerAtom_outer _ Ha). split_and!; [by destruct Hr|by apply outer_accepted|done].
Qed.

Lemma token_other p q e : reads 1 p q -> outer p -> (forall s, follow s e = outside s true (depth s) false) ->
  token 1 p false (add_call q e).
Proof.
  intros Hr Ho Hf. assert (outer (add_call q e)) as Ha. { apply outer_other; [eapply outer_reads; [|done..]; lia|done]. }
  split_and!; [by destruct Hr|by apply outer_accepted|done].
Qed.

Lemma parseCharacterClass_token p : more p -> outer p ->
  wp (parseCharacterClass m_data m_isUnicode m_backReferenceLimit U_GET_GC_MASK unicodeMatchProperty unicodeMatchPropertyValue)
    p (λ _ q, token 1 p true q).
Proof.
  intros Hm Ho. unfold parseCharacterClass, setClass. consumec c q. do 3 wstep. wuse tryConsume_reads; [done|by eapply rd_inside in Hr|].
  intros invert r [Hi _]. assert (reads 0 (set_class q CC_Empty 0) r) as Hr' by (destruct invert; [rd|done]). clear Hi. do 2 wstep.
  assert (m_index q <= m_index r) as Hle by (destruct Hr'; simpl in *; lia).
  wuse parseCharacterClassLoop_token; [by eapply rd_inside in Hr'|apply rd_inside in Hr' as []; rewrite size_length; simpl; lia| |].
  - split; [|simpl; rewrite (rd_character _ _ _ _ Hr'); by unfold point_ok, UCHAR_MAX_VALUE].
    destruct Ho as (s & Hs & Hc0). exists (mkPosition (depth s) true false). split; [|done].
    eapply at_call; [|simpl; by rewrite Hc0|done]. eapply at_reads; [|exact Hr'|]; [lia|]. apply at_class. eapply at_reads; [|done..]; lia.
  - intros _ t ([Ht Hi] & Hacc & Hok). split_and!; [split; [done|simpl in Hi; lia]|done..].
Qed.

(** ** Parentheses *)

Context (pattern_size : m_size <= MAX_PATTERN_SIZE).

(** There is room for one more level. *)
Definition room (p : Parser) : Prop := exists s, at_position p s /\ inClass s = false /\ depth s < m_index p.

(** A parenthesis was opened that the parser does not count yet. *)
Definition opened (p : Parser) : Prop :=
  exists s, followAll start (calls p) = Some s /\ inClass s = false /\ depth s = m_parenthesesNestingDepth p + 1 /\ 0 < depth s <= m_index p.

Lemma room_reads n p q : 1 <= n -> outer p -> reads n p q -> room q.
Proof.
  intros Hn (s & Hs & Hc) Hr. exists s. split_and!; [eapply at_reads; [|done..]; lia|done|]. destruct Hs, Hr. lia.
Qed.

Lemma room_names p names : room p -> room (set_names p names).
Proof. intros (s & [] & Hc & Hd). by exists s. Qed.

Lemma opened_call p e : room p -> (forall s, follow s e = outside s true (depth s + 1) false) -> opened (add_call p e).
Proof.
  intros (s & [] & Hc & Hd) Hf. exists (mkPosition (depth s + 1) false false). simpl.
  rewrite followAll_snoc, at_calls0, Hf. unfold outside. rewrite Hc. split_and!; [done..|lia|lia|lia].
Qed.

Lemma incrementDepth_opened p : opened p -> inside p ->
  wp incrementDepth p (λ _ q, m_index q = m_index p /\ outer q).
Proof.
  intros (s & Hs & Hc & Hd & Hi) Hin. unfold incrementDepth. wsteps. split; [done|]. exists s. split; [|done].
  split; simpl; [done| |lia]. rewrite uwrap_small; [done|]. unfold YarrReading.inside, MAX_PATTERN_SIZE in *. simpl. lia.
Qed.

(** The parenthesis is open, or there is an error. *)
Definition opening (n : Z) (p : Parser) : unit -> Parser -> Prop :=
  λ _ q, advances n p q /\ (opened q \/ (accepted q /\ m_errorCode q <> NoError)).

Lemma opening_token p (e : ParserM unit) q : wp e q (opening 1 p) -> wp (bind e (λ _, incrementDepth)) q (λ _ r, token 1 p false r).
Proof.
  intros He. wstep. wuse He. intros _ r ([Hi Ha] & [Ho|[Hacc Herr]]).
  - wuse incrementDepth_opened; [done..|]. intros _ t (Et & Hot). split_and!; [|by apply outer_accepted|done].
    split; [unfold YarrReading.inside in *; by rewrite Et|lia].
  - unfold incrementDepth. wsteps. by apply token_error.
Qed.

Lemma opening_call p q e : reads 1 p q -> outer p -> (forall s, follow s e = outside s true (depth s + 1) false) -> wp (call e) q (opening 1 p).
Proof.
  intros Hr Ho Hf. wsteps. split; [by destruct Hr|]. left. apply opened_call; [|done]. eapply room_reads; [|done..]. lia.
Qed.

Lemma opening_raise p q e : reads 1 p q -> outer p -> e <> NoError -> wp (raise e) q (opening 1 p).
Proof.
  intros Hr Ho He. wsteps. split; [by destruct Hr|]. right. split; [|done].
  eapply outer_accepted, outer_error, outer_reads; [|done..]. lia.
Qed.

Lemma parseParenthesesBegin_token p : more p -> outer p ->
  wp (parseParenthesesBegin m_data m_isUnicode U_GET_GC_MASK) p (λ _ q, token 1 p false q).
Proof.
  intros Hm Ho. unfold parseParenthesesBegin. consumec c q. wstep. wuse tryConsume_reads; [done|ins|]. intros special r [Hr' _].
  assert (reads 1 p r) as Hpr by (destruct special; rd). destruct special; [|by apply opening_token, opening_call].
  atEnd; [wsteps; by apply token_raise|]. consumec k t. assert (reads 1 p t) as Hpt by rd. apply opening_token.
  destruct (k =? 58); [by apply opening_call|]. destruct (k =? 61); [by apply opening_call|]. destruct (k =? 33); [by apply opening_call|].
  destruct (k =? 60); [|by apply opening_raise]. wstep. wuse tryConsumeGroupName_reads; [done|ins|]. intros name u Hu.
  assert (reads 1 p u) as Hpu by rd. destruct name as [name|]; [|by apply opening_raise]. do 2 wstep.
  destruct (bool_decide _); [by apply opening_raise|]. wsteps. split; [by destruct Hpu|]. left. apply opened_call; [|done].
  apply room_names. eapply room_reads; [|done..]. lia.
Qed.

Lemma parseParenthesesEnd_token p : more p -> outer p -> wp (parseParenthesesEnd m_data) p (λ _ q, token 1 p true q).
Proof.
  intros Hm Ho. unfold parseParenthesesEnd. consumec c q. do 3 wstep. pose proof (outer_reads 1 p q ltac:(lia) Hr Ho) as (s & [] & Hc').
  destruct (0 <? m_parenthesesNestingDepth q) eqn:E; zbool; wsteps.
  - set (t := set_depth _ _). assert (outerAtom t) as Ht.
    { exists (mkPosition (depth s - 1) false true). split; [|done]. split; simpl.
      + rewrite followAll_snoc, at_calls0. simpl. unfold outside. rewrite Hc', at_depth0. simpl.
        apply Z.ltb_lt in E. by rewrite E.
      + rewrite uwrap_small; [lia|]. apply rd_inside in Hr. unfold YarrReading.inside, MAX_PATTERN_SIZE in *. simpl. lia.
      + lia. }
    pose proof (outerAtom_outer _ Ht). split_and!; [by destruct Hr|by apply outer_accepted|done].
  - apply token_error; [by destruct Hr| |done]. by exists s.
Qed.

(** ** Quantifiers *)

Lemma outerAtom_reads n p q : 0 <= n -> reads n p q -> outerAtom p -> outerAtom q.
Proof. intros Hn Hr (s & Hs & Hc & Ha). exists s. split; [by eapply at_reads|done]. Qed.

Lemma parseQuantifier_token p q atom min max : outer p -> (atom = true -> outerAtom p) -> reads 1 p q ->
  0 <= min -> min <= max -> max <= quantifyInfinite ->
  wp (parseQuantifier m_data atom min max) q (λ _ r, token 1 p false r).
Proof.
  intros Ho Ha Hr H0 Hle Hmax. unfold parseQuantifier. destruct (min =? UINT32_MAX) eqn:E; zbool; [wsteps; by apply token_raise|].
  destruct atom; [|wsteps; by apply token_raise]. wstep. wuse tryConsume_reads; [done|ins|]. intros lazy r [Hl _]. wsteps.
  assert (reads 1 p r) as Hpr by (destruct lazy; rd). destruct (outerAtom_reads 1 p r ltac:(lia) Hpr (Ha eq_refl)) as (s & Hs & Hc & Hat).
  assert (outer (add_call r (quantifyAtom min max (negb lazy)))) as Hout.
  { exists (mkPosition (depth s) false false). split; [|done]. eapply at_call; [done| |done]. simpl. unfold outside.
    rewrite Hc, Hat. unfold quantifyInfinite in *. apply Z.leb_le in H0, Hmax. rewrite H0, Hmax. assert (min < UINT32_MAX) as Hlt by (zbool; lia).
    apply Z.ltb_lt in Hlt. apply Z.leb_le in Hle. by rewrite Hle, Hlt. }
  split_and!; [by destruct Hpr|by apply outer_accepted|done].
Qed.

Lemma parseBraces_token p atom : more p -> outer p -> (atom = true -> outerAtom p) ->
  wp (parseBraces m_data atom) p (λ b q, if b : bool then token 1 p false q else reads 0 p q /\ m_index q = m_index p).
Proof.
  intros Hm Ho Ha. unfold parseBraces. do 3 wstep. consumec c q. set (Q := λ (b : bool) q, _).
  assert (forall r, reads 0 p r -> wp (restoreState (m_index p) ;* ret false) r Q) as Hinc.
  { intros r Hr'. wsteps. unfold Q. split; [rd|done]. }
  wstep. wuse peekIsDigit_reads; [done|ins|]. intros digit r [-> Hdig]. destruct digit; [|apply Hinc; rd].
  destruct (Hdig eq_refl) as (Hmq & c1 & Hc1 & Hd1). wstep. wuse consumeNumber_reads; [done|done..|]. intros min r (Hr' & _ & Hmin).
  wstep. wuse tryConsume_reads; [done|ins|]. intros comma t [Ht _]. assert (reads 0 r t) as Ht' by (destruct comma; rd). clear Ht.
  wstep. eapply (wp_mono _ _ (λ max u, reads 1 p u /\ 0 <= max <= UINT32_MAX)).
  { destruct comma; [|wsteps; split; [rd|done]]. wstep. wuse peekIsDigit_reads; [done|ins|]. intros digit u [-> Hdig'].
    destruct digit; [|wsteps; split; [rd|unfold quantifyInfinite, UINT32_MAX; lia]]. destruct (Hdig' eq_refl) as (Hmt & c2 & Hc2 & Hd2).
    wuse consumeNumber_reads; [done|done..|]. intros max u (Hu & _ & Hmax). split; [rd|done]. }
  intros max u (Hu & Hmax). wstep. wuse tryConsume_reads; [done|ins|]. intros closed v [Hv _].
  assert (reads 1 p v) as Hpv by (destruct closed; rd). destruct closed; [|apply Hinc; rd]. wstep.
  destruct (min <=? max) eqn:E; zbool.
  - wuse parseQuantifier_token; [done|done|done|lia|done|unfold quantifyInfinite; lia|]. intros _ w Hw. by wsteps.
  - wsteps. by apply token_raise.
Qed.

(** ** Tokens *)

Lemma parseCharacter_token p q : more q -> outer p -> reads 0 p q -> wp (parseCharacter m_data m_isUnicode) q (token 1 p).
Proof.
  intros Hm Ho Hq. unfold parseCharacter. wstep. wuse consumePossibleSurrogatePair_reads; [done..|]. intros x r (Hr & _ & Hx).
  wsteps. eapply token_atom; [rd|done|by apply isPoint_ok|done].
Qed.

(** The cases of a token: a single character, a part with its own lemma. *)
Ltac case_token := match goal with |- wp (if ?b then _ else _) _ _ => destruct b eqn:? end.
Ltac simple_token :=
  let c := fresh in let q := fresh in consumec c q; wsteps; first [by apply token_other | by eapply (token_atom _ _ _ true)].
Ltac part_token lem := wstep; wuse lem; [done..|]; intros _ ? ?; by wsteps.

Lemma parseToken_token p atom : more p -> outer p -> (atom = true -> outerAtom p) ->
  wp (parseToken m_data m_isUnicode m_backReferenceLimit U_GET_GC_MASK unicodeMatchProperty unicodeMatchPropertyValue
        isValidNamedForwardReference atom) p (token 1 p).
Proof.
  intros Hm Ho Ha. unfold parseToken. peekc c.
  case_token; [simple_token|]. case_token; [part_token parseParenthesesBegin_token|]. case_token; [part_token parseParenthesesEnd_token|].
  do 3 (case_token; [simple_token|]). case_token; [part_token parseCharacterClass_token|].
  case_token.
  { wuse parseEscape_escaped; [apply m_delegate_laws|done..|]. intros b q (Hq & Hout & Hat).
    split_and!; [done|by apply outer_accepted|]. intros Herr. split; [done|]. intros Hb. by apply Hat. }
  do 3 (case_token; [consumec c' q; wstep; wuse (parseQuantifier_token p q atom); [done..|]; intros _ r Hq; by wsteps|]).
  case_token; [|by apply parseCharacter_token; [..|rd]]. wstep. wuse parseBraces_token; [done..|]. intros b q Hq. destruct b; [by wsteps|].
  destruct Hq as [Hq Ei]. apply parseCharacter_token; [|done..]. unfold YarrReading.more in *. by rewrite Ei.
Qed.

Lemma parseTokens_accepted fuel p atom : inside p -> m_size - m_index p <= Z.of_nat fuel -> outer p -> (atom = true -> outerAtom p) ->
  wp (parseTokens m_data m_isUnicode m_backReferenceLimit U_GET_GC_MASK unicodeMatchProperty unicodeMatchPropertyValue
        isValidNamedForwardReference fuel atom) p
    (λ _ q, accepted q /\ (m_errorCode q = NoError -> exists s, followAll start (calls q) = Some s /\ depth s = 0 /\ inClass s = false)).
Proof.
  revert p atom. induction fuel as [|fuel IH]; intros p atom Hin Hf Ho Ha; cbn [parseTokens]; atEnd.
  1, 3: do 2 wstep; destruct (0 <? m_parenthesesNestingDepth p) eqn:E; zbool; wsteps; (split; [by apply (outer_accepted p)|]); [done|];
    intros _; destruct Ho as (s & [] & Hc); exists s; (split_and!; [done|lia|done]).
  { unfold YarrReading.more in He. lia. }
  wstep. wuse parseToken_token; [done..|]. intros b q ([Hq Hi] & Hacc & Hok). do 2 wstep. destruct (hasError _) eqn:Ee.
  - wsteps. split; [done|]. intros E. by rewrite E in Ee.
  - destruct (Hok (hasError_spec _ Ee)) as [Hout Hat]. by apply IH; [|lia|..].
Qed.

End Proofs.

(** ** The theorems *)

Section Claims.

Context (m_data : list Z) (m_isUnicode : bool) (m_backReferenceLimit : Z).
Context (U_GET_GC_MASK : Z -> Z) (unicodeMatchProperty : list Z -> option BuiltInCharacterClassID).
Context (unicodeMatchPropertyValue : list Z -> list Z -> option BuiltInCharacterClassID).
Context (isValidNamedForwardReference : list Z -> bool).

Notation parse := (parse m_data m_isUnicode m_backReferenceLimit U_GET_GC_MASK unicodeMatchProperty unicodeMatchPropertyValue
  isValidNamedForwardReference).

(** Both theorems at once. *)
Lemma parse_sound : Forall (λ c, 0 <= c < 65536) m_data ->
  exists error calls s, parse = Some (error, calls) /\ followAll start calls = Some s /\
    (error = NoError -> depth s = 0 /\ inClass s = false).
Proof.
  intros Hu. unfold Yarr.parse. destruct (MAX_PATTERN_SIZE <? m_size m_data) eqn:E; zbool.
  { exists PatternTooLarge, [], start. by split_and!. }
  destruct (parseTokens_accepted m_data m_isUnicode m_backReferenceLimit U_GET_GC_MASK unicodeMatchProperty
    unicodeMatchPropertyValue isValidNamedForwardReference Hu E (length m_data) initialParser false)
    as (x & q & Hq & [s Hs] & Hok).
  - unfold inside, m_size, vec_size. simpl. lia.
  - rewrite size_length. simpl. lia.
  - exists start. split; [|done]. split; simpl; [done|done|lia].
  - done.
  - rewrite Hq. exists (m_errorCode q), (calls q), s. split_and!; [done..|]. intros He.
    destruct (Hok He) as (s' & Hs' & Hd). by simplify_eq.
Qed.

(** C15: parsing ends on every string of UTF-16 code units, whatever its syntax: no
    character outside the pattern is read, no release assertion of the class
    delegate is reached and every loop stops, with an error code or without. *)
Theorem parse_total (code_units : Forall (λ c, 0 <= c < 65536) m_data) :
  exists error calls,
    Yarr.parse m_data m_isUnicode m_backReferenceLimit U_GET_GC_MASK unicodeMatchProperty unicodeMatchPropertyValue
      isValidNamedForwardReference = Some (error, calls).
Proof. destruct (parse_sound code_units) as (e & cs & _ & Hp & _). by exists e, cs. Qed.

(** C14: the calls the parser makes keep the contract with the delegate also when
    the pattern is in error: classes and parentheses are nested, members are
    reported inside a class only, a quantifier follows an atom and has ordered
    bounds, and every character is a code point; without an error every class
    and every parenthesis is closed at the end. *)
Theorem parse_contract (code_units : Forall (λ c, 0 <= c < 65536) m_data) error calls
    (parsed : parse = Some (error, calls)) :
  exists s, followAll start calls = Some s /\ (error = NoError -> depth s = 0 /\ inClass s = false).
Proof. destruct (parse_sound code_units) as (e & cs & s & Hp & Hs & Hok). simplify_eq. by exists s. Qed.

End Claims.

(** The pattern [(a|[b-d]{2,3}?)$]. *)
Definition samplePattern : list Z := [40; 97; 124; 91; 98; 45; 100; 93; 123; 50; 44; 51; 125; 63; 41; 36].

Definition sampleCalls : list YarrEvent :=
  [atomParenthesesSubpatternBegin true None; atomPatternCharacter 97; disjunction; atomCharacterClassBegin false;
   atomCharacterClassRange 98 100; atomCharacterClassEnd; quantifyAtom 2 3 false; atomParenthesesEnd; assertionEOL].

Lemma parse_total_witness :
  Forall (λ c, 0 <= c < 65536) samplePattern /\
  exists error calls, parse samplePattern false 0 (λ _, 0) (λ _, None) (λ _ _, None) (λ _, false) = Some (error, calls).
Proof.
  assert (Forall (λ c, 0 <= c < 65536) samplePattern) as H by (repeat constructor; lia). split; [exact H|].
  exact (parse_total samplePattern false 0 (λ _, 0) (λ _, None) (λ _ _, None) (λ _, false) H).
Defined.

Lemma parse_contract_witness :
  parse samplePattern false 0 (λ _, 0) (λ _, None) (λ _ _, None) (λ _, false) = Some (NoError, sampleCalls) /\
  exists s, followAll start sampleCalls = Some s /\ (NoError = NoError -> depth s = 0 /\ inClass s = false).
Proof.
  assert (parse samplePattern false 0 (λ _, 0) (λ _, None) (λ _ _, None) (λ _, false) = Some (NoError, sampleCalls)) as E
    by (vm_compute; reflexivity).
  split; [exact E|]. refine (parse_contract samplePattern false 0 (λ _, 0) (λ _, None) (λ _ _, None) (λ _, false) _ _ _ E).
  repeat constructor; lia.
Defined.
