(* ===== verification/CombinedURLFilters.v ===== *)
(** * The combined URL filters: the prefix tree of patterns

    Models [CombinedFiltersAlphabet] and [addPattern], [addDomain] and [isEmpty]
    of [CombinedURLFilters].  A [const Term*] is the position of the term in
    [m_internedTermsStorage]; the map [m_actions] from vertices to action lists
    is a field of the vertex.  [processNFAs] is not in this file. *)

From stdpp Require Import base numbers option list list_numbers.
From Stdlib Require Import ZArith Lia.
From S2P Require Import Prelude.
From S2P Require Import Graph.
From S2P Require Import Term.
From S2P Require Import TermProof.

(** ** The alphabet *)

(** [m_internedTermsStorage]; [m_uniqueTerms] has the same terms. *)
Abbreviation CombinedFiltersAlphabet := (list Term).

(** The first position at which [p] holds. *)
Fixpoint findIndex {A} (p : A -> bool) (l : list A) : option nat :=
  match l with
  | [] => None
  | x :: l => if p x then Some 0%nat else match findIndex p l with Some i => Some (S i) | None => None end
  end.

Definition interned (alphabet : CombinedFiltersAlphabet) (term : Term) : nat * CombinedFiltersAlphabet :=
  match findIndex (λ t, Term_eqb t term) alphabet with
  | Some i => (i, alphabet)
  | None => (length alphabet, alphabet ++ [term])
  end.

(** ** The prefix tree *)

(** The entry of [m_actions], if there is one, and the edges. *)
Inductive PrefixTreeVertex := mkVertex (vertexActions : option (list Z)) (edges : list (nat * PrefixTreeVertex)).

Definition vertexActions (v : PrefixTreeVertex) : option (list Z) := match v with mkVertex acts _ => acts end.
Definition edges (v : PrefixTreeVertex) : list (nat * PrefixTreeVertex) := match v with mkVertex _ es => es end.
Definition newVertex : PrefixTreeVertex := mkVertex None [].

Record CombinedURLFilters := mkCombinedURLFilters {
  m_alphabet : CombinedFiltersAlphabet;
  m_prefixTreeRoot : PrefixTreeVertex
}.

Definition newCombinedURLFilters : CombinedURLFilters := mkCombinedURLFilters [] newVertex.

Definition isEmpty (f : CombinedURLFilters) : bool := match edges (m_prefixTreeRoot f) with [] => true | _ => false end.

(** The edge of the vertex whose term is equal to [term]. *)
Definition findEdge (alphabet : CombinedFiltersAlphabet) (es : list (nat * PrefixTreeVertex)) (term : Term) : option nat :=
  findIndex (λ e : nat * PrefixTreeVertex, match alphabet !! e.1 with Some t => Term_eqb t term | None => false end) es.

Definition addAction (actionId : Z) (v : PrefixTreeVertex) : PrefixTreeVertex :=
  let actions := default [] (vertexActions v) in
  mkVertex (Some (if bool_decide (actionId ∈ actions) then actions else actions ++ [actionId])) (edges v).

(** The loop over the terms, from the vertex [lastPrefixTree], and the action at its end. *)
Fixpoint extendTree (actionId : Z) (pattern : list Term) (alphabet : CombinedFiltersAlphabet) (lastPrefixTree : PrefixTreeVertex)
    : CombinedFiltersAlphabet * PrefixTreeVertex :=
  match pattern with
  | [] => (alphabet, addAction actionId lastPrefixTree)
  | term :: pattern =>
      match findEdge alphabet (edges lastPrefixTree) term with
      | Some nextEntryIndex =>
          match edges lastPrefixTree !! nextEntryIndex with
          | Some (edgeTerm, child) =>
              let '(alphabet, child) := extendTree actionId pattern alphabet child in
              (alphabet, mkVertex (vertexActions lastPrefixTree) (<[ nextEntryIndex := (edgeTerm, child) ]> (edges lastPrefixTree)))
          | None => (alphabet, lastPrefixTree)
          end
      | None =>
          let '(edgeTerm, alphabet) := interned alphabet term in
          let '(alphabet, child) := extendTree actionId pattern alphabet newVertex in
          (alphabet, mkVertex (vertexActions lastPrefixTree) (edges lastPrefixTree ++ [(edgeTerm, child)]))
      end
  end.

Definition addPattern (f : CombinedURLFilters) (actionId : Z) (pattern : list Term) : CombinedURLFilters :=
  match pattern with
  | [] => f
  | _ =>
      let '(alphabet, root) := extendTree actionId pattern (m_alphabet f) (m_prefixTreeRoot f) in
      mkCombinedURLFilters alphabet root
  end.

Definition canonicalDotStar : Term := quantify universalTerm ZeroOrMore.

(** [Term(domain[i], true)] for the characters; [None] is the release assertion on
    a character that is not ASCII. *)
Definition domainTerms (domain : list Z) : option (list Term) := mapM (λ c, characterTerm (u8 c) true) domain.

Definition addDomain (f : CombinedURLFilters) (actionId : Z) (domain : list Z) : option CombinedURLFilters :=
  if match domain with c :: _ => c =? 42 | [] => false end then
    dot ← characterTerm 46 true;
    terms ← domainTerms (tail domain);
    let prependDot := [canonicalDotStar; dot] ++ terms ++ [endOfLineAssertionTerm] in
    let prependBeginningOfLine := terms ++ [endOfLineAssertionTerm] in
    Some (addPattern (addPattern f actionId prependDot) actionId prependBeginningOfLine)
  else
    terms ← domainTerms domain;
    Some (addPattern f actionId (terms ++ [endOfLineAssertionTerm])).

(** ** What the tree holds *)

(** The vertex at the end of a path of terms. *)
Fixpoint vertexAt (alphabet : CombinedFiltersAlphabet) (v : PrefixTreeVertex) (path : list Term) : option PrefixTreeVertex :=
  match path with
  | [] => Some v
  | term :: path =>
      match findEdge alphabet (edges v) term with
      | Some i => match edges v !! i with Some e => vertexAt alphabet e.2 path | None => None end
      | None => None
      end
  end.

Definition actionsAt (f : CombinedURLFilters) (path : list Term) : list Z :=
  match vertexAt (m_alphabet f) (m_prefixTreeRoot f) path with
  | Some v => default [] (vertexActions v)
  | None => []
  end.

(** Every edge has a term of the alphabet, the edges of a vertex have different
    terms, and every vertex below without edges has actions. *)
Inductive wf_tree (alphabet : CombinedFiltersAlphabet) (v : PrefixTreeVertex) : Prop :=
  | wf_tree_intro :
      NoDup (fst <$> edges v) ->
      (forall e, e ∈ edges v -> (e.1 < length alphabet)%nat /\ wf_tree alphabet e.2 /\ (edges e.2 = [] -> exists a l, vertexActions e.2 = Some (a :: l))) ->
      wf_tree alphabet v.

Record wf_filters (f : CombinedURLFilters) : Prop := {
  wff_alphabet : NoDup (m_alphabet f);
  wff_tree : wf_tree (m_alphabet f) (m_prefixTreeRoot f)
}.

(** ** Searching *)

Lemma findIndex_Some {A} (p : A -> bool) l i : findIndex p l = Some i -> exists x, l !! i = Some x /\ p x = true.
Proof.
  revert i. induction l as [|x l IH]; intros i; simpl; [done|]. destruct (p x) eqn:E; [intros [= <-]; by exists x|].
  destruct (findIndex p l) as [j|]; [|done]. intros [= <-]. by apply IH.
Qed.

Lemma findIndex_None {A} (p : A -> bool) l : findIndex p l = None <-> forall x, x ∈ l -> p x = false.
Proof.
  induction l as [|x l IH]; simpl.
  - split; [intros _ x Hx; by apply elem_of_nil in Hx|done].
  - setoid_rewrite elem_of_cons. destruct (p x) eqn:E.
    + split; [done|]. intros Hp. rewrite (Hp x) in E; [done|by left].
    + destruct (findIndex p l) as [j|].
      * split; [done|]. intros Hp. assert (Some j = None) as ?; [|done]. apply IH. auto.
      * split; [|done]. intros _ y [->|Hy]; [done|by apply IH].
Qed.

Lemma findIndex_app {A} (p : A -> bool) l m :
  findIndex p (l ++ m) = match findIndex p l with Some i => Some i | None => (Nat.add (length l)) <$> findIndex p m end.
Proof.
  induction l as [|x l IH]; simpl; [by destruct (findIndex p m)|]. destruct (p x); [done|]. rewrite IH.
  destruct (findIndex p l); [done|]. by destruct (findIndex p m).
Qed.

Lemma findIndex_ext {A} (p q : A -> bool) l : (forall x, x ∈ l -> p x = q x) -> findIndex p l = findIndex q l.
Proof.
  induction l as [|x l IH]; intros Heq; simpl; [done|]. setoid_rewrite elem_of_cons in Heq.
  rewrite (Heq x) by (by left). by rewrite IH by auto.
Qed.

Lemma findIndex_fmap {A B} (g : A -> B) (p : B -> bool) l : findIndex (λ x, p (g x)) l = findIndex p (g <$> l).
Proof. induction l as [|x l IH]; simpl; [done|]. destruct (p (g x)); [done|]. by rewrite IH. Qed.

(** ** Interning *)

Lemma interned_spec alphabet term ptr alphabet' : NoDup alphabet -> interned alphabet term = (ptr, alphabet') ->
  NoDup alphabet' /\ alphabet `prefix_of` alphabet' /\ alphabet' !! ptr = Some term.
Proof.
  unfold interned. destruct (findIndex _ alphabet) as [i|] eqn:E; intros Hnd [= <- <-].
  - apply findIndex_Some in E as (t & Ht & ->%Term_eqb_eq). done.
  - split_and!; [|by apply prefix_app_r|by apply list_lookup_middle]. apply NoDup_app. split_and!; [done| |apply NoDup_singleton].
    intros t Ht ->%list_elem_of_singleton. rewrite findIndex_None in E. specialize (E term Ht).
    by rewrite (proj2 (Term_eqb_eq term term) eq_refl) in E.
Qed.

(** ** Children *)

Definition childOf (alphabet : CombinedFiltersAlphabet) (es : list (nat * PrefixTreeVertex)) (term : Term) : option PrefixTreeVertex :=
  match findEdge alphabet es term with Some i => snd <$> es !! i | None => None end.

Definition pointsTo (alphabet : CombinedFiltersAlphabet) (term : Term) (ptr : nat) : bool :=
  match alphabet !! ptr with Some t => Term_eqb t term | None => false end.

Lemma pointsTo_true alphabet term ptr : pointsTo alphabet term ptr = true <-> alphabet !! ptr = Some term.
Proof. unfold pointsTo. destruct (alphabet !! ptr) as [t|]; [|done]. rewrite Term_eqb_eq. naive_solver. Qed.

Lemma findEdge_pointers alphabet es term : findEdge alphabet es term = findIndex (pointsTo alphabet term) (fst <$> es).
Proof. apply (findIndex_fmap fst (pointsTo alphabet term)). Qed.

(** A larger alphabet has the same terms at the known pointers. *)
Lemma findEdge_mono alphabet alphabet' es term : alphabet `prefix_of` alphabet' ->
  (forall e, e ∈ es -> (e.1 < length alphabet)%nat) -> findEdge alphabet' es term = findEdge alphabet es term.
Proof.
  intros [k ->] Hes. apply findIndex_ext. intros e He. cbv beta. by rewrite lookup_app_l by auto.
Qed.

Lemma childOf_mono alphabet alphabet' es term : alphabet `prefix_of` alphabet' ->
  (forall e, e ∈ es -> (e.1 < length alphabet)%nat) -> childOf alphabet' es term = childOf alphabet es term.
Proof. intros Hp Hes. unfold childOf. by rewrite (findEdge_mono alphabet). Qed.

Lemma childOf_elem alphabet es term c : childOf alphabet es term = Some c -> exists ptr, (ptr, c) ∈ es.
Proof.
  unfold childOf. destruct (findEdge _ _ _) as [i|]; [|done]. intros ([ptr c'] & Hl & ->)%fmap_Some.
  exists ptr. by eapply list_elem_of_lookup_2.
Qed.

(** Replacing the child of an edge. *)
Lemma childOf_insert alphabet es term i ptr c : NoDup alphabet ->
  findEdge alphabet es term = Some i -> es !! i = Some (ptr, c) ->
  forall c' t, childOf alphabet (<[ i := (ptr, c') ]> es) t = if decide (t = term) then Some c' else childOf alphabet es t.
Proof.
  intros Hnd Hf Hl c' t. unfold childOf.
  assert (fst <$> <[ i := (ptr, c') ]> es = fst <$> es) as Hfst.
  { rewrite list_fmap_insert. apply list_insert_id. by rewrite list_lookup_fmap, Hl. }
  rewrite findEdge_pointers, Hfst, <- findEdge_pointers. pose proof (lookup_lt_Some _ _ _ Hl).
  destruct (decide (t = term)) as [->|Hne]; [by rewrite Hf, list_lookup_insert_eq|].
  destruct (findEdge alphabet es t) as [j|] eqn:Ej; [|done]. rewrite list_lookup_insert_ne; [done|]. intros ->.
  apply findIndex_Some in Hf as (e & He & Ht), Ej as (e' & He' & Ht'). simplify_eq. 
  simpl in Ht, Ht'. destruct (alphabet !! ptr) as [u|]; [|done]. apply Term_eqb_eq in Ht, Ht'. congruence.
Qed.

(** A new edge. *)
Lemma childOf_snoc alphabet es term ptr c : NoDup alphabet ->
  findEdge alphabet es term = None -> alphabet !! ptr = Some term ->
  forall t, childOf alphabet (es ++ [(ptr, c)]) t = if decide (t = term) then Some c else childOf alphabet es t.
Proof.
  intros Hnd Hf Hptr t. unfold childOf, findEdge in *. rewrite findIndex_app.
  destruct (decide (t = term)) as [->|Hne].
  - rewrite Hf. simpl. rewrite Hptr, (proj2 (Term_eqb_eq term term) eq_refl). simpl.
    by rewrite Nat.add_0_r, list_lookup_middle.
  - clear Hf. destruct (findIndex _ es) as [i|] eqn:Ei.
    + apply findIndex_Some in Ei as (e & He & _). cbv beta iota. by rewrite lookup_app_l by (by eapply lookup_lt_Some).
    + simpl. rewrite Hptr. destruct (Term_eqb term t) eqn:Et; [|done]. apply Term_eqb_eq in Et. congruence.
Qed.

Lemma vertexAt_cons alphabet v t path :
  vertexAt alphabet v (t :: path) = match childOf alphabet (edges v) t with Some c => vertexAt alphabet c path | None => None end.
Proof. unfold childOf. simpl. destruct (findEdge _ _ _) as [i|]; [|done]. by destruct (edges v !! i). Qed.

Definition actionsBelow (alphabet : CombinedFiltersAlphabet) (v : PrefixTreeVertex) (path : list Term) : list Z :=
  match vertexAt alphabet v path with Some u => default [] (vertexActions u) | None => [] end.

Lemma actionsBelow_cons alphabet v t path :
  actionsBelow alphabet v (t :: path) = match childOf alphabet (edges v) t with Some c => actionsBelow alphabet c path | None => [] end.
Proof. unfold actionsBelow. rewrite vertexAt_cons. by destruct (childOf _ _ _). Qed.

Lemma newVertex_actions alphabet path : actionsBelow alphabet newVertex path = [].
Proof. by destruct path. Qed.

Lemma wf_newVertex alphabet : wf_tree alphabet newVertex.
Proof. split; [constructor|]. intros e He. by apply elem_of_nil in He. Qed.

(** A larger alphabet changes nothing. *)
Lemma wf_tree_mono alphabet alphabet' v : alphabet `prefix_of` alphabet' -> wf_tree alphabet v -> wf_tree alphabet' v.
Proof.
  intros Hp. revert v. fix IH 2. intros v [Hnd He]. split; [done|]. intros e Hin. destruct (He e Hin) as (Hl & Hw & Ha).
  split_and!; [apply prefix_length in Hp; lia|by apply IH|done].
Qed.

Lemma wf_tree_child alphabet v t c : wf_tree alphabet v -> childOf alphabet (edges v) t = Some c -> wf_tree alphabet c.
Proof. intros [_ He] (ptr & Hin)%childOf_elem. by destruct (He _ Hin) as (_ & Hw & _). Qed.

Lemma actionsBelow_mono alphabet alphabet' v path : alphabet `prefix_of` alphabet' -> wf_tree alphabet v ->
  actionsBelow alphabet' v path = actionsBelow alphabet v path.
Proof.
  intros Hp. revert v. induction path as [|t path IH]; intros v Hw; [done|]. rewrite !actionsBelow_cons.
  rewrite (childOf_mono alphabet alphabet'); [|done|]. 2:{ intros e He. destruct Hw as [_ Hall]. by apply Hall. }
  destruct (childOf alphabet (edges v) t) as [c|] eqn:E; [|done]. apply IH. by eapply wf_tree_child.
Qed.

(** ** Adding a pattern *)

Definition withAction (actionId : Z) (actions : list Z) : list Z :=
  if bool_decide (actionId ∈ actions) then actions else actions ++ [actionId].

Lemma withAction_elem actionId actions a : a ∈ withAction actionId actions <-> a ∈ actions \/ a = actionId.
Proof.
  unfold withAction. case_bool_decide; [naive_solver|]. rewrite elem_of_app, list_elem_of_singleton. done.
Qed.

Lemma withAction_nonempty actionId actions : exists a l, withAction actionId actions = a :: l.
Proof.
  destruct (withAction actionId actions) as [|a l] eqn:E; [|by exists a, l].
  assert (actionId ∈ withAction actionId actions) as Hin by (apply withAction_elem; by right). rewrite E in Hin. by apply elem_of_nil in Hin.
Qed.

(** What the loop guarantees. *)
Record extended (actionId : Z) (pattern : list Term) (alphabet : CombinedFiltersAlphabet) (v : PrefixTreeVertex)
    (r : CombinedFiltersAlphabet * PrefixTreeVertex) : Prop := {
  ext_prefix : alphabet `prefix_of` r.1;
  ext_alphabet : NoDup r.1;
  ext_tree : wf_tree r.1 r.2;
  ext_leaf : edges r.2 = [] -> exists a l, vertexActions r.2 = Some (a :: l);
  ext_actions : forall path, actionsBelow r.1 r.2 path =
    if decide (path = pattern) then withAction actionId (actionsBelow alphabet v path) else actionsBelow alphabet v path
}.

(** The vertex after a change of the child for [term]. *)
Lemma extended_cons actionId pattern alphabet v term child alphabet1 alphabet' child' es' :
  extended actionId pattern alphabet1 child (alphabet', child') ->
  alphabet `prefix_of` alphabet1 -> wf_tree alphabet v ->
  NoDup (fst <$> es') -> es' <> [] ->
  (forall e, e ∈ es' -> (e ∈ edges v \/ (e.1 < length alphabet')%nat /\ e.2 = child')) ->
  (forall t, childOf alphabet' es' t = if decide (t = term) then Some child' else childOf alphabet (edges v) t) ->
  (forall path, actionsBelow alphabet1 child path = actionsBelow alphabet v (term :: path)) ->
  extended actionId (term :: pattern) alphabet v (alphabet', mkVertex (vertexActions v) es').
Proof.
  intros [Hp Hnd Ht Hl Ha] Hp1 Hw Hes Hne Hin Hchild Hold. simpl in *. assert (alphabet `prefix_of` alphabet') as Hp' by (by etrans).
  split; simpl; [done|done| |done|].
  - split; [done|]. intros e He. destruct (Hin e He) as [Hv|[Hlt ->]]; [|done].
    apply (wf_tree_mono _ _ _ Hp') in Hw. destruct Hw as [_ Hall]. by apply Hall.
  - intros path. destruct path as [|t path]; [done|]. rewrite !actionsBelow_cons. cbn [edges]. rewrite Hchild.
    destruct (decide (t = term)) as [->|Hnt].
    + rewrite Ha, Hold, actionsBelow_cons. destruct (decide (path = pattern)) as [->|Hnp]; [by rewrite decide_True|].
      rewrite decide_False by congruence. done.
    + rewrite decide_False by congruence. destruct (childOf alphabet (edges v) t) as [c|] eqn:Ec; [|done].
      apply actionsBelow_mono; [done|]. by eapply wf_tree_child.
Qed.

Lemma extendTree_extended actionId pattern alphabet v : NoDup alphabet -> wf_tree alphabet v ->
  extended actionId pattern alphabet v (extendTree actionId pattern alphabet v).
Proof.
  revert alphabet v. induction pattern as [|term pattern IH]; intros alphabet v Hnd Hw; cbn [extendTree].
  { split; simpl; [done|done| | |].
    - destruct Hw as [Hn He]. by split.
    - intros _. destruct (withAction_nonempty actionId (default [] (vertexActions v))) as (a & l & E). exists a, l. by rewrite <- E.
    - intros [|t path]; [done|]. rewrite decide_False by done. by rewrite !actionsBelow_cons. }
  destruct (findEdge alphabet (edges v) term) as [i|] eqn:Ef.
  - destruct (edges v !! i) as [[ptr child]|] eqn:Ei.
    2:{ apply findIndex_Some in Ef as (e & He & _). congruence. }
    assert (childOf alphabet (edges v) term = Some child) as Hc by (unfold childOf; by rewrite Ef, Ei).
    pose proof (IH alphabet child Hnd (wf_tree_child _ _ _ _ Hw Hc)) as Hext.
    destruct (extendTree actionId pattern alphabet child) as [alphabet' child'].
    assert (fst <$> <[ i := (ptr, child') ]> (edges v) = fst <$> edges v) as Hfst.
    { rewrite list_fmap_insert. apply list_insert_id. by rewrite list_lookup_fmap, Ei. }
    destruct Hw as [Hn Hall] eqn:EHw. eapply (extended_cons _ _ _ _ _ child alphabet); [exact Hext|done|done|by rewrite Hfst| | | |].
    + intros E. apply (f_equal length) in E. rewrite length_insert in E. apply lookup_lt_Some in Ei. simpl in E. lia.
    + intros e [j Hj]%list_elem_of_lookup_1. destruct (decide (j = i)) as [->|].
      * rewrite list_lookup_insert_eq in Hj by (by eapply lookup_lt_Some). injection Hj as <-. right. split; [|done].
        apply list_elem_of_lookup_2, Hall in Ei as [Hlt _]. pose proof (prefix_length _ _ (ext_prefix _ _ _ _ _ Hext)). simpl in *. lia.
      * rewrite list_lookup_insert_ne in Hj by done. left. by eapply list_elem_of_lookup_2.
    + intros t. rewrite (childOf_insert alphabet' _ term i ptr child); [| |rewrite (findEdge_mono alphabet)|done].
      * destruct (decide (t = term)); [done|]. apply childOf_mono; [apply Hext|]. intros e He. by apply Hall.
      * apply Hext.
      * done.
      * apply Hext.
      * intros e He. by apply Hall.
    + intros path. by rewrite actionsBelow_cons, Hc.
  - destruct (interned alphabet term) as [ptr alphabet1] eqn:Ei. destruct (interned_spec _ _ _ _ Hnd Ei) as (Hnd1 & Hp1 & Hptr).
    pose proof (IH alphabet1 newVertex Hnd1 (wf_newVertex _)) as Hext.
    destruct (extendTree actionId pattern alphabet1 newVertex) as [alphabet' child'].
    assert (alphabet' !! ptr = Some term) as Hptr'. { pose proof (ext_prefix _ _ _ _ _ Hext) as [k Hk]. simpl in Hk. rewrite Hk. by apply lookup_app_l_Some. }
    assert (findEdge alphabet' (edges v) term = None) as Ef'.
    { rewrite (findEdge_mono alphabet); [done|etrans; [done|apply Hext]|]. intros e He. destruct Hw as [_ Hall]. by apply Hall. }
    eapply (extended_cons _ _ _ _ _ newVertex alphabet1); [exact Hext|done|done| |by destruct (edges v)| | |].
    + rewrite fmap_app. apply NoDup_app. split_and!; [by destruct Hw| |apply NoDup_singleton].
      intros p Hin ->%list_elem_of_singleton. rewrite findEdge_pointers, findIndex_None in Ef'. specialize (Ef' _ Hin). simpl in Ef'.
      by rewrite (proj2 (pointsTo_true alphabet' term ptr) Hptr') in Ef'.
    + intros e [He|He]%elem_of_app; [by left|right]. apply list_elem_of_singleton in He as ->. split; [by eapply lookup_lt_Some|done].
    + intros t. rewrite (childOf_snoc alphabet' _ term) by (done || apply Hext). destruct (decide (t = term)); [done|].
      apply childOf_mono; [etrans; [done|apply Hext]|]. intros e He. destruct Hw as [_ Hall]. by apply Hall.
    + intros path. rewrite newVertex_actions, actionsBelow_cons. unfold childOf. by rewrite Ef.
Qed.

Lemma addPattern_sound f actionId pattern : wf_filters f -> pattern <> [] ->
  wf_filters (addPattern f actionId pattern) /\
  forall path a, a ∈ actionsAt (addPattern f actionId pattern) path <-> a ∈ actionsAt f path \/ (path = pattern /\ a = actionId).
Proof.
  intros [Hnd Hw] Hne. pose proof (extendTree_extended actionId pattern _ _ Hnd Hw) as Hext. unfold addPattern.
  destruct pattern as [|t pattern]; [done|]. destruct (extendTree _ _ _ _) as [alphabet root]. destruct Hext as [Hp Hnd' Ht _ Ha].
  split; [by split|]. intros path a. unfold actionsAt. cbn [m_alphabet m_prefixTreeRoot]. specialize (Ha path). unfold actionsBelow in Ha.
  simpl in Ha. rewrite Ha. destruct (decide (path = t :: pattern)) as [->|Hnp]; [rewrite withAction_elem|]; naive_solver.
Qed.

(** adding a pattern keeps the prefix tree well formed, with different terms
    on the edges of a vertex, actions on every leaf and interned terms, and it
    adds the action to the path of the pattern and to no other path. *)
Theorem addPattern_correct f actionId pattern (well_formed : wf_filters f) (nonempty : pattern <> []) :
  wf_filters (addPattern f actionId pattern) /\
  forall path a, a ∈ actionsAt (addPattern f actionId pattern) path <-> a ∈ actionsAt f path \/ (path = pattern /\ a = actionId).
Proof. by apply addPattern_sound. Qed.

Lemma wf_newCombinedURLFilters : wf_filters newCombinedURLFilters.
Proof. split; [constructor|apply wf_newVertex]. Qed.

Lemma addPattern_correct_witness :
  7 ∈ actionsAt (addPattern (addPattern newCombinedURLFilters 5 [canonicalDotStar]) 7 [canonicalDotStar; endOfLineAssertionTerm])
    [canonicalDotStar; endOfLineAssertionTerm].
Proof.
  apply (addPattern_correct (addPattern newCombinedURLFilters 5 [canonicalDotStar]) 7 [canonicalDotStar; endOfLineAssertionTerm]).
  - by apply addPattern_sound; [apply wf_newCombinedURLFilters|].
  - discriminate.
  - right. split; reflexivity.
Defined.

(** ** What the filters match *)

(** The terms match a beginning of the URL, the end of which counts as a character. *)
Definition anchored (terms : list Term) (url : list Z) : Prop := exists p, p `prefix_of` url ++ [0] /\ group_lang terms p.

Definition filters_match (f : CombinedURLFilters) (url : list Z) (a : Z) : Prop :=
  exists path, a ∈ actionsAt f path /\ anchored path url.

Lemma addPattern_match f actionId pattern url a : wf_filters f -> pattern <> [] ->
  filters_match (addPattern f actionId pattern) url a <-> filters_match f url a \/ (a = actionId /\ anchored pattern url).
Proof.
  intros Hw Hne. destruct (addPattern_sound f actionId pattern Hw Hne) as [_ Ha]. unfold filters_match. setoid_rewrite Ha.
  split.
  - intros (path & [Hin|[-> ->]] & Hm); [left; by exists path|by right].
  - intros [(path & Hin & Hm)|[-> Hm]]; [exists path; split; [by left|done]|exists pattern; split; [by right|done]].
Qed.

(** The end of the URL is found once. *)
Lemma prefix_end d url : text url -> d ++ [0] `prefix_of` url ++ [0] <-> (d = url).
Proof.
  intros Hu. split; [|by intros ->]. intros [q Hq]. rewrite <- app_assoc in Hq. destruct q as [|x q _] using rev_ind.
  - rewrite app_nil_r in Hq. by apply app_inj_tail in Hq as [-> _].
  - rewrite app_assoc, app_assoc in Hq. apply app_inj_tail in Hq as [-> _]. unfold text in Hu.
    rewrite !Forall_app in Hu. destruct Hu as [[_ Hz] _]. apply Forall_inv in Hz. lia.
Qed.

Lemma endOfLine_lang w : lang endOfLineAssertionTerm w <-> w = [0].
Proof. by apply single_lang_iff. Qed.

Lemma group_lang_snoc ts t w : group_lang (ts ++ [t]) w <-> exists u v, w = u ++ v /\ group_lang ts u /\ lang t v.
Proof.
  rewrite (group_lang_app ts [t] w). unfold lang_cat. by setoid_rewrite (group_lang_singleton t _).
Qed.

Lemma group_lang_end ts w : group_lang (ts ++ [endOfLineAssertionTerm]) w <-> exists u, w = u ++ [0] /\ group_lang ts u.
Proof. rewrite group_lang_snoc. setoid_rewrite endOfLine_lang. naive_solver. Qed.

(** ** Domains *)

Lemma characterTerm_lang c : 0 <= c < 128 -> exists t, characterTerm c true = Some t /\ forall w, lang t w <-> w = [c].
Proof.
  intros Hc. unfold characterTerm, addCharacter. cbn [orb]. unfold CharacterSet_set.
  destruct (c <? 128) eqn:E; zbool; [|lia]. cbn [mbind option_bind]. eexists. split; [done|]. intros w. by apply single_lang_iff.
Qed.

Lemma domainTerms_lang domain : text domain -> exists terms, domainTerms domain = Some terms /\ forall w, group_lang terms w <-> w = domain.
Proof.
  induction 1 as [|c domain Hc _ IH]; [by exists []|]. destruct IH as (terms & Hm & Hl).
  destruct (characterTerm_lang c) as (t & Ht & Hlt); [lia|]. exists (t :: terms). split.
  - unfold domainTerms in *. simpl. rewrite uwrap_small by (simpl; lia). rewrite Ht. simpl. by rewrite Hm.
  - intros w. simpl. unfold lang_cat. setoid_rewrite Hlt. setoid_rewrite Hl. split; [by intros (u & v & -> & -> & ->)|].
    intros ->. by exists [c], domain.
Qed.

(** The host is the domain. *)
Lemma anchored_domain terms domain url : text url -> (forall w, group_lang terms w <-> w = domain) ->
  anchored (terms ++ [endOfLineAssertionTerm]) url <-> url = domain.
Proof.
  intros Hu Hl. unfold anchored. setoid_rewrite group_lang_end. setoid_rewrite Hl. split.
  - intros (p & Hp & u & -> & ->). symmetry. by apply prefix_end.
  - intros ->. exists (domain ++ [0]). split; [done|]. by exists domain.
Qed.

Lemma dotStar_lang w : lang canonicalDotStar w <-> text w.
Proof.
  assert (isUniversalTransition universalTerm = true) as Hu by (by vm_compute).
  apply isUniversalTransition_spec in Hu as [H1 H2]. exact (star_any (atom_lang universalTerm) H1 H2 w).
Qed.

(** The host ends with a dot and the domain. *)
Lemma anchored_subdomain dot terms domain url : text url -> (forall w, group_lang terms w <-> w = domain) -> (forall w, lang dot w <-> w = [46]) ->
  anchored ([canonicalDotStar; dot] ++ terms ++ [endOfLineAssertionTerm]) url <-> exists pre, url = pre ++ 46 :: domain.
Proof.
  intros Hu Hl Hd. unfold anchored. split.
  - intros (p & Hp & Hw). rewrite app_assoc, group_lang_end in Hw. destruct Hw as (u & -> & Hw). apply prefix_end in Hp as ->; [|done].
    destruct Hw as (pre & v & -> & _ & (v1 & v2 & -> & ->%Hd & ->%Hl)). by exists pre.
  - intros (pre & ->). exists ((pre ++ 46 :: domain) ++ [0]). split; [done|]. rewrite app_assoc, group_lang_end.
    exists (pre ++ 46 :: domain). split; [done|]. unfold text in Hu. apply Forall_app in Hu as [Hpre _].
    exists pre, (46 :: domain). split_and!; [done|by apply dotStar_lang|]. exists [46], domain. split_and!; [done|by apply Hd|by apply Hl].
Qed.

(** What a domain of a rule means: itself, and with an asterisk also its subdomains. *)
Definition domain_matches (domain host : list Z) : Prop :=
  match domain with
  | c :: rest => if c =? 42 then host = rest \/ exists pre, host = pre ++ 46 :: rest else host = domain
  | [] => host = []
  end.

Lemma addDomain_sound f actionId domain (well_formed : wf_filters f) (ascii : text domain) :
  exists f', addDomain f actionId domain = Some f' /\ wf_filters f' /\
    forall host a, text host -> filters_match f' host a <-> filters_match f host a \/ (a = actionId /\ domain_matches domain host).
Proof.
  assert (forall terms : list Term, terms ++ [endOfLineAssertionTerm] <> []) as Hne by (by intros []).
  unfold addDomain. destruct (match domain with c :: _ => c =? 42 | [] => false end) eqn:E.
  - destruct domain as [|c rest]; [done|]. zbool. subst c. apply Forall_inv_tail in ascii as Hrest. cbn [tail].
    destruct (characterTerm_lang 46) as (dot & Hdot & Hd); [lia|]. rewrite Hdot. destruct (domainTerms_lang rest Hrest) as (terms & Ht & Hl).
    cbn [mbind option_bind]. rewrite Ht. cbn [mbind option_bind]. eexists. split; [done|].
    destruct (addPattern_sound f actionId ([canonicalDotStar; dot] ++ terms ++ [endOfLineAssertionTerm]) well_formed) as [Hw1 _]; [done|].
    split; [by apply addPattern_sound|]. intros host a Hh. rewrite addPattern_match, addPattern_match by done.
    rewrite (anchored_subdomain dot terms rest host Hh Hl Hd), (anchored_domain terms rest host Hh Hl). simpl. naive_solver.
  - destruct (domainTerms_lang domain ascii) as (terms & Ht & Hl). rewrite Ht. cbn [mbind option_bind]. eexists. split; [done|].
    split; [by apply addPattern_sound|]. intros host a Hh. rewrite addPattern_match by done.
    rewrite (anchored_domain terms domain host Hh Hl). unfold domain_matches. destruct domain; [done|]. by rewrite E.
Qed.

(** a domain is added as the patterns that match exactly this domain, and when
    it starts with an asterisk also exactly its subdomains; the tree stays well
    formed and nothing else is matched. *)
Theorem addDomain_correct f actionId domain (well_formed : wf_filters f) (ascii : text domain) :
  exists f', addDomain f actionId domain = Some f' /\ wf_filters f' /\
    forall host a, text host -> filters_match f' host a <-> filters_match f host a \/ (a = actionId /\ domain_matches domain host).
Proof. exact (addDomain_sound f actionId domain well_formed ascii). Qed.

(** "*a.b" matches "c.a.b". *)
Lemma addDomain_correct_witness :
  exists f', addDomain newCombinedURLFilters 7 [42; 97; 46; 98] = Some f' /\ filters_match f' [99; 46; 97; 46; 98] 7.
Proof.
  destruct (addDomain_correct newCombinedURLFilters 7 [42; 97; 46; 98]) as (f' & Hf & _ & Hm).
  - exact wf_newCombinedURLFilters.
  - repeat constructor; lia.
  - exists f'. split; [exact Hf|]. apply Hm; [repeat constructor; lia|]. right. split; [reflexivity|]. right. exists [99]. reflexivity.
Defined.
