(* ===== verification/URLFilterParser.v ===== *)
(** * The parser of URL filters

    Models [URLFilterParser.cpp]: the delegate [PatternParser] that makes terms
    of the calls of the regular expression parser, the simplification of the
    terms, and [URLFilterParser::addPattern].  [None] is a release assertion or
    the removal from an empty group stack. *)

From Stdlib Require Import String.
From stdpp Require Import base numbers option list list_numbers gmap sets.
From Stdlib Require Import ZArith Lia.
From S2P Require Import Prelude.
From S2P Require Import Term.
From S2P Require Import CombinedURLFilters.
From S2P Require Import Yarr.

Inductive ParseStatus :=
  | Ok | MatchesEverything | NonASCII | UnsupportedCharacterClass | BackReference | ForwardReference
  | MisplacedStartOfLine | WordBoundary | AtomCharacter | Group | Disjunction | MisplacedEndOfLine | EmptyPattern
  | YarrError | InvalidQuantifier.

#[export] Instance ParseStatus_eq_dec : EqDecision ParseStatus.
Proof. solve_decision. Defined.

Definition statusString (status : ParseStatus) : string :=
  match status with
  | Ok => "Ok"
  | MatchesEverything => "Matches everything."
  | NonASCII => "Only ASCII characters are supported in pattern."
  | UnsupportedCharacterClass => "Character class is not supported."
  | BackReference => "Patterns cannot contain backreferences."
  | ForwardReference => "Patterns cannot contain forward references."
  | MisplacedStartOfLine => "Start of line assertion can only appear as the first term in a filter."
  | WordBoundary => "Word boundaries assertions are not supported yet."
  | AtomCharacter => "Builtins character class atoms are not supported yet."
  | Group => "Groups are not supported yet."
  | Disjunction => "Disjunctions are not supported yet."
  | MisplacedEndOfLine => "The end of line assertion must be the last term in an expression."
  | EmptyPattern => "Empty pattern."
  | YarrError => "Internal error in YARR."
  | InvalidQuantifier => "Arbitrary atom repetitions are not supported."
  end%string.

(** ** The delegate *)

(** The last open group is the last of the list. *)
Record PatternParser := mkPatternParser {
  m_openGroups : list Term;
  m_sunkTerms : list Term;
  m_floatingTerm : Term;
  m_hasBeginningOfLineAssertion : bool;
  m_hasProcessedEndOfLineAssertion : bool;
  m_parseStatus : ParseStatus
}.

Definition newPatternParser : PatternParser := mkPatternParser [] [] newTerm false false Ok.

Definition set_openGroups (p : PatternParser) (gs : list Term) : PatternParser :=
  mkPatternParser gs (m_sunkTerms p) (m_floatingTerm p) (m_hasBeginningOfLineAssertion p) (m_hasProcessedEndOfLineAssertion p) (m_parseStatus p).
Definition set_sunkTerms (p : PatternParser) (ts : list Term) : PatternParser :=
  mkPatternParser (m_openGroups p) ts (m_floatingTerm p) (m_hasBeginningOfLineAssertion p) (m_hasProcessedEndOfLineAssertion p) (m_parseStatus p).
Definition set_floatingTerm (p : PatternParser) (t : Term) : PatternParser :=
  mkPatternParser (m_openGroups p) (m_sunkTerms p) t (m_hasBeginningOfLineAssertion p) (m_hasProcessedEndOfLineAssertion p) (m_parseStatus p).
Definition set_beginning (p : PatternParser) : PatternParser :=
  mkPatternParser (m_openGroups p) (m_sunkTerms p) (m_floatingTerm p) true (m_hasProcessedEndOfLineAssertion p) (m_parseStatus p).
Definition set_processedEnd (p : PatternParser) : PatternParser :=
  mkPatternParser (m_openGroups p) (m_sunkTerms p) (m_floatingTerm p) (m_hasBeginningOfLineAssertion p) true (m_parseStatus p).
Definition set_status (p : PatternParser) (s : ParseStatus) : PatternParser :=
  mkPatternParser (m_openGroups p) (m_sunkTerms p) (m_floatingTerm p) (m_hasBeginningOfLineAssertion p) (m_hasProcessedEndOfLineAssertion p) s.

Definition hasError (p : PatternParser) : bool := bool_decide (m_parseStatus p <> Ok).

Definition fail (p : PatternParser) (reason : ParseStatus) : PatternParser := if hasError p then p else set_status p reason.

Definition sinkFloatingTermIfNecessary (p : PatternParser) : PatternParser :=
  if negb (isValid (m_floatingTerm p)) then p
  else if m_hasProcessedEndOfLineAssertion p then set_floatingTerm (fail p MisplacedEndOfLine) newTerm
  else
    let p := if isEndOfLineAssertion (m_floatingTerm p) then set_processedEnd p else p in
    match last (m_openGroups p) with
    | Some group =>
        set_floatingTerm (set_openGroups p (removelast (m_openGroups p) ++ [extendGroupSubpattern group (m_floatingTerm p)])) newTerm
    | None => set_floatingTerm (set_sunkTerms p (m_sunkTerms p ++ [m_floatingTerm p])) newTerm
    end.

Section Delegate.
Variable m_patternIsCaseSensitive : bool.

Definition pp_atomPatternCharacter (p : PatternParser) (character : Z) : option PatternParser :=
  if hasError p then Some p
  else if negb (isASCII character) then Some (fail p NonASCII)
  else
    let p := sinkFloatingTermIfNecessary p in
    t ← characterTerm character m_patternIsCaseSensitive; Some (set_floatingTerm p t).

Definition pp_atomBuiltInCharacterClass (p : PatternParser) (classID : BuiltInCharacterClassID) (inverted : bool) : PatternParser :=
  if hasError p then p
  else
    let p := sinkFloatingTermIfNecessary p in
    if bool_decide (classID = DotClassID) && negb inverted then set_floatingTerm p universalTerm
    else fail p UnsupportedCharacterClass.

Definition pp_quantifyAtom (p : PatternParser) (minimum maximum : Z) : PatternParser :=
  if hasError p then p
  else if (minimum =? 0) && (maximum =? 1) then set_floatingTerm p (quantify (m_floatingTerm p) ZeroOrOne)
  else if (minimum =? 0) && (maximum =? quantifyInfinite) then set_floatingTerm p (quantify (m_floatingTerm p) ZeroOrMore)
  else if (minimum =? 1) && (maximum =? quantifyInfinite) then set_floatingTerm p (quantify (m_floatingTerm p) OneOrMore)
  else fail p InvalidQuantifier.

Definition pp_assertionBOL (p : PatternParser) : PatternParser :=
  if hasError p then p
  else if isValid (m_floatingTerm p) || negb (bool_decide (m_sunkTerms p = [])) || negb (bool_decide (m_openGroups p = []))
  then fail p MisplacedStartOfLine
  else set_beginning p.

Definition pp_assertionEOL (p : PatternParser) : PatternParser :=
  if hasError p then p else set_floatingTerm (sinkFloatingTermIfNecessary p) endOfLineAssertionTerm.

Definition pp_atomCharacterClassBegin (p : PatternParser) (inverted : bool) : PatternParser :=
  if hasError p then p else set_floatingTerm (sinkFloatingTermIfNecessary p) (characterSetTerm inverted).

Definition pp_atomCharacterClassAtom (p : PatternParser) (character : Z) : option PatternParser :=
  if hasError p then Some p
  else t ← addCharacter (m_floatingTerm p) character m_patternIsCaseSensitive; Some (set_floatingTerm p t).

(** The loop over the characters of a range. *)
Fixpoint addRange (t : Term) (characters : list Z) : option Term :=
  match characters with
  | [] => Some t
  | i :: characters => t ← addCharacter t (u16 i) m_patternIsCaseSensitive; addRange t characters
  end.

Definition pp_atomCharacterClassRange (p : PatternParser) (a b : Z) : option PatternParser :=
  if hasError p then Some p
  else t ← addRange (m_floatingTerm p) (seqZ a (b - a + 1)); Some (set_floatingTerm p t).

Definition pp_atomParenthesesSubpatternBegin (p : PatternParser) : PatternParser :=
  if hasError p then p
  else let p := sinkFloatingTermIfNecessary p in set_openGroups p (m_openGroups p ++ [groupTerm]).

Definition pp_atomParenthesesEnd (p : PatternParser) : option PatternParser :=
  if hasError p then Some p
  else
    let p := sinkFloatingTermIfNecessary p in
    match last (m_openGroups p) with
    | Some group => Some (set_floatingTerm (set_openGroups p (removelast (m_openGroups p))) group)
    | None => None
    end.

(** One call of the delegate; the characters are passed as a [UChar]. *)
Definition receive (p : PatternParser) (e : YarrEvent) : option PatternParser :=
  match e with
  | assertionBOL => Some (pp_assertionBOL p)
  | assertionEOL => Some (pp_assertionEOL p)
  | assertionWordBoundary _ => Some (fail p WordBoundary)
  | atomPatternCharacter ch => pp_atomPatternCharacter p (u16 ch)
  | atomBuiltInCharacterClass classID invert => Some (pp_atomBuiltInCharacterClass p classID invert)
  | atomCharacterClassBegin invert => Some (pp_atomCharacterClassBegin p invert)
  | atomCharacterClassAtom ch => pp_atomCharacterClassAtom p (u16 ch)
  | atomCharacterClassRange first last => pp_atomCharacterClassRange p (u16 first) (u16 last)
  | atomCharacterClassBuiltIn _ _ => Some (fail p AtomCharacter)
  | atomCharacterClassEnd => Some p
  | atomParenthesesSubpatternBegin _ _ => Some (pp_atomParenthesesSubpatternBegin p)
  | atomParentheticalAssertionBegin _ => Some (fail p Group)
  | atomParenthesesEnd => pp_atomParenthesesEnd p
  | atomBackReference _ | atomNamedBackReference _ => Some (fail p BackReference)
  | atomNamedForwardReference _ => Some (fail p ForwardReference)
  | quantifyAtom min max _ => Some (pp_quantifyAtom p min max)
  | disjunction => Some (fail p Disjunction)
  end.

Fixpoint receiveAll (p : PatternParser) (es : list YarrEvent) : option PatternParser :=
  match es with
  | [] => Some p
  | e :: es => p ← receive p e; receiveAll p es
  end.

End Delegate.

(** ** Simplification *)

(** The first loop: every ".*"-like term becomes [canonicalDotStar], and one that
    follows another is removed. *)
Fixpoint canonicalize (isAfterDotStar : bool) (terms : list Term) : list Term :=
  match terms with
  | [] => []
  | t :: terms =>
      if isAfterDotStar && isKnownToMatchAnyString t then canonicalize isAfterDotStar terms
      else if isKnownToMatchAnyString t then canonicalDotStar :: canonicalize true terms
      else t :: canonicalize false terms
  end.

(** Add ".*" in front. *)
Definition addDotStar (hasBeginningOfLineAssertion : bool) (terms : list Term) : list Term :=
  match terms with
  | first :: _ => if negb hasBeginningOfLineAssertion && negb (isKnownToMatchAnyString first) then canonicalDotStar :: terms else terms
  | [] => terms
  end.

Definition lastIsEndOfLine (terms : list Term) : bool :=
  match last terms with Some t => isEndOfLineAssertion t | None => false end.

(** Remove a trailing ".*$". *)
Definition removeDotStarEnd (terms : list Term) : list Term :=
  if (2 <? vec_size terms) && lastIsEndOfLine terms
     && match vec_at terms (vec_size terms - 2) with Some t => isKnownToMatchAnyString t | None => false end
  then take (length terms - 2) terms else terms.

(** Remove the trailing terms that can match nothing. *)
Fixpoint removeIrrelevantFrom (reversed : list Term) : list Term :=
  match reversed with
  | [] => []
  | t :: reversed => if negb (matchesAtLeastOneCharacter t) then removeIrrelevantFrom reversed else t :: reversed
  end.

Definition removeIrrelevant (terms : list Term) : list Term :=
  if lastIsEndOfLine terms then terms else rev (removeIrrelevantFrom (rev terms)).

Definition simplifySunkTerms (hasBeginningOfLineAssertion : bool) (terms : list Term) : list Term :=
  match terms with
  | [] => []
  | _ => removeIrrelevant (removeDotStarEnd (addDotStar hasBeginningOfLineAssertion (canonicalize false terms)))
  end.

(** ** The end of the pattern *)

Definition finalizePattern (p : PatternParser) (patternId : Z) (f : CombinedURLFilters) : PatternParser * CombinedURLFilters :=
  if hasError p then (p, f)
  else
    let p := sinkFloatingTermIfNecessary p in
    let p := set_sunkTerms p (simplifySunkTerms (m_hasBeginningOfLineAssertion p) (m_sunkTerms p)) in
    let matchesEverything := negb (existsb matchesAtLeastOneCharacter (m_sunkTerms p)) in
    if matchesEverything then (fail p MatchesEverything, f)
    else (p, addPattern f patternId (m_sunkTerms p)).

(** The parameters of [Yarr::parse] that stand for tables of other libraries. *)
Section Add.
Variable U_GET_GC_MASK : Z -> Z.
Variable unicodeMatchProperty : list Z -> option BuiltInCharacterClassID.
Variable unicodeMatchPropertyValue : list Z -> list Z -> option BuiltInCharacterClassID.

(** [URLFilterParser::addPattern] *)
Definition URLFilterParser_addPattern (f : CombinedURLFilters) (pattern : list Z) (patternIsCaseSensitive : bool) (patternId : Z)
    : option (ParseStatus * CombinedURLFilters) :=
  if negb (forallb isASCII pattern) then Some (NonASCII, f)
  else if bool_decide (pattern = []) then Some (EmptyPattern, f)
  else
    '(error, calls) ← parse pattern false 0 U_GET_GC_MASK unicodeMatchProperty unicodeMatchPropertyValue (λ _, false);
    p ← receiveAll patternIsCaseSensitive newPatternParser calls;
    if Yarr.hasError error then Some (YarrError, f)
    else
      let '(p, f) := finalizePattern p patternId f in
      Some (m_parseStatus p, f).
End Add.
