(* ===== verification/URLFilterProof.v ===== *)
(** * Simplified terms match the same URLs

    The steps of [simplifySunkTerms] keep the set of URLs in which the terms are
    found, at the beginning or anywhere. *)

From stdpp Require Import base numbers option list list_numbers gmap sets.
From Stdlib Require Import ZArith Lia.
From S2P Require Import Prelude.
From S2P Require Import Graph.
From S2P Require Import Term.
From S2P Require Import TermProof.
From S2P Require Import CombinedURLFilters.
From S2P Require Import Yarr.
From S2P Require Import URLFilterParser.

(** ** Plain terms *)

(** No set of the term has the end of the URL. *)
Fixpoint nul_free (t : Term) : bool :=
  match t with
  | EmptyTerm _ => true
  | CharacterSetTerm _ cs => negb (CharacterSet_get cs 0)
  | GroupTerm _ terms => forallb nul_free terms
  end.

Definition plain (t : Term) : bool := valid_term t && nul_free t.

Lemma group_text terms : Forall (λ t, forall w, lang t w -> text w) terms -> forall w, group_lang terms w -> text w.
Proof.
  induction 1 as [|t terms Ht _ IH]; intros w; [intros ->; constructor|]. intros (u & v & -> & Hu & Hv).
  apply Forall_app. split; [by apply Ht|by apply IH].
Qed.

Lemma nul_free_text t w : nul_free t = true -> lang t w -> text w.
Proof.
  revert w. induction t as [q|q cs|q terms IH] using Term_ind'; intros w Hf; rewrite lang_unfold; apply quantified_text; clear w; intros w.
  - intros ->. constructor.
  - intros (c & -> & Hc). simpl in Hf. repeat constructor; unfold in_set in Hc; destruct (m_inverted cs); destruct Hc as [Hc Hget]; try lia.
    destruct (decide (c = 0)) as [->|]; [by rewrite Hget in Hf|lia].
  - apply group_text. cbn [nul_free] in Hf. rewrite forallb_forall in Hf. apply Forall_forall. intros t Ht v.
    rewrite Forall_forall in IH. apply IH; [done|]. apply Hf. by apply list_elem_of_In.
Qed.

Lemma nul_free_not_end t : nul_free t = true -> isEndOfLineAssertion t = false.
Proof. destruct t; cbn [nul_free isEndOfLineAssertion]; try done. intros H. apply negb_true_iff in H. by rewrite H, andb_false_r. Qed.

Lemma nul_free_eol_plain t : nul_free t = true -> eol_plain t = true.
Proof.
  induction t as [q|q cs|q terms IH] using Term_ind'; [done| |].
  - intros Hf. apply nul_free_not_end in Hf. cbn [eol_plain]. by rewrite Hf.
  - cbn [nul_free eol_plain]. rewrite !forallb_forall. intros Hf t Ht. rewrite Forall_forall in IH. apply IH; [by apply list_elem_of_In|by apply Hf].
Qed.

(** A plain term that need not match a character can match nothing. *)
Lemma plain_nullable t : nul_free t = true -> matchesAtLeastOneCharacter t = false -> lang t [].
Proof.
  intros Hf Hm. destruct (matchesAtLeastOneCharacter_false t (nul_free_eol_plain t Hf) Hm) as (w & Hw & Hz).
  destruct w as [|c w]; [done|]. apply nul_free_text in Hw; [|done]. apply Forall_inv in Hw, Hz. lia.
Qed.

Definition all_plain (terms : list Term) : Prop := Forall (λ t, plain t = true) terms.

Lemma plain_text terms w : all_plain terms -> group_lang terms w -> text w.
Proof.
  intros Hp. apply group_text. eapply Forall_impl; [exact Hp|]. intros t Ht v. apply nul_free_text. by apply andb_prop in Ht as [].
Qed.

Lemma plain_dotStar : plain canonicalDotStar = true.
Proof. by vm_compute. Qed.

(** ** Finding a language in the URL *)

Definition matches (L : language) (url : list Z) : Prop := exists p, p `prefix_of` url ++ [0] /\ L p.

(** At the beginning, or anywhere. *)
Definition found (atBeginning : bool) (L : language) (url : list Z) : Prop :=
  exists pre rest, url = pre ++ rest /\ (atBeginning = true -> pre = []) /\ matches L rest.

Lemma matches_proper L M url : lang_eq L M -> matches L url <-> matches M url.
Proof. intros HLM. unfold matches. setoid_rewrite (HLM _). done. Qed.

Lemma found_proper b L M url : lang_eq L M -> found b L url <-> found b M url.
Proof. intros HLM. unfold found. setoid_rewrite (matches_proper L M _ HLM). done. Qed.

Lemma found_beginning L url : found true L url <-> matches L url.
Proof.
  split; [|intros Hm; by exists [], url]. intros (pre & rest & -> & Hpre & Hm). by rewrite (Hpre eq_refl).
Qed.

Lemma lang_cat_assoc L M N : lang_eq (lang_cat L (lang_cat M N)) (lang_cat (lang_cat L M) N).
Proof.
  intros w. split.
  - intros (u & v & -> & Hu & v1 & v2 & -> & H1 & H2). exists (u ++ v1), v2. rewrite app_assoc. split_and!; [done|by exists u, v1|done].
  - intros (x & v2 & -> & (u & v1 & -> & Hu & H1) & H2). exists u, (v1 ++ v2). rewrite app_assoc. split_and!; [done|done|by exists v1, v2].
Qed.

Lemma text_text : lang_eq (lang_cat text text) text.
Proof.
  intros w. split; [intros (u & v & -> & Hu & Hv); by apply Forall_app|]. intros Hw. exists w, []. rewrite app_nil_r.
  split_and!; [done|done|constructor].
Qed.

(** A text at the beginning of the URL and its end does not reach the end. *)
Lemma text_prefix u v url : text u -> u ++ v `prefix_of` url ++ [0] -> exists rest, url = u ++ rest /\ v `prefix_of` rest ++ [0].
Proof.
  intros Hu [q Hq]. revert url Hq. induction Hu as [|c u Hc _ IH]; intros url Hq.
  - exists url. split; [done|]. by exists q.
  - destruct url as [|d url]; simpl in Hq; [injection Hq as Hz _; lia|]. injection Hq as -> Hq.
    destruct (IH url Hq) as (rest & -> & Hp). by exists rest.
Qed.

Lemma matches_anywhere L url : text url -> matches (lang_cat text L) url <-> found false L url.
Proof.
  intros Hurl. split.
  - intros (p & Hp & u & v & -> & Hu & Hv). destruct (text_prefix u v url Hu Hp) as (rest & -> & Hr).
    exists u, rest. split_and!; [done|done|by exists v].
  - intros (pre & rest & -> & _ & p & Hp & HL). apply Forall_app in Hurl as [Hpre _]. exists (pre ++ p). split.
    + rewrite <- app_assoc. by apply prefix_app.
    + by exists pre, p.
Qed.

(** ** The first loop *)

Lemma any_lang t : isKnownToMatchAnyString t = true -> lang_eq (lang t) text.
Proof. intros Hk w. by apply isKnownToMatchAnyString_sound. Qed.

Lemma dotStar_any : isKnownToMatchAnyString canonicalDotStar = true.
Proof. by vm_compute. Qed.

Lemma canonicalize_lang terms :
  lang_eq (group_lang (canonicalize false terms)) (group_lang terms) /\
  lang_eq (lang_cat text (group_lang (canonicalize true terms))) (lang_cat text (group_lang terms)).
Proof.
  induction terms as [|t terms [IHf IHt]]; [done|]. cbn [canonicalize andb].
  destruct (isKnownToMatchAnyString t) eqn:E; cbn [group_lang foldr]; change (foldr _ lang_nil ?l) with (group_lang l).
  - split.
    + rewrite (any_lang t E), (any_lang _ dotStar_any). exact IHt.
    + by rewrite IHt, (any_lang t E), lang_cat_assoc, text_text.
  - split; by rewrite IHf.
Qed.

Lemma canonicalize_plain b terms : all_plain terms -> all_plain (canonicalize b terms).
Proof.
  intros Hp. revert b. induction Hp as [|t terms Ht _ IH]; intros b; simpl; [constructor|].
  destruct (b && _); [apply IH|]. destruct (isKnownToMatchAnyString t); constructor; try apply IH; [apply plain_dotStar|done].
Qed.

Lemma canonicalize_end b terms :
  canonicalize b (terms ++ [endOfLineAssertionTerm]) = canonicalize b terms ++ [endOfLineAssertionTerm].
Proof.
  revert b. induction terms as [|t terms IH]; intros b.
  - cbn [canonicalize app]. replace (isKnownToMatchAnyString endOfLineAssertionTerm) with false by (by vm_compute). by rewrite andb_false_r.
  - cbn [canonicalize app]. destruct (b && _); [apply IH|]. destruct (isKnownToMatchAnyString t); by rewrite IH.
Qed.

Lemma canonicalize_nil terms : canonicalize false terms = [] -> terms = [].
Proof. destruct terms as [|t terms]; [done|]. cbn [canonicalize andb]. by destruct (isKnownToMatchAnyString t). Qed.

(** ** The term in front *)

Lemma addDotStar_found b terms url : text url -> terms <> [] ->
  matches (group_lang (addDotStar b terms)) url <-> found b (group_lang terms) url.
Proof.
  intros Hurl Hne. destruct terms as [|t terms]; [done|]. cbn [addDotStar].
  destruct b; cbn [negb andb]; [by rewrite found_beginning|]. destruct (isKnownToMatchAnyString t) eqn:E; cbn [negb].
  - rewrite <- matches_anywhere by done. apply matches_proper. cbn [group_lang foldr]. change (foldr _ lang_nil ?l) with (group_lang l).
    by rewrite (any_lang t E), lang_cat_assoc, text_text.
  - rewrite <- matches_anywhere by done. apply matches_proper. cbn [group_lang foldr]. change (foldr _ lang_nil ?l) with (group_lang l).
    by rewrite (any_lang _ dotStar_any).
Qed.

Lemma addDotStar_plain b terms : all_plain terms -> all_plain (addDotStar b terms).
Proof. intros Hp. destruct terms as [|t terms]; [done|]. simpl. destruct (_ && _); [|done]. constructor; [apply plain_dotStar|done]. Qed.

Lemma addDotStar_end b terms : exists us, addDotStar b (terms ++ [endOfLineAssertionTerm]) = us ++ [endOfLineAssertionTerm] /\
  (all_plain terms -> all_plain us).
Proof.
  assert (forall t rest, t :: rest = terms ++ [endOfLineAssertionTerm] -> exists us, (if negb b && negb (isKnownToMatchAnyString t)
    then canonicalDotStar :: t :: rest else t :: rest) = us ++ [endOfLineAssertionTerm] /\ (all_plain terms -> all_plain us)) as Hgen.
  { intros t rest ->. destruct (_ && _); [exists (canonicalDotStar :: terms)|by exists terms].
    split; [done|]. intros Hp. constructor; [apply plain_dotStar|done]. }
  destruct terms as [|t terms]; by apply Hgen.
Qed.

(** ** A trailing ".*$" *)

Lemma last_plain_not_end terms : all_plain terms -> lastIsEndOfLine terms = false.
Proof.
  intros Hp. unfold lastIsEndOfLine. destruct (last terms) as [t|] eqn:E; [|done].
  apply last_Some in E as [l ->]. apply Forall_app in Hp as [_ Hp]. apply Forall_inv, andb_prop in Hp as [_ Hp]. by apply nul_free_not_end.
Qed.

Lemma endOfLine_is_end : isEndOfLineAssertion endOfLineAssertionTerm = true.
Proof. by vm_compute. Qed.

Lemma last_end terms : lastIsEndOfLine (terms ++ [endOfLineAssertionTerm]) = true.
Proof. unfold lastIsEndOfLine. rewrite last_snoc. apply endOfLine_is_end. Qed.

(** After plain terms, anything up to the end of the URL can follow. *)
Lemma matches_dotStarEnd us t url : text url -> all_plain us -> isKnownToMatchAnyString t = true ->
  matches (group_lang ((us ++ [t]) ++ [endOfLineAssertionTerm])) url <-> matches (group_lang us) url.
Proof.
  intros Hurl Hp Ht. split.
  - intros (p & Hpre & (u & -> & (a & b & -> & Ha & _)%group_lang_snoc)%group_lang_end). exists a. split; [|done].
    etrans; [|exact Hpre]. rewrite <- app_assoc. by apply prefix_app_r.
  - intros (p & Hpre & Hl). pose proof (plain_text us p Hp Hl) as Htext. rewrite <- (app_nil_r p) in Hpre.
    destruct (text_prefix p [] url Htext Hpre) as (rest & -> & _). exists ((p ++ rest) ++ [0]). split; [done|].
    apply group_lang_end. exists (p ++ rest). split; [done|]. apply group_lang_snoc. exists p, rest. split_and!; [done..|].
    apply (any_lang t Ht). by apply Forall_app in Hurl as [_ ?].
Qed.

Lemma removeDotStarEnd_end us : exists vs, removeDotStarEnd (us ++ [endOfLineAssertionTerm]) = vs /\
  (vs = us ++ [endOfLineAssertionTerm] \/ exists ws t, us = ws ++ [t] /\ vs = ws /\ isKnownToMatchAnyString t = true).
Proof.
  eexists. split; [done|]. unfold removeDotStarEnd. rewrite last_end. destruct us as [|t us _] using rev_ind; [by left|].
  destruct (_ && _) eqn:E; [|by left]. apply andb_prop in E as [_ E]. right. exists us, t. split; [done|].
  replace (vec_size ((us ++ [t]) ++ [endOfLineAssertionTerm]) - 2) with (Z.of_nat (length us)) in E
    by (unfold vec_size; rewrite !length_app; simpl; lia).
  rewrite vec_at_nat, <- app_assoc in E. cbn [app] in E. rewrite list_lookup_middle in E by done. split; [|done].
  rewrite !length_app. simpl. replace (length us + 1 + 1 - 2)%nat with (length us) by lia. rewrite <- app_assoc. by rewrite take_app_length.
Qed.

(** ** Trailing terms that can match nothing *)

Lemma removeIrrelevant_plain terms url : all_plain terms ->
  matches (group_lang (removeIrrelevant terms)) url <-> matches (group_lang terms) url.
Proof.
  intros Hp. unfold removeIrrelevant. rewrite (last_plain_not_end terms Hp).
  induction terms as [|t terms IH] using rev_ind; [done|]. apply Forall_app in Hp as [Hp Ht]. apply Forall_inv, andb_prop in Ht as [_ Ht].
  rewrite rev_unit. cbn [removeIrrelevantFrom]. destruct (matchesAtLeastOneCharacter t) eqn:E; cbn [negb].
  - by rewrite <- rev_unit, rev_involutive.
  - rewrite (IH Hp). split.
    + intros (p & Hpre & Hl). exists p. split; [done|]. apply group_lang_snoc. exists p, []. rewrite app_nil_r.
      split_and!; [done..|by apply plain_nullable].
    + intros (p & Hpre & (u & v & -> & Hu & _)%group_lang_snoc). exists u. split; [|done]. etrans; [|exact Hpre]. by apply prefix_app_r.
Qed.

(** ** All together *)

(** The sunk terms of a pattern without errors: plain ones, and the end of the
    URL at the end if at all. *)
Definition sunk_ok (terms : list Term) : Prop :=
  exists us, all_plain us /\ (terms = us \/ terms = us ++ [endOfLineAssertionTerm]).

Lemma simplifySunkTerms_sound b terms url : sunk_ok terms -> text url -> terms <> [] ->
  matches (group_lang (simplifySunkTerms b terms)) url <-> found b (group_lang terms) url.
Proof.
  intros (us & Hp & Hshape) Hurl Hne. pose proof (proj1 (canonicalize_lang terms)) as Hc.
  assert (canonicalize false terms <> []) as Hcne by (intros E; by apply Hne, canonicalize_nil).
  assert (simplifySunkTerms b terms = removeIrrelevant (removeDotStarEnd (addDotStar b (canonicalize false terms)))) as ->
    by (by destruct terms).
  rewrite <- (found_proper b _ _ url Hc), <- addDotStar_found by done. clear Hcne Hc. destruct Hshape as [->| ->].
  - pose proof (addDotStar_plain b _ (canonicalize_plain false us Hp)) as Hp'. unfold removeDotStarEnd.
    rewrite (last_plain_not_end _ Hp'), andb_false_r, andb_false_l. by apply removeIrrelevant_plain.
  - rewrite canonicalize_end. destruct (addDotStar_end b (canonicalize false us)) as (ws & -> & Hws).
    specialize (Hws (canonicalize_plain false us Hp)). destruct (removeDotStarEnd_end ws) as (vs & -> & [->|(xs & t & -> & -> & Ht)]).
    + unfold removeIrrelevant. by rewrite last_end.
    + apply Forall_app in Hws as [Hxs _]. rewrite removeIrrelevant_plain by done. symmetry. by apply matches_dotStarEnd.
Qed.

(** C29: the simplified terms match the beginning of exactly the URLs in which the
    terms of the pattern are found, at the beginning when the pattern starts
    with [^] and anywhere otherwise. *)
Theorem simplifySunkTerms_correct b terms url (shape : sunk_ok terms) (ascii : text url) (nonempty : terms <> []) :
  matches (group_lang (simplifySunkTerms b terms)) url <-> found b (group_lang terms) url.
Proof. by apply simplifySunkTerms_sound. Qed.

(** The pattern "ab?" in "ca". *)
Lemma simplifySunkTerms_correct_witness :
  matches (group_lang (simplifySunkTerms false
    [CharacterSetTerm One (setCharacter emptyCharacterSet 97); CharacterSetTerm ZeroOrOne (setCharacter emptyCharacterSet 98)])) [99; 97].
Proof.
  apply (simplifySunkTerms_correct false
    [CharacterSetTerm One (setCharacter emptyCharacterSet 97); CharacterSetTerm ZeroOrOne (setCharacter emptyCharacterSet 98)] [99; 97]).
  - eexists. split; [|left; reflexivity]. repeat constructor.
  - repeat constructor; lia.
  - discriminate.
  - exists [99], [97]. split; [reflexivity|]. split; [discriminate|]. exists [97]. split; [by exists [0]|].
    exists [97], []. split; [reflexivity|]. split; [apply (single_lang 97); lia|]. exists [], []. split; [reflexivity|]. split; [by left|reflexivity].
Defined.
