(* ===== verification/URLFilterMeaning.v ===== *)
(** * The meaning of a URL filter

    A denotation of the calls of the regular expression parser: the language of
    the pattern, built from the calls without terms.  The terms that
    [PatternParser] makes and adds to the filters match exactly the URLs in which
    this language is found, when [URLFilterParser::addPattern] accepts the
    pattern; and the delegate never faults on the calls of the parser. *)

From stdpp Require Import base numbers option list list_numbers gmap sets.
From Stdlib Require Import ZArith Lia.
From S2P Require Import Prelude.
From S2P Require Import Graph.
From S2P Require Import DFABytecodeInterpreter.
From S2P Require Import Term.
From S2P Require Import TermProof.
From S2P Require Import CombinedURLFilters.
From S2P Require Import Yarr.
From S2P Require Import YarrReading.
From S2P Require Import YarrProof.
From S2P Require Import URLFilterParser.
From S2P Require Import URLFilterProof.

(** ** The meaning of the calls *)

(** [n] strings of the language, one after the other. *)
Fixpoint power (L : language) (n : nat) : language :=
  match n with O => lang_nil | S n => lang_cat L (power L n) end.

Definition repeated (min max : Z) (L : language) : language :=
  λ w, exists n, min <= Z.of_nat n /\ (max = quantifyInfinite \/ Z.of_nat n <= max) /\ power L n w.

(** The languages of the open groups, innermost first, up to the last atom, that
    atom, the last character class and whether the pattern starts with [^]. *)
Record Meaning := mkMeaning {
  openLevels : list language;
  lastAtom : language;
  classInverted : bool;
  classMember : Z -> Prop;
  fromBeginning : bool
}.

Definition noMeaning : Meaning := mkMeaning [lang_nil] lang_nil false (λ _, False) false.

(** The language of a single character out of a set. *)
Definition oneOf (P : Z -> Prop) : language := λ w, exists c, w = [c] /\ P c.

Section Meaning.
Variable caseSensitive : bool.

(** The character of the URL is the one of the pattern, up to the case. *)
Definition sameCharacter (ch c : Z) : Prop :=
  c = ch \/ (caseSensitive = false /\ isASCIIAlpha ch = true /\ (c = toASCIIUpper ch \/ c = toASCIILower ch)).

Definition classLanguage (inverted : bool) (member : Z -> Prop) : language :=
  oneOf (λ c, 1 <= c < 128 /\ if inverted then ~ member c else member c).

(** The last atom is part of the innermost group. *)
Definition closeAtom (m : Meaning) : list language :=
  match openLevels m with L :: Ls => lang_cat L (lastAtom m) :: Ls | [] => [] end.

Definition newAtom (m : Meaning) (L : language) : Meaning :=
  mkMeaning (closeAtom m) L (classInverted m) (classMember m) (fromBeginning m).

Definition newMembers (m : Meaning) (member : Z -> Prop) : Meaning :=
  mkMeaning (openLevels m) (classLanguage (classInverted m) member) (classInverted m) member (fromBeginning m).

(** What one call adds; the calls that are not supported mean nothing. *)
Definition denote (m : Meaning) (e : YarrEvent) : Meaning :=
  match e with
  | assertionBOL => mkMeaning (openLevels m) (lastAtom m) (classInverted m) (classMember m) true
  | assertionEOL => newAtom m (oneOf (λ c, c = 0))
  | atomPatternCharacter ch => newAtom m (oneOf (sameCharacter ch))
  | atomBuiltInCharacterClass _ _ => newAtom m (oneOf (λ c, 1 <= c < 128))
  | atomCharacterClassBegin invert =>
      mkMeaning (closeAtom m) (classLanguage invert (λ _, False)) invert (λ _, False) (fromBeginning m)
  | atomCharacterClassAtom ch => newMembers m (λ c, classMember m c \/ sameCharacter ch c)
  | atomCharacterClassRange first last => newMembers m (λ c, classMember m c \/ exists d, first <= d <= last /\ sameCharacter d c)
  | quantifyAtom min max _ =>
      mkMeaning (openLevels m) (repeated min max (lastAtom m)) (classInverted m) (classMember m) (fromBeginning m)
  | atomParenthesesSubpatternBegin _ _ =>
      mkMeaning (lang_nil :: closeAtom m) lang_nil (classInverted m) (classMember m) (fromBeginning m)
  | atomParenthesesEnd =>
      mkMeaning (tail (closeAtom m)) (default lang_nil (head (closeAtom m))) (classInverted m) (classMember m) (fromBeginning m)
  | _ => m
  end.

Definition meaning (es : list YarrEvent) : Meaning := foldl denote noMeaning es.

(** The language of the whole pattern. *)
Definition language_of (m : Meaning) : language := default lang_nil (head (closeAtom m)).

End Meaning.

(** The characters of the calls are ASCII and not the end of the URL. *)
Definition plainCharacter (ch : Z) : Prop := 1 <= ch < 128.

Definition plainCall (e : YarrEvent) : Prop :=
  match e with
  | atomPatternCharacter ch => 1 <= ch < 65536
  | atomCharacterClassAtom ch => plainCharacter ch
  | atomCharacterClassRange first last => plainCharacter first /\ plainCharacter last
  | _ => True
  end.

(** ** Quantifiers *)

Lemma power_one L w : power L 1 w <-> L w.
Proof. simpl. apply (lang_cat_nil_r L w). Qed.

Lemma plus_power L w : plus L w <-> exists n, power L (S n) w.
Proof.
  split.
  - induction 1 as [w Hw|u v Hu _ [n IH]]; [exists 0%nat; by apply power_one|]. exists (S n). by exists u, v.
  - intros [n Hn]. revert w Hn. induction n as [|n IH]; intros w Hn; [apply plus_one; by apply power_one|].
    destruct Hn as (u & v & -> & Hu & Hv). apply plus_more; [done|]. by apply IH.
Qed.

Lemma repeated_option L : lang_eq (repeated 0 1 L) (quantified ZeroOrOne L).
Proof.
  intros w. split.
  - intros (n & _ & [Hm|Hn] & Hp); [done|]. destruct n as [|[|n]]; [by left|right; by apply power_one|lia].
  - intros [->|Hw]; [exists 0%nat|exists 1%nat]; (split_and!; [lia|right; lia|]); [done|by apply power_one].
Qed.

Lemma repeated_star L : lang_eq (repeated 0 quantifyInfinite L) (quantified ZeroOrMore L).
Proof.
  intros w. cbn [quantified]. unfold star, lang_option. rewrite plus_power. split.
  - intros ([|n] & _ & _ & Hp); [by left|right; by exists n].
  - intros [->|[n Hn]]; [exists 0%nat|exists (S n)]; (split_and!; [lia|by left|done]).
Qed.

Lemma repeated_plus L : lang_eq (repeated 1 quantifyInfinite L) (quantified OneOrMore L).
Proof.
  intros w. cbn [quantified]. rewrite plus_power. split.
  - intros ([|n] & Hn & _ & Hp); [lia|]. by exists n.
  - intros [n Hn]. exists (S n). split_and!; [lia|by left|done].
Qed.

Lemma power_proper L M n : lang_eq L M -> lang_eq (power L n) (power M n).
Proof. intros HLM. induction n as [|n IH]; [done|]. simpl. by apply lang_cat_proper. Qed.

Lemma repeated_proper min max L M : lang_eq L M -> lang_eq (repeated min max L) (repeated min max M).
Proof. intros HLM w. unfold repeated. setoid_rewrite (power_proper L M _ HLM w). done. Qed.

(** ** Sets of characters *)

(** The bits of the set are those of the member predicate. *)
Definition set_is (cs : CharacterSet) (member : Z -> Prop) : Prop :=
  forall c, 0 <= c < 128 -> CharacterSet_get cs c = true <-> member c.

Lemma set_is_add cs member ch : 0 <= ch < 128 -> set_is cs member -> set_is (setCharacter cs ch) (λ c, member c \/ c = ch).
Proof.
  intros Hch Hs c Hc. rewrite get_set by done. rewrite orb_true_iff, Z.eqb_eq, (Hs c Hc). naive_solver.
Qed.

Lemma setCharacter_inverted cs ch : m_inverted (setCharacter cs ch) = m_inverted cs.
Proof. unfold setCharacter. by destruct (ch / 64 =? 0). Qed.

Lemma alpha_bounds ch : 1 <= ch < 128 -> isASCIIAlpha ch = true -> 1 <= toASCIIUpper ch < 128 /\ 1 <= toASCIILower ch < 128.
Proof.
  intros Hch Ha.
  assert (forallb (λ ch, negb (isASCIIAlpha ch) || ((1 <=? toASCIIUpper ch) && (toASCIIUpper ch <? 128) && (1 <=? toASCIILower ch)
    && (toASCIILower ch <? 128))) (seqZ 1 127) = true) as Hall by (vm_compute; reflexivity).
  rewrite forallb_forall in Hall. specialize (Hall ch ltac:(apply list_elem_of_In, elem_of_seqZ; lia)). rewrite Ha in Hall.
  cbn [negb orb] in Hall. rewrite !andb_true_iff, !Z.leb_le, !Z.ltb_lt in Hall. lia.
Qed.

(** Both cases of a letter are the letter itself and the other one. *)
Lemma alpha_cases ch : 1 <= ch < 128 -> isASCIIAlpha ch = true -> ch = toASCIIUpper ch \/ ch = toASCIILower ch.
Proof.
  intros Hch Ha.
  assert (forallb (λ ch, negb (isASCIIAlpha ch) || (ch =? toASCIIUpper ch) || (ch =? toASCIILower ch)) (seqZ 1 127) = true) as Hall
    by (vm_compute; reflexivity).
  rewrite forallb_forall in Hall. specialize (Hall ch ltac:(apply list_elem_of_In, elem_of_seqZ; lia)). rewrite Ha in Hall.
  cbn [negb orb] in Hall. by rewrite orb_true_iff, !Z.eqb_eq in Hall.
Qed.

(** [addCharacter] on a set. *)
Lemma addCharacter_set caseSensitive q cs member ch : plainCharacter ch -> set_is cs member ->
  exists cs', addCharacter (CharacterSetTerm q cs) ch caseSensitive = Some (CharacterSetTerm q cs')
    /\ m_inverted cs' = m_inverted cs /\ set_is cs' (λ c, member c \/ sameCharacter caseSensitive ch c).
Proof.
  unfold plainCharacter. intros Hch Hs. unfold addCharacter, CharacterSet_set.
  destruct (caseSensitive || negb (isASCIIAlpha ch)) eqn:E.
  - destruct (ch <? 128) eqn:El; zbool; [|lia]. cbn [mbind option_bind]. eexists. split; [done|]. split; [apply setCharacter_inverted|].
    intros c Hc. rewrite (set_is_add cs member ch ltac:(lia) Hs c Hc). unfold sameCharacter. apply orb_true_iff in E as [->|E]; [naive_solver|].
    zbool. rewrite E. naive_solver.
  - apply orb_false_iff in E as [-> E]. zbool. destruct (alpha_bounds ch Hch E) as [Hu Hl]. pose proof (alpha_cases ch Hch E) as Hcases.
    rewrite (proj2 (Z.ltb_lt (toASCIIUpper ch) 128)) by lia. cbn [mbind option_bind]. rewrite (proj2 (Z.ltb_lt (toASCIILower ch) 128)) by lia.
    cbn [mbind option_bind]. eexists. split; [done|]. split; [by rewrite !setCharacter_inverted|]. intros c Hc.
    rewrite (set_is_add _ _ (toASCIILower ch) ltac:(lia) (set_is_add cs member (toASCIIUpper ch) ltac:(lia) Hs) c Hc).
    unfold sameCharacter. rewrite E. destruct Hcases as [Eq|Eq]; naive_solver.
Qed.

(** ** The simulation *)

Definition groupTerms (t : Term) : list Term := match t with GroupTerm _ terms => terms | _ => [] end.

(** The terms of the open groups and the sunk terms, innermost first. *)
Definition termLevels (p : PatternParser) : list (list Term) := rev (m_sunkTerms p :: (groupTerms <$> m_openGroups p)).

Definition sameLevel (terms : list Term) (L : language) : Prop := lang_eq (group_lang terms) L.

Record core (p : PatternParser) (levels : list language) (beginning : bool) : Prop := {
  co_levels : Forall2 sameLevel (termLevels p) levels;
  co_groups : Forall (λ g, exists terms, g = GroupTerm One terms) (m_openGroups p);
  co_beginning : m_hasBeginningOfLineAssertion p = beginning;
  co_plain : m_hasProcessedEndOfLineAssertion p = false -> Forall all_plain (termLevels p);
  co_end : m_hasProcessedEndOfLineAssertion p = true ->
    isValid (m_floatingTerm p) = true \/ m_openGroups p <> [] \/ sunk_ok (m_sunkTerms p)
}.

(** The floating term is absent, or it can be sunk. *)
Definition floats (p : PatternParser) : Prop :=
  m_floatingTerm p = newTerm \/
  isValid (m_floatingTerm p) = true /\
  (m_hasProcessedEndOfLineAssertion p = false -> plain (m_floatingTerm p) = true \/ m_floatingTerm p = endOfLineAssertionTerm).

Lemma plain_valid t : plain t = true -> isValid t = true.
Proof. by destruct t. Qed.

Lemma termLevels_snoc p gs g : m_openGroups p = gs ++ [g] ->
  termLevels p = groupTerms g :: rev (m_sunkTerms p :: (groupTerms <$> gs)).
Proof. intros E. unfold termLevels. rewrite E, fmap_app. cbn [fmap list_fmap]. by rewrite app_comm_cons, rev_unit. Qed.

Lemma termLevels_nil p : m_openGroups p = [] -> termLevels p = [m_sunkTerms p].
Proof. intros E. unfold termLevels. by rewrite E. Qed.

Lemma group_lang_snoc_eq ts t : lang_eq (group_lang (ts ++ [t])) (lang_cat (group_lang ts) (lang t)).
Proof. intros w. rewrite group_lang_snoc. done. Qed.

Lemma fail_status p r : hasError p = false -> r <> Ok -> hasError (fail p r) = true.
Proof. intros E Hr. unfold fail. rewrite E. unfold hasError. simpl. by apply bool_decide_eq_true. Qed.

Lemma sink_groups p : length (m_openGroups (sinkFloatingTermIfNecessary p)) = length (m_openGroups p).
Proof.
  unfold sinkFloatingTermIfNecessary, fail. destruct (negb _); [done|].
  destruct (m_hasProcessedEndOfLineAssertion p); [by destruct (hasError p)|].
  assert (forall q, m_openGroups q = m_openGroups p -> length (m_openGroups match last (m_openGroups q) with
    | Some group => set_floatingTerm (set_openGroups q (removelast (m_openGroups q) ++ [extendGroupSubpattern group (m_floatingTerm q)])) newTerm
    | None => set_floatingTerm (set_sunkTerms q (m_sunkTerms q ++ [m_floatingTerm q])) newTerm end) = length (m_openGroups p)) as Hgen.
  { intros q Eq. destruct (m_openGroups q) as [|g gs _] eqn:E using rev_ind; [simpl; congruence|].
    rewrite last_snoc, removelast_last, <- Eq. simpl. by rewrite !length_app. }
  destruct (isEndOfLineAssertion _); by apply Hgen.
Qed.

(** What sinking the floating term does to the levels. *)
Lemma sink_levels p : isValid (m_floatingTerm p) = true -> m_hasProcessedEndOfLineAssertion p = false ->
  Forall (λ g, exists terms, g = GroupTerm One terms) (m_openGroups p) ->
  exists ts rest, termLevels p = ts :: rest /\
    termLevels (sinkFloatingTermIfNecessary p) = (ts ++ [m_floatingTerm p]) :: rest /\
    Forall (λ g, exists terms, g = GroupTerm One terms) (m_openGroups (sinkFloatingTermIfNecessary p)) /\
    length (m_openGroups (sinkFloatingTermIfNecessary p)) = length (m_openGroups p) /\
    (m_openGroups p = [] -> m_sunkTerms (sinkFloatingTermIfNecessary p) = m_sunkTerms p ++ [m_floatingTerm p]).
Proof.
  intros Hv He Hg. unfold sinkFloatingTermIfNecessary. rewrite Hv, He. cbn [negb]. set (p' := if isEndOfLineAssertion (m_floatingTerm p) then set_processedEnd p else p).
  assert (m_openGroups p' = m_openGroups p /\ m_sunkTerms p' = m_sunkTerms p /\ m_floatingTerm p' = m_floatingTerm p) as (Eg & Es & Ef)
    by (unfold p'; by destruct (isEndOfLineAssertion _)).
  rewrite Eg, Es, Ef. destruct (m_openGroups p) as [|g gs _] eqn:E using rev_ind.
  - cbn [last]. exists (m_sunkTerms p), []. clearbody p'.
    split_and!; [by apply termLevels_nil|by rewrite termLevels_nil|simpl; by rewrite Eg|simpl; by rewrite Eg|done].
  - rewrite last_snoc, removelast_last. apply Forall_app in Hg as [Hgs Hgl]. apply Forall_inv in Hgl as (terms & ->).
    exists terms, (rev (m_sunkTerms p :: (groupTerms <$> gs))). cbn [extendGroupSubpattern m_openGroups set_openGroups set_floatingTerm m_sunkTerms].
    split_and!; [by rewrite (termLevels_snoc p gs (GroupTerm One terms) E)
      |erewrite (termLevels_snoc _ gs) by reflexivity; simpl; by rewrite Es| | |by destruct gs].
    + apply Forall_app. split; [done|]. constructor; [by eexists|constructor].
    + by rewrite !length_app.
Qed.

Lemma core_nonempty p levels b : core p levels b -> exists L Ls, levels = L :: Ls.
Proof.
  intros [Hl _ _ _ _]. destruct levels as [|L Ls]; [|by exists L, Ls]. apply Forall2_nil_inv_r in Hl.
  unfold termLevels in Hl. simpl in Hl. by destruct (rev (groupTerms <$> m_openGroups p)).
Qed.

(** The levels with the atom in the innermost. *)
Definition closeLevels (levels : list language) (atom : language) : list language :=
  match levels with L :: Ls => lang_cat L atom :: Ls | [] => [] end.

Lemma sameLevel_proper ts L M : lang_eq L M -> sameLevel ts L -> sameLevel ts M.
Proof. unfold sameLevel. by intros <-. Qed.

Lemma sink_core p levels atom b : hasError p = false -> core p levels b -> lang_eq (lang (m_floatingTerm p)) atom -> floats p ->
  let p' := sinkFloatingTermIfNecessary p in
  hasError p' = true \/
  (hasError p' = false /\ m_floatingTerm p' = newTerm /\ length (m_openGroups p') = length (m_openGroups p) /\ core p' (closeLevels levels atom) b).
Proof.
  intros Hne Hcore Hatom Hfl p'. destruct (core_nonempty _ _ _ Hcore) as (L & Ls & ->). cbn [closeLevels].
  pose proof Hcore as [Hl Hg Hb Hp He]. destruct Hfl as [Hnew|[Hv Hplain]].
  - right. assert (p' = p) as -> by (unfold p', sinkFloatingTermIfNecessary; by rewrite Hnew). split_and!; [done..|].
    split; [|done..]. apply Forall2_cons_inv_r in Hl as (ts & rest & Hts & Hrest & ->). constructor; [|done].
    eapply sameLevel_proper; [|exact Hts]. rewrite <- Hatom, Hnew. symmetry. apply (lang_cat_nil_r L).
  - destruct (m_hasProcessedEndOfLineAssertion p) eqn:Eend.
    { left. unfold p', sinkFloatingTermIfNecessary. rewrite Hv, Eend. cbn [negb]. exact (fail_status p MisplacedEndOfLine Hne ltac:(done)). }
    right. specialize (Hp eq_refl). specialize (Hplain eq_refl). destruct (sink_levels p Hv Eend Hg) as (ts & rest & E1 & E2 & Hg' & Hlen & Hsunk).
    fold p' in E2, Hg', Hlen, Hsunk. rewrite E1 in Hl, Hp. apply Forall2_cons in Hl as [Hts Hrest].
    assert (m_parseStatus p' = m_parseStatus p /\ m_hasBeginningOfLineAssertion p' = m_hasBeginningOfLineAssertion p /\ m_floatingTerm p' = newTerm
      /\ m_hasProcessedEndOfLineAssertion p' = isEndOfLineAssertion (m_floatingTerm p)) as (Es & Eb & Ef & Ep).
    { unfold p', sinkFloatingTermIfNecessary. rewrite Hv, Eend. cbn [negb].
      destruct (isEndOfLineAssertion (m_floatingTerm p)); cbn [m_openGroups set_processedEnd]; by destruct (last _). }
    split_and!; [unfold hasError in *; by rewrite Es|done|done|]. split; [|done|congruence| |].
    + rewrite E2. constructor; [|done]. unfold sameLevel in *. by rewrite group_lang_snoc_eq, Hts, Hatom.
    + rewrite Ep, E2. intros Hend. apply Forall_cons in Hp as [Hpt Hpr]. constructor; [|done]. apply Forall_app. split; [done|].
      repeat constructor. destruct Hplain as [?|Heol]; [done|]. rewrite Heol, endOfLine_is_end in Hend. done.
    + rewrite Ep. intros Hend. right. destruct Hplain as [Hpl|Heol].
      * apply andb_prop in Hpl as [_ Hnf]. apply nul_free_not_end in Hnf. congruence.
      * destruct (m_openGroups p) as [|g gs] eqn:Eg; [|left; intros E; by rewrite E in Hlen]. right.
        exists (m_sunkTerms p). rewrite (Hsunk eq_refl), Heol. split; [|by right]. rewrite termLevels_nil in E1 by done.
        injection E1 as <- <-. by apply Forall_inv in Hp.
Qed.

(** The character class that is being read. *)
Definition classOk (p : PatternParser) (m : Meaning) : Prop :=
  exists cs, m_floatingTerm p = CharacterSetTerm One cs /\ m_inverted cs = classInverted m /\ set_is cs (classMember m) /\ ~ classMember m 0.

Lemma class_lang cs inverted member : m_inverted cs = inverted -> set_is cs member -> ~ member 0 ->
  lang_eq (lang (CharacterSetTerm One cs)) (classLanguage inverted member) /\ plain (CharacterSetTerm One cs) = true.
Proof.
  intros Hi Hs H0. split.
  - intros w. cbn [lang quantified m_quantifier]. unfold set_lang, classLanguage, oneOf, in_set. rewrite Hi.
    split; intros (c & -> & Hc); exists c; (split; [done|]); destruct inverted; destruct Hc as [Hb Hm].
    + split; [done|]. rewrite <- (Hs c) by lia. by rewrite Hm.
    + apply (Hs c Hb) in Hm. split; [|done]. destruct (decide (c = 0)) as [->|]; [done|lia].
    + split; [done|]. apply not_true_iff_false. rewrite (Hs c) by lia. done.
    + split; [lia|]. by apply (Hs c); [lia|].
  - unfold plain. cbn [valid_term nul_free andb]. apply negb_true_iff, not_true_iff_false. by rewrite (Hs 0) by lia.
Qed.

(** The state of the delegate after calls that mean [m]. *)
Definition sim (s : Position) (p : PatternParser) (m : Meaning) : Prop :=
  hasError p = true \/
  (hasError p = false /\ core p (openLevels m) (fromBeginning m) /\ lang_eq (lang (m_floatingTerm p)) (lastAtom m) /\
   Z.of_nat (length (m_openGroups p)) = depth s /\ floats p /\
   (afterAtom s = true -> isValid (m_floatingTerm p) = true /\ m_quantifier (m_floatingTerm p) = One /\
     (m_hasProcessedEndOfLineAssertion p = false -> plain (m_floatingTerm p) = true)) /\
   (inClass s = true -> afterAtom s = false /\ classOk p m)).

Lemma core_floating p levels b t : core p levels b -> isValid t = true -> core (set_floatingTerm p t) levels b.
Proof. intros [] Ht. split; try done. intros _. by left. Qed.

(** A new atom after the one that is sunk. *)
Lemma sim_newAtom s p m t L s' inv mem : sim s p m -> hasError p = false -> isValid t = true -> m_quantifier t = One ->
  (plain t = true \/ (t = endOfLineAssertionTerm /\ afterAtom s' = false)) -> lang_eq (lang t) L -> depth s' = depth s ->
  (inClass s' = true -> afterAtom s' = false /\ classOk (set_floatingTerm p t) (mkMeaning [] L inv mem false)) ->
  sim s' (set_floatingTerm (sinkFloatingTermIfNecessary p) t) (mkMeaning (closeAtom m) L inv mem (fromBeginning m)).
Proof.
  intros [?|(Hne & Hcore & Hat & Hd & Hfl & _ & _)] Hne' Hv Hq Hp HL Hds Hc; [congruence|].
  destruct (sink_core _ _ _ _ Hne Hcore Hat Hfl) as [He|(Hne1 & Hnew & Hlen & Hcore1)]; [by left|]. right. cbn [openLevels lastAtom fromBeginning].
  split_and!; [done|by apply core_floating|done|simpl; lia| | |].
  - right. split; [done|]. intros _. destruct Hp as [?|[? _]]; [by left|by right].
  - intros Ha. split_and!; [done..|]. intros _. destruct Hp as [?|[_ E]]; [done|congruence].
  - intros Hi. destruct (Hc Hi) as (Ha & cs & Hcs). split; [done|]. by exists cs.
Qed.

Lemma outside_inv s guard d a s' : outside s guard d a = Some s' -> guard = true /\ inClass s = false /\ s' = mkPosition d false a.
Proof. unfold outside. destruct (inClass s), guard; simpl; try done. by intros [= <-]. Qed.

Lemma member_inv s guard s' : member s guard = Some s' -> guard = true /\ inClass s = true /\ s' = s.
Proof. unfold member. destruct (inClass s) eqn:E, guard; simpl; try done. by intros [= <-]. Qed.

(** An error stays. *)
Lemma sim_error s p m : hasError p = true -> sim s p m.
Proof. by left. Qed.

Lemma sim_fail s p m r : r <> Ok -> sim s (fail p r) m.
Proof. intros Hr. left. destruct (hasError p) eqn:E; [unfold fail; by rewrite E|by apply fail_status]. Qed.

(** ** The terms of the atoms *)

Lemma isASCII_spec c : 0 <= c -> isASCII c = true -> c < 128.
Proof.
  intros Hc H. unfold isASCII in H. zbool. rewrite <- Z.ldiff_land in H. change 0x7F with (Z.ones 7) in H.
  rewrite Z.ldiff_ones_r, Z.shiftl_mul_pow2, Z.shiftr_div_pow2 in H by lia. change (2 ^ 7) with 128 in H.
  pose proof (Z.div_mod c 128 ltac:(lia)). pose proof (Z.mod_pos_bound c 128 ltac:(lia)). lia.
Qed.

Lemma set_is_empty : set_is emptyCharacterSet (λ _, False).
Proof. intros c Hc. rewrite get_word by done. simpl. by destruct (c <? 64); rewrite Z.bits_0. Qed.

Lemma sameCharacter_plain b ch c : plainCharacter ch -> sameCharacter b ch c -> 1 <= c < 128.
Proof.
  intros Hch [->|(_ & Ha & Hc)]; [done|]. pose proof (alpha_bounds ch Hch Ha). destruct Hc; subst; tauto.
Qed.

Lemma characterTerm_spec b ch : plainCharacter ch -> exists t, characterTerm ch b = Some t /\
  lang_eq (lang t) (oneOf (sameCharacter b ch)) /\ plain t = true /\ m_quantifier t = One.
Proof.
  intros Hch. destruct (addCharacter_set b One emptyCharacterSet _ ch Hch set_is_empty) as (cs & Hadd & Hi & Hs). exists (CharacterSetTerm One cs).
  destruct (class_lang cs false _ Hi Hs) as [Hl Hp].
  { intros [[]|H0]. apply sameCharacter_plain in H0; [lia|done]. }
  split_and!; [done| |done|done]. intros w. rewrite (Hl w). unfold classLanguage, oneOf. split; intros (c & -> & Hc); exists c; (split; [done|]).
  - tauto.
  - split; [by eapply sameCharacter_plain|by right].
Qed.

Lemma universalTerm_spec : lang_eq (lang universalTerm) (oneOf (λ c, 1 <= c < 128)) /\ plain universalTerm = true /\ m_quantifier universalTerm = One.
Proof.
  split_and!; [|by vm_compute|done]. intros w. split.
  - intros Hw. assert (text w) as Ht by (eapply (nul_free_text universalTerm); [by vm_compute|done]).
    destruct Hw as (c & -> & _). exists c. split; [done|]. by apply Forall_inv in Ht.
  - intros (c & -> & Hc). by apply universal_lang.
Qed.

Lemma endOfLine_spec : lang_eq (lang endOfLineAssertionTerm) (oneOf (λ c, c = 0)).
Proof. intros w. rewrite endOfLine_lang. unfold oneOf. naive_solver. Qed.

Lemma characterSetTerm_class inverted :
  exists cs, characterSetTerm inverted = CharacterSetTerm One cs /\ m_inverted cs = inverted /\ set_is cs (λ _, False).
Proof.
  unfold characterSetTerm. eexists. split; [done|]. destruct inverted; (split; [done|]); [|apply set_is_empty].
  intros c Hc. rewrite <- (set_is_empty c Hc). done.
Qed.

Lemma addRange_set b q cs member l : Forall plainCharacter l -> set_is cs member ->
  exists cs', addRange b (CharacterSetTerm q cs) l = Some (CharacterSetTerm q cs') /\ m_inverted cs' = m_inverted cs
    /\ set_is cs' (λ c, member c \/ exists d, d ∈ l /\ sameCharacter b d c).
Proof.
  intros Hl. revert cs member. induction Hl as [|d l Hd _ IH]; intros cs member Hs.
  - exists cs. split_and!; [done..|]. intros c Hc. rewrite (Hs c Hc). setoid_rewrite elem_of_nil. naive_solver.
  - cbn [addRange]. rewrite uwrap_small by (unfold plainCharacter in Hd; simpl; lia).
    destruct (addCharacter_set b q cs member d Hd Hs) as (cs1 & -> & Hi & Hs1). cbn [mbind option_bind].
    destruct (IH cs1 _ Hs1) as (cs2 & Hadd & Hi2 & Hs2). exists cs2. split_and!; [done|congruence|]. intros c Hc. rewrite (Hs2 c Hc).
    setoid_rewrite elem_of_cons. naive_solver.
Qed.

(** ** The calls *)

Section Calls.
Variable caseSensitive : bool.

Notation receive := (receive caseSensitive).
Notation denote := (denote caseSensitive).

Definition simulated (s' : Position) (m : Meaning) (p : PatternParser) (e : YarrEvent) : Prop :=
  exists p', receive p e = Some p' /\ sim s' p' (denote m e).

Lemma sim_character s s' p m ch : sim s p m -> hasError p = false -> follow s (atomPatternCharacter ch) = Some s' -> 1 <= ch < 65536 ->
  simulated s' m p (atomPatternCharacter ch).
Proof.
  intros Hsim Hne (_ & _ & ->)%outside_inv Hch. unfold simulated. cbn [URLFilterParser.receive]. unfold pp_atomPatternCharacter.
  rewrite Hne, uwrap_small by (simpl; lia). destruct (isASCII ch) eqn:Ea; cbn [negb].
  - apply isASCII_spec in Ea; [|lia]. destruct (characterTerm_spec caseSensitive ch ltac:(split; lia)) as (t & -> & Hl & Hp & Hq).
    cbn [mbind option_bind]. eexists. split; [done|]. eapply sim_newAtom; try done; [by apply plain_valid|by left].
  - eexists. split; [done|]. by apply sim_fail.
Qed.

Lemma sim_class_begin s s' p m invert : sim s p m -> hasError p = false -> follow s (atomCharacterClassBegin invert) = Some s' ->
  simulated s' m p (atomCharacterClassBegin invert).
Proof.
  intros Hsim Hne Hf. simpl in Hf. destruct (inClass s); [done|]. injection Hf as <-. eexists. split; [done|]. simpl.
  unfold pp_atomCharacterClassBegin. rewrite Hne. destruct (characterSetTerm_class invert) as (cs & -> & Hi & Hs).
  destruct (class_lang cs invert _ Hi Hs) as [Hl Hp]; [tauto|]. eapply sim_newAtom; try done; [by left|].
  intros _. split; [done|]. exists cs. split_and!; [done..|by intros []].
Qed.

(** A class with more members. *)
Lemma sim_members s p m cs member' : hasError p = false -> inClass s = true -> sim s p m ->
  m_inverted cs = classInverted m -> set_is cs member' -> ~ member' 0 ->
  sim s (set_floatingTerm p (CharacterSetTerm One cs)) (newMembers m member').
Proof.
  intros Hne Hc [?|(_ & Hcore & _ & Hd & _ & _ & Ha)] Hi Hs H0; [congruence|]. right. destruct (Ha Hc) as [Haf _].
  destruct (class_lang cs _ _ Hi Hs H0) as [Hl Hp]. split_and!; [done|by apply core_floating|done|done| |congruence|].
  - right. split; [done|]. intros _. by left.
  - intros _. split; [done|]. exists cs. by split_and!.
Qed.

Lemma sim_class_atom s s' p m ch : sim s p m -> hasError p = false -> follow s (atomCharacterClassAtom ch) = Some s' -> plainCharacter ch ->
  simulated s' m p (atomCharacterClassAtom ch).
Proof.
  intros Hsim Hne (_ & Hc & ->)%member_inv Hch. pose proof Hsim as [?|(_ & _ & _ & _ & _ & _ & Hcl)]; [congruence|].
  destruct (Hcl Hc) as (_ & cs & Hfl & Hi & Hs & H0). unfold simulated. cbn [URLFilterParser.receive]. unfold pp_atomCharacterClassAtom.
  rewrite Hne, Hfl, uwrap_small by (unfold plainCharacter in Hch; simpl; lia).
  destruct (addCharacter_set caseSensitive One cs _ ch Hch Hs) as (cs' & -> & Hi' & Hs'). cbn [mbind option_bind]. eexists. split; [done|].
  apply sim_members; try done; [congruence|]. intros [|Hx]; [done|]. apply sameCharacter_plain in Hx; [lia|done].
Qed.

Lemma sim_class_range s s' p m a b : sim s p m -> hasError p = false -> follow s (atomCharacterClassRange a b) = Some s' ->
  plainCharacter a -> plainCharacter b -> simulated s' m p (atomCharacterClassRange a b).
Proof.
  intros Hsim Hne (_ & Hc & ->)%member_inv Ha Hb. pose proof Hsim as [?|(_ & _ & _ & _ & _ & _ & Hcl)]; [congruence|].
  destruct (Hcl Hc) as (_ & cs & Hfl & Hi & Hs & H0). unfold simulated. cbn [URLFilterParser.receive]. unfold pp_atomCharacterClassRange.
  unfold plainCharacter in Ha, Hb. rewrite Hne, Hfl, !uwrap_small by (simpl; lia).
  destruct (addRange_set caseSensitive One cs (classMember m) (seqZ a (b - a + 1))) as (cs' & -> & Hi' & Hs'); [|done|].
  { apply Forall_forall. intros d Hd. apply elem_of_seqZ in Hd. split; lia. }
  cbn [mbind option_bind]. eexists. split; [done|]. cbn [URLFilterMeaning.denote]. apply sim_members; try done; [congruence| |].
  - intros c Hcc. rewrite (Hs' c Hcc). split; (intros [?|(d & Hd & ?)]; [by left|right; exists d; split; [|done]]).
    + apply elem_of_seqZ in Hd. lia.
    + apply elem_of_seqZ. lia.
  - intros [|(d & Hd & Hx)]; [done|]. apply sameCharacter_plain in Hx; [lia|]. split; lia.
Qed.

Lemma quantify_lang t q : m_quantifier t = One -> isValid t = true -> lang_eq (lang (quantify t q)) (quantified q (lang t)).
Proof. intros Hq Hv. rewrite !lang_unfold, Hq. by destruct t. Qed.

Lemma quantify_plain t q : plain (quantify t q) = plain t.
Proof. by destruct t. Qed.

Lemma sim_quantified s p m q L : sim s p m -> hasError p = false -> inClass s = false -> afterAtom s = true ->
  lang_eq (quantified q (lastAtom m)) L ->
  sim (mkPosition (depth s) false false) (set_floatingTerm p (quantify (m_floatingTerm p) q))
    (mkMeaning (openLevels m) L (classInverted m) (classMember m) (fromBeginning m)).
Proof.
  intros [?|(_ & Hcore & Hat & Hd & Hfl & Haf & _)] Hne Hc Ha HL; [congruence|]. destruct (Haf Ha) as (Hv & Hq & Hp). right.
  assert (isValid (quantify (m_floatingTerm p) q) = true) as Hv' by (by destruct (m_floatingTerm p)).
  split_and!; [done|by apply core_floating| |done| |done|done].
  - cbn [m_floatingTerm set_floatingTerm lastAtom]. by rewrite quantify_lang, Hat, HL.
  - right. split; [done|]. intros E. left. simpl. rewrite quantify_plain. by apply Hp.
Qed.

Lemma sim_quantify s s' p m min max greedy : sim s p m -> hasError p = false -> follow s (quantifyAtom min max greedy) = Some s' ->
  simulated s' m p (quantifyAtom min max greedy).
Proof.
  intros Hsim Hne (Hg & Hc & ->)%outside_inv. rewrite !andb_true_iff in Hg. destruct Hg as [[[[Ha _] _] _] _].
  eexists. split; [done|]. cbn [URLFilterMeaning.denote]. unfold pp_quantifyAtom. rewrite Hne.
  destruct ((min =? 0) && (max =? 1)) eqn:E1.
  { zbool. destruct_and?. subst. apply sim_quantified; try done. symmetry. apply repeated_option. }
  destruct ((min =? 0) && (max =? quantifyInfinite)) eqn:E2.
  { zbool. destruct_and?. subst. apply sim_quantified; try done. symmetry. apply repeated_star. }
  destruct ((min =? 1) && (max =? quantifyInfinite)) eqn:E3.
  { zbool. destruct_and?. subst. apply sim_quantified; try done. symmetry. apply repeated_plus. }
  by apply sim_fail.
Qed.

Lemma sim_open s s' p m capture name : sim s p m -> hasError p = false -> follow s (atomParenthesesSubpatternBegin capture name) = Some s' ->
  simulated s' m p (atomParenthesesSubpatternBegin capture name).
Proof.
  intros [?|(_ & Hcore & Hat & Hd & Hfl & _ & _)] Hne (_ & Hc & ->)%outside_inv; [congruence|]. eexists. split; [done|].
  simpl. unfold pp_atomParenthesesSubpatternBegin. rewrite Hne.
  destruct (sink_core _ _ _ _ Hne Hcore Hat Hfl) as [He|(Hne1 & Hnew & Hlen & [Hl Hg Hb Hp He])]; [by left|]. right.
  set (p1 := sinkFloatingTermIfNecessary p) in *.
  assert (termLevels (set_openGroups p1 (m_openGroups p1 ++ [groupTerm])) = [] :: termLevels p1) as El
    by (by rewrite (termLevels_snoc _ (m_openGroups p1) groupTerm)).
  split_and!; [done| |simpl; by rewrite Hnew|simpl; rewrite length_app; simpl; lia|by left|done|done].
  split; [|apply Forall_app; split; [done|constructor; [by eexists|constructor]]|done| |].
  - rewrite El. by constructor.
  - intros E. rewrite El. constructor; [constructor|by apply Hp].
  - intros _. right. left. simpl. by destruct (m_openGroups p1).
Qed.

Lemma sim_close s s' p m : sim s p m -> hasError p = false -> follow s atomParenthesesEnd = Some s' -> simulated s' m p atomParenthesesEnd.
Proof.
  intros [?|(_ & Hcore & Hat & Hd & Hfl & _ & _)] Hne (Hg & Hc & ->)%outside_inv; [congruence|]. zbool. unfold simulated.
  cbn [URLFilterParser.receive URLFilterMeaning.denote]. unfold pp_atomParenthesesEnd. rewrite Hne. change (closeAtom m) with (closeLevels (openLevels m) (lastAtom m)).
  assert (m_openGroups (sinkFloatingTermIfNecessary p) <> []) as Hnonempty.
  { intros E. pose proof (sink_groups p) as Hlen. rewrite E in Hlen. simpl in Hlen. lia. }
  destruct (sink_core _ _ _ _ Hne Hcore Hat Hfl) as [He|(Hne1 & Hnew & Hlen & Hcore1)]; set (p1 := sinkFloatingTermIfNecessary p) in *.
  { destruct (last (m_openGroups p1)) as [g|] eqn:E; [|by apply last_None in E]. eexists. split; [done|]. by left. }
  destruct (m_openGroups p1) as [|g gs _] eqn:E using rev_ind; [done|]. rewrite last_snoc, removelast_last. eexists. split; [done|]. right.
  destruct Hcore1 as [Hl Hgr Hb Hp He]. rewrite E in Hgr. apply Forall_app in Hgr as [Hgs Hgl]. apply Forall_inv in Hgl as (terms & ->).
  rewrite (termLevels_snoc p1 gs _ E) in Hl, Hp. cbn [groupTerms] in Hl, Hp. destruct (closeLevels _ _) as [|L Ls]; [by apply Forall2_nil_inv_r in Hl|].
  apply Forall2_cons in Hl as [Hts Hrest]. rewrite length_app in Hlen. simpl in Hlen.
  assert (m_hasProcessedEndOfLineAssertion p1 = false -> plain (GroupTerm One terms) = true) as Hplain.
  { intros Ep. specialize (Hp Ep). apply Forall_inv in Hp. unfold plain. cbn [valid_term nul_free]. rewrite andb_true_iff, !forallb_forall.
    unfold all_plain in Hp. rewrite Forall_forall in Hp. split; intros t Ht%list_elem_of_In; by apply Hp, andb_prop in Ht as [? ?]. }
  split_and!; [done| |done|simpl; lia| | |done].
  - split; [done|done|done| |intros _; by left]. intros Ep. specialize (Hp Ep). by apply Forall_cons in Hp as [_ ?].
  - right. split; [done|]. intros Ep. left. by apply Hplain.
  - intros _. by split_and!.
Qed.

(** Nothing changes after an error. *)
Lemma receive_error p e : hasError p = true -> receive p e = Some p.
Proof.
  intros He. destruct e; simpl; unfold pp_atomPatternCharacter, pp_atomCharacterClassAtom, pp_atomCharacterClassRange,
    pp_atomParenthesesEnd, pp_assertionBOL, pp_assertionEOL, pp_atomBuiltInCharacterClass, pp_atomCharacterClassBegin,
    pp_atomParenthesesSubpatternBegin, pp_quantifyAtom, fail; by rewrite ?He.
Qed.

Lemma sim_class_end s s' p m : sim s p m -> hasError p = false -> follow s atomCharacterClassEnd = Some s' -> simulated s' m p atomCharacterClassEnd.
Proof.
  intros [?|(_ & Hcore & Hat & Hd & Hfl & _ & Hcl)] Hne Hf; [congruence|]. simpl in Hf. destruct (inClass s) eqn:Ec; [|done].
  injection Hf as <-. eexists. split; [done|]. right. split_and!; try done. intros _.
  destruct (Hcl eq_refl) as (_ & cs & Efl & Hi & Hs & H0). rewrite Efl. split_and!; [done..|]. intros _. by destruct (class_lang cs _ _ Hi Hs H0).
Qed.

Lemma sim_beginning s s' p m : sim s p m -> hasError p = false -> follow s assertionBOL = Some s' -> simulated s' m p assertionBOL.
Proof.
  intros [?|(_ & [] & Hat & Hd & Hfl & _ & _)] Hne (_ & Hc & ->)%outside_inv; [congruence|]. eexists. split; [done|].
  simpl. unfold pp_assertionBOL. rewrite Hne. destruct (_ || _); [by apply sim_fail|]. right. by split_and!.
Qed.

Lemma receive_sim s s' p m e : sim s p m -> follow s e = Some s' -> plainCall e -> simulated s' m p e.
Proof.
  intros Hsim Hf Hp. destruct (hasError p) eqn:He; [exists p; split; [by apply receive_error|by left]|].
  destruct e; cbn [plainCall] in Hp; try (eexists; split; [done|by apply sim_fail]).
  - by eapply sim_beginning.
  - eexists. split; [done|]. simpl. unfold pp_assertionEOL. rewrite He. apply outside_inv in Hf as (_ & _ & ->).
    eapply sim_newAtom; try done; [right; done|apply endOfLine_spec].
  - by eapply sim_character.
  - eexists. split; [done|]. simpl. unfold pp_atomBuiltInCharacterClass. rewrite He. apply outside_inv in Hf as (_ & _ & ->).
    destruct (_ && _); [|by apply sim_fail]. destruct universalTerm_spec as (Hl & Hpl & Hq).
    eapply sim_newAtom; try done; [by left].
  - by eapply sim_class_begin.
  - by eapply sim_class_atom.
  - destruct Hp. by eapply sim_class_range.
  - by eapply sim_class_end.
  - by eapply sim_open.
  - by eapply sim_close.
  - by eapply sim_quantify.
Qed.

Lemma receiveAll_sim es s s' p m : sim s p m -> followAll s es = Some s' -> Forall plainCall es ->
  exists p', receiveAll caseSensitive p es = Some p' /\ sim s' p' (foldl denote m es).
Proof.
  revert s p m. induction es as [|e es IH]; intros s p m Hsim Hf Hp; simpl in *; [injection Hf as <-; by exists p|].
  destruct (follow s e) as [s1|] eqn:E; [|done]. apply Forall_cons in Hp as [Hpe Hps].
  destruct (receive_sim s s1 p m e Hsim E Hpe) as (p1 & -> & Hs1). cbn [mbind option_bind]. by eapply IH.
Qed.

Lemma sim_start : sim start newPatternParser noMeaning.
Proof.
  right. split_and!; try done; [|by left]. split; try done; [by repeat constructor|]. intros _. repeat constructor.
Qed.

End Calls.

(** ** The end of the pattern *)

(** The sunk terms of a pattern whose calls met no error. *)
Lemma sunk_terms s p m : sim s p m -> hasError p = false -> depth s = 0 -> hasError (sinkFloatingTermIfNecessary p) = false ->
  lang_eq (group_lang (m_sunkTerms (sinkFloatingTermIfNecessary p))) (language_of m) /\
  sunk_ok (m_sunkTerms (sinkFloatingTermIfNecessary p)) /\
  m_hasBeginningOfLineAssertion (sinkFloatingTermIfNecessary p) = fromBeginning m.
Proof.
  intros [?|(_ & Hcore & Hat & Hd & Hfl & _ & _)] Hne H0 Hne1; [congruence|].
  destruct (sink_core _ _ _ _ Hne Hcore Hat Hfl) as [He|(_ & Hnew & Hlen & [Hl Hg Hb Hp He])]; [congruence|].
  set (p1 := sinkFloatingTermIfNecessary p) in *. assert (m_openGroups p1 = []) as Eg by (apply length_zero_iff_nil; lia).
  rewrite (termLevels_nil p1 Eg) in Hl, Hp. change (closeLevels _ _) with (closeAtom m) in Hl. unfold language_of.
  destruct (closeAtom m) as [|L Ls]; [by apply Forall2_nil_inv_r in Hl|]. apply Forall2_cons in Hl as [HL _].
  split_and!; [exact HL| |done]. destruct (m_hasProcessedEndOfLineAssertion p1) eqn:Ee.
  - destruct (He eq_refl) as [Hv|[Hg'|?]]; [by rewrite Hnew in Hv|done|done].
  - exists (m_sunkTerms p1). split; [|by left]. specialize (Hp eq_refl). by apply Forall_inv in Hp.
Qed.

Lemma existsb_nonempty {A} (q : A -> bool) l : existsb q l = true -> l <> [].
Proof. by destruct l. Qed.

Lemma hasError_ok p : m_parseStatus p = Ok <-> hasError p = false.
Proof. unfold hasError. rewrite bool_decide_eq_false. destruct (decide (m_parseStatus p = Ok)); tauto. Qed.

Lemma fail_not_ok p r : r <> Ok -> m_parseStatus (fail p r) <> Ok.
Proof. intros Hr E. apply hasError_ok in E. destruct (hasError p) eqn:Ep; [unfold fail in E; by rewrite Ep, Ep in E|]. by rewrite fail_status in E. Qed.

(** A pattern that is accepted. *)
Lemma finalize_accepted s p m patternId f p' f' : sim s p m -> depth s = 0 -> wf_filters f ->
  finalizePattern p patternId f = (p', f') -> m_parseStatus p' = Ok ->
  wf_filters f' /\ forall url a, text url ->
    filters_match f' url a <-> filters_match f url a \/ (a = patternId /\ found (fromBeginning m) (language_of m) url).
Proof.
  intros Hsim Hd Hw Hfin Hok. unfold finalizePattern in Hfin. destruct (hasError p) eqn:He.
  { injection Hfin as <- <-. apply hasError_ok in Hok. congruence. }
  set (p1 := sinkFloatingTermIfNecessary p) in *.
  destruct (existsb _ _) eqn:Eex; cbn [negb] in Hfin; injection Hfin as <- <-; [|by apply fail_not_ok in Hok].
  cbn [m_sunkTerms set_sunkTerms] in *. assert (hasError p1 = false) as He1 by (by apply hasError_ok).
  destruct (sunk_terms s p m Hsim He Hd He1) as (Hl & Hsunk & Hb). fold p1 in Hl, Hsunk, Hb. rewrite Hb in *.
  pose proof (existsb_nonempty _ _ Eex) as Hne. assert (m_sunkTerms p1 <> []) as Hne1 by (intros E; by rewrite E in Hne).
  split; [by apply addPattern_sound|]. intros url a Hurl. rewrite addPattern_match by done.
  change (anchored ?ts url) with (matches (group_lang ts) url). rewrite simplifySunkTerms_sound by done.
  by rewrite (found_proper _ _ _ url Hl).
Qed.

(** ** Patterns that match everything *)

Lemma removeIrrelevant_nothing terms : all_plain terms -> existsb matchesAtLeastOneCharacter terms = false -> group_lang terms [].
Proof.
  induction 1 as [|t terms Ht _ IH]; [done|]. simpl. intros [Hm Hms]%orb_false_iff. apply andb_prop in Ht as [_ Ht].
  exists [], []. split_and!; [done|by apply plain_nullable|by apply IH].
Qed.

Lemma removeIrrelevant_all_plain terms : all_plain terms -> all_plain (removeIrrelevant terms).
Proof.
  intros Hp. unfold removeIrrelevant. destruct (lastIsEndOfLine terms); [done|]. apply Forall_rev. apply Forall_rev in Hp.
  induction Hp as [|t l Ht Hl IH]; simpl; [constructor|]. destruct (negb _); [done|by constructor].
Qed.

Lemma addDotStar_any terms us : addDotStar false (terms ++ [endOfLineAssertionTerm]) = us ++ [endOfLineAssertionTerm] ->
  exists t rest, us = t :: rest /\ isKnownToMatchAnyString t = true.
Proof.
  destruct terms as [|x terms]; cbn [addDotStar app negb andb].
  - replace (isKnownToMatchAnyString endOfLineAssertionTerm) with false by (by vm_compute). cbn [negb].
    change [canonicalDotStar; endOfLineAssertionTerm] with ([canonicalDotStar] ++ [endOfLineAssertionTerm]).
    intros [<- _]%app_inj_tail. exists canonicalDotStar, []. split; [done|apply dotStar_any].
  - destruct (isKnownToMatchAnyString x) eqn:E; cbn [negb]; rewrite !app_comm_cons; intros [<- _]%app_inj_tail; [by exists x, terms|].
    exists canonicalDotStar, (x :: terms). split; [done|apply dotStar_any].
Qed.

(** What is left of a search that is not anchored. *)
Lemma simplify_shape terms : sunk_ok terms -> terms <> [] ->
  all_plain (simplifySunkTerms false terms) \/
  exists t rest, simplifySunkTerms false terms = (t :: rest) ++ [endOfLineAssertionTerm] /\ isKnownToMatchAnyString t = true /\ all_plain rest.
Proof.
  intros (us & Hp & Hshape) Hne.
  assert (simplifySunkTerms false terms = removeIrrelevant (removeDotStarEnd (addDotStar false (canonicalize false terms)))) as ->
    by (by destruct terms).
  pose proof (canonicalize_plain false us Hp) as Hc. destruct Hshape as [->| ->].
  - left. pose proof (addDotStar_plain false _ Hc) as Hp'. unfold removeDotStarEnd.
    rewrite (last_plain_not_end _ Hp'), andb_false_r, andb_false_l. by apply removeIrrelevant_all_plain.
  - rewrite canonicalize_end. destruct (addDotStar_end false (canonicalize false us)) as (ws & E & Hws). specialize (Hws Hc).
    destruct (addDotStar_any _ _ E) as (t & rest & -> & Ht). rewrite E.
    destruct (removeDotStarEnd_end (t :: rest)) as (vs & -> & [->|(xs & y & Exs & -> & _)]).
    + right. exists t, rest. unfold removeIrrelevant. rewrite last_end. split_and!; [done..|]. by apply Forall_cons in Hws as [_ ?].
    + left. rewrite Exs in Hws. apply Forall_app in Hws as [Hxs _]. by apply removeIrrelevant_all_plain.
Qed.

(** Terms of which none is needed find every URL, unless the search is anchored. *)
Lemma unneeded_terms terms url : sunk_ok terms -> text url ->
  existsb matchesAtLeastOneCharacter (simplifySunkTerms false terms) = false -> found false (group_lang terms) url.
Proof.
  intros Hok Hurl Hex. destruct (decide (terms = [])) as [->|Hne].
  { exists [], url. split_and!; [done|done|]. exists []. split; [apply prefix_nil|done]. }
  rewrite <- simplifySunkTerms_sound by done. destruct (simplify_shape terms Hok Hne) as [Hp|(t & rest & E & Ht & Hrest)].
  - exists []. split; [apply prefix_nil|]. by apply removeIrrelevant_nothing.
  - rewrite E in *. rewrite existsb_app in Hex. apply orb_false_iff in Hex as [Hex _]. simpl in Hex. apply orb_false_iff in Hex as [_ Hex].
    exists (url ++ [0]). split; [done|]. apply group_lang_end. exists url. split; [done|].
    exists url, []. rewrite app_nil_r. split_and!; [done|by apply (any_lang t Ht)|by apply removeIrrelevant_nothing].
Qed.

Lemma finalize_everything s p m patternId f p' f' url : sim s p m -> depth s = 0 -> fromBeginning m = false -> text url ->
  m_parseStatus p = Ok -> finalizePattern p patternId f = (p', f') -> m_parseStatus p' = MatchesEverything ->
  f' = f /\ found false (language_of m) url.
Proof.
  intros Hsim Hd Hb Hurl Hp Hfin Hst. assert (hasError p = false) as He by (by apply hasError_ok). unfold finalizePattern in Hfin. rewrite He in Hfin.
  set (p1 := sinkFloatingTermIfNecessary p) in *.
  assert (m_parseStatus p1 = Ok \/ m_parseStatus p1 = MisplacedEndOfLine) as Hst1.
  { clear Hfin. unfold p1, sinkFloatingTermIfNecessary. destruct (negb _); [by left|]. destruct (m_hasProcessedEndOfLineAssertion p);
      [right; unfold fail; by rewrite He|left]. destruct (isEndOfLineAssertion _), (last _); done. }
  destruct (existsb _ _) eqn:Eex; cbn [negb] in Hfin; injection Hfin as <- <-; cbn [m_parseStatus set_sunkTerms] in Hst;
    [destruct Hst1; congruence|]. split; [done|].
  assert (hasError p1 = false) as He1.
  { destruct (hasError p1) eqn:E1; [|done]. exfalso. destruct Hst1 as [H1|H1]; [by apply hasError_ok in H1; congruence|].
    unfold fail in Hst. change (hasError (set_sunkTerms ?q _)) with (hasError q) in Hst. rewrite E1 in Hst. simpl in Hst. congruence. }
  destruct (sunk_terms s p m Hsim He Hd He1) as (Hl & Hsunk & Hb1). fold p1 in Hl, Hsunk, Hb1. cbn [m_sunkTerms set_sunkTerms] in Eex.
  rewrite Hb1, Hb in Eex. rewrite <- (found_proper false _ _ url Hl). by apply unneeded_terms.
Qed.

(** ** The theorems *)

(** The delegate itself never says that the pattern matches everything. *)
Definition undecided (p : PatternParser) : Prop := m_parseStatus p <> MatchesEverything.

Lemma fail_undecided p r : undecided p -> r <> MatchesEverything -> undecided (fail p r).
Proof. unfold undecided, fail. by destruct (hasError p). Qed.

Lemma sink_undecided p : undecided p -> undecided (sinkFloatingTermIfNecessary p).
Proof.
  intros Hp. unfold sinkFloatingTermIfNecessary. destruct (negb _); [done|].
  destruct (m_hasProcessedEndOfLineAssertion p); [exact (fail_undecided p MisplacedEndOfLine Hp ltac:(done))|].
  destruct (isEndOfLineAssertion _), (last _); exact Hp.
Qed.

Lemma receive_undecided b p e p' : undecided p -> receive b p e = Some p' -> undecided p'.
Proof.
  intros Hp Hr. pose proof (sink_undecided p Hp) as Hs.
  destruct (hasError p) eqn:He; [rewrite receive_error in Hr by done; by injection Hr as <-|].
  destruct e; cbn [receive] in Hr; unfold pp_atomPatternCharacter, pp_atomCharacterClassAtom, pp_atomCharacterClassRange,
    pp_atomParenthesesEnd, pp_assertionBOL, pp_assertionEOL, pp_atomBuiltInCharacterClass, pp_atomCharacterClassBegin,
    pp_atomParenthesesSubpatternBegin, pp_quantifyAtom in Hr; rewrite ?He in Hr; repeat case_match;
    try (apply bind_Some in Hr as (? & _ & Hr)); simplify_eq; try done; by apply fail_undecided.
Qed.

Lemma receiveAll_undecided b es p p' : undecided p -> receiveAll b p es = Some p' -> undecided p'.
Proof.
  revert p. induction es as [|e es IH]; intros p Hp; simpl; [by intros [= <-]|]. intros (q & Hq & Hr)%bind_Some.
  eapply IH; [|done]. by eapply receive_undecided.
Qed.

Lemma finalize_undecided p : undecided p -> m_parseStatus p <> Ok -> forall patternId f p' f',
  finalizePattern p patternId f = (p', f') -> m_parseStatus p' <> MatchesEverything.
Proof.
  intros Hu Hne patternId f p' f'. unfold finalizePattern. destruct (hasError p) eqn:E; [by intros [= <- <-]|].
  apply hasError_ok in E. congruence.
Qed.

Section Claims.
Context (U_GET_GC_MASK : Z -> Z) (unicodeMatchProperty : list Z -> option BuiltInCharacterClassID).
Context (unicodeMatchPropertyValue : list Z -> list Z -> option BuiltInCharacterClassID).

Notation parsePattern pattern :=
  (parse pattern false 0 U_GET_GC_MASK unicodeMatchProperty unicodeMatchPropertyValue (λ _, false)).
Notation add := (URLFilterParser_addPattern U_GET_GC_MASK unicodeMatchProperty unicodeMatchPropertyValue).

Lemma ascii_units pattern : forallb isASCII pattern = true -> Forall (λ c, 0 <= c) pattern -> Forall (λ c, 0 <= c < 65536) pattern.
Proof.
  rewrite forallb_forall, !Forall_forall. intros Ha Hp c Hc. pose proof (Hp c Hc).
  pose proof (isASCII_spec c ltac:(done) (Ha c ltac:(by apply list_elem_of_In))). lia.
Qed.

(** The state of the delegate after the parser. *)
Lemma delegate_after_parse pattern b error calls : Forall (λ c, 0 <= c < 65536) pattern ->
  parsePattern pattern = Some (error, calls) -> Forall plainCall calls ->
  exists s p, receiveAll b newPatternParser calls = Some p /\ sim s p (meaning b calls) /\ (error = NoError -> depth s = 0).
Proof.
  intros Hu Hparse Hplain.
  destruct (parse_sound pattern false 0 U_GET_GC_MASK unicodeMatchProperty unicodeMatchPropertyValue (λ _, false) Hu)
    as (e & cs & s & Hp & Hs & Hok). simplify_eq.
  destruct (receiveAll_sim b calls start s newPatternParser noMeaning sim_start Hs Hplain) as (p & Hr & Hsim).
  exists s, p. split_and!; [done|done|]. intros ->. by destruct (Hok eq_refl).
Qed.

(** C33: adding a filter never fails on an assertion, and always gives a status,
    when the characters that the parser hands to the delegate, with the escape
    sequences resolved, are not NUL, and in character classes are ASCII.  (The filter [[\xff]] is ASCII itself,
    but names a character that is not: see [nonASCII_class_fails].) *)
Theorem URLFilterParser_addPattern_total f pattern b patternId calls error
    (code_units : Forall (λ c, 0 <= c < 65536) pattern) (parsed : parsePattern pattern = Some (error, calls))
    (plain_calls : Forall plainCall calls) :
  exists status f',
    URLFilterParser_addPattern U_GET_GC_MASK unicodeMatchProperty unicodeMatchPropertyValue f pattern b patternId = Some (status, f').
Proof.
  unfold URLFilterParser_addPattern. destruct (negb _); [by eexists _, _|]. destruct (bool_decide _); [by eexists _, _|].
  rewrite parsed. cbn [mbind option_bind]. destruct (delegate_after_parse _ b _ _ code_units parsed plain_calls) as (s & p & -> & _).
  cbn [mbind option_bind]. destruct (Yarr.hasError error); [by eexists _, _|]. destruct (finalizePattern _ _ _). by eexists _, _.
Qed.

Lemma addPattern_accepted f pattern b patternId calls f'
    (code_units : Forall (λ c, 0 <= c < 65536) pattern) (parsed : parsePattern pattern = Some (NoError, calls))
    (plain_calls : Forall plainCall calls) (well_formed : wf_filters f) (accepted : add f pattern b patternId = Some (Ok, f')) :
  wf_filters f' /\ forall url a, text url ->
    filters_match f' url a <->
    filters_match f url a \/ (a = patternId /\ found (fromBeginning (meaning b calls)) (language_of (meaning b calls)) url).
Proof.
  unfold URLFilterParser_addPattern in accepted. destruct (negb _); [done|]. destruct (bool_decide _); [done|].
  rewrite parsed in accepted. cbn [mbind option_bind] in accepted.
  destruct (delegate_after_parse _ b _ _ code_units parsed plain_calls) as (s & p & Hr & Hsim & Hd). rewrite Hr in accepted.
  cbn [mbind option_bind] in accepted. change (Yarr.hasError NoError) with false in accepted. cbv iota in accepted.
  destruct (finalizePattern p patternId f) as [p' f1] eqn:Efin. injection accepted as Hok <-.
  by eapply finalize_accepted; [| |..|exact Hok]; eauto.
Qed.

(** C6: when a filter is accepted, the combined filters stay well formed and match,
    with the action of the filter, exactly the URLs in which the language of
    the regular expression is found: at the beginning for a pattern that starts
    with [^], and anywhere otherwise; what they matched before is unchanged.  The
    filter names no NUL character, which would be taken for the end of the URL, and
    its classes list ASCII characters only. *)
Theorem URLFilterParser_addPattern_correct f pattern b patternId calls f'
    (code_units : Forall (λ c, 0 <= c < 65536) pattern) (parsed : parsePattern pattern = Some (NoError, calls))
    (plain_calls : Forall plainCall calls) (well_formed : wf_filters f) (accepted : add f pattern b patternId = Some (Ok, f')) :
  wf_filters f' /\ forall url a, text url ->
    filters_match f' url a <->
    filters_match f url a \/ (a = patternId /\ found (fromBeginning (meaning b calls)) (language_of (meaning b calls)) url).
Proof. exact (addPattern_accepted f pattern b patternId calls f' code_units parsed plain_calls well_formed accepted). Qed.

Lemma addPattern_everything f pattern b patternId calls f' url
    (code_units : Forall (λ c, 0 <= c < 65536) pattern) (parsed : parsePattern pattern = Some (NoError, calls))
    (plain_calls : Forall plainCall calls) (unanchored : fromBeginning (meaning b calls) = false) (ascii : text url)
    (rejected : add f pattern b patternId = Some (MatchesEverything, f')) :
  f' = f /\ found false (language_of (meaning b calls)) url.
Proof.
  unfold URLFilterParser_addPattern in rejected. destruct (negb _); [done|]. destruct (bool_decide _); [done|].
  rewrite parsed in rejected. cbn [mbind option_bind] in rejected.
  destruct (delegate_after_parse _ b _ _ code_units parsed plain_calls) as (s & p & Hr & Hsim & Hd). rewrite Hr in rejected.
  cbn [mbind option_bind] in rejected. change (Yarr.hasError NoError) with false in rejected. cbv iota in rejected.
  destruct (finalizePattern p patternId f) as [p' f1] eqn:Efin. injection rejected as Hst <-.
  assert (undecided p) as Hu by (by eapply (receiveAll_undecided b calls newPatternParser)).
  destruct (decide (m_parseStatus p = Ok)) as [Hok|Hbad]; [|by eapply finalize_undecided in Efin].
  by eapply finalize_everything; eauto.
Qed.

(** a filter without [^] that is rejected because it would match everything
    does match every URL, and the combined filters are unchanged. *)
Theorem matchesEverything_correct f pattern b patternId calls f' url
    (code_units : Forall (λ c, 0 <= c < 65536) pattern) (parsed : parsePattern pattern = Some (NoError, calls))
    (plain_calls : Forall plainCall calls) (unanchored : fromBeginning (meaning b calls) = false) (ascii : text url)
    (rejected : add f pattern b patternId = Some (MatchesEverything, f')) :
  f' = f /\ found false (language_of (meaning b calls)) url.
Proof. exact (addPattern_everything f pattern b patternId calls f' url code_units parsed plain_calls unanchored ascii rejected). Qed.

(** a class with a character that is not ASCII, such as [[\xff]], is not rejected:
    the delegate fails on the release assertion of the character set. *)
Theorem nonASCII_class_fails f b patternId :
  URLFilterParser_addPattern U_GET_GC_MASK unicodeMatchProperty unicodeMatchPropertyValue f [91; 92; 120; 102; 102; 93] b patternId = None.
Proof. destruct b; vm_compute; reflexivity. Qed.

(** the filter [^a?$] is rejected because it would match everything, although
    it is not found in the URL "b". *)
Theorem anchored_filter_rejected f :
  exists calls, parsePattern [94; 97; 63; 36] = Some (NoError, calls) /\
    add f [94; 97; 63; 36] true 7 = Some (MatchesEverything, f) /\
    ~ found (fromBeginning (meaning true calls)) (language_of (meaning true calls)) [98].
Proof.
  exists [assertionBOL; atomPatternCharacter 97; quantifyAtom 0 1 true; assertionEOL].
  split; [vm_compute; reflexivity|]. split; [vm_compute; reflexivity|].
  intros (pre & rest & Hurl & Hpre & p & Hp & Hl). rewrite (Hpre eq_refl) in Hurl. simpl in Hurl. subst rest. clear Hpre pre.
  destruct Hl as (u & v & -> & Hu & (c & -> & Hc)). rewrite Hc in Hp.
  destruct Hu as (u1 & u2 & -> & (n1 & n2 & -> & -> & ->) & (n & _ & [Hinf|Hn] & Hpow)); [discriminate|].
  destruct n as [|[|n]]; [| |lia].
  - rewrite Hpow in Hp. destruct Hp as [q Hq]. discriminate.
  - apply power_one in Hpow as (d & -> & [->|(Hf & _)]); [|discriminate]. destruct Hp as [q Hq]. discriminate.
Qed.

End Claims.

(** ** Examples *)

Definition noProperty : list Z -> option BuiltInCharacterClassID := λ _, None.
Definition noPropertyValue : list Z -> list Z -> option BuiltInCharacterClassID := λ _ _, None.

(** The filter "ab" with the action 7. *)
Definition ab_calls : list YarrEvent := [atomPatternCharacter 97; atomPatternCharacter 98].
Definition ab_filters : CombinedURLFilters := Eval vm_compute in
  match URLFilterParser_addPattern (λ _, 0) noProperty noPropertyValue newCombinedURLFilters [97; 98] true 7 with
  | Some (_, f) => f
  | None => newCombinedURLFilters
  end.

Lemma URLFilterParser_addPattern_total_witness :
  exists status f', URLFilterParser_addPattern (λ _, 0) noProperty noPropertyValue newCombinedURLFilters [97; 98] true 7 = Some (status, f').
Proof.
  refine (URLFilterParser_addPattern_total (λ _, 0) noProperty noPropertyValue newCombinedURLFilters [97; 98] true 7 ab_calls NoError _ _ _).
  - repeat constructor; lia.
  - vm_compute. reflexivity.
  - repeat constructor; lia.
Defined.

Lemma URLFilterParser_addPattern_correct_witness : wf_filters ab_filters /\ filters_match ab_filters [99; 97; 98] 7.
Proof.
  destruct (URLFilterParser_addPattern_correct (λ _, 0) noProperty noPropertyValue newCombinedURLFilters [97; 98] true 7 ab_calls ab_filters)
    as [Hw Hm].
  - repeat constructor; lia.
  - vm_compute. reflexivity.
  - repeat constructor; lia.
  - exact wf_newCombinedURLFilters.
  - vm_compute. reflexivity.
  - split; [exact Hw|]. apply Hm; [repeat constructor; lia|]. right. split; [reflexivity|]. exists [99], [97; 98].
    split; [reflexivity|]. split; [discriminate|]. exists [97; 98]. split; [by exists [0]|].
    exists [97], [98]. split; [reflexivity|]. split; [|exists 98; split; [reflexivity|by left]].
    exists [], [97]. split; [reflexivity|]. split; [exists [], []; by split_and!|exists 97; split; [reflexivity|by left]].
Defined.

(** The filter "a?" *)
Lemma matchesEverything_correct_witness :
  found false (language_of (meaning true [atomPatternCharacter 97; quantifyAtom 0 1 true])) [98].
Proof.
  refine (proj2 (matchesEverything_correct (λ _, 0) noProperty noPropertyValue newCombinedURLFilters [97; 63] true 7
    [atomPatternCharacter 97; quantifyAtom 0 1 true] newCombinedURLFilters [98] _ _ _ _ _ _)).
  - repeat constructor; lia.
  - vm_compute. reflexivity.
  - repeat constructor; lia.
  - reflexivity.
  - repeat constructor; lia.
  - vm_compute. reflexivity.
Defined.
