(* ===== verification/ContentExtensionRule.v ===== *)
(** * Rules, triggers and actions

    Models [ContentExtensionActions.h] and [ContentExtensionRule.h/.cpp]: the
    data of a rule, and how an action is read from the serialized bytes.  [None]
    is a release assertion or a read outside the bytes. *)

From stdpp Require Import base numbers option list list_numbers gmap.
From Stdlib Require Import ZArith Lia.
From S2P Require Import Prelude.

(** ** Strings *)

(** [WTF::String]: the width of its characters and the characters. *)
Record WString := mkWString { is8Bit : bool; characters : list Z }.

Definition string_eqb (a b : WString) : bool := bool_decide (characters a = characters b).

(** [StringBuilder]: what has been appended, and its width. *)
Definition emptyBuilder : WString := mkWString true [].

Definition appendCharacter (b : WString) (c : Z) : WString := mkWString (is8Bit b) (characters b ++ [u8 c]).

(** An empty builder retains the string; one character that fits is appended as 8 bits. *)
Definition appendString (b s : WString) : WString :=
  match characters s with
  | [] => b
  | c :: rest =>
      if bool_decide (characters b = []) then s
      else
        let narrow := is8Bit s || (bool_decide (rest = []) && (Z.land c (Z.lnot 0xff) =? 0)) in
        mkWString (is8Bit b && narrow) (characters b ++ characters s)
  end.

(** ** Actions *)

Inductive ActionType := BlockLoad | BlockCookies | CSSDisplayNoneSelector | Notify | IgnorePreviousRules | MakeHTTPS.

#[export] Instance ActionType_eq_dec : EqDecision ActionType.
Proof. solve_decision. Defined.

Definition actionType_code (t : ActionType) : Z :=
  match t with
  | BlockLoad => 0 | BlockCookies => 1 | CSSDisplayNoneSelector => 2 | Notify => 3 | IgnorePreviousRules => 4 | MakeHTTPS => 5
  end.

(** The cast of a byte and the [switch] over it; the default is a release assertion. *)
Definition actionType_of_byte (b : Z) : option ActionType :=
  if b =? 0 then Some BlockLoad
  else if b =? 1 then Some BlockCookies
  else if b =? 2 then Some CSSDisplayNoneSelector
  else if b =? 3 then Some Notify
  else if b =? 4 then Some IgnorePreviousRules
  else if b =? 5 then Some MakeHTTPS
  else None.

Definition hasStringArgument (t : ActionType) : bool := match t with CSSDisplayNoneSelector | Notify => true | _ => false end.

(** A null string is [None]. *)
Record Action := mkAction {
  m_extensionIdentifier : option (list Z);
  m_type : ActionType;
  m_actionID : Z;
  m_stringArgument : option WString
}.

Definition setExtensionIdentifier (a : Action) (identifier : list Z) : Action :=
  mkAction (Some identifier) (m_type a) (m_actionID a) (m_stringArgument a).

(** ** Triggers and rules *)

Inductive ConditionType := CT_None | IfDomain | UnlessDomain | IfTopURL | UnlessTopURL.

#[export] Instance ConditionType_eq_dec : EqDecision ConditionType.
Proof. solve_decision. Defined.

Record Trigger := mkTrigger {
  urlFilter : WString;
  urlFilterIsCaseSensitive : bool;
  topURLConditionIsCaseSensitive : bool;
  flags : Z;
  conditions : list WString;
  conditionType : ConditionType
}.

(** [operator==] *)
Definition trigger_eqb (a b : Trigger) : bool :=
  string_eqb (urlFilter a) (urlFilter b)
  && eqb (urlFilterIsCaseSensitive a) (urlFilterIsCaseSensitive b)
  && eqb (topURLConditionIsCaseSensitive a) (topURLConditionIsCaseSensitive b)
  && (flags a =? flags b)
  && bool_decide (characters <$> conditions a = characters <$> conditions b)
  && bool_decide (conditionType a = conditionType b).

Record ContentExtensionRule := mkContentExtensionRule { m_trigger : Trigger; m_action : Action }.

(** ** Reading the serialized actions *)

Section Deserialize.
Variable actions : list Z.

(** A 32-bit load. *)
Definition read32 (index : Z) : option Z := le_value <$> read_bytes actions index 4.

Fixpoint wideCharactersOf (bytes : list Z) : list Z :=
  match bytes with
  | lo :: hi :: bytes => le_value [lo; hi] :: wideCharactersOf bytes
  | _ => []
  end.

Definition deserializeString (beginIndex : Z) : option WString :=
  let prefixLength := 5 in
  let stringStartIndex := u32 (beginIndex + prefixLength) in
  if negb (stringStartIndex <=? vec_size actions) then None
  else
    stringLength ← read32 beginIndex;
    wide ← vec_at actions (beginIndex + 4);
    if negb (wide =? 0) then
      if negb (stringStartIndex + stringLength * 2 <=? vec_size actions) then None
      else
        bytes ← read_bytes actions stringStartIndex (Z.to_nat (stringLength * 2));
        Some (mkWString false (wideCharactersOf bytes))
    else if negb (stringStartIndex + stringLength <=? vec_size actions) then None
    else
      bytes ← read_bytes actions stringStartIndex (Z.to_nat stringLength);
      Some (mkWString true bytes).

Definition deserializeType (location : Z) : option ActionType :=
  if location <? vec_size actions then b ← vec_at actions location; actionType_of_byte b else None.

Definition deserialize (location : Z) : option Action :=
  actionType ← deserializeType location;
  if hasStringArgument actionType then
    s ← deserializeString (u32 (location + 1)); Some (mkAction None actionType location (Some s))
  else Some (mkAction None actionType location None).

Definition serializedLength (location : Z) : option Z :=
  actionType ← deserializeType location;
  if hasStringArgument actionType then
    let prefixLength := 6 in
    let stringStartIndex := u32 (location + prefixLength) in
    if negb (stringStartIndex <=? vec_size actions) then None
    else
      stringLength ← read32 (location + 1);
      wide ← vec_at actions (location + 5);
      Some (u32 (if negb (wide =? 0) then prefixLength + stringLength * 2 else prefixLength + stringLength))
  else Some 1.

End Deserialize.
