(* ===== verification/UTF8Conversion.v ===== *)
(** * Conversions between UTF-16 and UTF-8

    Models [src/Source/WTF/wtf/unicode/UTF8Conversion.cpp] and the functions of
    strings that use it, [String::utf8] and [String::fromUTF8]: the names of files
    are UTF-8.  A pointer into a buffer with its end is the rest of the source, and
    the room left in the target with what was written to it. *)

From stdpp Require Import base numbers option list list_numbers.
From Stdlib Require Import ZArith Lia.
From S2P Require Import Prelude.
From S2P Require Import Yarr.
From S2P Require Import ContentExtensionRule.

Inductive ConversionResult := conversionOK | sourceExhausted | targetExhausted | sourceIllegal.

#[export] Instance ConversionResult_eq_dec : EqDecision ConversionResult.
Proof. solve_decision. Defined.

Definition replacementCharacter : Z := 0xFFFD.

(** ** Writing UTF-8 *)

Definition firstByteMark (bytesToWrite : nat) : Z := nth bytesToWrite [0x00; 0x00; 0xC0; 0xE0; 0xF0; 0xF8; 0xFC] 0.

(** The [switch] that falls through, from the last byte to the first. *)
Fixpoint writeBytes (n bytesToWrite : nat) (ch : Z) (written : list Z) : list Z :=
  match n with
  | O => written
  | S O => u8 (Z.lor ch (firstByteMark bytesToWrite)) :: written
  | S n => writeBytes n bytesToWrite (Z.shiftr ch 6) (u8 (Z.land (Z.lor ch 0x80) 0xBF) :: written)
  end.

(** How many bytes a character takes, and the character that is written. *)
Definition bytesToWrite (ch : Z) : nat * Z :=
  if ch <? 0x80 then (1%nat, ch)
  else if ch <? 0x800 then (2%nat, ch)
  else if ch <? 0x10000 then (3%nat, ch)
  else if ch <? 0x110000 then (4%nat, ch)
  else (3%nat, replacementCharacter).

Fixpoint convertLatin1ToUTF8 (source : list Z) (room : Z) (target : list Z) : ConversionResult * list Z * list Z :=
  match source with
  | [] => (conversionOK, [], target)
  | ch :: rest =>
      let n := if ch <? 0x80 then 1%nat else 2%nat in
      if room <? Z.of_nat n then (targetExhausted, source, target)
      else convertLatin1ToUTF8 rest (room - Z.of_nat n) (target ++ writeBytes n n ch [])
  end.

Definition isHighSurrogate (ch : Z) : bool := (0xD800 <=? ch) && (ch <=? 0xDBFF).
Definition isLowSurrogate (ch : Z) : bool := (0xDC00 <=? ch) && (ch <=? 0xDFFF).

Fixpoint convertUTF16ToUTF8 (source : list Z) (room : Z) (strict : bool) (target : list Z) : ConversionResult * list Z * list Z :=
  match source with
  | [] => (conversionOK, [], target)
  | ch :: rest =>
      let write ch continue :=
        let '(n, ch) := bytesToWrite ch in
        if room <? Z.of_nat n then (targetExhausted, source, target)
        else continue (room - Z.of_nat n) (target ++ writeBytes n n ch []) in
      if isHighSurrogate ch then
        match rest with
        | [] => (sourceExhausted, source, target)
        | ch2 :: rest2 =>
            if isLowSurrogate ch2 then
              write (Z.shiftl (ch - 0xD800) 10 + (ch2 - 0xDC00) + 0x10000) (λ room target, convertUTF16ToUTF8 rest2 room strict target)
            else if strict then (sourceIllegal, source, target)
            else write ch (λ room target, convertUTF16ToUTF8 rest room strict target)
        end
      else if strict && isLowSurrogate ch then (sourceIllegal, source, target)
      else write ch (λ room target, convertUTF16ToUTF8 rest room strict target)
  end.

(** ** Reading UTF-8 *)

Definition inlineUTF8SequenceLengthNonASCII (b0 : Z) : nat :=
  if negb (Z.land b0 0xC0 =? 0xC0) then 0
  else if Z.land b0 0xE0 =? 0xC0 then 2
  else if Z.land b0 0xF0 =? 0xE0 then 3
  else if Z.land b0 0xF8 =? 0xF0 then 4
  else 0.

Definition inlineUTF8SequenceLength (b0 : Z) : nat :=
  if Z.land b0 (Z.lnot 0x7F) =? 0 then 1 else inlineUTF8SequenceLengthNonASCII b0.

(** The checks on the last bytes, from the last to the third. *)
Definition isContinuation (a : Z) : bool := negb ((a <? 0x80) || (0xBF <? a)).

(** The check on the second byte [a], which depends on the first. *)
Definition legalSecond (b0 a : Z) : bool :=
  negb (0xBF <? a) &&
  (if b0 =? 0xE0 then negb (a <? 0xA0)
   else if b0 =? 0xED then negb (0x9F <? a)
   else if b0 =? 0xF0 then negb (a <? 0x90)
   else if b0 =? 0xF4 then negb (0x8F <? a)
   else negb (a <? 0x80)).

Definition legalFirst (b0 : Z) : bool := negb ((0x80 <=? b0) && (b0 <? 0xC2)) && negb (0xF4 <? b0).

(** [isLegalUTF8] of the first bytes of a source, as many as the length. *)
Definition isLegalUTF8 (bytes : list Z) : bool :=
  match bytes with
  | [b0] => legalFirst b0
  | [b0; b1] => legalSecond b0 b1 && legalFirst b0
  | [b0; b1; b2] => isContinuation b2 && legalSecond b0 b1 && legalFirst b0
  | [b0; b1; b2; b3] => isContinuation b3 && isContinuation b2 && legalSecond b0 b1 && legalFirst b0
  | _ => false
  end.

Definition offsetsFromUTF8 (n : nat) : Z := nth n [0x00000000; 0x00003080; 0x000E2080; 0x03C82080; s32 0xFA082080; s32 0x82082080] 0.

(** The [switch] that falls through: a shift after every byte but the last. *)
Fixpoint readBytes (bytes : list Z) (character : Z) : Z :=
  match bytes with
  | [] => character
  | [b] => s32 (character + b)
  | b :: bytes => readBytes bytes (s32 (Z.shiftl (s32 (character + b)) 6))
  end.

Definition readUTF8Sequence (bytes : list Z) : Z := s32 (readBytes bytes 0 - offsetsFromUTF8 (length bytes - 1)).

Definition U_IS_BMP (c : Z) : bool := u32 c <=? 0xffff.
Definition U_IS_SURROGATE (c : Z) : bool := Z.land c (s32 0xfffff800) =? 0xd800.
Definition U_IS_SUPPLEMENTARY (c : Z) : bool := u32 (c - 0x10000) <=? 0xfffff.

(** One iteration reads a sequence, so the length of the source is enough fuel;
    [None] is out of fuel.  The flag that the source is ASCII, which no caller here
    asks for, is left out. *)
Fixpoint convertUTF8ToUTF16 (fuel : nat) (source : list Z) (room : Z) (strict : bool) (target : list Z) : option (ConversionResult * list Z * list Z) :=
  match source with
  | [] => Some (conversionOK, [], target)
  | b0 :: _ =>
      match fuel with
      | O => None
      | S fuel =>
          let n := inlineUTF8SequenceLength b0 in
          let sequence := take n source in
          let rest := drop n source in
          if vec_size source <? Z.of_nat n then Some (sourceExhausted, source, target)
          else if negb (isLegalUTF8 sequence) then Some (sourceIllegal, source, target)
          else
            let character := readUTF8Sequence sequence in
            if room <=? 0 then Some (targetExhausted, source, target)
            else if U_IS_BMP character then
              if U_IS_SURROGATE character then
                if strict then Some (sourceIllegal, source, target)
                else convertUTF8ToUTF16 fuel rest (room - 1) strict (target ++ [replacementCharacter])
              else convertUTF8ToUTF16 fuel rest (room - 1) strict (target ++ [u16 character])
            else if U_IS_SUPPLEMENTARY character then
              if room <=? 1 then Some (targetExhausted, source, target)
              else convertUTF8ToUTF16 fuel rest (room - 2) strict (target ++ [U16_LEAD character; U16_TRAIL character])
            else if strict then Some (sourceIllegal, source, target)
            else convertUTF8ToUTF16 fuel rest (room - 1) strict (target ++ [replacementCharacter])
      end
  end.

(** ** Strings *)

Definition MaxLength : Z := INT32_MAX.

Definition putUTF8Triple (buffer : list Z) (character : Z) : list Z :=
  buffer ++ [u8 (Z.lor (Z.land (Z.shiftr character 12) 0x0F) 0xE0); u8 (Z.lor (Z.land (Z.shiftr character 6) 0x3F) 0x80); u8 (Z.lor (Z.land character 0x3F) 0x80)].

(** [StringImpl::utf8Impl] in the lenient mode: a last unpaired high surrogate is written like any other. *)
Definition utf8Impl (characters : list Z) (bufferSize : Z) : list Z :=
  match convertUTF16ToUTF8 characters bufferSize false [] with
  | (sourceExhausted, ch :: _, target) => putUTF8Triple target ch
  | (_, _, target) => target
  end.

(** [String::utf8]; [None] is the release assertion, for strings that are too long. *)
Definition utf8 (s : WString) : option (list Z) :=
  let length := vec_size (characters s) in
  if length =? 0 then Some []
  else if Z.div MaxLength 3 <? length then None
  else if is8Bit s then Some (convertLatin1ToUTF8 (characters s) (length * 3) []).2
  else Some (utf8Impl (characters s) (length * 3)).

Definition charactersAreAllASCII (s : list Z) : bool := forallb (λ c, Z.land c (Z.lnot 0x7F) =? 0) s.

(** [String::fromUTF8]; the outer [None] is the crash, the inner one the null string. *)
Definition fromUTF8 (bytes : list Z) : option (option WString) :=
  if MaxLength <? vec_size bytes then None
  else if vec_size bytes =? 0 then Some (Some (mkWString true []))
  else if charactersAreAllASCII bytes then Some (Some (mkWString true bytes))
  else
    match convertUTF8ToUTF16 (length bytes) bytes (vec_size bytes) true [] with
    | Some (conversionOK, _, target) => Some (Some (mkWString false target))
    | Some _ => Some None
    | None => None
    end.

(** ** The bytes and the code units of a code point *)

(** A code point that is not a surrogate. *)
Definition scalar (ch : Z) : Prop := 0 <= ch < 0x110000 /\ ~ 0xD800 <= ch <= 0xDFFF.

Definition utf8_of (ch : Z) : list Z :=
  if ch <? 0x80 then [ch]
  else if ch <? 0x800 then [0xC0 + ch / 64; 0x80 + ch mod 64]
  else if ch <? 0x10000 then [0xE0 + ch / 4096; 0x80 + ch / 64 mod 64; 0x80 + ch mod 64]
  else [0xF0 + ch / 262144; 0x80 + ch / 4096 mod 64; 0x80 + ch / 64 mod 64; 0x80 + ch mod 64].

Definition utf16_of (ch : Z) : list Z :=
  if ch <? 0x10000 then [ch] else [0xD800 + (ch - 0x10000) / 1024; 0xDC00 + ch mod 1024].

Lemma utf8_of_sizes ch : 1 <= vec_size (utf8_of ch) <= 3 * vec_size (utf16_of ch).
Proof. unfold utf8_of, utf16_of. repeat zcase; unfold vec_size; cbn [length]; lia. Qed.

Lemma utf16_of_sizes ch : 1 <= vec_size (utf16_of ch) <= vec_size (utf8_of ch).
Proof. unfold utf8_of, utf16_of. repeat zcase; unfold vec_size; cbn [length]; lia. Qed.

Lemma land_mod_256 x m : 0 <= m < 256 -> Z.land x m = Z.land (x mod 256) m.
Proof.
  intros Hm. assert (m = Z.land (Z.ones 8) m) as -> by (rewrite Z.land_comm, Z.land_ones, Z.mod_small; lia).
  by rewrite !Z.land_assoc, !Z.land_ones, Z.mod_mod by lia.
Qed.

Lemma lor_mod_256 x m : 0 <= m < 256 -> Z.lor x m mod 256 = Z.lor (x mod 256) m.
Proof.
  intros Hm. change 256 with (2 ^ 8). rewrite <- !Z.land_ones by lia. rewrite Z.land_lor_distr_l. f_equal.
  rewrite Z.land_ones, Z.mod_small; lia.
Qed.

Lemma lastByte_eq ch : u8 (Z.land (Z.lor ch 0x80) 0xBF) = 0x80 + ch mod 64.
Proof.
  rewrite land_mod_256, lor_mod_256 by lia.
  assert (forall b, 0 <= b < 256 -> (u8 (Z.land (Z.lor b 0x80) 0xBF) =? 0x80 + b mod 64) = true) as H.
  { apply (forallZ_spec 0 256). by vm_compute. }
  specialize (H (ch mod 256) ltac:(apply Z.mod_pos_bound; lia)). zbool. rewrite H. divlia.
Qed.

Lemma firstByte_eq n ch : (2 <= n <= 4)%nat -> 0 <= ch < 2 ^ (7 - Z.of_nat n) -> u8 (Z.lor ch (firstByteMark n)) = firstByteMark n + ch.
Proof.
  intros Hn Hch. assert (n = 2 \/ n = 3 \/ n = 4)%nat as [-> | [-> | ->]] by lia;
    apply Z.eqb_eq; [apply (forallZ_spec 0 32 (λ c, u8 (Z.lor c (firstByteMark 2)) =? firstByteMark 2 + c)); [by vm_compute|]
      |apply (forallZ_spec 0 16 (λ c, u8 (Z.lor c (firstByteMark 3)) =? firstByteMark 3 + c)); [by vm_compute|]
      |apply (forallZ_spec 0 8 (λ c, u8 (Z.lor c (firstByteMark 4)) =? firstByteMark 4 + c)); [by vm_compute|]]; simpl in *; lia.
Qed.

(** The bytes that are written for a character. *)
Lemma writeBytes_eq ch : 0 <= ch < 0x110000 -> (let '(n, c) := bytesToWrite ch in (Z.of_nat n, writeBytes n n c [])) = (vec_size (utf8_of ch), utf8_of ch).
Proof.
  intros Hch. unfold bytesToWrite, utf8_of. repeat zcase; try lia; unfold vec_size; cbn [writeBytes length]; rewrite ?lastByte_eq, ?Z.shiftr_div_pow2 by lia;
    change (2 ^ 6) with 64; rewrite ?Z.div_div by lia; rewrite ?firstByte_eq by (simpl; first [lia | divlia]); try done.
  change (firstByteMark 1) with 0. rewrite Z.lor_0_r, uwrap_small by (simpl; lia). done.
Qed.

Lemma surrogate_pair ch : 0x10000 <= ch < 0x110000 ->
  U16_LEAD ch = 0xD800 + (ch - 0x10000) / 1024 /\ U16_TRAIL ch = 0xDC00 + ch mod 1024.
Proof.
  intros Hch. unfold U16_LEAD, U16_TRAIL. rewrite Z.shiftr_div_pow2 by lia. change 0x3ff with (Z.ones 10). rewrite Z.land_ones by lia.
  change (2 ^ 10) with 1024. split; [rewrite uwrap_small by (simpl; divlia); divlia|].
  rewrite (Z.lor_comm _ 0xdc00). change 0xdc00 with (Z.shiftl 55 10) at 1.
  rewrite Z.lor_comm, lor_shiftl_add by (try lia; apply Z.mod_pos_bound; lia). rewrite uwrap_small; [simpl; lia|].
  pose proof (Z.mod_pos_bound ch 1024 ltac:(lia)). simpl. lia.
Qed.

(** ** The conversions of well-formed text *)

Lemma write_scalar ch rest room strict target : scalar ch ->
  convertUTF16ToUTF8 (utf16_of ch ++ rest) room strict target =
    if room <? vec_size (utf8_of ch) then (targetExhausted, utf16_of ch ++ rest, target)
    else convertUTF16ToUTF8 rest (room - vec_size (utf8_of ch)) strict (target ++ utf8_of ch).
Proof.
  intros [Hch Hs]. pose proof (writeBytes_eq ch Hch) as Hw. unfold utf16_of. destruct (ch <? 0x10000) eqn:E; zbool; cbn [app convertUTF16ToUTF8].
  - destruct (isHighSurrogate ch) eqn:Eh; [unfold isHighSurrogate in Eh; zbool; lia|].
    destruct (isLowSurrogate ch) eqn:El; [unfold isLowSurrogate in El; zbool; lia|]. rewrite andb_false_r.
    destruct (bytesToWrite ch) as [n c]. by simplify_eq Hw; intros -> ->.
  - assert (isHighSurrogate (0xD800 + (ch - 0x10000) / 1024) = true) as ->.
    { unfold isHighSurrogate. apply andb_true_iff. split; apply Z.leb_le; divlia. }
    assert (isLowSurrogate (0xDC00 + ch mod 1024) = true) as -> by (unfold isLowSurrogate; apply andb_true_iff; split; apply Z.leb_le; divlia).
    replace (Z.shiftl _ 10 + _ + _) with ch by (rewrite Z.shiftl_mul_pow2 by lia; change (2 ^ 10) with 1024; divlia).
    destruct (bytesToWrite ch) as [n c]. by simplify_eq Hw; intros -> ->.
Qed.

(** UTF-16 text is written as the bytes of its code points. *)
Lemma convertUTF16ToUTF8_text text : Forall scalar text -> forall room strict target, vec_size (concat (utf8_of <$> text)) <= room ->
  convertUTF16ToUTF8 (concat (utf16_of <$> text)) room strict target = (conversionOK, [], target ++ concat (utf8_of <$> text)).
Proof.
  induction 1 as [|ch text Hch Htext IH]; intros room strict target; cbn [fmap list_fmap concat]; [by rewrite app_nil_r|].
  rewrite vec_size_app. intros Hroom. rewrite write_scalar by done. pose proof (vec_size_nonneg (concat (utf8_of <$> text))).
  destruct (room <? _) eqn:E; zbool; [lia|]. rewrite IH by lia. by rewrite <- app_assoc.
Qed.

(** The length is read off the first byte. *)
Definition leadingLength (b : Z) : nat :=
  if b <? 0x80 then 1 else if b <? 0xC0 then 0 else if b <? 0xE0 then 2 else if b <? 0xF0 then 3 else if b <? 0xF8 then 4 else 0.

Lemma sequenceLength_eq b : 0 <= b < 256 -> inlineUTF8SequenceLength b = leadingLength b.
Proof. intros Hb. apply Nat.eqb_eq. apply (forallZ_spec 0 256 (λ b, Nat.eqb (inlineUTF8SequenceLength b) (leadingLength b))); [by vm_compute|simpl; lia]. Qed.

Lemma s32_small z : - 2 ^ 31 <= z < 2 ^ 31 -> s32 z = z.
Proof. intros. apply swrap_small; simpl; lia. Qed.

Ltac utf8_cases ch := unfold utf8_of; destruct (ch <? 0x80) eqn:?; [|destruct (ch <? 0x800) eqn:?; [|destruct (ch <? 0x10000) eqn:?]]; zbool.

Lemma sequence_length ch : scalar ch -> exists b0 rest, utf8_of ch = b0 :: rest /\ inlineUTF8SequenceLength b0 = length (utf8_of ch).
Proof.
  intros [Hch Hs]. utf8_cases ch; (eexists _, _; split; [done|]); (rewrite sequenceLength_eq by divlia; unfold leadingLength);
    repeat zcase; try done; exfalso; divlia.
Qed.

Lemma sequence_legal ch : scalar ch -> isLegalUTF8 (utf8_of ch) = true.
Proof.
  intros [Hch Hs]. utf8_cases ch; unfold isLegalUTF8, isContinuation, legalSecond, legalFirst.
  all: repeat (apply andb_true_iff; split).
  all: repeat zcase; try (apply negb_true_iff).
  all: try (apply orb_false_iff; split); try (apply Z.ltb_ge; divlia).
  all: apply andb_false_iff; first [right; apply Z.ltb_ge; divlia | left; apply Z.leb_gt; divlia].
Qed.

Lemma readBytes_shift b b' bytes character : 0 <= b < 256 -> 0 <= character < 2 ^ 22 ->
  readBytes (b :: b' :: bytes) character = readBytes (b' :: bytes) ((character + b) * 64).
Proof.
  intros Hb Hc. cbn [readBytes]. rewrite Z.shiftl_mul_pow2 by lia. change (2 ^ 6) with 64. rewrite (s32_small (character + b)) by lia.
  by rewrite (s32_small (_ * 64)) by lia.
Qed.

Lemma readBytes_last b character : 0 <= b < 256 -> 0 <= character < 2 ^ 28 -> readBytes [b] character = character + b.
Proof. intros. cbn [readBytes]. apply s32_small. lia. Qed.

Lemma sequence_read ch : scalar ch -> readUTF8Sequence (utf8_of ch) = ch.
Proof.
  intros [Hch Hs]. utf8_cases ch; unfold readUTF8Sequence; cbn [length Nat.sub offsetsFromUTF8 nth];
    rewrite ?readBytes_shift, readBytes_last by divlia; rewrite s32_small by divlia; divlia.
Qed.

Lemma U_IS_SURROGATE_eq c : U_IS_SURROGATE c = (c / 2048 * 2048 =? 0xd800).
Proof.
  unfold U_IS_SURROGATE. change (s32 0xfffff800) with (Z.lnot (Z.ones 11)). rewrite <- Z.ldiff_land, Z.ldiff_ones_r by lia.
  by rewrite Z.shiftl_mul_pow2, Z.shiftr_div_pow2 by lia.
Qed.

Lemma read_scalar ch rest fuel room strict target : scalar ch -> vec_size (utf16_of ch) <= room ->
  convertUTF8ToUTF16 (S fuel) (utf8_of ch ++ rest) room strict target = convertUTF8ToUTF16 fuel rest (room - vec_size (utf16_of ch)) strict (target ++ utf16_of ch).
Proof.
  intros Hs Hroom. destruct (sequence_length ch Hs) as (b0 & more & Heq & Hlen).
  assert (utf8_of ch ++ rest = b0 :: (more ++ rest)) as Hsrc by (by rewrite Heq). rewrite Hsrc. cbn [convertUTF8ToUTF16]. rewrite <- Hsrc.
  rewrite Hlen, take_app_length, drop_app_length, sequence_legal, sequence_read by done. cbn [negb].
  destruct (vec_size _ <? _) eqn:E; zbool; [rewrite vec_size_app in E; unfold vec_size in E; lia|].
  pose proof (utf16_of_sizes ch). destruct (room <=? 0) eqn:E0; zbool; [lia|]. destruct Hs as [Hch Hs].
  unfold U_IS_BMP, U_IS_SUPPLEMENTARY, utf16_of in *. rewrite uwrap_small by (simpl; lia). destruct (ch <? 0x10000) eqn:Eb; zbool.
  - destruct (ch <=? 0xffff) eqn:E1; zbool; [|lia]. destruct (U_IS_SURROGATE ch) eqn:E2.
    { rewrite U_IS_SURROGATE_eq in E2. zbool. exfalso. divlia. }
    rewrite uwrap_small by (simpl; lia). done.
  - destruct (ch <=? 0xffff) eqn:E1; zbool; [lia|]. rewrite uwrap_small by (simpl; lia).
    destruct (_ <=? 0xfffff) eqn:E2; zbool; [|lia]. destruct (surrogate_pair ch) as [-> ->]; [lia|].
    change (vec_size [_; _]) with 2 in *. destruct (room <=? 1) eqn:E3; zbool; [lia|]. done.
Qed.

(** The bytes of code points are read as their UTF-16 text. *)
Lemma convertUTF8ToUTF16_text text : Forall scalar text -> forall fuel room strict target,
  (length (concat (utf8_of <$> text)) <= fuel)%nat -> vec_size (concat (utf16_of <$> text)) <= room ->
  convertUTF8ToUTF16 fuel (concat (utf8_of <$> text)) room strict target = Some (conversionOK, [], target ++ concat (utf16_of <$> text)).
Proof.
  induction 1 as [|ch text Hch Htext IH]; intros fuel room strict target; cbn [fmap list_fmap concat]; [destruct fuel; by rewrite app_nil_r|].
  rewrite vec_size_app, length_app. intros Hfuel Hroom. pose proof (utf8_of_sizes ch). pose proof (vec_size_nonneg (concat (utf16_of <$> text))).
  unfold vec_size in *. destruct fuel as [|fuel]; [lia|]. rewrite read_scalar by (done || unfold vec_size; lia). rewrite IH by (unfold vec_size in *; lia).
  by rewrite <- app_assoc.
Qed.

(** Text in UTF-16: every high surrogate is followed by a low one, and no low
    surrogate stands elsewhere. *)
Fixpoint isUTF16 (s : list Z) : bool :=
  match s with
  | [] => true
  | c :: rest =>
      (0 <=? c) && (c <? 0x10000) &&
      if isHighSurrogate c then match rest with c2 :: rest2 => isLowSurrogate c2 && isUTF16 rest2 | [] => false end
      else negb (isLowSurrogate c) && isUTF16 rest
  end.

Lemma isUTF16_text s : isUTF16 s = true -> exists text, Forall scalar text /\ s = concat (utf16_of <$> text).
Proof.
  remember (length s) as n eqn:Hn. assert (length s <= n)%nat as Hle by lia. clear Hn. revert s Hle.
  induction n as [|n IH]; intros [|c rest] Hle H; cbn [length] in Hle; try lia; [by exists []..|]. cbn [isUTF16] in H. zbool.
  destruct (isHighSurrogate c) eqn:Eh.
  - destruct rest as [|c2 rest2]; [done|]. zbool. unfold isHighSurrogate, isLowSurrogate in *. zbool. cbn [length] in Hle.
    destruct (IH rest2 ltac:(lia) ltac:(done)) as (text & Htext & ->). exists ((0x10000 + (c - 0xD800) * 1024 + (c2 - 0xDC00)) :: text). split.
    + constructor; [unfold scalar; lia|done].
    + cbn [fmap list_fmap concat]. unfold utf16_of at 2. destruct (_ <? 0x10000) eqn:E; zbool; [lia|]. cbn [app]. f_equal; [divlia|]. f_equal. divlia.
  - zbool. destruct (IH rest ltac:(lia) ltac:(done)) as (text & Htext & ->). exists (c :: text). split.
    + constructor; [|done]. unfold scalar. split; [lia|]. unfold isHighSurrogate, isLowSurrogate in *.
      apply andb_false_iff in Eh. apply andb_false_iff in H0. destruct Eh, H0; zbool; lia.
    + cbn [fmap list_fmap concat]. unfold utf16_of at 2. destruct (c <? 0x10000) eqn:E; zbool; [done|lia].
Qed.

(** ** Round trips *)

Lemma utf8_of_latin1 ch : 0 <= ch < 256 -> let n := if ch <? 0x80 then 1%nat else 2%nat in
  Z.of_nat n = vec_size (utf8_of ch) /\ writeBytes n n ch [] = utf8_of ch.
Proof.
  intros Hch. pose proof (writeBytes_eq ch ltac:(lia)) as H. unfold bytesToWrite in H. destruct (ch <? 0x80) eqn:E; zbool; [by simplify_eq H|].
  destruct (ch <? 0x800) eqn:E2; zbool; [by simplify_eq H|lia].
Qed.

(** An 8-bit string holds one code point in each byte. *)
Lemma convertLatin1ToUTF8_text s : Forall is_byte s -> forall room target, vec_size (concat (utf8_of <$> s)) <= room ->
  convertLatin1ToUTF8 s room target = (conversionOK, [], target ++ concat (utf8_of <$> s)).
Proof.
  induction 1 as [|ch s Hch Hs IH]; intros room target; cbn [fmap list_fmap concat convertLatin1ToUTF8]; [by rewrite app_nil_r|].
  rewrite vec_size_app. intros Hroom. destruct (utf8_of_latin1 ch Hch) as [Hn Hw]. rewrite Hw, Hn. pose proof (vec_size_nonneg (concat (utf8_of <$> s))).
  destruct (room <? _) eqn:E; zbool; [lia|]. rewrite IH by lia. by rewrite <- app_assoc.
Qed.

Lemma latin1_text s : Forall is_byte s -> Forall scalar s /\ s = concat (utf16_of <$> s).
Proof.
  induction 1 as [|ch s Hch Hs [IH1 IH2]]; [done|]. unfold is_byte in Hch. split; [constructor; [unfold scalar; lia|done]|].
  cbn [fmap list_fmap concat]. unfold utf16_of at 1. destruct (ch <? 0x10000) eqn:E; zbool; [|lia]. cbn [app]. by f_equal.
Qed.

Lemma concat_sizes text : vec_size (concat (utf16_of <$> text)) <= vec_size (concat (utf8_of <$> text)) <= 3 * vec_size (concat (utf16_of <$> text)).
Proof.
  induction text as [|ch text IH]; cbn [fmap list_fmap concat]; [done|]. rewrite !vec_size_app. pose proof (utf8_of_sizes ch). pose proof (utf16_of_sizes ch). lia.
Qed.

(** The code units of a string, at its width. *)
Definition string_ok (s : WString) : Prop := if is8Bit s then Forall is_byte (characters s) else isUTF16 (characters s) = true.

Lemma string_utf8 s : string_ok s -> vec_size (characters s) <= MaxLength / 3 ->
  exists text, Forall scalar text /\ characters s = concat (utf16_of <$> text) /\ utf8 s = Some (concat (utf8_of <$> text)).
Proof.
  intros Hok Hlen.
  assert (exists text, Forall scalar text /\ characters s = concat (utf16_of <$> text) /\ (is8Bit s = true -> text = characters s /\ Forall is_byte text)) as (text & Ht & Heq & H8).
  { unfold string_ok in Hok. destruct (is8Bit s); [destruct (latin1_text _ Hok); by eexists|]. destruct (isUTF16_text _ Hok) as (text & ? & ?). by exists text. }
  exists text. split; [done|]. split; [done|]. unfold utf8. pose proof (concat_sizes text) as Hsz. rewrite <- Heq in Hsz.
  destruct (_ =? 0) eqn:E0; zbool.
  { assert (concat (utf8_of <$> text) = []) as -> by (apply length_zero_iff_nil; unfold vec_size in *; lia). done. }
  destruct (_ <? _) eqn:E1; zbool; [lia|]. destruct (is8Bit s).
  - destruct (H8 eq_refl) as [Ht8 Hb]. rewrite <- Ht8 in Hsz |- *. by rewrite convertLatin1ToUTF8_text by (try done; lia).
  - unfold utf8Impl. rewrite Heq at 1. by rewrite convertUTF16ToUTF8_text by (try done; lia).
Qed.

(** ** What is read is UTF-8 *)

Lemma isASCII_eq c : 0 <= c < 256 -> (Z.land c (Z.lnot 0x7F) =? 0) = (c <? 128).
Proof. intros Hc. apply eqb_true_iff. apply (forallZ_spec 0 256 (λ c, Bool.eqb (Z.land c (Z.lnot 0x7F) =? 0) (c <? 128))); [by vm_compute|simpl; lia]. Qed.

Lemma utf8_of_2 x y : 2 <= x < 32 -> 0 <= y < 64 -> utf8_of (x * 64 + y) = [0xC0 + x; 0x80 + y].
Proof.
  intros Hx Hy. unfold utf8_of. do 2 (zcase; [try lia|]); [|lia].
  assert ((x * 64 + y) / 64 = x /\ (x * 64 + y) mod 64 = y) as [-> ->] by divlia. done.
Qed.

Lemma utf8_of_3 x y z : 0 <= x < 16 -> 0 <= y < 64 -> 0 <= z < 64 -> 0x800 <= x * 4096 + y * 64 + z ->
  utf8_of (x * 4096 + y * 64 + z) = [0xE0 + x; 0x80 + y; 0x80 + z].
Proof.
  intros Hx Hy Hz Hge. unfold utf8_of. set (c := x * 4096 + y * 64 + z) in *. do 3 (zcase; [try lia|]); [|lia].
  assert (c / 4096 = x /\ c / 64 mod 64 = y /\ c mod 64 = z) as (-> & -> & ->) by (unfold c; divlia). done.
Qed.

Lemma utf8_of_4 x y z w : 0 <= x < 8 -> 0 <= y < 64 -> 0 <= z < 64 -> 0 <= w < 64 -> 0x10000 <= x * 262144 + y * 4096 + z * 64 + w ->
  utf8_of (x * 262144 + y * 4096 + z * 64 + w) = [0xF0 + x; 0x80 + y; 0x80 + z; 0x80 + w].
Proof.
  intros Hx Hy Hz Hw Hge. unfold utf8_of. set (c := x * 262144 + y * 4096 + z * 64 + w) in *. do 3 (zcase; [try lia|]).
  assert (c / 262144 = x /\ c / 4096 mod 64 = y /\ c / 64 mod 64 = z /\ c mod 64 = w) as (-> & -> & -> & ->) by (unfold c; divlia). done.
Qed.

(** What the check on the second byte excludes: overlong forms, surrogates and
    what lies above the last code point.  It does not exclude the bytes below 0x80
    after 0xED and 0xF4. *)
Lemma legalSecond_cases b0 a : legalSecond b0 a = true -> a <= 0xBF /\ (a < 0x80 -> b0 = 0xED \/ b0 = 0xF4) /\ (b0 = 0xE0 -> 0xA0 <= a) /\ (b0 = 0xED -> a <= 0x9F) /\
  (b0 = 0xF0 -> 0x90 <= a) /\ (b0 = 0xF4 -> a <= 0x8F).
Proof. unfold legalSecond. intros H. zbool. repeat (destruct (b0 =? _) eqn:?; zbool); lia. Qed.

Lemma legalFirst_cases b0 : legalFirst b0 = true -> (b0 < 0x80 \/ 0xC2 <= b0) /\ b0 <= 0xF4.
Proof. unfold legalFirst. intros H. zbool. apply andb_false_iff in H as [H|H]; zbool; lia. Qed.

Lemma isContinuation_cases a : isContinuation a = true -> 0x80 <= a <= 0xBF.
Proof. unfold isContinuation. intros H. zbool. lia. Qed.

(** Every 0xED and 0xF4 is followed by a byte that is not ASCII. *)
Fixpoint no_stray_lead (bytes : list Z) : bool :=
  match bytes with
  | b0 :: ((b1 :: _) as rest) => negb (((b0 =? 0xED) || (b0 =? 0xF4)) && (b1 <? 0x80)) && no_stray_lead rest
  | _ => true
  end.

(** A legal sequence of the length that its first byte announces is a code point. *)
Lemma legal_sequence b0 rest : Forall is_byte (b0 :: rest) -> (forall b1 more, rest = b1 :: more -> b1 < 0x80 -> b0 <> 0xED /\ b0 <> 0xF4) ->
  length (b0 :: rest) = inlineUTF8SequenceLength b0 -> isLegalUTF8 (b0 :: rest) = true ->
  exists ch, scalar ch /\ b0 :: rest = utf8_of ch.
Proof.
  intros Hb Hnext Hlen Hlegal. apply Forall_cons_1 in Hb as [Hb _]. unfold is_byte in Hb. rewrite sequenceLength_eq in Hlen by done.
  assert (0x80 <= b0 -> leadingLength b0 = if b0 <? 0xC0 then 0%nat else if b0 <? 0xE0 then 2%nat else if b0 <? 0xF0 then 3%nat else if b0 <? 0xF8 then 4%nat else 0%nat) as Hlead
    by (intros; unfold leadingLength; zcase; [lia|done]).
  assert (b0 < 0x80 -> leadingLength b0 = 1%nat) as Hlead1 by (intros; unfold leadingLength; zcase; [done|lia]).
  destruct rest as [|b1 [|b2 [|b3 [|? ?]]]]; cbn [isLegalUTF8 length] in *; [| | | |done]; zbool;
    repeat match goal with H : isContinuation _ = true |- _ => apply isContinuation_cases in H | H : legalFirst _ = true |- _ => apply legalFirst_cases in H
    | H : legalSecond _ _ = true |- _ => apply legalSecond_cases in H end; try specialize (Hnext b1 _ eq_refl).
  - exists b0. unfold utf8_of, scalar. destruct (b0 <? 0x80) eqn:E; zbool; [split; [lia|done]|]. rewrite Hlead in Hlen by lia. repeat case_match; lia.
  - assert (0xC2 <= b0 < 0xE0) by (destruct (decide (b0 < 0x80)); [lia|rewrite Hlead in Hlen by lia; repeat case_match; zbool; lia]).
    exists ((b0 - 0xC0) * 64 + (b1 - 0x80)). rewrite utf8_of_2 by lia. split; [unfold scalar; lia|]. do 2 (f_equal; try lia).
  - assert (0xE0 <= b0 < 0xF0) by (destruct (decide (b0 < 0x80)); [lia|rewrite Hlead in Hlen by lia; repeat case_match; zbool; lia]).
    exists ((b0 - 0xE0) * 4096 + (b1 - 0x80) * 64 + (b2 - 0x80)). rewrite utf8_of_3 by lia. split; [unfold scalar; lia|]. do 3 (f_equal; try lia).
  - assert (0xF0 <= b0 <= 0xF4) by (destruct (decide (b0 < 0x80)); [lia|rewrite Hlead in Hlen by lia; repeat case_match; zbool; lia]).
    exists ((b0 - 0xF0) * 262144 + (b1 - 0x80) * 4096 + (b2 - 0x80) * 64 + (b3 - 0x80)). rewrite utf8_of_4 by lia. split; [unfold scalar; lia|]. do 4 (f_equal; try lia).
Qed.

Lemma utf8_of_bytes ch : scalar ch -> Forall is_byte (utf8_of ch).
Proof. intros [Hch _]. utf8_cases ch; repeat constructor; unfold is_byte; divlia. Qed.

Lemma no_stray_lead_inv b0 bytes : no_stray_lead (b0 :: bytes) = true ->
  no_stray_lead bytes = true /\ forall b1 more, bytes = b1 :: more -> b1 < 0x80 -> b0 <> 0xED /\ b0 <> 0xF4.
Proof.
  destruct bytes as [|b1 bytes]; [done|]. change (no_stray_lead (b0 :: b1 :: bytes)) with (negb (((b0 =? 0xED) || (b0 =? 0xF4)) && (b1 <? 0x80)) && no_stray_lead (b1 :: bytes)).
  intros H. zbool. split; [done|]. intros b more [= <- <-] Hb. apply andb_false_iff in H as [H|H]; zbool; lia.
Qed.

Lemma no_stray_lead_drop n bytes : no_stray_lead bytes = true -> no_stray_lead (drop n bytes) = true.
Proof. revert bytes. induction n as [|n IH]; intros [|b bytes] H; [done..|]. apply IH. by apply no_stray_lead_inv in H as [H _]. Qed.

Lemma read_scalar_full ch rest fuel room strict target : scalar ch -> room < vec_size (utf16_of ch) ->
  exists t, convertUTF8ToUTF16 (S fuel) (utf8_of ch ++ rest) room strict target = Some (targetExhausted, utf8_of ch ++ rest, t).
Proof.
  intros Hs Hroom. destruct (sequence_length ch Hs) as (b0 & more & Heq & Hlen).
  assert (utf8_of ch ++ rest = b0 :: (more ++ rest)) as Hsrc by (by rewrite Heq). rewrite Hsrc. cbn [convertUTF8ToUTF16]. rewrite <- Hsrc.
  rewrite Hlen, take_app_length, drop_app_length, sequence_legal, sequence_read by done. cbn [negb].
  destruct (vec_size _ <? _) eqn:E; zbool; [rewrite vec_size_app in E; unfold vec_size in E; lia|].
  destruct (room <=? 0) eqn:E0; zbool; [by eexists|]. destruct Hs as [Hch Hs]. unfold utf16_of in Hroom. destruct (ch <? 0x10000) eqn:Eb; zbool.
  { change (vec_size [ch]) with 1 in Hroom. lia. }
  change (vec_size [_; _]) with 2 in Hroom. unfold U_IS_BMP, U_IS_SUPPLEMENTARY. rewrite uwrap_small by (simpl; lia).
  destruct (ch <=? 0xffff) eqn:E1; zbool; [lia|]. rewrite uwrap_small by (simpl; lia). destruct (_ <=? 0xfffff) eqn:E2; zbool; [|lia].
  destruct (room <=? 1) eqn:E3; zbool; [by eexists|lia].
Qed.

(** A sequence that is accepted is a code point. *)
Lemma accepted_sequence b0 source : Forall is_byte (b0 :: source) -> no_stray_lead (b0 :: source) = true ->
  Z.of_nat (inlineUTF8SequenceLength b0) <= vec_size (b0 :: source) -> isLegalUTF8 (take (inlineUTF8SequenceLength b0) (b0 :: source)) = true ->
  exists ch, scalar ch /\ take (inlineUTF8SequenceLength b0) (b0 :: source) = utf8_of ch.
Proof.
  intros Hb Hstray Hsize Hlegal. remember (inlineUTF8SequenceLength b0) as n eqn:Hn. destruct n as [|m]; [done|]. cbn [take] in *. apply legal_sequence.
  - apply Forall_cons_1 in Hb as [? ?]. constructor; [done|by apply Forall_take].
  - apply no_stray_lead_inv in Hstray as [_ H]. intros b1 more Hm. destruct source as [|b source]; [by rewrite take_nil in Hm|].
    destruct m; [done|]. cbn [take] in Hm. injection Hm as <- _. by eapply H.
  - rewrite <- Hn. cbn [length]. rewrite length_take. unfold vec_size in Hsize. cbn [length] in Hsize. lia.
  - done.
Qed.

(** When the conversion succeeds, the source was the bytes of code points. *)
Lemma convertUTF8ToUTF16_sound fuel : forall source room strict target rest result,
  Forall is_byte source -> no_stray_lead source = true ->
  convertUTF8ToUTF16 fuel source room strict target = Some (conversionOK, rest, result) ->
  exists text, Forall scalar text /\ source = concat (utf8_of <$> text) /\ result = target ++ concat (utf16_of <$> text).
Proof.
  induction fuel as [|fuel IH]; intros [|b0 source] room strict target rest result Hb Hstray Hconv;
    [simplify_eq/=; exists []; by rewrite app_nil_r|done|simplify_eq/=; exists []; by rewrite app_nil_r|].
  assert (exists ch, scalar ch /\ take (inlineUTF8SequenceLength b0) (b0 :: source) = utf8_of ch) as (ch & Hch & Htake).
  { cbn [convertUTF8ToUTF16] in Hconv. destruct (vec_size _ <? _) eqn:E; [discriminate|]. zbool.
    destruct (isLegalUTF8 _) eqn:Hlegal; cbn [negb] in Hconv; [|discriminate]. by apply accepted_sequence. }
  set (more := drop (inlineUTF8SequenceLength b0) (b0 :: source)).
  assert (b0 :: source = utf8_of ch ++ more) as Hsplit by (by rewrite <- Htake; unfold more; rewrite take_drop).
  rewrite Hsplit in Hconv. destruct (decide (vec_size (utf16_of ch) <= room)) as [Hroom|Hroom].
  - rewrite read_scalar in Hconv by done. apply IH in Hconv as (text & Htext & Hmore & ->); [|by apply Forall_drop|by apply no_stray_lead_drop].
    exists (ch :: text). split; [by constructor|]. cbn [fmap list_fmap concat]. rewrite Hsplit, Hmore. by rewrite app_assoc.
  - destruct (read_scalar_full ch more fuel room strict target Hch ltac:(lia)) as [t Ht]. congruence.
Qed.

Lemma ascii_utf8_of ch : scalar ch -> charactersAreAllASCII (utf8_of ch) = true -> utf8_of ch = utf16_of ch.
Proof.
  intros [Hch _]. unfold utf16_of. utf8_cases ch; intros Ha; try zcase; try lia; try done; exfalso; unfold charactersAreAllASCII in Ha; cbn [forallb] in Ha;
    rewrite isASCII_eq in Ha by divlia; zbool; divlia.
Qed.

Lemma ascii_text text : Forall scalar text -> charactersAreAllASCII (concat (utf8_of <$> text)) = true -> concat (utf8_of <$> text) = concat (utf16_of <$> text).
Proof.
  unfold charactersAreAllASCII. induction 1 as [|ch text Hch _ IH]; [done|]. cbn [fmap list_fmap concat]. rewrite forallb_app. intros H. zbool.
  by rewrite IH, ascii_utf8_of by done.
Qed.

(** Reading the bytes of code points. *)
Lemma fromUTF8_text text : Forall scalar text -> vec_size (concat (utf8_of <$> text)) <= MaxLength ->
  exists s, fromUTF8 (concat (utf8_of <$> text)) = Some (Some s) /\ characters s = concat (utf16_of <$> text).
Proof.
  intros Ht Hlen. unfold fromUTF8. destruct (_ <? _) eqn:E; zbool; [lia|]. destruct (_ =? 0) eqn:E0; zbool.
  { eexists. split; [done|]. pose proof (concat_sizes text). cbn [characters]. symmetry. apply length_zero_iff_nil. unfold vec_size in *. lia. }
  destruct (charactersAreAllASCII _) eqn:Ea; [eexists; split; [done|]; by apply ascii_text|].
  rewrite convertUTF8ToUTF16_text by (try done; apply concat_sizes). by eexists.
Qed.

(** Bytes that are ASCII are the bytes of code points. *)
Lemma ascii_bytes bytes : Forall is_byte bytes -> charactersAreAllASCII bytes = true ->
  Forall scalar bytes /\ bytes = concat (utf8_of <$> bytes) /\ bytes = concat (utf16_of <$> bytes).
Proof.
  unfold charactersAreAllASCII. induction 1 as [|b bytes Hb Hbytes IH]; [done|]. cbn [forallb]. intros H. apply andb_prop in H as [H H']. rewrite isASCII_eq in H by done. zbool.
  unfold is_byte in Hb. destruct IH as (IH1 & IH2 & IH3); [done|]. split; [constructor; [unfold scalar; lia|done]|]. cbn [fmap list_fmap concat].
  unfold utf8_of at 1, utf16_of at 1. destruct (b <? 0x80) eqn:E; zbool; [|lia]. destruct (b <? 0x10000) eqn:E'; zbool; [|lia].
  split; cbn [app]; by f_equal.
Qed.

Lemma no_stray_lead_app v w : (forall b, last v = Some b -> b <> 0xED /\ b <> 0xF4) -> no_stray_lead v = true -> no_stray_lead w = true -> no_stray_lead (v ++ w) = true.
Proof.
  induction v as [|b0 v IH]; intros Hlast Hv Hw; [done|]. apply no_stray_lead_inv in Hv as [Hv Hnext]. cbn [app].
  assert (no_stray_lead (v ++ w) = true) as IHv.
  { apply IH; [|done..]. intros b Hb. apply Hlast. destruct v; [done|]. done. }
  destruct (v ++ w) as [|b1 rest] eqn:E; [done|].
  change (negb (((b0 =? 0xED) || (b0 =? 0xF4)) && (b1 <? 0x80)) && no_stray_lead (b1 :: rest) = true). rewrite IHv, andb_true_r.
  apply negb_true_iff, andb_false_iff. destruct (b1 <? 0x80) eqn:E1; [left; zbool|by right]. apply orb_false_iff. rewrite !Z.eqb_neq.
  destruct v as [|b v]; [apply (Hlast b0); done|]. injection E as -> _. by eapply Hnext.
Qed.

Lemma no_stray_lead_text text : Forall scalar text -> no_stray_lead (concat (utf8_of <$> text)) = true.
Proof.
  induction 1 as [|ch text [Hch Hs] _ IH]; [done|]. cbn [fmap list_fmap concat]. apply no_stray_lead_app; [| |done].
  - utf8_cases ch; cbn [last]; intros b [= <-]; try divlia.
  - utf8_cases ch; cbn [no_stray_lead]; [done|..]; repeat (apply andb_true_iff; split); try done; apply negb_true_iff, andb_false_iff; right; apply Z.ltb_ge; divlia.
Qed.

(** What was read is written as it was. *)
Lemma utf8_fromUTF8 text s : Forall scalar text -> vec_size (concat (utf8_of <$> text)) <= MaxLength / 3 -> fromUTF8 (concat (utf8_of <$> text)) = Some (Some s) ->
  utf8 s = Some (concat (utf8_of <$> text)).
Proof.
  intros Ht Hlen Hs. set (bytes := concat (utf8_of <$> text)) in *. pose proof (concat_sizes text) as Hsz. fold bytes in Hsz.
  assert (Forall is_byte bytes) as Hb by (apply Forall_concat, Forall_fmap; eapply Forall_impl; [done|apply utf8_of_bytes]).
  unfold fromUTF8 in Hs. destruct (_ <? _) eqn:E in Hs; [done|]. destruct (vec_size bytes =? 0) eqn:E0; zbool.
  { assert (bytes = []) as Hnil by (apply length_zero_iff_nil; unfold vec_size in *; lia). injection Hs as <-. by rewrite Hnil. }
  destruct (charactersAreAllASCII bytes) eqn:Ea.
  - injection Hs as <-. destruct (ascii_bytes bytes Hb Ea) as (_ & H8 & _). unfold utf8. cbn [is8Bit characters].
    destruct (vec_size bytes =? 0) eqn:E1; zbool; [done|]. destruct (_ <? _) eqn:E2; zbool; [lia|].
    rewrite convertLatin1ToUTF8_text by (try done; rewrite <- H8; lia). cbn [snd app]. by rewrite <- H8.
  - unfold bytes in Hs at 1 2 3. rewrite convertUTF8ToUTF16_text in Hs by (try done; fold bytes; lia). injection Hs as <-. unfold utf8. cbn [is8Bit characters].
    assert (vec_size (concat (utf16_of <$> text)) <> 0) as Hnz by lia. apply Z.eqb_neq in Hnz. cbn [app]. rewrite Hnz.
    destruct (_ <? _) eqn:E2; zbool; [lia|]. unfold utf8Impl. by rewrite convertUTF16ToUTF8_text by (try done; fold bytes; lia).
Qed.

(** ** The text of a string *)

Lemma utf16_of_inj a b rest rest' : scalar a -> scalar b -> utf16_of a ++ rest = utf16_of b ++ rest' -> a = b /\ rest = rest'.
Proof.
  intros [Ha Hsa] [Hb Hsb]. unfold utf16_of. destruct (a <? 0x10000) eqn:Ea, (b <? 0x10000) eqn:Eb; zbool; cbn [app]; intros [= H1 H2].
  - done.
  - divlia.
  - divlia.
  - split; [divlia|done].
Qed.

Lemma text_unique t1 t2 : Forall scalar t1 -> Forall scalar t2 -> concat (utf16_of <$> t1) = concat (utf16_of <$> t2) -> t1 = t2.
Proof.
  assert (forall ch rest, utf16_of ch ++ rest <> []) as Hne by (intros ch rest; unfold utf16_of; by destruct (_ <? _)).
  intros H1. revert t2. induction H1 as [|a t1 Ha _ IH]; intros t2 H2 Heq; destruct H2 as [|b t2 Hb H2]; cbn [fmap list_fmap concat] in *.
  - done.
  - by destruct (Hne b (concat (utf16_of <$> t2))).
  - by destruct (Hne a (concat (utf16_of <$> t1))).
  - destruct (utf16_of_inj _ _ _ _ Ha Hb Heq) as [-> Heq']. f_equal. by apply IH.
Qed.

Lemma utf8_of_text s text : string_ok s -> Forall scalar text -> characters s = concat (utf16_of <$> text) -> vec_size (characters s) <= MaxLength / 3 ->
  utf8 s = Some (concat (utf8_of <$> text)).
Proof.
  intros Hok Ht Heq Hlen. destruct (string_utf8 s Hok Hlen) as (text' & Ht' & Heq' & ->). by rewrite (text_unique text text') by (done || congruence).
Qed.

Lemma string_text s : string_ok s -> exists text, Forall scalar text /\ characters s = concat (utf16_of <$> text).
Proof.
  unfold string_ok. destruct (is8Bit s); intros H; [destruct (latin1_text _ H); by eexists|]. destruct (isUTF16_text _ H) as (text & ? & ?). by exists text.
Qed.

Lemma text_isUTF16 text : Forall scalar text -> isUTF16 (concat (utf16_of <$> text)) = true.
Proof.
  induction 1 as [|ch text [Hch Hs] _ IH]; [done|]. cbn [fmap list_fmap concat]. unfold utf16_of at 1. destruct (ch <? 0x10000) eqn:E; zbool; cbn [app isUTF16].
  - assert (isHighSurrogate ch = false /\ isLowSurrogate ch = false) as [-> ->].
    { unfold isHighSurrogate, isLowSurrogate. split; apply not_true_iff_false; intros H; zbool; lia. }
    rewrite IH. cbn [negb]. rewrite !andb_true_r. apply andb_true_iff. split; [apply Z.leb_le|apply Z.ltb_lt]; lia.
  - assert (isHighSurrogate (0xD800 + (ch - 0x10000) / 1024) = true) as -> by (unfold isHighSurrogate; apply andb_true_iff; split; apply Z.leb_le; divlia).
    assert (isLowSurrogate (0xDC00 + ch mod 1024) = true) as -> by (unfold isLowSurrogate; apply andb_true_iff; split; apply Z.leb_le; divlia).
    rewrite IH. cbn [andb]. rewrite !andb_true_r. apply andb_true_iff. split; [apply Z.leb_le|apply Z.ltb_lt]; divlia.
Qed.

(** The width of a string does not matter. *)
Lemma utf8_width s : Forall is_byte s -> utf8 (mkWString true s) = utf8 (mkWString false s).
Proof.
  intros Hs. destruct (decide (vec_size s <= MaxLength / 3)) as [Hlen|Hlen].
  - destruct (string_text (mkWString true s) Hs) as (text & Ht & Heq). cbn [characters] in Heq.
    rewrite (utf8_of_text (mkWString true s) text), (utf8_of_text (mkWString false s) text); try done. unfold string_ok. cbn [is8Bit characters]. rewrite Heq. by apply text_isUTF16.
  - unfold utf8. cbn [characters]. destruct (_ =? 0); [done|]. destruct (_ <? _) eqn:E; zbool; [done|lia].
Qed.

Lemma ascii_in_utf8_of b ch : scalar ch -> b < 0x80 -> b ∈ utf8_of ch -> b = ch.
Proof.
  intros [Hch _] Hb. utf8_cases ch; rewrite !elem_of_cons, elem_of_nil; intros Hin; repeat match goal with H : _ \/ _ |- _ => destruct H end; try done; divlia.
Qed.

(** An ASCII byte of the UTF-8 text stands for itself. *)
Lemma ascii_in_text b text : Forall scalar text -> b < 0x80 -> b ∈ concat (utf8_of <$> text) -> b ∈ concat (utf16_of <$> text).
Proof.
  intros Ht Hb. induction Ht as [|ch text Hch _ IH]; [done|]. cbn [fmap list_fmap concat]. rewrite !elem_of_app. intros [Hin|Hin]; [|auto]. left.
  apply ascii_in_utf8_of in Hin as ->; [|done..]. unfold utf16_of. destruct (ch <? 0x10000) eqn:E; zbool; [by left|lia].
Qed.

(** The conversion ends, and only strings that are too long crash. *)
Lemma convertUTF8ToUTF16_total fuel : forall source room strict target, (length source <= fuel)%nat -> is_Some (convertUTF8ToUTF16 fuel source room strict target).
Proof.
  induction fuel as [|fuel IH]; intros [|b0 source] room strict target Hlen; cbn [length] in Hlen; try lia; [by eexists..|]. cbn [convertUTF8ToUTF16].
  destruct (_ <? _); [by eexists|]. destruct (isLegalUTF8 _) eqn:Hl; cbn [negb]; [|by eexists].
  assert (length (drop (inlineUTF8SequenceLength b0) (b0 :: source)) <= fuel)%nat as Hdrop.
  { rewrite length_drop. cbn [length]. destruct (inlineUTF8SequenceLength b0); [done|]. lia. }
  repeat case_match; first [by eexists | by apply IH].
Qed.

Lemma fromUTF8_total bytes : vec_size bytes <= MaxLength -> is_Some (fromUTF8 bytes).
Proof.
  intros Hlen. unfold fromUTF8. destruct (_ <? _) eqn:E; zbool; [lia|]. destruct (_ =? 0); [by eexists|]. destruct (charactersAreAllASCII bytes); [by eexists|].
  destruct (convertUTF8ToUTF16_total (length bytes) bytes (vec_size bytes) true []) as [[[r rest] t] ->]; [done|]. destruct r; by eexists.
Qed.

(** ** Claims *)

(** C24: Converting a string to UTF-8 and back gives its characters again: every
    8-bit string, and every 16-bit string whose surrogates are paired. *)
Theorem fromUTF8_utf8 s : string_ok s -> vec_size (characters s) <= MaxLength / 3 ->
  exists bytes s', utf8 s = Some bytes /\ Forall is_byte bytes /\ fromUTF8 bytes = Some (Some s') /\ characters s' = characters s.
Proof.
  intros Hok Hlen. destruct (string_utf8 s Hok Hlen) as (text & Ht & Heq & Hu). rewrite Hu. eexists. pose proof (concat_sizes text) as Hsz. rewrite <- Heq in Hsz.
  destruct (fromUTF8_text text Ht) as (s' & Hs & Hc); [unfold MaxLength in *; change INT32_MAX with 2147483647 in *; change (2147483647 / 3) with 715827882 in *; lia|].
  exists s'. split; [done|]. split; [|split; [done|congruence]]. apply Forall_concat, Forall_fmap. eapply Forall_impl; [done|]. apply utf8_of_bytes.
Qed.

Lemma fromUTF8_utf8_witness : string_ok (mkWString false [0x48; 0xE9; 0x20AC; 0xD83D; 0xDE00]) /\ exists bytes s',
  utf8 (mkWString false [0x48; 0xE9; 0x20AC; 0xD83D; 0xDE00]) = Some bytes /\ Forall is_byte bytes /\ fromUTF8 bytes = Some (Some s')
  /\ characters s' = [0x48; 0xE9; 0x20AC; 0xD83D; 0xDE00].
Proof. split; [by vm_compute|]. apply (fromUTF8_utf8 (mkWString false [0x48; 0xE9; 0x20AC; 0xD83D; 0xDE00])); [by vm_compute|by vm_compute]. Defined.

(** C23: Bytes are converted to a string exactly when they are the UTF-8 bytes of
    code points, to the UTF-16 text of these: overlong forms, surrogates and bytes
    that do not belong are refused, provided no 0xED or 0xF4 stands before ASCII. *)
Theorem fromUTF8_correct bytes units : Forall is_byte bytes -> no_stray_lead bytes = true -> vec_size bytes <= MaxLength ->
  (exists s, fromUTF8 bytes = Some (Some s) /\ characters s = units) <->
  (exists text, Forall scalar text /\ bytes = concat (utf8_of <$> text) /\ units = concat (utf16_of <$> text)).
Proof.
  intros Hb Hstray Hlen. split.
  - intros (s & Hs & <-). unfold fromUTF8 in Hs. destruct (_ <? _) eqn:E in Hs; [done|]. destruct (_ =? 0) eqn:E0 in Hs; zbool.
    { simplify_eq/=. exists []. assert (bytes = []) as -> by (apply length_zero_iff_nil; unfold vec_size in *; lia). done. }
    destruct (charactersAreAllASCII bytes) eqn:Ea; [simplify_eq/=; exists bytes; by apply ascii_bytes|].
    destruct (convertUTF8ToUTF16 _ _ _ _ _) as [[[[] rest] target]|] eqn:Hc; simplify_eq/=.
    apply convertUTF8ToUTF16_sound in Hc as (text & ? & ? & ?); [|done..]. by exists text.
  - intros (text & Ht & -> & ->). by apply fromUTF8_text.
Qed.

Lemma fromUTF8_correct_witness : (exists s, fromUTF8 [0xE2; 0x82; 0xAC] = Some (Some s) /\ characters s = [0x20AC]) /\
  ~ (exists text, Forall scalar text /\ [0xC0; 0xAF] = concat (utf8_of <$> text) /\ [0x2F] = concat (utf16_of <$> text)).
Proof.
  split.
  - apply (fromUTF8_correct [0xE2; 0x82; 0xAC] [0x20AC]); [repeat constructor; by vm_compute|done|by vm_compute|]. exists [0x20AC].
    split; [|done]. repeat constructor; [done..|]. intros [H _]. by apply H.
  - rewrite <- (fromUTF8_correct [0xC0; 0xAF] [0x2F]); [|repeat constructor; by vm_compute|done|by vm_compute]. intros (s & Hs & _). vm_compute in Hs. discriminate.
Defined.

(** C38: Malformed UTF-8 is accepted: 0xED or 0xF4 may be followed by an ASCII
    character, here [<], which becomes a part of another character. *)
Theorem malformed_UTF8_accepted : fromUTF8 [0xED; 0x3C; 0x80] = Some (Some (mkWString false [0xBF00])) /\
  fromUTF8 [0xF4; 0x3C; 0x80; 0x80] = Some (Some (mkWString false [0xDAB0; 0xDC00])) /\
  ~ (exists text, Forall scalar text /\ [0xED; 0x3C; 0x80] = concat (utf8_of <$> text)) /\
  ~ (exists text, Forall scalar text /\ [0xF4; 0x3C; 0x80; 0x80] = concat (utf8_of <$> text)).
Proof.
  split; [by vm_compute|]. split; [by vm_compute|]. split; intros (text & Ht & Heq); pose proof (no_stray_lead_text text Ht) as H; rewrite <- Heq in H; by vm_compute in H.
Qed.
