(* ===== verification/ActionSerialization.v ===== *)
(** * The serialization of the actions of a rule list

    Models [serializeString], [resolvePendingDisplayNoneActions] and
    [serializeActions] of [ContentExtensionCompiler.cpp].  The hash maps with
    integer and string keys are finite maps; the map of pending selectors keeps
    the order of insertion, and the order in which it is visited is a parameter. *)

From stdpp Require Import base numbers option list list_numbers gmap.
From Stdlib Require Import ZArith Lia.
From S2P Require Import Prelude.
From S2P Require Import ContentExtensionRule.

(** The order in which the values of a hash map are visited. *)
Class HashMapOrder := {
  visit : forall {A}, list A -> list A;
  visit_perm {A} (l : list A) : visit l ≡ₚ l
}.

#[export] Instance insertion_order : HashMapOrder := {| visit A l := l; visit_perm A l := reflexivity l |}.

Definition characterBytes (s : WString) : list Z :=
  if is8Bit s then u8 <$> characters s else concat (le_bytes 2 <$> characters s).

Definition serializeString (actions : list Z) (s : WString) : list Z :=
  actions ++ le_bytes 4 (vec_size (characters s)) ++ [if is8Bit s then 0 else 1] ++ characterBytes s.

Record PendingDisplayNoneActions := mkPending { combinedSelectors : WString; clientLocations : list Z }.

Record Serializer := mkSerializer {
  actions : list Z;
  actionLocations : list Z;
  blockLoadActionsMap : gmap Z Z;
  blockCookiesActionsMap : gmap Z Z;
  cssDisplayNoneActionsMap : list (Trigger * PendingDisplayNoneActions);
  ignorePreviousRuleActionsMap : gmap Z Z;
  makeHTTPSActionsMap : gmap Z Z;
  notifyActionsMap : gmap (list Z * Z) Z
}.

Definition newSerializer : Serializer := mkSerializer [] [] ∅ ∅ [] ∅ ∅ ∅.

(** [actionLocations[clientLocation] = actionLocation] for every client. *)
Fixpoint setLocations (locations : list Z) (clients : list Z) (location : Z) : option (list Z) :=
  match clients with
  | [] => Some locations
  | client :: clients => locations ← vec_set locations client location; setLocations locations clients location
  end.

Fixpoint resolvePending (pendings : list PendingDisplayNoneActions) (actions locations : list Z) : option (list Z * list Z) :=
  match pendings with
  | [] => Some (actions, locations)
  | p :: pendings =>
      let actionLocation := u32 (vec_size actions) in
      let actions := serializeString (actions ++ [actionType_code CSSDisplayNoneSelector]) (combinedSelectors p) in
      locations ← setLocations locations (clientLocations p) actionLocation;
      resolvePending pendings actions locations
  end.

Section Serialize.
Context `{HashMapOrder}.

Definition resolvePendingDisplayNoneActions (s : Serializer) : option Serializer :=
  '(acts, locations) ← resolvePending (visit (snd <$> cssDisplayNoneActionsMap s)) (actions s) (actionLocations s);
  Some (mkSerializer acts locations (blockLoadActionsMap s) (blockCookiesActionsMap s) []
    (ignorePreviousRuleActionsMap s) (makeHTTPSActionsMap s) (notifyActionsMap s)).

(** The maps that a rule invalidates. *)
Definition clearMaps (s : Serializer) (actionType : ActionType) : option Serializer :=
  if bool_decide (actionType = IgnorePreviousRules) then
    s ← resolvePendingDisplayNoneActions s;
    Some (mkSerializer (actions s) (actionLocations s) ∅ ∅ [] (ignorePreviousRuleActionsMap s) ∅ ∅)
  else
    Some (mkSerializer (actions s) (actionLocations s) (blockLoadActionsMap s) (blockCookiesActionsMap s)
      (cssDisplayNoneActionsMap s) ∅ (makeHTTPSActionsMap s) (notifyActionsMap s)).

(** A rule with conditions is just pushed. *)
Definition pushAction (s : Serializer) (a : Action) : Serializer :=
  let acts := actions s ++ [actionType_code (m_type a)] in
  mkSerializer (if hasStringArgument (m_type a) then serializeString acts (default emptyBuilder (m_stringArgument a)) else acts)
    (actionLocations s ++ [u32 (vec_size (actions s))]) (blockLoadActionsMap s) (blockCookiesActionsMap s)
    (cssDisplayNoneActionsMap s) (ignorePreviousRuleActionsMap s) (makeHTTPSActionsMap s) (notifyActionsMap s).

(** [findOrMakeActionLocation]: the location, the bytes and the map. *)
Definition findOrMakeActionLocation (acts : list Z) (map : gmap Z Z) (flags : Z) (actionType : ActionType) : Z * list Z * gmap Z Z :=
  match map !! flags with
  | Some location => (location, acts, map)
  | None =>
      let location := u32 (vec_size acts) in
      (location, acts ++ [actionType_code actionType], <[ flags := location ]> map)
  end.

Definition findOrMakeStringActionLocation (acts : list Z) (map : gmap (list Z * Z) Z) (argument : WString) (flags : Z) (actionType : ActionType)
    : Z * list Z * gmap (list Z * Z) Z :=
  match map !! (characters argument, flags) with
  | Some location => (location, acts, map)
  | None =>
      let location := u32 (vec_size acts) in
      (location, serializeString (acts ++ [actionType_code actionType]) argument, <[ (characters argument, flags) := location ]> map)
  end.

(** The selector joins the pending ones of its trigger. *)
Fixpoint addPending (map : list (Trigger * PendingDisplayNoneActions)) (trigger : Trigger) (selector : WString) (client : Z)
    : list (Trigger * PendingDisplayNoneActions) :=
  match map with
  | [] => [(trigger, mkPending (appendString emptyBuilder selector) [client])]
  | (t, p) :: map =>
      if trigger_eqb t trigger then
        let builder := if bool_decide (characters (combinedSelectors p) = []) then combinedSelectors p
                       else appendCharacter (combinedSelectors p) 44 in
        (t, mkPending (appendString builder selector) (clientLocations p ++ [client])) :: map
      else (t, p) :: addPending map trigger selector client
  end.

(** One rule of the list. *)
Definition serializeRule (s : Serializer) (rule : ContentExtensionRule) : option Serializer :=
  let action := m_action rule in
  let actionType := m_type action in
  s ← clearMaps s actionType;
  if negb (bool_decide (conditions (m_trigger rule) = [])) then Some (pushAction s action)
  else
    let flags := flags (m_trigger rule) in
    let argument := default emptyBuilder (m_stringArgument action) in
    let locations := actionLocations s in
    Some
      match actionType with
      | CSSDisplayNoneSelector =>
          mkSerializer (actions s) (locations ++ [UINT32_MAX]) (blockLoadActionsMap s) (blockCookiesActionsMap s)
            (addPending (cssDisplayNoneActionsMap s) (m_trigger rule) argument (vec_size locations))
            (ignorePreviousRuleActionsMap s) (makeHTTPSActionsMap s) (notifyActionsMap s)
      | IgnorePreviousRules =>
          let '(location, acts, map) := findOrMakeActionLocation (actions s) (ignorePreviousRuleActionsMap s) flags actionType in
          mkSerializer acts (locations ++ [location]) (blockLoadActionsMap s) (blockCookiesActionsMap s)
            (cssDisplayNoneActionsMap s) map (makeHTTPSActionsMap s) (notifyActionsMap s)
      | BlockLoad =>
          let '(location, acts, map) := findOrMakeActionLocation (actions s) (blockLoadActionsMap s) flags actionType in
          mkSerializer acts (locations ++ [location]) map (blockCookiesActionsMap s)
            (cssDisplayNoneActionsMap s) (ignorePreviousRuleActionsMap s) (makeHTTPSActionsMap s) (notifyActionsMap s)
      | BlockCookies =>
          let '(location, acts, map) := findOrMakeActionLocation (actions s) (blockCookiesActionsMap s) flags actionType in
          mkSerializer acts (locations ++ [location]) (blockLoadActionsMap s) map
            (cssDisplayNoneActionsMap s) (ignorePreviousRuleActionsMap s) (makeHTTPSActionsMap s) (notifyActionsMap s)
      | MakeHTTPS =>
          let '(location, acts, map) := findOrMakeActionLocation (actions s) (makeHTTPSActionsMap s) flags actionType in
          mkSerializer acts (locations ++ [location]) (blockLoadActionsMap s) (blockCookiesActionsMap s)
            (cssDisplayNoneActionsMap s) (ignorePreviousRuleActionsMap s) map (notifyActionsMap s)
      | Notify =>
          let '(location, acts, map) := findOrMakeStringActionLocation (actions s) (notifyActionsMap s) argument flags actionType in
          mkSerializer acts (locations ++ [location]) (blockLoadActionsMap s) (blockCookiesActionsMap s)
            (cssDisplayNoneActionsMap s) (ignorePreviousRuleActionsMap s) (makeHTTPSActionsMap s) map
      end.

Fixpoint serializeRules (s : Serializer) (rules : list ContentExtensionRule) : option Serializer :=
  match rules with
  | [] => Some s
  | rule :: rules => s ← serializeRule s rule; serializeRules s rules
  end.

(** The locations and the bytes. *)
Definition serializeActions (ruleList : list ContentExtensionRule) : option (list Z * list Z) :=
  s ← serializeRules newSerializer ruleList;
  s ← resolvePendingDisplayNoneActions s;
  Some (actionLocations s, actions s).

End Serialize.
