(* ===== verification/SerializationProof.v ===== *)
(** * Serialized actions read back, in the order that the rules need

    Reading an action from where it was written gives it back; the locations of
    a rule list lead to the actions of its rules; and a rule that ignores the
    previous ones lies after every other rule before it and before every other
    rule after it, which is what sorting by location relies on. *)

From stdpp Require Import base numbers option list list_numbers gmap.
From Stdlib Require Import ZArith Lia.
From S2P Require Import Prelude.
From S2P Require Import ContentExtensionRule.
From S2P Require Import ActionSerialization.

(** ** One action *)

(** The characters have the width of the string. *)
Definition string_ok (s : WString) : Prop := Forall (λ c, 0 <= c < if is8Bit s then 256 else 65536) (characters s).

(** The bytes of an action. *)
Definition entry (t : ActionType) (arg : WString) : list Z :=
  actionType_code t :: if hasStringArgument t
    then le_bytes 4 (vec_size (characters arg)) ++ [if is8Bit arg then 0 else 1] ++ characterBytes arg else [].

Definition entry_at (bytes : list Z) (location : Z) (t : ActionType) (arg : WString) : Prop :=
  exists pre post, bytes = pre ++ entry t arg ++ post /\ vec_size pre = location.

Lemma entry_at_app bytes more location t arg : entry_at bytes location t arg -> entry_at (bytes ++ more) location t arg.
Proof. intros (pre & post & -> & Hl). exists pre, (post ++ more). by rewrite <- !app_assoc. Qed.

Lemma entry_at_new bytes t arg more : entry_at (bytes ++ entry t arg ++ more) (vec_size bytes) t arg.
Proof. by exists bytes, more. Qed.

Lemma entry_at_bound bytes location t arg : entry_at bytes location t arg -> 0 <= location < vec_size bytes.
Proof. intros (pre & post & -> & <-). unfold vec_size. rewrite !length_app. unfold entry. simpl. lia. Qed.

Lemma actionType_of_code t : actionType_of_byte (actionType_code t) = Some t.
Proof. by destruct t. Qed.

Lemma deserializeType_entry bytes location t arg : entry_at bytes location t arg -> deserializeType bytes location = Some t.
Proof.
  intros He. pose proof (entry_at_bound _ _ _ _ He) as Hb. destruct He as (pre & post & -> & <-). unfold deserializeType.
  rewrite (proj2 (Z.ltb_lt _ _)) by lia. unfold entry. simpl. rewrite vec_at_middle. simpl. apply actionType_of_code.
Qed.

Lemma wideCharactersOf_bytes cs : Forall (λ c, 0 <= c < 65536) cs -> wideCharactersOf (concat (le_bytes 2 <$> cs)) = cs.
Proof.
  induction 1 as [|c cs Hc _ IH]; [done|].
  change (concat (le_bytes 2 <$> (c :: cs))) with (le_bytes 2 c ++ concat (le_bytes 2 <$> cs)).
  assert (le_bytes 2 c = [c mod 256; c / 256 mod 256]) as E by reflexivity. rewrite E. cbn [app wideCharactersOf].
  rewrite <- E, IH, le_value_le_bytes, uwrap_small; [done|]. simpl. lia.
Qed.

Lemma length_wide cs : length (concat (le_bytes 2 <$> cs)) = (2 * length cs)%nat.
Proof. induction cs as [|c cs IH]; [done|].
  change (concat (le_bytes 2 <$> (c :: cs))) with (le_bytes 2 c ++ concat (le_bytes 2 <$> cs)).
  rewrite length_app, length_le_bytes, IH. simpl. lia.
Qed.

Lemma length_characterBytes s : length (characterBytes s) = ((if is8Bit s then 1 else 2) * length (characters s))%nat.
Proof. unfold characterBytes. destruct (is8Bit s); [rewrite length_fmap; lia|apply length_wide]. Qed.

Lemma narrow_bytes cs : Forall (λ c, 0 <= c < 256) cs -> u8 <$> cs = cs.
Proof. induction 1 as [|c cs Hc _ IH]; [done|]. cbn [fmap list_fmap]. rewrite uwrap_small by (simpl; lia). f_equal. exact IH. Qed.

(** A string that lies in the bytes. *)
Lemma deserializeString_entry pre arg post bytes :
  bytes = pre ++ le_bytes 4 (vec_size (characters arg)) ++ [if is8Bit arg then 0 else 1] ++ characterBytes arg ++ post ->
  string_ok arg -> vec_size bytes < 2 ^ 32 -> deserializeString bytes (vec_size pre) = Some arg.
Proof.
  intros Hb Hok Hsz. pose proof (length_characterBytes arg) as Hlen.
  assert (vec_size bytes = vec_size pre + 5 + Z.of_nat (length (characterBytes arg)) + vec_size post) as Es.
  { rewrite Hb. unfold vec_size. rewrite !length_app, length_le_bytes. simpl. lia. }
  pose proof (vec_size_nonneg pre). pose proof (vec_size_nonneg post). pose proof (vec_size_nonneg (characters arg)).
  assert (vec_size (characters arg) <= Z.of_nat (length (characterBytes arg))) by (unfold vec_size; destruct (is8Bit arg); lia).
  unfold deserializeString. rewrite !uwrap_small by lia. rewrite (proj2 (Z.leb_le (vec_size pre + 5) _)) by lia. cbn [negb].
  assert (read32 bytes (vec_size pre) = Some (vec_size (characters arg))) as ->.
  { unfold read32. rewrite Hb, read_bytes_mid by (by rewrite length_le_bytes). simpl. rewrite le_value_le_bytes, uwrap_small; [done|simpl; lia]. }
  cbn [mbind option_bind].
  assert (vec_at bytes (vec_size pre + 4) = Some (if is8Bit arg then 0 else 1)) as ->.
  { rewrite Hb, app_assoc. replace (vec_size pre + 4) with (vec_size (pre ++ le_bytes 4 (vec_size (characters arg))))
      by (unfold vec_size; rewrite length_app, length_le_bytes; lia). apply vec_at_middle. }
  cbn [mbind option_bind].
  assert (read_bytes bytes (vec_size pre + 5) (length (characterBytes arg)) = Some (characterBytes arg)) as Hread.
  { rewrite Hb, !app_assoc. rewrite <- (app_assoc _ (characterBytes arg)).
    replace (vec_size pre + 5) with (vec_size ((pre ++ le_bytes 4 (vec_size (characters arg))) ++ [if is8Bit arg then 0 else 1]))
      by (unfold vec_size; rewrite !length_app, length_le_bytes; simpl; lia). by apply read_bytes_mid. }
  destruct arg as [is8 cs]. unfold string_ok in Hok. cbn [is8Bit characters] in *. destruct is8; cbn [negb Z.eqb].
  - rewrite (proj2 (Z.leb_le (vec_size pre + 5 + vec_size cs) _)) by (unfold vec_size in *; lia). cbn [negb].
    replace (Z.to_nat (vec_size cs)) with (length (characterBytes (mkWString true cs))) by (unfold vec_size; lia). rewrite Hread.
    simpl. unfold characterBytes. cbn [is8Bit characters]. by rewrite narrow_bytes.
  - rewrite (proj2 (Z.leb_le (vec_size pre + 5 + vec_size cs * 2) _)) by (unfold vec_size in *; lia). cbn [negb].
    replace (Z.to_nat (vec_size cs * 2)) with (length (characterBytes (mkWString false cs))) by (unfold vec_size; lia). rewrite Hread.
    simpl. unfold characterBytes. cbn [is8Bit characters]. by rewrite wideCharactersOf_bytes.
Qed.

Definition argument_of (t : ActionType) (arg : WString) : option WString := if hasStringArgument t then Some arg else None.

Lemma deserialize_entry bytes location t arg : entry_at bytes location t arg -> string_ok arg -> vec_size bytes < 2 ^ 32 ->
  deserialize bytes location = Some (mkAction None t location (argument_of t arg)).
Proof.
  intros He Hok Hsz. unfold deserialize. rewrite (deserializeType_entry _ _ _ _ He). cbn [mbind option_bind]. unfold argument_of.
  destruct (hasStringArgument t) eqn:Et; [|done]. pose proof (entry_at_bound _ _ _ _ He) as Hb. destruct He as (pre & post & -> & <-).
  rewrite uwrap_small by lia. unfold entry in *. rewrite Et in *.
  replace (vec_size pre + 1) with (vec_size (pre ++ [actionType_code t])) by (unfold vec_size; rewrite length_app; simpl; lia).
  rewrite (deserializeString_entry (pre ++ [actionType_code t]) arg post); [done| |done|done].
  by rewrite <- !app_assoc.
Qed.

Lemma serializeString_entry acts t s : hasStringArgument t = true -> serializeString (acts ++ [actionType_code t]) s = acts ++ entry t s.
Proof. intros Ht. unfold serializeString, entry. rewrite Ht. by rewrite <- app_assoc. Qed.

(** The bytes that one action takes. *)
Lemma serializedLength_entry bytes location t arg : entry_at bytes location t arg -> vec_size bytes < 2 ^ 32 ->
  serializedLength bytes location = Some (vec_size (entry t arg)).
Proof.
  intros He Hsz. unfold serializedLength. rewrite (deserializeType_entry _ _ _ _ He). cbn [mbind option_bind].
  pose proof (length_characterBytes arg) as Hlen. unfold entry. destruct (hasStringArgument t) eqn:Et; [|done].
  destruct He as (pre & post & Hb & <-). unfold entry in Hb. rewrite Et in Hb.
  assert (vec_size bytes = vec_size pre + 6 + Z.of_nat (length (characterBytes arg)) + vec_size post) as Es.
  { rewrite Hb. unfold vec_size. repeat (simpl; rewrite ?length_app, ?length_le_bytes). simpl. lia. }
  pose proof (vec_size_nonneg pre). pose proof (vec_size_nonneg post). pose proof (vec_size_nonneg (characters arg)).
  assert (vec_size (characters arg) <= Z.of_nat (length (characterBytes arg))) by (unfold vec_size; destruct (is8Bit arg); lia).
  rewrite !(uwrap_small 32 (vec_size pre + _)) by lia. rewrite (proj2 (Z.leb_le (vec_size pre + 6) _)) by lia. cbn [negb].
  assert (bytes = (pre ++ [actionType_code t]) ++ le_bytes 4 (vec_size (characters arg)) ++ ([if is8Bit arg then 0 else 1] ++ characterBytes arg ++ post)) as Hb'.
  { rewrite Hb. by rewrite <- !app_assoc. }
  assert (read32 bytes (vec_size pre + 1) = Some (vec_size (characters arg))) as ->.
  { unfold read32. rewrite Hb'. replace (vec_size pre + 1) with (vec_size (pre ++ [actionType_code t])) by (unfold vec_size; rewrite length_app; simpl; lia).
    rewrite read_bytes_mid by (by rewrite length_le_bytes). simpl. rewrite le_value_le_bytes, uwrap_small; [done|simpl; lia]. }
  cbn [mbind option_bind].
  assert (vec_at bytes (vec_size pre + 5) = Some (if is8Bit arg then 0 else 1)) as ->.
  { rewrite Hb', app_assoc. replace (vec_size pre + 5) with (vec_size ((pre ++ [actionType_code t]) ++ le_bytes 4 (vec_size (characters arg))))
      by (unfold vec_size; rewrite !length_app, length_le_bytes; simpl; lia). apply vec_at_middle. }
  cbn [mbind option_bind]. f_equal. unfold vec_size in *. cbn [length]. rewrite ?length_app, ?length_le_bytes. cbn [length]. rewrite ?length_app. cbn [length].
  destruct (is8Bit arg); cbn [negb Z.eqb]; rewrite uwrap_small by (simpl; lia); lia.
Qed.

(** ** Rules and their locations *)

Definition isIgnore (r : ContentExtensionRule) : bool := bool_decide (m_type (m_action r) = IgnorePreviousRules).
Definition argument (r : ContentExtensionRule) : WString := default emptyBuilder (m_stringArgument (m_action r)).
Definition rule_ok (r : ContentExtensionRule) : Prop := string_ok (argument r).

(** The selector is one of those that commas separate. *)
Definition selectorOf (selector combined : WString) : Prop :=
  characters selector = [] \/
  exists pre post, characters combined = pre ++ characters selector ++ post /\
    (pre = [] \/ exists l, pre = l ++ [44]) /\ (post = [] \/ exists l, post = 44 :: l).

(** The string that was written for the rule. *)
Definition writtenFor (r : ContentExtensionRule) (arg : WString) : Prop :=
  if bool_decide (m_type (m_action r) = CSSDisplayNoneSelector /\ conditions (m_trigger r) = [])
  then selectorOf (argument r) arg else characters arg = characters (argument r).

Definition pendingIds (s : Serializer) : list Z := concat ((λ e, clientLocations e.2) <$> cssDisplayNoneActionsMap s).

Definition resolvedAt (s : Serializer) (i : nat) (r : ContentExtensionRule) : Prop :=
  exists location arg, actionLocations s !! i = Some location /\ entry_at (actions s) location (m_type (m_action r)) arg /\
    string_ok arg /\ (hasStringArgument (m_type (m_action r)) = true -> writtenFor r arg).

(** Every rule of the kind is at a location before this one. *)
Definition after (ignore : bool) (rules : list ContentExtensionRule) (s : Serializer) (location : Z) : Prop :=
  forall k r, rules !! k = Some r -> isIgnore r = ignore ->
    Z.of_nat k ∉ pendingIds s /\ forall l, actionLocations s !! k = Some l -> l < location.

(** What the maps of the serializer promise. *)
Definition map_ok (ignore : bool) (t : ActionType) (rules : list ContentExtensionRule) (s : Serializer) (m : gmap Z Z) : Prop :=
  forall f location, m !! f = Some location -> entry_at (actions s) location t emptyBuilder /\ after ignore rules s location.

Record inv (rules : list ContentExtensionRule) (s : Serializer) : Prop := {
  v_length : length (actionLocations s) = length rules;
  v_resolved i r : rules !! i = Some r -> Z.of_nat i ∉ pendingIds s -> resolvedAt s i r;
  v_pending e c : e ∈ cssDisplayNoneActionsMap s -> c ∈ clientLocations e.2 -> exists i r, c = Z.of_nat i /\ rules !! i = Some r /\
    m_type (m_action r) = CSSDisplayNoneSelector /\ conditions (m_trigger r) = [] /\ selectorOf (argument r) (combinedSelectors e.2);
  v_strings e : e ∈ cssDisplayNoneActionsMap s -> string_ok (combinedSelectors e.2);
  v_order i j ri rj li lj : (i < j)%nat -> rules !! i = Some ri -> rules !! j = Some rj -> isIgnore ri <> isIgnore rj ->
    Z.of_nat i ∉ pendingIds s -> Z.of_nat j ∉ pendingIds s ->
    actionLocations s !! i = Some li -> actionLocations s !! j = Some lj -> li < lj;
  v_after i j rj : (i < j)%nat -> rules !! j = Some rj -> Z.of_nat i ∈ pendingIds s -> isIgnore rj = false;
  v_blockLoad : map_ok true BlockLoad rules s (blockLoadActionsMap s);
  v_blockCookies : map_ok true BlockCookies rules s (blockCookiesActionsMap s);
  v_makeHTTPS : map_ok true MakeHTTPS rules s (makeHTTPSActionsMap s);
  v_notify c f location : notifyActionsMap s !! (c, f) = Some location ->
    (exists arg, entry_at (actions s) location Notify arg /\ string_ok arg /\ characters arg = c) /\ after true rules s location;
  v_ignore : map_ok false IgnorePreviousRules rules s (ignorePreviousRuleActionsMap s)
}.

Lemma elem_of_pendingIds s c : c ∈ pendingIds s <-> exists e, e ∈ cssDisplayNoneActionsMap s /\ c ∈ clientLocations e.2.
Proof.
  unfold pendingIds. generalize (cssDisplayNoneActionsMap s). induction l as [|e l IH]; simpl.
  - split; [by intros ?%elem_of_nil|by intros (e & He%elem_of_nil & _)].
  - rewrite elem_of_app, IH. setoid_rewrite elem_of_cons. clear. naive_solver.
Qed.

Lemma ignore_not_pending rules s k r : inv rules s -> rules !! k = Some r -> isIgnore r = true -> Z.of_nat k ∉ pendingIds s.
Proof.
  intros Hi Hk Hr (e & He & Hc)%elem_of_pendingIds. destruct (v_pending _ _ Hi e _ He Hc) as (i & r' & Ei & Hk' & Ht & _).
  apply Nat2Z.inj in Ei as <-. simplify_eq. unfold isIgnore in Hr. by rewrite Ht in Hr.
Qed.

Lemma resolved_bound rules s i r l : inv rules s -> rules !! i = Some r -> Z.of_nat i ∉ pendingIds s -> actionLocations s !! i = Some l ->
  l < vec_size (actions s).
Proof.
  intros Hi Hr Hp Hl. destruct (v_resolved _ _ Hi i r Hr Hp) as (l' & arg & Hl' & He & _). simplify_eq. apply entry_at_bound in He. lia.
Qed.

(** The end of the bytes is after everything that is resolved. *)
Lemma end_after ignore rules s : inv rules s -> (ignore = false -> pendingIds s = []) -> after ignore rules s (vec_size (actions s)).
Proof.
  intros Hi Hp k r Hk Hr. assert (Z.of_nat k ∉ pendingIds s) as Hn.
  { destruct ignore; [exact (ignore_not_pending rules s k r Hi Hk Hr)|]. rewrite Hp by done. apply not_elem_of_nil. }
  split; [done|]. intros l Hl. exact (resolved_bound rules s k r l Hi Hk Hn Hl).
Qed.

(** ** Pending selectors *)

Lemma setLocations_spec clients locations location : Forall (λ c, 0 <= c < vec_size locations) clients ->
  exists locations', setLocations locations clients location = Some locations' /\ length locations' = length locations /\
    forall i, locations' !! i = if decide (Z.of_nat i ∈ clients) then Some location else locations !! i.
Proof.
  revert locations. induction clients as [|c clients IH]; intros locations Hc; cbn [setLocations].
  - exists locations. split_and!; [done..|]. intros i. by rewrite decide_False by apply not_elem_of_nil.
  - apply Forall_cons in Hc as [Hc Hcs]. destruct (vec_set_is_Some locations c location Hc) as [l1 H1]. rewrite H1. cbn [mbind option_bind].
    apply vec_set_Some in H1 as [_ ->]. destruct (IH (<[ Z.to_nat c := location ]> locations)) as (l2 & H2 & Hlen & Hl2).
    { eapply Forall_impl; [exact Hcs|]. intros d. unfold vec_size. by rewrite length_insert. }
    exists l2. rewrite length_insert in Hlen. split_and!; [done..|]. intros i. rewrite Hl2. destruct (decide (Z.of_nat i ∈ clients)).
    { by rewrite decide_True by (by right). }
    unfold vec_size in Hc. destruct (decide (Z.of_nat i = c)) as [<-|Hne].
    + rewrite decide_True by left. rewrite Nat2Z.id, list_lookup_insert_eq by lia. done.
    + rewrite decide_False by (rewrite elem_of_cons; tauto). rewrite list_lookup_insert_ne by lia. done.
Qed.

Lemma resolvePending_spec pendings acts locations :
  Forall (λ p, Forall (λ c, 0 <= c < vec_size locations) (clientLocations p)) pendings ->
  exists acts' locations', resolvePending pendings acts locations = Some (acts', locations') /\ acts `prefix_of` acts' /\
    length locations' = length locations /\
    (vec_size acts' < 2 ^ 32 -> forall i,
      (Z.of_nat i ∉ concat (clientLocations <$> pendings) -> locations' !! i = locations !! i) /\
      (Z.of_nat i ∈ concat (clientLocations <$> pendings) -> exists p l, p ∈ pendings /\ Z.of_nat i ∈ clientLocations p /\ locations' !! i = Some l
        /\ entry_at acts' l CSSDisplayNoneSelector (combinedSelectors p) /\ vec_size acts <= l)).
Proof.
  revert acts locations. induction pendings as [|p pendings IH]; intros acts locations Hall; cbn [resolvePending].
  { exists acts, locations. split_and!; [done..|]. intros _ i. split; [done|]. by intros ?%elem_of_nil. }
  apply Forall_cons in Hall as [Hp Hps]. rewrite serializeString_entry by done. set (acts1 := acts ++ entry _ _).
  destruct (setLocations_spec _ _ (u32 (vec_size acts)) Hp) as (l1 & -> & Hlen1 & Hl1). cbn [mbind option_bind].
  destruct (IH acts1 l1) as (acts' & locations' & Hr & Hpre & Hlen & Hspec).
  { eapply Forall_impl; [exact Hps|]. intros q. unfold vec_size. by rewrite Hlen1. }
  assert (acts `prefix_of` acts1) as Hpre1 by (by apply prefix_app_r).
  exists acts', locations'. split_and!; [done|by etrans|congruence|]. intros Hsz i. destruct (Hspec Hsz i) as [Hno Hyes].
  change (concat (clientLocations <$> (p :: pendings))) with (clientLocations p ++ concat (clientLocations <$> pendings)).
  rewrite elem_of_app. assert (vec_size acts <= vec_size acts1 <= vec_size acts') as Hle.
  { apply prefix_length in Hpre, Hpre1. unfold vec_size. lia. }
  split.
  - intros Hn. rewrite Hno, Hl1, decide_False by tauto. done.
  - intros Hin. destruct (decide (Z.of_nat i ∈ concat (clientLocations <$> pendings))) as [Hi|Hi].
    + destruct (Hyes Hi) as (q & l & Hq & Hc & Hl & He & Hb). exists q, l. split_and!; [by right|done..|lia].
    + exists p, (vec_size acts). rewrite (Hno Hi), Hl1, decide_True by tauto. pose proof (vec_size_nonneg acts).
      rewrite uwrap_small by (simpl; lia). split_and!; [left|tauto|done| |lia]. destruct Hpre as [k ->].
      unfold acts1. rewrite <- app_assoc. apply entry_at_new.
Qed.

(** ** Joined selectors *)

Definition joined (b s : WString) : WString :=
  appendString (if bool_decide (characters b = []) then b else appendCharacter b 44) s.

Lemma characters_joined b s : characters (joined b s) = if bool_decide (characters b = []) then characters s else characters b ++ 44 :: characters s.
Proof.
  unfold joined, appendString. destruct (characters s) as [|c cs] eqn:Es.
  - by case_bool_decide.
  - destruct (decide (characters b = [])) as [Hb|Hb].
    + rewrite !(bool_decide_true _ Hb). done.
    + rewrite !(bool_decide_false _ Hb). cbn [characters appendCharacter is8Bit].
      rewrite bool_decide_false by (by destruct (characters b)). cbn [characters]. by rewrite <- app_assoc.
Qed.

Lemma high_bits_clear c : 0 <= c -> Z.land c (Z.lnot 255) = 0 -> c < 256.
Proof.
  intros H0 H. rewrite <- Z.ldiff_land in H. change 255 with (Z.ones 8) in H. rewrite Z.ldiff_ones_r in H by lia.
  apply Z.shiftl_eq_0_iff in H; [|lia]. rewrite Z.shiftr_div_pow2 in H by lia. change (2 ^ 8) with 256 in H. apply Z.div_small_iff in H; lia.
Qed.

Lemma string_ok_widen b b' cs : string_ok (mkWString b cs) -> (b' = true -> b = true) -> string_ok (mkWString b' cs).
Proof.
  unfold string_ok. cbn [is8Bit characters]. intros Hf Hi. eapply Forall_impl; [exact Hf|]. intros c. simpl.
  destruct b, b'; lia.
Qed.

Lemma string_ok_app is8 a b : string_ok (mkWString is8 a) -> string_ok (mkWString is8 b) -> string_ok (mkWString is8 (a ++ b)).
Proof. unfold string_ok. cbn [is8Bit characters]. intros. by apply Forall_app. Qed.

Lemma appendString_ok b s : string_ok b -> string_ok s -> string_ok (appendString b s).
Proof.
  intros Hb Hs. unfold appendString. destruct s as [i8 [|c cs]]; cbn [characters is8Bit]; [done|].
  case_bool_decide; [done|]. apply string_ok_app.
  - destruct b as [b8 bs]. cbn [is8Bit characters]. eapply string_ok_widen; [exact Hb|]. by intros [? _]%andb_true_iff.
  - destruct i8; cbn [orb].
    + eapply string_ok_widen; [exact Hs|]. done.
    + case_bool_decide as Hcs; cbn [andb].
      * subst cs. destruct (Z.land c (Z.lnot 255) =? 0) eqn:Ec; [|eapply string_ok_widen; [exact Hs|]; by intros [_ ?]%andb_true_iff].
        apply Z.eqb_eq in Ec. unfold string_ok in Hs |- *. cbn [is8Bit characters] in *. apply Forall_inv in Hs. apply Forall_singleton. simpl in Hs |- *.
        pose proof (high_bits_clear c ltac:(lia) Ec). destruct (is8Bit b); cbn [andb]; lia.
      * eapply string_ok_widen; [exact Hs|]. by intros [_ ?]%andb_true_iff.
Qed.

Lemma joined_ok b s : string_ok b -> string_ok s -> string_ok (joined b s).
Proof.
  intros Hb Hs. apply appendString_ok; [|done]. case_bool_decide; [done|]. unfold appendCharacter. destruct b as [b8 bs]. cbn [is8Bit characters].
  apply string_ok_app; [done|]. unfold string_ok. cbn [is8Bit characters]. apply Forall_singleton. destruct b8; by vm_compute.
Qed.

Lemma selectorOf_new b s : selectorOf s (joined b s).
Proof.
  right. rewrite characters_joined. case_bool_decide.
  - exists [], []. rewrite app_nil_r. tauto.
  - exists (characters b ++ [44]), []. rewrite app_nil_r, <- app_assoc. split_and!; [done|right; by eexists|tauto].
Qed.

Lemma selectorOf_old old b s : selectorOf old b -> selectorOf old (joined b s).
Proof.
  intros [Ho|(pre & post & Hb & Hpre & Hpost)]; [by left|]. unfold selectorOf. rewrite characters_joined. case_bool_decide as Hn.
  - left. rewrite Hn in Hb. symmetry in Hb. apply app_eq_nil in Hb as [_ Hb]. by apply app_eq_nil in Hb as [Hb _].
  - right. exists pre, (post ++ 44 :: characters s). rewrite Hb, <- !app_assoc. split_and!; [done|done|]. right.
    destruct Hpost as [->|[l ->]]; [by eexists|]. by exists (l ++ 44 :: characters s).
Qed.

(** What joins a map of pending selectors. *)
Lemma addPending_spec m trigger selector client e c : e ∈ addPending m trigger selector client -> c ∈ clientLocations e.2 ->
  (c = client /\ selectorOf selector (combinedSelectors e.2)) \/
  exists e0, e0 ∈ m /\ c ∈ clientLocations e0.2 /\ forall old, selectorOf old (combinedSelectors e0.2) -> selectorOf old (combinedSelectors e.2).
Proof.
  induction m as [|[t p] m IH]; cbn [addPending].
  - intros ->%list_elem_of_singleton ->%list_elem_of_singleton. left. split; [done|]. apply (selectorOf_new emptyBuilder selector).
  - destruct (trigger_eqb t trigger).
    + intros [->|He]%elem_of_cons; cbn [snd clientLocations combinedSelectors].
      * intros [Hc| ->%list_elem_of_singleton]%elem_of_app; [|left; split; [done|]; apply (selectorOf_new (combinedSelectors p) selector)].
        right. exists (t, p). split_and!; [left|done|]. intros old. apply (selectorOf_old old (combinedSelectors p) selector).
      * intros Hc. right. exists e. split_and!; [by right|done|done].
    + intros [->|He]%elem_of_cons Hc.
      * right. exists (t, p). split_and!; [left|done|done].
      * destruct (IH He Hc) as [?|(e0 & He0 & ? & ?)]; [by left|]. right. exists e0. split_and!; [by right|done|done].
Qed.

Lemma addPending_strings m trigger selector client : string_ok selector -> (forall e, e ∈ m -> string_ok (combinedSelectors e.2)) ->
  forall e, e ∈ addPending m trigger selector client -> string_ok (combinedSelectors e.2).
Proof.
  intros Hs. induction m as [|[t p] m IH]; cbn [addPending]; intros Hm e.
  - intros ->%list_elem_of_singleton. apply (joined_ok emptyBuilder selector); [by apply Forall_nil|done].
  - destruct (trigger_eqb t trigger); intros [->|He]%elem_of_cons; cbn [snd combinedSelectors].
    + apply (joined_ok (combinedSelectors p) selector); [|done]. exact (Hm (t, p) ltac:(left)).
    + apply Hm. by right.
    + exact (Hm (t, p) ltac:(left)).
    + apply IH; [|done]. intros e0 He0. apply Hm. by right.
Qed.

Lemma addPending_ids m trigger selector client c :
  c ∈ concat ((λ e, clientLocations e.2) <$> addPending m trigger selector client) <-> c = client \/ c ∈ concat ((λ e, clientLocations e.2) <$> m).
Proof.
  induction m as [|[t p] m IH]; cbn [addPending].
  - simpl. rewrite list_elem_of_singleton. split; [by left|]. intros [?|?%elem_of_nil]; done.
  - destruct (trigger_eqb t trigger); cbn [fmap list_fmap concat snd clientLocations]; rewrite !elem_of_app.
    + rewrite list_elem_of_singleton. tauto.
    + cbn [fmap list_fmap] in IH. rewrite IH. tauto.
Qed.

(** ** One more rule *)

(** The state after a rule got its location. *)
Record snoc (rules : list ContentExtensionRule) (s s' : Serializer) (location : Z) : Prop := {
  sn_prefix : actions s `prefix_of` actions s';
  sn_locations : actionLocations s' = actionLocations s ++ [location];
  sn_pending k : (k < length rules)%nat -> Z.of_nat k ∈ pendingIds s' <-> Z.of_nat k ∈ pendingIds s
}.

Lemma entry_at_prefix bytes bytes' location t arg : bytes `prefix_of` bytes' -> entry_at bytes location t arg -> entry_at bytes' location t arg.
Proof. intros [more ->]. apply entry_at_app. Qed.

Lemma snoc_lookup rules s s' l k : inv rules s -> snoc rules s s' l -> (k < length rules)%nat -> actionLocations s' !! k = actionLocations s !! k.
Proof. intros Hi Hn Hk. rewrite (sn_locations _ _ _ _ Hn), lookup_app_l; [done|]. by rewrite (v_length _ _ Hi). Qed.

Lemma snoc_lookup_new rules s s' l : inv rules s -> snoc rules s s' l -> actionLocations s' !! length rules = Some l.
Proof. intros Hi Hn. rewrite (sn_locations _ _ _ _ Hn), lookup_app_r, (v_length _ _ Hi), Nat.sub_diag by (by rewrite (v_length _ _ Hi)). done. Qed.

Lemma after_snoc rules r s s' l ignore location : inv rules s -> snoc rules s s' l -> isIgnore r <> ignore ->
  after ignore rules s location -> after ignore (rules ++ [r]) s' location.
Proof.
  intros Hi Hn Hr Ha k rk Hk Hrk. apply lookup_snoc_Some in Hk as [[Hk Hl]|[-> <-]]; [|done].
  destruct (Ha k rk Hl Hrk) as [Hp Hb]. rewrite (sn_pending _ _ _ _ Hn), (snoc_lookup _ _ _ _ _ Hi Hn) by done. done.
Qed.

Lemma map_ok_snoc rules r s s' l ignore t m : inv rules s -> snoc rules s s' l -> (isIgnore r = ignore -> m = ∅) ->
  map_ok ignore t rules s m -> map_ok ignore t (rules ++ [r]) s' m.
Proof.
  intros Hi Hn Hr Hm f location Hf. destruct (Hm f location Hf) as [He Ha].
  split; [exact (entry_at_prefix _ _ _ _ _ (sn_prefix _ _ _ _ Hn) He)|].
  apply (after_snoc rules r s s' l); [done|done| |done]. intros E. by rewrite (Hr E), lookup_empty in Hf.
Qed.

Lemma map_ok_insert rules r s s' l ignore t m f : inv rules s -> snoc rules s s' l -> isIgnore r <> ignore ->
  entry_at (actions s') l t emptyBuilder -> after ignore rules s l -> map_ok ignore t rules s m -> map_ok ignore t (rules ++ [r]) s' (<[ f := l ]> m).
Proof.
  intros Hi Hn Hr He Ha Hm g location [[<- <-]|[_ Hg]]%lookup_insert_Some.
  - split; [done|]. by apply (after_snoc rules r s s' l).
  - by apply (map_ok_snoc rules r s s' l ignore t m Hi Hn) with (f := g).
Qed.

(** Everything that a rule leaves as it was, and what is left to show for it. *)
Lemma inv_snoc rules r s s' l : inv rules s -> snoc rules s s' l ->
  (Z.of_nat (length rules) ∉ pendingIds s' -> resolvedAt s' (length rules) r /\ after (negb (isIgnore r)) rules s l) ->
  (forall e c, e ∈ cssDisplayNoneActionsMap s' -> c ∈ clientLocations e.2 -> exists i r', c = Z.of_nat i /\ (rules ++ [r]) !! i = Some r' /\
    m_type (m_action r') = CSSDisplayNoneSelector /\ conditions (m_trigger r') = [] /\ selectorOf (argument r') (combinedSelectors e.2)) ->
  (forall e, e ∈ cssDisplayNoneActionsMap s' -> string_ok (combinedSelectors e.2)) ->
  (isIgnore r = true -> pendingIds s' = []) ->
  map_ok true BlockLoad (rules ++ [r]) s' (blockLoadActionsMap s') ->
  map_ok true BlockCookies (rules ++ [r]) s' (blockCookiesActionsMap s') ->
  map_ok true MakeHTTPS (rules ++ [r]) s' (makeHTTPSActionsMap s') ->
  (forall c f location, notifyActionsMap s' !! (c, f) = Some location ->
    (exists arg, entry_at (actions s') location Notify arg /\ string_ok arg /\ characters arg = c) /\ after true (rules ++ [r]) s' location) ->
  map_ok false IgnorePreviousRules (rules ++ [r]) s' (ignorePreviousRuleActionsMap s') ->
  inv (rules ++ [r]) s'.
Proof.
  intros Hi Hn Hnew Hpend Hstr Hign Hb Hc Hm Hno Hig. constructor; try done.
  - rewrite (sn_locations _ _ _ _ Hn), !length_app, (v_length _ _ Hi). done.
  - intros i r' [[Hlt Hr]|[-> <-]]%lookup_snoc_Some Hp; [|by apply Hnew].
    rewrite (sn_pending _ _ _ _ Hn) in Hp by done. destruct (v_resolved _ _ Hi i r' Hr Hp) as (l' & arg & Hl & He & Hs & Hw).
    exists l', arg. rewrite (snoc_lookup _ _ _ _ _ Hi Hn) by done. split_and!; [done| |done..].
    exact (entry_at_prefix _ _ _ _ _ (sn_prefix _ _ _ _ Hn) He).
  - intros i j ri rj li lj Hij Hri Hrj Hne Hpi Hpj Hli Hlj. apply lookup_snoc_Some in Hrj as [[Hlt Hrj]|[-> <-]].
    + rewrite lookup_app_l in Hri by lia. rewrite (snoc_lookup _ _ _ _ i Hi Hn) in Hli by lia. rewrite (snoc_lookup _ _ _ _ j Hi Hn) in Hlj by lia.
      rewrite (sn_pending _ _ _ _ Hn i) in Hpi by lia. rewrite (sn_pending _ _ _ _ Hn j) in Hpj by lia. exact (v_order _ _ Hi i j ri rj li lj Hij Hri Hrj Hne Hpi Hpj Hli Hlj).
    + destruct (Hnew Hpj) as [_ Ha]. rewrite lookup_app_l in Hri by lia. rewrite (snoc_lookup_new _ _ _ _ Hi Hn) in Hlj. injection Hlj as <-.
      rewrite (snoc_lookup _ _ _ _ _ Hi Hn) in Hli by lia. apply (Ha i ri Hri); [|done]. by destruct (isIgnore ri), (isIgnore r).
  - intros i j rj Hij Hrj Hp. apply lookup_snoc_Some in Hrj as [[Hlt Hrj]|[-> <-]].
    + rewrite (sn_pending _ _ _ _ Hn) in Hp by lia. exact (v_after _ _ Hi i j rj Hij Hrj Hp).
    + destruct (isIgnore r); [|done]. rewrite Hign in Hp by done. by apply elem_of_nil in Hp.
Qed.

(** A rule whose action is now in the bytes, at a new place or where the map had it. *)
Lemma inv_resolved rules r s s' l arg : inv rules s -> snoc rules s s' l -> cssDisplayNoneActionsMap s' = cssDisplayNoneActionsMap s ->
  (isIgnore r = true -> cssDisplayNoneActionsMap s = []) ->
  entry_at (actions s') l (m_type (m_action r)) arg -> string_ok arg -> (hasStringArgument (m_type (m_action r)) = true -> writtenFor r arg) ->
  after (negb (isIgnore r)) rules s l ->
  map_ok true BlockLoad (rules ++ [r]) s' (blockLoadActionsMap s') ->
  map_ok true BlockCookies (rules ++ [r]) s' (blockCookiesActionsMap s') ->
  map_ok true MakeHTTPS (rules ++ [r]) s' (makeHTTPSActionsMap s') ->
  (forall c f location, notifyActionsMap s' !! (c, f) = Some location ->
    (exists arg, entry_at (actions s') location Notify arg /\ string_ok arg /\ characters arg = c) /\ after true (rules ++ [r]) s' location) ->
  map_ok false IgnorePreviousRules (rules ++ [r]) s' (ignorePreviousRuleActionsMap s') ->
  inv (rules ++ [r]) s'.
Proof.
  intros Hi Hn Ecss Hign He Hs Hw Ha H1 H2 H3 H4 H5. apply (inv_snoc rules r s s' l); try done.
  - intros _. split; [|done]. exists l, arg. split_and!; [|done..]. exact (snoc_lookup_new _ _ _ _ Hi Hn).
  - rewrite Ecss. intros e c He' Hc. destruct (v_pending _ _ Hi e c He' Hc) as (i & r' & -> & Hl & ?). exists i, r'. split_and!; [done| |naive_solver..].
    by apply lookup_app_l_Some.
  - rewrite Ecss. exact (v_strings _ _ Hi).
  - intros E. unfold pendingIds. by rewrite Ecss, (Hign E).
Qed.

(** The notifications that the map has. *)
Lemma notify_snoc rules r s s' l : inv rules s -> snoc rules s s' l -> (isIgnore r = true -> notifyActionsMap s = ∅) ->
  forall c f location, notifyActionsMap s !! (c, f) = Some location ->
    (exists arg, entry_at (actions s') location Notify arg /\ string_ok arg /\ characters arg = c) /\ after true (rules ++ [r]) s' location.
Proof.
  intros Hi Hn Hr c f location Hf. destruct (v_notify _ _ Hi c f location Hf) as [(arg & He & Hok & Hc) Ha]. split.
  - exists arg. split_and!; [|done..]. exact (entry_at_prefix _ _ _ _ _ (sn_prefix _ _ _ _ Hn) He).
  - apply (after_snoc rules r s s' l); [done|done| |done]. intros E. by rewrite (Hr E), lookup_empty in Hf.
Qed.

(** A map is looked up, or gets an entry at the end of the bytes. *)
Lemma findOrMake_spec acts m f t l acts' m' rules s ignore : findOrMakeActionLocation acts m f t = (l, acts', m') ->
  hasStringArgument t = false -> acts = actions s -> map_ok ignore t rules s m -> after ignore rules s (vec_size acts) -> vec_size acts' < 2 ^ 32 ->
  acts `prefix_of` acts' /\ entry_at acts' l t emptyBuilder /\ after ignore rules s l /\ (m' = m \/ m' = <[ f := l ]> m).
Proof.
  unfold findOrMakeActionLocation. intros Hf Ht -> Hm Ha Hsz. destruct (m !! f) as [l0|] eqn:El; simplify_eq.
  - destruct (Hm f l El) as [He Ha']. split_and!; [done..|by left].
  - assert (actions s `prefix_of` actions s ++ [actionType_code t]) as Hp by (by apply prefix_app_r).
    pose proof (vec_size_nonneg (actions s)). assert (vec_size (actions s) < 2 ^ 32) by (pose proof (vec_size_prefix _ _ Hp); lia).
    rewrite uwrap_small by (simpl; lia). split_and!; [done| |done|by right].
    pose proof (entry_at_new (actions s) t emptyBuilder []) as He. rewrite app_nil_r in He. unfold entry in He. by rewrite Ht in He.
Qed.

Lemma findOrMakeString_spec acts m arg f l acts' m' rules s : findOrMakeStringActionLocation acts m arg f Notify = (l, acts', m') ->
  acts = actions s -> string_ok arg -> inv rules s -> m = notifyActionsMap s -> vec_size acts' < 2 ^ 32 ->
  acts `prefix_of` acts' /\ (exists arg', entry_at acts' l Notify arg' /\ string_ok arg' /\ characters arg' = characters arg) /\ after true rules s l /\
  (m' = m \/ m' = <[ (characters arg, f) := l ]> m).
Proof.
  unfold findOrMakeStringActionLocation. intros Hf -> Hok Hi -> Hsz. destruct (notifyActionsMap s !! _) as [l0|] eqn:El; simplify_eq.
  - destruct (v_notify _ _ Hi _ _ _ El) as [He Ha]. split_and!; [done..|by left].
  - rewrite serializeString_entry in * by done. assert (actions s `prefix_of` actions s ++ entry Notify arg) as Hp by (by apply prefix_app_r).
    pose proof (vec_size_nonneg (actions s)). assert (vec_size (actions s) < 2 ^ 32) by (pose proof (vec_size_prefix _ _ Hp); lia).
    rewrite uwrap_small by (simpl; lia). split_and!; [done| |by apply end_after|by right]. exists arg. split_and!; [|done..].
    pose proof (entry_at_new (actions s) Notify arg []) as He. by rewrite app_nil_r in He.
Qed.

(** ** Every rule *)

Section Serialized.
Context `{HashMapOrder}.

(** The clients that wait for a location are rules that have been visited. *)
Definition clients_ok (s : Serializer) : Prop := Forall (λ c, 0 <= c < vec_size (actionLocations s)) (pendingIds s).

Lemma clients_visit s : clients_ok s ->
  Forall (λ p, Forall (λ c, 0 <= c < vec_size (actionLocations s)) (clientLocations p)) (visit (snd <$> cssDisplayNoneActionsMap s)).
Proof.
  intros Hc. rewrite visit_perm. apply Forall_fmap, Forall_forall. intros e He. apply Forall_forall. intros c Hin.
  apply (proj1 (Forall_forall _ _) Hc), elem_of_pendingIds. by exists e.
Qed.

Lemma elem_of_concat_clients (ps : list PendingDisplayNoneActions) c : c ∈ concat (clientLocations <$> ps) <-> exists p, p ∈ ps /\ c ∈ clientLocations p.
Proof.
  induction ps as [|p ps IH]; simpl.
  - split; [by intros ?%elem_of_nil|by intros (e & He%elem_of_nil & _)].
  - rewrite elem_of_app, IH. setoid_rewrite elem_of_cons. clear. naive_solver.
Qed.

Lemma elem_of_visited s p : p ∈ visit (snd <$> cssDisplayNoneActionsMap s) <-> exists e, e ∈ cssDisplayNoneActionsMap s /\ p = e.2.
Proof. rewrite visit_perm. rewrite list_elem_of_fmap. clear. naive_solver. Qed.

(** Everything that resolving keeps, and what it resolves. *)
Lemma resolve_spec s : clients_ok s -> exists s', resolvePendingDisplayNoneActions s = Some s' /\ actions s `prefix_of` actions s' /\
  length (actionLocations s') = length (actionLocations s) /\ cssDisplayNoneActionsMap s' = [] /\
  blockLoadActionsMap s' = blockLoadActionsMap s /\ blockCookiesActionsMap s' = blockCookiesActionsMap s /\ makeHTTPSActionsMap s' = makeHTTPSActionsMap s /\
  notifyActionsMap s' = notifyActionsMap s /\ ignorePreviousRuleActionsMap s' = ignorePreviousRuleActionsMap s /\
  (vec_size (actions s') < 2 ^ 32 -> forall i,
    (Z.of_nat i ∉ pendingIds s -> actionLocations s' !! i = actionLocations s !! i) /\
    (Z.of_nat i ∈ pendingIds s -> exists e l, e ∈ cssDisplayNoneActionsMap s /\ Z.of_nat i ∈ clientLocations e.2 /\ actionLocations s' !! i = Some l
      /\ entry_at (actions s') l CSSDisplayNoneSelector (combinedSelectors e.2) /\ vec_size (actions s) <= l)).
Proof.
  intros Hc. unfold resolvePendingDisplayNoneActions.
  destruct (resolvePending_spec _ (actions s) (actionLocations s) (clients_visit s Hc)) as (acts' & locs' & -> & Hp & Hl & Hspec).
  cbn [mbind option_bind]. eexists. split; [reflexivity|]. cbn [actions actionLocations cssDisplayNoneActionsMap blockLoadActionsMap blockCookiesActionsMap makeHTTPSActionsMap notifyActionsMap ignorePreviousRuleActionsMap].
  split_and!; try done. intros Hsz i. destruct (Hspec Hsz i) as [Hno Hyes].
  assert (Z.of_nat i ∈ concat (clientLocations <$> visit (snd <$> cssDisplayNoneActionsMap s)) <-> Z.of_nat i ∈ pendingIds s) as E.
  { rewrite elem_of_concat_clients, elem_of_pendingIds. setoid_rewrite elem_of_visited. clear. naive_solver. }
  rewrite E in Hno, Hyes. split; [done|]. intros Hin. destruct (Hyes Hin) as (p & l & Hp' & ?). apply elem_of_visited in Hp' as (e & He & ->). by exists e, l.
Qed.

Lemma inv_clients rules s : inv rules s -> clients_ok s.
Proof.
  intros Hi. apply Forall_forall. intros c (e & He & Hc)%elem_of_pendingIds. destruct (v_pending _ _ Hi e c He Hc) as (i & r & -> & Hr & _).
  apply lookup_lt_Some in Hr. unfold vec_size. rewrite (v_length _ _ Hi). lia.
Qed.

Lemma pendingIds_nil s : cssDisplayNoneActionsMap s = [] -> pendingIds s = [].
Proof. intros E. unfold pendingIds. by rewrite E. Qed.

Lemma resolve_inv rules s s' : inv rules s -> resolvePendingDisplayNoneActions s = Some s' -> vec_size (actions s') < 2 ^ 32 -> inv rules s'.
Proof.
  intros Hi Hr Hsz. destruct (resolve_spec s (inv_clients _ _ Hi)) as (s0 & Hr' & Hpre & Hlen & Ecss & E1 & E2 & E3 & E4 & E5 & Hspec).
  simplify_eq. pose proof (pendingIds_nil _ Ecss) as Enil. specialize (Hspec Hsz).
  assert (forall ignore location, after ignore rules s location -> after ignore rules s' location) as Hafter.
  { intros ignore location Ha k r Hk Hrk. destruct (Ha k r Hk Hrk) as [Hn Hb]. rewrite Enil. split; [apply not_elem_of_nil|].
    by rewrite (proj1 (Hspec k) Hn). }
  assert (forall ignore t m, map_ok ignore t rules s m -> map_ok ignore t rules s' m) as Hmap.
  { intros ignore t m Hm f location Hf. destruct (Hm f location Hf) as [He Ha]. split; [exact (entry_at_prefix _ _ _ _ _ Hpre He)|by apply Hafter]. }
  constructor; rewrite ?E1, ?E2, ?E3, ?E5.
  - by rewrite Hlen, (v_length _ _ Hi).
  - intros i r Hir _. destruct (decide (Z.of_nat i ∈ pendingIds s)) as [Hp|Hp].
    + destruct (proj2 (Hspec i) Hp) as (e & l & He & Hc & Hl & Hent & _). exists l, (combinedSelectors e.2).
      destruct (v_pending _ _ Hi e _ He Hc) as (i' & r' & Ei & Hr' & Ht & Hcond & Hsel). apply Nat2Z.inj in Ei as <-. simplify_eq.
      rewrite Ht. split_and!; [done..|exact (v_strings _ _ Hi e He)|]. intros _. unfold writtenFor. by rewrite bool_decide_true.
    + destruct (v_resolved _ _ Hi i r Hir Hp) as (l & arg & Hl & He & Hok). exists l, arg. rewrite (proj1 (Hspec i) Hp). split_and!; [done| |naive_solver..].
      exact (entry_at_prefix _ _ _ _ _ Hpre He).
  - rewrite Ecss. by intros e c ?%elem_of_nil.
  - rewrite Ecss. by intros e ?%elem_of_nil.
  - intros i j ri rj li lj Hij Hri Hrj Hne _ _ Hli Hlj. destruct (decide (Z.of_nat i ∈ pendingIds s)) as [Hpi|Hpi].
    + pose proof (v_after _ _ Hi i j rj Hij Hrj Hpi) as Ej. exfalso. apply Hne. rewrite Ej. apply not_true_is_false. intros Hig.
      exact (ignore_not_pending rules s i ri Hi Hri Hig Hpi).
    + rewrite (proj1 (Hspec i) Hpi) in Hli. destruct (decide (Z.of_nat j ∈ pendingIds s)) as [Hpj|Hpj].
      * destruct (proj2 (Hspec j) Hpj) as (e & l & _ & _ & Hl & _ & Hb). simplify_eq.
        pose proof (resolved_bound rules s i ri li Hi Hri Hpi Hli). lia.
      * rewrite (proj1 (Hspec j) Hpj) in Hlj. exact (v_order _ _ Hi i j ri rj li lj Hij Hri Hrj Hne Hpi Hpj Hli Hlj).
  - rewrite Enil. by intros i j rj _ _ ?%elem_of_nil.
  - apply Hmap, (v_blockLoad _ _ Hi).
  - apply Hmap, (v_blockCookies _ _ Hi).
  - apply Hmap, (v_makeHTTPS _ _ Hi).
  - rewrite E4. intros c f location Hf. destruct (v_notify _ _ Hi c f location Hf) as [(arg & He & Hok) Ha]. split; [|by apply Hafter].
    exists arg. split_and!; [exact (entry_at_prefix _ _ _ _ _ Hpre He)|naive_solver..].
  - apply Hmap, (v_ignore _ _ Hi).
Qed.

Lemma map_ok_empty ignore t rules s : map_ok ignore t rules s ∅.
Proof. intros f location Hf. by rewrite lookup_empty in Hf. Qed.

(** Clearing keeps the invariant and empties what the rule invalidates. *)
Lemma clear_inv rules s s' t : inv rules s -> clearMaps s t = Some s' -> vec_size (actions s') < 2 ^ 32 ->
  inv rules s' /\ (t = IgnorePreviousRules -> cssDisplayNoneActionsMap s' = [] /\ blockLoadActionsMap s' = ∅ /\ blockCookiesActionsMap s' = ∅ /\
    makeHTTPSActionsMap s' = ∅ /\ notifyActionsMap s' = ∅) /\ (t <> IgnorePreviousRules -> ignorePreviousRuleActionsMap s' = ∅).
Proof.
  intros Hi. unfold clearMaps. case_bool_decide as Ht.
  - destruct (resolvePendingDisplayNoneActions s) as [s1|] eqn:Hr; cbn [mbind option_bind]; [|done]. intros [= <-]. cbn [actions]. intros Hsz.
    pose proof (resolve_inv rules s s1 Hi Hr Hsz) as Hi1. destruct (resolve_spec s (inv_clients _ _ Hi)) as (s0 & Hr' & _ & _ & Ecss & _). simplify_eq.
    split_and!; [|done..]. destruct Hi1, s1. cbn in *. subst. constructor; cbn; try done; try apply map_ok_empty.
  - intros [= <-] _. split_and!; [|done..]. destruct Hi, s. cbn in *. constructor; cbn; try done.
Qed.

(** A rule with conditions. *)
Lemma push_inv rules s r : inv rules s -> rule_ok r -> conditions (m_trigger r) <> [] -> vec_size (actions (pushAction s (m_action r))) < 2 ^ 32 ->
  (isIgnore r = true -> cssDisplayNoneActionsMap s = [] /\ blockLoadActionsMap s = ∅ /\ blockCookiesActionsMap s = ∅ /\
    makeHTTPSActionsMap s = ∅ /\ notifyActionsMap s = ∅) -> (isIgnore r = false -> ignorePreviousRuleActionsMap s = ∅) ->
  inv (rules ++ [r]) (pushAction s (m_action r)).
Proof.
  intros Hi Hok Hcond Hsz Hig Hnig. set (s' := pushAction s (m_action r)) in *.
  assert (actions s' = actions s ++ entry (m_type (m_action r)) (argument r)) as Ea.
  { unfold s', pushAction. cbn [actions]. destruct (hasStringArgument _) eqn:Et; [by rewrite serializeString_entry|]. unfold entry. by rewrite Et. }
  assert (actions s `prefix_of` actions s') as Hp by (rewrite Ea; by apply prefix_app_r).
  pose proof (vec_size_nonneg (actions s)). assert (vec_size (actions s) < 2 ^ 32) by (pose proof (vec_size_prefix _ _ Hp); lia).
  assert (snoc rules s s' (vec_size (actions s))) as Hn.
  { constructor; [done| |done]. unfold s', pushAction. cbn [actionLocations]. by rewrite uwrap_small by (simpl; lia). }
  apply (inv_resolved rules r s s' (vec_size (actions s)) (argument r)); try done.
  - naive_solver.
  - rewrite Ea. pose proof (entry_at_new (actions s) (m_type (m_action r)) (argument r) []) as He. by rewrite app_nil_r in He.
  - intros _. unfold writtenFor. rewrite bool_decide_false; [done|]. by intros [_ ?].
  - apply end_after; [done|]. intros E. apply pendingIds_nil. apply negb_false_iff in E. naive_solver.
  - apply (map_ok_snoc rules r s s' (vec_size (actions s))); [done|done|naive_solver|exact (v_blockLoad _ _ Hi)].
  - apply (map_ok_snoc rules r s s' (vec_size (actions s))); [done|done|naive_solver|exact (v_blockCookies _ _ Hi)].
  - apply (map_ok_snoc rules r s s' (vec_size (actions s))); [done|done|naive_solver|exact (v_makeHTTPS _ _ Hi)].
  - apply (notify_snoc rules r s s' (vec_size (actions s))); [done|done|naive_solver].
  - apply (map_ok_snoc rules r s s' (vec_size (actions s))); [done|done|naive_solver|exact (v_ignore _ _ Hi)].
Qed.

(** A selector that waits for a location. *)
Lemma pending_inv rules s r : inv rules s -> rule_ok r -> conditions (m_trigger r) = [] -> m_type (m_action r) = CSSDisplayNoneSelector ->
  ignorePreviousRuleActionsMap s = ∅ ->
  inv (rules ++ [r]) (mkSerializer (actions s) (actionLocations s ++ [UINT32_MAX]) (blockLoadActionsMap s) (blockCookiesActionsMap s)
    (addPending (cssDisplayNoneActionsMap s) (m_trigger r) (argument r) (vec_size (actionLocations s)))
    (ignorePreviousRuleActionsMap s) (makeHTTPSActionsMap s) (notifyActionsMap s)).
Proof.
  intros Hi Hok Hcond Ht Hig. set (s' := mkSerializer _ _ _ _ _ _ _ _).
  assert (isIgnore r = false) as Er by (unfold isIgnore; by rewrite Ht).
  assert (vec_size (actionLocations s) = Z.of_nat (length rules)) as El by (unfold vec_size; by rewrite (v_length _ _ Hi)).
  assert (forall c, c ∈ pendingIds s' <-> c = Z.of_nat (length rules) \/ c ∈ pendingIds s) as Eids.
  { intros c. unfold pendingIds. cbn [s' cssDisplayNoneActionsMap]. by rewrite addPending_ids, El. }
  assert (snoc rules s s' UINT32_MAX) as Hn.
  { constructor; [done|done|]. intros k Hk. rewrite Eids. split; [|by right]. intros [E|?]; [|done]. apply Nat2Z.inj in E. lia. }
  apply (inv_snoc rules r s s' UINT32_MAX); try done.
  - intros Hno. exfalso. apply Hno, Eids. by left.
  - cbn [s' cssDisplayNoneActionsMap]. intros e c He Hc. destruct (addPending_spec _ _ _ _ _ _ He Hc) as [[-> Hs]|(e0 & He0 & Hc0 & Hold)].
    + exists (length rules), r. split_and!; try done. by rewrite lookup_app_r, Nat.sub_diag by done.
    + destruct (v_pending _ _ Hi e0 c He0 Hc0) as (i & r' & -> & Hr' & Ht' & Hc' & Hs'). exists i, r'. split_and!; [done|by apply lookup_app_l_Some|done..|by apply Hold].
  - apply addPending_strings; [done|exact (v_strings _ _ Hi)].
  - by rewrite Er.
  - apply (map_ok_snoc rules r s s' UINT32_MAX); [done|done|by rewrite Er|exact (v_blockLoad _ _ Hi)].
  - apply (map_ok_snoc rules r s s' UINT32_MAX); [done|done|by rewrite Er|exact (v_blockCookies _ _ Hi)].
  - apply (map_ok_snoc rules r s s' UINT32_MAX); [done|done|by rewrite Er|exact (v_makeHTTPS _ _ Hi)].
  - apply (notify_snoc rules r s s' UINT32_MAX); [done|done|by rewrite Er].
  - cbn [s' ignorePreviousRuleActionsMap]. rewrite Hig. apply map_ok_empty.
Qed.

(** What clearing leaves empty for a rule. *)
Definition cleared (s : Serializer) (r : ContentExtensionRule) : Prop :=
  (isIgnore r = true -> cssDisplayNoneActionsMap s = [] /\ blockLoadActionsMap s = ∅ /\ blockCookiesActionsMap s = ∅ /\
    makeHTTPSActionsMap s = ∅ /\ notifyActionsMap s = ∅) /\ (isIgnore r = false -> ignorePreviousRuleActionsMap s = ∅).

Lemma cleared_end rules s r : inv rules s -> cleared s r -> after (negb (isIgnore r)) rules s (vec_size (actions s)).
Proof. intros Hi [Hc _]. apply end_after; [done|]. intros E%negb_false_iff. apply pendingIds_nil. by destruct (Hc E). Qed.

(** A rule without conditions whose action may be shared. *)
Lemma made_spec rules s r m f l acts' m' s' : inv rules s -> cleared s r ->
  findOrMakeActionLocation (actions s) m f (m_type (m_action r)) = (l, acts', m') -> hasStringArgument (m_type (m_action r)) = false ->
  map_ok (negb (isIgnore r)) (m_type (m_action r)) rules s m -> vec_size acts' < 2 ^ 32 ->
  actions s' = acts' -> actionLocations s' = actionLocations s ++ [l] -> cssDisplayNoneActionsMap s' = cssDisplayNoneActionsMap s ->
  snoc rules s s' l /\ entry_at (actions s') l (m_type (m_action r)) emptyBuilder /\ after (negb (isIgnore r)) rules s l /\
  map_ok (negb (isIgnore r)) (m_type (m_action r)) (rules ++ [r]) s' m'.
Proof.
  intros Hi Hc Hf Ht Hm Hsz Ea El Ecss.
  destruct (findOrMake_spec _ _ _ _ _ _ _ _ _ _ Hf Ht eq_refl Hm (cleared_end _ _ _ Hi Hc) Hsz) as (Hp & He & Ha & Hm').
  assert (snoc rules s s' l) as Hn.
  { constructor; [by rewrite Ea|done|]. intros k _. unfold pendingIds. by rewrite Ecss. }
  assert (isIgnore r <> negb (isIgnore r)) as Hne by (by destruct (isIgnore r)).
  rewrite <- Ea in He. split_and!; [done..|]. destruct Hm' as [-> | ->].
  - by apply (map_ok_snoc rules r s s' l).
  - by apply (map_ok_insert rules r s s' l).
Qed.

Ltac map_of_inv Hi := first [exact (v_blockLoad _ _ Hi)|exact (v_blockCookies _ _ Hi)|exact (v_makeHTTPS _ _ Hi)|exact (v_ignore _ _ Hi)].

Ltac kept_map rules r s l Hi :=
  lazymatch goal with
  | |- map_ok _ _ (rules ++ [r]) ?s' _ => apply (map_ok_snoc rules r s s' l); [done|done|unfold cleared in *; naive_solver|map_of_inv Hi]
  | |- forall _, _ => apply (notify_snoc rules r s _ l); [done|done|unfold cleared in *; naive_solver]
  end.

Lemma ignore_of r : isIgnore r = bool_decide (m_type (m_action r) = IgnorePreviousRules).
Proof. done. Qed.

(** A notification, which may be shared. *)
Lemma notify_inv rules s r l acts' m' : inv rules s -> cleared s r -> rule_ok r -> conditions (m_trigger r) = [] -> m_type (m_action r) = Notify ->
  findOrMakeStringActionLocation (actions s) (notifyActionsMap s) (argument r) (flags (m_trigger r)) Notify = (l, acts', m') -> vec_size acts' < 2 ^ 32 ->
  inv (rules ++ [r]) (mkSerializer acts' (actionLocations s ++ [l]) (blockLoadActionsMap s) (blockCookiesActionsMap s)
    (cssDisplayNoneActionsMap s) (ignorePreviousRuleActionsMap s) (makeHTTPSActionsMap s) m').
Proof.
  intros Hi Hc Hok Hcond Ht Hf Hsz. set (s' := mkSerializer _ _ _ _ _ _ _ _).
  destruct (findOrMakeString_spec _ _ _ _ _ _ _ _ _ Hf eq_refl Hok Hi eq_refl Hsz) as (Hp & (arg & He & Hargok & Hchars) & Ha & Hm').
  assert (snoc rules s s' l) as Hn by (by constructor). assert (isIgnore r = false) as Er by (unfold isIgnore; by rewrite Ht).
  apply (inv_resolved rules r s s' l arg); try done; rewrite ?Er, ?Ht; try done; try kept_map rules r s l Hi.
  - intros _. unfold writtenFor. rewrite bool_decide_false; [done|]. by intros [E _]; rewrite Ht in E.
  - cbn [s' notifyActionsMap]. assert (after true (rules ++ [r]) s' l) as Ha' by (apply (after_snoc rules r s s' l); try done; by rewrite Er).
    destruct Hm' as [-> | ->]; [kept_map rules r s l Hi|]. intros c f location [[[= <- <-] <-]|[_ Hf']]%lookup_insert_Some.
    + split; [by exists arg|done].
    + revert c f location Hf'. kept_map rules r s l Hi.
Qed.

Lemma serializeRule_inv rules s s' r : inv rules s -> rule_ok r -> serializeRule s r = Some s' -> vec_size (actions s') < 2 ^ 32 ->
  (forall s1, clearMaps s (m_type (m_action r)) = Some s1 -> actions s1 `prefix_of` actions s') -> inv (rules ++ [r]) s'.
Proof.
  intros Hi0 Hok Hser Hsz Hmono. unfold serializeRule in Hser. destruct (clearMaps s _) as [s1|] eqn:Hcl; [|done]. cbn [mbind option_bind] in Hser.
  pose proof (Hmono s1 eq_refl) as Hp1. assert (vec_size (actions s1) < 2 ^ 32) as Hsz1 by (pose proof (vec_size_prefix _ _ Hp1); lia).
  destruct (clear_inv rules s s1 _ Hi0 Hcl Hsz1) as (Hi & Hc1 & Hc2). clear Hi0 Hcl Hmono s. rename s1 into s.
  assert (cleared s r) as Hc. { unfold cleared. rewrite ignore_of. split; intros E; [apply Hc1; by apply bool_decide_eq_true in E|apply Hc2; by apply bool_decide_eq_false in E]. }
  clear Hc1 Hc2. case_bool_decide as Hcond; cbn [negb] in Hser.
  2: { injection Hser as <-. destruct Hc. by apply push_inv. }
  destruct (m_type (m_action r)) eqn:Et; injection Hser as Hser.
  all: assert (isIgnore r = bool_decide (m_type (m_action r) = IgnorePreviousRules)) as Er by done; rewrite Et in Er;
    first [rewrite bool_decide_false in Er by done | rewrite bool_decide_true in Er by done].
  all: try (destruct (findOrMakeActionLocation _ _ _ _) as [[l acts'] m'] eqn:Ef; rewrite <- Et in Ef; subst s';
    lazymatch goal with |- inv _ ?s' =>
      destruct (made_spec rules s r _ _ l acts' m' s' Hi Hc Ef) as (Hn & He & Ha & Hm);
      [by rewrite Et|rewrite Er, Et; map_of_inv Hi|done..|];
      rewrite ?Er, ?Et in Hm; cbn [negb] in Hm;
      apply (inv_resolved rules r s s' l emptyBuilder Hi Hn); [done|by destruct Hc as [Hc _]; apply Hc|done|by apply Forall_nil|by rewrite Et|done|..];
      first [exact Hm|kept_map rules r s l Hi]
    end).
  - subst s'. apply pending_inv; try done. by apply Hc.
  - destruct (findOrMakeStringActionLocation _ _ _ _ _) as [[l acts'] m'] eqn:Ef. subst s'. by apply (notify_inv rules s r l acts' m').
Qed.

(** ** Totality and growth *)

Lemma clear_total s t : clients_ok s -> exists s', clearMaps s t = Some s' /\ actions s `prefix_of` actions s' /\ clients_ok s' /\
  length (actionLocations s') = length (actionLocations s).
Proof.
  intros Hc. unfold clearMaps. case_bool_decide; [|by eexists].
  destruct (resolve_spec s Hc) as (s' & -> & Hp & Hl & Ecss & _). cbn [mbind option_bind]. eexists. split; [reflexivity|].
  split_and!; [done|by apply Forall_nil|done].
Qed.

Lemma clients_snoc s s' l : clients_ok s -> actionLocations s' = actionLocations s ++ [l] ->
  (forall c, c ∈ pendingIds s' -> c = vec_size (actionLocations s) \/ c ∈ pendingIds s) -> clients_ok s'.
Proof.
  intros Hc El Hp. apply Forall_forall. intros c Hin. assert (vec_size (actionLocations s') = vec_size (actionLocations s) + 1) as ->.
  { rewrite El. unfold vec_size. rewrite length_app. simpl. lia. }
  destruct (Hp c Hin) as [->|Hold]; [unfold vec_size; lia|]. pose proof (proj1 (Forall_forall _ _) Hc c Hold) as Hb. simpl in Hb. lia.
Qed.

Lemma serializeString_prefix acts s : acts `prefix_of` serializeString acts s.
Proof. by apply prefix_app_r. Qed.

Lemma findOrMake_prefix acts m f t l acts' m' : findOrMakeActionLocation acts m f t = (l, acts', m') -> acts `prefix_of` acts'.
Proof. unfold findOrMakeActionLocation. destruct (m !! f); intros; simplify_eq; [done|by apply prefix_app_r]. Qed.

Lemma findOrMakeString_prefix acts m a f t l acts' m' : findOrMakeStringActionLocation acts m a f t = (l, acts', m') -> acts `prefix_of` acts'.
Proof. unfold findOrMakeStringActionLocation. destruct (m !! _); intros; simplify_eq; [done|]. etrans; [|apply serializeString_prefix]. by apply prefix_app_r. Qed.

Lemma serializeRule_total s r : clients_ok s -> exists s', serializeRule s r = Some s' /\ clients_ok s' /\ actions s `prefix_of` actions s' /\
  length (actionLocations s') = S (length (actionLocations s)) /\
  (forall s1, clearMaps s (m_type (m_action r)) = Some s1 -> actions s1 `prefix_of` actions s').
Proof.
  intros Hc. unfold serializeRule. destruct (clear_total s (m_type (m_action r)) Hc) as (s1 & E1 & Hp & Hc1 & Hl). rewrite E1. cbn [mbind option_bind].
  lazymatch goal with |- exists s', ?x = Some s' /\ _ => enough (exists s' l, x = Some s' /\
    actions s1 `prefix_of` actions s' /\ actionLocations s' = actionLocations s1 ++ [l] /\
    forall c, c ∈ pendingIds s' -> c = vec_size (actionLocations s1) \/ c ∈ pendingIds s1) as (s' & l & E & Hp' & El & Hin) end.
  { exists s'. split; [exact E|]. split_and!; [exact (clients_snoc s1 s' l Hc1 El Hin)|by etrans|rewrite El, length_app, Hl; simpl; lia|].
    intros s2 Hs2. by simplify_eq. }
  case_bool_decide; cbn [negb].
  2: { eexists _, _. split; [reflexivity|]. split_and!; [|reflexivity|by right]. unfold pushAction. cbn [actions].
       destruct (hasStringArgument _); [etrans; [|apply serializeString_prefix]|]; by apply prefix_app_r. }
  destruct (m_type (m_action r)).
  all: try (destruct (findOrMakeActionLocation _ _ _ _) as [[l acts'] m'] eqn:Ef; apply findOrMake_prefix in Ef; eexists _, _; split; [reflexivity|]; split_and!; [done|reflexivity|by right]).
  - eexists _, _. split; [reflexivity|]. split_and!; [done|reflexivity|]. intros c Hin. unfold pendingIds in Hin. cbn [cssDisplayNoneActionsMap] in Hin.
    by apply addPending_ids in Hin.
  - destruct (findOrMakeStringActionLocation _ _ _ _ _) as [[l acts'] m'] eqn:Ef. apply findOrMakeString_prefix in Ef. eexists _, _.
    split; [reflexivity|]. split_and!; [done|reflexivity|by right].
Qed.

Lemma serializeRules_total rules s : clients_ok s -> exists s', serializeRules s rules = Some s' /\ clients_ok s' /\ actions s `prefix_of` actions s' /\
  length (actionLocations s') = (length (actionLocations s) + length rules)%nat.
Proof.
  revert s. induction rules as [|r rules IH]; intros s Hc; cbn [serializeRules length].
  { exists s. split_and!; [done..|lia]. }
  destruct (serializeRule_total s r Hc) as (s1 & -> & Hc1 & Hp1 & Hl1 & _). cbn [mbind option_bind].
  destruct (IH s1 Hc1) as (s' & -> & Hc' & Hp' & Hl'). exists s'. split_and!; [done|done|by etrans|lia].
Qed.

Lemma serializeRules_inv done rules s s' : inv done s -> Forall rule_ok rules -> serializeRules s rules = Some s' -> vec_size (actions s') < 2 ^ 32 -> inv (done ++ rules) s'.
Proof.
  revert done s. induction rules as [|r rules IH]; intros done s Hi Hok; cbn [serializeRules].
  { intros [= <-] _. by rewrite app_nil_r. }
  apply Forall_cons in Hok as [Hr Hok]. destruct (serializeRule_total s r (inv_clients _ _ Hi)) as (s1 & E1 & Hc1 & Hp1 & _ & Hmono). rewrite E1. cbn [mbind option_bind].
  intros Hs Hsz. destruct (serializeRules_total rules s1 Hc1) as (s2 & E2 & _ & Hp2 & _). rewrite Hs in E2. injection E2 as <-.
  assert (vec_size (actions s1) < 2 ^ 32) by (pose proof (vec_size_prefix _ _ Hp2); lia).
  assert (inv (done ++ [r]) s1) as Hi1 by (by apply (serializeRule_inv done s s1 r)).
  pose proof (IH (done ++ [r]) s1 Hi1 Hok Hs Hsz) as H'. by rewrite <- app_assoc in H'.
Qed.

Lemma inv_new : inv [] newSerializer.
Proof.
  constructor; try done; try apply map_ok_empty.
  - by intros e c ?%elem_of_nil.
  - by intros e ?%elem_of_nil.
Qed.

Lemma serializeActions_total rules : exists locations bytes, serializeActions rules = Some (locations, bytes) /\ length locations = length rules.
Proof.
  unfold serializeActions. destruct (serializeRules_total rules newSerializer (inv_clients _ _ inv_new)) as (s1 & E1 & Hc1 & _ & Hl1). rewrite E1. cbn [mbind option_bind].
  destruct (resolve_spec s1 Hc1) as (s2 & -> & _ & Hl2 & _). cbn [mbind option_bind]. eexists _, _. split; [reflexivity|]. by rewrite Hl2, Hl1.
Qed.

Lemma serializeActions_sound rules locations bytes : Forall rule_ok rules -> serializeActions rules = Some (locations, bytes) -> vec_size bytes < 2 ^ 32 ->
  exists s, inv rules s /\ pendingIds s = [] /\ actionLocations s = locations /\ actions s = bytes.
Proof.
  intros Hok. unfold serializeActions. destruct (serializeRules_total rules newSerializer (inv_clients _ _ inv_new)) as (s1 & E1 & Hc1 & _). rewrite E1. cbn [mbind option_bind].
  destruct (resolve_spec s1 Hc1) as (s2 & E2 & Hp2 & Hl2 & Ecss & _). rewrite E2. cbn [mbind option_bind]. intros [= <- <-] Hsz.
  assert (vec_size (actions s1) < 2 ^ 32) by (pose proof (vec_size_prefix _ _ Hp2); lia).
  exists s2. split_and!; [|by apply pendingIds_nil|done..]. apply (resolve_inv rules s1 s2); [|done..]. by apply (serializeRules_inv [] rules newSerializer s1 inv_new).
Qed.

End Serialized.

(** ** What the compiler promises the reader *)

(** C17: For any rule list, serializing the actions succeeds, gives one location
    for every rule, and (when the bytes fit a 32-bit size) reading the bytes back
    at the location of a rule gives an action of the type of the rule, with the
    very string of the rule, or for a selector of a rule without conditions a
    comma-separated list that has the selector. *)
Theorem deserialize_serializeActions `{HashMapOrder} rules : Forall rule_ok rules ->
  exists locations bytes, serializeActions rules = Some (locations, bytes) /\ length locations = length rules /\
    (vec_size bytes < 2 ^ 32 -> forall i r, rules !! i = Some r ->
      exists location arg, locations !! i = Some location /\ string_ok arg /\
        deserialize bytes location = Some (mkAction None (m_type (m_action r)) location (argument_of (m_type (m_action r)) arg)) /\
        serializedLength bytes location = Some (vec_size (entry (m_type (m_action r)) arg)) /\
        (hasStringArgument (m_type (m_action r)) = true -> writtenFor r arg)).
Proof.
  intros Hok. destruct (serializeActions_total rules) as (locations & bytes & E & Hl). exists locations, bytes. split_and!; [done..|].
  intros Hsz i r Hr. destruct (serializeActions_sound rules locations bytes Hok E Hsz) as (s & Hi & Hp & <- & <-).
  destruct (v_resolved _ _ Hi i r Hr) as (location & arg & Hloc & He & Hargok & Hw); [rewrite Hp; apply not_elem_of_nil|].
  exists location, arg. split_and!; [done|done|by apply deserialize_entry|by apply serializedLength_entry|done].
Qed.

(** C18: The order that the reader relies on: the location of a rule that ignores
    the previous rules is after the location of every other rule before it and
    before the location of every other rule after it, although equal actions
    share their location and selectors are written late. *)
Theorem serializeActions_ordered `{HashMapOrder} rules locations bytes i j ri rj li lj :
  Forall rule_ok rules -> serializeActions rules = Some (locations, bytes) -> vec_size bytes < 2 ^ 32 ->
  (i < j)%nat -> rules !! i = Some ri -> rules !! j = Some rj -> isIgnore ri <> isIgnore rj ->
  locations !! i = Some li -> locations !! j = Some lj -> li < lj.
Proof.
  intros Hok E Hsz Hij Hi Hj Hne Hli Hlj. destruct (serializeActions_sound rules locations bytes Hok E Hsz) as (s & Hinv & Hp & <- & <-).
  apply (v_order _ _ Hinv i j ri rj li lj); try done; rewrite Hp; apply not_elem_of_nil.
Qed.

(** A list with a selector, an exception, a notification and a block. *)
Definition sampleTrigger : Trigger := mkTrigger (mkWString true [97]) false false 0xffff [] CT_None.
Definition sampleRule (t : ActionType) (arg : option WString) : ContentExtensionRule := mkContentExtensionRule sampleTrigger (mkAction None t 0 arg).
Definition sampleRules : list ContentExtensionRule :=
  [sampleRule CSSDisplayNoneSelector (Some (mkWString true [46; 97])); sampleRule BlockLoad None; sampleRule CSSDisplayNoneSelector (Some (mkWString false [46; 960]));
   sampleRule IgnorePreviousRules None; sampleRule BlockLoad None; sampleRule Notify (Some (mkWString true [110])); sampleRule BlockLoad None].

Lemma sampleRules_ok : Forall rule_ok sampleRules.
Proof. repeat constructor; simpl; lia. Qed.

Example sampleRules_locations : fst <$> serializeActions sampleRules = Some [1; 0; 1; 17; 18; 19; 18].
Proof. by vm_compute. Qed.

Lemma deserialize_serializeActions_witness : exists locations bytes, serializeActions sampleRules = Some (locations, bytes) /\
  exists location, locations !! 5%nat = Some location /\ deserialize bytes location = Some (mkAction None Notify 19 (Some (mkWString true [110]))).
Proof.
  destruct (deserialize_serializeActions sampleRules sampleRules_ok) as (locations & bytes & E & _ & H). exists locations, bytes. split; [done|].
  vm_compute in E. injection E as <- <-. destruct (H ltac:(by vm_compute) 5%nat _ eq_refl) as (location & arg & Hl & _ & _). exists location.
  split; [done|]. vm_compute in Hl. injection Hl as <-. by vm_compute.
Defined.

Lemma serializeActions_ordered_witness : exists locations bytes, serializeActions sampleRules = Some (locations, bytes) /\ 1 < 17.
Proof.
  eexists _, _. split; [vm_compute; reflexivity|].
  apply (serializeActions_ordered sampleRules [1; 0; 1; 17; 18; 19; 18] (default [] (snd <$> serializeActions sampleRules)) 2 3
    (sampleRule CSSDisplayNoneSelector (Some (mkWString false [46; 960]))) (sampleRule IgnorePreviousRules None) 1 17 sampleRules_ok);
    [by vm_compute|by vm_compute|lia|done|done|done|done|done].
Defined.
