(* ===== verification/URL.v ===== *)
(** * URLs

    Models the accessors of [WTF::URL] that the content extensions use
    ([URL.h], [URL.cpp]), the default ports of [URLParser.cpp] and the
    conversion of digits of [StringToIntegerConversion.h].  How a URL is parsed
    is not modelled: a URL is its string and the offsets into it. *)

From stdpp Require Import base numbers option list list_numbers.
From Stdlib Require Import ZArith Lia.
From S2P Require Import Prelude.

(** [None] is the null string. *)
Record URL := mkURL {
  m_string : option (list Z);
  m_isValid : bool;
  m_portLength : Z;
  m_schemeEnd : Z;
  m_userStart : Z;
  m_passwordEnd : Z;
  m_hostEnd : Z
}.

(** [URL()], that is [invalidate]. *)
Definition nullURL : URL := mkURL None false 0 0 0 0 0.

Definition string_of (url : URL) : list Z := default [] (m_string url).

(** [operator!=]: the null string differs from the empty one. *)
Definition url_neqb (a b : URL) : bool := negb (bool_decide (m_string a = m_string b)).

(** [StringView::substring] *)
Definition substring (s : list Z) (start len : Z) : list Z :=
  if vec_size s <=? start then []
  else
    let maxLength := vec_size s - start in
    take (Z.to_nat (if maxLength <=? len then maxLength else len)) (drop (Z.to_nat start) s).

Definition hostStart (url : URL) : Z := if m_passwordEnd url =? m_userStart url then m_passwordEnd url else u32 (m_passwordEnd url + 1).
Definition host (url : URL) : list Z := substring (string_of url) (hostStart url) (u32 (m_hostEnd url - hostStart url)).
Definition protocol (url : URL) : list Z := substring (string_of url) 0 (m_schemeEnd url).

(** The loop of [protocolIs] over the scheme, and the test for the end of the argument. *)
Fixpoint protocolMatches (n : nat) (s : list Z) (protocol : list Z) : bool :=
  match n with
  | O => bool_decide (protocol = [])
  | S n =>
      match protocol with
      | [] => false
      | c :: protocol => (Z.lor (default 0 (head s)) 0x20 =? c) && protocolMatches n (tail s) protocol
      end
  end.

Definition protocolIs (url : URL) (protocol : list Z) : bool :=
  if negb (m_isValid url) then false else protocolMatches (Z.to_nat (m_schemeEnd url)) (string_of url) protocol.

(** ** Digits *)

(** [isASCIISpace]: space and the control characters from tab to carriage return. *)
Definition isASCIISpace (c : Z) : bool := (c <=? 32) && ((c =? 32) || ((c <=? 13) && (9 <=? c))).

(** The loop over the digits; [integralMax] is that of [unsigned]. *)
Fixpoint digitsLoop (value : Z) (data : list Z) : option (Z * list Z) :=
  match data with
  | c :: rest =>
      if isASCIIDigit c then
        let digitValue := c - 48 in
        let maxMultiplier := UINT32_MAX / 10 in
        if (maxMultiplier <? value) || ((value =? maxMultiplier) && (UINT32_MAX mod 10 <? digitValue)) then None
        else digitsLoop (u32 (10 * value + digitValue)) rest
      else Some (value, data)
  | [] => Some (value, data)
  end.

Section Ports.
(** ICU: whether the direction of a character is that of white space. *)
Variable u_isWhiteSpaceNeutral : Z -> bool.

Definition isSpaceOrNewline (c : Z) : bool := if c <=? 0xff then isASCIISpace c else u_isWhiteSpaceNeutral c.

Fixpoint skipSpaces (data : list Z) : list Z :=
  match data with c :: rest => if isSpaceOrNewline c then skipSpaces rest else data | [] => [] end.

(** [toIntegralType<unsigned>] in base 10; [None] is [ok = false]. *)
Definition charactersToUIntStrict (data : list Z) : option Z :=
  let data := skipSpaces data in
  let data := match data with c :: rest => if c =? 43 then rest else data | [] => [] end in
  match data with
  | [] => None
  | c :: _ =>
      if negb (isASCIIDigit c) then None
      else
        '(value, data) ← digitsLoop 0 data;
        match skipSpaces data with [] => Some value | _ => None end
  end.

(** The characters between the colon and the path; [None] is a read outside the string. *)
Definition port (url : URL) : option (option Z) :=
  if m_portLength url =? 0 then Some None
  else
    data ← read_bytes (string_of url) (m_hostEnd url + 1) (Z.to_nat (m_portLength url - 1));
    match charactersToUIntStrict data with
    | Some number => if 0xffff <? number then Some None else Some (Some number)
    | None => Some None
    end.

(** ** Default ports *)

(** [URLParser::defaultPortForProtocol].  The [default] of the schemes in w
    returns [false], which converts to the port 0. *)
Definition defaultPortForProtocol (scheme : list Z) : option Z :=
  match scheme with
  | [] => None
  | 119 :: rest =>
      match rest with
      | [c1] => if c1 =? 115 then Some 80 else None
      | [c1; c2] => if (c1 =? 115) && (c2 =? 115) then Some 443 else None
      | _ => Some 0
      end
  | 104 :: rest =>
      match rest with
      | [c1; c2; c3] => if (c1 =? 116) && (c2 =? 116) && (c3 =? 112) then Some 80 else None
      | [c1; c2; c3; c4] => if (c1 =? 116) && (c2 =? 116) && (c3 =? 112) && (c4 =? 115) then Some 443 else None
      | _ => None
      end
  | 103 :: rest => if bool_decide (rest = [111; 112; 104; 101; 114]) then Some 70 else None
  | 102 :: rest => if bool_decide (rest = [116; 112]) then Some 21 else None
  | _ => None
  end.

Definition isDefaultPortForProtocol (port : Z) (protocol : list Z) : bool := bool_decide (defaultPortForProtocol protocol = Some port).

End Ports.

(** ** Digits denote numbers *)

Definition isDigit (c : Z) : Prop := 48 <= c <= 57.
Definition decimal (value : Z) (digits : list Z) : Z := fold_left (λ v c, 10 * v + (c - 48)) digits value.

Lemma decimal_mono digits value : Forall isDigit digits -> 0 <= value -> value <= decimal value digits.
Proof.
  intros Hd. revert value. induction Hd as [|c digits Hc _ IH]; intros value Hv; [done|].
  cbn [decimal fold_left]. unfold isDigit in Hc. specialize (IH (10 * value + (c - 48)) ltac:(lia)). unfold decimal in IH. lia.
Qed.

Lemma isASCIIDigit_true c : isDigit c -> isASCIIDigit c = true.
Proof. intros Hc. unfold isDigit in Hc. unfold isASCIIDigit. apply andb_true_iff. split; apply Z.leb_le; lia. Qed.

Lemma digitsLoop_decimal digits value : Forall isDigit digits -> 0 <= value < 2 ^ 32 ->
  digitsLoop value digits = if decimal value digits <? 2 ^ 32 then Some (decimal value digits, []) else None.
Proof.
  intros Hd. revert value. induction Hd as [|c digits Hc Hds IH]; intros value Hv; cbn [digitsLoop].
  { cbn [decimal fold_left]. rewrite (proj2 (Z.ltb_lt _ _)) by lia. done. }
  rewrite (isASCIIDigit_true c Hc). unfold isDigit in Hc.
  change (decimal value (c :: digits)) with (decimal (10 * value + (c - 48)) digits).
  change (UINT32_MAX / 10) with 429496729. change (UINT32_MAX mod 10) with 5.
  destruct ((429496729 <? value) || _) eqn:Eo.
  - pose proof (decimal_mono digits (10 * value + (c - 48)) Hds ltac:(lia)). assert (2 ^ 32 <= 10 * value + (c - 48)) by lia.
    rewrite (proj2 (Z.ltb_ge _ _)) by lia. done.
  - assert (10 * value + (c - 48) < 2 ^ 32) by lia. rewrite uwrap_small by lia. apply IH. lia.
Qed.

Lemma skipSpaces_digit ws c rest : isDigit c -> skipSpaces ws (c :: rest) = c :: rest.
Proof.
  intros Hc. unfold isDigit in Hc. cbn [skipSpaces]. unfold isSpaceOrNewline. rewrite (proj2 (Z.leb_le _ _)) by lia.
  unfold isASCIISpace. rewrite (proj2 (Z.leb_gt c 32)) by lia. done.
Qed.

(** The digits of a port denote the number that they spell when it fits 32
    bits, and are refused otherwise: the overflow test is exact. *)
Theorem charactersToUIntStrict_exact ws digits : digits <> [] -> Forall isDigit digits ->
  charactersToUIntStrict ws digits = if decimal 0 digits <? 2 ^ 32 then Some (decimal 0 digits) else None.
Proof.
  intros Hne Hd. destruct digits as [|c digits]; [done|]. pose proof (Forall_inv Hd) as Hc. unfold charactersToUIntStrict.
  rewrite skipSpaces_digit by done. unfold isDigit in Hc.
  rewrite (proj2 (Z.eqb_neq c 43)) by lia.
  rewrite isASCIIDigit_true by done. cbn [negb]. rewrite digitsLoop_decimal by (done || lia).
  destruct (decimal 0 (c :: digits) <? 2 ^ 32); done.
Qed.

Lemma charactersToUIntStrict_exact_witness :
  charactersToUIntStrict (λ _, false) [52; 50; 57; 52; 57; 54; 55; 50; 57; 53] = Some 4294967295 /\
  charactersToUIntStrict (λ _, false) [52; 50; 57; 52; 57; 54; 55; 50; 57; 54] = None.
Proof.
  split; (rewrite charactersToUIntStrict_exact; [by vm_compute|done|]); repeat constructor; unfold isDigit; lia.
Defined.

(** A scheme that starts with w and has neither two nor three letters has the
    default port 0: the code returns [false] where the other schemes have no
    default port. *)
Theorem unknown_w_scheme_has_port_zero rest : length rest <> 1%nat -> length rest <> 2%nat ->
  defaultPortForProtocol (119 :: rest) = Some 0 /\ isDefaultPortForProtocol 0 (119 :: rest) = true.
Proof.
  intros H1 H2. assert (defaultPortForProtocol (119 :: rest) = Some 0) as E by (by destruct rest as [|? [|? [|? ?]]]).
  split; [done|]. unfold isDefaultPortForProtocol. by rewrite E.
Qed.

Lemma unknown_w_scheme_has_port_zero_witness : defaultPortForProtocol [119; 97; 98; 99] = Some 0.
Proof. apply (unknown_w_scheme_has_port_zero [97; 98; 99]); done. Defined.
