(* ===== verification/ContentExtension.v ===== *)
(** * One content extension

    Models [CompiledContentExtension.h] and [ContentExtension.h/.cpp]: the
    universal actions that a compiled extension starts with, the style sheet made
    of those that hide elements, and the cache of the actions whose conditions
    the main document meets. *)

From stdpp Require Import base numbers option list list_numbers gmap.
From Stdlib Require Import ZArith Lia.
From S2P Require Import Prelude.
From S2P Require Import DFABytecode.
From S2P Require Import DFABytecodeInterpreter.
From S2P Require Import ContentExtensionRule.
From S2P Require Import ActionSerialization.
From S2P Require Import UTF8Conversion.
From S2P Require Import URL.

(** ** Computations that may fault or run out of fuel *)

#[export] Instance run_bind : MBind Run := λ A B k m,
  match m with Finished a => k a | Fault => Fault | OutOfFuel => OutOfFuel end.

Definition run_of {A} (m : option A) : Run A := match m with Some a => Finished a | None => Fault end.

(** ** State *)

Record CompiledContentExtension := mkCompiledContentExtension {
  filtersWithoutConditionsBytecode : list Z;
  filtersWithConditionsBytecode : list Z;
  topURLFiltersBytecode : list Z;
  conditionsApplyOnlyToDomain : bool;
  compiledActions : list Z
}.

(** A style sheet is the text that it was parsed from. *)
Record ContentExtension := mkContentExtension {
  m_identifier : list Z;
  m_compiledExtension : CompiledContentExtension;
  m_globalDisplayNoneStyleSheet : option WString;
  m_cachedTopURL : URL;
  m_cachedTopURLActions : Actions;
  m_cachedUniversalConditionedActions : list Z;
  m_universalActionsWithoutConditions : list Z;
  m_universalActionsWithConditions : list Z
}.

Inductive ShouldCompileCSS := CompileCSS_No | CompileCSS_Yes.

#[export] Instance ShouldCompileCSS_eq_dec : EqDecision ShouldCompileCSS.
Proof. solve_decision. Defined.

(** "display:none !important;" *)
Definition displayNoneCSSRule : WString :=
  mkWString true [100; 105; 115; 112; 108; 97; 121; 58; 110; 111; 110; 101; 32; 33; 105; 109; 112; 111; 114; 116; 97; 110; 116; 59].

Section Extension.
Context `{HashMapOrder}.

(** ** The first rule that ignores the previous ones *)

(** The loop of [findFirstIgnorePreviousRules]. *)
Fixpoint findFirstLoop (fuel : nat) (actions : list Z) (currentActionIndex : Z) : Run Z :=
  match fuel with
  | O => OutOfFuel
  | S fuel =>
      if currentActionIndex <? vec_size actions then
        t ← run_of (deserializeType actions currentActionIndex);
        if bool_decide (t = IgnorePreviousRules) then Finished currentActionIndex
        else
          len ← run_of (serializedLength actions currentActionIndex);
          findFirstLoop fuel actions (u32 (currentActionIndex + len))
      else Finished UINT32_MAX
  end.

Definition findFirstIgnorePreviousRules (fuel : nat) (c : CompiledContentExtension) : Run Z := findFirstLoop fuel (compiledActions c) 0.

(** ** The style sheet *)

Definition inGlobalDisplayNoneStyleSheet (actions : list Z) (firstIgnorePreviousRules location : Z) : option bool :=
  if location <? firstIgnorePreviousRules then
    t ← deserializeType actions location; Some (bool_decide (t = CSSDisplayNoneSelector))
  else Some false.

Fixpoint globalCSS (actions : list Z) (first : Z) (css : WString) (locations : list Z) : option WString :=
  match locations with
  | [] => Some css
  | location :: locations =>
      hoisted ← inGlobalDisplayNoneStyleSheet actions first location;
      css ← (if hoisted : bool then
               let css := if bool_decide (characters css = []) then css else appendCharacter css 44 in
               action ← deserialize actions location;
               Some (appendString css (default emptyBuilder (m_stringArgument action)))
             else Some css);
      globalCSS actions first css locations
  end.

(** [removeAllMatching] *)
Fixpoint removeHoisted (actions : list Z) (first : Z) (locations : list Z) : option (list Z) :=
  match locations with
  | [] => Some []
  | location :: locations =>
      hoisted ← inGlobalDisplayNoneStyleSheet actions first location;
      rest ← removeHoisted actions first locations;
      Some (if hoisted : bool then rest else location :: rest)
  end.

(** [StyleSheetContents::parseString]: the text is parsed with errors skipped. *)
Definition parseString (css : WString) : bool := true.

(** The style sheet and the universal actions that are left. *)
Definition compileGlobalDisplayNoneStyleSheet (fuel : nat) (c : CompiledContentExtension) (universal : list Z) : Run (option WString * list Z) :=
  first ← findFirstIgnorePreviousRules fuel c;
  let actions := compiledActions c in
  css ← run_of (globalCSS actions first emptyBuilder universal);
  if bool_decide (characters css = []) then Finished (None, universal)
  else
    let css := appendCharacter (appendString (appendCharacter css 123) displayNoneCSSRule) 125 in
    universal ← run_of (removeHoisted actions first universal);
    Finished (if parseString css then Some css else None, universal).

(** The constructor. *)
Definition ContentExtension_create (fuel : nat) (identifier : list Z) (c : CompiledContentExtension) (shouldCompileCSS : ShouldCompileCSS) : Run ContentExtension :=
  withoutConditions ← actionsMatchingEverything (filtersWithoutConditionsBytecode c) None fuel;
  withConditions ← actionsMatchingEverything (filtersWithConditionsBytecode c) None fuel;
  let universalWithoutConditions := u32 <$> visit (elements withoutConditions) in
  let universalWithConditions := visit (elements withConditions) in
  '(sheet, universalWithoutConditions) ← 
    (if bool_decide (shouldCompileCSS = CompileCSS_Yes) then compileGlobalDisplayNoneStyleSheet fuel c universalWithoutConditions
    else Finished (None, universalWithoutConditions));
  Finished (mkContentExtension identifier c sheet nullURL ∅ [] universalWithoutConditions universalWithConditions).

(** ** The cache of the conditions *)

(** [LoadTypeMask | ResourceTypeMask] *)
Definition allLoadTypesAndResourceTypes : Z := 0x0FFF.

(** The actions of the conditions that the main document meets.  The string of a URL
    has code units, of which [utf8] makes the same bytes for both widths ([utf8_width]). *)
Definition computeTopURLActions (fuel : nat) (c : CompiledContentExtension) (topURL : URL) : Run Actions :=
  let string := if conditionsApplyOnlyToDomain c then host topURL else string_of topURL in
  bytes ← run_of (utf8 (mkWString false string));
  topURLActions ← interpret (topURLFiltersBytecode c) None bytes allLoadTypesAndResourceTypes fuel;
  everything ← actionsMatchingEverything (topURLFiltersBytecode c) None fuel;
  Finished (topURLActions ∪ everything).

(** The universal actions whose conditions hold. *)
Definition conditionedActions (universal : list Z) (topURLActions : Actions) : list Z :=
  u32 <$> filter (λ action, negb (Z.land action IfConditionFlag =? 0) = bool_decide (action ∈ topURLActions)) universal.

Definition populateConditionCacheIfNeeded (fuel : nat) (e : ContentExtension) (topURL : URL) : Run ContentExtension :=
  if url_neqb (m_cachedTopURL e) topURL then
    topURLActions ← computeTopURLActions fuel (m_compiledExtension e) topURL;
    Finished (mkContentExtension (m_identifier e) (m_compiledExtension e) (m_globalDisplayNoneStyleSheet e) topURL topURLActions
      (conditionedActions (m_universalActionsWithConditions e) topURLActions)
      (m_universalActionsWithoutConditions e) (m_universalActionsWithConditions e))
  else Finished e.

Definition topURLActions (fuel : nat) (e : ContentExtension) (topURL : URL) : Run (Actions * ContentExtension) :=
  e ← populateConditionCacheIfNeeded fuel e topURL; Finished (m_cachedTopURLActions e, e).

Definition universalActionsWithConditions (fuel : nat) (e : ContentExtension) (topURL : URL) : Run (list Z * ContentExtension) :=
  e ← populateConditionCacheIfNeeded fuel e topURL; Finished (m_cachedUniversalConditionedActions e, e).

End Extension.
