(* ===== verification/ContentExtensionsBackend.v ===== *)
(** * The content extensions of a page

    Models [ContentExtensionsBackend.h/.cpp] and the flags of
    [ResourceLoadInfo.cpp]: the actions of all the extensions for a load, and what
    becomes of the load.  What is done to the document, its loader, the page and
    the request is a list of effects. *)

From stdpp Require Import base numbers option list list_numbers gmap sorting.
From Stdlib Require Import ZArith Lia.
From S2P Require Import Prelude.
From S2P Require Import DFABytecode.
From S2P Require Import DFABytecodeInterpreter.
From S2P Require Import ContentExtensionRule.
From S2P Require Import ActionSerialization.
From S2P Require Import UTF8Conversion.
From S2P Require Import URL.
From S2P Require Import ContentExtension.

(** ** Loads *)

Inductive ResourceType :=
  RT_Invalid | RT_Document | RT_Image | RT_StyleSheet | RT_Script | RT_Font | RT_Raw | RT_SVGDocument | RT_Media | RT_PlugInStream | RT_Popup.

#[export] Instance ResourceType_eq_dec : EqDecision ResourceType.
Proof. solve_decision. Defined.

Definition resourceType_code (t : ResourceType) : Z :=
  match t with
  | RT_Invalid => 0 | RT_Document => 1 | RT_Image => 2 | RT_StyleSheet => 4 | RT_Script => 8 | RT_Font => 16 | RT_Raw => 32
  | RT_SVGDocument => 64 | RT_Media => 128 | RT_PlugInStream => 256 | RT_Popup => 512
  end.

Record ResourceLoadInfo := mkResourceLoadInfo { resourceURL : URL; mainDocumentURL : URL; resourceType : ResourceType }.

(** [HashMap<String, Ref<ContentExtension>>] *)
Abbreviation ContentExtensions := (gmap (list Z) ContentExtension).

Section Backend.
Context `{HashMapOrder}.

(** [SecurityOrigin::canAccess] of the origins of two URLs. *)
Variable canAccess : URL -> URL -> bool.
Variable u_isWhiteSpaceNeutral : Z -> bool.

Definition isThirdParty (info : ResourceLoadInfo) : bool := negb (canAccess (mainDocumentURL info) (resourceURL info)).

Definition getResourceFlags (info : ResourceLoadInfo) : Z :=
  Z.lor (resourceType_code (resourceType info)) (if isThirdParty info then 0x0800 else 0x0400).

(** ** The extensions *)

Definition addContentExtension (fuel : nat) (extensions : ContentExtensions) (identifier : list Z) (c : CompiledContentExtension) (css : ShouldCompileCSS)
    : Run ContentExtensions :=
  if bool_decide (identifier = []) then Finished extensions
  else e ← ContentExtension_create fuel identifier c css; Finished (<[ identifier := e ]> extensions).

Definition removeContentExtension (extensions : ContentExtensions) (identifier : list Z) : ContentExtensions := delete identifier extensions.
Definition removeAllContentExtensions (extensions : ContentExtensions) : ContentExtensions := ∅.
Definition globalDisplayNoneStyleSheet (extensions : ContentExtensions) (identifier : list Z) : option WString :=
  e ← extensions !! identifier; m_globalDisplayNoneStyleSheet e.

(** ** The actions for a load *)

(** The loop over the locations from the last to the first: the actions, and whether an exception ended it. *)
Fixpoint collectActions (actions identifier : list Z) (reversed : list Z) : option (list Action * bool) :=
  match reversed with
  | [] => Some ([], false)
  | location :: reversed =>
      action ← deserialize actions location;
      let action := setExtensionIdentifier action identifier in
      if bool_decide (m_type action = IgnorePreviousRules) then Some ([], true)
      else '(rest, sawIgnorePreviousRules) ← collectActions actions identifier reversed; Some (action :: rest, sawIgnorePreviousRules)
  end.

(** The locations of the actions that one extension triggers for the bytes of a URL,
    and the extension with its cache. *)
Definition locationsForLoad (fuel : nat) (e : ContentExtension) (url : list Z) (flags : Z) (topURL : URL) : Run (list Z * ContentExtension) :=
  let c := m_compiledExtension e in
  withoutConditionsActions ← interpret (filtersWithoutConditionsBytecode c) None url flags fuel;
  '(topActions, e) ← topURLActions fuel e topURL;
  withConditionsActions ← interpretWithConditions (filtersWithConditionsBytecode c) url flags topActions fuel;
  '(universalWithConditions, e) ← universalActionsWithConditions fuel e topURL;
  Finished ((u32 <$> visit (elements withoutConditionsActions)) ++ (u32 <$> visit (elements withConditionsActions))
    ++ m_universalActionsWithoutConditions e ++ universalWithConditions, e).

Definition actionsForExtension (fuel : nat) (e : ContentExtension) (url : list Z) (flags : Z) (topURL : URL) : Run (list Action * bool * ContentExtension) :=
  '(locations, e) ← locationsForLoad fuel e url flags topURL;
  '(actions, sawIgnorePreviousRules) ← run_of (collectActions (compiledActions (m_compiledExtension e)) (m_identifier e) (reverse (merge_sort Z.le locations)));
  Finished (actions, sawIgnorePreviousRules, e).

(** The loop over the extensions. *)
Fixpoint actionsForExtensions (fuel : nat) (entries : list (list Z * ContentExtension)) (extensions : ContentExtensions) (url : list Z) (flags : Z) (topURL : URL)
    : Run (list Action * list (list Z) * ContentExtensions) :=
  match entries with
  | [] => Finished ([], [], extensions)
  | (key, e) :: entries =>
      '(actions, sawIgnorePreviousRules, e) ← actionsForExtension fuel e url flags topURL;
      '(finalActions, stylesheetIdentifiers, extensions) ← actionsForExtensions fuel entries (<[ key := e ]> extensions) url flags topURL;
      Finished (actions ++ finalActions, (if sawIgnorePreviousRules : bool then stylesheetIdentifiers else m_identifier e :: stylesheetIdentifiers), extensions)
  end.

Definition actionsForResourceLoad (fuel : nat) (extensions : ContentExtensions) (info : ResourceLoadInfo)
    : Run (list Action * list (list Z) * ContentExtensions) :=
  if bool_decide (extensions = ∅) || negb (m_isValid (resourceURL info)) || protocolIs (resourceURL info) [100; 97; 116; 97]
  then Finished ([], [], extensions)
  else
    urlCString ← run_of (utf8 (mkWString false (string_of (resourceURL info))));
    actionsForExtensions fuel (visit (map_to_list extensions)) extensions urlCString (getResourceFlags info) (mainDocumentURL info).

(** ** What becomes of the load *)

Record BlockedStatus := mkBlockedStatus {
  blockedLoad : bool;
  blockedCookies : bool;
  madeHTTPS : bool;
  notifications : gset (list Z * list Z)
}.

Definition notBlocked : BlockedStatus := mkBlockedStatus false false false ∅.

Definition http : list Z := [104; 116; 116; 112].
Definition ws : list Z := [119; 115].
Definition https : list Z := [104; 116; 116; 112; 115].
Definition wss : list Z := [119; 115; 115].

Definition argumentOf (a : Action) : list Z := characters (default emptyBuilder (m_stringArgument a)).

(** Whether a load can be promoted. *)
Definition canMakeHTTPS (url : URL) : option bool :=
  if protocolIs url http || protocolIs url ws then
    p ← port u_isWhiteSpaceNeutral url;
    Some match p with None => true | Some p => isDefaultPortForProtocol p (protocol url) end
  else Some false.

(** What the backend asks of the document and its loader. *)
Inductive Effect :=
  | AddPendingContentExtensionDisplayNoneSelector (identifier selector : list Z) (actionID : Z)
  | AddDisplayNoneSelector (identifier selector : list Z) (actionID : Z)
  | AddPendingContentExtensionSheet (identifier : list Z) (sheet : WString)
  | MaybeAddContentExtensionSheet (identifier : list Z) (sheet : WString)
  | ConsolePromoted (url newProtocol : list Z)
  | ConsolePrevented (mainDocument url : list Z).

(** The document loader that initiates a load. *)
Record DocumentLoader := mkDocumentLoader {
  hasFrame : bool;
  hasCurrentDocument : bool;
  isLoadingMainResource : bool;
  isMainFrame : bool;
  mainDocument : option URL
}.

(** One action of the loop of [processContentExtensionRulesForLoad]. *)
Definition loadAction (url : URL) (type : ResourceType) (currentDocument : bool) (st : BlockedStatus * list Effect) (a : Action)
    : option (BlockedStatus * list Effect) :=
  let '(s, effects) := st in
  match m_type a with
  | BlockLoad => Some (mkBlockedStatus true (blockedCookies s) (madeHTTPS s) (notifications s), effects)
  | BlockCookies => Some (mkBlockedStatus (blockedLoad s) true (madeHTTPS s) (notifications s), effects)
  | CSSDisplayNoneSelector =>
      let identifier := default [] (m_extensionIdentifier a) in
      Some (s, effects ++
        if bool_decide (type = RT_Document) then [AddPendingContentExtensionDisplayNoneSelector identifier (argumentOf a) (m_actionID a)]
        else if currentDocument : bool then [AddDisplayNoneSelector identifier (argumentOf a) (m_actionID a)] else [])
  | Notify =>
      Some (mkBlockedStatus (blockedLoad s) (blockedCookies s) (madeHTTPS s)
        (notifications s ∪ {[ (default [] (m_extensionIdentifier a), argumentOf a) ]}), effects)
  | MakeHTTPS =>
      can ← canMakeHTTPS url;
      Some (if can : bool then mkBlockedStatus (blockedLoad s) (blockedCookies s) true (notifications s) else s, effects)
  | IgnorePreviousRules => None
  end.

Fixpoint loadActions (url : URL) (type : ResourceType) (currentDocument : bool) (st : BlockedStatus * list Effect) (actions : list Action)
    : option (BlockedStatus * list Effect) :=
  match actions with
  | [] => Some st
  | a :: actions => st ← loadAction url type currentDocument st a; loadActions url type currentDocument st actions
  end.

(** The style sheets of the extensions without an exception. *)
Definition sheetEffects (extensions : ContentExtensions) (type : ResourceType) (currentDocument : bool) (identifiers : list (list Z)) : list Effect :=
  concat ((λ identifier,
    match globalDisplayNoneStyleSheet extensions identifier with
    | Some sheet =>
        if bool_decide (type = RT_Document) then [AddPendingContentExtensionSheet identifier sheet]
        else if currentDocument then [MaybeAddContentExtensionSheet identifier sheet] else []
    | None => []
    end) <$> identifiers).

(** The URL of the main document that a load is judged for. *)
Definition mainDocumentURLFor (url : URL) (type : ResourceType) (loader : DocumentLoader) : URL :=
  if hasFrame loader then
    if isLoadingMainResource loader && isMainFrame loader && bool_decide (type = RT_Document) then url
    else default nullURL (mainDocument loader)
  else nullURL.

Definition processContentExtensionRulesForLoad (fuel : nat) (extensions : ContentExtensions) (url : URL) (type : ResourceType) (loader : DocumentLoader)
    : Run (BlockedStatus * list Effect * ContentExtensions) :=
  if bool_decide (extensions = ∅) then Finished (notBlocked, [], extensions)
  else
    let currentDocument := hasFrame loader && hasCurrentDocument loader in
    let mainDocumentURL := mainDocumentURLFor url type loader in
    '(actions, identifiers, extensions) ← actionsForResourceLoad fuel extensions (mkResourceLoadInfo url mainDocumentURL type);
    '(status, effects) ← run_of (loadActions url type currentDocument (notBlocked, []) actions);
    let messages :=
      if currentDocument then
        (if madeHTTPS status then [ConsolePromoted (string_of url) (if protocolIs url http then https else wss)] else [])
        ++ (if blockedLoad status then [ConsolePrevented (string_of mainDocumentURL) (string_of url)] else [])
      else [] in
    Finished (status, effects ++ sheetEffects extensions type currentDocument identifiers ++ messages, extensions).

(** One action of the loop for a ping. *)
Definition pingAction (url : URL) (s : BlockedStatus) (a : Action) : option BlockedStatus :=
  match m_type a with
  | BlockLoad => Some (mkBlockedStatus true (blockedCookies s) (madeHTTPS s) (notifications s))
  | BlockCookies => Some (mkBlockedStatus (blockedLoad s) true (madeHTTPS s) (notifications s))
  | MakeHTTPS =>
      can ← canMakeHTTPS url;
      Some (if can : bool then mkBlockedStatus (blockedLoad s) (blockedCookies s) true (notifications s) else s)
  | CSSDisplayNoneSelector | Notify => Some s
  | IgnorePreviousRules => None
  end.

Fixpoint pingActions (url : URL) (s : BlockedStatus) (actions : list Action) : option BlockedStatus :=
  match actions with
  | [] => Some s
  | a :: actions => s ← pingAction url s a; pingActions url s actions
  end.

Definition processContentExtensionRulesForPingLoad (fuel : nat) (extensions : ContentExtensions) (url mainDocumentURL : URL)
    : Run (BlockedStatus * ContentExtensions) :=
  if bool_decide (extensions = ∅) then Finished (notBlocked, extensions)
  else
    '(actions, _, extensions) ← actionsForResourceLoad fuel extensions (mkResourceLoadInfo url mainDocumentURL RT_Raw);
    status ← run_of (pingActions url notBlocked actions);
    Finished (status, extensions).

(** ** The request *)

(** What is done to a request and the client of its page. *)
Inductive RequestChange :=
  | ContentRuleListNotification (url : URL) (notifications : gset (list Z * list Z))
  | SetAllowCookies (allow : bool)
  | SetURL (url : URL) (protocol : list Z) (port : option Z).

(** The new URL is the one of the request with another protocol and, if it had a port, another port. *)
Definition applyBlockedStatusToRequest (status : BlockedStatus) (hasPage : bool) (url : URL) : option (list RequestChange) :=
  https_changes ← (if madeHTTPS status then p ← port u_isWhiteSpaceNeutral url;
                     Some [SetURL url https (if p is Some _ then defaultPortForProtocol https else None)]
                   else Some []);
  Some ((if hasPage && negb (bool_decide (notifications status = ∅)) then [ContentRuleListNotification url (notifications status)] else [])
    ++ (if blockedCookies status then [SetAllowCookies false] else []) ++ https_changes).

End Backend.
