(* ===== verification/ExceptionProof.v ===== *)
(** * Exceptions: rules that ignore the previous rules

    The reader walks the locations of the triggered actions from the last to the
    first and stops at an exception.  With the order in which the compiler lays
    the actions out, what it collects is what the rule list means. *)

From stdpp Require Import base numbers option list list_numbers gmap sorting.
From Stdlib Require Import ZArith Lia.
From S2P Require Import Prelude.
From S2P Require Import DFABytecode.
From S2P Require Import DFABytecodeInterpreter.
From S2P Require Import ContentExtensionRule.
From S2P Require Import ActionSerialization.
From S2P Require Import SerializationProof.
From S2P Require Import URL.
From S2P Require Import ContentExtension.
From S2P Require Import ContentExtensionsBackend.

(** ** Collecting from the last location *)

Lemma StronglySorted_reverse {A} (R : relation A) l : StronglySorted R l -> StronglySorted (flip R) (reverse l).
Proof.
  induction 1 as [|x l Hs IH Hx]; [constructor|]. rewrite reverse_cons. apply StronglySorted_app_2; [|done|repeat constructor].
  intros a b Ha ->%list_elem_of_singleton. rewrite elem_of_reverse in Ha. exact (proj1 (Forall_forall _ _) Hx a Ha).
Qed.

Lemma sorted_descending locations : StronglySorted (flip Z.le) (reverse (merge_sort Z.le locations)).
Proof. apply StronglySorted_reverse, StronglySorted_merge_sort; apply _. Qed.

Lemma elem_of_descending locations l : l ∈ reverse (merge_sort Z.le locations) <-> l ∈ locations.
Proof. by rewrite elem_of_reverse, merge_sort_Permutation. Qed.

(** Where the actions are collected from. *)
Definition action_at (bytes identifier : list Z) (location : Z) (a : Action) : Prop :=
  exists a0, deserialize bytes location = Some a0 /\ a = setExtensionIdentifier a0 identifier.

Definition typed (bytes : list Z) (location : Z) (t : ActionType) : Prop := exists a, deserialize bytes location = Some a /\ m_type a = t.

Lemma typed_functional bytes location t t' : typed bytes location t -> typed bytes location t' -> t = t'.
Proof. intros (a & Ha & <-) (b & Hb & <-). by simplify_eq. Qed.

(** The actions from the last location down to the last exception. *)
Lemma collectActions_spec bytes identifier ds : StronglySorted (flip Z.le) ds -> Forall (λ l, is_Some (deserialize bytes l)) ds ->
  exists acts saw, collectActions bytes identifier ds = Some (acts, saw) /\
    (saw = true <-> exists l, l ∈ ds /\ typed bytes l IgnorePreviousRules) /\
    (forall a, a ∈ acts <-> exists l, l ∈ ds /\ action_at bytes identifier l a /\ m_type a <> IgnorePreviousRules /\
      forall l', l' ∈ ds -> typed bytes l' IgnorePreviousRules -> l' < l).
Proof.
  induction 1 as [|l ds Hs IH Hl]; intros Hd; cbn [collectActions].
  { exists [], false. split_and!; [done| |].
    - split; [done|by intros (l & ?%elem_of_nil & _)].
    - intros a. split; [by intros ?%elem_of_nil|by intros (l & ?%elem_of_nil & _)]. }
  apply Forall_cons in Hd as [[a0 Ha0] Hds]. rewrite Ha0. cbn [mbind option_bind m_type setExtensionIdentifier].
  pose proof (proj1 (Forall_forall _ _) Hl) as Hle. case_bool_decide as Ht.
  - assert (typed bytes l IgnorePreviousRules) as Hty by (by exists a0). exists [], true. split_and!; [done| |].
    + split; [|done]. intros _. exists l. by split; [left|].
    + intros a. split; [by intros ?%elem_of_nil|]. intros (l1 & Hl1 & _ & _ & Hlt). specialize (Hlt l ltac:(left) Hty).
      apply elem_of_cons in Hl1 as [->|Hl1]; [lia|]. specialize (Hle l1 Hl1). simpl in Hle. lia.
  - destruct (IH Hds) as (acts & saw & -> & Hsaw & Hacts). cbn [mbind option_bind]. eexists _, saw. split; [reflexivity|].
    assert (~ typed bytes l IgnorePreviousRules) as Hnt by (intros (a & Ha & ?); simplify_eq).
    split.
    + rewrite Hsaw. split; intros (l' & Hl' & Hty); exists l'; [split; [by right|done]|]. apply elem_of_cons in Hl' as [->|?]; done.
    + intros a. rewrite elem_of_cons, Hacts. split.
      * intros [->|(l1 & Hl1 & Hat & Hna & Hlt)].
        -- exists l. split_and!; [left|by exists a0|done|]. intros l' [->|Hl']%elem_of_cons Hty; [done|]. specialize (Hle l' Hl'). simpl in Hle.
           destruct (decide (l' = l)) as [->|]; [done|lia].
        -- exists l1. split_and!; [by right|done|done|]. intros l' [->|Hl']%elem_of_cons Hty; [done|by apply Hlt].
      * intros (l1 & [->|Hl1]%elem_of_cons & Hat & Hna & Hlt).
        -- left. destruct Hat as (a1 & Ha1 & ->). by simplify_eq.
        -- right. exists l1. split_and!; [done..|]. intros l' Hl' Hty. apply Hlt; [by right|done].
Qed.

(** ** The layout that the compiler promises *)

Record Layout (rules : list ContentExtensionRule) (locations bytes : list Z) : Prop := {
  la_length : length locations = length rules;
  la_typed k r l : rules !! k = Some r -> locations !! k = Some l -> typed bytes l (m_type (m_action r));
  la_order i j ri rj li lj : rules !! i = Some ri -> rules !! j = Some rj -> isIgnore ri <> isIgnore rj ->
    locations !! i = Some li -> locations !! j = Some lj -> (i < j)%nat -> li < lj
}.

Lemma serializeActions_layout `{HashMapOrder} rules locations bytes :
  Forall rule_ok rules -> serializeActions rules = Some (locations, bytes) -> vec_size bytes < 2 ^ 32 -> Layout rules locations bytes.
Proof.
  intros Hok Hser Hsz. destruct (serializeActions_sound rules locations bytes Hok Hser Hsz) as (s & Hi & Hp & <- & <-). constructor.
  - exact (v_length _ _ Hi).
  - intros k r l Hr Hl. destruct (v_resolved _ _ Hi k r Hr) as (l' & arg & Hl' & He & Hargok & _); [rewrite Hp; apply not_elem_of_nil|].
    simplify_eq. eexists. split; [by apply deserialize_entry|done].
  - intros i j ri rj li lj Hri Hrj Hne Hli Hlj Hij. apply (v_order _ _ Hi i j ri rj li lj); try done; rewrite Hp; apply not_elem_of_nil.
Qed.

Lemma isIgnore_iff r : isIgnore r = true <-> m_type (m_action r) = IgnorePreviousRules.
Proof. apply bool_decide_eq_true. Qed.

Section Reader.
Context (rules : list ContentExtensionRule) (locations bytes : list Z) (HL : Layout rules locations bytes).

Lemma la_rule k l : locations !! k = Some l -> exists r, rules !! k = Some r.
Proof. intros Hl. apply lookup_lt_is_Some. rewrite <- (la_length _ _ _ HL). by apply lookup_lt_is_Some. Qed.

Lemma la_location k r : rules !! k = Some r -> exists l, locations !! k = Some l.
Proof. intros Hr. apply lookup_lt_is_Some. rewrite (la_length _ _ _ HL). by apply lookup_lt_is_Some. Qed.

(** An exception is known by what lies at its location. *)
Lemma la_ignore k r l : rules !! k = Some r -> locations !! k = Some l -> typed bytes l IgnorePreviousRules <-> isIgnore r = true.
Proof.
  intros Hr Hl. rewrite isIgnore_iff. pose proof (la_typed _ _ _ HL k r l Hr Hl) as Ht. split; [by apply typed_functional|]. by intros <-.
Qed.

Lemma la_action_ignore k r l identifier a : rules !! k = Some r -> locations !! k = Some l -> action_at bytes identifier l a ->
  m_type a = IgnorePreviousRules <-> isIgnore r = true.
Proof.
  intros Hr Hl (a0 & Ha0 & ->). rewrite <- (la_ignore k r l Hr Hl). cbn. split; [by exists a0|]. intros (a1 & Ha1 & ?). by simplify_eq.
Qed.

Lemma la_order_iff i j ri rj li lj : rules !! i = Some ri -> rules !! j = Some rj -> isIgnore ri <> isIgnore rj ->
  locations !! i = Some li -> locations !! j = Some lj -> li < lj <-> (i < j)%nat.
Proof.
  intros Hri Hrj Hne Hli Hlj. split; [|by apply (la_order _ _ _ HL i j ri rj)]. intros Hlt.
  destruct (lt_eq_lt_dec i j) as [[?| ->]|Hji]; [done|congruence|]. pose proof (la_order _ _ _ HL j i rj ri lj li Hrj Hri (not_eq_sym Hne) Hlj Hli Hji). lia.
Qed.

End Reader.

(** ** What the rule list means *)

(** The rule is triggered and no exception after it is. *)
Definition effective (rules : list ContentExtensionRule) (triggered : nat -> Prop) (k : nat) : Prop :=
  triggered k /\ forall j r, rules !! j = Some r -> triggered j -> isIgnore r = true -> (j < k)%nat.

(** C8: The meaning of exceptions.  Take any rule list, serialized; any set of
    its rules; and any list of locations that has the locations of exactly these
    rules.  Then the loop of [actionsForResourceLoad] over the sorted locations
    succeeds, says whether one of the rules is an exception, and collects exactly
    the actions of the rules that are not exceptions and come after every
    exception of the set. *)
Theorem collectActions_correct `{HashMapOrder} rules locations bytes identifier (triggered : nat -> Prop) found :
  Forall rule_ok rules -> serializeActions rules = Some (locations, bytes) -> vec_size bytes < 2 ^ 32 ->
  (forall l, l ∈ found <-> exists k, triggered k /\ locations !! k = Some l) ->
  exists acts saw, collectActions bytes identifier (reverse (merge_sort Z.le found)) = Some (acts, saw) /\
    (saw = true <-> exists k r, rules !! k = Some r /\ triggered k /\ isIgnore r = true) /\
    (forall a, a ∈ acts <-> exists k r l, rules !! k = Some r /\ locations !! k = Some l /\ effective rules triggered k /\ isIgnore r = false /\
      action_at bytes identifier l a).
Proof.
  intros Hok Hser Hsz Hfound. pose proof (serializeActions_layout _ _ _ Hok Hser Hsz) as HL.
  destruct (collectActions_spec bytes identifier (reverse (merge_sort Z.le found)) (sorted_descending found)) as (acts & saw & Hc & Hsaw & Hacts).
  { apply Forall_forall. intros l Hl. apply elem_of_descending, Hfound in Hl as (k & _ & Hk). destruct (la_rule _ _ _ HL k l Hk) as [r Hr].
    destruct (la_typed _ _ _ HL k r l Hr Hk) as (a & Ha & _). by exists a. }
  setoid_rewrite elem_of_descending in Hsaw. setoid_rewrite elem_of_descending in Hacts. setoid_rewrite Hfound in Hsaw. setoid_rewrite Hfound in Hacts.
  exists acts, saw. split_and!; [done| |].
  - rewrite Hsaw. split.
    + intros (l & (k & Hk & Hkl) & Hty). destruct (la_rule _ _ _ HL k l Hkl) as [r Hr]. exists k, r. split_and!; [done..|]. by apply (la_ignore _ _ _ HL k r l).
    + intros (k & r & Hr & Hk & Hi). destruct (la_location _ _ _ HL k r Hr) as [l Hl]. exists l. split; [by exists k|]. by apply (la_ignore _ _ _ HL k r l).
  - intros a. rewrite Hacts. split.
    + intros (l & (k & Hk & Hkl) & Hat & Hna & Hlast). destruct (la_rule _ _ _ HL k l Hkl) as [r Hr].
      assert (isIgnore r = false) as Hnr by (apply not_true_is_false; by rewrite <- (la_action_ignore _ _ _ HL k r l identifier a)).
      exists k, r, l. split_and!; [done..| |done|done]. split; [done|]. intros j rj Hrj Hj Hij. destruct (la_location _ _ _ HL j rj Hrj) as [lj Hlj].
      apply (la_order_iff _ _ _ HL j k rj r lj l); try done; [congruence|]. apply Hlast; [by exists j|]. by apply (la_ignore _ _ _ HL j rj lj).
    + intros (k & r & l & Hr & Hl & [Hk Heff] & Hnr & Hat). exists l. split_and!; [by exists k|done| |].
      * rewrite (la_action_ignore _ _ _ HL k r l identifier a) by done. by rewrite Hnr.
      * intros l' (j & Hj & Hjl) Hty'. destruct (la_rule _ _ _ HL j l' Hjl) as [rj Hrj]. apply (la_ignore _ _ _ HL j rj l' Hrj Hjl) in Hty'.
        apply (la_order _ _ _ HL j k rj r l' l); try done; [congruence|]. by apply (Heff j rj).
Qed.

(** The rules of the sample that are triggered: a selector, the exception and the two blocks around it. *)
Definition sampleTriggered (k : nat) : Prop := k = 1%nat \/ k = 2%nat \/ k = 3%nat \/ k = 6%nat.

Definition sampleBytes : list Z := Eval vm_compute in default [] (snd <$> serializeActions sampleRules).

Lemma collectActions_correct_witness : exists acts saw, collectActions sampleBytes [105] (reverse (merge_sort Z.le [18; 0; 17; 1])) = Some (acts, saw) /\
  saw = true /\ exists a, a ∈ acts /\ m_type a = BlockLoad.
Proof.
  destruct (collectActions_correct sampleRules [1; 0; 1; 17; 18; 19; 18] sampleBytes [105] sampleTriggered [18; 0; 17; 1] sampleRules_ok) as (acts & saw & Hc & Hs & Ha).
  - by vm_compute.
  - by vm_compute.
  - intros l. rewrite !elem_of_cons, elem_of_nil. split.
    + intros [->|[->|[->|[->|[]]]]]; [exists 6%nat|exists 1%nat|exists 3%nat|exists 2%nat]; unfold sampleTriggered; split; (lia || done).
    + intros (k & [->|[->|[->| ->]]] & [= <-]); tauto.
  - exists acts, saw. split_and!; [done| |].
    + apply Hs. exists 3%nat. eexists. split_and!; [reflexivity|unfold sampleTriggered; lia|done].
    + exists (mkAction (Some [105]) BlockLoad 18 None). split; [|done]. apply Ha. exists 6%nat. eexists. exists 18. split_and!; [reflexivity|done| |done|].
      * split; [unfold sampleTriggered; lia|]. intros j r Hr [->|[->|[->| ->]]] Hi; vm_compute in Hr; simplify_eq; (done || lia).
      * eexists. split; [by vm_compute|done].
Defined.
