(* ===== verification/GlobalStyleSheet.v ===== *)
(** * The first exception and the global style sheet

    The serialized actions are a sequence of entries, which
    [findFirstIgnorePreviousRules] walks; the entry that it finds separates the
    rules that no exception precedes, whose selectors may move to the global
    style sheet, from the others. *)

From stdpp Require Import base numbers option list list_numbers gmap sorting.
From Stdlib Require Import ZArith Lia.
From S2P Require Import Prelude.
From S2P Require Import DFABytecode.
From S2P Require Import DFABytecodeInterpreter.
From S2P Require Import ContentExtensionRule.
From S2P Require Import ActionSerialization.
From S2P Require Import SerializationProof.
From S2P Require Import URL.
From S2P Require Import ContentExtension.
From S2P Require Import ContentExtensionsBackend.
From S2P Require Import ExceptionProof.

(** ** Entries *)

Definition bytes_of (es : list (ActionType * WString)) : list Z := concat ((λ e, entry e.1 e.2) <$> es).

Lemma bytes_of_app a b : bytes_of (a ++ b) = bytes_of a ++ bytes_of b.
Proof. unfold bytes_of. by rewrite fmap_app, concat_app. Qed.

Lemma bytes_of_cons e es : bytes_of (e :: es) = entry e.1 e.2 ++ bytes_of es.
Proof. done. Qed.

(** An exception starts at the location. *)
Definition exception_at (es : list (ActionType * WString)) (location : Z) : Prop :=
  exists pre arg post, es = pre ++ (IgnorePreviousRules, arg) :: post /\ location = vec_size (bytes_of pre).

Lemma exception_at_app es more l : exception_at es l -> exception_at (es ++ more) l.
Proof. intros (pre & arg & post & -> & ->). exists pre, arg, (post ++ more). by rewrite <- app_assoc. Qed.

Lemma exception_at_app_inv es more l : Forall (λ e, e.1 <> IgnorePreviousRules) more -> exception_at (es ++ more) l -> exception_at es l.
Proof.
  intros Hm (pre & arg & post & E & ->). apply app_eq_inv in E as [(k & -> & Ek)|(k & -> & ->)].
  - destruct k as [|e k]; simplify_eq/=; [by apply Forall_inv in Hm|]. by exists pre, arg, k.
  - apply Forall_app in Hm as [_ Hm]. apply Forall_inv in Hm. done.
Qed.

Lemma exception_at_snoc_inv es t arg l : exception_at (es ++ [(t, arg)]) l ->
  exception_at es l \/ (t = IgnorePreviousRules /\ l = vec_size (bytes_of es)).
Proof.
  intros Hx. destruct (decide (t = IgnorePreviousRules)) as [->|Ht].
  - destruct Hx as (pre & arg' & post & E & ->). destruct post as [|e post _] using rev_ind.
    + apply app_inj_tail in E as [-> _]. by right.
    + left. rewrite app_comm_cons, app_assoc in E. apply app_inj_tail in E as [-> _]. by exists pre, arg', post.
  - left. apply (exception_at_app_inv es [(t, arg)]); [|done]. by repeat constructor.
Qed.

Lemma exception_at_new es arg : exception_at (es ++ [(IgnorePreviousRules, arg)]) (vec_size (bytes_of es)).
Proof. by exists es, arg, []. Qed.

(** ** Walking the entries *)

Definition before_exception (es : list (ActionType * WString)) (l : Z) : Prop := forall l', exception_at es l' -> l <= l'.

Lemma entry_at_chunk pre t arg post : entry_at (bytes_of (pre ++ (t, arg) :: post)) (vec_size (bytes_of pre)) t arg.
Proof. rewrite bytes_of_app, bytes_of_cons. by exists (bytes_of pre), (bytes_of post). Qed.

Lemma findFirstLoop_spec fuel pre es : (length es < fuel)%nat -> Forall (λ e, e.1 <> IgnorePreviousRules) pre -> vec_size (bytes_of (pre ++ es)) < 2 ^ 32 ->
  exists l, findFirstLoop fuel (bytes_of (pre ++ es)) (vec_size (bytes_of pre)) = Finished l /\
    ((exception_at (pre ++ es) l /\ before_exception (pre ++ es) l) \/ (l = UINT32_MAX /\ forall l', ~ exception_at (pre ++ es) l')).
Proof.
  revert pre es. induction fuel as [|fuel IH]; intros pre es Hf Hpre Hsz; [lia|]. cbn [findFirstLoop]. destruct es as [|[t arg] es].
  - rewrite app_nil_r in *. rewrite Z.ltb_irrefl. exists UINT32_MAX. split; [done|]. right. split; [done|]. intros l' (p & a & q & -> & _).
    apply Forall_app in Hpre as [_ Hpre]. by apply Forall_inv in Hpre.
  - pose proof (entry_at_chunk pre t arg es) as He. pose proof (entry_at_bound _ _ _ _ He) as Hb. rewrite (proj2 (Z.ltb_lt _ _)) by lia.
    rewrite (deserializeType_entry _ _ _ _ He). cbn [mbind run_bind run_of]. case_bool_decide as Ht.
    + subst t. eexists. split; [reflexivity|]. left. split; [by exists pre, arg, es|]. intros l' (p & a & q & E & ->).
      apply app_eq_inv in E as [(k & -> & Ek)|(k & -> & _)].
      * destruct k as [|e k]; simplify_eq/=; [by rewrite app_nil_r|]. apply Forall_app in Hpre as [_ Hpre]. by apply Forall_inv in Hpre.
      * rewrite bytes_of_app, vec_size_app. unfold vec_size. lia.
    + rewrite (serializedLength_entry _ _ _ _ He Hsz). cbn [mbind run_bind run_of].
      assert (pre ++ (t, arg) :: es = (pre ++ [(t, arg)]) ++ es) as E by (by rewrite <- app_assoc).
      assert (vec_size (bytes_of pre) + vec_size (entry t arg) = vec_size (bytes_of (pre ++ [(t, arg)]))) as ->.
      { rewrite bytes_of_app, vec_size_app, bytes_of_cons. cbn [fst snd]. unfold bytes_of at 2. cbn [fmap list_fmap concat]. by rewrite app_nil_r. }
      rewrite E in *. assert (vec_size (bytes_of (pre ++ [(t, arg)])) <= vec_size (bytes_of ((pre ++ [(t, arg)]) ++ es))).
      { rewrite (bytes_of_app (pre ++ [(t, arg)])), vec_size_app. unfold vec_size. lia. }
      rewrite uwrap_small by (unfold vec_size in *; simpl; lia). apply IH; [simpl in Hf; lia| |done]. apply Forall_app. split; [done|]. by repeat constructor.
Qed.

(** ** The exceptions of a rule list and of its bytes *)

Record ignores (rules : list ContentExtensionRule) (s : Serializer) (es : list (ActionType * WString)) : Prop := {
  g_bytes : actions s = bytes_of es;
  g_entries l : exception_at es l -> exists i r, rules !! i = Some r /\ isIgnore r = true /\ actionLocations s !! i = Some l;
  g_rules i r l : rules !! i = Some r -> isIgnore r = true -> actionLocations s !! i = Some l -> exception_at es l;
  g_map f l : ignorePreviousRuleActionsMap s !! f = Some l -> exception_at es l
}.

Section Ignores.
Context `{HashMapOrder}.

Lemma resolvePending_bytes pendings acts locations acts' locations' : resolvePending pendings acts locations = Some (acts', locations') ->
  acts' = acts ++ bytes_of ((λ p, (CSSDisplayNoneSelector, combinedSelectors p)) <$> pendings).
Proof.
  revert acts locations. induction pendings as [|p pendings IH]; intros acts locations; cbn [resolvePending].
  { intros [= <- <-]. by rewrite app_nil_r. }
  rewrite serializeString_entry by done. destruct (setLocations _ _ _) as [l1|]; cbn [mbind option_bind]; [|done].
  intros Hr. rewrite (IH _ _ Hr), fmap_cons, bytes_of_cons, <- app_assoc. done.
Qed.

Lemma resolve_ignores rules s s' es : inv rules s -> ignores rules s es -> resolvePendingDisplayNoneActions s = Some s' -> vec_size (actions s') < 2 ^ 32 ->
  exists es', ignores rules s' es'.
Proof.
  intros Hi Hg Hr Hsz. destruct (resolve_spec s (inv_clients _ _ Hi)) as (s0 & Hr' & _ & _ & _ & _ & _ & _ & _ & E5 & Hspec).
  rewrite Hr in Hr'. injection Hr' as <-. specialize (Hspec Hsz).
  set (css := (λ p, (CSSDisplayNoneSelector, combinedSelectors p)) <$> visit (snd <$> cssDisplayNoneActionsMap s)).
  assert (forall l, exception_at (es ++ css) l -> exception_at es l) as Hinv.
  { intros l. apply exception_at_app_inv. unfold css. apply Forall_fmap, Forall_forall. by intros p _. }
  assert (forall i r, rules !! i = Some r -> isIgnore r = true -> actionLocations s' !! i = actionLocations s !! i) as Hloc.
  { intros i r Hir Hig. apply (Hspec i). exact (ignore_not_pending rules s i r Hi Hir Hig). }
  exists (es ++ css). constructor.
  - rewrite bytes_of_app, <- (g_bytes _ _ _ Hg). unfold resolvePendingDisplayNoneActions in Hr.
    destruct (resolvePending _ _ _) as [[acts' locs']|] eqn:Hp; cbn [mbind option_bind] in Hr; [|done]. injection Hr as <-. exact (resolvePending_bytes _ _ _ _ _ Hp).
  - intros l Hl%Hinv. destruct (g_entries _ _ _ Hg l Hl) as (i & r & Hir & Hig & Hli). exists i, r. by rewrite (Hloc i r Hir Hig).
  - intros i r l Hir Hig. rewrite (Hloc i r Hir Hig). intros Hl. apply exception_at_app. exact (g_rules _ _ _ Hg i r l Hir Hig Hl).
  - intros f l. rewrite E5. intros Hl. apply exception_at_app. exact (g_map _ _ _ Hg f l Hl).
Qed.

Lemma clear_ignores rules s s' t es : inv rules s -> ignores rules s es -> clearMaps s t = Some s' -> vec_size (actions s') < 2 ^ 32 -> exists es', ignores rules s' es'.
Proof.
  intros Hi Hg. unfold clearMaps. case_bool_decide.
  - destruct (resolvePendingDisplayNoneActions s) as [s1|] eqn:Hr; cbn [mbind option_bind]; [|done]. intros [= <-] Hsz.
    destruct (resolve_ignores rules s s1 es Hi Hg Hr Hsz) as [es' Hg']. exists es'. destruct Hg'. by constructor.
  - intros [= <-] _. exists es. destruct Hg. by constructor.
Qed.

(** The rule got an entry at the end of the bytes. *)
Lemma ignores_append rules r s s' es arg : inv rules s -> ignores rules s es ->
  actions s' = actions s ++ entry (m_type (m_action r)) arg -> actionLocations s' = actionLocations s ++ [vec_size (actions s)] ->
  (forall f l, ignorePreviousRuleActionsMap s' !! f = Some l -> ignorePreviousRuleActionsMap s !! f = Some l \/ (isIgnore r = true /\ l = vec_size (actions s))) ->
  ignores (rules ++ [r]) s' (es ++ [(m_type (m_action r), arg)]).
Proof.
  intros Hi Hg Ea El Hmap. pose proof (v_length _ _ Hi) as Hlen.
  assert (isIgnore r = true -> exception_at (es ++ [(m_type (m_action r), arg)]) (vec_size (actions s))) as Hnew.
  { rewrite isIgnore_iff. intros ->. rewrite (g_bytes _ _ _ Hg). apply exception_at_new. }
  constructor.
  - rewrite Ea, bytes_of_app, (g_bytes _ _ _ Hg), bytes_of_cons. cbn [fst snd]. unfold bytes_of at 3. cbn [fmap list_fmap concat]. by rewrite app_nil_r.
  - intros l [Hl|[Ht ->]]%exception_at_snoc_inv.
    + destruct (g_entries _ _ _ Hg l Hl) as (i & r' & Hr & Hig & Hli). exists i, r'. rewrite El. split_and!; [by apply lookup_app_l_Some|done|by apply lookup_app_l_Some].
    + exists (length rules), r. rewrite El, <- (g_bytes _ _ _ Hg). split_and!; [by rewrite lookup_app_r, Nat.sub_diag by done|by apply isIgnore_iff|].
      by rewrite <- Hlen, lookup_app_r, Nat.sub_diag by done.
  - intros i r' l. rewrite El. intros [[Hlt Hr]|[-> <-]]%lookup_snoc_Some Hig.
    + rewrite lookup_app_l by lia. intros Hl. apply exception_at_app. exact (g_rules _ _ _ Hg i r' l Hr Hig Hl).
    + rewrite <- Hlen, lookup_app_r, Nat.sub_diag by done. intros [= <-]. by apply Hnew.
  - intros f l [Hl|[Hig ->]]%Hmap; [|by apply Hnew]. apply exception_at_app. exact (g_map _ _ _ Hg f l Hl).
Qed.

(** The rule shares an entry, or waits for one. *)
Lemma ignores_shared rules r s s' es l0 : inv rules s -> ignores rules s es ->
  actions s' = actions s -> actionLocations s' = actionLocations s ++ [l0] -> (isIgnore r = true -> exception_at es l0) ->
  ignorePreviousRuleActionsMap s' = ignorePreviousRuleActionsMap s -> ignores (rules ++ [r]) s' es.
Proof.
  intros Hi Hg Ea El Hnew Hmap. pose proof (v_length _ _ Hi) as Hlen. constructor.
  - by rewrite Ea, (g_bytes _ _ _ Hg).
  - intros l Hl. destruct (g_entries _ _ _ Hg l Hl) as (i & r' & Hr & Hig & Hli). exists i, r'. rewrite El. split_and!; [by apply lookup_app_l_Some|done|by apply lookup_app_l_Some].
  - intros i r' l. rewrite El. intros [[Hlt Hr]|[-> <-]]%lookup_snoc_Some Hig.
    + rewrite lookup_app_l by lia. intros Hl. exact (g_rules _ _ _ Hg i r' l Hr Hig Hl).
    + rewrite <- Hlen, lookup_app_r, Nat.sub_diag by done. intros [= <-]. by apply Hnew.
  - intros f l. rewrite Hmap. exact (g_map _ _ _ Hg f l).
Qed.

(** An action without a string that is shared or made. *)
Lemma ignores_made rules r s s' es m f l acts' m' : inv rules s -> ignores rules s es ->
  findOrMakeActionLocation (actions s) m f (m_type (m_action r)) = (l, acts', m') -> hasStringArgument (m_type (m_action r)) = false ->
  actions s' = acts' -> vec_size acts' < 2 ^ 32 -> actionLocations s' = actionLocations s ++ [l] ->
  (if isIgnore r then m = ignorePreviousRuleActionsMap s /\ ignorePreviousRuleActionsMap s' = m' else ignorePreviousRuleActionsMap s' = ignorePreviousRuleActionsMap s) ->
  exists es', ignores (rules ++ [r]) s' es'.
Proof.
  intros Hi Hg Hf Ht Ea Hsz El Hm. pose proof (findOrMake_prefix _ _ _ _ _ _ _ Hf) as Hp. unfold findOrMakeActionLocation in Hf. destruct (m !! f) as [l1|] eqn:Hl1.
  - injection Hf as <- <- <-. exists es. apply (ignores_shared rules r s s' es l1); try done.
    + destruct (isIgnore r); [|done]. intros _. destruct Hm as [-> _]. exact (g_map _ _ _ Hg f l1 Hl1).
    + destruct (isIgnore r); [|done]. by destruct Hm as [-> ->].
  - injection Hf as <- <- <-. assert (u32 (vec_size (actions s)) = vec_size (actions s)) as Eu.
    { apply prefix_length in Hp. unfold vec_size in *. apply uwrap_small. simpl. lia. }
    rewrite Eu in *. exists (es ++ [(m_type (m_action r), emptyBuilder)]). apply (ignores_append rules r s s' es); try done.
    + rewrite Ea. unfold entry. by rewrite Ht.
    + intros g l Hg'. destruct (isIgnore r); [|left; by rewrite <- Hm]. destruct Hm as [-> E]. rewrite E in Hg'.
      apply lookup_insert_Some in Hg' as [[_ <-]|[_ ?]]; tauto.
Qed.

Lemma serializeRule_ignores rules s s' r es : inv rules s -> ignores rules s es -> serializeRule s r = Some s' -> vec_size (actions s') < 2 ^ 32 ->
  (forall s1, clearMaps s (m_type (m_action r)) = Some s1 -> actions s1 `prefix_of` actions s') -> exists es', ignores (rules ++ [r]) s' es'.
Proof.
  intros Hi0 Hg0 Hser Hsz Hmono. unfold serializeRule in Hser. destruct (clearMaps s _) as [s1|] eqn:Hcl; [|done]. cbn [mbind option_bind] in Hser.
  pose proof (Hmono s1 eq_refl) as Hp1. assert (vec_size (actions s1) < 2 ^ 32) as Hsz1 by (pose proof (vec_size_prefix _ _ Hp1); lia).
  destruct (clear_inv rules s s1 _ Hi0 Hcl Hsz1) as (Hi & _ & _). destruct (clear_ignores rules s s1 _ es Hi0 Hg0 Hcl Hsz1) as [es1 Hg].
  clear Hi0 Hcl Hmono Hg0 es s. rename s1 into s. assert (u32 (vec_size (actions s)) = vec_size (actions s)) as Eu.
  { apply uwrap_small. unfold vec_size in *. simpl. lia. }
  case_bool_decide as Hcond; cbn [negb] in Hser.
  2: { injection Hser as <-. exists (es1 ++ [(m_type (m_action r), argument r)]). apply (ignores_append rules r s _ es1); try done; unfold pushAction; cbn.
       - destruct (hasStringArgument _) eqn:Et; [by rewrite serializeString_entry|]. unfold entry. by rewrite Et.
       - by rewrite Eu.
       - by left. }
  pose proof (isIgnore_iff r) as Hig. destruct (m_type (m_action r)) eqn:Et; injection Hser as Hser.
  all: assert (isIgnore r = bool_decide (m_type (m_action r) = IgnorePreviousRules)) as Er by done; rewrite Et in Er;
    first [rewrite bool_decide_false in Er by done | rewrite bool_decide_true in Er by done].
  all: try (destruct (findOrMakeActionLocation _ _ _ _) as [[l acts'] m'] eqn:Ef; rewrite <- Et in Ef; subst s';
    eapply (ignores_made rules r s _ es1 _ _ l acts' m' Hi Hg Ef); [by rewrite Et|reflexivity|exact Hsz|reflexivity|by rewrite Er]).
  - subst s'. exists es1. apply (ignores_shared rules r s _ es1 UINT32_MAX); try done. by rewrite Er.
  - destruct (findOrMakeStringActionLocation _ _ _ _ _) as [[l acts'] m'] eqn:Ef. subst s'. unfold findOrMakeStringActionLocation in Ef.
    destruct (notifyActionsMap s !! _) as [l1|]; injection Ef as <- <- <-.
    + exists es1. apply (ignores_shared rules r s _ es1 l1); try done. by rewrite Er.
    + exists (es1 ++ [(m_type (m_action r), argument r)]). apply (ignores_append rules r s _ es1); try done; cbn.
      * rewrite Et. exact (serializeString_entry (actions s) Notify (argument r) eq_refl).
      * by rewrite Eu.
      * by left.
Qed.

Lemma serializeRules_ignores done rules s s' es : inv done s -> ignores done s es -> Forall rule_ok rules -> serializeRules s rules = Some s' ->
  vec_size (actions s') < 2 ^ 32 -> exists es', ignores (done ++ rules) s' es'.
Proof.
  revert done s es. induction rules as [|r rules IH]; intros done s es Hi Hg Hok; cbn [serializeRules].
  { intros [= <-] _. exists es. by rewrite app_nil_r. }
  apply Forall_cons in Hok as [Hr Hok]. destruct (serializeRule_total s r (inv_clients _ _ Hi)) as (s1 & E1 & Hc1 & Hp1 & _ & Hmono). rewrite E1. cbn [mbind option_bind].
  intros Hs Hsz. destruct (serializeRules_total rules s1 Hc1) as (s2 & E2 & _ & Hp2 & _). rewrite Hs in E2. injection E2 as <-.
  assert (vec_size (actions s1) < 2 ^ 32) as Hsz1 by (pose proof (vec_size_prefix _ _ Hp2); lia).
  assert (inv (done ++ [r]) s1) as Hi1 by (by apply (serializeRule_inv done s s1 r)).
  destruct (serializeRule_ignores done s s1 r es Hi Hg E1 Hsz1 Hmono) as [es1 Hg1].
  destruct (IH (done ++ [r]) s1 es1 Hi1 Hg1 Hok Hs Hsz) as [es' Hg']. exists es'. by rewrite <- app_assoc in Hg'.
Qed.

Lemma ignores_new : ignores [] newSerializer [].
Proof.
  constructor; try done. intros l (pre & arg & post & E & _). by destruct pre.
Qed.

(** The bytes are entries, and the exceptions among them are those of the rules. *)
Lemma serializeActions_entries rules locations bytes : Forall rule_ok rules -> serializeActions rules = Some (locations, bytes) -> vec_size bytes < 2 ^ 32 ->
  exists es, bytes = bytes_of es /\
    (forall l, exception_at es l <-> exists i r, rules !! i = Some r /\ isIgnore r = true /\ locations !! i = Some l).
Proof.
  intros Hok. unfold serializeActions. destruct (serializeRules_total rules newSerializer (inv_clients _ _ inv_new)) as (s1 & E1 & Hc1 & _). rewrite E1. cbn [mbind option_bind].
  destruct (resolve_spec s1 Hc1) as (s2 & E2 & Hp2 & _). rewrite E2. cbn [mbind option_bind]. intros [= <- <-] Hsz.
  assert (vec_size (actions s1) < 2 ^ 32) as Hsz1 by (pose proof (vec_size_prefix _ _ Hp2); lia).
  pose proof (serializeRules_inv [] rules newSerializer s1 inv_new Hok E1 Hsz1) as Hi1.
  destruct (serializeRules_ignores [] rules newSerializer s1 [] inv_new ignores_new Hok E1 Hsz1) as [es1 Hg1].
  destruct (resolve_ignores rules s1 s2 es1 Hi1 Hg1 E2 Hsz) as [es2 Hg2]. exists es2. split; [exact (g_bytes _ _ _ Hg2)|].
  intros l. split; [exact (g_entries _ _ _ Hg2 l)|]. intros (i & r & Hr & Hig & Hl). exact (g_rules _ _ _ Hg2 i r l Hr Hig Hl).
Qed.

End Ignores.

Lemma length_bytes_of es : (length es <= length (bytes_of es))%nat.
Proof. induction es as [|e es IH]; [done|]. rewrite bytes_of_cons, length_app. unfold entry. simpl. lia. Qed.

Lemma typed_bound bytes l t : typed bytes l t -> l < vec_size bytes.
Proof.
  intros (a & Ha & _). unfold deserialize, deserializeType in Ha. destruct (l <? vec_size bytes) eqn:E; [by apply Z.ltb_lt|done].
Qed.

Lemma findFirst_sound `{HashMapOrder} rules locations bytes fuel : Forall rule_ok rules -> serializeActions rules = Some (locations, bytes) -> vec_size bytes < 2 ^ 32 ->
  (length bytes < fuel)%nat -> exists first, findFirstLoop fuel bytes 0 = Finished first /\
    forall k r l, rules !! k = Some r -> isIgnore r = false -> locations !! k = Some l ->
      l < first <-> forall i ri, (i < k)%nat -> rules !! i = Some ri -> isIgnore ri = false.
Proof.
  intros Hok Hser Hsz Hf. pose proof (serializeActions_layout _ _ _ Hok Hser Hsz) as HL.
  destruct (serializeActions_entries _ _ _ Hok Hser Hsz) as (es & -> & Hx). pose proof (length_bytes_of es).
  destruct (findFirstLoop_spec fuel [] es ltac:(lia) ltac:(constructor) Hsz) as (first & Hff & Hfirst). exists first. split; [exact Hff|].
  intros k r l Hr Hnr Hl. split.
  - intros Hlt i ri Hik Hri. apply not_true_is_false. intros Hig. destruct (la_location _ _ _ HL i ri Hri) as [li Hli].
    assert (exception_at es li) as Hxi by (apply Hx; by exists i, ri). pose proof (la_order _ _ _ HL i k ri r li l Hri Hr ltac:(congruence) Hli Hl Hik).
    destruct Hfirst as [[_ Hmin]|[_ Hno]]; [specialize (Hmin li Hxi); lia|by apply (Hno li)].
  - intros Hno. destruct Hfirst as [[Hxf _]|[-> _]].
    + apply Hx in Hxf as (i & ri & Hri & Hig & Hli). apply (la_order_iff _ _ _ HL k i r ri l first); try done; [congruence|].
      destruct (lt_eq_lt_dec k i) as [[?| ->]|Hlt]; [done|congruence|]. rewrite (Hno i ri Hlt Hri) in Hig. done.
    + pose proof (typed_bound _ _ _ (la_typed _ _ _ HL k r l Hr Hl)). unfold UINT32_MAX. lia.
Qed.

(** C30: Finding the first exception terminates, and the location found separates
    the rules that no exception precedes from the others: a rule that is not an
    exception lies before it exactly when no exception precedes the rule, so the
    selectors that move to the global style sheet are exactly the selectors of
    universal rules that no exception precedes. *)
Theorem findFirstIgnorePreviousRules_correct `{HashMapOrder} rules locations c fuel :
  Forall rule_ok rules -> serializeActions rules = Some (locations, compiledActions c) -> vec_size (compiledActions c) < 2 ^ 32 ->
  (length (compiledActions c) < fuel)%nat ->
  exists first, findFirstIgnorePreviousRules fuel c = Finished first /\
    forall k r l, rules !! k = Some r -> isIgnore r = false -> locations !! k = Some l ->
      exists hoisted, inGlobalDisplayNoneStyleSheet (compiledActions c) first l = Some hoisted /\
        (hoisted = true <-> m_type (m_action r) = CSSDisplayNoneSelector /\ forall i ri, (i < k)%nat -> rules !! i = Some ri -> isIgnore ri = false).
Proof.
  intros Hok Hser Hsz Hf. destruct (findFirst_sound rules locations _ fuel Hok Hser Hsz Hf) as (first & Hff & Hsep). exists first. split; [exact Hff|].
  pose proof (serializeActions_layout _ _ _ Hok Hser Hsz) as HL. intros k r l Hr Hnr Hl. specialize (Hsep k r l Hr Hnr Hl).
  unfold inGlobalDisplayNoneStyleSheet. destruct (l <? first) eqn:Elt; zbool.
  - destruct (la_typed _ _ _ HL k r l Hr Hl) as (a & Ha & Ht). unfold deserialize in Ha.
    destruct (deserializeType (compiledActions c) l) as [t|]; cbn [mbind option_bind] in *; [|done]. assert (t = m_type (m_action r)) as ->.
    { rewrite <- Ht. destruct (hasStringArgument t); [destruct (deserializeString _ _)|]; cbn [mbind option_bind] in Ha; by simplify_eq/=. }
    eexists. split; [reflexivity|]. rewrite bool_decide_eq_true. tauto.
  - exists false. split; [done|]. split; [done|]. intros [_ Hno%Hsep]. lia.
Qed.

Definition sampleCompiled : CompiledContentExtension := mkCompiledContentExtension [] [] [] false sampleBytes.

Lemma findFirstIgnorePreviousRules_correct_witness : exists first, findFirstIgnorePreviousRules 40 sampleCompiled = Finished first /\
  exists hoisted, inGlobalDisplayNoneStyleSheet sampleBytes first 1 = Some hoisted /\ hoisted = true.
Proof.
  destruct (findFirstIgnorePreviousRules_correct sampleRules [1; 0; 1; 17; 18; 19; 18] sampleCompiled 40 sampleRules_ok) as (first & Hf & Hs); [by vm_compute|by vm_compute|vm_compute; lia|].
  exists first. split; [done|]. destruct (Hs 0%nat _ 1 eq_refl eq_refl eq_refl) as (hoisted & Hh & Hiff). exists hoisted. split; [done|].
  apply Hiff. split; [done|]. intros i ri Hi. lia.
Defined.
