(* ===== verification/ContentExtensionError.v ===== *)
(** * Errors of the rule list parser and compiler

    Models the enumeration of [ContentExtensionError.h]. *)

From stdpp Require Import base decidable tactics.

Inductive ContentExtensionError :=
  | JSONInvalid
  | JSONTopLevelStructureNotAnObject
  | JSONTopLevelStructureNotAnArray
  | JSONInvalidObjectInTopLevelArray
  | JSONInvalidRule
  | JSONContainsNoRules
  | JSONInvalidTrigger
  | JSONInvalidURLFilterInTrigger
  | JSONInvalidTriggerFlagsArray
  | JSONInvalidObjectInTriggerFlagsArray
  | JSONInvalidStringInTriggerFlagsArray
  | JSONInvalidConditionList
  | JSONDomainNotLowerCaseASCII
  | JSONMultipleConditions
  | JSONTopURLAndDomainConditions
  | JSONTooManyRules
  | JSONInvalidAction
  | JSONInvalidActionType
  | JSONInvalidCSSDisplayNoneActionType
  | JSONInvalidNotification
  | JSONInvalidRegex.

#[export] Instance ContentExtensionError_eq_dec : EqDecision ContentExtensionError.
Proof. solve_decision. Defined.

(** [Expected<T, std::error_code>] *)
Abbreviation Expected A := (ContentExtensionError + A)%type.

(** The value, or the error that ends the function. *)
Definition expect {A B} (m : Expected A) (k : A -> Expected B) : Expected B :=
  match m with inl e => inl e | inr a => k a end.
