(* ===== verification/ContentExtensionParser.v ===== *)
(** * Reading rules from JSON

    Models [ContentExtensionParser.cpp] and the names of [ResourceLoadInfo.cpp]
    from the value that the JSON parser of JavaScriptCore returns on.  On such a
    value only [toObject] of null throws, and no property comes from a prototype. *)

From Stdlib Require Import Strings.String Strings.Ascii.
From stdpp Require Import base numbers option list list_numbers.
From Stdlib Require Import ZArith Lia.
From S2P Require Import Prelude.
From S2P Require Import DFABytecodeInterpreter.
From S2P Require Import Term.
From S2P Require Import Yarr.
From S2P Require Import ContentExtensionRule.
From S2P Require Import ContentExtensionError.

(** ** JSON values *)

(** Keys are the characters of property names. *)
Inductive JSValue :=
  | JSNull
  | JSBoolean (b : bool)
  | JSNumber (text : list Z)
  | JSString (s : WString)
  | JSArray (elements : list JSValue)
  | JSObject (properties : list (list Z * JSValue)).

Definition chars (s : string) : list Z := (λ a, Z.of_N (N_of_ascii a)) <$> list_ascii_of_string s.

Definition isObject (v : JSValue) : bool := match v with JSArray _ | JSObject _ => true | _ => false end.

Fixpoint lookupProperty (properties : list (list Z * JSValue)) (name : list Z) : option JSValue :=
  match properties with
  | [] => None
  | (key, v) :: properties => if bool_decide (key = name) then Some v else lookupProperty properties name
  end.

(** [get]; [None] is undefined.  The length of an array is its one property that is not an index. *)
Definition get (v : JSValue) (name : string) : option JSValue :=
  match v with JSObject properties => lookupProperty properties (chars name) | _ => None end.

(** [toWTFString]; an array joins its elements with commas, leaving out null. *)
Fixpoint toWTFString (v : JSValue) : list Z :=
  match v with
  | JSNull => chars "null"
  | JSBoolean b => if b then chars "true" else chars "false"
  | JSNumber text => text
  | JSString s => characters s
  | JSArray elements =>
      (fix join elements :=
         match elements with
         | [] => []
         | [v] => match v with JSNull => [] | _ => toWTFString v end
         | v :: elements => (match v with JSNull => [] | _ => toWTFString v end) ++ 44 :: join elements
         end) elements
  | JSObject _ => chars "[object Object]"
  end.

(** ** Lists of strings *)

Definition containsOnlyASCIIWithNoUppercase (domain : WString) : bool :=
  forallb (λ c, isASCII c && negb (isASCIIUpper c)) (characters domain).

Fixpoint stringsOf (values : list JSValue) : Expected (list WString) :=
  match values with
  | [] => inr []
  | JSString s :: values =>
      if bool_decide (characters s = []) then inl JSONInvalidConditionList
      else expect (stringsOf values) (λ strings, inr (s :: strings))
  | _ => inl JSONInvalidConditionList
  end.

Definition getStringList (arrayObject : JSValue) : Expected (list WString) :=
  match arrayObject with JSArray values => stringsOf values | _ => inl JSONInvalidConditionList end.

Definition getDomainList (arrayObject : JSValue) : Expected (list WString) :=
  expect (getStringList arrayObject) (λ strings,
    if forallb containsOnlyASCIIWithNoUppercase strings then inr strings else inl JSONDomainNotLowerCaseASCII).

(** ** Flags *)

Definition readResourceType (name : list Z) : Z :=
  if bool_decide (name = chars "document") then 0x0001
  else if bool_decide (name = chars "image") then 0x0002
  else if bool_decide (name = chars "style-sheet") then 0x0004
  else if bool_decide (name = chars "script") then 0x0008
  else if bool_decide (name = chars "font") then 0x0010
  else if bool_decide (name = chars "raw") then 0x0020
  else if bool_decide (name = chars "svg-document") then 0x0040
  else if bool_decide (name = chars "media") then 0x0080
  else if bool_decide (name = chars "popup") then 0x0200
  else 0x0000.

Definition readLoadType (name : list Z) : Z :=
  if bool_decide (name = chars "first-party") then 0x0400
  else if bool_decide (name = chars "third-party") then 0x0800
  else 0x0000.

Fixpoint typeFlags (stringToType : list Z -> Z) (flags : Z) (values : list JSValue) : Expected Z :=
  match values with
  | [] => inr flags
  | value :: values =>
      let type := stringToType (toWTFString value) in
      if type =? 0 then inl JSONInvalidStringInTriggerFlagsArray else typeFlags stringToType (Z.lor flags type) values
  end.

Definition getTypeFlags (typeValue : JSValue) (flags : Z) (stringToType : list Z -> Z) : Expected Z :=
  match typeValue with
  | JSArray values => typeFlags stringToType flags values
  | JSObject _ => inl JSONInvalidTriggerFlagsArray
  | _ => inr flags
  end.

(** ** Triggers *)

(** A property that is an array of flags or absent. *)
Definition loadFlags (triggerObject : JSValue) (name : string) (flags : Z) (stringToType : list Z -> Z) : Expected Z :=
  match get triggerObject name with
  | Some v => if isObject v then getTypeFlags v flags stringToType else inl JSONInvalidTriggerFlagsArray
  | None => inr flags
  end.

Definition loadBoolean (triggerObject : JSValue) (name : string) : bool :=
  match get triggerObject name with Some (JSBoolean b) => b | _ => false end.

(** A property that is a list of conditions or absent. *)
Definition loadCondition (triggerObject : JSValue) (name : string) (getList : JSValue -> Expected (list WString)) (type : ConditionType)
    (conditions : list WString * ConditionType) : Expected (list WString * ConditionType) :=
  match get triggerObject name with
  | Some v =>
      if isObject v then
        if negb (bool_decide (conditions.2 = CT_None)) then inl JSONMultipleConditions
        else expect (getList v) (λ list, if bool_decide (list = []) then inl JSONInvalidConditionList else inr (list, type))
      else inl JSONInvalidConditionList
  | None => inr conditions
  end.

Definition loadTrigger (ruleObject : JSValue) : Expected Trigger :=
  match get ruleObject "trigger" with
  | Some triggerObject =>
      if negb (isObject triggerObject) then inl JSONInvalidTrigger
      else
        match get triggerObject "url-filter" with
        | Some (JSString urlFilter) =>
            if bool_decide (characters urlFilter = []) then inl JSONInvalidURLFilterInTrigger
            else
              expect (loadFlags triggerObject "resource-type" 0 readResourceType) (λ flags,
              expect (loadFlags triggerObject "load-type" flags readLoadType) (λ flags,
              expect (loadCondition triggerObject "if-domain" getDomainList IfDomain ([], CT_None)) (λ conditions,
              expect (loadCondition triggerObject "unless-domain" getDomainList UnlessDomain conditions) (λ conditions,
              expect (loadCondition triggerObject "if-top-url" getStringList IfTopURL conditions) (λ conditions,
              expect (loadCondition triggerObject "unless-top-url" getStringList UnlessTopURL conditions) (λ conditions,
                inr (mkTrigger urlFilter (loadBoolean triggerObject "url-filter-is-case-sensitive")
                  (loadBoolean triggerObject "top-url-filter-is-case-sensitive") flags conditions.1 conditions.2)))))))
        | _ => inl JSONInvalidURLFilterInTrigger
        end
  | None => inl JSONInvalidTrigger
  end.

(** ** Actions and rules *)

Section Rules.
(** Whether the CSS parser accepts a selector. *)
Variable isValidCSSSelector : WString -> bool.

(** [None] is a rule to be skipped. *)
Definition loadRuleAction (ruleObject : JSValue) : Expected (option Action) :=
  let plain t := inr (Some (mkAction None t UINT32_MAX None)) in
  match get ruleObject "action" with
  | Some actionObject =>
      if negb (isObject actionObject) then inl JSONInvalidAction
      else
        match get actionObject "type" with
        | Some (JSString actionType) =>
            let actionType := characters actionType in
            if bool_decide (actionType = chars "block") then plain BlockLoad
            else if bool_decide (actionType = chars "ignore-previous-rules") then plain IgnorePreviousRules
            else if bool_decide (actionType = chars "block-cookies") then plain BlockCookies
            else if bool_decide (actionType = chars "css-display-none") then
              match get actionObject "selector" with
              | Some (JSString selector) =>
                  if negb (isValidCSSSelector selector) then inr None
                  else inr (Some (mkAction None CSSDisplayNoneSelector UINT32_MAX (Some selector)))
              | _ => inl JSONInvalidCSSDisplayNoneActionType
              end
            else if bool_decide (actionType = chars "make-https") then plain MakeHTTPS
            else if bool_decide (actionType = chars "notify") then
              match get actionObject "notification" with
              | Some (JSString notification) => inr (Some (mkAction None Notify UINT32_MAX (Some notification)))
              | _ => inl JSONInvalidNotification
              end
            else inl JSONInvalidActionType
        | _ => inl JSONInvalidActionType
        end
  | None => inl JSONInvalidAction
  end.

Definition loadRule (ruleObject : JSValue) : Expected (option ContentExtensionRule) :=
  expect (loadTrigger ruleObject) (λ trigger,
  expect (loadRuleAction ruleObject) (λ action,
    inr (match action with Some action => Some (mkContentExtensionRule trigger action) | None => None end))).

(** The loop over the top-level array; [toObject] of null throws. *)
Fixpoint loadRules (values : list JSValue) : Expected (list ContentExtensionRule) :=
  match values with
  | [] => inr []
  | JSNull :: _ => inl JSONInvalidRule
  | ruleObject :: values =>
      expect (loadRule ruleObject) (λ rule,
      expect (loadRules values) (λ rules, inr (match rule with Some rule => rule :: rules | None => rules end)))
  end.

Definition maxRuleCount : Z := 50000.

(** What [JSONParse] gives: [None] is a syntax error. *)
Definition loadEncodedRules (decodedRules : option JSValue) : Expected (list ContentExtensionRule) :=
  match decodedRules with
  | None => inl JSONInvalid
  | Some (JSArray values) => if maxRuleCount <? vec_size values then inl JSONTooManyRules else loadRules values
  | Some (JSObject _) => inl JSONTopLevelStructureNotAnArray
  | Some _ => inl JSONTopLevelStructureNotAnObject
  end.

Definition parseRuleList (decodedRules : option JSValue) : Expected (list ContentExtensionRule) :=
  expect (loadEncodedRules decodedRules) (λ ruleList, if bool_decide (ruleList = []) then inl JSONContainsNoRules else inr ruleList).

End Rules.

(** ** The rules that parsing gives *)

(** What the rest of the code relies on: the first assertion of the destructor of
    triggers and those of the compiler.  Its second assertion, that only conditions on
    the top URL are case sensitive, is not among them: see
    [case_sensitive_without_condition]. *)
Record trigger_ok (t : Trigger) : Prop := {
  to_filter : characters (urlFilter t) <> [];
  to_conditions : conditions t = [] <-> conditionType t = CT_None;
  to_nonempty : Forall (λ c, characters c <> []) (conditions t);
  to_domains : conditionType t = IfDomain \/ conditionType t = UnlessDomain -> Forall (λ c, containsOnlyASCIIWithNoUppercase c = true) (conditions t);
  to_flags : 0 <= flags t < 2 ^ 12
}.

Record rule_wf (r : ContentExtensionRule) : Prop := {
  rw_trigger : trigger_ok (m_trigger r);
  rw_argument : hasStringArgument (m_type (m_action r)) = true <-> is_Some (m_stringArgument (m_action r));
  rw_fresh : m_extensionIdentifier (m_action r) = None /\ m_actionID (m_action r) = UINT32_MAX
}.

Lemma expect_inr {A B} (m : Expected A) (k : A -> Expected B) b : expect m k = inr b -> exists a, m = inr a /\ k a = inr b.
Proof. destruct m as [e|a]; cbn; [done|by exists a]. Qed.

Lemma readResourceType_bound name : 0 <= readResourceType name < 2 ^ 12.
Proof. unfold readResourceType. repeat case_bool_decide; simpl; lia. Qed.

Lemma readLoadType_bound name : 0 <= readLoadType name < 2 ^ 12.
Proof. unfold readLoadType. repeat case_bool_decide; simpl; lia. Qed.

Lemma typeFlags_bound read flags values flags' : (forall name, 0 <= read name < 2 ^ 12) -> 0 <= flags < 2 ^ 12 -> typeFlags read flags values = inr flags' ->
  0 <= flags' < 2 ^ 12.
Proof.
  intros Hread. revert flags. induction values as [|v values IH]; intros flags Hf; cbn [typeFlags]; [by intros [= <-]|].
  destruct (read (toWTFString v) =? 0); [done|]. apply IH. by apply lor_bound.
Qed.

Lemma loadFlags_bound v name flags read flags' : (forall name, 0 <= read name < 2 ^ 12) -> 0 <= flags < 2 ^ 12 -> loadFlags v name flags read = inr flags' ->
  0 <= flags' < 2 ^ 12.
Proof.
  intros Hread Hf. unfold loadFlags, getTypeFlags. destruct (get v name) as [w|]; [|by intros [= <-]].
  destruct (isObject w); [|done]. destruct w; try done; try (by intros [= <-]). by apply typeFlags_bound.
Qed.

Lemma stringsOf_nonempty values strings : stringsOf values = inr strings -> Forall (λ c, characters c <> []) strings.
Proof.
  revert strings. induction values as [|v values IH]; intros strings; cbn [stringsOf]; [by intros [= <-]|]. destruct v; try done.
  case_bool_decide as Hs; [done|]. intros (rest & Hr & [= <-])%expect_inr. constructor; [done|by apply IH].
Qed.

Lemma getStringList_nonempty v strings : getStringList v = inr strings -> Forall (λ c, characters c <> []) strings.
Proof. destruct v; cbn; try done. apply stringsOf_nonempty. Qed.

Lemma getDomainList_spec v strings : getDomainList v = inr strings ->
  Forall (λ c, characters c <> []) strings /\ Forall (λ c, containsOnlyASCIIWithNoUppercase c = true) strings.
Proof.
  unfold getDomainList. intros (l & Hl & H)%expect_inr. destruct (forallb _ l) eqn:E; [|done]. injection H as <-.
  split; [by eapply getStringList_nonempty|]. apply Forall_forall. intros x Hx. rewrite forallb_forall in E. apply E. by apply list_elem_of_In.
Qed.

(** The conditions read so far. *)
Definition conditions_ok (c : list WString * ConditionType) : Prop :=
  (c.1 = [] <-> c.2 = CT_None) /\ Forall (λ s, characters s <> []) c.1 /\
  (c.2 = IfDomain \/ c.2 = UnlessDomain -> Forall (λ s, containsOnlyASCIIWithNoUppercase s = true) c.1).

Lemma loadCondition_ok v name getList type c c' : type <> CT_None ->
  (forall v strings, getList v = inr strings -> Forall (λ s, characters s <> []) strings) ->
  (type = IfDomain \/ type = UnlessDomain -> forall v strings, getList v = inr strings -> Forall (λ s, containsOnlyASCIIWithNoUppercase s = true) strings) ->
  conditions_ok c -> loadCondition v name getList type c = inr c' -> conditions_ok c'.
Proof.
  intros Ht Hne Hdom Hc. unfold loadCondition. destruct (get v name) as [w|]; [|by intros [= <-]]. destruct (isObject w); [|done].
  destruct (negb _); [done|]. intros (l & Hl & H)%expect_inr. case_bool_decide as Hnil; [done|]. injection H as <-. unfold conditions_ok. cbn [fst snd].
  split_and!; [tauto|by eapply Hne|]. intros Hd. by eapply Hdom.
Qed.

Lemma loadTrigger_ok v t : loadTrigger v = inr t -> trigger_ok t.
Proof.
  unfold loadTrigger. destruct (get v _) as [o|]; [|done]. destruct (negb _); [done|]. destruct (get o _) as [w|]; [|done]. destruct w; try done.
  case_bool_decide as Hf; [done|]. intros (f1 & H1 & H)%expect_inr. apply expect_inr in H as (f2 & H2 & H).
  assert (conditions_ok ([], CT_None)) as Hc0 by (split_and!; [done|by constructor|by intros [?|?]]).
  apply expect_inr in H as (c1 & Hc1 & H). apply expect_inr in H as (c2 & Hc2 & H). apply expect_inr in H as (c3 & Hc3 & H). apply expect_inr in H as (c4 & Hc4 & H).
  injection H as <-.
  apply loadCondition_ok in Hc1; [|done|by intros ? ? [? _]%getDomainList_spec|by intros _ ? ? [_ ?]%getDomainList_spec|done].
  apply loadCondition_ok in Hc2; [|done|by intros ? ? [? _]%getDomainList_spec|by intros _ ? ? [_ ?]%getDomainList_spec|done].
  apply loadCondition_ok in Hc3; [|done|apply getStringList_nonempty|by intros [?|?]|done].
  apply loadCondition_ok in Hc4; [|done|apply getStringList_nonempty|by intros [?|?]|done].
  destruct Hc4 as (Ha & Hb & Hc). constructor; cbn; try done.
  apply (loadFlags_bound _ _ _ _ _ readLoadType_bound) in H2; [done|]. by apply (loadFlags_bound _ _ _ _ _ readResourceType_bound) in H1.
Qed.

Lemma loadRuleAction_ok valid v a : loadRuleAction valid v = inr (Some a) ->
  (hasStringArgument (m_type a) = true <-> is_Some (m_stringArgument a)) /\ m_extensionIdentifier a = None /\ m_actionID a = UINT32_MAX.
Proof.
  unfold loadRuleAction. destruct (get v _) as [o|]; [|done]. destruct (negb _); [done|]. destruct (get o _) as [w|]; [|done]. destruct w; try done.
  assert (~ is_Some (@None WString)) by (by intros [? ?]).
  repeat case_bool_decide; try (intros [= <-]; cbn; split_and!; done); try done.
  - destruct (get o "selector") as [w|]; [|done]. destruct w; try done. destruct (negb (valid _)); [done|]. intros [= <-]. cbn. split_and!; [|done..]. split; [by eexists|done].
  - destruct (get o "notification") as [w|]; [|done]. destruct w; try done. intros [= <-]. cbn. split_and!; [|done..]. split; [by eexists|done].
Qed.

Lemma loadRule_ok valid v r : loadRule valid v = inr (Some r) -> rule_wf r.
Proof.
  unfold loadRule. intros (t & Ht & H)%expect_inr. apply expect_inr in H as (a & Ha & H). destruct a as [a|]; [|done]. injection H as <-.
  destruct (loadRuleAction_ok _ _ _ Ha) as (Harg & Hid). constructor; cbn; [by eapply loadTrigger_ok|done|done].
Qed.

Lemma loadRules_ok valid values rules : loadRules valid values = inr rules -> Forall rule_wf rules /\ (length rules <= length values)%nat.
Proof.
  revert rules. induction values as [|v values IH]; intros rules; cbn [loadRules]; [by intros [= <-]|].
  intros H. assert (expect (loadRule valid v) (λ rule, expect (loadRules valid values) (λ rules, inr (match rule with Some rule => rule :: rules | None => rules end))) = inr rules) as H'
    by (by destruct v). clear H. apply expect_inr in H' as (r & Hr & H). apply expect_inr in H as (rs & Hrs & H). injection H as <-. destruct (IH rs Hrs) as [Hwf Hlen].
  destruct r as [r|]; [|split; [done|simpl; lia]]. split; [constructor; [by eapply loadRule_ok|done]|simpl; lia].
Qed.

(** C32: What parsing accepts is well formed: between 1 and 50000 rules, each with a
    filter that is not empty, with conditions exactly when it has a type of
    conditions, no condition empty, domains in lower-case ASCII, flags of the
    twelve bits that exist, and a string exactly when the type of its action
    takes one.  (The assertion of the destructor of triggers that only a trigger with
    a condition on the top URL has a case-sensitive one does not follow: see
    [case_sensitive_without_condition].) *)
Theorem parseRuleList_well_formed valid v rules : parseRuleList valid v = inr rules ->
  rules <> [] /\ vec_size rules <= maxRuleCount /\ Forall rule_wf rules.
Proof.
  unfold parseRuleList. intros (l & Hl & H)%expect_inr. case_bool_decide as Hne; [done|]. injection H as <-. split; [done|].
  unfold loadEncodedRules in Hl. destruct v as [[]|]; try done. destruct (maxRuleCount <? vec_size elements) eqn:E; [done|]. zbool.
  destruct (loadRules_ok _ _ _ Hl) as [Hwf Hlen]. split; [|done]. unfold vec_size in *. lia.
Qed.

(** {"trigger": {"url-filter": "a", "top-url-filter-is-case-sensitive": true}, "action": {"type": "block"}} *)
Definition sampleJSON : JSValue :=
  JSArray [JSObject
    [(chars "trigger", JSObject [(chars "url-filter", JSString (mkWString true [97])); (chars "top-url-filter-is-case-sensitive", JSBoolean true)]);
     (chars "action", JSObject [(chars "type", JSString (mkWString true (chars "block")))])]].

(** {"trigger": {"url-filter": "a", "if-domain": ["b"]}, "action": {"type": "css-display-none", "selector": "c"}} *)
Definition domainJSON : JSValue :=
  JSArray [JSObject
    [(chars "trigger", JSObject [(chars "url-filter", JSString (mkWString true [97])); (chars "if-domain", JSArray [JSString (mkWString true [98])])]);
     (chars "action", JSObject [(chars "type", JSString (mkWString true (chars "css-display-none"))); (chars "selector", JSString (mkWString true [99]))])]].

Lemma parseRuleList_well_formed_witness : exists rules, parseRuleList (λ _, true) (Some domainJSON) = inr rules /\ Forall rule_wf rules.
Proof.
  eexists. split; [vm_compute; reflexivity|]. apply (parseRuleList_well_formed (λ _, true) (Some domainJSON)). by vm_compute.
Defined.

(** A rule may say that its top URL condition is case sensitive without having
    such a condition: parsing accepts it, and gives a trigger on which the
    assertion of the destructor of triggers fails. *)
Theorem case_sensitive_without_condition : exists rules r, parseRuleList (λ _, true) (Some sampleJSON) = inr rules /\ r ∈ rules /\
  topURLConditionIsCaseSensitive (m_trigger r) = true /\ conditionType (m_trigger r) <> IfTopURL /\ conditionType (m_trigger r) <> UnlessTopURL.
Proof. eexists _, _. split; [vm_compute; reflexivity|]. split_and!; [left|done..]. Qed.
