(* ===== verification/ContentExtensionCompiler.v ===== *)
(** * Compiling a rule list

    Models the rest of [ContentExtensionCompiler.cpp]: how [compileRuleList]
    distributes the rules over three sets of filters and three sets of universal
    actions, and how the DFAs of a set of filters become one bytecode with the
    universal actions on its first root. *)

From stdpp Require Import base numbers option list list_numbers gmap.
From Stdlib Require Import ZArith Lia.
From S2P Require Import Prelude.
From S2P Require Import DFABytecode.
From S2P Require Import DFA.
From S2P Require Import DFABytecodeInterpreter.
From S2P Require Import DFABytecodeCompiler.
From S2P Require Import Yarr.
From S2P Require Import CombinedURLFilters.
From S2P Require Import URLFilterParser.
From S2P Require Import ContentExtensionRule.
From S2P Require Import ContentExtensionError.
From S2P Require Import ActionSerialization.

(** What the loop over the rules fills. *)
Record RulePartition := mkRulePartition {
  filtersWithoutConditions : CombinedURLFilters;
  filtersWithConditions : CombinedURLFilters;
  topURLFilters : CombinedURLFilters;
  universalActionsWithoutConditions : gset Z;
  universalActionsWithConditions : gset Z;
  universalTopURLActions : gset Z
}.

Definition newRulePartition : RulePartition :=
  mkRulePartition newCombinedURLFilters newCombinedURLFilters newCombinedURLFilters ∅ ∅ ∅.

Definition isDomainCondition (t : ConditionType) : bool := match t with IfDomain | UnlessDomain => true | _ => false end.
Definition isTopURLCondition (t : ConditionType) : bool := match t with IfTopURL | UnlessTopURL => true | _ => false end.
Definition isIfCondition (t : ConditionType) : bool := match t with IfDomain | IfTopURL => true | _ => false end.

Definition domainConditionSeen (rules : list ContentExtensionRule) : bool := existsb (λ r, isDomainCondition (conditionType (m_trigger r))) rules.
Definition topURLConditionSeen (rules : list ContentExtensionRule) : bool := existsb (λ r, isTopURLCondition (conditionType (m_trigger r))) rules.

(** The location of the action with the flags of the trigger above it. *)
Definition actionLocationAndFlags (trigger : Trigger) (location : Z) : Z :=
  let action := Z.lor (u64 (Z.shiftl (flags trigger) 32)) location in
  if negb (bool_decide (conditions trigger = [])) && isIfCondition (conditionType trigger) then Z.lor action IfConditionFlag else action.

(** An error ends the compilation; [None] is a failed assertion. *)
Abbreviation Compiled A := (option (ContentExtensionError + A)).

Definition andThen {A B} (m : Compiled A) (k : A -> Compiled B) : Compiled B :=
  match m with Some (inr a) => k a | Some (inl e) => Some (inl e) | None => None end.

Section Compile.
Context `{HashMapOrder}.
Variable U_GET_GC_MASK : Z -> Z.
Variable unicodeMatchProperty : list Z -> option BuiltInCharacterClassID.
Variable unicodeMatchPropertyValue : list Z -> list Z -> option BuiltInCharacterClassID.

(** A pattern is added to filters, or its action to the universal ones. *)
Definition addFilter (f : CombinedURLFilters) (universal : gset Z) (pattern : WString) (caseSensitive : bool) (action : Z)
    : Compiled (CombinedURLFilters * gset Z) :=
  '(status, f) ← URLFilterParser_addPattern U_GET_GC_MASK unicodeMatchProperty unicodeMatchPropertyValue f (characters pattern) caseSensitive action;
  Some match status with
       | MatchesEverything => inr (f, universal ∪ {[ action ]})
       | Ok => inr (f, universal)
       | _ => inl JSONInvalidRegex
       end.

(** The loop over the conditions of a rule. *)
Fixpoint addConditions (domains : bool) (caseSensitive : bool) (action : Z) (conditions : list WString) (f : CombinedURLFilters) (universal : gset Z)
    : Compiled (CombinedURLFilters * gset Z) :=
  match conditions with
  | [] => Some (inr (f, universal))
  | condition :: conditions =>
      andThen (if domains then f ← addDomain f action (characters condition); Some (inr (f, universal))
               else addFilter f universal condition caseSensitive action)
        (λ '(f, universal), addConditions domains caseSensitive action conditions f universal)
  end.

(** One rule. *)
Definition compileRule (domains : bool) (p : RulePartition) (rule : ContentExtensionRule) (location : Z) : Compiled RulePartition :=
  let trigger := m_trigger rule in
  let action := actionLocationAndFlags trigger location in
  if bool_decide (conditions trigger = []) then
    andThen (addFilter (filtersWithoutConditions p) (universalActionsWithoutConditions p) (urlFilter trigger) (urlFilterIsCaseSensitive trigger) action)
      (λ '(f, universal), Some (inr (mkRulePartition f (filtersWithConditions p) (topURLFilters p) universal
        (universalActionsWithConditions p) (universalTopURLActions p))))
  else
    andThen (addFilter (filtersWithConditions p) (universalActionsWithConditions p) (urlFilter trigger) (urlFilterIsCaseSensitive trigger) action)
      (λ '(f, universal),
        andThen (addConditions domains (topURLConditionIsCaseSensitive trigger) action (conditions trigger) (topURLFilters p) (universalTopURLActions p))
          (λ '(top, universalTop), Some (inr (mkRulePartition (filtersWithoutConditions p) f top (universalActionsWithoutConditions p)
            universal universalTop)))).

(** [actionLocations[ruleIndex]] exists for every rule. *)
Fixpoint compileRules (domains : bool) (p : RulePartition) (rules : list ContentExtensionRule) (locations : list Z) : Compiled RulePartition :=
  match rules, locations with
  | [], _ => Some (inr p)
  | rule :: rules, location :: locations => andThen (compileRule domains p rule location) (λ p, compileRules domains p rules locations)
  | _, [] => None
  end.

(** The first half of [compileRuleList]: the bytes of the actions, whether the conditions are domains, and the partition. *)
Definition partitionRuleList (rules : list ContentExtensionRule) : Compiled (list Z * bool * RulePartition) :=
  let domains := domainConditionSeen rules in
  if topURLConditionSeen rules && domains then Some (inl JSONTopURLAndDomainConditions)
  else
    '(locations, actions) ← serializeActions rules;
    andThen (compileRules domains newRulePartition rules locations) (λ p, Some (inr (actions, domains, p))).

(** ** Bytecode *)

Definition addUniversalActionsToDFA (dfa : DFA) (universalActions : gset Z) : option DFA :=
  if bool_decide (universalActions = ∅) then Some dfa
  else
    root ← vec_at (dfa_nodes dfa) (dfa_root dfa);
    let actionsStart := u32 (vec_size (dfa_actions dfa)) in
    let actions := dfa_actions dfa ++ visit (elements universalActions) in
    let actionsEnd := u32 (vec_size actions) in
    let actionsLength := u32 (actionsEnd - actionsStart) in
    if negb (actionsLength <? 0xffff) then None
    else
      nodes ← vec_set (dfa_nodes dfa) (dfa_root dfa) (setActions root actionsStart actionsLength);
      Some (mkDFA nodes actions (transitionRanges dfa) (transitionDestinations dfa) (dfa_root dfa)).

(** The end of [compileToBytecode]: the DFAs are lowered in order, the first one
    with the universal actions; without any there is a dummy one. *)
Definition lowerDFAsToBytecode (dfas : list DFA) (universalActions : gset Z) : option (list Z) :=
  match dfas with
  | [] => dummyDFA ← addUniversalActionsToDFA DFA_empty universalActions; compileAll [dummyDFA]
  | dfa :: dfas => dfa ← addUniversalActionsToDFA dfa universalActions; compileAll (dfa :: dfas)
  end.

End Compile.
