(* ===== verification/RulePartition.v ===== *)
(** * What the filters of a compiled rule list match

    The partition that [compileRuleList] makes of a rule list: which actions the
    three sets of filters, together with their universal actions, have for a URL
    and for the main document. *)

From stdpp Require Import base numbers option list list_numbers gmap.
From Stdlib Require Import ZArith Lia.
From S2P Require Import Prelude.
From S2P Require Import DFABytecode.
From S2P Require Import Term.
From S2P Require Import TermProof.
From S2P Require Import Yarr.
From S2P Require Import CombinedURLFilters.
From S2P Require Import URLFilterParser.
From S2P Require Import URLFilterProof.
From S2P Require Import URLFilterMeaning.
From S2P Require Import ContentExtensionRule.
From S2P Require Import ContentExtensionError.
From S2P Require Import ActionSerialization.
From S2P Require Import SerializationProof.
From S2P Require Import ContentExtensionParser.
From S2P Require Import ContentExtensionCompiler.

(** ** The fields of an action *)

Lemma actionLocationAndFlags_split t location : trigger_ok t -> 0 <= location < 2 ^ 32 ->
  let action := actionLocationAndFlags t location in
  0 <= action < 2 ^ 49 /\ u32 action = location /\ Z.land (Z.shiftr action 32) 0xffff = flags t /\
  Z.testbit action 48 = isIfCondition (conditionType t).
Proof.
  intros Ht Hl action. pose proof (to_flags _ Ht) as Hf. unfold action, actionLocationAndFlags.
  assert (u64 (Z.shiftl (flags t) 32) = Z.shiftl (flags t) 32) as ->.
  { apply uwrap_small. rewrite Z.shiftl_mul_pow2 by lia. split; [lia|]. change (2 ^ 64) with (2 ^ 32 * 2 ^ 32). nia. }
  rewrite (Z.lor_comm (Z.shiftl _ _)), lor_shiftl_add by lia. set (base := location + flags t * 2 ^ 32).
  assert (0 <= base < 2 ^ 48) as Hb by (unfold base; lia).
  assert (u32 base = location /\ Z.land (Z.shiftr base 32) 0xffff = flags t) as [Hlow Hmid].
  { unfold base, uwrap. split; [rewrite Z.mod_add by lia; apply Z.mod_small; lia|].
    change 0xffff with (Z.ones 16). rewrite Z.land_ones, Z.shiftr_div_pow2, Z.div_add by lia. rewrite Z.div_small by lia. apply Z.mod_small. simpl. lia. }
  assert (negb (bool_decide (conditions t = [])) && isIfCondition (conditionType t) = isIfCondition (conditionType t)) as ->.
  { case_bool_decide as E; [|done]. apply (to_conditions _ Ht) in E. by rewrite E. }
  destruct (isIfCondition (conditionType t)).
  - change IfConditionFlag with (Z.shiftl 1 48). rewrite lor_shiftl_add by lia. change (1 * 2 ^ 48) with (2 ^ 16 * 2 ^ 32). split_and!.
    + lia.
    + lia.
    + etrans; [|exact Hlow]. unfold uwrap. by rewrite Z.mod_add by lia.
    + rewrite Z.shiftr_div_pow2, Z.div_add by lia. rewrite <- Z.shiftr_div_pow2 by lia. etrans; [|exact Hmid]. change 0xffff with (Z.ones 16). rewrite !Z.land_ones by lia.
      rewrite <- (Z.mul_1_l (2 ^ 16)) at 1. by rewrite Z.mod_add by lia.
    + change (2 ^ 16 * 2 ^ 32) with (2 ^ 48). apply Z.testbit_true; [lia|].
      replace (base + 2 ^ 48) with (base + 1 * 2 ^ 48) by lia. rewrite Z.div_add, Z.div_small by lia. done.
  - split_and!; [lia|lia|done|done|]. apply Z.testbit_false; [lia|]. rewrite Z.div_small by lia. done.
Qed.

Lemma actionLocationAndFlags_range t location : trigger_ok t -> 0 <= location < 2 ^ 32 -> 0 <= actionLocationAndFlags t location < 2 ^ 49.
Proof. intros Ht Hl. by destruct (actionLocationAndFlags_split t location Ht Hl). Qed.

(** C37: The 64-bit actions that the compiler hands on keep their parts apart: the
    location in the low 32 bits, the flags of the trigger in the next 16, and
    the bit of if-conditions exactly on rules with an if-condition. *)
Theorem actionLocationAndFlags_fields t location : trigger_ok t -> 0 <= location < 2 ^ 32 ->
  let action := actionLocationAndFlags t location in
  0 <= action < 2 ^ 49 /\ u32 action = location /\ Z.land (Z.shiftr action 32) 0xffff = flags t /\
  Z.testbit action 48 = isIfCondition (conditionType t).
Proof. exact (actionLocationAndFlags_split t location). Qed.

Lemma actionLocationAndFlags_fields_witness : Z.testbit (actionLocationAndFlags (mkTrigger (mkWString true [97]) false false 2 [mkWString true [97]] IfDomain) 5) 48 = true.
Proof.
  apply (actionLocationAndFlags_fields (mkTrigger (mkWString true [97]) false false 2 [mkWString true [97]] IfDomain) 5); [|lia].
  constructor; cbn [urlFilter conditions conditionType flags characters]; [done|done|by repeat constructor|intros _; by repeat constructor|lia].
Defined.

(** ** Filters *)

Section Partition.
Context `{HashMapOrder}.
Context (U_GET_GC_MASK : Z -> Z) (unicodeMatchProperty : list Z -> option BuiltInCharacterClassID).
Context (unicodeMatchPropertyValue : list Z -> list Z -> option BuiltInCharacterClassID).

Notation parsePattern pattern := (parse pattern false 0 U_GET_GC_MASK unicodeMatchProperty unicodeMatchPropertyValue (λ _, false)).
Notation add := (URLFilterParser_addPattern U_GET_GC_MASK unicodeMatchProperty unicodeMatchPropertyValue).

(** The regular expression is found in the text. *)
Definition filter_found (pattern : WString) (caseSensitive : bool) (s : list Z) : Prop :=
  exists calls, parsePattern (characters pattern) = Some (NoError, calls) /\
    found (fromBeginning (meaning caseSensitive calls)) (language_of (meaning caseSensitive calls)) s.

(** The characters that the pattern names are ASCII and not NUL, and if it is taken for one that matches everything it has no [^]. *)
Definition filter_ok (pattern : WString) (caseSensitive : bool) : Prop :=
  Forall (λ c, 0 <= c < 65536) (characters pattern) /\
  forall error calls, parsePattern (characters pattern) = Some (error, calls) -> Forall plainCall calls /\
    (forall f id f', add f (characters pattern) caseSensitive id = Some (MatchesEverything, f') -> fromBeginning (meaning caseSensitive calls) = false).

(** Filters and the universal actions beside them. *)
Definition matched (f : CombinedURLFilters) (universal : gset Z) (s : list Z) (a : Z) : Prop := filters_match f s a \/ a ∈ universal.

(** A status that is not an error comes from a pattern without one. *)
Lemma addPattern_parsed f pattern cs id status f' : add f pattern cs id = Some (status, f') -> status = Ok \/ status = MatchesEverything ->
  exists calls, parsePattern pattern = Some (NoError, calls).
Proof.
  unfold URLFilterParser_addPattern. intros Ha Hs. destruct (negb _); [simplify_eq; by destruct Hs|]. destruct (bool_decide _); [simplify_eq; by destruct Hs|].
  destruct (parse _ _ _ _ _ _ _) as [[error calls]|]; cbn [mbind option_bind] in Ha; [|done]. destruct (receiveAll _ _ _) as [p|]; cbn [mbind option_bind] in Ha; [|done].
  destruct (Yarr.hasError error) eqn:E; [simplify_eq; by destruct Hs|]. exists calls. by destruct error.
Qed.

Lemma addFilter_sound f u pattern cs action f' u' : filter_ok pattern cs -> wf_filters f ->
  addFilter U_GET_GC_MASK unicodeMatchProperty unicodeMatchPropertyValue f u pattern cs action = Some (inr (f', u')) ->
  wf_filters f' /\ forall s a, text s -> matched f' u' s a <-> matched f u s a \/ (a = action /\ filter_found pattern cs s).
Proof.
  intros [Hunits Hok] Hw. unfold addFilter. destruct (add f (characters pattern) cs action) as [[status f1]|] eqn:Ha; cbn [mbind option_bind]; [|done].
  intros Hr. assert (status = Ok \/ status = MatchesEverything) as Hs by (destruct status; try done; by (left + right)).
  destruct (addPattern_parsed _ _ _ _ _ _ Ha Hs) as [calls Hp]. destruct (Hok _ _ Hp) as [Hplain Hany].
  assert (forall s, filter_found pattern cs s <-> found (fromBeginning (meaning cs calls)) (language_of (meaning cs calls)) s) as Hff.
  { intros s. split; [|intros Hf; by exists calls]. intros (calls' & Hp' & Hf). by simplify_eq. }
  destruct Hs as [-> | ->]; injection Hr as <- <-.
  - destruct (addPattern_accepted _ _ _ f _ cs action calls f1 Hunits Hp Hplain Hw Ha) as [Hw' Hm]. split; [done|].
    intros s a Hs. unfold matched. rewrite Hm, Hff by done. tauto.
  - specialize (Hany _ _ _ Ha). assert (f1 = f) as ->. { by destruct (addPattern_everything _ _ _ f _ cs action calls f1 [] Hunits Hp Hplain Hany ltac:(constructor) Ha). }
    split; [done|]. intros s a Hs. destruct (addPattern_everything _ _ _ f _ cs action calls f s Hunits Hp Hplain Hany Hs Ha) as [_ Hf].
    unfold matched. rewrite Hff, Hany, elem_of_union, elem_of_singleton. tauto.
Qed.

(** ** Conditions *)

Definition condition_met (domains : bool) (caseSensitive : bool) (top : list Z) (condition : WString) : Prop :=
  if domains then domain_matches (characters condition) top else filter_found condition caseSensitive top.

Definition condition_ok (domains : bool) (caseSensitive : bool) (condition : WString) : Prop :=
  if domains then text (characters condition) else filter_ok condition caseSensitive.

Lemma andThen_inr {A B} (m : option (ContentExtensionError + A)) (k : A -> option (ContentExtensionError + B)) b :
  andThen m k = Some (inr b) -> exists a, m = Some (inr a) /\ k a = Some (inr b).
Proof. destruct m as [[e|a]|]; cbn; [done|by exists a|done]. Qed.

Lemma addConditions_sound domains cs action conds f u f' u' : Forall (condition_ok domains cs) conds -> wf_filters f ->
  addConditions U_GET_GC_MASK unicodeMatchProperty unicodeMatchPropertyValue domains cs action conds f u = Some (inr (f', u')) ->
  wf_filters f' /\ forall s a, text s -> matched f' u' s a <-> matched f u s a \/ (a = action /\ exists c, c ∈ conds /\ condition_met domains cs s c).
Proof.
  intros Hok. revert f u. induction Hok as [|c conds Hc _ IH]; intros f u Hw; cbn [addConditions].
  { intros [= <- <-]. split; [done|]. intros s a _. split; [tauto|]. intros [?|(_ & c & Hc & _)]; [done|by apply elem_of_nil in Hc]. }
  intros Ha. apply andThen_inr in Ha as ([f1 u1] & H1 & Ha).
  assert (wf_filters f1 /\ forall s a, text s -> matched f1 u1 s a <-> matched f u s a \/ (a = action /\ condition_met domains cs s c)) as [Hw1 Hm1].
  { unfold condition_ok, condition_met in *. destruct domains; [|by eapply addFilter_sound].
    destruct (addDomain_sound f action (characters c) Hw Hc) as (f2 & Hd & Hw2 & Hm2). rewrite Hd in H1. cbn [mbind option_bind] in H1. injection H1 as <- <-.
    split; [done|]. intros s a Hs. unfold matched. rewrite Hm2 by done. tauto. }
  destruct (IH f1 u1 Hw1 Ha) as [Hw' Hm']. split; [done|]. intros s a Hs. rewrite Hm', Hm1 by done. setoid_rewrite elem_of_cons. naive_solver.
Qed.

(** ** Rules *)

Definition hasConditions (r : ContentExtensionRule) : bool := negb (bool_decide (conditions (m_trigger r) = [])).
Definition action_of (r : ContentExtensionRule) (location : Z) : Z := actionLocationAndFlags (m_trigger r) location.
Definition url_found (r : ContentExtensionRule) (url : list Z) : Prop := filter_found (urlFilter (m_trigger r)) (urlFilterIsCaseSensitive (m_trigger r)) url.

(** One of the conditions of the rule holds for the main document. *)
Definition top_met (domains : bool) (r : ContentExtensionRule) (top : list Z) : Prop :=
  exists c, c ∈ conditions (m_trigger r) /\ condition_met domains (topURLConditionIsCaseSensitive (m_trigger r)) top c.

Definition rule_ready (domains : bool) (r : ContentExtensionRule) : Prop :=
  filter_ok (urlFilter (m_trigger r)) (urlFilterIsCaseSensitive (m_trigger r)) /\
  Forall (condition_ok domains (topURLConditionIsCaseSensitive (m_trigger r))) (conditions (m_trigger r)).

(** The actions that a partition has: [k] says which filters. *)
Inductive FilterSet := WithoutConditions | WithConditions | TopURL.

Definition partition_matches (k : FilterSet) (p : RulePartition) (s : list Z) (a : Z) : Prop :=
  match k with
  | WithoutConditions => matched (filtersWithoutConditions p) (universalActionsWithoutConditions p) s a
  | WithConditions => matched (filtersWithConditions p) (universalActionsWithConditions p) s a
  | TopURL => matched (topURLFilters p) (universalTopURLActions p) s a
  end.

(** What a rule adds to them. *)
Definition rule_matches (domains : bool) (k : FilterSet) (r : ContentExtensionRule) (location : Z) (s : list Z) (a : Z) : Prop :=
  a = action_of r location /\
  match k with
  | WithoutConditions => hasConditions r = false /\ url_found r s
  | WithConditions => hasConditions r = true /\ url_found r s
  | TopURL => hasConditions r = true /\ top_met domains r s
  end.

Record wf_partition (p : RulePartition) : Prop := {
  wp_without : wf_filters (filtersWithoutConditions p);
  wp_with : wf_filters (filtersWithConditions p);
  wp_top : wf_filters (topURLFilters p)
}.

Lemma compileRule_sound domains p r location p' : rule_ready domains r -> wf_partition p ->
  compileRule U_GET_GC_MASK unicodeMatchProperty unicodeMatchPropertyValue domains p r location = Some (inr p') ->
  wf_partition p' /\ forall k s a, text s -> partition_matches k p' s a <-> partition_matches k p s a \/ rule_matches domains k r location s a.
Proof.
  intros [Hf Hc] [Hw1 Hw2 Hw3] Hr. unfold compileRule in Hr. case_bool_decide as Hcond.
  - apply andThen_inr in Hr as ([f u] & Ha & [= <-]). destruct (addFilter_sound _ _ _ _ _ _ _ Hf Hw1 Ha) as [Hw Hm].
    assert (hasConditions r = false) as Hh by (unfold hasConditions; by rewrite bool_decide_true). split; [by constructor|].
    intros [] s a Hs; cbn [partition_matches rule_matches filtersWithoutConditions universalActionsWithoutConditions filtersWithConditions universalActionsWithConditions topURLFilters universalTopURLActions];
      unfold rule_matches; rewrite ?Hh; [rewrite Hm by done; unfold url_found, action_of|..]; intuition discriminate.
  - apply andThen_inr in Hr as ([f u] & Ha & Hr). apply andThen_inr in Hr as ([top utop] & Ht & [= <-]).
    destruct (addFilter_sound _ _ _ _ _ _ _ Hf Hw2 Ha) as [Hw Hm]. destruct (addConditions_sound _ _ _ _ _ _ _ _ Hc Hw3 Ht) as [Hwt Hmt].
    assert (hasConditions r = true) as Hh by (unfold hasConditions; by rewrite bool_decide_false). split; [by constructor|].
    intros [] s a Hs; cbn [partition_matches rule_matches filtersWithoutConditions universalActionsWithoutConditions filtersWithConditions universalActionsWithConditions topURLFilters universalTopURLActions];
      unfold rule_matches; rewrite ?Hh; [|rewrite Hm by done; unfold url_found, action_of|rewrite Hmt by done; unfold top_met, action_of]; intuition discriminate.
Qed.

Lemma compileRules_sound domains p rules locations p' : Forall (rule_ready domains) rules -> wf_partition p ->
  compileRules U_GET_GC_MASK unicodeMatchProperty unicodeMatchPropertyValue domains p rules locations = Some (inr p') ->
  wf_partition p' /\ forall k s a, text s -> partition_matches k p' s a <-> partition_matches k p s a \/
    exists i r location, rules !! i = Some r /\ locations !! i = Some location /\ rule_matches domains k r location s a.
Proof.
  intros Hready. revert p locations. induction Hready as [|r rules Hr _ IH]; intros p locations Hw; cbn [compileRules].
  { intros [= <-]. split; [done|]. intros k s a _. split; [tauto|]. by intros [?|(i & r & l & Hi & _)]. }
  destruct locations as [|location locations]; [done|]. intros (p1 & H1 & H2)%andThen_inr.
  destruct (compileRule_sound _ _ _ _ _ Hr Hw H1) as [Hw1 Hm1]. destruct (IH _ _ Hw1 H2) as [Hw2 Hm2]. split; [done|]. intros k s a Hs. rewrite Hm2, Hm1 by done. split.
  - intros [[?|?]|(i & r' & l & ?)]; [by left|right; by exists 0%nat, r, location|right; by exists (S i), r', l].
  - intros [?|(i & r' & l & Hi & Hl & ?)]; [tauto|]. destruct i as [|i]; cbn in Hi, Hl; [simplify_eq; tauto|right; by exists i, r', l].
Qed.

Lemma wf_newRulePartition : wf_partition newRulePartition.
Proof. constructor; exact wf_newCombinedURLFilters. Qed.

Lemma no_match_new s a : ~ filters_match newCombinedURLFilters s a.
Proof.
  intros (path & Ha & _). unfold actionsAt, newCombinedURLFilters, newVertex in Ha. destruct path as [|t path]; cbn in Ha; by apply elem_of_nil in Ha.
Qed.

Lemma partitionRuleList_sound rules bytes domains p :
  partitionRuleList U_GET_GC_MASK unicodeMatchProperty unicodeMatchPropertyValue rules = Some (inr (bytes, domains, p)) -> Forall (rule_ready domains) rules ->
  exists locations, serializeActions rules = Some (locations, bytes) /\ domains = domainConditionSeen rules /\ wf_partition p /\
    forall k s a, text s -> partition_matches k p s a <->
      exists i r location, rules !! i = Some r /\ locations !! i = Some location /\ rule_matches domains k r location s a.
Proof.
  unfold partitionRuleList. intros Hp Hready. destruct (_ && _); [done|]. destruct (serializeActions rules) as [[locations bytes']|]; cbn [mbind option_bind] in Hp; [|done].
  apply andThen_inr in Hp as (p1 & Hc & [= -> <- ->]). exists locations. destruct (compileRules_sound _ _ _ _ _ Hready wf_newRulePartition Hc) as [Hw Hm].
  split_and!; [done..|]. intros k s a Hs. rewrite (Hm k s a Hs). split; [|by right]. intros [Hnew|?]; [|done]. exfalso.
  destruct k; destruct Hnew as [Hnew|Hnew]; first [by apply no_match_new in Hnew|by apply elem_of_empty in Hnew].
Qed.

(** C3: What a compiled rule list matches.  When a rule list compiles, and its
    filters and conditions name ASCII characters other than NUL only and those that
    are taken for filters that match everything are not anchored with [^]
    ([rule_ready]; without it see [anchored_filter_rejected]), the filters
    without conditions (with their universal actions) have for a URL exactly the
    actions of the rules without conditions whose regular expression is found in
    it; the filters with conditions exactly those of the rules with conditions;
    and the filters of the main document exactly the actions of the rules one of
    whose domains or top URLs the main document matches. *)
Theorem partitionRuleList_correct rules bytes domains p :
  partitionRuleList U_GET_GC_MASK unicodeMatchProperty unicodeMatchPropertyValue rules = Some (inr (bytes, domains, p)) -> Forall (rule_ready domains) rules ->
  exists locations, serializeActions rules = Some (locations, bytes) /\ domains = domainConditionSeen rules /\ wf_partition p /\
    forall k s a, text s -> partition_matches k p s a <->
      exists i r location, rules !! i = Some r /\ locations !! i = Some location /\ rule_matches domains k r location s a.
Proof. exact (partitionRuleList_sound rules bytes domains p). Qed.

End Partition.

(** A rule for "ab" and one for "c" on the domain "d". *)
Definition twoRules : list ContentExtensionRule :=
  [mkContentExtensionRule (mkTrigger (mkWString true [97; 98]) true false 0 [] CT_None) (mkAction None BlockLoad UINT32_MAX None);
   mkContentExtensionRule (mkTrigger (mkWString true [99]) true false 0 [mkWString true [100]] IfDomain) (mkAction None BlockCookies UINT32_MAX None)].

Definition twoCompiled : option (ContentExtensionError + list Z * bool * RulePartition) :=
  Eval vm_compute in partitionRuleList (λ _, 0) noProperty noPropertyValue twoRules.

Lemma two_filter_ok pattern : pattern = mkWString true [97; 98] \/ pattern = mkWString true [99] -> filter_ok (λ _, 0) noProperty noPropertyValue pattern true.
Proof.
  intros [-> | ->]; (split; [repeat constructor; lia|]); intros error calls Hp; vm_compute in Hp; injection Hp as <- <-;
    (split; [repeat constructor; lia|]); intros f id f' Ha; vm_compute in Ha; discriminate Ha.
Qed.

Lemma partitionRuleList_correct_witness : exists bytes domains p,
  partitionRuleList (λ _, 0) noProperty noPropertyValue twoRules = Some (inr (bytes, domains, p)) /\ partition_matches TopURL p [100] (Z.lor 1 IfConditionFlag).
Proof.
  destruct twoCompiled as [[e|[[bytes domains] p]]|] eqn:E; [vm_compute in E; discriminate E| |vm_compute in E; discriminate E].
  exists bytes, domains, p. assert (partitionRuleList (λ _, 0) noProperty noPropertyValue twoRules = Some (inr (bytes, domains, p))) as Hp by (rewrite <- E; vm_compute; reflexivity).
  split; [exact Hp|]. destruct (partitionRuleList_correct (λ _, 0) noProperty noPropertyValue twoRules bytes domains p Hp) as (locations & Hs & Hd & _ & Hm).
  - vm_compute in E. injection E as _ <- _. constructor; [|constructor; [|constructor]]; (split; [apply two_filter_ok; tauto|]); repeat constructor; lia.
  - apply Hm; [repeat constructor; lia|]. vm_compute in Hs. injection Hs as <- _. vm_compute in Hd. subst domains.
    exists 1%nat. eexists. exists 1. split_and!; [reflexivity|reflexivity|]. split; [by vm_compute|]. split; [done|].
    exists (mkWString true [100]). split; [left|]. cbn. done.
Defined.
