(* ===== verification/BackendProof.v ===== *)
(** * The backend: what becomes of a load, and the cache of the conditions

    The status of a load read off the actions; the loop for pings agrees with the
    loop for loads; the loops never meet an exception; and the cache of the
    conditions answers for the URL that it is asked about, unless that is the
    null URL. *)

From stdpp Require Import base numbers option list list_numbers gmap sorting.
From Stdlib Require Import ZArith Lia.
From S2P Require Import Prelude.
From S2P Require Import DFABytecode.
From S2P Require Import DFA.
From S2P Require Import DFABytecodeInterpreter.
From S2P Require Import DFABytecodeCompiler.
From S2P Require Import ContentExtensionRule.
From S2P Require Import ActionSerialization.
From S2P Require Import ContentExtensionCompiler.
From S2P Require Import URL.
From S2P Require Import ContentExtension.
From S2P Require Import ContentExtensionsBackend.

(** ** The actions never have an exception among them *)

Definition ordinary (a : Action) : Prop := m_type a <> IgnorePreviousRules.

Lemma collectActions_ordinary bytes identifier ds acts saw : collectActions bytes identifier ds = Some (acts, saw) -> Forall ordinary acts.
Proof.
  revert acts saw. induction ds as [|l ds IH]; intros acts saw; cbn [collectActions]; [intros [= <- <-]; constructor|].
  destruct (deserialize bytes l) as [a|]; cbn [mbind option_bind]; [|done]. case_bool_decide as Ht; [intros [= <- <-]; constructor|].
  destruct (collectActions bytes identifier ds) as [[rest saw']|]; cbn [mbind option_bind]; [|done]. intros [= <- <-]. constructor; [exact Ht|by eapply IH].
Qed.

Lemma run_bind_Finished {A B} (k : A -> Run B) m b : m ≫= k = Finished b -> exists a, m = Finished a /\ k a = Finished b.
Proof. destruct m as [a| |]; cbn; [by exists a|done..]. Qed.

Ltac run_inv H :=
  let x := fresh "x" in let Hx := fresh "Hx" in
  apply run_bind_Finished in H; destruct H as [x [Hx H]].

Section Status.
Context `{HashMapOrder} (canAccess : URL -> URL -> bool) (ws_icu : Z -> bool).

Lemma actionsForExtensions_ordinary fuel entries extensions url flags topURL acts ids ext' :
  actionsForExtensions fuel entries extensions url flags topURL = Finished (acts, ids, ext') -> Forall ordinary acts.
Proof.
  revert extensions acts ids ext'. induction entries as [|[key e] entries IH]; intros extensions acts ids ext'; cbn [actionsForExtensions].
  { intros [= <- _ _]. constructor. }
  intros Hr. run_inv Hr. destruct x as [[acts1 saw] e1]. run_inv Hr. destruct x as [[acts2 ids2] ext2]. injection Hr as <- _ _.
  apply Forall_app. split; [|by eapply IH]. unfold actionsForExtension in Hx. run_inv Hx. destruct x as [ls e2]. run_inv Hx. destruct x as [acts3 saw3].
  injection Hx as -> _ _. destruct (collectActions _ _ _) as [[acts4 saw4]|] eqn:Hc; [|done]. injection Hx2 as -> _. by eapply collectActions_ordinary.
Qed.

Lemma actionsForResourceLoad_ordinary fuel extensions info acts ids ext' :
  actionsForResourceLoad canAccess fuel extensions info = Finished (acts, ids, ext') -> Forall ordinary acts.
Proof.
  unfold actionsForResourceLoad. destruct (_ || _ || _); [intros [= <- _ _]; constructor|]. intros Hr. run_inv Hr. by eapply actionsForExtensions_ordinary.
Qed.

(** ** The status *)

(** Whether one of the actions has the type. *)
Definition has_type (t : ActionType) (acts : list Action) : bool := existsb (λ a, bool_decide (m_type a = t)) acts.

Definition notified (acts : list Action) : gset (list Z * list Z) :=
  list_to_set ((λ a, (default [] (m_extensionIdentifier a), argumentOf a)) <$> filter (λ a, m_type a = Notify) acts).

(** The status that the actions ask for. *)
Definition status_of (can : bool) (s : BlockedStatus) (acts : list Action) : BlockedStatus :=
  mkBlockedStatus (blockedLoad s || has_type BlockLoad acts) (blockedCookies s || has_type BlockCookies acts)
    (madeHTTPS s || (can && has_type MakeHTTPS acts)) (notifications s ∪ notified acts).

Lemma status_of_nil can s : status_of can s [] = s.
Proof. destruct s as [a b c n]. unfold status_of. cbn. rewrite andb_false_r, !orb_false_r. f_equal. unfold notified. cbn. set_solver. Qed.

Lemma loadAction_status url can type doc s effects a : ordinary a -> canMakeHTTPS ws_icu url = Some can ->
  exists effects', loadAction ws_icu url type doc (s, effects) a = Some (status_of can s [a], effects').
Proof.
  intros Ho Hcan. unfold loadAction, status_of, notified. destruct s as [b1 b2 b3 n], a as [id t i arg]. unfold ordinary in Ho. cbn in Ho.
  destruct t; cbn; rewrite ?Hcan; cbn; [..|done|]; try destruct can; eexists; f_equal; f_equal; f_equal;
    rewrite ?orb_false_r, ?orb_true_r, ?andb_false_r; cbn; try done; set_solver.
Qed.

Lemma has_type_cons t a acts : has_type t (a :: acts) = has_type t [a] || has_type t acts.
Proof. unfold has_type. cbn. by rewrite orb_false_r. Qed.

Lemma notified_cons a acts : notified (a :: acts) = notified [a] ∪ notified acts.
Proof. unfold notified. cbn. destruct (decide (m_type a = Notify)); cbn; set_solver. Qed.

Lemma status_of_cons can s a acts : status_of can (status_of can s [a]) acts = status_of can s (a :: acts).
Proof.
  unfold status_of. cbn [blockedLoad blockedCookies madeHTTPS notifications].
  rewrite (has_type_cons _ a acts), (has_type_cons BlockCookies a acts), (has_type_cons MakeHTTPS a acts), (notified_cons a acts), andb_orb_distrib_r, !orb_assoc.
  f_equal. set_solver.
Qed.

Lemma loadActions_status url can type doc s effects acts : Forall ordinary acts -> canMakeHTTPS ws_icu url = Some can ->
  exists effects', loadActions ws_icu url type doc (s, effects) acts = Some (status_of can s acts, effects').
Proof.
  intros Ho Hcan. revert s effects. induction Ho as [|a acts Ha _ IH]; intros s effects; cbn [loadActions].
  { exists effects. by rewrite status_of_nil. }
  destruct (loadAction_status url can type doc s effects a Ha Hcan) as [effects1 ->]. cbn [mbind option_bind].
  destruct (IH (status_of can s [a]) effects1) as [effects2 ->]. exists effects2. by rewrite status_of_cons.
Qed.

Definition forgetNotifications (s : BlockedStatus) : BlockedStatus := mkBlockedStatus (blockedLoad s) (blockedCookies s) (madeHTTPS s) ∅.

Lemma pingAction_status url can s a : ordinary a -> canMakeHTTPS ws_icu url = Some can ->
  pingAction ws_icu url (forgetNotifications s) a = Some (forgetNotifications (status_of can s [a])).
Proof.
  intros Ho Hcan. unfold pingAction, status_of, forgetNotifications. destruct s as [b1 b2 b3 n], a as [id t i arg]. unfold ordinary in Ho. cbn in Ho.
  destruct t; cbn; rewrite ?Hcan; cbn; [..|done|]; try destruct can; f_equal; f_equal; by rewrite ?orb_false_r, ?orb_true_r, ?andb_false_r.
Qed.

Lemma pingActions_status url can s acts : Forall ordinary acts -> canMakeHTTPS ws_icu url = Some can ->
  pingActions ws_icu url (forgetNotifications s) acts = Some (forgetNotifications (status_of can s acts)).
Proof.
  intros Ho Hcan. revert s. induction Ho as [|a acts Ha _ IH]; intros s; cbn [pingActions]; [by rewrite status_of_nil|].
  rewrite (pingAction_status url can s a Ha Hcan). cbn [mbind option_bind]. by rewrite IH, status_of_cons.
Qed.

(** C27: Whatever the extensions, a load whose actions can be computed gets a
    status (the release assertion on exceptions is never reached): it is blocked,
    loses its cookies or is promoted exactly when one of the actions says so (and
    the URL can be promoted), and it notifies exactly what the actions say.  A
    ping for the same load gets the same status without the notifications. *)
Theorem process_status fuel extensions url type loader acts ids extensions' can :
  extensions <> ∅ -> canMakeHTTPS ws_icu url = Some can ->
  actionsForResourceLoad canAccess fuel extensions (mkResourceLoadInfo url (mainDocumentURLFor url type loader) type) = Finished (acts, ids, extensions') ->
  (exists effects, processContentExtensionRulesForLoad canAccess ws_icu fuel extensions url type loader = Finished (status_of can notBlocked acts, effects, extensions')) /\
  (type = RT_Raw -> processContentExtensionRulesForPingLoad canAccess ws_icu fuel extensions url (mainDocumentURLFor url type loader)
    = Finished (forgetNotifications (status_of can notBlocked acts), extensions')).
Proof.
  intros Hne Hcan Ha. pose proof (actionsForResourceLoad_ordinary _ _ _ _ _ _ Ha) as Ho. split.
  - unfold processContentExtensionRulesForLoad. rewrite bool_decide_false by done. rewrite Ha. cbn [mbind run_bind].
    destruct (loadActions_status url can type (hasFrame loader && hasCurrentDocument loader) notBlocked [] acts Ho Hcan) as [effects ->]. by eexists.
  - intros ->. unfold processContentExtensionRulesForPingLoad. rewrite bool_decide_false by done. rewrite Ha. cbn [mbind run_bind].
    change notBlocked with (forgetNotifications notBlocked) at 1. by rewrite (pingActions_status url can notBlocked acts Ho Hcan).
Qed.

End Status.

(** A page with one extension, whose one rule blocks every load. *)
Definition universalBytecode (actions : gset Z) : list Z := default [] (lowerDFAsToBytecode [] actions).
Definition blockAll : CompiledContentExtension := mkCompiledContentExtension (universalBytecode {[ 0 ]}) (universalBytecode ∅) (universalBytecode ∅) false [0].
Definition blockAllExtensions : ContentExtensions :=
  match addContentExtension 100 ∅ [105] blockAll CompileCSS_Yes with Finished e => e | _ => ∅ end.
Definition sampleURL : URL := mkURL (Some [104; 116; 116; 112; 58; 47; 47; 97; 47]) true 0 4 7 7 8.
Definition sampleLoader : DocumentLoader := mkDocumentLoader true true false true (Some sampleURL).

Definition sampleActions : list Action * list (list Z) * ContentExtensions :=
  match actionsForResourceLoad (λ _ _, true) 100 blockAllExtensions (mkResourceLoadInfo sampleURL (mainDocumentURLFor sampleURL RT_Raw sampleLoader) RT_Raw)
  with Finished r => r | _ => ([], [], ∅) end.

Lemma process_status_witness : exists effects extensions',
  processContentExtensionRulesForLoad (λ _ _, true) (λ _, false) 100 blockAllExtensions sampleURL RT_Raw sampleLoader
    = Finished (mkBlockedStatus true false false ∅, effects, extensions').
Proof.
  destruct (process_status (λ _ _, true) (λ _, false) 100 blockAllExtensions sampleURL RT_Raw sampleLoader
    (fst (fst sampleActions)) (snd (fst sampleActions)) (snd sampleActions) true) as [[effects He] _].
  - intros E. assert (blockAllExtensions !! [105] = None) as E' by (by rewrite E). by vm_compute in E'.
  - by vm_compute.
  - by vm_compute.
  - exists effects, (snd sampleActions). rewrite He. repeat f_equal.
Defined.

(** ** The cache of the conditions *)

Section Cache.
Context (fuel : nat) (parsed : URL -> Prop).
(** The offsets of a parsed URL are determined by its string. *)
Context (parsed_same : forall a b, parsed a -> parsed b -> m_string a = m_string b -> a = b).

(** The states of an extension: created, then asked about parsed URLs. *)
Inductive reachable `{HashMapOrder} (c : CompiledContentExtension) : ContentExtension -> Prop :=
  | reachable_created identifier css e : ContentExtension_create fuel identifier c css = Finished e -> reachable c e
  | reachable_asked e topURL e' : reachable c e -> parsed topURL -> populateConditionCacheIfNeeded fuel e topURL = Finished e' -> reachable c e'.

(** What the cache holds is what it would compute. *)
Record cache_ok (c : CompiledContentExtension) (e : ContentExtension) : Prop := {
  ca_compiled : m_compiledExtension e = c;
  ca_parsed : m_string (m_cachedTopURL e) <> None -> parsed (m_cachedTopURL e);
  ca_actions : m_string (m_cachedTopURL e) <> None -> computeTopURLActions fuel c (m_cachedTopURL e) = Finished (m_cachedTopURLActions e);
  ca_conditioned : m_string (m_cachedTopURL e) <> None ->
    m_cachedUniversalConditionedActions e = conditionedActions (m_universalActionsWithConditions e) (m_cachedTopURLActions e)
}.

Lemma populate_ok c e topURL e' : cache_ok c e -> parsed topURL -> populateConditionCacheIfNeeded fuel e topURL = Finished e' -> cache_ok c e'.
Proof.
  intros Hc Hp. unfold populateConditionCacheIfNeeded. destruct (url_neqb _ _); [|intros [= <-]; done].
  intros Hr. apply run_bind_Finished in Hr as (acts & Ha & Hr). injection Hr as <-. rewrite (ca_compiled _ _ Hc) in *. by constructor.
Qed.

Lemma reachable_ok `{HashMapOrder} c e : reachable c e -> cache_ok c e.
Proof.
  induction 1 as [identifier css e Hr|e topURL e' _ IH Hp Hr]; [|by eapply populate_ok].
  unfold ContentExtension_create in Hr. repeat (apply run_bind_Finished in Hr as (? & _ & Hr)). destruct_and?. destruct x1 as [sheet universal]. injection Hr as <-. by constructor.
Qed.

(** C31: In every state that an extension can reach, asking for the actions of the
    conditions of a main document gives what the bytecode of the conditions
    computes for that document, and the universal actions whose conditions hold
    are those that agree with it, whether the answer comes from the cache or
    not: the cache is invisible for URLs that are not null.  (For the null URL see
    [null_top_URL_depends_on_history].)  The offsets of a parsed URL are taken to be
    determined by its string. *)
Theorem topURLActions_correct `{HashMapOrder} c e topURL acts : reachable c e -> parsed topURL -> m_string topURL <> None ->
  computeTopURLActions fuel c topURL = Finished acts ->
  exists e', topURLActions fuel e topURL = Finished (acts, e') /\ reachable c e' /\
    universalActionsWithConditions fuel e topURL = Finished (conditionedActions (m_universalActionsWithConditions e) acts, e') /\
    m_universalActionsWithConditions e' = m_universalActionsWithConditions e.
Proof.
  intros Hr Hp Hn Ha. pose proof (reachable_ok c e Hr) as Hc. unfold topURLActions, universalActionsWithConditions.
  destruct (url_neqb (m_cachedTopURL e) topURL) eqn:Eu.
  - assert (populateConditionCacheIfNeeded fuel e topURL = Finished (mkContentExtension (m_identifier e) (m_compiledExtension e) (m_globalDisplayNoneStyleSheet e) topURL acts
      (conditionedActions (m_universalActionsWithConditions e) acts) (m_universalActionsWithoutConditions e) (m_universalActionsWithConditions e))) as E.
    { unfold populateConditionCacheIfNeeded. rewrite Eu, (ca_compiled _ _ Hc), Ha. done. }
    rewrite E. cbn [mbind run_bind m_cachedTopURLActions m_cachedUniversalConditionedActions]. eexists. split_and!; [reflexivity| |reflexivity|done].
    by eapply reachable_asked.
  - assert (m_string (m_cachedTopURL e) = m_string topURL) as Es by (unfold url_neqb in Eu; apply negb_false_iff, bool_decide_eq_true in Eu; done).
    assert (m_cachedTopURL e = topURL) as Et. { apply parsed_same; [apply (ca_parsed _ _ Hc); by rewrite Es|done|done]. }
    pose proof (ca_actions _ _ Hc) as Hca. rewrite Et in Hca. specialize (Hca Hn). rewrite Ha in Hca. injection Hca as ->.
    assert (populateConditionCacheIfNeeded fuel e topURL = Finished e) as E by (unfold populateConditionCacheIfNeeded; by rewrite Eu).
    rewrite E. cbn [mbind run_bind]. exists e. rewrite <- (ca_conditioned _ _ Hc) by (by rewrite Et). done.
Qed.

End Cache.

Definition parsedURLs (u : URL) : Prop := u = sampleURL.

Lemma topURLActions_correct_witness : exists e acts e', ContentExtension_create 100 [105] blockAll CompileCSS_Yes = Finished e /\
  computeTopURLActions 100 blockAll sampleURL = Finished acts /\ topURLActions 100 e sampleURL = Finished (acts, e').
Proof.
  destruct (ContentExtension_create 100 [105] blockAll CompileCSS_Yes) as [e| |] eqn:He; [|vm_compute in He; discriminate He..].
  destruct (computeTopURLActions 100 blockAll sampleURL) as [acts| |] eqn:Ha; [|vm_compute in Ha; discriminate Ha..].
  destruct (topURLActions_correct 100 parsedURLs (λ a b (Ha : parsedURLs a) (Hb : parsedURLs b) _, eq_trans Ha (eq_sym Hb)) blockAll e sampleURL acts) as (e' & He' & _);
    [exact (reachable_created 100 parsedURLs blockAll [105] CompileCSS_Yes e He)|reflexivity|discriminate|exact Ha|].
  exists e, acts, e'. exact (conj eq_refl (conj eq_refl He')).
Defined.

Definition run_option {A} (r : Run A) : option A := match r with Finished a => Some a | _ => None end.

(** An extension with one universal rule that hides nothing on some domain: its action is the location 0 without the bit of if-conditions. *)
Definition unlessExample : CompiledContentExtension :=
  mkCompiledContentExtension (universalBytecode ∅) (universalBytecode {[ 0 ]}) (universalBytecode ∅) true [0].

Definition emptyExtension : ContentExtension := mkContentExtension [] unlessExample None nullURL ∅ [] [] [].
Definition freshExample : ContentExtension :=
  Eval vm_compute in default emptyExtension (run_option (ContentExtension_create 100 [105] unlessExample CompileCSS_Yes)).
Definition askedExample : ContentExtension :=
  Eval vm_compute in default emptyExtension (run_option (populateConditionCacheIfNeeded 100 freshExample sampleURL)).

Lemma elem_of_conditionedActions universal topActions action : action ∈ universal -> Z.land action IfConditionFlag = 0 -> action ∉ topActions ->
  u32 action ∈ conditionedActions universal topActions.
Proof.
  intros Hin Hflag Hnot. apply list_elem_of_fmap. exists action. split; [done|]. apply list_elem_of_filter. split; [|done]. rewrite Hflag, bool_decide_false by done. done.
Qed.

(** C36: The answers for the null URL depend on the history.  The cache of an
    extension that was just created is taken for that of the null URL although
    nothing was computed: whatever the extension, a load without a main document
    (whose top URL is null) gets no universal action with a condition.  After any
    load with a main document that is not null it gets those that hold of the null
    URL: every universal action with an unless-condition that the null URL does not
    meet. *)
Theorem null_top_URL_depends_on_history `{HashMapOrder} fuel identifier c css e topURL e' topActions :
  ContentExtension_create fuel identifier c css = Finished e ->
  m_string topURL <> None -> populateConditionCacheIfNeeded fuel e topURL = Finished e' ->
  computeTopURLActions fuel c nullURL = Finished topActions ->
  topURLActions fuel e nullURL = Finished (∅, e) /\ universalActionsWithConditions fuel e nullURL = Finished ([], e) /\
  exists actions e2, universalActionsWithConditions fuel e' nullURL = Finished (actions, e2) /\
    forall action, action ∈ m_universalActionsWithConditions e -> Z.land action IfConditionFlag = 0 -> action ∉ topActions -> u32 action ∈ actions.
Proof.
  intros Hc Hn Hp Ht. unfold ContentExtension_create in Hc. repeat (apply run_bind_Finished in Hc as (? & _ & Hc)). destruct x1 as [sheet universal]. injection Hc as <-.
  split; [done|]. split; [done|]. unfold populateConditionCacheIfNeeded in Hp. cbn [m_cachedTopURL m_compiledExtension] in Hp.
  assert (url_neqb nullURL topURL = true /\ url_neqb topURL nullURL = true) as [E1 E2].
  { unfold url_neqb. cbn [m_string nullURL]. split; apply negb_true_iff, bool_decide_eq_false; congruence. }
  rewrite E1 in Hp. run_inv Hp. injection Hp as <-.
  unfold universalActionsWithConditions, populateConditionCacheIfNeeded. cbn [m_cachedTopURL m_compiledExtension m_universalActionsWithConditions]. rewrite E2, Ht.
  cbn [mbind run_bind m_cachedUniversalConditionedActions]. do 2 eexists. split; [reflexivity|]. intros action. apply elem_of_conditionedActions.
Qed.

(** The universal rule with an unless-condition applies in the second state only. *)
Lemma null_top_URL_depends_on_history_witness : universalActionsWithConditions 100 freshExample nullURL = Finished ([], freshExample) /\
  exists actions e2, universalActionsWithConditions 100 askedExample nullURL = Finished (actions, e2) /\ 0 ∈ actions.
Proof.
  destruct (null_top_URL_depends_on_history 100 [105] unlessExample CompileCSS_Yes freshExample sampleURL askedExample ∅) as (_ & Hfresh & actions & e2 & Hasked & Hin).
  - by vm_compute.
  - discriminate.
  - by vm_compute.
  - by vm_compute.
  - split; [exact Hfresh|]. exists actions, e2. split; [exact Hasked|]. apply (Hin 0); [left|reflexivity|apply not_elem_of_empty].
Defined.
