(* ===== verification/NFAToDFA.v ===== *)
(** * The subset construction

    Models [NFAToDFA.cpp] of [src/Source/WebCore/contentextensions/].  The
    hash table of node sets is a finite map from sets to DFA node indices; the
    order in which a hash set is visited is the parameter of [HashOrder].
    Vectors are assumed to stay below 2^32 elements, so that the [unsigned]
    offsets do not wrap.  [None] is an index outside a vector, the release
    assertion on the number of actions, or the end of the fuel. *)

From stdpp Require Import base numbers option list list_numbers gmap sets relations.
From Stdlib Require Import ZArith Lia.
From S2P Require Import Prelude.
From S2P Require Import DFA.
From S2P Require Import MutableRangeList.
From S2P Require Import NFA.

(** ** Epsilon closures *)

(** The loop over the epsilon transitions of a node: the closure, the stack of
    unprocessed nodes (its last element first) and the output. *)
Definition closureStep (acc : gset Z * list Z * list Z) (target : Z) : gset Z * list Z * list Z :=
  let '(closure, unprocessed, output) := acc in
  if decide (target ∈ closure) then acc
  else ({[ target ]} ∪ closure, target :: unprocessed, output ++ [target]).

Fixpoint closureLoop (fuel : nat) (nfa : NFA) (closure : gset Z) (unprocessed output : list Z) : option (list Z) :=
  match unprocessed with
  | [] => Some output
  | node :: unprocessed =>
    match fuel with
    | O => None
    | S fuel =>
      targets ← epsilonTargets nfa node;
      let '(closure, unprocessed, output) := foldl closureStep (closure, unprocessed, output) targets in
      closureLoop fuel nfa closure unprocessed output
    end
  end.

Definition epsilonClosureExcludingSelf (nfa : NFA) (nodeId : Z) : option (list Z) :=
  closureLoop (length (nfa_nodes nfa)) nfa {[ nodeId ]} [nodeId] [].

(** The closures of all nodes, and the NFA without its epsilon transitions. *)
Definition resolveEpsilonClosures (nfa : NFA) : option (list (list Z) * NFA) :=
  closures ← mapM (epsilonClosureExcludingSelf nfa) (seqZ 0 (vec_size (nfa_nodes nfa)));
  Some (closures, mkNFA (nfa_nodes nfa) (nfa_transitions nfa) (nfa_targets nfa) [] (nfa_actions nfa)).

(** [nfaNodeclosures[nodeId]]; every index that is used is one of a node. *)
Definition closureOf (closures : list (list Z)) (nodeId : Z) : gset Z :=
  list_to_set (default [] (vec_at closures nodeId)).

Definition extendSetWithClosure (closures : list (list Z)) (nodeId : Z) (set : gset Z) : gset Z :=
  closureOf closures nodeId ∪ set.

(** [DataConverterWithEpsilonClosure] *)
Definition closure_convert (closures : list (list Z)) (targets : list Z) : gset Z :=
  foldl (λ result nodeId, closureOf closures nodeId ∪ ({[ nodeId ]} ∪ result)) ∅ targets.

Definition closure_extend (closures : list (list Z)) (destination : gset Z) (targets : list Z) : gset Z :=
  foldl (λ destination nodeId,
           if decide (nodeId ∈ destination) then destination
           else closureOf closures nodeId ∪ ({[ nodeId ]} ∪ destination)) destination targets.

(** ** DFA nodes *)

(** [UniqueNodeIdSetImpl]: the buffer of node indices and the DFA node. *)
Record UniqueNodeIdSet := mkUniqueNodeIdSet { us_buffer : list Z; us_dfaNodeId : Z }.

Record ConvertState := mkConvertState {
  cs_dfa : DFA;
  uniqueNodeIdSetTable : gmap (gset Z) Z;
  unprocessedNodes : list UniqueNodeIdSet
}.

Section Convert.
Context `{HashOrder}.

(** The actions of the nodes of a set. *)
Definition unionActions (nfa : NFA) (nodeIdSet : gset Z) : option (gset Z) :=
  foldl (λ acc nodeId, acc ← acc; actions ← actionsOfNode nfa nodeId; Some (list_to_set actions ∪ acc))
    (Some ∅) (iteration nodeIdSet).

(** [NodeIdSetToUniqueNodeIdSetTranslator::translate]: a new DFA node with the
    actions of the set. *)
Definition translate (nfa : NFA) (dfa : DFA) (nodeIdSet : gset Z) : option (DFA * UniqueNodeIdSet) :=
  actions ← unionActions nfa nodeIdSet;
  let actionsStart := vec_size (dfa_actions dfa) in
  let newActions := dfa_actions dfa ++ iteration actions in
  let actionsLength := vec_size newActions - actionsStart in
  if 65535 <? actionsLength then None
  else
    let newDFANode := setActions emptyDFANode actionsStart actionsLength in
    let dfaNodeId := vec_size (dfa_nodes dfa) in
    Some (mkDFA (dfa_nodes dfa ++ [newDFANode]) newActions (transitionRanges dfa) (transitionDestinations dfa) (dfa_root dfa),
          mkUniqueNodeIdSet (iteration nodeIdSet) dfaNodeId).

(** [createCombinedTransition] *)
Definition createCombinedTransition (sourceNodeSet : UniqueNodeIdSet) (nfa : NFA) (closures : list (list Z))
    : option (list (MutableRange (gset Z))) :=
  foldl (λ acc nodeId, acc ← acc;
           transitions ← transitionsForNode nfa nodeId;
           extend (closure_convert closures) (closure_extend closures) acc transitions)
    (Some []) (us_buffer sourceNodeSet).

(** [getOrCreateDFANode]; the queue is a stack, its last element first. *)
Definition getOrCreateDFANode (nfaNodeSet : gset Z) (nfa : NFA) (st : ConvertState) : option (Z * ConvertState) :=
  match uniqueNodeIdSetTable st !! nfaNodeSet with
  | Some dfaNodeId => Some (dfaNodeId, st)
  | None =>
      '(dfa, impl) ← translate nfa (cs_dfa st) nfaNodeSet;
      Some (us_dfaNodeId impl,
            mkConvertState dfa (<[nfaNodeSet := us_dfaNodeId impl]> (uniqueNodeIdSetTable st))
              (impl :: unprocessedNodes st))
  end.

Definition appendTransition (dfa : DFA) (range : CharRange) (target : Z) : DFA :=
  mkDFA (dfa_nodes dfa) (dfa_actions dfa) (transitionRanges dfa ++ [range])
    (transitionDestinations dfa ++ [target]) (dfa_root dfa).

(** The loop over the ranges of the combined transition. *)
Definition addTransitions (nfa : NFA) (st : ConvertState) (ranges : list (MutableRange (gset Z)))
    : option ConvertState :=
  foldl (λ st range, st ← st;
           '(targetNodeId, st) ← getOrCreateDFANode (mr_data range) nfa st;
           Some (mkConvertState (appendTransition (cs_dfa st) (mkCharRange (mr_first range) (mr_last range)) targetNodeId)
                   (uniqueNodeIdSetTable st) (unprocessedNodes st)))
    (Some st) ranges.

(** One iteration of the main loop, for the node taken from the queue. *)
Definition processNode (nfa : NFA) (closures : list (list Z)) (source : UniqueNodeIdSet) (st : ConvertState)
    : option ConvertState :=
  combined ← createCombinedTransition source nfa closures;
  ranges ← ranges_in_order combined;
  let transitionsStart := vec_size (transitionRanges (cs_dfa st)) in
  st ← addTransitions nfa st ranges;
  let transitionsLength := vec_size (transitionRanges (cs_dfa st)) - transitionsStart in
  node ← vec_at (dfa_nodes (cs_dfa st)) (us_dfaNodeId source);
  nodes ← vec_set (dfa_nodes (cs_dfa st)) (us_dfaNodeId source) (setTransitions node transitionsStart (u8 transitionsLength));
  Some (mkConvertState (mkDFA nodes (dfa_actions (cs_dfa st)) (transitionRanges (cs_dfa st))
                          (transitionDestinations (cs_dfa st)) (dfa_root (cs_dfa st)))
          (uniqueNodeIdSetTable st) (unprocessedNodes st)).

Fixpoint convertLoop (fuel : nat) (nfa : NFA) (closures : list (list Z)) (st : ConvertState) : option DFA :=
  match unprocessedNodes st with
  | [] => Some (cs_dfa st)
  | source :: queue =>
    match fuel with
    | O => None
    | S fuel =>
      st ← processNode nfa closures source (mkConvertState (cs_dfa st) (uniqueNodeIdSetTable st) queue);
      convertLoop fuel nfa closures st
    end
  end.

(** [NFAToDFA::convert] *)
Definition convert (fuel : nat) (nfa : NFA) : option DFA :=
  '(closures, nfa) ← resolveEpsilonClosures nfa;
  root ← nfa_root nfa;
  let initialSet := extendSetWithClosure closures root {[ root ]} in
  '(dfa, impl) ← translate nfa (mkDFA [] [] [] [] 0) initialSet;
  convertLoop fuel nfa closures (mkConvertState dfa {[ initialSet := us_dfaNodeId impl ]} [impl]).

End Convert.
