(* ===== verification/Worklist.v ===== *)
(** * Automata that are numbered while they are discovered

    [NFAToDFA::convert] and [DFAMerger::merge] make a DFA in the same way: each
    node stands for a key (a set of NFA nodes, a pair of DFA nodes), a table maps
    keys to nodes, and a stack holds the nodes whose transitions are still to be
    made.  This file states the invariant of such a construction for any type of
    keys, and proves it for the steps the two share. *)

From stdpp Require Import base numbers option list list_numbers gmap sets relations.
From Stdlib Require Import ZArith Lia.
From S2P Require Import Prelude.
From S2P Require Import DFA.
From S2P Require Import MutableRangeList.
From S2P Require Import NFA.
From S2P Require Import NFAToDFA.

(** ** Slices of the vectors of a DFA *)

Lemma mapM_vec_at_app {A} (v w : list A) idx x :
  mapM (vec_at v) idx = Some x -> mapM (vec_at (v ++ w)) idx = Some x.
Proof.
  rewrite !mapM_Some. intros Hf. eapply Forall2_impl; [exact Hf|]. intros i y Hy.
  rewrite vec_at_app_l; [done|]. apply vec_at_bound in Hy. lia.
Qed.

Lemma node_actions_grow dfa dfa' more node acts :
  dfa_actions dfa' = dfa_actions dfa ++ more ->
  node_actions dfa node = Some acts -> node_actions dfa' node = Some acts.
Proof. unfold node_actions. intros ->. apply mapM_vec_at_app. Qed.

Lemma node_transitions_grow dfa dfa' moreR moreD node ts :
  transitionRanges dfa' = transitionRanges dfa ++ moreR ->
  transitionDestinations dfa' = transitionDestinations dfa ++ moreD ->
  node_transitions dfa node = Some ts -> node_transitions dfa' node = Some ts.
Proof.
  unfold node_transitions. rewrite !mapM_Some. intros Hr Hd Hf. eapply Forall2_impl; [exact Hf|].
  intros i t. unfold transition_at. rewrite Hr, Hd.
  destruct (vec_at (transitionRanges dfa) i) as [r|] eqn:E1; [|done].
  rewrite (vec_at_app_l (transitionRanges dfa)) by (apply vec_at_bound in E1; lia). rewrite E1. cbn [mbind option_bind].
  destruct (vec_at (transitionDestinations dfa) i) as [d|] eqn:E2; [|done].
  rewrite (vec_at_app_l (transitionDestinations dfa)) by (apply vec_at_bound in E2; lia). by rewrite E2.
Qed.

(** A DFA with one more node, which has these actions. *)
Definition with_node (dfa : DFA) (acts : list Z) : DFA :=
  mkDFA (dfa_nodes dfa ++ [setActions emptyDFANode (vec_size (dfa_actions dfa)) (vec_size acts)])
    (dfa_actions dfa ++ acts) (transitionRanges dfa) (transitionDestinations dfa) (dfa_root dfa).

Lemma new_node_actions dfa acts :
  vec_size acts <= 65535 ->
  node_actions (with_node dfa acts) (setActions emptyDFANode (vec_size (dfa_actions dfa)) (vec_size acts)) = Some acts.
Proof.
  intros Hsz. unfold node_actions. cbn [setActions m_actionsStart m_actionsLength with_node dfa_actions].
  pose proof (vec_size_nonneg acts). rewrite uwrap_small by lia.
  pose proof (slice_new' (dfa_actions dfa) acts) as Hs. unfold slice in Hs. rewrite vec_size_app in Hs.
  by replace (vec_size (dfa_actions dfa) + vec_size acts - vec_size (dfa_actions dfa)) with (vec_size acts) in Hs by lia.
Qed.

Lemma node_transitions_new dfa node tR tD (new : list (CharRange * Z)) :
  transitionRanges dfa = tR ++ new.*1 -> transitionDestinations dfa = tD ++ new.*2 -> vec_size tR = vec_size tD ->
  m_transitionsStart node = vec_size tR -> m_transitionsLength node = vec_size new ->
  node_transitions dfa node = Some new.
Proof.
  intros HR HD Hsz Hs Hl. unfold node_transitions. rewrite Hs, Hl. apply mapM_Some.
  assert (forall i t, new !! i = Some t -> transition_at dfa (vec_size tR + Z.of_nat i) = Some t) as Hat.
  { intros i [r t] Hi. unfold transition_at. rewrite HR, HD.
    assert (vec_at (tR ++ new.*1) (vec_size tR + Z.of_nat i) = Some r) as ->.
    { apply vec_at_Some. pose proof (vec_size_nonneg tR). split; [lia|].
      rewrite lookup_app_r by (unfold vec_size; lia).
      replace (Z.to_nat (vec_size tR + Z.of_nat i) - length tR)%nat with i by (unfold vec_size; lia).
      by rewrite list_lookup_fmap, Hi. }
    cbn [mbind option_bind].
    assert (vec_at (tD ++ new.*2) (vec_size tR + Z.of_nat i) = Some t) as ->.
    { apply vec_at_Some. pose proof (vec_size_nonneg tR). split; [lia|].
      rewrite lookup_app_r by (unfold vec_size in *; lia).
      replace (Z.to_nat (vec_size tR + Z.of_nat i) - length tD)%nat with i by (unfold vec_size in *; lia).
      by rewrite list_lookup_fmap, Hi. }
    done. }
  apply Forall2_same_length_lookup. split; [rewrite length_seqZ; unfold vec_size; lia|].
  intros i j t Hj Ht. apply lookup_seqZ in Hj as [-> _]. auto.
Qed.

(** Two slices that share no position. *)
Definition apart (start length start' length' : Z) : Prop :=
  length <= 0 \/ length' <= 0 \/ start + length <= start' \/ start' + length' <= start.

Definition apart_nodes (n m : DFANode) : Prop :=
  apart (m_actionsStart n) (m_actionsLength n) (m_actionsStart m) (m_actionsLength m)
  /\ apart (m_transitionsStart n) (m_transitionsLength n) (m_transitionsStart m) (m_transitionsLength m).

(** No two nodes share actions or transitions; [kill] relies on it. *)
Definition slices_apart (dfa : DFA) : Prop :=
  forall i j n m, i <> j -> vec_at (dfa_nodes dfa) i = Some n -> vec_at (dfa_nodes dfa) j = Some m -> apart_nodes n m.

Lemma apart_nodes_sym n m : apart_nodes n m -> apart_nodes m n.
Proof. unfold apart_nodes, apart. lia. Qed.

Lemma mapM_seqZ_bound {A B} (f : Z -> option B) (v : list A) start len x :
  (forall i y, f i = Some y -> 0 <= i < vec_size v) -> mapM f (seqZ start len) = Some x ->
  len <= 0 \/ 0 <= start /\ start + len <= vec_size v.
Proof.
  intros Hf Hx. apply mapM_Some_1 in Hx. destruct (decide (len <= 0)) as [|Hlen]; [by left|]. right.
  assert (forall i, start <= i < start + len -> 0 <= i < vec_size v) as Hall.
  { intros i Hi. assert (seqZ start len !! Z.to_nat (i - start) = Some i) as Hl.
    { apply lookup_seqZ. lia. }
    destruct (Forall2_lookup_l _ _ _ _ _ Hx Hl) as (y & _ & Hy). by eapply Hf. }
  pose proof (Hall start ltac:(lia)). pose proof (Hall (start + len - 1) ltac:(lia)). lia.
Qed.

Lemma node_actions_bound dfa node acts : node_actions dfa node = Some acts ->
  m_actionsLength node <= 0 \/ 0 <= m_actionsStart node /\ m_actionsStart node + m_actionsLength node <= vec_size (dfa_actions dfa).
Proof. apply mapM_seqZ_bound. intros i y. apply vec_at_bound. Qed.

Lemma node_transitions_bound dfa node ts : node_transitions dfa node = Some ts ->
  m_transitionsLength node <= 0
  \/ 0 <= m_transitionsStart node /\ m_transitionsStart node + m_transitionsLength node <= vec_size (transitionRanges dfa).
Proof.
  apply mapM_seqZ_bound. intros i y. unfold transition_at. destruct (vec_at (transitionRanges dfa) i) eqn:E; [|done].
  intros _. by eapply vec_at_bound.
Qed.

(** ** Ranges and transitions *)

Abbreviation entries rs := ((λ r, mkOtherRange (mr_first r) (mr_last r) (mr_data r)) <$> rs).

Section Ranges.
Context {K : Type}.
Implicit Types (keys : list K) (rs : list (MutableRange K)) (new : list (CharRange * Z)).

Definition transition_of keys (r : MutableRange K) (t : CharRange * Z) : Prop :=
  t.1 = mkCharRange (mr_first r) (mr_last r) /\ vec_at keys t.2 = Some (mr_data r).

Lemma new_ranges_ok keys lo rs new :
  Forall2 (transition_of keys) rs new -> sorted_from lo (entries rs) -> ranges_ok lo new = true.
Proof.
  intros Hf. revert lo. induction Hf as [|r [cr t] rs new [Hr _] _ IH]; intros lo; [done|].
  simpl in Hr. subst cr. rewrite fmap_cons, sorted_from_cons, ranges_ok_cons. cbn [o_first o_last cr_first cr_last].
  intros (? & ? & ? & Hs). split_and!; try lia. by apply IH.
Qed.

Lemma new_find keys rs new c :
  Forall2 (transition_of keys) rs new ->
  match range_lookup (entries rs) c with
  | Some Y => exists j, find_transition new c = Some j /\ vec_at keys j = Some Y
  | None => find_transition new c = None
  end.
Proof.
  induction 1 as [|r [cr t] rs new [Hr Ht] _ IH]; [done|]. simpl in Hr, Ht. subst cr.
  rewrite fmap_cons. cbn [range_lookup o_first o_last o_data find_transition]. unfold in_range. cbn [cr_first cr_last].
  destruct ((mr_first r <=? c) && _); [eauto|done].
Qed.

Lemma sorted_length {X} lo (l : list (OtherRange X)) : sorted_from lo l -> Z.of_nat (length l) <= Z.max 0 (128 - lo).
Proof.
  revert lo. induction l as [|r l IH]; intros lo; [simpl; lia|]. rewrite sorted_from_cons. intros (? & ? & ? & Hs).
  apply IH in Hs. simpl length. lia.
Qed.

Lemma range_lookup_own {X} lo (l : list (OtherRange X)) r :
  sorted_from lo l -> r ∈ l -> range_lookup l (o_first r) = Some (o_data r).
Proof.
  revert lo. induction l as [|x l IH]; intros lo; [by intros _ ?%elem_of_nil|].
  rewrite sorted_from_cons. intros (? & ? & ? & Hs) [->|Hr]%elem_of_cons; cbn [range_lookup].
  - destruct ((o_first x <=? o_first x) && _) eqn:E; [done|]. apply andb_false_iff in E as [?|?]; zbool; lia.
  - pose proof (sorted_from_Forall _ _ Hs) as Hf. rewrite Forall_forall in Hf. specialize (Hf r Hr).
    destruct ((o_first x <=? o_first r) && _) eqn:E; zbool; [lia|]. by eapply IH.
Qed.
End Ranges.

(** ** The invariant *)

Section Work.
Context {K : Type} `{Countable K}.
(** The keys that can occur, their actions, and where a character leads. *)
Context (key_ok : K -> Prop) (key_action : K -> Z -> Prop) (step : K -> Z -> option K -> Prop).
Implicit Types (keys : list K) (table : gmap K Z) (queue extra : list Z).

(** The transitions [ts] of the node for the key [X]. *)
Definition key_transitions keys (X : K) (ts : list (CharRange * Z)) : Prop :=
  ranges_ok 0 ts = true
  /\ Forall (λ t, 0 <= t.2 < vec_size keys) ts
  /\ forall c, 0 <= c <= 127 ->
       match find_transition ts c with
       | Some j => exists Y, vec_at keys j = Some Y /\ step X c (Some Y)
       | None => step X c None
       end.

(** [keys] lists the keys of the nodes; the nodes of [extra] and of the queue
    have no transitions yet, and [p] nodes are finished. *)
Record work_inv extra (p : nat) keys (dfa : DFA) table queue : Prop := {
  wi_size : vec_size (dfa_nodes dfa) = vec_size keys;
  wi_table : forall X i, table !! X = Some i <-> vec_at keys i = Some X;
  wi_keys : Forall key_ok keys;
  wi_node : forall i X, vec_at keys i = Some X -> exists node acts,
    vec_at (dfa_nodes dfa) i = Some node /\ isKilled node = false
    /\ node_actions dfa node = Some acts /\ forall a, a ∈ acts <-> key_action X a;
  wi_done : forall i X node, vec_at keys i = Some X -> vec_at (dfa_nodes dfa) i = Some node ->
    i ∉ extra -> i ∉ queue -> exists ts, node_transitions dfa node = Some ts /\ key_transitions keys X ts;
  wi_pending : forall i, i ∈ extra ++ queue -> 0 <= i < vec_size keys
    /\ forall node, vec_at (dfa_nodes dfa) i = Some node -> m_transitionsLength node = 0;
  wi_distinct : NoDup (extra ++ queue);
  wi_count : length keys = (p + length extra + length queue)%nat;
  wi_vectors : vec_size (transitionRanges dfa) = vec_size (transitionDestinations dfa);
  wi_slices : slices_apart dfa;
  wi_root : dfa_root dfa = 0
}.

Lemma key_transitions_grow keys more X ts : key_transitions keys X ts -> key_transitions (keys ++ more) X ts.
Proof.
  intros (H1 & H2 & H3). split_and!; [done| |].
  - eapply Forall_impl; [exact H2|]. intros t Ht. rewrite vec_size_app. pose proof (vec_size_nonneg more). simpl in Ht. lia.
  - intros c Hc. specialize (H3 c Hc). destruct (find_transition ts c) as [j|]; [|done].
    destruct H3 as (Y & HY & ?). exists Y. split; [|done]. rewrite vec_at_app_l; [done|]. apply vec_at_bound in HY. lia.
Qed.

(** A node that is pending or finished has its transitions inside the vectors. *)
Lemma work_transitions_bound extra p keys dfa table queue i node :
  work_inv extra p keys dfa table queue -> vec_at (dfa_nodes dfa) i = Some node ->
  m_transitionsLength node <= 0
  \/ 0 <= m_transitionsStart node /\ m_transitionsStart node + m_transitionsLength node <= vec_size (transitionRanges dfa).
Proof.
  intros HI Hi. destruct (decide (i ∈ extra ++ queue)) as [Hp|Hp].
  { apply (wi_pending _ _ _ _ _ _ HI) in Hp as [_ Hp]. specialize (Hp _ Hi). lia. }
  rewrite elem_of_app in Hp. destruct (vec_at_is_Some keys i) as [X HX].
  { rewrite <- (wi_size _ _ _ _ _ _ HI). by eapply vec_at_bound. }
  destruct (wi_done _ _ _ _ _ _ HI i X node HX Hi) as (ts & Hts & _); [tauto|tauto|]. by eapply node_transitions_bound.
Qed.

(** A node for a new key. *)
Lemma work_new extra p keys dfa table queue Y acts :
  work_inv extra p keys dfa table queue -> table !! Y = None -> key_ok Y ->
  vec_size acts <= 65535 -> (forall a, a ∈ acts <-> key_action Y a) ->
  work_inv extra p (keys ++ [Y]) (with_node dfa acts) (<[Y := vec_size (dfa_nodes dfa)]> table) (vec_size (dfa_nodes dfa) :: queue).
Proof.
  intros HI Ht HY Hsz Hin. set (id := vec_size (dfa_nodes dfa)). pose proof (wi_size _ _ _ _ _ _ HI) as Hsize. fold id in Hsize.
  set (node := setActions emptyDFANode (vec_size (dfa_actions dfa)) (vec_size acts)).
  assert (forall j X, vec_at keys j = Some X -> j <> id) as Hne by (intros j X Hj; apply vec_at_bound in Hj; lia).
  assert (id ∉ extra ++ queue) as Hfresh.
  { intros Hx. apply (wi_pending _ _ _ _ _ _ HI) in Hx as [? _]. lia. }
  assert (forall j n, vec_at (dfa_nodes dfa) j = Some n -> apart_nodes n node) as Hapart.
  { intros j n Hj. destruct (vec_at_is_Some keys j) as [X HX]; [rewrite <- Hsize; by eapply vec_at_bound|].
    destruct (wi_node _ _ _ _ _ _ HI j X HX) as (n' & acts' & Hn' & _ & Ha & _). simplify_eq.
    pose proof (node_actions_bound _ _ _ Ha) as Hb. unfold apart_nodes, apart, node.
    cbn [setActions emptyDFANode m_actionsStart m_actionsLength m_transitionsStart m_transitionsLength]. lia. }
  split; cbn [with_node dfa_nodes dfa_root transitionRanges transitionDestinations]; fold node.
  - rewrite !vec_size_app. change (vec_size [Y]) with 1. change (vec_size [node]) with 1. fold id. lia.
  - intros X i. rewrite vec_at_snoc_case, <- Hsize. destruct (decide (X = Y)) as [->|HXY].
    + rewrite lookup_insert_eq. destruct (i =? id) eqn:E; zbool; [naive_solver|].
      split; [intros; by simplify_eq|]. intros Hi%(wi_table _ _ _ _ _ _ HI). congruence.
    + rewrite lookup_insert_ne by done. rewrite (wi_table _ _ _ _ _ _ HI). destruct (i =? id) eqn:E; zbool; [|done].
      split; [intros Hi%Hne; done|]. intros; by simplify_eq.
  - apply Forall_app. split; [apply HI|]. by constructor.
  - intros i X Hi. rewrite vec_at_snoc_case in Hi. rewrite vec_at_snoc_case. fold id. rewrite <- Hsize in Hi. destruct (i =? id) eqn:E; zbool.
    + simplify_eq. exists node, acts. split_and!; [done|done| |done]. by apply new_node_actions.
    + destruct (wi_node _ _ _ _ _ _ HI i X Hi) as (n' & acts' & ? & ? & Hacts' & ?). exists n', acts'.
      split_and!; try done. eapply node_actions_grow; [|exact Hacts']. done.
  - intros i X n' Hi Hn' Hex Hq. rewrite vec_at_snoc_case in Hi. rewrite vec_at_snoc_case in Hn'. fold id in Hn'. rewrite <- Hsize in Hi.
    rewrite not_elem_of_cons in Hq. destruct (i =? id) eqn:E; zbool; [tauto|].
    destruct (wi_done _ _ _ _ _ _ HI i X n' Hi Hn' Hex) as (ts & Hts & Hok); [tauto|]. exists ts. split.
    + eapply (node_transitions_grow _ _ [] []); [..|exact Hts]; by rewrite app_nil_r.
    + by apply key_transitions_grow.
  - intros i Hi. rewrite vec_size_app. change (vec_size [Y]) with 1. rewrite vec_at_snoc_case. fold id.
    destruct (i =? id) eqn:E; zbool; [subst i; pose proof (vec_size_nonneg keys); split; [lia|naive_solver]|].
    destruct (wi_pending _ _ _ _ _ _ HI i) as [? ?]; [|split; [lia|done]].
    rewrite elem_of_app, elem_of_cons in Hi. rewrite elem_of_app. tauto.
  - pose proof (wi_distinct _ _ _ _ _ _ HI) as Hd. rewrite elem_of_app in Hfresh.
    rewrite NoDup_app in Hd |- *. destruct Hd as (Hd1 & Hd2 & Hd3). rewrite NoDup_cons. split_and!; [done| |tauto|done].
    intros j Hj [->|Hj']%elem_of_cons; [tauto|by apply (Hd2 j)].
  - pose proof (wi_count _ _ _ _ _ _ HI). rewrite length_app. simpl. lia.
  - apply HI.
  - intros i j n m Hij Hi Hj. cbn [with_node dfa_nodes] in *. fold node in Hi, Hj. rewrite vec_at_snoc_case in Hi. rewrite vec_at_snoc_case in Hj. fold id in Hi, Hj.
    destruct (i =? id) eqn:Ei, (j =? id) eqn:Ej; zbool; simplify_eq.
    + apply apart_nodes_sym. by eapply Hapart.
    + by eapply Hapart.
    + by eapply (wi_slices _ _ _ _ _ _ HI i j).
  - apply HI.
Qed.

Lemma work_append extra p keys dfa table queue r t :
  work_inv extra p keys dfa table queue -> work_inv extra p keys (appendTransition dfa r t) table queue.
Proof.
  intros HI. split; try apply HI.
  - intros i X node Hi Hn Hex Hq. destruct (wi_done _ _ _ _ _ _ HI i X node Hi Hn Hex Hq) as (ts & Hts & Hok).
    exists ts. split; [|done]. eapply (node_transitions_grow _ _ [r] [t]); [..|exact Hts]; done.
  - cbn [appendTransition transitionRanges transitionDestinations]. rewrite !vec_size_app, (wi_vectors _ _ _ _ _ _ HI). done.
Qed.

Lemma work_take p keys dfa table id queue :
  work_inv [] p keys dfa table (id :: queue) -> work_inv [id] p keys dfa table queue.
Proof.
  intros HI. split; try apply HI.
  - intros i X node Hi Hn Hex Hq. apply (wi_done _ _ _ _ _ _ HI i X node Hi Hn); [apply not_elem_of_nil|].
    rewrite list_elem_of_singleton in Hex. by rewrite not_elem_of_cons.
  - pose proof (wi_count _ _ _ _ _ _ HI). simpl in *. lia.
Qed.

(** The node [id] gets the transitions that were appended since the vectors had
    the sizes of [tR] and [tD]. *)
Lemma work_finish p keys dfa table queue id X tR tD new node nodes' :
  work_inv [id] p keys dfa table queue -> vec_at keys id = Some X ->
  transitionRanges dfa = tR ++ new.*1 -> transitionDestinations dfa = tD ++ new.*2 -> vec_size tR = vec_size tD ->
  (forall i n, vec_at (dfa_nodes dfa) i = Some n -> m_transitionsLength n <= 0 \/ m_transitionsStart n + m_transitionsLength n <= vec_size tR) ->
  vec_size new <= 128 -> key_transitions keys X new -> vec_at (dfa_nodes dfa) id = Some node ->
  vec_set (dfa_nodes dfa) id (setTransitions node (vec_size tR) (u8 (vec_size new))) = Some nodes' ->
  work_inv [] (S p) keys (mkDFA nodes' (dfa_actions dfa) (transitionRanges dfa) (transitionDestinations dfa) (dfa_root dfa)) table queue.
Proof.
  intros HI HX HR HD Hsz Hbound Hlen Hok Hnode Hset. set (node' := setTransitions node _ _) in Hset. set (dfa' := mkDFA _ _ _ _ _).
  pose proof (vec_size_nonneg new).
  assert (m_transitionsLength node' = vec_size new) as Hl'.
  { unfold node'. cbn [setTransitions m_transitionsLength]. by rewrite (uwrap_small 8 (vec_size new)), (uwrap_small 16), (uwrap_small 8) by lia. }
  assert (node_transitions dfa' node' = Some new) as Hnt by (by apply (node_transitions_new _ _ tR tD)).
  assert (forall i, vec_at nodes' i = if id =? i then Some node' else vec_at (dfa_nodes dfa) i) as Hnodes'
    by (intros i; by apply vec_set_spec).
  assert (forall i n, id <> i -> vec_at (dfa_nodes dfa) i = Some n -> apart_nodes node' n) as Hap.
  { intros i n Hi Hn. pose proof (wi_slices _ _ _ _ _ _ HI id i node n Hi Hnode Hn) as [Ha _]. split; [exact Ha|].
    pose proof (Hbound i n Hn). unfold apart. change (m_transitionsStart node') with (vec_size tR). lia. }
  split; cbn [dfa' dfa_nodes dfa_root transitionRanges transitionDestinations]; try apply HI.
  - rewrite (vec_set_size _ _ _ _ Hset). apply HI.
  - intros i X' Hi. destruct (wi_node _ _ _ _ _ _ HI i X' Hi) as (n0 & acts0 & Hn0 & Hk0 & Ha0 & Hact0).
    rewrite Hnodes'. destruct (id =? i) eqn:E; zbool; [|by exists n0, acts0].
    subst i. simplify_eq. by exists node', acts0.
  - intros i X' n0 Hi Hn0 _ Hnq. rewrite Hnodes' in Hn0. destruct (id =? i) eqn:E; zbool.
    + subst i. simplify_eq. exists new. done.
    + destruct (wi_done _ _ _ _ _ _ HI i X' n0 Hi Hn0) as (ts & Hts & Hok'); [by rewrite list_elem_of_singleton|done|].
      by exists ts.
  - intros i Hi. destruct (wi_pending _ _ _ _ _ _ HI i) as [Hb Hp]; [by right|]. split; [done|]. intros n. rewrite Hnodes'.
    destruct (id =? i) eqn:E; zbool; [|auto]. subst i. pose proof (wi_distinct _ _ _ _ _ _ HI) as Hd.
    by apply NoDup_cons in Hd as [? _].
  - pose proof (wi_distinct _ _ _ _ _ _ HI) as Hd. by apply NoDup_cons in Hd as [_ ?].
  - pose proof (wi_count _ _ _ _ _ _ HI) as Hc. simpl in *. lia.
  - intros i j n m Hij. cbn [dfa' dfa_nodes]. rewrite !Hnodes'. destruct (id =? i) eqn:Ei, (id =? j) eqn:Ej; zbool; intros Hi Hj; simplify_eq.
    + by eapply Hap.
    + apply apart_nodes_sym. by eapply Hap.
    + by eapply (wi_slices _ _ _ _ _ _ HI i j).
Qed.

Lemma work_initial X acts : key_ok X -> vec_size acts <= 65535 -> (forall a, a ∈ acts <-> key_action X a) ->
  work_inv [] 0 [X] (with_node (mkDFA [] [] [] [] 0) acts) {[X := 0]} [0].
Proof.
  intros HX Hsz Hin. apply (work_new [] 0 [] (mkDFA [] [] [] [] 0) ∅ [] X acts); try done.
  split; try done; try (intros; by simplify_map_eq); try by constructor.
  - intros Y i. rewrite lookup_empty. split; [done|]. intros Hi. apply vec_at_bound in Hi. change (vec_size []) with 0 in Hi. lia.
  - intros i Y Hi. apply vec_at_bound in Hi. change (vec_size []) with 0 in Hi. lia.
  - intros i Y ? Hi. apply vec_at_bound in Hi. change (vec_size []) with 0 in Hi. lia.
  - intros i Hi. by apply elem_of_nil in Hi.
  - intros i j n m _ Hi. apply vec_at_bound in Hi. change (vec_size (dfa_nodes (mkDFA [] [] [] [] 0))) with 0 in Hi. lia.
Qed.

Lemma work_keys_distinct extra p keys dfa table queue : work_inv extra p keys dfa table queue -> NoDup keys.
Proof.
  intros HI. apply NoDup_alt. intros i j X Hi Hj.
  assert (vec_at keys (Z.of_nat i) = Some X) as Hi' by (by rewrite vec_at_nat).
  assert (vec_at keys (Z.of_nat j) = Some X) as Hj' by (by rewrite vec_at_nat).
  apply (wi_table _ _ _ _ _ _ HI) in Hi', Hj'. rewrite Hi' in Hj'. injection Hj' as Hij. lia.
Qed.

(** ** The finished automaton *)

Definition work_finished keys (dfa : DFA) : Prop :=
  Forall key_ok keys /\ dfa_root dfa = 0 /\ vec_size (dfa_nodes dfa) = vec_size keys /\ slices_apart dfa
  /\ forall i X, vec_at keys i = Some X -> exists node acts ts,
       vec_at (dfa_nodes dfa) i = Some node /\ isKilled node = false
       /\ node_actions dfa node = Some acts /\ node_transitions dfa node = Some ts
       /\ (forall a, a ∈ acts <-> key_action X a) /\ key_transitions keys X ts.

Lemma work_inv_finished p keys dfa table : work_inv [] p keys dfa table [] -> work_finished keys dfa.
Proof.
  intros HI. split_and!; try apply HI. intros i X Hi.
  destruct (wi_node _ _ _ _ _ _ HI i X Hi) as (node & acts & Hn & Hk & Ha & Hact).
  destruct (wi_done _ _ _ _ _ _ HI i X node Hi Hn) as (ts & Hts & Hok); [apply not_elem_of_nil..|].
  by exists node, acts, ts.
Qed.

(** It is well formed when the actions of the keys are. *)
Lemma work_finished_wf keys dfa :
  work_finished keys dfa -> 0 < vec_size keys -> vec_size (dfa_nodes dfa) < UINT32_MAX ->
  (forall X a, key_ok X -> key_action X a -> action_ok a = true) -> wf_dfa dfa = true.
Proof.
  intros (Hkeys & Hroot & Hsz & _ & Hnodes) Hpos Hsmall Hact.
  assert (forall i, 0 <= i < vec_size keys -> is_live dfa i = true) as Hlive.
  { intros i Hi. destruct (vec_at_is_Some _ _ Hi) as [X HX]. destruct (Hnodes i X HX) as (node & _ & _ & Hn & Hk & _).
    unfold is_live. by rewrite Hn, Hk. }
  unfold wf_dfa. rewrite Hroot, Hlive by lia. simpl. apply andb_true_iff. split; [|by apply Z.ltb_lt].
  apply forallb_forall. intros node Hin. apply list_elem_of_In in Hin. apply list_elem_of_lookup in Hin as [i Hi].
  assert (vec_at (dfa_nodes dfa) (Z.of_nat i) = Some node) as Hi' by (apply vec_at_Some; split; [lia|by rewrite Nat2Z.id]).
  destruct (vec_at_is_Some keys (Z.of_nat i)) as [X HX]; [apply vec_at_bound in Hi'; lia|].
  destruct (Hnodes _ X HX) as (node' & acts & ts & Hn & _ & Ha & Hts & Hacts & Hok & Htgt & _). simplify_eq.
  unfold node_ok. rewrite Ha, Hts, Hok. apply orb_true_iff. right. rewrite !andb_true_iff, !forallb_forall. split_and!; [|done|].
  - intros a Hina%list_elem_of_In. apply Hacts in Hina. eapply Hact; [|exact Hina].
    apply vec_at_Some in HX as [_ HX]. rewrite Forall_forall in Hkeys. by apply Hkeys, (list_elem_of_lookup_2 _ _ _ HX).
  - intros t Ht%list_elem_of_In. rewrite Forall_forall in Htgt. by apply Hlive, Htgt.
Qed.
End Work.

(** ** The loop over the ranges of one node *)

Section Loop.
Context {K : Type} `{Countable K}.
Context (key_ok : K -> Prop) (key_action : K -> Z -> Prop) (step : K -> Z -> option K -> Prop).
(** The state of the construction, with what else its invariant says, and the
    function that gives a key its node. *)
Context {St : Type} (state_dfa : St -> DFA) (state_table : St -> gmap K Z) (state_queue : St -> list Z).
Context (with_dfa : St -> DFA -> St) (side : list K -> St -> Prop) (getOrCreate : K -> St -> option (Z * St)).

Definition state_inv extra (p : nat) keys st : Prop :=
  work_inv key_ok key_action step extra p keys (state_dfa st) (state_table st) (state_queue st) /\ side keys st.

Hypothesis Hwith : forall st dfa, state_dfa (with_dfa st dfa) = dfa /\ state_table (with_dfa st dfa) = state_table st
  /\ state_queue (with_dfa st dfa) = state_queue st /\ forall keys, side keys st -> side keys (with_dfa st dfa).
(** Nodes are only added, and new ones have no transitions. *)
Definition nodes_kept (st st' : St) : Prop := forall i n,
  vec_at (dfa_nodes (state_dfa st')) i = Some n -> vec_at (dfa_nodes (state_dfa st)) i = Some n \/ m_transitionsLength n = 0.

Hypothesis Hget : forall extra p keys st Y, state_inv extra p keys st -> key_ok Y ->
  exists i st' more, getOrCreate Y st = Some (i, st') /\ state_inv extra p (keys ++ more) st'
    /\ vec_at (keys ++ more) i = Some Y
    /\ transitionRanges (state_dfa st') = transitionRanges (state_dfa st)
    /\ transitionDestinations (state_dfa st') = transitionDestinations (state_dfa st) /\ nodes_kept st st'.

Definition append_ranges (st : St) (ranges : list (MutableRange K)) : option St :=
  foldl (λ st range, st ← st;
           '(target, st) ← getOrCreate (mr_data range) st;
           Some (with_dfa st (appendTransition (state_dfa st) (mkCharRange (mr_first range) (mr_last range)) target)))
    (Some st) ranges.

Definition finish_node (st : St) (id transitionsStart : Z) : option St :=
  let transitionsLength := vec_size (transitionRanges (state_dfa st)) - transitionsStart in
  node ← vec_at (dfa_nodes (state_dfa st)) id;
  nodes ← vec_set (dfa_nodes (state_dfa st)) id (setTransitions node transitionsStart (u8 transitionsLength));
  Some (with_dfa st (mkDFA nodes (dfa_actions (state_dfa st)) (transitionRanges (state_dfa st))
                       (transitionDestinations (state_dfa st)) (dfa_root (state_dfa st)))).

Lemma state_inv_with extra p keys st dfa :
  work_inv key_ok key_action step extra p keys dfa (state_table st) (state_queue st) -> side keys st ->
  state_inv extra p keys (with_dfa st dfa).
Proof. intros HI Hside. unfold state_inv. destruct (Hwith st dfa) as (-> & -> & -> & Hs). auto. Qed.

Lemma append_ranges_spec extra p ranges keys st :
  state_inv extra p keys st -> Forall (λ r, key_ok (mr_data r)) ranges ->
  exists st' more new, append_ranges st ranges = Some st' /\ state_inv extra p (keys ++ more) st'
    /\ transitionRanges (state_dfa st') = transitionRanges (state_dfa st) ++ new.*1
    /\ transitionDestinations (state_dfa st') = transitionDestinations (state_dfa st) ++ new.*2
    /\ Forall2 (transition_of (keys ++ more)) ranges new /\ nodes_kept st st'.
Proof.
  intros HI Hok. unfold append_ranges. revert keys st HI.
  induction Hok as [|r ranges Hr _ IH]; intros keys st HI; cbn [foldl].
  { exists st, [], []. rewrite !app_nil_r. split_and!; try done; try (by rewrite app_nil_r). intros i n Hn. by left. }
  cbn [mbind option_bind].
  destruct (Hget extra p keys st (mr_data r) HI Hr) as (i & st1 & more1 & -> & HI1 & Hi & HR1 & HD1 & Hk1).
  cbn [mbind option_bind]. set (dfa2 := appendTransition _ _ _). destruct (Hwith st1 dfa2) as (Hdfa & _).
  assert (state_inv extra p (keys ++ more1) (with_dfa st1 dfa2)) as HI2.
  { destruct HI1 as [HI1 Hside]. apply state_inv_with; [by apply work_append|done]. }
  destruct (IH _ _ HI2) as (st' & more2 & new & Hst' & HI' & HR' & HD' & Hf & Hk).
  exists st', (more1 ++ more2), ((mkCharRange (mr_first r) (mr_last r), i) :: new).
  rewrite app_assoc. split_and!; [exact Hst'|exact HI'| | | |].
  - rewrite HR', Hdfa. cbn [dfa2 appendTransition transitionRanges]. rewrite HR1, <- app_assoc. done.
  - rewrite HD', Hdfa. cbn [dfa2 appendTransition transitionDestinations]. rewrite HD1, <- app_assoc. done.
  - constructor; [|exact Hf]. split; [done|]. cbn [snd]. rewrite vec_at_app_l; [done|]. apply vec_at_bound in Hi. lia.
  - intros j n Hn. apply Hk in Hn as [Hn|]; [|by right]. rewrite Hdfa in Hn. by apply Hk1 in Hn.
Qed.

(** The transitions made of sorted ranges whose keys are those a character leads to. *)
Lemma new_transitions_ok keys X rs new :
  Forall2 (transition_of keys) rs new -> sorted_from 0 (entries rs) ->
  (forall c, 0 <= c <= 127 -> step X c (range_lookup (entries rs) c)) -> key_transitions step keys X new.
Proof.
  intros Hnew Hs Hl. split_and!.
  - by eapply new_ranges_ok.
  - apply Forall_forall. intros t Ht. apply list_elem_of_lookup in Ht as [k Hk].
    destruct (Forall2_lookup_r _ _ _ _ _ Hnew Hk) as (r & _ & _ & Hr). by eapply vec_at_bound.
  - intros c Hc. specialize (Hl c Hc). pose proof (new_find keys rs new c Hnew) as Hfind.
    destruct (range_lookup (entries rs) c) as [Y|]; [|by rewrite Hfind].
    destruct Hfind as (j & -> & Hj). by exists Y.
Qed.

Lemma process_ranges_spec p keys st id X rs :
  state_inv [id] p keys st -> vec_at keys id = Some X -> sorted_from 0 (entries rs) ->
  Forall (λ r, key_ok (mr_data r)) rs ->
  (forall c, 0 <= c <= 127 -> step X c (range_lookup (entries rs) c)) ->
  exists st1 st' more, append_ranges st rs = Some st1 /\ state_inv [id] p (keys ++ more) st1
    /\ finish_node st1 id (vec_size (transitionRanges (state_dfa st))) = Some st'
    /\ state_inv [] (S p) (keys ++ more) st'.
Proof.
  intros HI HX Hs Hok Hstep. destruct (append_ranges_spec [id] p rs keys st HI Hok) as (st1 & more & new & Hst1 & [HI1 Hside] & HR & HD & Hnew & Hk).
  assert (vec_at (keys ++ more) id = Some X) as HX'.
  { rewrite vec_at_app_l; [done|]. apply vec_at_bound in HX. lia. }
  assert (vec_size new <= 128) as Hlen.
  { apply sorted_length in Hs. rewrite length_fmap in Hs. apply Forall2_length in Hnew. unfold vec_size. lia. }
  destruct (wi_node _ _ _ _ _ _ _ _ _ HI1 id X HX') as (node & acts & Hnode & _).
  set (start := vec_size (transitionRanges (state_dfa st))).
  destruct (vec_set_is_Some (dfa_nodes (state_dfa st1)) id (setTransitions node start (u8 (vec_size new)))) as [nodes' Hset];
    [by eapply vec_at_bound|].
  exists st1. eexists. exists more. split; [done|]. split; [done|]. unfold finish_node. rewrite Hnode. cbn [mbind option_bind].
  replace (vec_size (transitionRanges (state_dfa st1)) - start) with (vec_size new)
    by (rewrite HR, vec_size_app; fold start; unfold vec_size; rewrite length_fmap; lia).
  rewrite Hset. cbn [mbind option_bind]. split; [done|]. apply state_inv_with; [|done].
  eapply (work_finish _ _ _ p _ _ _ _ id X (transitionRanges (state_dfa st)) (transitionDestinations (state_dfa st)) new); try done.
  - destruct HI as [HI _]. apply HI.
  - intros i n Hi. destruct HI as [HI _]. apply Hk in Hi as [Hi|Hi]; [|lia].
    pose proof (work_transitions_bound _ _ _ _ _ _ _ _ _ _ _ HI Hi). lia.
  - by eapply new_transitions_ok.
Qed.
End Loop.
