(* ===== verification/ConvertProof.v ===== *)
(** * The subset construction is correct

    [NFAToDFA::convert] on a well-formed NFA terminates, and the DFA reaches on
    every string a node with exactly the actions of the NFA nodes that the
    string can reach. *)

From stdpp Require Import base numbers option list list_numbers gmap sets relations.
From Stdlib Require Import ZArith Lia.
From S2P Require Import Prelude.
From S2P Require Import DFA.
From S2P Require Import MutableRangeList.
From S2P Require Import NFA.
From S2P Require Import NFAToDFA.
From S2P Require Import Worklist.

(** ** Closures *)

Section Closure.
Context (nfa : NFA).
Abbreviation N := (vec_size (nfa_nodes nfa)).
Hypothesis Heps : forall n, 0 <= n < N ->
  exists ts, epsilonTargets nfa n = Some ts /\ Forall (λ t, 0 <= t < N) ts.

Definition node_set : gset Z := list_to_set (seqZ 0 N).

Lemma elem_of_node_set n : n ∈ node_set <-> 0 <= n < N.
Proof. unfold node_set. rewrite elem_of_list_to_set, elem_of_seqZ. lia. Qed.

Lemma size_node_set : size node_set = length (nfa_nodes nfa).
Proof.
  unfold node_set. rewrite size_list_to_set by apply NoDup_seqZ. rewrite length_seqZ. unfold vec_size. lia.
Qed.

Lemma closureStep_fold ts C U O :
  exists new, foldl closureStep (C, U, O) ts = (list_to_set new ∪ C, reverse new ++ U, O ++ new)
    /\ NoDup new /\ (forall x, x ∈ new -> x ∈ ts /\ x ∉ C) /\ (forall x, x ∈ ts -> x ∈ new \/ x ∈ C).
Proof.
  revert C U O. induction ts as [|t ts IH]; intros C U O; cbn [foldl].
  { exists []. rewrite app_nil_r, list_to_set_nil, union_empty_l_L. split_and!; [done|constructor|..]; intros x ?%elem_of_nil; done. }
  unfold closureStep at 2. destruct (decide (t ∈ C)) as [Ht|Ht].
  - destruct (IH C U O) as (new & -> & Hnd & H1 & H2). exists new. split_and!; [done|done|..].
    + intros x Hx. destruct (H1 x Hx). split; [by right|done].
    + intros x [->|Hx]%elem_of_cons; [by right|auto].
  - destruct (IH ({[t]} ∪ C) (t :: U) (O ++ [t])) as (new & -> & Hnd & H1 & H2). exists (t :: new). split_and!.
    + rewrite list_to_set_cons, reverse_cons, <- !app_assoc.
      by rewrite (union_comm_L {[t]} (list_to_set new)), <- union_assoc_L.
    + constructor; [|done]. intros Hx. apply H1 in Hx. set_solver.
    + intros x [->|Hx]%elem_of_cons; [split; [left|done]|]. apply H1 in Hx as [? ?]. split; [by right|set_solver].
    + intros x [->|Hx]%elem_of_cons; [left; left|]. destruct (H2 x Hx) as [?|Hx']; [left; by right|].
      apply elem_of_union in Hx' as [->%elem_of_singleton|?]; [left; left|by right].
Qed.

Lemma closureLoop_spec n fuel C U O :
  (forall x, x ∈ C -> rtc (eps_edge nfa) n x) -> n ∈ C -> (forall x, x ∈ U -> x ∈ C) ->
  (forall x y, x ∈ C -> x ∉ U -> eps_edge nfa x y -> y ∈ C) ->
  (forall x, x ∈ O <-> x ∈ C /\ x <> n) -> C ⊆ node_set ->
  (length (nfa_nodes nfa) + length U <= fuel + size C)%nat ->
  exists O', closureLoop fuel nfa C U O = Some O'
    /\ forall x, x ∈ O' <-> rtc (eps_edge nfa) n x /\ x <> n.
Proof.
  revert C U O. induction fuel as [|fuel IH]; intros C U O Hr Hn HU Hcl HO Hsub Hf.
  - destruct U as [|u U].
    + exists O. split; [done|]. intros x. rewrite HO. split; [intros [? ?]; auto|]. intros [Hx ?]. split; [|done].
      assert (forall a b, rtc (eps_edge nfa) a b -> a ∈ C -> b ∈ C) as Hc; [|by apply (Hc n)].
      induction 1 as [|a b c Hab _ IHr]; [done|]. intros Ha. apply IHr. eapply Hcl; [exact Ha|set_solver|done].
    + exfalso. apply subseteq_size in Hsub. rewrite size_node_set in Hsub. simpl in Hf. lia.
  - destruct U as [|u U]; cbn [closureLoop].
    + exists O. split; [done|]. intros x. rewrite HO. split; [intros [? ?]; auto|]. intros [Hx ?]. split; [|done].
      assert (forall a b, rtc (eps_edge nfa) a b -> a ∈ C -> b ∈ C) as Hc; [|by apply (Hc n)].
      induction 1 as [|a b c Hab _ IHr]; [done|]. intros Ha. apply IHr. eapply Hcl; [exact Ha|set_solver|done].
    + assert (u ∈ C) as Hu by (apply HU; left).
      destruct (Heps u) as (ts & Hts & Hran); [apply elem_of_node_set, Hsub, Hu|]. rewrite Hts. cbn [mbind option_bind].
      destruct (closureStep_fold ts C U O) as (new & -> & Hnd & H1 & H2).
      rewrite Forall_forall in Hran. apply IH.
      * intros x [Hx%elem_of_list_to_set|Hx]%elem_of_union; [|auto]. eapply rtc_r; [by apply Hr|].
        exists ts. split; [done|]. by apply H1.
      * set_solver.
      * intros x Hx. rewrite elem_of_app, elem_of_reverse in Hx. rewrite elem_of_union, elem_of_list_to_set.
        destruct Hx as [Hx|Hx]; [by left|right; apply HU; by right].
      * intros x y Hx Hnot Hxy. rewrite elem_of_app, elem_of_reverse in Hnot. apply elem_of_union.
        apply elem_of_union in Hx as [Hx%elem_of_list_to_set|Hx]; [tauto|].
        destruct (decide (x = u)) as [->|Hne].
        -- destruct Hxy as (ts' & Hts' & Hy). simplify_eq. rewrite elem_of_list_to_set. by apply H2.
        -- right. apply (Hcl x); [done| |done]. rewrite not_elem_of_cons. tauto.
      * intros x. rewrite elem_of_app, HO, elem_of_union, elem_of_list_to_set. split.
        -- intros [[? ?]|Hx]; [tauto|]. split; [by left|]. intros ->. by apply H1 in Hx as [_ ?].
        -- tauto.
      * intros x [Hx%elem_of_list_to_set|Hx]%elem_of_union; [|auto]. apply elem_of_node_set, Hran. by apply H1.
      * rewrite length_app, length_reverse, size_union.
        2:{ intros x Hx%elem_of_list_to_set Hx'. by apply H1 in Hx as [_ ?]. }
        rewrite size_list_to_set by done. simpl in Hf. lia.
Qed.

Lemma epsilonClosure_spec n : 0 <= n < N ->
  exists O, epsilonClosureExcludingSelf nfa n = Some O
    /\ forall x, x ∈ O <-> rtc (eps_edge nfa) n x /\ x <> n.
Proof.
  intros Hn. unfold epsilonClosureExcludingSelf. apply closureLoop_spec.
  - intros x ->%elem_of_singleton. done.
  - set_solver.
  - set_solver.
  - intros x y Hx Hnot. set_solver.
  - intros x. rewrite elem_of_nil, elem_of_singleton. tauto.
  - intros x ->%elem_of_singleton. by apply elem_of_node_set.
  - rewrite size_singleton. simpl. lia.
Qed.

Lemma resolveEpsilonClosures_spec :
  exists closures, resolveEpsilonClosures nfa =
      Some (closures, mkNFA (nfa_nodes nfa) (nfa_transitions nfa) (nfa_targets nfa) [] (nfa_actions nfa))
    /\ forall n x, 0 <= n < N -> x ∈ ({[ n ]} ∪ closureOf closures n : gset Z) <-> rtc (eps_edge nfa) n x.
Proof.
  unfold resolveEpsilonClosures.
  assert (exists closures, mapM (epsilonClosureExcludingSelf nfa) (seqZ 0 N) = Some closures) as [closures Hc].
  { apply mapM_is_Some_2. apply Forall_forall. intros n Hn%elem_of_seqZ.
    destruct (epsilonClosure_spec n) as (O & HO & _); [lia|]. by exists O. }
  rewrite Hc. exists closures. split; [done|]. intros n x Hn.
  apply mapM_Some in Hc. rewrite Forall2_lookup in Hc. specialize (Hc (Z.to_nat n)).
  assert (seqZ 0 N !! Z.to_nat n = Some n) as Hseq by (apply lookup_seqZ; lia). rewrite Hseq in Hc.
  inversion Hc as [? O HO Ho1 Ho2|]; subst.
  destruct (epsilonClosure_spec n Hn) as (O' & HO' & Hin). rewrite HO' in HO. simplify_eq.
  unfold closureOf. assert (vec_at closures n = Some O) as -> by (apply vec_at_Some; split; [lia|done]). simpl.
  rewrite elem_of_union, elem_of_singleton, elem_of_list_to_set, Hin.
  destruct (decide (x = n)) as [->|]; [|tauto]. split; [done|]. tauto.
Qed.
End Closure.

(** ** The transitions of a set of nodes *)

Section Subset.
Context (nfa : NFA) (closures : list (list Z)).
Abbreviation N := (vec_size (nfa_nodes nfa)).
Hypothesis Hwf : wf_nfa nfa.
Hypothesis Hclosures : forall n x, 0 <= n < N ->
  x ∈ ({[ n ]} ∪ closureOf closures n : gset Z) <-> rtc (eps_edge nfa) n x.

Lemma wf_node n : 0 <= n < N ->
  exists ts eps acts, transitionsForNode nfa n = Some ts /\ epsilonTargets nfa n = Some eps
    /\ actionsOfNode nfa n = Some acts /\ sorted_from 0 ts
    /\ Forall (λ r, Forall (λ t, 0 <= t < N) (o_data r) /\ o_data r <> []) ts
    /\ Forall (λ t, 0 <= t < N) eps /\ Forall (λ a, 0 <= a < 2 ^ 49) acts.
Proof.
  intros Hn. destruct (proj2 Hwf n Hn) as ([[ts eps] acts] & Hv & Hw). exists ts, eps, acts.
  unfold node_view in Hv. destruct (transitionsForNode nfa n) as [ts'|]; [|done].
  destruct (epsilonTargets nfa n) as [eps'|]; [|done]. destruct (actionsOfNode nfa n) as [acts'|]; [|done].
  simpl in Hv. simplify_eq. destruct Hw as (? & ? & ? & ?). done.
Qed.

Lemma eps_edge_range n m : 0 <= n < N -> eps_edge nfa n m -> 0 <= m < N.
Proof.
  intros Hn (ts & Hts & Hm). destruct (wf_node n Hn) as (? & eps & ? & _ & He & _ & _ & _ & Hr & _).
  rewrite He in Hts. simplify_eq. rewrite Forall_forall in Hr. auto.
Qed.

Lemma rtc_range n m : rtc (eps_edge nfa) n m -> 0 <= n < N -> 0 <= m < N.
Proof. induction 1 as [|a b c Hab _ IH]; [done|]. intros Ha. apply IH. by eapply eps_edge_range. Qed.

Lemma char_edge_range n c m : 0 <= n < N -> char_edge nfa n c m -> 0 <= m < N.
Proof.
  intros Hn (ts & tg & Hts & Hl & Hm). destruct (wf_node n Hn) as (ts' & ? & ? & Ht & _ & _ & _ & Hr & _).
  rewrite Ht in Hts. simplify_eq. apply range_lookup_elem in Hl as (r & Hin & _ & <-).
  rewrite Forall_forall in Hr. destruct (Hr r Hin) as [Hf _]. rewrite Forall_forall in Hf. auto.
Qed.

(** [Y] is what the nodes [ns] can reach with one character. *)
Definition is_step (ns : list Z) (c : Z) (Y : gset Z) : Prop :=
  forall m, m ∈ Y <-> exists n k, n ∈ ns /\ char_edge nfa n c k /\ rtc (eps_edge nfa) k m.

Definition closed (X : gset Z) : Prop := forall k m, k ∈ X -> rtc (eps_edge nfa) k m -> m ∈ X.

Lemma is_step_closed ns c Y : is_step ns c Y -> closed Y.
Proof.
  intros HY k m Hk Hm. apply HY in Hk as (n & j & Hn & Hj & Hjk). apply HY. exists n, j. split_and!; [done|done|].
  by etrans.
Qed.

Lemma closure_convert_spec ts m : Forall (λ t, 0 <= t < N) ts ->
  m ∈ closure_convert closures ts <-> exists k, k ∈ ts /\ rtc (eps_edge nfa) k m.
Proof.
  intros Hr. unfold closure_convert.
  enough (forall acc, m ∈ foldl (λ result nodeId, closureOf closures nodeId ∪ ({[ nodeId ]} ∪ result)) acc ts
    <-> m ∈ acc \/ exists k, k ∈ ts /\ rtc (eps_edge nfa) k m) as Hgen by (rewrite Hgen; set_solver).
  induction Hr as [|t ts Ht _ IH]; intros acc; cbn [foldl].
  { split; [by left|]. intros [?|(k & ?%elem_of_nil & _)]; done. }
  rewrite IH. setoid_rewrite elem_of_cons.
  assert (m ∈ closureOf closures t ∪ ({[t]} ∪ acc) <-> m ∈ acc \/ rtc (eps_edge nfa) t m) as ->.
  { rewrite <- (Hclosures t m Ht). set_solver. }
  split; [intros [[?|?]|(k & ? & ?)]; eauto 6|]. intros [?|(k & [->|?] & ?)]; eauto 6.
Qed.

Lemma closure_extend_spec d ts m : Forall (λ t, 0 <= t < N) ts -> closed d ->
  m ∈ closure_extend closures d ts <-> m ∈ d \/ exists k, k ∈ ts /\ rtc (eps_edge nfa) k m.
Proof.
  intros Hr. unfold closure_extend. revert d. induction Hr as [|t ts Ht _ IH]; intros d Hd; cbn [foldl].
  { split; [by left|]. intros [?|(k & ?%elem_of_nil & _)]; done. }
  setoid_rewrite elem_of_cons. destruct (decide (t ∈ d)) as [Hin|Hin].
  - rewrite IH by done. split; [intros [?|(k & ? & ?)]; eauto 6|]. intros [?|(k & [->|?] & ?)]; eauto 6.
  - assert (forall x, x ∈ closureOf closures t ∪ ({[t]} ∪ d) <-> x ∈ d \/ rtc (eps_edge nfa) t x) as Hx.
    { intros x. rewrite <- (Hclosures t x Ht). set_solver. }
    rewrite IH, Hx.
    + split; [intros [[?|?]|(k & ? & ?)]; eauto 6|]. intros [?|(k & [->|?] & ?)]; eauto 6.
    + intros k y Hk Hy. rewrite Hx in *. destruct Hk as [Hk|Hk]; [left; by eapply Hd|right; by etrans].
Qed.

(** The range list for the nodes [ns]. *)
Definition combined_ok (ns : list Z) (l : list (OtherRange (gset Z))) : Prop :=
  sorted_from 0 l /\ forall c, 0 <= c <= 127 ->
    match range_lookup l c with
    | Some Y => is_step ns c Y /\ Y <> ∅
    | None => forall n k, n ∈ ns -> ~ char_edge nfa n c k
    end.

Lemma char_edge_lookup n c k ts : transitionsForNode nfa n = Some ts ->
  char_edge nfa n c k <-> exists tg, range_lookup ts c = Some tg /\ k ∈ tg.
Proof.
  intros Hts. split.
  - intros (ts' & tg & Hts' & Hl & Hk). rewrite Hts in Hts'. simplify_eq. eauto.
  - intros (tg & Hl & Hk). exists ts, tg. done.
Qed.

Lemma combined_step ns n v idx l ts :
  represents v idx l -> combined_ok ns l -> 0 <= n < N -> transitionsForNode nfa n = Some ts ->
  exists v' idx' l', extend (closure_convert closures) (closure_extend closures) v ts = Some v'
    /\ represents v' idx' l' /\ combined_ok (ns ++ [n]) l'.
Proof.
  intros HR [Hs Hl] Hn Hts. destruct (wf_node n Hn) as (ts' & ? & ? & Ht & _ & _ & Hsort & Hran & _).
  rewrite Hts in Ht. injection Ht as <-.
  destruct (extend_sound (closure_convert closures) (closure_extend closures) v idx l ts HR Hs Hsort)
    as (v' & idx' & l' & Hv' & HR' & Hs' & Hl').
  exists v', idx', l'. split_and!; [done|done|]. split; [done|]. intros c Hc. rewrite (Hl' c Hc).
  specialize (Hl c Hc). pose proof (λ k, char_edge_lookup n c k ts Hts) as Hce.
  destruct (range_lookup ts c) as [tg|] eqn:Etg.
  - assert (Forall (λ t, 0 <= t < N) tg /\ tg <> []) as [Htr Hne].
    { apply range_lookup_elem in Etg as (r & Hin & _ & <-). rewrite Forall_forall in Hran. by apply Hran. }
    destruct (range_lookup l c) as [Y|]; cbn [merged].
    + destruct Hl as [HY HYne]; pose proof (is_step_closed _ _ _ HY) as HYcl; red in HY. assert (forall m, m ∈ closure_extend closures Y tg <->
        m ∈ Y \/ exists k, k ∈ tg /\ rtc (eps_edge nfa) k m) as Hex.
      { intros m. by apply closure_extend_spec. }
      split.
      * intros m. rewrite Hex, HY. setoid_rewrite elem_of_app. setoid_rewrite list_elem_of_singleton. split.
        -- intros [(n' & k & ? & ? & ?)|(k & Hk & ?)]; [exists n', k; tauto|]. exists n, k. split_and!; [by right| |done].
           apply Hce. eauto.
        -- intros (n' & k & [?| ->] & He & ?); [left; eauto|]. right. exists k. apply Hce in He as (? & [= <-] & ?). done.
      * intros Heq. apply HYne. apply set_eq. intros m. split; [|set_solver]. intros Hm. rewrite <- Heq. apply Hex. by left.
    + split.
      * intros m. rewrite closure_convert_spec by done. setoid_rewrite elem_of_app.
        setoid_rewrite list_elem_of_singleton. split.
        -- intros (k & Hk & ?). exists n, k. split_and!; [by right| |done]. apply Hce. eauto.
        -- intros (n' & k & [Hn'| ->] & He & ?); [by apply Hl in He|]. exists k. apply Hce in He as (? & [= <-] & ?). done.
      * destruct tg as [|k tg]; [done|]. intros Heq. assert (k ∈ (∅ : gset Z)); [|set_solver]. rewrite <- Heq.
        apply closure_convert_spec; [done|]. exists k. split; [left|done].
  - destruct (range_lookup l c) as [Y|]; cbn [merged].
    + destruct Hl as [HY HYne]; pose proof (is_step_closed _ _ _ HY) as HYcl; red in HY. split; [|done]. intros m. rewrite HY. setoid_rewrite elem_of_app.
      setoid_rewrite list_elem_of_singleton. split; [intros (n' & k & ? & ?); exists n', k; tauto|].
      intros (n' & k & [?| ->] & He & ?); [eauto|]. apply Hce in He as (? & ? & _). done.
    + intros n' k [?| ->%list_elem_of_singleton]%elem_of_app; [by apply Hl|]. rewrite Hce. intros (? & ? & _). done.
Qed.

Context `{HashOrder}.

(** The NFA after [resolveEpsilonClosures]; only its epsilon transitions are gone. *)
Definition stripped : NFA := mkNFA (nfa_nodes nfa) (nfa_transitions nfa) (nfa_targets nfa) [] (nfa_actions nfa).

Lemma createCombined_spec u : Forall (λ n, 0 <= n < N) (us_buffer u) ->
  exists v idx l, createCombinedTransition u stripped closures = Some v /\ represents v idx l
    /\ combined_ok (us_buffer u) l.
Proof.
  intros Hr. unfold createCombinedTransition.
  destruct (foldl_option_inv (λ acc nodeId, transitions ← transitionsForNode stripped nodeId;
      extend (closure_convert closures) (closure_extend closures) acc transitions)
    (λ pre v, exists idx l, represents v idx l /\ combined_ok pre l) (us_buffer u) []) as (v & Hv & idx & l & HR & Hl).
  - exists [], []. split; [apply represents_nil|]. split; [done|]. intros c _ n k Hn. by apply elem_of_nil in Hn.
  - intros pre n todo v Heq (idx & l & HR & Hl). rewrite Heq in Hr. apply Forall_app in Hr as [_ Hr].
    apply Forall_cons in Hr as [Hn _]. destruct (wf_node n Hn) as (ts & _ & _ & Hts & _).
    change (transitionsForNode stripped n) with (transitionsForNode nfa n). rewrite Hts. cbn [mbind option_bind].
    destruct (combined_step pre n v idx l ts HR Hl Hn Hts) as (v' & idx' & l' & ? & ? & ?). eauto 8.
  - exists v, idx, l. done.
Qed.

(** ** The state of the conversion *)

Definition nfa_action (X : gset Z) (a : Z) : Prop :=
  exists n acts, n ∈ X /\ actionsOfNode nfa n = Some acts /\ a ∈ acts.

(** What reading [c] from the nodes of [X] gives. *)
Definition set_step (X : gset Z) (c : Z) (r : option (gset Z)) : Prop :=
  match r with
  | Some Y => forall m, m ∈ Y <-> exists n k, n ∈ X /\ char_edge nfa n c k /\ rtc (eps_edge nfa) k m
  | None => forall n k, n ∈ X -> ~ char_edge nfa n c k
  end.

Definition set_ok (X : gset Z) : Prop := X <> ∅ /\ (forall n, n ∈ X -> 0 <= n < N) /\ closed X.

(** The buffers of the queue list the sets of their nodes. *)
Definition buffers_ok (sets : list (gset Z)) (st : ConvertState) : Prop :=
  forall u, u ∈ unprocessedNodes st -> exists X, vec_at sets (us_dfaNodeId u) = Some X /\ forall n, n ∈ us_buffer u <-> n ∈ X.

Definition with_cs_dfa (st : ConvertState) (dfa : DFA) : ConvertState :=
  mkConvertState dfa (uniqueNodeIdSetTable st) (unprocessedNodes st).

Definition queue_ids (st : ConvertState) : list Z := us_dfaNodeId <$> unprocessedNodes st.

Abbreviation conv_inv := (state_inv set_ok nfa_action set_step cs_dfa uniqueNodeIdSetTable queue_ids buffers_ok).

Lemma unionActions_spec X : (forall n, n ∈ X -> 0 <= n < N) ->
  exists acts, unionActions stripped X = Some acts /\ forall a, a ∈ acts <-> nfa_action X a.
Proof.
  intros HX. unfold unionActions.
  destruct (foldl_option_inv (λ acc nodeId, actions ← actionsOfNode stripped nodeId; Some (list_to_set actions ∪ acc))
    (λ pre acc, forall a, a ∈ acc <-> exists n acts, n ∈ pre /\ actionsOfNode nfa n = Some acts /\ a ∈ acts)
    (iteration X) (∅ : gset Z)) as (acts & Hacts & Hin).
  - intros a. split; [set_solver|]. intros (n & ? & ?%elem_of_nil & _). done.
  - intros pre n todo acc Heq Hacc.
    assert (n ∈ iteration X) as Hn by (rewrite Heq; set_solver). rewrite elem_of_iteration in Hn.
    destruct (wf_node n (HX n Hn)) as (_ & _ & acts & _ & _ & Ha & _).
    change (actionsOfNode stripped n) with (actionsOfNode nfa n). rewrite Ha. cbn [mbind option_bind].
    eexists. split; [done|]. intros a. rewrite elem_of_union, elem_of_list_to_set, Hacc.
    setoid_rewrite elem_of_app. setoid_rewrite list_elem_of_singleton. split.
    + intros [?|(m & acts' & ? & ? & ?)]; [exists n, acts; tauto|exists m, acts'; tauto].
    + intros (m & acts' & [?| ->] & Hm & ?); [right; eauto|]. rewrite Ha in Hm. simplify_eq. by left.
  - exists acts. split; [done|]. intros a. rewrite Hin. unfold nfa_action. by setoid_rewrite elem_of_iteration.
Qed.

Hypothesis Hactions : vec_size (nfa_actions nfa) <= 65535.

Lemma actionsOfNode_elem n acts a : actionsOfNode nfa n = Some acts -> a ∈ acts -> a ∈ nfa_actions nfa.
Proof.
  unfold actionsOfNode, slice. destruct (vec_at (nfa_nodes nfa) n) as [node|]; [|done]. cbn [mbind option_bind].
  rewrite mapM_Some. intros Hf Ha. apply list_elem_of_lookup in Ha as [i Hi].
  destruct (Forall2_lookup_r _ _ _ _ _ Hf Hi) as (j & _ & Hj). apply vec_at_Some in Hj as [_ Hj].
  by eapply list_elem_of_lookup_2.
Qed.

(** There are at most as many actions in a set as in the NFA. *)
Lemma union_size acts X : (forall a, a ∈ acts <-> nfa_action X a) ->
  Z.of_nat (length (iteration acts)) <= 65535.
Proof.
  intros Hin. assert (length (iteration acts) <= length (nfa_actions nfa))%nat; [|unfold vec_size in Hactions; lia].
  apply submseteq_length, NoDup_submseteq.
  - rewrite iteration_perm. apply NoDup_elements.
  - intros a Ha. rewrite elem_of_iteration in Ha. apply Hin in Ha as (n & as' & _ & ? & ?). by eapply actionsOfNode_elem.
Qed.

Lemma translate_spec dfa X : set_ok X ->
  exists acts, translate stripped dfa X = Some (with_node dfa acts, mkUniqueNodeIdSet (iteration X) (vec_size (dfa_nodes dfa)))
    /\ vec_size acts <= 65535 /\ forall a, a ∈ acts <-> nfa_action X a.
Proof.
  intros (_ & HX & _). unfold translate. destruct (unionActions_spec X HX) as (acts & -> & Hin).
  cbn [mbind option_bind]. exists (iteration acts). pose proof (union_size _ _ Hin) as Hsz.
  rewrite vec_size_app. replace (vec_size (dfa_actions dfa) + vec_size (iteration acts) - vec_size (dfa_actions dfa))
    with (vec_size (iteration acts)) by lia.
  unfold vec_size at 1. rewrite (proj2 (Z.ltb_ge _ _)) by lia.
  split_and!; [done|exact Hsz|]. intros a. by rewrite elem_of_iteration.
Qed.

Lemma with_cs_dfa_spec st dfa : cs_dfa (with_cs_dfa st dfa) = dfa /\ uniqueNodeIdSetTable (with_cs_dfa st dfa) = uniqueNodeIdSetTable st
  /\ queue_ids (with_cs_dfa st dfa) = queue_ids st /\ forall sets, buffers_ok sets st -> buffers_ok sets (with_cs_dfa st dfa).
Proof. by split_and!. Qed.

Lemma getOrCreate_spec extra p sets st Y : conv_inv extra p sets st -> set_ok Y ->
  exists i st' more, getOrCreateDFANode Y stripped st = Some (i, st') /\ conv_inv extra p (sets ++ more) st'
    /\ vec_at (sets ++ more) i = Some Y
    /\ transitionRanges (cs_dfa st') = transitionRanges (cs_dfa st)
    /\ transitionDestinations (cs_dfa st') = transitionDestinations (cs_dfa st) /\ nodes_kept cs_dfa st st'.
Proof.
  intros [HI Hbuf] HY. unfold getOrCreateDFANode. destruct (uniqueNodeIdSetTable st !! Y) as [i|] eqn:Et.
  { exists i, st, []. rewrite app_nil_r. split_and!; try done; [by apply (wi_table _ _ _ _ _ _ _ _ _ HI)|]. intros j n Hn. by left. }
  destruct (translate_spec (cs_dfa st) Y HY) as (acts & -> & Hsz & Hin). cbn [mbind option_bind us_dfaNodeId].
  pose proof (wi_size _ _ _ _ _ _ _ _ _ HI) as Hsize. eexists _, _, [Y]. split; [done|].
  cbn [cs_dfa with_node transitionRanges transitionDestinations]. split_and!; try done.
  - split; [by apply work_new|]. intros u [->|Hu]%elem_of_cons; cbn [us_dfaNodeId us_buffer].
    + exists Y. rewrite Hsize, vec_at_snoc. split; [done|]. intros n. apply elem_of_iteration.
    + destruct (Hbuf u Hu) as (X & HX & ?). exists X. rewrite vec_at_app_l; [done|]. apply vec_at_bound in HX. lia.
  - rewrite Hsize. apply vec_at_snoc.
  - intros j n. cbn [cs_dfa with_node dfa_nodes]. rewrite vec_at_snoc_case. case_match; [|by left]. intros. simplify_eq. by right.
Qed.

Lemma combined_sets_ok ns l : combined_ok ns l -> Forall (λ n, 0 <= n < N) ns -> Forall (λ r, set_ok (o_data r)) l.
Proof.
  intros [Hs Hl] Hns. apply Forall_forall. intros r Hr. pose proof (range_lookup_own _ _ _ Hs Hr) as Hown.
  pose proof (sorted_from_Forall _ _ Hs) as Hf. rewrite Forall_forall in Hf. specialize (Hf r Hr). simpl in Hf.
  specialize (Hl (o_first r) ltac:(lia)). rewrite Hown in Hl. destruct Hl as [HY Hne]. split_and!; [done| |by eapply is_step_closed].
  intros m Hm. apply HY in Hm as (n & k & Hn & Hk & Hkm). rewrite Forall_forall in Hns.
  eapply rtc_range; [exact Hkm|]. eapply char_edge_range; [|exact Hk]. auto.
Qed.

Lemma processNode_spec p sets st u q :
  conv_inv [] p sets st -> unprocessedNodes st = u :: q ->
  exists st' more,
    processNode stripped closures u (mkConvertState (cs_dfa st) (uniqueNodeIdSetTable st) q) = Some st'
    /\ conv_inv [] (S p) (sets ++ more) st'.
Proof.
  intros [HI Hbufs] Hq. destruct (Hbufs u) as (X & HX & Hbuf); [rewrite Hq; left|].
  set (st0 := mkConvertState (cs_dfa st) (uniqueNodeIdSetTable st) q).
  assert (conv_inv [us_dfaNodeId u] p sets st0) as HI0.
  { split; [apply work_take; unfold queue_ids in HI; by rewrite Hq in HI|].
    intros u' Hu'. apply Hbufs. rewrite Hq. by right. }
  pose proof (wi_keys _ _ _ _ _ _ _ _ _ HI) as Hsets. rewrite Forall_forall in Hsets.
  assert (set_ok X) as (_ & HXr & _).
  { apply Hsets. apply vec_at_Some in HX as [_ HX]. by eapply list_elem_of_lookup_2. }
  assert (Forall (λ n, 0 <= n < N) (us_buffer u)) as Hbr.
  { apply Forall_forall. intros n Hn. by apply HXr, Hbuf. }
  destruct (createCombined_spec u Hbr) as (v & idx & l & Hv & HR & Hcomb).
  destruct (ranges_in_order_spec v idx l HR) as (rs & Hrs & Hl).
  pose proof (combined_sets_ok _ _ Hcomb Hbr) as Hok. destruct Hcomb as [Hs Hcomb]. rewrite <- Hl in Hok, Hs, Hcomb. rewrite Forall_fmap in Hok.
  destruct (process_ranges_spec set_ok nfa_action set_step cs_dfa uniqueNodeIdSetTable queue_ids with_cs_dfa buffers_ok
    (λ Y st, getOrCreateDFANode Y stripped st) with_cs_dfa_spec getOrCreate_spec p sets st0 (us_dfaNodeId u) X rs HI0 HX Hs Hok)
    as (st1 & st' & more & H1 & _ & H2 & H3).
  { intros c Hc. specialize (Hcomb c Hc). destruct (range_lookup (entries rs) c) as [Y|]; cbn [set_step].
    - destruct Hcomb as [HY _]. intros m. rewrite (HY m). by setoid_rewrite Hbuf.
    - intros n k Hn. apply Hcomb. by apply Hbuf. }
  exists st', more. split; [|done]. unfold processNode. rewrite Hv. cbn [mbind option_bind]. rewrite Hrs. cbn [mbind option_bind].
  unfold append_ranges in H1. unfold addTransitions. unfold with_cs_dfa in H1. rewrite H1. exact H2.
Qed.

(** ** Termination *)

Fixpoint subsets (l : list Z) : list (gset Z) :=
  match l with [] => [∅] | x :: l => subsets l ++ (({[ x ]} ∪.) <$> subsets l) end.

Lemma length_subsets l : length (subsets l) = (2 ^ length l)%nat.
Proof. induction l as [|x l IH]; simpl; [done|]. rewrite length_app, length_fmap, IH. lia. Qed.

Lemma elem_of_subsets l X : (forall x, x ∈ X -> x ∈ l) -> X ∈ subsets l.
Proof.
  revert X. induction l as [|x l IH]; intros X HX; simpl.
  - apply list_elem_of_singleton. apply set_eq. intros y. split; [|set_solver].
    intros Hy. apply HX in Hy. by apply elem_of_nil in Hy.
  - rewrite elem_of_app, list_elem_of_fmap. destruct (decide (x ∈ X)) as [Hx|Hx].
    + right. exists (X ∖ {[x]}). split.
      * apply set_eq. intros y. destruct (decide (y = x)); set_solver.
      * apply IH. intros y Hy. assert (y ∈ x :: l) as Hyl by (apply HX; set_solver).
        apply elem_of_cons in Hyl as [->|]; [set_solver|done].
    + left. apply IH. intros y Hy. pose proof (HX y Hy) as Hyl. apply elem_of_cons in Hyl as [->|]; [done|done].
Qed.

Lemma sets_bound extra p sets st : conv_inv extra p sets st -> (length sets <= 2 ^ length (nfa_nodes nfa))%nat.
Proof.
  intros [HI _]. replace (length (nfa_nodes nfa)) with (length (seqZ 0 N)) by (rewrite length_seqZ; unfold vec_size; lia).
  rewrite <- length_subsets. apply submseteq_length, NoDup_submseteq; [by eapply work_keys_distinct|].
  intros X HX. pose proof (wi_keys _ _ _ _ _ _ _ _ _ HI) as Hs. rewrite Forall_forall in Hs. destruct (Hs X HX) as (_ & Hr & _).
  apply elem_of_subsets. intros n Hn. apply elem_of_seqZ. apply Hr in Hn. lia.
Qed.

(** The DFA is finished: every node has its actions and transitions. *)
Definition finished : list (gset Z) -> DFA -> Prop := work_finished set_ok nfa_action set_step.

Lemma convertLoop_spec fuel p sets st :
  conv_inv [] p sets st -> (2 ^ length (nfa_nodes nfa) <= fuel + p)%nat ->
  exists dfa more, convertLoop fuel stripped closures st = Some dfa /\ finished (sets ++ more) dfa.
Proof.
  revert p sets st. induction fuel as [|fuel IH]; intros p sets st HI Hf;
    pose proof (sets_bound _ _ _ _ HI) as Hb; pose proof (wi_count _ _ _ _ _ _ _ _ _ (proj1 HI)) as Hc;
    unfold queue_ids in Hc; rewrite length_fmap in Hc; simpl in Hc; cbn [convertLoop];
    destruct (unprocessedNodes st) as [|u q] eqn:Eq.
  2:{ simpl in Hc. lia. }
  3:{ destruct (processNode_spec p sets st u q HI Eq) as (st' & more & -> & HI'). cbn [mbind option_bind].
      destruct (IH (S p) _ _ HI') as (dfa & more' & Hd & Hfin); [lia|]. exists dfa, (more ++ more').
      by rewrite app_assoc. }
  all: exists (cs_dfa st), []; split; [done|]; rewrite app_nil_r; destruct HI as [HI _]; unfold queue_ids in HI; rewrite Eq in HI;
    by eapply work_inv_finished.
Qed.

Lemma initial_set_ok : set_ok (extendSetWithClosure closures 0 {[ 0 ]})
  /\ forall m, m ∈ extendSetWithClosure closures 0 {[ 0 ]} <-> rtc (eps_edge nfa) 0 m.
Proof.
  destruct Hwf as [Hpos _]. assert (forall m, m ∈ extendSetWithClosure closures 0 {[ 0 ]} <-> rtc (eps_edge nfa) 0 m) as Hin.
  { intros m. rewrite <- (Hclosures 0 m) by lia. unfold extendSetWithClosure. set_solver. }
  split; [|done]. split_and!.
  - intros Heq. assert (0 ∈ (∅ : gset Z)); [|set_solver]. rewrite <- Heq. by apply Hin.
  - intros n Hn. apply Hin in Hn. eapply rtc_range; [exact Hn|lia].
  - intros k m Hk Hm. apply Hin in Hk. apply Hin. by etrans.
Qed.

Lemma convert_finished fuel : (2 ^ length (nfa_nodes nfa) <= fuel)%nat ->
  resolveEpsilonClosures nfa = Some (closures, stripped) ->
  exists dfa sets, convert fuel nfa = Some dfa /\ finished sets dfa
    /\ vec_at sets 0 = Some (extendSetWithClosure closures 0 {[ 0 ]}).
Proof.
  intros Hf Hres. unfold convert. rewrite Hres. cbn [mbind option_bind].
  assert (nfa_root stripped = Some 0) as ->.
  { unfold nfa_root, stripped. simpl. destruct Hwf as [Hpos _]. destruct (nfa_nodes nfa); [done|done]. }
  cbn [mbind option_bind]. set (X := extendSetWithClosure closures 0 {[ 0 ]}).
  destruct initial_set_ok as [HX _]. fold X in HX.
  destruct (translate_spec (mkDFA [] [] [] [] 0) X HX) as (acts & -> & Hsz & Hin).
  cbn [mbind option_bind us_dfaNodeId]. change (vec_size (dfa_nodes (mkDFA [] [] [] [] 0))) with 0.
  match goal with |- context [convertLoop _ _ _ ?s] => assert (conv_inv [] 0 [X] s) as HI end.
  { split; [by apply work_initial|]. intros u ->%list_elem_of_singleton. exists X. split; [done|]. intros n. apply elem_of_iteration. }
  destruct (convertLoop_spec fuel 0 _ _ HI) as (dfa & more & Hd & Hfin); [lia|].
  exists dfa, ([X] ++ more). split_and!; [exact Hd|done|done].
Qed.
End Subset.

(** ** The theorem *)

(** The node a DFA is in after reading a string. *)
Fixpoint dfa_run (dfa : DFA) (n : Z) (w : list Z) : option Z :=
  match w with [] => Some n | c :: w => m ← dfa_next dfa n c; dfa_run dfa m w end.

Lemma path_nil_rtc nfa n m : path nfa n [] m <-> rtc (eps_edge nfa) n m.
Proof.
  split.
  - remember [] as w eqn:Ew. induction 1 as [|? ? ? ? ? ? IH|]; [done| |done]. subst. eapply rtc_l; eauto.
  - induction 1 as [|a b c Hab _ IH]; [constructor|by eapply path_eps].
Qed.

Lemma path_cons nfa n c w m : path nfa n (c :: w) m <->
  exists x k, rtc (eps_edge nfa) n x /\ char_edge nfa x c k /\ path nfa k w m.
Proof.
  split.
  - remember (c :: w) as cw eqn:Ew. induction 1 as [|n n' w' m He _ IH|n c' n' w' m Hc Hp _]; [done| |].
    + destruct (IH Ew) as (x & k & ? & ? & ?). exists x, k. split_and!; try done. by eapply rtc_l.
    + simplify_eq. exists n, n'. done.
  - intros (x & k & Hx & Hk & Hp). induction Hx as [|a b c' Hab _ IH]; [by eapply path_char|].
    eapply path_eps; [exact Hab|]. auto.
Qed.

Lemma run_sets nfa sets dfa w i X :
  finished nfa sets dfa -> Forall (λ c, 0 <= c <= 127) w -> vec_at sets i = Some X ->
  match dfa_run dfa i w with
  | Some j => exists Y, vec_at sets j = Some Y /\ forall m, m ∈ Y <-> exists x, x ∈ X /\ path nfa x w m
  | None => forall x m, x ∈ X -> ~ path nfa x w m
  end.
Proof.
  intros (Hsets & _ & _ & _ & Hnodes) Hw. rewrite Forall_forall in Hsets. revert i X.
  induction Hw as [|c w Hc _ IH]; intros i X Hi; cbn [dfa_run].
  { exists X. split; [done|]. intros m. assert (closed nfa X) as HXc.
    { apply vec_at_Some in Hi as [_ Hi]. by apply Hsets, (list_elem_of_lookup_2 _ _ _ Hi). }
    split; [intros; exists m; split; [done|constructor]|]. intros (x & Hx & Hp%path_nil_rtc). by eapply HXc. }
  destruct (Hnodes i X Hi) as (node & acts & ts & Hn & _ & _ & Hts & _ & _ & _ & Htr).
  assert (closed nfa X) as HXc.
  { apply vec_at_Some in Hi as [_ Hi]. by apply Hsets, (list_elem_of_lookup_2 _ _ _ Hi). }
  unfold dfa_next. rewrite Hn. cbn [mbind option_bind]. rewrite Hts. cbn [mbind option_bind].
  specialize (Htr c Hc). destruct (find_transition ts c) as [j|].
  - destruct Htr as (Y & Hj & HY). cbn [mbind option_bind]. specialize (IH j Y Hj).
    assert (forall m, (exists y, y ∈ Y /\ path nfa y w m) <-> (exists x, x ∈ X /\ path nfa x (c :: w) m)) as Heq.
    { intros m. split.
      - intros (y & Hy & Hp). apply HY in Hy as (x & k & Hx & Hk & Hky). exists x. split; [done|].
        apply path_cons. exists x, k. split_and!; [done|done|]. change w with ([] ++ w).
        eapply path_trans; [by apply path_nil_rtc|exact Hp].
      - intros (x & Hx & (x' & k & Hx' & Hk & Hp)%path_cons). exists k. split; [|done]. apply HY. exists x', k.
        split_and!; [by eapply HXc|done|done]. }
    destruct (dfa_run dfa j w) as [j'|].
    + destruct IH as (Y' & ? & HY'). exists Y'. split; [done|]. intros m. by rewrite HY', Heq.
    + intros x m Hx Hp. destruct (proj2 (Heq m)) as (y & Hy & Hp'); [by exists x|]. by apply (IH y m).
  - cbn [mbind option_bind]. intros x m Hx (x' & k & Hx' & Hk & Hp)%path_cons. apply (Htr x' k); [|done].
    by eapply HXc.
Qed.

(** The actions of the NFA nodes a string reaches. *)
Definition nfa_accepts (nfa : NFA) (w : list Z) (a : Z) : Prop :=
  exists m acts, path nfa 0 w m /\ actionsOfNode nfa m = Some acts /\ a ∈ acts.

Definition dfa_accepts (dfa : DFA) (w : list Z) (a : Z) : Prop :=
  exists j node acts, dfa_run dfa (dfa_root dfa) w = Some j /\ vec_at (dfa_nodes dfa) j = Some node
    /\ node_actions dfa node = Some acts /\ a ∈ acts.

Lemma convert_sound `{HashOrder} nfa fuel :
  wf_nfa nfa -> vec_size (nfa_actions nfa) <= 65535 -> (2 ^ length (nfa_nodes nfa) <= fuel)%nat ->
  exists dfa sets, convert fuel nfa = Some dfa /\ finished nfa sets dfa /\ 0 < vec_size sets
    /\ forall w a, Forall (λ c, 0 <= c <= 127) w -> dfa_accepts dfa w a <-> nfa_accepts nfa w a.
Proof.
  intros Hwf Hact Hf. destruct (resolveEpsilonClosures_spec nfa) as (closures & Hres & Hcl).
  { intros n Hn. destruct (wf_node nfa Hwf n Hn) as (_ & eps & _ & _ & ? & _ & _ & _ & ? & _). eauto. }
  destruct (convert_finished nfa closures Hwf Hcl Hact fuel Hf Hres) as (dfa & sets & Hd & Hfin & H0).
  exists dfa, sets. split_and!; [done|done|by eapply vec_at_bound|]. intros w a Hw.
  destruct (initial_set_ok nfa closures Hwf Hcl Hact) as [HX HXin].
  pose proof (run_sets nfa sets dfa w 0 _ Hfin Hw H0) as Hrun.
  destruct Hfin as (_ & Hroot & _ & _ & Hnodes).
  unfold dfa_accepts, nfa_accepts. rewrite Hroot.
  assert (forall m, path nfa 0 w m <-> exists x, x ∈ extendSetWithClosure closures 0 {[ 0 ]} /\ path nfa x w m) as Hp.
  { intros m. split; [intros; exists 0; split; [by apply HXin|done]|]. intros (x & Hx%HXin & Hp).
    change w with ([] ++ w). eapply path_trans; [by apply path_nil_rtc|done]. }
  destruct (dfa_run dfa 0 w) as [j|].
  - destruct Hrun as (Y & Hj & HY). destruct (Hnodes j Y Hj) as (node & acts & ts & Hn & _ & Ha & _ & Hin & _). split.
    + intros (j' & node' & acts' & [= <-] & Hn' & Ha' & Hina). simplify_eq. apply Hin in Hina as (m & as' & Hm & ? & ?).
      exists m, as'. split; [|done]. apply Hp. by apply HY.
    + intros (m & as' & Hm & ? & ?). exists j, node, acts. split_and!; try done. apply Hin. exists m, as'.
      split; [|done]. apply HY. by apply Hp.
  - split; [intros (? & ? & ? & ? & _); done|]. intros (m & as' & Hm%Hp & _). destruct Hm as (x & Hx & Hpx).
    by apply Hrun in Hpx.
Qed.

(** The result is an automaton the bytecode compiler accepts. *)
Lemma set_actions_ok nfa X a : wf_nfa nfa -> set_ok nfa X -> nfa_action nfa X a -> action_ok a = true.
Proof.
  intros Hwf (_ & Hb & _) (n & acts & Hn & Ha & Hin).
  destruct (wf_node nfa Hwf n (Hb n Hn)) as (_ & _ & acts' & _ & _ & Ha' & _ & _ & _ & Hall). simplify_eq.
  rewrite Forall_forall in Hall. specialize (Hall a Hin). unfold action_ok. apply andb_true_iff.
  split; [apply Z.leb_le; lia|apply Z.ltb_lt; lia].
Qed.

(** C9: the subset construction terminates on every well-formed NFA, whatever
    order hash sets are visited in, with an automaton the bytecode compiler
    accepts and that after every ASCII string is in a node whose actions are
    exactly those of the NFA nodes the string reaches. *)
Theorem convert_correct `{HashOrder} nfa fuel :
  wf_nfa nfa -> vec_size (nfa_actions nfa) <= 65535 -> (2 ^ length (nfa_nodes nfa) <= fuel)%nat ->
  exists dfa, convert fuel nfa = Some dfa
    /\ (vec_size (dfa_nodes dfa) < UINT32_MAX -> wf_dfa dfa = true)
    /\ forall w a, Forall (λ c, 0 <= c <= 127) w -> dfa_accepts dfa w a <-> nfa_accepts nfa w a.
Proof.
  intros Hwf Ha Hf. destruct (convert_sound nfa fuel Hwf Ha Hf) as (dfa & sets & Hc & Hfin & Hpos & Hacc).
  exists dfa. split_and!; [done| |done]. intros Hsmall. eapply work_finished_wf; [done|done|done|].
  intros X a. by apply set_actions_ok.
Qed.

(** ** An example: ["a*b"] with the action 7, after an epsilon transition *)

Definition sample_nfa : NFA :=
  mkNFA [mkImmutableNFANode 0 1 0 1 0 0; mkImmutableNFANode 1 2 1 1 0 0; mkImmutableNFANode 2 2 1 1 0 1]
    [mkImmutableRange 0 1 97 97; mkImmutableRange 1 2 98 98] [0; 2] [1] [7].

Lemma sample_nfa_wf : wf_nfa sample_nfa.
Proof.
  split; [done|]. intros n Hn. change (vec_size (nfa_nodes sample_nfa)) with 3 in *.
  assert (n = 0 \/ n = 1 \/ n = 2) as [-> | [-> | ->]] by lia;
    eexists; (split; [by vm_compute|]); cbn [wf_view sorted_from o_first o_last o_data];
    split_and!; repeat constructor; done.
Qed.

Lemma sample_nfa_accepts : nfa_accepts sample_nfa [97; 98] 7.
Proof.
  exists 2, [7]. split_and!; [|by vm_compute|left].
  eapply path_char; [exists [mkOtherRange 97 97 [0]], [0]; split_and!; [by vm_compute|by vm_compute|left]|].
  eapply path_eps; [exists [1]; split; [by vm_compute|left]|].
  eapply path_char; [exists [mkOtherRange 98 98 [2]], [2]; split_and!; [by vm_compute|by vm_compute|left]|].
  constructor.
Qed.

Lemma convert_correct_witness : exists dfa, convert 8 sample_nfa = Some dfa /\ dfa_accepts dfa [97; 98] 7.
Proof.
  destruct (convert_correct sample_nfa 8 sample_nfa_wf) as (dfa & Hc & _ & Hacc); [done|vm_compute; lia|].
  exists dfa. split; [exact Hc|]. apply Hacc; [repeat constructor; done|]. exact sample_nfa_accepts.
Defined.
