(* ===== verification/RangeParametricity.v ===== *)
(** * Range lists do not look at their data

    [MutableRangeList::extend] moves, copies and combines the data of ranges but
    never inspects it: applying a function to all data before or after makes no
    difference.  So the bounds of the ranges are the same whatever the data is,
    and a choice of data that records which ranges were merged shows that no
    merged range ends inside a range of the result. *)

From stdpp Require Import base numbers option list list_numbers sets.
From Stdlib Require Import ZArith Lia.
From S2P Require Import Prelude.
From S2P Require Import MutableRangeList.

Section Map.
Context {D E D' E' : Type} (f : D' -> D) (g : E' -> E).
Context (convert : E -> D) (extend_data : D -> E -> D) (convert' : E' -> D') (extend_data' : D' -> E' -> D').
Hypothesis Hconvert : forall e, convert (g e) = f (convert' e).
Hypothesis Hextend : forall d e, extend_data (f d) (g e) = f (extend_data' d e).

Definition map_range (r : MutableRange D') : MutableRange D := mkMutableRange (f (mr_data r)) (nextRangeIndex r) (mr_first r) (mr_last r).
Definition map_other (o : OtherRange E') : OtherRange E := mkOtherRange (o_first o) (o_last o) (g (o_data o)).
Definition map_state (st : ExtendState (D := D') (E := E')) : ExtendState (D := D) (E := E) :=
  mkExtendState (map_range <$> es_ranges st) (reachedSelfEnd st) (lastSelfRangeIndex st) (selfRangeIndex st)
    (map_other <$> otherIterator st) (otherRangeOffset st).
Definition map_triple (x : list (MutableRange D') * Z * Z) : list (MutableRange D) * Z * Z := (map_range <$> x.1.1, x.1.2, x.2).

Lemma vec_at_fmap {A B} (h : A -> B) (v : list A) i : vec_at (h <$> v) i = h <$> vec_at v i.
Proof. unfold vec_at. destruct (0 <=? i); [apply list_lookup_fmap|done]. Qed.

Lemma vec_set_fmap {A B} (h : A -> B) (v : list A) i x : vec_set (h <$> v) i (h x) = fmap (M:=list) h <$> vec_set v i x.
Proof.
  unfold vec_set, vec_size. rewrite length_fmap. destruct ((0 <=? i) && _); [|done]. cbn [fmap option_fmap option_map].
  by rewrite list_fmap_insert.
Qed.

Lemma vec_size_fmap {A B} (h : A -> B) (v : list A) : vec_size (h <$> v) = vec_size v.
Proof. unfold vec_size. by rewrite length_fmap. Qed.

(** An assignment to a field. *)
Lemma set_field_map ranges i (h : MutableRange D' -> MutableRange D') (k : MutableRange D -> MutableRange D) :
  (forall r, k (map_range r) = map_range (h r)) ->
  (r ← vec_at (map_range <$> ranges) i; vec_set (map_range <$> ranges) i (k r))
  = fmap (M:=list) map_range <$> (r ← vec_at ranges i; vec_set ranges i (h r)).
Proof.
  intros Hk. rewrite vec_at_fmap. destruct (vec_at ranges i) as [r|]; [|done]. cbn [fmap option_fmap option_map mbind option_bind].
  rewrite Hk. apply vec_set_fmap.
Qed.

Lemma setNext_map ranges i next : setNext (map_range <$> ranges) i next = fmap (M:=list) map_range <$> setNext ranges i next.
Proof. by apply (set_field_map ranges i (λ r, mkMutableRange (mr_data r) next (mr_first r) (mr_last r))). Qed.
Lemma setFirst_map ranges i first : setFirst (map_range <$> ranges) i first = fmap (M:=list) map_range <$> setFirst ranges i first.
Proof. by apply (set_field_map ranges i (λ r, mkMutableRange (mr_data r) (nextRangeIndex r) first (mr_last r))). Qed.
Lemma setData_map ranges i d : setData (map_range <$> ranges) i (f d) = fmap (M:=list) map_range <$> setData ranges i d.
Proof. by apply (set_field_map ranges i (λ r, mkMutableRange d (nextRangeIndex r) (mr_first r) (mr_last r))). Qed.

Lemma insertBetween_map ranges left right first last d :
  insertBetween (map_range <$> ranges) left right first last (f d) = map_triple <$> insertBetween ranges left right first last d.
Proof.
  unfold insertBetween. rewrite vec_size_fmap. destruct (right =? 0).
  - rewrite vec_at_fmap. destruct (vec_at ranges 0) as [r0|]; [|done]. cbn [fmap option_fmap option_map mbind option_bind].
    change [map_range r0] with (map_range <$> [r0]). rewrite <- fmap_app.
    change (mkMutableRange (f d) (vec_size ranges) first last) with (map_range (mkMutableRange d (vec_size ranges) first last)).
    rewrite vec_set_fmap. by destruct (vec_set _ _ _).
  - change [mkMutableRange (f d) right first last] with (map_range <$> [mkMutableRange d right first last]).
    rewrite <- fmap_app, setNext_map. by destruct (setNext _ _ _).
Qed.

Lemma extendOverlap_map ranges last self o others offset :
  extendOverlap extend_data (map_range <$> ranges) last self (map_other o) (map_other <$> others) offset
  = map_state <$> extendOverlap extend_data' ranges last self o others offset.
Proof.
  unfold extendOverlap. rewrite vec_at_fmap. destruct (vec_at ranges self) as [r|]; [|done].
  cbn [fmap option_fmap option_map mbind option_bind map_range map_other mr_last mr_first mr_data nextRangeIndex o_first o_last o_data].
  rewrite Hextend. destruct (_ =? _); [|destruct (_ <? _)].
  - rewrite setData_map. by destruct (setData _ _ _).
  - rewrite setFirst_map. destruct (setFirst _ _ _) as [v|]; [|done]. cbn [fmap option_fmap option_map mbind option_bind].
    rewrite insertBetween_map. by destruct (insertBetween _ _ _ _ _ _) as [[[? ?] ?]|].
  - rewrite setData_map. by destruct (setData _ _ _).
Qed.

Lemma extendStep_map st : extendStep convert extend_data (map_state st) = map_state <$> extendStep convert' extend_data' st.
Proof.
  unfold extendStep. cbn [map_state es_ranges lastSelfRangeIndex selfRangeIndex otherRangeOffset otherIterator].
  destruct (otherIterator st) as [|o others]; [done|]. rewrite fmap_cons, vec_at_fmap.
  destruct (vec_at (es_ranges st) (selfRangeIndex st)) as [r|]; [|done].
  cbn [fmap option_fmap option_map mbind option_bind map_range map_other mr_last mr_first mr_data nextRangeIndex o_first o_last o_data].
  rewrite !Hconvert. destruct (_ <? _); [done|]. destruct (_ <? _).
  { rewrite insertBetween_map. by destruct (insertBetween _ _ _ _ _ _) as [[[? ?] ?]|]. }
  destruct (_ <? _).
  { rewrite setFirst_map. destruct (setFirst _ _ _) as [v|]; [|done]. cbn [fmap option_fmap option_map mbind option_bind].
    rewrite insertBetween_map. destruct (insertBetween _ _ _ _ _ _) as [[[v' last] self]|]; [|done].
    cbn [fmap option_fmap option_map mbind option_bind map_triple fst snd]. apply extendOverlap_map. }
  destruct (_ <? _).
  { rewrite insertBetween_map. destruct (insertBetween _ _ _ _ _ _) as [[[v' last] self]|]; [|done].
    cbn [fmap option_fmap option_map mbind option_bind map_triple fst snd]. rewrite vec_at_fmap. destruct (vec_at v' self) as [r'|]; [|done].
    cbn [fmap option_fmap option_map mbind option_bind]. apply extendOverlap_map. }
  apply extendOverlap_map.
Qed.

Lemma extendLoop_map fuel st : extendLoop convert extend_data fuel (map_state st) = map_state <$> extendLoop convert' extend_data' fuel st.
Proof.
  revert st. induction fuel as [|fuel IH]; intros st; [done|]. cbn [extendLoop]. rewrite extendStep_map.
  destruct (extendStep convert' extend_data' st) as [st'|]; [|done]. cbn [fmap option_fmap option_map mbind option_bind].
  cbn [map_state reachedSelfEnd otherIterator]. destruct (reachedSelfEnd st'); [done|]. destruct (otherIterator st') eqn:Eo; [done|].
  rewrite fmap_cons. rewrite <- IH. unfold map_state. by rewrite Eo.
Qed.

Lemma extendAppend_map others offset ranges last :
  extendAppend convert (map_range <$> ranges) last (map_other <$> others) offset = fmap (M:=list) map_range <$> extendAppend convert' ranges last others offset.
Proof.
  revert ranges last offset. induction others as [|o others IH]; intros ranges last offset; [done|]. rewrite fmap_cons. cbn [extendAppend].
  unfold appendRange. rewrite vec_size_fmap. cbn [map_other o_data o_first o_last]. rewrite Hconvert.
  change [mkMutableRange (f (convert' (o_data o))) 0 (s8 (o_first o + offset)) (o_last o)]
    with (map_range <$> [mkMutableRange (convert' (o_data o)) 0 (s8 (o_first o + offset)) (o_last o)]).
  rewrite <- fmap_app. destruct (vec_size ranges =? 0); [apply IH|]. rewrite setNext_map.
  destruct (setNext _ _ _) as [v|]; [|done]. cbn [fmap option_fmap option_map mbind option_bind]. apply IH.
Qed.

Lemma initializeFrom_map others : initializeFrom convert (map_other <$> others) = fmap (M:=list) map_range <$> initializeFrom convert' others.
Proof.
  assert (forall k, initializeFrom_loop convert k (map_other <$> others) = map_range <$> initializeFrom_loop convert' k others) as Hl.
  { induction others as [|o others IH]; intros k; [done|]. rewrite fmap_cons. cbn [initializeFrom_loop]. rewrite fmap_cons, IH.
    unfold map_range at 2. cbn [map_other o_data o_first o_last mr_data nextRangeIndex mr_first mr_last]. by rewrite Hconvert. }
  unfold initializeFrom. rewrite Hl, vec_size_fmap. apply setNext_map.
Qed.

Lemma extend_map ranges others :
  extend convert extend_data (map_range <$> ranges) (map_other <$> others) = fmap (M:=list) map_range <$> extend convert' extend_data' ranges others.
Proof.
  unfold extend. destruct others as [|o others]; [done|]. destruct ranges as [|r ranges]; [apply initializeFrom_map|].
  rewrite !fmap_cons. rewrite <- (fmap_cons map_range r ranges), <- (fmap_cons map_other o others), !length_fmap.
  change (mkExtendState (map_range <$> r :: ranges) false 0 0 (map_other <$> o :: others) 0) with (map_state (mkExtendState (r :: ranges) false 0 0 (o :: others) 0)).
  rewrite extendLoop_map. destruct (extendLoop _ _ _ _) as [st|]; [|done]. cbn [fmap option_fmap option_map mbind option_bind].
  apply extendAppend_map.
Qed.

Lemma iterate_map fuel ranges index : iterate fuel (map_range <$> ranges) index = fmap (M:=list) map_range <$> iterate fuel ranges index.
Proof.
  revert index. induction fuel as [|fuel IH]; intros index; [done|]. cbn [iterate]. rewrite vec_at_fmap.
  destruct (vec_at ranges index) as [r|]; [|done]. cbn [fmap option_fmap option_map mbind option_bind map_range nextRangeIndex].
  destruct (_ =? 0); [done|]. rewrite IH. by destruct (iterate fuel ranges _).
Qed.

Lemma ranges_in_order_map ranges : ranges_in_order (map_range <$> ranges) = fmap (M:=list) map_range <$> ranges_in_order ranges.
Proof. destruct ranges as [|r ranges]; [done|]. unfold ranges_in_order. rewrite fmap_cons, <- (fmap_cons map_range), length_fmap. apply iterate_map. Qed.
End Map.
