(* ===== verification/Buckets.v ===== *)
(** * Distributing events into buckets

    The constructor of [FullGraphPartition] sorts transitions by target and by
    range of characters in the way of a counting sort: it counts the events of
    each key, turns the counts into start offsets, and puts every event at the
    start of its bucket plus the number of events of the same key before it.
    This file proves that these positions are a bijection and stay inside the
    buckets. *)

From stdpp Require Import base numbers option list list_numbers sets.
From Stdlib Require Import ZArith Lia.
From S2P Require Import Prelude.

(** The number of events with the key [b]. *)
Definition occurrences (b : Z) (keys : list Z) : Z := vec_size (filter (λ k, k = b) keys).

(** The sum of the sizes of the buckets before [b]. *)
Definition bucket_start (size : Z -> Z) (b : Z) : Z := sum size (seqZ 0 b).

Definition position (keys : list Z) (k : nat) (b : Z) : Z :=
  bucket_start (λ b, occurrences b keys) b + occurrences b (take k keys).

Lemma occurrences_app b l1 l2 : occurrences b (l1 ++ l2) = occurrences b l1 + occurrences b l2.
Proof. unfold occurrences. by rewrite filter_app, vec_size_app. Qed.

Lemma occurrences_nonneg b l : 0 <= occurrences b l.
Proof. apply vec_size_nonneg. Qed.

Lemma occurrences_single b k : occurrences b [k] = if k =? b then 1 else 0.
Proof. unfold occurrences. rewrite filter_cons, filter_nil. destruct (k =? b) eqn:E; zbool; by case_decide. Qed.

Lemma occurrences_take_S b keys k x : keys !! k = Some x ->
  occurrences b (take (S k) keys) = occurrences b (take k keys) + if x =? b then 1 else 0.
Proof. intros Hk. by rewrite (take_S_r _ _ x Hk), occurrences_app, occurrences_single. Qed.

Lemma occurrences_take_le b keys j k : (j <= k)%nat -> occurrences b (take j keys) <= occurrences b (take k keys).
Proof.
  intros Hjk. rewrite <- (take_drop j (take k keys)), occurrences_app, take_take, Nat.min_l by done.
  pose proof (occurrences_nonneg b (drop j (take k keys))). lia.
Qed.

(** An event has a rank below the size of its bucket. *)
Lemma occurrences_rank b keys k : keys !! k = Some b -> occurrences b (take k keys) < occurrences b keys.
Proof.
  intros Hk. rewrite <- (take_drop (S k) keys) at 2. rewrite occurrences_app, (occurrences_take_S _ _ _ _ Hk), Z.eqb_refl.
  pose proof (occurrences_nonneg b (drop (S k) keys)). lia.
Qed.

Lemma bucket_start_0 size : bucket_start size 0 = 0.
Proof. done. Qed.

Lemma bucket_start_S size b : 0 <= b -> bucket_start size (b + 1) = bucket_start size b + size b.
Proof.
  intros Hb. unfold bucket_start. rewrite (seqZ_app 0 b 1) by lia. rewrite sum_app. change (seqZ (0 + b) 1) with [0 + b].
  cbn [sum foldr]. replace (0 + b) with b by lia. lia.
Qed.

Lemma bucket_start_mono size a b : (forall i, 0 <= size i) -> 0 <= a -> a < b -> bucket_start size a + size a <= bucket_start size b.
Proof.
  intros Hs Ha Hab. rewrite <- bucket_start_S by done. unfold bucket_start.
  replace b with ((a + 1) + (b - (a + 1))) by lia. rewrite (seqZ_app 0 (a + 1)) by lia. rewrite sum_app.
  pose proof (sum_nonneg size (seqZ (0 + (a + 1)) (b - (a + 1))) ltac:(auto)). lia.
Qed.

Lemma bucket_start_nonneg size b : (forall i, 0 <= size i) -> 0 <= bucket_start size b.
Proof. intros Hs. apply sum_nonneg. auto. Qed.

Lemma bucket_start_ext f g b : (forall i, 0 <= i < b -> f i = g i) -> bucket_start f b = bucket_start g b.
Proof. intros H. apply sum_ext. intros i Hi%elem_of_seqZ. apply H. lia. Qed.

(** The buckets together have room for all events. *)
Lemma bucket_total keys m : 0 <= m -> Forall (λ k, 0 <= k < m) keys -> bucket_start (λ b, occurrences b keys) m = vec_size keys.
Proof.
  intros Hm Hkeys. induction Hkeys as [|k keys Hk _ IH].
  { unfold bucket_start, occurrences. change (vec_size (filter _ [])) with 0. clear. induction (seqZ 0 m) as [|x l IH]; [done|]. simpl in *. lia. }
  assert (forall b, occurrences b (k :: keys) = (if k =? b then 1 else 0) + occurrences b keys) as Hc.
  { intros b. change (k :: keys) with ([k] ++ keys). by rewrite occurrences_app, occurrences_single. }
  change (k :: keys) with ([k] ++ keys) at 2. rewrite vec_size_app. change (vec_size [k]) with 1. rewrite <- IH. clear IH.
  replace m with (k + (1 + (m - k - 1))) by lia. unfold bucket_start.
  rewrite (seqZ_app 0 k) by lia. rewrite (seqZ_app (0 + k) 1) by lia. rewrite !sum_app.
  rewrite (sum_ext (λ b, occurrences b (k :: keys)) (λ b, occurrences b keys) (seqZ 0 k)).
  2:{ intros b Hb%elem_of_seqZ. rewrite Hc. destruct (k =? b) eqn:E; zbool; lia. }
  rewrite (sum_ext (λ b, occurrences b (k :: keys)) (λ b, occurrences b keys) (seqZ (0 + k + 1) (m - k - 1))).
  2:{ intros b Hb%elem_of_seqZ. rewrite Hc. destruct (k =? b) eqn:E; zbool; lia. }
  change (seqZ (0 + k) 1) with [0 + k]. cbn [sum foldr]. rewrite Hc. replace (0 + k) with k by lia. rewrite Z.eqb_refl. lia.
Qed.

Section Positions.
Context (keys : list Z) (m : Z).
Hypothesis Hkeys : Forall (λ k, 0 <= k < m) keys.
Abbreviation count b := (occurrences b keys).
Abbreviation start b := (bucket_start (λ b, occurrences b keys) b).

Lemma position_bucket k b : keys !! k = Some b -> start b <= position keys k b < start b + count b.
Proof.
  intros Hk. unfold position. pose proof (occurrences_rank b keys k Hk). pose proof (occurrences_nonneg b (take k keys)). lia.
Qed.

Lemma position_bound k b : keys !! k = Some b -> 0 <= position keys k b < vec_size keys.
Proof.
  intros Hk. pose proof (position_bucket k b Hk) as Hp. pose proof (Forall_lookup_1 _ _ _ _ Hkeys Hk) as Hb. simpl in Hb.
  pose proof (bucket_start_nonneg (λ b, count b) b ltac:(intros; apply occurrences_nonneg)) as Hs.
  split; [lia|]. rewrite <- (bucket_total keys m) by (done || lia).
  pose proof (bucket_start_mono (λ b, count b) b m ltac:(intros; apply occurrences_nonneg)) as Hm. simpl in Hm. lia.
Qed.

Lemma position_rank j k b : keys !! j = Some b -> (j < k)%nat -> position keys j b < position keys k b.
Proof.
  intros Hj Hjk. unfold position. pose proof (occurrences_take_S b keys j b Hj) as Hs. rewrite Z.eqb_refl in Hs.
  pose proof (occurrences_take_le b keys (S j) k ltac:(lia)). lia.
Qed.

(** A position lies in one bucket only. *)
Lemma bucket_unique p a b : 0 <= a -> 0 <= b -> start a <= p < start a + count a -> start b <= p < start b + count b -> a = b.
Proof.
  intros Ha Hb Hpa Hpb. pose proof (λ x y, bucket_start_mono (λ b, count b) x y ltac:(intros; apply occurrences_nonneg)) as Hm. simpl in Hm.
  destruct (Z.lt_trichotomy a b) as [Hlt|[Heq|Hlt]]; [|done|]; [pose proof (Hm a b Ha Hlt)|pose proof (Hm b a Hb Hlt)]; lia.
Qed.

Lemma position_inj j k a b : keys !! j = Some a -> keys !! k = Some b -> position keys j a = position keys k b -> j = k.
Proof.
  intros Hj Hk Heq. pose proof (position_bucket j a Hj) as Hpj. pose proof (position_bucket k b Hk) as Hpk. rewrite Heq in Hpj.
  pose proof (Forall_lookup_1 _ _ _ _ Hkeys Hj). pose proof (Forall_lookup_1 _ _ _ _ Hkeys Hk). simpl in *.
  assert (a = b) as -> by (apply (bucket_unique (position keys k b)); lia).
  destruct (lt_eq_lt_dec j k) as [[Hlt|?]|Hlt]; [|done|].
  - pose proof (position_rank j k b Hj Hlt). lia.
  - pose proof (position_rank k j b Hk Hlt). lia.
Qed.

(** Every position is that of an event. *)
Lemma position_surj p : 0 <= p < vec_size keys -> exists k b, keys !! k = Some b /\ position keys k b = p.
Proof.
  intros Hp. set (positions := imap (λ k b, position keys k b) keys).
  assert (NoDup positions) as Hnd.
  { apply NoDup_alt. intros j k x. unfold positions. rewrite !list_lookup_imap.
    destruct (keys !! j) as [a|] eqn:Ej, (keys !! k) as [b|] eqn:Ek; try done. simpl. intros [= <-] [= Heq]. symmetry in Heq. by apply (position_inj j k a b). }
  assert (positions ⊆+ seqZ 0 (vec_size keys)) as Hsub.
  { apply NoDup_submseteq; [done|]. intros x [k Hk]%list_elem_of_lookup. unfold positions in Hk. rewrite list_lookup_imap in Hk.
    destruct (keys !! k) as [b|] eqn:Ek; [|done]. simpl in Hk. injection Hk as <-. apply elem_of_seqZ. pose proof (position_bound k b Ek). lia. }
  apply submseteq_length_Permutation in Hsub; [|unfold positions; rewrite length_imap, length_seqZ; unfold vec_size; lia].
  assert (p ∈ positions) as Hin by (rewrite Hsub; apply elem_of_seqZ; lia).
  apply list_elem_of_lookup in Hin as [k Hk]. unfold positions in Hk. rewrite list_lookup_imap in Hk.
  destruct (keys !! k) as [b|] eqn:Ek; [|done]. simpl in Hk. injection Hk as <-. by exists k, b.
Qed.
End Positions.
