(* ===== verification/Partition.v ===== *)
(** * Refinable partitions

    Models the class [Partition] of [DFAMinimizer.cpp]: the elements 0, ..., n-1
    lie in one vector, each set is an interval of it, and the marked elements of
    a set are at the beginning of its interval.  The second half proves what the
    operations do to the sets and to the marks, which is all that the minimizer
    relies on.  [None] is an access outside a vector; vectors are assumed to
    stay below 2^32 elements. *)

From stdpp Require Import base numbers option list list_numbers gmap sets.
From Stdlib Require Import ZArith Lia.
From S2P Require Import Prelude.

(** ** The class *)

Record SetDescriptor := mkSetDescriptor { sd_start : Z; sd_size : Z; sd_markedCount : Z }.

Definition indexAfterMarkedElements (d : SetDescriptor) : Z := sd_start d + sd_markedCount d.
Definition sd_end (d : SetDescriptor) : Z := sd_start d + sd_size d.

Record Partition := mkPartition {
  m_sets : list SetDescriptor;
  m_partitionedElements : list Z;
  m_elementPositionInPartitionedNodes : list Z;
  m_elementToSetMap : list Z;
  m_setsMarkedInCurrentGeneration : list Z
}.

Definition emptyPartition : Partition := mkPartition [] [] [] [] [].

(** One set with all elements. *)
Definition initialize (size : Z) : Partition :=
  if size =? 0 then emptyPartition
  else mkPartition [mkSetDescriptor 0 size 0] (seqZ 0 size) (seqZ 0 size) (replicate (Z.to_nat size) 0) [].

(** The content of vectors of plain integers after [resize], which leaves new
    elements uninitialized. *)
Class UninitializedMemory := {
  fresh_memory : nat -> list Z;
  length_fresh_memory n : length (fresh_memory n) = n
}.

#[export] Instance zeroed_memory : UninitializedMemory :=
  {| fresh_memory n := replicate n 0; length_fresh_memory n := length_replicate n 0 |}.

Definition resize `{UninitializedMemory} (v : list Z) (size : Z) : list Z :=
  if size <? vec_size v then take (Z.to_nat size) v else v ++ fresh_memory (Z.to_nat (size - vec_size v)).

Definition reserveUninitializedCapacity `{UninitializedMemory} (p : Partition) (elementCount : Z) : Partition :=
  mkPartition (m_sets p) (resize (m_partitionedElements p) elementCount)
    (resize (m_elementPositionInPartitionedNodes p) elementCount) (resize (m_elementToSetMap p) elementCount)
    (m_setsMarkedInCurrentGeneration p).

Definition addSetUnchecked (p : Partition) (start size : Z) : Partition :=
  mkPartition (m_sets p ++ [mkSetDescriptor start size 0]) (m_partitionedElements p) (m_elementPositionInPartitionedNodes p)
    (m_elementToSetMap p) (m_setsMarkedInCurrentGeneration p).

Definition setElementUnchecked (p : Partition) (elementIndex positionInPartition setIndex : Z) : option Partition :=
  elements ← vec_set (m_partitionedElements p) positionInPartition elementIndex;
  positions ← vec_set (m_elementPositionInPartitionedNodes p) elementIndex positionInPartition;
  sets ← vec_set (m_elementToSetMap p) elementIndex setIndex;
  Some (mkPartition (m_sets p) elements positions sets (m_setsMarkedInCurrentGeneration p)).

Definition startOffsetOfSet (p : Partition) (setIndex : Z) : option Z := sd_start <$> vec_at (m_sets p) setIndex.

(** Swap the element with the first unmarked element of its set. *)
Definition markElementInCurrentGeneration (p : Partition) (elementIndex : Z) : option Partition :=
  setIndex ← vec_at (m_elementToSetMap p) elementIndex;
  setDescriptor ← vec_at (m_sets p) setIndex;
  elementPositionInPartition ← vec_at (m_elementPositionInPartitionedNodes p) elementIndex;
  let firstUnmarkedElementPositionInPartition := indexAfterMarkedElements setDescriptor in
  firstUnmarkedElement ← vec_at (m_partitionedElements p) firstUnmarkedElementPositionInPartition;
  elements ← vec_set (m_partitionedElements p) firstUnmarkedElementPositionInPartition elementIndex;
  elements ← vec_set elements elementPositionInPartition firstUnmarkedElement;
  positions ← vec_set (m_elementPositionInPartitionedNodes p) elementIndex firstUnmarkedElementPositionInPartition;
  positions ← vec_set positions firstUnmarkedElement elementPositionInPartition;
  let marked := if sd_markedCount setDescriptor =? 0 then m_setsMarkedInCurrentGeneration p ++ [setIndex]
                else m_setsMarkedInCurrentGeneration p in
  sets ← vec_set (m_sets p) setIndex
    (mkSetDescriptor (sd_start setDescriptor) (sd_size setDescriptor) (sd_markedCount setDescriptor + 1));
  Some (mkPartition sets elements positions (m_elementToSetMap p) marked).

(** Marking several elements. *)
Definition markAll (p : Partition) (elements : list Z) : option Partition :=
  foldl (λ p e, p ← p; markElementInCurrentGeneration p e) (Some p) elements.

(** The elements that [iterateSet] visits. *)
Definition iterateSet (p : Partition) (setIndex : Z) : option (list Z) :=
  d ← vec_at (m_sets p) setIndex;
  mapM (vec_at (m_partitionedElements p)) (seqZ (sd_start d) (sd_size d)).

Definition setIndexOf (p : Partition) (elementIndex : Z) : option Z := vec_at (m_elementToSetMap p) elementIndex.

Definition firstElementInSet (p : Partition) (setIndex : Z) : option Z :=
  d ← vec_at (m_sets p) setIndex;
  vec_at (m_partitionedElements p) (sd_start d).

Definition partition_size (p : Partition) : Z := vec_size (m_sets p).

(** The two parts of a set: what is left of it, and the new set, which is the
    smaller one. *)
Definition splitDescriptor (d : SetDescriptor) : SetDescriptor * SetDescriptor :=
  let newSetIsMarkedSet := sd_markedCount d * 2 <=? sd_size d in
  let newSet := if newSetIsMarkedSet then mkSetDescriptor (sd_start d) (sd_markedCount d) 0
                else mkSetDescriptor (sd_start d + sd_markedCount d) (sd_size d - sd_markedCount d) 0 in
  let start := if newSetIsMarkedSet then sd_start d + sd_markedCount d else sd_start d in
  (mkSetDescriptor start (sd_size d - sd_size newSet) 0, newSet).

Definition moveToSet (p : Partition) (newSet : SetDescriptor) (newSetIndex : Z) (map : list Z) : option (list Z) :=
  foldl (λ map i, map ← map; element ← vec_at (m_partitionedElements p) i; vec_set map element newSetIndex)
    (Some map) (seqZ (sd_start newSet) (sd_size newSet)).

Section Refine.
Context {S : Type} (function : Partition -> Z -> S -> option S).

(** The body of the loop of [refineGeneration]; the state is what the function
    passed to it changes. *)
Definition refineSet (acc : Partition * S) (setIndex : Z) : option (Partition * S) :=
  let '(p, s) := acc in
  d ← vec_at (m_sets p) setIndex;
  if sd_markedCount d =? sd_size d then
    sets ← vec_set (m_sets p) setIndex (mkSetDescriptor (sd_start d) (sd_size d) 0);
    Some (mkPartition sets (m_partitionedElements p) (m_elementPositionInPartitionedNodes p) (m_elementToSetMap p)
            (m_setsMarkedInCurrentGeneration p), s)
  else
    let '(rest, newSet) := splitDescriptor d in
    sets ← vec_set (m_sets p) setIndex rest;
    let newSetIndex := vec_size sets in
    map ← moveToSet p newSet newSetIndex (m_elementToSetMap p);
    let p := mkPartition (sets ++ [newSet]) (m_partitionedElements p) (m_elementPositionInPartitionedNodes p) map
               (m_setsMarkedInCurrentGeneration p) in
    s ← function p newSetIndex s;
    Some (p, s).

Definition refineGeneration (p : Partition) (s : S) : option (Partition * S) :=
  '(p, s) ← foldl (λ acc setIndex, acc ← acc; refineSet acc setIndex) (Some (p, s)) (m_setsMarkedInCurrentGeneration p);
  Some (mkPartition (m_sets p) (m_partitionedElements p) (m_elementPositionInPartitionedNodes p) (m_elementToSetMap p) [], s).
End Refine.

(** ** The invariant *)

Abbreviation set_of p e := (vec_at (m_elementToSetMap p) e).
Abbreviation position_of p e := (vec_at (m_elementPositionInPartitionedNodes p) e).
Abbreviation element_at p i := (vec_at (m_partitionedElements p) i).
Abbreviation descriptor p i := (vec_at (m_sets p) i).

(** Whether an element is marked. *)
Definition marked (p : Partition) (e : Z) : bool :=
  match set_of p e, position_of p e with
  | Some i, Some position => match descriptor p i with Some d => position <? indexAfterMarkedElements d | None => false end
  | _, _ => false
  end.

(** The partition of the elements below [n]; [todo] lists the sets with marks. *)
Record partition_ok (n : Z) (todo : list Z) (p : Partition) : Prop := {
  po_elements : vec_size (m_partitionedElements p) = n;
  po_positions : vec_size (m_elementPositionInPartitionedNodes p) = n;
  po_map : vec_size (m_elementToSetMap p) = n;
  po_inverse : forall e i, element_at p i = Some e <-> position_of p e = Some i;
  po_interval : forall i d, descriptor p i = Some d ->
    0 <= sd_start d /\ 0 < sd_size d /\ sd_end d <= n /\ 0 <= sd_markedCount d <= sd_size d;
  po_in : forall e pos, position_of p e = Some pos ->
    exists i d, set_of p e = Some i /\ descriptor p i = Some d /\ sd_start d <= pos < sd_end d;
  po_own : forall i d pos e, descriptor p i = Some d -> sd_start d <= pos < sd_end d -> element_at p pos = Some e ->
    set_of p e = Some i;
  po_todo : NoDup todo;
  po_marked : forall i, i ∈ todo <-> exists d, descriptor p i = Some d /\ 0 < sd_markedCount d
}.

Lemma element_info n todo p e : partition_ok n todo p -> 0 <= e < n ->
  exists i d pos, set_of p e = Some i /\ descriptor p i = Some d /\ position_of p e = Some pos
    /\ sd_start d <= pos < sd_end d /\ marked p e = (pos <? indexAfterMarkedElements d).
Proof.
  intros HP He. destruct (vec_at_is_Some (m_elementPositionInPartitionedNodes p) e) as [pos Hpos]; [by rewrite (po_positions _ _ _ HP)|].
  destruct (po_in _ _ _ HP e pos Hpos) as (i & d & Hi & Hd & Hb). exists i, d, pos. split_and!; try done; try lia.
  unfold marked. by rewrite Hi, Hpos, Hd.
Qed.

Lemma set_of_bound n todo p e i : partition_ok n todo p -> set_of p e = Some i -> 0 <= i < partition_size p.
Proof.
  intros HP Hi. destruct (element_info n todo p e HP) as (j & d & pos & Hj & Hd & _).
  { rewrite <- (po_map _ _ _ HP). by eapply vec_at_bound. }
  simplify_eq. by eapply vec_at_bound.
Qed.

(** ** Marking an element *)

(** Swapping two elements keeps the two vectors inverse to each other. *)
Lemma swap_inverse (els els1 els2 poss poss1 poss2 : list Z) e u i j :
  (forall e i, vec_at els i = Some e <-> vec_at poss e = Some i) ->
  vec_at els i = Some e -> vec_at els j = Some u ->
  vec_set els j e = Some els1 -> vec_set els1 i u = Some els2 ->
  vec_set poss e j = Some poss1 -> vec_set poss1 u i = Some poss2 ->
  forall x y, vec_at els2 y = Some x <-> vec_at poss2 x = Some y.
Proof.
  intros Hinv Hi Hj H1 H2 H3 H4 x y.
  rewrite (vec_set_spec _ _ _ _ y H2), (vec_set_spec _ _ _ _ y H1), (vec_set_spec _ _ _ _ x H4), (vec_set_spec _ _ _ _ x H3).
  pose proof (proj1 (Hinv _ _) Hi). pose proof (proj1 (Hinv _ _) Hj). pose proof (Hinv x y).
  destruct (i =? y) eqn:E1, (j =? y) eqn:E2, (u =? x) eqn:E3, (e =? x) eqn:E4; zbool; naive_solver.
Qed.

Lemma mark_spec n p e :
  partition_ok n (m_setsMarkedInCurrentGeneration p) p -> 0 <= e < n -> marked p e = false ->
  exists p', markElementInCurrentGeneration p e = Some p' /\ partition_ok n (m_setsMarkedInCurrentGeneration p') p'
    /\ m_elementToSetMap p' = m_elementToSetMap p /\ partition_size p' = partition_size p
    /\ forall x, marked p' x = marked p x || (x =? e).
Proof.
  intros HP He Hm. destruct (element_info _ _ p e HP He) as (i & d & pos & Hi & Hd & Hpos & Hb & Hmd). rewrite Hm in Hmd.
  symmetry in Hmd. unfold indexAfterMarkedElements, sd_end in *. zbool.
  destruct (po_interval _ _ _ HP i d Hd) as (Hs0 & Hs1 & Hs2 & Hs3). unfold sd_end in Hs2.
  set (f := sd_start d + sd_markedCount d) in *.
  destruct (vec_at_is_Some (m_partitionedElements p) f) as [u Hu]; [rewrite (po_elements _ _ _ HP); lia|].
  pose proof (proj1 (po_inverse _ _ _ HP _ _) Hu) as Hupos. pose proof (proj2 (po_inverse _ _ _ HP _ _) Hpos) as Hepos.
  assert (0 <= u < n) as Hub by (rewrite <- (po_positions _ _ _ HP); by eapply vec_at_bound).
  unfold markElementInCurrentGeneration. rewrite Hi. cbn [mbind option_bind]. rewrite Hd. cbn [mbind option_bind].
  rewrite Hpos. cbn [mbind option_bind]. unfold indexAfterMarkedElements. fold f. rewrite Hu. cbn [mbind option_bind].
  destruct (vec_set_is_Some (m_partitionedElements p) f e) as [els1 Hels1]; [rewrite (po_elements _ _ _ HP); lia|].
  rewrite Hels1. cbn [mbind option_bind].
  destruct (vec_set_is_Some els1 pos u) as [els2 Hels2]; [rewrite (vec_set_size _ _ _ _ Hels1), (po_elements _ _ _ HP); lia|].
  rewrite Hels2. cbn [mbind option_bind].
  destruct (vec_set_is_Some (m_elementPositionInPartitionedNodes p) e f) as [poss1 Hposs1]; [rewrite (po_positions _ _ _ HP); lia|].
  rewrite Hposs1. cbn [mbind option_bind].
  destruct (vec_set_is_Some poss1 u pos) as [poss2 Hposs2]; [rewrite (vec_set_size _ _ _ _ Hposs1), (po_positions _ _ _ HP); lia|].
  rewrite Hposs2. cbn [mbind option_bind].
  set (d' := mkSetDescriptor (sd_start d) (sd_size d) (sd_markedCount d + 1)).
  destruct (vec_set_is_Some (m_sets p) i d') as [sets' Hsets']; [by eapply vec_at_bound|]. rewrite Hsets'. cbn [mbind option_bind].
  eexists. split; [done|].
  assert (forall j, vec_at sets' j = if i =? j then Some d' else descriptor p j) as Hdesc by (intros j; by apply vec_set_spec).
  assert (forall x y, vec_at els2 y = Some x <-> vec_at poss2 x = Some y) as Hinv.
  { eapply (swap_inverse (m_partitionedElements p) els1 els2 (m_elementPositionInPartitionedNodes p) poss1 poss2 e u pos f); try done. apply HP. }
  assert (forall x, vec_at poss2 x = if u =? x then Some pos else if e =? x then Some f else position_of p x) as Hposx.
  { intros x. by rewrite (vec_set_spec _ _ _ _ x Hposs2), (vec_set_spec _ _ _ _ x Hposs1). }
  assert (set_of p u = Some i) as Hui by (eapply (po_own _ _ _ HP i d f u); unfold sd_end; try done; lia).
  split_and!; cbn [m_elementToSetMap m_setsMarkedInCurrentGeneration].
  - split; cbn [m_partitionedElements m_elementPositionInPartitionedNodes m_elementToSetMap m_sets].
    + by rewrite (vec_set_size _ _ _ _ Hels2), (vec_set_size _ _ _ _ Hels1), (po_elements _ _ _ HP).
    + by rewrite (vec_set_size _ _ _ _ Hposs2), (vec_set_size _ _ _ _ Hposs1), (po_positions _ _ _ HP).
    + apply HP.
    + exact (λ e i, Hinv e i).
    + intros j dj. rewrite Hdesc. destruct (i =? j) eqn:E; zbool; [|apply HP]. intros [= <-]. unfold d', sd_end. simpl. lia.
    + intros x posx. rewrite Hposx. intros Hx. assert (exists j dj, set_of p x = Some j /\ descriptor p j = Some dj
        /\ sd_start dj <= posx < sd_start dj + sd_size dj) as (j & dj & ? & Hj & ?).
      { destruct (u =? x) eqn:E1; zbool; [subst; simplify_eq; by exists i, d|].
        destruct (e =? x) eqn:E2; zbool; [subst; simplify_eq; exists i, d; split_and!; try done; lia|]. by apply (po_in _ _ _ HP). }
      exists j. destruct (i =? j) eqn:E; zbool.
      * subst j. exists d'. rewrite Hdesc, Z.eqb_refl. simplify_eq. unfold sd_end, d'. simpl. done.
      * exists dj. rewrite Hdesc. destruct (i =? j) eqn:E'; zbool; [done|]. done.
    + intros j dj y x. rewrite Hdesc, Hinv, Hposx. intros Hj Hy Hx.
      assert (exists dj', descriptor p j = Some dj' /\ sd_start dj' <= y < sd_start dj' + sd_size dj') as (dj' & Hj' & Hy').
      { destruct (i =? j) eqn:E; zbool; [subst; simplify_eq; by exists d|by exists dj]. }
      assert (forall z, element_at p y = Some z -> set_of p z = Some j) as Hown by (intros z; by apply (po_own _ _ _ HP j dj')).
      destruct (u =? x) eqn:E1; zbool; [subst; simplify_eq; rewrite Hui, <- Hi; by apply Hown|].
      destruct (e =? x) eqn:E2; zbool; [subst; simplify_eq; rewrite Hi, <- Hui; by apply Hown|]. apply Hown. by apply (po_inverse _ _ _ HP).
    + destruct (sd_markedCount d =? 0) eqn:E; zbool; [|apply HP]. apply NoDup_app. split_and!; [apply HP| |apply NoDup_singleton].
      intros j Hj ->%list_elem_of_singleton. apply (po_marked _ _ _ HP) in Hj as (d2 & ? & ?). simplify_eq. lia.
    + intros j. rewrite Hdesc.
      assert (j ∈ (if sd_markedCount d =? 0 then m_setsMarkedInCurrentGeneration p ++ [i] else m_setsMarkedInCurrentGeneration p)
        <-> j = i \/ j ∈ m_setsMarkedInCurrentGeneration p) as ->.
      { destruct (sd_markedCount d =? 0) eqn:E; zbool; [rewrite elem_of_app, list_elem_of_singleton; tauto|].
        split; [tauto|]. intros [->|]; [|done]. apply (po_marked _ _ _ HP). exists d. split; [done|lia]. }
      rewrite (po_marked _ _ _ HP). destruct (i =? j) eqn:E; zbool; [|naive_solver]. subst j.
      split; [intros _; exists d'; unfold d'; simpl; split; [done|lia]|tauto].
  - done.
  - unfold partition_size. simpl. by rewrite (vec_set_size _ _ _ _ Hsets').
  - intros x. unfold marked at 1. cbn [m_elementToSetMap m_elementPositionInPartitionedNodes m_sets]. rewrite Hposx.
    destruct (decide (x = e)) as [->|Hxe].
    { rewrite Z.eqb_refl, orb_true_r, Hi, Hdesc, Z.eqb_refl.
      destruct (u =? e) eqn:E; zbool; unfold d', indexAfterMarkedElements; simpl; apply Z.ltb_lt; subst; simplify_eq; lia. }
    rewrite (proj2 (Z.eqb_neq x e)), orb_false_r by done. unfold marked.
    destruct (u =? x) eqn:E1; zbool.
    { subst x. rewrite Hui, Hdesc, Z.eqb_refl, Hupos, Hd. unfold indexAfterMarkedElements, d'. simpl.
      rewrite (proj2 (Z.ltb_ge f _)) by lia. apply Z.ltb_ge. destruct (decide (pos = f)) as [->|]; [simplify_eq|lia]. }
    destruct (e =? x) eqn:E2; zbool; [done|]. destruct (set_of p x) as [j|] eqn:Ej; [|done].
    destruct (position_of p x) as [posx|] eqn:Ex; [|done]. rewrite Hdesc. destruct (i =? j) eqn:E; zbool; [|done]. subst j. rewrite Hd.
    unfold indexAfterMarkedElements, d'. simpl. fold f. assert (posx <> f) as Hne.
    { intros ->. apply (po_inverse _ _ _ HP) in Ex. congruence. }
    destruct (posx <? f) eqn:E; zbool; [apply Z.ltb_lt; lia|apply Z.ltb_ge; lia].
Qed.

Lemma markAll_spec n p es :
  partition_ok n (m_setsMarkedInCurrentGeneration p) p -> NoDup es -> (forall e, e ∈ es -> 0 <= e < n /\ marked p e = false) ->
  exists p', markAll p es = Some p' /\ partition_ok n (m_setsMarkedInCurrentGeneration p') p'
    /\ m_elementToSetMap p' = m_elementToSetMap p /\ partition_size p' = partition_size p
    /\ forall x, marked p' x = true <-> marked p x = true \/ x ∈ es.
Proof.
  unfold markAll. intros HP Hnd. revert p HP. induction Hnd as [|e es Hni Hnd IH]; intros p HP Hes; cbn [foldl].
  { exists p. split_and!; try done. intros x. rewrite elem_of_nil. tauto. }
  destruct (Hes e) as [He Hme]; [left|]. cbn [mbind option_bind].
  destruct (mark_spec n p e HP He Hme) as (p1 & -> & HP1 & Hmap1 & Hsz1 & Hm1). cbn [mbind option_bind].
  destruct (IH p1 HP1) as (p' & -> & HP' & Hmap' & Hsz' & Hm').
  { intros x Hx. destruct (Hes x) as [? Hmx]; [by right|]. split; [done|]. rewrite Hm1, Hmx. apply Z.eqb_neq. by intros ->. }
  exists p'. split_and!; try done; [congruence|lia|]. intros x. rewrite Hm', Hm1, orb_true_iff, Z.eqb_eq, elem_of_cons. tauto.
Qed.

(** ** Visiting a set *)

Lemma iterateSet_spec n todo p i : partition_ok n todo p -> 0 <= i < partition_size p ->
  exists es, iterateSet p i = Some es /\ NoDup es /\ forall e, e ∈ es <-> set_of p e = Some i.
Proof.
  intros HP Hi. destruct (vec_at_is_Some (m_sets p) i Hi) as [d Hd]. unfold iterateSet. rewrite Hd. cbn [mbind option_bind].
  destruct (po_interval _ _ _ HP i d Hd) as (H0 & H1 & H2 & _). unfold sd_end in H2.
  assert (exists es, mapM (vec_at (m_partitionedElements p)) (seqZ (sd_start d) (sd_size d)) = Some es) as [es Hes].
  { apply mapM_is_Some_2. apply Forall_forall. intros j Hj. apply elem_of_seqZ in Hj. apply vec_at_is_Some. rewrite (po_elements _ _ _ HP). lia. }
  exists es. split; [done|]. apply mapM_Some in Hes.
  assert (forall k e, es !! k = Some e -> element_at p (sd_start d + Z.of_nat k) = Some e /\ Z.of_nat k < sd_size d) as Hat.
  { intros k e Hk. destruct (Forall2_lookup_r _ _ _ _ _ Hes Hk) as (j & Hj & He). apply lookup_seqZ in Hj as [-> ?]. split; [done|lia]. }
  split.
  - apply NoDup_alt. intros k l e Hk Hl. apply Hat in Hk as [Hk _], Hl as [Hl _].
    apply (po_inverse _ _ _ HP) in Hk, Hl. simplify_eq. lia.
  - intros e. split.
    + intros [k Hk]%list_elem_of_lookup. apply Hat in Hk as [Hk ?]. eapply (po_own _ _ _ HP); [done| |done]. unfold sd_end. lia.
    + intros He. destruct (element_info n todo p e HP) as (j & d' & pos & ? & ? & Hpos & Hb & _).
      { rewrite <- (po_map _ _ _ HP). by eapply vec_at_bound. }
      simplify_eq. unfold sd_end in Hb. apply (po_inverse _ _ _ HP) in Hpos.
      assert (seqZ (sd_start d) (sd_size d) !! Z.to_nat (pos - sd_start d) = Some pos) as Hl by (apply lookup_seqZ; lia).
      destruct (Forall2_lookup_l _ _ _ _ _ Hes Hl) as (e' & He' & ?). simplify_eq. by eapply list_elem_of_lookup_2.
Qed.

Lemma firstElementInSet_spec n todo p i : partition_ok n todo p -> 0 <= i < partition_size p ->
  exists e, firstElementInSet p i = Some e /\ set_of p e = Some i.
Proof.
  intros HP Hi. destruct (vec_at_is_Some (m_sets p) i Hi) as [d Hd]. unfold firstElementInSet. rewrite Hd. cbn [mbind option_bind].
  destruct (po_interval _ _ _ HP i d Hd) as (H0 & H1 & H2 & _). unfold sd_end in H2.
  destruct (vec_at_is_Some (m_partitionedElements p) (sd_start d)) as [e He]; [rewrite (po_elements _ _ _ HP); lia|].
  exists e. split; [done|]. eapply (po_own _ _ _ HP); [done| |done]. unfold sd_end. lia.
Qed.

(** There are at most as many sets as elements. *)
Lemma partition_size_bound n todo p : partition_ok n todo p -> partition_size p <= n.
Proof.
  intros HP. pose proof (vec_size_nonneg (m_sets p)) as H0. fold (partition_size p) in H0.
  set (f i := default 0 (firstElementInSet p i)).
  assert (forall i, 0 <= i < partition_size p -> set_of p (f i) = Some i) as Hf.
  { intros i Hi. destruct (firstElementInSet_spec n todo p i HP Hi) as (e & He & ?). unfold f. by rewrite He. }
  assert (length (f <$> seqZ 0 (partition_size p)) <= length (seqZ 0 n))%nat as Hle.
  { apply submseteq_length, NoDup_submseteq.
    - apply NoDup_fmap_2_strong; [|apply NoDup_seqZ]. intros x y Hx Hy Hxy. apply elem_of_seqZ in Hx, Hy.
      pose proof (Hf x ltac:(lia)) as Hfx. rewrite Hxy, Hf in Hfx by lia. by injection Hfx.
    - intros e (i & -> & Hi)%list_elem_of_fmap. apply elem_of_seqZ in Hi. apply elem_of_seqZ.
      pose proof (Hf i ltac:(lia)) as He. apply vec_at_bound in He. rewrite (po_map _ _ _ HP) in He. lia. }
  rewrite length_fmap, !length_seqZ in Hle. pose proof (vec_size_nonneg (m_elementToSetMap p)) as Hn. rewrite (po_map _ _ _ HP) in Hn. lia.
Qed.

(** ** Splitting the marked sets *)

Definition within (d : SetDescriptor) (pos : Z) : bool := (sd_start d <=? pos) && (pos <? sd_end d).

Lemma within_spec d pos : within d pos = true <-> sd_start d <= pos < sd_end d.
Proof. unfold within. rewrite andb_true_iff, Z.leb_le, Z.ltb_lt. done. Qed.

Lemma moveToSet_spec n todo p newSet newSetIndex :
  partition_ok n todo p -> 0 <= sd_start newSet -> sd_end newSet <= n ->
  exists map, moveToSet p newSet newSetIndex (m_elementToSetMap p) = Some map /\ vec_size map = n
    /\ forall e pos, position_of p e = Some pos -> vec_at map e = if within newSet pos then Some newSetIndex else set_of p e.
Proof.
  intros HP H0 H1. unfold moveToSet, sd_end in *.
  destruct (foldl_option_inv (λ map i, element ← vec_at (m_partitionedElements p) i; vec_set map element newSetIndex)
    (λ pre map, vec_size map = n /\ forall e pos, position_of p e = Some pos ->
       vec_at map e = if bool_decide (pos ∈ pre) then Some newSetIndex else set_of p e)
    (seqZ (sd_start newSet) (sd_size newSet)) (m_elementToSetMap p)) as (map & Hmap & Hsz & Hat).
  - split; [apply HP|]. intros e pos _. by rewrite bool_decide_false by apply not_elem_of_nil.
  - intros pre i rest map Heq [Hsz Hat].
    assert (i ∈ seqZ (sd_start newSet) (sd_size newSet)) as Hi%elem_of_seqZ by (rewrite Heq; set_solver).
    destruct (vec_at_is_Some (m_partitionedElements p) i) as [e He]; [rewrite (po_elements _ _ _ HP); lia|].
    rewrite He. cbn [mbind option_bind]. apply (po_inverse _ _ _ HP) in He.
    destruct (vec_set_is_Some map e newSetIndex) as [map' Hmap'].
    { rewrite Hsz, <- (po_positions _ _ _ HP). by eapply vec_at_bound. }
    exists map'. split; [done|]. split; [by rewrite (vec_set_size _ _ _ _ Hmap')|]. intros e' pos' He'.
    rewrite (vec_set_spec _ _ _ _ _ Hmap'). destruct (e =? e') eqn:E; zbool.
    + subst e'. simplify_eq. by rewrite bool_decide_true by set_solver.
    + rewrite (Hat e' pos' He'). rewrite (bool_decide_ext (pos' ∈ pre) (pos' ∈ pre ++ [i])); [done|].
      rewrite elem_of_app, list_elem_of_singleton.
      split; [tauto|]. intros [|]; [done|subst]. apply (po_inverse _ _ _ HP) in He, He'. congruence.
  - exists map. split_and!; try done. intros e pos He. rewrite (Hat e pos He).
    replace (within newSet pos) with (bool_decide (pos ∈ seqZ (sd_start newSet) (sd_size newSet))); [done|].
    apply eq_true_iff_eq. rewrite bool_decide_eq_true, elem_of_seqZ, within_spec. unfold sd_end. done.
Qed.

(** The two parts of a set that has marked and unmarked elements. *)
Lemma splitDescriptor_spec n d rest newSet :
  splitDescriptor d = (rest, newSet) -> 0 <= sd_start d -> sd_end d <= n -> 0 < sd_markedCount d < sd_size d ->
  exists b : bool, sd_markedCount rest = 0 /\ sd_markedCount newSet = 0 /\ 0 < sd_size rest /\ 0 < sd_size newSet
    /\ 0 <= sd_start rest /\ sd_end rest <= n /\ 0 <= sd_start newSet /\ sd_end newSet <= n
    /\ forall pos, sd_start d <= pos < sd_end d ->
         within newSet pos = eqb (pos <? indexAfterMarkedElements d) b /\ within rest pos = negb (within newSet pos).
Proof.
  unfold splitDescriptor, sd_end, within, indexAfterMarkedElements. intros [= <- <-] H0 H1 H2.
  exists (sd_markedCount d * 2 <=? sd_size d). unfold sd_end. destruct (sd_markedCount d * 2 <=? sd_size d) eqn:E; zbool; simpl;
    split_and!; try lia; intros pos Hpos; destruct (pos <? _) eqn:E1; simpl; zbool;
    rewrite ?andb_true_iff, ?andb_false_iff, ?negb_andb, ?orb_true_iff, ?orb_false_iff, ?negb_true_iff, ?negb_false_iff,
      ?Z.leb_le, ?Z.ltb_lt, ?Z.leb_gt, ?Z.ltb_ge; lia.
Qed.

(** What a step of [refineGeneration] for the set [i] does to the sets. *)
Definition split_set (i : Z) (q q' : Partition) (b : bool) : Prop :=
  partition_size q' = partition_size q + 1
  /\ forall e, set_of q' e = if bool_decide (set_of q e = Some i) && eqb (marked q e) b then Some (partition_size q) else set_of q e.

Definition clears_marks (i : Z) (q q' : Partition) : Prop :=
  forall e, marked q' e = marked q e && negb (bool_decide (set_of q e = Some i)).

Lemma clear_marks_spec n i todo q d sets :
  partition_ok n (i :: todo) q -> descriptor q i = Some d ->
  vec_set (m_sets q) i (mkSetDescriptor (sd_start d) (sd_size d) 0) = Some sets ->
  let q' := mkPartition sets (m_partitionedElements q) (m_elementPositionInPartitionedNodes q) (m_elementToSetMap q)
              (m_setsMarkedInCurrentGeneration q) in
  partition_ok n todo q' /\ clears_marks i q q'.
Proof.
  intros HP Hd Hset q'. assert (forall j, vec_at sets j = if i =? j then Some (mkSetDescriptor (sd_start d) (sd_size d) 0) else descriptor q j) as Hdesc
    by (intros j; by apply vec_set_spec).
  pose proof (po_todo _ _ _ HP) as [Hni Hnd]%NoDup_cons. split.
  - split; try apply HP; try done; cbn [q' m_sets].
    + intros j dj. rewrite Hdesc. destruct (i =? j) eqn:E; zbool; [|apply HP]. intros [= <-].
      pose proof (po_interval _ _ _ HP i d Hd). unfold sd_end in *. simpl. lia.
    + intros e pos He. destruct (po_in _ _ _ HP e pos He) as (j & dj & Hj & Hdj & Hb). exists j. rewrite Hdesc.
      destruct (i =? j) eqn:E; zbool; [subst; simplify_eq; by eexists|by exists dj].
    + intros j dj pos e. rewrite Hdesc. destruct (i =? j) eqn:E; zbool; [|apply HP]. subst j. intros [= <-] Hb He. exact (po_own _ _ _ HP i d pos e Hd Hb He).
    + intros j. rewrite Hdesc. pose proof (po_marked _ _ _ HP j) as Hm. rewrite elem_of_cons in Hm.
      destruct (i =? j) eqn:E; zbool; [|naive_solver]. subst j. split; [done|]. intros (? & [= <-] & Hc). simpl in Hc. lia.
  - intros e. unfold marked, q'. cbn [m_elementToSetMap m_elementPositionInPartitionedNodes m_sets].
    destruct (set_of q e) as [j|] eqn:Ej; [|done]. destruct (position_of q e) as [pos|] eqn:Ep; [|done]. rewrite Hdesc.
    destruct (i =? j) eqn:E; zbool.
    + subst j. rewrite bool_decide_true by done. rewrite andb_false_r. apply Z.ltb_ge. unfold indexAfterMarkedElements. simpl.
      destruct (po_in _ _ _ HP e pos Ep) as (? & ? & ? & ? & ?). simplify_eq. lia.
    + rewrite bool_decide_false by congruence. by rewrite andb_true_r.
Qed.

Section Splitting.
Context (n i : Z) (todo : list Z) (q : Partition) (d rest newSet : SetDescriptor) (sets : list SetDescriptor) (map : list Z).
Hypothesis HP : partition_ok n (i :: todo) q.
Hypothesis Hd : descriptor q i = Some d.
Hypothesis Hcount : sd_markedCount d <> sd_size d.
Hypothesis Hsplit : splitDescriptor d = (rest, newSet).
Hypothesis Hsets : vec_set (m_sets q) i rest = Some sets.
Hypothesis Hsz : vec_size map = vec_size (m_elementToSetMap q).
Hypothesis Hmap : forall e pos, position_of q e = Some pos ->
  vec_at map e = if within newSet pos then Some (vec_size sets) else set_of q e.

Definition split_partition : Partition :=
  mkPartition (sets ++ [newSet]) (m_partitionedElements q) (m_elementPositionInPartitionedNodes q) map
    (m_setsMarkedInCurrentGeneration q).

Lemma split_parts : exists b : bool, sd_markedCount rest = 0 /\ sd_markedCount newSet = 0 /\ 0 < sd_size rest /\ 0 < sd_size newSet
    /\ 0 <= sd_start rest /\ sd_end rest <= n /\ 0 <= sd_start newSet /\ sd_end newSet <= n
    /\ forall pos, sd_start d <= pos < sd_end d ->
         within newSet pos = eqb (pos <? indexAfterMarkedElements d) b /\ within rest pos = negb (within newSet pos).
Proof.
  destruct (po_interval _ _ _ HP i d Hd) as (? & ? & ? & ?).
  destruct (proj1 (po_marked _ _ _ HP i)) as (d' & Hd' & ?); [left|]. rewrite Hd in Hd'. injection Hd' as <-.
  apply (splitDescriptor_spec n d rest newSet Hsplit); lia.
Qed.

Lemma split_within d' pos : within d' pos = true -> d' = rest \/ d' = newSet -> sd_start d <= pos < sd_end d.
Proof.
  rewrite within_spec. revert Hsplit. unfold splitDescriptor, sd_end. intros [= <- <-].
  destruct (po_interval _ _ _ HP i d Hd) as (? & ? & ? & ?). unfold sd_end in *. simpl.
  destruct (sd_markedCount d * 2 <=? sd_size d); intros Hp [-> | ->]; simpl in *; lia.
Qed.

Lemma split_descriptor j : descriptor split_partition j =
  if j =? vec_size sets then Some newSet else if i =? j then Some rest else descriptor q j.
Proof. unfold split_partition. cbn [m_sets]. by rewrite vec_at_snoc_case, (vec_set_spec _ _ _ _ j Hsets). Qed.

Lemma split_index_fresh : vec_size sets = partition_size q /\ descriptor q (vec_size sets) = None /\ i <> vec_size sets.
Proof.
  pose proof (vec_set_size _ _ _ _ Hsets) as Hs. unfold partition_size. split; [done|].
  split; [|apply vec_at_bound in Hd; lia]. destruct (descriptor q (vec_size sets)) eqn:E; [apply vec_at_bound in E; lia|done].
Qed.

Lemma split_ok : partition_ok n todo split_partition.
Proof.
  destruct split_parts as (b & Hr0 & Hn0 & Hr1 & Hn1 & Hr2 & Hr3 & Hn2 & Hn3 & Hpos).
  destruct split_index_fresh as (Hs & Hfresh & Hne).
  assert (forall e pos, position_of q e = Some pos -> sd_start d <= pos < sd_end d -> set_of q e = Some i) as Hin.
  { intros e pos He Hb. eapply (po_own _ _ _ HP); [done|done|]. by apply (po_inverse _ _ _ HP). }
  pose proof (po_todo _ _ _ HP) as [Hni Hnd]%NoDup_cons.
  split; try apply HP; try done.
  - cbn [split_partition m_elementToSetMap]. rewrite Hsz. apply HP.
  - intros j dj. rewrite split_descriptor. destruct (j =? _) eqn:E1; zbool; [intros [= <-]; lia|].
    destruct (i =? j) eqn:E2; zbool; [intros [= <-]; lia|apply HP].
  - intros e pos He. change (position_of split_partition e) with (position_of q e) in He. change (set_of split_partition e) with (vec_at map e).
    rewrite (Hmap e pos He). destruct (within newSet pos) eqn:Ew.
    { exists (vec_size sets), newSet. rewrite split_descriptor, Z.eqb_refl. split_and!; try done; by apply within_spec. }
    destruct (po_in _ _ _ HP e pos He) as (j & dj & Hj & Hdj & Hb). exists j.
    rewrite split_descriptor. destruct (j =? _) eqn:E1; zbool; [congruence|]. destruct (i =? j) eqn:E2; zbool; [|by exists dj].
    subst j. rewrite Hd in Hdj. injection Hdj as <-. exists rest. split_and!; try done; apply within_spec; destruct (Hpos pos Hb) as [_ ->]; by rewrite Ew.
  - intros j dj pos e. rewrite split_descriptor. change (element_at split_partition pos) with (element_at q pos).
    change (set_of split_partition e) with (vec_at map e). intros Hj Hb He%(po_inverse _ _ _ HP). rewrite (Hmap e pos He).
    destruct (j =? _) eqn:E1; zbool.
    { injection Hj as <-. subst j. by rewrite (proj2 (within_spec _ _) Hb). }
    destruct (i =? j) eqn:E2; zbool.
    + injection Hj as <-. subst j. apply within_spec in Hb as Hw. pose proof (split_within _ _ Hw (or_introl eq_refl)) as Hb'.
      destruct (Hpos pos Hb') as [_ Hw']. rewrite Hw in Hw'. destruct (within newSet pos); [done|]. by apply (Hin e pos).
    + destruct (within newSet pos) eqn:Ew.
      * pose proof (split_within _ _ Ew (or_intror eq_refl)) as Hb'. pose proof (Hin e pos He Hb').
        apply (po_inverse _ _ _ HP) in He. pose proof (po_own _ _ _ HP j dj pos e Hj Hb He). congruence.
      * apply (po_inverse _ _ _ HP) in He. by apply (po_own _ _ _ HP j dj pos e).
  - intros j. rewrite split_descriptor. pose proof (po_marked _ _ _ HP j) as Hm. rewrite elem_of_cons in Hm.
    destruct (j =? _) eqn:E1; zbool; [subst j; rewrite Hfresh in Hm; split; [naive_solver|intros (? & [= <-] & ?); lia]|].
    destruct (i =? j) eqn:E2; zbool; [|naive_solver]. subst j. split; [done|]. intros (? & [= <-] & ?). lia.
Qed.

Lemma split_sets : exists b, split_set i q split_partition b.
Proof.
  destruct split_parts as (b & _ & _ & _ & _ & _ & _ & _ & _ & Hpos). destruct split_index_fresh as (Hs & Hfresh & Hne).
  exists b. split. { unfold partition_size at 1. cbn [split_partition m_sets]. rewrite vec_size_app, Hs. done. }
  intros e. change (set_of split_partition e) with (vec_at map e). rewrite <- Hs.
  destruct (decide (0 <= e < n)) as [He|He].
  2:{ assert (set_of q e = None) as ->. { destruct (set_of q e) eqn:E; [|done]. apply vec_at_bound in E. rewrite (po_map _ _ _ HP) in E. lia. }
      rewrite bool_decide_false by done. destruct (vec_at map e) eqn:E; [apply vec_at_bound in E; rewrite Hsz, (po_map _ _ _ HP) in E; lia|done]. }
  destruct (element_info _ _ q e HP He) as (j & dj & pos & Hj & Hdj & Hp & Hb & Hm). rewrite (Hmap e pos Hp), Hj, Hm.
  case_bool_decide as Hji; cbn [andb].
  - injection Hji as ->. rewrite Hd in Hdj. injection Hdj as <-. destruct (Hpos pos Hb) as [-> _]. done.
  - destruct (within newSet pos) eqn:Ew; [|done]. pose proof (split_within _ _ Ew (or_intror eq_refl)) as Hb'.
    apply (po_inverse _ _ _ HP) in Hp. pose proof (po_own _ _ _ HP i d pos e Hd Hb' Hp). congruence.
Qed.

Lemma split_clears_marks : clears_marks i q split_partition.
Proof.
  destruct split_parts as (b & Hr0 & Hn0 & _ & _ & _ & _ & _ & _ & Hpos). destruct split_index_fresh as (Hs & Hfresh & Hne).
  intros e. unfold marked at 1. change (set_of split_partition e) with (vec_at map e).
  change (position_of split_partition e) with (position_of q e). destruct (position_of q e) as [pos|] eqn:Ep.
  2:{ unfold marked. rewrite Ep. destruct (vec_at map e), (set_of q e); done. }
  rewrite (Hmap e pos Ep). destruct (po_in _ _ _ HP e pos Ep) as (j & dj & Hj & Hdj & Hb).
  unfold marked. rewrite Hj, Ep, Hdj. destruct (within newSet pos) eqn:Ew.
  - rewrite split_descriptor, Z.eqb_refl. apply within_spec in Ew as Hw. pose proof (split_within _ _ Ew (or_intror eq_refl)) as Hb'.
    apply (po_inverse _ _ _ HP) in Ep. pose proof (po_own _ _ _ HP i d pos e Hd Hb' Ep) as Hown. rewrite Hj in Hown. injection Hown as ->.
    rewrite bool_decide_true by done. rewrite andb_false_r. unfold indexAfterMarkedElements. apply Z.ltb_ge. lia.
  - rewrite split_descriptor. destruct (j =? _) eqn:E1; zbool; [congruence|]. destruct (i =? j) eqn:E2; zbool.
    + subst j. rewrite Hd in Hdj. injection Hdj as <-. rewrite bool_decide_true by done. rewrite andb_false_r. unfold indexAfterMarkedElements. apply Z.ltb_ge.
      destruct (Hpos pos Hb) as [_ Hw]. rewrite Ew in Hw. apply within_spec in Hw. lia.
    + rewrite Hdj, bool_decide_false by congruence. by rewrite andb_true_r.
Qed.
End Splitting.

Lemma refineSet_spec {S} (f : Partition -> Z -> S -> option S) n i todo q : partition_ok n (i :: todo) q ->
  exists q', partition_ok n todo q' /\ m_setsMarkedInCurrentGeneration q' = m_setsMarkedInCurrentGeneration q /\ clears_marks i q q'
    /\ ((partition_size q' = partition_size q /\ m_elementToSetMap q' = m_elementToSetMap q
         /\ (forall e, set_of q e = Some i -> marked q e = true) /\ forall s, refineSet f (q, s) i = Some (q', s))
        \/ exists b, split_set i q q' b /\ forall s, refineSet f (q, s) i = (s' ← f q' (partition_size q) s; Some (q', s'))).
Proof.
  intros HP. destruct (proj1 (po_marked _ _ _ HP i)) as (d & Hd & Hm); [left|].
  pose proof (vec_at_bound _ _ _ Hd) as Hi. unfold refineSet. rewrite Hd. cbn [mbind option_bind].
  destruct (sd_markedCount d =? sd_size d) eqn:Ec; zbool.
  - destruct (vec_set_is_Some (m_sets q) i (mkSetDescriptor (sd_start d) (sd_size d) 0) Hi) as [sets Hsets].
    destruct (clear_marks_spec n i todo q d sets HP Hd Hsets) as [HP' Hclear]. eexists. split_and!; [exact HP'|done|exact Hclear|].
    left. split_and!; [unfold partition_size; simpl; by rewrite (vec_set_size _ _ _ _ Hsets)|done| |intros s; by rewrite Hsets].
    intros e He. destruct (element_info _ _ q e HP) as (j & dj & pos & ? & ? & ? & Hb & ->).
    { rewrite <- (po_map _ _ _ HP). by eapply vec_at_bound. }
    simplify_eq. unfold indexAfterMarkedElements, sd_end in *. apply Z.ltb_lt. lia.
  - destruct (splitDescriptor d) as [rest newSet] eqn:Hsplit.
    destruct (vec_set_is_Some (m_sets q) i rest Hi) as [sets Hsets].
    destruct (split_parts n i todo q d rest newSet HP Hd Ec Hsplit) as (b' & _ & _ & _ & _ & _ & _ & Hn2 & Hn3 & _).
    destruct (moveToSet_spec n _ q newSet (vec_size sets) HP Hn2 Hn3) as (map & Hmap & Hsz & Hat).
    rewrite <- (po_map _ _ _ HP) in Hsz.
    exists (split_partition q newSet sets map). split_and!; [by eapply split_ok|done|by eapply split_clears_marks|]. right.
    destruct (split_sets n i todo q d rest newSet sets map HP Hd Ec Hsplit Hsets Hsz Hat) as [b Hb]. exists b. split; [done|]. intros s.
    rewrite Hsets. cbn [mbind option_bind]. rewrite Hmap. cbn [mbind option_bind]. unfold partition_size.
    by rewrite <- (vec_set_size _ _ _ _ Hsets).
Qed.

(** Elements of the same set that are both marked or both unmarked stay together. *)
Definition keeps (p q : Partition) : Prop :=
  forall u v, set_of p u = set_of p v -> marked p u = marked p v -> set_of q u = set_of q v.

(** The sets of [p'] are parts of those of [p], split exactly by the marks;
    indices of sets are kept or new. *)
Record refines (p p' : Partition) : Prop := {
  refines_keeps : keeps p p';
  refines_parts : forall u v, set_of p' u = set_of p' v -> set_of p u = set_of p v /\ marked p u = marked p v;
  refines_index : forall e, set_of p' e = set_of p e \/ exists j, set_of p' e = Some j /\ partition_size p <= j;
  refines_size : partition_size p <= partition_size p'
}.

(** Between two iterations: [pre] was processed, [todo] was not. *)
Record refining (p : Partition) (pre todo : list Z) (q : Partition) : Prop := {
  rf_keeps : keeps p q;
  rf_marks : forall e j, set_of p e = Some j -> j ∉ pre -> marked q e = marked p e;
  rf_parts : forall u v, set_of q u = set_of q v ->
    set_of p u = set_of p v /\ (marked p u = marked p v \/ exists j, j ∈ todo /\ set_of q u = Some j);
  rf_index : forall e, set_of q e = set_of p e \/ exists j, set_of q e = Some j /\ partition_size p <= j;
  rf_size : partition_size p <= partition_size q
}.

Lemma refining_step n p pre i todo q q' :
  partition_ok n (i :: todo) q -> i ∉ pre -> 0 <= i < partition_size p -> refining p pre (i :: todo) q -> clears_marks i q q' ->
  (partition_size q' = partition_size q /\ m_elementToSetMap q' = m_elementToSetMap q /\ (forall e, set_of q e = Some i -> marked q e = true)
   \/ exists b, split_set i q q' b) ->
  refining p (pre ++ [i]) todo q'.
Proof.
  intros HP Hpre Hi HR Hclear Hcase.
  assert (forall e, set_of q e = Some i -> set_of p e = Some i /\ marked q e = marked p e) as Hold.
  { intros e He. assert (set_of p e = Some i) as Hp by (destruct (rf_index _ _ _ _ HR e) as [<-|(j & ? & ?)]; [done|simplify_eq; lia]).
    split; [done|]. by apply (rf_marks _ _ _ _ HR e i). }
  assert (forall e j, set_of p e = Some j -> j ∉ pre ++ [i] -> marked q' e = marked p e) as Hmarks.
  { intros e j He Hj. rewrite elem_of_app, list_elem_of_singleton in Hj. rewrite Hclear, (rf_marks _ _ _ _ HR e j He) by tauto.
    rewrite bool_decide_false; [by rewrite andb_true_r|]. intros [Hp _]%Hold. simplify_eq. tauto. }
  destruct Hcase as [(Hsz & Hmap & Hall)|(b & Hsz & Hset)].
  - split; [unfold keeps; rewrite Hmap; apply HR|exact Hmarks| | |rewrite Hsz; apply HR]; rewrite Hmap; [|apply HR].
    intros u v Huv. destruct (rf_parts _ _ _ _ HR u v Huv) as [? Hm]. split; [done|].
    destruct Hm as [|(j & [->|]%elem_of_cons & Hj)]; [by left| |right; by exists j].
    left. rewrite Huv in Hj. destruct (Hold v Hj) as [_ <-]. rewrite <- Huv in Hj. destruct (Hold u Hj) as [_ <-].
    rewrite Hall by done. rewrite Huv in Hj. by rewrite Hall.
  - assert (forall e, set_of q' e = set_of q e /\ (set_of q e = Some i -> marked q e = negb b)
      \/ set_of q' e = Some (partition_size q) /\ set_of q e = Some i /\ marked q e = b) as Hc.
    { intros e. rewrite Hset. case_bool_decide as He; cbn [andb]; [|left; tauto].
      destruct (eqb (marked q e) b) eqn:E; [right; apply eqb_prop in E; done|left]. split; [done|]. intros _.
      by destruct (marked q e), b. }
    assert (forall e, set_of q e <> Some (partition_size q)) as Hb.
    { intros e He. apply (set_of_bound _ _ _ _ _ HP) in He. lia. }
    split; [|exact Hmarks| | |pose proof (rf_size _ _ _ _ HR); lia].
    + intros u v Huv Hm. pose proof (rf_keeps _ _ _ _ HR u v Huv Hm) as Hq. rewrite !Hset, <- Hq.
      case_bool_decide as Hi'; [|done]. destruct (Hold u Hi') as [_ ->]. rewrite Hq in Hi'. destruct (Hold v Hi') as [_ ->]. by rewrite Hm.
    + intros u v Huv. destruct (Hc u) as [[Hu Hmu]|(Hu & Hu' & Hmu)], (Hc v) as [[Hv Hmv]|(Hv & Hv' & Hmv)]; rewrite Hu, Hv in Huv.
      * destruct (rf_parts _ _ _ _ HR u v Huv) as [? Hm]. split; [done|].
        destruct Hm as [|(j & [->|]%elem_of_cons & Hj)]; [by left| |right; exists j; by rewrite Hu].
        left. destruct (Hold u Hj) as [_ <-]. rewrite Hmu by done. rewrite Huv in Hj. destruct (Hold v Hj) as [_ <-]. by rewrite Hmv.
      * by apply Hb in Huv.
      * symmetry in Huv. by apply Hb in Huv.
      * destruct (rf_parts _ _ _ _ HR u v) as [? _]; [congruence|]. split; [done|]. left.
        destruct (Hold u Hu') as [_ <-], (Hold v Hv') as [_ <-]. congruence.
    + intros e. destruct (Hc e) as [[-> _]|(-> & _)]; [apply HR|]. right. eexists. split; [done|]. apply HR.
Qed.

(** The rule for [refineGeneration]: an invariant of the sets and of the state
    that the calls of the function keep. *)
Lemma refineGeneration_spec {S} (f : Partition -> Z -> S -> option S) (Inv : Partition -> S -> Prop) n p s :
  partition_ok n (m_setsMarkedInCurrentGeneration p) p -> Inv p s ->
  (forall q q' s, m_elementToSetMap q' = m_elementToSetMap q -> Inv q s -> Inv q' s) ->
  (forall i todo q q' s b, partition_ok n (i :: todo) q -> partition_ok n todo q' -> split_set i q q' b -> keeps p q' -> Inv q s ->
     exists s', f q' (partition_size q) s = Some s' /\ Inv q' s') ->
  exists p' s', refineGeneration f p s = Some (p', s') /\ partition_ok n [] p' /\ m_setsMarkedInCurrentGeneration p' = []
    /\ refines p p' /\ Inv p' s'.
Proof.
  intros HP HI Hmap Hf. unfold refineGeneration. set (idx := m_setsMarkedInCurrentGeneration p).
  destruct (foldl_option_inv (refineSet f) (λ pre '(q, s), forall todo, idx = pre ++ todo ->
      partition_ok n todo q /\ refining p pre todo q /\ Inv q s) idx (p, s)) as ([p' s'] & -> & HI').
  - intros todo Htodo. cbn [app] in Htodo. subst todo. split_and!; [done| |done]. split; [by intros u v|done| | |lia]; [|by left].
    intros u v Huv. split; [done|]. destruct (decide (0 <= u < n)) as [Hu|Hu].
    2:{ assert (set_of p u = None) as Hn. { destruct (set_of p u) eqn:E; [|done]. apply vec_at_bound in E. rewrite (po_map _ _ _ HP) in E. lia. }
        left. unfold marked. rewrite <- Huv, Hn. done. }
    destruct (element_info _ _ p u HP Hu) as (i & d & pos & Hi & Hd & Hpos & Hb & ->).
    destruct (element_info _ _ p v HP) as (i' & d' & pos' & Hi' & Hd' & Hpos' & Hb' & ->).
    { rewrite Hi in Huv. rewrite <- (po_map _ _ _ HP). by eapply vec_at_bound. }
    rewrite Hi, Hi' in Huv. injection Huv as <-. rewrite Hd in Hd'. injection Hd' as <-. destruct (decide (0 < sd_markedCount d)) as [Hc|Hc].
    + right. exists i. split; [|done]. apply (po_marked _ _ _ HP). by exists d.
    + left. rewrite !(proj2 (Z.ltb_ge _ _)) by (unfold indexAfterMarkedElements; lia). done.
  - intros pre i todo [q s1] Heq HI1. destruct (HI1 (i :: todo) Heq) as (HPq & HR & HIq).
    assert (i ∉ pre) as Hpre.
    { pose proof (po_todo _ _ _ HP) as Hnd. fold idx in Hnd. rewrite Heq in Hnd. apply NoDup_app in Hnd as (_ & Hnd & _).
      intros Hin. apply (Hnd i Hin). left. }
    assert (0 <= i < partition_size p) as Hi.
    { destruct (proj1 (po_marked _ _ _ HP i)) as (d & Hd & _); [fold idx; rewrite Heq; set_solver|]. by eapply vec_at_bound. }
    destruct (refineSet_spec f n i todo q HPq) as (q' & HPq' & _ & Hclear & Hcase).
    assert (forall s', Inv q' s' -> (partition_size q' = partition_size q /\ m_elementToSetMap q' = m_elementToSetMap q
        /\ (forall e, set_of q e = Some i -> marked q e = true) \/ exists b, split_set i q q' b) ->
      forall todo', idx = (pre ++ [i]) ++ todo' -> partition_ok n todo' q' /\ refining p (pre ++ [i]) todo' q' /\ Inv q' s') as Hnext.
    { intros s' Hs' Hc todo' Heq'. rewrite Heq, <- app_assoc in Heq'. apply app_inv_head in Heq'. cbn [app] in Heq'. injection Heq' as <-.
      split_and!; [done|by eapply refining_step|done]. }
    destruct Hcase as [(Hsz & Hm & Hall & Hs)|(b & Hb & Hs)].
    + exists (q', s1). rewrite Hs. split; [done|]. apply Hnext; [by eapply Hmap|]. left. done.
    + assert (keeps p q') as Hkeep by (eapply (rf_keeps p (pre ++ [i]) todo), refining_step; try done; right; by exists b).
      destruct (Hf i todo q q' s1 b HPq HPq' Hb Hkeep HIq) as (s2 & Hs2 & HI2). exists (q', s2). rewrite Hs, Hs2. split; [done|].
      apply Hnext; [done|]. right. by exists b.
  - cbn [mbind option_bind]. destruct (HI' []) as (HP' & HR & HIp'); [by rewrite app_nil_r|]. eexists _, s'. split; [done|].
    split_and!; [|done| |by apply (Hmap p')].
    + destruct HP'. by split.
    + split; cbn [m_elementToSetMap m_sets]; try apply HR. intros u v Huv. destruct (rf_parts _ _ _ _ HR u v Huv) as [? [?|(j & Hj & _)]]; [done|].
      by apply elem_of_nil in Hj.
Qed.

Lemma unmarked n p e : partition_ok n [] p -> marked p e = false.
Proof.
  intros HP. unfold marked. destruct (set_of p e) as [i|] eqn:Ei; [|done]. destruct (position_of p e) as [pos|] eqn:Ep; [|done].
  destruct (po_in _ _ _ HP e pos Ep) as (j & d & ? & Hd & ?). simplify_eq. rewrite Hd. apply Z.ltb_ge. unfold indexAfterMarkedElements.
  destruct (decide (0 < sd_markedCount d)) as [Hm|Hm]; [|lia].
  assert (i ∈ []) as Hi by (apply (po_marked _ _ _ HP); by exists d). by apply elem_of_nil in Hi.
Qed.
