(* ===== verification/DFAMinimizer.v ===== *)
(** * Minimizing automata

    Models [DFAMinimizer.cpp] of [src/Source/WebCore/contentextensions/]: the
    partition of the nodes of a DFA is refined until nodes of the same set have
    the same actions and transitions to the same sets; then each set is replaced
    by one of its nodes.  [FullGraphPartition] also keeps the transitions in a
    partition, which starts with one set for each range of characters that no
    transition distinguishes.  [None] is an access outside a vector or the end
    of the fuel of the main loop; the counters are assumed to stay below 2^32. *)

From stdpp Require Import base numbers option list list_numbers gmap sets.
From Stdlib Require Import ZArith Lia.
From S2P Require Import Prelude.
From S2P Require Import DFA.
From S2P Require Import MutableRangeList.
From S2P Require Import NFA.
From S2P Require Import Partition.

(** ** Ranges of characters *)

(** [while (singularTransitionsFirsts[index] != firstCharacter) ++index], on the
    elements that are left. *)
Fixpoint skipToFirst (firstCharacter : Z) (rest : list Z) (index : Z) : list Z * Z :=
  match rest with
  | [] => ([], index)
  | f :: rest' => if f =? firstCharacter then (rest, index) else skipToFirst firstCharacter rest' (index + 1)
  end.

(** The indices from [index] on whose ranges start up to [lastCharacter]. *)
Fixpoint indicesUntil (lastCharacter : Z) (rest : list Z) (index : Z) : list Z * list Z * Z :=
  match rest with
  | [] => ([], [], index)
  | f :: rest' =>
      if f <=? lastCharacter then
        let '(called, rest, next) := indicesUntil lastCharacter rest' (index + 1) in (index :: called, rest, next)
      else ([], rest, index)
  end.

(** [iterateIntersections], as the list of the calls of the handler. *)
Fixpoint intersectionsFrom (rest : list Z) (index : Z) (transitions : list (CharRange * Z)) : list (Z * Z) :=
  match transitions with
  | [] => []
  | (range, target) :: transitions =>
      let '(rest, index) := skipToFirst (cr_first range) rest index in
      let '(called, rest, next) := indicesUntil (cr_last range) (tail rest) (index + 1) in
      ((λ i, (i, target)) <$> index :: called) ++ intersectionsFrom rest next transitions
  end.

Definition iterateIntersections (singularTransitionsFirsts : list Z) (transitions : list (CharRange * Z)) : list (Z * Z) :=
  intersectionsFrom singularTransitionsFirsts 0 transitions.

(** [CounterConverter] *)
Definition counter_convert (_ : Z) : Z := 1.
Definition counter_extend (destination : Z) (_ : Z) : Z := destination + 1.

(** The transitions of a node as the range lists see them. *)
Definition as_ranges (ts : list (CharRange * Z)) : list (OtherRange Z) :=
  (λ t, mkOtherRange (cr_first t.1) (cr_last t.1) t.2) <$> ts.

(** ** [FullGraphPartition] *)

Record FullGraphPartition := mkFullGraphPartition {
  m_flattenedTransitionsStartOffsetPerNode : list Z;
  m_flattenedTransitionsSizePerNode : list Z;
  m_flattenedTransitions : list Z;
  m_nodePartition : Partition;
  m_transitionPartition : Partition;
  m_nextTransitionSetToProcess : Z
}.

(** The transitions of the nodes that are not killed, with the nodes' indices. *)
Definition liveTransitions (dfa : DFA) : option (list (Z * list (CharRange * Z))) :=
  foldl (λ acc i, acc ← acc;
           node ← vec_at (dfa_nodes dfa) i;
           if isKilled node then Some acc else ts ← node_transitions dfa node; Some (acc ++ [(i, ts)]))
    (Some []) (seqZ 0 (vec_size (dfa_nodes dfa))).

Definition singularTransitions (nodes : list (Z * list (CharRange * Z))) : option (list (MutableRange Z)) :=
  foldl (λ acc node, acc ← acc; extend counter_convert counter_extend acc (as_ranges node.2)) (Some []) nodes.

(** The loop that makes one set for each range; the accumulator is the sum of
    the sizes. *)
Definition addTransitionSets (ranges : list (MutableRange Z)) : Partition * Z :=
  foldl (λ '(p, rangeIndexAccumulator) range,
           (addSetUnchecked p rangeIndexAccumulator (mr_data range), rangeIndexAccumulator + mr_data range))
    (emptyPartition, 0) ranges.

Definition increment (v : list Z) (i : Z) : option (list Z) := x ← vec_at v i; vec_set v i (x + 1).

(** The number of incoming transitions of each node. *)
Definition countIncoming (size : nat) (calls : list (Z * Z)) : option (list Z) :=
  foldl (λ counts call, counts ← counts; increment counts call.2) (Some (replicate size 0)) calls.

(** Counts to start offsets. *)
Definition accumulateOffsets (counts : list Z) : list Z * Z :=
  foldl (λ '(offsets, transitionAccumulator) count, (offsets ++ [transitionAccumulator], transitionAccumulator + count)) ([], 0) counts.

Record FillState := mkFillState {
  fs_flattened : list Z;
  fs_sizePerNode : list Z;
  fs_offsetPerRange : list Z;
  fs_partition : Partition
}.

(** The handler of the last loop of the constructor, for a transition of the node [i]. *)
Definition fillTransition (startOffsets : list Z) (i : Z) (st : FillState) (call : Z * Z) : option FillState :=
  let '(singularTransitionIndex, targetNodeIndex) := call in
  start ← vec_at startOffsets targetNodeIndex;
  offset ← vec_at (fs_sizePerNode st) targetNodeIndex;
  let positionInFlattenedTransitions := start + offset in
  flattened ← vec_set (fs_flattened st) positionInFlattenedTransitions i;
  inRangeOffset ← vec_at (fs_offsetPerRange st) singularTransitionIndex;
  startOfSet ← startOffsetOfSet (fs_partition st) singularTransitionIndex;
  let positionInTransitionPartition := startOfSet + inRangeOffset in
  offsets ← vec_set (fs_offsetPerRange st) singularTransitionIndex (inRangeOffset + 1);
  p ← setElementUnchecked (fs_partition st) positionInFlattenedTransitions positionInTransitionPartition singularTransitionIndex;
  sizes ← increment (fs_sizePerNode st) targetNodeIndex;
  Some (mkFillState flattened sizes offsets p).

Definition fillTransitions (firsts startOffsets : list Z) (nodes : list (Z * list (CharRange * Z))) (st : FillState) : option FillState :=
  foldl (λ st node, st ← st;
           foldl (λ st call, st ← st; fillTransition startOffsets node.1 st call) (Some st) (iterateIntersections firsts node.2))
    (Some st) nodes.

Section Minimizer.
Context `{UninitializedMemory}.

(** The constructor. *)
Definition fullGraphPartition (dfa : DFA) : option FullGraphPartition :=
  let size := length (dfa_nodes dfa) in
  let nodePartition := initialize (vec_size (dfa_nodes dfa)) in
  nodes ← liveTransitions dfa;
  singular ← singularTransitions nodes;
  ranges ← ranges_in_order singular;
  let '(transitionPartition, rangeIndexAccumulator) := addTransitionSets ranges in
  let singularTransitionsFirsts := mr_first <$> ranges in
  counts ← countIncoming size (nodes ≫= λ node, iterateIntersections singularTransitionsFirsts node.2);
  let '(startOffsets, flattenedTransitionsSize) := accumulateOffsets counts in
  let transitionPartition := reserveUninitializedCapacity transitionPartition flattenedTransitionsSize in
  filled ← fillTransitions singularTransitionsFirsts startOffsets nodes
    (mkFillState (fresh_memory (Z.to_nat flattenedTransitionsSize)) (replicate size 0)
       (replicate (length (m_sets transitionPartition)) 0) transitionPartition);
  Some (mkFullGraphPartition startOffsets (fs_sizePerNode filled) (fs_flattened filled) nodePartition (fs_partition filled) 0).

Definition set_partitions (g : FullGraphPartition) (nodes transitions : Partition) : FullGraphPartition :=
  mkFullGraphPartition (m_flattenedTransitionsStartOffsetPerNode g) (m_flattenedTransitionsSizePerNode g)
    (m_flattenedTransitions g) nodes transitions (m_nextTransitionSetToProcess g).

Definition markNode (g : FullGraphPartition) (nodeIndex : Z) : option FullGraphPartition :=
  p ← markElementInCurrentGeneration (m_nodePartition g) nodeIndex;
  Some (set_partitions g p (m_transitionPartition g)).

(** The incoming transitions of a node. *)
Definition incomingTransitions (g : FullGraphPartition) (nodeIndex : Z) : option (list Z) :=
  start ← vec_at (m_flattenedTransitionsStartOffsetPerNode g) nodeIndex;
  size ← vec_at (m_flattenedTransitionsSizePerNode g) nodeIndex;
  Some (seqZ start size).

(** What [refinePartitions] does for each new set of nodes. *)
Definition splitTransitions (g : FullGraphPartition) (p : Partition) (smallestSetIndex : Z) (transitions : Partition) : option Partition :=
  nodes ← iterateSet p smallestSetIndex;
  transitions ← foldl (λ t nodeIndex, t ← t; incoming ← incomingTransitions g nodeIndex; markAll t incoming) (Some transitions) nodes;
  '(transitions, _) ← refineGeneration (λ _ _ (s : unit), Some s) transitions tt;
  Some transitions.

Definition refinePartitions (g : FullGraphPartition) : option FullGraphPartition :=
  '(nodes, transitions) ← refineGeneration (splitTransitions g) (m_nodePartition g) (m_transitionPartition g);
  Some (set_partitions g nodes transitions).

(** One iteration of [splitByUniqueTransitions]. *)
Definition splitByTransitionSet (g : FullGraphPartition) : option FullGraphPartition :=
  transitions ← iterateSet (m_transitionPartition g) (m_nextTransitionSetToProcess g);
  sources ← mapM (vec_at (m_flattenedTransitions g)) transitions;
  nodes ← markAll (m_nodePartition g) sources;
  g ← refinePartitions (set_partitions g nodes (m_transitionPartition g));
  Some (mkFullGraphPartition (m_flattenedTransitionsStartOffsetPerNode g) (m_flattenedTransitionsSizePerNode g)
    (m_flattenedTransitions g) (m_nodePartition g) (m_transitionPartition g) (m_nextTransitionSetToProcess g + 1)).

Fixpoint splitByUniqueTransitions (fuel : nat) (g : FullGraphPartition) : option FullGraphPartition :=
  if m_nextTransitionSetToProcess g <? partition_size (m_transitionPartition g) then
    match fuel with
    | O => None
    | S fuel => g ← splitByTransitionSet g; splitByUniqueTransitions fuel g
    end
  else Some g.

Definition nodeReplacement (g : FullGraphPartition) (nodeIndex : Z) : option Z :=
  setIndex ← setIndexOf (m_nodePartition g) nodeIndex;
  firstElementInSet (m_nodePartition g) setIndex.

(** ** [minimize] *)

(** The map from the actions of nodes to the nodes that have them: two keys are
    equal when the actions are. *)
Definition finalStates (dfa : DFA) : option (gmap (list Z) (list Z)) :=
  foldl (λ acc i, acc ← acc;
           node ← vec_at (dfa_nodes dfa) i;
           if hasActions node then
             key ← node_actions dfa node;
             Some (<[key := default [] (acc !! key) ++ [i]]> acc)
           else Some acc)
    (Some ∅) (seqZ 0 (vec_size (dfa_nodes dfa))).

(** [relocationVector[i] = replacement; dfa.nodes[i].kill(dfa)] *)
Definition relocateNodes (g : FullGraphPartition) (dfa : DFA) : option (list Z * DFA) :=
  foldl (λ acc i, '(relocationVector, dfa) ← acc;
           replacement ← nodeReplacement g i;
           if negb (i =? replacement) then
             relocationVector ← vec_set relocationVector i replacement;
             dfa ← kill dfa i;
             Some (relocationVector, dfa)
           else Some (relocationVector, dfa))
    (Some (seqZ 0 (vec_size (dfa_nodes dfa)), dfa)) (seqZ 0 (vec_size (dfa_nodes dfa))).

Definition relocateTarget (relocationVector destinations : list Z) (position : Z) : option (list Z) :=
  target ← vec_at destinations position;
  relocatedTarget ← vec_at relocationVector target;
  if negb (target =? relocatedTarget) then vec_set destinations position relocatedTarget else Some destinations.

Definition relocateTargets (relocationVector : list Z) (dfa : DFA) : option (list Z) :=
  foldl (λ dests node, dests ← dests;
           if isKilled node then Some dests
           else foldl (λ dests position, dests ← dests; relocateTarget relocationVector dests position) (Some dests)
                  (seqZ (m_transitionsStart node) (m_transitionsLength node)))
    (Some (transitionDestinations dfa)) (dfa_nodes dfa).

(** The order in which the hash map is visited. *)
Class SlotOrder := {
  slots : gmap (list Z) (list Z) -> list (list Z * list Z);
  slots_perm m : slots m ≡ₚ map_to_list m
}.

Definition minimize `{SlotOrder} (dfa : DFA) : option DFA :=
  g ← fullGraphPartition dfa;
  finals ← finalStates dfa;
  g ← foldl (λ g slot, g ← g;
               g ← foldl (λ g finalStateIndex, g ← g; markNode g finalStateIndex) (Some g) slot.2;
               refinePartitions g)
        (Some g) (slots finals);
  g ← splitByUniqueTransitions (length (m_flattenedTransitions g)) g;
  '(relocationVector, dfa) ← relocateNodes g dfa;
  root ← vec_at relocationVector (dfa_root dfa);
  destinations ← relocateTargets relocationVector dfa;
  Some (mkDFA (dfa_nodes dfa) (dfa_actions dfa) (transitionRanges dfa) destinations root).
End Minimizer.

#[export] Instance map_order : SlotOrder := {| slots := map_to_list; slots_perm m := reflexivity _ |}.

(** ** An example: two nodes with the same actions become one *)

Definition mergeable_dfa : DFA :=
  mkDFA [mkDFANode 0 0 0 2 0; mkDFANode 0 2 1 1 0; mkDFANode 1 3 1 1 0; mkDFANode 2 4 0 0 0] [7; 7]
    [mkCharRange 97 97; mkCharRange 98 99; mkCharRange 100 100; mkCharRange 100 100] [1; 2; 3; 3] 0.

Example minimize_mergeable : graphSize <$> minimize mergeable_dfa = Some 3.
Proof. vm_compute. reflexivity. Qed.
