(* ===== verification/SingularRanges.v ===== *)
(** * The ranges of characters that no transition distinguishes

    [FullGraphPartition] merges the transitions of all nodes into one range list
    that counts, for each range, the transitions over it.  This file proves that
    every transition is a union of ranges of that list, that the counts are
    right, and that [iterateIntersections] visits exactly the ranges of a
    transition. *)

From stdpp Require Import base numbers option list list_numbers gmap sets.
From Stdlib Require Import ZArith Lia.
From S2P Require Import Prelude.
From S2P Require Import DFA.
From S2P Require Import MutableRangeList.
From S2P Require Import NFA.
From S2P Require Import NFAToDFA.
From S2P Require Import Worklist.
From S2P Require Import RangeParametricity.
From S2P Require Import Partition.
From S2P Require Import DFAMinimizer.

(** ** Transitions over a character *)

Fixpoint find_entry (ts : list (CharRange * Z)) (c : Z) : option (CharRange * Z) :=
  match ts with
  | [] => None
  | (r, t) :: ts => if in_range r c then Some (r, t) else find_entry ts c
  end.

Lemma find_entry_transition ts c : find_transition ts c = snd <$> find_entry ts c.
Proof. induction ts as [|[r t] ts IH]; [done|]. simpl. by destruct (in_range r c). Qed.

Lemma find_entry_in ts c e : find_entry ts c = Some e -> in_range e.1 c = true /\ e ∈ ts.
Proof.
  induction ts as [|[r t] ts IH]; simpl; [done|]. destruct (in_range r c) eqn:E; [intros [= <-]; split; [done|left]|].
  intros [? ?]%IH. split; [done|by right].
Qed.

Lemma find_entry_below lo ts c : ranges_ok lo ts = true -> c < lo -> find_entry ts c = None.
Proof.
  intros Hok Hc. pose proof (find_transition_below lo ts c Hok Hc) as Hf. rewrite find_entry_transition in Hf.
  by destruct (find_entry ts c).
Qed.

(** ** The merged ranges with the transitions they come from *)

(** The data of a range: the node and the transition, for each node in order. *)
Abbreviation Origin := (Z * (CharRange * Z))%type.

Definition origin_ranges (node : Z * list (CharRange * Z)) : list (OtherRange Origin) :=
  (λ t, mkOtherRange (cr_first t.1) (cr_last t.1) (node.1, t)) <$> node.2.

Definition origins (nodes : list (Z * list (CharRange * Z))) (c : Z) : list Origin :=
  omap (λ node, pair node.1 <$> find_entry node.2 c) nodes.

Definition traced (nodes : list (Z * list (CharRange * Z))) : option (list (MutableRange (list Origin))) :=
  foldl (λ acc node, acc ← acc; extend (λ e, [e]) (λ d e, d ++ [e]) acc (origin_ranges node)) (Some []) nodes.

Definition nonempty {A} (l : list A) : option (list A) := match l with [] => None | _ => Some l end.

Lemma origin_lookup node c : range_lookup (origin_ranges node) c = pair node.1 <$> find_entry node.2 c.
Proof.
  destruct node as [i ts]. unfold origin_ranges. cbn [fst snd]. induction ts as [|[r t] ts IH]; [done|].
  rewrite fmap_cons. cbn [range_lookup o_first o_last o_data find_entry fst]. unfold in_range. destruct ((cr_first r <=? c) && _); [done|apply IH].
Qed.

Lemma origin_sorted node : ranges_ok 0 node.2 = true -> sorted_from 0 (origin_ranges node).
Proof.
  destruct node as [i ts]. unfold origin_ranges. cbn [fst snd]. generalize 0 as lo. induction ts as [|[r t] ts IH]; intros lo; [done|].
  rewrite ranges_ok_cons, fmap_cons, sorted_from_cons. cbn [o_first o_last fst]. intros (? & ? & ?). split_and!; try lia. apply IH. tauto.
Qed.

Lemma traced_spec nodes : Forall (λ node, ranges_ok 0 node.2 = true) nodes ->
  exists v idx l, traced nodes = Some v /\ represents v idx l /\ sorted_from 0 l
    /\ forall c, 0 <= c <= 127 -> range_lookup l c = nonempty (origins nodes c).
Proof.
  intros Hok. unfold traced.
  destruct (foldl_option_inv (λ acc node, extend (λ e, [e]) (λ d e, d ++ [e]) acc (origin_ranges node))
    (λ pre v, exists idx l, represents v idx l /\ sorted_from 0 l /\ forall c, 0 <= c <= 127 -> range_lookup l c = nonempty (origins pre c))
    nodes []) as (v & Hv & idx & l & HR & Hs & Hl).
  - exists [], []. split_and!; [apply represents_nil|done|done].
  - intros pre node todo v Heq (idx & l & HR & Hs & Hl). rewrite Heq in Hok. apply Forall_app in Hok as [_ Hok]. apply Forall_cons in Hok as [Hn _].
    destruct (extend_sound (λ e : Origin, [e]) (λ d e, d ++ [e]) v idx l (origin_ranges node) HR Hs (origin_sorted node Hn))
      as (v' & idx' & l' & Hv' & HR' & Hs' & Hl'). exists v'. split; [done|]. exists idx', l'. split_and!; [done|done|].
    intros c Hc. rewrite (Hl' c Hc), (Hl c Hc), origin_lookup. unfold origins. rewrite omap_app. cbn [omap list_omap].
    destruct (find_entry node.2 c) as [e|]; cbn [fmap option_fmap option_map].
    + destruct (omap _ pre); done.
    + rewrite app_nil_r. by destruct (omap _ pre).
  - by exists v, idx, l.
Qed.

(** The list the code makes has the same ranges, with the number of transitions. *)
Lemma singular_traced nodes :
  singularTransitions nodes = fmap (M := list) (map_range (λ d : list Origin, vec_size d)) <$> traced nodes.
Proof.
  unfold singularTransitions, traced.
  enough (forall acc, foldl (λ acc node, acc ← acc; extend counter_convert counter_extend acc (as_ranges node.2))
      (fmap (M := list) (map_range (λ d : list Origin, vec_size d)) <$> acc) nodes
    = fmap (M := list) (map_range (λ d : list Origin, vec_size d)) <$>
      foldl (λ acc node, acc ← acc; extend (λ e, [e]) (λ d e, d ++ [e]) acc (origin_ranges node)) acc nodes) as Hgen
    by apply (Hgen (Some [])).
  induction nodes as [|node nodes IH]; intros acc; [done|]. cbn [foldl]. rewrite <- IH. f_equal.
  destruct acc as [v|]; [|done]. cbn [fmap option_fmap option_map mbind option_bind].
  replace (as_ranges node.2) with (map_other (λ e : Origin, e.2.2) <$> origin_ranges node)
    by (unfold as_ranges, origin_ranges; by rewrite <- list_fmap_compose).
  apply extend_map; [done|]. intros d e. unfold counter_extend. by rewrite vec_size_app.
Qed.

(** ** What the list says about the nodes *)

Record singular_ok (nodes : list (Z * list (CharRange * Z))) (l : list (OtherRange (list Origin))) : Prop := {
  so_sorted : sorted_from 0 l;
  so_lookup : forall c, 0 <= c <= 127 -> range_lookup l c = nonempty (origins nodes c)
}.

Lemma singular_spec nodes : Forall (λ node, ranges_ok 0 node.2 = true) nodes ->
  exists v rs l, singularTransitions nodes = Some v /\ ranges_in_order v = Some rs /\ singular_ok nodes l
    /\ mr_first <$> rs = o_first <$> l /\ mr_data <$> rs = (λ o, vec_size (o_data o)) <$> l.
Proof.
  intros Hok. destruct (traced_spec nodes Hok) as (v & idx & l & Hv & HR & Hs & Hl).
  destruct (ranges_in_order_spec v idx l HR) as (rs & Hrs & Hent).
  set (f := map_range (λ d : list Origin, vec_size d)). exists (f <$> v), (f <$> rs), l. split_and!.
  - by rewrite singular_traced, Hv.
  - unfold f. by rewrite ranges_in_order_map, Hrs.
  - done.
  - subst l. by rewrite <- !list_fmap_compose.
  - subst l. by rewrite <- !list_fmap_compose.
Qed.

Lemma range_lookup_inside {X} lo (l : list (OtherRange X)) r c :
  sorted_from lo l -> r ∈ l -> o_first r <= c <= o_last r -> range_lookup l c = Some (o_data r).
Proof.
  revert lo. induction l as [|x l IH]; intros lo; [by intros _ ?%elem_of_nil|].
  rewrite sorted_from_cons. intros (? & ? & ? & Hs) [->|Hr]%elem_of_cons Hc; cbn [range_lookup].
  - destruct ((o_first x <=? c) && _) eqn:E; [done|]. apply andb_false_iff in E as [?|?]; zbool; lia.
  - pose proof (sorted_from_Forall _ _ Hs) as Hf. rewrite Forall_forall in Hf. specialize (Hf r Hr). simpl in Hf.
    destruct ((o_first x <=? c) && _) eqn:E; zbool; [lia|]. by eapply IH.
Qed.

Lemma origins_entry nodes node c : NoDup nodes.*1 -> node ∈ nodes ->
  forall e, (node.1, e) ∈ origins nodes c <-> find_entry node.2 c = Some e.
Proof.
  intros Hnd Hin e. unfold origins. rewrite list_elem_of_omap. split.
  - intros (node' & Hin' & Hf). destruct (find_entry node'.2 c) as [e'|] eqn:E; [|done]. simpl in Hf. injection Hf as Heq ->.
    assert (node' = node) as ->; [|done]. apply list_elem_of_lookup in Hin as [i Hi], Hin' as [j Hj].
    assert (i = j) as ->; [|by simplify_eq]. eapply (NoDup_lookup nodes.*1); [done|by rewrite list_lookup_fmap, Hi|].
    by rewrite list_lookup_fmap, Hj; simpl; f_equal.
  - intros He. exists node. split; [done|]. by rewrite He.
Qed.

Section Singular.
Context (nodes : list (Z * list (CharRange * Z))) (l : list (OtherRange (list Origin))).
Hypothesis Hnd : NoDup nodes.*1.
Hypothesis Hok : Forall (λ node, ranges_ok 0 node.2 = true) nodes.
Hypothesis Hl : singular_ok nodes l.

Lemma singular_bounds r : r ∈ l -> 0 <= o_first r /\ o_first r <= o_last r <= 127.
Proof. intros Hr. pose proof (sorted_from_Forall _ _ (so_sorted _ _ Hl)) as Hf. rewrite Forall_forall in Hf. apply Hf in Hr. simpl in Hr. lia. Qed.

Lemma singular_data r c : r ∈ l -> o_first r <= c <= o_last r -> o_data r = origins nodes c /\ origins nodes c <> [].
Proof.
  intros Hr Hc. pose proof (singular_bounds r Hr). pose proof (range_lookup_inside _ _ _ _ (so_sorted _ _ Hl) Hr Hc) as Hlook.
  rewrite (so_lookup _ _ Hl) in Hlook by lia. unfold nonempty in Hlook. destruct (origins nodes c); [done|]. by injection Hlook.
Qed.

(** No transition ends inside a range. *)
Lemma singular_constant r c c' node : r ∈ l -> node ∈ nodes -> o_first r <= c <= o_last r -> o_first r <= c' <= o_last r ->
  find_entry node.2 c = find_entry node.2 c'.
Proof.
  intros Hr Hn Hc Hc'. destruct (singular_data r c Hr Hc) as [E _], (singular_data r c' Hr Hc') as [E' _].
  pose proof (origins_entry nodes node c Hnd Hn) as H. pose proof (origins_entry nodes node c' Hnd Hn) as H'. rewrite <- E in H. rewrite <- E' in H'.
  destruct (find_entry node.2 c) as [e|] eqn:Ec.
  - symmetry. apply H', H. done.
  - destruct (find_entry node.2 c') as [e'|] eqn:Ec'; [|done]. apply H, H'. done.
Qed.

(** Every transition is covered. *)
Lemma singular_covers node c e : node ∈ nodes -> find_entry node.2 c = Some e -> exists r, r ∈ l /\ o_first r <= c <= o_last r.
Proof.
  intros Hn He. assert (0 <= c <= 127) as Hc.
  { rewrite Forall_forall in Hok. specialize (Hok node Hn). destruct (decide (c < 0)) as [Hneg|].
    - by rewrite (find_entry_below 0) in He by done.
    - destruct (decide (127 < c)); [|lia]. pose proof (find_transition_above 0 node.2 c Hok ltac:(lia)) as Hf.
      by rewrite find_entry_transition, He in Hf. }
  pose proof (so_lookup _ _ Hl c Hc) as Hlook. unfold nonempty in Hlook. destruct (origins nodes c) as [|x h] eqn:Eo.
  - apply (origins_entry nodes node c Hnd Hn) in He. rewrite Eo in He. by apply elem_of_nil in He.
  - apply range_lookup_elem in Hlook as (r & Hr & Hb & _). by exists r.
Qed.

(** The count of a range is the number of nodes with a transition over it. *)
Lemma singular_count r : r ∈ l -> vec_size (o_data r) = vec_size (filter (λ node, is_Some (find_transition node.2 (o_first r))) nodes).
Proof.
  intros Hr. pose proof (singular_bounds r Hr). destruct (singular_data r (o_first r) Hr) as [-> _]; [lia|]. unfold origins.
  clear Hnd Hok Hl. induction nodes as [|node ns IH]; [done|]. cbn [omap list_omap]. rewrite filter_cons, find_entry_transition.
  destruct (find_entry node.2 (o_first r)) as [e|] eqn:E; cbn [fmap option_fmap option_map].
  - rewrite decide_True by done. unfold vec_size in *. simpl. lia.
  - rewrite decide_False; [done|]. by intros [? ?].
Qed.
End Singular.

(** ** The ranges a node has transitions over *)

Section Intersections.
Context {X : Type}.
Implicit Types (l : list (OtherRange X)) (ts : list (CharRange * Z)).

(** The indices of the ranges over which [ts] has a transition, and its target. *)
Fixpoint visits l (index : Z) ts : list (Z * Z) :=
  match l with
  | [] => []
  | r :: l => match find_transition ts (o_first r) with
              | Some t => (index, t) :: visits l (index + 1) ts
              | None => visits l (index + 1) ts
              end
  end.

Lemma visits_app l1 l2 index ts : visits (l1 ++ l2) index ts = visits l1 index ts ++ visits l2 (index + vec_size l1) ts.
Proof.
  revert index. induction l1 as [|r l1 IH]; intros index; cbn [visits app].
  - f_equal. change (vec_size []) with 0. lia.
  - change (r :: l1) with ([r] ++ l1). rewrite vec_size_app. change (vec_size [r]) with 1.
    replace (index + (1 + vec_size l1)) with (index + 1 + vec_size l1) by lia. destruct (find_transition _ _); by rewrite IH.
Qed.

Lemma visits_none l index ts : (forall r, r ∈ l -> find_transition ts (o_first r) = None) -> visits l index ts = [].
Proof.
  revert index. induction l as [|r l IH]; intros index Hn; [done|]. cbn [visits]. rewrite Hn by left. apply IH. intros x Hx. apply Hn. by right.
Qed.

Lemma visits_all l index ts t : (forall r, r ∈ l -> find_transition ts (o_first r) = Some t) ->
  visits l index ts = (λ i, (i, t)) <$> seqZ index (vec_size l).
Proof.
  revert index. induction l as [|r l IH]; intros index Ha; [done|]. cbn [visits]. rewrite Ha by left.
  change (r :: l) with ([r] ++ l). rewrite vec_size_app. change (vec_size [r]) with 1. pose proof (vec_size_nonneg l).
  rewrite (seqZ_app index 1) by lia. change (seqZ index 1) with [index]. cbn [app fmap list_fmap]. f_equal. apply IH.
  intros x Hx. apply Ha. by right.
Qed.

Lemma visits_ext l index ts ts' : (forall r, r ∈ l -> find_transition ts (o_first r) = find_transition ts' (o_first r)) ->
  visits l index ts = visits l index ts'.
Proof.
  revert index. induction l as [|r l IH]; intros index He; [done|]. cbn [visits]. rewrite He by left.
  rewrite IH; [done|]. intros x Hx. apply He. by right.
Qed.

Lemma visits_index l index ts j t : (j, t) ∈ visits l index ts <->
  exists r, index <= j /\ l !! Z.to_nat (j - index) = Some r /\ find_transition ts (o_first r) = Some t.
Proof.
  revert index. induction l as [|r l IH]; intros index; cbn [visits].
  - rewrite elem_of_nil. split; [done|]. intros (r & _ & Hr & _). by rewrite lookup_nil in Hr.
  - assert (forall r', index < j -> (r :: l) !! Z.to_nat (j - index) = Some r' <-> l !! Z.to_nat (j - (index + 1)) = Some r') as Hs.
    { intros r' Hj. replace (Z.to_nat (j - index)) with (S (Z.to_nat (j - (index + 1)))) by lia. done. }
    assert ((j, t) ∈ visits l (index + 1) ts <-> exists r', index < j /\ (r :: l) !! Z.to_nat (j - index) = Some r' /\ find_transition ts (o_first r') = Some t) as IH'.
    { rewrite IH. split; intros (r' & ? & Hr & ?); exists r'; (split; [lia|]); split; try done; apply Hs; try lia; done. }
    assert ((r :: l) !! Z.to_nat (index - index) = Some r) as H0 by (by replace (index - index) with 0 by lia).
    destruct (find_transition ts (o_first r)) as [t'|] eqn:Et; rewrite ?elem_of_cons, IH'.
    + split.
      * intros [[= -> ->]|(r' & ? & ? & ?)]; [exists r; split_and!; try done; lia|]. exists r'. split_and!; try done; lia.
      * intros (r' & Hj & Hr & Ht). destruct (decide (j = index)) as [->|]; [left; rewrite H0 in Hr; simplify_eq; done|].
        right. exists r'. split_and!; try done; lia.
    + split; intros (r' & Hj & Hr & Ht); exists r'; split_and!; try done; try lia.
      destruct (decide (j = index)) as [->|]; [|lia]. rewrite H0 in Hr. simplify_eq.
Qed.

Lemma visits_NoDup l index ts : NoDup (visits l index ts).*1.
Proof.
  revert index. induction l as [|r l IH]; intros index; cbn [visits]; [constructor|].
  destruct (find_transition _ _); [|apply IH]. rewrite fmap_cons. constructor; [|apply IH].
  intros ([j t'] & Hj & Hin)%list_elem_of_fmap. cbn [fst] in Hj. apply visits_index in Hin as (? & ? & _). lia.
Qed.

(** Each transition of [ts] is a union of ranges of [l]. *)
Record tiles l ts : Prop := {
  tl_constant : forall r c, r ∈ l -> o_first r <= c <= o_last r -> find_entry ts c = find_entry ts (o_first r);
  tl_covers : forall c e, find_entry ts c = Some e -> exists r, r ∈ l /\ o_first r <= c <= o_last r
}.

Lemma skipToFirst_spec (l1 : list Z) c rest index : c ∉ l1 -> skipToFirst c (l1 ++ c :: rest) index = (c :: rest, index + vec_size l1).
Proof.
  revert index. induction l1 as [|x l1 IH]; intros index Hc; cbn [app skipToFirst].
  - rewrite Z.eqb_refl. f_equal. change (vec_size []) with 0. lia.
  - rewrite not_elem_of_cons in Hc. destruct Hc as [Hc1 Hc2]. rewrite (proj2 (Z.eqb_neq x c)) by congruence. rewrite IH by done. f_equal.
    change (x :: l1) with ([x] ++ l1). rewrite vec_size_app. change (vec_size [x]) with 1. lia.
Qed.

Lemma indicesUntil_spec lo l last index : sorted_from lo l -> exists l3 l4, l = l3 ++ l4
  /\ indicesUntil last (o_first <$> l) index = (seqZ index (vec_size l3), o_first <$> l4, index + vec_size l3)
  /\ (forall r, r ∈ l3 -> o_first r <= last) /\ sorted_from (last + 1) l4.
Proof.
  revert lo index. induction l as [|r l IH]; intros lo index Hs.
  { exists [], []. split_and!; try done; [simpl; do 2 f_equal; change (vec_size []) with 0; lia|]. intros r Hr. by apply elem_of_nil in Hr. }
  rewrite fmap_cons. cbn [indicesUntil]. rewrite sorted_from_cons in Hs. destruct Hs as (? & ? & ? & Hs).
  destruct (o_first r <=? last) eqn:E; zbool.
  - destruct (IH _ (index + 1) Hs) as (l3 & l4 & -> & -> & H3 & H4). exists (r :: l3), l4. split_and!; [done| | |done].
    + change (r :: l3) with ([r] ++ l3). rewrite vec_size_app. change (vec_size [r]) with 1. pose proof (vec_size_nonneg l3).
      rewrite (seqZ_app index 1) by lia. change (seqZ index 1) with [index]. cbn [app]. f_equal. lia.
    + intros x [->|Hx]%elem_of_cons; [done|by apply H3].
  - exists [], (r :: l). split_and!; [done|simpl; do 2 f_equal; change (vec_size []) with 0; lia| |].
    + intros x Hx. by apply elem_of_nil in Hx.
    + rewrite sorted_from_cons. split_and!; try lia. done.
Qed.

Lemma find_entry_cons r t ts c : find_entry ((r, t) :: ts) c = if in_range r c then Some (r, t) else find_entry ts c.
Proof. done. Qed.

(** The ranges of the first transition, those before and those after. *)
Lemma tiles_split lo l r t ts : ranges_ok lo ((r, t) :: ts) = true -> sorted_from lo l -> tiles l ((r, t) :: ts) ->
  exists l1 x l2, l = l1 ++ x :: l2 /\ o_first x = cr_first r /\ (forall y, y ∈ l1 -> o_last y < cr_first r) /\ sorted_from (o_last x + 1) l2.
Proof.
  rewrite ranges_ok_cons. intros (? & ? & Hok) Hs [Hconst Hcov].
  assert (find_entry ((r, t) :: ts) (cr_first r) = Some (r, t)) as Hfirst.
  { rewrite find_entry_cons. by rewrite (proj2 (in_range_spec _ _)) by lia. }
  destruct (Hcov _ _ Hfirst) as (x & Hx & Hxb).
  assert (o_first x = cr_first r) as Hxf.
  { pose proof (Hconst x (cr_first r) Hx Hxb) as He. rewrite Hfirst in He. symmetry in He. apply find_entry_in in He as [He _].
    apply in_range_spec in He. simpl in He. lia. }
  apply list_elem_of_split in Hx as (l1 & l2 & ->). exists l1, x, l2.
  apply sorted_from_app in Hs as (_ & H2 & H3). rewrite sorted_from_cons in H2. split_and!; try done; [|apply H2].
  intros y Hy. rewrite Forall_forall in H3. specialize (H3 y Hy). simpl in H3. lia.
Qed.

Lemma find_transition_first r t ts c : cr_first r <= c <= cr_last r -> find_transition ((r, t) :: ts) c = Some t.
Proof. intros Hc. simpl. by rewrite (proj2 (in_range_spec _ _)). Qed.

Lemma find_entry_later r t ts c : cr_last r < c -> find_entry ((r, t) :: ts) c = find_entry ts c.
Proof. intros Hc. simpl. by rewrite (proj2 (in_range_false _ _)) by lia. Qed.

(** What is left for the other transitions. *)
Lemma tiles_rest l1 x l3 l4 r t ts :
  tiles (l1 ++ x :: l3 ++ l4) ((r, t) :: ts) -> ranges_ok (cr_last r + 1) ts = true -> o_first x = cr_first r -> cr_first r <= cr_last r ->
  (forall y, y ∈ l1 -> o_last y < cr_first r) -> (forall y, y ∈ l3 -> cr_first r <= o_first y <= cr_last r) -> sorted_from (cr_last r + 1) l4 ->
  tiles l4 ts.
Proof.
  intros [Hconst Hcov] Hok Hx Hr Hl1 Hl3 Hs. pose proof (sorted_from_Forall _ _ Hs) as Hf. rewrite Forall_forall in Hf. split.
  - intros y c Hy Hc. specialize (Hf y Hy). simpl in Hf. rewrite <- (find_entry_later r t ts c), <- (find_entry_later r t ts (o_first y)) by lia. apply Hconst; [|done]. rewrite elem_of_app, elem_of_cons, elem_of_app. tauto.
  - intros c e He. assert (cr_last r < c) as Hc.
    { destruct (decide (cr_last r < c)); [done|]. by rewrite (find_entry_below (cr_last r + 1)) in He by (done || lia). }
    rewrite <- (find_entry_later r t) in He by done. destruct (Hcov c e He) as (y & Hy & Hyc). exists y. split; [|done].
    assert (forall z, z ∈ x :: l3 -> cr_first r <= o_first z <= cr_last r) as Hin by (intros z [->|Hz]%elem_of_cons; [lia|auto]).
    rewrite elem_of_app, elem_of_cons, elem_of_app in Hy. destruct Hy as [Hy|Hy]; [apply Hl1 in Hy; lia|].
    assert (y ∈ x :: l3 \/ y ∈ l4) as [Hy'|] by (rewrite elem_of_cons; tauto); [|done]. apply Hin in Hy' as Hb.
    pose proof (Hconst y c ltac:(rewrite elem_of_app, elem_of_cons, elem_of_app; tauto) Hyc) as Hcon. rewrite He, find_entry_cons in Hcon.
    rewrite (proj2 (in_range_spec r (o_first y)) Hb) in Hcon. simplify_eq. apply find_entry_in in He as [He _]. apply in_range_spec in He. simpl in He. lia.
Qed.

Lemma intersections_visits ts lo l index : ranges_ok lo ts = true -> sorted_from lo l -> tiles l ts ->
  intersectionsFrom (o_first <$> l) index ts = visits l index ts.
Proof.
  revert lo l index. induction ts as [|[r t] ts IH]; intros lo l index Hok Hs Ht.
  { cbn [intersectionsFrom]. symmetry. by apply visits_none. }
  destruct (tiles_split lo l r t ts Hok Hs Ht) as (l1 & x & l2 & -> & Hx & Hl1 & Hs2).
  apply ranges_ok_cons in Hok as (Hr1 & Hr2 & Hok). pose proof Hs as Hsx. apply sorted_from_app in Hsx as (_ & Hsx & _). rewrite sorted_from_cons in Hsx.
  destruct (indicesUntil_spec _ l2 (cr_last r) (index + vec_size l1 + 1) Hs2) as (l3 & l4 & -> & Hind & Hl3 & Hs4).
  assert (forall y, y ∈ l3 -> cr_first r <= o_first y <= cr_last r) as Hl3'.
  { intros y Hy. split; [|auto]. apply sorted_from_app in Hs2 as (Hs3 & _ & _). pose proof (sorted_from_Forall _ _ Hs3) as Hf.
    rewrite Forall_forall in Hf. specialize (Hf y Hy). simpl in Hf. lia. }
  cbn [intersectionsFrom]. rewrite fmap_app, fmap_cons, Hx, skipToFirst_spec.
  2:{ intros (y & Hy & Hin)%list_elem_of_fmap. apply Hl1 in Hin as Hlt. apply sorted_from_app in Hs as (Hs1 & _ & _).
      pose proof (sorted_from_Forall _ _ Hs1) as Hf. rewrite Forall_forall in Hf. specialize (Hf y Hin). simpl in Hf. lia. }
  cbn [tail]. unfold vec_size at 1 2. rewrite length_fmap. fold (vec_size l1). rewrite Hind.
  rewrite (IH (cr_last r + 1)); [|done|done|apply (tiles_rest l1 x l3 l4 r t ts Ht Hok Hx); [lia|done|done|done]]. rewrite visits_app.
  rewrite (visits_none l1), (app_nil_l (visits (x :: l3 ++ l4) _ _)).
  2:{ intros y Hy. apply Hl1 in Hy as Hlt. apply sorted_from_app in Hs as (Hs1 & _ & _). pose proof (sorted_from_Forall _ _ Hs1) as Hf.
      rewrite Forall_forall in Hf. specialize (Hf y Hy). simpl in Hf. apply (find_transition_below (cr_first r)); [|lia].
      rewrite ranges_ok_cons. split_and!; try done; lia. }
  change (x :: l3 ++ l4) with ((x :: l3) ++ l4). rewrite visits_app, (visits_all (x :: l3) _ _ t).
  2:{ intros y [->|Hy]%elem_of_cons; apply find_transition_first; [lia|auto]. }
  assert (vec_size (x :: l3) = 1 + vec_size l3) as -> by (unfold vec_size; simpl length; lia).
  rewrite (seqZ_app _ 1 (vec_size l3)) by (pose proof (vec_size_nonneg l3); lia). f_equal.
  replace (index + vec_size l1 + 1 + vec_size l3) with (index + vec_size l1 + (1 + vec_size l3)) by lia.
  apply visits_ext. intros y Hy. pose proof (sorted_from_Forall _ _ Hs4) as Hf. rewrite Forall_forall in Hf. specialize (Hf y Hy). simpl in Hf.
  rewrite !find_entry_transition. by rewrite find_entry_later by lia.
Qed.
End Intersections.

Lemma iterateIntersections_spec nodes l node : NoDup nodes.*1 -> Forall (λ node, ranges_ok 0 node.2 = true) nodes ->
  singular_ok nodes l -> node ∈ nodes -> iterateIntersections (o_first <$> l) node.2 = visits l 0 node.2.
Proof.
  intros Hnd Hok Hl Hn. apply (intersections_visits _ 0); [by apply (proj1 (Forall_forall _ _) Hok)|apply Hl|]. split.
  - intros r c Hr Hc. pose proof (singular_bounds _ _ Hl r Hr). eapply singular_constant; try done; lia.
  - intros c e. by eapply singular_covers.
Qed.
