(* ===== verification/MinimizerSplit.v ===== *)
(** * The refinement of the minimizer ends in a stable partition

    The loops of [FullGraphPartition] on the transitions of an automaton: each
    transition has a source, a target and a symbol, and no node has two
    transitions with the same symbol.  When every set of transitions has been
    used as a splitter, nodes of the same set have transitions with the same
    symbols into the same sets. *)

From stdpp Require Import base numbers option list list_numbers gmap sets.
From Stdlib Require Import ZArith Lia.
From S2P Require Import Prelude.
From S2P Require Import DFA.
From S2P Require Import Partition.
From S2P Require Import DFAMinimizer.

Section Split.
(** [N] nodes and [T] transitions. *)
Context (N T : Z) (source target symbol : Z -> Z).
Hypothesis Hrange : forall t, 0 <= t < T -> 0 <= source t < N /\ 0 <= target t < N.
Hypothesis Hdet : forall t t', 0 <= t < T -> 0 <= t' < T -> source t = source t' -> symbol t = symbol t' -> t = t'.

(** The vectors of the graph describe these transitions. *)
Record graph_ok (g : FullGraphPartition) : Prop := {
  go_size : vec_size (m_flattenedTransitions g) = T;
  go_source : forall t, 0 <= t < T -> vec_at (m_flattenedTransitions g) t = Some (source t);
  go_incoming : forall v, 0 <= v < N -> exists l, incomingTransitions g v = Some l /\ NoDup l
    /\ forall t, t ∈ l <-> 0 <= t < T /\ target t = v
}.

(** A partition between two generations. *)
Definition settled (n : Z) (p : Partition) : Prop := partition_ok n [] p /\ m_setsMarkedInCurrentGeneration p = [].

(** The transitions of a set have the same symbol and lead to the same set. *)
Definition coherent (nodes transitions : Partition) : Prop :=
  forall t t', 0 <= t < T -> 0 <= t' < T -> set_of transitions t = set_of transitions t' ->
    symbol t = symbol t' /\ set_of nodes (target t) = set_of nodes (target t').

(** Nodes that cannot be told apart: a relation that the transitions keep. *)
Context (similar : Z -> Z -> Prop).
Hypothesis Hsymmetric : forall u v, similar u v -> similar v u.
Hypothesis Hsimilar : forall t v, 0 <= t < T -> similar (source t) v ->
  exists s, 0 <= s < T /\ source s = v /\ symbol s = symbol t /\ similar (target t) (target s).

Definition nodes_together (p : Partition) : Prop := forall u v, similar u v -> set_of p u = set_of p v.
Definition transitions_together (p : Partition) : Prop :=
  forall t t', 0 <= t < T -> 0 <= t' < T -> symbol t = symbol t' -> similar (target t) (target t') -> set_of p t = set_of p t'.
Definition together (g : FullGraphPartition) : Prop :=
  nodes_together (m_nodePartition g) /\ transitions_together (m_transitionPartition g).

(** Indices of sets are kept or new. *)
Record extends (p p' : Partition) : Prop := {
  ext_index : forall e, set_of p' e = set_of p e \/ exists j, set_of p' e = Some j /\ partition_size p <= j;
  ext_size : partition_size p <= partition_size p'
}.

Lemma extends_refl p : extends p p.
Proof. split; [by left|lia]. Qed.

Lemma extends_trans p q r : extends p q -> extends q r -> extends p r.
Proof.
  intros [Hi Hs] [Hi' Hs']. split; [|lia]. intros e. destruct (Hi' e) as [->|(j & ? & ?)]; [apply Hi|].
  right. exists j. split; [done|lia].
Qed.

Lemma refines_extends p p' q : m_elementToSetMap p = m_elementToSetMap q -> partition_size p = partition_size q ->
  refines p p' -> extends q p'.
Proof. intros Hm Hs [_ _ Hi Hsz]. rewrite Hs in Hsz. split; [|done]. intros e. rewrite <- Hm, <- Hs. apply Hi. Qed.

(** An old index denotes a part of the set it denoted. *)
Lemma extends_old p p' e i : extends p p' -> i < partition_size p -> set_of p' e = Some i -> set_of p e = Some i.
Proof. intros [Hi _] Hlt He. destruct (Hi e) as [<-|(j & ? & ?)]; [done|]. simplify_eq. lia. Qed.

(** ** Splitting the transitions into a new set of nodes *)

Lemma markIncoming_spec g transitions es :
  graph_ok g -> settled T transitions -> NoDup es -> (forall e, e ∈ es -> 0 <= e < N) ->
  exists t', foldl (λ t nodeIndex, t ← t; incoming ← incomingTransitions g nodeIndex; markAll t incoming) (Some transitions) es = Some t'
    /\ partition_ok T (m_setsMarkedInCurrentGeneration t') t'
    /\ m_elementToSetMap t' = m_elementToSetMap transitions /\ partition_size t' = partition_size transitions
    /\ forall x, marked t' x = true <-> 0 <= x < T /\ target x ∈ es.
Proof using Type.
  intros Hg [HP Hnil] Hnd Hes.
  destruct (foldl_option_inv (λ t nodeIndex, incoming ← incomingTransitions g nodeIndex; markAll t incoming)
    (λ pre t, partition_ok T (m_setsMarkedInCurrentGeneration t) t
       /\ m_elementToSetMap t = m_elementToSetMap transitions /\ partition_size t = partition_size transitions
       /\ forall x, marked t x = true <-> 0 <= x < T /\ target x ∈ pre) es transitions) as (t' & ? & ? & ? & ? & ?); [| |by exists t'].
  - rewrite Hnil. split_and!; try done. intros x. rewrite (unmarked T) by done. split; [done|].
    intros [_ Hx]. by apply elem_of_nil in Hx.
  - intros pre v todo t Heq (HPt & Hmap & Hsz & Hm). assert (v ∉ pre) as Hv.
    { rewrite Heq in Hnd. apply NoDup_app in Hnd as (_ & Hnd & _). intros Hin. apply (Hnd v Hin). left. }
    destruct (go_incoming g Hg v) as (l & -> & Hl & Hin); [apply Hes; rewrite Heq; apply elem_of_app; right; left|]. cbn [mbind option_bind].
    destruct (markAll_spec T t l HPt Hl) as (t2 & -> & HP2 & Hmap2 & Hsz2 & Hm2).
    { intros x [Hx Htx]%Hin. split; [done|]. destruct (marked t x) eqn:E; [|done]. apply Hm in E as [_ Hpre]. congruence. }
    exists t2. split; [done|]. split_and!; [done|congruence|lia|]. intros x. rewrite Hm2, Hm, Hin, elem_of_app, list_elem_of_singleton. tauto.
Qed.

(** What the callback of [refinePartitions] does when the set [i] of [q] was
    split and its new part has the next index. *)
Lemma splitTransitions_spec g i todo q q' b transitions :
  graph_ok g -> settled T transitions -> partition_ok N todo q' -> split_set i q q' b -> coherent q transitions ->
  exists transitions', splitTransitions g q' (partition_size q) transitions = Some transitions'
    /\ settled T transitions' /\ extends transitions transitions' /\ coherent q' transitions'
    /\ (nodes_together q' -> transitions_together transitions -> transitions_together transitions').
Proof using Type.
  intros Hg Ht HP' [Hsz Hset] Hco. unfold splitTransitions.
  destruct (iterateSet_spec N todo q' (partition_size q) HP') as (es & -> & Hnd & Hes).
  { pose proof (vec_size_nonneg (m_sets q)). unfold partition_size in Hsz |- *. lia. }
  cbn [mbind option_bind]. destruct (markIncoming_spec g transitions es Hg Ht Hnd) as (t1 & -> & HP1 & Hmap1 & Hsz1 & Hm1).
  { intros e He%Hes. rewrite <- (po_map _ _ _ HP'). by eapply vec_at_bound. }
  cbn [mbind option_bind].
  destruct (refineGeneration_spec (λ _ _ (s : unit), Some s) (λ _ _, True) T t1 tt HP1) as (t2 & [] & -> & HP2 & Hnil2 & Href & _);
    [done|done|by eexists|]. cbn [mbind option_bind]. exists t2. split_and!; [done|done|by eapply refines_extends| |].
  2:{ intros Hn Htr t t' Hti Ht'i Hsym Hsim. apply (refines_keeps _ _ Href); [rewrite Hmap1; by apply Htr|].
      pose proof (Hn _ _ Hsim) as Hsame. apply eq_true_iff_eq. rewrite !Hm1, !Hes, Hsame. tauto. }
  intros t t' Hti Ht'i Htt'. destruct (refines_parts _ _ Href t t' Htt') as [Hsame Hmm]. rewrite Hmap1 in Hsame.
  destruct (Hco t t' Hti Ht'i Hsame) as [Hsym Htgt]. split; [done|].
  assert (set_of q' (target t) = Some (partition_size q) <-> set_of q' (target t') = Some (partition_size q)) as Hiff.
  { rewrite <- !Hes. pose proof (Hm1 t) as Ha. pose proof (Hm1 t') as Hb. rewrite Hmm in Ha. tauto. }
  rewrite !Hset in Hiff. rewrite !Hset. clear -Hiff Htgt.
  destruct (bool_decide (set_of q (target t) = _) && _), (bool_decide (set_of q (target t') = _) && _); [done|symmetry; tauto|tauto|done].
Qed.

(** ** One round of refinement *)

Record round_ok (g g' : FullGraphPartition) : Prop := {
  ro_graph : graph_ok g';
  ro_nodes : settled N (m_nodePartition g');
  ro_transitions : settled T (m_transitionPartition g');
  ro_coherent : coherent (m_nodePartition g') (m_transitionPartition g');
  ro_refines : refines (m_nodePartition g) (m_nodePartition g');
  ro_extends : extends (m_transitionPartition g) (m_transitionPartition g');
  ro_next : m_nextTransitionSetToProcess g' = m_nextTransitionSetToProcess g;
  ro_together : (forall u v, similar u v -> marked (m_nodePartition g) u = marked (m_nodePartition g) v) -> together g -> together g'
}.

Lemma graph_ok_static g nodes transitions : graph_ok g -> graph_ok (set_partitions g nodes transitions).
Proof. intros Hg. split; try apply Hg. Qed.

Lemma refinePartitions_spec g :
  graph_ok g -> partition_ok N (m_setsMarkedInCurrentGeneration (m_nodePartition g)) (m_nodePartition g) ->
  settled T (m_transitionPartition g) -> coherent (m_nodePartition g) (m_transitionPartition g) ->
  exists g', refinePartitions g = Some g' /\ round_ok g g'.
Proof using Type.
  intros Hg HP Ht Hco. unfold refinePartitions.
  destruct (refineGeneration_spec (splitTransitions g)
    (λ q t, settled T t /\ extends (m_transitionPartition g) t /\ coherent q t
       /\ ((forall u v, similar u v -> marked (m_nodePartition g) u = marked (m_nodePartition g) v) -> together g -> transitions_together t)) N (m_nodePartition g) (m_transitionPartition g) HP)
    as (p' & t' & -> & HP' & Hnil & Href & Hset & Hext & Hco' & Htog).
  - split_and!; [done|apply extends_refl|done|by intros _ [_ ?]].
  - intros q q' t Hmap (? & ? & Hc & ?). split_and!; [done|done| |done]. unfold coherent. by rewrite Hmap.
  - intros i todo q q' t b _ HPq' Hsplit Hkeep (Hst & Hex & Hc & Htog).
    destruct (splitTransitions_spec g i todo q q' b t Hg Hst HPq' Hsplit Hc) as (t' & ? & ? & ? & ? & Htog').
    exists t'. split_and!; try done; [by eapply extends_trans|]. intros Hm Hg'. apply Htog'; [|by apply Htog].
    intros u v Huv. apply Hkeep; [by apply Hg'|by apply Hm].
  - cbn [mbind option_bind]. eexists. split; [done|]. split; try done; [by apply graph_ok_static|]. intros Hm Hg'. split; [|by apply Htog].
    intros u v Huv. apply (refines_keeps _ _ Href); [by apply Hg'|by apply Hm].
Qed.

(** ** Splitters *)

(** When [u] has a transition in a set that was processed, every node of the same
    set as [u] has one with the same symbol, in that set or in a set that is
    still to be processed. *)
Definition processed (nodes transitions : Partition) (next : Z) : Prop :=
  forall u v t i, set_of nodes u = set_of nodes v -> 0 <= v < N -> 0 <= t < T -> source t = u -> set_of transitions t = Some i -> i < next ->
    exists s j, 0 <= s < T /\ source s = v /\ symbol s = symbol t /\ set_of transitions s = Some j /\ (j = i \/ next <= j).

Lemma processed_refined g g' next : round_ok g g' -> next <= partition_size (m_transitionPartition g) ->
  processed (m_nodePartition g) (m_transitionPartition g) next -> processed (m_nodePartition g') (m_transitionPartition g') next.
Proof.
  intros Hr Hn Hp u v t i Huv Hv Ht Hsrc Hi Hlt. destruct (refines_parts _ _ (ro_refines _ _ Hr) u v Huv) as [Huv' _].
  apply (extends_old _ _ _ _ (ro_extends _ _ Hr)) in Hi; [|lia].
  destruct (Hp u v t i Huv' Hv Ht Hsrc Hi Hlt) as (s & j & ? & ? & ? & Hj & Hji). exists s.
  destruct (ext_index _ _ (ro_extends _ _ Hr) s) as [Heq|(k & Hk & ?)].
  - exists j. rewrite Heq. done.
  - exists k. split_and!; try done; lia.
Qed.

Record split_inv (g : FullGraphPartition) : Prop := {
  si_graph : graph_ok g;
  si_nodes : settled N (m_nodePartition g);
  si_transitions : settled T (m_transitionPartition g);
  si_coherent : coherent (m_nodePartition g) (m_transitionPartition g);
  si_next : 0 <= m_nextTransitionSetToProcess g;
  si_processed : m_nextTransitionSetToProcess g <= partition_size (m_transitionPartition g)
    /\ processed (m_nodePartition g) (m_transitionPartition g) (m_nextTransitionSetToProcess g)
}.

(** The set with the next index is a splitter afterwards. *)
Lemma processed_next g g' next : round_ok g g' -> next < partition_size (m_transitionPartition g) ->
  coherent (m_nodePartition g) (m_transitionPartition g) ->
  (forall u v, set_of (m_nodePartition g') u = set_of (m_nodePartition g') v ->
     (exists t, 0 <= t < T /\ source t = u /\ set_of (m_transitionPartition g) t = Some next) ->
     exists t, 0 <= t < T /\ source t = v /\ set_of (m_transitionPartition g) t = Some next) ->
  processed (m_nodePartition g) (m_transitionPartition g) next ->
  processed (m_nodePartition g') (m_transitionPartition g') (next + 1).
Proof.
  intros Hr Hn Hco Hsplit Hp u v t i Huv Hv Ht Hsrc Hi Hlt.
  pose proof (λ e i, extends_old _ _ e i (ro_extends _ _ Hr)) as Hold.
  apply Hold in Hi as Hi'; [|lia]. destruct (decide (i = next)) as [->|Hne].
  - destruct (Hsplit u v Huv) as (s & Hs & Hsv & Hsn); [by exists t|]. exists s.
    destruct (Hco s t Hs Ht) as [Hsym _]; [congruence|].
    destruct (ext_index _ _ (ro_extends _ _ Hr) s) as [Heq|(k & Hk & ?)].
    + exists next. rewrite Heq. split_and!; try done; lia.
    + exists k. split_and!; try done; lia.
  - destruct (processed_refined g g' next Hr ltac:(lia) Hp u v t i Huv Hv Ht Hsrc Hi ltac:(lia)) as (s & j & Hs & Hsv & Hsym & Hj & Hji).
    exists s, j. split_and!; try done; try lia. destruct Hji as [->|Hji]; [by left|]. destruct (decide (j = next)) as [->|]; [|lia].
    apply Hold in Hj as Hj'; [|done].
    destruct (Hsplit v u) as (t2 & Ht2 & Ht2u & Ht2n); [done|by exists s|].
    destruct (Hco t2 s Ht2 Hs) as [Hsym2 _]; [congruence|].
    assert (t2 = t) as -> by (apply Hdet; congruence). rewrite Hi' in Ht2n. congruence.
Qed.

Lemma splitByTransitionSet_spec g : split_inv g -> m_nextTransitionSetToProcess g < partition_size (m_transitionPartition g) ->
  exists g', splitByTransitionSet g = Some g' /\ split_inv g' /\ m_nextTransitionSetToProcess g' = m_nextTransitionSetToProcess g + 1
    /\ (forall u v, set_of (m_nodePartition g') u = set_of (m_nodePartition g') v -> set_of (m_nodePartition g) u = set_of (m_nodePartition g) v)
    /\ (together g -> together g').
Proof.
  intros HI Hlt. set (next := m_nextTransitionSetToProcess g) in *. pose proof (si_next g HI) as Hnext. fold next in Hnext.
  pose proof (si_graph g HI) as Hg. destruct (si_nodes g HI) as [HPn Hniln]. destruct (si_transitions g HI) as [HPt Hnilt].
  unfold splitByTransitionSet. fold next.
  destruct (iterateSet_spec T [] (m_transitionPartition g) next HPt) as (ts & -> & Hnd & Hts); [lia|]. cbn [mbind option_bind].
  assert (forall t, t ∈ ts -> 0 <= t < T) as Htr.
  { intros t Ht%Hts. rewrite <- (po_map _ _ _ HPt). by eapply vec_at_bound. }
  assert (mapM (vec_at (m_flattenedTransitions g)) ts = Some (source <$> ts)) as ->.
  { apply mapM_Some. apply Forall2_fmap_r, Forall_Forall2_diag, Forall_forall. intros t Ht. apply (go_source g Hg). auto. }
  cbn [mbind option_bind].
  assert (NoDup (source <$> ts)) as Hsrc.
  { apply NoDup_fmap_2_strong; [|done]. intros t t' Ht Ht' Heq. apply Hdet; auto.
    apply Hts in Ht as Hs, Ht' as Hs'. destruct (si_coherent g HI t t') as [? _]; auto. congruence. }
  destruct (markAll_spec N (m_nodePartition g) (source <$> ts)) as (p1 & -> & HP1 & Hmap1 & Hsz1 & Hm1); [by rewrite Hniln|done| |].
  { intros e (t & -> & Ht)%list_elem_of_fmap. split; [apply Hrange; auto|by apply (unmarked N)]. }
  cbn [mbind option_bind]. set (g1 := set_partitions g p1 (m_transitionPartition g)).
  assert (coherent p1 (m_transitionPartition g)) as Hco1.
  { pose proof (si_coherent g HI) as Hco. unfold coherent. by rewrite Hmap1. }
  destruct (refinePartitions_spec g1) as (g' & -> & Hr); [by apply graph_ok_static|done|done|done|]. cbn [mbind option_bind].
  eexists. split; [done|]. cbn [m_nextTransitionSetToProcess m_nodePartition]. rewrite (ro_next _ _ Hr). split_and!; [|done| |].
  3:{ intros [Hn Ht]. apply (ro_together _ _ Hr); [|split; [intros u v Huv; cbn; rewrite Hmap1; by apply Hn|exact Ht]].
      assert (forall u v, similar u v -> marked p1 u = true -> marked p1 v = true) as Hmono.
      { intros u v Huv. rewrite !Hm1. intros [Hu|(t & -> & Hin)%list_elem_of_fmap]; [by rewrite (unmarked N) in Hu by done|]. right.
        destruct (Hsimilar t v (Htr t Hin) Huv) as (s & Hs & <- & Hsym & Hsim). apply list_elem_of_fmap. exists s. split; [done|].
        apply Hts. rewrite <- (Ht t s); auto. by apply Hts. }
      intros u v Huv. cbn [g1 set_partitions m_nodePartition]. apply eq_true_iff_eq. split; apply Hmono; auto. }
  2:{ intros u v Huv. destruct (refines_parts _ _ (ro_refines _ _ Hr) u v Huv) as [Hs _]. cbn [g1 set_partitions m_nodePartition] in Hs. by rewrite Hmap1 in Hs. }
  pose proof Hr as [H1 H2 H3 H4 H5 H6 H7 _]. split; cbn; try done.
  - split; apply H1.
  - change (m_nextTransitionSetToProcess g1) with next in H7. lia.
  - cbn [g1 set_partitions m_nextTransitionSetToProcess m_transitionPartition] in *.
    split; [pose proof (ext_size _ _ H6); fold next; lia|]. fold next. apply (processed_next g1 g'); try done.
    + intros u v Huv (t & Ht & Htu & Hn). destruct (refines_parts _ _ H5 u v Huv) as [_ Hm]. cbn [g1 set_partitions m_nodePartition] in Hm.
      assert (marked p1 v = true) as Hv%Hm1.
      { rewrite <- Hm. apply Hm1. right. apply list_elem_of_fmap. exists t. split; [done|]. by apply Hts. }
      destruct Hv as [Hv|(s & -> & Hs)%list_elem_of_fmap]; [by rewrite (unmarked N) in Hv by done|]. exists s. apply Hts in Hs as Hs'. auto.
    + destruct (si_processed g HI) as [_ Hp]. fold next in Hp. intros u v. cbn [g1 set_partitions m_nodePartition]. rewrite Hmap1. apply Hp.
Qed.

(** ** The loop *)

Lemma splitByUniqueTransitions_spec fuel g : split_inv g -> T <= Z.of_nat fuel + m_nextTransitionSetToProcess g ->
  exists g', splitByUniqueTransitions fuel g = Some g' /\ split_inv g'
    /\ partition_size (m_transitionPartition g') <= m_nextTransitionSetToProcess g'
    /\ (forall u v, set_of (m_nodePartition g') u = set_of (m_nodePartition g') v -> set_of (m_nodePartition g) u = set_of (m_nodePartition g) v)
    /\ (together g -> together g').
Proof.
  revert g. induction fuel as [|fuel IH]; intros g HI Hf; cbn [splitByUniqueTransitions];
    destruct (_ <? _) eqn:E; zbool; try (by exists g).
  - pose proof (partition_size_bound T [] _ (proj1 (si_transitions g HI))). lia.
  - destruct (splitByTransitionSet_spec g HI E) as (g1 & -> & HI1 & Hn1 & Href1 & Htog1). cbn [mbind option_bind].
    destruct (IH g1 HI1) as (g' & ? & ? & ? & Href & Htog); [lia|]. exists g'. split_and!; auto.
Qed.

(** The nodes of a set have the same transitions up to the sets of the targets. *)
Definition stable (p : Partition) : Prop :=
  forall u v t, set_of p u = set_of p v -> 0 <= v < N -> 0 <= t < T -> source t = u ->
    exists s, 0 <= s < T /\ source s = v /\ symbol s = symbol t /\ set_of p (target s) = set_of p (target t).

Lemma split_inv_stable g : split_inv g -> partition_size (m_transitionPartition g) <= m_nextTransitionSetToProcess g ->
  stable (m_nodePartition g).
Proof.
  intros HI Hend u v t Huv Hv Ht Hsrc. destruct (si_transitions g HI) as [HPt _].
  destruct (vec_at_is_Some (m_elementToSetMap (m_transitionPartition g)) t) as [i Hi]; [by rewrite (po_map _ _ _ HPt)|].
  pose proof (set_of_bound _ _ _ _ _ HPt Hi). destruct (si_processed g HI) as [_ Hp].
  destruct (Hp u v t i Huv Hv Ht Hsrc Hi) as (s & j & Hs & ? & ? & Hj & Hji); [lia|]. exists s. do 3 (split; [done|]).
  apply (si_coherent g HI s t Hs Ht). pose proof (set_of_bound _ _ _ _ _ HPt Hj). destruct Hji as [->|]; [congruence|lia].
Qed.
End Split.
