(* ===== verification/MinimizerGraph.v ===== *)
(** * The graph that the minimizer refines

    The constructor of [FullGraphPartition] on an automaton without killed nodes:
    its vectors describe the transitions of the automaton over the singular
    ranges, grouped by target and by range. *)

From stdpp Require Import base numbers option list list_numbers gmap sets.
From Stdlib Require Import ZArith Lia.
From S2P Require Import Prelude.
From S2P Require Import DFA.
From S2P Require Import MutableRangeList.
From S2P Require Import NFA.
From S2P Require Import Buckets.
From S2P Require Import Partition.
From S2P Require Import DFAMinimizer.
From S2P Require Import SingularRanges.
From S2P Require Import MinimizerSplit.

(** ** Folds *)

Lemma foldl_none {S I} (f : S -> I -> option S) l : foldl (λ s i, s ← s; f s i) None l = None.
Proof. by induction l. Qed.

(** Nested loops as one loop over all pairs. *)
Lemma foldl_nested {S I J} (f : S -> I -> J -> option S) (calls : I -> list J) (l : list I) (s : option S) :
  foldl (λ s i, s ← s; foldl (λ s j, s ← s; f s i j) (Some s) (calls i)) s l
  = foldl (λ s e, s ← s; f s e.1 e.2) s (l ≫= λ i, pair i <$> calls i).
Proof.
  revert s. induction l as [|i l IH]; intros s; [done|]. cbn [foldl mbind list_bind]. rewrite IH. unfold mbind, list_bind. fold (mbind (M := list) (λ i, pair i <$> calls i) l).
  rewrite foldl_app. f_equal. destruct s as [s|]; cbn [mbind option_bind]; [|by rewrite foldl_none].
  generalize (Some s) as o. induction (calls i) as [|j js IHj]; intros o; [done|]. cbn [foldl fmap list_fmap fst snd]. apply IHj.
Qed.

(** ** The loops of the constructor *)

Lemma addTransitionSets_spec rs : exists p, addTransitionSets rs = (p, bucket_start (λ i, default 0 (mr_data <$> vec_at rs i)) (vec_size rs))
  /\ m_partitionedElements p = [] /\ m_elementPositionInPartitionedNodes p = [] /\ m_elementToSetMap p = []
  /\ m_setsMarkedInCurrentGeneration p = [] /\ vec_size (m_sets p) = vec_size rs
  /\ forall i r, vec_at rs i = Some r ->
       descriptor p i = Some (mkSetDescriptor (bucket_start (λ i, default 0 (mr_data <$> vec_at rs i)) i) (mr_data r) 0).
Proof.
  unfold addTransitionSets. induction rs as [|r rs IH] using rev_ind.
  { exists emptyPartition. split_and!; try done. intros i r Hi. apply vec_at_bound in Hi. change (vec_size []) with 0 in Hi. lia. }
  rewrite foldl_snoc. destruct IH as (p & -> & H1 & H2 & H3 & H4 & Hsz & Hd).
  set (size := λ i, default 0 (mr_data <$> vec_at rs i)) in *. set (size' := λ i, default 0 (mr_data <$> vec_at (rs ++ [r]) i)).
  assert (forall b, b <= vec_size rs -> bucket_start size' b = bucket_start size b) as Hext.
  { intros b Hb. apply bucket_start_ext. intros i Hi. unfold size', size. by rewrite vec_at_app_l by lia. }
  assert (size' (vec_size rs) = mr_data r) as Hlast by (unfold size'; by rewrite vec_at_snoc).
  eexists. split.
  { rewrite vec_size_app. change (vec_size [r]) with 1. rewrite (bucket_start_S size') by apply vec_size_nonneg. rewrite Hext, Hlast by lia. done. }
  cbn [addSetUnchecked m_partitionedElements m_elementPositionInPartitionedNodes m_elementToSetMap m_setsMarkedInCurrentGeneration m_sets].
  split_and!; try done; [by rewrite !vec_size_app, Hsz|]. intros i r' Hi. rewrite vec_at_snoc_case in Hi. rewrite vec_at_snoc_case, Hsz.
  destruct (i =? vec_size rs) eqn:E; zbool.
  - subst i. injection Hi as <-. by rewrite Hext by lia.
  - rewrite (Hd i r' Hi). rewrite Hext; [done|]. apply vec_at_bound in Hi. lia.
Qed.

Lemma accumulateOffsets_spec counts :
  exists offsets, accumulateOffsets counts = (offsets, bucket_start (λ i, default 0 (vec_at counts i)) (vec_size counts))
  /\ vec_size offsets = vec_size counts
  /\ forall b, 0 <= b < vec_size counts -> vec_at offsets b = Some (bucket_start (λ i, default 0 (vec_at counts i)) b).
Proof.
  unfold accumulateOffsets. induction counts as [|c counts IH] using rev_ind.
  { exists []. split_and!; try done. change (vec_size []) with 0. lia. }
  rewrite foldl_snoc. destruct IH as (offsets & -> & Hsz & Hat).
  set (size := λ i, default 0 (vec_at counts i)) in *. set (size' := λ i, default 0 (vec_at (counts ++ [c]) i)).
  assert (forall b, b <= vec_size counts -> bucket_start size' b = bucket_start size b) as Hext.
  { intros b Hb. apply bucket_start_ext. intros i Hi. unfold size', size. by rewrite vec_at_app_l by lia. }
  assert (size' (vec_size counts) = c) as Hlast by (unfold size'; by rewrite vec_at_snoc).
  rewrite vec_size_app. change (vec_size [c]) with 1. eexists. split.
  { rewrite (bucket_start_S size') by apply vec_size_nonneg. rewrite Hext, Hlast by lia. done. }
  split; [by rewrite vec_size_app, Hsz|]. intros b Hb. rewrite vec_at_snoc_case, Hsz. rewrite Hext by lia.
  destruct (b =? vec_size counts) eqn:E; zbool; [by subst b|]. apply Hat. lia.
Qed.

Lemma increment_spec v i x : vec_at v i = Some x -> exists v', increment v i = Some v' /\ vec_size v' = vec_size v
  /\ forall j, vec_at v' j = if i =? j then Some (x + 1) else vec_at v j.
Proof.
  intros Hi. unfold increment. rewrite Hi. cbn [mbind option_bind]. destruct (vec_set_is_Some v i (x + 1)) as [v' Hv']; [by eapply vec_at_bound|].
  exists v'. split_and!; [done|by eapply vec_set_size|]. intros j. by apply vec_set_spec.
Qed.

Lemma vec_at_replicate {A} (n : nat) (x : A) i : 0 <= i < Z.of_nat n -> vec_at (replicate n x) i = Some x.
Proof. intros Hi. apply vec_at_Some. split; [lia|]. apply lookup_replicate. split; [done|lia]. Qed.

Lemma countIncoming_spec n calls : Forall (λ b, 0 <= b < Z.of_nat n) calls.*2 ->
  exists counts, countIncoming n calls = Some counts /\ vec_size counts = Z.of_nat n
    /\ forall b, 0 <= b < Z.of_nat n -> vec_at counts b = Some (occurrences b calls.*2).
Proof.
  intros Hc. unfold countIncoming.
  destruct (foldl_option_inv (λ counts (call : Z * Z), increment counts call.2) (λ pre counts, vec_size counts = Z.of_nat n
    /\ forall b, 0 <= b < Z.of_nat n -> vec_at counts b = Some (occurrences b pre.*2)) calls (replicate n 0)) as (counts & ? & ? & ?); [| |by exists counts].
  - split; [unfold vec_size; by rewrite length_replicate|]. intros b Hb. by rewrite vec_at_replicate.
  - intros pre call todo counts Heq [Hsz Hat]. rewrite Heq, fmap_app, fmap_cons in Hc. apply Forall_app in Hc as [_ Hc]. apply Forall_cons in Hc as [Hb _].
    destruct (increment_spec counts call.2 _ (Hat _ Hb)) as (counts' & -> & Hsz' & Hat'). exists counts'. split; [done|]. split; [lia|].
    intros b Hb'. rewrite Hat', fmap_app, occurrences_app. change ([call].*2) with [call.2]. rewrite occurrences_single.
    destruct (call.2 =? b) eqn:E; zbool; [by subst|]. rewrite Hat by done. by rewrite Z.add_0_r.
Qed.

(** One set with all nodes. *)
Lemma initialize_spec n : 0 < n -> settled n (initialize n) /\ forall e, 0 <= e < n -> set_of (initialize n) e = Some 0.
Proof.
  intros Hn. unfold initialize. rewrite (proj2 (Z.eqb_neq n 0)) by lia. set (p := mkPartition _ _ _ _ _).
  assert (forall e x, vec_at (seqZ 0 n) e = Some x <-> x = e /\ 0 <= e < n) as Hseq.
  { intros e x. rewrite vec_at_Some, lookup_seqZ. lia. }
  assert (forall e, 0 <= e < n -> set_of p e = Some 0) as Hset by (intros e He; apply vec_at_replicate; lia).
  assert (forall i d, descriptor p i = Some d -> i = 0 /\ d = mkSetDescriptor 0 n 0) as Hd.
  { intros i d Hi. apply vec_at_bound in Hi as Hb. change (vec_size (m_sets p)) with 1 in Hb. replace i with 0 in * by lia. split; [done|]. by injection Hi as <-. }
  split; [|done]. split; [|done]. split; cbn [p m_partitionedElements m_elementPositionInPartitionedNodes m_elementToSetMap]; fold p.
  - unfold vec_size. rewrite length_seqZ. lia.
  - unfold vec_size. rewrite length_seqZ. lia.
  - unfold vec_size. rewrite length_replicate. lia.
  - intros e i. rewrite !Hseq. lia.
  - intros i d [-> ->]%Hd. unfold sd_end. simpl. lia.
  - intros e pos [-> He]%Hseq. exists 0, (mkSetDescriptor 0 n 0). unfold sd_end. split_and!; [by apply Hset|done|simpl; lia..].
  - intros i d pos e [-> ->]%Hd _ [-> He]%Hseq. by apply Hset.
  - constructor.
  - intros i. rewrite elem_of_nil. split; [done|]. intros (d & [_ ->]%Hd & Hm). simpl in Hm. lia.
Qed.

(** ** Filling the vectors *)

(** A transition over a range: its source, the index of the range, its target. *)
Abbreviation Event := (Z * Z * Z)%type.
Abbreviation ev_source e := (e.1.1).
Abbreviation ev_symbol e := (e.1.2).
Abbreviation ev_target e := (e.2).

Section Fill.
Context (N M : Z) (events : list Event) (startOffsets : list Z) (sets : list SetDescriptor).
Abbreviation targets := ((λ e : Event, e.2) <$> events).
Abbreviation symbols := ((λ e : Event, e.1.2) <$> events).
Abbreviation T := (vec_size events).
Hypothesis Htargets : Forall (λ b, 0 <= b < N) targets.
Hypothesis Hsymbols : Forall (λ b, 0 <= b < M) symbols.
Hypothesis Hstart : forall b, 0 <= b < N -> vec_at startOffsets b = Some (bucket_start (λ b, occurrences b targets) b).
Hypothesis Hsets : vec_size sets = M.
Hypothesis Hdesc : forall i, 0 <= i < M ->
  vec_at sets i = Some (mkSetDescriptor (bucket_start (λ b, occurrences b symbols) i) (occurrences i symbols) 0).

(** Where an event is in the flattened transitions and in the partition. *)
Definition target_position (j : nat) (e : Event) : Z := position targets j (ev_target e).
Definition symbol_position (j : nat) (e : Event) : Z := position symbols j (ev_symbol e).

Lemma event_target j e : events !! j = Some e -> targets !! j = Some (ev_target e).
Proof. intros He. by rewrite list_lookup_fmap, He. Qed.
Lemma event_symbol j e : events !! j = Some e -> symbols !! j = Some (ev_symbol e).
Proof. intros He. by rewrite list_lookup_fmap, He. Qed.

Lemma target_position_bound j e : events !! j = Some e -> 0 <= target_position j e < T.
Proof. intros He. replace T with (vec_size targets) by (unfold vec_size; by rewrite length_fmap). by eapply position_bound, event_target. Qed.
Lemma symbol_position_bound j e : events !! j = Some e -> 0 <= symbol_position j e < T.
Proof. intros He. replace T with (vec_size symbols) by (unfold vec_size; by rewrite length_fmap). by eapply position_bound, event_symbol. Qed.
Lemma target_position_inj j k e f : events !! j = Some e -> events !! k = Some f -> target_position j e = target_position k f -> j = k.
Proof. intros He Hf. eapply (position_inj targets N Htargets); by apply event_target. Qed.
Lemma symbol_position_inj j k e f : events !! j = Some e -> events !! k = Some f -> symbol_position j e = symbol_position k f -> j = k.
Proof. intros He Hf. eapply (position_inj symbols M Hsymbols); by apply event_symbol. Qed.
Lemma target_position_surj t : 0 <= t < T -> exists j e, events !! j = Some e /\ target_position j e = t.
Proof.
  intros Ht. destruct (position_surj targets N Htargets t) as (j & b & Hj & Hp); [unfold vec_size in *; by rewrite length_fmap|].
  rewrite list_lookup_fmap in Hj. destruct (events !! j) as [e|] eqn:E; [|done]. exists j, e. split; [done|]. by injection Hj as <-.
Qed.
Lemma symbol_position_surj t : 0 <= t < T -> exists j e, events !! j = Some e /\ symbol_position j e = t.
Proof.
  intros Ht. destruct (position_surj symbols M Hsymbols t) as (j & b & Hj & Hp); [unfold vec_size in *; by rewrite length_fmap|].
  rewrite list_lookup_fmap in Hj. destruct (events !! j) as [e|] eqn:E; [|done]. exists j, e. split; [done|]. by injection Hj as <-.
Qed.

(** The state after the first [k] events. *)
Record filled (k : nat) (st : FillState) : Prop := {
  fi_flattened : vec_size (fs_flattened st) = T;
  fi_sizes : forall b, 0 <= b < N -> vec_at (fs_sizePerNode st) b = Some (occurrences b (take k targets));
  fi_offsets : forall b, 0 <= b < M -> vec_at (fs_offsetPerRange st) b = Some (occurrences b (take k symbols));
  fi_sets : m_sets (fs_partition st) = sets /\ m_setsMarkedInCurrentGeneration (fs_partition st) = [];
  fi_elements : vec_size (m_partitionedElements (fs_partition st)) = T;
  fi_positions : vec_size (m_elementPositionInPartitionedNodes (fs_partition st)) = T;
  fi_map : vec_size (m_elementToSetMap (fs_partition st)) = T;
  fi_event : forall j e, (j < k)%nat -> events !! j = Some e ->
    vec_at (fs_flattened st) (target_position j e) = Some (ev_source e)
    /\ element_at (fs_partition st) (symbol_position j e) = Some (target_position j e)
    /\ position_of (fs_partition st) (target_position j e) = Some (symbol_position j e)
    /\ set_of (fs_partition st) (target_position j e) = Some (ev_symbol e)
}.

Lemma fillTransition_spec k e st : filled k st -> events !! k = Some e ->
  exists st', fillTransition startOffsets (ev_source e) st (ev_symbol e, ev_target e) = Some st' /\ filled (S k) st'.
Proof.
  intros HF He. pose proof (Forall_lookup_1 _ _ _ _ Htargets (event_target k e He)) as Ht. simpl in Ht.
  pose proof (Forall_lookup_1 _ _ _ _ Hsymbols (event_symbol k e He)) as Hs. simpl in Hs.
  pose proof (target_position_bound k e He) as Hpb. pose proof (symbol_position_bound k e He) as Hsb.
  unfold fillTransition. rewrite Hstart by done. cbn [mbind option_bind]. rewrite (fi_sizes k st HF) by done. cbn [mbind option_bind].
  change (bucket_start (λ b, occurrences b targets) (ev_target e) + occurrences (ev_target e) (take k targets)) with (target_position k e).
  destruct (vec_set_is_Some (fs_flattened st) (target_position k e) (ev_source e)) as [flat Hflat]; [by rewrite (fi_flattened k st HF)|].
  rewrite Hflat. cbn [mbind option_bind]. rewrite (fi_offsets k st HF) by done. cbn [mbind option_bind].
  unfold startOffsetOfSet. destruct (fi_sets k st HF) as [-> Hnil]. rewrite (Hdesc _ Hs). cbn [fmap option_fmap option_map mbind option_bind sd_start].
  change (bucket_start (λ b, occurrences b symbols) (ev_symbol e) + occurrences (ev_symbol e) (take k symbols)) with (symbol_position k e).
  destruct (vec_set_is_Some (fs_offsetPerRange st) (ev_symbol e) (occurrences (ev_symbol e) (take k symbols) + 1)) as [offs Hoffs].
  { eapply vec_at_bound. by apply (fi_offsets k st HF). }
  rewrite Hoffs. cbn [mbind option_bind]. unfold setElementUnchecked.
  destruct (vec_set_is_Some (m_partitionedElements (fs_partition st)) (symbol_position k e) (target_position k e)) as [els Hels]; [by rewrite (fi_elements k st HF)|].
  rewrite Hels. cbn [mbind option_bind].
  destruct (vec_set_is_Some (m_elementPositionInPartitionedNodes (fs_partition st)) (target_position k e) (symbol_position k e)) as [poss Hposs]; [by rewrite (fi_positions k st HF)|].
  rewrite Hposs. cbn [mbind option_bind].
  destruct (vec_set_is_Some (m_elementToSetMap (fs_partition st)) (target_position k e) (ev_symbol e)) as [map Hmap]; [by rewrite (fi_map k st HF)|].
  rewrite Hmap. cbn [mbind option_bind].
  destruct (increment_spec _ _ _ (fi_sizes k st HF (ev_target e) Ht)) as (sizes & -> & _ & Hsizes). cbn [mbind option_bind].
  eexists. split; [done|]. split; cbn [fs_flattened fs_sizePerNode fs_offsetPerRange fs_partition m_sets m_setsMarkedInCurrentGeneration
    m_partitionedElements m_elementPositionInPartitionedNodes m_elementToSetMap].
  - by rewrite (vec_set_size _ _ _ _ Hflat), (fi_flattened k st HF).
  - intros b Hb. rewrite Hsizes, (occurrences_take_S b targets k _ (event_target k e He)). destruct (ev_target e =? b) eqn:E; zbool; [by subst|].
    by rewrite (fi_sizes k st HF), Z.add_0_r.
  - intros b Hb. rewrite (vec_set_spec _ _ _ _ b Hoffs), (occurrences_take_S b symbols k _ (event_symbol k e He)). destruct (ev_symbol e =? b) eqn:E; zbool; [by subst|].
    by rewrite (fi_offsets k st HF), Z.add_0_r.
  - split; [apply HF|done].
  - by rewrite (vec_set_size _ _ _ _ Hels), (fi_elements k st HF).
  - by rewrite (vec_set_size _ _ _ _ Hposs), (fi_positions k st HF).
  - by rewrite (vec_set_size _ _ _ _ Hmap), (fi_map k st HF).
  - intros j f Hj Hf. rewrite (vec_set_spec _ _ _ _ _ Hflat), (vec_set_spec _ _ _ _ _ Hels), (vec_set_spec _ _ _ _ _ Hposs), (vec_set_spec _ _ _ _ _ Hmap).
    destruct (decide (j = k)) as [->|Hne]; [rewrite He in Hf; injection Hf as <-; by rewrite !Z.eqb_refl|].
    rewrite !(proj2 (Z.eqb_neq (target_position k e) (target_position j f))) by (intros Heq; apply Hne; symmetry; by eapply target_position_inj).
    rewrite !(proj2 (Z.eqb_neq (symbol_position k e) (symbol_position j f))) by (intros Heq; apply Hne; symmetry; by eapply symbol_position_inj).
    apply (fi_event k st HF); [lia|done].
Qed.

Lemma fillEvents_spec st : filled 0 st ->
  exists st', foldl (λ st e, st ← st; fillTransition startOffsets (ev_source e) st (ev_symbol e, ev_target e)) (Some st) events = Some st'
    /\ filled (length events) st'.
Proof.
  intros HF. destruct (foldl_option_inv (λ st e, fillTransition startOffsets (ev_source e) st (ev_symbol e, ev_target e))
    (λ pre st, filled (length pre) st) events st HF) as (st' & ? & ?); [|by exists st'].
  intros pre e todo st1 Heq HF1. rewrite length_app, Nat.add_1_r. apply fillTransition_spec; [done|].
  by rewrite Heq, list_lookup_middle.
Qed.

(** All positions are filled now: the transitions are partitioned by symbol. *)
Lemma filled_partition st : filled (length events) st -> (forall i, 0 <= i < M -> 0 < occurrences i symbols) ->
  partition_ok T [] (fs_partition st).
Proof.
  intros HF Hpos. destruct (fi_sets _ st HF) as [Hs _].
  assert (forall j e, events !! j = Some e -> element_at (fs_partition st) (symbol_position j e) = Some (target_position j e)
    /\ position_of (fs_partition st) (target_position j e) = Some (symbol_position j e)
    /\ set_of (fs_partition st) (target_position j e) = Some (ev_symbol e)) as Hev.
  { intros j e He. apply (fi_event _ st HF j e); [by eapply lookup_lt_Some|done]. }
  split; try apply HF.
  - intros x i. split; intros Hx; apply vec_at_bound in Hx as Hb.
    + rewrite (fi_elements _ st HF) in Hb. destruct (symbol_position_surj i Hb) as (j & e & He & <-). destruct (Hev j e He) as (H1 & H2 & _). congruence.
    + rewrite (fi_positions _ st HF) in Hb. destruct (target_position_surj x Hb) as (j & e & He & <-). destruct (Hev j e He) as (H1 & H2 & _). congruence.
  - intros i d. rewrite Hs. intros Hd. apply vec_at_bound in Hd as Hb. rewrite Hsets in Hb. rewrite Hdesc in Hd by done. injection Hd as <-.
    unfold sd_end. cbn [sd_start sd_size sd_markedCount]. pose proof (occurrences_nonneg i symbols).
    pose proof (bucket_start_nonneg (λ b, occurrences b symbols) i ltac:(intros; apply occurrences_nonneg)).
    pose proof (bucket_start_mono (λ b, occurrences b symbols) i M ltac:(intros; apply occurrences_nonneg)) as Hm. simpl in Hm.
    rewrite (bucket_total symbols M) in Hm by (done || lia). replace (vec_size symbols) with T in Hm by (unfold vec_size; by rewrite length_fmap).
    specialize (Hpos i Hb). split_and!; lia.
  - intros x pos Hx. apply vec_at_bound in Hx as Hb. rewrite (fi_positions _ st HF) in Hb. destruct (target_position_surj x Hb) as (j & e & He & <-).
    destruct (Hev j e He) as (_ & H2 & H3). rewrite Hx in H2. injection H2 as ->. pose proof (Forall_lookup_1 _ _ _ _ Hsymbols (event_symbol j e He)) as Hsy. simpl in Hsy.
    eexists _, _. rewrite H3, Hs, Hdesc by done. split_and!; try done; apply (position_bucket symbols); by apply event_symbol.
  - intros i d pos x. rewrite Hs. intros Hd Hp Hx. apply vec_at_bound in Hd as Hb. rewrite Hsets in Hb. rewrite Hdesc in Hd by done. injection Hd as <-.
    apply vec_at_bound in Hx as Hxb. rewrite (fi_elements _ st HF) in Hxb. destruct (symbol_position_surj pos Hxb) as (j & e & He & <-).
    destruct (Hev j e He) as (H1 & _ & H3). rewrite Hx in H1. injection H1 as ->. rewrite H3. f_equal.
    pose proof (Forall_lookup_1 _ _ _ _ Hsymbols (event_symbol j e He)) as Hsy. simpl in Hsy.
    eapply (bucket_unique symbols (symbol_position j e)); [lia|lia|by apply (position_bucket symbols), event_symbol|exact Hp].
  - constructor.
  - intros i. rewrite Hs, elem_of_nil. split; [done|]. intros (d & Hd & Hm). apply vec_at_bound in Hd as Hb. rewrite Hsets in Hb. rewrite Hdesc in Hd by done.
    injection Hd as <-. simpl in Hm. lia.
Qed.

(** The event of a flattened transition. *)
Definition event_at (t : Z) : Event :=
  default (0, 0, 0) (list_find (λ p, p = t) (imap (λ k b, position targets k b) targets) ≫= λ x, events !! x.1).

Lemma event_at_spec t : 0 <= t < T -> exists j, events !! j = Some (event_at t) /\ target_position j (event_at t) = t.
Proof.
  intros Ht. destruct (target_position_surj t Ht) as (j & e & He & Hp). unfold event_at.
  destruct (list_find_elem_of (λ p, p = t) (imap (λ k b, position targets k b) targets) t) as [[k x] Hk]; [|done|].
  { apply list_elem_of_lookup. exists j. rewrite list_lookup_imap, (event_target j e He). by rewrite <- Hp. }
  rewrite Hk. cbn [mbind option_bind fst]. apply list_find_Some in Hk as (Hk & -> & _). rewrite list_lookup_imap in Hk.
  destruct (events !! k) as [f|] eqn:Ek; [|rewrite list_lookup_fmap, Ek in Hk; done]. rewrite (event_target k f Ek) in Hk. injection Hk as Hk.
  exists k. done.
Qed.

Lemma event_at_position j e : events !! j = Some e -> event_at (target_position j e) = e.
Proof.
  intros He. destruct (event_at_spec (target_position j e)) as (k & Hk & Hp); [by apply target_position_bound|].
  apply (target_position_inj _ _ _ _ Hk He) in Hp. subst k. congruence.
Qed.

(** The graph that is made of the filled vectors. *)
Definition filled_graph (st : FillState) : FullGraphPartition :=
  mkFullGraphPartition startOffsets (fs_sizePerNode st) (fs_flattened st) (initialize N) (fs_partition st) 0.

Lemma filled_incoming st v : filled (length events) st -> 0 <= v < N ->
  exists l, incomingTransitions (filled_graph st) v = Some l /\ NoDup l /\ forall t, t ∈ l <-> 0 <= t < T /\ ev_target (event_at t) = v.
Proof.
  intros HF Hv. unfold incomingTransitions. cbn [filled_graph m_flattenedTransitionsStartOffsetPerNode m_flattenedTransitionsSizePerNode].
  rewrite Hstart by done. cbn [mbind option_bind]. rewrite (fi_sizes _ st HF) by done. cbn [mbind option_bind].
  rewrite take_ge by (by rewrite length_fmap). eexists. split; [done|]. split; [apply NoDup_seqZ|]. intros t. rewrite elem_of_seqZ. split.
  - intros Hb. assert (0 <= t < T) as Ht.
    { pose proof (bucket_start_nonneg (λ b, occurrences b targets) v ltac:(intros; apply occurrences_nonneg)).
      pose proof (bucket_start_mono (λ b, occurrences b targets) v N ltac:(intros; apply occurrences_nonneg)) as Hm. simpl in Hm.
      rewrite (bucket_total targets N) in Hm by (done || lia). replace (vec_size targets) with T in Hm by (unfold vec_size; by rewrite length_fmap). lia. }
    split; [done|]. destruct (event_at_spec t Ht) as (j & Hj & Hp). pose proof (Forall_lookup_1 _ _ _ _ Htargets (event_target j _ Hj)) as Htb. simpl in Htb.
    apply (bucket_unique targets t); [lia|lia| |done]. pose proof (position_bucket targets j _ (event_target j _ Hj)) as Hpb.
    fold (target_position j (event_at t)) in Hpb. by rewrite Hp in Hpb.
  - intros [Ht <-]. destruct (event_at_spec t Ht) as (j & Hj & Hp). pose proof (position_bucket targets j _ (event_target j _ Hj)) as Hpb.
    fold (target_position j (event_at t)) in Hpb. by rewrite Hp in Hpb.
Qed.

Lemma filled_split_inv st : 0 < N -> filled (length events) st -> (forall i, 0 <= i < M -> 0 < occurrences i symbols) ->
  split_inv N T (λ t, ev_source (event_at t)) (λ t, ev_target (event_at t)) (λ t, ev_symbol (event_at t)) (filled_graph st)
  /\ forall similar, (forall u v, similar u v -> 0 <= u < N /\ 0 <= v < N) ->
       together T (λ t, ev_target (event_at t)) (λ t, ev_symbol (event_at t)) similar (filled_graph st).
Proof.
  intros HN HF Hpos. destruct (initialize_spec N HN) as [Hinit Hzero].
  assert (forall t, 0 <= t < T -> vec_at (fs_flattened st) t = Some (ev_source (event_at t))
    /\ set_of (fs_partition st) t = Some (ev_symbol (event_at t))) as Hev.
  { intros t Ht. destruct (event_at_spec t Ht) as (j & Hj & Hp).
    destruct (fi_event _ st HF j _ (lookup_lt_Some _ _ _ Hj) Hj) as (H1 & _ & _ & H4). by rewrite Hp in H1, H4. }
  assert (forall t, 0 <= t < T -> 0 <= ev_target (event_at t) < N) as Htb.
  { intros t Ht. destruct (event_at_spec t Ht) as (j & Hj & _). exact (Forall_lookup_1 _ _ _ _ Htargets (event_target j _ Hj)). }
  split.
  2:{ intros similar Hsim. split.
      - intros u v [Hu Hv]%Hsim. cbn [filled_graph m_nodePartition]. by rewrite !Hzero.
      - intros t t' Ht Ht' Hsym _. cbn [filled_graph m_transitionPartition]. destruct (Hev t Ht) as [_ ->], (Hev t' Ht') as [_ ->]. by rewrite Hsym. }
  split; cbn [filled_graph m_nodePartition m_transitionPartition m_nextTransitionSetToProcess]; try done.
  - split; [apply HF|by intros t Ht; apply Hev|]. intros v Hv. by apply filled_incoming.
  - split; [by apply filled_partition|apply HF].
  - intros t t' Ht Ht' Heq. destruct (Hev t Ht) as [_ H1], (Hev t' Ht') as [_ H2]. split; [congruence|]. by rewrite !Hzero by auto.
  - split; [apply vec_size_nonneg|]. intros u v t i _ _ Ht _ Hi Hneg. exfalso.
    pose proof (set_of_bound _ _ _ _ _ (filled_partition st HF Hpos) Hi). lia.
Qed.
End Fill.

(** ** The events of an automaton *)

Lemma NoDup_occurrences b keys : NoDup keys -> occurrences b keys = if decide (b ∈ keys) then 1 else 0.
Proof.
  induction 1 as [|k keys Hk _ IH]; [done|]. change (k :: keys) with ([k] ++ keys). rewrite occurrences_app, occurrences_single, IH.
  destruct (k =? b) eqn:E; zbool; repeat case_decide; set_solver by lia.
Qed.

Abbreviation NodeTransitions := (Z * list (CharRange * Z))%type.

Section Events.
Context {X : Type} (l : list (OtherRange X)).

Definition node_events (node : NodeTransitions) : list Event := (λ v, (node.1, v.1, v.2)) <$> visits l 0 node.2.
Definition all_events (nodes : list NodeTransitions) : list Event := nodes ≫= node_events.

Lemma all_events_cons node nodes : all_events (node :: nodes) = node_events node ++ all_events nodes.
Proof. done. Qed.

Lemma elem_of_events nodes e : e ∈ all_events nodes <-> exists ts r, (ev_source e, ts) ∈ nodes /\ vec_at l (ev_symbol e) = Some r
  /\ find_transition ts (o_first r) = Some (ev_target e).
Proof.
  unfold all_events. rewrite list_elem_of_bind. destruct e as [[u s] v]. cbn [fst snd]. unfold node_events.
  setoid_rewrite list_elem_of_fmap. setoid_rewrite vec_at_Some. split.
  - intros ([u' ts] & ([s' v'] & Heq & Hv) & Hn). cbn [fst snd] in *. simplify_eq. apply visits_index in Hv as (r & ? & Hr & ?).
    exists ts, r. rewrite Z.sub_0_r in Hr. done.
  - intros (ts & r & Hn & [Hs Hr] & Ht). exists (u, ts). split; [|done]. exists (s, v). split; [done|]. apply visits_index. exists r. by rewrite Z.sub_0_r.
Qed.

Lemma node_symbols node s r : vec_at l s = Some r ->
  occurrences s ((λ e : Event, e.1.2) <$> node_events node) = if decide (is_Some (find_transition node.2 (o_first r))) then 1 else 0.
Proof.
  intros Hr. unfold node_events. rewrite <- list_fmap_compose.
  change ((λ e : Event, e.1.2) ∘ (λ v : Z * Z, (node.1, v.1, v.2))) with (fst (A := Z) (B := Z)).
  rewrite NoDup_occurrences by apply visits_NoDup. apply vec_at_Some in Hr as [Hs Hr].
  assert (s ∈ (visits l 0 node.2).*1 <-> is_Some (find_transition node.2 (o_first r))) as Hiff.
  { rewrite list_elem_of_fmap. split.
    - intros ([s' t] & Heq & Hv). cbn [fst] in Heq. subst s'. apply visits_index in Hv as (r' & _ & Hr' & Ht). rewrite Z.sub_0_r in Hr'. simplify_eq. by exists t.
    - intros [t Ht]. exists (s, t). split; [done|]. apply visits_index. exists r. by rewrite Z.sub_0_r. }
  repeat case_decide; tauto.
Qed.

Lemma all_symbols nodes s r : vec_at l s = Some r ->
  occurrences s ((λ e : Event, e.1.2) <$> all_events nodes) = vec_size (filter (λ node : NodeTransitions, is_Some (find_transition node.2 (o_first r))) nodes).
Proof.
  intros Hr. induction nodes as [|node nodes IH]; [done|]. rewrite all_events_cons, fmap_app, occurrences_app, IH, (node_symbols _ _ _ Hr), filter_cons.
  case_decide; [unfold vec_size; simpl length; lia|lia].
Qed.

Lemma events_distinct nodes : NoDup nodes.*1 -> NoDup (all_events nodes).*1.
Proof.
  induction nodes as [|node nodes IH]; [constructor|]. rewrite fmap_cons, NoDup_cons. intros [Hn Hnd]. rewrite all_events_cons, fmap_app.
  apply NoDup_app. split_and!; [| |by apply IH].
  - unfold node_events. rewrite <- list_fmap_compose. change (fst ∘ (λ v : Z * Z, (node.1, v.1, v.2))) with (pair node.1 ∘ fst (A := Z) (B := Z)).
    rewrite list_fmap_compose. apply NoDup_fmap_2; [apply _|apply visits_NoDup].
  - intros x (e & -> & He)%list_elem_of_fmap (e' & Heq & He')%list_elem_of_fmap. apply Hn.
    unfold node_events in He. apply list_elem_of_fmap in He as (v & -> & _). cbn [fst] in Heq.
    apply elem_of_events in He' as (ts & _ & Hin & _). apply list_elem_of_fmap. exists (ev_source e', ts). rewrite <- Heq in *. done.
Qed.
End Events.

Lemma liveTransitions_spec dfa :
  (forall i node, vec_at (dfa_nodes dfa) i = Some node -> isKilled node = false /\ is_Some (node_transitions dfa node)) ->
  exists nodes, liveTransitions dfa = Some nodes /\ nodes.*1 = seqZ 0 (vec_size (dfa_nodes dfa))
    /\ forall i ts, (i, ts) ∈ nodes <-> exists node, vec_at (dfa_nodes dfa) i = Some node /\ node_transitions dfa node = Some ts.
Proof.
  intros Hlive. unfold liveTransitions. set (N := vec_size (dfa_nodes dfa)).
  destruct (foldl_indices_inv (λ acc i, node ← vec_at (dfa_nodes dfa) i;
      if isKilled node then Some acc else ts ← node_transitions dfa node; Some (acc ++ [(i, ts)]))
    (λ k acc, acc.*1 = seqZ 0 k /\ forall i ts, (i, ts) ∈ acc <-> i < k /\ exists node, vec_at (dfa_nodes dfa) i = Some node /\ node_transitions dfa node = Some ts)
    N []) as (nodes & Hf & Hfst & Hin).
  - apply vec_size_nonneg.
  - split; [done|]. intros i ts. rewrite elem_of_nil. split; [done|]. intros (Hi & node & Hn & _). apply vec_at_bound in Hn. lia.
  - intros k acc Hk [Hfst Hin]. destruct (vec_at_is_Some _ _ Hk) as [node Hnode]. rewrite Hnode. cbn [mbind option_bind].
    destruct (Hlive k node Hnode) as [-> [ts Hts]]. rewrite Hts. cbn [mbind option_bind]. eexists. split; [done|]. split.
    + rewrite fmap_app, Hfst. rewrite (seqZ_app 0 k 1) by lia. done.
    + intros i ts'. rewrite elem_of_app, list_elem_of_singleton, Hin. split.
      * intros [(? & ?)|[= -> ->]]; [split; [lia|done]|]. split; [lia|]. by exists node.
      * intros (Hi & node' & Hn' & Hts'). destruct (decide (i = k)) as [->|]; [right; by simplify_eq|]. left. split; [lia|]. by exists node'.
  - exists nodes. split_and!; [done|done|]. intros i ts. rewrite Hin. split; [tauto|]. intros (node & Hn & ?). split; [apply vec_at_bound in Hn; unfold N; lia|].
    by exists node.
Qed.

(** ** The whole constructor *)

(** The transitions of the automaton over ranges: [covers s c] says that the
    character [c] is in the range of the symbol [s]. *)
Record graph_of (dfa : DFA) (T : Z) (source target symbol : Z -> Z) (covers : Z -> Z -> Prop) : Prop := {
  gf_range : forall t, 0 <= t < T -> 0 <= source t < vec_size (dfa_nodes dfa) /\ 0 <= target t < vec_size (dfa_nodes dfa);
  gf_det : forall t t', 0 <= t < T -> 0 <= t' < T -> source t = source t' -> symbol t = symbol t' -> t = t';
  gf_edge : forall u c v, dfa_next dfa u c = Some v -> exists t, 0 <= t < T /\ source t = u /\ target t = v /\ covers (symbol t) c;
  gf_sound : forall t c, 0 <= t < T -> covers (symbol t) c -> dfa_next dfa (source t) c = Some (target t);
  gf_inhabited : forall t, 0 <= t < T -> exists c, covers (symbol t) c;
  gf_unique : forall s s' c, covers s c -> covers s' c -> s = s'
}.

(** The automata that are minimized: no node is killed, and the transitions are
    sorted and lead to nodes. *)
Definition plain_dfa (dfa : DFA) : Prop :=
  forall i node, vec_at (dfa_nodes dfa) i = Some node -> isKilled node = false
    /\ exists ts, node_transitions dfa node = Some ts /\ ranges_ok 0 ts = true /\ Forall (λ t, 0 <= t.2 < vec_size (dfa_nodes dfa)) ts.

Section Full.
Context (dfa : DFA) (nodes : list NodeTransitions) (l : list (OtherRange (list Origin))).
Hypothesis Hplain : plain_dfa dfa.
Hypothesis Hfst : nodes.*1 = seqZ 0 (vec_size (dfa_nodes dfa)).
Hypothesis Hin : forall i ts, (i, ts) ∈ nodes <-> exists node, vec_at (dfa_nodes dfa) i = Some node /\ node_transitions dfa node = Some ts.
Hypothesis Hl : singular_ok nodes l.
Abbreviation N := (vec_size (dfa_nodes dfa)).
Abbreviation events := (all_events l nodes).

Lemma nodes_distinct : NoDup nodes.*1.
Proof. rewrite Hfst. apply NoDup_seqZ. Qed.

Lemma nodes_sorted : Forall (λ node, ranges_ok 0 node.2 = true) nodes.
Proof.
  apply Forall_forall. intros [i ts] Hn. apply Hin in Hn as (node & Hnode & Hts). destruct (Hplain i node Hnode) as (_ & ts' & Hts' & ? & _). by simplify_eq.
Qed.

Lemma event_bounds e : e ∈ events -> 0 <= ev_source e < N /\ 0 <= ev_symbol e < vec_size l /\ 0 <= ev_target e < N.
Proof.
  intros (ts & r & Hn & Hr & Ht)%elem_of_events. apply Hin in Hn as (node & Hnode & Hts). apply vec_at_bound in Hnode as Hb, Hr as Hrb.
  destruct (Hplain _ node Hnode) as (_ & ts' & Hts' & _ & Hall). simplify_eq. split_and!; try lia;
    apply find_transition_elem in Ht as (rng & Hel & _); rewrite Forall_forall in Hall; apply Hall in Hel; simpl in Hel; lia.
Qed.

Definition covers (s c : Z) : Prop := exists r, vec_at l s = Some r /\ o_first r <= c <= o_last r.

Lemma event_sound e c : e ∈ events -> covers (ev_symbol e) c -> dfa_next dfa (ev_source e) c = Some (ev_target e).
Proof.
  intros (ts & r & Hn & Hr & Ht)%elem_of_events (r' & Hr' & Hc). simplify_eq. apply Hin in Hn as Hnode. destruct Hnode as (node & Hnode & Hts).
  unfold dfa_next. rewrite Hnode. cbn [mbind option_bind]. rewrite Hts. cbn [mbind option_bind]. rewrite <- Ht, !find_entry_transition. f_equal.
  apply vec_at_Some in Hr as [_ Hr]. apply list_elem_of_lookup_2 in Hr. pose proof (singular_bounds _ _ Hl r Hr).
  apply (singular_constant nodes l nodes_distinct Hl r c (o_first r) (ev_source e, ts)); try done; lia.
Qed.

Lemma event_complete u c v : dfa_next dfa u c = Some v -> exists s, (u, s, v) ∈ events /\ covers s c.
Proof.
  unfold dfa_next. destruct (vec_at (dfa_nodes dfa) u) as [node|] eqn:Hnode; [|done]. cbn [mbind option_bind].
  destruct (node_transitions dfa node) as [ts|] eqn:Hts; [|done]. cbn [mbind option_bind]. intros Hv.
  assert ((u, ts) ∈ nodes) as Hn by (apply Hin; by exists node).
  rewrite find_entry_transition in Hv. destruct (find_entry ts c) as [e|] eqn:He; [|done].
  destruct (singular_covers nodes l nodes_distinct nodes_sorted Hl (u, ts) c e Hn He) as (r & Hr & Hc).
  pose proof (singular_bounds _ _ Hl r Hr). apply list_elem_of_lookup in Hr as Hs. destruct Hs as [s Hs].
  assert (vec_at l (Z.of_nat s) = Some r) as Hs' by (by rewrite vec_at_nat).
  exists (Z.of_nat s). split; [|by exists r]. apply elem_of_events. exists ts, r. split_and!; try done. cbn [snd].
  rewrite find_entry_transition, <- Hv, <- He. f_equal.
  apply (singular_constant nodes l nodes_distinct Hl r (o_first r) c (u, ts)); try done; lia.
Qed.

Lemma sorted_lookup_unique {X} lo (k : list (OtherRange X)) i j r r' c : sorted_from lo k -> k !! i = Some r -> k !! j = Some r' ->
  o_first r <= c <= o_last r -> o_first r' <= c <= o_last r' -> i = j.
Proof.
  revert lo i j. induction k as [|x k IH]; intros lo i j; [done|]. rewrite sorted_from_cons. intros (? & ? & ? & Hs) Hi Hj Hr Hr'.
  pose proof (sorted_from_Forall _ _ Hs) as Hf. rewrite Forall_forall in Hf.
  destruct i as [|i], j as [|j]; simpl in Hi, Hj; simplify_eq; [done| | |].
  - apply list_elem_of_lookup_2 in Hj. specialize (Hf _ Hj). simpl in Hf. lia.
  - apply list_elem_of_lookup_2 in Hi. specialize (Hf _ Hi). simpl in Hf. lia.
  - f_equal. by eapply IH.
Qed.

Lemma graph_of_events : graph_of dfa (vec_size events) (λ t, ev_source (event_at events t)) (λ t, ev_target (event_at events t))
  (λ t, ev_symbol (event_at events t)) covers.
Proof.
  assert (Forall (λ b, 0 <= b < N) ((λ e : Event, e.2) <$> events)) as Htg.
  { apply Forall_fmap, Forall_forall. intros e He. by apply event_bounds. }
  assert (forall t, 0 <= t < vec_size events -> event_at events t ∈ events) as Hat.
  { intros t Ht. destruct (event_at_spec N events Htg t Ht) as (j & Hj & _). by eapply list_elem_of_lookup_2. }
  split.
  - intros t Ht. apply Hat in Ht. apply event_bounds in Ht. tauto.
  - intros t t' Ht Ht' Hsrc Hsym. destruct (event_at_spec N events Htg t Ht) as (j & Hj & Hp), (event_at_spec N events Htg t' Ht') as (k & Hk & Hp').
    assert (j = k) as ->; [|by rewrite Hj in Hk; injection Hk as Heq; rewrite <- Hp, <- Hp', Heq].
    apply (NoDup_lookup events.*1 j k (event_at events t).1); [apply events_distinct, nodes_distinct| |]; rewrite list_lookup_fmap, ?Hj, ?Hk; [done|].
    simpl. f_equal. destruct (event_at events t) as [[? ?] ?], (event_at events t') as [[? ?] ?]. simpl in *. congruence.
  - intros u c v (s & Hs & Hc)%event_complete. apply list_elem_of_lookup in Hs as [j Hj].
    exists (target_position events j (u, s, v)). rewrite (event_at_position N events Htg j) by done. split; [by apply (target_position_bound N)|]. done.
  - intros t c Ht Hc. by apply event_sound; [apply Hat|].
  - intros t Ht. apply Hat, elem_of_events in Ht as (ts & r & _ & Hr & _). apply vec_at_Some in Hr as Hr'. destruct Hr' as [_ Hr'].
    apply list_elem_of_lookup_2 in Hr'. pose proof (singular_bounds _ _ Hl r Hr'). exists (o_first r), r. split; [done|lia].
  - intros s s' c (r & Hr & Hc) (r' & Hr' & Hc'). apply vec_at_Some in Hr as [? Hr], Hr' as [? Hr'].
    pose proof (sorted_lookup_unique _ _ _ _ _ _ _ (so_sorted _ _ Hl) Hr Hr' Hc Hc'). lia.
Qed.

Lemma events_calls : nodes ≫= (λ node, iterateIntersections (o_first <$> l) node.2) = (λ e : Event, (e.1.2, e.2)) <$> events.
Proof.
  unfold all_events. assert (forall ns, (forall node, node ∈ ns -> node ∈ nodes) ->
    ns ≫= (λ node, iterateIntersections (o_first <$> l) node.2) = (λ e : Event, (e.1.2, e.2)) <$> (ns ≫= node_events l)) as Hgen; [|by apply Hgen].
  induction ns as [|node ns IH]; intros Hns; [done|]. cbn [mbind list_bind]. rewrite fmap_app. f_equal; [|apply IH; intros; apply Hns; by right].
  rewrite (iterateIntersections_spec nodes l node nodes_distinct nodes_sorted Hl) by (apply Hns; left). unfold node_events.
  rewrite <- list_fmap_compose. rewrite <- (list_fmap_id (visits l 0 node.2)) at 1. apply list_fmap_ext. by intros _ [? ?] _.
Qed.

Lemma fill_events startOffsets st : fillTransitions (o_first <$> l) startOffsets nodes st
  = foldl (λ st e, st ← st; fillTransition startOffsets (ev_source e) st (ev_symbol e, ev_target e)) (Some st) events.
Proof.
  unfold fillTransitions, all_events. assert (forall ns o, (forall node, node ∈ ns -> node ∈ nodes) ->
    foldl (λ st node, st ← st; foldl (λ st call, st ← st; fillTransition startOffsets node.1 st call) (Some st) (iterateIntersections (o_first <$> l) node.2)) o ns
    = foldl (λ st e, st ← st; fillTransition startOffsets (ev_source e) st (ev_symbol e, ev_target e)) o (ns ≫= node_events l)) as Hgen; [|by apply Hgen].
  induction ns as [|node ns IH]; intros o Hns; [done|]. cbn [foldl mbind list_bind]. rewrite foldl_app, IH by (intros; apply Hns; by right). f_equal.
  rewrite (iterateIntersections_spec nodes l node nodes_distinct nodes_sorted Hl) by (apply Hns; left). unfold node_events.
  destruct o as [st1|]; cbn [mbind option_bind]; [|by rewrite foldl_none]. generalize (Some st1) as o.
  induction (visits l 0 node.2) as [|[s v] vs IHv]; intros o; [done|]. cbn [foldl fmap list_fmap fst snd]. apply IHv.
Qed.
End Full.

Lemma length_resize `{UninitializedMemory} n : 0 <= n -> vec_size (resize [] n) = n.
Proof.
  intros Hn. unfold resize. change (vec_size []) with 0. rewrite (proj2 (Z.ltb_ge _ _)) by lia. rewrite app_nil_l. unfold vec_size.
  rewrite length_fresh_memory. lia.
Qed.

(** The number of transitions over a range is the size of its set. *)
Lemma range_counts nodes rs l : singular_ok nodes l -> mr_data <$> rs = (λ o, vec_size (o_data o)) <$> l ->
  forall i, 0 <= i < vec_size l -> exists r, vec_at rs i = Some r
    /\ mr_data r = occurrences i ((λ e : Event, e.1.2) <$> all_events l nodes) /\ 0 < mr_data r.
Proof.
  intros Hl Hdata i Hi. destruct (vec_at_is_Some l i Hi) as [o Ho]. apply (f_equal (λ x, vec_at x i)) in Hdata.
  rewrite !RangeParametricity.vec_at_fmap, Ho in Hdata. destruct (vec_at rs i) as [r|]; [|done]. simpl in Hdata. injection Hdata as Hdata.
  exists r. split; [done|]. apply vec_at_Some in Ho as Ho'. destruct Ho' as [_ Ho']. apply list_elem_of_lookup_2 in Ho'. split.
  - by rewrite Hdata, (singular_count nodes l Hl o Ho'), (all_symbols l nodes i o Ho).
  - rewrite Hdata. pose proof (singular_bounds _ _ Hl o Ho'). destruct (singular_data nodes l Hl o (o_first o) Ho') as [-> Hne]; [lia|].
    destruct (origins nodes (o_first o)); [done|]. unfold vec_size. simpl. lia.
Qed.

Lemma fullGraphPartition_spec `{UninitializedMemory} dfa : plain_dfa dfa -> 0 < vec_size (dfa_nodes dfa) ->
  exists g source target symbol covers, fullGraphPartition dfa = Some g
    /\ graph_of dfa (vec_size (m_flattenedTransitions g)) source target symbol covers
    /\ split_inv (vec_size (dfa_nodes dfa)) (vec_size (m_flattenedTransitions g)) source target symbol g
    /\ forall similar, (forall u v, similar u v -> 0 <= u < vec_size (dfa_nodes dfa) /\ 0 <= v < vec_size (dfa_nodes dfa)) ->
         together (vec_size (m_flattenedTransitions g)) target symbol similar g.
Proof.
  intros Hplain Hpos. destruct (liveTransitions_spec dfa) as (nodes & Hlive & Hfst & Hin).
  { intros i node Hi. destruct (Hplain i node Hi) as (? & ts & ? & _). split; [done|by exists ts]. }
  destruct (singular_spec nodes (nodes_sorted dfa nodes Hplain Hin)) as (v & rs & l & Hv & Hrs & Hl & Hfirsts & Hdata).
  pose proof (graph_of_events dfa nodes l Hplain Hfst Hin Hl) as Hgraph.
  pose proof (event_bounds dfa nodes l Hplain Hin) as Hbounds. pose proof (range_counts nodes rs l Hl Hdata) as Hcount.
  unfold fullGraphPartition. rewrite Hlive. cbn [mbind option_bind]. rewrite Hv. cbn [mbind option_bind]. rewrite Hrs. cbn [mbind option_bind].
  destruct (addTransitionSets_spec rs) as (p & -> & Hp1 & Hp2 & Hp3 & Hp4 & Hpsz & Hpd). rewrite Hfirsts.
  rewrite (events_calls dfa nodes l Hplain Hfst Hin Hl). set (events := all_events l nodes) in *.
  assert (Forall (λ b, 0 <= b < vec_size (dfa_nodes dfa)) ((λ e : Event, e.2) <$> events)) as Htg by (apply Forall_fmap, Forall_forall; intros e He; by apply Hbounds).
  assert (Forall (λ b, 0 <= b < vec_size l) ((λ e : Event, e.1.2) <$> events)) as Hsy by (apply Forall_fmap, Forall_forall; intros e He; by apply Hbounds).
  assert (vec_size rs = vec_size l) as Hrl by (unfold vec_size; apply (f_equal length) in Hfirsts; rewrite !length_fmap in Hfirsts; lia).
  assert (((λ e : Event, (e.1.2, e.2)) <$> events).*2 = (λ e : Event, e.2) <$> events) as Hcalls by (by rewrite <- list_fmap_compose).
  destruct (countIncoming_spec (length (dfa_nodes dfa)) ((λ e : Event, (e.1.2, e.2)) <$> events)) as (counts & -> & Hcsz & Hc); [by rewrite Hcalls|].
  rewrite Hcalls in Hc. change (Z.of_nat (length (dfa_nodes dfa))) with (vec_size (dfa_nodes dfa)) in Hcsz, Hc. cbn [mbind option_bind].
  destruct (accumulateOffsets_spec counts) as (offsets & -> & Hosz & Hoff). rewrite Hcsz in Hosz, Hoff |- *.
  assert (forall b, b <= vec_size (dfa_nodes dfa) -> bucket_start (λ i, default 0 (vec_at counts i)) b = bucket_start (λ b, occurrences b ((λ e : Event, e.2) <$> events)) b) as Hext.
  { intros b Hb. apply bucket_start_ext. intros i Hi. rewrite Hc by lia. done. }
  rewrite (Hext (vec_size (dfa_nodes dfa))), (bucket_total _ (vec_size (dfa_nodes dfa))) by (done || lia).
  replace (vec_size ((λ e : Event, e.2) <$> events)) with (vec_size events) by (unfold vec_size; by rewrite length_fmap).
  assert (0 <= vec_size events) as HT by apply vec_size_nonneg.
  rewrite (fill_events dfa nodes l Hplain Hfst Hin Hl). fold events. set (st0 := mkFillState _ _ _ _).
  assert (forall i, 0 <= i < vec_size l -> 0 < occurrences i ((λ e : Event, e.1.2) <$> events)) as Hpos'.
  { intros i Hi. destruct (Hcount i Hi) as (r & _ & <- & ?). done. }
  assert (forall i, 0 <= i < vec_size l -> vec_at (m_sets p) i = Some (mkSetDescriptor
    (bucket_start (λ b, occurrences b ((λ e : Event, e.1.2) <$> events)) i) (occurrences i ((λ e : Event, e.1.2) <$> events)) 0)) as Hdesc.
  { intros i Hi. destruct (Hcount i Hi) as (r & Hr & Hd & _). rewrite (Hpd i r Hr), Hd. do 2 f_equal. apply bucket_start_ext.
    intros k Hk. destruct (Hcount k ltac:(lia)) as (r' & -> & Hd' & _). done. }
  assert (filled (vec_size (dfa_nodes dfa)) (vec_size l) events (m_sets p) 0 st0) as HF0.
  { split; cbn [st0 fs_flattened fs_sizePerNode fs_offsetPerRange fs_partition reserveUninitializedCapacity m_sets m_setsMarkedInCurrentGeneration
      m_partitionedElements m_elementPositionInPartitionedNodes m_elementToSetMap].
    - unfold vec_size. rewrite length_fresh_memory. unfold vec_size. lia.
    - intros b Hb. apply vec_at_replicate. unfold vec_size in Hb. lia.
    - intros b Hb. apply vec_at_replicate. unfold vec_size in Hb, Hpsz, Hrl. lia.
    - done.
    - rewrite Hp1. by apply length_resize.
    - rewrite Hp2. by apply length_resize.
    - rewrite Hp3. by apply length_resize.
    - intros j e Hj. lia. }
  assert (forall b, 0 <= b < vec_size (dfa_nodes dfa) -> vec_at offsets b = Some (bucket_start (λ b, occurrences b ((λ e : Event, e.2) <$> events)) b)) as Hstart.
  { intros b Hb. rewrite Hoff by done. by rewrite Hext by lia. }
  destruct (fillEvents_spec _ _ events offsets (m_sets p) Htg Hsy Hstart Hdesc st0 HF0) as (st & -> & HF). cbn [mbind option_bind].
  eexists _, _, _, _, _. split; [done|]. cbn [m_flattenedTransitions].
  pose proof HF as [Hflat _ _ _ _ _ _ _]. rewrite Hflat. split; [exact Hgraph|].
  exact (filled_split_inv _ _ events offsets (m_sets p) Htg Hsy Hstart (eq_trans Hpsz Hrl) Hdesc st Hpos HF Hpos').
Qed.
