(* ===== verification/MinimizerProof.v ===== *)
(** * The minimized automaton is equivalent and minimal

    [DFAMinimizer::minimize] on an automaton as the other components make it: it
    terminates, the result triggers the same actions on every string, and no two
    of the nodes that are left have the same actions after every string. *)

From stdpp Require Import base numbers option list list_numbers gmap sets.
From Stdlib Require Import ZArith Lia.
From S2P Require Import Prelude.
From S2P Require Import DFA.
From S2P Require Import MutableRangeList.
From S2P Require Import NFA.
From S2P Require Import Worklist.
From S2P Require Import ConvertProof.
From S2P Require Import Partition.
From S2P Require Import DFAMinimizer.
From S2P Require Import MinimizerSplit.
From S2P Require Import MinimizerGraph.

(** ** The nodes with the same actions *)

Definition has_key (dfa : DFA) (i : Z) (key : list Z) : Prop :=
  exists node, vec_at (dfa_nodes dfa) i = Some node /\ hasActions node = true /\ node_actions dfa node = Some key.

Lemma finalStates_spec dfa : (forall i node, vec_at (dfa_nodes dfa) i = Some node -> is_Some (node_actions dfa node)) ->
  exists m, finalStates dfa = Some m /\ (forall key l, m !! key = Some l -> NoDup l /\ forall i, i ∈ l <-> has_key dfa i key)
    /\ forall key i, has_key dfa i key -> is_Some (m !! key).
Proof.
  intros Hacts. unfold finalStates. set (N := vec_size (dfa_nodes dfa)).
  destruct (foldl_indices_inv (λ acc i, node ← vec_at (dfa_nodes dfa) i;
      if hasActions node then key ← node_actions dfa node; Some (<[key := default [] (acc !! key) ++ [i]]> acc) else Some acc)
    (λ k (m : gmap (list Z) (list Z)), (forall key l, m !! key = Some l -> NoDup l /\ forall i, i ∈ l <-> i < k /\ has_key dfa i key)
       /\ forall key i, i < k -> has_key dfa i key -> is_Some (m !! key)) N ∅) as (m & Hm & H1 & H2).
  - apply vec_size_nonneg.
  - split; [by intros key l; rewrite lookup_empty|]. intros key i Hi (node & Hn & _). apply vec_at_bound in Hn. lia.
  - intros k m Hk [H1 H2]. destruct (vec_at_is_Some _ _ Hk) as [node Hnode]. rewrite Hnode. cbn [mbind option_bind].
    destruct (hasActions node) eqn:Eh.
    + destruct (Hacts k node Hnode) as [key Hkey]. rewrite Hkey. cbn [mbind option_bind]. eexists. split; [done|].
      assert (forall key', has_key dfa k key' <-> key' = key) as Hk1.
      { intros key'. split; [intros (node' & ? & _ & ?); by simplify_eq|]. intros ->. by exists node. }
      assert (NoDup (default [] (m !! key)) /\ forall i, i ∈ default [] (m !! key) <-> i < k /\ has_key dfa i key) as [Hnd Hin].
      { destruct (m !! key) as [l|] eqn:El; simpl; [by apply H1|]. split; [constructor|]. intros i. rewrite elem_of_nil. split; [done|].
        intros [Hi Hh]. destruct (H2 key i Hi Hh) as [? ?]. congruence. }
      split.
      * intros key' l. destruct (decide (key' = key)) as [->|Hne].
        -- rewrite lookup_insert_eq. intros [= <-]. split.
           ++ apply NoDup_app. split_and!; [done| |apply NoDup_singleton]. intros i Hi ->%list_elem_of_singleton. apply Hin in Hi. lia.
           ++ intros i. rewrite elem_of_app, list_elem_of_singleton, Hin. split; [intros [[? ?]| ->]; [split; [lia|done]|]|].
              ** split; [lia|]. by apply Hk1.
              ** intros [Hi Hh]. destruct (decide (i = k)); [by right|]. left. split; [lia|done].
        -- rewrite lookup_insert_ne by done. intros Hl. destruct (H1 key' l Hl) as [? Hin']. split; [done|]. intros i. rewrite Hin'.
           split; [intros [? ?]; split; [lia|done]|]. intros [Hi Hh]. split; [|done]. destruct (decide (i = k)) as [->|]; [|lia]. by apply Hk1 in Hh.
      * intros key' i Hi Hh. destruct (decide (key' = key)) as [->|Hne]; [by rewrite lookup_insert_eq|]. rewrite lookup_insert_ne by done.
        apply (H2 key' i); [|done]. destruct (decide (i = k)) as [->|]; [|lia]. by apply Hk1 in Hh.
    + eexists. split; [done|]. assert (forall key, ~ has_key dfa k key) as Hno by (intros key (node' & ? & ? & _); simplify_eq; congruence).
      split.
      * intros key l Hl. destruct (H1 key l Hl) as [? Hin]. split; [done|]. intros i. rewrite Hin. split; [intros [? ?]; split; [lia|done]|].
        intros [Hi Hh]. split; [|done]. destruct (decide (i = k)) as [->|]; [|lia]. by apply Hno in Hh.
      * intros key i Hi Hh. apply (H2 key i); [|done]. destruct (decide (i = k)) as [->|]; [|lia]. by apply Hno in Hh.
  - exists m. assert (forall i key, has_key dfa i key -> i < N) as Hb by (intros i key (node & Hn & _); apply vec_at_bound in Hn; unfold N; lia).
    split_and!; [done| |].
    + intros key l Hl. destruct (H1 key l Hl) as [? Hin]. split; [done|]. intros i. rewrite Hin. split; [tauto|]. intros Hh. split; [by eapply Hb|done].
    + intros key i Hh. by eapply H2; [eapply Hb|].
Qed.

(** ** The first partition *)

Section Labels.
Context (N T : Z) (source target symbol : Z -> Z) (similar : Z -> Z -> Prop).
Abbreviation sets_of g u := (set_of (m_nodePartition g) u).

Lemma markNodes_spec g idxs :
  foldl (λ g i, g ← g; markNode g i) (Some g) idxs = (p ← markAll (m_nodePartition g) idxs; Some (set_partitions g p (m_transitionPartition g))).
Proof.
  unfold markAll. revert g. induction idxs as [|i idxs IH]; intros g; cbn [foldl]; [by destruct g|]. cbn [mbind option_bind].
  unfold markNode at 2. destruct (markElementInCurrentGeneration (m_nodePartition g) i) as [p|]; cbn [mbind option_bind].
  - rewrite IH. done.
  - by rewrite !foldl_none.
Qed.

Lemma label_spec g idxs : split_inv N T source target symbol g -> m_nextTransitionSetToProcess g = 0 ->
  NoDup idxs -> (forall i, i ∈ idxs -> 0 <= i < N) ->
  exists g', (g ← foldl (λ g i, g ← g; markNode g i) (Some g) idxs; refinePartitions g) = Some g'
    /\ split_inv N T source target symbol g' /\ m_nextTransitionSetToProcess g' = 0
    /\ (forall u v, sets_of g' u = sets_of g' v -> sets_of g u = sets_of g v /\ (u ∈ idxs <-> v ∈ idxs))
    /\ ((forall u v, similar u v -> u ∈ idxs <-> v ∈ idxs) -> together T target symbol similar g -> together T target symbol similar g').
Proof.
  intros HI Hnext Hnd Hidx. rewrite markNodes_spec. destruct (si_nodes _ _ _ _ _ _ HI) as [HP Hnil].
  destruct (markAll_spec N (m_nodePartition g) idxs) as (p1 & -> & HP1 & Hmap1 & Hsz1 & Hm1); [by rewrite Hnil|done|intros e He; split; [auto|by apply (unmarked N)]|].
  cbn [mbind option_bind]. set (g1 := set_partitions g p1 (m_transitionPartition g)).
  assert (forall u, marked p1 u = true <-> u ∈ idxs) as Hm.
  { intros u. rewrite Hm1, (unmarked N) by done. split; [by intros [|]|by right]. }
  destruct (refinePartitions_spec N T source target symbol similar g1) as (g' & -> & Hr).
  - apply graph_ok_static, HI.
  - done.
  - apply HI.
  - pose proof (si_coherent _ _ _ _ _ _ HI) as Hco. unfold coherent in *. cbn [g1 set_partitions m_nodePartition]. by rewrite Hmap1.
  - exists g'. split; [done|]. pose proof Hr as [H1 H2 H3 H4 H5 H6 H7 H8]. change (m_nextTransitionSetToProcess g1) with (m_nextTransitionSetToProcess g) in H7.
    split_and!; [|congruence| |].
    + split; try done; [lia|]. rewrite H7, Hnext. split; [apply vec_size_nonneg|]. intros u v t i _ _ _ _ Hi Hneg.
      pose proof (set_of_bound _ _ _ _ _ (proj1 H3) Hi). lia.
    + intros u v Huv. destruct (refines_parts _ _ H5 u v Huv) as [Hs Hmm]. cbn [g1 set_partitions m_nodePartition] in Hs, Hmm. rewrite Hmap1 in Hs.
      split; [done|]. rewrite <- !Hm, Hmm. done.
    + intros Hsim [Hn Ht]. apply H8; [|split; [intros u v Huv; cbn; rewrite Hmap1; by apply Hn|exact Ht]].
      intros u v Huv. apply eq_true_iff_eq. cbn [g1 set_partitions m_nodePartition]. rewrite !Hm. by apply Hsim.
Qed.

(** The loop over the slots of the map. *)
Lemma labels_spec g (slots : list (list Z * list Z)) : split_inv N T source target symbol g -> m_nextTransitionSetToProcess g = 0 ->
  (forall slot, slot ∈ slots -> NoDup slot.2 /\ forall i, i ∈ slot.2 -> 0 <= i < N) ->
  exists g', foldl (λ g slot, g ← g; g ← foldl (λ g i, g ← g; markNode g i) (Some g) slot.2; refinePartitions g) (Some g) slots = Some g'
    /\ split_inv N T source target symbol g' /\ m_nextTransitionSetToProcess g' = 0
    /\ (forall u v slot, sets_of g' u = sets_of g' v -> slot ∈ slots -> u ∈ slot.2 <-> v ∈ slot.2)
    /\ ((forall u v slot, similar u v -> slot ∈ slots -> u ∈ slot.2 <-> v ∈ slot.2) -> together T target symbol similar g -> together T target symbol similar g').
Proof.
  intros HI Hnext Hslots.
  destruct (foldl_option_inv (λ g (slot : list Z * list Z), g ← foldl (λ g i, g ← g; markNode g i) (Some g) slot.2; refinePartitions g)
    (λ pre g', split_inv N T source target symbol g' /\ m_nextTransitionSetToProcess g' = 0
       /\ (forall u v slot, sets_of g' u = sets_of g' v -> slot ∈ pre -> u ∈ slot.2 <-> v ∈ slot.2)
       /\ ((forall u v slot, similar u v -> slot ∈ slots -> u ∈ slot.2 <-> v ∈ slot.2) -> together T target symbol similar g -> together T target symbol similar g'))
    slots g) as (g' & ? & ? & ? & ? & ?); [| |by exists g'].
  - split_and!; try done. intros u v slot _ Hs. by apply elem_of_nil in Hs.
  - intros pre slot todo g1 Heq (HI1 & Hn1 & Hl1 & Ht1). assert (slot ∈ slots) as Hslot by (rewrite Heq; set_solver).
    destruct (Hslots slot Hslot) as [Hnd Hr]. destruct (label_spec g1 slot.2 HI1 Hn1 Hnd Hr) as (g2 & Hg2 & HI2 & Hn2 & Hl2 & Ht2).
    exists g2. split; [done|]. split_and!; [done|done| |].
    + intros u v s Huv [Hs| ->%list_elem_of_singleton]%elem_of_app; destruct (Hl2 u v Huv) as [Huv1 ?]; [by apply Hl1|done].
    + intros Hsim Hg. apply Ht2; [|by apply Ht1]. intros u v Huv. by apply Hsim.
Qed.
End Labels.

(** ** Killing nodes *)

Definition killed_node : DFANode := mkDFANode 0 0 0 0 IsKilled.

Lemma mapM_ext_elem {A B} (f g : A -> option B) l x : (forall i, i ∈ l -> g i = f i) -> mapM f l = Some x -> mapM g l = Some x.
Proof.
  intros Hfg. rewrite !mapM_Some. intros Hx. apply Forall2_same_length_lookup in Hx as [Hlen Hx]. apply Forall2_same_length_lookup.
  split; [done|]. intros k i y Hi Hy. rewrite Hfg; [by apply (Hx k)|by eapply list_elem_of_lookup_2].
Qed.

Lemma foldl_pointwise {A B} (f g : A -> B -> A) a l : (forall a b, f a b = g a b) -> foldl f a l = foldl g a l.
Proof. intros Hfg. revert a. induction l as [|b l IH]; intros a; [done|]. cbn [foldl]. by rewrite Hfg, IH. Qed.

Lemma fill_spec {A} (x : A) (v : list A) start len : len <= 0 \/ 0 <= start /\ start + len <= vec_size v ->
  exists v', foldl (λ v p, v ← v; vec_set v p x) (Some v) (seqZ start len) = Some v' /\ vec_size v' = vec_size v
    /\ forall j, ~ (start <= j < start + len) -> vec_at v' j = vec_at v j.
Proof.
  intros Hb. destruct (vec_fill_spec (λ i, i) x v (seqZ start len)) as (v' & Hv' & Hsz & _ & Hout).
  { intros i Hi%elem_of_seqZ. lia. }
  exists v'. split_and!; [done|done|]. intros j Hj. apply Hout. rewrite list_fmap_id, elem_of_seqZ. done.
Qed.

Lemma node_transitions_dests dfa node ts : node_transitions dfa node = Some ts ->
  m_transitionsLength node <= 0
  \/ 0 <= m_transitionsStart node /\ m_transitionsStart node + m_transitionsLength node <= vec_size (transitionDestinations dfa).
Proof.
  apply mapM_seqZ_bound. intros i y. unfold transition_at. destruct (vec_at (transitionRanges dfa) i); [|done]. cbn [mbind option_bind].
  destruct (vec_at (transitionDestinations dfa) i) eqn:E; [|done]. intros _. by eapply vec_at_bound.
Qed.

Lemma kill_spec dfa i node acts ts : vec_at (dfa_nodes dfa) i = Some node -> node_actions dfa node = Some acts -> node_transitions dfa node = Some ts ->
  exists dfa', kill dfa i = Some dfa' /\ dfa_root dfa' = dfa_root dfa /\ vec_size (dfa_nodes dfa') = vec_size (dfa_nodes dfa)
    /\ (forall j, vec_at (dfa_nodes dfa') j = if i =? j then Some killed_node else vec_at (dfa_nodes dfa) j)
    /\ forall m, apart_nodes node m -> (forall x, node_actions dfa m = Some x -> node_actions dfa' m = Some x)
         /\ (forall x, node_transitions dfa m = Some x -> node_transitions dfa' m = Some x).
Proof.
  intros Hn Ha Ht. unfold kill. rewrite Hn. cbn [mbind option_bind].
  destruct (fill_spec (mkCharRange (-1) (-1)) (transitionRanges dfa) _ _ (node_transitions_bound _ _ _ Ht)) as (rs & -> & _ & Hrs). cbn [mbind option_bind].
  destruct (fill_spec UINT32_MAX (transitionDestinations dfa) _ _ (node_transitions_dests _ _ _ Ht)) as (ds & -> & _ & Hds). cbn [mbind option_bind].
  destruct (fill_spec (2 ^ 64 - 1) (dfa_actions dfa) _ _ (node_actions_bound _ _ _ Ha)) as (as' & -> & _ & Has). cbn [mbind option_bind].
  destruct (vec_set_is_Some (dfa_nodes dfa) i killed_node) as [ns Hns]; [by eapply vec_at_bound|]. unfold killed_node in Hns. rewrite Hns. cbn [mbind option_bind].
  eexists. split; [done|]. cbn [dfa_root dfa_nodes]. split_and!; [done|by eapply vec_set_size|intros j; by apply vec_set_spec|].
  intros m [Hap1 Hap2]. unfold apart in *. split; intros x.
  - apply mapM_ext_elem. intros p Hp%elem_of_seqZ. cbn [dfa_actions]. apply Has. lia.
  - apply mapM_ext_elem. intros p Hp%elem_of_seqZ. unfold transition_at. cbn [transitionRanges transitionDestinations]. by rewrite Hrs, Hds by lia.
Qed.

Section Relocate.
Context (g : FullGraphPartition) (dfa : DFA) (rep : Z -> Z).
Abbreviation N := (vec_size (dfa_nodes dfa)).
Hypothesis Hrep : forall i, 0 <= i < N -> nodeReplacement g i = Some (rep i) /\ 0 <= rep i < N /\ rep (rep i) = rep i.
Hypothesis Hnodes : forall i node, vec_at (dfa_nodes dfa) i = Some node -> isKilled node = false
  /\ exists acts ts, node_actions dfa node = Some acts /\ node_transitions dfa node = Some ts /\ Forall (λ t, 0 <= t.2 < N) ts.
Hypothesis Hapart : slices_apart dfa.

(** The state after the nodes below [k]. *)
Record relocated (k : Z) (st : list Z * DFA) : Prop := {
  rl_size : vec_size st.1 = N;
  rl_vector : forall i, 0 <= i < N -> vec_at st.1 i = Some (if i <? k then rep i else i);
  rl_root : dfa_root st.2 = dfa_root dfa;
  rl_nodes : vec_size (dfa_nodes st.2) = N;
  rl_node : forall i node, vec_at (dfa_nodes dfa) i = Some node ->
    vec_at (dfa_nodes st.2) i = Some (if (i <? k) && negb (rep i =? i) then killed_node else node);
  rl_kept : forall i node, vec_at (dfa_nodes dfa) i = Some node -> k <= i \/ rep i = i ->
    node_actions st.2 node = node_actions dfa node /\ node_transitions st.2 node = node_transitions dfa node
}.

Lemma relocate_step k st : 0 <= k < N -> relocated k st ->
  exists st', (let '(relocationVector, dfa) := st in
    replacement ← nodeReplacement g k;
    if negb (k =? replacement) then
      relocationVector ← vec_set relocationVector k replacement;
      dfa ← kill dfa k;
      Some (relocationVector, dfa)
    else Some (relocationVector, dfa)) = Some st' /\ relocated (k + 1) st'.
Proof.
  intros Hk HR. destruct st as [v d]. destruct (Hrep k Hk) as (-> & Hrk & Hrr). cbn [mbind option_bind].
  destruct (vec_at_is_Some _ _ Hk) as [node Hnode]. destruct (Hnodes k node Hnode) as (Hlive & acts & ts & Hacts & Hts & _).
  destruct (rl_kept _ _ HR k node Hnode) as [Hacts' Hts']; [left; lia|]. rewrite Hacts in Hacts'. rewrite Hts in Hts'. cbn [snd] in *.
  assert (forall i, (i <? k + 1) = (i <? k) || (i =? k)) as Hlt.
  { intros i. destruct (i <? k) eqn:E1, (i =? k) eqn:E2; zbool; simpl; rewrite ?Z.ltb_lt, ?Z.ltb_ge; lia. }
  destruct (k =? rep k) eqn:E; cbn [negb]; zbool.
  - eexists. split; [done|]. destruct HR as [H1 H2 H3 H4 H5 H6]. split; try done; cbn [fst snd] in *.
    + intros i Hi. rewrite (H2 i Hi), Hlt. destruct (i =? k) eqn:Ei; zbool; [|by rewrite orb_false_r]. subst i. rewrite Z.ltb_irrefl. simpl. congruence.
    + intros i n Hi. rewrite (H5 i n Hi), Hlt. destruct (i =? k) eqn:Ei; zbool; [|by rewrite orb_false_r]. subst i.
      rewrite Z.ltb_irrefl. rewrite (proj2 (Z.eqb_eq (rep k) k)) by done. done.
    + intros i n Hi Hor. apply (H6 i n Hi). lia.
  - destruct (vec_set_is_Some v k (rep k)) as [v' Hv']; [pose proof (rl_size _ _ HR) as Hs; cbn [fst] in Hs; lia|]. rewrite Hv'. cbn [mbind option_bind].
    pose proof (rl_node _ _ HR k node Hnode) as Hkn. cbn [snd] in Hkn. rewrite Z.ltb_irrefl in Hkn. cbn [andb] in Hkn.
    destruct (kill_spec d k node acts ts Hkn Hacts' Hts') as (d' & -> & Hroot & Hsz & Hat & Hap). cbn [mbind option_bind].
    eexists. split; [done|]. destruct HR as [H1 H2 H3 H4 H5 H6]. cbn [fst snd] in *. split; cbn [fst snd].
    + by rewrite (vec_set_size _ _ _ _ Hv').
    + intros i Hi. rewrite (vec_set_spec _ _ _ _ i Hv'), (H2 i Hi), Hlt. destruct (k =? i) eqn:Ei; zbool; [subst i; by rewrite Z.eqb_refl, orb_true_r|].
      by rewrite (proj2 (Z.eqb_neq i k)), orb_false_r by congruence.
    + congruence.
    + congruence.
    + intros i n Hi. rewrite Hat, Hlt. destruct (k =? i) eqn:Ei; zbool.
      * subst i. rewrite Z.eqb_refl, orb_true_r. by rewrite (proj2 (Z.eqb_neq (rep k) k)) by congruence.
      * rewrite (proj2 (Z.eqb_neq i k)), orb_false_r by congruence. auto.
    + intros i n Hi Hor. assert (i <> k) as Hne by (intros ->; destruct Hor; [lia|congruence]).
      destruct (Hnodes i n Hi) as (_ & acts2 & ts2 & Ha2 & Ht2 & _). destruct (H6 i n Hi) as [Ha3 Ht3]; [lia|].
      destruct (Hap n) as [Hpa Hpt]; [eapply (Hapart k i); try done; congruence|]. rewrite Ha2, Ht2 in *. split; [by apply Hpa|by apply Hpt].
Qed.

Lemma relocateNodes_spec : exists v d, relocateNodes g dfa = Some (v, d) /\ relocated N (v, d).
Proof.
  unfold relocateNodes.
  destruct (foldl_indices_inv (λ '(relocationVector, dfa) i, replacement ← nodeReplacement g i;
      if negb (i =? replacement) then relocationVector ← vec_set relocationVector i replacement; dfa ← kill dfa i; Some (relocationVector, dfa)
      else Some (relocationVector, dfa)) relocated N (seqZ 0 N, dfa)) as ([v d] & Hst & HR).
  - apply vec_size_nonneg.
  - split; cbn [fst snd]; try done.
    + unfold vec_size. rewrite length_seqZ. lia.
    + intros i Hi. rewrite (proj2 (Z.ltb_ge _ _)) by lia. apply vec_at_Some. rewrite lookup_seqZ. lia.
    + intros i node Hi. apply vec_at_bound in Hi as Hb. by rewrite (proj2 (Z.ltb_ge _ _)) by lia.
  - intros k st Hk HR. destruct (relocate_step k st Hk HR) as (st' & Hst' & HR'). exists st'. split; [|done]. by destruct st.
  - exists v, d. split; [|done]. rewrite <- Hst. apply foldl_pointwise. by intros [[? ?]|] i.
Qed.

(** ** New targets *)

Definition live_positions (node : DFANode) : list Z :=
  if isKilled node then [] else seqZ (m_transitionsStart node) (m_transitionsLength node).

Lemma relocateTargets_flat v d : relocateTargets v d
  = foldl (λ dests position, dests ← dests; relocateTarget v dests position) (Some (transitionDestinations d)) (dfa_nodes d ≫= live_positions).
Proof.
  unfold relocateTargets. generalize (Some (transitionDestinations d)) as o. induction (dfa_nodes d) as [|node nodes IH]; intros o; [done|].
  cbn [foldl mbind list_bind]. rewrite foldl_app, IH. f_equal. unfold live_positions.
  destruct o as [dests|]; cbn [mbind option_bind]; [by destruct (isKilled node)|]. destruct (isKilled node); [done|by rewrite foldl_none].
Qed.

Lemma relocateTargets_spec v dests ps : (forall i, 0 <= i < N -> vec_at v i = Some (rep i)) ->
  (forall p, p ∈ ps -> exists x, vec_at dests p = Some x /\ 0 <= x < N) ->
  exists dests', foldl (λ dests position, dests ← dests; relocateTarget v dests position) (Some dests) ps = Some dests'
    /\ forall p x, vec_at dests p = Some x -> vec_at dests' p = Some (if bool_decide (p ∈ ps) then rep x else x).
Proof.
  intros Hv Hps. destruct (foldl_option_inv (relocateTarget v) (λ pre dests', forall p x, vec_at dests p = Some x ->
      vec_at dests' p = Some (if bool_decide (p ∈ pre) then rep x else x)) ps dests) as (dests' & ? & ?); [| |by exists dests'].
  - intros p x Hp. by rewrite bool_decide_false by apply not_elem_of_nil.
  - intros pre p todo d1 Heq Hd. destruct (Hps p) as (x & Hx & Hb); [rewrite Heq; set_solver|]. destruct (Hrep x Hb) as (_ & Hrb & Hrr).
    unfold relocateTarget. rewrite (Hd p x Hx). cbn [mbind option_bind].
    set (y := if bool_decide (p ∈ pre) then rep x else x).
    assert (0 <= y < N /\ rep y = rep x) as [Hyb Hy] by (unfold y; case_bool_decide; done).
    rewrite (Hv y Hyb). cbn [mbind option_bind]. rewrite Hy.
    assert (exists d2, (if negb (y =? rep x) then vec_set d1 p (rep x) else Some d1) = Some d2
      /\ forall q, vec_at d2 q = if p =? q then Some (rep x) else vec_at d1 q) as (d2 & -> & Hd2).
    { destruct (y =? rep x) eqn:E; cbn [negb]; zbool.
      - exists d1. split; [done|]. intros q. destruct (p =? q) eqn:Eq; zbool; [|done]. subst q. rewrite (Hd p x Hx). fold y. by rewrite E.
      - destruct (vec_set_is_Some d1 p (rep x)) as [d2 Hd2]; [eapply vec_at_bound, Hd, Hx|]. exists d2. split; [done|]. intros q. by apply vec_set_spec. }
    exists d2. split; [done|]. intros q z Hq. rewrite Hd2. destruct (p =? q) eqn:Eq; zbool.
    + subst q. rewrite Hx in Hq. injection Hq as <-. by rewrite bool_decide_true by set_solver.
    + rewrite (Hd q z Hq). do 2 f_equal. rewrite (bool_decide_ext (q ∈ pre) (q ∈ pre ++ [p])); [done|]. rewrite elem_of_app, list_elem_of_singleton. naive_solver.
Qed.

(** What is left of the automaton. *)
Record reduced (d : DFA) : Prop := {
  rd_root : dfa_root d = rep (dfa_root dfa);
  rd_size : vec_size (dfa_nodes d) = N;
  rd_killed : forall i, 0 <= i < N -> rep i <> i -> vec_at (dfa_nodes d) i = Some killed_node;
  rd_node : forall i node, vec_at (dfa_nodes dfa) i = Some node -> rep i = i ->
    vec_at (dfa_nodes d) i = Some node /\ node_actions d node = node_actions dfa node
    /\ forall ts, node_transitions dfa node = Some ts -> node_transitions d node = Some ((λ t, (t.1, rep t.2)) <$> ts)
}.

Lemma mapM_transition d node ts : node_transitions d node = Some ts ->
  forall p, p ∈ seqZ (m_transitionsStart node) (m_transitionsLength node) -> exists t, transition_at d p = Some t /\ t ∈ ts.
Proof.
  intros Hts p [k Hk]%list_elem_of_lookup. apply mapM_Some in Hts. destruct (Forall2_lookup_l _ _ _ _ _ Hts Hk) as (t & Ht & ?).
  exists t. split; [done|by eapply list_elem_of_lookup_2].
Qed.

Lemma relocate_spec : 0 <= dfa_root dfa < N ->
  exists d, ('(relocationVector, dfa) ← relocateNodes g dfa;
    root ← vec_at relocationVector (dfa_root dfa);
    destinations ← relocateTargets relocationVector dfa;
    Some (mkDFA (dfa_nodes dfa) (dfa_actions dfa) (transitionRanges dfa) destinations root)) = Some d /\ reduced d.
Proof.
  intros Hroot. destruct relocateNodes_spec as (v & d1 & -> & HR). cbn [mbind option_bind]. destruct HR as [H1 H2 H3 H4 H5 H6]. cbn [fst snd] in *.
  assert (forall i, 0 <= i < N -> vec_at v i = Some (rep i)) as Hv.
  { intros i Hi. by rewrite (H2 i Hi), (proj2 (Z.ltb_lt _ _)) by lia. }
  rewrite H3, Hv by done. cbn [mbind option_bind].
  assert (forall i node, vec_at (dfa_nodes dfa) i = Some node -> rep i = i -> vec_at (dfa_nodes d1) i = Some node
    /\ forall p, p ∈ seqZ (m_transitionsStart node) (m_transitionsLength node) -> p ∈ dfa_nodes d1 ≫= live_positions) as Hsurv.
  { intros i node Hi Hr. rewrite (H5 i node Hi), Hr, Z.eqb_refl, andb_false_r. split; [done|]. intros p Hp. apply list_elem_of_bind. exists node.
    unfold live_positions. destruct (Hnodes i node Hi) as (-> & _). split; [done|].
    pose proof (H5 i node Hi) as Hn. rewrite Hr, Z.eqb_refl, andb_false_r in Hn. apply vec_at_Some in Hn as [_ Hn]. by eapply list_elem_of_lookup_2. }
  rewrite relocateTargets_flat. destruct (relocateTargets_spec v (transitionDestinations d1) (dfa_nodes d1 ≫= live_positions) Hv) as (ds & -> & Hds).
  { intros p (node & Hp & Hn)%list_elem_of_bind. unfold live_positions in Hp. destruct (isKilled node) eqn:Ek; [by apply elem_of_nil in Hp|].
    apply list_elem_of_lookup in Hn as [i Hi]. assert (vec_at (dfa_nodes d1) (Z.of_nat i) = Some node) as Hi' by (by rewrite vec_at_nat).
    destruct (vec_at_is_Some (dfa_nodes dfa) (Z.of_nat i)) as [n0 Hn0]; [rewrite <- H4; by eapply vec_at_bound|].
    pose proof (H5 _ _ Hn0) as H5'. rewrite Hi' in H5'. destruct ((Z.of_nat i <? N) && negb (rep (Z.of_nat i) =? Z.of_nat i)) eqn:E.
    { injection H5' as ->. done. }
    injection H5' as ->. rewrite (proj2 (Z.ltb_lt _ _)) in E by (apply vec_at_bound in Hn0; lia). cbn [andb] in E. zbool.
    destruct (Hnodes _ _ Hn0) as (_ & acts & ts & _ & Hts & Hall). destruct (H6 _ _ Hn0 (or_intror E)) as [_ Hts']. rewrite Hts in Hts'.
    destruct (mapM_transition d1 n0 ts Hts' p Hp) as (t & Ht & Hin). unfold transition_at in Ht. destruct (vec_at (transitionRanges d1) p); [|done].
    cbn [mbind option_bind] in Ht. destruct (vec_at (transitionDestinations d1) p) as [x|] eqn:Ex; [|done]. injection Ht as <-.
    exists x. split; [done|]. rewrite Forall_forall in Hall. by apply (Hall _ Hin). }
  cbn [mbind option_bind]. eexists. split; [done|]. split; cbn [dfa_root dfa_nodes]; try done.
  - intros i Hi Hne. destruct (vec_at_is_Some _ _ Hi) as [node Hnode]. rewrite (H5 i node Hnode).
    by rewrite (proj2 (Z.ltb_lt _ _)), (proj2 (Z.eqb_neq _ _)) by (done || lia).
  - intros i node Hi Hr. destruct (Hsurv i node Hi Hr) as [Hn Hp]. destruct (H6 i node Hi (or_intror Hr)) as [Ha Ht]. split_and!; [done|exact Ha|].
    intros ts Hts. rewrite Hts in Ht. unfold node_transitions in Ht |- *. apply mapM_Some. apply mapM_Some in Ht.
    apply Forall2_fmap_r. apply Forall2_same_length_lookup in Ht as [Hlen Ht]. apply Forall2_same_length_lookup. split; [done|].
    intros k p t Hk Htk. specialize (Ht k p t Hk Htk). apply list_elem_of_lookup_2 in Hk. unfold transition_at in Ht |- *. cbn [transitionRanges transitionDestinations].
    destruct (vec_at (transitionRanges d1) p) as [r|]; [|done]. cbn [mbind option_bind] in Ht |- *.
    destruct (vec_at (transitionDestinations d1) p) as [x|] eqn:Ex; [|done]. injection Ht as <-. rewrite (Hds p x Ex), bool_decide_true by auto. done.
Qed.
End Relocate.

(** ** From the automaton to its minimized form *)

(** An automaton as [NFAToDFA] and [DFAMerger] make it: well formed, without
    killed nodes, and without shared actions or transitions. *)
Record fresh_dfa (dfa : DFA) : Prop := {
  fd_wf : wf_dfa dfa = true;
  fd_live : forall i node, vec_at (dfa_nodes dfa) i = Some node -> isKilled node = false;
  fd_apart : slices_apart dfa
}.

Lemma wf_dfa_node dfa i node : wf_dfa dfa = true -> vec_at (dfa_nodes dfa) i = Some node -> isKilled node = false ->
  exists acts ts, node_actions dfa node = Some acts /\ node_transitions dfa node = Some ts
    /\ forallb action_ok acts = true /\ ranges_ok 0 ts = true /\ forallb (λ t, is_live dfa t.2) ts = true.
Proof.
  unfold wf_dfa. rewrite !andb_true_iff. intros ((_ & Hall) & _) Hi Hk. rewrite forallb_forall in Hall.
  apply vec_at_Some in Hi as [_ Hi]. apply list_elem_of_lookup_2, list_elem_of_In in Hi. specialize (Hall _ Hi). unfold node_ok in Hall. rewrite Hk in Hall. cbn [orb] in Hall.
  destruct (node_actions dfa node) as [acts|], (node_transitions dfa node) as [ts|]; try done. rewrite !andb_true_iff in Hall. exists acts, ts. tauto.
Qed.

Lemma is_live_bound dfa i : is_live dfa i = true -> 0 <= i < vec_size (dfa_nodes dfa).
Proof. unfold is_live. destruct (vec_at (dfa_nodes dfa) i) eqn:E; [|done]. intros _. by eapply vec_at_bound. Qed.

Section Fresh.
Context (dfa : DFA).
Hypothesis Hfresh : fresh_dfa dfa.
Abbreviation N := (vec_size (dfa_nodes dfa)).

Lemma fresh_node i : 0 <= i < N -> exists node acts ts, vec_at (dfa_nodes dfa) i = Some node /\ node_actions dfa node = Some acts
  /\ node_transitions dfa node = Some ts /\ ranges_ok 0 ts = true /\ forallb action_ok acts = true /\ Forall (λ t, 0 <= t.2 < N) ts.
Proof.
  intros Hi. destruct (vec_at_is_Some _ _ Hi) as [node Hn].
  destruct (wf_dfa_node dfa i node (fd_wf _ Hfresh) Hn (fd_live _ Hfresh i node Hn)) as (acts & ts & ? & ? & ? & ? & Hl). exists node, acts, ts.
  split_and!; try done. apply Forall_forall. intros t Ht%list_elem_of_In. rewrite forallb_forall in Hl. by apply is_live_bound, Hl.
Qed.

Lemma fresh_plain : plain_dfa dfa.
Proof.
  intros i node Hi. split; [by apply (fd_live _ Hfresh i)|]. destruct (fresh_node i) as (n & acts & ts & ? & _ & ? & ? & _ & ?); [by eapply vec_at_bound|].
  simplify_eq. by exists ts.
Qed.

Lemma fresh_root : 0 <= dfa_root dfa < N.
Proof. pose proof (fd_wf _ Hfresh) as Hwf. unfold wf_dfa in Hwf. rewrite !andb_true_iff in Hwf. apply is_live_bound. tauto. Qed.

Lemma fresh_next u c v : dfa_next dfa u c = Some v -> 0 <= v < N.
Proof.
  unfold dfa_next. destruct (vec_at (dfa_nodes dfa) u) as [node|] eqn:Hn; [|done]. cbn [mbind option_bind].
  destruct (fresh_node u) as (n & acts & ts & Hn' & _ & Hts & _ & _ & Hall); [by eapply vec_at_bound|]. simplify_eq. rewrite Hts. cbn [mbind option_bind].
  intros (r & Hin & _)%find_transition_elem. rewrite Forall_forall in Hall. by apply Hall in Hin.
Qed.

(** The list of actions, in its order, after reading a string from a node; [None]
    when there is no run. *)
Definition observe (dfa : DFA) (u : Z) (w : list Z) : option (list Z) :=
  j ← dfa_run dfa u w; node ← vec_at (dfa_nodes dfa) j; node_actions dfa node.

Definition indistinguishable (u v : Z) : Prop := (0 <= u < N /\ 0 <= v < N) /\ forall w, observe dfa u w = observe dfa v w.

Lemma observe_nil u : observe dfa u [] = node ← vec_at (dfa_nodes dfa) u; node_actions dfa node.
Proof. done. Qed.

Lemma observe_cons d u c w : observe d u (c :: w) = u' ← dfa_next d u c; observe d u' w.
Proof. unfold observe. cbn [dfa_run]. by destruct (dfa_next d u c). Qed.

Lemma observe_total u : 0 <= u < N -> is_Some (observe dfa u []).
Proof. intros Hu. rewrite observe_nil. destruct (fresh_node u Hu) as (node & acts & ts & -> & Ha & _). cbn [mbind option_bind]. by rewrite Ha. Qed.

Lemma indistinguishable_next T source target symbol covers t v : graph_of dfa T source target symbol covers -> 0 <= t < T ->
  indistinguishable (source t) v -> exists s, 0 <= s < T /\ source s = v /\ symbol s = symbol t /\ indistinguishable (target t) (target s).
Proof.
  intros Hg Ht [[Hu Hv] Hobs]. destruct (gf_inhabited _ _ _ _ _ _ Hg t Ht) as [c Hc].
  pose proof (gf_sound _ _ _ _ _ _ Hg t c Ht Hc) as Hnext. destruct (gf_range _ _ _ _ _ _ Hg t Ht) as [_ Htb].
  assert (exists v', dfa_next dfa v c = Some v') as [v' Hv'].
  { pose proof (Hobs [c]) as H1. rewrite !observe_cons, Hnext in H1. cbn [mbind option_bind] in H1. destruct (observe_total _ Htb) as [x Hx].
    rewrite Hx in H1. destruct (dfa_next dfa v c) as [v'|]; [by exists v'|done]. }
  destruct (gf_edge _ _ _ _ _ _ Hg v c v' Hv') as (s & Hs & Hsv & Hst & Hsc). exists s.
  assert (symbol s = symbol t) as Hsym by (by eapply (gf_unique _ _ _ _ _ _ Hg)). split_and!; try done; try lia.
  split; [split; [done|rewrite Hst; by eapply fresh_next]|]. intros w. pose proof (Hobs (c :: w)) as H1. rewrite !observe_cons, Hnext, Hv' in H1.
  cbn [mbind option_bind] in H1. by rewrite Hst.
Qed.
End Fresh.

(** ** The refined partition *)

Section Classes.
Context `{UninitializedMemory} (dfa : DFA) (g : FullGraphPartition) (source target symbol : Z -> Z) (covers : Z -> Z -> Prop).
Abbreviation N := (vec_size (dfa_nodes dfa)).
Abbreviation T := (vec_size (m_flattenedTransitions g)).
Abbreviation class u := (set_of (m_nodePartition g) u).
Hypothesis Hfresh : fresh_dfa dfa.
Hypothesis Hgraph : graph_of dfa T source target symbol covers.
Hypothesis Hinv : split_inv N T source target symbol g.
Hypothesis Hstable : stable N T source target symbol (m_nodePartition g).
Hypothesis Hlabels : forall u v key, class u = class v -> has_key dfa u key <-> has_key dfa v key.

(** The node that stays for a node. *)
Definition rep (i : Z) : Z := default i (nodeReplacement g i).

Lemma class_total i : 0 <= i < N -> exists s, class i = Some s /\ 0 <= s < partition_size (m_nodePartition g).
Proof using Hinv.
  intros Hi. destruct (si_nodes _ _ _ _ _ _ Hinv) as [HP _]. destruct (vec_at_is_Some (m_elementToSetMap (m_nodePartition g)) i) as [s Hs].
  { by rewrite (po_map _ _ _ HP). }
  exists s. split; [done|]. by eapply set_of_bound.
Qed.

Lemma rep_spec i : 0 <= i < N -> nodeReplacement g i = Some (rep i) /\ 0 <= rep i < N /\ class (rep i) = class i.
Proof using Hinv.
  intros Hi. destruct (class_total i Hi) as (s & Hs & Hb). destruct (si_nodes _ _ _ _ _ _ Hinv) as [HP _].
  destruct (firstElementInSet_spec N [] _ s HP Hb) as (e & He & Hse).
  assert (nodeReplacement g i = Some e) as Hr by (unfold nodeReplacement; by change (setIndexOf (m_nodePartition g) i) with (class i); rewrite Hs).
  unfold rep. rewrite Hr. change (default i (Some e)) with e. split; [done|split; [|congruence]].
  rewrite <- (po_map _ _ _ HP). by eapply vec_at_bound.
Qed.

Lemma rep_class u v : 0 <= u < N -> 0 <= v < N -> class u = class v <-> rep u = rep v.
Proof using Hinv.
  intros Hu Hv. destruct (rep_spec u Hu) as (Hru & Hbu & Hcu), (rep_spec v Hv) as (Hrv & Hbv & Hcv). split; [|congruence].
  intros Huv. assert (nodeReplacement g u = nodeReplacement g v) by (unfold nodeReplacement, setIndexOf; by rewrite Huv). congruence.
Qed.

Lemma rep_idem i : 0 <= i < N -> rep (rep i) = rep i.
Proof using Hinv. intros Hi. destruct (rep_spec i Hi) as (? & ? & ?). by apply rep_class. Qed.

(** Nodes of one set have the same actions. *)
Lemma class_actions u v nu nv : class u = class v -> vec_at (dfa_nodes dfa) u = Some nu -> vec_at (dfa_nodes dfa) v = Some nv ->
  node_actions dfa nu = node_actions dfa nv.
Proof using Hfresh Hlabels.
  intros Huv Hu Hv.
  assert (forall n, hasActions n = false -> node_actions dfa n = Some []) as Hnone.
  { intros n Hn. unfold hasActions in Hn. apply negb_false_iff, Z.eqb_eq in Hn. unfold node_actions. by rewrite Hn. }
  destruct (fresh_node dfa Hfresh u) as (n1 & au & _ & Hn1 & Hau & _); [by eapply vec_at_bound|].
  destruct (fresh_node dfa Hfresh v) as (n2 & av & _ & Hn2 & Hav & _); [by eapply vec_at_bound|]. simplify_eq.
  destruct (hasActions nu) eqn:Eu.
  - destruct (proj1 (Hlabels u v au Huv)) as (n & ? & _ & ?); [by exists nu|]. congruence.
  - destruct (hasActions nv) eqn:Ev; [|by rewrite !Hnone].
    destruct (proj2 (Hlabels u v av Huv)) as (n & ? & ? & _); [by exists nv|]. congruence.
Qed.

(** Transitions of nodes of one set lead to one set. *)
Lemma class_next u v c : 0 <= u < N -> 0 <= v < N -> class u = class v ->
  rep <$> dfa_next dfa u c = rep <$> dfa_next dfa v c.
Proof using Hfresh Hgraph Hinv Hstable.
  assert (forall u v x, 0 <= v < N -> class u = class v -> dfa_next dfa u c = Some x ->
    exists y, dfa_next dfa v c = Some y /\ rep x = rep y) as Hone.
  { intros u0 v0 x Hv0 Hc Hx. destruct (gf_edge _ _ _ _ _ _ Hgraph u0 c x Hx) as (t & Ht & Hsrc & Htgt & Hcov).
    destruct (Hstable u0 v0 t Hc Hv0 Ht Hsrc) as (s & Hs & Hss & Hsym & Hcl). exists (target s). rewrite <- Hsym in Hcov.
    split; [rewrite <- Hss; by apply (gf_sound _ _ _ _ _ _ Hgraph)|].
    apply rep_class; [rewrite <- Htgt; by apply (gf_range _ _ _ _ _ _ Hgraph)|by apply (gf_range _ _ _ _ _ _ Hgraph)|congruence]. }
  intros Hu Hv Huv. destruct (dfa_next dfa u c) as [x|] eqn:Ex.
  - destruct (Hone u v x Hv Huv Ex) as (y & -> & Hxy). simpl. congruence.
  - destruct (dfa_next dfa v c) as [y|] eqn:Ey; [|done]. destruct (Hone v u y Hu (eq_sym Huv) Ey) as (x & ? & _). congruence.
Qed.

(** ** The reduced automaton *)
Context (d : DFA).
Hypothesis Hd : reduced dfa rep d.

Lemma find_transition_rep (f : Z -> Z) (ts : list (CharRange * Z)) c : find_transition ((λ t, (t.1, f t.2)) <$> ts) c = f <$> find_transition ts c.
Proof. induction ts as [|[r t] ts IH]; [done|]. cbn. by destruct (in_range r c). Qed.

Lemma reduced_next u c : 0 <= u < N -> dfa_next d (rep u) c = rep <$> dfa_next dfa u c.
Proof using Hfresh Hgraph Hinv Hstable Hd.
  intros Hu. destruct (rep_spec u Hu) as (_ & Hb & Hc). rewrite <- (class_next (rep u) u c Hb Hu Hc).
  destruct (fresh_node dfa Hfresh (rep u) Hb) as (node & acts & ts & Hn & _ & Hts & _).
  destruct (rd_node _ _ _ Hd (rep u) node Hn (rep_idem u Hu)) as (Hn' & _ & Ht). unfold dfa_next. rewrite Hn, Hn'. cbn [mbind option_bind].
  rewrite Hts, (Ht ts Hts). cbn [mbind option_bind]. apply find_transition_rep.
Qed.

Lemma reduced_run u w : 0 <= u < N -> dfa_run d (rep u) w = rep <$> dfa_run dfa u w.
Proof using Hfresh Hgraph Hinv Hstable Hd.
  revert u. induction w as [|c w IH]; intros u Hu; [done|]. cbn [dfa_run]. rewrite reduced_next by done.
  destruct (dfa_next dfa u c) as [v|] eqn:Ev; [|done]. cbn [fmap option_fmap option_map mbind option_bind]. apply IH. by eapply fresh_next.
Qed.

Lemma fresh_run u w v : 0 <= u < N -> dfa_run dfa u w = Some v -> 0 <= v < N.
Proof using Hfresh.
  revert u. induction w as [|c w IH]; intros u Hu; cbn [dfa_run]; [by intros [= <-]|].
  destruct (dfa_next dfa u c) as [x|] eqn:Ex; [|done]. cbn [mbind option_bind]. apply IH. by eapply fresh_next.
Qed.

Lemma reduced_observe u w : 0 <= u < N -> observe d (rep u) w = observe dfa u w.
Proof using Hfresh Hgraph Hinv Hstable Hd Hlabels.
  intros Hu. unfold observe. rewrite reduced_run by done. destruct (dfa_run dfa u w) as [v|] eqn:Ev; [|done].
  cbn [fmap option_fmap option_map mbind option_bind]. pose proof (fresh_run u w v Hu Ev) as Hv. destruct (rep_spec v Hv) as (_ & Hb & Hc).
  destruct (vec_at_is_Some _ _ Hb) as [nr Hnr], (vec_at_is_Some _ _ Hv) as [nv Hnv].
  destruct (rd_node _ _ _ Hd (rep v) nr Hnr (rep_idem v Hv)) as (Hn' & Ha & _). rewrite Hn', Hnv. cbn [mbind option_bind]. rewrite Ha.
  by apply (class_actions (rep v) v).
Qed.

Lemma ranges_ok_rep (f : Z -> Z) lo (ts : list (CharRange * Z)) : ranges_ok lo ((λ t, (t.1, f t.2)) <$> ts) = ranges_ok lo ts.
Proof. revert lo. induction ts as [|[r t] ts IH]; intros lo; [done|]. cbn. by rewrite IH. Qed.

Lemma reduced_live i : is_live d i = true <-> 0 <= i < N /\ rep i = i.
Proof using Hfresh Hd.
  split.
  - intros Hl. pose proof (is_live_bound d i Hl) as Hb. rewrite (rd_size _ _ _ Hd) in Hb. split; [done|].
    destruct (decide (rep i = i)) as [|Hne]; [done|]. unfold is_live in Hl. by rewrite (rd_killed _ _ _ Hd i Hb Hne) in Hl.
  - intros [Hb Hr]. destruct (vec_at_is_Some _ _ Hb) as [n Hn]. destruct (rd_node _ _ _ Hd i n Hn Hr) as (Hn' & _).
    unfold is_live. rewrite Hn'. by rewrite (fd_live _ Hfresh i n Hn).
Qed.

Lemma reduced_wf : wf_dfa d = true.
Proof using Hfresh Hd Hinv.
  pose proof (fresh_root dfa Hfresh) as Hroot. pose proof (fd_wf _ Hfresh) as Hwf. unfold wf_dfa in Hwf |- *. rewrite !andb_true_iff in Hwf |- *.
  rewrite (rd_size _ _ _ Hd). split_and!; [|apply forallb_forall|tauto].
  - apply reduced_live. rewrite (rd_root _ _ _ Hd). destruct (rep_spec _ Hroot) as (_ & ? & _). by rewrite rep_idem.
  - intros n [k Hk]%list_elem_of_In%list_elem_of_lookup. assert (vec_at (dfa_nodes d) (Z.of_nat k) = Some n) as Hn by (by rewrite vec_at_nat).
    pose proof (vec_at_bound _ _ _ Hn) as Hb. rewrite (rd_size _ _ _ Hd) in Hb.
    destruct (decide (rep (Z.of_nat k) = Z.of_nat k)) as [Hr|Hne]; [|rewrite (rd_killed _ _ _ Hd _ Hb Hne) in Hn; injection Hn as <-; done].
    destruct (fresh_node dfa Hfresh _ Hb) as (n0 & acts & ts & Hn0 & Ha & Hts & Hok & Hact & Hall).
    destruct (rd_node _ _ _ Hd _ n0 Hn0 Hr) as (Hn1 & Ha1 & Ht1). rewrite Hn in Hn1. injection Hn1 as ->.
    unfold node_ok. rewrite Ha1, Ha, (Ht1 ts Hts), Hact, ranges_ok_rep, Hok. apply orb_true_iff. right. cbn [andb]. apply forallb_forall.
    intros t (t0 & -> & Ht0)%list_elem_of_In%list_elem_of_fmap. cbn [snd]. apply reduced_live. rewrite Forall_forall in Hall. specialize (Hall _ Ht0).
    destruct (rep_spec _ Hall) as (_ & ? & _). by rewrite rep_idem.
Qed.

Lemma accepts_observe x w a : dfa_accepts x w a <-> exists acts, observe x (dfa_root x) w = Some acts /\ a ∈ acts.
Proof.
  unfold dfa_accepts, observe. split.
  - intros (j & node & acts & -> & Hn & Ha & ?). exists acts. cbn [mbind option_bind]. by rewrite Hn.
  - intros (acts & Ho & ?). destruct (dfa_run x (dfa_root x) w) as [j|]; [|done]. cbn [mbind option_bind] in Ho.
    destruct (vec_at (dfa_nodes x) j) as [node|] eqn:Hn; [|done]. by exists j, node, acts.
Qed.

Lemma reduced_accepts w a : dfa_accepts d w a <-> dfa_accepts dfa w a.
Proof using Hfresh Hgraph Hinv Hstable Hd Hlabels.
  rewrite !accepts_observe, (rd_root _ _ _ Hd), reduced_observe by (by apply fresh_root). done.
Qed.
End Classes.

(** ** [minimize] *)

(** The lengths of the slices of actions are unsigned. *)
Definition unsigned_lengths (dfa : DFA) : Prop := forall i node, vec_at (dfa_nodes dfa) i = Some node -> 0 <= m_actionsLength node.

Lemma hasActions_nonempty dfa node acts : 0 <= m_actionsLength node -> node_actions dfa node = Some acts -> hasActions node = true <-> acts <> [].
Proof.
  intros Hpos Ha. apply mapM_Some, Forall2_length in Ha. rewrite length_seqZ in Ha. unfold hasActions. rewrite negb_true_iff, Z.eqb_neq.
  destruct acts; simpl in Ha; split; try done; lia.
Qed.

Lemma indistinguishable_key dfa u v key : fresh_dfa dfa -> unsigned_lengths dfa -> indistinguishable dfa u v -> has_key dfa u key -> has_key dfa v key.
Proof.
  intros Hfresh Hlen [[Hu Hv] Hobs] (nu & Hnu & Hact & Hkey). destruct (fresh_node dfa Hfresh v Hv) as (nv & acts & _ & Hnv & Ha & _).
  specialize (Hobs []). rewrite !observe_nil, Hnu, Hnv in Hobs. cbn [mbind option_bind] in Hobs. exists nv. rewrite <- Hobs. split; [done|split; [|done]].
  rewrite Hobs in Hkey. pose proof (proj1 (hasActions_nonempty dfa nu key (Hlen _ _ Hnu) ltac:(congruence)) Hact).
  by apply (hasActions_nonempty dfa nv key (Hlen _ _ Hnv)).
Qed.

(** The slots of the map of final states are the sets of nodes with the same actions. *)
Lemma finalStates_slots `{SlotOrder} dfa m : (forall key l, m !! key = Some l -> NoDup l /\ forall i, i ∈ l <-> has_key dfa i key) ->
  forall slot, slot ∈ slots m -> NoDup slot.2 /\ forall i, i ∈ slot.2 <-> has_key dfa i slot.1.
Proof. intros Hm [key l]. rewrite slots_perm, elem_of_map_to_list. apply Hm. Qed.

(** What [minimize] returns. *)
Record minimized (dfa d : DFA) : Prop := {
  mz_wf : wf_dfa d = true;
  mz_size : vec_size (dfa_nodes d) = vec_size (dfa_nodes dfa);
  mz_node : forall i node, vec_at (dfa_nodes d) i = Some node -> isKilled node = false ->
    vec_at (dfa_nodes dfa) i = Some node /\ node_actions d node = node_actions dfa node;
  mz_observe : forall w, observe d (dfa_root d) w = observe dfa (dfa_root dfa) w;
  mz_minimal : unsigned_lengths dfa -> forall u v, is_live d u = true -> is_live d v = true ->
    (forall w, observe d u w = observe d v w) -> u = v
}.

Lemma fullGraphPartition_next `{UninitializedMemory} dfa g : fullGraphPartition dfa = Some g -> m_nextTransitionSetToProcess g = 0.
Proof.
  unfold fullGraphPartition. destruct (liveTransitions dfa) as [nodes|]; [|done]. cbn [mbind option_bind].
  destruct (singularTransitions nodes) as [singular|]; [|done]. cbn [mbind option_bind]. destruct (ranges_in_order singular) as [ranges|]; [|done].
  cbn [mbind option_bind]. destruct (addTransitionSets ranges) as [p acc]. destruct (countIncoming _ _) as [counts|]; [|done]. cbn [mbind option_bind].
  destruct (accumulateOffsets counts) as [offsets size]. destruct (fillTransitions _ _ _ _) as [st|]; [|done]. by intros [= <-].
Qed.

(** A slot of the map for each key, so the labels of a set agree. *)
Lemma slots_labels `{SlotOrder} dfa m u v key : (forall key l, m !! key = Some l -> NoDup l /\ forall i, i ∈ l <-> has_key dfa i key) ->
  (forall key i, has_key dfa i key -> is_Some (m !! key)) -> (forall slot, slot ∈ slots m -> u ∈ slot.2 <-> v ∈ slot.2) ->
  has_key dfa u key <-> has_key dfa v key.
Proof.
  intros Hm1 Hm2 Hs. assert (forall i, has_key dfa i key -> exists l, m !! key = Some l /\ (forall j, j ∈ l <-> has_key dfa j key) /\ (u ∈ l <-> v ∈ l)) as Hl.
  { intros i Hi. destruct (Hm2 key i Hi) as [l Hl]. exists l. split; [done|]. split; [by apply Hm1|]. apply (Hs (key, l)).
    by rewrite slots_perm, elem_of_map_to_list. }
  split; intros Hk; destruct (Hl _ Hk) as (l & _ & Hin & Huv); apply Hin, Huv, Hin, Hk.
Qed.

Lemma minimize_sound `{UninitializedMemory, SlotOrder} dfa : fresh_dfa dfa -> exists d, minimize dfa = Some d /\ minimized dfa d.
Proof.
  intros Hfresh. set (N := vec_size (dfa_nodes dfa)). pose proof (fresh_root dfa Hfresh) as Hroot.
  destruct (fullGraphPartition_spec dfa (fresh_plain dfa Hfresh)) as (g0 & source & target & symbol & covers & Hg0 & Hgraph & HI0 & Htog0); [lia|].
  unfold minimize. rewrite Hg0. cbn [mbind option_bind]. set (T := vec_size (m_flattenedTransitions g0)) in *.
  destruct (finalStates_spec dfa) as (m & -> & Hm1 & Hm2).
  { intros i node Hi. destruct (fresh_node dfa Hfresh i) as (n & acts & _ & Hn & Ha & _); [by eapply vec_at_bound|]. simplify_eq. by exists acts. }
  cbn [mbind option_bind]. pose proof (finalStates_slots dfa m Hm1) as Hslots.
  assert (forall u v, indistinguishable dfa u v -> indistinguishable dfa v u) as Hsymm by (intros u v [[? ?] ?]; split; auto).
  destruct (labels_spec N T source target symbol (indistinguishable dfa) g0 (slots m) HI0) as (g1 & -> & HI1 & Hn1 & Hl1 & Ht1).
  { by eapply fullGraphPartition_next. }
  { intros slot Hs. destruct (Hslots slot Hs) as [Hnd Hin]. split; [done|]. intros i (node & Hn & _)%Hin. by eapply vec_at_bound. }
  cbn [mbind option_bind].
  destruct (splitByUniqueTransitions_spec N T source target symbol (gf_range _ _ _ _ _ _ Hgraph) (gf_det _ _ _ _ _ _ Hgraph) (indistinguishable dfa)
    Hsymm (λ t v, indistinguishable_next dfa Hfresh T source target symbol covers t v Hgraph) (length (m_flattenedTransitions g1)) g1 HI1)
    as (g & -> & HI & Hend & Href & Htog).
  { pose proof (go_size _ _ _ _ _ (si_graph _ _ _ _ _ _ HI1)) as Hsz. unfold vec_size in Hsz. lia. }
  cbn [mbind option_bind]. replace T with (vec_size (m_flattenedTransitions g)) in * by (apply (go_size _ _ _ _ _ (si_graph _ _ _ _ _ _ HI))).
  pose proof (split_inv_stable _ _ _ _ _ g HI Hend) as Hstable.
  assert (forall u v key, set_of (m_nodePartition g) u = set_of (m_nodePartition g) v -> has_key dfa u key <-> has_key dfa v key) as Hlabels.
  { intros u v key Huv. apply (slots_labels dfa m); [done|done|]. intros slot Hslot. apply Hl1; [by apply Href|done]. }
  destruct (relocate_spec g dfa (rep g)) as (d & -> & Hd); [| |apply Hfresh|done|].
  { intros i Hi. destruct (rep_spec dfa g _ _ _ HI i Hi) as (? & ? & ?). split_and!; [done|lia|lia|by eapply rep_idem]. }
  { intros i node Hi. split; [by apply (fd_live _ Hfresh i)|]. destruct (fresh_node dfa Hfresh i) as (n & acts & ts & Hn & Ha & Hts & _ & _ & Hall); [by eapply vec_at_bound|].
    rewrite Hi in Hn. injection Hn as <-. by exists acts, ts. }
  exists d. split; [done|]. split.
  - by eapply reduced_wf.
  - by apply (rd_size _ _ _ Hd).
  - intros i node Hi Hk. assert (is_live d i = true) as Hl by (unfold is_live; by rewrite Hi, Hk).
    apply (reduced_live dfa g Hfresh d Hd) in Hl as [Hb Hr]. destruct (vec_at_is_Some _ _ Hb) as [n Hn].
    destruct (rd_node _ _ _ Hd i n Hn Hr) as (Hn' & Ha & _). rewrite Hi in Hn'. injection Hn' as <-. done.
  - intros w. rewrite (rd_root _ _ _ Hd). by eapply reduced_observe.
  - intros Hlen u v Hu Hv Huv. apply (reduced_live dfa g Hfresh d Hd) in Hu as [Hu Hru], Hv as [Hv Hrv]. rewrite <- Hru, <- Hrv.
    assert (forall u v slot, indistinguishable dfa u v -> slot ∈ slots m -> u ∈ slot.2 <-> v ∈ slot.2) as Hsim.
    { intros x y slot Hxy Hslot. destruct (Hslots slot Hslot) as [_ Hin]. rewrite !Hin. split; apply indistinguishable_key; auto. }
    apply (rep_class dfa g source target symbol HI u v Hu Hv). apply (proj1 (Htog (Ht1 Hsim (Htog0 _ (λ u v, @proj1 _ _))))). split; [done|].
    intros w. pose proof (Huv w) as Hw. rewrite <- Hru, <- Hrv in Hw.
    by rewrite !(reduced_observe dfa g source target symbol covers Hfresh Hgraph HI Hstable Hlabels d Hd) in Hw.
Qed.

(** C11: [DFA::minimize] terminates on every automaton that the compiler makes
    and returns a well-formed automaton that triggers the same actions on every
    string. *)
Theorem minimize_correct `{UninitializedMemory, SlotOrder} dfa : fresh_dfa dfa ->
  exists d, minimize dfa = Some d /\ wf_dfa d = true /\ forall w a, dfa_accepts d w a <-> dfa_accepts dfa w a.
Proof.
  intros Hfresh. destruct (minimize_sound dfa Hfresh) as (d & Hd & Hm). exists d. split; [done|]. split; [apply Hm|].
  intros w a. by rewrite !accepts_observe, (mz_observe _ _ Hm).
Qed.

(** C12: [DFA::minimize] merges all nodes that it can tell to be alike: two of the
    nodes that are not killed are the same node when on every string both or none
    has a run, and the runs end in nodes with the same list of actions, in the same
    order.  (Lists with the same actions in another order, and a dead node and none,
    are told apart: the automaton is minimal for this observation, not for the sets
    of actions.) *)
Theorem minimize_minimal `{UninitializedMemory, SlotOrder} dfa d : fresh_dfa dfa -> unsigned_lengths dfa -> minimize dfa = Some d ->
  forall u v, is_live d u = true -> is_live d v = true -> (forall w, observe d u w = observe d v w) -> u = v.
Proof.
  intros Hfresh Hlen Hd. destruct (minimize_sound dfa Hfresh) as (d' & Hd' & Hm). rewrite Hd in Hd'. injection Hd' as <-. by apply Hm.
Qed.

(** ** An example *)

Lemma mergeable_node i node : vec_at (dfa_nodes mergeable_dfa) i = Some node -> (i = 0 \/ i = 1 \/ i = 2 \/ i = 3) /\ node ∈ dfa_nodes mergeable_dfa.
Proof.
  intros Hi. split; [apply vec_at_bound in Hi; unfold vec_size in Hi; simpl in Hi; lia|]. apply vec_at_Some in Hi as [_ Hi]. by eapply list_elem_of_lookup_2.
Qed.

Lemma mergeable_fresh : fresh_dfa mergeable_dfa.
Proof.
  split.
  - vm_compute. reflexivity.
  - intros i node Hi. apply mergeable_node in Hi as [_ Hn]. revert node Hn. apply Forall_forall. repeat constructor.
  - intros i j n m Hne Hi Hj. destruct (mergeable_node i n Hi) as [Ci _], (mergeable_node j m Hj) as [Cj _].
    destruct Ci as [-> | [-> | [-> | ->]]], Cj as [-> | [-> | [-> | ->]]]; try done; injection Hi as <-; injection Hj as <-;
      unfold apart_nodes, apart; simpl; lia.
Qed.

Lemma minimize_correct_witness : exists d, minimize mergeable_dfa = Some d /\ graphSize d = 3 /\ dfa_accepts d [98] 7.
Proof.
  destruct (minimize_correct mergeable_dfa mergeable_fresh) as (d & Hd & _ & Hacc). exists d. split; [exact Hd|]. split.
  - vm_compute in Hd. injection Hd as <-. reflexivity.
  - apply Hacc. exists 2, (mkDFANode 1 3 1 1 0), [7]. split; [reflexivity|]. split; [reflexivity|]. split; [reflexivity|]. left.
Defined.

Lemma minimize_minimal_witness : fresh_dfa mergeable_dfa /\ unsigned_lengths mergeable_dfa
  /\ exists d, minimize mergeable_dfa = Some d /\ ((forall w, observe d 1 w = observe d 3 w) -> 1 = 3).
Proof.
  assert (unsigned_lengths mergeable_dfa) as Hlen.
  { intros i node Hi. apply mergeable_node in Hi as [_ Hn]. revert node Hn. apply Forall_forall. repeat constructor; discriminate. }
  destruct (minimize mergeable_dfa) as [d|] eqn:Hd; [|vm_compute in Hd; discriminate].
  split; [exact mergeable_fresh|]. split; [exact Hlen|]. exists d. split; [reflexivity|].
  apply (minimize_minimal mergeable_dfa d mergeable_fresh Hlen Hd); vm_compute in Hd; injection Hd as <-; reflexivity.
Defined.
