(* ===== verification/DFACombiner.v ===== *)
(** * Combining automata

    Models [DFACombiner.h] and [DFACombiner.cpp] of
    [src/Source/WebCore/contentextensions/]: [DFAMerger] makes the product of two
    DFAs, and [DFACombiner] merges small DFAs until their size passes a
    threshold.  A signature is a 64-bit pair of node indices.  The hash map of
    signatures is a finite map, the order of a hash set the parameter of
    [HashOrder].  [None] is an index outside a vector or the end of the fuel. *)

From stdpp Require Import base numbers option list list_numbers gmap sets.
From Stdlib Require Import ZArith Lia.
From S2P Require Import Prelude.
From S2P Require Import DFA.
From S2P Require Import MutableRangeList.
From S2P Require Import NFA.
From S2P Require Import NFAToDFA.
From S2P Require Import Partition.
From S2P Require Import DFAMinimizer.

(** ** [DFAMerger] *)

Inductive WhichDFA := A | B.

(** [TargetConverter<whichDFA>] *)
Definition setHalfSignature (whichDFA : WhichDFA) (signature value : Z) : Z :=
  let shiftAmount := match whichDFA with A => 32 | B => 0 end in
  let mask := u64 (Z.shiftl 0xffffffff (32 - shiftAmount)) in
  Z.lor (Z.land signature mask) (u64 (Z.shiftl value shiftAmount)).

Definition target_extend (whichDFA : WhichDFA) (destination target : Z) : Z := setHalfSignature whichDFA destination target.
Definition target_convert (whichDFA : WhichDFA) (target : Z) : Z := target_extend whichDFA 0xffffffffffffffff target.

Definition invalidNodeIndex : Z := 0xffffffff.

Definition signatureForIndices (aIndex bIndex : Z) : Z := Z.lor (u64 (Z.shiftl aIndex 32)) bIndex.
Definition extractIndexA (signature : Z) : Z := u32 (Z.shiftr signature 32).
Definition extractIndexB (signature : Z) : Z := u32 signature.

(** The state of a [DFAMerger]; the last element of [m_unprocessedNodes] comes first. *)
Record MergeState := mkMergeState {
  m_output : DFA;
  m_nodeMapping : gmap Z Z;
  m_unprocessedNodes : list Z
}.

Definition newMerger : MergeState := mkMergeState (mkDFA [] [] [] [] 0) ∅ [].

(** [combinedTransitions.extend(...)] with the transitions of a node, when there is one. *)
Definition extendWithTransitions (whichDFA : WhichDFA) (dfa : DFA) (index : Z) (combined : list (MutableRange Z))
    : option (list (MutableRange Z)) :=
  if negb (index =? invalidNodeIndex) then
    node ← vec_at (dfa_nodes dfa) index;
    transitions ← node_transitions dfa node;
    extend (target_convert whichDFA) (target_extend whichDFA) combined (as_ranges transitions)
  else Some combined.

(** The loop that adds the actions of a node to the set, when there is a node. *)
Definition addActions (dfa : DFA) (index : Z) (actions : gset Z) : option (gset Z) :=
  if negb (index =? invalidNodeIndex) then
    node ← vec_at (dfa_nodes dfa) index;
    acts ← node_actions dfa node;
    Some (foldl (λ actions action, {[ action ]} ∪ actions) actions acts)
  else Some actions.

Section Combiner.
Context `{HashOrder}.

Definition getOrCreateCombinedNode (dfaA dfaB : DFA) (newNodeSignature : Z) (st : MergeState) : option (Z * MergeState) :=
  match m_nodeMapping st !! newNodeSignature with
  | Some value => Some (value, st)
  | None =>
      let output := m_output st in
      let newNodeIndex := vec_size (dfa_nodes output) in
      actions ← addActions dfaA (extractIndexA newNodeSignature) ∅;
      actions ← addActions dfaB (extractIndexB newNodeSignature) actions;
      let actionsStart := vec_size (dfa_actions output) in
      let newActions := dfa_actions output ++ iteration actions in
      let actionsLength := u16 (vec_size newActions - actionsStart) in
      Some (newNodeIndex,
            mkMergeState
              (mkDFA (dfa_nodes output ++ [setActions emptyDFANode actionsStart actionsLength]) newActions
                 (transitionRanges output) (transitionDestinations output) (dfa_root output))
              (<[newNodeSignature := newNodeIndex]> (m_nodeMapping st))
              (newNodeSignature :: m_unprocessedNodes st))
  end.

(** The loop over the combined transitions. *)
Definition addCombinedTransitions (dfaA dfaB : DFA) (st : MergeState) (ranges : list (MutableRange Z)) : option MergeState :=
  foldl (λ st range, st ← st;
           '(targetNodeId, st) ← getOrCreateCombinedNode dfaA dfaB (mr_data range) st;
           Some (mkMergeState (appendTransition (m_output st) (mkCharRange (mr_first range) (mr_last range)) targetNodeId)
                   (m_nodeMapping st) (m_unprocessedNodes st)))
    (Some st) ranges.

(** One iteration of the loop of [merge], for the signature taken from the stack. *)
Definition mergeNode (dfaA dfaB : DFA) (unprocessedNode : Z) (st : MergeState) : option MergeState :=
  combined ← extendWithTransitions A dfaA (extractIndexA unprocessedNode) [];
  combined ← extendWithTransitions B dfaB (extractIndexB unprocessedNode) combined;
  ranges ← ranges_in_order combined;
  let transitionsStart := vec_size (transitionRanges (m_output st)) in
  st ← addCombinedTransitions dfaA dfaB st ranges;
  let transitionsLength := vec_size (transitionRanges (m_output st)) - transitionsStart in
  let sourceNodeId := default 0 (m_nodeMapping st !! unprocessedNode) in
  node ← vec_at (dfa_nodes (m_output st)) sourceNodeId;
  nodes ← vec_set (dfa_nodes (m_output st)) sourceNodeId (setTransitions node transitionsStart (u8 transitionsLength));
  Some (mkMergeState (mkDFA nodes (dfa_actions (m_output st)) (transitionRanges (m_output st))
                        (transitionDestinations (m_output st)) (dfa_root (m_output st)))
          (m_nodeMapping st) (m_unprocessedNodes st)).

Fixpoint mergeLoop (fuel : nat) (dfaA dfaB : DFA) (st : MergeState) : option MergeState :=
  match m_unprocessedNodes st with
  | [] => Some st
  | unprocessedNode :: rest =>
    match fuel with
    | O => None
    | S fuel =>
      st ← mergeNode dfaA dfaB unprocessedNode (mkMergeState (m_output st) (m_nodeMapping st) rest);
      mergeLoop fuel dfaA dfaB st
    end
  end.

(** [merge]: the state after the call; the result is its [m_output]. *)
Definition merge (fuel : nat) (dfaA dfaB : DFA) (st : MergeState) : option MergeState :=
  if negb (bool_decide (m_nodeMapping st = ∅)) then Some st
  else
    let rootSignature := signatureForIndices (dfa_root dfaA) (dfa_root dfaB) in
    '(_, st) ← getOrCreateCombinedNode dfaA dfaB rootSignature st;
    mergeLoop fuel dfaA dfaB st.

(** The number of pairs of nodes, of which one can be missing. *)
Definition mergeFuel (dfaA dfaB : DFA) : nat := Z.to_nat ((graphSize dfaA + 1) * (graphSize dfaB + 1)).

(** [DFAMerger dfaMerger(a, b); DFA c = dfaMerger.merge();] *)
Definition mergeDFAs (a b : DFA) : option DFA := m_output <$> merge (mergeFuel a b) a b newMerger.

(** ** [DFACombiner]

    The state is the vector [m_dfas]; the calls of the handler are collected in
    a list. *)
Context `{UninitializedMemory, SlotOrder}.

Definition addDFA (m_dfas : list DFA) (dfa : DFA) : option (list DFA) :=
  dfa ← minimize dfa;
  Some (m_dfas ++ [dfa]).

(** The [for] loop over the indices from the last to the first. *)
Definition handOutLarge (minimumSize : Z) (m_dfas : list DFA) : option (list DFA * list DFA) :=
  foldl (λ acc i, '(handed, dfas) ← acc;
           dfa ← vec_at dfas i;
           if minimumSize <? graphSize dfa then Some (handed ++ [dfa], delete (Z.to_nat i) dfas)
           else Some (handed, dfas))
    (Some ([], m_dfas)) (reverse (seqZ 0 (vec_size m_dfas))).

Definition takeLast (v : list DFA) : option (DFA * list DFA) :=
  dfa ← last v;
  Some (dfa, take (pred (length v)) v).

Fixpoint combineLoop (fuel : nat) (minimumSize : Z) (m_dfas handed : list DFA) : option (list DFA) :=
  match m_dfas with
  | [] => Some handed
  | [dfa] => Some (handed ++ [dfa])
  | _ =>
    match fuel with
    | O => None
    | S fuel =>
      '(a, m_dfas) ← takeLast m_dfas;
      '(b, m_dfas) ← takeLast m_dfas;
      c ← mergeDFAs a b;
      c ← (if (minimumSize <? graphSize c) || bool_decide (m_dfas = []) then minimize c else Some c);
      if minimumSize <? graphSize c then combineLoop fuel minimumSize m_dfas (handed ++ [c])
      else combineLoop fuel minimumSize (m_dfas ++ [c]) handed
    end
  end.

Definition combineDFAs (minimumSize : Z) (m_dfas : list DFA) : option (list DFA) :=
  if bool_decide (m_dfas = []) then Some []
  else
    '(handed, m_dfas) ← handOutLarge minimumSize m_dfas;
    combineLoop (length m_dfas) minimumSize m_dfas handed.
End Combiner.

(** ** An example *)

(** Automata for [ab] with the action 1 and for [ac] with the action 2. *)
Definition ab_automaton : DFA :=
  mkDFA [mkDFANode 0 0 0 1 0; mkDFANode 0 1 0 1 0; mkDFANode 0 2 1 0 0] [1] [mkCharRange 97 97; mkCharRange 98 98] [1; 2] 0.
Definition ac_automaton : DFA :=
  mkDFA [mkDFANode 0 0 0 1 0; mkDFANode 0 1 0 1 0; mkDFANode 0 2 1 0 0] [2] [mkCharRange 97 97; mkCharRange 99 99] [1; 2] 0.

Example combine_two : map graphSize <$> combineDFAs 100 [ab_automaton; ac_automaton] = Some [4].
Proof. vm_compute. reflexivity. Qed.

Example combine_none_small : map graphSize <$> combineDFAs 2 [ab_automaton; ac_automaton] = Some [3; 3].
Proof. vm_compute. reflexivity. Qed.
