(* ===== verification/CombinerProof.v ===== *)
(** * Combined automata trigger the actions of all their parts

    [DFAMerger::merge] makes an automaton for the union of two automata, and
    [DFACombiner::combineDFAs] hands out automata that together trigger what the
    ones it was given trigger. *)

From stdpp Require Import base numbers option list list_numbers gmap sets.
From Stdlib Require Import ZArith Lia.
From S2P Require Import Prelude.
From S2P Require Import DFA.
From S2P Require Import MutableRangeList.
From S2P Require Import NFA.
From S2P Require Import NFAToDFA.
From S2P Require Import Worklist.
From S2P Require Import ConvertProof.
From S2P Require Import Partition.
From S2P Require Import DFAMinimizer.
From S2P Require Import SingularRanges.
From S2P Require Import MinimizerProof.
From S2P Require Import DFACombiner.

(** ** Signatures *)

Abbreviation index32 i := (0 <= i < 2 ^ 32).

Lemma signature_value i j : index32 i -> index32 j -> signatureForIndices i j = j + i * 2 ^ 32.
Proof.
  intros Hi Hj. unfold signatureForIndices. rewrite (uwrap_small 64); [by rewrite Z.lor_comm, lor_shiftl_add by lia|].
  rewrite Z.shiftl_mul_pow2 by lia. lia.
Qed.

Lemma extractIndexA_signature i j : index32 i -> index32 j -> extractIndexA (signatureForIndices i j) = i.
Proof.
  intros Hi Hj. unfold extractIndexA. rewrite signature_value, Z.shiftr_div_pow2, Z.div_add, (Z.div_small j) by lia. by rewrite uwrap_small by lia.
Qed.

Lemma extractIndexB_signature i j : index32 i -> index32 j -> extractIndexB (signatureForIndices i j) = j.
Proof. intros Hi Hj. unfold extractIndexB, uwrap. rewrite signature_value, Z.mod_add, Z.mod_small by lia. done. Qed.

Lemma signature_inj i j i' j' : index32 i -> index32 j -> index32 i' -> index32 j' ->
  signatureForIndices i j = signatureForIndices i' j' -> i = i' /\ j = j'.
Proof. intros Hi Hj Hi' Hj'. rewrite !signature_value by done. lia. Qed.

(** Setting one half keeps the other one. *)
Lemma setHalfSignature_A i j t : index32 i -> index32 j -> index32 t ->
  setHalfSignature A (signatureForIndices i j) t = signatureForIndices t j.
Proof.
  intros Hi Hj Ht. unfold setHalfSignature. change (u64 (Z.shiftl 4294967295 (32 - 32))) with (Z.ones 32).
  rewrite Z.land_ones by lia. rewrite signature_value, Z.mod_add, Z.mod_small by lia. unfold signatureForIndices. apply Z.lor_comm.
Qed.

Lemma setHalfSignature_B i j t : index32 i -> index32 j -> index32 t ->
  setHalfSignature B (signatureForIndices i j) t = signatureForIndices i t.
Proof.
  intros Hi Hj Ht. unfold setHalfSignature. change (u64 (Z.shiftl 4294967295 (32 - 0))) with (Z.shiftl (Z.ones 32) 32).
  rewrite Z.shiftl_0_r, (uwrap_small 64 t) by lia.
  replace (Z.land (signatureForIndices i j) (Z.shiftl (Z.ones 32) 32)) with (Z.shiftl i 32).
  { unfold signatureForIndices. rewrite (uwrap_small 64); [done|]. rewrite Z.shiftl_mul_pow2 by lia. lia. }
  assert (i = Z.shiftr (signatureForIndices i j) 32) as Hs.
  { rewrite signature_value, Z.shiftr_div_pow2, Z.div_add, (Z.div_small j) by lia. lia. }
  assert (i = Z.land i (Z.ones 32)) as Hl by (rewrite Z.land_ones, Z.mod_small by lia; done).
  rewrite Hl, Hs at 1. apply Z.bits_inj'. intros n Hn. rewrite Z.land_spec, !Z.shiftl_spec by lia.
  destruct (decide (n < 32)) as [Hlt|Hge]; [by rewrite !(Z.testbit_neg_r _ (n - 32)), andb_false_r by lia|].
  rewrite Z.land_spec, Z.shiftr_spec by lia. by replace (n - 32 + 32) with n by lia.
Qed.

Lemma invalid_signature : 0xffffffffffffffff = signatureForIndices invalidNodeIndex invalidNodeIndex.
Proof. reflexivity. Qed.

Lemma invalid_index : index32 invalidNodeIndex.
Proof. unfold invalidNodeIndex. lia. Qed.

(** ** Transitions of a node as ranges *)

Lemma as_ranges_sorted lo ts : ranges_ok lo ts = true -> sorted_from lo (as_ranges ts).
Proof.
  revert lo. induction ts as [|[r t] ts IH]; intros lo; [done|]. rewrite ranges_ok_cons. intros (? & ? & Hok).
  unfold as_ranges. rewrite fmap_cons, sorted_from_cons. cbn [o_first o_last fst]. split_and!; try lia. by apply IH.
Qed.

Lemma as_ranges_lookup ts c : range_lookup (as_ranges ts) c = find_transition ts c.
Proof.
  induction ts as [|[r t] ts IH]; [done|]. unfold as_ranges. rewrite fmap_cons. cbn [range_lookup find_transition o_first o_last o_data fst snd].
  unfold in_range. by destruct (_ && _).
Qed.

(** ** One half of a pair *)

Definition half_ok (dfa : DFA) (i : Z) : Prop := i = invalidNodeIndex \/ is_live dfa i = true.

Definition node_has (dfa : DFA) (i a : Z) : Prop :=
  exists node acts, vec_at (dfa_nodes dfa) i = Some node /\ node_actions dfa node = Some acts /\ a ∈ acts.

(** The actions of the nodes that are not killed. *)
Definition actions_in (U : gset Z) (dfa : DFA) : Prop := forall i a, is_live dfa i = true -> node_has dfa i a -> a ∈ U.

Section Half.
Context (dfa : DFA).
Hypothesis Hwf : wf_dfa dfa = true.

Lemma wf_dfa_size : vec_size (dfa_nodes dfa) < invalidNodeIndex.
Proof using Hwf. unfold wf_dfa in Hwf. rewrite !andb_true_iff in Hwf. destruct Hwf as (_ & H). by apply Z.ltb_lt in H. Qed.

Lemma live_index i : is_live dfa i = true -> index32 i /\ i <> invalidNodeIndex.
Proof using Hwf. intros Hi%is_live_bound. pose proof wf_dfa_size. unfold invalidNodeIndex in *. lia. Qed.

Lemma half_index i : half_ok dfa i -> index32 i.
Proof using Hwf. intros [->|Hi]; [apply invalid_index|by apply live_index]. Qed.

Lemma invalid_node : vec_at (dfa_nodes dfa) invalidNodeIndex = None.
Proof using Hwf.
  destruct (vec_at (dfa_nodes dfa) invalidNodeIndex) eqn:E; [|done]. apply vec_at_bound in E. pose proof wf_dfa_size. lia.
Qed.

Lemma live_node i : is_live dfa i = true -> exists node acts ts, vec_at (dfa_nodes dfa) i = Some node /\ isKilled node = false
  /\ node_actions dfa node = Some acts /\ node_transitions dfa node = Some ts /\ forallb action_ok acts = true
  /\ ranges_ok 0 ts = true /\ forallb (λ t, is_live dfa t.2) ts = true.
Proof using Hwf.
  unfold is_live. destruct (vec_at (dfa_nodes dfa) i) as [node|] eqn:Hn; [|done]. intros Hk%negb_true_iff.
  destruct (wf_dfa_node dfa i node Hwf Hn Hk) as (acts & ts & ? & ? & ? & ? & ?). by exists node, acts, ts.
Qed.

Lemma half_next_live i c v : half_ok dfa i -> dfa_next dfa i c = Some v -> is_live dfa v = true.
Proof using Hwf.
  unfold dfa_next. intros [->|Hi]; [by rewrite invalid_node|]. destruct (live_node i Hi) as (node & acts & ts & -> & _ & _ & Hts & _ & _ & Hall).
  cbn [mbind option_bind]. rewrite Hts. cbn [mbind option_bind]. intros (r & Hin & _)%find_transition_elem. rewrite forallb_forall in Hall.
  by apply list_elem_of_In, Hall in Hin.
Qed.

Lemma half_next_ascii i c : half_ok dfa i -> ~ (0 <= c <= 127) -> dfa_next dfa i c = None.
Proof using Hwf.
  unfold dfa_next. intros [->|Hi] Hc; [by rewrite invalid_node|]. destruct (live_node i Hi) as (node & acts & ts & -> & _ & _ & Hts & _ & Hok & _).
  cbn [mbind option_bind]. rewrite Hts. cbn [mbind option_bind].
  destruct (decide (c < 0)); [by apply (find_transition_below 0)|apply (find_transition_above 0); [done|lia]].
Qed.

Lemma addActions_spec i S : half_ok dfa i -> exists S', addActions dfa i S = Some S' /\ forall a, a ∈ S' <-> a ∈ S \/ node_has dfa i a.
Proof using Hwf.
  unfold addActions. intros [->|Hi].
  - rewrite Z.eqb_refl. cbn [negb]. exists S. split; [done|]. intros a. split; [by left|]. intros [|(node & acts & Hn & _)]; [done|].
    by rewrite invalid_node in Hn.
  - rewrite (proj2 (Z.eqb_neq _ _)) by (by apply live_index). cbn [negb]. destruct (live_node i Hi) as (node & acts & ts & Hn & _ & Ha & _).
    rewrite Hn. cbn [mbind option_bind]. rewrite Ha. cbn [mbind option_bind]. eexists. split; [done|]. intros a.
    assert (node_has dfa i a <-> a ∈ acts) as ->.
    { split; [intros (n & as' & ? & ? & ?); by simplify_eq|]. intros ?. by exists node, acts. }
    clear. revert S. induction acts as [|x acts IH]; intros S; cbn [foldl]; [set_solver|]. rewrite IH. set_solver.
Qed.

Lemma extendWithTransitions_spec which i v idx l : half_ok dfa i -> represents v idx l -> sorted_from 0 l ->
  exists v' idx' l', extendWithTransitions which dfa i v = Some v' /\ represents v' idx' l' /\ sorted_from 0 l'
    /\ forall c, 0 <= c <= 127 -> range_lookup l' c = merged (target_convert which) (target_extend which) (range_lookup l c) (dfa_next dfa i c).
Proof using Hwf.
  unfold extendWithTransitions, dfa_next. intros [->|Hi] HR Hs.
  - rewrite Z.eqb_refl. cbn [negb]. exists v, idx, l. split_and!; try done. intros c _. rewrite invalid_node. cbn [mbind option_bind].
    by destruct (range_lookup l c).
  - rewrite (proj2 (Z.eqb_neq _ _)) by (by apply live_index). cbn [negb]. destruct (live_node i Hi) as (node & acts & ts & -> & _ & _ & Hts & _ & Hok & _).
    cbn [mbind option_bind]. rewrite Hts. cbn [mbind option_bind].
    destruct (extend_sound (target_convert which) (target_extend which) v idx l (as_ranges ts) HR Hs (as_ranges_sorted 0 ts Hok))
      as (v' & idx' & l' & ? & ? & ? & Hl). exists v', idx', l'. split_and!; try done. intros c Hc. by rewrite (Hl c Hc), as_ranges_lookup.
Qed.
End Half.

(** [graphSize] counts the nodes that are not killed. *)
Lemma graphSize_live d : vec_size (dfa_nodes d) < 2 ^ 32 ->
  graphSize d = Z.of_nat (length (filter (λ i, is_live d i = true) (seqZ 0 (vec_size (dfa_nodes d))))).
Proof.
  intros Hsz. unfold graphSize.
  enough (forall k nodes count, dfa_nodes d = take k (dfa_nodes d) ++ nodes -> (k <= length (dfa_nodes d))%nat -> 0 <= count <= Z.of_nat k ->
    foldl (λ count node, if negb (isKilled node) then u32 (count + 1) else count) count nodes
    = count + Z.of_nat (length (filter (λ i, is_live d i = true) (seqZ (Z.of_nat k) (vec_size nodes))))) as Hgen.
  { rewrite (Hgen 0%nat (dfa_nodes d) 0); [by rewrite Z.add_0_l|done|lia|lia]. }
  intros k nodes. revert k. induction nodes as [|node nodes IH]; intros k count Heq Hk Hc; [by rewrite Z.add_0_r|]. cbn [foldl].
  assert (dfa_nodes d !! k = Some node) as Hn.
  { rewrite Heq, lookup_app_r by (rewrite length_take; lia). rewrite length_take, Nat.min_l, Nat.sub_diag by lia. done. }
  assert (k < length (dfa_nodes d))%nat as Hlt by (by eapply lookup_lt_Some).
  assert (dfa_nodes d = take (S k) (dfa_nodes d) ++ nodes) as Heq'.
  { rewrite (take_S_r _ _ _ Hn), <- app_assoc. exact Heq. }
  unfold vec_size. cbn [length]. rewrite seqZ_cons by lia. replace (Z.pred (Z.of_nat (S (length nodes)))) with (vec_size nodes) by (unfold vec_size; lia).
  rewrite filter_cons. replace (Z.succ (Z.of_nat k)) with (Z.of_nat (S k)) by lia. unfold vec_size in Hsz.
  assert (is_live d (Z.of_nat k) = negb (isKilled node)) as -> by (unfold is_live; by rewrite vec_at_nat, Hn). destruct (isKilled node); cbn [negb].
  - rewrite (IH (S k)) by (done || lia). by rewrite decide_False by done.
  - rewrite (uwrap_small 32) by lia. rewrite (IH (S k)) by (done || lia). rewrite decide_True by done. cbn [length]. lia.
Qed.

(** ** The product *)

Section Merge.
Context `{HashOrder} (dfaA dfaB : DFA) (U : gset Z).
Hypothesis HwfA : wf_dfa dfaA = true.
Hypothesis HwfB : wf_dfa dfaB = true.
Hypothesis HactsA : actions_in U dfaA.
Hypothesis HactsB : actions_in U dfaB.
Hypothesis HU : Z.of_nat (size U) <= 65535.

(** The signatures of pairs; the one without any node is not among them, it
    marks the free slots of the hash map. *)
Definition pair_ok (X : Z) : Prop := exists i j, X = signatureForIndices i j /\ half_ok dfaA i /\ half_ok dfaB j
  /\ (is_live dfaA i = true \/ is_live dfaB j = true).

Definition pair_action (X a : Z) : Prop := node_has dfaA (extractIndexA X) a \/ node_has dfaB (extractIndexB X) a.

Definition pair_next (X c : Z) : option Z :=
  match dfa_next dfaA (extractIndexA X) c, dfa_next dfaB (extractIndexB X) c with
  | None, None => None
  | x, y => Some (signatureForIndices (default invalidNodeIndex x) (default invalidNodeIndex y))
  end.

Definition pair_step (X c : Z) (r : option Z) : Prop := r = pair_next X c.

Lemma pair_halves X : pair_ok X -> half_ok dfaA (extractIndexA X) /\ half_ok dfaB (extractIndexB X) /\ X = signatureForIndices (extractIndexA X) (extractIndexB X).
Proof using HwfA HwfB.
  intros (i & j & -> & Hi & Hj & _). pose proof (half_index _ HwfA i Hi). pose proof (half_index _ HwfB j Hj).
  by rewrite extractIndexA_signature, extractIndexB_signature.
Qed.

Lemma pair_next_ok X c Y : pair_ok X -> pair_next X c = Some Y -> pair_ok Y.
Proof using HwfA HwfB.
  intros HX HY. destruct (pair_halves X HX) as (HA & HB & _). unfold pair_next in HY.
  pose proof (half_next_live dfaA HwfA (extractIndexA X) c) as HnA. pose proof (half_next_live dfaB HwfB (extractIndexB X) c) as HnB.
  destruct (dfa_next dfaA (extractIndexA X) c) as [x|], (dfa_next dfaB (extractIndexB X) c) as [y|]; try done; injection HY as <-;
    eexists _, _; (split; [reflexivity|]); cbn; unfold half_ok; auto.
Qed.

Definition merge_ids (st : MergeState) : list Z := (λ X, default 0 (m_nodeMapping st !! X)) <$> m_unprocessedNodes st.
Definition with_output (st : MergeState) (dfa : DFA) : MergeState := mkMergeState dfa (m_nodeMapping st) (m_unprocessedNodes st).
Definition mapped (keys : list Z) (st : MergeState) : Prop := forall X, X ∈ m_unprocessedNodes st -> is_Some (m_nodeMapping st !! X).

Abbreviation merge_inv := (state_inv pair_ok pair_action pair_step m_output m_nodeMapping merge_ids mapped).

Lemma with_output_spec st dfa : m_output (with_output st dfa) = dfa /\ m_nodeMapping (with_output st dfa) = m_nodeMapping st
  /\ merge_ids (with_output st dfa) = merge_ids st /\ forall keys, mapped keys st -> mapped keys (with_output st dfa).
Proof. by split_and!. Qed.

Lemma pair_actions_spec X : pair_ok X -> exists S T, addActions dfaA (extractIndexA X) ∅ = Some S /\ addActions dfaB (extractIndexB X) S = Some T
  /\ (forall a, a ∈ iteration T <-> pair_action X a) /\ 0 <= vec_size (iteration T) <= 65535.
Proof using HwfA HwfB HactsA HactsB HU.
  intros HX. destruct (pair_halves X HX) as (HA & HB & _). destruct (addActions_spec dfaA HwfA (extractIndexA X) ∅ HA) as (S & HS & HinS).
  destruct (addActions_spec dfaB HwfB (extractIndexB X) S HB) as (T & HT & HinT). exists S, T.
  assert (forall a, a ∈ T <-> pair_action X a) as Hin by (intros a; rewrite HinT, HinS; unfold pair_action; set_solver).
  split; [done|]. split; [done|]. split; [intros a; rewrite elem_of_iteration; apply Hin|]. split; [apply vec_size_nonneg|].
  assert (T ⊆ U) as Hsub.
  { intros a [Ha|Ha]%Hin.
    - destruct HA as [Hi|Hi]; [destruct Ha as (? & ? & Hn & _); by rewrite Hi, (invalid_node dfaA HwfA) in Hn|by eapply HactsA].
    - destruct HB as [Hi|Hi]; [destruct Ha as (? & ? & Hn & _); by rewrite Hi, (invalid_node dfaB HwfB) in Hn|by eapply HactsB]. }
  apply subseteq_size in Hsub. unfold vec_size. rewrite iteration_perm. change (length (elements T)) with (size T). lia.
Qed.

Lemma getOrCreateCombined_spec extra p keys st Y : merge_inv extra p keys st -> pair_ok Y ->
  exists i st' more, getOrCreateCombinedNode dfaA dfaB Y st = Some (i, st') /\ merge_inv extra p (keys ++ more) st'
    /\ vec_at (keys ++ more) i = Some Y
    /\ transitionRanges (m_output st') = transitionRanges (m_output st)
    /\ transitionDestinations (m_output st') = transitionDestinations (m_output st) /\ nodes_kept m_output st st'.
Proof using HwfA HwfB HactsA HactsB HU.
  intros [HI Hmap] HY. unfold getOrCreateCombinedNode. destruct (m_nodeMapping st !! Y) as [i|] eqn:Et.
  { exists i, st, []. rewrite app_nil_r. split_and!; try done; [by apply (wi_table _ _ _ _ _ _ _ _ _ HI)|]. intros j n Hn. by left. }
  destruct (pair_actions_spec Y HY) as (S & T & HS & HT & Hin & Hsz). rewrite HS. cbn [mbind option_bind]. rewrite HT. cbn [mbind option_bind].
  pose proof (wi_size _ _ _ _ _ _ _ _ _ HI) as Hsize. eexists _, _, [Y]. split; [done|].
  replace (u16 (vec_size (dfa_actions (m_output st) ++ iteration T) - vec_size (dfa_actions (m_output st)))) with (vec_size (iteration T)).
  2:{ rewrite vec_size_app, uwrap_small; lia. }
  cbn [m_output transitionRanges transitionDestinations]. split_and!; try done.
  - split.
    + unfold merge_ids. cbn [m_output m_nodeMapping m_unprocessedNodes]. rewrite fmap_cons, lookup_insert_eq.
      replace ((λ X, default 0 (<[Y:=vec_size (dfa_nodes (m_output st))]> (m_nodeMapping st) !! X)) <$> m_unprocessedNodes st) with (merge_ids st).
      { apply (work_new _ _ _ extra p keys (m_output st) (m_nodeMapping st) (merge_ids st) Y (iteration T)); [done..|lia|done]. }
      apply list_fmap_ext. intros _ X HX%list_elem_of_lookup_2. rewrite lookup_insert_ne; [done|]. intros ->. destruct (Hmap X HX). congruence.
    + intros X [->|HX]%elem_of_cons; cbn [m_nodeMapping]; [by rewrite lookup_insert_eq|]. destruct (decide (X = Y)) as [->|]; [by rewrite lookup_insert_eq|].
      rewrite lookup_insert_ne by done. by apply Hmap.
  - rewrite Hsize. apply vec_at_snoc.
  - intros j n. cbn [m_output dfa_nodes]. rewrite vec_at_snoc_case. case_match; [|by left]. intros. simplify_eq. by right.
Qed.

(** The ranges that [merge] combines are the transitions of the pair. *)
Lemma combined_pair X : pair_ok X -> exists v1 v2 rs, extendWithTransitions A dfaA (extractIndexA X) [] = Some v1
  /\ extendWithTransitions B dfaB (extractIndexB X) v1 = Some v2 /\ ranges_in_order v2 = Some rs /\ sorted_from 0 (entries rs)
  /\ forall c, 0 <= c <= 127 -> range_lookup (entries rs) c = pair_next X c.
Proof using HwfA HwfB.
  intros HX. destruct (pair_halves X HX) as (HA & HB & _).
  destruct (extendWithTransitions_spec dfaA HwfA A (extractIndexA X) [] [] [] HA (represents_nil)) as (v1 & idx1 & l1 & Hv1 & HR1 & Hs1 & Hl1); [done|].
  destruct (extendWithTransitions_spec dfaB HwfB B (extractIndexB X) v1 idx1 l1 HB HR1 Hs1) as (v2 & idx2 & l2 & Hv2 & HR2 & Hs2 & Hl2).
  destruct (ranges_in_order_spec v2 idx2 l2 HR2) as (rs & Hrs & Hl). exists v1, v2, rs. rewrite Hl. split_and!; try done.
  intros c Hc. rewrite (Hl2 c Hc), (Hl1 c Hc). cbn [range_lookup]. unfold pair_next.
  pose proof (half_next_live dfaA HwfA (extractIndexA X) c) as HnA. pose proof (half_next_live dfaB HwfB (extractIndexB X) c) as HnB. pose proof invalid_index.
  destruct (dfa_next dfaA (extractIndexA X) c) as [x|], (dfa_next dfaB (extractIndexB X) c) as [y|]; cbn [merged default]; try done; f_equal;
    unfold target_convert, target_extend; rewrite ?invalid_signature;
    try (pose proof (proj1 (live_index dfaA HwfA x (HnA x HA eq_refl)))); try (pose proof (proj1 (live_index dfaB HwfB y (HnB y HB eq_refl))));
    rewrite ?setHalfSignature_A, ?setHalfSignature_B by done; done.
Qed.

Lemma mergeNode_spec p keys st X q : merge_inv [] p keys st -> m_unprocessedNodes st = X :: q ->
  exists st' more, mergeNode dfaA dfaB X (mkMergeState (m_output st) (m_nodeMapping st) q) = Some st' /\ merge_inv [] (S p) (keys ++ more) st'.
Proof using HwfA HwfB HactsA HactsB HU.
  intros [HI Hmap] Hq. destruct (Hmap X) as [id Hid]; [rewrite Hq; left|]. apply (wi_table _ _ _ _ _ _ _ _ _ HI) in Hid as HX.
  set (st0 := mkMergeState (m_output st) (m_nodeMapping st) q).
  assert (merge_inv [id] p keys st0) as HI0.
  { split; [|intros Y HY; apply Hmap; rewrite Hq; by right]. unfold merge_ids in HI. rewrite Hq, fmap_cons, Hid in HI. by apply work_take. }
  assert (pair_ok X) as Hok.
  { pose proof (wi_keys _ _ _ _ _ _ _ _ _ HI) as Hk. rewrite Forall_forall in Hk. apply Hk. apply vec_at_Some in HX as [_ HX]. by eapply list_elem_of_lookup_2. }
  destruct (combined_pair X Hok) as (v1 & v2 & rs & Hv1 & Hv2 & Hrs & Hs & Hl).
  assert (Forall (λ r, pair_ok (mr_data r)) rs) as Hoks.
  { apply Forall_forall. intros r Hr. assert (mkOtherRange (mr_first r) (mr_last r) (mr_data r) ∈ entries rs) as Hr' by (apply list_elem_of_fmap; by exists r).
    pose proof (range_lookup_own _ _ _ Hs Hr') as Hown. pose proof (sorted_from_Forall _ _ Hs) as Hf. rewrite Forall_forall in Hf. specialize (Hf _ Hr').
    cbn [o_first o_last o_data] in Hown, Hf. rewrite Hl in Hown by lia. by eapply pair_next_ok. }
  destruct (process_ranges_spec pair_ok pair_action pair_step m_output m_nodeMapping merge_ids with_output mapped
    (getOrCreateCombinedNode dfaA dfaB) with_output_spec getOrCreateCombined_spec p keys st0 id X rs HI0 HX Hs Hoks) as (st1 & st' & more & H1 & [HI1 _] & H2 & H3).
  { intros c Hc. by apply Hl. }
  exists st', more. split; [|done]. unfold mergeNode. rewrite Hv1. cbn [mbind option_bind]. rewrite Hv2. cbn [mbind option_bind]. rewrite Hrs. cbn [mbind option_bind].
  unfold append_ranges, with_output in H1. unfold addCombinedTransitions. rewrite H1. cbn [mbind option_bind].
  assert (m_nodeMapping st1 !! X = Some id) as ->; [|exact H2].
  apply (wi_table _ _ _ _ _ _ _ _ _ HI1). rewrite vec_at_app_l; [done|]. apply vec_at_bound in HX. lia.
Qed.

(** *** Termination *)

Lemma keys_bound extra p keys st : merge_inv extra p keys st -> (length keys <= mergeFuel dfaA dfaB)%nat.
Proof using HwfA HwfB.
  clear HactsA HactsB HU. intros [HI _]. set (halves := λ d, invalidNodeIndex :: filter (λ i, is_live d i = true) (seqZ 0 (vec_size (dfa_nodes d)))).
  assert (forall d i, half_ok d i -> i ∈ halves d) as Hhalf.
  { intros d i [->|Hi]; [left|]. right. apply list_elem_of_filter. split; [done|]. apply is_live_bound in Hi. apply elem_of_seqZ. lia. }
  assert (length keys <= length (halves dfaA ≫= λ i, signatureForIndices i <$> halves dfaB))%nat as Hle.
  { apply submseteq_length, NoDup_submseteq; [by eapply work_keys_distinct|]. intros X HX.
    pose proof (wi_keys _ _ _ _ _ _ _ _ _ HI) as Hk. rewrite Forall_forall in Hk. destruct (Hk X HX) as (i & j & -> & Hi & Hj & _).
    apply list_elem_of_bind. exists i. split; [|auto]. apply list_elem_of_fmap. exists j. auto. }
  assert (length (halves dfaA ≫= λ i, signatureForIndices i <$> halves dfaB) = length (halves dfaA) * length (halves dfaB))%nat as Hlen.
  { generalize (halves dfaA) as l. induction l as [|i l IH]; [done|]. rewrite bind_cons, length_app, length_fmap, IH. simpl. lia. }
  assert (forall d, wf_dfa d = true -> Z.of_nat (length (halves d)) = graphSize d + 1) as Hsize.
  { intros d Hwf. unfold halves. cbn [length]. rewrite (graphSize_live d) by (pose proof (wf_dfa_size d Hwf); unfold invalidNodeIndex in *; lia). lia. }
  unfold mergeFuel. pose proof (Hsize dfaA HwfA) as HsA. pose proof (Hsize dfaB HwfB) as HsB. rewrite <- HsA, <- HsB. lia.
Qed.

Definition merge_finished : list Z -> DFA -> Prop := work_finished pair_ok pair_action pair_step.

Lemma mergeLoop_spec fuel p keys st : merge_inv [] p keys st -> (mergeFuel dfaA dfaB <= fuel + p)%nat ->
  exists st' more, mergeLoop fuel dfaA dfaB st = Some st' /\ merge_finished (keys ++ more) (m_output st')
    /\ (length (keys ++ more) <= mergeFuel dfaA dfaB)%nat.
Proof using HwfA HwfB HactsA HactsB HU.
  revert p keys st. induction fuel as [|fuel IH]; intros p keys st HI Hf;
    pose proof (keys_bound _ _ _ _ HI) as Hb; pose proof (wi_count _ _ _ _ _ _ _ _ _ (proj1 HI)) as Hc;
    unfold merge_ids in Hc; rewrite length_fmap in Hc; simpl in Hc; cbn [mergeLoop];
    destruct (m_unprocessedNodes st) as [|X q] eqn:Eq.
  2:{ simpl in Hc. lia. }
  3:{ destruct (mergeNode_spec p keys st X q HI Eq) as (st' & more & -> & HI'). cbn [mbind option_bind].
      destruct (IH (S p) _ _ HI') as (st2 & more' & Hd & Hfin & Hlen); [lia|]. exists st2, (more ++ more'). by rewrite app_assoc. }
  all: exists st, []; split; [done|]; rewrite app_nil_r; destruct HI as [HI _]; unfold merge_ids in HI; rewrite Eq in HI;
    split; [by eapply work_inv_finished|done].
Qed.

Lemma root_pair : pair_ok (signatureForIndices (dfa_root dfaA) (dfa_root dfaB)).
Proof using HwfA HwfB.
  assert (forall d, wf_dfa d = true -> is_live d (dfa_root d) = true) as Hr by (intros d Hd; unfold wf_dfa in Hd; rewrite !andb_true_iff in Hd; tauto).
  eexists _, _. split; [reflexivity|]. unfold half_ok. rewrite !Hr by done. auto.
Qed.

Lemma merge_spec fuel : (mergeFuel dfaA dfaB <= fuel)%nat ->
  exists st keys, merge fuel dfaA dfaB newMerger = Some st /\ merge_finished keys (m_output st)
    /\ vec_at keys 0 = Some (signatureForIndices (dfa_root dfaA) (dfa_root dfaB)) /\ (length keys <= mergeFuel dfaA dfaB)%nat.
Proof using HwfA HwfB HactsA HactsB HU.
  intros Hf. unfold merge. rewrite bool_decide_true by done. cbn [negb]. pose proof root_pair as Hroot. set (X := signatureForIndices _ _) in *.
  destruct (pair_actions_spec X Hroot) as (S & T & HS & HT & Hin & Hsz). unfold getOrCreateCombinedNode. cbn [newMerger m_nodeMapping m_output].
  rewrite lookup_empty, HS. cbn [mbind option_bind]. rewrite HT. cbn [mbind option_bind dfa_actions dfa_nodes].
  replace (u16 (vec_size ([] ++ iteration T) - vec_size [])) with (vec_size (iteration T)).
  2:{ rewrite app_nil_l. change (@vec_size Z []) with 0. rewrite Z.sub_0_r, uwrap_small; lia. }
  match goal with |- context [mergeLoop _ _ _ ?s] => assert (merge_inv [] 0 [X] s) as HI end.
  { split; [|intros Y ->%list_elem_of_singleton; cbn [m_nodeMapping]; by rewrite lookup_insert_eq]. unfold merge_ids. cbn [m_unprocessedNodes m_nodeMapping fmap list_fmap].
    rewrite lookup_insert_eq. apply (work_initial _ _ _ X (iteration T)); [done|lia|done]. }
  destruct (mergeLoop_spec fuel 0 _ _ HI) as (st & more & Hd & Hfin & Hlen); [lia|]. exists st, ([X] ++ more). by split_and!.
Qed.

(** *** What the product accepts *)

Definition reaches (dfa : DFA) (u : Z) (w : list Z) (a : Z) : Prop := exists acts, observe dfa u w = Some acts /\ a ∈ acts.

Lemma reaches_nil dfa u a : reaches dfa u [] a <-> node_has dfa u a.
Proof.
  unfold reaches, node_has, observe. cbn [dfa_run mbind option_bind]. split.
  - intros (acts & Ho & ?). destruct (vec_at (dfa_nodes dfa) u) as [node|]; [|done]. by exists node, acts.
  - intros (node & acts & Hn & ? & ?). exists acts. by rewrite Hn.
Qed.

Lemma reaches_cons dfa u c w a : reaches dfa u (c :: w) a <-> exists v, dfa_next dfa u c = Some v /\ reaches dfa v w a.
Proof.
  unfold reaches. rewrite observe_cons. split.
  - intros (acts & Ho & ?). destruct (dfa_next dfa u c) as [v|]; [|done]. exists v. split; [done|]. by exists acts.
  - intros (v & -> & Hv). done.
Qed.

Lemma reaches_none dfa u w a : vec_at (dfa_nodes dfa) u = None -> ~ reaches dfa u w a.
Proof.
  intros Hu. destruct w as [|c w].
  - rewrite reaches_nil. intros (node & acts & Hn & _). congruence.
  - rewrite reaches_cons. intros (v & Hv & _). unfold dfa_next in Hv. by rewrite Hu in Hv.
Qed.

Lemma merged_triggers keys c : merge_finished keys c -> forall w i X a, vec_at keys i = Some X ->
  reaches c i w a <-> reaches dfaA (extractIndexA X) w a \/ reaches dfaB (extractIndexB X) w a.
Proof using HwfA HwfB.
  clear HactsA HactsB HU. intros (Hkeys & _ & _ & _ & Hnodes) w. induction w as [|x w IH]; intros i X a HX.
  - rewrite !reaches_nil. destruct (Hnodes i X HX) as (node & acts & ts & Hn & _ & Ha & _ & Hin & _). rewrite <- (Hin a). split.
    + intros (n & as' & ? & ? & ?). by simplify_eq.
    + intros ?. by exists node, acts.
  - destruct (Hnodes i X HX) as (node & acts & ts & Hn & _ & _ & Hts & _ & Hok & _ & Hstep). rewrite !reaches_cons.
    assert (pair_ok X) as HpX.
    { rewrite Forall_forall in Hkeys. apply Hkeys. apply vec_at_Some in HX as [_ HX]. by eapply list_elem_of_lookup_2. }
    destruct (pair_halves X HpX) as (HA & HB & _).
    assert (dfa_next c i x = find_transition ts x) as -> by (unfold dfa_next; rewrite Hn; cbn [mbind option_bind]; by rewrite Hts).
    destruct (decide (0 <= x <= 127)) as [Hx|Hx].
    2:{ rewrite (half_next_ascii dfaA HwfA _ x HA Hx), (half_next_ascii dfaB HwfB _ x HB Hx).
        assert (find_transition ts x = None) as ->; [|naive_solver].
        destruct (decide (x < 0)); [by apply (find_transition_below 0)|apply (find_transition_above 0); [done|lia]]. }
    specialize (Hstep x Hx). unfold pair_step in Hstep.
    pose proof (half_next_live dfaA HwfA (extractIndexA X) x) as HnA. pose proof (half_next_live dfaB HwfB (extractIndexB X) x) as HnB.
    pose proof invalid_index as Hinv. pose proof (λ w a, reaches_none dfaA invalidNodeIndex w a (invalid_node dfaA HwfA)) as HtA.
    pose proof (λ w a, reaches_none dfaB invalidNodeIndex w a (invalid_node dfaB HwfB)) as HtB.
    destruct (find_transition ts x) as [j|].
    + destruct Hstep as (Y & HY & Hstep). unfold pair_next in Hstep.
      destruct (dfa_next dfaA (extractIndexA X) x) as [y|], (dfa_next dfaB (extractIndexB X) x) as [z|]; try done; injection Hstep as ->;
        try (pose proof (proj1 (live_index dfaA HwfA y (HnA y HA eq_refl)))); try (pose proof (proj1 (live_index dfaB HwfB z (HnB z HB eq_refl))));
        pose proof (IH j _ a HY) as IHj; cbn [default] in IHj; rewrite extractIndexA_signature, extractIndexB_signature in IHj by done; naive_solver.
    + unfold pair_next in Hstep. destruct (dfa_next dfaA (extractIndexA X) x), (dfa_next dfaB (extractIndexB X) x); naive_solver.
Qed.

(** The result of [merge] on two automata. *)
Record merges (c : DFA) : Prop := {
  mg_fresh : fresh_dfa c;
  mg_actions : actions_in U c;
  mg_size : vec_size (dfa_nodes c) <= (graphSize dfaA + 1) * (graphSize dfaB + 1);
  mg_accepts : forall w a, dfa_accepts c w a <-> dfa_accepts dfaA w a \/ dfa_accepts dfaB w a
}.

Lemma pair_action_live X a : pair_ok X -> pair_action X a -> a ∈ U /\ action_ok a = true.
Proof using HwfA HwfB HactsA HactsB.
  assert (forall d i, wf_dfa d = true -> actions_in U d -> half_ok d i -> node_has d i a -> a ∈ U /\ action_ok a = true) as Hhalf.
  { intros d i Hwf Hacts [->|Hi] Hn; [destruct Hn as (? & ? & Hn & _); by rewrite invalid_node in Hn|]. split; [by eapply Hacts|].
    destruct (live_node d Hwf i Hi) as (node & acts & _ & Hnode & _ & Ha & _ & Hok & _), Hn as (n & as' & ? & ? & Hin). simplify_eq.
    rewrite forallb_forall in Hok. by apply Hok, list_elem_of_In. }
  intros HX. destruct (pair_halves X HX) as (HA & HB & _). intros [Ha|Ha]; [by apply (Hhalf dfaA (extractIndexA X))|by apply (Hhalf dfaB (extractIndexB X))].
Qed.

Lemma merge_sound fuel : (mergeFuel dfaA dfaB <= fuel)%nat -> (graphSize dfaA + 1) * (graphSize dfaB + 1) < UINT32_MAX ->
  exists st, merge fuel dfaA dfaB newMerger = Some st /\ merges (m_output st).
Proof using HwfA HwfB HactsA HactsB HU.
  intros Hf Hsmall. destruct (merge_spec fuel Hf) as (st & keys & Hst & Hfin & Hroot & Hlen). exists st. split; [done|].
  pose proof Hfin as (Hkeys & Hr0 & Hsz & Hapart & Hnodes). set (c := m_output st) in *.
  assert (vec_size (dfa_nodes c) <= (graphSize dfaA + 1) * (graphSize dfaB + 1)) as Hsize.
  { rewrite Hsz. unfold mergeFuel in Hlen. apply vec_at_bound in Hroot. unfold vec_size in *. lia. }
  assert (forall X, X ∈ keys -> pair_ok X) as Hok by (by apply Forall_forall).
  assert (forall i node, vec_at (dfa_nodes c) i = Some node -> exists X acts, X ∈ keys /\ isKilled node = false
    /\ node_actions c node = Some acts /\ forall a, a ∈ acts <-> pair_action X a) as Hnode.
  { intros i node Hn. destruct (vec_at_is_Some keys i) as [X HX]; [rewrite <- Hsz; by eapply vec_at_bound|].
    destruct (Hnodes i X HX) as (n & acts & _ & Hn' & Hk & Ha & _ & Hin & _). rewrite Hn in Hn'. injection Hn' as <-. exists X, acts. split_and!; try done.
    apply vec_at_Some in HX as [_ HX]. by eapply list_elem_of_lookup_2. }
  split.
  - split; [|intros i node Hn; by destruct (Hnode i node Hn) as (? & ? & _ & ? & _)|done].
    eapply work_finished_wf; [exact Hfin|apply vec_at_bound in Hroot; lia|lia|]. intros X a HX Ha. by eapply pair_action_live.
  - intros i a Hi (node & acts & Hn & Ha & Hin). destruct (Hnode i node Hn) as (X & acts' & HX & _ & Ha' & Hin'). rewrite Ha in Ha'. injection Ha' as <-.
    apply (pair_action_live X); [by apply Hok|]. by apply Hin'.
  - done.
  - intros w a. rewrite !accepts_observe, Hr0. change (reaches c 0 w a <-> reaches dfaA (dfa_root dfaA) w a \/ reaches dfaB (dfa_root dfaB) w a).
    rewrite (merged_triggers keys c Hfin w 0 _ a Hroot). pose proof (half_index dfaA HwfA (dfa_root dfaA)) as HrA. pose proof (half_index dfaB HwfB (dfa_root dfaB)) as HrB.
    assert (forall d, wf_dfa d = true -> half_ok d (dfa_root d)) as Hr by (intros d Hd; right; unfold wf_dfa in Hd; rewrite !andb_true_iff in Hd; tauto).
    by rewrite extractIndexA_signature, extractIndexB_signature by auto.
Qed.
End Merge.

(** ** [combineDFAs] *)

Lemma takeLast_snoc (l : list DFA) x : takeLast (l ++ [x]) = Some (x, l).
Proof. unfold takeLast. rewrite last_snoc. cbn [mbind option_bind]. rewrite length_app, Nat.add_1_r. cbn [pred length]. by rewrite take_app_length. Qed.

Lemma handOutLarge_spec minimumSize dfas : handOutLarge minimumSize dfas
  = Some (reverse (filter (λ d, minimumSize < graphSize d) dfas), filter (λ d, graphSize d <= minimumSize) dfas).
Proof.
  unfold handOutLarge. set (step := λ (acc : option (list DFA * list DFA)) (i : Z), '(handed, dfas) ← acc; _).
  enough (forall pre post handed, foldl step (Some (handed, pre ++ post)) (reverse (seqZ 0 (vec_size pre)))
    = Some (handed ++ reverse (filter (λ d, minimumSize < graphSize d) pre), filter (λ d, graphSize d <= minimumSize) pre ++ post)) as Hgen.
  { specialize (Hgen dfas [] []). by rewrite !app_nil_r in Hgen. }
  induction pre as [|x pre IH] using rev_ind; intros post handed; [cbn; by rewrite app_nil_r|].
  rewrite vec_size_app. change (vec_size [x]) with 1. pose proof (vec_size_nonneg pre). rewrite seqZ_app by lia.
  rewrite reverse_app, (seqZ_cons _ 1) by lia. change (seqZ (Z.succ (0 + vec_size pre)) (Z.pred 1)) with (@nil Z). rewrite reverse_singleton. cbn [app foldl].
  assert (vec_at ((pre ++ [x]) ++ post) (0 + vec_size pre) = Some x) as Hx.
  { apply vec_at_Some. split; [lia|]. rewrite <- app_assoc, lookup_app_r by (unfold vec_size; lia).
    by replace (Z.to_nat (0 + vec_size pre) - length pre)%nat with 0%nat by (unfold vec_size; lia). }
  unfold step at 2. cbn [mbind option_bind]. rewrite Hx. cbn [mbind option_bind]. rewrite !filter_app, !filter_cons, !filter_nil, <- app_assoc.
  destruct (minimumSize <? graphSize x) eqn:E; zbool.
  - rewrite decide_True, decide_False by lia. replace (Z.to_nat (0 + vec_size pre)) with (length pre) by (unfold vec_size; lia).
    change ([x] ++ post) with (x :: post). rewrite delete_middle, IH, reverse_app, <- app_assoc. by rewrite app_nil_r.
  - rewrite decide_False, decide_True by lia. by rewrite IH, app_nil_r, <- app_assoc.
Qed.

Definition union_accepts (dfas : list DFA) (w : list Z) (a : Z) : Prop := exists d, d ∈ dfas /\ dfa_accepts d w a.

Lemma union_accepts_app l k w a : union_accepts (l ++ k) w a <-> union_accepts l w a \/ union_accepts k w a.
Proof. unfold union_accepts. setoid_rewrite elem_of_app. naive_solver. Qed.

Lemma union_accepts_singleton d w a : union_accepts [d] w a <-> dfa_accepts d w a.
Proof. unfold union_accepts. setoid_rewrite list_elem_of_singleton. naive_solver. Qed.

Lemma graphSize_nonneg d : wf_dfa d = true -> 0 <= graphSize d.
Proof. intros Hd. pose proof (wf_dfa_size d Hd). rewrite graphSize_live by (unfold invalidNodeIndex in *; lia). lia. Qed.

Section Combine.
Context `{HashOrder, UninitializedMemory, SlotOrder} (U : gset Z) (minimumSize : Z).
Hypothesis HU : Z.of_nat (size U) <= 65535.
Hypothesis Hmin : 0 <= minimumSize /\ (minimumSize + 1) * (minimumSize + 1) < UINT32_MAX.

Definition combinable (d : DFA) : Prop := wf_dfa d = true /\ actions_in U d.

Lemma minimize_combinable c : fresh_dfa c -> actions_in U c ->
  exists d, minimize c = Some d /\ combinable d /\ forall w a, dfa_accepts d w a <-> dfa_accepts c w a.
Proof using Type.
  intros Hc Hacts. destruct (minimize_sound c Hc) as (d & Hd & Hm). exists d. split; [done|]. split; [split; [apply Hm|]|].
  - intros i a Hi (node & acts & Hn & Ha & Hin). unfold is_live in Hi. rewrite Hn in Hi. apply negb_true_iff in Hi.
    destruct (mz_node _ _ Hm i node Hn Hi) as [Hn' Ha']. apply (Hacts i a); [unfold is_live; by rewrite Hn', Hi|].
    exists node, acts. by rewrite <- Ha'.
  - intros w a. by rewrite !accepts_observe, (mz_observe _ _ Hm).
Qed.

(** One iteration. *)
Lemma combine_step (a b : DFA) (last : bool) : combinable a -> combinable b -> graphSize a <= minimumSize -> graphSize b <= minimumSize ->
  exists c d, mergeDFAs a b = Some c /\ (if (minimumSize <? graphSize c) || last then minimize c else Some c) = Some d
    /\ combinable d /\ forall w x, dfa_accepts d w x <-> dfa_accepts a w x \/ dfa_accepts b w x.
Proof using HU Hmin.
  intros [HwfA HactA] [HwfB HactB] HsA HsB. pose proof (graphSize_nonneg a HwfA). pose proof (graphSize_nonneg b HwfB).
  destruct (merge_sound a b U HwfA HwfB HactA HactB HU (mergeFuel a b)) as (st & Hst & Hm); [lia|nia|].
  exists (m_output st). unfold mergeDFAs. rewrite Hst. destruct (_ || last).
  - destruct (minimize_combinable (m_output st)) as (d & ? & ? & Hd); [apply Hm|apply Hm|]. exists d. split_and!; try done.
    intros w x. rewrite Hd. apply Hm.
  - exists (m_output st). split_and!; try done; try apply Hm. split; apply Hm.
Qed.

Lemma combineLoop_spec fuel dfas handed : (length dfas <= fuel)%nat -> Forall combinable dfas -> Forall (λ d, graphSize d <= minimumSize) dfas ->
  exists large rest, combineLoop fuel minimumSize dfas handed = Some (handed ++ large ++ rest)
    /\ Forall combinable (large ++ rest) /\ Forall (λ d, minimumSize < graphSize d) large /\ (length rest <= 1)%nat
    /\ forall w a, union_accepts (large ++ rest) w a <-> union_accepts dfas w a.
Proof using HU Hmin.
  revert dfas handed. induction fuel as [|fuel IH]; intros dfas handed Hf Hok Hsmall.
  { destruct dfas; [|simpl in Hf; lia]. exists [], []. rewrite !app_nil_r. split_and!; try done; simpl; lia. }
  destruct dfas as [|x dfas].
  { exists [], []. rewrite !app_nil_r. split_and!; try done; simpl; lia. }
  destruct dfas as [|y dfas].
  { exists [], [x]. split_and!; try done; simpl; lia. }
  destruct (exists_last (l := x :: y :: dfas)) as (l1 & a & Heq); [done|]. destruct l1 as [|z l1]; [done|].
  destruct (exists_last (l := z :: l1)) as (l & b & Heq2); [done|]. rewrite Heq2 in Heq. cbn [combineLoop]. rewrite Heq in Hok, Hsmall |- *.
  apply (f_equal length) in Heq. rewrite !length_app in Heq. simpl in Heq, Hf.
  rewrite !Forall_app, !Forall_singleton in Hok, Hsmall. destruct Hok as [[Hokl Hokb] Hoka], Hsmall as [[Hsl Hsb] Hsa].
  rewrite takeLast_snoc. cbn [mbind option_bind]. rewrite takeLast_snoc. cbn [mbind option_bind].
  destruct (combine_step a b (bool_decide (l = [])) Hoka Hokb Hsa Hsb) as (c & d & -> & Hd & Hokd & Hacc). cbn [mbind option_bind]. rewrite Hd. cbn [mbind option_bind].
  destruct (minimumSize <? graphSize d) eqn:Es; zbool.
  - destruct (IH l (handed ++ [d])) as (large & rest & -> & Hall & Hlarge & Hrest & Hun); [lia|done|done|]. exists (d :: large), rest.
    rewrite <- !app_assoc. split_and!; [done|by constructor|by constructor|done|].
    intros w x0. rewrite !union_accepts_app, !union_accepts_singleton. change (d :: large) with ([d] ++ large).
    rewrite union_accepts_app, union_accepts_singleton, Hacc. specialize (Hun w x0). rewrite union_accepts_app in Hun. tauto.
  - destruct (IH (l ++ [d]) handed) as (large & rest & -> & Hall & Hlarge & Hrest & Hun); [rewrite length_app; simpl; lia| | |].
    { apply Forall_app. split; [done|by apply Forall_singleton]. }
    { apply Forall_app. split; [done|by apply Forall_singleton]. }
    exists large, rest. split_and!; try done. intros w x0. rewrite (Hun w x0), !union_accepts_app, !union_accepts_singleton, Hacc. tauto.
Qed.

Lemma combineDFAs_sound dfas : Forall combinable dfas ->
  exists large rest, combineDFAs minimumSize dfas = Some (large ++ rest) /\ Forall combinable (large ++ rest)
    /\ Forall (λ d, minimumSize < graphSize d) large /\ (length rest <= 1)%nat
    /\ forall w a, union_accepts (large ++ rest) w a <-> union_accepts dfas w a.
Proof using HU Hmin.
  intros Hok. unfold combineDFAs. case_bool_decide as Hnil.
  { subst dfas. exists [], []. split_and!; try done; simpl; lia. }
  rewrite handOutLarge_spec. cbn [mbind option_bind]. set (big := filter (λ d, minimumSize < graphSize d) dfas). set (small := filter _ dfas).
  assert (forall d, d ∈ dfas <-> d ∈ big \/ d ∈ small) as Hsplit.
  { intros d. unfold big, small. rewrite !list_elem_of_filter. destruct (decide (minimumSize < graphSize d)); naive_solver lia. }
  rewrite Forall_forall in Hok.
  destruct (combineLoop_spec (length small) small (reverse big)) as (large & rest & -> & Hall & Hlarge & Hrest & Hun); [lia| | |].
  { apply Forall_forall. intros d Hd. apply Hok, Hsplit. by right. }
  { apply Forall_forall. intros d [Hd _]%list_elem_of_filter. exact Hd. }
  exists (reverse big ++ large), rest. rewrite <- app_assoc. split; [done|]. split; [|split; [|split; [done|]]].
  - apply Forall_app. split; [|done]. apply Forall_forall. intros d Hd. rewrite reverse_Permutation in Hd. apply Hok, Hsplit. by left.
  - apply Forall_app. split; [|done]. apply Forall_forall. intros d Hd. rewrite reverse_Permutation in Hd. by apply list_elem_of_filter in Hd as [Hd _].
  - intros w a. rewrite union_accepts_app, Hun. unfold union_accepts. setoid_rewrite reverse_Permutation. setoid_rewrite Hsplit. naive_solver.
Qed.

Lemma addDFAs_sound dfas : Forall fresh_dfa dfas -> Forall (actions_in U) dfas ->
  exists added, foldl (λ m_dfas dfa, m_dfas ← m_dfas; addDFA m_dfas dfa) (Some []) dfas = Some added /\ Forall combinable added
    /\ forall w a, union_accepts added w a <-> union_accepts dfas w a.
Proof using Type.
  clear HU Hmin. intros Hfresh Hacts. rewrite Forall_forall in Hfresh. rewrite Forall_forall in Hacts.
  destruct (foldl_option_inv addDFA (λ pre added, Forall combinable added /\ forall w a, union_accepts added w a <-> union_accepts pre w a) dfas [])
    as (added & ? & ? & ?); [done| |by exists added].
  intros pre dfa todo added Heq [Hok Hun]. assert (dfa ∈ dfas) as Hin by (rewrite Heq; set_solver).
  destruct (minimize_combinable dfa (Hfresh _ Hin) (Hacts _ Hin)) as (d & Hd & Hokd & Hacc). exists (added ++ [d]). unfold addDFA. rewrite Hd.
  split; [done|]. split; [apply Forall_app; split; [done|by apply Forall_singleton]|]. intros w a.
  by rewrite !union_accepts_app, !union_accepts_singleton, Hun, Hacc.
Qed.
End Combine.

(** ** Correctness *)

(** [DFAMerger::merge] on well-formed automata terminates and makes a
    well-formed automaton with at most one node for each pair of their nodes,
    which reaches exactly the actions that one of the two reaches. *)
Theorem merge_correct `{HashOrder} a b (U : gset Z) fuel : wf_dfa a = true -> wf_dfa b = true -> actions_in U a -> actions_in U b ->
  Z.of_nat (size U) <= 65535 -> (graphSize a + 1) * (graphSize b + 1) < UINT32_MAX -> (mergeFuel a b <= fuel)%nat ->
  exists st, merge fuel a b newMerger = Some st /\ wf_dfa (m_output st) = true
    /\ vec_size (dfa_nodes (m_output st)) <= (graphSize a + 1) * (graphSize b + 1)
    /\ forall w x, dfa_accepts (m_output st) w x <-> dfa_accepts a w x \/ dfa_accepts b w x.
Proof.
  intros HwfA HwfB HactA HactB HU Hsmall Hf. destruct (merge_sound a b U HwfA HwfB HactA HactB HU fuel Hf Hsmall) as (st & Hst & Hm).
  exists st. split; [done|]. split; [apply Hm|]. split; apply Hm.
Qed.

(** C13: [DFACombiner]: the automata that [combineDFAs] hands out after any
    sequence of calls of [addDFA] are well formed, all but at most one of them
    have more than [minimumSize] nodes, and together they trigger exactly the
    actions of the automata that were added.  These have at most 65535 distinct
    actions, and the square of [minimumSize] fits 32 bits. *)
Theorem combineDFAs_correct `{HashOrder, UninitializedMemory, SlotOrder} dfas (U : gset Z) minimumSize :
  Forall fresh_dfa dfas -> Forall (actions_in U) dfas -> Z.of_nat (size U) <= 65535 ->
  0 <= minimumSize /\ (minimumSize + 1) * (minimumSize + 1) < UINT32_MAX ->
  exists added large rest, foldl (λ m_dfas dfa, m_dfas ← m_dfas; addDFA m_dfas dfa) (Some []) dfas = Some added
    /\ combineDFAs minimumSize added = Some (large ++ rest) /\ Forall (λ d, wf_dfa d = true) (large ++ rest)
    /\ Forall (λ d, minimumSize < graphSize d) large /\ (length rest <= 1)%nat
    /\ forall w a, (exists d, d ∈ large ++ rest /\ dfa_accepts d w a) <-> (exists d, d ∈ dfas /\ dfa_accepts d w a).
Proof.
  intros Hfresh Hacts HU Hmin. destruct (addDFAs_sound U dfas Hfresh Hacts) as (added & Hadd & Hok & Hun).
  destruct (combineDFAs_sound U minimumSize HU Hmin added Hok) as (large & rest & Hc & Hall & Hlarge & Hrest & Hacc).
  exists added, large, rest. split_and!; try done.
  - eapply Forall_impl; [exact Hall|]. by intros d [? _].
  - intros w a. specialize (Hacc w a). specialize (Hun w a). unfold union_accepts in Hacc, Hun. by rewrite Hacc.
Qed.

(** *** Examples *)

Lemma three_nodes {X} (l : list X) i x y z n : l = [x; y; z] -> vec_at l i = Some n -> (i = 0 \/ i = 1 \/ i = 2) /\ (n = x \/ n = y \/ n = z).
Proof.
  intros ->. intros Hi. pose proof (vec_at_bound _ _ _ Hi) as Hb. change (vec_size [x; y; z]) with 3 in Hb.
  assert (i = 0 \/ i = 1 \/ i = 2) as Hc by lia. split; [done|]. destruct Hc as [-> | [-> | ->]]; injection Hi as <-; auto.
Qed.

Lemma chain_fresh d : d = ab_automaton \/ d = ac_automaton -> fresh_dfa d.
Proof.
  intros Hd. assert (dfa_nodes d = [mkDFANode 0 0 0 1 0; mkDFANode 0 1 0 1 0; mkDFANode 0 2 1 0 0]) as Hn by (by destruct Hd as [-> | ->]). split.
  - by destruct Hd as [-> | ->].
  - intros i node Hi. by destruct (three_nodes _ i _ _ _ node Hn Hi) as [_ [-> | [-> | ->]]].
  - intros i j n m Hne Hi Hj. rewrite Hn in Hi, Hj. destruct (three_nodes _ i _ _ _ n eq_refl Hi) as [Ci _], (three_nodes _ j _ _ _ m eq_refl Hj) as [Cj _].
    destruct Ci as [-> | [-> | ->]], Cj as [-> | [-> | ->]]; try done; injection Hi as <-; injection Hj as <-; unfold apart_nodes, apart; simpl; lia.
Qed.

Lemma chain_actions d : d = ab_automaton \/ d = ac_automaton -> actions_in {[1; 2]} d.
Proof.
  intros Hd i a _ (node & acts & Hi & Ha & Hin).
  assert (acts = [] \/ acts = [1] \/ acts = [2]) as [-> | [-> | ->]]; [|by apply elem_of_nil in Hin|set_solver..].
  destruct Hd as [-> | ->]; destruct (three_nodes _ i _ _ _ node eq_refl Hi) as [_ [-> | [-> | ->]]]; vm_compute in Ha; injection Ha as <-; auto.
Qed.

Lemma merge_correct_witness : exists st, merge (mergeFuel ab_automaton ac_automaton) ab_automaton ac_automaton newMerger = Some st /\ dfa_accepts (m_output st) [97; 99] 2.
Proof.
  destruct (merge_correct ab_automaton ac_automaton {[1; 2]} (mergeFuel ab_automaton ac_automaton)) as (st & Hst & _ & _ & Hacc).
  - reflexivity.
  - reflexivity.
  - apply chain_actions. by left.
  - apply chain_actions. by right.
  - vm_compute. discriminate.
  - vm_compute. reflexivity.
  - lia.
  - exists st. split; [exact Hst|]. apply Hacc. right. exists 2, (mkDFANode 0 2 1 0 0), [2]. split; [reflexivity|]. split; [reflexivity|]. split; [reflexivity|]. left.
Defined.

Lemma combineDFAs_correct_witness : exists added outs,
  foldl (λ m_dfas dfa, m_dfas ← m_dfas; addDFA m_dfas dfa) (Some []) [ab_automaton; ac_automaton] = Some added
  /\ combineDFAs 100 added = Some outs /\ exists d, d ∈ outs /\ dfa_accepts d [97; 98] 1.
Proof.
  destruct (combineDFAs_correct [ab_automaton; ac_automaton] {[1; 2]} 100) as (added & large & rest & Hadd & Hc & _ & _ & _ & Hacc).
  - constructor; [apply chain_fresh; by left|]. constructor; [apply chain_fresh; by right|constructor].
  - constructor; [apply chain_actions; by left|]. constructor; [apply chain_actions; by right|constructor].
  - vm_compute. discriminate.
  - split; [lia|vm_compute; reflexivity].
  - exists added, (large ++ rest). split; [exact Hadd|]. split; [exact Hc|]. apply Hacc. exists ab_automaton. split; [left|].
    exists 2, (mkDFANode 0 2 1 0 0), [1]. split; [reflexivity|]. split; [reflexivity|]. split; [reflexivity|]. left.
Defined.
