(* ===== verification/ProcessNFAs.v ===== *)
(** * From the prefix tree to automata

    Models [CombinedURLFilters::processNFAs] and the functions it calls.  Each
    round takes the path to the last leaf, makes an NFA for the path up to its
    last quantified term and for the part of the tree below that can be reached
    over terms of fixed length, and deletes what was generated.  Suffixes that
    end in the same actions are shared through the reverse suffix tree.

    A reference to a vertex on the stack is the vertex itself, taken out of its
    parent and put back when the stack shrinks.  The last element of a stack
    comes first.  [None] is a release assertion, an access outside a vector or
    the end of the fuel; [m_actions] has the entries of the vertices. *)

From stdpp Require Import base numbers option list list_numbers gmap sets sorting.
From Stdlib Require Import ZArith Lia.
From S2P Require Import Prelude.
From S2P Require Import NFA.
From S2P Require Import Term.
From S2P Require Import CombinedURLFilters.

Definition emptyNFA : NFA := mkNFA [] [] [] [] [].

(** ** Data *)

(** A vertex of which the edges are visited; the term of an edge that is to be
    deleted is null. *)
Record ActiveSubtree := mkActiveSubtree {
  as_actions : option (list Z);
  as_edges : list (option nat * PrefixTreeVertex);
  as_nfaNode : option NodeBuilder;
  as_edgeIndex : nat
}.

Definition activeSubtree (vertex : PrefixTreeVertex) (nfaNode : option NodeBuilder) : ActiveSubtree :=
  mkActiveSubtree (vertexActions vertex) ((λ e, (Some e.1, e.2)) <$> edges vertex) nfaNode 0.

Definition with_nfaNode (f : ActiveSubtree) (b : NodeBuilder) : ActiveSubtree :=
  mkActiveSubtree (as_actions f) (as_edges f) (Some b) (as_edgeIndex f).
Definition with_index (f : ActiveSubtree) (i : nat) : ActiveSubtree :=
  mkActiveSubtree (as_actions f) (as_edges f) (as_nfaNode f) i.

Inductive ReverseSuffixTreeVertex := mkReverseVertex (nodeId : Z) (rs_edges : list (nat * ReverseSuffixTreeVertex)).
Definition rs_nodeId (v : ReverseSuffixTreeVertex) : Z := match v with mkReverseVertex n _ => n end.
Definition rs_edges (v : ReverseSuffixTreeVertex) : list (nat * ReverseSuffixTreeVertex) := match v with mkReverseVertex _ es => es end.

(** [HashableActionList]: the sorted actions. *)
Definition hashableActionList (actions : list Z) : list Z := merge_sort Z.le actions.
Abbreviation ReverseSuffixTreeRoots := (gmap (list Z) ReverseSuffixTreeVertex).

Section Process.
Context `{HashOrder} (alphabet : CombinedFiltersAlphabet).

(** [vertex.edges[edgeIndex].term] *)
Definition currentPointer (f : ActiveSubtree) : option nat := e ← as_edges f !! as_edgeIndex f; e.1.
Definition currentTerm (f : ActiveSubtree) : option Term := p ← currentPointer f; alphabet !! p.

(** ** The parts that are not shared *)

(** Generate the nodes up to the first vertex of the list, from the last one
    that is generated. *)
Fixpoint generateUpTo (nfa : NFA) (stack : list ActiveSubtree) : option (NFA * list ActiveSubtree) :=
  match stack with
  | [] => None
  | f :: rest =>
      match as_nfaNode f with
      | Some _ => Some (nfa, stack)
      | None =>
          '(nfa, rest) ← generateUpTo nfa rest;
          match rest with
          | [] => None
          | source :: rest =>
              sourceNode ← as_nfaNode source;
              term ← currentTerm source;
              '(nfa, sourceNode, node) ← graphToNewEnd generateGraph term nfa sourceNode (default [] (as_actions f));
              Some (nfa, with_nfaNode f node :: with_nfaNode source sourceNode :: rest)
          end
      end
  end.

(** [generateInfixUnsuitableForReverseSuffixTree], on the stack without its last element. *)
Fixpoint generateInfixUnsuitableForReverseSuffixTree (nfa : NFA) (stack : list ActiveSubtree) : option (NFA * list ActiveSubtree) :=
  match stack with
  | [] => Some (nfa, stack)
  | f :: rest =>
      match as_nfaNode f with
      | Some _ => Some (nfa, stack)
      | None =>
          match rest with
          | [] => None
          | _ =>
              if bool_decide (is_Some (as_actions f)) || negb (length (as_edges f) =? 1)%nat then generateUpTo nfa stack
              else '(nfa, rest) ← generateInfixUnsuitableForReverseSuffixTree nfa rest; Some (nfa, f :: rest)
          end
      end
  end.

(** ** Shared suffixes *)

(** The terms of the vertices that are not generated, and the stack from the
    first vertex that is. *)
Fixpoint takeUngenerated (stack : list ActiveSubtree) : option (list nat * list ActiveSubtree) :=
  match stack with
  | [] => None
  | source :: rest =>
      match as_nfaNode source with
      | Some _ => Some ([], stack)
      | None =>
          pointer ← currentPointer source;
          '(pointers, stack) ← takeUngenerated rest;
          Some (pointer :: pointers, stack)
      end
  end.

(** The loop over these terms from the vertex [v] of the reverse suffix tree; it
    returns the vertex with what was added and the node at the end. *)
Fixpoint extendSuffix (pointers : list nat) (nfa : NFA) (v : ReverseSuffixTreeVertex) : option (NFA * ReverseSuffixTreeVertex * Z) :=
  match pointers with
  | [] => Some (nfa, v, rs_nodeId v)
  | pointer :: pointers =>
      match findIndex (λ e : nat * ReverseSuffixTreeVertex, (e.1 =? pointer)%nat) (rs_edges v) with
      | Some i =>
          existingEdge ← rs_edges v !! i;
          '(nfa, child, destination) ← extendSuffix pointers nfa existingEdge.2;
          Some (nfa, mkReverseVertex (rs_nodeId v) (<[ i := (existingEdge.1, child) ]> (rs_edges v)), destination)
      | None =>
          term ← alphabet !! pointer;
          let '(nfa, newNode) := newBuilder nfa in
          '(nfa, newNode) ← generateGraph term nfa newNode (rs_nodeId v);
          nfa ← finalize newNode nfa;
          '(nfa, child, destination) ← extendSuffix pointers nfa (mkReverseVertex (m_nodeId newNode) []);
          Some (nfa, mkReverseVertex (rs_nodeId v) (rs_edges v ++ [(pointer, child)]), destination)
      end
  end.

(** The root for the actions, made when there is none. *)
Definition reverseSuffixTreeRoot (nfa : NFA) (actionList : list Z) (roots : ReverseSuffixTreeRoots) : option (NFA * ReverseSuffixTreeVertex) :=
  match roots !! hashableActionList actionList with
  | Some root => Some (nfa, root)
  | None =>
      let '(nfa, newNode) := newBuilder nfa in
      nfa ← finalize (builder_setActions newNode actionList) nfa;
      Some (nfa, mkReverseVertex (m_nodeId newNode) [])
  end.

(** [generateSuffixWithReverseSuffixTree]; the leaf is not in [stack] any more. *)
Definition generateSuffixWithReverseSuffixTree (nfa : NFA) (leaf : ActiveSubtree) (stack : list ActiveSubtree) (roots : ReverseSuffixTreeRoots)
    : option (NFA * list ActiveSubtree * ReverseSuffixTreeRoots) :=
  let actionList := default [] (as_actions leaf) in
  '(nfa, root) ← reverseSuffixTreeRoot nfa actionList roots;
  '(pointers, stack) ← takeUngenerated stack;
  '(nfa, root, destinationNodeId) ← extendSuffix pointers nfa root;
  match stack with
  | [] => None
  | source :: rest =>
      sourceNode ← as_nfaNode source;
      term ← currentTerm source;
      '(nfa, sourceNode) ← generateGraph term nfa sourceNode destinationNodeId;
      Some (nfa, with_nfaNode source sourceNode :: rest, <[ hashableActionList actionList := root ]> roots)
  end.

(** ** One subtree *)

(** The vertex without the edges that are to be deleted. *)
Definition removeNullEdges (f : ActiveSubtree) : PrefixTreeVertex :=
  mkVertex (as_actions f) (omap (λ e, pointer ← e.1; Some (pointer, e.2)) (as_edges f)).

(** Back in the parent of [child]: mark its edge when it has become a leaf. *)
Definition leaveChild (f : ActiveSubtree) (child : PrefixTreeVertex) : option ActiveSubtree :=
  match as_edges f !! as_edgeIndex f with
  | Some edge =>
      let term := match edges child with [] => None | _ => edge.1 end in
      Some (mkActiveSubtree (as_actions f) (<[ as_edgeIndex f := (term, child) ]> (as_edges f)) (as_nfaNode f) (S (as_edgeIndex f)))
  | None => None
  end.

Record SubtreeState := mkSubtreeState {
  ss_nfa : NFA;
  ss_roots : ReverseSuffixTreeRoots;
  ss_stack : list ActiveSubtree;
  nfaTooBig : bool
}.

(** A builder that goes out of scope. *)
Definition destroyBuilder (b : option NodeBuilder) (nfa : NFA) : option NFA :=
  match b with Some b => finalize b nfa | None => Some nfa end.

(** One iteration of the loop of [generateNFAForSubtree], with the vertex on top
    of the stack: the next state, or the NFA and the root that is left. *)
Definition subtreeStep (maxNFASize : Z) (st : SubtreeState) (top : ActiveSubtree) (rest : list ActiveSubtree)
    : option (SubtreeState + NFA * PrefixTreeVertex) :=
  if (as_edgeIndex top <? length (as_edges top))%nat then
    edge ← as_edges top !! as_edgeIndex top;
    if nfaTooBig st then
      Some (inl (mkSubtreeState (ss_nfa st) (ss_roots st) (with_index top (length (as_edges top)) :: rest) true))
    else
      term ← currentTerm top;
      if negb (hasFixedLength term) then
        Some (inl (mkSubtreeState (ss_nfa st) (ss_roots st) (with_index top (S (as_edgeIndex top)) :: rest) (nfaTooBig st)))
      else
        Some (inl (mkSubtreeState (ss_nfa st) (ss_roots st) (activeSubtree edge.2 None :: top :: rest) (nfaTooBig st)))
  else
    match as_edges top with
    | [] =>
        '(nfa, rest) ← generateInfixUnsuitableForReverseSuffixTree (ss_nfa st) rest;
        '(nfa, rest, roots) ← generateSuffixWithReverseSuffixTree nfa top rest (ss_roots st);
        let tooBig := nfaTooBig st || (maxNFASize <? vec_size (nfa_nodes nfa)) in
        match rest with
        | [] => None
        | f :: rest =>
            edge ← as_edges f !! as_edgeIndex f;
            f ← leaveChild f (mkVertex (vertexActions edge.2) []);
            Some (inl (mkSubtreeState nfa roots (f :: rest) tooBig))
        end
    | _ =>
        let vertex := removeNullEdges top in
        nfa ← destroyBuilder (as_nfaNode top) (ss_nfa st);
        match rest with
        | [] => Some (inr (nfa, vertex))
        | f :: rest =>
            f ← leaveChild f vertex;
            Some (inl (mkSubtreeState nfa (ss_roots st) (f :: rest) (nfaTooBig st)))
        end
    end.

Fixpoint subtreeLoop (fuel : nat) (maxNFASize : Z) (st : SubtreeState) : option (NFA * PrefixTreeVertex) :=
  match fuel, ss_stack st with
  | S fuel, top :: rest =>
      next ← subtreeStep maxNFASize st top rest;
      match next with
      | inl st => subtreeLoop fuel maxNFASize st
      | inr result => Some result
      end
  | _, _ => None
  end.

(** The number of vertices and edges, which bounds the iterations. *)
Fixpoint vertexWeight (v : PrefixTreeVertex) : nat :=
  match v with mkVertex _ es => S (foldr (λ e n, S (vertexWeight e.2) + n) 0 es)%nat end.

(** [generateNFAForSubtree]; a root without edges only ends the life of its builder. *)
Definition generateNFAForSubtree (nfa : NFA) (subtreeRoot : NodeBuilder) (root : PrefixTreeVertex) (maxNFASize : Z)
    : option (NFA * PrefixTreeVertex) :=
  match edges root with
  | [] => nfa ← finalize subtreeRoot nfa; Some (nfa, root)
  | _ => subtreeLoop (vertexWeight root) maxNFASize (mkSubtreeState nfa ∅ [activeSubtree root (Some subtreeRoot)] false)
  end.

(** ** All subtrees *)

(** The edges of the path to the last leaf. *)
Fixpoint lastPath (v : PrefixTreeVertex) : list (nat * PrefixTreeVertex) :=
  match v with
  | mkVertex _ es =>
      (fix go (es : list (nat * PrefixTreeVertex)) : list (nat * PrefixTreeVertex) :=
         match es with
         | [] => []
         | e :: es => match es with [] => e :: lastPath e.2 | _ => go es end
         end) es
  end.

(** The part of the path up to the last term with a quantifier. *)
Fixpoint quantifiedPrefix (path : list (nat * PrefixTreeVertex)) : option (list (nat * PrefixTreeVertex)) :=
  match path with
  | [] => Some []
  | e :: path =>
      term ← alphabet !! e.1;
      prefix ← quantifiedPrefix path;
      Some (match prefix with
            | [] => if hasFixedLength term then [] else [e]
            | _ => e :: prefix
            end)
  end.

(** The terms of the prefix with the actions of the vertices they lead to. *)
Definition prefixTerms (prefix : list (nat * PrefixTreeVertex)) : option (list (Term * list Z)) :=
  mapM (λ e : nat * PrefixTreeVertex, term ← alphabet !! e.1; Some (term, default [] (vertexActions e.2))) prefix.

(** The loop over the edges; the assignment to [lastNode] finalizes it. *)
Fixpoint appendTerms (edges : list (Term * list Z)) (nfa : NFA) (lastNode : NodeBuilder) : option (NFA * NodeBuilder) :=
  match edges with
  | [] => Some (nfa, lastNode)
  | (term, actions) :: edges =>
      '(nfa, lastNode, newNode) ← graphToNewEnd generateGraph term nfa lastNode actions;
      nfa ← finalize lastNode nfa;
      appendTerms edges nfa newNode
  end.

(** The tree with the vertex at the end of the prefix replaced; vertices without
    edges are removed. *)
Fixpoint replaceLast (prefix : list (nat * PrefixTreeVertex)) (v : PrefixTreeVertex) (root : PrefixTreeVertex) : PrefixTreeVertex :=
  match prefix with
  | [] => v
  | (pointer, child) :: prefix =>
      let child := replaceLast prefix v child in
      let es := take (pred (length (edges root))) (edges root) in
      mkVertex (vertexActions root) (match edges child with [] => es | _ => es ++ [(pointer, child)] end)
  end.

(** One round: the NFA for the handler and the tree that is left. *)
Definition processRound (maxNFASize : Z) (root : PrefixTreeVertex) (path : list (nat * PrefixTreeVertex)) : option (NFA * PrefixTreeVertex) :=
  prefix ← quantifiedPrefix path;
  terms ← prefixTerms prefix;
  let '(nfa, lastNode) := newBuilder emptyNFA in
  '(nfa, lastNode) ← appendTerms terms nfa lastNode;
  let subtree := match last prefix with Some e => e.2 | None => root end in
  '(nfa, subtree) ← generateNFAForSubtree nfa lastNode subtree maxNFASize;
  Some (nfa, replaceLast prefix subtree root).

Fixpoint processLoop (fuel : nat) (maxNFASize : Z) (root : PrefixTreeVertex) : option (list NFA * PrefixTreeVertex) :=
  match lastPath root with
  | [] => Some ([], root)
  | path =>
    match fuel with
    | O => None
    | S fuel =>
      '(nfa, root) ← processRound maxNFASize root path;
      '(nfas, root) ← processLoop fuel maxNFASize root;
      Some (nfa :: nfas, root)
    end
  end.
End Process.

(** [processNFAs]: the automata given to the handler, and the filters without
    the patterns. *)
Definition processNFAs `{HashOrder} (f : CombinedURLFilters) (maxNFASize : Z) : option (list NFA * CombinedURLFilters) :=
  '(nfas, root) ← processLoop (m_alphabet f) (vertexWeight (m_prefixTreeRoot f)) maxNFASize (m_prefixTreeRoot f);
  Some (nfas, mkCombinedURLFilters (m_alphabet f) root).
