(* ===== verification/TermAutomaton.v ===== *)
(** * Automata made of fragments for terms

    While an NFA is built some of its nodes are finished and some belong to live
    builders.  [building] says that such an NFA is, between its key nodes, a graph
    whose edges are terms: a string leads from one key node to another exactly
    when it matches the terms of a path.  [newBuilder], [generateGraph],
    [setActions] and [finalize] each have a lemma on this graph. *)

From stdpp Require Import base numbers option list list_numbers gmap sets relations.
From Stdlib Require Import ZArith Lia.
From S2P Require Import Prelude.
From S2P Require Import Graph.
From S2P Require Import MutableRangeList.
From S2P Require Import NFA.
From S2P Require Import NFABuilder.
From S2P Require Import NFAToDFA.
From S2P Require Import ConvertProof.
From S2P Require Import Term.
From S2P Require Import TermProof.
From S2P Require Import TermGraph.
From S2P Require Import CombinedURLFilters.
From S2P Require Import ProcessNFAs.

(** ** One more fragment between old nodes *)

Section Segments.
Context (g g1 : graph) (N N' s d : Z) (L : language).
Hypothesis Hold : forall n l m, g n l m -> n < N /\ m < N.
Hypothesis Hs : s < N.
Hypothesis Hd : d < N.
Hypothesis Hf : frag g1 s d (λ n, N <= n < N') L.

(** A path in the old graph, interrupted by passages of the fragment. *)
Inductive segments : Z -> list Z -> Z -> Prop :=
  | segments_last n w m : gpath g n w m -> segments n w m
  | segments_pass n u v w m : gpath g n u s -> L v -> segments d w m -> segments n (u ++ v ++ w) m.

Lemma segments_step n l k w m : g n l k -> segments k w m -> segments n (labelled l w) m.
Proof.
  intros He Hp. destruct Hp as [k w m Hp|k u v w m Hu Hv Hw]; [by apply segments_last, (gpath_step g n l k)|].
  rewrite labelled_app. apply segments_pass; [by apply (gpath_step g n l k)|done|done].
Qed.

Lemma union_segments n w m : m < N -> gpath (graph_union g g1) n w m ->
  (n < N -> segments n w m) /\ (N <= n -> exists u v, w = u ++ v /\ gpath g1 n u d /\ segments d v m).
Proof.
  intros Hm Hp. induction Hp as [n|n l k w m He Hp IH]; [split; [intros _; apply segments_last; constructor|lia]|].
  destruct (IH Hm) as [IH1 IH2]. destruct He as [He|He].
  - destruct (Hold _ _ _ He). split; [intros _; by eapply segments_step; [|apply IH1]|lia].
  - assert (exists u v, labelled l w = u ++ v /\ gpath g1 n u d /\ segments d v m) as (u & v & Huv & Hu & Hv).
    { destruct (fr_target _ _ _ _ _ Hf _ _ _ He) as [->|Hk].
      - exists (labelled l []), w. rewrite <- labelled_app. split; [done|]. split; [by apply gpath_edge|by apply IH1].
      - destruct (IH2 ltac:(lia)) as (u & v & -> & Hu & Hv). exists (labelled l u), v. rewrite <- labelled_app. split_and!; [done|by eapply gpath_step|done]. }
    split; [|intros _; by exists u, v]. intros Hn. destruct (fr_source _ _ _ _ _ Hf _ _ _ He) as [->|]; [|lia].
    rewrite Huv. apply (segments_pass s [] u v m); [constructor|by apply (fr_lang _ _ _ _ _ Hf)|done].
Qed.

Lemma segments_union n w m : segments n w m -> gpath (graph_union g g1) n w m.
Proof.
  induction 1 as [n w m Hp|n u v w m Hu Hv _ IH]; [by apply gpath_union_l|].
  eapply gpath_trans; [by apply gpath_union_l|]. eapply gpath_trans; [|exact IH]. by apply gpath_union_r, (fr_lang _ _ _ _ _ Hf).
Qed.
End Segments.

Section Building.
Context `{HashOrder}.

(** ** Automata and graphs *)

(** The finished nodes of the NFA, all but [live], are those of the graph. *)
Definition nfa_graph (nfa : NFA) (live : Z -> Prop) (g : graph) (A : Z -> Z -> Prop) : Prop :=
  (forall n, 0 <= n < size nfa -> ~ live n -> node_has nfa n (λ c m, g n (Some c) m) (λ m, g n None m) (A n))
  /\ forall n l m, g n l m -> 0 <= n < size nfa /\ 0 <= m < size nfa.

Definition nothing : Z -> Prop := λ _, False.

Lemma path_gpath nfa g A n w m :
  nfa_graph nfa nothing g A -> 0 <= n < size nfa -> path nfa n w m <-> gpath g n w m.
Proof.
  intros [Hn Hb] Hin. split; intros Hp.
  - revert Hin. induction Hp as [|n m w k He _ IH|n c m w k He _ IH]; intros Hin; [constructor|..];
      destruct (node_has_edges _ _ _ _ _ (Hn n Hin (λ x, x))) as (Hc & Hp & _).
    + apply Hp in He. apply (gpath_step g n None m w k He). apply IH. by eapply Hb.
    + apply Hc in He. apply (gpath_step g n (Some c) m w k He). apply IH. by eapply Hb.
  - induction Hp as [|n l m w k He _ IH]; [constructor|]. destruct (Hb _ _ _ He) as [_ Hm].
    destruct (node_has_edges _ _ _ _ _ (Hn n Hin (λ x, x))) as (Hc & Hp & _).
    destruct l; [eapply path_char|eapply path_eps]; [by apply Hc|auto|by apply Hp|auto].
Qed.

Lemma gpath_range nfa live g A n w m : nfa_graph nfa live g A -> 0 <= n < size nfa -> gpath g n w m -> 0 <= m < size nfa.
Proof.
  intros [_ Hb] Hn Hp. induction Hp as [|n l m w k He _ IH]; [lia|]. apply IH. by apply (Hb _ _ _ He).
Qed.

Lemma graph_accepts nfa g A w a :
  nfa_graph nfa nothing g A -> 0 < size nfa ->
  nfa_accepts nfa w a <-> exists n, 0 <= n < size nfa /\ gpath g 0 w n /\ A n a.
Proof.
  intros Hg H0. assert (forall n, gpath g 0 w n -> 0 <= n < size nfa) as Hr.
  { intros n. apply (gpath_range nfa nothing g A); [done|lia]. }
  split.
  - intros (n & acts & Hp & Ha & Hin). apply (path_gpath nfa g A) in Hp; [|done|lia]. exists n.
    split; [by apply Hr|]. split; [done|].
    destruct (node_has_edges _ _ _ _ _ (proj1 Hg n (Hr n Hp) (λ x, x))) as (_ & _ & acts' & Ha' & Hin'). simplify_eq. by apply Hin'.
  - intros (n & Hn & Hp & Ha). destruct (node_has_edges _ _ _ _ _ (proj1 Hg n Hn (λ x, x))) as (_ & _ & acts & Hacts & Hin).
    exists n, acts. split_and!; [|done|by apply Hin]. apply (path_gpath nfa g A); [done|lia|done].
Qed.

Lemma graph_wf nfa g A :
  nfa_graph nfa nothing g A -> 0 < size nfa -> (forall n a, A n a -> 0 <= a < 2 ^ 49) -> wf_nfa nfa.
Proof.
  intros [Hg Hb] H0 HA. split; [done|]. intros n Hn.
  destruct (Hg n Hn (λ x, x)) as (ts & es & l & Hv & Hs & Hne & Hc & He & Ha). eexists. split; [exact Hv|].
  split_and!; [done| | |].
  - apply Forall_forall. intros r Hr. split; [|rewrite Forall_forall in Hne; by apply Hne].
    apply Forall_forall. intros t Ht. eapply Hb. apply (Hc (o_first r) t). exists (o_data r).
    split; [by eapply sorted_lookup_first|done].
  - apply Forall_forall. intros t Ht. eapply Hb. by apply He.
  - apply Forall_forall. intros a Hin. eapply HA. by apply Ha.
Qed.


(** ** Graphs of terms *)

Inductive tpath (E : list (Z * Term * Z)) : Z -> list Term -> Z -> Prop :=
  | tpath_nil n : tpath E n [] n
  | tpath_step n t m ts k : (n, t, m) ∈ E -> tpath E m ts k -> tpath E n (t :: ts) k.

Lemma tpath_mono E E' n ts m : E ⊆ E' -> tpath E n ts m -> tpath E' n ts m.
Proof. intros HE. induction 1; [constructor|]. econstructor; [by apply HE|done]. Qed.

Lemma tpath_trans E n ts m us k : tpath E n ts m -> tpath E m us k -> tpath E n (ts ++ us) k.
Proof. induction 1; [done|]. intros Hk. simpl. econstructor; [done|auto]. Qed.

Lemma tpath_edge E n t m : (n, t, m) ∈ E -> tpath E n [t] m.
Proof. intros He. econstructor; [exact He|constructor]. Qed.

(** The strings that lead from [n] to [m]. *)
Definition tstring (E : list (Z * Term * Z)) (n : Z) (w : list Z) (m : Z) : Prop := exists ts, tpath E n ts m /\ group_lang ts w.

Lemma tstring_trans E n u m v k : tstring E n u m -> tstring E m v k -> tstring E n (u ++ v) k.
Proof.
  intros (ts & Hts & Hu) (us & Hus & Hv). exists (ts ++ us). split; [by eapply tpath_trans|]. apply group_lang_app. by exists u, v.
Qed.

(** ** An automaton with live builders *)

(** [bs] has the live builders by their nodes, [K] the key nodes; the other nodes
    are inside of fragments. *)
Record building_with (g : graph) (nfa : NFA) (bs : gmap Z NodeBuilder) (E : list (Z * Term * Z)) (A : Z -> Z -> Prop) (K : gset Z) : Prop := {
  bd_graph : nfa_graph nfa (λ n, is_Some (bs !! n)) g A;
  bd_builder : forall n b, bs !! n = Some b -> builder_wf b /\ m_nodeId b = n /\ (forall c m, builder_edge b c m <-> g n (Some c) m)
    /\ (forall m, m ∈ m_epsilonTransitionTargets b <-> g n None m) /\ forall a, a ∈ m_actions b <-> A n a;
  bd_live : forall n b, bs !! n = Some b -> n ∈ K;
  bd_key : forall n, n ∈ K -> 0 <= n < size nfa;
  bd_edge : forall n t m, (n, t, m) ∈ E -> n ∈ K /\ m ∈ K;
  bd_action : forall n a, A n a -> n ∈ K;
  bd_paths : forall n w m, n ∈ K -> m ∈ K -> gpath g n w m <-> tstring E n w m
}.

Definition building (nfa : NFA) (bs : gmap Z NodeBuilder) (E : list (Z * Term * Z)) (A : Z -> Z -> Prop) (K : gset Z) : Prop :=
  exists g, building_with g nfa bs E A K.

Lemma building_empty : building emptyNFA ∅ [] (λ _ _, False) ∅.
Proof.
  exists (λ _ _ _, False). split; try (intros; set_solver).
  split; [|done]. intros n Hn. change (size emptyNFA) with 0 in Hn. lia.
Qed.

Lemma building_key nfa bs E A K n : building nfa bs E A K -> n ∈ K -> 0 <= n < size nfa.
Proof. intros (g & HB). apply HB. Qed.

Lemma building_live nfa bs E A K n b : building nfa bs E A K -> bs !! n = Some b -> n ∈ K /\ m_nodeId b = n.
Proof. intros (g & HB) Hb. split; [by apply (bd_live _ _ _ _ _ _ HB n b)|by apply (bd_builder _ _ _ _ _ _ HB n b)]. Qed.

(** A new node. *)
Lemma building_new nfa bs E A K : building nfa bs E A K ->
  exists nfa' b, newBuilder nfa = (nfa', b) /\ m_nodeId b = size nfa /\ size nfa' = size nfa + 1 /\ size nfa ∉ K
    /\ building nfa' (<[ size nfa := b ]> bs) E A ({[ size nfa ]} ∪ K).
Proof.
  intros (g & HB). destruct (newBuilder_spec nfa) as (nfa' & b & Hnew & Hsz & Hk & Hwf & Hid & Hedge & Heps & Hact). exists nfa', b.
  destruct HB as [[Hg Hb] H2 H3 H4 H5 H6 H7]. pose proof (size_nonneg nfa) as Hnn. set (N := size nfa) in *.
  assert (N ∉ K) as HNK by (intros Hin; apply H4 in Hin; lia). assert (bs !! N = None) as HN.
  { destruct (bs !! N) as [x|] eqn:Ex; [|done]. apply H3 in Ex. done. }
  do 4 (split; [done|]). exists g. split.
  - split; [|intros n l m Hn; destruct (Hb n l m Hn); lia]. intros n Hn Hlive. assert (n <> N) as Hne by (intros ->; apply Hlive; rewrite lookup_insert_eq; by eexists).
    apply (node_has_keeps nfa); [done|]. apply Hg; [lia|]. intros Hx. apply Hlive. by rewrite lookup_insert_ne.
  - intros n b' Hb'. destruct (decide (n = N)) as [->|Hne]; [|rewrite lookup_insert_ne in Hb' by done; by apply H2].
    rewrite lookup_insert_eq in Hb'. injection Hb' as <-. split; [done|]. split; [done|]. split; [|split].
    + intros c m. split; [intros He; by apply Hedge in He|]. intros Hgn. apply Hb in Hgn. lia.
    + intros m. rewrite Heps, elem_of_empty. split; [done|]. intros Hgn. apply Hb in Hgn. lia.
    + intros a. rewrite Hact, elem_of_empty. split; [done|]. intros Ha. by apply H6 in Ha.
  - intros n b' Hb'. destruct (decide (n = N)) as [->|Hne]; [set_solver|]. rewrite lookup_insert_ne in Hb' by done. apply H3 in Hb'. set_solver.
  - intros n [->%elem_of_singleton|Hn]%elem_of_union; [lia|]. apply H4 in Hn. lia.
  - intros n t m He. apply H5 in He. set_solver.
  - intros n a Ha. apply H6 in Ha. set_solver.
  - assert (forall n l m, ~ g N l m /\ ~ g n l N) as Hno by (intros n l m; split; intros Hx; apply Hb in Hx; lia).
    assert (forall w m, gpath g N w m <-> w = [] /\ m = N) as HNl.
    { intros w m. split; [intros Hp; by apply gpath_stuck in Hp; [|intros l k; apply (Hno 0 l k)]|intros [-> ->]; constructor]. }
    assert (forall n w k, gpath g n w k -> k = N -> n = N) as HNr.
    { intros n w k Hp HkN. induction Hp as [|n l m w k He Hp IH]; [done|]. specialize (IH HkN). rewrite IH in He. by apply (Hno n l 0) in He. }
    assert (forall w m, tstring E N w m <-> w = [] /\ m = N) as HNt.
    { intros w m. split; [|intros [-> ->]; exists []; split; [constructor|done]]. intros (ts & Hp & Hw).
      inversion Hp as [|? t k ts' ? He]; subst; [by rewrite Hw|]. apply H5 in He. tauto. }
    assert (forall n ts k, tpath E n ts k -> k = N -> n = N) as HNt'.
    { intros n ts k Hp HkN. induction Hp as [|n t m ts k He Hp IH]; [done|]. specialize (IH HkN). rewrite IH in He. apply H5 in He. tauto. }
    intros n w m [->%elem_of_singleton|Hn]%elem_of_union [->%elem_of_singleton|Hm]%elem_of_union; rewrite ?HNl, ?HNt; try done; [|by apply H7].
    split; [intros Hp|intros (ts & Hp & _)]; exfalso; apply HNK; [apply HNr in Hp|apply HNt' in Hp]; try done; congruence.
Qed.

(** A fragment for a term from a live builder to a key node. *)
Lemma building_link nfa bs E A K s b t d : building nfa bs E A K -> bs !! s = Some b -> d ∈ K -> s <> d ->
  exists nfa' b', generateGraph t nfa b d = Some (nfa', b') /\ m_nodeId b' = s /\ size nfa <= size nfa'
    /\ building nfa' (<[ s := b' ]> bs) ((s, t, d) :: E) A K.
Proof.
  intros (g & HB) Hb HdK Hsd. destruct HB as [[Hg Hbd] H2 H3 H4 H5 H6 H7]. destruct (H2 s b Hb) as (Hwf & Hid & Hedge & Heps & Hact).
  pose proof (H3 s b Hb) as HsK. pose proof (H4 s HsK) as Hs. pose proof (H4 d HdK) as Hd.
  destruct (generateGraph_spec t nfa b d) as (nfa' & b' & Hgen & [Hsz Hk Hwf' Hid' Hact' (g1 & Hf & [Hce Hee] & Hnew)]); [split_and!; try done; lia|].
  rewrite Hid in Hid', Hf, Hce, Hee. exists nfa', b'. do 3 (split; [done|]). exists (graph_union g g1).
  assert (forall n l m, g1 n l m -> n = s \/ size nfa <= n < size nfa') as Hsrc by apply (fr_source _ _ _ _ _ Hf).
  assert (forall n l m, g n l m -> n < size nfa /\ m < size nfa) as Hlt by (intros n l m Hx; apply Hbd in Hx; lia).
  split.
  - split.
    + intros n Hn Hlive. assert (bs !! n = None) as Hbn.
      { destruct (decide (n = s)) as [->|Hne]; [exfalso; apply Hlive; rewrite lookup_insert_eq; by eexists|].
        destruct (bs !! n) eqn:E1; [|done]. exfalso. apply Hlive. rewrite lookup_insert_ne by done. by eexists. }
      assert (n <> s) as Hns by congruence. destruct (decide (n < size nfa)) as [Hlo|Hhi].
      * apply (node_has_keeps nfa); [done|]. eapply node_has_ext; [| | |apply (Hg n); [lia|rewrite Hbn; by intros []]]; intros; unfold graph_union.
        -- split; [by left|]. intros [?|Hx]; [done|]. apply Hsrc in Hx. lia.
        -- split; [by left|]. intros [?|Hx]; [done|]. apply Hsrc in Hx. lia.
        -- done.
      * eapply node_has_ext; [| | |apply (Hnew n); lia]; intros; unfold graph_union.
        -- split; [by right|]. intros [Hx|?]; [|done]. apply Hlt in Hx. lia.
        -- split; [by right|]. intros [Hx|?]; [|done]. apply Hlt in Hx. lia.
        -- unfold no_actions. split; [done|]. intros Ha. apply H6, H4 in Ha. lia.
    + intros n l m [Hx|Hx]; [apply Hbd in Hx; lia|]. pose proof (Hsrc _ _ _ Hx). destruct (fr_target _ _ _ _ _ Hf _ _ _ Hx); lia.
  - intros n x Hx. destruct (decide (n = s)) as [->|Hne].
    + rewrite lookup_insert_eq in Hx. injection Hx as <-. split; [done|]. split; [done|]. split; [|split].
      * intros c m. rewrite Hce, Hedge. done.
      * intros m. rewrite Hee, Heps. done.
      * intros a. rewrite Hact'. apply Hact.
    + rewrite lookup_insert_ne in Hx by done. destruct (H2 n x Hx) as (? & ? & Hc & He & ?). pose proof (H4 n (H3 n x Hx)) as Hn.
      assert (forall l m, ~ g1 n l m) as Hno by (intros l m Hg1; apply Hsrc in Hg1; lia). split; [done|]. split; [done|]. unfold graph_union. split; [|split].
      * intros c m. rewrite Hc. specialize (Hno (Some c) m). tauto.
      * intros m. rewrite He. specialize (Hno None m). tauto.
      * done.
  - intros n x Hx. destruct (decide (n = s)) as [->|Hne]; [done|]. rewrite lookup_insert_ne in Hx by done. by eapply H3.
  - intros n Hn. apply H4 in Hn. lia.
  - intros n t' m [Heq|He]%elem_of_cons; [by injection Heq as -> -> ->|by eapply H5].
  - done.
  - assert (E ⊆ (s, t, d) :: E) as Hsub by (intros e He; by right).
    intros n w m Hn Hm. pose proof (H4 n Hn). pose proof (H4 m Hm). split.
    + intros Hp0. assert (segments g s d (lang t) n w m) as Hp by (eapply union_segments; [exact Hlt|lia|exact Hf| |exact Hp0|]; lia). clear Hp0.
      revert Hn. induction Hp as [n w m Hp|n u v w m Hu Hv Hw IH]; intros Hn.
      * apply H7 in Hp as (ts & Hts & ?); [|done|done]. exists ts. split; [by eapply tpath_mono|done].
      * apply (tstring_trans _ n u s).
        { apply H7 in Hu as (ts & Hts & ?); [|done|done]. exists ts. split; [by eapply tpath_mono|done]. }
        apply (tstring_trans _ s v d); [|apply IH; try done; lia]. exists [t]. split; [apply tpath_edge; left|]. by apply group_lang_singleton.
    + intros (ts & Hp & Hw). revert w Hw Hn. induction Hp as [n|n t' k ts m He Hp IH]; intros w Hw Hn; [rewrite Hw; constructor|].
      destruct Hw as (u & v & -> & Hu & Hv). assert (k ∈ K) as Hk' by (apply elem_of_cons in He as [Heq|He]; [by injection Heq as -> -> ->|by destruct (H5 _ _ _ He)]).
      eapply gpath_trans; [|apply IH; try done; by apply H4]. apply elem_of_cons in He as [Heq|He].
      * injection Heq as -> -> ->. apply gpath_union_r. by apply (fr_lang _ _ _ _ _ Hf).
      * apply gpath_union_l. apply H7; [done|done|]. exists [t']. split; [by apply tpath_edge|]. by apply group_lang_singleton.
Qed.

Definition add_actions (A : Z -> Z -> Prop) (n : Z) (acts : list Z) : Z -> Z -> Prop := λ m a, A m a \/ m = n /\ a ∈ acts.

Lemma building_setActions nfa bs E A K n b acts : building nfa bs E A K -> bs !! n = Some b ->
  building nfa (<[ n := builder_setActions b acts ]> bs) E (add_actions A n acts) K.
Proof.
  intros (g & HB) Hb. destruct HB as [[Hg Hbd] H2 H3 H4 H5 H6 H7]. destruct (H2 n b Hb) as (Hwf & Hid & Hedge & Heps & Hact).
  exists g. split; try done.
  - split; [|done]. intros m Hm Hlive. assert (m <> n) as Hne by (intros ->; apply Hlive; rewrite lookup_insert_eq; by eexists).
    rewrite lookup_insert_ne in Hlive by done. eapply node_has_ext; [| | |by apply (Hg m)]; try done. intros a. unfold add_actions. tauto.
  - intros m x Hx. destruct (decide (m = n)) as [->|Hne].
    + rewrite lookup_insert_eq in Hx. injection Hx as <-. split_and!; try done. intros a. unfold add_actions, builder_setActions. cbn [m_actions].
      rewrite elem_of_union, elem_of_list_to_set, Hact. tauto.
    + rewrite lookup_insert_ne in Hx by done. destruct (H2 m x Hx) as (? & ? & ? & ? & Ha). split_and!; try done. intros a. rewrite Ha. unfold add_actions. tauto.
  - intros m x Hx. destruct (decide (m = n)) as [->|Hne]; [by eapply H3|]. rewrite lookup_insert_ne in Hx by done. by eapply H3.
  - intros m a [Ha|[-> _]]; [by eapply H6|by eapply H3].
Qed.

Lemma building_finalize nfa bs E A K n b : building nfa bs E A K -> bs !! n = Some b ->
  exists nfa', finalize b nfa = Some nfa' /\ size nfa' = size nfa /\ building nfa' (delete n bs) E A K.
Proof.
  intros (g & HB) Hb. destruct HB as [[Hg Hbd] H2 H3 H4 H5 H6 H7]. destruct (H2 n b Hb) as (Hwf & Hid & Hedge & Heps & Hact).
  destruct (finalize_node b nfa Hwf) as (nfa' & Hfin & Hsz & Hnode & Hold); [rewrite Hid; apply (H4 n), (H3 n b), Hb|].
  change (size nfa' = size nfa) in Hsz. rewrite Hid in Hnode, Hold. exists nfa'. split; [done|]. split; [done|]. exists g. split.
  - split; [|intros m l k Hx; rewrite Hsz; by apply Hbd in Hx]. rewrite Hsz. intros m Hm Hlive. destruct (decide (m = n)) as [->|Hne].
    + eapply node_has_ext; [| | |exact Hnode]; done.
    + rewrite lookup_delete_ne in Hlive by done. destruct (Hg m Hm Hlive) as (ts & es & l & Hv & ?). exists ts, es, l. split; [by apply Hold|done].
  - intros m x Hx. apply lookup_delete_Some in Hx as [_ Hx]. by apply H2.
  - intros m x Hx. apply lookup_delete_Some in Hx as [_ Hx]. by eapply H3.
  - intros m Hm. rewrite Hsz. by apply H4.
  - done.
  - done.
  - done.
Qed.

(** [generateGraph] with a new end. *)
Lemma building_newEnd nfa bs E A K s b t acts : building nfa bs E A K -> bs !! s = Some b ->
  exists nfa' b' e, graphToNewEnd generateGraph t nfa b acts = Some (nfa', b', e) /\ m_nodeId b' = s /\ m_nodeId e = size nfa /\ size nfa < size nfa'
    /\ building nfa' (<[ size nfa := e ]> (<[ s := b' ]> bs)) ((s, t, size nfa) :: E) (add_actions A (size nfa) acts) ({[ size nfa ]} ∪ K).
Proof.
  intros HB Hb. unfold graphToNewEnd. destruct (building_new nfa bs E A K HB) as (nfa1 & e & -> & Hide & Hsz & HNK & HB1). rewrite Hide.
  destruct (building_live _ _ _ _ _ _ _ HB Hb) as [HsK Hid]. assert (s <> size nfa) as Hne by (by intros ->).
  destruct (building_link nfa1 _ E A _ s b t (size nfa) HB1) as (nfa2 & b' & -> & Hid' & Hle & HB2); [by rewrite lookup_insert_ne|set_solver|done|].
  cbn [mbind option_bind]. eexists nfa2, b', _. split; [done|]. split; [done|]. split; [done|]. split; [lia|].
  rewrite insert_insert_ne in HB2 by done. pose proof (building_setActions nfa2 _ _ _ _ (size nfa) e acts HB2) as HB3.
  rewrite lookup_insert_eq in HB3. specialize (HB3 eq_refl). by rewrite insert_insert_eq in HB3.
Qed.

(** The finished automaton. *)
Lemma building_accepts nfa E A K w a : building nfa ∅ E A K -> 0 ∈ K ->
  nfa_accepts nfa w a <-> exists ts m, tpath E 0 ts m /\ group_lang ts w /\ A m a.
Proof.
  intros (g & HB) H0. destruct HB as [Hg H2 H3 H4 H5 H6 H7].
  assert (nfa_graph nfa nothing g A) as Hg'.
  { destruct Hg as [Hg Hb]. split; [|done]. intros n Hn _. apply Hg; [done|]. rewrite lookup_empty. by intros []. }
  rewrite (graph_accepts nfa g A w a Hg') by (pose proof (H4 0 H0); lia). split.
  - intros (n & Hn & Hp & Ha). pose proof (H6 n a Ha) as HnK. apply H7 in Hp as (ts & ? & ?); [|done|done]. by exists ts, n.
  - intros (ts & n & Hp & Hw & Ha). pose proof (H6 n a Ha) as HnK. exists n. split; [by apply H4|]. split; [|done]. apply H7; [done|done|]. by exists ts.
Qed.

Lemma building_wf nfa E A K : building nfa ∅ E A K -> 0 ∈ K -> (forall n a, A n a -> 0 <= a < 2 ^ 49) -> wf_nfa nfa.
Proof.
  intros (g & HB) H0 HA. destruct HB as [Hg H2 H3 H4 H5 H6 H7].
  assert (nfa_graph nfa nothing g A) as Hg'.
  { destruct Hg as [Hg Hb]. split; [|done]. intros n Hn _. apply Hg; [done|]. rewrite lookup_empty. by intros []. }
  apply (graph_wf nfa g A Hg'); [pose proof (H4 0 H0); lia|done].
Qed.

Lemma building_actions nfa E A K n acts a : building nfa ∅ E A K -> actionsOfNode nfa n = Some acts -> a ∈ acts -> A n a.
Proof.
  intros (g & HB) Hn Ha. destruct HB as [[Hg _] _ _ _ _ _ _]. assert (0 <= n < size nfa) as Hr.
  { unfold actionsOfNode in Hn. destruct (vec_at (nfa_nodes nfa) n) eqn:En; [|done]. by eapply vec_at_bound. }
  destruct (node_has_edges _ _ _ _ _ (Hg n Hr ltac:(rewrite lookup_empty; by intros []))) as (_ & _ & acts' & Hn' & Hin). rewrite Hn in Hn'. injection Hn' as <-. by apply Hin.
Qed.
End Building.
