(* ===== verification/SuffixSharing.v ===== *)
(** * Automata that share the ends of patterns

    The nodes of the NFA made from a prefix tree are of two kinds: forward nodes
    stand for a path from the root of the tree, and the nodes of the reverse
    suffix tree for a path to given actions.  This file states how the edges
    between them have to be so that the automaton accepts nothing but patterns of
    the tree, and proves it for each way in which the automaton grows. *)

From stdpp Require Import base numbers option list list_numbers gmap sets relations.
From Stdlib Require Import ZArith Lia.
From S2P Require Import Prelude.
From S2P Require Import NFA.
From S2P Require Import Term.
From S2P Require Import TermProof.
From S2P Require Import TermGraph.
From S2P Require Import CombinedURLFilters.
From S2P Require Import ProcessNFAs.
From S2P Require Import TermAutomaton.

(** ** Patterns of a tree *)

(** The action [a] is at the end of a path of pointers. *)
Inductive tree_acts : PrefixTreeVertex -> list nat -> Z -> Prop :=
  | tree_acts_here v acts a : vertexActions v = Some acts -> a ∈ acts -> tree_acts v [] a
  | tree_acts_edge v p c ps a : (p, c) ∈ edges v -> tree_acts c ps a -> tree_acts v (p :: ps) a.

Lemma tree_acts_nil v a : tree_acts v [] a <-> a ∈ default [] (vertexActions v).
Proof.
  split; [inversion 1 as [? acts ? Hv Ha|]; subst; by rewrite Hv|]. intros Ha. destruct (vertexActions v) as [acts|] eqn:E; simpl in Ha; [|by apply elem_of_nil in Ha].
  by apply (tree_acts_here v acts).
Qed.

Lemma tree_acts_cons v p ps a : tree_acts v (p :: ps) a <-> exists c, (p, c) ∈ edges v /\ tree_acts c ps a.
Proof. split; [inversion 1; subst; eauto|]. intros (c & ? & ?). by eapply tree_acts_edge. Qed.

Section Sharing.
Context `{HashOrder} (alphabet : CombinedFiltersAlphabet) (tree : PrefixTreeVertex).

(** The terms of a path. *)
Definition terms_of (ps : list nat) : option (list Term) := mapM (alphabet !!.) ps.

Lemma terms_of_cons p ps ts : terms_of (p :: ps) = Some ts <-> exists t ts', ts = t :: ts' /\ alphabet !! p = Some t /\ terms_of ps = Some ts'.
Proof.
  unfold terms_of. cbn [mapM]. split.
  - destruct (alphabet !! p) as [t|]; [|done]. cbn [mbind option_bind]. destruct (mapM _ ps) as [ts'|]; [|done]. intros [= <-]. by exists t, ts'.
  - intros (t & ts' & -> & -> & Hps). cbn [mbind option_bind]. by rewrite Hps.
Qed.

Lemma terms_of_app ps qs ts us : terms_of ps = Some ts -> terms_of qs = Some us -> terms_of (ps ++ qs) = Some (ts ++ us).
Proof.
  revert ts. induction ps as [|p ps IH]; intros ts; [by intros [= <-]|]. intros (t & ts' & -> & Hp & Hps)%terms_of_cons Hqs.
  apply terms_of_cons. exists t, (ts' ++ us). split_and!; [done|done|by apply IH].
Qed.

(** ** Typed automata *)

(** The kinds of edges: from one vertex to the next, from a vertex to the suffix
    that is left, and from one suffix to a shorter one. *)
Definition edge_type (F : gmap Z (list nat)) (R : gmap Z (list nat * list Z)) (s : Z) (p : nat) (d : Z) : Prop :=
  (exists path, F !! s = Some path /\ F !! d = Some (path ++ [p]))
  \/ (exists path suffix acts, F !! s = Some path /\ R !! d = Some (suffix, acts) /\ forall a, a ∈ acts -> tree_acts tree (path ++ p :: suffix) a)
  \/ (exists suffix acts, R !! s = Some (p :: suffix, acts) /\ R !! d = Some (suffix, acts)).

(** [F] has the paths of the forward nodes, [R] the suffixes and the actions of
    the reverse nodes. *)
Record typed (E : list (Z * Term * Z)) (A : Z -> Z -> Prop) (F : gmap Z (list nat)) (R : gmap Z (list nat * list Z)) : Prop := {
  ty_edge : forall s t d, (s, t, d) ∈ E -> exists p, alphabet !! p = Some t /\
    edge_type F R s p d;
  ty_action : forall n a, A n a -> (exists path, F !! n = Some path /\ tree_acts tree path a) \/ (exists acts, R !! n = Some ([], acts) /\ a ∈ acts);
  ty_kinds : forall n, F !! n = None \/ R !! n = None;
  ty_forward : forall n path, F !! n = Some path -> exists ts, terms_of path = Some ts /\ tpath E 0 ts n;
  ty_reverse : forall n suffix acts, R !! n = Some (suffix, acts) ->
    exists ts m, terms_of suffix = Some ts /\ tpath E n ts m /\ forall a, a ∈ acts -> A m a;
  ty_root : F !! 0 = Some []
}.

(** The pattern leads to the action. *)
Definition accepted (E : list (Z * Term * Z)) (A : Z -> Z -> Prop) (ps : list nat) (a : Z) : Prop :=
  exists ts m, terms_of ps = Some ts /\ tpath E 0 ts m /\ A m a.

Lemma accepted_mono E A E' A' ps a : E ⊆ E' -> (forall n a, A n a -> A' n a) -> accepted E A ps a -> accepted E' A' ps a.
Proof. intros HE HA (ts & m & ? & ? & ?). exists ts, m. split_and!; [done|by eapply tpath_mono|auto]. Qed.

Section Typed.
Context (E : list (Z * Term * Z)) (A : Z -> Z -> Prop) (F : gmap Z (list nat)) (R : gmap Z (list nat * list Z)).
Hypothesis HT : typed E A F R.

Lemma typed_suffix n ts m a : tpath E n ts m -> A m a -> forall suffix acts, R !! n = Some (suffix, acts) -> terms_of suffix = Some ts /\ a ∈ acts.
Proof using HT.
  intros Hp Ha. induction Hp as [n|n t m ts k He Hp IH]; intros suffix acts Hn.
  - destruct (ty_action _ _ _ _ HT n a Ha) as [(path & Hf & _)|(acts' & Hr & Hin)].
    + destruct (ty_kinds _ _ _ _ HT n); congruence.
    + rewrite Hn in Hr. injection Hr as -> ->. done.
  - destruct (ty_edge _ _ _ _ HT n t m He) as (p & Hpt & [(path & Hf & _)|[(path & ? & ? & Hf & _)|(suffix' & acts' & Hr & Hm)]]);
      [destruct (ty_kinds _ _ _ _ HT n); congruence..|].
    rewrite Hn in Hr. injection Hr as -> ->. destruct (IH Ha suffix' acts' Hm) as [Hts ?]. split; [|done]. apply terms_of_cons. by exists t, ts.
Qed.

Lemma typed_path n ts m a : tpath E n ts m -> A m a -> forall path, F !! n = Some path ->
  exists ps, terms_of ps = Some ts /\ tree_acts tree (path ++ ps) a.
Proof using HT.
  intros Hp Ha. induction Hp as [n|n t m ts k He Hp IH]; intros path Hn.
  - destruct (ty_action _ _ _ _ HT n a Ha) as [(path' & Hf & Hin)|(acts & Hr & _)]; [|destruct (ty_kinds _ _ _ _ HT n); congruence].
    rewrite Hn in Hf. injection Hf as <-. exists []. by rewrite app_nil_r.
  - destruct (ty_edge _ _ _ _ HT n t m He) as (p & Hpt & [(path' & Hf & Hm)|[(path' & suffix & acts & Hf & Hm & Hacts)|(suffix & acts & Hr & _)]]);
      [| |destruct (ty_kinds _ _ _ _ HT n); congruence]; rewrite Hn in Hf; injection Hf as <-.
    + destruct (IH Ha _ Hm) as (ps & Hps & Hin). exists (p :: ps). split; [apply terms_of_cons; by exists t, ts|]. by rewrite <- app_assoc in Hin.
    + destruct (typed_suffix m ts k a Hp Ha suffix acts Hm) as [Hts Hin]. exists (p :: suffix). split; [apply terms_of_cons; by exists t, ts|]. auto.
Qed.

(** Nothing is accepted that is not in the tree. *)
Lemma typed_sound ts m a : tpath E 0 ts m -> A m a -> exists ps, terms_of ps = Some ts /\ tree_acts tree ps a.
Proof using HT. intros Hp Ha. exact (typed_path 0 ts m a Hp Ha [] (ty_root _ _ _ _ HT)). Qed.

Lemma typed_accepted n path a : F !! n = Some path -> A n a -> accepted E A path a.
Proof using HT. intros Hn Ha. destruct (ty_forward _ _ _ _ HT n path Hn) as (ts & ? & ?). by exists ts, n. Qed.
End Typed.

(** ** The automaton in progress *)

Record Automaton := mkAutomaton {
  au_edges : list (Z * Term * Z);
  au_actions : Z -> Z -> Prop;
  au_keys : gset Z;
  au_forward : gmap Z (list nat);
  au_reverse : gmap Z (list nat * list Z)
}.

Record growing (nfa : NFA) (bs : gmap Z NodeBuilder) (M : Automaton) : Prop := {
  gr_building : building nfa bs (au_edges M) (au_actions M) (au_keys M);
  gr_typed : typed (au_edges M) (au_actions M) (au_forward M) (au_reverse M);
  gr_forward : forall n path, au_forward M !! n = Some path -> n ∈ au_keys M;
  gr_reverse : forall n x, au_reverse M !! n = Some x -> n ∈ au_keys M;
  gr_actions : forall n a, au_actions M n a -> exists ps, tree_acts tree ps a
}.

(** What was there stays. *)
Record grows (M M' : Automaton) : Prop := {
  gw_edges : au_edges M ⊆ au_edges M';
  gw_actions : forall n a, au_actions M n a -> au_actions M' n a;
  gw_forward : au_forward M ⊆ au_forward M';
  gw_reverse : au_reverse M ⊆ au_reverse M'
}.

Lemma grows_refl M : grows M M.
Proof. by split. Qed.

Lemma grows_trans M M' M'' : grows M M' -> grows M' M'' -> grows M M''.
Proof. intros [? ? ? ?] [? ? ? ?]. split; [set_solver|auto|by etrans|by etrans]. Qed.

Lemma grows_accepted M M' ps a : grows M M' -> accepted (au_edges M) (au_actions M) ps a -> accepted (au_edges M') (au_actions M') ps a.
Proof. intros [? ? _ _]. by apply accepted_mono. Qed.

Lemma edge_type_mono F R F' R' s p d : F ⊆ F' -> R ⊆ R' -> edge_type F R s p d -> edge_type F' R' s p d.
Proof.
  intros HF HR [(path & H1 & H2)|[(path & suffix & acts & H1 & H2 & H3)|(suffix & acts & H1 & H2)]].
  - left. exists path. split; by eapply lookup_weaken.
  - right. left. exists path, suffix, acts. split_and!; [by eapply lookup_weaken..|done].
  - right. right. exists suffix, acts. split; by eapply lookup_weaken.
Qed.

(** A typed automaton stays typed when its parts grow, provided that what is new is. *)
Lemma typed_grow E A F R E' A' F' R' : typed E A F R -> E ⊆ E' -> (forall n a, A n a -> A' n a) -> F ⊆ F' -> R ⊆ R' ->
  (forall s t d, (s, t, d) ∈ E' -> (s, t, d) ∈ E \/ exists p, alphabet !! p = Some t /\
    edge_type F' R' s p d) ->
  (forall n a, A' n a -> A n a \/ (exists path, F' !! n = Some path /\ tree_acts tree path a) \/ (exists acts, R' !! n = Some ([], acts) /\ a ∈ acts)) ->
  (forall n, F' !! n = None \/ R' !! n = None) ->
  (forall n path, F' !! n = Some path -> F !! n = Some path \/ exists ts, terms_of path = Some ts /\ tpath E' 0 ts n) ->
  (forall n suffix acts, R' !! n = Some (suffix, acts) -> R !! n = Some (suffix, acts) \/
    exists ts m, terms_of suffix = Some ts /\ tpath E' n ts m /\ forall a, a ∈ acts -> A' m a) ->
  typed E' A' F' R'.
Proof.
  intros [T1 T2 T3 T4 T5 T6] HE HA HF HR Hedge Hact Hkinds Hfwd Hrev. split.
  - intros s t d He. destruct (Hedge s t d He) as [Hold|Hnew]; [|done]. destruct (T1 s t d Hold) as (p & ? & Hty). exists p. split; [done|].
    by apply (edge_type_mono F R).
  - intros n a Ha. destruct (Hact n a Ha) as [Hold|Hnew]; [|done]. destruct (T2 n a Hold) as [(path & ? & ?)|(acts & ? & ?)].
    + left. exists path. split; [by eapply lookup_weaken|done].
    + right. exists acts. split; [by eapply lookup_weaken|done].
  - done.
  - intros n path Hn. destruct (Hfwd n path Hn) as [Hold|?]; [|done]. destruct (T4 n path Hold) as (ts & ? & ?). exists ts. split; [done|by eapply tpath_mono].
  - intros n suffix acts Hn. destruct (Hrev n suffix acts Hn) as [Hold|?]; [|done]. destruct (T5 n suffix acts Hold) as (ts & m & ? & ? & ?).
    exists ts, m. split_and!; [done|by eapply tpath_mono|auto].
  - by eapply lookup_weaken.
Qed.

(** ** The ways to grow *)

(** A node outside of the keys has no type. *)
Lemma growing_fresh nfa bs M n : growing nfa bs M -> n ∉ au_keys M -> au_forward M !! n = None /\ au_reverse M !! n = None.
Proof.
  intros HG Hn. split.
  - destruct (au_forward M !! n) eqn:Ex; [|done]. by apply (gr_forward _ _ _ HG) in Ex.
  - destruct (au_reverse M !! n) eqn:Ex; [|done]. by apply (gr_reverse _ _ _ HG) in Ex.
Qed.

(** The next vertex of a path. *)
Lemma growing_newEnd nfa bs M s b path p t acts : growing nfa bs M -> bs !! s = Some b -> au_forward M !! s = Some path -> alphabet !! p = Some t ->
  (forall a, a ∈ acts -> tree_acts tree (path ++ [p]) a) ->
  exists nfa' b' e M', graphToNewEnd generateGraph t nfa b acts = Some (nfa', b', e) /\ m_nodeId b' = s /\ m_nodeId e = size nfa
    /\ bs !! size nfa = None /\ growing nfa' (<[ size nfa := e ]> (<[ s := b' ]> bs)) M' /\ grows M M' /\ size nfa < size nfa'
    /\ au_forward M' !! size nfa = Some (path ++ [p]) /\ forall a, a ∈ acts -> au_actions M' (size nfa) a.
Proof.
  intros HG Hb Hs Hp Hacts. pose proof (gr_building _ _ _ HG) as HB. destruct (building_newEnd nfa bs _ _ _ s b t acts HB Hb) as (nfa' & b' & e & Hgen & Hid' & Hide & Hsz & HB').
  set (N := size nfa) in *. assert (N ∉ au_keys M) as HN by (intros Hk; apply (building_key _ _ _ _ _ _ HB) in Hk; unfold N in Hk; lia).
  destruct (growing_fresh _ _ _ N HG HN) as [HFN HRN].
  exists nfa', b', e, (mkAutomaton ((s, t, N) :: au_edges M) (add_actions (au_actions M) N acts) ({[ N ]} ∪ au_keys M) (<[ N := path ++ [p] ]> (au_forward M)) (au_reverse M)).
  do 3 (split; [done|]). split.
  { destruct (bs !! N) eqn:Ex; [|done]. by apply (building_live _ _ _ _ _ _ _ HB) in Ex as [? _]. }
  assert (au_forward M ⊆ <[ N := path ++ [p] ]> (au_forward M)) as HFsub by (by apply insert_subseteq).
  assert (s <> N) as HsN by congruence.
  destruct (ty_forward _ _ _ _ (gr_typed _ _ _ HG) s path Hs) as (ts & Hts & Htp).
  split; [|split; [|split; [done|split]]].
  - split; cbn [au_edges au_actions au_keys au_forward au_reverse]; [done| | | |intros n a [Ha|[_ Ha]]; [by eapply (gr_actions _ _ _ HG)|eauto]].
    + apply (typed_grow (au_edges M) (au_actions M) (au_forward M) (au_reverse M)); try done.
      * apply (gr_typed _ _ _ HG).
      * intros x Hx. by right.
      * intros n a Ha. by left.
      * intros s' t' d' [Heq|He]%elem_of_cons; [|by left]. injection Heq as -> -> ->. right. exists p. split; [done|]. left. exists path.
        rewrite lookup_insert_ne, lookup_insert_eq by done. done.
      * intros n a [Ha|[-> Ha]]; [by left|]. right. left. exists (path ++ [p]). rewrite lookup_insert_eq. auto.
      * intros n. destruct (decide (n = N)) as [->|Hne]; [by right|]. rewrite lookup_insert_ne by done. apply (ty_kinds _ _ _ _ (gr_typed _ _ _ HG)).
      * intros n path'. destruct (decide (n = N)) as [->|Hne]; [|rewrite lookup_insert_ne by done; by left]. rewrite lookup_insert_eq. intros [= <-]. right.
        exists (ts ++ [t]). split; [apply terms_of_app; [done|]; apply terms_of_cons; by exists t, []|].
        eapply tpath_trans; [eapply tpath_mono; [|exact Htp]; intros x Hx; by right|]. apply tpath_edge. left.
      * intros n suffix acts' Hn. by left.
    + intros n path' Hn. destruct (decide (n = N)) as [->|Hne]; [set_solver|]. rewrite lookup_insert_ne in Hn by done. apply (gr_forward _ _ _ HG) in Hn. set_solver.
    + intros n x Hn. apply (gr_reverse _ _ _ HG) in Hn. set_solver.
  - split; cbn [au_edges au_actions au_forward au_reverse]; [intros x Hx; by right|intros n a Ha; by left|done|done].
  - cbn [au_forward]. by rewrite lookup_insert_eq.
  - intros a Ha. by right.
Qed.

(** An edge from a forward node into the reverse suffix tree. *)
Lemma growing_link nfa bs M s b path p t d suffix acts : growing nfa bs M -> bs !! s = Some b -> au_forward M !! s = Some path -> alphabet !! p = Some t ->
  au_reverse M !! d = Some (suffix, acts) -> (forall a, a ∈ acts -> tree_acts tree (path ++ p :: suffix) a) ->
  exists nfa' b' M', generateGraph t nfa b d = Some (nfa', b') /\ m_nodeId b' = s /\ growing nfa' (<[ s := b' ]> bs) M' /\ grows M M' /\ size nfa <= size nfa'
    /\ forall a, a ∈ acts -> accepted (au_edges M') (au_actions M') (path ++ p :: suffix) a.
Proof.
  intros HG Hb Hs Hp Hd Hacts. pose proof (gr_building _ _ _ HG) as HB. pose proof (gr_typed _ _ _ HG) as HT.
  assert (s <> d) as Hsd by (intros ->; destruct (ty_kinds _ _ _ _ HT d); congruence).
  destruct (building_link nfa bs _ _ _ s b t d HB Hb (gr_reverse _ _ _ HG _ _ Hd) Hsd) as (nfa' & b' & Hgen & Hid' & Hsz & HB').
  exists nfa', b', (mkAutomaton ((s, t, d) :: au_edges M) (au_actions M) (au_keys M) (au_forward M) (au_reverse M)). do 2 (split; [done|]).
  assert (au_edges M ⊆ (s, t, d) :: au_edges M) as Hsub by (intros x Hx; by right). split; [|split; [|split; [done|]]].
  - split; cbn [au_edges au_actions au_keys au_forward au_reverse]; [done| |apply HG|apply HG|apply HG].
    apply (typed_grow (au_edges M) (au_actions M) (au_forward M) (au_reverse M)); try done.
    + intros s' t' d' [Heq|He]%elem_of_cons; [|by left]. injection Heq as -> -> ->. right. exists p. split; [done|]. right. left. by exists path, suffix, acts.
    + intros n a Ha. by left.
    + apply (ty_kinds _ _ _ _ HT).
    + intros n path' Hn. by left.
    + intros n suffix' acts' Hn. by left.
  - by split.
  - intros a Ha. cbn [au_edges au_actions]. destruct (ty_forward _ _ _ _ HT s path Hs) as (ts & Hts & Htp).
    destruct (ty_reverse _ _ _ _ HT d suffix acts Hd) as (us & m & Hus & Hup & Hm). exists (ts ++ t :: us), m. split; [|split; [|by apply Hm]].
    + apply terms_of_app; [done|]. apply terms_of_cons. by exists t, us.
    + eapply tpath_trans; [by eapply tpath_mono|]. eapply tpath_step; [left|]. by eapply tpath_mono.
Qed.

(** The root of a reverse suffix tree. *)
Lemma growing_root nfa bs M acts : growing nfa bs M -> (forall a, a ∈ acts -> exists ps, tree_acts tree ps a) ->
  exists nfa1 b nfa' M', newBuilder nfa = (nfa1, b) /\ finalize (builder_setActions b acts) nfa1 = Some nfa' /\ m_nodeId b = size nfa
    /\ growing nfa' bs M' /\ grows M M' /\ size nfa <= size nfa' /\ au_reverse M' !! size nfa = Some ([], acts).
Proof.
  intros HG Hin. pose proof (gr_building _ _ _ HG) as HB. pose proof (gr_typed _ _ _ HG) as HT.
  destruct (building_new nfa bs _ _ _ HB) as (nfa1 & b & Hnew & Hid & Hsz & HN & HB1). set (N := size nfa) in *.
  pose proof (building_setActions nfa1 _ _ _ _ N b acts HB1 (lookup_insert_eq _ _ _)) as HB2. rewrite insert_insert_eq in HB2.
  destruct (building_finalize nfa1 _ _ _ _ N (builder_setActions b acts) HB2 (lookup_insert_eq _ _ _)) as (nfa' & Hfin & Hsz' & HB3).
  destruct (growing_fresh _ _ _ N HG HN) as [HFN HRN].
  assert (bs !! N = None) as HbN by (destruct (bs !! N) eqn:Ex; [|done]; by apply (building_live _ _ _ _ _ _ _ HB) in Ex as [? _]).
  rewrite delete_insert_eq, delete_id in HB3 by done.
  exists nfa1, b, nfa', (mkAutomaton (au_edges M) (add_actions (au_actions M) N acts) ({[ N ]} ∪ au_keys M) (au_forward M) (<[ N := ([], acts) ]> (au_reverse M))).
  do 3 (split; [done|]). assert (au_reverse M ⊆ <[ N := ([], acts) ]> (au_reverse M)) as HRsub by (by apply insert_subseteq).
  split; [|split; [|split; [lia|]]].
  - split; cbn [au_edges au_actions au_keys au_forward au_reverse]; [done| | | |intros n a [Ha|[_ Ha]]; [by eapply (gr_actions _ _ _ HG)|eauto]].
    + apply (typed_grow (au_edges M) (au_actions M) (au_forward M) (au_reverse M)); try done.
      * intros n a Ha. by left.
      * intros s t d He. by left.
      * intros n a [Ha|[-> Ha]]; [by left|]. right. right. exists acts. by rewrite lookup_insert_eq.
      * intros n. destruct (decide (n = N)) as [->|Hne]; [by left|]. rewrite lookup_insert_ne by done. apply (ty_kinds _ _ _ _ HT).
      * intros n path Hn. by left.
      * intros n suffix acts'. destruct (decide (n = N)) as [->|Hne]; [|rewrite lookup_insert_ne by done; by left]. rewrite lookup_insert_eq. intros [= <- <-]. right.
        exists [], N. split; [done|]. split; [constructor|]. intros a Ha. by right.
    + intros n path Hn. apply (gr_forward _ _ _ HG) in Hn. set_solver.
    + intros n x Hn. destruct (decide (n = N)) as [->|Hne]; [set_solver|]. rewrite lookup_insert_ne in Hn by done. apply (gr_reverse _ _ _ HG) in Hn. set_solver.
  - split; cbn [au_edges au_actions au_forward au_reverse]; [done|intros n a Ha; by left|done|done].
  - cbn [au_reverse]. by rewrite lookup_insert_eq.
Qed.

(** Another vertex of a reverse suffix tree. *)
Lemma growing_suffix nfa bs M d suffix acts p t : growing nfa bs M -> au_reverse M !! d = Some (suffix, acts) -> alphabet !! p = Some t ->
  exists nfa1 b nfa2 b' nfa' M', newBuilder nfa = (nfa1, b) /\ generateGraph t nfa1 b d = Some (nfa2, b') /\ finalize b' nfa2 = Some nfa' /\ m_nodeId b' = size nfa
    /\ growing nfa' bs M' /\ grows M M' /\ size nfa <= size nfa' /\ au_reverse M' !! size nfa = Some (p :: suffix, acts).
Proof.
  intros HG Hd Hp. pose proof (gr_building _ _ _ HG) as HB. pose proof (gr_typed _ _ _ HG) as HT.
  destruct (building_new nfa bs _ _ _ HB) as (nfa1 & b & Hnew & Hid & Hsz & HN & HB1). set (N := size nfa) in *.
  destruct (growing_fresh _ _ _ N HG HN) as [HFN HRN].
  destruct (building_link nfa1 _ _ _ _ N b t d HB1 (lookup_insert_eq _ _ _)) as (nfa2 & b' & Hgen & Hid' & Hsz2 & HB2);
    [apply elem_of_union_r; by eapply (gr_reverse _ _ _ HG)|congruence|]. rewrite insert_insert_eq in HB2.
  destruct (building_finalize nfa2 _ _ _ _ N b' HB2 (lookup_insert_eq _ _ _)) as (nfa' & Hfin & Hsz' & HB3).
  assert (bs !! N = None) as HbN by (destruct (bs !! N) eqn:Ex; [|done]; by apply (building_live _ _ _ _ _ _ _ HB) in Ex as [? _]).
  rewrite delete_insert_eq, delete_id in HB3 by done.
  exists nfa1, b, nfa2, b', nfa', (mkAutomaton ((N, t, d) :: au_edges M) (au_actions M) ({[ N ]} ∪ au_keys M) (au_forward M) (<[ N := (p :: suffix, acts) ]> (au_reverse M))).
  do 4 (split; [done|]). assert (au_reverse M ⊆ <[ N := (p :: suffix, acts) ]> (au_reverse M)) as HRsub by (by apply insert_subseteq).
  assert (au_edges M ⊆ (N, t, d) :: au_edges M) as Hsub by (intros x Hx; by right). assert (d <> N) as HdN by congruence.
  split; [|split; [|split; [lia|]]].
  - split; cbn [au_edges au_actions au_keys au_forward au_reverse]; [done| | | |apply HG].
    + apply (typed_grow (au_edges M) (au_actions M) (au_forward M) (au_reverse M)); try done.
      * intros s' t' d' [Heq|He]%elem_of_cons; [|by left]. injection Heq as -> -> ->. right. exists p. split; [done|]. right. right. exists suffix, acts.
        rewrite lookup_insert_eq, lookup_insert_ne by done. done.
      * intros n a Ha. by left.
      * intros n. destruct (decide (n = N)) as [->|Hne]; [by left|]. rewrite lookup_insert_ne by done. apply (ty_kinds _ _ _ _ HT).
      * intros n path Hn. by left.
      * intros n suffix' acts'. destruct (decide (n = N)) as [->|Hne]; [|rewrite lookup_insert_ne by done; by left]. rewrite lookup_insert_eq. intros [= <- <-]. right.
        destruct (ty_reverse _ _ _ _ HT d suffix acts Hd) as (us & m & Hus & Hup & Hm). exists (t :: us), m. split; [apply terms_of_cons; by exists t, us|].
        split; [|done]. eapply tpath_step; [left|]. by eapply tpath_mono.
    + intros n path Hn. apply (gr_forward _ _ _ HG) in Hn. set_solver.
    + intros n x Hn. destruct (decide (n = N)) as [->|Hne]; [set_solver|]. rewrite lookup_insert_ne in Hn by done. apply (gr_reverse _ _ _ HG) in Hn. set_solver.
  - split; cbn [au_edges au_actions au_forward au_reverse]; done.
  - cbn [au_reverse]. by rewrite lookup_insert_eq.
Qed.

Lemma growing_finalize nfa bs M n b : growing nfa bs M -> bs !! n = Some b ->
  exists nfa', finalize b nfa = Some nfa' /\ size nfa' = size nfa /\ growing nfa' (delete n bs) M.
Proof.
  intros HG Hb. destruct (building_finalize nfa bs _ _ _ n b (gr_building _ _ _ HG) Hb) as (nfa' & ? & ? & ?).
  exists nfa'. do 2 (split; [done|]). split; [done|apply HG..].
Qed.
End Sharing.
