(* ===== verification/SubtreeStack.v ===== *)
(** * The stack of a traversal of the prefix tree

    [generateNFAForSubtree] walks over a tree that it takes apart.  This file
    follows the tree: which patterns are left in the vertices on the stack, how
    many vertices and edges that are, how many iterations are still to come, and
    whether a leaf is going to be reached. *)

From stdpp Require Import base numbers option list list_numbers gmap sets.
From Stdlib Require Import ZArith Lia.
From S2P Require Import Prelude.
From S2P Require Import Term.
From S2P Require Import CombinedURLFilters.
From S2P Require Import ProcessNFAs.
From S2P Require Import SuffixSharing.

(** ** Vertices on the stack *)

(** The edges that are not to be deleted. *)
Definition kept (es : list (option nat * PrefixTreeVertex)) : list (nat * PrefixTreeVertex) := omap (λ e, pointer ← e.1; Some (pointer, e.2)) es.

Lemma kept_elem es p c : (p, c) ∈ kept es <-> (Some p, c) ∈ es.
Proof.
  unfold kept. rewrite list_elem_of_omap. split.
  - intros ([[q|] d] & He & Heq); cbn [fst snd mbind option_bind] in Heq; [|done]. by injection Heq as -> ->.
  - intros He. exists (Some p, c). by split.
Qed.

Lemma kept_app es es' : kept (es ++ es') = kept es ++ kept es'.
Proof. apply omap_app. Qed.

Lemma kept_some es : kept ((λ e : nat * PrefixTreeVertex, (Some e.1, e.2)) <$> es) = es.
Proof. induction es as [|[p c] es IH]; [done|]. cbn. unfold kept in IH. cbn in IH. by rewrite IH. Qed.

Lemma activeSubtree_kept v b : removeNullEdges (activeSubtree v b) = v.
Proof. destruct v as [acts es]. unfold removeNullEdges, activeSubtree. cbn [as_actions as_edges vertexActions edges]. f_equal. apply kept_some. Qed.

(** The frame without the edge that is being followed. *)
Definition without (f : ActiveSubtree) : ActiveSubtree :=
  mkActiveSubtree (as_actions f) (<[ as_edgeIndex f := (None, newVertex) ]> (as_edges f)) (as_nfaNode f) (as_edgeIndex f).

(** The edges before and after the one that is being followed. *)
Lemma followed_split f e : as_edges f !! as_edgeIndex f = Some e ->
  as_edges f = take (as_edgeIndex f) (as_edges f) ++ e :: drop (S (as_edgeIndex f)) (as_edges f).
Proof. intros He. by rewrite take_drop_middle. Qed.

Lemma followed_insert f e e' : as_edges f !! as_edgeIndex f = Some e ->
  <[ as_edgeIndex f := e' ]> (as_edges f) = take (as_edgeIndex f) (as_edges f) ++ e' :: drop (S (as_edgeIndex f)) (as_edges f).
Proof. intros He. apply insert_take_drop. by eapply lookup_lt_Some. Qed.

Lemma followed_kept f p c : as_edges f !! as_edgeIndex f = Some (Some p, c) ->
  edges (removeNullEdges f) = kept (take (as_edgeIndex f) (as_edges f)) ++ (p, c) :: kept (drop (S (as_edgeIndex f)) (as_edges f)).
Proof. intros He. change (edges (removeNullEdges f)) with (kept (as_edges f)). by rewrite (followed_split f _ He) at 1; rewrite kept_app. Qed.

Lemma without_kept f e : as_edges f !! as_edgeIndex f = Some e ->
  edges (removeNullEdges (without f)) = kept (take (as_edgeIndex f) (as_edges f)) ++ kept (drop (S (as_edgeIndex f)) (as_edges f)).
Proof.
  intros He. change (edges (removeNullEdges (without f))) with (kept (<[ as_edgeIndex f := (None, newVertex) ]> (as_edges f))).
  by rewrite (followed_insert f e _ He), kept_app.
Qed.

(** The path from the root to the vertex above the stack. *)
Fixpoint frame_path (rest : list ActiveSubtree) : list nat :=
  match rest with
  | [] => []
  | f :: rest => frame_path rest ++ match currentPointer f with Some p => [p] | None => [] end
  end.

(** ** What is left *)

(** The patterns that branch off below the vertex on top. *)
Fixpoint elsewhere (rest : list ActiveSubtree) (ps : list nat) (a : Z) : Prop :=
  match rest with
  | [] => False
  | f :: rest => (exists qs, ps = frame_path rest ++ qs /\ tree_acts (removeNullEdges (without f)) qs a) \/ elsewhere rest ps a
  end.

(** The patterns of the tree with the vertex [v] on top. *)
Definition remaining (v : PrefixTreeVertex) (rest : list ActiveSubtree) (ps : list nat) (a : Z) : Prop :=
  (exists qs, ps = frame_path rest ++ qs /\ tree_acts v qs a) \/ elsewhere rest ps a.

(** Patterns of the frame: those over the edge that is followed and the others. *)
Lemma followed_acts f p c qs a : as_edges f !! as_edgeIndex f = Some (Some p, c) ->
  tree_acts (removeNullEdges f) qs a <-> tree_acts (removeNullEdges (without f)) qs a \/ exists qs', qs = p :: qs' /\ tree_acts c qs' a.
Proof.
  intros He. destruct qs as [|q qs].
  { rewrite !tree_acts_nil. split; [by left|]. intros [?|(? & ? & _)]; done. }
  rewrite !tree_acts_cons, (followed_kept f p c He), (without_kept f _ He). setoid_rewrite elem_of_app. setoid_rewrite elem_of_cons. split.
  - intros (d & [Hd|[Heq|Hd]] & Hqs); [left; exists d; tauto| |left; exists d; tauto]. injection Heq as -> ->. right. by exists qs.
  - intros [(d & Hd & Hqs)|(qs' & Heq & Hqs)]; [exists d; tauto|]. injection Heq as -> ->. exists c. tauto.
Qed.

Lemma followed_pointer f p c : as_edges f !! as_edgeIndex f = Some (Some p, c) -> currentPointer f = Some p.
Proof. unfold currentPointer. by intros ->. Qed.

(** Pushing a child on the stack. *)
Lemma left_enter f rest p c ps a : as_edges f !! as_edgeIndex f = Some (Some p, c) ->
  remaining (removeNullEdges f) rest ps a <-> remaining c (f :: rest) ps a.
Proof.
  intros He. unfold remaining. cbn [elsewhere frame_path]. rewrite (followed_pointer f p c He). setoid_rewrite (followed_acts f p c _ a He). split.
  - intros [(qs & -> & [Hqs|(qs' & -> & Hqs)])|Hps]; [right; left; eauto|left; exists qs'; by rewrite <- app_assoc|by right; right].
  - intros [(qs & -> & Hqs)|[(qs & -> & Hqs)|Hps]]; [left|left|by right].
    + exists (p :: qs). rewrite <- app_assoc. split; [done|]. right. by exists qs.
    + exists qs. split; [done|by left].
Qed.

(** The frame after [leaveChild]. *)
Definition left_child (f : ActiveSubtree) (child : PrefixTreeVertex) (p : nat) : ActiveSubtree :=
  mkActiveSubtree (as_actions f) (<[ as_edgeIndex f := (match edges child with [] => None | _ => Some p end, child) ]> (as_edges f)) (as_nfaNode f) (S (as_edgeIndex f)).

Lemma leaveChild_eq f child p c : as_edges f !! as_edgeIndex f = Some (Some p, c) -> leaveChild f child = Some (left_child f child p).
Proof. intros He. unfold leaveChild. by rewrite He. Qed.

Lemma left_child_kept f child p c : as_edges f !! as_edgeIndex f = Some (Some p, c) ->
  match edges child with
  | [] => removeNullEdges (left_child f child p) = removeNullEdges (without f)
  | _ => exists g, as_edges g !! as_edgeIndex g = Some (Some p, child) /\ removeNullEdges g = removeNullEdges (left_child f child p)
         /\ removeNullEdges (without g) = removeNullEdges (without f)
  end.
Proof.
  intros He. pose proof (lookup_lt_Some _ _ _ He) as Hlt. destruct (edges child) as [|x es] eqn:E.
  - unfold left_child, without, removeNullEdges. rewrite E. cbn [as_actions as_edges]. f_equal. change (kept (<[ as_edgeIndex f := (None, child) ]> (as_edges f)) = kept (<[ as_edgeIndex f := (None, newVertex) ]> (as_edges f))).
    rewrite !(followed_insert f _ _ He), !kept_app. done.
  - exists (mkActiveSubtree (as_actions f) (<[ as_edgeIndex f := (Some p, child) ]> (as_edges f)) (as_nfaNode f) (as_edgeIndex f)).
    unfold left_child, without, removeNullEdges. rewrite E. cbn [as_actions as_edges as_edgeIndex].
    rewrite list_lookup_insert_eq by done. split_and!; [done|done|]. by rewrite list_insert_insert_eq.
Qed.

(** Going back to the parent: nothing is lost but the actions of a child that has become a leaf. *)
Lemma left_leave f rest v p c ps a : as_edges f !! as_edgeIndex f = Some (Some p, c) -> remaining v (f :: rest) ps a ->
  remaining (removeNullEdges (left_child f v p)) rest ps a \/ (edges v = [] /\ ps = frame_path (f :: rest) /\ a ∈ default [] (vertexActions v)).
Proof.
  intros He Hl. pose proof (left_child_kept f v p c He) as Hk. destruct (edges v) as [|x es] eqn:E.
  - rewrite Hk. destruct Hl as [(qs & -> & Hqs)|Hps].
    + right. destruct qs as [|q qs]; [by rewrite app_nil_r, <- tree_acts_nil|]. apply tree_acts_cons in Hqs as (d & Hd & _). rewrite E in Hd. by apply elem_of_nil in Hd.
    + left. exact Hps.
  - left. destruct Hk as (g & Hg & <- & Hw). apply (left_enter g rest p v _ _ Hg). destruct Hl as [(qs & -> & Hqs)|[(qs & -> & Hqs)|Hps]].
    + left. exists qs. cbn [frame_path]. by rewrite (followed_pointer f p c He), (followed_pointer g p v Hg).
    + right. left. exists qs. by rewrite Hw.
    + right. by right.
Qed.

(** A frame with one edge and no actions has nothing beside the edge. *)
Lemma elsewhere_single f rest p c ps a : as_edges f !! as_edgeIndex f = Some (Some p, c) -> length (as_edges f) = 1%nat -> as_actions f = None ->
  elsewhere (f :: rest) ps a -> elsewhere rest ps a.
Proof.
  intros He Hlen Hact [(qs & _ & Hqs)|Hps]; [|done]. exfalso. destruct (as_edges f) as [|x [|? ?]] eqn:E; try done.
  destruct (as_edgeIndex f) as [|i] eqn:Ei; [|by rewrite lookup_cons in He]. destruct qs as [|q qs].
  - apply tree_acts_nil in Hqs. unfold removeNullEdges, without in Hqs. cbn [vertexActions as_actions] in Hqs. rewrite Hact in Hqs. by apply elem_of_nil in Hqs.
  - apply tree_acts_cons in Hqs as (d & Hd & _). unfold removeNullEdges, without in Hd. cbn [edges as_edges] in Hd. rewrite E, Ei in Hd. by apply elem_of_nil in Hd.
Qed.

(** ** Sizes *)

Definition edgesWeight (es : list (nat * PrefixTreeVertex)) : nat := foldr (λ e n, S (vertexWeight e.2) + n)%nat 0%nat es.

Lemma vertexWeight_eq v : vertexWeight v = S (edgesWeight (edges v)).
Proof. by destruct v. Qed.

Lemma edgesWeight_app es es' : edgesWeight (es ++ es') = (edgesWeight es + edgesWeight es')%nat.
Proof. induction es as [|e es IH]; [done|]. cbn [app edgesWeight foldr] in *. fold (edgesWeight (es ++ es')). fold (edgesWeight es). lia. Qed.

(** The size of the tree below the vertex on top. *)
Definition weightBelow (rest : list ActiveSubtree) : nat := foldr (λ f n, S (vertexWeight (removeNullEdges (without f))) + n)%nat 0%nat rest.

Lemma followed_weight f p c : as_edges f !! as_edgeIndex f = Some (Some p, c) ->
  vertexWeight (removeNullEdges f) = (S (vertexWeight c) + vertexWeight (removeNullEdges (without f)))%nat.
Proof.
  intros He. rewrite !vertexWeight_eq, (followed_kept f p c He), (without_kept f _ He), !edgesWeight_app.
  cbn [edgesWeight foldr snd]. fold (edgesWeight (kept (drop (S (as_edgeIndex f)) (as_edges f)))). rewrite (vertexWeight_eq c). lia.
Qed.

Lemma weight_leave f v p c : as_edges f !! as_edgeIndex f = Some (Some p, c) ->
  (vertexWeight (removeNullEdges (left_child f v p)) <= vertexWeight v + S (vertexWeight (removeNullEdges (without f))))%nat
  /\ (edges v = [] -> vertexWeight (removeNullEdges (left_child f v p)) < vertexWeight v + S (vertexWeight (removeNullEdges (without f))))%nat.
Proof.
  intros He. pose proof (left_child_kept f v p c He) as Hk. destruct (edges v) as [|x es].
  - rewrite Hk, (vertexWeight_eq v). split; lia.
  - destruct Hk as (g & Hg & <- & Hw). rewrite (followed_weight g p v Hg), Hw. split; [lia|done].
Qed.

(** ** Iterations *)

(** The iterations for the edges from [i] on and for the end of the frame. *)
Definition todo (f : ActiveSubtree) (i : nat) : nat := S (foldr (λ e n, S (vertexWeight e.2) + n)%nat 0%nat (drop i (as_edges f))).
Definition todoBelow (rest : list ActiveSubtree) : nat := foldr (λ f n, todo f (S (as_edgeIndex f)) + n)%nat 0%nat rest.

Lemma todo_next f e : as_edges f !! as_edgeIndex f = Some e -> todo f (as_edgeIndex f) = (S (vertexWeight e.2) + todo f (S (as_edgeIndex f)))%nat.
Proof. intros He. unfold todo. rewrite (drop_S _ _ _ He). cbn [foldr]. lia. Qed.

Lemma todo_active v b : todo (activeSubtree v b) 0 = vertexWeight v.
Proof.
  rewrite vertexWeight_eq. unfold todo, activeSubtree. cbn [as_edges]. rewrite drop_0. f_equal. induction (edges v) as [|e es IH]; [done|].
  cbn [fmap list_fmap foldr snd edgesWeight]. fold (edgesWeight es). by rewrite IH.
Qed.

Lemma todo_end f i : (length (as_edges f) <= i)%nat -> todo f i = 1%nat.
Proof. intros Hi. unfold todo. by rewrite drop_ge by done. Qed.

Lemma todo_antitone f i j : (i <= j)%nat -> (todo f j <= todo f i)%nat.
Proof.
  intros Hij. replace j with (i + (j - i))%nat by lia. unfold todo. rewrite <- drop_drop. generalize (drop i (as_edges f)). intros es.
  generalize (j - i)%nat. induction es as [|e es IH]; intros k; [by rewrite drop_nil|]. destruct k as [|k]; [done|]. cbn [drop foldr]. specialize (IH k). lia.
Qed.

Lemma todo_left_child f v p : todo (left_child f v p) (S (as_edgeIndex f)) = todo f (S (as_edgeIndex f)).
Proof. unfold todo, left_child. cbn [as_edges]. by rewrite drop_insert_lt by lia. Qed.

(** ** Leaves over terms of fixed length *)

Section Fixed.
Context (alphabet : CombinedFiltersAlphabet).

Inductive pointers_ok (v : PrefixTreeVertex) : Prop :=
  | pointers_ok_intro : (forall p c, (p, c) ∈ edges v -> (p < length alphabet)%nat /\ pointers_ok c) -> pointers_ok v.

Lemma pointers_ok_edge v p c : pointers_ok v -> (p, c) ∈ edges v -> (p < length alphabet)%nat /\ pointers_ok c.
Proof. intros [Hv]. apply Hv. Qed.

Definition fixed_pointer (p : nat) : Prop := exists t, alphabet !! p = Some t /\ hasFixedLength t = true.

Inductive fixed_leaf (v : PrefixTreeVertex) : Prop :=
  | fixed_leaf_here : edges v = [] -> fixed_leaf v
  | fixed_leaf_edge p c : (p, c) ∈ edges v -> fixed_pointer p -> fixed_leaf c -> fixed_leaf v.

(** An edge of the frame from [i] on leads to a leaf. *)
Definition leads (f : ActiveSubtree) (i : nat) : Prop :=
  exists j p c, (i <= j)%nat /\ as_edges f !! j = Some (Some p, c) /\ fixed_pointer p /\ fixed_leaf c.

(** The traversal is going to reach a leaf. *)
Definition pending (top : ActiveSubtree) (rest : list ActiveSubtree) : Prop :=
  as_edges top = [] \/ leads top (as_edgeIndex top) \/ exists f, f ∈ rest /\ leads f (S (as_edgeIndex f)).

Lemma fixed_leaf_leads v b : fixed_leaf v -> as_edges (activeSubtree v b) = [] \/ leads (activeSubtree v b) 0.
Proof.
  intros [Hv|p c Hc Hp Hl]; [left; cbn [activeSubtree as_edges]; by rewrite Hv|]. right. apply list_elem_of_lookup in Hc as [j Hj].
  exists j, p, c. split_and!; [lia| |done|done]. cbn [activeSubtree as_edges]. by rewrite list_lookup_fmap, Hj.
Qed.

Lemma leads_next f i p c : leads f i -> as_edges f !! i = Some (Some p, c) -> leads f (S i) \/ fixed_pointer p /\ fixed_leaf c.
Proof.
  intros (j & q & d & Hj & He & Hq & Hd) Hi. destruct (decide (j = i)) as [->|Hne]; [|left; exists j, q, d; split_and!; [lia|done..]].
  rewrite Hi in He. injection He as -> ->. by right.
Qed.

Lemma pending_enter f rest p c : as_edges f !! as_edgeIndex f = Some (Some p, c) -> pending f rest -> pending (activeSubtree c None) (f :: rest).
Proof.
  intros He [Hn|[Hl|(g & Hg & Hl)]]; [by rewrite Hn in He| |right; right; exists g; split; [by right|done]].
  destruct (leads_next _ _ _ _ Hl He) as [Hl'|[_ Hc]]; [right; right; exists f; split; [by left|done]|].
  destruct (fixed_leaf_leads c None Hc); [by left|right; by left].
Qed.

Lemma pending_leave top f rest v p c : as_edges f !! as_edgeIndex f = Some (Some p, c) -> as_edges top <> [] -> (length (as_edges top) <= as_edgeIndex top)%nat ->
  pending top (f :: rest) -> pending (left_child f v p) rest.
Proof.
  intros He Hne Hend [Hn|[(j & q & d & Hj & Hd & _)|(g & Hg & Hl)]]; [done|apply lookup_lt_Some in Hd; lia|].
  apply elem_of_cons in Hg as [->|Hg]; [|right; right; by exists g]. right. left. destruct Hl as (j & q & d & Hj & Hd & ? & ?).
  exists j, q, d. unfold left_child. cbn [as_edges as_edgeIndex]. rewrite list_lookup_insert_ne by lia. done.
Qed.

Lemma pending_last top : as_edges top <> [] -> (length (as_edges top) <= as_edgeIndex top)%nat -> ~ pending top [].
Proof. intros Hne Hend [Hn|[(j & q & d & Hj & Hd & _)|(g & Hg & _)]]; [done|apply lookup_lt_Some in Hd; lia|by apply elem_of_nil in Hg]. Qed.
End Fixed.

(** ** Frames without their nodes *)

Definition erase (f : ActiveSubtree) : ActiveSubtree := mkActiveSubtree (as_actions f) (as_edges f) None (as_edgeIndex f).

Lemma frame_path_erase rest : frame_path (erase <$> rest) = frame_path rest.
Proof. induction rest as [|f rest IH]; [done|]. rewrite fmap_cons. cbn [frame_path]. by rewrite IH. Qed.

Lemma elsewhere_erase rest ps a : elsewhere (erase <$> rest) ps a <-> elsewhere rest ps a.
Proof.
  induction rest as [|f rest IH]; [done|]. rewrite fmap_cons. cbn [elsewhere]. rewrite IH, frame_path_erase. done.
Qed.

Lemma weightBelow_erase rest : weightBelow (erase <$> rest) = weightBelow rest.
Proof. induction rest as [|f rest IH]; [done|]. rewrite fmap_cons. cbn [weightBelow foldr]. fold (weightBelow (erase <$> rest)). rewrite IH. done. Qed.

Lemma todoBelow_erase rest : todoBelow (erase <$> rest) = todoBelow rest.
Proof. induction rest as [|f rest IH]; [done|]. rewrite fmap_cons. cbn [todoBelow foldr]. fold (todoBelow (erase <$> rest)). rewrite IH. done. Qed.
