(* ===== verification/SubtreeNodes.v ===== *)
(** * The nodes of a traversal of the prefix tree

    The vertices on the stack of [generateNFAForSubtree] that have a node, the
    nodes that are added for the vertices up to one that cannot be shared, and
    the reverse suffix tree. *)

From stdpp Require Import base numbers option list list_numbers gmap sets sorting.
From Stdlib Require Import ZArith Lia.
From S2P Require Import Prelude.
From S2P Require Import NFA.
From S2P Require Import Term.
From S2P Require Import TermProof.
From S2P Require Import TermGraph.
From S2P Require Import CombinedURLFilters.
From S2P Require Import ProcessNFAs.
From S2P Require Import TermAutomaton.
From S2P Require Import SuffixSharing.
From S2P Require Import SubtreeStack.

(** The live builders. *)
Fixpoint builders (stack : list ActiveSubtree) : gmap Z NodeBuilder :=
  match stack with
  | [] => ∅
  | f :: rest => match as_nfaNode f with Some b => <[ m_nodeId b := b ]> (builders rest) | None => builders rest end
  end.

Definition valid (f : ActiveSubtree) : Prop := is_Some (as_nfaNode f).

Section Frames.
Context `{HashOrder} (alphabet : CombinedFiltersAlphabet) (tree : PrefixTreeVertex) (prefix : list nat).

(** The patterns of the frame are in the tree; a frame with a node has its
    actions there, and only such a frame has edges that are to be deleted. *)
Record frame_ok (M : Automaton) (path : list nat) (f : ActiveSubtree) : Prop := {
  fo_pointers : forall p c, (Some p, c) ∈ as_edges f -> (p < length alphabet)%nat /\ pointers_ok alphabet c;
  fo_tree : forall qs a, tree_acts (removeNullEdges f) qs a -> tree_acts tree (prefix ++ path ++ qs) a;
  fo_node : forall b, as_nfaNode f = Some b -> au_forward M !! m_nodeId b = Some (prefix ++ path)
    /\ forall a, a ∈ default [] (as_actions f) -> au_actions M (m_nodeId b) a;
  fo_null : as_nfaNode f = None -> forall c, (None, c) ∉ as_edges f;
  fo_ahead : forall j c, (as_edgeIndex f <= j)%nat -> as_edges f !! j <> Some (None, c)
}.

(** The frames below the top: each follows an edge. *)
Fixpoint frames_ok (M : Automaton) (rest : list ActiveSubtree) : Prop :=
  match rest with
  | [] => True
  | f :: rest => frame_ok M (frame_path rest) f /\ (exists p c, as_edges f !! as_edgeIndex f = Some (Some p, c))
      /\ (rest = [] -> valid f) /\ (valid f -> Forall valid rest) /\ frames_ok M rest
  end.

Lemma frames_ok_cons M f rest p c : frame_ok M (frame_path rest) f -> as_edges f !! as_edgeIndex f = Some (Some p, c) -> (rest = [] -> valid f) ->
  (valid f -> Forall valid rest) -> frames_ok M rest -> frames_ok M (f :: rest).
Proof. intros Hf He H1 H2 Hrest. split; [exact Hf|]. split; [by exists p, c|]. split; [exact H1|]. split; [exact H2|exact Hrest]. Qed.

Lemma frame_ok_mono M M' path f : grows M M' -> frame_ok M path f -> frame_ok M' path f.
Proof.
  intros [_ Ha Hf _] [H1 H2 H3 H4 H5]. split; [done|done| |done|done]. intros b Hb. destruct (H3 b Hb) as [? ?]. split; [by eapply lookup_weaken|auto].
Qed.

Lemma frames_ok_mono M M' rest : grows M M' -> frames_ok M rest -> frames_ok M' rest.
Proof.
  intros HG. induction rest as [|f rest IH]; [done|]. intros (Hf & Hrest). split; [by eapply frame_ok_mono|].
  destruct Hrest as (? & ? & ? & ?). do 3 (split; [assumption|]). by apply IH.
Qed.

(** What the frame says of the actions of its vertex. *)
Lemma frame_actions M path f a : frame_ok M path f -> a ∈ default [] (as_actions f) -> tree_acts tree (prefix ++ path) a.
Proof. intros Hf Ha. rewrite <- (app_nil_r path). apply (fo_tree _ _ _ Hf). by apply tree_acts_nil. Qed.

Lemma frame_path_length rest f p c : as_edges f !! as_edgeIndex f = Some (Some p, c) -> length (frame_path (f :: rest)) = S (length (frame_path rest)).
Proof. intros He. cbn [frame_path]. rewrite (followed_pointer f p c He), length_app. simpl. lia. Qed.

(** The builders of the frames below are those of shorter paths. *)
Lemma builders_lookup M rest n b : frames_ok M rest -> builders rest !! n = Some b ->
  m_nodeId b = n /\ exists path, au_forward M !! n = Some (prefix ++ path) /\ (length path < length (frame_path rest))%nat.
Proof.
  induction rest as [|f rest IH]; intros Hok Hb; [done|]. destruct Hok as (Hf & (p & c & He) & _ & _ & Hrest). rewrite (frame_path_length rest f p c He).
  assert (builders rest !! n = Some b -> m_nodeId b = n /\ exists path, au_forward M !! n = Some (prefix ++ path) /\ (length path < S (length (frame_path rest)))%nat) as Hold.
  { intros Hx. destruct (IH Hrest Hx) as (? & path & ? & ?). split; [done|]. exists path. split; [done|lia]. }
  cbn [builders] in Hb. destruct (as_nfaNode f) as [b'|] eqn:E; [|by apply Hold]. destruct (decide (m_nodeId b' = n)) as [<-|Hne].
  - rewrite lookup_insert_eq in Hb. injection Hb as <-. split; [done|]. exists (frame_path rest). split; [by apply (fo_node _ _ _ Hf)|lia].
  - rewrite lookup_insert_ne in Hb by done. by apply Hold.
Qed.

Lemma builders_fresh M rest f b : frames_ok M rest -> frame_ok M (frame_path rest) f -> as_nfaNode f = Some b -> builders rest !! m_nodeId b = None.
Proof.
  intros Hrest Hf Hb. destruct (builders rest !! m_nodeId b) as [b'|] eqn:E; [|done]. exfalso.
  destruct (builders_lookup M rest _ _ Hrest E) as (_ & path & Hp & Hlen). destruct (fo_node _ _ _ Hf b Hb) as [Hp' _].
  rewrite Hp in Hp'. injection Hp' as Heq. apply app_inv_head in Heq. subst. lia.
Qed.

Lemma followed_ok M path f p c : frame_ok M path f -> as_edges f !! as_edgeIndex f = Some (Some p, c) ->
  exists t, alphabet !! p = Some t /\ currentTerm alphabet f = Some t.
Proof.
  intros Hf He. destruct (fo_pointers _ _ _ Hf p c) as [Hp _]; [by eapply list_elem_of_lookup_2|]. destruct (lookup_lt_is_Some_2 alphabet p Hp) as [t Ht].
  exists t. split; [done|]. unfold currentTerm. by rewrite (followed_pointer f p c He).
Qed.

(** A vertex as a frame of its own. *)
Lemma frame_ok_active M path v b : pointers_ok alphabet v -> (forall qs a, tree_acts v qs a -> tree_acts tree (prefix ++ path ++ qs) a) ->
  (forall b', b = Some b' -> au_forward M !! m_nodeId b' = Some (prefix ++ path) /\ forall a, a ∈ default [] (vertexActions v) -> au_actions M (m_nodeId b') a) ->
  frame_ok M path (activeSubtree v b).
Proof.
  intros Hv Htree Hb. split.
  - intros q d Hq. apply (pointers_ok_edge alphabet v); [done|]. cbn [activeSubtree as_edges] in Hq. apply list_elem_of_fmap in Hq as ([q' d'] & Heq & Hin). by injection Heq as -> ->.
  - intros qs a. rewrite activeSubtree_kept. apply Htree.
  - exact Hb.
  - intros _ d Hd. cbn [activeSubtree as_edges] in Hd. apply list_elem_of_fmap in Hd as (x & Heq & _). done.
  - intros j d _ Hd. cbn [activeSubtree as_edges] in Hd. rewrite list_lookup_fmap in Hd. by destruct (edges v !! j).
Qed.

(** The vertex of the edge that is followed. *)
Lemma frame_ok_enter M rest f p c : frame_ok M (frame_path rest) f -> as_edges f !! as_edgeIndex f = Some (Some p, c) ->
  frame_ok M (frame_path (f :: rest)) (activeSubtree c None).
Proof.
  intros Hf He. destruct (fo_pointers _ _ _ Hf p c) as [_ Hc]; [by eapply list_elem_of_lookup_2|]. cbn [frame_path]. rewrite (followed_pointer f p c He).
  apply frame_ok_active; [done| |done]. intros qs a Hqs. rewrite <- (app_assoc (frame_path rest)). apply (fo_tree _ _ _ Hf).
  apply (followed_acts f p c _ _ He). right. by exists qs.
Qed.

(** The frame after its child [v], the patterns of which are in the tree. *)
Lemma frame_ok_leave M rest f p c v : frame_ok M (frame_path rest) f -> as_edges f !! as_edgeIndex f = Some (Some p, c) -> (edges v = [] -> valid f) ->
  pointers_ok alphabet v -> (forall qs a, tree_acts v qs a -> tree_acts tree (prefix ++ frame_path (f :: rest) ++ qs) a) ->
  frame_ok M (frame_path rest) (left_child f v p).
Proof.
  intros Hf He Hval Hv Htree. pose proof (list_elem_of_lookup_2 _ _ _ He) as Hin. split.
  - intros q d [j Hj]%list_elem_of_lookup_1. cbn [left_child as_edges] in Hj. destruct (decide (j = as_edgeIndex f)) as [->|Hne].
    + rewrite list_lookup_insert_eq in Hj by (by eapply lookup_lt_Some). destruct (edges v); [done|]. injection Hj as -> ->.
      split; [|done]. by apply (fo_pointers _ _ _ Hf q c).
    + rewrite list_lookup_insert_ne in Hj by done. apply (fo_pointers _ _ _ Hf). by eapply list_elem_of_lookup_2.
  - intros qs a Hqs. pose proof (left_child_kept f v p c He) as Hk. destruct (edges v) as [|x es].
    + rewrite Hk in Hqs. apply (fo_tree _ _ _ Hf). apply (followed_acts f p c _ _ He). by left.
    + destruct Hk as (g & Hg & Heq & Hw). rewrite <- Heq in Hqs. apply (followed_acts g p v _ _ Hg) in Hqs as [Hqs|(qs' & -> & Hqs)].
      * rewrite Hw in Hqs. apply (fo_tree _ _ _ Hf). apply (followed_acts f p c _ _ He). by left.
      * apply Htree in Hqs. cbn [frame_path] in Hqs. by rewrite (followed_pointer f p c He), <- (app_assoc (frame_path rest)) in Hqs.
  - apply (fo_node _ _ _ Hf).
  - cbn [left_child as_nfaNode as_edges]. intros Hb d [j Hj]%list_elem_of_lookup_1. destruct (decide (j = as_edgeIndex f)) as [->|Hne].
    + rewrite list_lookup_insert_eq in Hj by (by eapply lookup_lt_Some). destruct (edges v); [|done]. destruct (Hval eq_refl) as [b' Hb']. congruence.
    + rewrite list_lookup_insert_ne in Hj by done. apply (fo_null _ _ _ Hf Hb d). by eapply list_elem_of_lookup_2.
  - cbn [left_child as_edgeIndex as_edges]. intros j d Hj. rewrite list_lookup_insert_ne by lia. apply (fo_ahead _ _ _ Hf). lia.
Qed.

Lemma frame_ok_index M path f i : frame_ok M path f -> (as_edgeIndex f <= i)%nat -> frame_ok M path (with_index f i).
Proof. intros [H1 H2 H3 H4 H5] Hi. split; [exact H1|exact H2|exact H3|exact H4|]. cbn [with_index as_edgeIndex as_edges]. intros j c Hj. apply H5. lia. Qed.

(** The edge at the position of the frame. *)
Lemma frame_next M path f : frame_ok M path f -> (as_edgeIndex f < length (as_edges f))%nat -> exists p c, as_edges f !! as_edgeIndex f = Some (Some p, c).
Proof.
  intros Hf Hlt. destruct (lookup_lt_is_Some_2 _ _ Hlt) as [[[p|] c] He]; [by exists p, c|]. by apply (fo_ahead _ _ _ Hf) in He.
Qed.

Lemma frame_pointers M path f : frame_ok M path f -> pointers_ok alphabet (removeNullEdges f).
Proof. intros Hf. constructor. intros p c Hc. apply (fo_pointers _ _ _ Hf). by apply kept_elem. Qed.

(** The same frame with another node. *)
Lemma frame_ok_node M path f b : frame_ok M path f -> au_forward M !! m_nodeId b = Some (prefix ++ path) ->
  (forall a, a ∈ default [] (as_actions f) -> au_actions M (m_nodeId b) a) -> frame_ok M path (with_nfaNode f b).
Proof. intros [H1 H2 H3 H4 H5] Hb Ha. split; [done|done| |done|done]. intros b' [= <-]. done. Qed.

(** ** The nodes up to a vertex *)

Lemma generateUpTo_spec stack : forall nfa M, stack <> [] -> frames_ok M stack -> growing alphabet tree nfa (builders stack) M ->
  exists nfa' stack' M', generateUpTo alphabet nfa stack = Some (nfa', stack') /\ erase <$> stack' = erase <$> stack
    /\ growing alphabet tree nfa' (builders stack') M' /\ grows M M' /\ frames_ok M' stack' /\ Forall valid stack'.
Proof.
  induction stack as [|f rest IH]; intros nfa M Hne Hok HG; [done|]. cbn [generateUpTo].
  pose proof Hok as (Hf & (p & c & He) & Hbot & Hdown & Hrest). destruct (as_nfaNode f) as [b|] eqn:Eb.
  { exists nfa, (f :: rest), M. do 3 (split; [assumption || reflexivity|]). split; [apply grows_refl|]. split; [assumption|].
    constructor; [by exists b|]. apply Hdown. by exists b. }
  assert (rest <> []) as Hner. { intros Hr. destruct (Hbot Hr) as [x Hx]. congruence. }
  cbn [builders] in HG. rewrite Eb in HG. destruct (IH nfa M Hner Hrest HG) as (nfa1 & rest1 & M1 & -> & Her & HG1 & Hg1 & Hok1 & Hval1).
  cbn [mbind option_bind]. destruct rest1 as [|source rest1]; [by destruct rest|]. apply Forall_cons in Hval1 as [[sb Hsb] Hval1].
  destruct Hok1 as (Hs & (q & d & Hq) & Hsbot & Hsdown & Hrest1). rewrite Hsb. cbn [mbind option_bind].
  destruct (followed_ok M1 _ source q d Hs Hq) as (t & Ht & ->). cbn [mbind option_bind]. destruct (fo_node _ _ _ Hs sb Hsb) as [Hfs Has].
  cbn [builders] in HG1. rewrite Hsb in HG1.
  assert (frame_path rest = frame_path rest1 ++ [q]) as Hpath.
  { rewrite <- (frame_path_erase rest), <- Her, frame_path_erase. cbn [frame_path]. by rewrite (followed_pointer source q d Hq). }
  destruct (growing_newEnd alphabet tree nfa1 _ M1 (m_nodeId sb) sb (prefix ++ frame_path rest1) q t (default [] (as_actions f)) HG1) as (nfa2 & sb' & e & M2 & -> & Hid & Hide & Hfresh & HG2 & Hg2 & _ & Hfe & Hae);
    [by rewrite lookup_insert_eq|done|done|intros a Ha; rewrite <- app_assoc, <- Hpath; by eapply frame_actions|].
  cbn [mbind option_bind]. exists nfa2, (with_nfaNode f e :: with_nfaNode source sb' :: rest1), M2. split; [done|].
  rewrite <- app_assoc, <- Hpath, <- Hide in Hfe. split; [by rewrite !fmap_cons in *; rewrite <- Her|]. split; [|split; [by eapply grows_trans|split]].
  - cbn [builders with_nfaNode as_nfaNode]. rewrite Hide, Hid. by rewrite insert_insert_eq in HG2.
  - assert (frames_ok M2 (with_nfaNode source sb' :: rest1)) as Hok2.
    { eapply frames_ok_cons; [|exact Hq|by eexists|intros _; assumption|by eapply frames_ok_mono]. apply frame_ok_node; [by eapply frame_ok_mono| |].
      - rewrite Hid. by eapply lookup_weaken; [|apply Hg2].
      - intros a Ha. rewrite Hid. by apply Hg2, Has. }
    assert (frame_path (with_nfaNode source sb' :: rest1) = frame_path rest) as Hpath'.
    { rewrite Hpath. cbn [frame_path]. by rewrite (followed_pointer (with_nfaNode source sb') q d Hq). }
    eapply frames_ok_cons; [|exact He|by eexists|intros _; constructor; [by eexists|assumption]|exact Hok2]. rewrite Hpath'.
    apply frame_ok_node; [apply (frame_ok_mono M); [by eapply grows_trans|assumption]|assumption|]. intros a Ha. rewrite Hide. by apply Hae.
  - constructor; [by eexists|]. constructor; [by eexists|done].
Qed.

(** A vertex without a node has nothing to keep but its one edge. *)
Definition shareable (f : ActiveSubtree) : Prop := valid f \/ (as_nfaNode f = None /\ as_actions f = None /\ length (as_edges f) = 1%nat).

Lemma valid_shareable fs : Forall valid fs -> Forall shareable fs.
Proof. intros Hf. eapply Forall_impl; [exact Hf|]. intros f Hv. by left. Qed.

Lemma generateInfix_spec stack : forall nfa M, stack <> [] -> frames_ok M stack -> growing alphabet tree nfa (builders stack) M ->
  exists nfa' stack' M', generateInfixUnsuitableForReverseSuffixTree alphabet nfa stack = Some (nfa', stack') /\ erase <$> stack' = erase <$> stack
    /\ growing alphabet tree nfa' (builders stack') M' /\ grows M M' /\ frames_ok M' stack' /\ Forall shareable stack'.
Proof.
  induction stack as [|f rest IH]; intros nfa M Hne Hok HG; [done|]. cbn [generateInfixUnsuitableForReverseSuffixTree].
  pose proof Hok as (Hf & (p & c & He) & Hbot & Hdown & Hrest). destruct (as_nfaNode f) as [b|] eqn:Eb.
  { exists nfa, (f :: rest), M. do 3 (split; [assumption || reflexivity|]). split; [apply grows_refl|]. split; [assumption|].
    apply valid_shareable. constructor; [by exists b|]. apply Hdown. by exists b. }
  assert (rest <> []) as Hner. { intros Hr. destruct (Hbot Hr) as [x Hx]. congruence. }
  destruct rest as [|g rest]; [done|]. destruct (bool_decide (is_Some (as_actions f)) || negb (length (as_edges f) =? 1)%nat) eqn:Ec.
  { destruct (generateUpTo_spec (f :: g :: rest) nfa M Hne Hok HG) as (nfa' & stack' & M' & ? & ? & ? & ? & ? & ?).
    exists nfa', stack', M'. do 5 (split; [assumption|]). by apply valid_shareable. }
  apply orb_false_iff in Ec as [Ea%bool_decide_eq_false El%negb_false_iff]. apply Nat.eqb_eq in El.
  assert (builders (f :: g :: rest) = builders (g :: rest)) as Hbs by (cbn [builders]; by rewrite Eb). rewrite Hbs in HG.
  destruct (IH nfa M Hner Hrest HG) as (nfa1 & rest1 & M1 & -> & Her & HG1 & Hg1 & Hok1 & Hsh1). cbn [mbind option_bind].
  exists nfa1, (f :: rest1), M1. split; [done|]. split; [by rewrite !fmap_cons, Her|]. split; [cbn [builders]; by rewrite Eb|]. split; [done|]. split.
  - eapply frames_ok_cons; [|exact He| |intros [? ?]; congruence|exact Hok1].
    + rewrite <- (frame_path_erase rest1), Her, frame_path_erase. by eapply frame_ok_mono.
    + intros ->. done.
  - constructor; [|done]. right. split; [done|]. split; [|done]. destruct (as_actions f); [|done]. exfalso. apply Ea. by eexists.
Qed.

(** The vertices up to the first with a node. *)
Lemma takeUngenerated_spec M stack : stack <> [] -> frames_ok M stack ->
  exists pointers skipped source rest, takeUngenerated stack = Some (pointers, source :: rest) /\ stack = skipped ++ source :: rest
    /\ Forall (λ f, as_nfaNode f = None) skipped /\ valid source /\ Forall (λ p, (p < length alphabet)%nat) pointers
    /\ frame_path stack = frame_path (source :: rest) ++ reverse pointers.
Proof.
  induction stack as [|f stack IH]; intros Hne Hok; [done|]. cbn [takeUngenerated]. destruct Hok as (Hf & (p & c & He) & Hbot & _ & Hrest).
  destruct (as_nfaNode f) as [b|] eqn:Eb.
  { exists [], [], f, stack. split_and!; try done; [by exists b|by rewrite app_nil_r]. }
  rewrite (followed_pointer f p c He). cbn [mbind option_bind]. destruct IH as (ps & skipped & source & rest & -> & -> & ? & ? & ? & Hpath).
  - intros ->. destruct (Hbot eq_refl) as [x Hx]. congruence.
  - done.
  - cbn [mbind option_bind]. exists (p :: ps), (f :: skipped), source, rest. split_and!; try done.
    + by constructor.
    + constructor; [|done]. apply (fo_pointers _ _ _ Hf p c). by eapply list_elem_of_lookup_2.
    + change (frame_path (f :: skipped ++ source :: rest)) with (frame_path (skipped ++ source :: rest) ++ match currentPointer f with Some p => [p] | None => [] end).
      rewrite Hpath, (followed_pointer f p c He), reverse_cons. by rewrite app_assoc.
Qed.

Lemma frames_ok_app M fs gs : frames_ok M (fs ++ gs) -> frames_ok M gs.
Proof. induction fs as [|f fs IH]; [done|]. intros (_ & _ & _ & _ & Hrest). by apply IH. Qed.

Lemma builders_skip fs gs : Forall (λ f, as_nfaNode f = None) fs -> builders (fs ++ gs) = builders gs.
Proof. induction 1 as [|f fs Hf _ IH]; [done|]. cbn [app builders]. by rewrite Hf. Qed.

(** ** The reverse suffix tree *)

(** The vertex stands for the suffix, and its children for longer ones. *)
Inductive reverse_ok (M : Automaton) (v : ReverseSuffixTreeVertex) (suffix : list nat) (acts : list Z) : Prop :=
  | reverse_ok_intro : au_reverse M !! rs_nodeId v = Some (suffix, acts) ->
      (forall p c, (p, c) ∈ rs_edges v -> reverse_ok M c (p :: suffix) acts) -> reverse_ok M v suffix acts.

Lemma reverse_ok_mono M M' v suffix acts : grows M M' -> reverse_ok M v suffix acts -> reverse_ok M' v suffix acts.
Proof.
  intros HG. revert v suffix acts. fix IH 4. intros v suffix acts [Hv He]. split; [eapply lookup_weaken; [exact Hv|apply HG]|].
  intros p c Hc. apply IH. by apply He.
Qed.

Lemma extendSuffix_spec bs pointers : Forall (λ p, (p < length alphabet)%nat) pointers -> forall nfa M v suffix acts,
  growing alphabet tree nfa bs M -> reverse_ok M v suffix acts ->
  exists nfa' v' d M', extendSuffix alphabet pointers nfa v = Some (nfa', v', d) /\ growing alphabet tree nfa' bs M' /\ grows M M'
    /\ reverse_ok M' v' suffix acts /\ au_reverse M' !! d = Some (reverse pointers ++ suffix, acts).
Proof.
  induction 1 as [|p pointers Hp _ IH]; intros nfa M v suffix acts HG Hv; cbn [extendSuffix].
  { exists nfa, v, (rs_nodeId v), M. do 2 (split; [done|]). split; [apply grows_refl|]. split; [done|]. by destruct Hv. }
  pose proof Hv as [Hid He]. destruct (findIndex _ (rs_edges v)) as [i|] eqn:Ei.
  - apply findIndex_Some in Ei as ([q c] & Hi & Hq%Nat.eqb_eq). cbn [fst] in Hq. subst q. rewrite Hi. cbn [mbind option_bind fst snd].
    destruct (IH nfa M c (p :: suffix) acts HG) as (nfa' & c' & d & M' & -> & HG' & Hg & Hc' & Hd); [apply He; by eapply list_elem_of_lookup_2|].
    cbn [mbind option_bind]. eexists nfa', _, d, M'. split; [reflexivity|]. do 2 (split; [done|]). split; [|by rewrite reverse_cons, <- app_assoc].
    split; [cbn [rs_nodeId]; eapply lookup_weaken; [exact Hid|apply Hg]|]. cbn [rs_edges]. intros q x [j Hj]%list_elem_of_lookup_1.
    destruct (decide (j = i)) as [->|Hne].
    + rewrite list_lookup_insert_eq in Hj by (by eapply lookup_lt_Some). by injection Hj as <- <-.
    + rewrite list_lookup_insert_ne in Hj by done. apply (reverse_ok_mono M); [done|]. apply He. by eapply list_elem_of_lookup_2.
  - destruct (lookup_lt_is_Some_2 alphabet p Hp) as [t Ht]. rewrite Ht. cbn [mbind option_bind].
    destruct (growing_suffix alphabet tree nfa bs M (rs_nodeId v) suffix acts p t HG Hid Ht) as (nfa1 & b & nfa2 & b' & nfa3 & M1 & -> & -> & Hfin & Hidb & HG1 & Hg1 & _ & Hr).
    cbn [mbind option_bind]. rewrite Hfin. cbn [mbind option_bind]. rewrite <- Hidb in Hr.
    destruct (IH nfa3 M1 (mkReverseVertex (m_nodeId b') []) (p :: suffix) acts HG1) as (nfa' & c' & d & M' & -> & HG' & Hg & Hc' & Hd).
    { split; [done|]. intros ? ? Hx. by apply elem_of_nil in Hx. }
    cbn [mbind option_bind]. eexists nfa', _, d, M'. split; [reflexivity|]. split; [done|]. assert (grows M M') as Hg2 by (by eapply grows_trans).
    split; [done|]. split; [|by rewrite reverse_cons, <- app_assoc].
    split; [cbn [rs_nodeId]; eapply lookup_weaken; [exact Hid|apply Hg2]|]. cbn [rs_edges]. intros q x [Hx|Hx]%elem_of_app.
    + apply (reverse_ok_mono M); [done|]. by apply He.
    + apply list_elem_of_singleton in Hx. by injection Hx as -> ->.
Qed.

(** The roots are found by their sorted actions. *)
Definition roots_ok (M : Automaton) (roots : ReverseSuffixTreeRoots) : Prop :=
  forall key v, roots !! key = Some v -> exists acts, reverse_ok M v [] acts /\ key = hashableActionList acts.

Lemma roots_ok_mono M M' roots : grows M M' -> roots_ok M roots -> roots_ok M' roots.
Proof. intros HG Hr key v Hv. destruct (Hr key v Hv) as (acts & ? & ?). exists acts. split; [by eapply reverse_ok_mono|done]. Qed.

Lemma hashableActionList_elem acts acts' a : hashableActionList acts = hashableActionList acts' -> a ∈ acts <-> a ∈ acts'.
Proof.
  unfold hashableActionList. intros Heq. rewrite <- (merge_sort_Permutation Z.le acts), Heq. by rewrite (merge_sort_Permutation Z.le acts').
Qed.

Lemma reverseSuffixTreeRoot_spec nfa bs M roots acts : growing alphabet tree nfa bs M -> roots_ok M roots -> (forall a, a ∈ acts -> exists ps, tree_acts tree ps a) ->
  exists nfa' root M' acts', reverseSuffixTreeRoot nfa acts roots = Some (nfa', root) /\ growing alphabet tree nfa' bs M' /\ grows M M'
    /\ reverse_ok M' root [] acts' /\ hashableActionList acts = hashableActionList acts'.
Proof.
  intros HG Hr Hin. unfold reverseSuffixTreeRoot. destruct (roots !! hashableActionList acts) as [root|] eqn:E.
  - destruct (Hr _ _ E) as (acts' & Hok & Hkey). exists nfa, root, M, acts'. do 2 (split; [done|]). split; [apply grows_refl|done].
  - destruct (growing_root alphabet tree nfa bs M acts HG Hin) as (nfa1 & b & nfa' & M' & -> & -> & Hid & HG' & Hg & _ & Hrev). cbn [mbind option_bind].
    eexists nfa', _, M', acts. split; [reflexivity|]. do 2 (split; [done|]). split; [|done]. split; [cbn [rs_nodeId]; by rewrite Hid|].
    intros p c Hc. by apply elem_of_nil in Hc.
Qed.

(** The leaf is connected to the last vertex with a node. *)
Lemma generateSuffix_spec nfa M leaf stack roots : stack <> [] -> frames_ok M stack -> growing alphabet tree nfa (builders stack) M -> roots_ok M roots ->
  (forall a, a ∈ default [] (as_actions leaf) -> tree_acts tree (prefix ++ frame_path stack) a) ->
  exists nfa' source rest roots' M' skipped source', generateSuffixWithReverseSuffixTree alphabet nfa leaf stack roots = Some (nfa', source' :: rest, roots')
    /\ stack = skipped ++ source :: rest /\ Forall (λ f, as_nfaNode f = None) skipped /\ erase source' = erase source /\ valid source'
    /\ growing alphabet tree nfa' (builders (source' :: rest)) M' /\ grows M M' /\ frames_ok M' (source' :: rest) /\ roots_ok M' roots'
    /\ forall a, a ∈ default [] (as_actions leaf) -> accepted alphabet (au_edges M') (au_actions M') (prefix ++ frame_path stack) a.
Proof.
  intros Hne Hok HG Hroots Hacts. set (acts := default [] (as_actions leaf)) in *. unfold generateSuffixWithReverseSuffixTree. fold acts. cbv zeta.
  destruct (reverseSuffixTreeRoot_spec nfa _ M roots acts HG Hroots) as (nfa1 & root & M1 & acts' & -> & HG1 & Hg1 & Hrev & Hkey); [eauto|]. cbn [mbind option_bind].
  destruct (takeUngenerated_spec M stack Hne Hok) as (ps & skipped & source & rest & -> & -> & Hskip & [sb Hsb] & Hps & Hpath). cbn [mbind option_bind].
  rewrite (builders_skip _ _ Hskip) in HG1. apply frames_ok_app in Hok as Hok'. apply (frames_ok_mono M M1 _ Hg1) in Hok'.
  destruct (extendSuffix_spec _ ps Hps nfa1 M1 root [] acts' HG1 Hrev) as (nfa2 & root' & d & M2 & -> & HG2 & Hg2 & Hrev' & Hd). cbn [mbind option_bind].
  apply (frames_ok_mono M1 M2 _ Hg2) in Hok'. destruct Hok' as (Hs & (q & c & Hq) & Hbot & Hdown & Hrest). rewrite Hsb. cbn [mbind option_bind].
  destruct (followed_ok M2 _ source q c Hs Hq) as (t & Ht & ->). cbn [mbind option_bind]. destruct (fo_node _ _ _ Hs sb Hsb) as [Hfs Has].
  rewrite app_nil_r in Hd. cbn [frame_path] in Hpath. rewrite (followed_pointer source q c Hq), <- app_assoc in Hpath. cbn [app] in Hpath.
  assert (prefix ++ frame_path (skipped ++ source :: rest) = (prefix ++ frame_path rest) ++ q :: reverse ps) as Hfull by (by rewrite Hpath, app_assoc).
  cbn [builders] in HG2. rewrite Hsb in HG2.
  destruct (growing_link alphabet tree nfa2 _ M2 (m_nodeId sb) sb (prefix ++ frame_path rest) q t d (reverse ps) acts' HG2) as (nfa3 & sb' & M3 & -> & Hid & HG3 & Hg3 & _ & Hacc);
    [by rewrite lookup_insert_eq|done|done|done|intros a Ha; rewrite <- Hfull; apply Hacts; by apply (hashableActionList_elem _ _ a Hkey)|].
  cbn [mbind option_bind]. eexists nfa3, source, rest, _, M3, skipped, (with_nfaNode source sb'). split; [reflexivity|]. do 3 (split; [done|]). split; [by eexists|].
  assert (grows M M3) as Hg by (eapply grows_trans; [exact Hg1|]; by eapply grows_trans). split; [|split; [done|split; [|split]]].
  - cbn [builders with_nfaNode as_nfaNode]. rewrite Hid. by rewrite insert_insert_eq in HG3.
  - eapply frames_ok_cons; [|exact Hq|by eexists|intros _; apply Hdown; by eexists|by apply (frames_ok_mono M2)].
    apply frame_ok_node; [by apply (frame_ok_mono M2)|rewrite Hid; by eapply lookup_weaken; [|apply Hg3]|]. intros a Ha. rewrite Hid. by apply Hg3, Has.
  - intros key v Hv. destruct (decide (key = hashableActionList acts)) as [->|Hnk].
    + rewrite lookup_insert_eq in Hv. injection Hv as <-. exists acts'. split; [by apply (reverse_ok_mono M2)|done].
    + rewrite lookup_insert_ne in Hv by done. by apply (roots_ok_mono M M3 roots Hg Hroots).
  - intros a Ha. rewrite Hfull. apply Hacc. by apply (hashableActionList_elem _ _ a Hkey).
Qed.
End Frames.
