(* ===== verification/SubtreeProof.v ===== *)
(** * The traversal of a subtree

    [generateNFAForSubtree] ends; every pattern of the subtree is in the automaton
    or left in the tree, the automaton has only patterns of the tree, and the tree
    gets smaller. *)

From stdpp Require Import base numbers option list list_numbers gmap sets sorting.
From Stdlib Require Import ZArith Lia.
From S2P Require Import Prelude.
From S2P Require Import NFA.
From S2P Require Import Term.
From S2P Require Import CombinedURLFilters.
From S2P Require Import ProcessNFAs.
From S2P Require Import TermAutomaton.
From S2P Require Import SuffixSharing.
From S2P Require Import SubtreeStack.
From S2P Require Import SubtreeNodes.

Section Subtree.
Context `{HashOrder} (alphabet : CombinedFiltersAlphabet) (tree : PrefixTreeVertex) (prefix : list nat) (root : PrefixTreeVertex) (maxNFASize : Z).

Definition in_automaton (M : Automaton) (ps : list nat) (a : Z) : Prop := accepted alphabet (au_edges M) (au_actions M) (prefix ++ ps) a.

Lemma in_automaton_grows M M' ps a : grows M M' -> in_automaton M ps a -> in_automaton M' ps a.
Proof. apply grows_accepted. Qed.

Definition total (top : ActiveSubtree) (rest : list ActiveSubtree) : nat := (vertexWeight (removeNullEdges top) + weightBelow rest)%nat.
Definition iterations (top : ActiveSubtree) (rest : list ActiveSubtree) : nat := (todo top (as_edgeIndex top) + todoBelow rest)%nat.

(** The frames and their nodes. *)
Record stack_ok (nfa : NFA) (roots : ReverseSuffixTreeRoots) (top : ActiveSubtree) (rest : list ActiveSubtree) (M : Automaton) : Prop := {
  so_growing : growing alphabet tree nfa (builders (top :: rest)) M;
  so_roots : roots_ok M roots;
  so_top : frame_ok alphabet tree prefix M (frame_path rest) top;
  so_rest : frames_ok alphabet tree prefix M rest;
  so_bottom : rest = [] -> valid top /\ as_edges top <> [];
  so_down : valid top -> Forall valid rest;
  so_leaf : as_edges top = [] -> as_nfaNode top = None
}.

(** Nothing is lost, and the tree gets smaller at the latest at the next leaf. *)
Record loop_inv (st : SubtreeState) (top : ActiveSubtree) (rest : list ActiveSubtree) (M : Automaton) : Prop := {
  li_stack : ss_stack st = top :: rest;
  li_ok : stack_ok (ss_nfa st) (ss_roots st) top rest M;
  li_complete : forall ps a, tree_acts root ps a -> in_automaton M ps a \/ remaining (removeNullEdges top) rest ps a;
  li_weight : (total top rest < vertexWeight root)%nat \/ (total top rest <= vertexWeight root)%nat /\ nfaTooBig st = false /\ pending alphabet top rest
}.

(** What the loop returns. *)
Record subtree_done (nfa : NFA) (v : PrefixTreeVertex) (M : Automaton) : Prop := {
  sd_growing : growing alphabet tree nfa ∅ M;
  sd_pointers : pointers_ok alphabet v;
  sd_tree : forall qs a, tree_acts v qs a -> tree_acts tree (prefix ++ qs) a;
  sd_complete : forall ps a, tree_acts root ps a -> in_automaton M ps a \/ tree_acts v ps a;
  sd_weight : (vertexWeight v < vertexWeight root)%nat
}.

(** What an iteration is to show. *)
Definition step_ok (top : ActiveSubtree) (rest : list ActiveSubtree) (M : Automaton) (next : SubtreeState + NFA * PrefixTreeVertex) : Prop :=
  match next with
  | inl st => exists top' rest' M', loop_inv st top' rest' M' /\ grows M M' /\ (iterations top' rest' < iterations top rest)%nat
  | inr (nfa, v) => exists M', subtree_done nfa v M' /\ grows M M'
  end.

Lemma removeNullEdges_index f i : removeNullEdges (with_index f i) = removeNullEdges f.
Proof. done. Qed.

(** ** Edges that are passed over *)

Lemma step_skip st st' top rest M i : loop_inv st top rest M -> (as_edgeIndex top < i)%nat -> (as_edgeIndex top < length (as_edges top))%nat ->
  st' = mkSubtreeState (ss_nfa st) (ss_roots st) (with_index top i :: rest) (nfaTooBig st) ->
  (nfaTooBig st = false -> leads alphabet top (as_edgeIndex top) -> leads alphabet top i) ->
  step_ok top rest M (inl st').
Proof.
  intros [Hst Hok Hc Hw] Hi Hlt -> Hlead. destruct Hok as [H1 H2 H3 H4 H5 H6 H7]. exists (with_index top i), rest, M. split; [|split; [apply grows_refl|]].
  - split; cbn [ss_stack ss_nfa ss_roots nfaTooBig]; [done| |done|].
    + split; [exact H1|exact H2| |exact H4|exact H5|exact H6|exact H7]. apply frame_ok_index; [done|lia].
    + destruct Hw as [Hw|(Hw & Hbig & Hp)]; [by left|]. right. do 2 (split; [done|]). destruct Hp as [Hp|[Hp|Hp]]; [by left|right; left; by apply Hlead|by right; right].
  - destruct (lookup_lt_is_Some_2 _ _ Hlt) as [e He]. unfold iterations. cbn [with_index as_edgeIndex]. pose proof (todo_antitone top (S (as_edgeIndex top)) i ltac:(lia)) as Hle.
    rewrite (todo_next top e He). change (todo (with_index top i) i) with (todo top i). lia.
Qed.

(** ** Into a child *)

Lemma step_enter st st' top rest M p c : loop_inv st top rest M -> as_edges top !! as_edgeIndex top = Some (Some p, c) ->
  st' = mkSubtreeState (ss_nfa st) (ss_roots st) (activeSubtree c None :: top :: rest) (nfaTooBig st) ->
  step_ok top rest M (inl st').
Proof.
  intros [Hst Hok Hc Hw] He ->. destruct Hok as [H1 H2 H3 H4 H5 H6 H7]. exists (activeSubtree c None), (top :: rest), M. split; [|split; [apply grows_refl|]].
  - split; cbn [ss_stack ss_nfa ss_roots nfaTooBig]; [done| | |].
    + split; [exact H1|exact H2|by apply (frame_ok_enter alphabet tree prefix M rest top p c)| |done|by intros [? ?]|done].
      eapply frames_ok_cons; [exact H3|exact He|intros Hr; by apply H5|exact H6|exact H4].
    + intros ps a Hps. rewrite activeSubtree_kept. destruct (Hc ps a Hps) as [?|Hl]; [by left|]. right. by apply (left_enter top rest p c).
    + assert (total (activeSubtree c None) (top :: rest) = total top rest) as ->.
      { unfold total. rewrite activeSubtree_kept, (followed_weight top p c He). cbn [weightBelow foldr]. fold (weightBelow rest). lia. }
      destruct Hw as [Hw|(Hw & Hbig & Hp)]; [by left|]. right. do 2 (split; [done|]). by eapply pending_enter.
  - unfold iterations. cbn [activeSubtree as_edgeIndex todoBelow foldr]. fold (todoBelow rest). change (todo (mkActiveSubtree _ _ _ 0) 0) with (todo (activeSubtree c None) 0).
    rewrite todo_active, (todo_next top _ He). cbn [snd]. lia.
Qed.

(** ** Out of a vertex *)

(** A frame that has lost all its edges has a node, with the actions of its vertex. *)
Lemma emptied_frame M path f : frame_ok alphabet tree prefix M path f -> as_edges f <> [] -> edges (removeNullEdges f) = [] -> valid f.
Proof.
  intros Hf Hne Hk. destruct (as_nfaNode f) as [b|] eqn:Eb; [by exists b|]. exfalso. destruct (as_edges f) as [|[[p|] c] es] eqn:E; [done| |].
  - assert ((p, c) ∈ edges (removeNullEdges f)) as Hin by (apply kept_elem; rewrite E; left). rewrite Hk in Hin. by apply elem_of_nil in Hin.
  - apply (fo_null _ _ _ _ _ _ Hf Eb c). rewrite E. left.
Qed.

Lemma left_child_nonempty f v p c : as_edges f !! as_edgeIndex f = Some (Some p, c) -> as_edges (left_child f v p) <> [].
Proof.
  intros He Hn. cbn [left_child as_edges] in Hn. apply (f_equal length) in Hn. rewrite length_insert in Hn. apply lookup_lt_Some in He. simpl in Hn. lia.
Qed.

Lemma step_leave st top f rest M : loop_inv st top (f :: rest) M -> as_edges top <> [] -> (length (as_edges top) <= as_edgeIndex top)%nat ->
  exists nfa f', destroyBuilder (as_nfaNode top) (ss_nfa st) = Some nfa /\ leaveChild f (removeNullEdges top) = Some f'
    /\ step_ok top (f :: rest) M (inl (mkSubtreeState nfa (ss_roots st) (f' :: rest) (nfaTooBig st))).
Proof.
  intros [Hst Hok Hc Hw] Hne Hend. destruct Hok as [H1 H2 H3 H4 _ H6 _]. pose proof H4 as (Hf & (p & c & He) & Hbot & Hdown & Hrest).
  assert (exists nfa, destroyBuilder (as_nfaNode top) (ss_nfa st) = Some nfa /\ growing alphabet tree nfa (builders (f :: rest)) M) as (nfa & Hnfa & HG).
  { cbn [builders] in H1. destruct (as_nfaNode top) as [b|] eqn:Eb; [|by eexists].
    destruct (growing_finalize alphabet tree (ss_nfa st) _ M (m_nodeId b) b H1 (lookup_insert_eq _ _ _)) as (nfa & ? & _ & HG). exists nfa. split; [done|].
    rewrite delete_insert_eq, delete_id in HG by (by eapply (builders_fresh alphabet tree prefix M (f :: rest) top b)). exact HG. }
  set (v := removeNullEdges top) in *. exists nfa, (left_child f v p). split; [done|]. split; [by eapply leaveChild_eq|].
  assert (edges v = [] -> valid top) as Hval by (by eapply emptied_frame).
  exists (left_child f v p), rest, M. split; [|split; [apply grows_refl|]].
  - split; cbn [ss_stack ss_nfa ss_roots nfaTooBig]; [done| | |].
    + assert (as_edges (left_child f v p) <> []) as Hnf by (by eapply left_child_nonempty). split; [exact HG|exact H2| |exact Hrest| |exact Hdown|done].
      * eapply frame_ok_leave; [exact Hf|exact He| |by eapply frame_pointers|apply H3]. intros Hv. specialize (H6 (Hval Hv)). by apply Forall_cons in H6 as [? _].
      * intros Hr. split; [by apply Hbot|done].
    + intros ps a Hps. destruct (Hc ps a Hps) as [?|Hl]; [by left|]. destruct (left_leave f rest v p c ps a He Hl) as [?|(Hv & -> & Ha)]; [by right|]. left.
      destruct (Hval Hv) as [b Hb]. destruct (fo_node _ _ _ _ _ _ H3 b Hb) as [Hpath Hacts]. apply (typed_accepted alphabet tree _ _ _ _ (gr_typed _ _ _ _ _ H1) (m_nodeId b)); [done|].
      by apply Hacts.
    + destruct (weight_leave f v p c He) as [Hle _]. unfold total in *. cbn [weightBelow foldr] in Hw. fold (weightBelow rest) in Hw. fold v in Hw.
      destruct Hw as [Hw|(Hw & Hbig & Hp)]; [left; lia|]. right. split; [lia|]. split; [done|]. by eapply pending_leave.
  - unfold iterations. cbn [left_child as_edgeIndex todoBelow foldr]. fold (todoBelow rest). change (todo (mkActiveSubtree _ _ _ _) _) with (todo (left_child f v p) (S (as_edgeIndex f))).
    rewrite todo_left_child. unfold todo at 2. lia.
Qed.

(** The end of the traversal. *)
Lemma step_last st top M : loop_inv st top [] M -> (length (as_edges top) <= as_edgeIndex top)%nat ->
  exists nfa, destroyBuilder (as_nfaNode top) (ss_nfa st) = Some nfa /\ step_ok top [] M (inr (nfa, removeNullEdges top)).
Proof.
  intros [Hst Hok Hc Hw] Hend. destruct Hok as [H1 H2 H3 H4 H5 H6 H7]. destruct (H5 eq_refl) as [[b Hb] Hne].
  cbn [builders] in H1. rewrite Hb in H1. destruct (growing_finalize alphabet tree (ss_nfa st) _ M (m_nodeId b) b H1 (lookup_insert_eq _ _ _)) as (nfa & Hfin & _ & HG).
  exists nfa. rewrite Hb. split; [done|]. rewrite delete_insert_eq, delete_empty in HG. exists M. split; [|apply grows_refl]. split.
  - done.
  - by eapply frame_pointers.
  - intros qs a Hqs. apply (fo_tree _ _ _ _ _ _ H3) in Hqs. exact Hqs.
  - intros ps a Hps. destruct (Hc ps a Hps) as [?|[(qs & -> & Hqs)|[]]]; [by left|by right].
  - unfold total in Hw. cbn [weightBelow foldr] in Hw. destruct Hw as [Hw|(_ & _ & Hp)]; [lia|]. by apply pending_last in Hp.
Qed.

(** ** At a leaf *)

Lemma elsewhere_skip M skipped rest ps a : frames_ok alphabet tree prefix M (skipped ++ rest) -> Forall shareable (skipped ++ rest) ->
  Forall (λ f, as_nfaNode f = None) skipped -> elsewhere (skipped ++ rest) ps a -> elsewhere rest ps a.
Proof.
  intros Hok Hsh Hskip. revert Hok Hsh. induction Hskip as [|f skipped Hf _ IH]; [done|]. intros (_ & (p & c & He) & _ & _ & Hok) [Hs Hsh]%Forall_cons Hps.
  apply IH; [done|done|]. destruct Hs as [[b Hb]|(_ & Ha & Hl)]; [congruence|]. by eapply elsewhere_single.
Qed.

Lemma sum_app_le {A} (w : A -> nat) (xs ys : list A) : (foldr (λ x n, w x + n) 0 ys <= foldr (λ x n, w x + n) 0 (xs ++ ys))%nat.
Proof. induction xs as [|x xs IH]; [done|]. simpl. lia. Qed.

(** Back in the vertex that the leaf was connected to. *)
Lemma leaf_left rest rest1 skipped source source' rest2 M q c acts :
  erase <$> rest1 = erase <$> rest -> rest1 = skipped ++ source :: rest2 -> frames_ok alphabet tree prefix M rest1 -> Forall shareable rest1 ->
  Forall (λ f, as_nfaNode f = None) skipped -> erase source' = erase source -> as_edges source' !! as_edgeIndex source' = Some (Some q, c) ->
  let top' := left_child source' (mkVertex acts []) q in
  (forall ps a, elsewhere rest ps a -> remaining (removeNullEdges top') rest2 ps a)
  /\ (total top' rest2 < S (weightBelow rest))%nat /\ (iterations top' rest2 <= todoBelow rest)%nat.
Proof.
  intros Her -> Hok Hsh Hskip Hes Hq top'. pose proof (left_child_kept source' (mkVertex acts []) q c Hq) as Hk. cbn [edges] in Hk. fold top' in Hk.
  assert (forall ps a, elsewhere (source :: rest2) ps a <-> elsewhere (source' :: rest2) ps a) as Hsame.
  { intros ps a. rewrite <- (elsewhere_erase (source :: rest2)), <- (elsewhere_erase (source' :: rest2)). by rewrite !fmap_cons, Hes. }
  split_and!.
  - intros ps a Hps. rewrite <- elsewhere_erase, <- Her, elsewhere_erase in Hps. apply (elsewhere_skip M) in Hps; [|done..]. apply Hsame in Hps.
    unfold remaining. rewrite Hk. exact Hps.
  - rewrite <- (weightBelow_erase rest), <- Her, weightBelow_erase. unfold total, weightBelow. rewrite Hk.
    pose proof (sum_app_le (λ f, S (vertexWeight (removeNullEdges (without f)))) skipped (source :: rest2)) as Hle. cbn [foldr] in Hle.
    assert (removeNullEdges (without source') = removeNullEdges (without source)) as ->.
    { change (removeNullEdges (without (erase source')) = removeNullEdges (without (erase source))). by rewrite Hes. }
    lia.
  - rewrite <- (todoBelow_erase rest), <- Her, todoBelow_erase. unfold iterations, todoBelow.
    pose proof (sum_app_le (λ f, todo f (S (as_edgeIndex f))) skipped (source :: rest2)) as Hle. cbn [foldr] in Hle.
    change (as_edgeIndex top') with (S (as_edgeIndex source')). unfold top'. rewrite todo_left_child.
    assert (todo source' (S (as_edgeIndex source')) = todo source (S (as_edgeIndex source))) as ->.
    { change (todo (erase source') (S (as_edgeIndex (erase source'))) = todo (erase source) (S (as_edgeIndex (erase source)))). by rewrite Hes. }
    lia.
Qed.

Lemma step_leaf st top rest M : loop_inv st top rest M -> as_edges top = [] ->
  exists next, subtreeStep alphabet maxNFASize st top rest = Some next /\ step_ok top rest M next.
Proof.
  intros [Hst Hok Hc Hw] Hleaf. destruct Hok as [H1 H2 H3 H4 H5 H6 H7]. assert (rest <> []) as Hne by (intros Hr; by apply H5 in Hr as [_ ?]).
  unfold subtreeStep. rewrite Hleaf. cbn [length]. rewrite (proj2 (Nat.ltb_ge _ _) (Nat.le_0_l _)). cbn [builders] in H1. rewrite (H7 Hleaf) in H1.
  destruct (generateInfix_spec alphabet tree prefix rest (ss_nfa st) M Hne H4 H1) as (nfa1 & rest1 & M1 & -> & Her & HG1 & Hg1 & Hok1 & Hsh). cbn [mbind option_bind].
  assert (rest1 <> []) as Hne1 by (intros ->; by destruct rest).
  assert (frame_path rest1 = frame_path rest) as Hpath by (by rewrite <- (frame_path_erase rest1), Her, frame_path_erase).
  destruct (generateSuffix_spec alphabet tree prefix nfa1 M1 top rest1 (ss_roots st) Hne1 Hok1 HG1) as (nfa2 & source & rest2 & roots & M2 & skipped & source' & -> & Hsplit & Hskip & Hes & [sb Hsb] & HG2 & Hg2 & Hok2 & Hroots & Hacc);
    [by eapply roots_ok_mono|intros a Ha; rewrite Hpath; by eapply frame_actions|]. cbn [mbind option_bind].
  destruct Hok2 as (Hs & (q & c & Hq) & Hbot & Hdown & Hrest). rewrite Hq. cbn [mbind option_bind snd]. rewrite (leaveChild_eq source' _ q c Hq). cbn [mbind option_bind].
  eexists. split; [reflexivity|]. set (v := mkVertex (vertexActions c) []). assert (grows M M2) as Hg by (by eapply grows_trans).
  destruct (leaf_left rest rest1 skipped source source' rest2 M1 q c (vertexActions c) Her Hsplit Hok1 Hsh Hskip Hes Hq) as (Hleft & Hweight & Hiter). fold v in Hleft, Hweight, Hiter.
  exists (left_child source' v q), rest2, M2. split; [|split; [done|]].
  - split; cbn [ss_stack ss_nfa ss_roots nfaTooBig]; [done| | |].
    + pose proof (left_child_nonempty source' v q c Hq). split; [exact HG2|exact Hroots| |exact Hrest|intros Hr; split; [by exists sb|done]|exact Hdown|done].
      eapply frame_ok_leave; [exact Hs|exact Hq|intros _; by exists sb| |].
      * constructor. intros ? ? Hx. by apply elem_of_nil in Hx.
      * intros qs a Hqs. destruct qs as [|x qs]; [|apply tree_acts_cons in Hqs as (? & Hx & _); by apply elem_of_nil in Hx].
        cbn [frame_path]. rewrite (followed_pointer source' q c Hq), app_nil_r. apply (fo_tree _ _ _ _ _ _ Hs). apply (followed_acts source' q c _ _ Hq). right.
        exists []. split; [done|]. apply tree_acts_nil. by apply tree_acts_nil in Hqs.
    + intros ps a Hps. destruct (Hc ps a Hps) as [?|[(qs & -> & Hqs)|Hl]]; [left; by eapply in_automaton_grows| |right; by apply Hleft]. left.
      destruct qs as [|x qs]; [|apply tree_acts_cons in Hqs as (d & Hx & _); unfold removeNullEdges in Hx; cbn [edges] in Hx; rewrite Hleaf in Hx; by apply elem_of_nil in Hx].
      unfold in_automaton. rewrite app_nil_r, <- Hpath. apply Hacc. by apply tree_acts_nil in Hqs.
    + left. unfold total in *. rewrite (vertexWeight_eq (removeNullEdges top)) in Hw. lia.
  - unfold iterations in *. unfold todo at 2. lia.
Qed.

(** ** The loop *)

Lemma subtreeStep_spec st top rest M : loop_inv st top rest M -> exists next, subtreeStep alphabet maxNFASize st top rest = Some next /\ step_ok top rest M next.
Proof.
  intros HI. destruct (as_edges top) as [|x es] eqn:E; [by apply step_leaf|]. assert (as_edges top <> []) as Hne by (by rewrite E). clear x es E.
  pose proof (so_top _ _ _ _ _ (li_ok _ _ _ _ HI)) as Htop. unfold subtreeStep. destruct (as_edgeIndex top <? length (as_edges top))%nat eqn:Elt.
  - apply Nat.ltb_lt in Elt. destruct (frame_next _ _ _ _ _ _ Htop Elt) as (p & c & He). rewrite He. cbn [mbind option_bind snd].
    destruct (nfaTooBig st) eqn:Ebig.
    { eexists. split; [reflexivity|]. eapply step_skip; [exact HI|exact Elt|exact Elt|by rewrite Ebig|]. by rewrite Ebig. }
    destruct (followed_ok alphabet tree prefix M _ top p c Htop He) as (t & Ht & ->). cbn [mbind option_bind].
    destruct (hasFixedLength t) eqn:Efix; cbn [negb].
    + eexists. split; [reflexivity|]. eapply step_enter; [exact HI|exact He|by rewrite Ebig].
    + eexists. split; [reflexivity|]. apply (step_skip st _ top rest M (S (as_edgeIndex top))); [exact HI|lia|exact Elt|by rewrite Ebig|]. intros _ Hl.
      destruct (leads_next _ _ _ _ _ Hl He) as [?|[(t' & Ht' & Hfix) _]]; [done|]. congruence.
  - apply Nat.ltb_ge in Elt. destruct (as_edges top) as [|x es] eqn:E; [done|]. rewrite <- E in *. destruct rest as [|f rest].
    + destruct (step_last st top M HI Elt) as (nfa & -> & Hs). cbn [mbind option_bind]. by eexists.
    + destruct (step_leave st top f rest M HI Hne Elt) as (nfa & f' & -> & Hf' & Hs). cbn [mbind option_bind]. rewrite Hf'. by eexists.
Qed.

Lemma subtreeLoop_spec fuel : forall st top rest M, loop_inv st top rest M -> (iterations top rest <= fuel)%nat ->
  exists nfa v M', subtreeLoop alphabet fuel maxNFASize st = Some (nfa, v) /\ subtree_done nfa v M' /\ grows M M'.
Proof.
  induction fuel as [|fuel IH]; intros st top rest M HI Hf; [unfold iterations, todo in Hf; lia|]. cbn [subtreeLoop]. rewrite (li_stack _ _ _ _ HI).
  destruct (subtreeStep_spec st top rest M HI) as ([st'|[nfa v]] & -> & Hs); cbn [mbind option_bind].
  - destruct Hs as (top' & rest' & M' & HI' & Hg & Hlt). destruct (IH st' top' rest' M' HI') as (nfa & v & M'' & ? & ? & ?); [lia|].
    exists nfa, v, M''. split_and!; [done|done|by eapply grows_trans].
  - destruct Hs as (M' & ? & ?). by exists nfa, v, M'.
Qed.

(** The automaton has a node for the root of the subtree, the only one that is
    live, with the actions of the root. *)
Lemma generateNFAForSubtree_spec nfa b M : growing alphabet tree nfa {[ m_nodeId b := b ]} M -> au_forward M !! m_nodeId b = Some prefix ->
  (forall a, a ∈ default [] (vertexActions root) -> au_actions M (m_nodeId b) a) ->
  pointers_ok alphabet root -> (forall qs a, tree_acts root qs a -> tree_acts tree (prefix ++ qs) a) -> fixed_leaf alphabet root ->
  exists nfa' v M', generateNFAForSubtree alphabet nfa b root maxNFASize = Some (nfa', v) /\ growing alphabet tree nfa' ∅ M' /\ grows M M'
    /\ pointers_ok alphabet v /\ (forall qs a, tree_acts v qs a -> tree_acts tree (prefix ++ qs) a)
    /\ (forall ps a, tree_acts root ps a -> in_automaton M' ps a \/ tree_acts v ps a) /\ ((vertexWeight v < vertexWeight root)%nat \/ edges v = []).
Proof.
  intros HG Hb Ha Hptr Htree Hleaf. unfold generateNFAForSubtree. destruct (edges root) as [|x es] eqn:E.
  { destruct (growing_finalize alphabet tree nfa _ M (m_nodeId b) b HG (lookup_singleton_eq _ _)) as (nfa' & -> & _ & HG'). cbn [mbind option_bind].
    rewrite delete_singleton_eq in HG'. exists nfa', root, M. do 2 (split; [done|]). split; [apply grows_refl|]. do 2 (split; [done|]). split; [by right|by right]. }
  set (top := activeSubtree root (Some b)). assert (as_edges top <> []) as Hne by (unfold top; cbn [activeSubtree as_edges]; by rewrite E). clear x es E.
  destruct (subtreeLoop_spec (vertexWeight root) (mkSubtreeState nfa ∅ [top] false) top [] M) as (nfa' & v & M' & -> & [H1 H2 H3 H4 H5] & Hg).
  - split; cbn [ss_stack ss_nfa ss_roots nfaTooBig]; [done| | |].
    + split; [by rewrite <- insert_empty in HG|done| |done|intros _; split; [by exists b|done]|constructor|done].
      apply frame_ok_active; [done|done|]. intros b' [= <-]. cbn [frame_path]. by rewrite app_nil_r.
    + intros ps a Hps. right. left. exists ps. unfold top. by rewrite activeSubtree_kept.
    + right. unfold total, top. rewrite activeSubtree_kept. cbn [weightBelow foldr]. split; [lia|]. split; [done|].
      destruct (fixed_leaf_leads alphabet root (Some b) Hleaf); [by left|right; by left].
  - unfold iterations, top. cbn [todoBelow foldr activeSubtree as_edgeIndex]. change (todo (mkActiveSubtree _ _ _ 0) 0) with (todo (activeSubtree root (Some b)) 0).
    rewrite todo_active. lia.
  - exists nfa', v, M'. split; [done|]. do 5 (split; [done|]). by left.
Qed.
End Subtree.
