(* ===== verification/ProcessProof.v ===== *)
(** * The automata of the combined filters

    [processNFAs] takes the whole prefix tree apart, and its automata accept
    together exactly the patterns of the tree. *)

From stdpp Require Import base numbers option list list_numbers gmap sets.
From Stdlib Require Import ZArith Lia.
From S2P Require Import Prelude.
From S2P Require Import NFA.
From S2P Require Import NFAToDFA.
From S2P Require Import ConvertProof.
From S2P Require Import Graph.
From S2P Require Import Term.
From S2P Require Import TermProof.
From S2P Require Import TermGraph.
From S2P Require Import CombinedURLFilters.
From S2P Require Import ProcessNFAs.
From S2P Require Import TermAutomaton.
From S2P Require Import SuffixSharing.
From S2P Require Import SubtreeStack.
From S2P Require Import SubtreeProof.

(** ** The path to the last leaf *)

Fixpoint follows (v : PrefixTreeVertex) (path : list (nat * PrefixTreeVertex)) : Prop :=
  match path with [] => True | e :: path => last (edges v) = Some e /\ follows e.2 path end.

Definition endOf (v : PrefixTreeVertex) (path : list (nat * PrefixTreeVertex)) : PrefixTreeVertex := match last path with Some e => e.2 | None => v end.

Lemma endOf_cons v e path : endOf v (e :: path) = endOf e.2 path.
Proof. unfold endOf. rewrite last_cons. by destruct (last path). Qed.

Lemma lastPath_eq v : lastPath v = match last (edges v) with Some e => e :: lastPath e.2 | None => [] end.
Proof.
  destruct v as [acts es]. cbn [edges]. induction es as [|e es IH]; [done|]. rewrite last_cons. destruct es as [|e' es]; [done|].
  cbn [lastPath] in *. rewrite IH. destruct (last (e' :: es)) eqn:E; [done|]. by apply last_None in E.
Qed.

Lemma lastPath_follows path : forall v, lastPath v = path -> follows v path.
Proof.
  induction path as [|e path IH]; intros v; [done|]. rewrite lastPath_eq. destruct (last (edges v)) as [e'|] eqn:E; [|done]. intros [= -> Hp].
  split; [done|by apply IH].
Qed.

Lemma lastPath_app path : forall v path', lastPath v = path ++ path' -> lastPath (endOf v path) = path'.
Proof.
  induction path as [|e path IH]; intros v path'; [done|]. rewrite lastPath_eq, endOf_cons. destruct (last (edges v)) as [e'|]; [|done]. intros [= -> Hp]. by apply IH.
Qed.

Lemma lastPath_nil v : lastPath v = [] -> edges v = [].
Proof. rewrite lastPath_eq. destruct (last (edges v)) eqn:E; [done|]. intros _. by apply last_None. Qed.

Lemma follows_app path path' : forall v, follows v (path ++ path') -> follows v path.
Proof. induction path as [|e path IH]; intros v; [done|]. intros [? ?]. split; [done|by apply IH]. Qed.

(** The vertex with another last child, or without it. *)
Definition withLast (v : PrefixTreeVertex) (p : nat) (c : PrefixTreeVertex) : PrefixTreeVertex :=
  mkVertex (vertexActions v) (match edges c with [] => take (pred (length (edges v))) (edges v) | _ => take (pred (length (edges v))) (edges v) ++ [(p, c)] end).

Lemma last_split {A} (l : list A) x : last l = Some x -> l = take (pred (length l)) l ++ [x].
Proof. intros [l' ->]%last_Some. rewrite length_app. simpl. rewrite Nat.add_1_r. simpl. by rewrite take_app_length. Qed.

Lemma replaceLast_cons e prefix v root : replaceLast (e :: prefix) v root = withLast root e.1 (replaceLast prefix v e.2).
Proof. by destruct e. Qed.

Lemma withLast_acts v p c ps a : tree_acts (withLast v p c) ps a ->
  a ∈ default [] (vertexActions v) /\ ps = [] \/ (exists q d qs, (q, d) ∈ take (pred (length (edges v))) (edges v) /\ ps = q :: qs /\ tree_acts d qs a)
  \/ exists qs, ps = p :: qs /\ tree_acts c qs a.
Proof.
  destruct ps as [|q qs]; [rewrite tree_acts_nil; by left|]. rewrite tree_acts_cons. unfold withLast. cbn [edges]. intros (d & Hd & Hqs). right.
  assert ((q, d) ∈ take (pred (length (edges v))) (edges v) \/ (q, d) = (p, c)) as [Hin|Heq].
  { destruct (edges c); [by left|]. apply elem_of_app in Hd as [Hd|Hd]; [by left|right]. by apply list_elem_of_singleton in Hd. }
  - left. by exists q, d, qs.
  - injection Heq as -> ->. right. by exists qs.
Qed.

(** What is in the tree after a round was in it before, or is in the new vertex. *)
Lemma replaceLast_acts prefix : forall v root ps a, follows root prefix -> tree_acts (replaceLast prefix v root) ps a ->
  tree_acts root ps a \/ exists qs, ps = (fst <$> prefix) ++ qs /\ tree_acts v qs a.
Proof.
  induction prefix as [|[p c] prefix IH]; intros v root ps a Hf Hps; [right; by exists ps|]. destruct Hf as [Hl Hf]. rewrite replaceLast_cons in Hps.
  apply withLast_acts in Hps as [[Ha ->]|[(q & d & qs & Hin & -> & Hqs)|(qs & -> & Hqs)]].
  - left. by apply tree_acts_nil.
  - left. apply tree_acts_cons. exists d. split; [|done]. apply list_elem_of_lookup in Hin as [i Hi]. apply lookup_take_Some in Hi as [Hi _]. by eapply list_elem_of_lookup_2.
  - destruct (IH v c qs a Hf Hqs) as [Hc|(qs' & -> & Hv)]; [left|right; by exists qs'].
    apply tree_acts_cons. exists c. split; [|done]. by apply last_Some_elem_of.
Qed.

(** A pattern that is not left in the tree is one of the new vertex or ends on the way to it. *)
Lemma replaceLast_complete prefix : forall v root ps a (acc : list nat -> Prop), follows root prefix ->
  (forall qs, tree_acts (endOf root prefix) qs a -> acc ((fst <$> prefix) ++ qs) \/ tree_acts v qs a) ->
  (forall pre e post, prefix = pre ++ e :: post -> a ∈ default [] (vertexActions e.2) -> acc (fst <$> (pre ++ [e]))) ->
  tree_acts root ps a -> acc ps \/ tree_acts (replaceLast prefix v root) ps a.
Proof.
  induction prefix as [|[p c] prefix IH]; intros v root ps a acc Hf Hend Hway Hps; [by apply Hend|]. destruct Hf as [Hl Hf]. rewrite replaceLast_cons. cbn [fst snd].
  set (c' := replaceLast prefix v c). destruct ps as [|q qs]; [right; apply tree_acts_nil; by apply tree_acts_nil in Hps|].
  apply tree_acts_cons in Hps as (d & Hd & Hqs). rewrite (last_split _ _ Hl) in Hd. apply elem_of_app in Hd as [Hd|Hd].
  - right. apply tree_acts_cons. exists d. split; [|done]. unfold withLast. cbn [edges]. destruct (edges c'); [done|apply elem_of_app; by left].
  - apply list_elem_of_singleton in Hd. injection Hd as -> ->. destruct (edges c') as [|x es] eqn:E.
    + destruct qs as [|q' qs]; [left; apply (Hway [] (p, c) prefix eq_refl); by apply tree_acts_nil in Hqs|].
      destruct (IH v c (q' :: qs) a (λ qs, acc (p :: qs)) Hf) as [Hacc|Hc']; [intros rs Hrs; apply Hend; by rewrite endOf_cons| |done|by left|].
      * intros pre e post -> Ha. by apply (Hway ((p, c) :: pre) e post).
      * fold c' in Hc'. apply tree_acts_cons in Hc' as (? & Hx & _). rewrite E in Hx. by apply elem_of_nil in Hx.
    + destruct (IH v c qs a (λ qs, acc (p :: qs)) Hf) as [Hacc|Hc']; [intros rs Hrs; apply Hend; by rewrite endOf_cons| |done|by left|].
      * intros pre e post -> Ha. by apply (Hway ((p, c) :: pre) e post).
      * right. apply tree_acts_cons. exists c'. split; [|done]. unfold withLast. cbn [edges]. rewrite E. apply elem_of_app. right. left.
Qed.

Lemma replaceLast_weight prefix : forall v root, follows root prefix -> (vertexWeight v < vertexWeight (endOf root prefix))%nat \/ (edges v = [] /\ prefix <> []) ->
  (vertexWeight (replaceLast prefix v root) < vertexWeight root)%nat.
Proof.
  induction prefix as [|[p c] prefix IH]; intros v root Hf Hw; [by destruct Hw as [?|[? ?]]|]. destruct Hf as [Hl Hf]. rewrite replaceLast_cons. cbn [fst snd].
  rewrite endOf_cons in Hw. cbn [snd] in Hw. set (c' := replaceLast prefix v c). rewrite (vertexWeight_eq (withLast _ _ _)), (vertexWeight_eq root).
  assert (edgesWeight (edges root) = edgesWeight (take (pred (length (edges root))) (edges root)) + edgesWeight [(p, c)])%nat as -> by (rewrite <- edgesWeight_app; by rewrite <- (last_split _ _ Hl)).
  unfold withLast. cbn [edges]. cbn [edgesWeight foldr snd]. destruct (edges c') as [|x es] eqn:E; [lia|].
  rewrite edgesWeight_app. cbn [edgesWeight foldr snd]. assert (vertexWeight c' < vertexWeight c)%nat; [|lia].
  apply IH; [done|]. destruct Hw as [Hw|[Hv _]]; [by left|]. right. split; [done|]. intros ->. unfold c' in E. cbn [replaceLast] in E. congruence.
Qed.

Section Rounds.
Context `{HashOrder} (alphabet : CombinedFiltersAlphabet).

Lemma replaceLast_pointers prefix : forall v root, pointers_ok alphabet v -> pointers_ok alphabet root -> follows root prefix -> pointers_ok alphabet (replaceLast prefix v root).
Proof.
  induction prefix as [|[p c] prefix IH]; intros v root Hv Hr Hf; [done|]. destruct Hf as [Hl Hf]. rewrite replaceLast_cons. cbn [fst snd].
  destruct (pointers_ok_edge alphabet root p c Hr) as [Hp Hc]; [by apply last_Some_elem_of|]. specialize (IH v c Hv Hc Hf). constructor. intros q d Hd.
  assert ((q, d) ∈ take (pred (length (edges root))) (edges root) \/ (q, d) = (p, replaceLast prefix v c)) as [Hin|Heq].
  { unfold withLast in Hd. cbn [edges] in Hd. destruct (edges (replaceLast prefix v c)); [by left|]. apply elem_of_app in Hd as [Hd|Hd]; [by left|right]. by apply list_elem_of_singleton in Hd. }
  - apply (pointers_ok_edge alphabet root); [done|]. apply list_elem_of_lookup in Hin as [i Hi]. apply lookup_take_Some in Hi as [Hi _]. by eapply list_elem_of_lookup_2.
  - by injection Heq as -> ->.
Qed.

Lemma endOf_pointers prefix : forall root, pointers_ok alphabet root -> follows root prefix ->
  pointers_ok alphabet (endOf root prefix) /\ Forall (λ e, (e.1 < length alphabet)%nat) prefix.
Proof.
  induction prefix as [|[p c] prefix IH]; intros root Hr Hf; [by split|]. destruct Hf as [Hl Hf]. destruct (pointers_ok_edge alphabet root p c Hr) as [Hp Hc]; [by apply last_Some_elem_of|].
  rewrite endOf_cons. destruct (IH c Hc Hf). split; [done|by constructor].
Qed.

Lemma endOf_acts prefix : forall root qs a, follows root prefix -> tree_acts (endOf root prefix) qs a -> tree_acts root ((fst <$> prefix) ++ qs) a.
Proof.
  induction prefix as [|[p c] prefix IH]; intros root qs a Hf; [done|]. destruct Hf as [Hl Hf]. rewrite endOf_cons, fmap_cons. intros Hqs. cbn [app fst].
  apply tree_acts_cons. exists c. split; [by apply last_Some_elem_of|]. by apply IH.
Qed.

(** The terms after the prefix have a fixed length. *)
Lemma quantifiedPrefix_spec path : Forall (λ e : nat * PrefixTreeVertex, (e.1 < length alphabet)%nat) path ->
  exists prefix suffix, quantifiedPrefix alphabet path = Some prefix /\ path = prefix ++ suffix /\ Forall (λ e, fixed_pointer alphabet e.1) suffix.
Proof.
  induction 1 as [|e path He _ (prefix & suffix & Hq & -> & Hfix)]; [by exists [], []|]. cbn [quantifiedPrefix]. destruct (lookup_lt_is_Some_2 alphabet e.1 He) as [t Ht].
  rewrite Ht. cbn [mbind option_bind]. rewrite Hq. cbn [mbind option_bind]. destruct prefix as [|x prefix]; [|by exists (e :: x :: prefix), suffix].
  destruct (hasFixedLength t) eqn:E; [|by exists [e], suffix]. exists [], (e :: suffix). split; [done|]. split; [done|]. constructor; [by exists t|done].
Qed.

Lemma fixed_path_leaf path : forall v, lastPath v = path -> Forall (λ e, fixed_pointer alphabet e.1) path -> fixed_leaf alphabet v.
Proof.
  induction path as [|[p c] path IH]; intros v Hv Hfix; [apply fixed_leaf_here; by apply lastPath_nil|]. apply Forall_cons in Hfix as [Hp Hfix].
  rewrite lastPath_eq in Hv. destruct (last (edges v)) as [e|] eqn:E; [|done]. injection Hv as -> Hv.
  eapply fixed_leaf_edge; [by apply last_Some_elem_of|exact Hp|by apply IH].
Qed.

(** ** The terms of the prefix *)

(** [b] is the only live builder and stands for the vertex at the end of the path. *)
Record at_end (tree : PrefixTreeVertex) (nfa : NFA) (b : NodeBuilder) (M : Automaton) (path : list nat) (v : PrefixTreeVertex) : Prop := {
  ae_growing : growing alphabet tree nfa {[ m_nodeId b := b ]} M;
  ae_forward : au_forward M !! m_nodeId b = Some path;
  ae_actions : forall a, a ∈ default [] (vertexActions v) -> au_actions M (m_nodeId b) a
}.

Lemma at_start tree v : (forall a, a ∉ default [] (vertexActions v)) -> exists nfa b M, newBuilder emptyNFA = (nfa, b) /\ at_end tree nfa b M [] v.
Proof.
  intros Hv. destruct (building_new emptyNFA ∅ [] (λ _ _, False) ∅ building_empty) as (nfa & b & Hnew & Hid & _ & _ & HB). change (size emptyNFA) with 0 in *.
  exists nfa, b, (mkAutomaton [] (λ _ _, False) ({[ 0 ]} ∪ ∅) {[ 0 := [] ]} ∅). split; [done|]. split; cbn [au_forward au_actions].
  - rewrite Hid. split; cbn [au_edges au_actions au_keys au_forward au_reverse]; [by rewrite <- insert_empty| | | |done].
    + split.
      * intros s t d Hx. by apply elem_of_nil in Hx.
      * done.
      * intros n. right. apply lookup_empty.
      * intros n path Hn. apply lookup_singleton_Some in Hn as [<- <-]. exists []. split; [done|constructor].
      * intros n suffix acts Hn. by rewrite lookup_empty in Hn.
      * apply lookup_singleton_eq.
    + intros n path Hn. apply lookup_singleton_Some in Hn as [<- _]. set_solver.
    + intros n x Hn. by rewrite lookup_empty in Hn.
  - rewrite Hid. apply lookup_singleton_eq.
  - intros a Ha. by apply Hv in Ha.
Qed.

Lemma appendTerms_spec tree prefix : forall nfa b M path v, at_end tree nfa b M path v -> pointers_ok alphabet v -> follows v prefix ->
  (forall qs a, tree_acts v qs a -> tree_acts tree (path ++ qs) a) ->
  exists terms nfa' b' M', prefixTerms alphabet prefix = Some terms /\ appendTerms terms nfa b = Some (nfa', b') /\ grows M M'
    /\ at_end tree nfa' b' M' (path ++ (fst <$> prefix)) (endOf v prefix)
    /\ forall pre e post a, prefix = pre ++ e :: post -> a ∈ default [] (vertexActions e.2) ->
         accepted alphabet (au_edges M') (au_actions M') (path ++ (fst <$> (pre ++ [e]))) a.
Proof.
  induction prefix as [|[p c] prefix IH]; intros nfa b M path v Hat Hv Hf Htree.
  { exists [], nfa, b, M. split; [done|]. split; [done|]. split; [apply grows_refl|]. split; [by rewrite app_nil_r|]. intros [|? ?] e post a Heq; done. }
  destruct Hf as [Hl Hf]. destruct Hat as [HG Hb Ha]. apply last_Some_elem_of in Hl as Hin. destruct (pointers_ok_edge alphabet v p c Hv Hin) as [Hp Hc].
  destruct (lookup_lt_is_Some_2 alphabet p Hp) as [t Ht]. set (acts := default [] (vertexActions c)).
  assert (forall qs a, tree_acts c qs a -> tree_acts tree ((path ++ [p]) ++ qs) a) as Htree'.
  { intros qs a Hqs. rewrite <- app_assoc. apply Htree. apply tree_acts_cons. by exists c. }
  destruct (growing_newEnd alphabet tree nfa _ M (m_nodeId b) b path p t acts HG (lookup_singleton_eq _ _) Hb Ht) as (nfa1 & b1 & e & M1 & Hgen & Hid & Hide & Hfresh & HG1 & Hg1 & _ & Hfe & Hae).
  { intros a Hin'. rewrite <- (app_nil_r (path ++ [p])). apply Htree'. by apply tree_acts_nil. }
  assert (m_nodeId b <> size nfa) as Hne by (intros Heq; rewrite <- Heq, lookup_singleton_eq in Hfresh; done).
  destruct (growing_finalize alphabet tree nfa1 _ M1 (m_nodeId b) b1 HG1) as (nfa2 & Hfin & _ & HG2); [by rewrite lookup_insert_ne, lookup_insert_eq|].
  rewrite delete_insert_ne, delete_insert_eq, delete_singleton_eq, insert_empty, <- Hide in HG2 by done. rewrite <- Hide in Hfe, Hae.
  destruct (IH nfa2 e M1 (path ++ [p]) c) as (terms & nfa' & b' & M' & Hterms & Happ & Hg & Hat & Hway); [by split|done|done|done|].
  exists ((t, acts) :: terms), nfa', b', M'. split; [|split; [|split; [by eapply grows_trans|split]]].
  - unfold prefixTerms in *. cbn [mapM fst snd]. rewrite Ht. cbn [mbind option_bind]. by rewrite Hterms.
  - cbn [appendTerms]. rewrite Hgen. cbn [mbind option_bind]. by rewrite Hfin.
  - rewrite endOf_cons, fmap_cons. cbn [fst]. by rewrite <- app_assoc in Hat.
  - intros pre x post a Heq Hax. destruct pre as [|y pre].
    + injection Heq as <- _. apply (grows_accepted alphabet M1 M'); [done|]. apply (typed_accepted alphabet tree _ _ _ _ (gr_typed _ _ _ _ _ HG2) (m_nodeId e)); [done|]. by apply Hae.
    + injection Heq as <- ->. cbn [app]. rewrite fmap_cons. cbn [fst]. specialize (Hway pre x post a eq_refl Hax). by rewrite <- app_assoc in Hway.
Qed.

(** ** One round *)

Lemma processRound_spec maxNFASize root path : pointers_ok alphabet root -> (forall a, a ∉ default [] (vertexActions root)) -> lastPath root = path -> path <> [] ->
  exists nfa root' M, processRound alphabet maxNFASize root path = Some (nfa, root') /\ growing alphabet root nfa ∅ M /\ pointers_ok alphabet root'
    /\ (vertexWeight root' < vertexWeight root)%nat /\ (forall ps a, tree_acts root' ps a -> tree_acts root ps a)
    /\ forall ps a, tree_acts root ps a -> accepted alphabet (au_edges M) (au_actions M) ps a \/ tree_acts root' ps a.
Proof.
  intros Hptr Hquiet Hpath Hne. unfold processRound. pose proof (lastPath_follows _ _ Hpath) as Hfull. destruct (endOf_pointers path root Hptr Hfull) as [_ Hlt].
  destruct (quantifiedPrefix_spec path Hlt) as (prefix & suffix & -> & -> & Hfix). cbn [mbind option_bind]. pose proof (follows_app _ _ _ Hfull) as Hf.
  destruct (endOf_pointers prefix root Hptr Hf) as [Hend _]. pose proof (fixed_path_leaf suffix _ (lastPath_app _ _ _ Hpath) Hfix) as Hleaf.
  destruct (at_start root root Hquiet) as (nfa0 & b0 & M0 & Hnew & Hat0).
  destruct (appendTerms_spec root prefix nfa0 b0 M0 [] root Hat0 Hptr Hf) as (terms & nfa1 & b1 & M1 & -> & Happ & _ & [HG1 Hb1 Ha1] & Hway); [done|].
  cbn [mbind option_bind]. rewrite Hnew, Happ. cbn [mbind option_bind]. fold (endOf root prefix).
  destruct (generateNFAForSubtree_spec alphabet root (fst <$> prefix) (endOf root prefix) maxNFASize nfa1 b1 M1 HG1 Hb1 Ha1 Hend) as (nfa2 & v & M2 & -> & HG2 & Hg2 & Hv & Htree & Hcomp & Hw);
    [intros qs a; by apply endOf_acts|done|]. cbn [mbind option_bind].
  exists nfa2, (replaceLast prefix v root), M2. split; [done|]. split; [done|]. split; [by apply replaceLast_pointers|]. split; [|split].
  - apply replaceLast_weight; [done|]. destruct Hw as [Hw|Hv']; [by left|]. destruct prefix as [|e prefix]; [|by right].
    left. unfold endOf. cbn [last]. rewrite !vertexWeight_eq, Hv'. rewrite lastPath_eq in Hpath. destruct (last (edges root)) as [[p c]|] eqn:El; [|by destruct suffix].
    rewrite (last_split _ _ El), edgesWeight_app. cbn [edgesWeight foldr]. lia.
  - intros ps a Hps. destruct (replaceLast_acts prefix v root ps a Hf Hps) as [?|(qs & -> & Hqs)]; [done|by apply Htree].
  - intros ps a Hps. apply (replaceLast_complete prefix v root ps a (λ ps, accepted alphabet (au_edges M2) (au_actions M2) ps a)); [done| | |done].
    + intros qs Hqs. by apply Hcomp.
    + intros pre e post Heq Ha. eapply grows_accepted; [exact Hg2|]. by apply (Hway pre e post a).
Qed.

(** ** The automaton of a round *)

Lemma growing_accepts tree nfa M w a : growing alphabet tree nfa ∅ M -> nfa_accepts nfa w a ->
  exists ps ts, terms_of alphabet ps = Some ts /\ tree_acts tree ps a /\ group_lang ts w.
Proof.
  intros HG Hacc. pose proof (gr_typed _ _ _ _ _ HG) as HT. apply (building_accepts nfa _ _ _ w a (gr_building _ _ _ _ _ HG)) in Hacc as (ts & m & Hp & Hw & Ha);
    [|eapply gr_forward; [exact HG|apply HT]]. destruct (typed_sound alphabet tree _ _ _ _ HT ts m a Hp Ha) as (ps & ? & ?). by exists ps, ts.
Qed.

Lemma accepted_accepts tree nfa M ps ts w a : growing alphabet tree nfa ∅ M -> accepted alphabet (au_edges M) (au_actions M) ps a ->
  terms_of alphabet ps = Some ts -> group_lang ts w -> nfa_accepts nfa w a.
Proof.
  intros HG (ts' & m & Hts' & Hp & Ha) Hts Hw. rewrite Hts in Hts'. injection Hts' as <-. apply (building_accepts nfa _ _ _ w a (gr_building _ _ _ _ _ HG)).
  - eapply gr_forward; [exact HG|apply (ty_root _ _ _ _ _ _ (gr_typed _ _ _ _ _ HG))].
  - by exists ts, m.
Qed.

Lemma growing_wf tree nfa M : growing alphabet tree nfa ∅ M -> (forall ps a, tree_acts tree ps a -> 0 <= a < 2 ^ 49) -> wf_nfa nfa.
Proof.
  intros HG Hb. apply (building_wf nfa _ _ _ (gr_building _ _ _ _ _ HG)).
  - eapply gr_forward; [exact HG|apply (ty_root _ _ _ _ _ _ (gr_typed _ _ _ _ _ HG))].
  - intros n a Ha. destruct (gr_actions _ _ _ _ _ HG n a Ha) as (ps & Hps). by eapply Hb.
Qed.

(** ** All rounds *)

Lemma processLoop_spec maxNFASize fuel : forall root, pointers_ok alphabet root -> (forall a, a ∉ default [] (vertexActions root)) -> (vertexWeight root <= fuel)%nat ->
  (forall ps a, tree_acts root ps a -> 0 <= a < 2 ^ 49) ->
  exists nfas root', processLoop alphabet fuel maxNFASize root = Some (nfas, root') /\ edges root' = [] /\ Forall wf_nfa nfas
    /\ (forall nfa n acts a, nfa ∈ nfas -> actionsOfNode nfa n = Some acts -> a ∈ acts -> exists ps, tree_acts root ps a)
    /\ forall w a, (exists nfa, nfa ∈ nfas /\ nfa_accepts nfa w a) <-> exists ps ts, terms_of alphabet ps = Some ts /\ tree_acts root ps a /\ group_lang ts w.
Proof.
  induction fuel as [|fuel IH]; intros root Hptr Hquiet Hw Hb; [rewrite vertexWeight_eq in Hw; lia|]. cbn [processLoop]. destruct (lastPath root) as [|x path] eqn:Epath.
  { exists [], root. apply lastPath_nil in Epath. split; [done|]. split; [done|]. split; [constructor|]. split; [intros nfa n acts a Hn; by apply elem_of_nil in Hn|].
    intros w a. split; [intros (nfa & Hn & _); by apply elem_of_nil in Hn|].
    intros ([|p ps] & ts & _ & Hps & _); [apply tree_acts_nil in Hps; by apply Hquiet in Hps|]. apply tree_acts_cons in Hps as (c & Hc & _). rewrite Epath in Hc. by apply elem_of_nil in Hc. }
  destruct (processRound_spec maxNFASize root (x :: path) Hptr Hquiet Epath) as (nfa & root1 & M & -> & HG & Hptr1 & Hw1 & Hsub & Hcomp); [done|]. cbn [mbind option_bind].
  destruct (IH root1 Hptr1) as (nfas & root' & -> & Hempty & Hwf & Hacts & Hacc); [|lia|eauto|].
  { intros a Ha. apply (Hquiet a). apply tree_acts_nil. apply Hsub. by apply tree_acts_nil. }
  cbn [mbind option_bind]. exists (nfa :: nfas), root'. split; [done|]. split; [done|]. split; [constructor; [by eapply growing_wf|done]|]. split.
  { intros y n acts a [->|Hy]%elem_of_cons Hn Ha; [|destruct (Hacts y n acts a Hy Hn Ha) as (ps & ?); by exists ps; apply Hsub].
    by apply (gr_actions _ _ _ _ _ HG n a), (building_actions nfa _ _ _ n acts a (gr_building _ _ _ _ _ HG)). }
  intros w a. split.
  - intros (n & [->|Hn]%elem_of_cons & Hna); [by eapply growing_accepts|]. destruct (proj1 (Hacc w a)) as (ps & ts & ? & Hps & ?); [by exists n|].
    exists ps, ts. split; [done|]. split; [by apply Hsub|done].
  - intros (ps & ts & Hts & Hps & Hg). destruct (Hcomp ps a Hps) as [Hin|Hleft].
    + exists nfa. split; [by left|]. by eapply accepted_accepts.
    + destruct (proj2 (Hacc w a)) as (n & Hn & Hna); [by exists ps, ts|]. exists n. split; [by right|done].
Qed.
End Rounds.

(** ** Terms and pointers *)

Lemma wf_tree_pointers alphabet v : wf_tree alphabet v -> pointers_ok alphabet v.
Proof. revert v. fix IH 2. intros v [_ He]. constructor. intros p c Hc. destruct (He (p, c) Hc) as (Hp & Hw & _). split; [done|by apply IH]. Qed.

Lemma childOf_edge alphabet v t c : NoDup alphabet -> wf_tree alphabet v ->
  childOf alphabet (edges v) t = Some c <-> exists p, alphabet !! p = Some t /\ (p, c) ∈ edges v.
Proof.
  intros Hnd [Hes _]. unfold childOf. split.
  - destruct (findEdge alphabet (edges v) t) as [i|] eqn:E; [|done]. intros ([p c'] & Hi & ->)%fmap_Some. exists p. split; [|by eapply list_elem_of_lookup_2].
    apply findIndex_Some in E as (e & He & Ht). rewrite Hi in He. injection He as <-. by apply (pointsTo_true alphabet t p).
  - intros (p & Hp & [i Hi]%list_elem_of_lookup_1). destruct (findEdge alphabet (edges v) t) as [j|] eqn:E.
    + apply findIndex_Some in E as ([q d] & Hj & Hq). apply (pointsTo_true alphabet t q) in Hq.
      pose proof (NoDup_lookup _ _ _ _ Hnd Hq Hp) as ->.
      assert (j = i) as -> by (eapply (NoDup_lookup (fst <$> edges v)); [done|by rewrite list_lookup_fmap, Hj|by rewrite list_lookup_fmap, Hi]). by rewrite Hi.
    + rewrite findEdge_pointers, findIndex_None in E. specialize (E p). rewrite (proj2 (pointsTo_true alphabet t p) Hp) in E. exfalso.
      enough (true = false) by done. apply E. apply list_elem_of_fmap. exists (p, c). split; [done|]. by eapply list_elem_of_lookup_2.
Qed.

(** The paths of terms and those of pointers are the same. *)
Lemma actionsBelow_tree alphabet path a : NoDup alphabet -> forall v, wf_tree alphabet v ->
  a ∈ actionsBelow alphabet v path <-> exists ps, terms_of alphabet ps = Some path /\ tree_acts v ps a.
Proof.
  intros Hnd. induction path as [|t path IH]; intros v Hv.
  - change (actionsBelow alphabet v []) with (default [] (vertexActions v)). rewrite <- tree_acts_nil. split; [by exists []|].
    intros ([|p ps] & Hps & Ha); [done|]. by apply terms_of_cons in Hps as (? & ? & ? & _).
  - rewrite actionsBelow_cons. split.
    + destruct (childOf alphabet (edges v) t) as [c|] eqn:E; [|intros Hx; by apply elem_of_nil in Hx]. intros Ha.
      apply IH in Ha as (ps & Hps & Ha); [|by eapply wf_tree_child]. apply childOf_edge in E as (p & Hp & Hc); [|done|done].
      exists (p :: ps). split; [apply terms_of_cons; by exists t, path|]. apply tree_acts_cons. by exists c.
    + intros (ps & Hps & Ha). destruct ps as [|p ps]; [done|]. apply terms_of_cons in Hps as (t' & path' & Heq & Hp & Hps). injection Heq as <- <-.
      apply tree_acts_cons in Ha as (c & Hc & Ha). rewrite (proj2 (childOf_edge alphabet v t c Hnd Hv)) by (by exists p).
      apply IH; [eapply wf_tree_child; [exact Hv|]; apply childOf_edge; [done|done|by exists p]|by exists ps].
Qed.

Lemma tree_acts_terms alphabet v ps a : pointers_ok alphabet v -> tree_acts v ps a -> exists ts, terms_of alphabet ps = Some ts.
Proof.
  revert v. induction ps as [|p ps IH]; intros v Hv Hps; [by exists []|]. apply tree_acts_cons in Hps as (c & Hc & Hps).
  destruct (pointers_ok_edge _ _ _ _ Hv Hc) as [Hp Hcp]. destruct (lookup_lt_is_Some_2 _ _ Hp) as [t Ht].
  destruct (IH c Hcp Hps) as [ts Hts]. exists (t :: ts). apply terms_of_cons. by exists t, ts.
Qed.

(** ** The combined filters *)

(** The pattern of the filters reaches the action. *)
Definition filters_accept (f : CombinedURLFilters) (w : list Z) (a : Z) : Prop := exists path, a ∈ actionsAt f path /\ group_lang path w.

Lemma processNFAs_sound `{HashOrder} f maxNFASize : wf_filters f -> actionsAt f [] = [] -> (forall path a, a ∈ actionsAt f path -> 0 <= a < 2 ^ 49) ->
  exists nfas f', processNFAs f maxNFASize = Some (nfas, f') /\ isEmpty f' = true /\ Forall wf_nfa nfas
    /\ (forall nfa n acts a, nfa ∈ nfas -> actionsOfNode nfa n = Some acts -> a ∈ acts -> exists path, a ∈ actionsAt f path)
    /\ forall w a, (exists nfa, nfa ∈ nfas /\ nfa_accepts nfa w a) <-> filters_accept f w a.
Proof.
  intros [Hnd Hwf] Hroot Hb. pose proof (λ path a, actionsBelow_tree (m_alphabet f) path a Hnd _ Hwf) as Hsame. pose proof (wf_tree_pointers _ _ Hwf) as Hptr.
  assert (forall ps a, tree_acts (m_prefixTreeRoot f) ps a -> exists path, a ∈ actionsAt f path) as Hpath.
  { intros ps a Hps. destruct (tree_acts_terms _ _ ps a Hptr Hps) as [ts Hts]. exists ts. apply (Hsame ts a). by exists ps. }
  destruct (processLoop_spec (m_alphabet f) maxNFASize (vertexWeight (m_prefixTreeRoot f)) (m_prefixTreeRoot f)) as (nfas & root & Hloop & Hempty & Hall & Hacts & Hacc).
  - done.
  - intros a Ha. apply tree_acts_nil in Ha. assert (a ∈ actionsAt f []) as Hx by (apply (Hsame [] a); by exists []). rewrite Hroot in Hx. by apply elem_of_nil in Hx.
  - lia.
  - intros ps a Hps. destruct (Hpath ps a Hps) as (path & ?). by eapply Hb.
  - exists nfas, (mkCombinedURLFilters (m_alphabet f) root). unfold processNFAs. rewrite Hloop. cbn [mbind option_bind]. split; [done|].
    split; [unfold isEmpty; cbn [m_prefixTreeRoot]; by rewrite Hempty|]. split; [done|]. split; [|intros w a; rewrite Hacc; split].
    + intros nfa n acts a Hn Hnode Ha. destruct (Hacts nfa n acts a Hn Hnode Ha) as (ps & Hps). by apply (Hpath ps).
    + intros (ps & ts & ? & ? & ?). exists ts. split; [apply (Hsame ts a); by exists ps|done].
    + intros (path & Ha & Hw). apply (Hsame path a) in Ha as (ps & ? & ?). by exists ps, path.
Qed.

(** C10: the automata of the combined filters.  For filters without actions on the
    root of the prefix tree, [processNFAs] ends and leaves no pattern in the tree;
    every automaton it hands out is well formed and has only actions of the
    filters; and a string reaches an action in one of them exactly when it matches
    the terms of a path of the tree to the action, although the automata share
    the suffixes of patterns with the same actions. *)
Theorem processNFAs_correct `{HashOrder} f maxNFASize : wf_filters f -> actionsAt f [] = [] -> (forall path a, a ∈ actionsAt f path -> 0 <= a < 2 ^ 49) ->
  exists nfas f', processNFAs f maxNFASize = Some (nfas, f') /\ isEmpty f' = true /\ Forall wf_nfa nfas
    /\ (forall nfa n acts a, nfa ∈ nfas -> actionsOfNode nfa n = Some acts -> a ∈ acts -> exists path, a ∈ actionsAt f path)
    /\ forall w a, (exists nfa, nfa ∈ nfas /\ nfa_accepts nfa w a) <-> filters_accept f w a.
Proof. exact (processNFAs_sound f maxNFASize). Qed.

Definition letter (c : Z) : Term := CharacterSetTerm One (setCharacter emptyCharacterSet c).

(** "ab" and "cb" with the action 7, and "a.*c" with the action 9. *)
Definition sample_filters : CombinedURLFilters :=
  addPattern (addPattern (addPattern newCombinedURLFilters 7 [letter 97; letter 98]) 7 [letter 99; letter 98])
    9 [letter 97; canonicalDotStar; letter 99].

Lemma sample_filters_sound : wf_filters sample_filters /\ forall path a, a ∈ actionsAt sample_filters path <->
  path = [letter 97; letter 98] /\ a = 7 \/ path = [letter 99; letter 98] /\ a = 7 \/ path = [letter 97; canonicalDotStar; letter 99] /\ a = 9.
Proof.
  destruct (addPattern_sound newCombinedURLFilters 7 [letter 97; letter 98] wf_newCombinedURLFilters ltac:(done)) as [W1 A1].
  destruct (addPattern_sound _ 7 [letter 99; letter 98] W1 ltac:(done)) as [W2 A2].
  destruct (addPattern_sound _ 9 [letter 97; canonicalDotStar; letter 99] W2 ltac:(done)) as [W3 A3]. split; [exact W3|].
  intros path a. unfold sample_filters. rewrite A3, A2, A1. assert (a ∉ actionsAt newCombinedURLFilters path) by (destruct path; apply not_elem_of_nil). tauto.
Qed.

(** The three patterns are in two automata, and the suffix "b" is shared. *)
Example sample_automata : (λ r : list NFA * CombinedURLFilters, (length r.1, isEmpty r.2)) <$> processNFAs sample_filters 75000 = Some (2%nat, true).
Proof. vm_compute. reflexivity. Qed.

Lemma processNFAs_correct_witness : exists nfas f', processNFAs sample_filters 75000 = Some (nfas, f') /\ isEmpty f' = true
  /\ exists nfa, nfa ∈ nfas /\ nfa_accepts nfa [99; 98] 7.
Proof.
  destruct sample_filters_sound as [Hwf Hin]. destruct (processNFAs_correct sample_filters 75000) as (nfas & f' & Hp & He & _ & _ & Hacc).
  - exact Hwf.
  - vm_compute. reflexivity.
  - intros path a Ha. apply Hin in Ha. destruct Ha as [[_ ->]|[[_ ->]|[_ ->]]]; lia.
  - exists nfas, f'. split; [exact Hp|]. split; [exact He|]. apply Hacc. exists [letter 99; letter 98]. split; [apply Hin; auto|].
    exists [99], [98]. split; [reflexivity|]. split; [apply single_lang; lia|]. exists [98], []. split; [reflexivity|]. split; [apply single_lang; lia|reflexivity].
Defined.

(** C28: every round makes progress, whatever the limit on the size of an NFA is:
    while the tree has edges a round ends and leaves a smaller tree, and a pattern
    that is not left in the tree is accepted by the automaton of the round. *)
Theorem processRound_progress `{HashOrder} alphabet maxNFASize root :
  wf_tree alphabet root -> vertexActions root = None -> edges root <> [] ->
  exists nfa root', processRound alphabet maxNFASize root (lastPath root) = Some (nfa, root') /\ (vertexWeight root' < vertexWeight root)%nat
    /\ forall ps ts a, terms_of alphabet ps = Some ts -> tree_acts root ps a ->
       tree_acts root' ps a \/ forall w, group_lang ts w -> nfa_accepts nfa w a.
Proof.
  intros Hwf Hroot Hne. destruct (processRound_spec alphabet maxNFASize root (lastPath root)) as (nfa & root' & M & Hp & HG & _ & Hw & _ & Hcomp).
  - by apply wf_tree_pointers.
  - intros a Ha. rewrite Hroot in Ha. by apply elem_of_nil in Ha.
  - done.
  - intros Hl. by apply lastPath_nil in Hl.
  - exists nfa, root'. split; [done|]. split; [done|]. intros ps ts a Hts Ha. destruct (Hcomp ps a Ha) as [Hacc|?]; [right|by left].
    intros w Hg. by eapply accepted_accepts.
Qed.

(** The limit 0 is passed by the first leaf already. *)
Lemma processRound_progress_witness : exists nfa root', processRound (m_alphabet sample_filters) 0 (m_prefixTreeRoot sample_filters) (lastPath (m_prefixTreeRoot sample_filters)) = Some (nfa, root')
  /\ (vertexWeight root' < vertexWeight (m_prefixTreeRoot sample_filters))%nat.
Proof.
  destruct (processRound_progress (m_alphabet sample_filters) 0 (m_prefixTreeRoot sample_filters)) as (nfa & root' & Hp & Hw & _).
  - destruct sample_filters_sound as [[_ Hwf] _]. exact Hwf.
  - vm_compute. reflexivity.
  - vm_compute. discriminate.
  - exists nfa, root'. split; [exact Hp|exact Hw].
Defined.
