(* ===== verification/Pipeline.v ===== *)
(** * From the combined filters to bytecode

    The components together: [compileToBytecode] makes NFAs of the prefix tree, a
    DFA of each of them, minimizes the DFAs or combines the small ones, puts the
    universal actions on the root of the first, and lowers them.  The interpreter
    on the bytecode triggers exactly the actions that the filters have for the
    URL. *)

From stdpp Require Import base numbers option list list_numbers gmap sets relations.
From Stdlib Require Import ZArith Lia.
From S2P Require Import Prelude.
From S2P Require Import DFABytecode.
From S2P Require Import DFA.
From S2P Require Import DFABytecodeInterpreter.
From S2P Require Import DFABytecodeCompiler.
From S2P Require Import CompilerLayout.
From S2P Require Import CompilerProof.
From S2P Require Import InterpreterProof.
From S2P Require Import BytecodeCorrect.
From S2P Require Import NFA.
From S2P Require Import NFAToDFA.
From S2P Require Import Worklist.
From S2P Require Import ConvertProof.
From S2P Require Import Graph.
From S2P Require Import Term.
From S2P Require Import TermProof.
From S2P Require Import CombinedURLFilters.
From S2P Require Import ActionSerialization.
From S2P Require Import ContentExtensionCompiler.
From S2P Require Import Partition.
From S2P Require Import DFAMinimizer.
From S2P Require Import MinimizerProof.
From S2P Require Import DFACombiner.
From S2P Require Import CombinerProof.
From S2P Require Import ProcessNFAs.
From S2P Require Import ProcessProof.

Definition maxNFASize : Z := 75000.
Definition smallDFASize : Z := 100.

Section CompileToBytecode.
Context `{HashOrder, HashMapOrder, UninitializedMemory, SlotOrder}.

(** What [compileToBytecode] does with an NFA: a large DFA is minimized and
    lowered, a small one goes to the combiner.  There are at most as many DFA
    nodes as sets of NFA nodes. *)
Definition handleNFA (acc : list DFA * list DFA) (nfa : NFA) : option (list DFA * list DFA) :=
  dfa ← convert (2 ^ length (nfa_nodes nfa)) nfa;
  if graphSize dfa <? smallDFASize then small ← addDFA acc.2 dfa; Some (acc.1, small)
  else dfa ← minimize dfa; Some (acc.1 ++ [dfa], acc.2).

(** The DFAs in the order in which they are lowered. *)
Definition compileDFAs (filters : CombinedURLFilters) : option (list DFA) :=
  '(nfas, _) ← processNFAs filters maxNFASize;
  '(lowered, small) ← foldl (λ acc nfa, acc ← acc; handleNFA acc nfa) (Some ([], [])) nfas;
  combined ← combineDFAs smallDFASize small;
  Some (lowered ++ combined).

Definition compileToBytecode (filters : CombinedURLFilters) (universalActions : gset Z) : option (list Z) :=
  dfas ← compileDFAs filters;
  lowerDFAsToBytecode dfas universalActions.

(** ** The DFAs *)

(** The limits of the conversion: the 16 bits that count the actions of a node
    and the 32 bits of a node index. *)
Definition convertible (nfa : NFA) : Prop := vec_size (nfa_actions nfa) <= 65535 /\
  forall dfa, convert (2 ^ length (nfa_nodes nfa)) nfa = Some dfa -> vec_size (dfa_nodes dfa) < UINT32_MAX.

(** Filters as the parsers make them: no path to an action matches the empty
    string, and the actions are among those of [U]. *)
Record compilable (U : gset Z) (f : CombinedURLFilters) : Prop := {
  cp_wf : wf_filters f;
  cp_root : actionsAt f [] = [];
  cp_actions : forall path a, a ∈ actionsAt f path -> a ∈ U /\ 0 <= a < 2 ^ 49;
  cp_nonempty : forall a, ~ filters_accept f [] a
}.

Lemma convert_fresh nfa (U : gset Z) : wf_nfa nfa -> convertible nfa -> (forall n acts a, actionsOfNode nfa n = Some acts -> a ∈ acts -> a ∈ U) ->
  exists dfa, convert (2 ^ length (nfa_nodes nfa)) nfa = Some dfa /\ fresh_dfa dfa /\ actions_in U dfa
    /\ forall w a, Forall (λ c, 0 <= c <= 127) w -> dfa_accepts dfa w a <-> nfa_accepts nfa w a.
Proof.
  intros Hwf [Hsize Hsmall] HU. destruct (convert_sound nfa _ Hwf Hsize (le_n _)) as (dfa & sets & Hd & Hfin & Hpos & Hacc).
  exists dfa. split; [done|]. pose proof Hfin as (Hkeys & Hroot & Hsz & Hapart & Hnodes).
  assert (forall i node, vec_at (dfa_nodes dfa) i = Some node -> exists X acts, isKilled node = false /\ node_actions dfa node = Some acts
    /\ forall a, a ∈ acts <-> nfa_action nfa X a) as Hnode.
  { intros i node Hi. destruct (vec_at_is_Some sets i) as [X HX]; [rewrite <- Hsz; by eapply vec_at_bound|].
    destruct (Hnodes i X HX) as (n & acts & ts & Hn & Hk & Ha & _ & Hin & _). rewrite Hi in Hn. injection Hn as <-. by exists X, acts. }
  split; [|split; [|done]].
  - split; [|intros i node Hi; by destruct (Hnode i node Hi) as (? & ? & ? & _)|done].
    eapply work_finished_wf; [exact Hfin|done|by apply Hsmall|]. intros X a. by apply set_actions_ok.
  - intros i a _ (node & acts & Hi & Ha & Hin). destruct (Hnode i node Hi) as (X & acts' & _ & Ha' & Hx). rewrite Ha in Ha'. injection Ha' as <-.
    destruct (proj1 (Hx a) Hin) as (n & nacts & _ & Hn & Hna). exact (HU n nacts a Hn Hna).
Qed.

Section Filters.
Context (U : gset Z) (HU : Z.of_nat (base.size U) <= 65535).

Lemma handleNFAs_spec nfas : Forall wf_nfa nfas -> Forall convertible nfas ->
  (forall nfa n acts a, nfa ∈ nfas -> actionsOfNode nfa n = Some acts -> a ∈ acts -> a ∈ U) ->
  exists lowered small, foldl (λ acc nfa, acc ← acc; handleNFA acc nfa) (Some ([], [])) nfas = Some (lowered, small)
    /\ Forall (combinable U) lowered /\ Forall (combinable U) small
    /\ forall w a, Forall (λ c, 0 <= c <= 127) w -> union_accepts (lowered ++ small) w a <-> exists nfa, nfa ∈ nfas /\ nfa_accepts nfa w a.
Proof using Type.
  clear HU. intros Hwf Hconv Hacts. rewrite Forall_forall in Hwf. rewrite Forall_forall in Hconv.
  destruct (foldl_option_inv handleNFA (λ pre acc, Forall (combinable U) acc.1 /\ Forall (combinable U) acc.2
    /\ forall w a, Forall (λ c, 0 <= c <= 127) w -> union_accepts (acc.1 ++ acc.2) w a <-> exists nfa, nfa ∈ pre /\ nfa_accepts nfa w a) nfas ([], []))
    as ([lowered small] & ? & ? & ? & ?); [| |by exists lowered, small].
  { split; [done|]. split; [done|]. intros w a _. unfold union_accepts. cbn [fst snd app]. split; intros (x & Hx & _); by apply elem_of_nil in Hx. }
  intros pre nfa todo [lowered small] Heq (Hl & Hs & Hun). assert (nfa ∈ nfas) as Hin by (rewrite Heq; set_solver). cbn [fst snd] in *.
  destruct (convert_fresh nfa U (Hwf _ Hin) (Hconv _ Hin) (λ n acts a, Hacts nfa n acts a Hin)) as (dfa & Hd & Hfresh & HactsU & Hacc).
  destruct (minimize_combinable U dfa Hfresh HactsU) as (d & Hm & Hok & Hd').
  assert (forall l s, (forall x, x ∈ l ++ s <-> x ∈ lowered ++ small \/ x = d) -> forall w a, Forall (λ c, 0 <= c <= 127) w ->
    union_accepts (l ++ s) w a <-> exists nfa', nfa' ∈ pre ++ [nfa] /\ nfa_accepts nfa' w a) as Hnext.
  { intros l s Hls w a Hw. specialize (Hun w a Hw). specialize (Hacc w a Hw). specialize (Hd' w a). unfold union_accepts in *. setoid_rewrite Hls. setoid_rewrite (elem_of_app pre [nfa]).
    setoid_rewrite list_elem_of_singleton. split.
    - intros (x & [Hx| ->] & Hxa); [|exists nfa; split; [by right|]; by rewrite <- Hacc, <- Hd'].
      destruct (proj1 Hun) as (n & ? & ?); [by exists x|]. exists n. split; [by left|done].
    - intros (n & [Hn| ->] & Hna); [|exists d; split; [by right|]; by rewrite Hd', Hacc].
      destruct (proj2 Hun) as (x & ? & ?); [by exists n|]. exists x. split; [by left|done]. }
  unfold handleNFA. rewrite Hd. cbn [mbind option_bind]. destruct (graphSize dfa <? smallDFASize).
  - unfold addDFA. cbn [snd fst]. rewrite Hm. cbn [mbind option_bind]. exists (lowered, small ++ [d]). cbn [fst snd]. split; [done|]. split; [done|].
    split; [apply Forall_app; split; [done|by apply Forall_singleton]|]. apply Hnext. intros x. rewrite !elem_of_app, list_elem_of_singleton. tauto.
  - rewrite Hm. cbn [mbind option_bind]. exists (lowered ++ [d], small). cbn [fst snd]. split; [done|]. split; [apply Forall_app; split; [done|by apply Forall_singleton]|].
    split; [done|]. apply Hnext. intros x. rewrite !elem_of_app, list_elem_of_singleton. tauto.
Qed.

Lemma compileDFAs_sound f : compilable U f -> (forall nfas f', processNFAs f maxNFASize = Some (nfas, f') -> Forall convertible nfas) ->
  exists dfas, compileDFAs f = Some dfas /\ Forall (combinable U) dfas
    /\ forall w a, Forall (λ c, 0 <= c <= 127) w -> union_accepts dfas w a <-> filters_accept f w a.
Proof using HU.
  intros [Hwf Hroot Hacts _] Hconv. destruct (processNFAs_sound f maxNFASize Hwf Hroot) as (nfas & f' & Hp & _ & Hwfn & Hin & Hacc); [intros path a Ha; by eapply Hacts|].
  destruct (handleNFAs_spec nfas Hwfn (Hconv _ _ Hp)) as (lowered & small & Hfold & Hl & Hs & Hun).
  { intros nfa n acts a Hn Hna Ha. destruct (Hin nfa n acts a Hn Hna Ha) as (path & Hpath). by eapply Hacts. }
  destruct (combineDFAs_sound U smallDFASize HU ltac:(unfold smallDFASize, UINT32_MAX; lia) small Hs) as (large & rest & Hc & Hall & _ & _ & Hcun).
  exists (lowered ++ large ++ rest). unfold compileDFAs. rewrite Hp. cbn [mbind option_bind]. rewrite Hfold. cbn [mbind option_bind]. rewrite Hc. cbn [mbind option_bind].
  split; [done|]. split; [by apply Forall_app|]. intros w a Hw. by rewrite union_accepts_app, Hcun, <- union_accepts_app, Hun, Hacc.
Qed.
End Filters.

(** ** The universal actions *)

(** The DFA with the universal actions on its root. *)
Record universal_added (u : gset Z) (d d' : DFA) : Prop := {
  ua_wf : wf_dfa d' = true;
  ua_root : dfa_root d' = dfa_root d;
  ua_next : forall n c, dfa_next d' n c = dfa_next d n c;
  ua_actions : forall n a, a ∈ actions_of d' n <-> a ∈ actions_of d n \/ n = dfa_root d /\ a ∈ u
}.

Lemma wf_actions_of d n a : wf_dfa d = true -> a ∈ actions_of d n <-> is_live d n = true /\ node_has d n a.
Proof.
  intros Hwf. unfold actions_of. destruct (is_live d n) eqn:Hl.
  - destruct (live_info d Hwf n Hl) as (node & acts & ts & tr & Hn & _ & Ha & _ & _ & _ & _ & _ & _ & ->). split.
    + intros Hin. split; [done|]. by exists node, acts.
    + intros (_ & node' & acts' & Hn' & Ha' & Hin). simplify_eq. done.
  - rewrite (dead_info d n Hl). split; [intros Hx; by apply elem_of_nil in Hx|]. by intros [? _].
Qed.

(** Other actions for the root. *)
Lemma root_actions_set d root nodes acts : wf_dfa d = true -> (forall a, a ∉ actions_of d (dfa_root d)) -> (forall a, a ∈ acts -> action_ok a = true) -> vec_size acts <= 65535 ->
  vec_at (dfa_nodes d) (dfa_root d) = Some root -> vec_set (dfa_nodes d) (dfa_root d) (setActions root (vec_size (dfa_actions d)) (vec_size acts)) = Some nodes ->
  universal_added (list_to_set acts) d (mkDFA nodes (dfa_actions d ++ acts) (transitionRanges d) (transitionDestinations d) (dfa_root d)).
Proof.
  intros Hwf Hquiet Hok Hsz Hroot Hset. set (d' := mkDFA nodes _ _ _ _). set (root' := setActions root _ _) in *. pose proof (λ j, vec_set_spec _ _ _ _ j Hset) as Hat.
  assert (forall n, vec_at (dfa_nodes d') n = if dfa_root d =? n then Some root' else vec_at (dfa_nodes d) n) as Hat' by exact Hat. clear Hat.
  assert (node_actions d' root' = Some acts) as Hra.
  { unfold node_actions, root', setActions. cbn [m_actionsStart m_actionsLength d' dfa_actions]. pose proof (vec_size_nonneg acts). rewrite uwrap_small by lia.
    pose proof (slice_new' (dfa_actions d) acts) as Hs. unfold slice in Hs. rewrite vec_size_app in Hs.
    by replace (vec_size (dfa_actions d) + vec_size acts - vec_size (dfa_actions d)) with (vec_size acts) in Hs by lia. }
  assert (forall node, node_transitions d' node = node_transitions d node) as Htr by done.
  assert (forall n, is_live d' n = is_live d n) as Hlive.
  { intros n. unfold is_live. rewrite Hat'. destruct (Z.eqb_spec (dfa_root d) n) as [<-|]; [|done]. by rewrite Hroot. }
  assert (wf_dfa d' = true) as Hwf'.
  { pose proof (root_live d Hwf) as Hl. destruct (wf_parts d Hwf) as (_ & Hnodes & Hsize). unfold wf_dfa. rewrite !andb_true_iff. split_and!.
    - by rewrite Hlive.
    - apply forallb_forall. intros node [i Hi]%list_elem_of_In%list_elem_of_lookup_1. rewrite <- vec_at_nat, Hat' in Hi. unfold node_ok.
      destruct (Z.eqb_spec (dfa_root d) (Z.of_nat i)) as [Heq|Hne].
      + injection Hi as <-. rewrite Hra, Htr. specialize (Hnodes _ _ Hroot). unfold node_ok in Hnodes. apply orb_true_iff in Hnodes as [Hk|Hnodes]; [by rewrite (Hk : isKilled root' = true)|].
        apply orb_true_iff. right. change (node_transitions d root') with (node_transitions d root). destruct (node_actions d root); [|done]. destruct (node_transitions d root) as [ts|]; [|done].
        apply andb_true_iff in Hnodes as [[_ Hr]%andb_true_iff Hts]. rewrite Hr, andb_true_r. apply andb_true_iff. split; [apply forallb_forall; intros a Ha%list_elem_of_In; by apply Hok|].
        apply forallb_forall. intros t Ht. rewrite Hlive. rewrite forallb_forall in Hts. by apply Hts.
      + specialize (Hnodes _ _ Hi). unfold node_ok in Hnodes. apply orb_true_iff in Hnodes as [->|Hnodes]; [done|]. apply orb_true_iff. right. rewrite Htr.
        destruct (node_actions d node) as [as0|] eqn:Ea; [|done]. rewrite (node_actions_grow d d' acts node as0 eq_refl Ea). destruct (node_transitions d node) as [ts|]; [|done].
        apply andb_true_iff in Hnodes as [Hr Hts]. rewrite Hr. apply forallb_forall. intros t Ht. rewrite Hlive. rewrite forallb_forall in Hts. by apply Hts.
    - apply Z.ltb_lt. change (vec_size nodes < UINT32_MAX). by rewrite (vec_set_size _ _ _ _ Hset). }
  split; [done|done| |].
  - intros n c. unfold dfa_next. rewrite Hat'. destruct (Z.eqb_spec (dfa_root d) n) as [<-|]; [|done]. by rewrite Hroot.
  - intros n a. rewrite (wf_actions_of d' n a Hwf'), (wf_actions_of d n a Hwf), Hlive, elem_of_list_to_set. unfold node_has. rewrite Hat'.
    destruct (Z.eqb_spec (dfa_root d) n) as [<-|Hne].
    + split.
      * intros (_ & node & as1 & Hn & Ha & Hin). injection Hn as <-. rewrite Hra in Ha. injection Ha as <-. by right.
      * intros [Hx|[_ Hin]]; [exfalso; apply (Hquiet a); by apply wf_actions_of|]. split; [by apply root_live|]. by exists root', acts.
    + split.
      * intros (Hl & node & as1 & Hn & Ha & Hin). left. split; [done|]. destruct (live_info d Hwf n Hl) as (node' & as2 & _ & _ & Hn' & _ & Ha' & _). rewrite Hn in Hn'. injection Hn' as <-.
        rewrite (node_actions_grow d d' acts node as2 eq_refl Ha') in Ha. injection Ha as <-. by exists node, as2.
      * intros [(Hl & node & as1 & Hn & Ha & Hin)|[-> _]]; [|done]. split; [done|]. exists node, as1. split; [done|]. split; [by apply (node_actions_grow d d' acts)|done].
Qed.

Lemma addUniversal_sound d u : wf_dfa d = true -> (forall a, a ∉ actions_of d (dfa_root d)) -> (forall a, a ∈ u -> action_ok a = true) ->
  Z.of_nat (base.size u) < 65535 -> vec_size (dfa_actions d) + Z.of_nat (base.size u) < 2 ^ 32 ->
  exists d', addUniversalActionsToDFA d u = Some d' /\ universal_added u d d'.
Proof.
  intros Hwf Hquiet Hu Hsize Hroom. unfold addUniversalActionsToDFA. case_bool_decide as Hempty.
  { exists d. split; [done|]. split; [done|done|done|]. intros n a. subst u. set_solver. }
  pose proof (root_live d Hwf) as Hroot. destruct (live_info d Hwf _ Hroot) as (root & _ & _ & _ & Hn0 & _).
  rewrite Hn0. cbn [mbind option_bind]. set (acts := visit (elements u)). assert (vec_size acts = Z.of_nat (base.size u)) as Hlen.
  { unfold acts, vec_size. by rewrite visit_perm. }
  assert (forall a, a ∈ acts <-> a ∈ u) as Hin by (intros a; unfold acts; by rewrite visit_perm, elem_of_elements).
  clearbody acts.
  pose proof (vec_size_nonneg (dfa_actions d)). rewrite vec_size_app, Hlen. rewrite (uwrap_small 32 (vec_size (dfa_actions d))) by lia.
  rewrite (uwrap_small 32 (vec_size (dfa_actions d) + Z.of_nat (base.size u))) by lia. rewrite uwrap_small by lia.
  replace (vec_size (dfa_actions d) + Z.of_nat (base.size u) - vec_size (dfa_actions d)) with (vec_size acts) by lia. rewrite (proj2 (Z.ltb_lt _ _)) by lia. cbn [negb].
  destruct (vec_set_is_Some (dfa_nodes d) (dfa_root d) (setActions root (vec_size (dfa_actions d)) (vec_size acts))) as [nodes Hset]; [by eapply vec_at_bound|].
  rewrite Hset. cbn [mbind option_bind]. eexists. split; [reflexivity|].
  assert (u = list_to_set acts) as -> by (apply set_eq; intros a; by rewrite elem_of_list_to_set, Hin).
  eapply root_actions_set; [done|done| |lia|done|done]. intros a Ha. apply Hu. by apply elem_of_list_to_set.
Qed.

(** ** Visited nodes and runs *)

Lemma visited_run dfa n input m :
  m ∈ visited (dfa_next dfa) n input <-> exists p, p `prefix_of` input /\ dfa_run dfa n p = Some m.
Proof.
  revert n. induction input as [|c input IH]; intros n; cbn [visited].
  - rewrite list_elem_of_singleton. split; [intros ->; by exists []|]. intros (p & ->%prefix_nil_inv & [= ->]). done.
  - rewrite elem_of_cons. split.
    + intros [->|Hm]; [exists []; split; [apply prefix_nil|done]|].
      destruct (dfa_next dfa n c) as [k|] eqn:Ek; [|by apply elem_of_nil in Hm].
      apply IH in Hm as (p & Hp & Hr). exists (c :: p). split; [by apply prefix_cons|]. cbn [dfa_run]. by rewrite Ek.
    + intros ([|d p] & Hp & Hr); [left; by injection Hr|]. pose proof (prefix_cons_inv_1 _ _ _ _ Hp) as ->.
      apply prefix_cons_inv_2 in Hp. cbn [dfa_run] in Hr. destruct (dfa_next dfa n c) as [k|]; [|done].
      right. apply IH. by exists p.
Qed.

Lemma run_live d w : wf_dfa d = true -> forall n m, is_live d n = true -> dfa_run d n w = Some m -> is_live d m = true.
Proof.
  intros Hwf. induction w as [|c w IH]; intros n m Hn; cbn [dfa_run]; [by intros [= <-]|]. destruct (dfa_next d n c) as [k|] eqn:Ek; [|done].
  apply IH. eapply (half_next_live d Hwf n c); [by right|done].
Qed.

(** The actions of the nodes on the way are those that a beginning of the string reaches. *)
Lemma actions_of_accepts d w n a : wf_dfa d = true -> dfa_run d (dfa_root d) w = Some n -> a ∈ actions_of d n <-> dfa_accepts d w a.
Proof.
  intros Hwf Hr. rewrite (wf_actions_of d n a Hwf). pose proof (run_live d w Hwf _ _ (root_live d Hwf) Hr) as Hl. split.
  - intros (_ & node & acts & Hn & Ha & Hin). by exists n, node, acts.
  - intros (m & node & acts & Hm & Hn & Ha & Hin). rewrite Hr in Hm. injection Hm as <-. split; [done|]. by exists node, acts.
Qed.

Lemma prefix_ascii url p : url_ok url -> p `prefix_of` url ++ [0] -> Forall (λ c, 0 <= c <= 127) p.
Proof.
  intros [Hu _] [q Hq]. assert (Forall (λ c, 0 <= c <= 127) (url ++ [0])) as Hf.
  { apply Forall_app. split; [|repeat constructor; lia]. eapply Forall_impl; [exact Hu|]. simpl. lia. }
  rewrite Hq in Hf. by apply Forall_app in Hf as [? _].
Qed.

(** ** Lowering *)

(** The DFAs that are lowered: the first one has the universal actions. *)
Definition loweredDFAs (dfas : list DFA) (u : gset Z) : option (list DFA) :=
  match dfas with
  | [] => d ← addUniversalActionsToDFA DFA_empty u; Some [d]
  | d :: ds => d ← addUniversalActionsToDFA d u; Some (d :: ds)
  end.

Lemma lowerDFAs_eq dfas u : lowerDFAsToBytecode dfas u = ds ← loweredDFAs dfas u; compileAll ds.
Proof. destruct dfas as [|d ds]; cbn [lowerDFAsToBytecode loweredDFAs]; by destruct (addUniversalActionsToDFA _ u). Qed.

(** What is triggered by DFAs of which the first has the universal actions. *)
Lemma universal_triggered u d d' ds top url flags a : universal_added u d d' -> Forall (λ d, wf_dfa d = true) (d :: ds) ->
  (forall a, a ∉ actions_of d (dfa_root d)) -> url_ok url ->
  triggered_by dfa_next (d' :: ds) top url flags a <->
  InterpreterProof.triggers top flags a = true /\ ((exists p, p `prefix_of` url ++ [0] /\ union_accepts (d :: ds) p a) \/ a ∈ u /\ is_flagged a = true).
Proof.
  intros [Hwf' Hroot Hnext Hacts] Hwf Hquiet Hurl. unfold triggered_by. rewrite Forall_forall in Hwf.
  assert (forall n, n ∈ visited (dfa_next d') (dfa_root d') (url ++ [0]) <-> n ∈ visited (dfa_next d) (dfa_root d) (url ++ [0])) as Hvis.
  { intros n. rewrite Hroot. generalize (dfa_root d). induction (url ++ [0]) as [|c w IH]; intros m; cbn [visited]; [done|]. rewrite !elem_of_cons, Hnext.
    destruct (dfa_next d m c); [by rewrite IH|done]. }
  split.
  - intros (Ht & i & x & n & Hi & Hv & Ha & Hfl). split; [done|]. destruct i as [|i].
    + injection Hi as <-. apply Hacts in Ha as [Ha|[-> Ha]]; [left|right; split; [done|by apply Hfl]]. apply Hvis, visited_run in Hv as (p & Hp & Hr).
      exists p. split; [done|]. exists d. split; [by left|]. apply (actions_of_accepts d p n a); [apply Hwf; by left|done|done].
    + left. assert (x ∈ d :: ds) as Hx by (right; by eapply list_elem_of_lookup_2). apply visited_run in Hv as (p & Hp & Hr). exists p. split; [done|]. exists x. split; [done|].
      apply (actions_of_accepts x p n a); [by apply Hwf|done|done].
  - intros (Ht & Hcase). split; [done|]. destruct Hcase as [(p & Hp & x & Hx & Hacc)|[Ha Hfl]].
    + pose proof Hacc as (n & node & acts & Hr & _). apply (actions_of_accepts x p n a (Hwf x Hx) Hr) in Hacc. apply elem_of_cons in Hx as [->|Hx].
      * exists 0%nat, d', n. split; [done|]. split; [apply Hvis, visited_run; by exists p|]. split; [apply Hacts; by left|]. intros _ ->. exfalso. rewrite Hroot in Hacc. by apply (Hquiet a).
      * apply list_elem_of_lookup in Hx as [i Hi]. exists (S i), x, n. split; [done|]. split; [apply visited_run; by exists p|done].
    + exists 0%nat, d', (dfa_root d'). split; [done|]. split; [destruct (url ++ [0]); left|]. split; [apply Hacts; by right|done].
Qed.

(** ** From filters to the interpreter *)

(** The limits of the formats: see [convertible]; fewer than 65535 universal
    actions and room for them; jumps that fit. *)
Record limits (f : CombinedURLFilters) (u : gset Z) : Prop := {
  lm_nfas : forall nfas f', processNFAs f maxNFASize = Some (nfas, f') -> Forall convertible nfas;
  lm_universal : Z.of_nat (base.size u) < 65535;
  lm_room : forall d ds, compileDFAs f = Some (d :: ds) -> vec_size (dfa_actions d) + Z.of_nat (base.size u) < 2 ^ 32;
  lm_code : forall dfas ds, compileDFAs f = Some dfas -> loweredDFAs dfas u = Some ds -> total_worst_case ds + 16 < INT32_MAX
}.

(** The end of the URL is compiled as it should be: in the DFAs of the filters no
    transition on it goes to the fallback target of its node, where the bytecode
    compiler drops it ([nul_faithful], see [nul_transition_lost]), and none leads to
    a node with a fallback jump, which reads behind the URL ([nul_safe]). *)
Definition end_of_url_kept (f : CombinedURLFilters) (u : gset Z) : Prop :=
  forall dfas ds, compileDFAs f = Some dfas -> loweredDFAs dfas u = Some ds -> Forall nul_safe ds /\ Forall (λ d, nul_faithful d = true) ds.

(** The same as checks that run. *)
Definition limits_check (f : CombinedURLFilters) (u : gset Z) : bool :=
  match processNFAs f maxNFASize with
  | Some (nfas, _) => forallb (λ nfa, (vec_size (nfa_actions nfa) <=? 65535) &&
      match convert (2 ^ length (nfa_nodes nfa)) nfa with Some d => vec_size (dfa_nodes d) <? UINT32_MAX | None => true end) nfas
  | None => true
  end
  && (Z.of_nat (base.size u) <? 65535)
  && match compileDFAs f with
     | Some dfas =>
         match dfas with d :: _ => vec_size (dfa_actions d) + Z.of_nat (base.size u) <? 2 ^ 32 | [] => true end
         && match loweredDFAs dfas u with
            | Some ds => total_worst_case ds + 16 <? INT32_MAX
            | None => true
            end
     | None => true
     end.

Definition end_of_url_check (f : CombinedURLFilters) (u : gset Z) : bool :=
  match dfas ← compileDFAs f; loweredDFAs dfas u with
  | Some ds => forallb nul_safe_check ds && forallb nul_faithful ds
  | None => true
  end.

Lemma end_of_url_check_sound f u : end_of_url_check f u = true -> end_of_url_kept f u.
Proof.
  unfold end_of_url_check. intros Hd dfas ds Hdfas Hl. rewrite Hdfas in Hd. cbn [mbind option_bind] in Hd. rewrite Hl, !andb_true_iff, !forallb_forall in Hd.
  destruct Hd as [Hs Hf]. split; apply Forall_forall; intros d Hin%list_elem_of_In; [by apply nul_safe_check_sound, Hs|by apply Hf].
Qed.

Lemma limits_check_sound f u : limits_check f u = true -> limits f u.
Proof.
  unfold limits_check. rewrite !andb_true_iff. intros [[Hn Hu%Z.ltb_lt] Hd]. split; [|done| |].
  - intros nfas f' Hp. rewrite Hp in Hn. rewrite forallb_forall in Hn. apply Forall_forall. intros nfa Hin%list_elem_of_In%Hn. apply andb_true_iff in Hin as [Hsz%Z.leb_le Hc].
    split; [done|]. intros dfa Hdfa. rewrite Hdfa in Hc. by apply Z.ltb_lt.
  - intros d ds Hds. rewrite Hds in Hd. apply andb_true_iff in Hd as [Hd _]. by apply Z.ltb_lt.
  - intros dfas ds Hdfas Hl. rewrite Hdfas in Hd. apply andb_true_iff in Hd as [_ Hd]. rewrite Hl in Hd. by apply Z.ltb_lt.
Qed.

(** Enough for each byte of the code at each character. *)
Definition interpreterFuel (bc url : list Z) : nat := S (length bc + S (length bc) * (length url + 3)).

Lemma images_length base dfas bc : images base dfas bc -> (length dfas <= length bc)%nat.
Proof.
  induction 1 as [|b dfa dfas start code rest _ _ IH]; [done|]. rewrite length_app. pose proof (vec_size_image b start code) as Hv. pose proof (listing_size_nonneg code).
  unfold vec_size in Hv. cbn [length]. lia.
Qed.

(** What the bytecode of filters and universal actions does. *)
Record bytecode_of (f : CombinedURLFilters) (u : gset Z) (bc : list Z) : Prop := {
  bo_interpret : forall top url flags fuel, url_ok url -> (interpreterFuel bc url <= fuel)%nat ->
    exists acts, interpret bc top url flags fuel = Finished acts
      /\ forall a, a ∈ acts <-> InterpreterProof.triggers top flags a = true /\ (filters_match f url a \/ a ∈ u /\ is_flagged a = true);
  bo_everything : forall top fuel, (length bc < fuel)%nat ->
    exists acts, actionsMatchingEverything bc top fuel = Finished acts
      /\ forall a, a ∈ acts <-> a ∈ u /\ is_flagged a = false /\ condition_holds top a = true
}.

Lemma DFA_empty_quiet n a : a ∉ actions_of DFA_empty n.
Proof.
  assert (wf_dfa DFA_empty = true) as Hwf by reflexivity. rewrite (wf_actions_of DFA_empty n a Hwf). intros (_ & node & acts & Hn & Ha & Hin).
  apply vec_at_Some in Hn as [_ Hn]. cbn [DFA_empty dfa_nodes] in Hn. apply list_lookup_singleton_Some in Hn as [_ <-]. vm_compute in Ha. injection Ha as <-. by apply elem_of_nil in Hin.
Qed.

Lemma DFA_empty_rejects w a : ~ dfa_accepts DFA_empty w a.
Proof. intros Hacc. pose proof Hacc as (n & _ & _ & Hr & _). apply (actions_of_accepts DFA_empty w n a) in Hacc; [|reflexivity|done]. by apply DFA_empty_quiet in Hacc. Qed.

(** The DFA that gets the universal actions is quiet on its root. *)
Lemma first_lowered U f u dfas : compilable U f -> limits f u -> (forall a, a ∈ u -> action_ok a = true) -> compileDFAs f = Some dfas -> Forall (combinable U) dfas ->
  (forall w a, Forall (λ c, 0 <= c <= 127) w -> union_accepts dfas w a <-> filters_accept f w a) ->
  exists d ds d', loweredDFAs dfas u = Some (d' :: ds) /\ universal_added u d d' /\ Forall (λ d, wf_dfa d = true) (d :: ds)
    /\ (forall a, a ∉ actions_of d (dfa_root d)) /\ forall w a, union_accepts (d :: ds) w a <-> union_accepts dfas w a.
Proof.
  intros Hf Hlim Hu Hc Hok Hacc. destruct dfas as [|d ds].
  - destruct (addUniversal_sound DFA_empty u) as (d' & Hd' & Hadd); [done|apply DFA_empty_quiet|done|apply Hlim|pose proof (lm_universal _ _ Hlim); change (vec_size (dfa_actions DFA_empty)) with 0; lia|].
    exists DFA_empty, [], d'. cbn [loweredDFAs]. rewrite Hd'. cbn [mbind option_bind]. split; [done|]. split; [done|]. split; [by constructor|]. split; [apply DFA_empty_quiet|].
    intros w a. rewrite union_accepts_singleton. split; [intros Hx; by apply DFA_empty_rejects in Hx|]. intros (x & Hx & _). by apply elem_of_nil in Hx.
  - apply Forall_cons in Hok as [[Hwf Hin] Hok]. assert (forall a, a ∉ actions_of d (dfa_root d)) as Hquiet.
    { intros a Ha. apply (cp_nonempty _ _ Hf a). apply Hacc; [constructor|]. exists d. split; [by left|]. by apply (actions_of_accepts d [] (dfa_root d) a Hwf). }
    destruct (addUniversal_sound d u Hwf Hquiet Hu (lm_universal _ _ Hlim) (lm_room _ _ Hlim d ds Hc)) as (d' & Hd' & Hadd).
    exists d, ds, d'. cbn [loweredDFAs]. rewrite Hd'. cbn [mbind option_bind]. split; [done|]. split; [done|]. split; [|done].
    constructor; [done|]. eapply Forall_impl; [exact Hok|]. by intros x [? _].
Qed.

Lemma compileToBytecode_sound U f u : Z.of_nat (base.size U) <= 65535 -> compilable U f -> (forall a, a ∈ u -> action_ok a = true) -> limits f u -> end_of_url_kept f u ->
  exists bc, compileToBytecode f u = Some bc /\ bytecode_of f u bc.
Proof.
  intros HU Hf Hu Hlim Hend. destruct (compileDFAs_sound U HU f Hf (lm_nfas _ _ Hlim)) as (dfas & Hc & Hok & Hacc).
  destruct (first_lowered U f u dfas Hf Hlim Hu Hc Hok Hacc) as (d & ds & d' & Hl & Hadd & Hwf & Hquiet & Hun).
  pose proof (lm_code _ _ Hlim dfas _ Hc Hl) as Hsize. destruct (Hend dfas _ Hc Hl) as [Hnul Hfaith].
  assert (rule_list_ok (d' :: ds)) as Hrules.
  { split; [|done]. apply Forall_cons in Hwf as [_ Hwf]. apply Forall_cons in Hnul as [Hn1 Hn2]. constructor; [split; [apply Hadd|done]|].
    apply Forall_forall. intros x Hx. rewrite Forall_forall in Hwf. rewrite Forall_forall in Hn2. auto. }
  destruct (interpret_dfa_sound (d' :: ds) Hrules Hfaith) as (bc & Hbc & Hrun). destruct (actionsMatchingEverything_sound d' ds Hrules) as (bc' & Hbc' & Hevery).
  rewrite Hbc in Hbc'. injection Hbc' as <-. destruct (compileAll_ok _ Hrules) as (bc' & Hbc' & Him & _). rewrite Hbc in Hbc'. injection Hbc' as <-. apply images_length in Him.
  exists bc. split; [unfold compileToBytecode; rewrite Hc; cbn [mbind option_bind]; rewrite lowerDFAs_eq, Hl; exact Hbc|]. split.
  - intros top url flags fuel Hurl Hfuel. destruct (Hrun top url flags fuel Hurl) as (acts & Hi & Hin); [unfold enough_fuel; unfold interpreterFuel in Hfuel; lia|].
    exists acts. split; [done|]. intros a. rewrite Hin, (universal_triggered u d d' ds top url flags a Hadd Hwf Hquiet Hurl). unfold filters_match, anchored.
    assert ((exists p, p `prefix_of` url ++ [0] /\ union_accepts (d :: ds) p a) <-> exists path, a ∈ actionsAt f path /\ exists p, p `prefix_of` url ++ [0] /\ group_lang path p) as ->; [|done].
    split.
    + intros (p & Hp & Hx). apply Hun, Hacc in Hx as (path & ? & ?); [|by eapply prefix_ascii]. exists path. split; [done|]. by exists p.
    + intros (path & Ha & p & Hp & Hw). exists p. split; [done|]. apply Hun, Hacc; [by eapply prefix_ascii|]. by exists path.
  - intros top fuel Hfuel. destruct (Hevery top fuel Hfuel) as (acts & Hi & Hin). exists acts. split; [done|]. intros a.
    rewrite Hin, (ua_root _ _ _ Hadd), (ua_actions _ _ _ Hadd). pose proof (Hquiet a). tauto.
Qed.
End CompileToBytecode.

(** C2: from the combined filters to the interpreter.  For filters as the parsers
    make them, within the limits of the formats ([limits]), and when the bytecode
    compiler drops no transition on the end of the URL and none makes the
    interpreter read behind it ([end_of_url_kept], which [end_of_url_check] decides
    and which does not hold of all filters), [compileToBytecode] produces bytecode on
    which the interpreter terminates; for every URL of ASCII characters it returns
    exactly the actions, of those the load triggers, for which the terms of a pattern
    match a beginning of the URL, and the flagged universal actions;
    [actionsMatchingEverything] returns the other universal actions. *)
Theorem compileToBytecode_correct `{HashOrder, HashMapOrder, UninitializedMemory, SlotOrder} U f u :
  Z.of_nat (base.size U) <= 65535 -> compilable U f -> (forall a, a ∈ u -> action_ok a = true) -> limits f u -> end_of_url_kept f u ->
  exists bc, compileToBytecode f u = Some bc /\ bytecode_of f u bc.
Proof. exact (compileToBytecode_sound U f u). Qed.

(** ** An example *)

Lemma sample_filters_compilable : compilable {[ 7; 9 ]} sample_filters.
Proof.
  destruct sample_filters_sound as [Hwf Hin]. split; [exact Hwf|by vm_compute| |].
  - intros path a [[_ ->]|[[_ ->]|[_ ->]]]%Hin; (split; [set_solver|lia]).
  - intros a (path & Ha & Hw). apply Hin in Ha as [[-> _]|[[-> _]|[-> _]]]; destruct Hw as (x & y & Hxy & Hx & _);
      apply single_lang_iff in Hx; [|lia| |lia| |lia]; by subst x.
Qed.

Lemma sample_filters_limits : limits sample_filters {[ 5 ]}.
Proof. apply limits_check_sound. vm_compute. reflexivity. Qed.

Lemma sample_filters_end : end_of_url_kept sample_filters {[ 5 ]}.
Proof. apply end_of_url_check_sound. vm_compute. reflexivity. Qed.

Lemma compileToBytecode_correct_witness : exists bc acts, compileToBytecode sample_filters {[ 5 ]} = Some bc
  /\ interpret bc None [99; 98] 0 (interpreterFuel bc [99; 98]) = Finished acts /\ 7 ∈ acts.
Proof.
  destruct (compileToBytecode_correct {[ 7; 9 ]} sample_filters {[ 5 ]}) as (bc & Hc & Hrun & _).
  - vm_compute. discriminate.
  - exact sample_filters_compilable.
  - intros a Ha. apply elem_of_singleton in Ha. subst a. vm_compute. reflexivity.
  - exact sample_filters_limits.
  - exact sample_filters_end.
  - destruct (Hrun None [99; 98] 0 (interpreterFuel bc [99; 98])) as (acts & Hi & Hin); [split; [repeat constructor; lia|vm_compute; reflexivity]|apply Nat.le_refl|].
    exists bc, acts. split; [exact Hc|]. split; [exact Hi|]. apply Hin. split; [reflexivity|]. left. exists [letter 99; letter 98].
    split; [apply sample_filters_sound; right; left; split; reflexivity|]. exists [99; 98]. split; [exists [0]; reflexivity|].
    exists [99], [98]. split; [reflexivity|]. split; [apply single_lang; lia|]. exists [98], []. split; [reflexivity|]. split; [apply single_lang; lia|reflexivity].
Defined.
