(* ===== verification/RuleListProof.v ===== *)
(** * From a rule list to the interpreter

    [compileRuleList] as a whole: the rules are distributed over three sets of
    filters and universal actions, and each set becomes bytecode.  The interpreter
    on the bytecode, together with the universal actions, finds exactly the
    actions of the rules whose regular expressions are found. *)

From stdpp Require Import base numbers option list list_numbers gmap sets.
From Stdlib Require Import ZArith Lia.
From S2P Require Import Prelude.
From S2P Require Import DFABytecode.
From S2P Require Import DFA.
From S2P Require Import DFABytecodeInterpreter.
From S2P Require Import InterpreterProof.
From S2P Require Import BytecodeCorrect.
From S2P Require Import NFA.
From S2P Require Import Term.
From S2P Require Import TermProof.
From S2P Require Import Yarr.
From S2P Require Import YarrReading.
From S2P Require Import YarrProof.
From S2P Require Import CombinedURLFilters.
From S2P Require Import URLFilterParser.
From S2P Require Import URLFilterProof.
From S2P Require Import URLFilterMeaning.
From S2P Require Import ContentExtensionRule.
From S2P Require Import ContentExtensionError.
From S2P Require Import ActionSerialization.
From S2P Require Import SerializationProof.
From S2P Require Import ContentExtensionParser.
From S2P Require Import ContentExtension.
From S2P Require Import ContentExtensionCompiler.
From S2P Require Import RulePartition.
From S2P Require Import Partition.
From S2P Require Import DFAMinimizer.
From S2P Require Import ProcessNFAs.
From S2P Require Import ProcessProof.
From S2P Require Import Pipeline.

Section CompileRuleList.
Context `{HashOrder, HashMapOrder, UninitializedMemory, SlotOrder}.
Variable U_GET_GC_MASK : Z -> Z.
Variable unicodeMatchProperty : list Z -> option BuiltInCharacterClassID.
Variable unicodeMatchPropertyValue : list Z -> list Z -> option BuiltInCharacterClassID.

(** What the client is given on success; an error ends the compilation before the bytecode. *)
Definition compileRuleList (rules : list ContentExtensionRule) : Compiled CompiledContentExtension :=
  andThen (partitionRuleList U_GET_GC_MASK unicodeMatchProperty unicodeMatchPropertyValue rules) (λ '(actions, domains, p),
    withoutConditions ← compileToBytecode (filtersWithoutConditions p) (universalActionsWithoutConditions p);
    withConditions ← compileToBytecode (filtersWithConditions p) (universalActionsWithConditions p);
    topURL ← compileToBytecode (topURLFilters p) (universalTopURLActions p);
    Some (inr (mkCompiledContentExtension withoutConditions withConditions topURL domains actions))).
End CompileRuleList.

(** ** Patterns that do not match the empty string *)

Lemma simplify_forall (P : Term -> Prop) b terms : P canonicalDotStar -> Forall P terms -> Forall P (simplifySunkTerms b terms).
Proof.
  intros HP Hall. unfold simplifySunkTerms. destruct terms as [|t0 ts]; [done|]. revert Hall. generalize (t0 :: ts). clear t0 ts. intros terms Hall.
  assert (forall b, Forall P (canonicalize b terms)) as Hc.
  { induction Hall as [|t terms Ht _ IH]; intros c; cbn [canonicalize]; [done|]. destruct (c && _); [done|]. destruct (isKnownToMatchAnyString t); by constructor. }
  assert (Forall P (addDotStar b (canonicalize false terms))) as Ha.
  { specialize (Hc false). unfold addDotStar. destruct (canonicalize false terms); [done|]. destruct (_ && _); [by constructor|done]. }
  assert (Forall P (removeDotStarEnd (addDotStar b (canonicalize false terms)))) as Hr by (unfold removeDotStarEnd; destruct (_ && _); [by apply Forall_take|done]).
  unfold removeIrrelevant. destruct (lastIsEndOfLine _); [done|]. apply Forall_rev. apply Forall_rev in Hr. induction Hr as [|t l Ht Hl IH]; cbn [removeIrrelevantFrom]; [done|].
  destruct (negb _); [done|by constructor].
Qed.

Lemma matches_something terms : Forall (λ t, valid_term t = true) terms -> existsb matchesAtLeastOneCharacter terms = true -> ~ group_lang terms [].
Proof.
  induction 1 as [|t terms Ht _ IH]; [done|]. cbn [existsb]. intros Hex (u & v & Huv & Hu & Hv). symmetry in Huv. apply app_eq_nil in Huv as [-> ->].
  apply orb_true_iff in Hex as [Hm|Hex]; [|by apply IH]. by apply (matchesAtLeastOneCharacter_true t Ht Hm [] Hu).
Qed.

Lemma sunk_valid terms : sunk_ok terms -> Forall (λ t, valid_term t = true) terms.
Proof.
  intros (us & Hp & Hshape). assert (Forall (λ t, valid_term t = true) us) as Hv.
  { eapply Forall_impl; [exact Hp|]. intros t Ht. by apply andb_true_iff in Ht as [? _]. }
  destruct Hshape as [->| ->]; [done|]. apply Forall_app. split; [done|]. by constructor.
Qed.

(** The terms that a pattern without errors adds. *)
Lemma finalize_added s p m patternId f p' f' : sim s p m -> depth s = 0 -> finalizePattern p patternId f = (p', f') -> m_parseStatus p' = Ok ->
  exists terms, f' = addPattern f patternId terms /\ terms <> [] /\ ~ group_lang terms [].
Proof.
  intros Hsim Hd Hfin Hok. unfold finalizePattern in Hfin. destruct (hasError p) eqn:He; [injection Hfin as <- <-; apply hasError_ok in Hok; congruence|].
  set (p1 := sinkFloatingTermIfNecessary p) in *. destruct (existsb _ _) eqn:Eex; cbn [negb] in Hfin; injection Hfin as <- <-; [|by apply fail_not_ok in Hok].
  cbn [m_sunkTerms set_sunkTerms] in *. assert (hasError p1 = false) as He1 by (by apply hasError_ok). destruct (sunk_terms s p m Hsim He Hd He1) as (_ & Hsunk & _).
  eexists. split; [reflexivity|]. split; [by eapply existsb_nonempty|]. apply matches_something; [|done]. apply simplify_forall; [done|]. by apply sunk_valid.
Qed.

(** ** Filters as the compiler builds them *)

Section Filters.
Context (U_GET_GC_MASK : Z -> Z) (unicodeMatchProperty : list Z -> option BuiltInCharacterClassID).
Context (unicodeMatchPropertyValue : list Z -> list Z -> option BuiltInCharacterClassID) (U : gset Z).

Lemma compilable_new : compilable U newCombinedURLFilters.
Proof.
  assert (forall path, actionsAt newCombinedURLFilters path = []) as Hno by (by intros []). split; [apply wf_newCombinedURLFilters|done| |].
  - intros path a Ha. rewrite Hno in Ha. by apply elem_of_nil in Ha.
  - intros a (path & Ha & _). rewrite Hno in Ha. by apply elem_of_nil in Ha.
Qed.

Lemma compilable_add f action terms : compilable U f -> action ∈ U -> 0 <= action < 2 ^ 49 -> terms <> [] -> ~ group_lang terms [] -> compilable U (addPattern f action terms).
Proof.
  intros [Hwf Hroot Hacts Hne] HaU Ha Hterms Hempty. destruct (addPattern_sound f action terms Hwf Hterms) as [Hwf' Hin]. split; [done| | |].
  - apply elem_of_nil_inv. intros a [Hx|[? _]]%Hin; [rewrite Hroot in Hx; by apply elem_of_nil in Hx|done].
  - intros path a [Hx|[_ ->]]%Hin; [by eapply Hacts|done].
  - intros a (path & [Hx|[-> _]]%Hin & Hw); [apply (Hne a); by exists path|done].
Qed.

Lemma addFilter_compilable f u pattern cs action f' u' : filter_ok U_GET_GC_MASK unicodeMatchProperty unicodeMatchPropertyValue pattern cs -> compilable U f -> action ∈ U -> 0 <= action < 2 ^ 49 ->
  addFilter U_GET_GC_MASK unicodeMatchProperty unicodeMatchPropertyValue f u pattern cs action = Some (inr (f', u')) -> compilable U f' /\ u' ⊆ u ∪ {[ action ]}.
Proof.
  intros [Hunits Hok] Hf HaU Ha. unfold addFilter. destruct (URLFilterParser_addPattern _ _ _ f (characters pattern) cs action) as [[status f1]|] eqn:Eadd; cbn [mbind option_bind]; [|done].
  intros Hr. assert (status = Ok \/ status = MatchesEverything) as Hs by (destruct status; try done; by (left + right)).
  destruct (addPattern_parsed _ _ _ _ _ _ _ _ _ Eadd Hs) as [calls Hp]. destruct (Hok _ _ Hp) as [Hplain Hany]. destruct Hs as [-> | ->]; injection Hr as <- <-.
  - split; [|set_solver]. unfold URLFilterParser_addPattern in Eadd. destruct (negb _); [done|]. destruct (bool_decide _); [done|]. rewrite Hp in Eadd. cbn [mbind option_bind] in Eadd.
    destruct (delegate_after_parse _ _ _ _ cs _ _ Hunits Hp Hplain) as (s & p & Hrec & Hsim & Hd). rewrite Hrec in Eadd. cbn [mbind option_bind] in Eadd.
    change (Yarr.hasError NoError) with false in Eadd. cbv iota in Eadd. destruct (finalizePattern p action f) as [p' f2] eqn:Efin. injection Eadd as Hst <-.
    destruct (finalize_added s p _ action f p' f2 Hsim (Hd eq_refl) Efin Hst) as (terms & -> & ? & ?). by apply compilable_add.
  - split; [|set_solver]. specialize (Hany _ _ _ Eadd). by destruct (addPattern_everything _ _ _ f _ cs action calls f1 [] Hunits Hp Hplain Hany ltac:(constructor) Eadd) as [-> _].
Qed.

Lemma addDomain_compilable f action domain f' : compilable U f -> action ∈ U -> 0 <= action < 2 ^ 49 -> addDomain f action domain = Some f' -> compilable U f'.
Proof.
  intros Hf HaU Ha. assert (forall terms, ~ group_lang (terms ++ [endOfLineAssertionTerm]) []) as Hend.
  { intros terms (w & Hw & _)%group_lang_end. by destruct w. }
  unfold addDomain. destruct (match domain with c :: _ => c =? 42 | [] => false end).
  - destruct (characterTerm 46 true) as [dot|]; [|done]. cbn [mbind option_bind]. destruct (domainTerms (tail domain)) as [terms|]; [|done]. cbn [mbind option_bind]. intros Hx. apply (inj Some) in Hx. subst f'.
    apply compilable_add; [|done|done|by destruct terms|apply Hend].
    apply compilable_add; [done|done|done|done|]. apply (Hend ([canonicalDotStar; dot] ++ terms)).
  - destruct (domainTerms domain) as [terms|]; [|done]. cbn [mbind option_bind]. intros Hx. apply (inj Some) in Hx. subst f'. apply compilable_add; [done|done|done|by destruct terms|apply Hend].
Qed.

Lemma addConditions_compilable domains cs action conds : action ∈ U -> 0 <= action < 2 ^ 49 ->
  Forall (condition_ok U_GET_GC_MASK unicodeMatchProperty unicodeMatchPropertyValue domains cs) conds -> forall f u f' u', compilable U f ->
  addConditions U_GET_GC_MASK unicodeMatchProperty unicodeMatchPropertyValue domains cs action conds f u = Some (inr (f', u')) -> compilable U f' /\ u' ⊆ u ∪ {[ action ]}.
Proof.
  intros HaU Ha. induction 1 as [|c conds Hc _ IH]; intros f u f' u' Hf; cbn [addConditions]; [intros [= <- <-]; split; [done|set_solver]|].
  intros ([f1 u1] & H1 & H2)%andThen_inr. assert (compilable U f1 /\ u1 ⊆ u ∪ {[ action ]}) as [Hf1 Hu1].
  { unfold condition_ok in Hc. destruct domains; [|by eapply addFilter_compilable]. destruct (addDomain f action (characters c)) as [f2|] eqn:Ed; [|done].
    cbn [mbind option_bind] in H1. injection H1 as <- <-. split; [by eapply addDomain_compilable|set_solver]. }
  destruct (IH f1 u1 f' u' Hf1 H2) as [? ?]. split; [done|set_solver].
Qed.

(** ** The partition *)

Definition filters_for (k : FilterSet) (p : RulePartition) : CombinedURLFilters :=
  match k with WithoutConditions => filtersWithoutConditions p | WithConditions => filtersWithConditions p | TopURL => topURLFilters p end.
Definition universal_for (k : FilterSet) (p : RulePartition) : gset Z :=
  match k with WithoutConditions => universalActionsWithoutConditions p | WithConditions => universalActionsWithConditions p | TopURL => universalTopURLActions p end.

Lemma partition_matches_for k p s a : partition_matches k p s a = matched (filters_for k p) (universal_for k p) s a.
Proof. by destruct k. Qed.

Definition partition_compilable (p : RulePartition) : Prop := forall k, compilable U (filters_for k p) /\ universal_for k p ⊆ U.

Lemma compileRule_compilable domains p r location p' : rule_ready U_GET_GC_MASK unicodeMatchProperty unicodeMatchPropertyValue domains r ->
  action_of r location ∈ U -> 0 <= action_of r location < 2 ^ 49 -> partition_compilable p ->
  compileRule U_GET_GC_MASK unicodeMatchProperty unicodeMatchPropertyValue domains p r location = Some (inr p') -> partition_compilable p'.
Proof.
  intros [Hfil Hcond] HaU Ha Hp. unfold compileRule. fold (action_of r location). destruct (Hp WithoutConditions) as [P1 U1], (Hp WithConditions) as [P2 U2], (Hp TopURL) as [P3 U3].
  case_bool_decide.
  - intros ([f u] & Hadd & [= <-])%andThen_inr. destruct (addFilter_compilable _ _ _ _ _ _ _ Hfil P1 HaU Ha Hadd) as [? Hu]. cbn [universal_for] in *.
    intros []; cbn [filters_for universal_for filtersWithoutConditions universalActionsWithoutConditions filtersWithConditions universalActionsWithConditions topURLFilters universalTopURLActions]; split; try done; set_solver.
  - intros ([f u] & Hadd & ([top utop] & Htop & [= <-])%andThen_inr)%andThen_inr. destruct (addFilter_compilable _ _ _ _ _ _ _ Hfil P2 HaU Ha Hadd) as [? Hu].
    destruct (addConditions_compilable _ _ _ _ HaU Ha Hcond _ _ _ _ P3 Htop) as [? Hut]. cbn [universal_for] in *.
    intros []; cbn [filters_for universal_for filtersWithoutConditions universalActionsWithoutConditions filtersWithConditions universalActionsWithConditions topURLFilters universalTopURLActions]; split; try done; set_solver.
Qed.

Lemma compileRules_compilable domains rules : Forall (rule_ready U_GET_GC_MASK unicodeMatchProperty unicodeMatchPropertyValue domains) rules ->
  forall locations p p', (forall i r l, rules !! i = Some r -> locations !! i = Some l -> action_of r l ∈ U /\ 0 <= action_of r l < 2 ^ 49) -> partition_compilable p ->
  compileRules U_GET_GC_MASK unicodeMatchProperty unicodeMatchPropertyValue domains p rules locations = Some (inr p') -> partition_compilable p'.
Proof.
  induction 1 as [|r rules Hr _ IH]; intros locations p p' Hacts Hp; cbn [compileRules]; [by intros [= <-]|]. destruct locations as [|l locations]; [done|].
  intros (p1 & H1 & H2)%andThen_inr. destruct (Hacts 0%nat r l eq_refl eq_refl) as [HaU Ha]. apply (IH locations p1); [|by eapply compileRule_compilable|done].
  intros i r' l' Hi Hl. by apply (Hacts (S i)).
Qed.
End Filters.

(** ** The compiled rule list *)

Lemma size_list_bound (l : list Z) : (base.size (list_to_set l : gset Z) <= length l)%nat.
Proof.
  induction l as [|x l IH]; [done|]. cbn [list_to_set length]. pose proof (size_union_alt ({[ x ]} : gset Z) (list_to_set l)) as Hs. rewrite size_singleton in Hs.
  pose proof (subseteq_size (list_to_set l ∖ {[ x ]}) (list_to_set l : gset Z) ltac:(set_solver)). lia.
Qed.

Lemma location_bound `{HashMapOrder} rules locations bytes i r l : Forall rule_ok rules -> serializeActions rules = Some (locations, bytes) -> vec_size bytes < 2 ^ 32 ->
  rules !! i = Some r -> locations !! i = Some l -> 0 <= l < 2 ^ 32.
Proof.
  intros Hok Hs Hsz Hr Hl. destruct (serializeActions_sound rules locations bytes Hok Hs Hsz) as (s & Hi & Hp & <- & <-).
  destruct (v_resolved _ _ Hi i r Hr) as (location & arg & Hloc & (pre & post & Heq & Hpre) & _); [rewrite Hp; apply not_elem_of_nil|].
  rewrite Hl in Hloc. injection Hloc as <-. rewrite Heq, vec_size_app in Hsz. pose proof (vec_size_nonneg pre). pose proof (vec_size_nonneg (entry (m_type (m_action r)) arg ++ post)). lia.
Qed.

Definition bytecode_for (k : FilterSet) (c : CompiledContentExtension) : list Z :=
  match k with WithoutConditions => filtersWithoutConditionsBytecode c | WithConditions => filtersWithConditionsBytecode c | TopURL => topURLFiltersBytecode c end.

(** The actions of the rules that match. *)
Definition rules_match U_GET_GC_MASK unicodeMatchProperty unicodeMatchPropertyValue (rules : list ContentExtensionRule) (locations : list Z) (domains : bool) (k : FilterSet) (s : list Z) (a : Z) : Prop :=
  exists i r location, rules !! i = Some r /\ locations !! i = Some location
    /\ rule_matches U_GET_GC_MASK unicodeMatchProperty unicodeMatchPropertyValue domains k r location s a.

Section RuleList.
Context `{HashOrder, HashMapOrder, UninitializedMemory, SlotOrder}.
Context (U_GET_GC_MASK : Z -> Z) (unicodeMatchProperty : list Z -> option BuiltInCharacterClassID).
Context (unicodeMatchPropertyValue : list Z -> list Z -> option BuiltInCharacterClassID).

Lemma zip_actions rules locations i r l : rules !! i = Some r -> locations !! i = Some l -> action_of r l ∈ zip_with action_of rules locations.
Proof. intros Hr Hl. apply list_elem_of_lookup. exists i. apply lookup_zip_with_Some. by exists r, l. Qed.

Lemma partition_ready rules bytes domains p :
  partitionRuleList U_GET_GC_MASK unicodeMatchProperty unicodeMatchPropertyValue rules = Some (inr (bytes, domains, p)) ->
  Forall (rule_ready U_GET_GC_MASK unicodeMatchProperty unicodeMatchPropertyValue domains) rules ->
  Forall (λ r, trigger_ok (m_trigger r)) rules -> Forall rule_ok rules -> vec_size bytes < 2 ^ 32 -> vec_size rules <= 65535 ->
  exists (U : gset Z) locations, serializeActions rules = Some (locations, bytes) /\ Z.of_nat (base.size U) <= 65535
    /\ (forall a, a ∈ U -> action_ok a = true) /\ partition_compilable U p.
Proof.
  intros Hp Hready Htrig Hok Hsz Hcount. unfold partitionRuleList in Hp. destruct (_ && _); [done|]. destruct (serializeActions rules) as [[locations bytes']|] eqn:Es; cbn [mbind option_bind] in Hp; [|done].
  apply andThen_inr in Hp as (p1 & Hc & [= -> <- ->]). set (acts := zip_with action_of rules locations).
  assert (forall i r l, rules !! i = Some r -> locations !! i = Some l -> 0 <= action_of r l < 2 ^ 49) as Hrange.
  { intros i r l Hr Hl. pose proof (location_bound rules locations bytes i r l Hok Es Hsz Hr Hl) as Hb. rewrite Forall_forall in Htrig.
    apply actionLocationAndFlags_range; [|done]. apply Htrig. by eapply list_elem_of_lookup_2. }
  exists (list_to_set acts), locations. split; [done|]. split; [|split].
  - assert (base.size (list_to_set acts : gset Z) <= length acts)%nat as Hle by apply size_list_bound. unfold acts in Hle. rewrite length_zip_with in Hle. unfold vec_size in Hcount. fold acts in Hle. lia.
  - intros a Ha. apply elem_of_list_to_set in Ha. unfold acts in Ha. apply list_elem_of_lookup in Ha as [i Hi]. apply lookup_zip_with_Some in Hi as (r & l & -> & Hr & Hl).
    specialize (Hrange i r l Hr Hl). unfold action_ok. apply andb_true_iff. split; [apply Z.leb_le|apply Z.ltb_lt]; lia.
  - eapply compileRules_compilable; [exact Hready| | |exact Hc].
    + intros i r l Hr Hl. split; [apply elem_of_list_to_set; by eapply zip_actions|by eapply Hrange].
    + intros k. split; [destruct k; apply compilable_new|destruct k; set_solver].
Qed.

Lemma compileRuleList_sound rules bytes domains p :
  partitionRuleList U_GET_GC_MASK unicodeMatchProperty unicodeMatchPropertyValue rules = Some (inr (bytes, domains, p)) ->
  Forall (rule_ready U_GET_GC_MASK unicodeMatchProperty unicodeMatchPropertyValue domains) rules ->
  Forall (λ r, trigger_ok (m_trigger r)) rules -> Forall rule_ok rules -> vec_size bytes < 2 ^ 32 -> vec_size rules <= 65535 ->
  (forall k, limits (filters_for k p) (universal_for k p)) -> (forall k, end_of_url_kept (filters_for k p) (universal_for k p)) ->
  exists c locations, compileRuleList U_GET_GC_MASK unicodeMatchProperty unicodeMatchPropertyValue rules = Some (inr c) /\ compiledActions c = bytes
    /\ conditionsApplyOnlyToDomain c = domains /\ serializeActions rules = Some (locations, bytes)
    /\ forall k top url flags fuel, url_ok url -> (interpreterFuel (bytecode_for k c) url <= fuel)%nat ->
       exists acts every, interpret (bytecode_for k c) top url flags fuel = Finished acts /\ actionsMatchingEverything (bytecode_for k c) top fuel = Finished every
         /\ forall a, a ∈ acts ∪ every <-> triggers top flags a = true /\ rules_match U_GET_GC_MASK unicodeMatchProperty unicodeMatchPropertyValue rules locations domains k url a.
Proof.
  intros Hp Hready Htrig Hok Hsz Hcount Hlim Hend. destruct (partition_ready rules bytes domains p Hp Hready Htrig Hok Hsz Hcount) as (U & locations & Hs & HU & Hrange & Hpc).
  destruct (partitionRuleList_sound _ _ _ rules bytes domains p Hp Hready) as (locations' & Hs' & _ & _ & Hm). rewrite Hs in Hs'. injection Hs' as <-.
  assert (forall k, exists bc, compileToBytecode (filters_for k p) (universal_for k p) = Some bc /\ bytecode_of (filters_for k p) (universal_for k p) bc) as Hbc.
  { intros k. destruct (Hpc k) as [Hf Hu]. apply (compileToBytecode_sound U); [done|done| |apply Hlim|apply Hend]. intros a Ha. by apply Hrange, Hu. }
  destruct (Hbc WithoutConditions) as (b1 & C1 & B1), (Hbc WithConditions) as (b2 & C2 & B2), (Hbc TopURL) as (b3 & C3 & B3). cbn [filters_for universal_for] in C1, C2, C3.
  exists (mkCompiledContentExtension b1 b2 b3 domains bytes), locations. unfold compileRuleList. rewrite Hp. cbn [andThen]. rewrite C1. cbn [mbind option_bind]. rewrite C2. cbn [mbind option_bind].
  rewrite C3. cbn [mbind option_bind]. do 4 (split; [done|]). intros k top url flags fuel Hurl Hfuel.
  assert (bytecode_of (filters_for k p) (universal_for k p) (bytecode_for k (mkCompiledContentExtension b1 b2 b3 domains bytes))) as [Hint Hevery] by (by destruct k).
  destruct (Hint top url flags fuel Hurl Hfuel) as (acts & Hi & Hacts). destruct (Hevery top fuel) as (every & He & Hev); [unfold interpreterFuel in Hfuel; lia|].
  exists acts, every. do 2 (split; [done|]). intros a. rewrite elem_of_union, Hacts, Hev.
  assert (text url) as Ht by (destruct Hurl as [Hu _]; eapply Forall_impl; [exact Hu|]; simpl; lia).
  unfold rules_match. rewrite <- (Hm k url a Ht), partition_matches_for. unfold matched.
  destruct (is_flagged a) eqn:Efl; [intuition done|]. unfold triggers. rewrite (unflagged_applies flags a Efl). cbn [andb]. intuition done.
Qed.
End RuleList.

(** C1: a compiled rule list as a whole.  When the rules of a list can be
    distributed over the filters, within the limits of the formats, and under two
    conditions that not all rule lists meet, [compileRuleList] gives the serialized
    actions and three bytecodes.  On each of them the interpreter terminates, and what
    it returns, together with the actions that match everything, are exactly the
    actions, of those the load triggers, of the rules that match: for the filters
    without and with conditions the rules whose regular expression is found in the URL, and for the filters of
    the main document the rules one of whose conditions it meets.  The conditions:
    no transition on the end of the URL is dropped or makes the interpreter read
    behind the URL ([end_of_url_kept]), and the filters name ASCII characters other
    than NUL only, and are not taken for filters that match everything when they are
    anchored ([rule_ready]). *)
Theorem compileRuleList_correct `{HashOrder, HashMapOrder, UninitializedMemory, SlotOrder} U_GET_GC_MASK unicodeMatchProperty unicodeMatchPropertyValue rules bytes domains p :
  partitionRuleList U_GET_GC_MASK unicodeMatchProperty unicodeMatchPropertyValue rules = Some (inr (bytes, domains, p)) ->
  Forall (rule_ready U_GET_GC_MASK unicodeMatchProperty unicodeMatchPropertyValue domains) rules ->
  Forall (λ r, trigger_ok (m_trigger r)) rules -> Forall rule_ok rules -> vec_size bytes < 2 ^ 32 -> vec_size rules <= 65535 ->
  (forall k, limits (filters_for k p) (universal_for k p)) -> (forall k, end_of_url_kept (filters_for k p) (universal_for k p)) ->
  exists c locations, compileRuleList U_GET_GC_MASK unicodeMatchProperty unicodeMatchPropertyValue rules = Some (inr c) /\ compiledActions c = bytes
    /\ conditionsApplyOnlyToDomain c = domains /\ serializeActions rules = Some (locations, bytes)
    /\ forall k top url flags fuel, url_ok url -> (interpreterFuel (bytecode_for k c) url <= fuel)%nat ->
       exists acts every, interpret (bytecode_for k c) top url flags fuel = Finished acts /\ actionsMatchingEverything (bytecode_for k c) top fuel = Finished every
         /\ forall a, a ∈ acts ∪ every <-> triggers top flags a = true /\ rules_match U_GET_GC_MASK unicodeMatchProperty unicodeMatchPropertyValue rules locations domains k url a.
Proof. apply compileRuleList_sound. Qed.

(** ** An example *)

Definition twoPartition : RulePartition := Eval vm_compute in match twoCompiled with Some (inr (_, _, p)) => p | _ => newRulePartition end.

Lemma two_limits k : limits (filters_for k twoPartition) (universal_for k twoPartition).
Proof. apply limits_check_sound. destruct k; vm_compute; reflexivity. Qed.

Lemma two_end k : end_of_url_kept (filters_for k twoPartition) (universal_for k twoPartition).
Proof. apply end_of_url_check_sound. destruct k; vm_compute; reflexivity. Qed.

Lemma twoRules_ready : Forall (rule_ready (λ _, 0) noProperty noPropertyValue true) twoRules.
Proof. constructor; [|constructor; [|constructor]]; (split; [apply two_filter_ok; tauto|]); repeat constructor; lia. Qed.

Lemma twoRules_triggers : Forall (λ r, trigger_ok (m_trigger r)) twoRules.
Proof. repeat constructor; cbn; try done; try lia; intros [?|?]; done. Qed.

(** The domain of the second rule is found for the main document. *)
Lemma compileRuleList_correct_witness : exists c acts every, compileRuleList (λ _, 0) noProperty noPropertyValue twoRules = Some (inr c)
  /\ interpret (topURLFiltersBytecode c) None [100] 0 (interpreterFuel (topURLFiltersBytecode c) [100]) = Finished acts
  /\ actionsMatchingEverything (topURLFiltersBytecode c) None (interpreterFuel (topURLFiltersBytecode c) [100]) = Finished every
  /\ Z.lor 1 IfConditionFlag ∈ acts ∪ every.
Proof.
  destruct (compileRuleList_correct (λ _, 0) noProperty noPropertyValue twoRules [0; 1] true twoPartition) as (c & locations & Hc & _ & _ & Hs & Hrun).
  - vm_compute. reflexivity.
  - exact twoRules_ready.
  - exact twoRules_triggers.
  - repeat constructor.
  - vm_compute. reflexivity.
  - vm_compute. discriminate.
  - exact two_limits.
  - exact two_end.
  - destruct (Hrun TopURL None [100] 0 _ ltac:(split; [repeat constructor; lia|vm_compute; reflexivity]) (Nat.le_refl _)) as (acts & every & Hi & He & Hin).
    exists c, acts, every. split; [exact Hc|]. split; [exact Hi|]. split; [exact He|]. apply Hin. split; [reflexivity|].
    vm_compute in Hs. injection Hs as <-. exists 1%nat. eexists. exists 1. split; [reflexivity|]. split; [reflexivity|]. split; [vm_compute; reflexivity|]. split; [reflexivity|].
    exists (mkWString true [100]). split; [left|]. reflexivity.
Defined.
