(* ===== verification/FileNames.v ===== *)
(** * Names of files

    Models [encodeForFileName] and [decodeFromFilename] of
    [src/Source/WebCore/platform/FileSystem.cpp], with [appendByteAsHex] of
    [src/Source/WTF/wtf/HexNumber.h]: the identifier of a rule list becomes the name
    of a file, and the names in the directory become identifiers again. *)

From stdpp Require Import base numbers option list list_numbers.
From Stdlib Require Import ZArith Lia.
From S2P Require Import Prelude.
From S2P Require Import Yarr.
From S2P Require Import YarrReading.
From S2P Require Import ContentExtensionRule.
From S2P Require Import UTF8Conversion.

(** ** Building a string *)

(** [StringBuilder::append] of a character: the builder becomes 16 bits wide with the first character that does not fit 8. *)
Definition appendUChar (b : WString) (c : Z) : WString := mkWString (is8Bit b && (Z.land c (Z.lnot 0xff) =? 0)) (characters b ++ [c]).

Definition appendUChar32 (b : WString) (c : Z) : WString :=
  if U_IS_BMP c then appendUChar b (u16 c) else appendUChar (appendUChar b (U16_LEAD c)) (U16_TRAIL c).

Definition uppercaseHexDigits : list Z := [48; 49; 50; 51; 52; 53; 54; 55; 56; 57; 65; 66; 67; 68; 69; 70].

Definition hexDigit (i : Z) : Z := nth (Z.to_nat i) uppercaseHexDigits 0.

(** The byte is an [unsigned char]. *)
Definition appendByteAsHex (byte : Z) (destination : WString) : WString :=
  let byte := u8 byte in
  appendUChar (appendUChar destination (hexDigit (Z.shiftr byte 4))) (hexDigit (Z.land byte 0xF)).

(** ** Encoding *)

Definition needsEscaping : list bool :=
  (* 00-1F *) replicate 32 true
  (* 20-27 *) ++ [true;  false; true;  false; false; true;  false; false]
  (* 28-2F *) ++ [false; false; true;  false; false; false; false; true]
  (* 30-37 *) ++ replicate 8 false
  (* 38-3F *) ++ [false; false; true;  false; true;  false; true;  true]
  (* 40-57 *) ++ replicate 24 false
  (* 58-5F *) ++ [false; false; false; false; true;  false; false; false]
  (* 60-77 *) ++ replicate 24 false
  (* 78-7F *) ++ [false; false; false; false; true;  false; false; true].

Definition shouldEscapeUChar (character previousCharacter nextCharacter : Z) : bool :=
  if character <=? 127 then nth (Z.to_nat character) needsEscaping false
  else if U16_IS_LEAD character && negb (U16_IS_TRAIL nextCharacter) then true
  else if U16_IS_TRAIL character && negb (U16_IS_LEAD previousCharacter) then true
  else false.

(** '%' and '+' *)
Definition percent : Z := 37.
Definition plus : Z := 43.

Definition encodeCharacter (character previousCharacter nextCharacter : Z) (result : WString) : WString :=
  if shouldEscapeUChar character previousCharacter nextCharacter then
    if character <=? 255 then appendByteAsHex character (appendUChar result percent)
    else appendByteAsHex character (appendByteAsHex (Z.shiftr character 8) (appendUChar (appendUChar result percent) plus))
  else appendUChar result character.

Fixpoint encodeLoop (previousCharacter : Z) (input : list Z) (result : WString) : WString :=
  match input with
  | [] => result
  | character :: rest => encodeLoop character rest (encodeCharacter character previousCharacter (hd 0 rest) result)
  end.

Definition encodeForFileName (inputString : WString) : WString :=
  if vec_size (characters inputString) =? 0 then inputString else encodeLoop 0 (characters inputString) emptyBuilder.

(** ** Decoding *)

Definition toASCIIHexValue2 (firstCharacter secondCharacter : Z) : Z :=
  u8 (Z.lor (Z.shiftl (toASCIIHexValue firstCharacter) 4) (toASCIIHexValue secondCharacter)).

(** [None] is the null string. *)
Fixpoint decodeLoop (input : list Z) (result : WString) : option WString :=
  match input with
  | [] => Some result
  | c :: rest =>
      if negb (c =? percent) then decodeLoop rest (appendUChar result c)
      else
        match rest with
        | c1 :: c2 :: more =>
            if negb (c1 =? plus) then
              if negb (isASCIIHexDigit c1) then None
              else if negb (isASCIIHexDigit c2) then None
              else decodeLoop more (appendUChar result (toASCIIHexValue2 c1 c2))
            else
              match more with
              | c3 :: c4 :: c5 :: more =>
                  if negb (isASCIIHexDigit c2) then None
                  else if negb (isASCIIHexDigit c3) then None
                  else if negb (isASCIIHexDigit c4) then None
                  else if negb (isASCIIHexDigit c5) then None
                  else decodeLoop more (appendUChar32 result (Z.lor (Z.shiftl (toASCIIHexValue2 c2 c3) 8) (toASCIIHexValue2 c4 c5)))
              | _ => None
              end
        | _ => None
        end
  end.

Definition decodeFromFilename (inputString : WString) : option WString :=
  if vec_size (characters inputString) =? 0 then Some inputString else decodeLoop (characters inputString) emptyBuilder.

(** ** The characters that a builder gets *)

Lemma characters_appendByteAsHex byte b : characters (appendByteAsHex byte b) = characters b ++ [hexDigit (Z.shiftr (u8 byte) 4); hexDigit (Z.land (u8 byte) 0xF)].
Proof. cbn [appendByteAsHex appendUChar characters]. by rewrite <- app_assoc. Qed.

(** What is appended for a character. *)
Definition encoded (character previousCharacter nextCharacter : Z) : list Z :=
  characters (encodeCharacter character previousCharacter nextCharacter emptyBuilder).

Lemma characters_encodeCharacter c p n b : characters (encodeCharacter c p n b) = characters b ++ encoded c p n.
Proof.
  unfold encoded, encodeCharacter. destruct (shouldEscapeUChar c p n); [destruct (c <=? 255)|]; rewrite ?characters_appendByteAsHex; cbn [appendUChar characters emptyBuilder app];
    rewrite <- ?app_assoc; done.
Qed.

Fixpoint encoded_all (p : Z) (input : list Z) : list Z :=
  match input with
  | [] => []
  | c :: rest => encoded c p (hd 0 rest) ++ encoded_all c rest
  end.

Lemma characters_encodeLoop input p b : characters (encodeLoop p input b) = characters b ++ encoded_all p input.
Proof.
  revert p b. induction input as [|c rest IH]; intros p b; cbn [encodeLoop encoded_all]; [by rewrite app_nil_r|].
  by rewrite IH, characters_encodeCharacter, app_assoc.
Qed.

Lemma characters_encodeForFileName s : characters (encodeForFileName s) = encoded_all 0 (characters s).
Proof.
  unfold encodeForFileName. destruct (_ =? 0) eqn:E; zbool; [|apply characters_encodeLoop].
  destruct (characters s) eqn:Ec; [done|]. unfold vec_size in E. cbn [length] in E. lia.
Qed.

(** The three forms of an encoded character. *)
Lemma encoded_cases c p n : 0 <= c < 65536 ->
  (shouldEscapeUChar c p n = false /\ encoded c p n = [c]) \/
  (shouldEscapeUChar c p n = true /\ c <= 255 /\ encoded c p n = [percent; hexDigit (Z.shiftr c 4); hexDigit (Z.land c 0xF)]) \/
  (shouldEscapeUChar c p n = true /\ 255 < c /\ encoded c p n = [percent; plus; hexDigit (Z.shiftr (c / 256) 4); hexDigit (Z.land (c / 256) 0xF); hexDigit (Z.shiftr (c mod 256) 4); hexDigit (Z.land (c mod 256) 0xF)]).
Proof.
  intros Hc. unfold encoded, encodeCharacter. destruct (shouldEscapeUChar c p n); [|by left]. right. destruct (c <=? 255) eqn:E; zbool.
  - left. rewrite characters_appendByteAsHex. cbn [appendUChar characters emptyBuilder app]. rewrite uwrap_small by (simpl; lia). done.
  - right. rewrite !characters_appendByteAsHex. cbn [appendUChar characters emptyBuilder app]. rewrite (Z.shiftr_div_pow2 c 8) by lia. change (2 ^ 8) with 256.
    rewrite (uwrap_small _ (c / 256)) by (simpl; divlia). change (u8 c) with (c mod 256). done.
Qed.

(** ** Hexadecimal digits *)

Lemma hexDigits_byte c : 0 <= c < 256 -> let d1 := hexDigit (Z.shiftr c 4) in let d2 := hexDigit (Z.land c 0xF) in
  isASCIIHexDigit d1 = true /\ isASCIIHexDigit d2 = true /\ d1 <> plus /\ toASCIIHexValue2 d1 d2 = c.
Proof.
  intros Hc d1 d2.
  assert ((isASCIIHexDigit d1 && isASCIIHexDigit d2 && negb (d1 =? plus) && (toASCIIHexValue2 d1 d2 =? c)) = true) as H.
  { apply (forallZ_spec 0 256 (λ c, isASCIIHexDigit (hexDigit (Z.shiftr c 4)) && isASCIIHexDigit (hexDigit (Z.land c 0xF)) && negb (hexDigit (Z.shiftr c 4) =? plus)
      && (toASCIIHexValue2 (hexDigit (Z.shiftr c 4)) (hexDigit (Z.land c 0xF)) =? c))); [by vm_compute|simpl; lia]. }
  zbool. done.
Qed.

Lemma percent_escaped c p n : shouldEscapeUChar c p n = false -> c <> percent.
Proof. intros H ->. done. Qed.

(** ** Decoding what was encoded *)

Lemma decode_encoded c p n rest b : 0 <= c < 65536 -> decodeLoop (encoded c p n ++ rest) b = decodeLoop rest (appendUChar b c).
Proof.
  intros Hc. destruct (encoded_cases c p n Hc) as [(Hesc & ->)|[(Hesc & Hle & ->)|(Hesc & Hgt & ->)]]; cbn [app decodeLoop].
  - apply percent_escaped in Hesc. apply Z.eqb_neq in Hesc. by rewrite Hesc.
  - rewrite Z.eqb_refl. cbn [negb]. destruct (hexDigits_byte c) as (H1 & H2 & H3 & H4); [lia|]. apply Z.eqb_neq in H3. by rewrite H1, H2, H3, H4.
  - rewrite !Z.eqb_refl. cbn [negb]. destruct (hexDigits_byte (c / 256)) as (H1 & H2 & _ & H3); [divlia|]. destruct (hexDigits_byte (c mod 256)) as (H4 & H5 & _ & H6); [divlia|].
    rewrite H1, H2, H3, H4, H5, H6. cbn [negb]. f_equal. rewrite Z.lor_comm, lor_shiftl_add by (simpl; divlia). change (2 ^ 8) with 256.
    replace (c mod 256 + c / 256 * 256) with c by divlia. unfold appendUChar32, U_IS_BMP. rewrite !uwrap_small by (simpl; lia).
    destruct (c <=? 0xffff) eqn:E; zbool; [done|lia].
Qed.

Lemma decode_encoded_all input : Forall unit_ok input -> forall p b,
  exists s, decodeLoop (encoded_all p input) b = Some s /\ characters s = characters b ++ input.
Proof.
  induction 1 as [|c rest Hc _ IH]; intros p b; cbn [encoded_all]; [exists b; by rewrite app_nil_r|].
  rewrite decode_encoded by done. destruct (IH c (appendUChar b c)) as (s & Hs & Heq). exists s. split; [done|].
  rewrite Heq. cbn [appendUChar characters]. by rewrite <- app_assoc.
Qed.

(** ** The characters of a name *)

(** The characters that some system gives a meaning in the name of a file, besides the
    control characters: space, double quote, asterisk, slash, colon, less-than,
    greater-than, question mark, backslash, pipe and delete.  The percent sign is
    not one of them: it is the escape character of the encoding. *)
Definition special_characters : list Z := [0x20; 0x22; 0x2A; 0x2F; 0x3A; 0x3C; 0x3E; 0x3F; 0x5C; 0x7C; 0x7F].

(** A code unit that is neither a control character nor special. *)
Definition safe_character (c : Z) : Prop := 0x20 <= c < 0x10000 /\ c ∉ special_characters.

(** The check of a character of ASCII. *)
Definition safe_ascii (c : Z) : bool := (0x20 <=? c) && (c <? 128) && bool_decide (c ∉ special_characters).

Lemma safe_ascii_sound c : safe_ascii c = true -> safe_character c /\ c < 128.
Proof. unfold safe_ascii, safe_character. intros H. zbool. apply bool_decide_eq_true in H0. split; [split; [lia|done]|lia]. Qed.

Lemma safe_above c : 127 < c < 0x10000 -> safe_character c.
Proof. intros Hc. split; [lia|]. unfold special_characters. rewrite !not_elem_of_cons. repeat split; try lia. apply not_elem_of_nil. Qed.

(** The table escapes every special character of ASCII. *)
Lemma unescaped_safe c : 0 <= c <= 127 -> nth (Z.to_nat c) needsEscaping false = false -> safe_character c.
Proof.
  intros Hc Hn. apply safe_ascii_sound.
  assert (nth (Z.to_nat c) needsEscaping false || safe_ascii c = true) as H.
  { apply (forallZ_spec 0 128 (λ c, nth (Z.to_nat c) needsEscaping false || safe_ascii c)); [by vm_compute|simpl; lia]. }
  by rewrite Hn in H.
Qed.

Lemma hexDigit_safe i : 0 <= i < 16 -> safe_character (hexDigit i) /\ hexDigit i < 128.
Proof.
  intros Hi. apply safe_ascii_sound, (forallZ_spec 0 16 (λ i, safe_ascii (hexDigit i))); [by vm_compute|simpl; lia].
Qed.

Lemma hexDigits_safe c : 0 <= c < 256 -> Forall (λ d, safe_character d /\ d < 128) [hexDigit (Z.shiftr c 4); hexDigit (Z.land c 0xF)].
Proof.
  intros Hc. change 0xF with (Z.ones 4). rewrite Z.land_ones, Z.shiftr_div_pow2 by lia. apply Forall_cons_2; [|apply Forall_cons_2; [|done]]; apply hexDigit_safe; simpl; divlia.
Qed.

Lemma percent_safe : safe_character percent /\ percent < 128.
Proof. apply safe_ascii_sound. by vm_compute. Qed.

Lemma plus_safe : safe_character plus /\ plus < 128.
Proof. apply safe_ascii_sound. by vm_compute. Qed.

(** An escape is made of ASCII characters. *)
Lemma escaped_safe c p n : 0 <= c < 65536 -> shouldEscapeUChar c p n = true -> Forall (λ d, safe_character d /\ d < 128) (encoded c p n).
Proof.
  intros Hc He. destruct (encoded_cases c p n Hc) as [(Hesc & _)|[(_ & Hle & ->)|(_ & Hgt & ->)]]; [congruence|..].
  - constructor; [apply percent_safe|apply hexDigits_safe; lia].
  - constructor; [apply percent_safe|]. constructor; [apply plus_safe|].
    apply (Forall_app_2 _ [_; _] [_; _]); apply hexDigits_safe; divlia.
Qed.

Lemma encoded_safe c p n : 0 <= c < 65536 -> Forall safe_character (encoded c p n).
Proof.
  intros Hc. destruct (shouldEscapeUChar c p n) eqn:He.
  - eapply Forall_impl; [by apply escaped_safe|]. by intros x [].
  - destruct (encoded_cases c p n Hc) as [(_ & ->)|[(? & _)|(? & _)]]; [|congruence..]. constructor; [|done].
    unfold shouldEscapeUChar in He. destruct (c <=? 127) eqn:E; zbool; [apply unescaped_safe; [lia|done]|apply safe_above; lia].
Qed.

Lemma encoded_all_safe input : Forall unit_ok input -> forall p, Forall safe_character (encoded_all p input).
Proof. induction 1 as [|c rest Hc _ IH]; intros p; [constructor|]. cbn [encoded_all]. apply Forall_app_2; [by apply encoded_safe|apply IH]. Qed.

(** ** The name is UTF-16 *)

Lemma lead_eq c : unit_ok c -> U16_IS_LEAD c = isHighSurrogate c.
Proof.
  unfold unit_ok, U16_IS_LEAD, isHighSurrogate. intros Hc. rewrite land_surrogate_mask, uwrap_small by (simpl; lia).
  apply eq_true_iff_eq. rewrite andb_true_iff, Z.eqb_eq, !Z.leb_le. divlia.
Qed.

Lemma trail_eq c : unit_ok c -> U16_IS_TRAIL c = isLowSurrogate c.
Proof.
  unfold unit_ok, U16_IS_TRAIL, isLowSurrogate. intros Hc. rewrite land_surrogate_mask, uwrap_small by (simpl; lia).
  apply eq_true_iff_eq. rewrite andb_true_iff, Z.eqb_eq, !Z.leb_le. divlia.
Qed.

(** A unit that is no surrogate does not matter. *)
Lemma isUTF16_plain v w : Forall (λ c, unit_ok c /\ isHighSurrogate c = false /\ isLowSurrogate c = false) v -> isUTF16 (v ++ w) = isUTF16 w.
Proof.
  induction 1 as [|c v (Hc & Hh & Hl) _ IH]; [done|]. cbn [app isUTF16]. rewrite Hh, Hl, IH. unfold unit_ok in Hc.
  destruct (0 <=? c) eqn:E1; zbool; [|lia]. destruct (c <? 0x10000) eqn:E2; zbool; [|lia]. done.
Qed.

Lemma ascii_plain v : Forall (λ d, safe_character d /\ d < 128) v -> Forall (λ c, unit_ok c /\ isHighSurrogate c = false /\ isLowSurrogate c = false) v.
Proof.
  intros H. eapply Forall_impl; [done|]. intros c [[Hc _] Hlt]. unfold unit_ok, isHighSurrogate, isLowSurrogate.
  split; [lia|]. split; apply andb_false_iff; left; apply Z.leb_gt; lia.
Qed.

Lemma high_not_low c : isHighSurrogate c = true -> isLowSurrogate c = false.
Proof. unfold isHighSurrogate, isLowSurrogate. intros H. zbool. apply andb_false_iff. left. apply Z.leb_gt. lia. Qed.

Lemma hd_unit_ok rest : Forall unit_ok rest -> unit_ok (hd 0 rest).
Proof. destruct 1; [unfold unit_ok; cbn [hd]; lia|done]. Qed.

(** What is encoded after a character that does not make a pair with its first one. *)
Lemma encoded_all_isUTF16 n : forall input p, (length input <= n)%nat -> Forall unit_ok input -> unit_ok p -> (isHighSurrogate p && isLowSurrogate (hd 0 input)) = false ->
  isUTF16 (encoded_all p input) = true.
Proof.
  induction n as [|n IH]; intros [|c rest] p Hlen Hok Hp Hpair; cbn [length] in Hlen; try lia; [done..|].
  apply Forall_cons_1 in Hok as [Hc Hrest]. cbn [encoded_all hd] in *. pose proof (hd_unit_ok rest Hrest) as Hn.
  assert (isHighSurrogate c && isLowSurrogate (hd 0 rest) = false -> isUTF16 (encoded_all c rest) = true) as IHc by (intros; apply IH; [lia|done..]).
  destruct (shouldEscapeUChar c p (hd 0 rest)) eqn:He.
  - rewrite isUTF16_plain by (by apply ascii_plain, escaped_safe). apply IHc.
    unfold shouldEscapeUChar in He. rewrite !lead_eq, !trail_eq in He by done. destruct (c <=? 127) eqn:E; zbool.
    { apply andb_false_iff. left. unfold isHighSurrogate. apply andb_false_iff. left. apply Z.leb_gt. lia. }
    destruct (isHighSurrogate c) eqn:Eh; [|done]. rewrite (high_not_low c Eh) in He. cbn [andb] in *. by destruct (isLowSurrogate (hd 0 rest)).
  - destruct (encoded_cases c p (hd 0 rest) Hc) as [(_ & ->)|[(? & _)|(? & _)]]; [|congruence..].
    unfold shouldEscapeUChar in He. rewrite !lead_eq, !trail_eq in He by done. destruct (isHighSurrogate c) eqn:Eh.
    + destruct (c <=? 127) eqn:E; zbool; [unfold isHighSurrogate in Eh; zbool; lia|]. cbn [andb] in He. destruct (isLowSurrogate (hd 0 rest)) eqn:El; [|done].
      destruct rest as [|d rest]; [done|]. cbn [hd] in *. apply Forall_cons_1 in Hrest as [Hd Hrest]. cbn [encoded_all].
      assert (encoded d c (hd 0 rest) = [d]) as ->.
      { destruct (encoded_cases d c (hd 0 rest) Hd) as [(_ & ->)|[(Hesc & _)|(Hesc & _)]]; [done|exfalso..]; unfold shouldEscapeUChar in Hesc;
          rewrite !lead_eq, !trail_eq in Hesc by (done || by apply hd_unit_ok); rewrite Eh, El in Hesc; cbn [negb andb] in Hesc;
          (destruct (d <=? 127) eqn:Ed; zbool; [unfold isLowSurrogate in El; zbool; lia|]);
          (destruct (isHighSurrogate d) eqn:Edh; [apply high_not_low in Edh; congruence|done]). }
      cbn [app isUTF16]. rewrite Eh, El. cbn [length] in Hlen. rewrite IH; [|lia|done|done|].
      * unfold unit_ok in Hc. destruct (0 <=? c) eqn:E1; zbool; [|lia]. destruct (c <? 0x10000) eqn:E2; zbool; [done|lia].
      * apply andb_false_iff. left. destruct (isHighSurrogate d) eqn:Edh; [apply high_not_low in Edh; congruence|done].
    + destruct (isLowSurrogate c) eqn:El.
      { exfalso. destruct (c <=? 127) eqn:E; zbool; [unfold isLowSurrogate in El; zbool; lia|]. cbn [andb] in He. destruct (isHighSurrogate p) eqn:Eph; [done|]. done. }
      rewrite isUTF16_plain; [by apply IHc|]. by constructor.
Qed.

(** ** The width of a name *)

Definition builder_ok (b : WString) : Prop := is8Bit b = true -> Forall is_byte (characters b).

Lemma appendUChar_ok b c : 0 <= c -> builder_ok b -> builder_ok (appendUChar b c).
Proof.
  unfold builder_ok. intros Hc Hb H. cbn [appendUChar is8Bit characters] in *. zbool. apply Forall_app_2; [auto|]. constructor; [|done].
  change (Z.lnot 0xff) with (Z.lnot (Z.ones 8)) in *. rewrite <- Z.ldiff_land, Z.ldiff_ones_r, Z.shiftl_mul_pow2, Z.shiftr_div_pow2 in H0 by lia.
  unfold is_byte. divlia.
Qed.

Lemma appendByteAsHex_ok byte b : builder_ok b -> builder_ok (appendByteAsHex byte b).
Proof.
  intros Hb. unfold appendByteAsHex. pose proof (hexDigits_safe (u8 byte) (uwrap_bound 8 byte ltac:(lia))) as H.
  apply Forall_cons_1 in H as [[[H1 _] _] H]. apply Forall_cons_1 in H as [[[H2 _] _] _]. apply appendUChar_ok; [lia|]. apply appendUChar_ok; [lia|done].
Qed.

Lemma encodeCharacter_ok c p n b : 0 <= c -> builder_ok b -> builder_ok (encodeCharacter c p n b).
Proof.
  intros Hc Hb. unfold encodeCharacter. destruct (shouldEscapeUChar c p n); [destruct (c <=? 255)|]; repeat (apply appendByteAsHex_ok || apply appendUChar_ok); done.
Qed.

Lemma encodeLoop_ok input p b : Forall unit_ok input -> builder_ok b -> builder_ok (encodeLoop p input b).
Proof.
  intros H. revert p b. induction H as [|c rest Hc _ IH]; intros p b Hb; [done|]. cbn [encodeLoop]. apply IH, encodeCharacter_ok; [|done]. unfold unit_ok in Hc. lia.
Qed.

(** The name of a file is a string that [String::utf8] keeps. *)
Lemma encodeForFileName_ok s : Forall unit_ok (characters s) -> string_ok (encodeForFileName s).
Proof.
  intros H. unfold string_ok. destruct (is8Bit (encodeForFileName s)) eqn:E.
  - revert E. unfold encodeForFileName. destruct (_ =? 0) eqn:E0; zbool; [|apply (encodeLoop_ok (characters s) 0 emptyBuilder H); by intros _].
    assert (characters s = []) as -> by (apply length_zero_iff_nil; unfold vec_size in *; lia). constructor.
  - rewrite characters_encodeForFileName. apply (encoded_all_isUTF16 (length (characters s))); [done..|unfold unit_ok; lia|done].
Qed.

Lemma decodeFromFilename_sound s s' : Forall unit_ok (characters s) -> characters s' = characters (encodeForFileName s) ->
  exists s'', decodeFromFilename s' = Some s'' /\ characters s'' = characters s.
Proof.
  intros H Hs'. rewrite characters_encodeForFileName in Hs'. unfold decodeFromFilename. destruct (_ =? 0) eqn:E; zbool.
  - exists s'. split; [done|]. rewrite Hs' in *. destruct (characters s) as [|c rest]; [done|]. exfalso. cbn [encoded_all] in E. rewrite vec_size_app in E.
    apply Forall_cons_1 in H as [Hc _]. pose proof (vec_size_nonneg (encoded_all c rest)).
    destruct (encoded_cases c 0 (hd 0 rest) Hc) as [(_ & H')|[(_ & _ & H')|(_ & _ & H')]]; rewrite H' in E; unfold vec_size in *; cbn [length] in E; lia.
  - rewrite Hs'. apply (decode_encoded_all _ H 0 emptyBuilder).
Qed.

Lemma encoded_all_size input p : Forall unit_ok input -> vec_size (encoded_all p input) <= 6 * vec_size input.
Proof.
  intros H. revert p. induction H as [|c rest Hc _ IH]; intros p; [done|]. cbn [encoded_all]. rewrite vec_size_app. specialize (IH c).
  change (c :: rest) with ([c] ++ rest). rewrite vec_size_app. change (vec_size [c]) with 1.
  destruct (encoded_cases c p (hd 0 rest) Hc) as [(_ & ->)|[(_ & _ & ->)|(_ & _ & ->)]]; unfold vec_size in *; cbn [length]; lia.
Qed.

(** ** Claims *)

(** C22: The name that an identifier is encoded to, written as UTF-8, is read and
    decoded to the identifier again, whatever its code units: with unpaired
    surrogates, too.  So no two identifiers share a name. *)
Theorem fileName_roundtrip s : Forall unit_ok (characters s) -> 18 * vec_size (characters s) <= MaxLength ->
  exists bytes name s', utf8 (encodeForFileName s) = Some bytes /\ fromUTF8 bytes = Some (Some name) /\
    decodeFromFilename name = Some s' /\ characters s' = characters s.
Proof.
  intros H Hlen. pose proof (encodeForFileName_ok s H) as Hok. pose proof (encoded_all_size (characters s) 0 H) as Hsz. rewrite <- characters_encodeForFileName in Hsz.
  assert (vec_size (characters (encodeForFileName s)) <= MaxLength / 3) as Hle by (unfold MaxLength, INT32_MAX in *; divlia).
  destruct (string_utf8 _ Hok Hle) as (text & Ht & Heq & Hu). pose proof (concat_sizes text) as Hc. rewrite <- Heq in Hc.
  destruct (fromUTF8_text text Ht) as (name & Hn & Hname); [unfold MaxLength, INT32_MAX in *; divlia|].
  destruct (decodeFromFilename_sound s name H) as (s' & Hs' & Hchars); [congruence|]. by exists (concat (utf8_of <$> text)), name, s'.
Qed.

Lemma fileName_roundtrip_witness : exists bytes name s', utf8 (encodeForFileName (mkWString false [0xD800; 0x2F; 0xD83D; 0xDE00; 0x25])) = Some bytes /\
  fromUTF8 bytes = Some (Some name) /\ decodeFromFilename name = Some s' /\ characters s' = [0xD800; 0x2F; 0xD83D; 0xDE00; 0x25].
Proof.
  apply (fileName_roundtrip (mkWString false [0xD800; 0x2F; 0xD83D; 0xDE00; 0x25])); [|by vm_compute].
  repeat (apply Forall_cons_2; [split; lia|]). constructor.
Defined.

(** C25: An encoded name has no control character, none of the characters space,
    double quote, asterisk, slash, colon, less-than, greater-than, question mark,
    backslash, pipe and delete, and no unpaired surrogate, whatever code units the
    string has. *)
Theorem encodeForFileName_safe s : Forall unit_ok (characters s) ->
  Forall safe_character (characters (encodeForFileName s)) /\ string_ok (encodeForFileName s).
Proof. intros H. split; [rewrite characters_encodeForFileName; by apply encoded_all_safe|by apply encodeForFileName_ok]. Qed.

Lemma encodeForFileName_safe_witness : characters (encodeForFileName (mkWString true [0x2E; 0x2E; 0x2F; 0x61])) = [0x2E; 0x2E; 0x25; 0x32; 0x46; 0x61] /\
  Forall safe_character [0x2E; 0x2E; 0x25; 0x32; 0x46; 0x61].
Proof.
  split; [by vm_compute|]. apply (encodeForFileName_safe (mkWString true [0x2E; 0x2E; 0x2F; 0x61])). repeat (apply Forall_cons_2; [split; lia|]). constructor.
Defined.
