(* ===== verification/FileSystem.v ===== *)
(** * Files

    Models the functions on files that the store of compiled rule lists uses, of
    [src/Source/WebCore/platform/posix/FileSystemPOSIX.cpp] and
    [src/Source/WebKit/NetworkProcess/cache/NetworkCacheData.cpp] with
    [NetworkCacheDataSoup.cpp].  The system calls are parameters, the fields of
    [OS]; what POSIX documents of them is [POSIX].  The two halves are the portable
    ones of their kind: the ports that build [NetworkCacheDataSoup.cpp] (GTK and WPE)
    have [FileSystemGlib.cpp] for the first, whose functions call GIO. *)

From stdpp Require Import base numbers option list list_numbers gmap.
From Stdlib Require Import ZArith Lia.
From S2P Require Import Prelude.
From S2P Require Import ContentExtensionRule.
From S2P Require Import UTF8Conversion.

(** ** The interface of the system *)

(** What the system calls are about: the contents of the files by inode number, the
    entries of the directories by location, the open descriptors with inode and
    offset. *)
Record Disk := mkDisk {
  files : gmap Z (list Z);
  entries : gmap (list Z) Z;
  descriptors : gmap Z (Z * Z)
}.

(** The outcomes of [write]: a count, or -1 with [EINTR] or another error. *)
Inductive WriteResult := Wrote (count : Z) | Interrupted | WriteFailed.

(** A mapping shows the file, it is not a copy. *)
Record Mapping := mkMapping { mapping_inode : Z; mapping_size : Z }.

Inductive OpenFlags := O_RDONLY | O_WRONLY_CREAT_TRUNC.

(** The system calls on a state [W] of the system.  [locate] resolves a path to the
    place in the directory tree, whose directories and links do not change. *)
Class OS (W : Type) := {
  disk : W -> Disk;
  locate : list Z -> list Z;
  getenv_TMPDIR : W -> option (list Z);
  sys_mkstemp : list Z -> W -> W * (Z * list Z);
  sys_open : list Z -> OpenFlags -> W -> W * Z;
  sys_close : Z -> W -> W;
  sys_write : Z -> list Z -> W -> W * WriteResult;
  sys_lseek : Z -> Z -> W -> W * Z;
  sys_fstat : Z -> W -> W * option Z;
  sys_mmap : Z -> Z -> W -> W * option Mapping;
  sys_rename : list Z -> list Z -> W -> W * Z;
  sys_unlink : list Z -> W -> W * Z;
  (** [opendir], [readdir] until it returns null, and [closedir] *)
  sys_readdir : list Z -> W -> W * option (list (list Z));
  sys_fnmatch : list Z -> list Z -> Z
}.

(** Writing at an offset: a gap is filled with zeros. *)
Definition overwrite (old : list Z) (offset : Z) (data : list Z) : list Z :=
  let o := Z.to_nat offset in
  take o old ++ replicate (o - length old) 0 ++ data ++ drop (o + length data) old.

Definition with_files (d : Disk) (f : gmap Z (list Z)) : Disk := mkDisk f (entries d) (descriptors d).
Definition with_entries (d : Disk) (e : gmap (list Z) Z) : Disk := mkDisk (files d) e (descriptors d).
Definition with_descriptors (d : Disk) (f : gmap Z (Z * Z)) : Disk := mkDisk (files d) (entries d) f.

(** Every entry leads to a file. *)
Definition disk_ok (d : Disk) : Prop := forall loc ino, entries d !! loc = Some ino -> is_Some (files d !! ino).

(** What is found at a location. *)
Definition stored (d : Disk) (loc : list Z) : option (list Z) := entries d !! loc ≫= λ ino, files d !! ino.

(** A path component of a directory. *)
Definition slash : Z := 47.

(** What POSIX documents: a call that fails changes nothing, and what a call that
    succeeds does. *)
Class POSIX (W : Type) `{OS W} := {
  mkstemp_law : forall template w w' fd path, sys_mkstemp template w = (w', (fd, path)) ->
    if fd <? 0 then disk w' = disk w
    else exists ino, files (disk w) !! ino = None /\ entries (disk w) !! locate path = None /\ descriptors (disk w) !! fd = None /\
      disk w' = mkDisk (<[ino := []]> (files (disk w))) (<[locate path := ino]> (entries (disk w))) (<[fd := (ino, 0)]> (descriptors (disk w)));
  open_read_law : forall path w w' fd, sys_open path O_RDONLY w = (w', fd) ->
    if fd <? 0 then disk w' = disk w
    else exists ino, entries (disk w) !! locate path = Some ino /\ descriptors (disk w) !! fd = None /\
      disk w' = with_descriptors (disk w) (<[fd := (ino, 0)]> (descriptors (disk w)));
  open_write_law : forall path w w' fd, sys_open path O_WRONLY_CREAT_TRUNC w = (w', fd) ->
    if fd <? 0 then fd = -1 /\ disk w' = disk w
    else exists ino, (entries (disk w) !! locate path = Some ino \/ entries (disk w) !! locate path = None /\ files (disk w) !! ino = None) /\
      descriptors (disk w) !! fd = None /\
      disk w' = mkDisk (<[ino := []]> (files (disk w))) (<[locate path := ino]> (entries (disk w))) (<[fd := (ino, 0)]> (descriptors (disk w)));
  close_law : forall fd w, disk (sys_close fd w) = with_descriptors (disk w) (delete fd (descriptors (disk w)));
  write_law : forall fd data w w' r, sys_write fd data w = (w', r) ->
    match r with
    | Wrote n => exists ino offset old, 0 <= n <= vec_size data /\ descriptors (disk w) !! fd = Some (ino, offset) /\ files (disk w) !! ino = Some old /\
        disk w' = mkDisk (<[ino := overwrite old offset (take (Z.to_nat n) data)]> (files (disk w))) (entries (disk w)) (<[fd := (ino, offset + n)]> (descriptors (disk w)))
    | Interrupted | WriteFailed => disk w' = disk w
    end;
  lseek_law : forall fd offset w w' r, sys_lseek fd offset w = (w', r) ->
    if r =? -1 then disk w' = disk w
    else exists ino old, descriptors (disk w) !! fd = Some (ino, old) /\ r = offset /\ disk w' = with_descriptors (disk w) (<[fd := (ino, offset)]> (descriptors (disk w)));
  fstat_law : forall fd w w' r, sys_fstat fd w = (w', r) -> disk w' = disk w /\
    forall size, r = Some size -> exists ino offset bytes, descriptors (disk w) !! fd = Some (ino, offset) /\ files (disk w) !! ino = Some bytes /\ size = vec_size bytes;
  mmap_law : forall fd size w w' r, sys_mmap fd size w = (w', r) -> disk w' = disk w /\
    forall m, r = Some m -> exists offset, descriptors (disk w) !! fd = Some (mapping_inode m, offset) /\ mapping_size m = size;
  rename_law : forall old new w w' r, sys_rename old new w = (w', r) ->
    if r =? -1 then disk w' = disk w
    else exists ino, entries (disk w) !! locate old = Some ino /\
      disk w' = if bool_decide (entries (disk w) !! locate new = Some ino) then disk w
                else with_entries (disk w) (<[locate new := ino]> (delete (locate old) (entries (disk w))));
  unlink_law : forall path w w' r, sys_unlink path w = (w', r) ->
    if r =? 0 then is_Some (entries (disk w) !! locate path) /\ disk w' = with_entries (disk w) (delete (locate path) (entries (disk w)))
    else disk w' = disk w;
  readdir_law : forall path w w' r, sys_readdir path w = (w', r) -> disk w' = disk w /\
    forall names, r = Some names -> forall name, slash ∉ name -> name ∉ [[]; [46]; [46; 46]] -> name ∈ names <-> is_Some (entries (disk w) !! locate (path ++ slash :: name));
  (** an asterisk at the end of a pattern without special characters *)
  fnmatch_law : forall prefix name, Forall (λ c, c ∉ [42; 63; 91; 92]) prefix -> sys_fnmatch (prefix ++ [42]) name = 0 <-> prefix `prefix_of` name
}.

(** ** Computations on the state of the system

    [None]: a loop did not end within the fuel, or memory outside of a buffer is
    accessed. *)
Definition SysM (W A : Type) : Type := W -> option (W * A).

Section SysM.
Context {W : Type}.

Definition sret {A} (a : A) : SysM W A := λ w, Some (w, a).
Definition sbind {A B} (m : SysM W A) (k : A -> SysM W B) : SysM W B := λ w, match m w with Some (w', a) => k a w' | None => None end.
Definition scall {A} (f : W -> W * A) : SysM W A := λ w, Some (f w).
Definition sfail {A} : SysM W A := λ _, None.

End SysM.

Declare Scope sys_scope.
Delimit Scope sys_scope with sys.
Notation "'let?' x := m 'in' k" := (sbind m (λ x, k)) (at level 99, x pattern, m at level 200, k at level 200) : sys_scope.

(** ** Functions on files *)

Section Files.
Context {W : Type} `{OS W}.
Open Scope sys_scope.

Definition invalidPlatformFileHandle : Z := -1.

Definition isHandleValid (handle : Z) : bool := negb (handle =? invalidPlatformFileHandle).

(** The conversion of a path; [None] is a release assertion of [String::utf8]. *)
Definition fileSystemRepresentation (path : WString) : option (list Z) := utf8 path.

Definition lift_option {A} (o : option A) : SysM W A := λ w, match o with Some a => Some (w, a) | None => None end.

Definition deleteFile (path : WString) : SysM W bool :=
  let? fsRep := lift_option (fileSystemRepresentation path) in
  if bool_decide (fsRep = []) || (hd 0 fsRep =? 0) then sret false
  else let? r := scall (sys_unlink fsRep) in sret (r =? 0).

Definition openFile (path : WString) (flags : OpenFlags) : SysM W Z :=
  let? fsRep := lift_option (fileSystemRepresentation path) in
  scall (sys_open fsRep flags).

(** The handle is passed by reference: the result is the handle after. *)
Definition closeFile (handle : Z) : SysM W Z :=
  if isHandleValid handle then let? _ := scall (λ w, (sys_close handle w, tt)) in sret invalidPlatformFileHandle
  else sret handle.

(** [FileSeekOrigin::Beginning] *)
Definition seekFile (handle offset : Z) : SysM W Z := scall (sys_lseek handle offset).

(** [writeToFile(handle, data, length)]: interrupted writes are repeated, the count
    is returned, -1 for errors.  The length is an [int]; if it is not the size of
    the buffer, what [write] gets is not in the buffer. *)
Fixpoint writeLoop (fuel : nat) (handle : Z) (data : list Z) : SysM W Z :=
  match fuel with
  | O => sfail
  | S fuel =>
      let? r := scall (sys_write handle data) in
      match r with
      | Wrote bytesWritten => sret bytesWritten
      | Interrupted => writeLoop fuel handle data
      | WriteFailed => sret (-1)
      end
  end.

Definition writeToFile (fuel : nat) (handle : Z) (data : list Z) (length : Z) : SysM W Z :=
  if (length <? 0) || (vec_size data <? length) then sfail else writeLoop fuel handle (take (Z.to_nat length) data).

Definition moveFile (oldPath newPath : WString) : SysM W bool :=
  let? oldFilename := lift_option (fileSystemRepresentation oldPath) in
  let? newFilename := lift_option (fileSystemRepresentation newPath) in
  let? r := scall (sys_rename oldFilename newFilename) in
  sret (negb (r =? -1)).

(** "/tmp" *)
Definition defaultTmpDir : list Z := [47; 116; 109; 112].

Definition PATH_MAX : Z := 4096.

(** [openTemporaryFile]: the path, null for errors, and the handle. *)
Definition temporaryTemplate (prefix : list Z) (w : W) : list Z := default defaultTmpDir (getenv_TMPDIR w) ++ [slash] ++ prefix ++ [88; 88; 88; 88; 88; 88].

Definition openTemporaryFile (prefix : list Z) : SysM W (option WString * Z) :=
  let? buffer := λ w, Some (w, temporaryTemplate prefix w) in
  if PATH_MAX <=? vec_size buffer then sret (None, invalidPlatformFileHandle)
  else
    let? (handle, path) := scall (sys_mkstemp buffer) in
    if handle <? 0 then sret (None, invalidPlatformFileHandle)
    else let? s := lift_option (fromUTF8 path) in sret (s, handle).

(** [snprintf] of "%s/%s", whose result is not used when it does not fit. *)
Definition pathInDirectory (cpath name : list Z) : list Z := cpath ++ [slash] ++ name.

Fixpoint listNames (cpath cfilter : list Z) (names : list (list Z)) : option (list WString) :=
  match names with
  | [] => Some []
  | name :: names =>
      entries ← listNames cpath cfilter names;
      if bool_decide (name = [46]) || bool_decide (name = [46; 46]) then Some entries
      else if negb (sys_fnmatch cfilter name =? 0) then Some entries
      else if PATH_MAX - 1 <? vec_size (pathInDirectory cpath name) then Some entries
      else s ← fromUTF8 (pathInDirectory cpath name); Some (match s with Some s => s :: entries | None => entries end)
  end.

Definition listDirectory (path filter : WString) : SysM W (list WString) :=
  let? cpath := lift_option (fileSystemRepresentation path) in
  let? cfilter := lift_option (fileSystemRepresentation filter) in
  let? names := scall (sys_readdir cpath) in
  match names with
  | Some names => lift_option (listNames cpath cfilter names)
  | None => sret []
  end.

Definition concatenate (s t : WString) : WString := mkWString (is8Bit s && is8Bit t) (characters s ++ characters t).

Definition pathByAppendingComponent (path component : WString) : WString :=
  if bool_decide (last (characters path) = Some slash) then concatenate path component
  else concatenate (concatenate path (mkWString true [slash])) component.

(** ** Data of the network cache *)

Inductive Data := NullData | EmptyData | BufferData (bytes : list Z) | MapData (mapping : Mapping) (fd : Z).

Definition Data_isNull (d : Data) : bool := match d with NullData => true | _ => false end.

Definition Data_size (d : Data) : Z :=
  match d with NullData | EmptyData => 0 | BufferData bytes => vec_size bytes | MapData m _ => mapping_size m end.

(** The bytes of the file that a mapping shows.  What lies behind the end of the file
    are not bytes of it: zeros, and behind the last page an access fails. *)
Definition mapped_bytes (d : Disk) (m : Mapping) : list Z := take (Z.to_nat (mapping_size m)) (default [] (files d !! mapping_inode m)).

(** Reading [size] bytes at an offset; [None] is an access outside. *)
Definition read_bytes (bytes : list Z) (offset size : Z) : option (list Z) :=
  if (0 <=? offset) && (0 <=? size) && (offset + size <=? vec_size bytes) then Some (take (Z.to_nat size) (drop (Z.to_nat offset) bytes)) else None.

Definition Data_bytes (d : Disk) (data : Data) : list Z :=
  match data with NullData | EmptyData => [] | BufferData bytes => bytes | MapData m _ => mapped_bytes d m end.

(** The end of the life of data: the destructor of [MapWrapper] unmaps the memory,
    which changes nothing on the disk, and closes the descriptor. *)
Definition releaseData (d : Data) : SysM W unit :=
  match d with
  | MapData _ fd => scall (λ w, (sys_close fd w, tt))
  | _ => sret tt
  end.

Definition adoptAndMapFile (fd size : Z) : SysM W Data :=
  if size =? 0 then let? _ := scall (λ w, (sys_close fd w, tt)) in sret EmptyData
  else
    let? map := scall (sys_mmap fd size) in
    match map with
    | None => let? _ := scall (λ w, (sys_close fd w, tt)) in sret NullData
    | Some m => sret (MapData m fd)
    end.

Definition mapFile (path : list Z) : SysM W Data :=
  let? fd := scall (sys_open path O_RDONLY) in
  if fd <? 0 then sret NullData
  else
    let? size := scall (sys_fstat fd) in
    match size with
    | None => let? _ := scall (λ w, (sys_close fd w, tt)) in sret NullData
    | Some size =>
        if size =? 0 then let? _ := scall (λ w, (sys_close fd w, tt)) in sret EmptyData
        else adoptAndMapFile fd size
    end.

End Files.
