(* ===== verification/FileSystemProof.v ===== *)
(** * What the functions on files do

    A total-correctness logic for computations on the state of the system, and what
    the functions of [FileSystem] do by the documentation of the system calls:
    whatever fails, and however often a write is interrupted. *)

From stdpp Require Import base numbers option list list_numbers gmap.
From Stdlib Require Import ZArith Lia.
From S2P Require Import Prelude.
From S2P Require Import ContentExtensionRule.
From S2P Require Import UTF8Conversion.
From S2P Require Import FileSystem.

(** ** Total correctness *)

(** The computation ends, and its result and the state after meet [Q]. *)
Definition runs {W A} (m : SysM W A) (w : W) (Q : A -> W -> Prop) : Prop := exists w' a, m w = Some (w', a) /\ Q a w'.

Section Runs.
Context {W : Type}.

Lemma runs_ret {A} (a : A) (w : W) (Q : A -> W -> Prop) : Q a w -> runs (sret a) w Q.
Proof. intros H. by exists w, a. Qed.

Lemma runs_call {A} (f : W -> W * A) w (Q : A -> W -> Prop) : (forall w' a, f w = (w', a) -> Q a w') -> runs (scall f) w Q.
Proof. intros H. unfold runs, scall. destruct (f w) as [w' a] eqn:E. exists w', a. split; [done|by apply H]. Qed.

Lemma runs_bind {A B} (m : SysM W A) (k : A -> SysM W B) w (Q : B -> W -> Prop) : runs m w (λ a w', runs (k a) w' Q) -> runs (sbind m k) w Q.
Proof. intros (w' & a & Hm & w'' & b & Hk & HQ). exists w'', b. split; [|done]. unfold sbind. by rewrite Hm. Qed.

Lemma runs_mono {A} (m : SysM W A) w (P Q : A -> W -> Prop) : runs m w P -> (forall a w', P a w' -> Q a w') -> runs m w Q.
Proof. intros (w' & a & Hm & HP) H. exists w', a. auto. Qed.

(** The result is that of the computation. *)
Lemma runs_eq {A} (m : SysM W A) w (Q : A -> W -> Prop) : runs m w Q -> runs m w (λ a w', m w = Some (w', a) /\ Q a w').
Proof. intros (w' & a & Hm & HQ). by exists w', a. Qed.

Lemma runs_lift {A} (o : option A) a w (Q : A -> W -> Prop) : o = Some a -> Q a w -> runs (lift_option o) w Q.
Proof. intros -> H. by exists w, a. Qed.

Lemma runs_get {A} (f : W -> A) w (Q : A -> W -> Prop) : Q (f w) w -> runs (λ w, Some (w, f w)) w Q.
Proof. intros H. by exists w, (f w). Qed.

End Runs.

(** One step of a computation: a return, or the first part of a sequence. *)
Ltac run_step := lazymatch goal with |- runs (sbind _ _) _ _ => apply runs_bind | |- runs (sret _) _ _ => apply runs_ret end.

(** ** Overwriting *)

Lemma overwrite_end old data : overwrite old (vec_size old) data = old ++ data.
Proof.
  unfold overwrite, vec_size. rewrite Nat2Z.id, firstn_all, Nat.sub_diag. cbn [replicate app]. rewrite drop_ge by lia. by rewrite app_nil_r.
Qed.

Lemma overwrite_0 old data : overwrite old 0 data = data ++ drop (length data) old.
Proof. unfold overwrite. change (Z.to_nat 0) with 0%nat. by rewrite Nat.sub_0_l, Nat.add_0_l, take_0. Qed.

Lemma overwrite_start header header' rest : length header = length header' -> overwrite (header ++ rest) 0 header' = header' ++ rest.
Proof. intros H. by rewrite overwrite_0, <- H, drop_app_length. Qed.

Lemma vec_size_overwrite_0 old data : vec_size (overwrite old 0 data) = Z.max (vec_size data) (vec_size old).
Proof. rewrite overwrite_0. unfold vec_size. rewrite length_app, length_drop. lia. Qed.

(** ** The functions *)

Section Proofs.
Context {W : Type} `{POSIX W}.
Implicit Types w : W.

(** Every write counts all of its bytes, as it does for a file on a disk that is not full. *)
Definition full_writes : Prop := forall fd data (w w' : W) n, sys_write fd data w = (w', Wrote n) -> n = vec_size data.

(** A write is interrupted less often than there is fuel. *)
Fixpoint write_ends (fuel : nat) (fd : Z) (data : list Z) (w : W) : Prop :=
  match fuel with
  | O => False
  | S fuel => let '(w', r) := sys_write fd data w in match r with Interrupted => write_ends fuel fd data w' | _ => True end
  end.

Definition writes_end (fuel : nat) : Prop := forall fd data (w : W), write_ends fuel fd data w.

(** Files can be read: what exists is opened, and open files can be mapped. *)
Definition reads_succeed : Prop :=
  (forall path (w w' : W) fd, sys_open path O_RDONLY w = (w', fd) -> is_Some (entries (disk w) !! locate path) -> 0 <= fd) /\
  (forall fd ino offset (w w' : W) r, sys_fstat fd w = (w', r) -> descriptors (disk w) !! fd = Some (ino, offset) -> is_Some (files (disk w) !! ino) -> is_Some r) /\
  (forall fd size (w w' : W) r, sys_mmap fd size w = (w', r) -> is_Some (descriptors (disk w) !! fd) -> is_Some r).

(** The files and the directories are the same. *)
Definition same_files (d d' : Disk) : Prop := files d' = files d /\ entries d' = entries d.

#[global] Instance same_files_preorder : PreOrder same_files.
Proof. split; [by intros d|]. intros d1 d2 d3 [] []. split; congruence. Qed.

Lemma same_files_stored d d' loc : same_files d d' -> stored d' loc = stored d loc.
Proof. intros [Hf He]. unfold stored. by rewrite Hf, He. Qed.

(** A system whose calls do what they are asked for, except that a write takes no
    more than [k] bytes at a time: this is no error of [write]. *)
Record capped_system (k : Z) : Prop := {
  cs_mkstemp : forall template (w w' : W) fd path, sys_mkstemp template w = (w', (fd, path)) -> 0 <= fd;
  cs_write : forall fd data (w w' : W) r ino offset, sys_write fd data w = (w', r) -> descriptors (disk w) !! fd = Some (ino, offset) -> is_Some (files (disk w) !! ino) ->
    r = Interrupted \/ r = Wrote (Z.min k (vec_size data));
  cs_lseek : forall fd offset (w w' : W) r, sys_lseek fd offset w = (w', r) -> is_Some (descriptors (disk w) !! fd) -> 0 <= offset -> r <> -1;
  cs_mmap : forall fd size (w w' : W) r, sys_mmap fd size w = (w', r) -> is_Some (descriptors (disk w) !! fd) -> is_Some r;
  cs_rename : forall old new (w w' : W) r, sys_rename old new w = (w', r) -> is_Some (entries (disk w) !! locate old) -> r <> -1
}.

(** What a write took of its data. *)
Record took (written data : list Z) : Prop := {
  took_prefix : written `prefix_of` data;
  took_full : full_writes -> written = data;
  took_capped : forall k, capped_system k -> written = take (Z.to_nat k) data
}.

Lemma took_nil : took [] [].
Proof. split; [done..|]. intros k _. by rewrite take_nil. Qed.

Lemma took_size written data : took written data -> vec_size written <= vec_size data.
Proof. intros [Hp _ _]. apply prefix_length in Hp. unfold vec_size. lia. Qed.

Lemma took_all written data : took written data -> vec_size data <= vec_size written -> written = data.
Proof. intros [Hp _ _] Hs. unfold vec_size in Hs. apply prefix_length_eq; [done|lia]. Qed.

(** Writing fails only if the system may refuse. *)
Definition refuses (fd : Z) (w : W) : Prop := forall k ino offset, capped_system k -> descriptors (disk w) !! fd = Some (ino, offset) -> is_Some (files (disk w) !! ino) -> False.

Lemma writeLoop_runs fuel fd data w : write_ends fuel fd data w ->
  runs (writeLoop fuel fd data) w (λ r w', r = -1 /\ disk w' = disk w /\ refuses fd w \/
    exists ino offset old written, r <> -1 /\ took written data /\ descriptors (disk w) !! fd = Some (ino, offset) /\ files (disk w) !! ino = Some old /\
      disk w' = mkDisk (<[ino := overwrite old offset written]> (files (disk w))) (entries (disk w)) (<[fd := (ino, offset + vec_size written)]> (descriptors (disk w)))).
Proof.
  revert w. induction fuel as [|fuel IH]; intros w Hend; [done|]. cbn [write_ends] in Hend. cbn [writeLoop].
  run_step. apply runs_call. intros w' r Hw. rewrite Hw in Hend. pose proof (write_law _ _ _ _ _ Hw) as Hlaw. destruct r.
  - apply runs_ret. destruct Hlaw as (ino & offset & old & Hn & Hfd & Hino & Hd). right. exists ino, offset, old, (take (Z.to_nat count) data). split; [lia|].
    assert (vec_size (take (Z.to_nat count) data) = count) as -> by (unfold vec_size in *; rewrite length_take; lia). split; [|done]. split.
    + apply prefix_take.
    + intros Hfull. rewrite (Hfull _ _ _ _ _ Hw). apply take_ge. unfold vec_size. lia.
    + intros k Hk. destruct (cs_write k Hk _ _ _ _ _ _ _ Hw Hfd) as [[=]|[= ->]]; [by rewrite Hino|]. destruct (Z.min_spec k (vec_size data)) as [[? ->]|[? ->]]; [done|].
      rewrite !take_ge; unfold vec_size in *; [done|lia..].
  - eapply runs_mono; [by apply IH|]. cbn beta. unfold refuses. intros r w2. by rewrite Hlaw.
  - apply runs_ret. left. split; [done|]. split; [done|]. intros k ino offset Hk Hfd Hino. by destruct (cs_write k Hk _ _ _ _ _ _ _ Hw Hfd Hino).
Qed.

Lemma writeToFile_runs fuel fd data w : writes_end fuel ->
  runs (writeToFile fuel fd data (vec_size data)) w (λ r w', r = -1 /\ disk w' = disk w /\ refuses fd w \/
    exists ino offset old written, r <> -1 /\ took written data /\ descriptors (disk w) !! fd = Some (ino, offset) /\ files (disk w) !! ino = Some old /\
      disk w' = mkDisk (<[ino := overwrite old offset written]> (files (disk w))) (entries (disk w)) (<[fd := (ino, offset + vec_size written)]> (descriptors (disk w)))).
Proof.
  intros Hend. unfold writeToFile. pose proof (vec_size_nonneg data). destruct (_ || _) eqn:E.
  { apply orb_true_iff in E as [E|E]; zbool; lia. }
  rewrite take_ge by (unfold vec_size; lia). by apply writeLoop_runs.
Qed.

Lemma closeFile_runs handle w (Q : Z -> W -> Prop) : (forall w', disk w' = with_descriptors (disk w) (delete handle (descriptors (disk w))) \/ disk w' = disk w -> Q invalidPlatformFileHandle w') ->
  runs (closeFile handle) w Q.
Proof.
  intros HQ. unfold closeFile, isHandleValid. destruct (handle =? _) eqn:E; cbn [negb]; zbool.
  - run_step. subst handle. apply HQ. by right.
  - run_step. apply runs_call. intros w' [] [= <-]. run_step. apply HQ. left. apply close_law.
Qed.

Lemma releaseData_runs data w (Q : unit -> W -> Prop) : (forall w', same_files (disk w) (disk w') -> Q tt w') -> runs (releaseData data) w Q.
Proof.
  intros HQ. destruct data; cbn [releaseData]; try (run_step; by apply HQ). apply runs_call. intros w' [] [= <-]. apply HQ. by rewrite close_law.
Qed.

(** Mapping a file that is open. *)
Lemma adoptAndMapFile_runs fd size ino offset w : size <> 0 -> descriptors (disk w) !! fd = Some (ino, offset) ->
  runs (adoptAndMapFile fd size) w (λ data w', same_files (disk w) (disk w') /\ ((data = NullData /\ ~ reads_succeed /\ forall k, ~ capped_system k) \/ data = MapData (mkMapping ino size) fd)).
Proof.
  intros Hsize Hfd. unfold adoptAndMapFile. apply Z.eqb_neq in Hsize. rewrite Hsize. run_step. apply runs_call. intros w' m Hm.
  destruct (mmap_law _ _ _ _ _ Hm) as [Hd Hmap]. destruct m as [m|].
  - run_step. rewrite Hd. split; [done|]. right. destruct (Hmap m eq_refl) as (o & Ho & <-). rewrite Hfd in Ho. injection Ho as -> _. by destruct m.
  - run_step. apply runs_call. intros w2 [] [= <-]. run_step. rewrite close_law, Hd. split; [done|]. left. split; [done|]. split.
    + intros (_ & _ & Hmm). destruct (Hmm _ _ _ _ _ Hm) as [? [=]]. by rewrite Hfd.
    + intros k Hk. destruct (cs_mmap k Hk _ _ _ _ _ Hm) as [? [=]]. by rewrite Hfd.
Qed.

(** Mapping the file at a path. *)
Lemma mapFile_runs path bytes w : stored (disk w) (locate path) = Some bytes -> bytes <> [] ->
  runs (mapFile path) w (λ data w', same_files (disk w) (disk w') /\
    ((data = NullData /\ ~ reads_succeed) \/ exists ino fd, data = MapData (mkMapping ino (vec_size bytes)) fd /\ files (disk w) !! ino = Some bytes)).
Proof.
  intros Hst Hne. unfold stored in Hst. apply bind_Some in Hst as (ino & Hent & Hino). unfold mapFile. run_step. apply runs_call. intros w1 fd Hopen.
  pose proof (open_read_law _ _ _ _ Hopen) as Hlaw. destruct (fd <? 0) eqn:Efd.
  { run_step. rewrite Hlaw. split; [done|]. left. split; [done|]. intros (Hr & _). zbool. specialize (Hr _ _ _ _ Hopen ltac:(by rewrite Hent)). lia. }
  destruct Hlaw as (ino' & Hent' & _ & Hd1). rewrite Hent in Hent'. injection Hent' as <-.
  run_step. apply runs_call. intros w2 size Hstat. destruct (fstat_law _ _ _ _ Hstat) as [Hd2 Hsz]. destruct size as [size|].
  - destruct (Hsz size eq_refl) as (ino2 & o & b & Hfd & Hb & ->). rewrite Hd1 in Hfd, Hb. cbn in Hfd, Hb. rewrite lookup_insert_eq in Hfd. injection Hfd as <- _.
    assert (b = bytes) as -> by congruence. assert (vec_size bytes <> 0) as Hnz by (unfold vec_size; destruct bytes; [done|cbn [length]; lia]).
    pose proof Hnz as Hz. apply Z.eqb_neq in Hz. rewrite Hz. eapply runs_mono.
    + apply (adoptAndMapFile_runs fd (vec_size bytes) ino 0 w2); [done|]. rewrite Hd2, Hd1. cbn. by rewrite lookup_insert_eq.
    + cbn beta. rewrite Hd2, Hd1. intros data w3 [Hs Hd]. split; [done|]. destruct Hd as [(? & ? & _)|Hd]; [by left|]. right. by exists ino, fd.
  - run_step. apply runs_call. intros w3 [] [= <-]. run_step. rewrite close_law, Hd2, Hd1. split; [done|]. left. split; [done|]. intros (_ & Hs & _).
    destruct (Hs _ ino 0 _ _ _ Hstat) as [? [=]]; rewrite Hd1; cbn; [by rewrite lookup_insert_eq|by rewrite Hino].
Qed.

(** An empty file is not mapped. *)
Lemma mapFile_empty path w : stored (disk w) (locate path) = Some [] ->
  runs (mapFile path) w (λ data w', same_files (disk w) (disk w') /\ (data = NullData \/ data = EmptyData)).
Proof.
  intros Hst. unfold stored in Hst. apply bind_Some in Hst as (ino & Hent & Hino). unfold mapFile. run_step. apply runs_call. intros w1 fd Hopen.
  pose proof (open_read_law _ _ _ _ Hopen) as Hlaw. destruct (fd <? 0); [run_step; rewrite Hlaw; split; [done|by left]|].
  destruct Hlaw as (ino' & Hent' & _ & Hd1). rewrite Hent in Hent'. injection Hent' as <-.
  run_step. apply runs_call. intros w2 size Hstat. destruct (fstat_law _ _ _ _ Hstat) as [Hd2 Hsz].
  assert (same_files (disk w) (disk w2)) as Hsame by (by rewrite Hd2, Hd1). destruct size as [size|].
  - destruct (Hsz size eq_refl) as (ino2 & o & b & Hfd & Hb & ->). rewrite Hd1 in Hfd, Hb. cbn in Hfd, Hb. rewrite lookup_insert_eq in Hfd. injection Hfd as <- _.
    assert (b = []) as -> by congruence. change (vec_size [] =? 0) with true. cbn iota. run_step. apply runs_call. intros w3 [] [= <-]. run_step. rewrite close_law. split; [done|by right].
  - run_step. apply runs_call. intros w3 [] [= <-]. run_step. rewrite close_law. split; [done|by left].
Qed.

(** Where there is no file, nothing is mapped. *)
Lemma mapFile_missing path w : entries (disk w) !! locate path = None ->
  runs (mapFile path) w (λ data w', data = NullData /\ disk w' = disk w).
Proof.
  intros Hent. unfold mapFile. run_step. apply runs_call. intros w1 fd Hopen. pose proof (open_read_law _ _ _ _ Hopen) as Hlaw.
  destruct (fd <? 0); [by run_step|]. destruct Hlaw as (ino & Hent' & _). congruence.
Qed.

End Proofs.
