(* ===== verification/SimulatedOS.v ===== *)
(** * Systems for examples

    An executable instance of the system calls, on which the examples of the store
    are computed: files in memory, on a disk that may be bounded or take a few bytes
    at a time.  [simulated_POSIX] shows that what is assumed of the system calls can
    be met.  [Logged] is any system, with a log of the descriptors that are closed. *)

From stdpp Require Import base numbers option list list_numbers gmap.
From Stdlib Require Import ZArith Lia.
From S2P Require Import Prelude.
From S2P Require Import FileSystem.
From S2P Require Import FileSystemProof.

(** Writes take everything, or what there is room for on the disk, or some bytes at a
    time. *)
Inductive Writes := Unlimited | Limited | Capped (k : Z).

Record Simulation (writes : Writes) := mkSimulation {
  sim_disk : Disk;
  sim_room : Z
}.

Arguments mkSimulation {_} _ _.
Arguments sim_disk {_} _.
Arguments sim_room {_} _.

(** A number above all keys. *)
Definition next_key {A} (m : gmap Z A) : Z := foldr (λ '(k, _) n, Z.max n (k + 1)) 3 (map_to_list m).

Definition longest (m : gmap (list Z) Z) : nat := foldr (λ '(k, _) n, Nat.max n (length k)) 0%nat (map_to_list m).

Section Calls.
Context {writes : Writes}.
Abbreviation state := (Simulation writes).

Definition with_disk (s : state) (d : Disk) : state := mkSimulation d (sim_room s).

Definition sim_mkstemp (template : list Z) (s : state) : state * (Z * list Z) :=
  let d := sim_disk s in
  let ino := next_key (files d) in
  let fd := next_key (descriptors d) in
  let path := template ++ replicate (S (longest (entries d))) 88 in
  (with_disk s (mkDisk (<[ino := []]> (files d)) (<[path := ino]> (entries d)) (<[fd := (ino, 0)]> (descriptors d))), (fd, path)).

Definition sim_open (path : list Z) (flags : OpenFlags) (s : state) : state * Z :=
  let d := sim_disk s in
  let fd := next_key (descriptors d) in
  match flags, entries d !! path with
  | O_RDONLY, None => (s, -1)
  | O_RDONLY, Some ino => (with_disk s (with_descriptors d (<[fd := (ino, 0)]> (descriptors d))), fd)
  | O_WRONLY_CREAT_TRUNC, found =>
      let ino := default (next_key (files d)) found in
      (with_disk s (mkDisk (<[ino := []]> (files d)) (<[path := ino]> (entries d)) (<[fd := (ino, 0)]> (descriptors d))), fd)
  end.

Definition sim_close (fd : Z) (s : state) : state :=
  with_disk s (with_descriptors (sim_disk s) (delete fd (descriptors (sim_disk s)))).

(** How many more bytes a file needs. *)
Definition growth (old : list Z) (offset size : Z) : Z := Z.max 0 (offset + size - vec_size old).

(** A write on a full disk fails; what is overwritten needs no room. *)
Definition sim_write (fd : Z) (data : list Z) (s : state) : state * WriteResult :=
  let d := sim_disk s in
  match descriptors d !! fd with
  | Some (ino, offset) =>
      match files d !! ino with
      | Some old =>
          let n := match writes with
            | Unlimited => vec_size data
            | Limited => Z.max 0 (Z.min (sim_room s + Z.max 0 (vec_size old - offset)) (vec_size data))
            | Capped k => Z.max 0 (Z.min k (vec_size data))
            end in
          if (n =? 0) && (0 <? vec_size data) then (s, WriteFailed)
          else (mkSimulation (mkDisk (<[ino := overwrite old offset (take (Z.to_nat n) data)]> (files d)) (entries d) (<[fd := (ino, offset + n)]> (descriptors d)))
                  (sim_room s - growth old offset n), Wrote n)
      | None => (s, WriteFailed)
      end
  | None => (s, WriteFailed)
  end.

Definition sim_lseek (fd offset : Z) (s : state) : state * Z :=
  match descriptors (sim_disk s) !! fd with
  | Some (ino, _) => if offset =? -1 then (s, -1) else (with_disk s (with_descriptors (sim_disk s) (<[fd := (ino, offset)]> (descriptors (sim_disk s)))), offset)
  | None => (s, -1)
  end.

Definition sim_fstat (fd : Z) (s : state) : state * option Z :=
  (s, '(ino, _) ← descriptors (sim_disk s) !! fd; bytes ← files (sim_disk s) !! ino; Some (vec_size bytes)).

Definition sim_mmap (fd size : Z) (s : state) : state * option Mapping :=
  (s, '(ino, _) ← descriptors (sim_disk s) !! fd; Some (mkMapping ino size)).

Definition sim_rename (old new : list Z) (s : state) : state * Z :=
  let d := sim_disk s in
  match entries d !! old with
  | Some ino => (if bool_decide (entries d !! new = Some ino) then s else with_disk s (with_entries d (<[new := ino]> (delete old (entries d)))), 0)
  | None => (s, -1)
  end.

Definition sim_unlink (path : list Z) (s : state) : state * Z :=
  let d := sim_disk s in
  match entries d !! path with
  | Some _ => (with_disk s (with_entries d (delete path (entries d))), 0)
  | None => (s, -1)
  end.

Definition strip_prefix (p k : list Z) : option (list Z) := if bool_decide (take (length p) k = p) then Some (drop (length p) k) else None.

Definition sim_readdir (path : list Z) (s : state) : state * option (list (list Z)) :=
  (s, Some (omap (λ '(k, _), strip_prefix (path ++ [slash]) k) (map_to_list (entries (sim_disk s))))).

End Calls.

Definition sim_fnmatch (pattern name : list Z) : Z :=
  let prefix := take (length pattern - 1) pattern in
  if bool_decide (last pattern = Some 42) && bool_decide (take (length prefix) name = prefix) || bool_decide (name = pattern) then 0 else 1.

#[export] Instance simulated_OS writes : OS (Simulation writes) := {|
  disk := sim_disk;
  locate path := path;
  getenv_TMPDIR _ := None;
  sys_mkstemp := sim_mkstemp;
  sys_open := sim_open;
  sys_close := sim_close;
  sys_write := sim_write;
  sys_lseek := sim_lseek;
  sys_fstat := sim_fstat;
  sys_mmap := sim_mmap;
  sys_rename := sim_rename;
  sys_unlink := sim_unlink;
  sys_readdir := sim_readdir;
  sys_fnmatch := sim_fnmatch
|}.

(** ** Fresh names *)

Lemma next_key_above {A} (m : gmap Z A) k a : m !! k = Some a -> k < next_key m.
Proof.
  rewrite <- elem_of_map_to_list. unfold next_key. induction (map_to_list m) as [|[k' a'] l IH]; intros Hin; [by apply elem_of_nil in Hin|].
  cbn [foldr]. apply elem_of_cons in Hin as [[= -> ->]|Hin]; [lia|]. specialize (IH Hin). lia.
Qed.

Lemma next_key_fresh {A} (m : gmap Z A) : m !! next_key m = None.
Proof. destruct (m !! next_key m) eqn:E; [|done]. apply next_key_above in E. lia. Qed.

Lemma next_key_nonneg {A} (m : gmap Z A) : 3 <= next_key m.
Proof. unfold next_key. induction (map_to_list m) as [|[k a] l IH]; cbn [foldr]; lia. Qed.

Lemma longest_above (m : gmap (list Z) Z) k i : m !! k = Some i -> (length k <= longest m)%nat.
Proof.
  rewrite <- elem_of_map_to_list. unfold longest. induction (map_to_list m) as [|[k' a'] l IH]; intros Hin; [by apply elem_of_nil in Hin|].
  cbn [foldr]. apply elem_of_cons in Hin as [[= -> ->]|Hin]; [lia|]. specialize (IH Hin). lia.
Qed.

Lemma strip_prefix_Some p k name : strip_prefix p k = Some name <-> k = p ++ name.
Proof.
  unfold strip_prefix. case_bool_decide as E; split.
  - intros [= <-]. by rewrite <- E at 1; rewrite take_drop.
  - intros ->. by rewrite drop_app_length.
  - done.
  - intros ->. by rewrite take_app_length in E.
Qed.

(** ** The laws *)

#[export] Instance simulated_POSIX writes : POSIX (Simulation writes).
Proof.
  split.
  - intros template w w' fd path [= <- <- <-]. destruct (_ <? 0) eqn:E; zbool; [pose proof (next_key_nonneg (descriptors (sim_disk w))); lia|].
    exists (next_key (files (sim_disk w))). split; [apply next_key_fresh|]. split; [|split; [apply next_key_fresh|done]].
    match goal with |- ?m !! ?p = None => destruct (m !! p) eqn:Ep; [|done] end. apply longest_above in Ep. cbn [locate simulated_OS] in Ep.
    rewrite length_app in Ep. cbn [length replicate disk simulated_OS] in Ep. rewrite length_replicate in Ep. lia.
  - intros path w w' fd Ho. cbn in Ho. unfold sim_open in Ho. destruct (entries (sim_disk w) !! path) as [ino|] eqn:Ep; injection Ho as <- <-; [|done].
    destruct (_ <? 0) eqn:E; zbool; [pose proof (next_key_nonneg (descriptors (sim_disk w))); lia|]. exists ino. split; [done|]. split; [apply next_key_fresh|done].
  - intros path w w' fd Ho. cbn in Ho. unfold sim_open in Ho. injection Ho as <- <-.
    destruct (_ <? 0) eqn:E; zbool; [pose proof (next_key_nonneg (descriptors (sim_disk w))); lia|]. eexists. split; [|split; [apply next_key_fresh|done]].
    cbn. destruct (entries (sim_disk w) !! path) eqn:Ep; [by left|right; split; [done|apply next_key_fresh]].
  - done.
  - intros fd data w w' r Hw. cbn in Hw. unfold sim_write in Hw. destruct (descriptors (sim_disk w) !! fd) as [[ino offset]|] eqn:Ed; [|by injection Hw as <- <-].
    destruct (files (sim_disk w) !! ino) as [old|] eqn:Ef; [|by injection Hw as <- <-]. destruct (_ && _); injection Hw as <- <-; [done|].
    exists ino, offset, old. split; [pose proof (vec_size_nonneg data); destruct writes; lia|]. split; [done|]. split; [done|]. done.
  - intros fd offset w w' r Hl. cbn in Hl. unfold sim_lseek in Hl. destruct (descriptors (sim_disk w) !! fd) as [[ino o]|] eqn:Ed; [|by injection Hl as <- <-].
    destruct (offset =? -1) eqn:E; injection Hl as <- <-; [done|]. rewrite E. by exists ino, o.
  - intros fd w w' r [= <- <-]. split; [done|]. intros size Hs. cbn in Hs. destruct (descriptors (sim_disk w) !! fd) as [[ino o]|] eqn:Ed; [|done]. cbn in Hs.
    destruct (files (sim_disk w) !! ino) as [bytes|] eqn:Ef; [|done]. injection Hs as <-. by exists ino, o, bytes.
  - intros fd size w w' r [= <- <-]. split; [done|]. intros m Hm. cbn in Hm. destruct (descriptors (sim_disk w) !! fd) as [[ino o]|] eqn:Ed; [|done]. injection Hm as <-. by exists o.
  - intros old new w w' r Hr. cbn in Hr. unfold sim_rename in Hr. destruct (entries (sim_disk w) !! old) as [ino|] eqn:Eo; injection Hr as <- <-; [|done].
    exists ino. split; [done|]. cbn. by case_bool_decide.
  - intros path w w' r Hr. cbn in Hr. unfold sim_unlink in Hr. destruct (entries (sim_disk w) !! path) as [ino|] eqn:Eo; injection Hr as <- <-; [|done]. split; [by eexists|done].
  - intros path w w' r [= <- <-]. split; [done|]. intros names [= <-] name Hslash _. rewrite list_elem_of_omap. cbn. split.
    + intros ([k i] & Hin & Hk). apply strip_prefix_Some in Hk as ->. apply elem_of_map_to_list in Hin. rewrite <- app_assoc in Hin. by eexists.
    + intros [i Hi]. exists (path ++ slash :: name, i). split; [by apply elem_of_map_to_list|]. apply strip_prefix_Some. by rewrite <- app_assoc.
  - intros prefix name Hp. cbn. unfold sim_fnmatch. rewrite length_app, last_snoc. cbn [length]. replace (length prefix + 1 - 1)%nat with (length prefix) by lia. rewrite take_app_length.
    rewrite bool_decide_true by done. cbn [andb]. split.
    + intros Hf. destruct (bool_decide (take (length prefix) name = prefix)) eqn:E; [apply bool_decide_eq_true in E; rewrite <- E; by apply prefix_take|].
      cbn [orb] in Hf. case_bool_decide as En; [subst name; by exists [42]|done].
    + intros [rest ->]. rewrite take_app_length. by rewrite bool_decide_true.
Qed.

(** ** What holds besides *)

Lemma simulated_full_writes : full_writes (W := Simulation Unlimited).
Proof.
  intros fd data w w' n Hw. cbn in Hw. unfold sim_write in Hw. destruct (descriptors (sim_disk w) !! fd) as [[ino offset]|]; [|discriminate].
  destruct (files (sim_disk w) !! ino) as [old|]; [|discriminate]. destruct (_ && _); [discriminate|]. by injection Hw.
Qed.

Lemma simulated_writes_end writes fuel : writes_end (W := Simulation writes) (S fuel).
Proof.
  intros fd data w. cbn [write_ends]. change (sys_write fd data w) with (sim_write fd data w). unfold sim_write. destruct (descriptors (sim_disk w) !! fd) as [[ino offset]|]; [|done].
  destruct (files (sim_disk w) !! ino) as [old|]; [|done]. by destruct (_ && _).
Qed.

Lemma simulated_reads writes : reads_succeed (W := Simulation writes).
Proof.
  split; [|split].
  - intros path w w' fd Ho [ino Hino]. cbn in Ho, Hino. unfold sim_open in Ho. rewrite Hino in Ho. injection Ho as <- <-. pose proof (next_key_nonneg (descriptors (sim_disk w))). lia.
  - intros fd ino offset w w' r [= <- <-] Hfd [bytes Hb]. cbn in *. rewrite Hfd. cbn. rewrite Hb. by eexists.
  - intros fd size w w' r [= <- <-] [[ino o] Hfd]. cbn in *. rewrite Hfd. by eexists.
Qed.

Lemma simulated_capped k : 0 < k -> capped_system (W := Simulation (Capped k)) k.
Proof.
  intros Hk. split.
  - intros template w w' fd path [= <- <- <-]. pose proof (next_key_nonneg (descriptors (sim_disk w))). lia.
  - intros fd data w w' r ino offset Hw Hfd [old Hold]. cbn in Hw, Hfd, Hold. unfold sim_write in Hw. rewrite Hfd, Hold in Hw. right. pose proof (vec_size_nonneg data).
    destruct (_ && _) eqn:E; injection Hw as _ <-; [apply andb_true_iff in E as [? ?]; zbool; lia|]. f_equal. lia.
  - intros fd offset w w' r Hl [[ino o] Hfd] Hoff. cbn in Hl, Hfd. unfold sim_lseek in Hl. rewrite Hfd in Hl. destruct (_ =? _) eqn:E; zbool; injection Hl as _ <-; lia.
  - intros fd size w w' r [= <- <-] [[ino o] Hfd]. cbn in *. rewrite Hfd. by eexists.
  - intros old new w w' r Hr [ino Hino]. cbn in Hr, Hino. unfold sim_rename in Hr. rewrite Hino in Hr. by injection Hr as _ <-.
Qed.

(** ** A log of the descriptors that are closed *)

Record Logged (W : Type) := mkLogged { system : W; closed : list Z }.

Arguments mkLogged {_} _ _.
Arguments system {_} _.
Arguments closed {_} _.

(** A call of the system below. *)
Definition logged {W A} (f : W -> W * A) (s : Logged W) : Logged W * A := let '(w, a) := f (system s) in (mkLogged w (closed s), a).

#[export] Instance logged_OS W `{OS W} : OS (Logged W) := {|
  disk s := disk (system s);
  locate := locate;
  getenv_TMPDIR s := getenv_TMPDIR (system s);
  sys_mkstemp template := logged (sys_mkstemp template);
  sys_open path flags := logged (sys_open path flags);
  sys_close fd s := mkLogged (sys_close fd (system s)) (closed s ++ [fd]);
  sys_write fd data := logged (sys_write fd data);
  sys_lseek fd offset := logged (sys_lseek fd offset);
  sys_fstat fd := logged (sys_fstat fd);
  sys_mmap fd size := logged (sys_mmap fd size);
  sys_rename old new := logged (sys_rename old new);
  sys_unlink path := logged (sys_unlink path);
  sys_readdir path := logged (sys_readdir path);
  sys_fnmatch := sys_fnmatch
|}.
