(* ===== verification/RuleListFile.v ===== *)
(** * The file of a compiled rule list

    Models the first half of
    [src/Source/WebKit/UIProcess/API/APIContentRuleListStore.cpp]: the header of a
    file with the encoder and decoder of [src/Source/WTF/wtf/persistence/], and the
    client that the compiler writes a rule list to.  Numbers are copied as they lie
    in memory: little-endian. *)

From stdpp Require Import base numbers option list list_numbers gmap.
From Stdlib Require Import ZArith Lia.
From S2P Require Import Prelude.
From S2P Require Import ContentExtensionRule.
From S2P Require Import ActionSerialization.
From S2P Require Import FileSystem.

(** ** Encoder and decoder

    The checksum, which nothing here reads, is left out. *)

Definition encodeNumber (size : nat) (value : Z) (m_buffer : list Z) : list Z := m_buffer ++ le_bytes size value.

Definition bufferIsLargeEnoughToContain (m_buffer : list Z) (size : nat) : bool := Z.of_nat size <=? vec_size m_buffer.

(** The value and the rest of the buffer. *)
Definition decodeNumber (size : nat) (m_buffer : list Z) : option (Z * list Z) :=
  if negb (bufferIsLargeEnoughToContain m_buffer size) then None
  else Some (le_value (take size m_buffer), drop size m_buffer).

(** ** The header *)

Definition CurrentContentRuleListFileVersion : Z := 10.

Definition ContentRuleListFileHeaderSize : Z := 2 * 4 + 5 * 8.
Definition ConditionsApplyOnlyToDomainOffset : Z := 4 + 5 * 8.

Record ContentRuleListMetaData := mkMetaData {
  version : Z;
  sourceSize : Z;
  actionsSize : Z;
  filtersWithoutConditionsBytecodeSize : Z;
  filtersWithConditionsBytecodeSize : Z;
  conditionedFiltersBytecodeSize : Z;
  meta_conditionsApplyOnlyToDomain : Z
}.

Definition newMetaData : ContentRuleListMetaData := mkMetaData CurrentContentRuleListFileVersion 0 0 0 0 0 0.

Definition fileSize (m : ContentRuleListMetaData) : Z :=
  u64 (ContentRuleListFileHeaderSize + sourceSize m + actionsSize m + filtersWithoutConditionsBytecodeSize m + filtersWithConditionsBytecodeSize m
    + conditionedFiltersBytecodeSize m).

Definition encodeContentRuleListMetaData (m : ContentRuleListMetaData) : list Z :=
  encodeNumber 4 (meta_conditionsApplyOnlyToDomain m)
    (encodeNumber 8 (conditionedFiltersBytecodeSize m)
      (encodeNumber 8 (filtersWithConditionsBytecodeSize m)
        (encodeNumber 8 (filtersWithoutConditionsBytecodeSize m)
          (encodeNumber 8 (actionsSize m)
            (encodeNumber 8 (sourceSize m)
              (encodeNumber 4 (version m) [])))))).

(** [None] is [false]; the applier is not called for empty data. *)
Definition decodeContentRuleListMetaData (fileData : list Z) : option ContentRuleListMetaData :=
  if vec_size fileData =? 0 then None
  else
    '(version, buffer) ← decodeNumber 4 fileData;
    '(sourceSize, buffer) ← decodeNumber 8 buffer;
    '(actionsSize, buffer) ← decodeNumber 8 buffer;
    '(filtersWithoutConditionsBytecodeSize, buffer) ← decodeNumber 8 buffer;
    '(filtersWithConditionsBytecodeSize, buffer) ← decodeNumber 8 buffer;
    '(conditionedFiltersBytecodeSize, buffer) ← decodeNumber 8 buffer;
    '(conditionsApplyOnlyToDomain, _) ← decodeNumber 4 buffer;
    Some (mkMetaData version sourceSize actionsSize filtersWithoutConditionsBytecodeSize filtersWithConditionsBytecodeSize
      conditionedFiltersBytecodeSize conditionsApplyOnlyToDomain).

(** ** The client of the compiler *)

Record CompilationClient := mkCompilationClient {
  m_fileHandle : Z;
  m_metaData : ContentRuleListMetaData;
  m_filtersWithoutConditionsBytecodeWritten : Z;
  m_filtersWithConditionBytecodeWritten : Z;
  m_conditionFiltersBytecodeWritten : Z;
  m_actionsWritten : Z;
  m_sourceWritten : Z;
  m_conditionsApplyOnlyToDomain : bool;
  m_fileError : bool
}.

Definition newCompilationClient (fileHandle : Z) (metaData : ContentRuleListMetaData) : CompilationClient :=
  mkCompilationClient fileHandle metaData 0 0 0 0 0 false false.

Definition setFile (c : CompilationClient) (handle : Z) (error : bool) : CompilationClient :=
  mkCompilationClient handle (m_metaData c) (m_filtersWithoutConditionsBytecodeWritten c) (m_filtersWithConditionBytecodeWritten c) (m_conditionFiltersBytecodeWritten c)
    (m_actionsWritten c) (m_sourceWritten c) (m_conditionsApplyOnlyToDomain c) error.

(** ** The counters *)

Definition addSourceWritten (c : CompilationClient) (n : Z) : CompilationClient :=
  mkCompilationClient (m_fileHandle c) (m_metaData c) (m_filtersWithoutConditionsBytecodeWritten c) (m_filtersWithConditionBytecodeWritten c)
    (m_conditionFiltersBytecodeWritten c) (m_actionsWritten c) (u64 (m_sourceWritten c + n)) (m_conditionsApplyOnlyToDomain c) (m_fileError c).

Definition addFiltersWithoutConditionsBytecodeWritten (c : CompilationClient) (n : Z) : CompilationClient :=
  mkCompilationClient (m_fileHandle c) (m_metaData c) (u64 (m_filtersWithoutConditionsBytecodeWritten c + n)) (m_filtersWithConditionBytecodeWritten c)
    (m_conditionFiltersBytecodeWritten c) (m_actionsWritten c) (m_sourceWritten c) (m_conditionsApplyOnlyToDomain c) (m_fileError c).

Definition addFiltersWithConditionBytecodeWritten (c : CompilationClient) (n : Z) : CompilationClient :=
  mkCompilationClient (m_fileHandle c) (m_metaData c) (m_filtersWithoutConditionsBytecodeWritten c) (u64 (m_filtersWithConditionBytecodeWritten c + n))
    (m_conditionFiltersBytecodeWritten c) (m_actionsWritten c) (m_sourceWritten c) (m_conditionsApplyOnlyToDomain c) (m_fileError c).

Definition addConditionFiltersBytecodeWritten (c : CompilationClient) (n : Z) : CompilationClient :=
  mkCompilationClient (m_fileHandle c) (m_metaData c) (m_filtersWithoutConditionsBytecodeWritten c) (m_filtersWithConditionBytecodeWritten c)
    (u64 (m_conditionFiltersBytecodeWritten c + n)) (m_actionsWritten c) (m_sourceWritten c) (m_conditionsApplyOnlyToDomain c) (m_fileError c).

Definition addActionsWritten (c : CompilationClient) (n : Z) (conditionsApplyOnlyToDomain : bool) : CompilationClient :=
  mkCompilationClient (m_fileHandle c) (m_metaData c) (m_filtersWithoutConditionsBytecodeWritten c) (m_filtersWithConditionBytecodeWritten c)
    (m_conditionFiltersBytecodeWritten c) (u64 (m_actionsWritten c + n)) (m_sourceWritten c) conditionsApplyOnlyToDomain (m_fileError c).

Section Client.
Context {W : Type} `{OS W}.
Context (fuel : nat).
Open Scope sys_scope.

(** [apply] calls the lambda once, unless the data are empty; the size becomes an [int]. *)
Definition writeDataToFile (fileData : list Z) (fd : Z) : SysM W bool :=
  if vec_size fileData =? 0 then sret true
  else let? r := writeToFile fuel fd fileData (s32 (vec_size fileData)) in sret (negb (r =? -1)).

Definition fail_client (c : CompilationClient) : SysM W CompilationClient :=
  let? handle := closeFile (m_fileHandle c) in sret (setFile c handle true).

Definition client_writeToFile (c : CompilationClient) (data : list Z) : SysM W CompilationClient :=
  if m_fileError c then sret c
  else let? ok := writeDataToFile data (m_fileHandle c) in if ok then sret c else fail_client c.

Definition writeSource (c : CompilationClient) (sourceJSON : WString) : SysM W CompilationClient :=
  let? c := client_writeToFile c [if is8Bit sourceJSON then 1 else 0] in
  let c := addSourceWritten c 1 in
  let bytes := characterBytes sourceJSON in
  let? c := client_writeToFile c bytes in
  sret (addSourceWritten c (vec_size bytes)).

Definition writeFiltersWithoutConditionsBytecode (c : CompilationClient) (bytecode : list Z) : SysM W CompilationClient :=
  let c := addFiltersWithoutConditionsBytecodeWritten c (vec_size bytecode) in
  client_writeToFile c bytecode.

Definition writeFiltersWithConditionsBytecode (c : CompilationClient) (bytecode : list Z) : SysM W CompilationClient :=
  let c := addFiltersWithConditionBytecodeWritten c (vec_size bytecode) in
  client_writeToFile c bytecode.

Definition writeTopURLFiltersBytecode (c : CompilationClient) (bytecode : list Z) : SysM W CompilationClient :=
  let c := addConditionFiltersBytecodeWritten c (vec_size bytecode) in
  client_writeToFile c bytecode.

Definition writeActions (c : CompilationClient) (actions : list Z) (conditionsApplyOnlyToDomain : bool) : SysM W CompilationClient :=
  let c := addActionsWritten c (vec_size actions) conditionsApplyOnlyToDomain in
  client_writeToFile c actions.

(** The sizes that [finalize] puts into the header. *)
Definition finalMetaData (c : CompilationClient) : ContentRuleListMetaData :=
  mkMetaData (version (m_metaData c)) (m_sourceWritten c) (m_actionsWritten c) (m_filtersWithoutConditionsBytecodeWritten c)
    (m_filtersWithConditionBytecodeWritten c) (m_conditionFiltersBytecodeWritten c) (if m_conditionsApplyOnlyToDomain c then 1 else 0).

Definition setMetaData (c : CompilationClient) (m : ContentRuleListMetaData) : CompilationClient :=
  mkCompilationClient (m_fileHandle c) m (m_filtersWithoutConditionsBytecodeWritten c) (m_filtersWithConditionBytecodeWritten c) (m_conditionFiltersBytecodeWritten c)
    (m_actionsWritten c) (m_sourceWritten c) (m_conditionsApplyOnlyToDomain c) (m_fileError c).

Definition seekToBeginning (c : CompilationClient) : SysM W CompilationClient :=
  if m_fileError c then sret c
  else let? r := seekFile (m_fileHandle c) 0 in if r =? -1 then fail_client c else sret c.

Definition finalize (c : CompilationClient) : SysM W CompilationClient :=
  let c := setMetaData c (finalMetaData c) in
  let header := encodeContentRuleListMetaData (m_metaData c) in
  let? c := seekToBeginning c in
  client_writeToFile c header.

(** ** Calls of the client *)

Inductive ClientCall :=
  | WriteSource (sourceJSON : WString)
  | WriteActions (actions : list Z) (conditionsApplyOnlyToDomain : bool)
  | WriteFiltersWithoutConditionsBytecode (bytecode : list Z)
  | WriteFiltersWithConditionsBytecode (bytecode : list Z)
  | WriteTopURLFiltersBytecode (bytecode : list Z)
  | Finalize.

Definition clientCall (c : CompilationClient) (call : ClientCall) : SysM W CompilationClient :=
  match call with
  | WriteSource sourceJSON => writeSource c sourceJSON
  | WriteActions actions domain => writeActions c actions domain
  | WriteFiltersWithoutConditionsBytecode bytecode => writeFiltersWithoutConditionsBytecode c bytecode
  | WriteFiltersWithConditionsBytecode bytecode => writeFiltersWithConditionsBytecode c bytecode
  | WriteTopURLFiltersBytecode bytecode => writeTopURLFiltersBytecode c bytecode
  | Finalize => finalize c
  end.

Fixpoint clientCalls (c : CompilationClient) (calls : list ClientCall) : SysM W CompilationClient :=
  match calls with
  | [] => sret c
  | call :: calls => let? c := clientCall c call in clientCalls c calls
  end.

End Client.
