(* ===== verification/RuleListFileProof.v ===== *)
(** * What a file of a compiled rule list holds

    The header is read as it was written, and the client of the compiler leaves in
    the file the header, the source, the actions and the three bytecodes, one after
    the other, as far as the system takes them: [file_written]. *)

From stdpp Require Import base numbers option list list_numbers gmap.
From Stdlib Require Import ZArith Lia.
From S2P Require Import Prelude.
From S2P Require Import ContentExtensionRule.
From S2P Require Import ActionSerialization.
From S2P Require Import UTF8Conversion.
From S2P Require Import FileSystem.
From S2P Require Import FileSystemProof.
From S2P Require Import RuleListFile.

(** ** Reading *)

Lemma read_bytes_middle (a b c : list Z) : read_bytes (a ++ b ++ c) (vec_size a) (vec_size b) = Some b.
Proof.
  unfold read_bytes. rewrite !vec_size_app. pose proof (vec_size_nonneg a). pose proof (vec_size_nonneg b). pose proof (vec_size_nonneg c).
  destruct (_ && _ && _) eqn:E; [|repeat (apply andb_false_iff in E as [E|E]); zbool; lia].
  unfold vec_size. by rewrite !Nat2Z.id, drop_app_length, take_app_length.
Qed.

(** The part [b] after the part [a]. *)
Lemma read_part (a b c bytes : list Z) offset : bytes = a ++ b ++ c -> offset = vec_size a -> read_bytes bytes offset (vec_size b) = Some b.
Proof. intros -> ->. apply read_bytes_middle. Qed.

Lemma decodeNumber_le n z rest : decodeNumber n (le_bytes n z ++ rest) = Some (uwrap (8 * Z.of_nat n) z, rest).
Proof.
  unfold decodeNumber, bufferIsLargeEnoughToContain. rewrite vec_size_app, vec_size_le_bytes. pose proof (vec_size_nonneg rest).
  destruct (_ <=? _) eqn:E; zbool; [|lia]. cbn [negb]. rewrite <- (length_le_bytes n z) at 1 3. rewrite take_app_length, drop_app_length. by rewrite le_value_le_bytes.
Qed.

(** ** The header *)

(** Every field fits its width. *)
Definition metaData_ok (m : ContentRuleListMetaData) : Prop :=
  0 <= version m < 2 ^ 32 /\ 0 <= sourceSize m < 2 ^ 64 /\ 0 <= actionsSize m < 2 ^ 64 /\ 0 <= filtersWithoutConditionsBytecodeSize m < 2 ^ 64 /\
  0 <= filtersWithConditionsBytecodeSize m < 2 ^ 64 /\ 0 <= conditionedFiltersBytecodeSize m < 2 ^ 64 /\ 0 <= meta_conditionsApplyOnlyToDomain m < 2 ^ 32.

Lemma header_eq m : encodeContentRuleListMetaData m = le_bytes 4 (version m) ++ le_bytes 8 (sourceSize m) ++ le_bytes 8 (actionsSize m) ++
  le_bytes 8 (filtersWithoutConditionsBytecodeSize m) ++ le_bytes 8 (filtersWithConditionsBytecodeSize m) ++ le_bytes 8 (conditionedFiltersBytecodeSize m)
  ++ le_bytes 4 (meta_conditionsApplyOnlyToDomain m).
Proof. unfold encodeContentRuleListMetaData, encodeNumber. cbn [app]. by rewrite <- !app_assoc. Qed.

Lemma header_size m : vec_size (encodeContentRuleListMetaData m) = ContentRuleListFileHeaderSize.
Proof. rewrite header_eq, !vec_size_app, !vec_size_le_bytes. done. Qed.

Lemma decode_header m rest : metaData_ok m -> decodeContentRuleListMetaData (encodeContentRuleListMetaData m ++ rest) = Some m.
Proof.
  intros (Hv & H1 & H2 & H3 & H4 & H5 & H6). unfold decodeContentRuleListMetaData.
  destruct (_ =? 0) eqn:E; zbool; [pose proof (vec_size_nonneg rest); rewrite vec_size_app, header_size in E; unfold ContentRuleListFileHeaderSize in E; lia|].
  rewrite header_eq, <- !app_assoc. do 7 (rewrite decodeNumber_le; cbn [mbind option_bind]). change (8 * Z.of_nat 4) with 32. change (8 * Z.of_nat 8) with 64.
  rewrite !uwrap_small by done. by destruct m.
Qed.

Lemma decodeNumber_some n bytes : Z.of_nat n <= vec_size bytes -> decodeNumber n bytes = Some (le_value (take n bytes), drop n bytes).
Proof. intros Hlen. unfold decodeNumber, bufferIsLargeEnoughToContain. destruct (_ <=? _) eqn:E; zbool; [done|lia]. Qed.

(** ** The contents of the file *)

Definition sourceBytes (json : WString) : list Z := (if is8Bit json then 1 else 0) :: characterBytes json.

(** The header of a file with these parts. *)
Definition fileMetaData (source actions without with_ top : list Z) (domains : bool) : ContentRuleListMetaData :=
  mkMetaData CurrentContentRuleListFileVersion (vec_size source) (vec_size actions) (vec_size without) (vec_size with_) (vec_size top) (if domains then 1 else 0).

Definition fileBytes (source actions without with_ top : list Z) (domains : bool) : list Z :=
  encodeContentRuleListMetaData (fileMetaData source actions without with_ top domains) ++ source ++ actions ++ without ++ with_ ++ top.

Lemma fileBytes_size source actions without with_ top domains : vec_size (fileBytes source actions without with_ top domains) =
  ContentRuleListFileHeaderSize + vec_size source + vec_size actions + vec_size without + vec_size with_ + vec_size top.
Proof. unfold fileBytes. rewrite !vec_size_app, header_size. lia. Qed.

Lemma fileMetaData_ok source actions without with_ top domains : vec_size (fileBytes source actions without with_ top domains) < 2 ^ 31 ->
  metaData_ok (fileMetaData source actions without with_ top domains).
Proof.
  rewrite fileBytes_size. unfold metaData_ok, ContentRuleListFileHeaderSize. cbn [fileMetaData version sourceSize actionsSize filtersWithoutConditionsBytecodeSize
    filtersWithConditionsBytecodeSize conditionedFiltersBytecodeSize meta_conditionsApplyOnlyToDomain].
  pose proof (vec_size_nonneg source). pose proof (vec_size_nonneg actions). pose proof (vec_size_nonneg without). pose proof (vec_size_nonneg with_). pose proof (vec_size_nonneg top).
  unfold CurrentContentRuleListFileVersion. intros Hsz. assert (2 ^ 31 < 2 ^ 64) by done. destruct domains; lia.
Qed.

(** ** What a call adds to the file and to the counters *)

Definition callBytes (call : ClientCall) : list Z :=
  match call with
  | WriteSource sourceJSON => sourceBytes sourceJSON
  | WriteActions actions _ => actions
  | WriteFiltersWithoutConditionsBytecode bytecode | WriteFiltersWithConditionsBytecode bytecode | WriteTopURLFiltersBytecode bytecode => bytecode
  | Finalize => []
  end.

(** The same, as the client hands it to [writeToFile]. *)
Definition callBuffers (call : ClientCall) : list (list Z) :=
  match call with
  | WriteSource sourceJSON => [[if is8Bit sourceJSON then 1 else 0]; characterBytes sourceJSON]
  | Finalize => []
  | _ => [callBytes call]
  end.

Lemma callBuffers_bytes call : concat (callBuffers call) = callBytes call.
Proof. destruct call; cbn [callBuffers concat callBytes app]; by rewrite ?app_nil_r. Qed.

(** The counters after a call. *)
Definition countCall (c : CompilationClient) (call : ClientCall) : CompilationClient :=
  match call with
  | WriteSource sourceJSON => addSourceWritten (addSourceWritten c 1) (vec_size (characterBytes sourceJSON))
  | WriteActions actions domains => addActionsWritten c (vec_size actions) domains
  | WriteFiltersWithoutConditionsBytecode bytecode => addFiltersWithoutConditionsBytecodeWritten c (vec_size bytecode)
  | WriteFiltersWithConditionsBytecode bytecode => addFiltersWithConditionBytecodeWritten c (vec_size bytecode)
  | WriteTopURLFiltersBytecode bytecode => addConditionFiltersBytecodeWritten c (vec_size bytecode)
  | Finalize => c
  end.

(** The part of a client that errors do not change. *)
Definition same_counters (c c' : CompilationClient) : Prop := exists handle, c' = setFile c handle (m_fileError c').

Lemma same_counters_refl c : same_counters c c.
Proof. exists (m_fileHandle c). by destruct c. Qed.

Lemma same_counters_trans c1 c2 c3 : same_counters c1 c2 -> same_counters c2 c3 -> same_counters c1 c3.
Proof. intros [h ->] [h' ->]. by exists h'. Qed.

Lemma same_counters_count c c' call : same_counters c c' -> same_counters (countCall c call) (countCall c' call).
Proof. intros [h ->]. exists h. by destruct call. Qed.

Lemma same_counters_final c c' : same_counters c c' -> finalMetaData c' = finalMetaData c.
Proof. by intros [h ->]. Qed.

Lemma same_counters_meta c c' : same_counters c c' -> m_metaData c' = m_metaData c.
Proof. by intros [h ->]. Qed.

(** ** The client *)

Section Client.
Context {W : Type} `{POSIX W}.
Context (fuel : nat) (Hfuel : writes_end (W := W) fuel).
Context (d0 : Disk) (tmp : list Z) (ino fd : Z).
Open Scope sys_scope.
Implicit Types w : W.

(** The state of the system while the client writes: the temporary file is new, and
    the rest of the disk is as it was; without an error the file is open. *)
Record client_at (d : Disk) (c : CompilationClient) (content : list Z) (offset : Z) : Prop := {
  ca_files : files d = <[ino := content]> (files d0);
  ca_entries : entries d = <[tmp := ino]> (entries d0);
  ca_open : m_fileError c = false -> m_fileHandle c = fd /\ descriptors d !! fd = Some (ino, offset)
}.

Lemma client_at_counters d c c' content offset : m_fileError c' = m_fileError c -> m_fileHandle c' = m_fileHandle c -> client_at d c content offset -> client_at d c' content offset.
Proof. intros He Hh [Hf Hn Ho]. split; [done..|]. by rewrite He, Hh. Qed.

Lemma fail_client_runs c content offset w : client_at (disk w) c content offset ->
  runs (fail_client c) w (λ c' w', client_at (disk w') c' content offset /\ m_fileError c' = true /\ same_counters c c').
Proof.
  intros [Hf Hn Ho]. unfold fail_client. run_step. apply closeFile_runs. intros w' Hd. run_step. split; [|split; [done|by eexists]].
  split; [..|done]; destruct Hd as [-> | ->]; done.
Qed.

(** Writing goes to the end of what was written; an error is remembered. *)
Lemma client_writeToFile_runs c data content offset w : client_at (disk w) c content offset -> vec_size data < 2 ^ 31 ->
  runs (client_writeToFile fuel c data) w (λ c' w', exists content' offset', client_at (disk w') c' content' offset' /\ same_counters c c' /\
    (m_fileError c' = false -> m_fileError c = false /\ (0 <= offset <= vec_size content ->
       exists written, took (W := W) written data /\ content' = overwrite content offset written /\ offset' = offset + vec_size written)) /\
    (forall k, capped_system (W := W) k -> m_fileError c = false -> m_fileError c' = false)).
Proof.
  intros Hc Hlen. unfold client_writeToFile. destruct (m_fileError c) eqn:Ee.
  { run_step. exists content, offset. split; [done|]. split; [apply same_counters_refl|]. split; [congruence|done]. }
  destruct Hc as [Hf Hn Ho]. destruct (Ho Ee) as [Hh Hfd]. run_step. unfold writeDataToFile. destruct (vec_size data =? 0) eqn:E0; zbool.
  { run_step. run_step. exists content, offset. split; [by split|]. split; [apply same_counters_refl|]. split; [|done]. intros _. split; [done|]. intros Hoff.
    assert (data = []) as -> by (apply length_zero_iff_nil; unfold vec_size in *; lia). exists []. rewrite Z.add_0_r. split; [apply took_nil|]. split; [|done].
    unfold overwrite, vec_size in *. cbn [app length]. rewrite Nat.add_0_r. replace (Z.to_nat offset - length content)%nat with 0%nat by lia. cbn. by rewrite take_drop. }
  run_step. rewrite s32_small by (pose proof (vec_size_nonneg data); lia). eapply runs_mono; [by apply writeToFile_runs|]. cbn beta. intros r w' [(-> & Hd & Hno)|Hr].
  - run_step. cbn [negb Z.eqb Pos.eqb]. eapply runs_mono; [apply (fail_client_runs c content offset); rewrite Hd; by split|]. cbn beta. intros c' w2 (Hc' & Ht & Hs).
    exists content, offset. split; [done|]. split; [done|]. split; [congruence|]. intros k Hk _. destruct (Hno k ino offset Hk); [by rewrite Hh|]. by rewrite Hf, lookup_insert_eq.
  - destruct Hr as (ino' & o & old & written & Hr & Htook & Hfd' & Hold & Hd). run_step. apply Z.eqb_neq in Hr. rewrite Hr. cbn [negb]. run_step.
    rewrite Hh, Hfd in Hfd'. injection Hfd' as <- <-. rewrite Hf, lookup_insert_eq in Hold. injection Hold as <-.
    exists (overwrite content offset written), (offset + vec_size written). split; [|split; [apply same_counters_refl|split; [|done]]].
    + rewrite Hd. split; cbn [files entries descriptors]; [by rewrite Hf, insert_insert_eq|done|]. intros _. split; [done|]. rewrite Hh. by rewrite lookup_insert_eq.
    + intros _. split; [done|]. intros _. by exists written.
Qed.

(** What a part of the compilation adds to the end of the file. *)
Definition appends (c : CompilationClient) (content : list Z) (offset : Z) (buffers : list (list Z)) (c' : CompilationClient) (w' : W) : Prop :=
  exists content' offset', client_at (disk w') c' content' offset' /\
    (m_fileError c' = false -> m_fileError c = false /\ (offset = vec_size content ->
       exists pieces, Forall2 (took (W := W)) pieces buffers /\ content' = content ++ concat pieces /\ offset' = vec_size content')) /\
    (forall k, capped_system (W := W) k -> m_fileError c = false -> m_fileError c' = false).

Lemma append_runs c data content offset w : client_at (disk w) c content offset -> vec_size data < 2 ^ 31 ->
  runs (client_writeToFile fuel c data) w (λ c' w', appends c content offset [data] c' w' /\ same_counters c c').
Proof.
  intros Hc Hlen. eapply runs_mono; [by apply (client_writeToFile_runs c data content offset)|]. cbn beta. intros c' w' (content' & offset' & Hc' & Hs & Hok & Hcap).
  split; [|done]. exists content', offset'. split; [done|]. split; [|done]. intros He. destruct (Hok He) as [He0 Hpiece]. split; [done|]. intros ->.
  destruct Hpiece as (written & Ht & -> & ->); [pose proof (vec_size_nonneg content); lia|]. exists [written]. split; [constructor; [exact Ht|constructor]|]. cbn [concat].
  by rewrite overwrite_end, app_nil_r, vec_size_app.
Qed.

(** One write and then another. *)
Lemma appends_trans c content offset buffers c1 w1 buffers' (P : CompilationClient -> W -> Prop) m :
  appends c content offset buffers c1 w1 ->
  (forall content' offset', client_at (disk w1) c1 content' offset' -> runs m w1 (λ c' w', appends c1 content' offset' buffers' c' w' /\ P c' w')) ->
  runs m w1 (λ c' w', appends c content offset (buffers ++ buffers') c' w' /\ P c' w').
Proof.
  intros (content' & offset' & Hc1 & Hok & Hcap) Hm. eapply runs_mono; [by apply (Hm content' offset')|]. cbn beta. intros c' w' [(content2 & offset2 & Hc2 & Hok2 & Hcap2) HP].
  split; [|done]. exists content2, offset2. split; [done|]. split; [|by eauto]. intros He. destruct (Hok2 He) as [He1 Hf2]. destruct (Hok He1) as [He0 Hf1]. split; [done|].
  intros Hoff. destruct (Hf1 Hoff) as (ps & Hps & -> & Ho1). destruct (Hf2 Ho1) as (ps' & Hps' & -> & ->). exists (ps ++ ps'). split; [by apply Forall2_app|]. by rewrite concat_app, app_assoc.
Qed.

Lemma appends_counters c c' content offset buffers c1 w1 : m_fileError c' = m_fileError c -> appends c content offset buffers c1 w1 -> appends c' content offset buffers c1 w1.
Proof. intros He (content' & offset' & Hc & Hok). exists content', offset'. by rewrite He. Qed.

(** A write after the counters of [c] have become those of [c1]. *)
Lemma counted_append_runs c c1 data content offset w : m_fileError c1 = m_fileError c -> m_fileHandle c1 = m_fileHandle c ->
  client_at (disk w) c content offset -> vec_size data < 2 ^ 31 ->
  runs (client_writeToFile fuel c1 data) w (λ c' w', appends c content offset [data] c' w' /\ same_counters c1 c').
Proof.
  intros He Hh Hc Hlen. eapply runs_mono; [apply (append_runs c1 data content offset); [by apply (client_at_counters _ c)|done]|].
  cbn beta. intros c' w' [Ha Hs]. split; [by apply (appends_counters c1)|done].
Qed.

Lemma writeSource_runs c json content offset w : client_at (disk w) c content offset -> vec_size (sourceBytes json) < 2 ^ 31 ->
  runs (writeSource fuel c json) w (λ c' w', appends c content offset (callBuffers (WriteSource json)) c' w' /\ same_counters (countCall c (WriteSource json)) c').
Proof.
  intros Hc Hlen. unfold writeSource. run_step. change (sourceBytes json) with ([if is8Bit json then 1 else 0] ++ characterBytes json) in *.
  rewrite vec_size_app in Hlen. pose proof (vec_size_nonneg (characterBytes json)). change (vec_size [_]) with 1 in Hlen.
  eapply runs_mono; [apply (append_runs c _ content offset); [done|change (vec_size [_]) with 1; lia]|]. cbn beta. intros c1 w1 [Happ Hs1].
  apply runs_bind. eapply runs_mono; [apply (appends_trans _ _ _ _ _ _ [characterBytes json] (λ c' _, same_counters (addSourceWritten c1 1) c') _ Happ)|].
  - intros content' offset' Hc1. by apply counted_append_runs; [..|lia].
  - cbn beta. intros c2 w2 [Ha Hs]. run_step. split.
    + destruct Ha as (content' & offset' & Hc2 & Hok). exists content', offset'. split; [by apply (client_at_counters _ c2)|done].
    + apply (same_counters_count _ _ (WriteSource json)) in Hs1. eapply same_counters_trans; [exact Hs1|]. destruct Hs as [h ->]. by exists h.
Qed.

Lemma clientCall_runs c call content offset w : call <> Finalize -> client_at (disk w) c content offset -> vec_size (callBytes call) < 2 ^ 31 ->
  runs (clientCall fuel c call) w (λ c' w', appends c content offset (callBuffers call) c' w' /\ same_counters (countCall c call) c').
Proof. intros Hcall Hc Hlen. destruct call; [by apply writeSource_runs|by apply counted_append_runs..|done]. Qed.

Definition bodyBytes (calls : list ClientCall) : list Z := concat (callBytes <$> calls).

Definition bodyBuffers (calls : list ClientCall) : list (list Z) := concat (callBuffers <$> calls).

Lemma bodyBuffers_bytes calls : concat (bodyBuffers calls) = bodyBytes calls.
Proof.
  unfold bodyBuffers, bodyBytes. induction calls as [|call calls IH]; [done|]. cbn [fmap list_fmap concat]. by rewrite concat_app, callBuffers_bytes, <- IH.
Qed.

(** All calls before the last one. *)
Lemma clientCalls_runs calls : Forall (λ call, call <> Finalize) calls -> forall c content offset w, client_at (disk w) c content offset -> vec_size (bodyBytes calls) < 2 ^ 31 ->
  runs (clientCalls fuel c calls) w (λ c' w', appends c content offset (bodyBuffers calls) c' w' /\ same_counters (foldl countCall c calls) c').
Proof.
  induction 1 as [|call calls Hcall _ IH]; intros c content offset w Hc Hlen; cbn [clientCalls].
  { run_step. split; [|apply same_counters_refl]. exists content, offset. split; [done|]. split; [|done]. intros He. split; [done|]. intros ->. exists []. cbn. by rewrite app_nil_r. }
  unfold bodyBytes, bodyBuffers in *. cbn [fmap list_fmap concat foldl] in *. rewrite vec_size_app in Hlen.
  pose proof (vec_size_nonneg (callBytes call)). pose proof (vec_size_nonneg (concat (callBytes <$> calls))).
  run_step. eapply runs_mono; [apply (clientCall_runs c call content offset); [done..|lia]|]. cbn beta. intros c1 w1 [Happ Hs].
  eapply runs_mono; [apply (appends_trans _ _ _ _ _ _ (concat (callBuffers <$> calls)) (λ c' _, same_counters (foldl countCall c1 calls) c') _ Happ)|].
  - intros content' offset' Hc1. apply IH; [done|lia].
  - cbn beta. intros c' w' [Ha Hs']. split; [done|]. eapply same_counters_trans; [|exact Hs']. clear -Hs. revert Hs. generalize (countCall c call). revert c1.
    induction calls as [|x calls IH]; intros c1 c0 Hs; [done|]. cbn [foldl]. by apply IH, same_counters_count.
Qed.

Lemma seekToBeginning_runs c content offset w : client_at (disk w) c content offset ->
  runs (seekToBeginning c) w (λ c' w', exists o, client_at (disk w') c' content o /\ same_counters c c' /\ (m_fileError c' = false -> m_fileError c = false /\ o = 0) /\
    (forall k, capped_system (W := W) k -> m_fileError c = false -> m_fileError c' = false)).
Proof.
  intros Hc. unfold seekToBeginning. destruct (m_fileError c) eqn:Ee; [run_step; exists offset; split; [done|]; split; [apply same_counters_refl|]; split; congruence|].
  destruct (ca_open _ _ _ _ Hc Ee) as [Hh Hfd]. run_step. unfold seekFile. apply runs_call. intros w1 r Hl. pose proof (lseek_law _ _ _ _ _ Hl) as Hlaw.
  destruct (r =? -1) eqn:Er; zbool.
  - eapply runs_mono; [apply (fail_client_runs c content offset); by rewrite Hlaw|]. cbn beta. intros c2 w2 (H1 & H2 & H3). exists offset. split; [done|]. split; [done|].
    split; [congruence|]. intros k Hk _. destruct (cs_lseek k Hk _ _ _ _ _ Hl); [by rewrite Hh, Hfd|done..].
  - run_step. destruct Hlaw as (i & o & Hfd' & _ & Hd). rewrite Hh, Hfd in Hfd'. injection Hfd' as <- <-. exists 0. split; [|split; [apply same_counters_refl|done]].
    rewrite Hd. split; cbn [with_descriptors files entries descriptors]; [apply Hc|apply Hc|]. intros _. split; [done|]. by rewrite Hh, lookup_insert_eq.
Qed.

(** The end: the header is written over the beginning. *)
Lemma finalize_runs c content offset w : client_at (disk w) c content offset ->
  runs (finalize fuel c) w (λ c' w', exists content' offset', client_at (disk w') c' content' offset' /\
    (m_fileError c' = false -> m_fileError c = false /\ m_metaData c' = finalMetaData c /\
       exists written, took (W := W) written (encodeContentRuleListMetaData (finalMetaData c)) /\ content' = overwrite content 0 written) /\
    (forall k, capped_system (W := W) k -> m_fileError c = false -> m_fileError c' = false)).
Proof.
  intros Hc. unfold finalize. cbn zeta. set (m := finalMetaData c). set (c1 := setMetaData c m). change (m_metaData c1) with m.
  assert (client_at (disk w) c1 content offset) as Hc1 by (by apply (client_at_counters _ c)).
  run_step. eapply runs_mono; [exact (seekToBeginning_runs c1 content offset w Hc1)|]. cbn beta. intros c2 w2 (o & Hc2 & Hs2 & Ho & Hcap2). pose proof (header_size m) as Hsz.
  eapply runs_mono; [apply (client_writeToFile_runs c2 (encodeContentRuleListMetaData m) content o); [done|rewrite Hsz; done]|]. cbn beta.
  intros c3 w3 (content' & offset' & Hc3 & Hs3 & Hok & Hcap3). exists content', offset'. split; [done|]. split; [|by eauto]. intros He. destruct (Hok He) as [He2 Hpiece]. destruct (Ho He2) as [He0 ->].
  split; [done|]. split; [by rewrite (same_counters_meta _ _ Hs3), (same_counters_meta _ _ Hs2)|].
  destruct Hpiece as (written & Ht & -> & _); [pose proof (vec_size_nonneg content); lia|]. by exists written.
Qed.
End Client.

(** ** The calls of a compilation *)

(** What the compiler writes before it finalizes. *)
Definition compilationCalls (json : WString) (actions : list Z) (domains : bool) (without with_ top : list (list Z)) : list ClientCall :=
  [WriteSource json; WriteActions actions domains] ++ (WriteFiltersWithoutConditionsBytecode <$> without) ++ (WriteFiltersWithConditionsBytecode <$> with_)
    ++ (WriteTopURLFiltersBytecode <$> top).

Lemma compilationCalls_body json actions domains without with_ top : Forall (λ call, call <> Finalize) (compilationCalls json actions domains without with_ top).
Proof.
  unfold compilationCalls. repeat (apply Forall_app_2); [by repeat constructor|..]; apply Forall_fmap, Forall_true; done.
Qed.

Lemma bodyBytes_chunks (f : list Z -> ClientCall) chunks : (forall b, callBytes (f b) = b) -> concat (callBytes <$> (f <$> chunks)) = concat chunks.
Proof. intros Hf. induction chunks as [|b chunks IH]; [done|]. cbn [fmap list_fmap concat]. by rewrite Hf, <- IH. Qed.

Lemma compilationCalls_bytes json actions domains without with_ top :
  bodyBytes (compilationCalls json actions domains without with_ top) = sourceBytes json ++ actions ++ concat without ++ concat with_ ++ concat top.
Proof.
  unfold bodyBytes, compilationCalls. rewrite !fmap_app, !concat_app, !bodyBytes_chunks by done. cbn [fmap list_fmap concat callBytes]. rewrite app_nil_r. by rewrite <- app_assoc.
Qed.

Lemma u64_add_add a b c : u64 (u64 (a + b) + c) = u64 (a + (b + c)).
Proof. unfold uwrap. rewrite Z.add_mod_idemp_l by lia. f_equal. lia. Qed.

Lemma u64_zero a : 0 <= a < 2 ^ 64 -> u64 (a + 0) = a.
Proof. intros. rewrite Z.add_0_r. by apply uwrap_small. Qed.

Lemma count_without chunks c : 0 <= m_filtersWithoutConditionsBytecodeWritten c < 2 ^ 64 ->
  foldl countCall c (WriteFiltersWithoutConditionsBytecode <$> chunks) = addFiltersWithoutConditionsBytecodeWritten c (vec_size (concat chunks)).
Proof.
  revert c. induction chunks as [|b chunks IH]; intros c Hc; cbn [fmap list_fmap foldl concat].
  - unfold addFiltersWithoutConditionsBytecodeWritten. change (vec_size []) with 0. rewrite u64_zero by done. by destruct c.
  - rewrite IH by (apply uwrap_bound; lia). rewrite vec_size_app. unfold addFiltersWithoutConditionsBytecodeWritten. cbn. by rewrite u64_add_add.
Qed.

Lemma count_with chunks c : 0 <= m_filtersWithConditionBytecodeWritten c < 2 ^ 64 ->
  foldl countCall c (WriteFiltersWithConditionsBytecode <$> chunks) = addFiltersWithConditionBytecodeWritten c (vec_size (concat chunks)).
Proof.
  revert c. induction chunks as [|b chunks IH]; intros c Hc; cbn [fmap list_fmap foldl concat].
  - unfold addFiltersWithConditionBytecodeWritten. change (vec_size []) with 0. rewrite u64_zero by done. by destruct c.
  - rewrite IH by (apply uwrap_bound; lia). rewrite vec_size_app. unfold addFiltersWithConditionBytecodeWritten. cbn. by rewrite u64_add_add.
Qed.

Lemma count_top chunks c : 0 <= m_conditionFiltersBytecodeWritten c < 2 ^ 64 ->
  foldl countCall c (WriteTopURLFiltersBytecode <$> chunks) = addConditionFiltersBytecodeWritten c (vec_size (concat chunks)).
Proof.
  revert c. induction chunks as [|b chunks IH]; intros c Hc; cbn [fmap list_fmap foldl concat].
  - unfold addConditionFiltersBytecodeWritten. change (vec_size []) with 0. rewrite u64_zero by done. by destruct c.
  - rewrite IH by (apply uwrap_bound; lia). rewrite vec_size_app. unfold addConditionFiltersBytecodeWritten. cbn. by rewrite u64_add_add.
Qed.

(** The header that [finalize] writes has the sizes of the parts. *)
Lemma compilationCalls_meta fd json actions domains without with_ top :
  vec_size (fileBytes (sourceBytes json) actions (concat without) (concat with_) (concat top) domains) < 2 ^ 31 ->
  finalMetaData (foldl countCall (newCompilationClient fd newMetaData) (compilationCalls json actions domains without with_ top)) =
    fileMetaData (sourceBytes json) actions (concat without) (concat with_) (concat top) domains.
Proof.
  rewrite fileBytes_size. intros Hsz. unfold ContentRuleListFileHeaderSize in Hsz. pose proof (vec_size_nonneg (sourceBytes json)). pose proof (vec_size_nonneg actions).
  pose proof (vec_size_nonneg (concat without)). pose proof (vec_size_nonneg (concat with_)). pose proof (vec_size_nonneg (concat top)).
  assert (vec_size (sourceBytes json) = 1 + vec_size (characterBytes json)) as Hs by (change (sourceBytes json) with ([if is8Bit json then 1 else 0] ++ characterBytes json); by rewrite vec_size_app).
  assert (2 ^ 31 < 2 ^ 64) as Hpow by done.
  unfold compilationCalls. rewrite !foldl_app. rewrite count_without, count_with, count_top by (cbn; lia). cbn [foldl countCall newCompilationClient].
  unfold finalMetaData, fileMetaData. cbn. rewrite u64_add_add, !uwrap_small by lia. f_equal. lia.
Qed.

Section Compilation.
Context {W : Type} `{POSIX W}.
Context (fuel : nat) (Hfuel : writes_end (W := W) fuel).
Open Scope sys_scope.

Lemma clientCalls_app c calls calls' (w : W) Q : runs (clientCalls fuel c calls) w (λ c' w', runs (clientCalls fuel c' calls') w' Q) -> runs (clientCalls fuel c (calls ++ calls')) w Q.
Proof.
  revert c w. induction calls as [|call calls IH]; intros c w Hr; cbn [app clientCalls] in *; [destruct Hr as (w' & c' & [= <- <-] & Hq); done|].
  run_step. destruct Hr as (w2 & c2 & Hm & Hq). unfold sbind in Hm. destruct (clientCall fuel c call w) as [[w1 c1]|] eqn:E; [|done].
  exists w1, c1. split; [done|]. apply IH. by exists w2, c2.
Qed.

(** The client has written [header] and [buffers], each as far as it was taken: the
    header goes over the invalid one that was written first. *)
Definition file_written (header : list Z) (buffers : list (list Z)) (content : list Z) : Prop :=
  exists first pieces written, took (W := W) first (replicate (Z.to_nat ContentRuleListFileHeaderSize) 0xFF) /\ Forall2 (took (W := W)) pieces buffers /\
    took (W := W) written header /\ content = overwrite (first ++ concat pieces) 0 written.

(** A compilation that succeeds: what is in the file. *)
Lemma compilation_runs d0 tmp ino fd w first json actions domains without with_ top :
  client_at d0 tmp ino fd (disk w) (newCompilationClient fd newMetaData) first (vec_size first) -> took (W := W) first (replicate (Z.to_nat ContentRuleListFileHeaderSize) 0xFF) ->
  vec_size (fileBytes (sourceBytes json) actions (concat without) (concat with_) (concat top) domains) < 2 ^ 31 ->
  runs (clientCalls fuel (newCompilationClient fd newMetaData) (compilationCalls json actions domains without with_ top ++ [Finalize])) w
    (λ c' w', exists content offset, client_at d0 tmp ino fd (disk w') c' content offset /\ (m_fileError c' = false ->
       file_written (encodeContentRuleListMetaData (m_metaData c')) (bodyBuffers (compilationCalls json actions domains without with_ top)) content
       /\ m_metaData c' = fileMetaData (sourceBytes json) actions (concat without) (concat with_) (concat top) domains) /\
       (forall k, capped_system (W := W) k -> m_fileError c' = false)).
Proof.
  intros Hc Hfirst Hsz. pose proof (compilationCalls_meta fd json actions domains without with_ top Hsz) as Hmeta. rewrite fileBytes_size in Hsz.
  set (body := compilationCalls json actions domains without with_ top) in *. set (parts := sourceBytes json ++ actions ++ concat without ++ concat with_ ++ concat top).
  assert (bodyBytes body = parts) as Hbytes by apply compilationCalls_bytes. apply clientCalls_app. eapply runs_mono.
  - apply (clientCalls_runs fuel Hfuel d0 tmp ino fd body) with (1 := compilationCalls_body _ _ _ _ _ _) (2 := Hc). rewrite Hbytes. unfold parts. rewrite !vec_size_app.
    unfold ContentRuleListFileHeaderSize in Hsz. lia.
  - cbn beta. intros c1 w1 [(content & offset & Hc1 & Hok & Hcap1) Hs]. cbn [clientCalls clientCall]. run_step.
    eapply runs_mono; [apply (finalize_runs fuel Hfuel d0 tmp ino fd c1 content offset w1 Hc1)|]. cbn beta. intros c2 w2 (content2 & offset2 & Hc2 & Hok2 & Hcap2). run_step.
    exists content2, offset2. split; [done|]. split; [|by eauto]. intros He. destruct (Hok2 He) as (He1 & Hm & written & Hw & ->). destruct (Hok He1) as [_ Hbody].
    destruct (Hbody eq_refl) as (pieces & Hp & -> & _). split; [|by rewrite Hm, (same_counters_final _ _ Hs), Hmeta]. rewrite Hm. by exists first, pieces, written.
Qed.

(** ** What was written *)

Lemma pieces_size pieces buffers : Forall2 (took (W := W)) pieces buffers -> vec_size (concat pieces) <= vec_size (concat buffers).
Proof.
  induction 1 as [|p b ps bs Hp _ IH]; [done|]. cbn [concat]. rewrite !vec_size_app. apply took_size in Hp. lia.
Qed.

Lemma pieces_all pieces buffers : Forall2 (took (W := W)) pieces buffers -> vec_size (concat buffers) <= vec_size (concat pieces) -> pieces = buffers.
Proof.
  induction 1 as [|p b ps bs Hp Hps IH]; [done|]. cbn [concat]. rewrite !vec_size_app. intros Hs. pose proof (took_size _ _ Hp). pose proof (pieces_size _ _ Hps).
  f_equal; [apply took_all; [done|lia]|apply IH; lia].
Qed.

Lemma pieces_full pieces buffers : full_writes (W := W) -> Forall2 (took (W := W)) pieces buffers -> pieces = buffers.
Proof. intros Hf. induction 1 as [|p b ps bs [_ Hp _] _ IH]; [done|]. by rewrite IH, (Hp Hf). Qed.

Lemma pieces_capped k pieces buffers : capped_system (W := W) k -> Forall2 (took (W := W)) pieces buffers -> pieces = take (Z.to_nat k) <$> buffers.
Proof. intros Hk. induction 1 as [|p b ps bs [_ _ Hp] _ IH]; [done|]. cbn [fmap list_fmap]. by rewrite IH, (Hp k Hk). Qed.

Context (header : list Z) (buffers : list (list Z)) (content : list Z).
Context (Hheader : vec_size header = ContentRuleListFileHeaderSize) (Hwritten : file_written header buffers content).

(** The file is not longer than it should be. *)
Lemma file_written_size : vec_size content <= ContentRuleListFileHeaderSize + vec_size (concat buffers).
Proof.
  destruct Hwritten as (first & pieces & written & Hf & Hp & Hw & ->). rewrite vec_size_overwrite_0, vec_size_app. apply took_size in Hf, Hw. apply pieces_size in Hp.
  change (vec_size (replicate _ _)) with ContentRuleListFileHeaderSize in Hf. pose proof (vec_size_nonneg (concat buffers)). lia.
Qed.

(** A file that has its header and its length has everything. *)
Lemma file_written_complete : concat buffers <> [] -> header `prefix_of` content -> vec_size content = ContentRuleListFileHeaderSize + vec_size (concat buffers) ->
  content = header ++ concat buffers.
Proof.
  intros Hne [rest Hrest] Hsize. destruct Hwritten as (first & pieces & written & Hf & Hp & Hw & ->). rewrite vec_size_overwrite_0, vec_size_app in Hsize.
  pose proof (took_size _ _ Hf) as Hfs. pose proof (took_size _ _ Hw) as Hws. pose proof (pieces_size _ _ Hp) as Hps.
  change (vec_size (replicate _ _)) with ContentRuleListFileHeaderSize in Hfs.
  assert (0 < vec_size (concat buffers)) as Hpos by (unfold vec_size; destruct (concat buffers); [done|cbn [length]; lia]).
  assert (pieces = buffers) as -> by (apply pieces_all; [done|lia]). assert (vec_size first = ContentRuleListFileHeaderSize) as Hfirst by lia.
  rewrite Hrest. f_equal. apply (f_equal (drop (length header))) in Hrest. rewrite drop_app_length in Hrest. rewrite <- Hrest.
  rewrite overwrite_0. unfold vec_size in *. rewrite drop_app_ge by lia. rewrite drop_drop. replace (length written + (length header - length written))%nat with (length first) by lia.
  by rewrite drop_app_length.
Qed.

Lemma file_written_full : full_writes (W := W) -> content = header ++ concat buffers.
Proof.
  intros Hfull. destruct Hwritten as (first & pieces & written & [_ Hf _] & Hp & [_ Hw _] & ->). rewrite (Hf Hfull), (Hw Hfull), (pieces_full _ _ Hfull Hp).
  apply overwrite_start. unfold vec_size, ContentRuleListFileHeaderSize in *. rewrite length_replicate. lia.
Qed.

(** No byte more than [k] of each buffer. *)
Lemma file_written_capped k : capped_system (W := W) k -> ContentRuleListFileHeaderSize <= k -> content = header ++ concat (take (Z.to_nat k) <$> buffers).
Proof.
  intros Hk Hlarge. destruct Hwritten as (first & pieces & written & [_ _ Hf] & Hp & [_ _ Hw] & ->). rewrite (Hf k Hk), (Hw k Hk), (pieces_capped _ _ _ Hk Hp).
  unfold vec_size, ContentRuleListFileHeaderSize in *. rewrite !(take_ge _ (Z.to_nat k)) by (rewrite ?length_replicate; lia).
  apply overwrite_start. rewrite length_replicate. lia.
Qed.
End Compilation.
