(* ===== verification/RuleListStore.v ===== *)
(** * The store of compiled rule lists

    Models the second half of
    [src/Source/WebKit/UIProcess/API/APIContentRuleListStore.cpp], with
    [src/Source/WebKit/Shared/WebCompiledContentRuleList.cpp]: rule lists are
    compiled to files, one for each identifier, and mapped into memory.  What is
    dispatched to a queue or to the main run loop is run in order, and what a
    completion handler is called with is the result. *)

From stdpp Require Import base numbers option list list_numbers gmap.
From Stdlib Require Import ZArith Lia.
From S2P Require Import Prelude.
From S2P Require Import DFA.
From S2P Require Import DFABytecodeCompiler.
From S2P Require Import NFA.
From S2P Require Import CombinedURLFilters.
From S2P Require Import Yarr.
From S2P Require Import ContentExtensionRule.
From S2P Require Import ContentExtensionError.
From S2P Require Import ActionSerialization.
From S2P Require Import ContentExtensionParser.
From S2P Require Import ContentExtension.
From S2P Require Import ContentExtensionCompiler.
From S2P Require Import Partition.
From S2P Require Import DFAMinimizer.
From S2P Require Import ProcessNFAs.
From S2P Require Import Pipeline.
From S2P Require Import RuleListProof.
From S2P Require Import UTF8Conversion.
From S2P Require Import FileNames.
From S2P Require Import FileSystem.
From S2P Require Import RuleListFile.

(** ** The calls that the compiler makes *)

Section Calls.
Context `{HashOrder, HashMapOrder, UninitializedMemory, SlotOrder}.
Variable U_GET_GC_MASK : Z -> Z.
Variable unicodeMatchProperty : list Z -> option BuiltInCharacterClassID.
Variable unicodeMatchPropertyValue : list Z -> list Z -> option BuiltInCharacterClassID.

(** The buffers that [compileToBytecode] gives its functor, one for each DFA. *)
Definition bytecodeChunks (filters : CombinedURLFilters) (universalActions : gset Z) : option (list (list Z)) :=
  dfas ← compileDFAs filters;
  match dfas with
  | [] => dummyDFA ← addUniversalActionsToDFA DFA_empty universalActions; mapM (λ dfa, compile dfa []) [dummyDFA]
  | dfa :: dfas => dfa ← addUniversalActionsToDFA dfa universalActions; mapM (λ dfa, compile dfa []) (dfa :: dfas)
  end.

(** [compileRuleList] as its client sees it: the calls, and the error that is returned. *)
Definition compileRuleListCalls (ruleJSON : WString) (rules : list ContentExtensionRule) : option (list ClientCall * option ContentExtensionError) :=
  let domains := domainConditionSeen rules in
  if topURLConditionSeen rules && domains then Some ([], Some JSONTopURLAndDomainConditions)
  else
    '(locations, actions) ← serializeActions rules;
    let written := [WriteSource ruleJSON; WriteActions actions domains] in
    match compileRules U_GET_GC_MASK unicodeMatchProperty unicodeMatchPropertyValue domains newRulePartition rules locations with
    | None => None
    | Some (inl error) => Some (written, Some error)
    | Some (inr p) =>
        withoutConditions ← bytecodeChunks (filtersWithoutConditions p) (universalActionsWithoutConditions p);
        withConditions ← bytecodeChunks (filtersWithConditions p) (universalActionsWithConditions p);
        topURL ← bytecodeChunks (topURLFilters p) (universalTopURLActions p);
        Some (written ++ (WriteFiltersWithoutConditionsBytecode <$> withoutConditions) ++ (WriteFiltersWithConditionsBytecode <$> withConditions)
          ++ (WriteTopURLFiltersBytecode <$> topURL) ++ [Finalize], None)
    end.
End Calls.

(** ** A compiled rule list in memory *)

Record WebCompiledContentRuleListData := mkRuleListData {
  data : Data;
  conditionsApplyOnlyToDomainOffset : Z;
  actionsOffset : Z;
  data_actionsSize : Z;
  filtersWithoutConditionsBytecodeOffset : Z;
  data_filtersWithoutConditionsBytecodeSize : Z;
  filtersWithConditionsBytecodeOffset : Z;
  data_filtersWithConditionsBytecodeSize : Z;
  topURLFiltersBytecodeOffset : Z;
  topURLFiltersBytecodeSize : Z
}.

Record ContentRuleList := mkContentRuleList { m_name : WString; m_compiledRuleList : WebCompiledContentRuleListData }.

(** The offsets and sizes are [size_t]s that become [unsigned]s. *)
Definition createExtension (identifier : WString) (metaData : ContentRuleListMetaData) (fileData : Data) : ContentRuleList :=
  let headerAndSourceSize := u64 (ContentRuleListFileHeaderSize + sourceSize metaData) in
  mkContentRuleList identifier (mkRuleListData fileData
    (u32 ConditionsApplyOnlyToDomainOffset)
    (u32 headerAndSourceSize)
    (u32 (actionsSize metaData))
    (u32 (u64 (headerAndSourceSize + actionsSize metaData)))
    (u32 (filtersWithoutConditionsBytecodeSize metaData))
    (u32 (u64 (headerAndSourceSize + actionsSize metaData + filtersWithoutConditionsBytecodeSize metaData)))
    (u32 (filtersWithConditionsBytecodeSize metaData))
    (u32 (u64 (headerAndSourceSize + actionsSize metaData + filtersWithoutConditionsBytecodeSize metaData + filtersWithConditionsBytecodeSize metaData)))
    (u32 (conditionedFiltersBytecodeSize metaData))).

(** The accessors of [WebCompiledContentRuleList], which read the memory; [None]
    is an access that the file does not back. *)
Definition conditionsApplyOnlyToDomain_of (d : Disk) (l : WebCompiledContentRuleListData) : option bool :=
  b ← read_bytes (Data_bytes d (data l)) (conditionsApplyOnlyToDomainOffset l) 4;
  Some (negb (le_value b =? 0)).

Definition filtersWithoutConditionsBytecode_of (d : Disk) (l : WebCompiledContentRuleListData) : option (list Z) :=
  read_bytes (Data_bytes d (data l)) (filtersWithoutConditionsBytecodeOffset l) (data_filtersWithoutConditionsBytecodeSize l).

Definition filtersWithConditionsBytecode_of (d : Disk) (l : WebCompiledContentRuleListData) : option (list Z) :=
  read_bytes (Data_bytes d (data l)) (filtersWithConditionsBytecodeOffset l) (data_filtersWithConditionsBytecodeSize l).

Definition topURLFiltersBytecode_of (d : Disk) (l : WebCompiledContentRuleListData) : option (list Z) :=
  read_bytes (Data_bytes d (data l)) (topURLFiltersBytecodeOffset l) (topURLFiltersBytecodeSize l).

Definition actions_of_list (d : Disk) (l : WebCompiledContentRuleListData) : option (list Z) :=
  read_bytes (Data_bytes d (data l)) (actionsOffset l) (data_actionsSize l).

Definition compiledExtension (d : Disk) (l : ContentRuleList) : option CompiledContentExtension :=
  withoutConditions ← filtersWithoutConditionsBytecode_of d (m_compiledRuleList l);
  withConditions ← filtersWithConditionsBytecode_of d (m_compiledRuleList l);
  topURL ← topURLFiltersBytecode_of d (m_compiledRuleList l);
  domains ← conditionsApplyOnlyToDomain_of d (m_compiledRuleList l);
  actions ← actions_of_list d (m_compiledRuleList l);
  Some (mkCompiledContentExtension withoutConditions withConditions topURL domains actions).

(** ** The store *)

Inductive StoreError := LookupFailed | VersionMismatch | CompileFailed | RemoveFailed.

(** An [std::error_code] that is not success. *)
Inductive error_code := CompilerError (error : ContentExtensionError) | StoreErrorCode (error : StoreError).

Record ContentRuleListStore := mkContentRuleListStore { m_storePath : WString; m_legacyFilename : bool }.

(** "ContentExtension-" and "ContentRuleList-" *)
Definition legacyPrefix : list Z := [67; 111; 110; 116; 101; 110; 116; 69; 120; 116; 101; 110; 115; 105; 111; 110; 45].
Definition ruleListPrefix : list Z := [67; 111; 110; 116; 101; 110; 116; 82; 117; 108; 101; 76; 105; 115; 116; 45].

Definition constructedPathPrefix (legacyFilename : bool) : WString := mkWString true (if legacyFilename then legacyPrefix else ruleListPrefix).

(** '*' *)
Definition asterisk : WString := mkWString true [42].

Definition constructedPathFilter (legacyFilename : bool) : WString := concatenate (constructedPathPrefix legacyFilename) asterisk.

Definition constructedPath (base identifier : WString) (legacyFilename : bool) : WString :=
  pathByAppendingComponent base (concatenate (constructedPathPrefix legacyFilename) (encodeForFileName identifier)).

(** "ContentRuleList", the prefix of temporary files *)
Definition temporaryPrefix : list Z := [67; 111; 110; 116; 101; 110; 116; 82; 117; 108; 101; 76; 105; 115; 116].

(** [String::reverseFind] of a character; -1 is [notFound]. *)
Fixpoint reverseFind (s : list Z) (c : Z) (index found : Z) : Z :=
  match s with
  | [] => found
  | d :: s => reverseFind s c (index + 1) (if d =? c then index else found)
  end.

(** [path.substring(path.reverseFind('/') + 1 + prefixLength)] *)
Definition nameAfterPrefix (prefixLength : Z) (path : WString) : WString :=
  mkWString (is8Bit path) (drop (Z.to_nat (reverseFind (characters path) slash 0 (-1) + 1 + prefixLength)) (characters path)).

(** An array of the code units that were written. *)
Fixpoint units16 (bytes : list Z) : list Z :=
  match bytes with
  | b0 :: b1 :: bytes => le_value [b0; b1] :: units16 bytes
  | _ => []
  end.

Section Store.
Context {W : Type} `{OS W}.
Context `{HashOrder, HashMapOrder, UninitializedMemory, SlotOrder}.
Context (fuel : nat).
Context (U_GET_GC_MASK : Z -> Z).
Context (unicodeMatchProperty : list Z -> option BuiltInCharacterClassID).
Context (unicodeMatchPropertyValue : list Z -> list Z -> option BuiltInCharacterClassID).
Context (isValidCSSSelector : WString -> bool).
(** The JSON parser, and the bytes that a struct has between its fields. *)
Context (JSONParse : WString -> option JSValue).
Context (padding1 padding2 : list Z).
Open Scope sys_scope.

(** The caller's [fileData] is set by reference; when this returns [false], the
    caller returns and [fileData] is destroyed. *)
Definition openAndMapContentRuleList (path : WString) : SysM W (option (ContentRuleListMetaData * Data)) :=
  let? fsRep := lift_option (fileSystemRepresentation path) in
  let? fileData := mapFile fsRep in
  if Data_isNull fileData then sret None
  else
    let? bytes := λ w, Some (w, Data_bytes (disk w) fileData) in
    match decodeContentRuleListMetaData bytes with
    | None => let? _ := releaseData fileData in sret None
    | Some metaData => sret (Some (metaData, fileData))
    end.

(** 0xFF bytes, to be overwritten by [finalize] *)
Definition invalidHeader : list Z := replicate (Z.to_nat ContentRuleListFileHeaderSize) 0xFF.

(** The end of [compiledToFile], when the client has been called.  [mappedData] is the
    [fileData] of [compileContentRuleList], which is destroyed after an error. *)
Definition finishFile (temporaryFileHandle : Z) (temporaryFilePath finalFilePath : WString) (c : CompilationClient) (compilerError : option ContentExtensionError)
    : SysM W (error_code + ContentRuleListMetaData * Data) :=
  match compilerError with
  | Some error => let? _ := closeFile temporaryFileHandle in sret (inl (CompilerError error))
  | None =>
      if m_fileError c then let? _ := closeFile temporaryFileHandle in sret (inl (StoreErrorCode CompileFailed))
      else
        let? mappedData := adoptAndMapFile temporaryFileHandle (fileSize (m_metaData c)) in
        if Data_isNull mappedData then sret (inl (StoreErrorCode CompileFailed))
        else
          let? moved := moveFile temporaryFilePath finalFilePath in
          if negb moved then let? _ := releaseData mappedData in sret (inl (StoreErrorCode CompileFailed))
          else sret (inr (m_metaData c, mappedData))
  end.

Definition compiledToFile (json : WString) (parsedRules : list ContentExtensionRule) (finalFilePath : WString) : SysM W (error_code + ContentRuleListMetaData * Data) :=
  let? (temporaryFilePath, temporaryFileHandle) := openTemporaryFile temporaryPrefix in
  if temporaryFileHandle =? invalidPlatformFileHandle then sret (inl (StoreErrorCode CompileFailed))
  else
    let? r := writeToFile fuel temporaryFileHandle invalidHeader ContentRuleListFileHeaderSize in
    if r =? -1 then let? _ := closeFile temporaryFileHandle in sret (inl (StoreErrorCode CompileFailed))
    else
      let? (calls, compilerError) := lift_option (compileRuleListCalls U_GET_GC_MASK unicodeMatchProperty unicodeMatchPropertyValue json parsedRules) in
      let? c := clientCalls fuel (newCompilationClient temporaryFileHandle newMetaData) calls in
      finishFile temporaryFileHandle (default (mkWString true []) temporaryFilePath) finalFilePath c compilerError.

Definition lookupContentRuleList (store : ContentRuleListStore) (identifier : WString) : SysM W (error_code + ContentRuleList) :=
  let path := constructedPath (m_storePath store) identifier (m_legacyFilename store) in
  let? opened := openAndMapContentRuleList path in
  match opened with
  | None => sret (inl (StoreErrorCode LookupFailed))
  | Some (metaData, fileData) =>
      if negb (version metaData =? CurrentContentRuleListFileVersion) then let? _ := releaseData fileData in sret (inl (StoreErrorCode VersionMismatch))
      else sret (inr (createExtension identifier metaData fileData))
  end.

Definition getAvailableContentRuleListIdentifiers (store : ContentRuleListStore) : SysM W (list (option WString)) :=
  let? fullPaths := listDirectory (m_storePath store) (constructedPathFilter (m_legacyFilename store)) in
  let prefixLength := vec_size (characters (constructedPathPrefix (m_legacyFilename store))) in
  sret ((λ path, decodeFromFilename (nameAfterPrefix prefixLength path)) <$> fullPaths).

Definition compileContentRuleList (store : ContentRuleListStore) (identifier json : WString) : SysM W (error_code + ContentRuleList) :=
  match parseRuleList isValidCSSSelector (JSONParse json) with
  | inl error => sret (inl (CompilerError error))
  | inr parsedRules =>
      let path := constructedPath (m_storePath store) identifier (m_legacyFilename store) in
      let? r := compiledToFile json parsedRules path in
      match r with
      | inl error => sret (inl error)
      | inr (metaData, fileData) => sret (inr (createExtension identifier metaData fileData))
      end
  end.

Definition removeContentRuleList (store : ContentRuleListStore) (identifier : WString) : SysM W (option error_code) :=
  let path := constructedPath (m_storePath store) identifier (m_legacyFilename store) in
  let? deleted := deleteFile path in
  if negb deleted then sret (Some (StoreErrorCode RemoveFailed)) else sret None.

Fixpoint deleteFiles (paths : list WString) : SysM W unit :=
  match paths with
  | [] => sret tt
  | path :: paths => let? _ := deleteFile path in deleteFiles paths
  end.

Definition synchronousRemoveAllContentRuleLists (store : ContentRuleListStore) : SysM W unit :=
  let? paths := listDirectory (m_storePath store) asterisk in deleteFiles paths.

(** The struct as it lies in memory: eight bytes of it are padding. *)
Definition invalidMetaData : list Z := le_bytes 4 0 ++ padding1 ++ le_bytes 8 0 ++ le_bytes 8 0 ++ le_bytes 8 0 ++ le_bytes 8 0 ++ le_bytes 8 0 ++ le_bytes 4 0 ++ padding2.

Definition invalidateContentRuleListVersion (store : ContentRuleListStore) (identifier : WString) : SysM W unit :=
  let? file := openFile (constructedPath (m_storePath store) identifier (m_legacyFilename store)) O_WRONLY_CREAT_TRUNC in
  if file =? invalidPlatformFileHandle then sret tt
  else
    let? _ := writeToFile fuel file invalidMetaData (vec_size invalidMetaData) in
    let? _ := closeFile file in
    sret tt.

(** The source in the bytes of a file: the width, and the code units.  [None] is
    an access outside of the memory, the inner one the null string. *)
Definition sourceInFile (bytes : list Z) (sourceSize : Z) : option (option WString) :=
  if sourceSize =? 0 then Some None
  else
    is8Bit ← read_bytes bytes ContentRuleListFileHeaderSize 1;
    let start := ContentRuleListFileHeaderSize + 1 in
    let length := u64 (sourceSize - 1) in
    if negb (bool_decide (is8Bit = [0])) then s ← read_bytes bytes start (u32 length); Some (Some (mkWString true s))
    else s ← read_bytes bytes start (2 * u32 (Z.div length 2)); Some (Some (mkWString false (units16 s))).

Definition getContentRuleListSource (store : ContentRuleListStore) (identifier : WString) : SysM W (option WString) :=
  let path := constructedPath (m_storePath store) identifier (m_legacyFilename store) in
  let? opened := openAndMapContentRuleList path in
  match opened with
  | None => sret None
  | Some (metaData, fileData) =>
      let? source :=
        if (version metaData =? 9) || (version metaData =? 10) then
          λ w, match sourceInFile (Data_bytes (disk w) fileData) (sourceSize metaData) with Some s => Some (w, s) | None => None end
        else sret None in
      let? _ := releaseData fileData in
      sret source
  end.

End Store.
