(* ===== verification/RuleListStoreProof.v ===== *)
(** * The store keeps rule lists

    A rule list that was compiled is found under its identifier, as it was
    compiled, with its source; whatever fails, what was stored before is still
    there, and what is mapped into memory does not change. *)

From stdpp Require Import base numbers option list list_numbers gmap.
From Stdlib Require Import ZArith Lia.
From S2P Require Import Prelude.
From S2P Require Import DFABytecodeCompiler.
From S2P Require Import NFA.
From S2P Require Import Yarr.
From S2P Require Import YarrReading.
From S2P Require Import ContentExtensionRule.
From S2P Require Import ContentExtensionError.
From S2P Require Import ActionSerialization.
From S2P Require Import ContentExtensionParser.
From S2P Require Import ContentExtension.
From S2P Require Import ContentExtensionCompiler.
From S2P Require Import Partition.
From S2P Require Import DFAMinimizer.
From S2P Require Import ProcessNFAs.
From S2P Require Import Pipeline.
From S2P Require Import RuleListProof.
From S2P Require Import UTF8Conversion.
From S2P Require Import FileNames.
From S2P Require Import FileSystem.
From S2P Require Import FileSystemProof.
From S2P Require Import RuleListFile.
From S2P Require Import RuleListFileProof.
From S2P Require Import RuleListStore.

(** ** The calls of the compiler *)

Section Calls.
Context `{HashOrder, HashMapOrder, UninitializedMemory, SlotOrder}.
Context (U_GET_GC_MASK : Z -> Z) (unicodeMatchProperty : list Z -> option BuiltInCharacterClassID).
Context (unicodeMatchPropertyValue : list Z -> list Z -> option BuiltInCharacterClassID).
Abbreviation compile_rules := (compileRuleList U_GET_GC_MASK unicodeMatchProperty unicodeMatchPropertyValue).
Abbreviation compile_calls := (compileRuleListCalls U_GET_GC_MASK unicodeMatchProperty unicodeMatchPropertyValue).

Lemma compileToBytecode_chunks f u : compileToBytecode f u = @concat Z <$> bytecodeChunks f u.
Proof.
  unfold compileToBytecode, bytecodeChunks, lowerDFAsToBytecode, compileAll. destruct (compileDFAs f) as [[|dfa dfas]|]; [..|done]; cbn [mbind option_bind].
  - destruct (addUniversalActionsToDFA _ _) as [dfa|]; [|done]. cbn [mbind option_bind]. by destruct (mapM _ _).
  - destruct (addUniversalActionsToDFA _ _) as [d|]; [|done]. cbn [mbind option_bind]. by destruct (mapM _ _).
Qed.

Lemma compileToBytecode_inv f u bytecode : compileToBytecode f u = Some bytecode -> exists chunks, bytecodeChunks f u = Some chunks /\ bytecode = concat chunks.
Proof. rewrite compileToBytecode_chunks. intros H'. apply fmap_Some in H' as (chunks & ? & ?). by exists chunks. Qed.

(** The client is given the parts of the compiled rule list. *)
Lemma compileRuleListCalls_success json rules c : compile_rules rules = Some (inr c) ->
  exists without with_ top, compile_calls json rules =
      Some (compilationCalls json (compiledActions c) (conditionsApplyOnlyToDomain c) without with_ top ++ [Finalize], None) /\
    concat without = filtersWithoutConditionsBytecode c /\ concat with_ = filtersWithConditionsBytecode c /\ concat top = topURLFiltersBytecode c.
Proof.
  unfold compileRuleList, partitionRuleList, compileRuleListCalls. intros Hc. destruct (topURLConditionSeen rules && domainConditionSeen rules); [discriminate|].
  destruct (serializeActions rules) as [[locations acts]|]; [|discriminate]. cbn [mbind option_bind] in *.
  destruct (compileRules _ _ _ _ _ _ _) as [[e|p]|]; [discriminate| |discriminate]. cbn [andThen] in Hc. obind Hc. injection Hc as <-.
  destruct (compileToBytecode_inv _ _ _ Hx) as (w1 & -> & ->). destruct (compileToBytecode_inv _ _ _ Hx0) as (w2 & -> & ->). destruct (compileToBytecode_inv _ _ _ Hx1) as (w3 & -> & ->).
  exists w1, w2, w3. cbn [mbind option_bind compiledActions conditionsApplyOnlyToDomain filtersWithoutConditionsBytecode filtersWithConditionsBytecode topURLFiltersBytecode].
  split; [|done]. unfold compilationCalls. by rewrite <- !app_assoc.
Qed.

(** An error: the source and the actions may have been written, the header is not. *)
Lemma compileRuleListCalls_error json rules e : compile_rules rules = Some (inl e) ->
  exists calls, compile_calls json rules = Some (calls, Some e) /\ Forall (λ call, call <> Finalize) calls /\
    forall locations acts, serializeActions rules = Some (locations, acts) -> vec_size (bodyBytes calls) <= vec_size (sourceBytes json) + vec_size acts.
Proof.
  unfold compileRuleList, partitionRuleList, compileRuleListCalls. intros Hc. pose proof (vec_size_nonneg (sourceBytes json)).
  destruct (topURLConditionSeen rules && domainConditionSeen rules).
  { injection Hc as <-. exists []. split; [done|]. split; [done|]. intros locations acts _. pose proof (vec_size_nonneg acts). change (vec_size (bodyBytes [])) with 0. lia. }
  destruct (serializeActions rules) as [[locations acts]|]; [|discriminate]. cbn [mbind option_bind] in *.
  destruct (compileRules _ _ _ _ _ _ _) as [[e'|p]|]; [| |discriminate].
  - injection Hc as <-. eexists. split; [done|]. split; [by repeat constructor|]. intros l a [= <- <-]. unfold bodyBytes. cbn [fmap list_fmap concat callBytes].
    rewrite app_nil_r, vec_size_app. lia.
  - cbn [andThen] in Hc. exfalso. obind Hc. discriminate.
Qed.
End Calls.

(** ** Disks that keep what was stored *)

(** The files that are mapped or open are as they were. *)
Definition extends (d0 d : Disk) : Prop := forall ino bytes, files d0 !! ino = Some bytes -> files d !! ino = Some bytes.

(** What was stored is stored. *)
Definition keeps (d0 d : Disk) : Prop := (forall loc bytes, stored d0 loc = Some bytes -> stored d loc = Some bytes) /\ extends d0 d.

(** A location has new contents, the others are as they were. *)
Definition replaced (d0 d : Disk) (loc bytes : list Z) : Prop := stored d loc = Some bytes /\ (forall loc', loc' <> loc -> stored d loc' = stored d0 loc') /\ extends d0 d.

Lemma disk_keeps_refl d : keeps d d.
Proof. split; [done|by intros ? ?]. Qed.

Lemma same_files_keeps d0 d d' : keeps d0 d -> same_files d d' -> keeps d0 d'.
Proof. intros [Hs Hf] Hd. split; [intros; rewrite (same_files_stored _ _ _ Hd); auto|]. destruct Hd as [Hd _]. unfold extends. by rewrite Hd. Qed.

(** A new temporary file disturbs nothing. *)
Lemma temporary_keeps d0 d tmp ino content : files d0 !! ino = None -> entries d0 !! tmp = None ->
  files d = <[ino := content]> (files d0) -> entries d = <[tmp := ino]> (entries d0) -> keeps d0 d.
Proof.
  intros Hino Htmp Hf He. split.
  - intros loc bytes Hst. unfold stored in *. apply bind_Some in Hst as (i & Hi & Hb). rewrite He, Hf.
    destruct (decide (loc = tmp)) as [->|Hne]; [congruence|]. rewrite lookup_insert_ne, Hi by done. cbn [mbind option_bind].
    destruct (decide (i = ino)) as [->|Hne']; [congruence|]. by rewrite lookup_insert_ne.
  - intros i b Hb. rewrite Hf. destruct (decide (i = ino)) as [->|Hne']; [congruence|]. by rewrite lookup_insert_ne.
Qed.

Lemma moved_replaced d0 d loc ino content : disk_ok d0 -> files d0 !! ino = None -> files d = <[ino := content]> (files d0) -> entries d = <[loc := ino]> (entries d0) ->
  replaced d0 d loc content.
Proof.
  intros Hok Hino Hf He. unfold replaced, stored. rewrite Hf, He, lookup_insert_eq. cbn [mbind option_bind]. rewrite lookup_insert_eq. split; [done|]. split.
  - intros loc' Hne. rewrite lookup_insert_ne by done. destruct (entries d0 !! loc') as [i|] eqn:Ei; [|done]. cbn [mbind option_bind].
    destruct (decide (i = ino)) as [->|Hne']; [|by rewrite lookup_insert_ne]. destruct (Hok _ _ Ei) as [? Hx]. congruence.
  - intros i b Hb. destruct (decide (i = ino)) as [->|Hne']; [congruence|]. by rewrite Hf, lookup_insert_ne.
Qed.

(** ** A rule list in a file *)

Section InFile.
Context (d : Disk) (identifier : WString) (fileData : Data).
Context (source actions without with_ top : list Z) (domains : bool).
Context (Hbytes : Data_bytes d fileData = fileBytes source actions without with_ top domains).
Context (Hsize : vec_size (fileBytes source actions without with_ top domains) < 2 ^ 31).

(** The accessors find the parts. *)
Lemma compiledExtension_file : compiledExtension d (createExtension identifier (fileMetaData source actions without with_ top domains) fileData) =
  Some (mkCompiledContentExtension without with_ top domains actions).
Proof.
  rewrite fileBytes_size in Hsize. set (m := fileMetaData source actions without with_ top domains) in *.
  pose proof (vec_size_nonneg source). pose proof (vec_size_nonneg actions). pose proof (vec_size_nonneg without). pose proof (vec_size_nonneg with_). pose proof (vec_size_nonneg top).
  unfold compiledExtension, filtersWithoutConditionsBytecode_of, filtersWithConditionsBytecode_of, topURLFiltersBytecode_of, conditionsApplyOnlyToDomain_of, actions_of_list,
    createExtension, ContentRuleListFileHeaderSize, ConditionsApplyOnlyToDomainOffset in *.
  cbn [m_compiledRuleList data conditionsApplyOnlyToDomainOffset actionsOffset data_actionsSize filtersWithoutConditionsBytecodeOffset data_filtersWithoutConditionsBytecodeSize
    filtersWithConditionsBytecodeOffset data_filtersWithConditionsBytecodeSize topURLFiltersBytecodeOffset topURLFiltersBytecodeSize].
  rewrite Hbytes. unfold fileBytes. fold m. change (sourceSize m) with (vec_size source). change (RuleListFile.actionsSize m) with (vec_size actions).
  change (filtersWithoutConditionsBytecodeSize m) with (vec_size without). change (filtersWithConditionsBytecodeSize m) with (vec_size with_).
  change (conditionedFiltersBytecodeSize m) with (vec_size top). set (h := encodeContentRuleListMetaData m).
  assert (vec_size h = 48) as Hh by apply header_size. assert (2 ^ 31 < 2 ^ 64) as Hpow by done. rewrite !(uwrap_small 64), !(uwrap_small 32) by lia.
  change (2 * 4 + 5 * 8) with 48. change (4 + 5 * 8) with 44. set (bytes := h ++ source ++ actions ++ without ++ with_ ++ top).
  rewrite (read_part (h ++ source ++ actions) without (with_ ++ top)) by first [by unfold bytes; rewrite <- !app_assoc | rewrite !vec_size_app; lia].
  rewrite (read_part (h ++ source ++ actions ++ without) with_ top) by first [by unfold bytes; rewrite <- !app_assoc | rewrite !vec_size_app; lia].
  rewrite (read_part (h ++ source ++ actions ++ without ++ with_) top []) by first [by unfold bytes; rewrite app_nil_r, <- !app_assoc | rewrite !vec_size_app; lia].
  rewrite (read_part (h ++ source) actions (without ++ with_ ++ top)) by first [by unfold bytes; rewrite <- !app_assoc | rewrite !vec_size_app; lia].
  cbn [mbind option_bind].
  assert (read_bytes bytes 44 4 = Some (le_bytes 4 (if domains then 1 else 0))) as ->.
  { unfold bytes, h. rewrite header_eq. change (meta_conditionsApplyOnlyToDomain m) with (if domains then 1 else 0).
    apply (read_part (le_bytes 4 (version m) ++ le_bytes 8 (sourceSize m) ++ le_bytes 8 (RuleListFile.actionsSize m) ++ le_bytes 8 (filtersWithoutConditionsBytecodeSize m)
      ++ le_bytes 8 (filtersWithConditionsBytecodeSize m) ++ le_bytes 8 (conditionedFiltersBytecodeSize m)) (le_bytes 4 (if domains then 1 else 0))
      (source ++ actions ++ without ++ with_ ++ top)); [by rewrite <- !app_assoc|by rewrite !vec_size_app, !vec_size_le_bytes]. }
  cbn [mbind option_bind]. by destruct domains.
Qed.
End InFile.

(** When the file is shorter than its header says, the last bytecode is not there. *)
Lemma compiledExtension_short d identifier fileData source actions without with_ top domains :
  vec_size (Data_bytes d fileData) < vec_size (fileBytes source actions without with_ top domains) -> vec_size (fileBytes source actions without with_ top domains) < 2 ^ 31 ->
  compiledExtension d (createExtension identifier (fileMetaData source actions without with_ top domains) fileData) = None.
Proof.
  rewrite fileBytes_size. intros Hshort Hsize. assert (2 ^ 31 < 2 ^ 32 /\ 2 ^ 32 < 2 ^ 64) as [] by done.
  pose proof (vec_size_nonneg source). pose proof (vec_size_nonneg actions). pose proof (vec_size_nonneg without). pose proof (vec_size_nonneg with_). pose proof (vec_size_nonneg top).
  set (m := fileMetaData source actions without with_ top domains).
  assert (topURLFiltersBytecode_of d (m_compiledRuleList (createExtension identifier m fileData)) = None) as Hnone.
  { unfold topURLFiltersBytecode_of, createExtension, read_bytes, ContentRuleListFileHeaderSize in *. cbn [m_compiledRuleList data topURLFiltersBytecodeOffset topURLFiltersBytecodeSize m fileMetaData
      sourceSize RuleListFile.actionsSize filtersWithoutConditionsBytecodeSize filtersWithConditionsBytecodeSize conditionedFiltersBytecodeSize].
    rewrite (uwrap_small 64 (_ + vec_size source)) by lia. rewrite (uwrap_small 64) by lia. rewrite !(uwrap_small 32) by lia. destruct (_ && _) eqn:E; [|done]. apply andb_true_iff in E as [_ E]. zbool. lia. }
  unfold compiledExtension. rewrite Hnone. destruct (filtersWithoutConditionsBytecode_of _ _); [|done]. cbn [mbind option_bind]. by destruct (filtersWithConditionsBytecode_of _ _).
Qed.

(** The file of a compiled rule list with its source. *)
Definition ruleListFile (json : WString) (c : CompiledContentExtension) : list Z :=
  fileBytes (sourceBytes json) (compiledActions c) (filtersWithoutConditionsBytecode c) (filtersWithConditionsBytecode c) (topURLFiltersBytecode c) (conditionsApplyOnlyToDomain c).

Definition ruleListMetaData (json : WString) (c : CompiledContentExtension) : ContentRuleListMetaData :=
  fileMetaData (sourceBytes json) (compiledActions c) (filtersWithoutConditionsBytecode c) (filtersWithConditionsBytecode c) (topURLFiltersBytecode c) (conditionsApplyOnlyToDomain c).

(** The file has its header and its length. *)
Definition complete (json : WString) (c : CompiledContentExtension) (content : list Z) : Prop :=
  encodeContentRuleListMetaData (ruleListMetaData json c) `prefix_of` content /\ vec_size content = vec_size (ruleListFile json c).

(** What the writes leave in the file of a rule list.  [write] may take less than it is
    given, which the client does not notice; but a file that has its header and its
    length has every byte. *)
Record list_written {W} `{OS W} (json : WString) (c : CompiledContentExtension) (content : list Z) : Prop := {
  lw_full : full_writes (W := W) -> complete json c content;
  lw_complete : complete json c content -> content = ruleListFile json c;
  lw_size : vec_size content <= vec_size (ruleListFile json c);
  lw_capped : forall k, capped_system (W := W) k -> ContentRuleListFileHeaderSize <= k -> k < vec_size (characterBytes json) \/ k < vec_size (compiledActions c) ->
    encodeContentRuleListMetaData (ruleListMetaData json c) `prefix_of` content /\ vec_size content < vec_size (ruleListFile json c)
}.
Arguments list_written W {_} json c content.

Lemma capped_shorter k (buffers : list (list Z)) b : 0 <= k -> b ∈ buffers -> k < vec_size b -> vec_size (concat (take (Z.to_nat k) <$> buffers)) < vec_size (concat buffers).
Proof.
  intros Hk Hin Hb. assert (forall l : list (list Z), vec_size (concat (take (Z.to_nat k) <$> l)) <= vec_size (concat l)) as Hle.
  { induction l as [|a l IH]; [done|]. cbn [fmap list_fmap concat]. rewrite !vec_size_app. unfold vec_size in *. rewrite length_take. lia. }
  apply list_elem_of_split in Hin as (l1 & l2 & ->). rewrite fmap_app, !concat_app. cbn [fmap list_fmap concat]. rewrite !vec_size_app.
  pose proof (Hle l1). pose proof (Hle l2). unfold vec_size in *. rewrite length_take. lia.
Qed.

(** The client's writes are those of the list. *)
Lemma file_written_list {W} `{POSIX W} json c without with_ top content : concat without = filtersWithoutConditionsBytecode c -> concat with_ = filtersWithConditionsBytecode c ->
  concat top = topURLFiltersBytecode c ->
  file_written (W := W) (encodeContentRuleListMetaData (ruleListMetaData json c)) (bodyBuffers (compilationCalls json (compiledActions c) (conditionsApplyOnlyToDomain c) without with_ top)) content ->
  list_written W json c content.
Proof.
  intros E1 E2 E3 Hw. set (body := compilationCalls _ _ _ _ _ _) in *. set (header := encodeContentRuleListMetaData (ruleListMetaData json c)) in *.
  assert (vec_size header = ContentRuleListFileHeaderSize) as Hh by apply header_size.
  assert (ruleListFile json c = header ++ concat (bodyBuffers body)) as Hfile.
  { rewrite bodyBuffers_bytes. unfold body. rewrite compilationCalls_bytes, E1, E2, E3. done. }
  assert (vec_size (ruleListFile json c) = ContentRuleListFileHeaderSize + vec_size (concat (bodyBuffers body))) as Hsize by (by rewrite Hfile, vec_size_app, Hh).
  split.
  - intros Hfull. rewrite (file_written_full header _ content Hh Hw Hfull). unfold complete. rewrite Hfile. split; [by apply prefix_app_r|done].
  - intros [Hp Hs]. rewrite Hfile. apply (file_written_complete header _ content Hh Hw); [|done|congruence]. rewrite bodyBuffers_bytes. unfold body. by rewrite compilationCalls_bytes.
  - rewrite Hsize. by apply (file_written_size header _ content Hh Hw).
  - intros k Hk Hlarge Hb. rewrite (file_written_capped header _ content Hh Hw k Hk Hlarge). split; [by apply prefix_app_r|]. rewrite Hsize, vec_size_app, Hh.
    assert (exists b, b ∈ bodyBuffers body /\ k < vec_size b) as (b & Hin & Hlt).
    { unfold body, bodyBuffers, compilationCalls. cbn [app fmap list_fmap concat callBuffers]. destruct Hb as [Hb|Hb]; [exists (characterBytes json)|exists (compiledActions c)]; split; set_solver. }
    pose proof (capped_shorter k _ b ltac:(unfold ContentRuleListFileHeaderSize in Hlarge; lia) Hin Hlt). lia.
Qed.

(** ** Compiling to a file *)

Section Store.
Context {W : Type} `{POSIX W}.
Context `{HashOrder, HashMapOrder, UninitializedMemory, SlotOrder}.
Context (fuel : nat) (Hfuel : writes_end (W := W) fuel).
Context (U_GET_GC_MASK : Z -> Z) (unicodeMatchProperty : list Z -> option BuiltInCharacterClassID).
Context (unicodeMatchPropertyValue : list Z -> list Z -> option BuiltInCharacterClassID).
Abbreviation compile_rules := (compileRuleList U_GET_GC_MASK unicodeMatchProperty unicodeMatchPropertyValue).
Abbreviation to_file := (compiledToFile fuel U_GET_GC_MASK unicodeMatchProperty unicodeMatchPropertyValue).

(** The directory for temporary files has a name in UTF-8. *)
Definition temporary_path_is_UTF8 (w : W) : Prop := forall w' fd path, sys_mkstemp (temporaryTemplate temporaryPrefix w) w = (w', (fd, path)) -> 0 <= fd ->
  exists text, Forall scalar text /\ path = concat (utf8_of <$> text) /\ vec_size path <= MaxLength / 3.

Lemma openTemporaryFile_runs w : temporary_path_is_UTF8 w ->
  runs (openTemporaryFile temporaryPrefix) w (λ '(path, handle) w', (handle = invalidPlatformFileHandle /\ disk w' = disk w /\ forall k, capped_system (W := W) k -> PATH_MAX <= vec_size (temporaryTemplate temporaryPrefix w)) \/
    exists s rep ino, path = Some s /\ fileSystemRepresentation s = Some rep /\ 0 <= handle /\ files (disk w) !! ino = None /\ entries (disk w) !! locate rep = None /\
      disk w' = mkDisk (<[ino := []]> (files (disk w))) (<[locate rep := ino]> (entries (disk w))) (<[handle := (ino, 0)]> (descriptors (disk w)))).
Proof.
  intros Hutf. unfold openTemporaryFile. run_step. apply runs_get. destruct (PATH_MAX <=? _) eqn:Elen; zbool; [run_step; by left|].
  run_step. apply runs_call. intros w' [fd path] Hm. pose proof (mkstemp_law _ _ _ _ _ Hm) as Hlaw. destruct (fd <? 0) eqn:Efd; zbool.
  { run_step. left. split; [done|]. split; [done|]. intros k Hk. specialize (cs_mkstemp k Hk _ _ _ _ _ Hm). lia. }
  destruct Hlaw as (ino & Hino & Hent & _ & Hd). destruct (Hutf _ _ _ Hm Efd) as (text & Ht & -> & Hlen).
  destruct (fromUTF8_text text Ht) as (s & Hs & _); [unfold MaxLength, INT32_MAX in *; divlia|].
  run_step. apply (runs_lift _ (Some s)); [done|]. run_step. right. exists s, (concat (utf8_of <$> text)), ino. split; [done|]. split; [by apply utf8_fromUTF8|]. done.
Qed.

(** The first write leaves the client in its initial state. *)
Lemma invalidHeader_runs d0 tmp ino fd w : files (disk w) = <[ino := []]> (files d0) -> entries (disk w) = <[tmp := ino]> (entries d0) -> descriptors (disk w) !! fd = Some (ino, 0) ->
  runs (writeToFile fuel fd invalidHeader ContentRuleListFileHeaderSize) w (λ r w', exists content,
    files (disk w') = <[ino := content]> (files d0) /\ entries (disk w') = <[tmp := ino]> (entries d0) /\
    if r =? -1 then forall k, ~ capped_system (W := W) k
    else client_at d0 tmp ino fd (disk w') (newCompilationClient fd newMetaData) content (vec_size content) /\ took (W := W) content invalidHeader).
Proof.
  intros Hf He Hfd. change ContentRuleListFileHeaderSize with (vec_size invalidHeader) at 1. eapply runs_mono; [by apply writeToFile_runs|]. cbn beta.
  intros r w' [(-> & Hd & Hno)|(i & o & old & written & Hr & Htook & Hfd' & Hold & Hd)].
  - exists []. rewrite Hd. split; [done|]. split; [done|]. intros k Hk. apply (Hno k ino 0 Hk Hfd). by rewrite Hf, lookup_insert_eq.
  - rewrite Hfd in Hfd'. injection Hfd' as <- <-. rewrite Hf, lookup_insert_eq in Hold. injection Hold as <-. rewrite Hd. cbn [files entries descriptors].
    rewrite Hf, insert_insert_eq, overwrite_0, drop_nil, app_nil_r. exists written. split; [done|]. split; [done|]. apply Z.eqb_neq in Hr. rewrite Hr. split; [|done].
    split; [done..|]. intros _. split; [done|]. cbn [descriptors]. by rewrite lookup_insert_eq.
Qed.

Lemma moveFile_runs old new s t w ino d0 : fileSystemRepresentation old = Some s -> fileSystemRepresentation new = Some t -> disk_ok d0 -> files d0 !! ino = None -> entries d0 !! locate s = None ->
  entries (disk w) = <[locate s := ino]> (entries d0) ->
  runs (moveFile old new) w (λ moved w', files (disk w') = files (disk w) /\
    if moved then entries (disk w') = <[locate t := ino]> (entries d0) else entries (disk w') = entries (disk w) /\ forall k, ~ capped_system (W := W) k).
Proof.
  intros Hs Ht Hok Hino Hent He. unfold moveFile. run_step. eapply runs_lift; [done|]. run_step. eapply runs_lift; [done|]. run_step.
  apply runs_call. intros w' r Hr. pose proof (rename_law _ _ _ _ _ Hr) as Hlaw. run_step. destruct (r =? -1) eqn:E; zbool; cbn [negb].
  { rewrite Hlaw. split; [done|]. split; [done|]. intros k Hk. apply (cs_rename k Hk _ _ _ _ _ Hr); [by rewrite He, lookup_insert_eq|done]. }
  destruct Hlaw as (i & Hi & Hd). rewrite He, lookup_insert_eq in Hi. injection Hi as <-. rewrite Hd. case_bool_decide as Hnew; [|].
  - split; [done|]. rewrite He in Hnew |- *. destruct (decide (locate t = locate s)) as [->|Hne]; [done|]. rewrite lookup_insert_ne in Hnew by done.
    destruct (Hok _ _ Hnew). congruence.
  - cbn [with_entries files entries]. split; [done|]. by rewrite He, delete_insert_id.
Qed.

(** What [compiledToFile] does after the calls. *)
Lemma finishFile_runs d0 s tmp path rep ino fd c content offset w : fileSystemRepresentation s = Some tmp -> fileSystemRepresentation path = Some rep ->
  disk_ok d0 -> files d0 !! ino = None -> entries d0 !! locate tmp = None -> client_at d0 (locate tmp) ino fd (disk w) c content offset ->
  (m_fileError c = false -> fileSize (m_metaData c) <> 0) ->
  runs (finishFile fd s path c None) w (λ r w', match r with
    | inl e => e = StoreErrorCode CompileFailed /\ keeps d0 (disk w') /\ (m_fileError c = false -> forall k, ~ capped_system (W := W) k)
    | inr (meta, data) => m_fileError c = false /\ meta = m_metaData c /\ data = MapData (mkMapping ino (fileSize meta)) fd /\ replaced d0 (disk w') (locate rep) content /\ files (disk w') !! ino = Some content
    end).
Proof.
  intros Hs Hrep Hok Hino Hent [Hf He Ho] Hsz. unfold finishFile. destruct (m_fileError c) eqn:Eerr.
  - run_step. apply closeFile_runs. intros w' Hd. run_step. split; [done|]. split; [|done]. eapply (temporary_keeps _ _ _ ino content); [done..| |]; destruct Hd as [-> | ->]; done.
  - destruct (Ho eq_refl) as [_ Hfd]. run_step. eapply runs_mono; [apply (adoptAndMapFile_runs fd (fileSize (m_metaData c)) ino offset w); auto|]. cbn beta.
    intros data w1 [[Hsf Hse] Hdata]. assert (keeps d0 (disk w1)) as Hkeep by (eapply (temporary_keeps _ _ _ ino content); [done..| |]; congruence).
    destruct Hdata as [(-> & _ & Hno) | ->]; cbn [Data_isNull]; [run_step; done|]. run_step.
    eapply runs_mono; [eapply (moveFile_runs _ _ tmp rep w1 ino d0); try done; congruence|]. cbn beta. intros moved w2 [Hf2 He2]. destruct moved; cbn [negb]; run_step.
    + split; [done|]. split; [done|]. split; [done|]. split; [eapply (moved_replaced _ _ _ ino); [done..| |done]; congruence|]. rewrite Hf2, Hsf, Hf. by rewrite lookup_insert_eq.
    + apply releaseData_runs. intros w3 Hsame. run_step. destruct He2 as [He2 Hno]. split; [done|]. split; [|done]. apply (same_files_keeps _ (disk w2)); [|done].
      eapply (temporary_keeps _ _ _ ino content); [done..| |]; congruence.
Qed.

(** The temporary file is opened, and the invalid header is written. *)
Definition headerWritten (w : W) : bool :=
  match openTemporaryFile temporaryPrefix w with
  | Some (w1, (_, handle)) =>
      negb (handle =? invalidPlatformFileHandle) &&
      match writeToFile fuel handle invalidHeader ContentRuleListFileHeaderSize w1 with Some (_, r) => negb (r =? -1) | None => false end
  | None => false
  end.

Section Compile.
Context (json : WString) (rules : list ContentExtensionRule) (path : WString) (rep : list Z) (w : W).
Context (Htmp : temporary_path_is_UTF8 w) (Hpath : fileSystemRepresentation path = Some rep) (Hok : disk_ok (disk w)).

(** The part before the calls, for any calls that [m] makes of them. *)
Lemma compiledToFile_runs calls compilerError (Q : error_code + ContentRuleListMetaData * Data -> W -> Prop) :
  compileRuleListCalls U_GET_GC_MASK unicodeMatchProperty unicodeMatchPropertyValue json rules = Some (calls, compilerError) ->
  (forall w', headerWritten w = false -> keeps (disk w) (disk w') -> (forall k, capped_system (W := W) k -> PATH_MAX <= vec_size (temporaryTemplate temporaryPrefix w)) ->
     Q (inl (StoreErrorCode CompileFailed)) w') ->
  (forall s tmp ino fd w1 first, headerWritten w = true -> fileSystemRepresentation s = Some tmp -> files (disk w) !! ino = None -> entries (disk w) !! locate tmp = None ->
     client_at (disk w) (locate tmp) ino fd (disk w1) (newCompilationClient fd newMetaData) first (vec_size first) -> took (W := W) first invalidHeader ->
     runs (clientCalls fuel (newCompilationClient fd newMetaData) calls) w1 (λ c w2, runs (finishFile fd s path c compilerError) w2 Q)) ->
  runs (to_file json rules path) w Q.
Proof.
  intros Hcalls Hfail Hrest. unfold headerWritten in *. unfold compiledToFile. run_step. eapply runs_mono; [by apply runs_eq, openTemporaryFile_runs|]. cbn beta.
  intros [p handle] w1 [Heq Hopen]. cbn beta iota in Hopen. rewrite Heq in Hfail, Hrest. destruct Hopen as [(-> & Hd & Hno)|(s & tmp & ino & -> & Hs & Hh & Hino & Hent & Hd)].
  { cbn. run_step. apply Hfail; [done| |done]. rewrite Hd. apply disk_keeps_refl. }
  destruct (handle =? _) eqn:E; zbool; [unfold invalidPlatformFileHandle in E; lia|]. cbn [negb andb] in Hfail, Hrest. run_step.
  eapply runs_mono; [apply runs_eq, (invalidHeader_runs (disk w) (locate tmp) ino handle w1)|]; [by rewrite Hd..|rewrite Hd; cbn [descriptors]; by rewrite lookup_insert_eq|].
  cbn beta. intros r w2 (Hw & content & Hf2 & He2 & Hclient). rewrite Hw in Hfail, Hrest. destruct (r =? -1) eqn:Er; cbn [negb] in Hfail, Hrest.
  { run_step. apply closeFile_runs. intros w3 Hd3. run_step. apply Hfail; [done| |by intros k Hk; destruct (Hclient k)].
    eapply (temporary_keeps _ _ _ ino content); [done..| |]; destruct Hd3 as [-> | ->]; done. }
  destruct Hclient as [Hc Hfirst]. run_step. rewrite Hcalls. apply runs_get with (f := λ _, (calls, compilerError)). run_step. cbn [default].
  by eapply (Hrest s tmp ino handle w2 content).
Qed.

Lemma ruleListMetaData_size c : vec_size (ruleListFile json c) < 2 ^ 31 -> fileSize (ruleListMetaData json c) = vec_size (ruleListFile json c).
Proof.
  unfold fileSize, ruleListMetaData, ruleListFile. rewrite fileBytes_size. intros Hsz. cbn. apply uwrap_small. unfold ContentRuleListFileHeaderSize in *. assert (2 ^ 31 < 2 ^ 64) by done.
  pose proof (vec_size_nonneg (sourceBytes json)). pose proof (vec_size_nonneg (compiledActions c)). pose proof (vec_size_nonneg (filtersWithoutConditionsBytecode c)).
  pose proof (vec_size_nonneg (filtersWithConditionsBytecode c)). pose proof (vec_size_nonneg (topURLFiltersBytecode c)). lia.
Qed.

Lemma ruleListFile_header c : ContentRuleListFileHeaderSize <= vec_size (ruleListFile json c).
Proof.
  unfold ruleListFile, fileBytes. rewrite vec_size_app, header_size.
  pose proof (vec_size_nonneg (sourceBytes json ++ compiledActions c ++ filtersWithoutConditionsBytecode c ++ filtersWithConditionsBytecode c ++ topURLFiltersBytecode c)). lia.
Qed.

(** A rule list that compiles is in the file, or nothing has changed for the store. *)
Lemma compiledToFile_success c : compile_rules rules = Some (inr c) -> vec_size (ruleListFile json c) < 2 ^ 31 ->
  runs (to_file json rules path) w (λ r w', match r with
    | inl e => e = StoreErrorCode CompileFailed /\ keeps (disk w) (disk w') /\ (forall k, capped_system (W := W) k -> PATH_MAX <= vec_size (temporaryTemplate temporaryPrefix w))
    | inr (meta, data) => meta = ruleListMetaData json c /\ exists content, list_written W json c content /\ replaced (disk w) (disk w') (locate rep) content /\
        forall d, extends (disk w') d -> Data_bytes d data = content
    end).
Proof.
  intros Hc Hsz. destruct (compileRuleListCalls_success _ _ _ json rules c Hc) as (without & with_ & top & Hcalls & E1 & E2 & E3). pose proof (ruleListMetaData_size c Hsz) as Hfs.
  eapply (compiledToFile_runs _ _ _ Hcalls); [done|]. intros s tmp ino fd w1 first _ Hs Hino Hent Hclient Hfirst.
  eapply runs_mono; [apply (compilation_runs fuel Hfuel (disk w) (locate tmp) ino fd w1 first json _ _ without with_ top Hclient Hfirst); by rewrite E1, E2, E3|].
  cbn beta. intros c' w2 (content & offset & Hc' & Hok' & Hcap). rewrite E1, E2, E3 in Hok'. fold (ruleListMetaData json c) in Hok'.
  eapply runs_mono; [eapply (finishFile_runs (disk w) s tmp path rep ino fd c' content offset w2); try done|].
  - intros He. destruct (Hok' He) as [_ ->]. rewrite Hfs. pose proof (ruleListFile_header c). unfold ContentRuleListFileHeaderSize in *. lia.
  - cbn beta. intros [e|[meta data]] w3.
    + intros (-> & Hk & Hno). split; [done|]. split; [done|]. intros k Hcapped. by destruct (Hno (Hcap k Hcapped) k).
    + intros (He & -> & -> & Hrep & Hfile). destruct (Hok' He) as [Hw Hm]. rewrite Hm in Hw |- *. split; [done|].
      pose proof (file_written_list json c without with_ top content E1 E2 E3 Hw) as Hlist. exists content. split; [done|]. split; [done|]. intros d Hd.
      cbn [Data_bytes]. unfold mapped_bytes. cbn [mapping_size mapping_inode]. rewrite (Hd _ _ Hfile), Hfs. cbn [default]. apply take_ge.
      pose proof (lw_size json c content Hlist). unfold vec_size in *. lia.
Qed.

(** Rules that do not compile leave the store as it was; the error is that of the
    compiler if the file could be begun. *)
Lemma compiledToFile_error e : compile_rules rules = Some (inl e) ->
  (forall locations acts, serializeActions rules = Some (locations, acts) -> vec_size (sourceBytes json) + vec_size acts < 2 ^ 31) ->
  runs (to_file json rules path) w (λ r w', r = inl (if headerWritten w then CompilerError e else StoreErrorCode CompileFailed) /\ keeps (disk w) (disk w')).
Proof.
  intros Hc Hsz. destruct (compileRuleListCalls_error _ _ _ json rules e Hc) as (calls & Hcalls & Hbody & Hlen).
  eapply (compiledToFile_runs _ _ _ Hcalls); [by intros w' -> Hk _|]. intros s tmp ino fd w1 first -> Hs Hino Hent Hclient _.
  eapply runs_mono; [eapply (clientCalls_runs fuel Hfuel (disk w) (locate tmp) ino fd calls Hbody); [exact Hclient|]|].
  - destruct (serializeActions rules) as [[locations acts]|] eqn:Es; [specialize (Hsz _ _ eq_refl); specialize (Hlen _ _ eq_refl); lia|].
    unfold compileRuleListCalls in Hcalls. rewrite Es in Hcalls. destruct (_ && _); [injection Hcalls as <- _; done|discriminate].
  - cbn beta. intros c' w2 [(content' & offset' & [Hf He Ho] & _) _]. unfold finishFile. run_step. apply closeFile_runs. intros w3 Hd. run_step. split; [done|].
    eapply (temporary_keeps _ _ _ ino content'); [done..| |]; destruct Hd as [-> | ->]; done.
Qed.
End Compile.

End Store.

(** ** Looking up *)

Section Lookup.
Context {W : Type} `{POSIX W}.
Implicit Types w : W.

(** What is opened is decoded. *)
Lemma openAndMapContentRuleList_decodes path rep bytes w : fileSystemRepresentation path = Some rep -> stored (disk w) (locate rep) = Some bytes -> bytes <> [] ->
  runs (openAndMapContentRuleList path) w (λ r w', same_files (disk w) (disk w') /\
    ((r = None /\ ~ reads_succeed (W := W)) \/ match decodeContentRuleListMetaData bytes with
      | Some m => exists data, r = Some (m, data) /\ Data_bytes (disk w') data = bytes
      | None => r = None
      end)).
Proof.
  intros Hrep Hst Hne. unfold openAndMapContentRuleList. run_step. eapply runs_lift; [done|]. run_step.
  eapply runs_mono; [by apply (mapFile_runs rep _ w Hst Hne)|]. cbn beta. intros data w1 [Hsame [[-> Hno]|(ino & fd & -> & Hino)]]; cbn [Data_isNull].
  { run_step. split; [done|]. by left. }
  run_step. apply runs_get. assert (Data_bytes (disk w1) (MapData (mkMapping ino (vec_size bytes)) fd) = bytes) as Hb.
  { cbn [Data_bytes]. unfold mapped_bytes. cbn [mapping_size mapping_inode]. destruct Hsame as [-> _]. rewrite Hino. cbn [default]. unfold vec_size. rewrite Nat2Z.id. apply firstn_all. }
  rewrite Hb. destruct (decodeContentRuleListMetaData bytes) as [m|]; run_step; [split; [done|]; right; by eexists|].
  apply releaseData_runs. intros w2 Hsame2. run_step. split; [by etrans|by right].
Qed.

Lemma openAndMapContentRuleList_runs path rep m rest w : fileSystemRepresentation path = Some rep -> metaData_ok m ->
  stored (disk w) (locate rep) = Some (encodeContentRuleListMetaData m ++ rest) ->
  runs (openAndMapContentRuleList path) w (λ r w', same_files (disk w) (disk w') /\
    ((r = None /\ ~ reads_succeed (W := W)) \/ exists data, r = Some (m, data) /\ Data_bytes (disk w') data = encodeContentRuleListMetaData m ++ rest)).
Proof.
  intros Hrep Hm Hst. eapply runs_mono; [apply (openAndMapContentRuleList_decodes path rep _ w Hrep Hst)|].
  - intros Hnil. apply (f_equal vec_size) in Hnil. rewrite vec_size_app, header_size in Hnil. pose proof (vec_size_nonneg rest). unfold ContentRuleListFileHeaderSize in Hnil. change (vec_size []) with 0 in Hnil. lia.
  - cbn beta. by rewrite decode_header.
Qed.

Lemma openAndMapContentRuleList_empty path rep w : fileSystemRepresentation path = Some rep -> stored (disk w) (locate rep) = Some [] ->
  runs (openAndMapContentRuleList path) w (λ r w', r = None).
Proof.
  intros Hrep Hst. unfold openAndMapContentRuleList. run_step. eapply runs_lift; [done|]. run_step.
  eapply runs_mono; [by apply mapFile_empty|]. cbn beta. intros data w1 [_ [-> | ->]]; cbn [Data_isNull]; run_step; [done|]. apply runs_get. apply runs_bind, releaseData_runs. intros w2 _. by apply (runs_ret None w2).
Qed.

Lemma openAndMapContentRuleList_missing path rep w : fileSystemRepresentation path = Some rep -> entries (disk w) !! locate rep = None ->
  runs (openAndMapContentRuleList path) w (λ r w', r = None /\ disk w' = disk w).
Proof.
  intros Hrep Hent. unfold openAndMapContentRuleList. run_step. eapply runs_lift; [done|]. run_step.
  eapply runs_mono; [by apply mapFile_missing|]. cbn beta. intros data w1 [-> Hd]. cbn [Data_isNull]. by run_step.
Qed.

Lemma same_files_bytes d d' data : same_files d d' -> Data_bytes d' data = Data_bytes d data.
Proof. intros [Hf _]. destruct data; try done. cbn [Data_bytes]. unfold mapped_bytes. by rewrite Hf. Qed.

Lemma same_files_extension d d' l : same_files d d' -> compiledExtension d' l = compiledExtension d l.
Proof.
  intros Hd. unfold compiledExtension, filtersWithoutConditionsBytecode_of, filtersWithConditionsBytecode_of, topURLFiltersBytecode_of, conditionsApplyOnlyToDomain_of, actions_of_list.
  by rewrite !(same_files_bytes d d' _ Hd).
Qed.

(** The path of an identifier, as the system gets it. *)
Definition pathOf (store : ContentRuleListStore) (identifier : WString) : option (list Z) :=
  fileSystemRepresentation (constructedPath (m_storePath store) identifier (m_legacyFilename store)).

Lemma lookup_runs store identifier rep json c w : pathOf store identifier = Some rep -> vec_size (ruleListFile json c) < 2 ^ 31 ->
  stored (disk w) (locate rep) = Some (ruleListFile json c) ->
  runs (lookupContentRuleList store identifier) w (λ r w', same_files (disk w) (disk w') /\
    match r with
    | inr l => m_name l = identifier /\ compiledExtension (disk w') l = Some c
    | inl e => e = StoreErrorCode LookupFailed /\ ~ reads_succeed (W := W)
    end).
Proof.
  intros Hrep Hsz Hst. unfold lookupContentRuleList. run_step.
  eapply runs_mono; [exact (openAndMapContentRuleList_runs _ rep (ruleListMetaData json c) _ w Hrep (fileMetaData_ok _ _ _ _ _ _ Hsz) Hst)|].
  cbn beta. intros r w1 [Hsame [[-> Hno]|(data & -> & Hb)]]; [run_step; done|]. change (negb _) with false. cbn iota. run_step. split; [done|]. split; [done|].
  unfold ruleListMetaData. rewrite compiledExtension_file; [by destruct c|exact Hb|exact Hsz].
Qed.

(** A file that is shorter than its header says is found too, and cannot be used. *)
Lemma lookup_short store identifier rep json c content w : pathOf store identifier = Some rep -> vec_size (ruleListFile json c) < 2 ^ 31 ->
  stored (disk w) (locate rep) = Some content -> encodeContentRuleListMetaData (ruleListMetaData json c) `prefix_of` content -> vec_size content < vec_size (ruleListFile json c) ->
  runs (lookupContentRuleList store identifier) w (λ r w', match r with
    | inr l => m_name l = identifier /\ compiledExtension (disk w') l = None
    | inl e => e = StoreErrorCode LookupFailed /\ ~ reads_succeed (W := W)
    end).
Proof.
  intros Hrep Hsz Hst [rest ->] Hshort. unfold lookupContentRuleList. run_step.
  eapply runs_mono; [exact (openAndMapContentRuleList_runs _ rep (ruleListMetaData json c) _ w Hrep (fileMetaData_ok _ _ _ _ _ _ Hsz) Hst)|].
  cbn beta. intros r w1 [Hsame [[-> Hno]|(data & -> & Hb)]]; [run_step; done|]. change (negb _) with false. cbn iota. run_step. split; [done|].
  unfold ruleListMetaData. apply compiledExtension_short; [by rewrite Hb|exact Hsz].
Qed.

Lemma units16_le (l : list Z) : Forall unit_ok l -> units16 (concat (le_bytes 2 <$> l)) = l.
Proof.
  induction 1 as [|u l Hu _ IH]; [done|]. cbn [fmap list_fmap concat]. change (le_bytes 2 u) with [u mod 256; u / 256 mod 256]. cbn [app units16]. rewrite IH. f_equal.
  change (le_value [u mod 256; u / 256 mod 256]) with (u mod 256 + 256 * (u / 256 mod 256 + 256 * 0)). unfold unit_ok in Hu. divlia.
Qed.

(** The source that a file begins with. *)
Lemma sourceInFile_source json h rest : vec_size h = ContentRuleListFileHeaderSize -> vec_size (sourceBytes json) < 2 ^ 31 ->
  (if is8Bit json then Forall is_byte (characters json) else Forall unit_ok (characters json)) ->
  sourceInFile (h ++ sourceBytes json ++ rest) (vec_size (sourceBytes json)) = Some (Some json).
Proof.
  intros Hh Hlen Hok. unfold sourceInFile. assert (vec_size (sourceBytes json) = 1 + vec_size (characterBytes json)) as Hs by (change (sourceBytes json) with ([if is8Bit json then 1 else 0] ++ characterBytes json); by rewrite vec_size_app).
  pose proof (vec_size_nonneg (characterBytes json)). destruct (_ =? 0) eqn:E; zbool; [lia|].
  rewrite (read_part h [if is8Bit json then 1 else 0] (characterBytes json ++ rest)) by done. cbn [mbind option_bind].
  replace (vec_size (sourceBytes json) - 1) with (vec_size (characterBytes json)) by lia. assert (2 ^ 31 < 2 ^ 32 /\ 2 ^ 32 < 2 ^ 64) as [] by done.
  rewrite (uwrap_small 64) by lia. rewrite !(uwrap_small 32) by (try lia; divlia). unfold characterBytes in *. destruct json as [[] cs]; cbn [is8Bit characters] in *.
  - change (negb (bool_decide ([1] = [0]))) with true. cbn iota. rewrite (read_part (h ++ [1]) (u8 <$> cs) rest) by (rewrite ?vec_size_app, ?Hh; by rewrite <- ?app_assoc).
    cbn [mbind option_bind]. repeat f_equal. clear -Hok. induction Hok as [|b cs Hb _ IH]; [done|]. cbn [fmap list_fmap]. unfold is_byte in Hb. rewrite IH. by rewrite uwrap_small by (simpl; lia).
  - change (negb (bool_decide ([0] = [0]))) with false. cbn iota.
    assert (vec_size (concat (le_bytes 2 <$> cs)) = 2 * vec_size cs) as Hsz.
    { clear. induction cs as [|u cs IH]; [done|]. cbn [fmap list_fmap concat]. rewrite vec_size_app, IH, vec_size_le_bytes. change (u :: cs) with ([u] ++ cs). rewrite vec_size_app. change (vec_size [u]) with 1. lia. }
    rewrite Hsz. replace (2 * (2 * vec_size cs / 2)) with (vec_size (concat (le_bytes 2 <$> cs))) by (rewrite Hsz; divlia).
    rewrite (read_part (h ++ [0]) (concat (le_bytes 2 <$> cs)) rest) by (rewrite ?vec_size_app, ?Hh; by rewrite <- ?app_assoc).
    cbn [mbind option_bind]. by rewrite units16_le.
Qed.

(** The JSON text is a string of its width. *)
Definition json_ok (json : WString) : Prop := if is8Bit json then Forall is_byte (characters json) else Forall unit_ok (characters json).

Lemma source_runs store identifier rep json c w : pathOf store identifier = Some rep -> vec_size (ruleListFile json c) < 2 ^ 31 -> json_ok json ->
  stored (disk w) (locate rep) = Some (ruleListFile json c) ->
  runs (getContentRuleListSource store identifier) w (λ s w', same_files (disk w) (disk w') /\ (s = Some json \/ s = None /\ ~ reads_succeed (W := W))).
Proof.
  intros Hrep Hsz Hjson Hst. unfold getContentRuleListSource. run_step.
  eapply runs_mono; [exact (openAndMapContentRuleList_runs _ rep (ruleListMetaData json c) _ w Hrep (fileMetaData_ok _ _ _ _ _ _ Hsz) Hst)|].
  cbn beta. intros r w1 [Hsame [[-> Hno]|(data & -> & Hb)]]; [run_step; split; [done|by right]|]. change ((version _ =? 9) || _) with true. cbn iota.
  run_step. exists w1, (Some json). split; [|run_step; apply releaseData_runs; intros w2 Hsame2; run_step; split; [by etrans|by left]].
  rewrite Hb. change (sourceSize (ruleListMetaData json c)) with (vec_size (sourceBytes json)). rewrite sourceInFile_source; [done|apply header_size| |done].
  unfold ruleListFile in Hsz. rewrite fileBytes_size in Hsz. unfold ContentRuleListFileHeaderSize in Hsz. pose proof (vec_size_nonneg (compiledActions c)).
  pose proof (vec_size_nonneg (filtersWithoutConditionsBytecode c)). pose proof (vec_size_nonneg (filtersWithConditionsBytecode c)). pose proof (vec_size_nonneg (topURLFiltersBytecode c)). lia.
Qed.

(** ** Removing and invalidating *)

Lemma deleteFile_runs path rep w : fileSystemRepresentation path = Some rep ->
  runs (deleteFile path) w (λ ok w', files (disk w') = files (disk w) /\
    if ok then entries (disk w') = delete (locate rep) (entries (disk w)) else entries (disk w') = entries (disk w)).
Proof.
  intros Hrep. unfold deleteFile. run_step. eapply runs_lift; [done|]. destruct (_ || _); [by run_step|]. run_step. apply runs_call. intros w' r Hu.
  pose proof (unlink_law _ _ _ _ Hu) as Hlaw. run_step. destruct (r =? 0); [|by rewrite Hlaw]. destruct Hlaw as [_ ->]. done.
Qed.

(** A file that was invalidated has a part of the invalid header, if it was opened. *)
Lemma invalidate_runs fuel padding1 padding2 store identifier rep w : writes_end (W := W) fuel -> pathOf store identifier = Some rep ->
  runs (invalidateContentRuleListVersion fuel padding1 padding2 store identifier) w (λ _ w', disk w' = disk w \/
    exists content, stored (disk w') (locate rep) = Some content /\ content `prefix_of` invalidMetaData padding1 padding2).
Proof.
  intros Hend Hrep. unfold invalidateContentRuleListVersion, openFile. run_step. apply runs_bind. eapply runs_lift; [exact Hrep|]. apply runs_call.
  intros w1 fd Hopen. pose proof (open_write_law _ _ _ _ Hopen) as Hlaw. destruct (fd <? 0) eqn:Efd; zbool.
  { destruct Hlaw as [-> Hd]. cbn. run_step. by left. }
  destruct Hlaw as (ino & _ & _ & Hd). destruct (fd =? _) eqn:E; zbool; [unfold invalidPlatformFileHandle in E; lia|]. run_step.
  eapply runs_mono; [by apply writeToFile_runs|]. cbn beta. intros r w2 Hr. run_step. apply closeFile_runs. intros w3 Hd3. run_step. right.
  assert (stored (disk w3) (locate rep) = stored (disk w2) (locate rep)) as -> by (by destruct Hd3 as [-> | ->]).
  destruct Hr as [(_ & Hd2 & _)|(ino2 & o & old & written & _ & Hw & Hfd & Hold & Hd2)].
  - exists []. rewrite Hd2, Hd. unfold stored. cbn [entries files]. rewrite lookup_insert_eq. cbn [mbind option_bind]. rewrite lookup_insert_eq. split; [done|apply prefix_nil].
  - rewrite Hd in Hfd, Hold, Hd2. cbn in Hfd, Hold, Hd2. rewrite lookup_insert_eq in Hfd. injection Hfd as <- <-. rewrite lookup_insert_eq in Hold. injection Hold as <-.
    exists written. split; [|apply Hw]. rewrite Hd2. unfold stored. cbn [entries files]. rewrite lookup_insert_eq. cbn [mbind option_bind]. rewrite lookup_insert_eq, overwrite_0, drop_nil, app_nil_r. done.
Qed.

(** A part of the invalid header is no header, or one of the version zero. *)
Lemma invalid_version padding1 padding2 content m : content `prefix_of` invalidMetaData padding1 padding2 -> decodeContentRuleListMetaData content = Some m -> version m = 0.
Proof.
  intros [rest Hrest] Hm. assert (4 <= vec_size content) as Hlen.
  { unfold decodeContentRuleListMetaData in Hm. destruct (_ =? 0); [discriminate|]. apply bind_Some in Hm as ([v b] & Hv & _). unfold decodeNumber, bufferIsLargeEnoughToContain in Hv.
    destruct (_ <=? _) eqn:E; [|discriminate]. by zbool. }
  assert (version m = le_value (take 4 content)) as ->.
  { unfold decodeContentRuleListMetaData in Hm. destruct (_ =? 0); [discriminate|]. rewrite (decodeNumber_some 4 content) in Hm by lia. cbn [mbind option_bind] in Hm.
    do 6 (apply bind_Some in Hm as ([? ?] & _ & Hm)). by injection Hm as <-. }
  apply (f_equal (take 4)) in Hrest. unfold invalidMetaData in Hrest. rewrite (take_app_le content) in Hrest by (unfold vec_size in Hlen; lia). by rewrite <- Hrest.
Qed.
End Lookup.
