(* ===== verification/RuleListIdentifiers.v ===== *)
(** * The identifiers of a store

    The path of an identifier, and the listing of a directory: every rule list that
    is stored is among the identifiers that the store reports, and two identifiers
    have two paths. *)

From stdpp Require Import base numbers option list list_numbers gmap.
From Stdlib Require Import ZArith Lia.
From S2P Require Import Prelude.
From S2P Require Import YarrReading.
From S2P Require Import ContentExtensionRule.
From S2P Require Import UTF8Conversion.
From S2P Require Import FileNames.
From S2P Require Import FileSystem.
From S2P Require Import FileSystemProof.
From S2P Require Import SimulatedOS.
From S2P Require Import RuleListStore.
From S2P Require Import RuleListStoreProof.

(** ** The path *)

(** The directory of the store has a name, which does not end in a slash. *)
Definition store_ok (store : ContentRuleListStore) : Prop := string_ok (m_storePath store) /\ last (characters (m_storePath store)) <> Some slash.

Abbreviation prefixOf store := (characters (constructedPathPrefix (m_legacyFilename store))).

Lemma concatenate_ok a b : string_ok a -> string_ok b -> string_ok (concatenate a b).
Proof.
  intros Ha Hb. destruct (string_text a Ha) as (ta & Hta & Ea). destruct (string_text b Hb) as (tb & Htb & Eb). unfold string_ok in *. cbn [concatenate is8Bit characters].
  destruct (is8Bit a) eqn:E8a, (is8Bit b) eqn:E8b; cbn [andb]; [by apply Forall_app_2|..]; rewrite Ea, Eb, <- concat_app, <- fmap_app; by apply text_isUTF16, Forall_app_2.
Qed.

Lemma prefix_ok legacy : string_ok (constructedPathPrefix legacy) /\ Forall (λ c, safe_character c /\ c < 128) (characters (constructedPathPrefix legacy)).
Proof.
  assert (forall l, forallb safe_ascii l = true -> Forall is_byte l /\ Forall (λ c, safe_character c /\ c < 128) l) as H.
  { induction l as [|c l IH]; [done|]. cbn [forallb]. intros [Hc Hl]%andb_true_iff. destruct (IH Hl). apply safe_ascii_sound in Hc as [[Hr Hs] Hlt]. unfold is_byte.
    split; constructor; try done; lia. }
  destruct legacy; (split; [apply H; by vm_compute|apply H; by vm_compute]).
Qed.

Lemma constructedPath_eq store identifier : store_ok store ->
  constructedPath (m_storePath store) identifier (m_legacyFilename store) =
    concatenate (concatenate (m_storePath store) (mkWString true [slash])) (concatenate (constructedPathPrefix (m_legacyFilename store)) (encodeForFileName identifier)).
Proof. intros [_ Hlast]. unfold constructedPath, pathByAppendingComponent. by rewrite bool_decide_false. Qed.

Lemma slash_ok : string_ok (mkWString true [slash]).
Proof. unfold string_ok, is_byte, slash. cbn. constructor; [lia|done]. Qed.

(** An ASCII string is its own text. *)
Lemma ascii_text_eq l : Forall (λ c, safe_character c /\ c < 128) l -> Forall scalar l /\ concat (utf8_of <$> l) = l /\ concat (utf16_of <$> l) = l.
Proof.
  induction 1 as [|c l [[Hc _] Hlt] _ (IH1 & IH2 & IH3)]; [done|]. split; [constructor; [unfold scalar; lia|done]|]. cbn [fmap list_fmap concat]. unfold utf8_of at 1, utf16_of at 1.
  destruct (c <? 0x80) eqn:E1; zbool; [|lia]. destruct (c <? 0x10000) eqn:E2; zbool; [|lia]. split; cbn [app]; by f_equal.
Qed.

(** The parts of the path of an identifier. *)
Lemma pathOf_parts store identifier rep : store_ok store -> Forall unit_ok (characters identifier) -> pathOf store identifier = Some rep ->
  exists base text, Forall scalar base /\ characters (m_storePath store) = concat (utf16_of <$> base) /\ Forall scalar text /\
    characters (encodeForFileName identifier) = concat (utf16_of <$> text) /\ utf8 (m_storePath store) = Some (concat (utf8_of <$> base)) /\
    rep = concat (utf8_of <$> base) ++ [slash] ++ prefixOf store ++ concat (utf8_of <$> text) /\ vec_size rep <= MaxLength.
Proof.
  intros Hst Hid Hrep. unfold pathOf, fileSystemRepresentation in Hrep. rewrite constructedPath_eq in Hrep by done. destruct Hst as [Hbase _].
  destruct (prefix_ok (m_legacyFilename store)) as [Hpok Hpsafe]. destruct (ascii_text_eq _ Hpsafe) as (Hps & Hp8 & Hp16).
  pose proof (encodeForFileName_ok identifier Hid) as Henc. destruct (string_text _ Hbase) as (base & Hbs & Hb16). destruct (string_text _ Henc) as (text & Hts & Ht16).
  match type of Hrep with utf8 ?s = _ => set (whole := s) in * end.
  assert (string_ok whole) as Hok by (repeat apply concatenate_ok; done || apply slash_ok).
  assert (vec_size (characters whole) <= MaxLength / 3) as Hlen.
  { unfold utf8 in Hrep. destruct (vec_size (characters whole) =? 0) eqn:E0; zbool; [rewrite E0; done|]. destruct (_ <? _) eqn:E; zbool; [discriminate|done]. }
  exists base, text. split; [done|]. split; [done|]. split; [done|]. split; [done|]. split.
  - apply utf8_of_text; [done..|]. revert Hlen. unfold whole. cbn [concatenate characters]. rewrite !vec_size_app. pose proof (vec_size_nonneg (characters (encodeForFileName identifier))).
    pose proof (vec_size_nonneg (prefixOf store)). change (vec_size [slash]) with 1. lia.
  - assert (characters whole = concat (utf16_of <$> (base ++ [slash] ++ prefixOf store ++ text))) as H16.
    { unfold whole. cbn [concatenate characters]. rewrite !fmap_app, !concat_app, Hp16, Hb16, Ht16. cbn [fmap list_fmap concat]. change (utf16_of slash) with [slash]. rewrite app_nil_r. by rewrite <- !app_assoc. }
    assert (utf8 whole = Some (concat (utf8_of <$> (base ++ [slash] ++ prefixOf store ++ text)))) as Hw.
    { apply utf8_of_text; [done| |done|done]. repeat apply Forall_app_2; try done. constructor; [unfold scalar, slash; lia|done]. }
    assert (rep = concat (utf8_of <$> (base ++ [slash] ++ prefixOf store ++ text))) as -> by congruence. split.
    + rewrite !fmap_app, !concat_app, Hp8. cbn [fmap list_fmap concat]. change (utf8_of slash) with [slash]. by rewrite app_nil_r.
    + pose proof (concat_sizes (base ++ [slash] ++ prefixOf store ++ text)) as Hsizes. rewrite <- H16 in Hsizes. unfold MaxLength, INT32_MAX in *. divlia.
Qed.

(** UTF-8 does not forget. *)
Lemma utf8_text_injective t t' : Forall scalar t -> Forall scalar t' -> vec_size (concat (utf8_of <$> t)) <= MaxLength ->
  concat (utf8_of <$> t) = concat (utf8_of <$> t') -> concat (utf16_of <$> t) = concat (utf16_of <$> t').
Proof.
  intros Ht Ht' Hlen Heq. destruct (fromUTF8_text t Ht Hlen) as (s & Hs & <-). destruct (fromUTF8_text t' Ht') as (s' & Hs' & <-); [by rewrite <- Heq|]. congruence.
Qed.

Lemma pathOf_injective_sound store identifier identifier' rep : store_ok store -> Forall unit_ok (characters identifier) -> Forall unit_ok (characters identifier') ->
  pathOf store identifier = Some rep -> pathOf store identifier' = Some rep -> characters identifier = characters identifier'.
Proof.
  intros Hst Hid Hid' Hp Hp'. destruct (pathOf_parts store identifier rep Hst Hid Hp) as (base & text & _ & _ & Ht & Ht16 & Hb & Hrep & Hlen).
  destruct (pathOf_parts store identifier' rep Hst Hid' Hp') as (base' & text' & _ & _ & Ht' & Ht16' & Hb' & Hrep' & _).
  rewrite Hb in Hb'. injection Hb' as Hbase. rewrite <- Hbase, Hrep in Hrep'. do 3 apply app_inv_head in Hrep'.
  apply utf8_text_injective in Hrep'; [|done..|]. 2: { rewrite Hrep in Hlen. rewrite !vec_size_app in Hlen. pose proof (vec_size_nonneg (concat (utf8_of <$> base))).
    pose proof (vec_size_nonneg (prefixOf store)). change (vec_size [slash]) with 1 in Hlen. lia. }
  rewrite <- Ht16, <- Ht16' in Hrep'. destruct (decodeFromFilename_sound identifier (encodeForFileName identifier) Hid eq_refl) as (s & Hs & Hc).
  destruct (decodeFromFilename_sound identifier' (encodeForFileName identifier) Hid' Hrep') as (s' & Hs' & Hc'). congruence.
Qed.

(** ** The last component *)

Lemma reverseFind_none s c : c ∉ s -> forall index found, reverseFind s c index found = found.
Proof.
  induction s as [|d s IH]; intros Hin index found; [done|]. cbn [reverseFind]. rewrite not_elem_of_cons in Hin. destruct Hin as [Hne Hin].
  rewrite IH by done. destruct (d =? c) eqn:E; zbool; congruence.
Qed.

Lemma reverseFind_last a b c : c ∉ b -> forall index found, reverseFind (a ++ c :: b) c index found = index + vec_size a.
Proof.
  intros Hb. induction a as [|d a IH]; intros index found; cbn [app reverseFind].
  - rewrite reverseFind_none, Z.eqb_refl by done. change (vec_size []) with 0. lia.
  - rewrite IH. change (d :: a) with ([d] ++ a). rewrite vec_size_app. change (vec_size [d]) with 1. lia.
Qed.

Lemma safe_no_slash l : Forall safe_character l -> slash ∉ l.
Proof. intros H Hin. rewrite Forall_forall in H. destruct (H _ Hin) as [_ Hc]. apply Hc. unfold special_characters, slash. do 3 right. left. Qed.

(** ** Listing *)

Section Listing.
Context {W : Type} `{POSIX W}.
Implicit Types w : W.

(** What passes the checks is listed, and nothing crashes. *)
Lemma listNames_lists cpath cfilter names : exists l, listNames cpath cfilter names = Some l /\
  forall name s, name ∈ names -> name <> [46] -> name <> [46; 46] -> sys_fnmatch cfilter name = 0 -> vec_size (pathInDirectory cpath name) <= PATH_MAX - 1 ->
    fromUTF8 (pathInDirectory cpath name) = Some (Some s) -> s ∈ l.
Proof.
  induction names as [|name names IH]; [exists []; split; [done|]; intros ? ? Hin; by apply elem_of_nil in Hin|].
  destruct IH as (l & Hl & IH). cbn [listNames]. rewrite Hl. cbn [mbind option_bind]. destruct (_ || _) eqn:Edot.
  { exists l. split; [done|]. intros n s Hin Hd1 Hd2. apply elem_of_cons in Hin as [->|Hin]; [|by apply IH].
    apply orb_true_iff in Edot as [Ed|Ed]; apply bool_decide_eq_true in Ed; done. }
  destruct (sys_fnmatch cfilter name =? 0) eqn:Ef; cbn [negb]; zbool.
  2: { exists l. split; [done|]. intros n s Hin Hd1 Hd2 Hd3. apply elem_of_cons in Hin as [->|Hin]; [done|by apply IH]. }
  destruct (PATH_MAX - 1 <? _) eqn:El; zbool.
  { exists l. split; [done|]. intros n s Hin Hd1 Hd2 Hd3 Hd4. apply elem_of_cons in Hin as [->|Hin]; [lia|by apply IH]. }
  destruct (fromUTF8_total (pathInDirectory cpath name)) as [r Hr]; [unfold PATH_MAX, MaxLength, INT32_MAX in *; lia|]. rewrite Hr. cbn [mbind option_bind]. eexists. split; [done|].
  intros n s Hin Hd1 Hd2 Hd3 Hd4 Hd5. apply elem_of_cons in Hin as [->|Hin].
  - rewrite Hr in Hd5. injection Hd5 as ->. by left.
  - specialize (IH n s Hin Hd1 Hd2 Hd3 Hd4 Hd5). destruct r; [by right|done].
Qed.

(** The directory can be read. *)
Definition readdir_succeeds : Prop := forall path w w' r, sys_readdir path w = (w', r) -> is_Some r.

Lemma filter_bytes legacy : utf8 (constructedPathFilter legacy) = Some (characters (constructedPathPrefix legacy) ++ [42]) /\
  Forall (λ c, c ∉ [42; 63; 91; 92]) (characters (constructedPathPrefix legacy)).
Proof.
  split; [by destruct legacy; vm_compute|].
  assert (forall l, forallb (λ c, negb (bool_decide (c ∈ [42; 63; 91; 92]))) l = true -> Forall (λ c, c ∉ [42; 63; 91; 92]) l) as H'.
  { induction l as [|c l IH]; [done|]. cbn [forallb]. intros Hl. zbool. apply bool_decide_eq_false in H1. by constructor; [|apply IH]. }
  apply H'. by destruct legacy; vm_compute.
Qed.

Lemma getAvailable_runs store identifier rep w : store_ok store -> Forall unit_ok (characters identifier) -> pathOf store identifier = Some rep ->
  vec_size rep <= PATH_MAX - 1 -> is_Some (entries (disk w) !! locate rep) ->
  runs (getAvailableContentRuleListIdentifiers store) w (λ l w', disk w' = disk w /\
    (readdir_succeeds -> exists s, Some s ∈ l /\ characters s = characters identifier)).
Proof.
  intros Hst Hid Hrep Hlen Hent. destruct (pathOf_parts store identifier rep Hst Hid Hrep) as (base & text & Hbs & Hb16 & Hts & Ht16 & Hbase & -> & _).
  set (name := prefixOf store ++ concat (utf8_of <$> text)) in *. destruct (filter_bytes (m_legacyFilename store)) as [Hfilter Hplain].
  destruct (prefix_ok (m_legacyFilename store)) as [_ Hpsafe]. destruct (ascii_text_eq _ Hpsafe) as (Hps & Hp8 & Hp16).
  assert (Forall safe_character (characters (encodeForFileName identifier))) as Hsafe by (rewrite characters_encodeForFileName; by apply encoded_all_safe).
  assert (slash ∉ prefixOf store) as Hpslash by (apply safe_no_slash; eapply Forall_impl; [exact Hpsafe|]; by intros x []).
  assert (slash ∉ name) as Hslash.
  { unfold name. rewrite not_elem_of_app. split; [done|]. intros Hin. apply ascii_in_text in Hin; [|done|done]. rewrite <- Ht16 in Hin. by apply safe_no_slash in Hin. }
  assert (name ∉ [[]; [46]; [46; 46]]) as Hdots by (unfold name; destruct (m_legacyFilename store); rewrite !not_elem_of_cons; repeat split; first [done|apply not_elem_of_nil]).
  unfold getAvailableContentRuleListIdentifiers, listDirectory. apply runs_bind, runs_bind. eapply runs_lift; [exact Hbase|]. apply runs_bind. eapply runs_lift; [exact Hfilter|].
  apply runs_bind, runs_call. intros w' r Hr. destruct (readdir_law _ _ _ _ Hr) as [Hd Hnames]. destruct r as [names|].
  2: { apply runs_ret. run_step. split; [done|]. intros Hs. by destruct (Hs _ _ _ _ Hr). }
  destruct (listNames_lists (concat (utf8_of <$> base)) (prefixOf store ++ [42]) names) as (l & Hl & Hin). eapply runs_lift; [exact Hl|]. run_step. split; [done|]. intros _.
  assert (concat (utf8_of <$> (base ++ [slash] ++ prefixOf store ++ text)) = pathInDirectory (concat (utf8_of <$> base)) name) as Hwhole.
  { unfold pathInDirectory, name. rewrite !fmap_app, !concat_app, Hp8. cbn [fmap list_fmap concat]. change (utf8_of slash) with [slash]. by rewrite app_nil_r. }
  destruct (fromUTF8_text (base ++ [slash] ++ prefixOf store ++ text)) as (s & Hs & Hchars).
  { repeat apply Forall_app_2; try done. constructor; [unfold scalar, slash; lia|done]. }
  { rewrite Hwhole. unfold pathInDirectory, PATH_MAX, MaxLength, INT32_MAX in *. lia. }
  rewrite Hwhole in Hs. assert (s ∈ l) as Hsl.
  { apply (Hin name s); [by apply (Hnames names eq_refl)| | | | |done]; [rewrite !not_elem_of_cons in Hdots; tauto..| |done].
    apply fnmatch_law; [done|]. by exists (concat (utf8_of <$> text)). }
  rewrite !fmap_app, !concat_app, Hp16, <- Hb16, <- Ht16 in Hchars. cbn [fmap list_fmap concat] in Hchars. change (utf16_of slash) with [slash] in Hchars. rewrite app_nil_r in Hchars.
  assert (characters (nameAfterPrefix (vec_size (prefixOf store)) s) = characters (encodeForFileName identifier)) as Hname.
  { cbn [nameAfterPrefix characters]. rewrite Hchars. change ([slash] ++ ?x) with (slash :: x). rewrite reverseFind_last.
    - replace (0 + _ + 1 + _) with (vec_size (characters (m_storePath store) ++ slash :: prefixOf store)) by (rewrite vec_size_app; change (slash :: prefixOf store) with ([slash] ++ prefixOf store); rewrite vec_size_app; change (vec_size [slash]) with 1; lia).
      unfold vec_size. rewrite Nat2Z.id.
      replace (characters (m_storePath store) ++ slash :: prefixOf store ++ characters (encodeForFileName identifier)) with ((characters (m_storePath store) ++ slash :: prefixOf store) ++ characters (encodeForFileName identifier)) by (by rewrite <- app_assoc).
      apply drop_app_length.
    - rewrite not_elem_of_app. split; [done|by apply safe_no_slash]. }
  destruct (decodeFromFilename_sound identifier _ Hid Hname) as (s' & Hs' & Heq). exists s'. split; [|done]. rewrite <- Hs'. apply list_elem_of_fmap. by exists s.
Qed.
End Listing.
