(* ===== verification/RuleListStoreCorrect.v ===== *)
(** * The store is correct

    The promises of [ContentRuleListStore]: what was compiled is found again, as it
    was compiled and with its source; errors leave what was stored; removed and
    invalidated rule lists are not found. *)

From Stdlib Require Import Strings.String.
From stdpp Require Import base numbers option list list_numbers gmap.
From Stdlib Require Import ZArith Lia.
From S2P Require Import Prelude.
From S2P Require Import DFABytecodeCompiler.
From S2P Require Import NFA.
From S2P Require Import Yarr.
From S2P Require Import YarrReading.
From S2P Require Import ContentExtensionRule.
From S2P Require Import ContentExtensionError.
From S2P Require Import ActionSerialization.
From S2P Require Import ContentExtensionParser.
From S2P Require Import ContentExtension.
From S2P Require Import ContentExtensionCompiler.
From S2P Require Import RulePartition.
From S2P Require Import Partition.
From S2P Require Import DFAMinimizer.
From S2P Require Import ProcessNFAs.
From S2P Require Import Pipeline.
From S2P Require Import RuleListProof.
From S2P Require Import UTF8Conversion.
From S2P Require Import FileNames.
From S2P Require Import FileSystem.
From S2P Require Import FileSystemProof.
From S2P Require Import SimulatedOS.
From S2P Require Import RuleListFile.
From S2P Require Import RuleListFileProof.
From S2P Require Import RuleListStore.
From S2P Require Import RuleListStoreProof.
From S2P Require Import RuleListIdentifiers.
From S2P Require Import URLFilterMeaning.

(** What the store needs of the system in a state: interrupted writes end, the
    directory for temporary files is named in UTF-8, and every entry of the disk leads
    to a file. *)
Record system_ok {W} `{OS W} (fuel : nat) (w : W) : Prop := {
  so_end : writes_end (W := W) fuel;
  so_tmp : temporary_path_is_UTF8 w;
  so_disk : disk_ok (disk w)
}.

Section Store.
Context {W : Type} `{POSIX W}.
Context `{HashOrder, HashMapOrder, UninitializedMemory, SlotOrder}.
Context (fuel : nat) (U_GET_GC_MASK : Z -> Z) (unicodeMatchProperty : list Z -> option BuiltInCharacterClassID).
Context (unicodeMatchPropertyValue : list Z -> list Z -> option BuiltInCharacterClassID).
Context (isValidCSSSelector : WString -> bool) (JSONParse : WString -> option JSValue).
Abbreviation compile_list := (compileContentRuleList fuel U_GET_GC_MASK unicodeMatchProperty unicodeMatchPropertyValue isValidCSSSelector JSONParse).
Abbreviation compile_rules := (compileRuleList U_GET_GC_MASK unicodeMatchProperty unicodeMatchPropertyValue).

Lemma compileContentRuleList_sound store identifier json rules c rep (w : W) : system_ok fuel w -> pathOf store identifier = Some rep ->
  parseRuleList isValidCSSSelector (JSONParse json) = inr rules -> compile_rules rules = Some (inr c) -> vec_size (ruleListFile json c) < 2 ^ 31 ->
  runs (compile_list store identifier json) w (λ r w', match r with
    | inl e => e = StoreErrorCode CompileFailed /\ keeps (disk w) (disk w') /\ (forall k, capped_system (W := W) k -> PATH_MAX <= vec_size (temporaryTemplate temporaryPrefix w))
    | inr l => m_name l = identifier /\ exists content, list_written W json c content /\ replaced (disk w) (disk w') (locate rep) content /\
        exists data, l = createExtension identifier (ruleListMetaData json c) data /\ forall d, extends (disk w') d -> Data_bytes d data = content
    end).
Proof.
  intros [Hend Htmp Hok] Hrep Hparse Hc Hsz. unfold compileContentRuleList. rewrite Hparse. run_step.
  eapply runs_mono; [by apply (compiledToFile_success fuel Hend U_GET_GC_MASK unicodeMatchProperty unicodeMatchPropertyValue json rules _ rep w Htmp Hrep Hok c)|].
  cbn beta. intros [e|[meta data]] w' Hr; run_step; [done|]. destruct Hr as (-> & content & Hw & Hrepl & Hbytes). split; [done|]. exists content. split; [done|]. split; [done|].
  exists data. by split.
Qed.

(** A rule list in a file that is complete. *)
Lemma complete_extension json c content identifier data d : list_written W json c content -> vec_size (ruleListFile json c) < 2 ^ 31 -> complete json c content -> Data_bytes d data = content ->
  compiledExtension d (createExtension identifier (ruleListMetaData json c) data) = Some c.
Proof.
  intros Hw Hsz Hcomplete Hd. unfold ruleListMetaData. rewrite compiledExtension_file; [by destruct c|by rewrite Hd; apply Hw|exact Hsz].
Qed.

(** Looking up a rule list and asking for its source. *)
Definition lookupWithSource (store : ContentRuleListStore) (identifier : WString) : SysM W ((error_code + ContentRuleList) * option WString) :=
  sbind (lookupContentRuleList store identifier) (λ found, sbind (getContentRuleListSource store identifier) (λ source, sret (found, source))).

Lemma lookupWithSource_runs store identifier rep json c (w : W) : pathOf store identifier = Some rep -> json_ok json -> vec_size (ruleListFile json c) < 2 ^ 31 ->
  stored (disk w) (locate rep) = Some (ruleListFile json c) ->
  runs (lookupWithSource store identifier) w (λ '(found, source) w',
    match found with
    | inr l => m_name l = identifier /\ compiledExtension (disk w') l = Some c
    | inl e => e = StoreErrorCode LookupFailed /\ ~ reads_succeed (W := W)
    end /\ (source = Some json \/ source = None /\ ~ reads_succeed (W := W))).
Proof.
  intros Hrep Hjson Hsz Hst. unfold lookupWithSource. run_step. eapply runs_mono; [by eapply (lookup_runs store identifier rep json c w)|]. cbn beta. intros found w2 [Hsame Hfound]. run_step.
  eapply runs_mono; [eapply (source_runs store identifier rep json c w2); try done; by rewrite (same_files_stored _ _ _ Hsame)|]. cbn beta.
  intros source w3 [Hsame3 Hsource]. run_step. split; [|done]. destruct found as [e|l]; [done|]. by rewrite (same_files_extension _ _ _ Hsame3).
Qed.

(** Removing a rule list, and looking it up. *)
Lemma removeContentRuleList_sound store identifier rep (w : W) : pathOf store identifier = Some rep ->
  runs (removeContentRuleList store identifier) w (λ r w', match r with
    | None => entries (disk w') !! locate rep = None /\ (forall loc, loc <> locate rep -> stored (disk w') loc = stored (disk w) loc) /\ extends (disk w) (disk w')
    | Some e => e = StoreErrorCode RemoveFailed /\ same_files (disk w) (disk w')
    end).
Proof.
  intros Hrep. unfold removeContentRuleList. run_step. eapply runs_mono; [by apply (deleteFile_runs _ rep w)|]. cbn beta. intros ok w' [Hf He].
  destruct ok; cbn [negb]; run_step; [|done]. rewrite He, lookup_delete_eq. split; [done|]. split.
  - intros loc Hne. unfold stored. by rewrite He, Hf, lookup_delete_ne by done.
  - intros ino b. by rewrite Hf.
Qed.

Lemma lookup_missing store identifier rep (w : W) : pathOf store identifier = Some rep -> entries (disk w) !! locate rep = None ->
  runs (lookupContentRuleList store identifier) w (λ r w', r = inl (StoreErrorCode LookupFailed) /\ disk w' = disk w).
Proof.
  intros Hrep Hent. unfold lookupContentRuleList. run_step. eapply runs_mono; [by eapply openAndMapContentRuleList_missing|].
  cbn beta. intros r w' [-> Hd]. by run_step.
Qed.

(** What is stored with another version or without a header is not used. *)
Lemma lookup_invalid store identifier rep bytes (w : W) : pathOf store identifier = Some rep -> stored (disk w) (locate rep) = Some bytes ->
  (forall m, decodeContentRuleListMetaData bytes = Some m -> version m <> CurrentContentRuleListFileVersion) ->
  runs (lookupContentRuleList store identifier) w (λ r _, r = inl (StoreErrorCode LookupFailed) \/ r = inl (StoreErrorCode VersionMismatch)).
Proof.
  intros Hrep Hst Hv. unfold lookupContentRuleList. run_step. destruct bytes as [|b bytes].
  { eapply runs_mono; [by apply (openAndMapContentRuleList_empty _ rep w Hrep Hst)|]. cbn beta. intros r w' ->. run_step. by left. }
  eapply runs_mono; [by apply (openAndMapContentRuleList_decodes _ rep _ w Hrep Hst)|]. cbn beta. intros r w' [_ Hr].
  destruct (decodeContentRuleListMetaData (b :: bytes)) as [m|] eqn:Em; destruct Hr as [[-> _]|Hr]; try (run_step; by left).
  - destruct Hr as (data & -> & _). specialize (Hv m eq_refl). apply Z.eqb_neq in Hv. rewrite Hv. cbn [negb]. run_step. apply releaseData_runs. intros w2 _. run_step. by right.
  - rewrite Hr. run_step. by left.
Qed.
End Store.

(** ** The promises *)

Section Claims.
Context {W : Type} `{POSIX W}.
Context `{HashOrder, HashMapOrder, UninitializedMemory, SlotOrder}.
Context (fuel : nat) (U_GET_GC_MASK : Z -> Z) (unicodeMatchProperty : list Z -> option BuiltInCharacterClassID).
Context (unicodeMatchPropertyValue : list Z -> list Z -> option BuiltInCharacterClassID).
Context (isValidCSSSelector : WString -> bool) (JSONParse : WString -> option JSValue).
Abbreviation compile_list := (compileContentRuleList fuel U_GET_GC_MASK unicodeMatchProperty unicodeMatchPropertyValue isValidCSSSelector JSONParse).
Abbreviation compile_rules := (compileRuleList U_GET_GC_MASK unicodeMatchProperty unicodeMatchPropertyValue).

(** C4: compiling into the store.  For rules that [parseRuleList] and
    [compileRuleList] accept, whose file is shorter than 2^31 bytes, on a system where
    interrupted writes end and whose directory for temporary files is named in UTF-8,
    [compileContentRuleList] returns.  Either it reports that compiling failed, and
    everything that was stored is still stored; or the file of the identifier is new
    and nothing else has changed.  When no write is short, that file has its header
    and its length; and whenever it has these, it holds exactly the header, source,
    actions and bytecodes of the rule list, and the accessors of the rule list that is
    returned show what was compiled for as long as the file lives, whatever is
    compiled or removed meanwhile. *)
Theorem compileContentRuleList_correct store identifier json rules c rep (w : W) : system_ok fuel w -> pathOf store identifier = Some rep ->
  parseRuleList isValidCSSSelector (JSONParse json) = inr rules -> compile_rules rules = Some (inr c) -> vec_size (ruleListFile json c) < 2 ^ 31 ->
  runs (compile_list store identifier json) w (λ r w', match r with
    | inl e => e = StoreErrorCode CompileFailed /\ keeps (disk w) (disk w')
    | inr l => m_name l = identifier /\ exists content, replaced (disk w) (disk w') (locate rep) content /\ (full_writes (W := W) -> complete json c content) /\
        (complete json c content -> content = ruleListFile json c /\ forall d, extends (disk w') d -> compiledExtension d l = Some c)
    end).
Proof.
  intros Hsys Hrep Hparse Hc Hsz. eapply runs_mono; [by eapply compileContentRuleList_sound|]. cbn beta. intros [e|l] w' Hr; [by destruct Hr as (? & ? & _)|].
  destruct Hr as (Hname & content & Hw & Hrepl & data & -> & Hd). split; [done|]. exists content. split; [done|]. split; [apply Hw|]. intros Hcomplete. split; [by apply Hw|].
  intros d Hext. by apply (complete_extension json c content); auto.
Qed.

(** C5: a rule list comes back.  What [compileContentRuleList] stored, in a file that has
    its header and its length (it has when no write was short), is found by
    [lookupContentRuleList] under its identifier in every later state in which that
    file is still stored, with the bytecodes, the actions and the kind of its
    conditions as they were compiled, and [getContentRuleListSource] gives the JSON
    text it was compiled from: both fail only on a system that does not open or map a
    file that is there. *)
Theorem compileAndLookup_correct store identifier json rules c rep (w : W) : system_ok fuel w -> pathOf store identifier = Some rep -> json_ok json ->
  parseRuleList isValidCSSSelector (JSONParse json) = inr rules -> compile_rules rules = Some (inr c) -> vec_size (ruleListFile json c) < 2 ^ 31 ->
  runs (compile_list store identifier json) w (λ r w', match r with
    | inl e => e = StoreErrorCode CompileFailed
    | inr _ => exists content, stored (disk w') (locate rep) = Some content /\ (full_writes (W := W) -> complete json c content) /\
        (complete json c content -> forall w1, stored (disk w1) (locate rep) = Some content ->
          runs (lookupWithSource store identifier) w1 (λ '(found, source) w2,
            match found with
            | inr l => m_name l = identifier /\ compiledExtension (disk w2) l = Some c
            | inl e => e = StoreErrorCode LookupFailed /\ ~ reads_succeed (W := W)
            end /\ (source = Some json \/ source = None /\ ~ reads_succeed (W := W))))
    end).
Proof.
  intros Hsys Hrep Hjson Hparse Hc Hsz. eapply runs_mono; [by eapply compileContentRuleList_sound|]. cbn beta. intros [e|l] w' Hr; [by destruct Hr|].
  destruct Hr as (_ & content & Hw & (Hst & _) & _). exists content. split; [done|]. split; [apply Hw|]. intros Hcomplete w1 Hst1.
  apply (lookupWithSource_runs store identifier rep); try done. rewrite Hst1. f_equal. by apply Hw.
Qed.

(** C19: rules that do not compile leave the store alone.  An error of
    [parseRuleList] is reported before anything is done.  An error of
    [compileRuleList] is the error that is reported, also when writes fail meanwhile,
    unless the temporary file cannot be opened or its first 48 bytes cannot be
    written, when it is reported that compiling failed; everything that was stored is
    still stored: also the rule list that the identifier had.  This holds also when
    writes are short; the directory for temporary files is named in UTF-8, and the
    source and the actions are shorter than 2^31 bytes. *)
Theorem compileContentRuleList_errors store identifier json (w : W) : writes_end (W := W) fuel -> temporary_path_is_UTF8 w ->
  match parseRuleList isValidCSSSelector (JSONParse json) with
  | inl e => compile_list store identifier json w = Some (w, inl (CompilerError e))
  | inr rules => forall e, compile_rules rules = Some (inl e) ->
      (forall locations acts, serializeActions rules = Some (locations, acts) -> vec_size (sourceBytes json) + vec_size acts < 2 ^ 31) ->
      runs (compile_list store identifier json) w (λ r w',
        r = inl (if headerWritten fuel w then CompilerError e else StoreErrorCode CompileFailed) /\ keeps (disk w) (disk w'))
  end.
Proof.
  intros Hend Htmp. unfold compileContentRuleList. destruct (parseRuleList _ _) as [e|rules] eqn:Hparse; [done|]. intros e He Hsz. run_step.
  eapply runs_mono; [by apply (compiledToFile_error fuel Hend U_GET_GC_MASK unicodeMatchProperty unicodeMatchPropertyValue json rules _ w Htmp e)|].
  cbn beta. intros r w' [-> Hk]. by run_step.
Qed.

End Claims.

Section StoreClaims.
Context {W : Type} `{POSIX W}.

(** C26: removing.  [removeContentRuleList] returns; when it reports no error the
    identifier is not found any more, every other file is stored as it was, and
    rule lists that are in use keep their memory; when it reports an error nothing
    has changed. *)
Theorem removeContentRuleList_correct store identifier rep (w : W) : pathOf store identifier = Some rep ->
  runs (removeContentRuleList store identifier) w (λ r w', match r with
    | None => runs (lookupContentRuleList store identifier) w' (λ found w2, found = inl (StoreErrorCode LookupFailed) /\ disk w2 = disk w') /\
        (forall loc, loc <> locate rep -> stored (disk w') loc = stored (disk w) loc) /\ extends (disk w) (disk w')
    | Some e => e = StoreErrorCode RemoveFailed /\ same_files (disk w) (disk w')
    end).
Proof.
  intros Hrep. eapply runs_mono; [by apply removeContentRuleList_sound|]. cbn beta. intros [e|] w' Hr; [done|]. destruct Hr as (Hnone & Hrest). split; [|done].
  by apply (lookup_missing store identifier rep w').
Qed.

(** Invalidating.  After [invalidateContentRuleListVersion] the rule list is not
    used any more: a lookup reports that the version is another one or that nothing
    was found, unless the file could not be opened for writing. *)
Theorem invalidateContentRuleListVersion_correct fuel padding1 padding2 store identifier rep (w : W) : writes_end (W := W) fuel -> pathOf store identifier = Some rep ->
  runs (invalidateContentRuleListVersion fuel padding1 padding2 store identifier) w (λ _ w', disk w' = disk w \/
    runs (lookupContentRuleList store identifier) w' (λ r _, r = inl (StoreErrorCode LookupFailed) \/ r = inl (StoreErrorCode VersionMismatch))).
Proof.
  intros Hend Hrep. eapply runs_mono; [by apply (invalidate_runs fuel padding1 padding2 store identifier rep w)|]. cbn beta. intros _ w' [Hd|(content & Hst & Hp)]; [by left|right].
  apply (lookup_invalid store identifier rep content w' Hrep Hst). intros m Hm. by rewrite (invalid_version padding1 padding2 content m Hp Hm).
Qed.

(** C21: the list of identifiers is complete.  In a directory that can be read every
    identifier that has a file is among those that
    [getAvailableContentRuleListIdentifiers] returns, whatever characters it has:
    the file name is decoded to the identifier it was made of. *)
Theorem getAvailableContentRuleListIdentifiers_complete store identifier rep (w : W) : readdir_succeeds (W := W) -> store_ok store -> Forall unit_ok (characters identifier) ->
  pathOf store identifier = Some rep -> vec_size rep <= PATH_MAX - 1 -> is_Some (entries (disk w) !! locate rep) ->
  runs (getAvailableContentRuleListIdentifiers store) w (λ l w', disk w' = disk w /\ exists s, Some s ∈ l /\ characters s = characters identifier).
Proof.
  intros Hread Hst Hid Hrep Hlen Hent. eapply runs_mono; [by apply (getAvailable_runs store identifier rep w)|]. cbn beta. intros l w' [Hd Hl]. split; [done|]. by apply Hl.
Qed.
End StoreClaims.

(** C20: identifiers do not share files.  When two identifiers lead to the same path
    they are the same: no rule list replaces one of another identifier, neither with
    slashes nor with percent signs nor with lone surrogates in its name. *)
Theorem pathOf_injective store identifier identifier' rep : store_ok store -> Forall unit_ok (characters identifier) -> Forall unit_ok (characters identifier') ->
  pathOf store identifier = Some rep -> pathOf store identifier' = Some rep -> characters identifier = characters identifier'.
Proof. apply pathOf_injective_sound. Qed.

(** ** An example *)

Definition sampleStore : ContentRuleListStore := mkContentRuleListStore (mkWString true [47; 115]) false.

(** The identifier "a/%" *)
Definition sampleIdentifier : WString := mkWString true [97; 47; 37].

(** "[]", which the parser of the example takes for [sampleJSON]. *)
Definition sampleSource : WString := mkWString true [91; 93].

Definition storedRules : list ContentExtensionRule := Eval vm_compute in match parseRuleList (λ _, true) (Some sampleJSON) with inr rules => rules | inl _ => [] end.

Definition storedRuleList : CompiledContentExtension :=
  Eval vm_compute in match compileRuleList (λ _, 0) noProperty noPropertyValue storedRules with Some (inr c) => c | _ => mkCompiledContentExtension [] [] [] false [] end.

Definition samplePath : list Z := Eval vm_compute in default [] (pathOf sampleStore sampleIdentifier).

Definition emptyDisk {writes} (room : Z) : Simulation writes := mkSimulation (mkDisk ∅ ∅ ∅) room.

Abbreviation sample_compile := (compileContentRuleList 1 (λ _, 0) noProperty noPropertyValue (λ _, true) (λ _, Some sampleJSON) sampleStore sampleIdentifier sampleSource).

Lemma simulated_temporary_path {writes} (w : Simulation writes) : Z.of_nat (longest (entries (disk w))) <= 2 ^ 20 -> temporary_path_is_UTF8 w.
Proof.
  intros Hshort w' fd path Hm _. cbn in Hm. unfold sim_mkstemp in Hm. injection Hm as _ _ <-.
  set (n := S (longest (entries (sim_disk w)))). set (template := temporaryTemplate temporaryPrefix w).
  assert (forall l, Forall (λ c, 0 <= c < 128) l -> l = concat (utf8_of <$> l)) as Hascii.
  { induction 1 as [|c l Hc _ IH]; [done|]. cbn [fmap list_fmap concat]. rewrite <- IH. unfold utf8_of. destruct (c <? 0x80) eqn:E; zbool; [done|lia]. }
  assert (Forall (λ c, 0 <= c < 128) (template ++ replicate n 88)) as Hall.
  { apply Forall_app_2; [|apply Forall_replicate; lia]. unfold template. vm_compute. by repeat (constructor; [done|]). }
  exists (template ++ replicate n 88). split; [eapply Forall_impl; [exact Hall|]; intros c Hc; cbn beta in Hc; unfold scalar; lia|]. split; [by apply Hascii|].
  change (vec_size (template ++ replicate n 88) <= MaxLength / 3). rewrite vec_size_app. unfold vec_size at 2. rewrite length_replicate. change (vec_size template) with 26. unfold n, MaxLength, INT32_MAX in *. cbn [disk simulated_OS] in Hshort. divlia.
Qed.

Lemma emptyDisk_ok {writes} room : system_ok 1 (emptyDisk (writes := writes) room).
Proof.
  split; [apply simulated_writes_end|apply simulated_temporary_path; by vm_compute|].
  intros loc ino Hin. cbn in Hin. by rewrite lookup_empty in Hin.
Qed.

Lemma sampleStore_ok : store_ok sampleStore.
Proof. split; [|done]. unfold string_ok. cbn. by repeat constructor. Qed.

Lemma sampleIdentifier_ok : Forall unit_ok (characters sampleIdentifier).
Proof. cbn. by repeat constructor. Qed.

Lemma samplePath_eq : pathOf sampleStore sampleIdentifier = Some samplePath.
Proof. by vm_compute. Qed.

Lemma storedRules_eq : parseRuleList (λ _, true) ((λ _, Some sampleJSON) sampleSource) = inr storedRules.
Proof. by vm_compute. Qed.

Lemma storedRuleList_eq : compileRuleList (λ _, 0) noProperty noPropertyValue storedRules = Some (inr storedRuleList).
Proof. by vm_compute. Qed.

Lemma storedRuleList_size : vec_size (ruleListFile sampleSource storedRuleList) < 2 ^ 31.
Proof. by vm_compute. Qed.

Lemma sampleSource_ok : json_ok sampleSource.
Proof. unfold json_ok. cbn. by repeat constructor. Qed.

(** The example compiles, and not to an error. *)
Lemma compileContentRuleList_correct_witness : exists w' l, sample_compile (emptyDisk (writes := Unlimited) 0) = Some (w', inr l) /\
  stored (disk w') samplePath = Some (ruleListFile sampleSource storedRuleList) /\ compiledExtension (disk w') l = Some storedRuleList.
Proof.
  destruct (compileContentRuleList_correct 1 (λ _, 0) noProperty noPropertyValue (λ _, true) (λ _, Some sampleJSON) sampleStore sampleIdentifier sampleSource storedRules storedRuleList samplePath
    (emptyDisk (writes := Unlimited) 0) (emptyDisk_ok 0) samplePath_eq storedRules_eq storedRuleList_eq storedRuleList_size) as (w' & [e|l] & Hrun & Hr).
  - exfalso. by vm_compute in Hrun.
  - destruct Hr as (_ & content & (Hst & _ & _) & Hfull & Hc). destruct (Hc (Hfull simulated_full_writes)) as [Heq Hl]. exists w', l. split; [exact Hrun|].
    split; [rewrite <- Heq; exact Hst|]. apply Hl. intros ino b Hb. exact Hb.
Defined.

Lemma compileAndLookup_correct_witness : exists w' l w2 found, sample_compile (emptyDisk (writes := Unlimited) 0) = Some (w', inr l) /\
  lookupWithSource sampleStore sampleIdentifier w' = Some (w2, (inr found, Some sampleSource)) /\ compiledExtension (disk w2) found = Some storedRuleList.
Proof.
  destruct (compileAndLookup_correct 1 (λ _, 0) noProperty noPropertyValue (λ _, true) (λ _, Some sampleJSON) sampleStore sampleIdentifier sampleSource storedRules storedRuleList samplePath
    (emptyDisk (writes := Unlimited) 0) (emptyDisk_ok 0) samplePath_eq sampleSource_ok storedRules_eq storedRuleList_eq storedRuleList_size) as (w' & [e|l] & Hrun & Hr).
  - exfalso. by vm_compute in Hrun.
  - destruct Hr as (content & Hst & Hfull & Hl). destruct (Hl (Hfull simulated_full_writes) w' Hst) as (w2 & [found source] & Hrun2 & Hfound & Hsource).
    destruct found as [e|found]; [destruct Hfound as [_ []]; apply simulated_reads|]. destruct Hsource as [->|[_ []]]; [|apply simulated_reads].
    exists w', l, w2, found. split; [exact Hrun|]. split; [exact Hrun2|]. apply Hfound.
Defined.

(** A rule whose filter "(" is no regular expression. *)
Definition brokenRules : JSValue :=
  JSArray [JSObject
    [(chars "trigger", JSObject [(chars "url-filter", JSString (mkWString true [40]))]);
     (chars "action", JSObject [(chars "type", JSString (mkWString true (chars "block")))])]].

Definition brokenParsed : list ContentExtensionRule := Eval vm_compute in match parseRuleList (λ _, true) (Some brokenRules) with inr rules => rules | inl _ => [] end.

Lemma brokenParsed_eq : parseRuleList (λ _, true) (Some brokenRules) = inr brokenParsed.
Proof. by vm_compute. Qed.

Lemma brokenParsed_error : compileRuleList (λ _, 0) noProperty noPropertyValue brokenParsed = Some (inl JSONInvalidRegex).
Proof. by vm_compute. Qed.

Lemma brokenParsed_size locations acts : serializeActions brokenParsed = Some (locations, acts) -> vec_size (sourceBytes sampleSource) + vec_size acts < 2 ^ 31.
Proof. intros Hs. vm_compute in Hs. injection Hs as _ <-. by vm_compute. Qed.

Lemma headerWritten_48 : headerWritten 1 (emptyDisk (writes := Limited) 48) = true.
Proof. by vm_compute. Qed.

(** On a disk with room for the header only the source cannot be written; the error is
    still that of the compiler. *)
Lemma compileContentRuleList_errors_witness : exists w', compileContentRuleList 1 (λ _, 0) noProperty noPropertyValue (λ _, true) (λ _, Some brokenRules) sampleStore sampleIdentifier sampleSource
  (emptyDisk (writes := Limited) 48) = Some (w', inl (CompilerError JSONInvalidRegex)) /\ keeps (disk (emptyDisk (writes := Limited) 48)) (disk w').
Proof.
  pose proof (compileContentRuleList_errors 1 (λ _, 0) noProperty noPropertyValue (λ _, true) (λ _, Some brokenRules) sampleStore sampleIdentifier sampleSource
    (emptyDisk (writes := Limited) 48) (simulated_writes_end Limited 0) ltac:(apply simulated_temporary_path; by vm_compute)) as Hx. cbn beta in Hx. rewrite brokenParsed_eq in Hx.
  destruct (Hx _ brokenParsed_error brokenParsed_size) as (w' & r & Hrun & Hr & Hk). rewrite headerWritten_48 in Hr. subst r. exists w'. split; [exact Hrun|exact Hk].
Defined.

(** A disk with the file of the example. *)
Definition storedDisk : Simulation Unlimited := mkSimulation (mkDisk {[3 := ruleListFile sampleSource storedRuleList]} {[samplePath := 3]} ∅) 0.

Lemma removeContentRuleList_correct_witness : exists w', removeContentRuleList sampleStore sampleIdentifier storedDisk = Some (w', None) /\
  runs (lookupContentRuleList sampleStore sampleIdentifier) w' (λ found w2, found = inl (StoreErrorCode LookupFailed) /\ disk w2 = disk w').
Proof.
  destruct (removeContentRuleList_correct sampleStore sampleIdentifier samplePath storedDisk samplePath_eq) as (w' & [e|] & Hrun & Hr).
  - exfalso. by vm_compute in Hrun.
  - exists w'. split; [exact Hrun|]. by destruct Hr.
Defined.

Lemma invalidateContentRuleListVersion_correct_witness : exists w', invalidateContentRuleListVersion 1 [0; 0; 0; 0] [0; 0; 0; 0] sampleStore sampleIdentifier storedDisk = Some (w', tt) /\
  (disk w' = disk storedDisk \/ runs (lookupContentRuleList sampleStore sampleIdentifier) w' (λ r _, r = inl (StoreErrorCode LookupFailed) \/ r = inl (StoreErrorCode VersionMismatch))).
Proof.
  destruct (invalidateContentRuleListVersion_correct 1 [0; 0; 0; 0] [0; 0; 0; 0] sampleStore sampleIdentifier samplePath storedDisk (simulated_writes_end Unlimited 0) samplePath_eq) as (w' & [] & Hrun & Hr).
  exists w'. split; [exact Hrun|exact Hr].
Defined.

Lemma simulated_readdir writes : readdir_succeeds (W := Simulation writes).
Proof. intros path w w' r [= _ <-]. by eexists. Qed.

Lemma getAvailableContentRuleListIdentifiers_complete_witness : runs (getAvailableContentRuleListIdentifiers sampleStore) storedDisk
  (λ l w', disk w' = disk storedDisk /\ exists s, Some s ∈ l /\ characters s = [97; 47; 37]).
Proof.
  apply (getAvailableContentRuleListIdentifiers_complete sampleStore sampleIdentifier samplePath storedDisk (simulated_readdir Unlimited) sampleStore_ok sampleIdentifier_ok samplePath_eq).
  - by vm_compute.
  - vm_compute. by eexists.
Defined.

Lemma pathOf_injective_witness : characters sampleIdentifier = [97; 47; 37].
Proof. exact (pathOf_injective sampleStore sampleIdentifier sampleIdentifier samplePath sampleStore_ok sampleIdentifier_ok sampleIdentifier_ok samplePath_eq samplePath_eq). Defined.
