(* ===== verification/StoreFailures.v ===== *)
(** * Writes that fail or are short

    Two consequences of how [compiledToFile] and its client treat [write].  A short
    write is not noticed: on every system that takes fewer bytes at a time than one of
    the buffers has, a rule list that lacks bytes is stored and handed out.  After a
    write that fails the descriptor of the temporary file is closed twice. *)

From stdpp Require Import base numbers option list list_numbers gmap.
From Stdlib Require Import ZArith Lia.
From S2P Require Import Prelude.
From S2P Require Import DFABytecodeCompiler.
From S2P Require Import NFA.
From S2P Require Import Yarr.
From S2P Require Import YarrReading.
From S2P Require Import ContentExtensionRule.
From S2P Require Import ContentExtensionError.
From S2P Require Import ActionSerialization.
From S2P Require Import ContentExtensionParser.
From S2P Require Import ContentExtension.
From S2P Require Import ContentExtensionCompiler.
From S2P Require Import RulePartition.
From S2P Require Import Partition.
From S2P Require Import DFAMinimizer.
From S2P Require Import ProcessNFAs.
From S2P Require Import Pipeline.
From S2P Require Import RuleListProof.
From S2P Require Import UTF8Conversion.
From S2P Require Import FileNames.
From S2P Require Import FileSystem.
From S2P Require Import FileSystemProof.
From S2P Require Import SimulatedOS.
From S2P Require Import RuleListFile.
From S2P Require Import RuleListFileProof.
From S2P Require Import RuleListStore.
From S2P Require Import RuleListStoreProof.
From S2P Require Import URLFilterMeaning.
From S2P Require Import RuleListStoreCorrect.

(** ** Short writes *)

Section ShortWrites.
Context {W : Type} `{POSIX W}.
Context `{HashOrder, HashMapOrder, UninitializedMemory, SlotOrder}.
Context (fuel : nat) (U_GET_GC_MASK : Z -> Z) (unicodeMatchProperty : list Z -> option BuiltInCharacterClassID).
Context (unicodeMatchPropertyValue : list Z -> list Z -> option BuiltInCharacterClassID).
Context (isValidCSSSelector : WString -> bool) (JSONParse : WString -> option JSValue).
Abbreviation compile_list := (compileContentRuleList fuel U_GET_GC_MASK unicodeMatchProperty unicodeMatchPropertyValue isValidCSSSelector JSONParse).
Abbreviation compile_rules := (compileRuleList U_GET_GC_MASK unicodeMatchProperty unicodeMatchPropertyValue).

(** C39: short writes are not noticed.  [writeToFile] returns how much was written, and
    only -1 counts as an error.  On every system whose calls succeed and whose writes
    take at most [k] bytes at a time, where [k] is at least the size of the header
    and less than the size of the source or of the actions, compiling any rule list
    whose file is shorter than 2^31 bytes reports success, the file that is stored is
    shorter than its header says, and bytecode of the rule list that is returned lies
    outside of the file; so it does for the rule list that looking up finds. *)
Theorem short_write_unnoticed store identifier json rules c rep k (w : W) : system_ok fuel w -> capped_system (W := W) k -> reads_succeed (W := W) ->
  vec_size (temporaryTemplate temporaryPrefix w) < PATH_MAX -> pathOf store identifier = Some rep ->
  parseRuleList isValidCSSSelector (JSONParse json) = inr rules -> compile_rules rules = Some (inr c) -> vec_size (ruleListFile json c) < 2 ^ 31 ->
  ContentRuleListFileHeaderSize <= k -> k < vec_size (characterBytes json) \/ k < vec_size (compiledActions c) ->
  runs (compile_list store identifier json) w (λ r w', exists l content, r = inr l /\ stored (disk w') (locate rep) = Some content /\
    vec_size content < fileSize (ruleListMetaData json c) /\ compiledExtension (disk w') l = None /\
    runs (lookupContentRuleList store identifier) w' (λ found w2, exists l', found = inr l' /\ compiledExtension (disk w2) l' = None)).
Proof.
  intros Hsys Hk Hreads Htmp Hrep Hparse Hc Hsz Hlarge Hbuffer. eapply runs_mono; [by eapply compileContentRuleList_sound|]. cbn beta. intros [e|l] w' Hr.
  { destruct Hr as (_ & _ & Hno). specialize (Hno k Hk). lia. }
  destruct Hr as (_ & content & Hw & (Hst & _) & data & -> & Hd). destruct (lw_capped json c content Hw k Hk Hlarge Hbuffer) as [Hheader Hshort].
  eexists _, content. split; [done|]. split; [done|]. rewrite ruleListMetaData_size by done. split; [done|]. split.
  - unfold ruleListMetaData. apply compiledExtension_short; [|exact Hsz]. rewrite (Hd (disk w')); [exact Hshort|by intros ? ?].
  - eapply runs_mono; [by apply (lookup_short store identifier rep json c content w')|]. cbn beta. intros [e|l'] w2 Hr; [by destruct Hr|]. exists l'. by destruct Hr.
Qed.
End ShortWrites.

(** ** Closing twice *)

Section Log.
Context {W : Type} `{OS W}.
Context (fuel : nat).
Implicit Types s : Logged W.

Lemma sbind_inv {A B} (m : SysM (Logged W) A) (k : A -> SysM (Logged W) B) s s' b : sbind m k s = Some (s', b) -> exists s1 a, m s = Some (s1, a) /\ k a s1 = Some (s', b).
Proof. unfold sbind. intros Hm. destruct (m s) as [[s1 a]|]; [|done]. by exists s1, a. Qed.

Lemma logged_closed {A} (f : W -> W * A) s : closed (logged f s).1 = closed s.
Proof. unfold logged. by destruct (f (system s)). Qed.

Lemma scall_closed {A} (f : W -> W * A) s s' a : scall (logged f) s = Some (s', a) -> closed s' = closed s.
Proof. unfold scall. intros [= Hc]. pose proof (logged_closed f s) as Hl. by rewrite Hc in Hl. Qed.

Lemma writeToFile_closed handle data length s s' r : writeToFile fuel handle data length s = Some (s', r) -> closed s' = closed s.
Proof.
  unfold writeToFile. destruct (_ || _); [done|]. revert s. generalize (take (Z.to_nat length) data). intros bytes. induction fuel as [|n IH]; intros s Hw; [done|]. cbn [writeLoop] in Hw.
  apply sbind_inv in Hw as (s1 & result & Hcall & Hw). apply scall_closed in Hcall. destruct result; [|rewrite <- Hcall; by apply IH|]; by injection Hw as <- _.
Qed.

Lemma openTemporaryFile_closed prefix s s' r : openTemporaryFile prefix s = Some (s', r) -> closed s' = closed s.
Proof.
  unfold openTemporaryFile. intros Ho. apply sbind_inv in Ho as (s1 & buffer & [= <- <-] & Ho). destruct (_ <=? _); [by injection Ho as <- _|].
  apply sbind_inv in Ho as (s2 & [handle path] & Hcall & Ho). apply scall_closed in Hcall. destruct (handle <? 0); [by injection Ho as <- _|].
  apply sbind_inv in Ho as (s3 & p & Hl & Ho). injection Ho as <- _. unfold lift_option in Hl. destruct (fromUTF8 path); [|done]. by injection Hl as <- _.
Qed.

Lemma closeFile_closed handle s s' r : isHandleValid handle = true -> closeFile handle s = Some (s', r) -> closed s' = closed s ++ [handle].
Proof.
  intros Hv. unfold closeFile. rewrite Hv. intros Hc. apply sbind_inv in Hc as (s1 & [] & [= <-] & Hc). by injection Hc as <- _.
Qed.

(** What the client closes: its handle, when the first error is met. *)
Definition log_step (c : CompilationClient) s (c' : CompilationClient) s' : Prop :=
  if m_fileError c then m_fileError c' = true /\ closed s' = closed s
  else if m_fileError c' then closed s' = closed s ++ [m_fileHandle c]
  else m_fileHandle c' = m_fileHandle c /\ closed s' = closed s.

Lemma log_step_trans c1 s1 c2 s2 c3 s3 : log_step c1 s1 c2 s2 -> log_step c2 s2 c3 s3 -> log_step c1 s1 c3 s3.
Proof.
  unfold log_step. destruct (m_fileError c1), (m_fileError c2), (m_fileError c3); intros H12 H23; repeat match goal with Hx : _ /\ _ |- _ => destruct Hx end; try done; try split; congruence.
Qed.

Lemma log_step_same c s c' : m_fileError c' = m_fileError c -> m_fileHandle c' = m_fileHandle c -> log_step c s c' s.
Proof. unfold log_step. intros -> ->. by destruct (m_fileError c). Qed.

Lemma fail_client_closed c s s' c' : isHandleValid (m_fileHandle c) = true -> m_fileError c = false -> fail_client c s = Some (s', c') -> log_step c s c' s'.
Proof.
  intros Hv He Hf. unfold fail_client in Hf. apply sbind_inv in Hf as (s1 & handle & Hc & Hf). injection Hf as <- <-. unfold log_step. rewrite He. cbn [setFile m_fileError].
  by apply (closeFile_closed _ _ _ _ Hv) in Hc.
Qed.

(** A client whose handle is valid as long as there is no error. *)
Definition handle_ok (c : CompilationClient) : Prop := m_fileError c = false -> isHandleValid (m_fileHandle c) = true.

Lemma log_step_handle c s c' s' : handle_ok c -> log_step c s c' s' -> handle_ok c'.
Proof. unfold handle_ok, log_step. intros Hv Hl He. rewrite He in Hl. destruct (m_fileError c); [by destruct Hl|]. destruct Hl as [-> _]. by apply Hv. Qed.

Lemma client_writeToFile_closed c data s s' c' : handle_ok c -> client_writeToFile fuel c data s = Some (s', c') -> log_step c s c' s'.
Proof.
  intros Hv Hw. unfold client_writeToFile in Hw. destruct (m_fileError c) eqn:He; [injection Hw as <- <-; by apply log_step_same|].
  apply sbind_inv in Hw as (s1 & ok & Hwrite & Hw). assert (closed s1 = closed s) as Hs.
  { unfold writeDataToFile in Hwrite. destruct (_ =? 0); [by injection Hwrite as <- _|]. apply sbind_inv in Hwrite as (s2 & r & Hwr & Hret). injection Hret as <- _. by apply writeToFile_closed in Hwr. }
  destruct ok; [injection Hw as <- <-; unfold log_step; by rewrite He|]. apply fail_client_closed in Hw; [|by apply Hv|done]. unfold log_step in *. by rewrite He, Hs in *.
Qed.

Lemma counted_write_closed c c1 data s s' c' : m_fileError c1 = m_fileError c -> m_fileHandle c1 = m_fileHandle c -> handle_ok c -> client_writeToFile fuel c1 data s = Some (s', c') -> log_step c s c' s'.
Proof.
  intros He Hh Hv Hw. apply (log_step_trans c s c1 s); [by apply log_step_same|]. apply client_writeToFile_closed in Hw; [done|]. unfold handle_ok in *. by rewrite He, Hh.
Qed.

Lemma writeSource_closed c json s s' c' : handle_ok c -> writeSource fuel c json s = Some (s', c') -> log_step c s c' s'.
Proof.
  intros Hv Hw. unfold writeSource in Hw. apply sbind_inv in Hw as (s1 & c1 & H1 & Hw). apply client_writeToFile_closed in H1; [|done].
  pose proof (log_step_handle _ _ _ _ Hv H1) as Hv1. apply sbind_inv in Hw as (s2 & c2 & H2 & Hw). injection Hw as <- <-.
  apply (counted_write_closed c1) in H2; [|done..]. apply (log_step_trans _ _ _ _ _ _ H1), (log_step_trans _ _ _ _ _ _ H2). by apply log_step_same.
Qed.

Lemma finalize_closed c s s' c' : handle_ok c -> finalize fuel c s = Some (s', c') -> log_step c s c' s'.
Proof.
  intros Hv Hw. unfold finalize in Hw. cbn zeta in Hw. set (c1 := setMetaData c (finalMetaData c)) in *. apply sbind_inv in Hw as (s1 & c2 & H1 & Hw).
  assert (log_step c s c2 s1) as Hstep.
  { unfold seekToBeginning in H1. change (m_fileError c1) with (m_fileError c) in H1. destruct (m_fileError c) eqn:He; [injection H1 as <- <-; by apply log_step_same|].
    apply sbind_inv in H1 as (s2 & r & Hseek & H1). apply scall_closed in Hseek. destruct (r =? -1).
    - apply fail_client_closed in H1; [|by apply Hv|done]. unfold log_step in *. change (m_fileError c1) with (m_fileError c) in H1. by rewrite He, Hseek in *.
    - injection H1 as <- <-. unfold log_step. change (m_fileError c1) with (m_fileError c). by rewrite He. }
  apply client_writeToFile_closed in Hw; [|by eapply log_step_handle]. by eapply log_step_trans.
Qed.

Lemma clientCall_closed c call s s' c' : handle_ok c -> clientCall fuel c call s = Some (s', c') -> log_step c s c' s'.
Proof.
  intros Hv Hw. destruct call; [by eapply writeSource_closed| | | | |by eapply finalize_closed].
  all: by refine (counted_write_closed c _ _ s s' c' _ _ Hv Hw).
Qed.

Lemma clientCalls_closed calls c s s' c' : handle_ok c -> clientCalls fuel c calls s = Some (s', c') -> log_step c s c' s'.
Proof.
  revert c s. induction calls as [|call calls IH]; intros c s Hv Hw; cbn [clientCalls] in Hw; [injection Hw as <- <-; by apply log_step_same|].
  apply sbind_inv in Hw as (s1 & c1 & Hc & Hw). apply clientCall_closed in Hc; [|done]. eapply log_step_trans; [done|]. apply IH; [by eapply log_step_handle|done].
Qed.
End Log.

Section ClosedTwice.
Context {W : Type} `{OS W}.
Context `{HashOrder, HashMapOrder, UninitializedMemory, SlotOrder}.
Context (fuel : nat) (U_GET_GC_MASK : Z -> Z) (unicodeMatchProperty : list Z -> option BuiltInCharacterClassID).
Context (unicodeMatchPropertyValue : list Z -> list Z -> option BuiltInCharacterClassID).
Abbreviation compile_calls := (compileRuleListCalls U_GET_GC_MASK unicodeMatchProperty unicodeMatchPropertyValue).

(** C40: a descriptor is closed twice.  On every system: when the temporary file was
    opened and the invalid header was written, and then a call of the client fails to
    write or to seek, [compiledToFile] returns an error, and it has closed
    the descriptor of the temporary file twice: the client has closed its copy of the
    handle.  By then another thread can have been given the descriptor. *)
Theorem handle_closed_twice json rules path (w : W) s1 temporaryPath fd s2 r calls compilerError s3 c :
  openTemporaryFile temporaryPrefix (mkLogged w []) = Some (s1, (temporaryPath, fd)) -> isHandleValid fd = true ->
  writeToFile fuel fd invalidHeader ContentRuleListFileHeaderSize s1 = Some (s2, r) -> (r =? -1) = false ->
  compile_calls json rules = Some (calls, compilerError) ->
  clientCalls fuel (newCompilationClient fd newMetaData) calls s2 = Some (s3, c) -> m_fileError c = true ->
  exists s4, compiledToFile fuel U_GET_GC_MASK unicodeMatchProperty unicodeMatchPropertyValue json rules path (mkLogged w []) =
      Some (s4, inl (match compilerError with Some error => CompilerError error | None => StoreErrorCode CompileFailed end)) /\ closed s4 = [fd; fd].
Proof.
  intros Hopen Hvalid Hheader Hr Hcalls Hclient Herror.
  assert (closed s3 = [fd]) as Hlog.
  { apply clientCalls_closed in Hclient; [|by intros _]. unfold log_step in Hclient. rewrite Herror in Hclient. cbn [newCompilationClient m_fileError m_fileHandle] in Hclient.
    apply openTemporaryFile_closed in Hopen. apply writeToFile_closed in Hheader. by rewrite Hclient, Hheader, Hopen. }
  exists (mkLogged (sys_close fd (system s3)) (closed s3 ++ [fd])). split; [|by rewrite Hlog].
  unfold compiledToFile, sbind. rewrite Hopen. unfold isHandleValid in Hvalid. apply negb_true_iff in Hvalid. rewrite Hvalid, Hheader, Hr, Hcalls. cbn [lift_option]. rewrite Hclient.
  unfold finishFile, closeFile, isHandleValid. rewrite Hvalid, Herror. by destruct compilerError.
Qed.
End ClosedTwice.

(** ** Examples *)

(** Fifty spaces, which the parser of the example takes for [sampleJSON]. *)
Definition longSource : WString := mkWString true (replicate 50 32).

Lemma longSource_size : vec_size (ruleListFile longSource storedRuleList) < 2 ^ 31.
Proof. by vm_compute. Qed.

Abbreviation cappedDisk := (emptyDisk (writes := Capped 48) 0).

(** A system that takes 48 bytes at a time. *)
Lemma short_write_unnoticed_witness : exists w' l, compileContentRuleList 1 (λ _, 0) noProperty noPropertyValue (λ _, true) (λ _, Some sampleJSON) sampleStore sampleIdentifier longSource cappedDisk
  = Some (w', inr l) /\ compiledExtension (disk w') l = None.
Proof.
  destruct (short_write_unnoticed 1 (λ _, 0) noProperty noPropertyValue (λ _, true) (λ _, Some sampleJSON) sampleStore sampleIdentifier longSource storedRules storedRuleList samplePath 48 cappedDisk
    (emptyDisk_ok 0) (simulated_capped 48 eq_refl) (simulated_reads _) ltac:(by vm_compute) samplePath_eq storedRules_eq storedRuleList_eq longSource_size ltac:(by vm_compute) ltac:(left; by vm_compute))
    as (w' & r & Hrun & l & content & -> & _ & _ & Hl & _).
  exists w', l. split; [exact Hrun|exact Hl].
Defined.

(** A disk that is full after the header. *)
Abbreviation fullDisk := (mkLogged (emptyDisk (writes := Limited) 48) []).

Definition fullDisk_opened : Logged (Simulation Limited) * (option WString * Z) :=
  Eval vm_compute in default (fullDisk, (None, -1)) (openTemporaryFile temporaryPrefix fullDisk).

Definition fullDisk_header : Logged (Simulation Limited) * Z :=
  Eval vm_compute in default (fullDisk, -1) (writeToFile 1 fullDisk_opened.2.2 invalidHeader ContentRuleListFileHeaderSize fullDisk_opened.1).

Definition storedCalls : list ClientCall * option ContentExtensionError :=
  Eval vm_compute in default ([], None) (compileRuleListCalls (λ _, 0) noProperty noPropertyValue sampleSource storedRules).

Definition fullDisk_client : Logged (Simulation Limited) * CompilationClient :=
  Eval vm_compute in default (fullDisk, newCompilationClient (-1) newMetaData) (clientCalls 1 (newCompilationClient 3 newMetaData) storedCalls.1 fullDisk_header.1).

Lemma fullDisk_opened_eq : openTemporaryFile temporaryPrefix fullDisk = Some (fullDisk_opened.1, (fullDisk_opened.2.1, 3)).
Proof. by vm_compute. Qed.

Lemma fullDisk_header_eq : writeToFile 1 3 invalidHeader ContentRuleListFileHeaderSize fullDisk_opened.1 = Some (fullDisk_header.1, fullDisk_header.2).
Proof. by vm_compute. Qed.

Lemma storedCalls_eq : compileRuleListCalls (λ _, 0) noProperty noPropertyValue sampleSource storedRules = Some (storedCalls.1, None).
Proof. by vm_compute. Qed.

Lemma fullDisk_client_eq : clientCalls 1 (newCompilationClient 3 newMetaData) storedCalls.1 fullDisk_header.1 = Some (fullDisk_client.1, fullDisk_client.2).
Proof. by vm_compute. Qed.

Lemma handle_closed_twice_witness : exists s, compiledToFile 1 (λ _, 0) noProperty noPropertyValue sampleSource storedRules (mkWString true samplePath) fullDisk
  = Some (s, inl (StoreErrorCode CompileFailed)) /\ closed s = [3; 3].
Proof.
  exact (handle_closed_twice 1 (λ _, 0) noProperty noPropertyValue sampleSource storedRules (mkWString true samplePath) _ _ _ _ _ _ _ _ _ _
    fullDisk_opened_eq eq_refl fullDisk_header_eq eq_refl storedCalls_eq fullDisk_client_eq eq_refl).
Defined.
